(* ===== verification/_CoqProject ===== *)
-Q . S2P
Prelude.v
PyVal.v
Constants.v
RoomVersions.v
Ids.v
Events.v
EventAuth.v
EventAuthLemmas.v
EventAuthProps.v
EventAuthExamples.v
EventObjects.v
Redaction.v
RedactionProps.v
RedactionAuth.v
RedactionExamples.v
StateFilter.v
StateFilterProps.v
TopoSort.v
IterUtils.v
StateResV2.v
StateResLemmas.v
StateResProps.v
StateResTerm.v
StateResAuthChain.v
StateResThms.v
StateResExamples.v
StateResV1.v
StateResV1Props.v
StateResV1Thms.v
StateResV1Examples.v
StreamChangeCache.v
WheelTimer.v
IdGenerators.v
IdGenProps.v
StrLemmas.v
StreamTokens.v
StreamTokenProps.v
Presence.v
PresenceProps.v
PresenceThms.v
AsyncLocks.v
AsyncLockProps.v
LinearizerProps.v
Ratelimiter.v
Visibility.v
VisibilityProps.v
VisibilityServer.v
VisibilityExamples.v
LinkedList.v
TreeCache.v
CacheStores.v
LruCache.v
LruProps.v
LruThms.v
LruMain.v
LruHistory.v
DictionaryCache.v
DictionaryCacheProps.v
StateGroups.v
StateGroupProps.v
StateGroupWrites.v
StateStore.v
StateStoreProps.v
StateStoreMain.v
ExpiringCache.v
EventContext.v
StateHandler.v
StateHandlerProps.v
StateHandlerThms.v
StateHandlerMain.v
StateHandlerHistory.v
StateDispatch.v
PurgeEvents.v
StateHandlerExamples.v
AuthChains.v
AuthChainReads.v
AuthChainProps.v
AuthChainWrites.v
AuthChainWalk.v
AuthChainThms.v
