(* ===== verification/Prelude.v ===== *)
(** * Synapse, a Matrix homeserver: a verification development

    The repository under [src/] is Synapse, a Python server for the Matrix protocol:
    rooms whose history is a graph of signed events, replicated between servers.
    This library models the parts that decide what a room's history and state are,
    and the in-memory structures that order and announce it, and proves the
    properties those parts exist for.

    ** The program and the files

    - [synapse/event_auth.py] decides whether an event is allowed by the state of its
      room.  [EventAuth] has every function of the module; [EventAuthLemmas]
      the lemmas about them, [EventAuthProps] the properties and
      [EventAuthExamples] one room in which their hypotheses hold.
    - [synapse/state/v2.py] merges the states of forked histories.  [TopoSort] has the
      topological sort, [StateResV2] the rest of the module, [StateResLemmas],
      [StateResProps] (what is kept, and how each event is checked), [StateResTerm] (termination) and
      [StateResAuthChain] (the auth chain difference) its theory, [StateResThms] the
      properties and [StateResExamples] their witnesses.
    - [synapse/state/v1.py] does so in rooms of version 1: [StateResV1],
      [StateResV1Props], [StateResV1Thms] and the witnesses in [StateResV1Examples].
    - [synapse/types/state.py] describes which part of a state is wanted:
      [StateFilter], [StateFilterProps].
    - [synapse/events/utils.py] ([prune_event]) and [synapse/crypto/event_signing.py]
      redact, hash and sign events: [Redaction], with the event classes of
      [synapse/events/__init__.py] in [EventObjects]; [RedactionProps] and
      [RedactionAuth] (redaction against [EventAuth]), [RedactionExamples].
    - [synapse/storage/util/id_generators.py] hands out stream ids and tells how far
      a stream is complete: [IdGenerators], [IdGenProps].
    - [synapse/util/caches/stream_change_cache.py]: [StreamChangeCache].
    - [synapse/util/wheel_timer.py]: [WheelTimer].
    - The tokens of [synapse/types/__init__.py] say up to where a client or a stream has
      read: [StreamTokens], [StreamTokenProps], on the string lemmas of [StrLemmas].
    - [synapse/handlers/presence.py] keeps who is online, with the wheel timer:
      [Presence] has the functions that decide on states and timers and the operations of
      [PresenceHandler], [PresenceProps] their invariant, [PresenceThms] the handler over
      time and its theorems.
    - [Linearizer] and [ReadWriteLock] of [synapse/util/async_helpers.py] keep tasks
      apart: [AsyncLocks], [AsyncLockProps] (the read-write lock), [LinearizerProps].
    - [synapse/api/ratelimiting.py]: [Ratelimiter].
    - [synapse/visibility.py] decides which events clients and other servers are sent:
      [Visibility], [VisibilityProps] (the rule for clients),
      [VisibilityServer] (the rule for servers), [VisibilityExamples].
    - The caches.  [synapse/util/linked_list.py] is [LinkedList],
      [synapse/util/caches/treecache.py] [TreeCache]; [CacheStores] is the interface of the
      dictionaries an [LruCache] is built on, with the dict and the tree as instances.
      [LruCache] has [synapse/util/caches/lrucache.py]; [LruProps] is the list of items it
      stands for and the invariant that relates the two, [LruThms] and [LruMain] the
      refinement operation by operation, [LruHistory] its theorems, their witnesses and what
      a client relies on.  [DictionaryCache] has
      [synapse/util/caches/dictionary_cache.py], [DictionaryCacheProps] its coherence with
      the data behind it.  [ExpiringCache] is [synapse/util/caches/expiringcache.py].
    - [synapse/storage/databases/state/] keeps the state of a room at each event:
      [StateGroups] has the tables and the transactions of [store.py] and
      [bg_updates.py], [StateGroupProps] what the tables mean and the two ways to
      read them, [StateGroupWrites] what writes, batches and purges do.  [StateStore] has
      the methods of the store with its two dictionary caches; [StateStoreProps] shows that
      the caches agree with the tables, [StateStoreMain] has the theorems over the life of a
      store and their witnesses.
    - [synapse/state/__init__.py] works out the state before and after each event:
      [StateHandler] has its two handlers, with the methods of
      [synapse/storage/controllers/state.py] and of the main database that they call;
      [EventContext] the contexts of [synapse/events/snapshot.py] and their JSON.
      [StateHandlerProps] and [StateHandlerThms] (what each operation does, the interface
      [StateResolverLaws] of state resolution), [StateHandlerMain] (contexts, and the steps
      of a handler's life), [StateHandlerHistory] (the theorems over every history) and
      [StateHandlerExamples] (witnesses).  [StateDispatch] chooses between the two
      algorithms of state resolution and shows that they meet the interface.
      [PurgeEvents] looks for state groups that can be deleted
      ([synapse/storage/controllers/purge_events.py]).
    - Auth chains in the database.  [AuthChains] has the tables and what writes them when
      events are stored: the chain cover index of
      [synapse/storage/databases/main/events.py] ([_add_chain_cover_index],
      [_allocate_chain_ids], [_LinkMap]).  [AuthChainReads] has the reads of
      [synapse/storage/databases/main/event_federation.py], by the index and by walking.
      [AuthChainProps] says what is always true of the index and that reads from it are
      exact, [AuthChainWrites] that it stays true, [AuthChainWalk] is about the walks, and
      [AuthChainThms] has the theorems over every history of stored events, with witnesses
      and examples.  [IterUtils] is [synapse/util/iterutils.py], whose topological sort
      the index uses.
    - What the above share: this file (exceptions, the error monad, generic lemmas and
      tactics), [PyVal] (the Python values found in event content), [Constants] and
      [RoomVersions] ([synapse/api]), [Ids] (identifiers of [synapse/types/__init__.py])
      and [Events] (the typed view of an event).

    State resolution calls the authorisation rules on each conflicted event, both read
    events through [Events], and both are parameterised by the room version.  The
    definitions have the names of the source; parts of a long function that have a
    name of their own ([check_join], [try_apply], [begin_fetch]) are translated from a
    contiguous range of its lines and composed as the function composes them.

    ** Conventions

    - A function that can raise returns [result]; [exn] has the exception classes of
      [synapse/api/errors.py] and the built-in ones.  Messages are the literal
      templates.  Catching is [try_except] with the classes caught.
    - A [str] is the list of its UTF-8 bytes; [int(s)] reads ASCII digits; a finite
      float is a dyadic number; a dict in event content is an association list with
      distinct keys.  Operations on values whose type nothing checks ([json]) raise
      what Python raises.
    - Python integers are unbounded, so are those of the model; times are divided
      exactly in [WheelTimer], where the source divides floats; the float product of
      [set_cache_factor] is an argument.
    - Python does not fix the order in which sets are iterated (nor the code the order
      in which dicts were filled): [IterOrder] is a parameter and the theorems hold for
      every order that lists each element once.
    - State resolution mutates a shared map of events: it is threaded through a state
      and error monad.  Its unbounded loops take fuel, and the result [None] is out of
      fuel; [resolve_terminates] gives the fuel that is enough for acyclic auth events,
      for every input.  Loops whose measure is evident (eviction, skipping forward) take
      the length of their data as fuel, and their lemmas show that it is enough.
    - The critical sections of the id generators are single steps; the theorem about
      [MultiWriterIdGenerator] is about every interleaving of them with database
      commits and with the announcements of other writers.
    - An operation of the presence handler runs without interruption, at the time it is
      given.  The tasks of the locks interleave at their awaits, in every way a step
      relation allows, and may be cancelled there.
    - Objects the caches share (list nodes, entries) are addresses in a heap.  Callbacks
      are names, and running one appends it to a log.  The tables of state groups are
      lists of rows; a transaction is one step; the loops along the edges take the number
      of the group as fuel, which is enough since edges lead to smaller numbers.
    - The operations of the state handler are a monad that keeps the state when they fail;
      an operation that waits for full state has changed nothing.  Cache entries, which are
      shared and assigned to, are addresses in a heap.  The cache of [get_state_group_delta],
      which nothing invalidates, is part of the handler and may forget entries at any time.
    - In the index of auth chains a loop that runs out of fuel raises [OutOfFuel]; the
      fuel is the number of stored events, and the theorems show that no loop runs out,
      since each round goes back to older events.  [rank], a number for each event that is
      smaller for its auth events, stands for the fact that auth events do not go in
      circles.  The cache of auth events may forget anything at any time ([forget]).
    - The times and rates of the rate limiter are rational numbers; the rounding of
      floating-point numbers is not modelled.
    - Libraries and the database are parameters: signatures and canonical JSON ([Crypto],
      [Hashing], [Sha1]), the event store ([StateResolutionStore], [VisibilityStore]),
      rows and sequence values.

    ** What the theorems show

    - Authorisation: a power-levels event that replaces another changes only levels its
      sender may change, and gives nobody more than the sender has, except that a user
      whose entry it removes falls back to the old default; bans hold, but for the
      creator's first join; joins are allowed exactly by the join rules; kicks and bans need more power than
      their target; accepted auth events are coherent; the decision depends only on the
      state that [auth_types_for_event] names, and for power-levels events on their own key;
      sizes, redactions and error classes.
    - State resolution: the result keeps the agreed state, and every event of the conflict
      is entered exactly if the auth rules accept it against the state resolved so far and
      its own auth events; it terminates; the orders used are the specified ones, whatever the
      iteration order; the auth chain difference is that of the whole chains; which
      exceptions leave an event out and which end the resolution.  Of version 1: the
      result chooses among the given values, does not depend on the order of iteration,
      and prefers deeper events the rules accept.
    - State filters: difference, expansion, split, round trips, bounds and the SQL
      clause agree with the set of keys a filter matches.
    - Redaction: idempotent, lets only the allowed data through, keeps event ids and
      signatures, and in rooms with the updated rules changes no authorisation decision,
      with two exceptions that the theorem names; hashing and checking hashes agree.
    - Stream ids: the current token never passes an open transaction, on one or several
      writers, started on an empty database or on one with a position for every writer; and
      what start-up makes of the rows it finds, and of a writer without a position.
    - The change cache answers as the full history of changes does, within its size;
      the wheel timer loses nothing and is never late, but can be early.
    - Stream tokens: printing and parsing, advancing as least upper bound, ranges that
      meet; which tokens the server prints and does not read.
    - Presence: the tables stay consistent, and an operation raises exactly on an unknown
      presence or a malformed user id; syncing users stay online, silent ones go offline at
      the next check; three ways in which a user stays as it is for ever.
    - Locks: exclusion in the order of arrival, bounded access, no lost wake-up, no
      deadlock, under every schedule and cancellation.
    - Rate limiting: the limiter is a leaky bucket per key, where each key has one rate and
      burst and actions are not recorded in a bucket that has run empty, with the bound and
      the retry time that follow; recorded actions that are forgiven, and a retry time that
      is too early.
    - Visibility: clients and servers see an event exactly by rules on the history
      visibility and the memberships at the event, withheld events, outliers and erased
      senders included; checking many users at once agrees
      with checking each; a retention policy of the wrong room, and an
      option that raises.

    - Caches: an [LruCache] over a dict or a tree behaves as a list of items with the most
      recently used first, stays within its size, and runs the callbacks of what it drops
      or overwrites; a [DictionaryCache] beside changing data tells nothing stale.
    - State groups: both database engines read the same state; stored groups can be read
      back through the caches for as long as they exist, and never change (from tables with no
      edge left of a group above the sequence); chains of
      deltas are bounded; batches are given the right groups; a purge in two steps brings
      rows back.
    - The state handler: every event is given the state before and after it, whether it
      comes from the tables, from resolution or from the cache, and reading the state at a
      stored event returns it for as long as the event keeps its group, when no purge takes a
      group that the cache of resolved states names; the entry of a resolved state is the smallest;
      contexts survive being sent between workers; the caches outlive purged groups, and
      the search for groups to purge does not get to the groups below.
    - Auth chains: storing events, none of which names an auth event twice, never fails and
      keeps the index right, an event is
      indexed exactly when its auth chain is known; auth chains are returned as they are in
      the stored events, by index or walk, if auth events are not stored after the events
      that name them; differences from the index are exact, and are
      those state resolution relies on; the walk for differences misses nothing, but returns
      events it should not; an auth event named twice, a transaction that is run again and
      a cache that is not invalidated give wrong answers.  Topological sorts are
      complete and in order.

    ** Not modelled, and next

    The other stores, federation, replication, HTTP, configuration, push, media and the request
    handlers are input and output around these parts.  Logging, metrics and tracing
    calls are left out of the functions modelled.  Of presence, the worker handler, the
    stream for clients and the federation queue are left out; of the LRU cache, the
    time-based expiry, [cache_get_multi] and evictions from another thread during a resize; of the auth chains, the
    background update that indexes old rooms.  Next would come the client formats of
    [synapse/events/utils.py], the forward extremities of
    [synapse/storage/controllers/persist_events.py], and the independence of state
    resolution v2 as a whole from the iteration order. *)

From Stdlib Require Export ZArith Lia Ascii.
From stdpp Require Export base tactics numbers option list strings gmap sorting.

#[global] Open Scope Z_scope.

(** ** Exceptions

    The exception classes of [synapse/api/errors.py] that the modelled code
    raises, and the Python built-in classes its dynamic operations raise.  The
    message is the literal template of the [raise] statement; what is
    interpolated into it is not kept. *)

Inductive py_exn :=
| KeyError | TypeError | ValueError | AttributeError | IndexError
| AssertionError | RuntimeError | OverflowError | NameError.

Inductive exn :=
| AuthError (code : Z) (msg : string)
| UnstableSpecAuthError (code : Z) (msg : string) (errcode : string)
| SynapseError (code : Z) (msg : string) (errcode : string)
| EventSizeError (msg : string) (unpersistable : bool)
| LimitExceededError (limiter_name : string) (retry_after_ms : Z)
| SignatureVerifyException
| PyException (msg : string)
| PyBuiltin (e : py_exn).

#[global] Instance py_exn_eq_dec : EqDecision py_exn.
Proof. solve_decision. Defined.
#[global] Instance exn_eq_dec : EqDecision exn.
Proof. solve_decision. Defined.

(** [except AuthError]: [UnstableSpecAuthError] is a subclass of [AuthError]. *)
Definition is_AuthError (e : exn) : bool :=
  match e with
  | AuthError _ _ | UnstableSpecAuthError _ _ _ => true
  | _ => false
  end.

(** [except SynapseError]: [AuthError], [UnstableSpecAuthError],
    [EventSizeError] and [LimitExceededError] are subclasses of [SynapseError]. *)
Definition is_SynapseError (e : exn) : bool :=
  match e with
  | AuthError _ _ | UnstableSpecAuthError _ _ _
  | SynapseError _ _ _ | EventSizeError _ _ | LimitExceededError _ _ => true
  | _ => false
  end.

(** ** The error monad: a Python computation returns a value or raises *)

Inductive result (A : Type) : Type :=
| Ok (a : A)
| Err (e : exn).
Arguments Ok {A} a.
Arguments Err {A} e.

#[global] Instance result_ret : MRet result := @Ok.
#[global] Instance result_bind : MBind result := λ A B f m,
  match m with Ok a => f a | Err e => Err e end.
#[global] Instance result_fmap : FMap result := λ A B f m,
  match m with Ok a => Ok (f a) | Err e => Err e end.

#[global] Instance result_eq_dec `{EqDecision A} : EqDecision (result A).
Proof. solve_decision. Defined.

Definition is_ok {A} (r : result A) : bool :=
  match r with Ok _ => true | Err _ => false end.

(** The value of a computation known to return, as used in examples. *)
Definition unwrap {A} (d : A) (r : result A) : A :=
  match r with Ok a => a | Err _ => d end.

(** [raise e] *)
Definition raise {A} (e : exn) : result A := Err e.

(** [if c: raise e], as a statement. *)
Definition raise_if (c : bool) (e : exn) : result unit :=
  if c then Err e else Ok tt.

(** [try: m / except C as e: h e] *)
Definition try_except {A} (m : result A) (catches : exn → bool)
    (h : exn → result A) : result A :=
  match m with
  | Err e => if catches e then h e else Err e
  | Ok a => Ok a
  end.

(** [for x in l: acc = f acc x], where the body may raise. *)
Fixpoint fold_res {A B} (f : B → A → result B) (l : list A) (acc : B) : result B :=
  match l with
  | [] => Ok acc
  | x :: l => acc ← f acc x; fold_res f l acc
  end.

(** [for x in l: f x], the body only raising or not. *)
Fixpoint iter_res {A} (f : A → result unit) (l : list A) : result unit :=
  match l with
  | [] => Ok tt
  | x :: l => f x ;; iter_res f l
  end.

(** [[f x for x in l]], where [f] may raise. *)
Fixpoint map_res {A B} (f : A → result B) (l : list A) : result (list B) :=
  match l with
  | [] => Ok []
  | x :: l => y ← f x; ys ← map_res f l; Ok (y :: ys)
  end.

(** ** Lemmas and tactics for the monad *)

Lemma bind_ok {A B} (m : result A) (f : A → result B) b :
  (m ≫= f) = Ok b ↔ ∃ a, m = Ok a ∧ f a = Ok b.
Proof. destruct m; simpl; split; naive_solver. Qed.

Lemma bind_err {A B} (m : result A) (f : A → result B) e :
  (m ≫= f) = Err e ↔ m = Err e ∨ ∃ a, m = Ok a ∧ f a = Err e.
Proof. destruct m; simpl; split; naive_solver. Qed.

Lemma fmap_ok {A B} (f : A → B) (m : result A) b :
  f <$> m = Ok b ↔ ∃ a, m = Ok a ∧ b = f a.
Proof. destruct m; simpl; split; naive_solver. Qed.

Lemma raise_if_ok c e u : raise_if c e = Ok u ↔ c = false.
Proof. destruct c, u; simpl; split; naive_solver. Qed.

Lemma is_ok_true {A} (r : result A) : is_ok r = true ↔ ∃ a, r = Ok a.
Proof. destruct r; simpl; split; naive_solver. Qed.

Lemma is_ok_false {A} (r : result A) : is_ok r = false ↔ ∃ e, r = Err e.
Proof. destruct r; simpl; split; naive_solver. Qed.

Lemma unwrap_ok {A} (d : A) (r : result A) : is_ok r = true → r = Ok (unwrap d r).
Proof. by destruct r. Qed.

Lemma iter_res_ok {A} (f : A → result unit) l u :
  iter_res f l = Ok u ↔ Forall (λ x, f x = Ok tt) l.
Proof.
  destruct u. induction l as [|x l IH]; simpl.
  - split; [constructor | done].
  - rewrite bind_ok, Forall_cons, <- IH. split.
    + intros ([] & ? & ?). done.
    + intros [? ?]. eauto.
Qed.

(** Whether a loop whose body only checks succeeds does not depend on the order
    in which it visits its elements. *)
Lemma iter_res_perm {A} (f : A → result unit) l k :
  l ≡ₚ k → is_ok (iter_res f l) = is_ok (iter_res f k).
Proof.
  intros Hp. apply eq_true_iff_eq. rewrite !is_ok_true.
  split; intros [u Hu]; exists tt; rewrite iter_res_ok, Forall_forall in Hu |- *;
    intros x Hx; apply Hu; [by rewrite Hp | by rewrite <- Hp].
Qed.

Lemma map_res_ok {A B} (f : A → result B) l k :
  map_res f l = Ok k ↔ Forall2 (λ x y, f x = Ok y) l k.
Proof.
  revert k. induction l as [|x l IH]; intros k; simpl.
  - split; [intros [= <-]; constructor | by inversion 1].
  - rewrite bind_ok. setoid_rewrite bind_ok. setoid_rewrite IH. split.
    + intros (y & ? & ys & ? & [= <-]). by constructor.
    + inversion 1; subst. eauto 6.
Qed.

Lemma fold_res_app {A B} (f : B → A → result B) l k acc :
  fold_res f (l ++ k) acc = (fold_res f l acc ≫= fold_res f k).
Proof.
  revert acc. induction l as [|x l IH]; intros acc; simpl; [done|].
  destruct (f acc x); simpl; [apply IH | done].
Qed.

(** An invariant of the accumulator is kept by the whole loop. *)
Lemma fold_res_ind {A B} (P : B → Prop) (f : B → A → result B) l acc r :
  (∀ b x b', x ∈ l → P b → f b x = Ok b' → P b') →
  P acc → fold_res f l acc = Ok r → P r.
Proof.
  revert acc. induction l as [|x l IH]; intros acc Hstep H0; simpl.
  - by intros [= <-].
  - rewrite bind_ok. intros (b & Hb & Hr).
    apply (IH b); [| by apply (Hstep acc x); [left | |] | done].
    intros b1 y b2 Hy. apply Hstep. by right.
Qed.

(** A loop that does not raise, with an invariant on what was visited. *)
Lemma fold_res_prefix {A B} (P : list A → B → Prop) (f : B → A → result B) l acc :
  P [] acc → (∀ l1 x l2 b, l = l1 ++ x :: l2 → P l1 b → ∃ b', f b x = Ok b' ∧ P (l1 ++ [x]) b') →
  ∃ r, fold_res f l acc = Ok r ∧ P l r.
Proof.
  intros H0 Hstep. enough (Hg : ∀ l2 l1 b, l = l1 ++ l2 → P l1 b → ∃ r, fold_res f l2 b = Ok r ∧ P l r) by by apply (Hg l []).
  induction l2 as [|x l2 IH]; intros l1 b Hl Hb; simpl; [exists b; split; [done|]; rewrite Hl; by rewrite app_nil_r|].
  destruct (Hstep l1 x l2 b Hl Hb) as (b' & -> & Hb'). cbn [mbind result_bind]. apply (IH (l1 ++ [x])); [by rewrite <- app_assoc|done].
Qed.

Lemma fold_res_total {A B} (P : B → Prop) (f : B → A → result B) l acc :
  P acc → (∀ x b, x ∈ l → P b → ∃ b', f b x = Ok b' ∧ P b') → ∃ r, fold_res f l acc = Ok r ∧ P r.
Proof.
  intros H0 Hstep. apply (fold_res_prefix (λ _, P)); [done|]. intros l1 x l2 b -> Hb. apply Hstep; [set_solver|done].
Qed.

(** The same at the loop of the goal. *)
Tactic Notation "loop_prefix" constr(P) "as" simple_intropattern(pat) :=
  match goal with |- context [fold_res ?f ?l ?acc] => destruct (fold_res_prefix P f l acc) as pat end.
Tactic Notation "loop_total" constr(P) "as" simple_intropattern(pat) :=
  match goal with |- context [fold_res ?f ?l ?acc] => destruct (fold_res_total P f l acc) as pat end.

(** ** Filters on lists *)

Lemma filter_keeps {A} (P : A → Prop) `{∀ x, Decision (P x)} (l : list A) : (∀ x, x ∈ l → P x) → filter P l = l.
Proof.
  induction l as [|x l IH]; intros Hl; [done|]. rewrite filter_cons, decide_True by (apply Hl; by left).
  f_equal. apply IH. intros y Hy. apply Hl. by right.
Qed.
Lemma filter_drops {A} (P : A → Prop) `{∀ x, Decision (P x)} (l : list A) : (∀ x, x ∈ l → ¬ P x) → filter P l = [].
Proof.
  induction l as [|x l IH]; intros Hl; [done|]. rewrite filter_cons, decide_False by (apply Hl; by left).
  apply IH. intros y Hy. apply Hl. by right.
Qed.

Lemma filter_same {A} (P Q : A → Prop) `{∀ x, Decision (P x), ∀ x, Decision (Q x)} (l : list A) :
  (∀ x, x ∈ l → P x ↔ Q x) → filter P l = filter Q l.
Proof.
  induction l as [|x l IH]; intros Hl; [done|]. rewrite !filter_cons.
  rewrite IH by (intros y Hy; apply Hl; by right). by rewrite (decide_ext (P x) (Q x)) by (apply Hl; by left).
Qed.

Lemma list_filter_fmap {A B} (f : A → B) (P : B → Prop) `{∀ x, Decision (P x)} (l : list A) :
  filter P (f <$> l) = f <$> filter (λ x, P (f x)) l.
Proof. induction l as [|x l IH]; [done|]. rewrite fmap_cons, !filter_cons, IH. by case_decide. Qed.

Lemma Ok_inj {A} (a b : A) : Ok a = Ok b → a = b.
Proof. congruence. Qed.

(** [inv_res]: decompose a hypothesis that says a monadic program returned. *)
Ltac inv_res :=
  repeat match goal with
  | H : (_ ≫= _) = Ok _ |- _ => apply bind_ok in H as (? & ? & ?)
  | H : _ <$> _ = Ok _ |- _ => apply fmap_ok in H as (? & ? & ?)
  | H : raise_if _ _ = Ok _ |- _ => apply raise_if_ok in H
  | H : Ok _ = Ok _ |- _ => apply Ok_inj in H; try subst
  | H : Err _ = Ok _ |- _ => discriminate H
  | H : Ok _ = Err _ |- _ => discriminate H
  | H : raise _ = Ok _ |- _ => discriminate H
  | H : mret _ = Ok _ |- _ => unfold mret, result_ret in H
  end.

(** [split_if H]: case on the outermost boolean test or match of a hypothesis,
    dropping the branches that raised. *)
Ltac split_if H :=
  match type of H with
  | (if ?b then _ else _) = _ => destruct b eqn:?
  | (match ?o with _ => _ end) = _ => destruct o eqn:?
  end; try discriminate.

(** Membership in a concrete list. *)
Ltac by_elem := apply (bool_decide_eq_true_1 _); by vm_compute.

Create HintDb synapse discriminated.
Create Rewrite HintDb synapse_rw.
#[export] Hint Resolve iter_res_perm : synapse.
