(* ===== verification/PyVal.v ===== *)
(** * Python values the event code handles dynamically

    A Python [str] is its UTF-8 encoding, a [Stdlib] string of bytes: search and
    splitting at ASCII characters, equality and ordering agree with those on code
    points, and [py_len] counts code points.  [json] is a value decoded from JSON;
    an object is an association list in insertion order, its keys distinct.  A
    finite float is the dyadic [m * 2 ^ e].  The operations are the ones the
    source applies to event content without checking its type, with the built-in
    exception each raises on a value of the wrong type. *)

From S2P Require Import Prelude.

Inductive json :=
| JNull
| JBool (b : bool)
| JInt (z : Z)
| JFloat (m e : Z)
| JStr (s : string)
| JList (l : list json)
| JObj (o : list (string * json)).

Abbreviation dict := (list (string * json)).

(** ** Strings *)

Definition is_cont (c : ascii) : bool :=
  let n := N_of_ascii c in (128 <=? n)%N && (n <? 192)%N.

(** The code points of a string, each as its UTF-8 bytes. *)
Fixpoint utf8_chars (s : string) : list string :=
  match s with
  | "" => []
  | String c s =>
      match utf8_chars s with
      | String d t :: gs =>
          if is_cont d then String c (String d t) :: gs
          else String c "" :: String d t :: gs
      | gs => String c "" :: gs
      end
  end.

(** [len(s)] and [len(s.encode('utf-8'))] *)
Definition py_len (s : string) : Z := Z.of_nat (length (utf8_chars s)).
Definition byte_len (s : string) : Z := Z.of_nat (String.length s).

Fixpoint str_prefix (p s : string) : bool :=
  match p, s with
  | "", _ => true
  | String a p, String b s => bool_decide (a = b) && str_prefix p s
  | _, _ => false
  end.

(** [p in s] for two strings *)
Fixpoint str_contains (p s : string) : bool :=
  str_prefix p s ||
  match s with
  | "" => false
  | String _ s => str_contains p s
  end.

(** [s.find(c)] for a one-character [c]: the index, or [None] for -1. *)
Fixpoint str_find (c : ascii) (s : string) : option nat :=
  match s with
  | "" => None
  | String a s => if decide (a = c) then Some 0%nat else S <$> str_find c s
  end.

(** [s[n:]] and [s[:n]], in bytes *)
Fixpoint str_drop (n : nat) (s : string) : string :=
  match n, s with
  | S n, String _ s => str_drop n s
  | _, _ => s
  end.

Fixpoint str_take (n : nat) (s : string) : string :=
  match n, s with
  | S n, String a s => String a (str_take n s)
  | _, _ => ""
  end.

(** [s.split(c)] *)
Fixpoint str_split (c : ascii) (s : string) : list string :=
  match s with
  | "" => [""]
  | String a s =>
      if decide (a = c) then "" :: str_split c s
      else match str_split c s with
           | p :: ps => String a p :: ps
           | [] => [String a ""]
           end
  end.

(** [s.split(c, 1)]: one part, or two around the first [c]. *)
Definition str_split1 (c : ascii) (s : string) : list string :=
  match str_find c s with
  | Some i => [str_take i s; str_drop (S i) s]
  | None => [s]
  end.

(** [sep.join(l)] *)
Fixpoint str_join (sep : string) (l : list string) : string :=
  match l with
  | [] => ""
  | [s] => s
  | s :: l => s +:+ sep +:+ str_join sep l
  end.

(** ** [int(s)] on strings, for ASCII digits and white space *)

Definition digit_val (c : ascii) : option Z :=
  let n := Z.of_N (N_of_ascii c) in
  if (48 <=? n) && (n <=? 57) then Some (n - 48) else None.

Definition is_space (c : ascii) : bool :=
  let n := N_of_ascii c in
  ((9 <=? n) && (n <=? 13) || (28 <=? n) && (n <=? 32))%N.

Fixpoint lstrip (s : string) : string :=
  match s with
  | String c s' => if is_space c then lstrip s' else s
  | "" => ""
  end.

Fixpoint rstrip (s : string) : string :=
  match s with
  | String c s =>
      match rstrip s with
      | "" => if is_space c then "" else String c ""
      | r => String c r
      end
  | "" => ""
  end.

(** Digits, with single underscores allowed between two of them. *)
Fixpoint parse_digits (s : string) (acc : Z) (after_digit : bool) : option Z :=
  match s with
  | "" => if after_digit then Some acc else None
  | String c s =>
      match digit_val c with
      | Some d => parse_digits s (10 * acc + d) true
      | None =>
          if bool_decide (c = "_"%char) && after_digit
          then parse_digits s acc false else None
      end
  end.

Definition parse_int (s : string) : option Z :=
  match rstrip (lstrip s) with
  | String "-" s => Z.opp <$> parse_digits s 0 false
  | String "+" s => parse_digits s 0 false
  | s => parse_digits s 0 false
  end.

Definition int_of_str (s : string) : result Z :=
  match parse_int s with
  | Some z => Ok z
  | None => Err (PyBuiltin ValueError)
  end.

(** [str(z)], [%d] *)
Fixpoint pos_digits (fuel : nat) (z : Z) (acc : string) : string :=
  match fuel with
  | O => acc
  | S fuel =>
      let acc := String (ascii_of_N (Z.to_N (48 + z mod 10))) acc in
      if z <? 10 then acc else pos_digits fuel (z / 10) acc
  end.

Definition str_of_nonneg (z : Z) : string :=
  pos_digits (S (Z.to_nat (Z.log2 z))) z "".

Definition str_of_int (z : Z) : string :=
  if z <? 0 then String "-" (str_of_nonneg (- z)) else str_of_nonneg z.

(** ** Numbers: [bool] is a subclass of [int], and [==] compares by value *)

Definition num_val (j : json) : option (Z * Z) :=
  match j with
  | JBool b => Some (Z.b2z b, 0)
  | JInt z => Some (z, 0)
  | JFloat m e => Some (m, e)
  | _ => None
  end.

Definition dyadic_eqb (a b : Z * Z) : bool :=
  let '(m1, e1) := a in
  let '(m2, e2) := b in
  let e := Z.min e1 e2 in
  m1 * 2 ^ (e1 - e) =? m2 * 2 ^ (e2 - e).

(** Truncation towards zero. *)
Definition dyadic_trunc (m e : Z) : Z :=
  if 0 <=? e then m * 2 ^ e else Z.quot m (2 ^ (- e)).

(** [int(v)] *)
Definition py_int (j : json) : result Z :=
  match j with
  | JInt z => Ok z
  | JBool b => Ok (Z.b2z b)
  | JFloat m e => Ok (dyadic_trunc m e)
  | JStr s => int_of_str s
  | JNull | JList _ | JObj _ => Err (PyBuiltin TypeError)
  end.

(** [type(v) is int] *)
Definition is_int (j : json) : bool :=
  match j with JInt _ => true | _ => false end.

(** ** Dictionaries *)

Fixpoint dict_get {A} (k : string) (o : list (string * A)) : option A :=
  match o with
  | [] => None
  | (k', v) :: o => if decide (k = k') then Some v else dict_get k o
  end.

Definition dict_mem {A} (k : string) (o : list (string * A)) : bool :=
  match dict_get k o with Some _ => true | None => false end.

(** [d[k]] on a dict *)
Definition dict_getitem {A} (k : string) (o : list (string * A)) : result A :=
  match dict_get k o with
  | Some v => Ok v
  | None => Err (PyBuiltin KeyError)
  end.

Definition is_mapping (j : json) : bool :=
  match j with JObj _ => true | _ => false end.

(** [j.items()], [j.get(...)], [j.keys()], [j.values()]: a dict, or
    AttributeError. *)
Definition as_dict (j : json) : result dict :=
  match j with
  | JObj o => Ok o
  | _ => Err (PyBuiltin AttributeError)
  end.

(** [==] on JSON values: numbers by value, objects without regard to order. *)
Fixpoint py_eqb (a b : json) {struct a} : bool :=
  match a, b with
  | JNull, JNull => true
  | JStr s, JStr t => bool_decide (s = t)
  | JList l, JList k =>
      (fix go (l k : list json) {struct l} : bool :=
         match l, k with
         | [], [] => true
         | x :: l, y :: k => py_eqb x y && go l k
         | _, _ => false
         end) l k
  | JObj o, JObj p =>
      bool_decide (length o = length p) &&
      (fix go (o : dict) : bool :=
         match o with
         | [] => true
         | (k, v) :: o =>
             match dict_get k p with
             | Some w => py_eqb v w && go o
             | None => false
             end
         end) o
  | _, _ =>
      match num_val a, num_val b with
      | Some x, Some y => dyadic_eqb x y
      | _, _ => false
      end
  end.

(** [j == s] for a string [s] *)
Definition eq_str (j : json) (s : string) : bool :=
  match j with JStr t => bool_decide (t = s) | _ => false end.

(** [hash(j)]: lists and dicts are not hashable. *)
Definition hashable (j : json) : bool :=
  match j with JList _ | JObj _ => false | _ => true end.

(** ** Containers of unknown type *)

(** [list(j)], [for x in j] *)
Definition py_iter (j : json) : result (list json) :=
  match j with
  | JList l => Ok l
  | JObj o => Ok (JStr ∘ fst <$> o)
  | JStr s => Ok (JStr <$> utf8_chars s)
  | _ => Err (PyBuiltin TypeError)
  end.

(** [x in j] *)
Definition py_in (x j : json) : result bool :=
  match j with
  | JObj o =>
      match x with
      | JStr k => Ok (dict_mem k o)
      | _ => if hashable x then Ok false else Err (PyBuiltin TypeError)
      end
  | JList l => Ok (existsb (py_eqb x) l)
  | JStr s =>
      match x with
      | JStr p => Ok (str_contains p s)
      | _ => Err (PyBuiltin TypeError)
      end
  | _ => Err (PyBuiltin TypeError)
  end.

(** [l[i]] on a list or tuple, negative indices counting from the end *)
Definition list_getitem {A} (l : list A) (i : Z) : result A :=
  let n := Z.of_nat (length l) in
  let i := if i <? 0 then i + n else i in
  if i <? 0 then Err (PyBuiltin IndexError)
  else match l !! Z.to_nat i with
       | Some x => Ok x
       | None => Err (PyBuiltin IndexError)
       end.

Definition index_val (j : json) : option Z :=
  match j with JInt z => Some z | JBool b => Some (Z.b2z b) | _ => None end.

(** [j[x]] *)
Definition py_getitem (j x : json) : result json :=
  match j with
  | JObj o =>
      match x with
      | JStr k => dict_getitem k o
      | _ => if hashable x then Err (PyBuiltin KeyError) else Err (PyBuiltin TypeError)
      end
  | JList l =>
      match index_val x with
      | Some i => list_getitem l i
      | None => Err (PyBuiltin TypeError)
      end
  | JStr s =>
      match index_val x with
      | Some i => JStr <$> list_getitem (utf8_chars s) i
      | None => Err (PyBuiltin TypeError)
      end
  | _ => Err (PyBuiltin TypeError)
  end.

(** [content.get(k)] / [content.get(k, d)] on a dict *)
Definition get_or (k : string) (d : json) (o : dict) : json := default d (dict_get k o).

(** ** Lemmas *)

Lemma dict_get_elem {A} k (o : list (string * A)) v :
  dict_get k o = Some v → (k, v) ∈ o.
Proof.
  induction o as [|[k' v'] o IH]; simpl; [done|].
  case_decide; intros; simplify_eq; [left|right; auto].
Qed.

Lemma dict_get_nodup {A} k (o : list (string * A)) v :
  NoDup o.*1 → (k, v) ∈ o → dict_get k o = Some v.
Proof.
  induction o as [|[k' v'] o IH]; simpl; [by inversion 2|].
  intros [Hni Hnd]%NoDup_cons [[= -> ->]|Hin]%elem_of_cons.
  - by rewrite decide_True.
  - case_decide as Hk; [|auto]. subst. destruct Hni.
    apply list_elem_of_fmap. by exists (k', v).
Qed.

Lemma dict_mem_keys {A} k (o : list (string * A)) :
  dict_mem k o = true ↔ k ∈ o.*1.
Proof.
  unfold dict_mem. induction o as [|[k' v] o IH]; simpl; [split; [done|by inversion 1]|].
  rewrite elem_of_cons, <- IH. case_decide; naive_solver.
Qed.

Lemma eq_str_true j s : eq_str j s = true ↔ j = JStr s.
Proof. destruct j; simpl; try naive_solver. rewrite bool_decide_eq_true. naive_solver. Qed.

Lemma str_app_cons a s t : String a s +:+ t = String a (s +:+ t).
Proof. done. Qed.
Lemma str_app_nil t : "" +:+ t = t.
Proof. done. Qed.

Lemma str_take_drop n s : str_take n s +:+ str_drop n s = s.
Proof.
  revert s; induction n; intros [|a s]; simpl; try done.
  by rewrite str_app_cons, IHn.
Qed.

Lemma str_find_app c s t :
  str_find c s = None → str_find c (s +:+ String c t) = Some (String.length s).
Proof.
  induction s as [|a s IH]; rewrite ?str_app_cons; simpl; [by rewrite decide_True|].
  case_decide; [done|]. destruct (str_find c s) eqn:E; simpl; [done|].
  intros _. by rewrite IH.
Qed.

Lemma str_take_length s t : str_take (String.length s) (s +:+ t) = s.
Proof. induction s as [|a s IH]; rewrite ?str_app_cons; simpl; [by destruct t|by rewrite IH]. Qed.

Lemma str_drop_length s t : str_drop (String.length s) (s +:+ t) = t.
Proof. induction s as [|a s IH]; rewrite ?str_app_cons; simpl; [by destruct t|done]. Qed.

Lemma str_find_Some c s i :
  str_find c s = Some i →
  s = str_take i s +:+ String c (str_drop (S i) s) ∧ str_find c (str_take i s) = None.
Proof.
  revert i; induction s as [|a s IH]; intros i; simpl; [done|].
  case_decide as Ha.
  - intros [= <-]. subst. simpl. by destruct s.
  - destruct (str_find c s) as [j|]; simpl; [|done]. intros [= <-].
    destruct (IH j eq_refl) as [H1 H2]. split.
    + change (str_take (S j) (String a s)) with (String a (str_take j s)).
      by rewrite str_app_cons, <- H1.
    + simpl. rewrite decide_False by done. by rewrite H2.
Qed.

Lemma str_find_None_app c s t :
  str_find c (s +:+ t) = None ↔ str_find c s = None ∧ str_find c t = None.
Proof.
  induction s as [|a s IH]; rewrite ?str_app_cons; simpl; [rewrite str_app_nil; naive_solver|].
  case_decide; [naive_solver|]. rewrite !fmap_None. done.
Qed.

(** A string has no more code points than bytes. *)
Lemma py_len_le_byte_len s : py_len s ≤ byte_len s.
Proof.
  unfold py_len, byte_len. apply Nat2Z.inj_le.
  induction s as [|c s IH]; simpl; [done|].
  destruct (utf8_chars s) as [|[|d t] gs]; simpl in *; try lia.
  destruct (is_cont d); simpl in *; lia.
Qed.

#[export] Hint Resolve dict_get_elem dict_get_nodup py_len_le_byte_len : synapse.

Example parse_int_ex1 : parse_int " -1_000 " = Some (-1000).
Proof. reflexivity. Qed.
Example parse_int_ex2 : parse_int "1__0" = None.
Proof. reflexivity. Qed.
Example py_int_ex3 : py_int (JFloat (-3) (-1)) = Ok (-1).
Proof. reflexivity. Qed.
Example str_of_int_ex : str_of_int (-1203) = "-1203".
Proof. reflexivity. Qed.
Example str_split_ex : str_split "~" "56~2.58~3.59" = ["56"; "2.58"; "3.59"].
Proof. reflexivity. Qed.
