(* ===== verification/Constants.v ===== *)
(** * Constants: [synapse/api/constants.py] and the error codes used *)

From S2P Require Import Prelude.

Definition MAX_PDU_SIZE : Z := 65536.

Module Membership.
Definition INVITE : string := "invite".
Definition JOIN : string := "join".
Definition KNOCK : string := "knock".
Definition LEAVE : string := "leave".
Definition BAN : string := "ban".
End Membership.

Module JoinRules.
Definition PUBLIC : string := "public".
Definition KNOCK : string := "knock".
Definition INVITE : string := "invite".
Definition PRIVATE : string := "private".
Definition RESTRICTED : string := "restricted".
Definition KNOCK_RESTRICTED : string := "knock_restricted".
End JoinRules.

Module EventTypes.
Definition Member : string := "m.room.member".
Definition Create : string := "m.room.create".
Definition JoinRules : string := "m.room.join_rules".
Definition PowerLevels : string := "m.room.power_levels".
Definition Aliases : string := "m.room.aliases".
Definition Redaction : string := "m.room.redaction".
Definition ThirdPartyInvite : string := "m.room.third_party_invite".
Definition RoomHistoryVisibility : string := "m.room.history_visibility".
Definition Dummy : string := "org.matrix.dummy_event".
End EventTypes.

Module HistoryVisibility.
Definition INVITED : string := "invited".
Definition JOINED : string := "joined".
Definition SHARED : string := "shared".
Definition WORLD_READABLE : string := "world_readable".
End HistoryVisibility.

Module EventContentFields.
Definition FEDERATE : string := "m.federate".
Definition ROOM_CREATOR : string := "creator".
Definition AUTHORISING_USER : string := "join_authorised_via_users_server".
End EventContentFields.

Module Codes.
Definition UNKNOWN : string := "M_UNKNOWN".
Definition UNAUTHORIZED : string := "M_UNAUTHORIZED".
Definition INVALID_PARAM : string := "M_INVALID_PARAM".
Definition INSUFFICIENT_POWER : string := "ORG.MATRIX.MSC3848.INSUFFICIENT_POWER".
Definition ALREADY_JOINED : string := "ORG.MATRIX.MSC3848.ALREADY_JOINED".
Definition NOT_JOINED : string := "ORG.MATRIX.MSC3848.NOT_JOINED".
End Codes.
