(* ===== verification/RoomVersions.v ===== *)
(** * Room versions: [synapse/api/room_versions.py]

    The table of room versions and their feature flags, as the source lists
    them, with the lookup by identifier and the MSC3244 capabilities computed
    from it. *)

From S2P Require Import Prelude PyVal.

Module EventFormatVersions.
Definition ROOM_V1_V2 : Z := 1.
Definition ROOM_V3 : Z := 2.
Definition ROOM_V4_PLUS : Z := 3.
End EventFormatVersions.

Definition KNOWN_EVENT_FORMAT_VERSIONS : list Z :=
  [EventFormatVersions.ROOM_V1_V2; EventFormatVersions.ROOM_V3;
   EventFormatVersions.ROOM_V4_PLUS].

Module StateResolutionVersions.
Definition V1 : Z := 1.
Definition V2 : Z := 2.
End StateResolutionVersions.

Module RoomDisposition.
Definition STABLE : string := "stable".
Definition UNSTABLE : string := "unstable".
End RoomDisposition.

Definition PushRuleRoomFlag_EXTENSIBLE_EVENTS : string :=
  "org.matrix.msc3932.extensible_events".

Record RoomVersion := {
  identifier : string;
  disposition : string;
  event_format : Z;
  state_res : Z;
  enforce_key_validity : bool;
  special_case_aliases_auth : bool;
  strict_canonicaljson : bool;
  limit_notifications_power_levels : bool;
  implicit_room_creator : bool;
  updated_redaction_rules : bool;
  restricted_join_rule : bool;
  restricted_join_rule_fix : bool;
  knock_join_rule : bool;
  msc3389_relation_redactions : bool;
  knock_restricted_join_rule : bool;
  enforce_int_power_levels : bool;
  msc3931_push_features : list string
}.

#[global] Instance RoomVersion_eq_dec : EqDecision RoomVersion.
Proof. solve_decision. Defined.

Module RoomVersions.

Definition V1 : RoomVersion := {|
  identifier := "1";
  disposition := RoomDisposition.STABLE;
  event_format := EventFormatVersions.ROOM_V1_V2;
  state_res := StateResolutionVersions.V1;
  enforce_key_validity := false;
  special_case_aliases_auth := true;
  strict_canonicaljson := false;
  limit_notifications_power_levels := false;
  implicit_room_creator := false;
  updated_redaction_rules := false;
  restricted_join_rule := false;
  restricted_join_rule_fix := false;
  knock_join_rule := false;
  msc3389_relation_redactions := false;
  knock_restricted_join_rule := false;
  enforce_int_power_levels := false;
  msc3931_push_features := []
|}.

Definition V2 : RoomVersion := {|
  identifier := "2";
  disposition := RoomDisposition.STABLE;
  event_format := EventFormatVersions.ROOM_V1_V2;
  state_res := StateResolutionVersions.V2;
  enforce_key_validity := false;
  special_case_aliases_auth := true;
  strict_canonicaljson := false;
  limit_notifications_power_levels := false;
  implicit_room_creator := false;
  updated_redaction_rules := false;
  restricted_join_rule := false;
  restricted_join_rule_fix := false;
  knock_join_rule := false;
  msc3389_relation_redactions := false;
  knock_restricted_join_rule := false;
  enforce_int_power_levels := false;
  msc3931_push_features := []
|}.

Definition V3 : RoomVersion := {|
  identifier := "3";
  disposition := RoomDisposition.STABLE;
  event_format := EventFormatVersions.ROOM_V3;
  state_res := StateResolutionVersions.V2;
  enforce_key_validity := false;
  special_case_aliases_auth := true;
  strict_canonicaljson := false;
  limit_notifications_power_levels := false;
  implicit_room_creator := false;
  updated_redaction_rules := false;
  restricted_join_rule := false;
  restricted_join_rule_fix := false;
  knock_join_rule := false;
  msc3389_relation_redactions := false;
  knock_restricted_join_rule := false;
  enforce_int_power_levels := false;
  msc3931_push_features := []
|}.

Definition V4 : RoomVersion := {|
  identifier := "4";
  disposition := RoomDisposition.STABLE;
  event_format := EventFormatVersions.ROOM_V4_PLUS;
  state_res := StateResolutionVersions.V2;
  enforce_key_validity := false;
  special_case_aliases_auth := true;
  strict_canonicaljson := false;
  limit_notifications_power_levels := false;
  implicit_room_creator := false;
  updated_redaction_rules := false;
  restricted_join_rule := false;
  restricted_join_rule_fix := false;
  knock_join_rule := false;
  msc3389_relation_redactions := false;
  knock_restricted_join_rule := false;
  enforce_int_power_levels := false;
  msc3931_push_features := []
|}.

Definition V5 : RoomVersion := {|
  identifier := "5";
  disposition := RoomDisposition.STABLE;
  event_format := EventFormatVersions.ROOM_V4_PLUS;
  state_res := StateResolutionVersions.V2;
  enforce_key_validity := true;
  special_case_aliases_auth := true;
  strict_canonicaljson := false;
  limit_notifications_power_levels := false;
  implicit_room_creator := false;
  updated_redaction_rules := false;
  restricted_join_rule := false;
  restricted_join_rule_fix := false;
  knock_join_rule := false;
  msc3389_relation_redactions := false;
  knock_restricted_join_rule := false;
  enforce_int_power_levels := false;
  msc3931_push_features := []
|}.

Definition V6 : RoomVersion := {|
  identifier := "6";
  disposition := RoomDisposition.STABLE;
  event_format := EventFormatVersions.ROOM_V4_PLUS;
  state_res := StateResolutionVersions.V2;
  enforce_key_validity := true;
  special_case_aliases_auth := false;
  strict_canonicaljson := true;
  limit_notifications_power_levels := true;
  implicit_room_creator := false;
  updated_redaction_rules := false;
  restricted_join_rule := false;
  restricted_join_rule_fix := false;
  knock_join_rule := false;
  msc3389_relation_redactions := false;
  knock_restricted_join_rule := false;
  enforce_int_power_levels := false;
  msc3931_push_features := []
|}.

Definition V7 : RoomVersion := {|
  identifier := "7";
  disposition := RoomDisposition.STABLE;
  event_format := EventFormatVersions.ROOM_V4_PLUS;
  state_res := StateResolutionVersions.V2;
  enforce_key_validity := true;
  special_case_aliases_auth := false;
  strict_canonicaljson := true;
  limit_notifications_power_levels := true;
  implicit_room_creator := false;
  updated_redaction_rules := false;
  restricted_join_rule := false;
  restricted_join_rule_fix := false;
  knock_join_rule := true;
  msc3389_relation_redactions := false;
  knock_restricted_join_rule := false;
  enforce_int_power_levels := false;
  msc3931_push_features := []
|}.

Definition V8 : RoomVersion := {|
  identifier := "8";
  disposition := RoomDisposition.STABLE;
  event_format := EventFormatVersions.ROOM_V4_PLUS;
  state_res := StateResolutionVersions.V2;
  enforce_key_validity := true;
  special_case_aliases_auth := false;
  strict_canonicaljson := true;
  limit_notifications_power_levels := true;
  implicit_room_creator := false;
  updated_redaction_rules := false;
  restricted_join_rule := true;
  restricted_join_rule_fix := false;
  knock_join_rule := true;
  msc3389_relation_redactions := false;
  knock_restricted_join_rule := false;
  enforce_int_power_levels := false;
  msc3931_push_features := []
|}.

Definition V9 : RoomVersion := {|
  identifier := "9";
  disposition := RoomDisposition.STABLE;
  event_format := EventFormatVersions.ROOM_V4_PLUS;
  state_res := StateResolutionVersions.V2;
  enforce_key_validity := true;
  special_case_aliases_auth := false;
  strict_canonicaljson := true;
  limit_notifications_power_levels := true;
  implicit_room_creator := false;
  updated_redaction_rules := false;
  restricted_join_rule := true;
  restricted_join_rule_fix := true;
  knock_join_rule := true;
  msc3389_relation_redactions := false;
  knock_restricted_join_rule := false;
  enforce_int_power_levels := false;
  msc3931_push_features := []
|}.

Definition V10 : RoomVersion := {|
  identifier := "10";
  disposition := RoomDisposition.STABLE;
  event_format := EventFormatVersions.ROOM_V4_PLUS;
  state_res := StateResolutionVersions.V2;
  enforce_key_validity := true;
  special_case_aliases_auth := false;
  strict_canonicaljson := true;
  limit_notifications_power_levels := true;
  implicit_room_creator := false;
  updated_redaction_rules := false;
  restricted_join_rule := true;
  restricted_join_rule_fix := true;
  knock_join_rule := true;
  msc3389_relation_redactions := false;
  knock_restricted_join_rule := true;
  enforce_int_power_levels := true;
  msc3931_push_features := []
|}.

Definition MSC1767v10 : RoomVersion := {|
  identifier := "org.matrix.msc1767.10";
  disposition := RoomDisposition.UNSTABLE;
  event_format := EventFormatVersions.ROOM_V4_PLUS;
  state_res := StateResolutionVersions.V2;
  enforce_key_validity := true;
  special_case_aliases_auth := false;
  strict_canonicaljson := true;
  limit_notifications_power_levels := true;
  implicit_room_creator := false;
  updated_redaction_rules := false;
  restricted_join_rule := true;
  restricted_join_rule_fix := true;
  knock_join_rule := true;
  msc3389_relation_redactions := false;
  knock_restricted_join_rule := true;
  enforce_int_power_levels := true;
  msc3931_push_features := [PushRuleRoomFlag_EXTENSIBLE_EVENTS]
|}.

Definition V11 : RoomVersion := {|
  identifier := "11";
  disposition := RoomDisposition.STABLE;
  event_format := EventFormatVersions.ROOM_V4_PLUS;
  state_res := StateResolutionVersions.V2;
  enforce_key_validity := true;
  special_case_aliases_auth := false;
  strict_canonicaljson := true;
  limit_notifications_power_levels := true;
  implicit_room_creator := true;
  updated_redaction_rules := true;
  restricted_join_rule := true;
  restricted_join_rule_fix := true;
  knock_join_rule := true;
  msc3389_relation_redactions := false;
  knock_restricted_join_rule := true;
  enforce_int_power_levels := true;
  msc3931_push_features := []
|}.

End RoomVersions.
Import RoomVersions.

(** [{v.identifier: v for v in (...)}] *)
Definition KNOWN_ROOM_VERSIONS : list (string * RoomVersion) :=
  (λ v, (identifier v, v)) <$> [V1; V2; V3; V4; V5; V6; V7; V8; V9; V10; V11].

Record RoomVersionCapability := {
  cap_identifier : string;
  preferred_version : option RoomVersion;
  support_check_lambda : RoomVersion → bool
}.

Definition capability_entry (cap : RoomVersionCapability)
    : string * (option string * list string) :=
  (cap_identifier cap,
   (identifier <$> preferred_version cap,
    identifier <$> filter (λ v, support_check_lambda cap v = true)
                     (KNOWN_ROOM_VERSIONS.*2))).

Definition MSC3244_CAPABILITIES : list (string * (option string * list string)) :=
  capability_entry <$>
    [ {| cap_identifier := "knock"; preferred_version := Some V7;
         support_check_lambda := knock_join_rule |};
      {| cap_identifier := "restricted"; preferred_version := Some V9;
         support_check_lambda := restricted_join_rule |} ].

(** ** Well-formedness of the table *)

(** What the rest of the server relies on in each known version: a known event
    format and state resolution algorithm, the restricted-join fix only with
    restricted joins, [knock_restricted] only with both of its parts, and
    stringy power levels refused only where canonical JSON is strict. *)
Definition wf_room_version (v : RoomVersion) : bool :=
  existsb (Z.eqb (event_format v)) KNOWN_EVENT_FORMAT_VERSIONS
  && ((state_res v =? StateResolutionVersions.V1) || (state_res v =? StateResolutionVersions.V2))
  && implb (restricted_join_rule_fix v) (restricted_join_rule v)
  && implb (knock_restricted_join_rule v) (knock_join_rule v && restricted_join_rule v)
  && implb (enforce_int_power_levels v) (strict_canonicaljson v).

(** The feature flags that later versions only add to. *)
Definition feature_flags (v : RoomVersion) : list bool :=
  [enforce_key_validity v; negb (special_case_aliases_auth v);
   strict_canonicaljson v; limit_notifications_power_levels v;
   implicit_room_creator v; updated_redaction_rules v; restricted_join_rule v;
   restricted_join_rule_fix v; knock_join_rule v; knock_restricted_join_rule v;
   enforce_int_power_levels v].

Lemma known_room_versions_wf id v :
  dict_get id KNOWN_ROOM_VERSIONS = Some v → wf_room_version v = true.
Proof.
  intros Hin%dict_get_elem. unfold KNOWN_ROOM_VERSIONS in Hin. simpl in Hin.
  repeat (apply elem_of_cons in Hin as [[= -> ->]|Hin]; [reflexivity|]).
  by apply not_elem_of_nil in Hin.
Qed.

Lemma known_room_versions_key id v :
  dict_get id KNOWN_ROOM_VERSIONS = Some v → identifier v = id.
Proof.
  intros Hin%dict_get_elem. unfold KNOWN_ROOM_VERSIONS in Hin. simpl in Hin.
  repeat (apply elem_of_cons in Hin as [[= -> ->]|Hin]; [reflexivity|]).
  by apply not_elem_of_nil in Hin.
Qed.

(** Features are cumulative: a flag set in one known version is set in every
    version listed after it. *)
Lemma known_features_cumulative i j v w :
  (i < j)%nat → KNOWN_ROOM_VERSIONS.*2 !! i = Some v →
  KNOWN_ROOM_VERSIONS.*2 !! j = Some w →
  Forall2 (λ a b, implb a b = true) (feature_flags v) (feature_flags w).
Proof.
  intros Hij Hi Hj.
  do 11 (destruct i as [|i]; [simpl in Hi; injection Hi as <-;
    do 11 (destruct j as [|j]; [try lia; simpl in Hj; injection Hj as <-;
                                repeat constructor |]); done |]).
  done.
Qed.
