(* ===== verification/Ids.v ===== *)
(** * Identifiers: the Matrix ID types of [synapse/types/__init__.py]

    [get_domain_from_id], [get_localpart_from_id], the [DomainSpecificString]
    classes (user, room, alias and event IDs) and the mapping of external user
    names to localparts. *)

From S2P Require Import Prelude PyVal Constants.

Definition get_domain_from_id (string_ : string) : result string :=
  match str_find ":" string_ with
  | None => Err (SynapseError 400 "Invalid ID: %r" Codes.UNKNOWN)
  | Some idx => Ok (str_drop (S idx) string_)
  end.

Definition get_localpart_from_id (string_ : string) : result string :=
  match str_find ":" string_ with
  | None => Err (SynapseError 400 "Invalid ID: %r" Codes.UNKNOWN)
  | Some idx => Ok (str_drop 1 (str_take idx string_))
  end.

(** ** [DomainSpecificString] and its four subclasses *)

Record DomainSpecificString := { localpart : string; domain : string }.

(** The class object: its [SIGIL]. *)
Inductive id_class := UserID | RoomAlias | RoomID | EventID.

Definition SIGIL (cls : id_class) : ascii :=
  match cls with
  | UserID => "@"
  | RoomAlias => "#"
  | RoomID => "!"
  | EventID => "$"
  end%char.

Definition from_string (cls : id_class) (s : string) : result DomainSpecificString :=
  match s with
  | "" => Err (SynapseError 400 "Expected %s string to start with '%s'" Codes.INVALID_PARAM)
  | String c rest =>
      if decide (c = SIGIL cls) then
        match str_split1 ":" rest with
        | [l; d] => Ok {| localpart := l; domain := d |}
        | _ => Err (SynapseError 400 "Expected %s of the form '%slocalname:domain'"
                      Codes.INVALID_PARAM)
        end
      else Err (SynapseError 400 "Expected %s string to start with '%s'" Codes.INVALID_PARAM)
  end.

Definition to_string (cls : id_class) (d : DomainSpecificString) : string :=
  String (SIGIL cls) (localpart d +:+ String ":" (domain d)).

(** ** Characters of a localpart *)

Definition in_range (lo hi : N) (c : ascii) : bool :=
  let n := N_of_ascii c in ((lo <=? n) && (n <=? hi))%N.

Definition is_lower (c : ascii) : bool := in_range 97 122 c.
Definition is_upper (c : ascii) : bool := in_range 65 90 c.

(** [MXID_LOCALPART_ALLOWED_CHARACTERS] *)
Definition mxid_allowed (c : ascii) : bool :=
  existsb (Ascii.eqb c) ["_"; "-"; "."; "/"; "="; "+"]%char
  || is_lower c || in_range 48 57 c.

Fixpoint str_forallb (f : ascii → bool) (s : string) : bool :=
  match s with
  | "" => true
  | String c s => f c && str_forallb f s
  end.

Definition contains_invalid_mxid_characters (localpart : string) : bool :=
  negb (str_forallb mxid_allowed localpart).

(** [re.sub] with a one-character class: every byte is replaced on its own. *)
Fixpoint str_flat_map (f : ascii → string) (s : string) : string :=
  match s with
  | "" => ""
  | String c s => f c +:+ str_flat_map f s
  end.

(** [bytes.lower] *)
Definition lower (c : ascii) : ascii :=
  if is_upper c then ascii_of_N (N_of_ascii c + 32) else c.

(** [UPPER_CASE_PATTERN.sub(f1, _)] *)
Definition f1 (c : ascii) : string :=
  if is_upper c || Ascii.eqb c "_" then String "_" (String (lower c) "")
  else String c "".

Definition hex_digit (n : N) : ascii :=
  if (n <? 10)%N then ascii_of_N (48 + n) else ascii_of_N (87 + n).

(** [NON_MXID_CHARACTER_PATTERN.sub(f2, _)] *)
Definition f2 (c : ascii) : string :=
  if mxid_allowed c && negb (Ascii.eqb c "=") then String c ""
  else let n := N_of_ascii c in
       String "=" (String (hex_digit (n / 16)) (String (hex_digit (n mod 16)) "")).

(** [username] is the UTF-8 encoding of the name; the last [decode("ascii")]
    never fails, as [map_username_valid] shows. *)
Definition map_username_to_mxid_localpart (username : string) (case_sensitive : bool)
    : string :=
  let username :=
    if case_sensitive then str_flat_map f1 username
    else str_flat_map (λ c, String (lower c) "") username in
  let username := str_flat_map f2 username in
  match username with
  | String "_" s => "=5f" +:+ s
  | s => s
  end.

(** ** Lemmas *)

Lemma str_drop_S_length s c t :
  str_drop (S (String.length s)) (s +:+ String c t) = t.
Proof.
  induction s as [|a s IH]; rewrite ?str_app_cons; [by destruct t|].
  cbn [String.length str_drop] in *. exact IH.
Qed.

Lemma get_domain_app s t :
  str_find ":" s = None → get_domain_from_id (s +:+ String ":" t) = Ok t.
Proof.
  intros Hs. unfold get_domain_from_id. rewrite (str_find_app _ _ _ Hs).
  by rewrite str_drop_S_length.
Qed.

Lemma from_string_inv cls s d :
  from_string cls s = Ok d ↔
  s = to_string cls d ∧ str_find ":" (localpart d) = None.
Proof.
  unfold from_string, to_string, str_split1. destruct d as [l d].
  cbn [localpart domain]. split.
  - destruct s as [|c rest]; [done|]. case_decide as Hc; [|done].
    destruct (str_find ":" rest) as [i|] eqn:Hf; [|done].
    apply str_find_Some in Hf as [Hr Hn]. intros [= <- <-]. subst c.
    split; [f_equal; exact Hr | exact Hn].
  - intros [-> Hn]. rewrite decide_True by done.
    rewrite (str_find_app _ _ _ Hn), str_take_length.
    by rewrite str_drop_S_length.
Qed.

Lemma str_forallb_app f s t :
  str_forallb f (s +:+ t) = str_forallb f s && str_forallb f t.
Proof.
  induction s as [|c s IH]; rewrite ?str_app_cons; simpl; [done|].
  rewrite IH. by destruct (f c).
Qed.

Lemma str_forallb_flat_map f g s :
  (∀ c, str_forallb f (g c) = true) → str_forallb f (str_flat_map g s) = true.
Proof.
  intros Hg. induction s as [|c s IH]; simpl; [done|].
  by rewrite str_forallb_app, Hg, IH.
Qed.

(** Properties of all 256 bytes are settled by computation. *)
Definition all_ascii : list ascii := ascii_of_nat <$> seq 0 256.

Lemma elem_of_all_ascii c : c ∈ all_ascii.
Proof.
  unfold all_ascii. rewrite <- (ascii_nat_embedding c). apply list_elem_of_fmap_2.
  apply elem_of_seq. pose proof (nat_ascii_bounded c). lia.
Qed.

Lemma all_ascii_forallb (f : ascii → bool) :
  forallb f all_ascii = true → ∀ c, f c = true.
Proof.
  intros H c. rewrite forallb_forall in H. apply H, list_elem_of_In, elem_of_all_ascii.
Qed.

(** The code of one byte after both substitutions of the case-sensitive mode. *)
Definition mxid_code (c : ascii) : string := str_flat_map f2 (f1 c).

Lemma str_append_assoc s t u : (s +:+ t) +:+ u = s +:+ (t +:+ u).
Proof. induction s as [|c s IH]; rewrite ?str_app_cons; [done|]. by rewrite IH. Qed.

Lemma str_flat_map_app f s t :
  str_flat_map f (s +:+ t) = str_flat_map f s +:+ str_flat_map f t.
Proof.
  induction s as [|c s IH]; rewrite ?str_app_cons; simpl; [done|].
  by rewrite IH, str_append_assoc.
Qed.

Lemma str_flat_map_compose f g s :
  str_flat_map f (str_flat_map g s) = str_flat_map (λ c, str_flat_map f (g c)) s.
Proof. induction s as [|c s IH]; simpl; [done|]. by rewrite str_flat_map_app, IH. Qed.

(** No code is a proper or improper prefix of another byte's code. *)
Lemma mxid_code_prefix_free c d : str_prefix (mxid_code c) (mxid_code d) = true → c = d.
Proof.
  assert (H : forallb (λ c, forallb (λ d,
     implb (str_prefix (mxid_code c) (mxid_code d)) (Ascii.eqb c d)) all_ascii) all_ascii = true)
    by (vm_compute; reflexivity).
  pose proof (all_ascii_forallb _ (all_ascii_forallb _ H c) d) as Hcd.
  cbv beta in Hcd.
  intros Hp. rewrite Hp in Hcd. by apply Ascii.eqb_eq.
Qed.

Lemma str_app_prefix s t u v :
  s +:+ t = u +:+ v → str_prefix s u = true ∨ str_prefix u s = true.
Proof.
  revert u. induction s as [|a s IH]; intros [|b u]; [by left | by left | by right |].
  rewrite !str_app_cons. intros [= -> H]. simpl. rewrite bool_decide_true by done.
  apply (IH u H).
Qed.

Lemma str_app_inj_l s t u : s +:+ t = s +:+ u → t = u.
Proof. apply (inj (String.append s)). Qed.

Lemma mxid_code_nonempty c s : mxid_code c +:+ s ≠ "".
Proof.
  assert (H : forallb (λ c, negb (bool_decide (mxid_code c = ""))) all_ascii = true)
    by (vm_compute; reflexivity).
  pose proof (all_ascii_forallb _ H c) as Hc. cbv beta in Hc. apply negb_true_iff, bool_decide_eq_false in Hc.
  intros Hs. destruct (mxid_code c); [done|]. discriminate Hs.
Qed.

Lemma str_flat_map_mxid_inj s t :
  str_flat_map mxid_code s = str_flat_map mxid_code t → s = t.
Proof.
  revert t. induction s as [|c s IH]; intros [|d t]; simpl; [done| | |].
  - intros H. by destruct (mxid_code_nonempty d (str_flat_map mxid_code t)).
  - intros H. by destruct (mxid_code_nonempty c (str_flat_map mxid_code s)).
  - intros H. assert (c = d) as ->.
    { destruct (str_app_prefix _ _ _ _ H) as [Hp|Hp]; by apply mxid_code_prefix_free in Hp. }
    apply str_app_inj_l in H. by rewrite (IH _ H).
Qed.

(** No byte's code starts with [=5f]: an underscore is never hex-escaped, so the
    escape of a leading underscore is unambiguous. *)
Lemma mxid_code_not_5f s : str_prefix "=5f" (str_flat_map mxid_code s) = false.
Proof.
  destruct s as [|c s]; [done|]. simpl.
  assert (H : forallb (λ c, negb (bool_decide (str_take 3 (mxid_code c) = "=5f"))
                && implb (bool_decide (str_take 1 (mxid_code c) = "="))
                         (bool_decide (String.length (mxid_code c) = 3%nat))) all_ascii = true)
    by (vm_compute; reflexivity).
  pose proof (all_ascii_forallb _ H c) as Hc. cbv beta in Hc. clear H.
  apply andb_true_iff in Hc as [H1 H2].
  apply negb_true_iff, bool_decide_eq_false in H1.
  destruct (mxid_code c) as [|a m] eqn:Em; [by destruct (mxid_code_nonempty c ""); rewrite Em|].
  rewrite str_app_cons. cbn [str_prefix].
  destruct (decide ("="%char = a)) as [<-|]; [|by rewrite bool_decide_false].
  simpl in H2. destruct m as [|a1 [|a2 [|? ?]]]; try discriminate H2. simpl in H1.
  rewrite !str_app_cons. simpl.
  destruct (decide ("5"%char = a1)) as [<-|]; [|by rewrite bool_decide_false].
  destruct (decide ("f"%char = a2)) as [<-|]; [done|].
  rewrite (bool_decide_false ("f"%char = a2)) by done. by rewrite andb_false_r.
Qed.

Lemma f2_allowed c : str_forallb mxid_allowed (f2 c) = true.
Proof.
  apply (all_ascii_forallb (λ c, str_forallb mxid_allowed (f2 c))).
  vm_compute. reflexivity.
Qed.

(** ** Properties *)

(** Parsing a Matrix ID of any of the four classes succeeds exactly on the
    strings [to_string] prints for a localpart without a colon, and gives that
    localpart and domain back; so parse and print are inverse to each other. *)
Theorem from_string_to_string cls s d :
  from_string cls s = Ok d ↔ s = to_string cls d ∧ str_find ":" (localpart d) = None.
Proof. apply from_string_inv. Qed.

(** The accessor functions agree with the parsed object. *)
Lemma from_string_domain cls s d :
  from_string cls s = Ok d →
  get_domain_from_id s = Ok (domain d) ∧ get_localpart_from_id s = Ok (localpart d).
Proof.
  intros [-> Hn]%from_string_inv. unfold to_string.
  assert (Hc : str_find ":" (String (SIGIL cls) (localpart d)) = None).
  { simpl. rewrite Hn. by destruct cls. }
  split.
  - rewrite <- str_app_cons. by apply get_domain_app.
  - unfold get_localpart_from_id. rewrite <- str_app_cons, (str_find_app _ _ _ Hc).
    by rewrite str_take_length.
Qed.

(** The localpart made from an arbitrary user name has only characters
    allowed in a Matrix ID and does not start with an underscore (which is
    reserved), in both case modes. *)
Theorem map_username_valid username case_sensitive :
  contains_invalid_mxid_characters
    (map_username_to_mxid_localpart username case_sensitive) = false ∧
  str_prefix "_" (map_username_to_mxid_localpart username case_sensitive) = false.
Proof.
  unfold map_username_to_mxid_localpart, contains_invalid_mxid_characters.
  match goal with |- context [str_flat_map f2 ?u] =>
    pose proof (str_forallb_flat_map _ _ u f2_allowed) as Hall; revert Hall;
    generalize (str_flat_map f2 u) end.
  intros [|[b0 b1 b2 b3 b4 b5 b6 b7] s] Hall; [done|].
  destruct b0, b1, b2, b3, b4, b5, b6, b7; split; try (by rewrite Hall); try reflexivity;
    cbn [str_forallb] in Hall; apply andb_true_iff in Hall as [_ Hall];
    rewrite str_forallb_app, Hall; reflexivity.
Qed.

(** In case-sensitive mode the mapping of user names to localparts is
    injective: two different external names never share a Matrix ID. *)
Theorem map_username_injective u v :
  map_username_to_mxid_localpart u true = map_username_to_mxid_localpart v true → u = v.
Proof.
  assert (Hcode : ∀ w, str_flat_map f2 (str_flat_map f1 w) = str_flat_map mxid_code w)
    by (intros; apply str_flat_map_compose).
  unfold map_username_to_mxid_localpart. rewrite !Hcode.
  assert (Hesc : ∀ s, match s with String "_" t => "=5f" +:+ t | s => s end = s ∨
                      ∃ t, s = String "_" t ∧
                           match s with String "_" t => "=5f" +:+ t | s => s end = "=5f" +:+ t).
  { intros [|[[] [] [] [] [] [] [] []] s]; eauto. }
  pose proof (mxid_code_not_5f u) as Hu. pose proof (mxid_code_not_5f v) as Hv.
  destruct (Hesc (str_flat_map mxid_code u)) as [->|(t & Et & ->)];
    destruct (Hesc (str_flat_map mxid_code v)) as [->|(t' & Et' & ->)]; intros H.
  - by apply str_flat_map_mxid_inj.
  - rewrite H in Hu. done.
  - rewrite <- H in Hv. done.
  - apply str_app_inj_l in H. apply str_flat_map_mxid_inj. congruence.
Qed.

Lemma map_username_injective_witness :
  "Ab" = "Ab" ∧ map_username_to_mxid_localpart "Ab" true = "=5fab".
Proof. split; [apply (map_username_injective "Ab" "Ab") |]; reflexivity. Defined.
