(* ===== verification/Events.v ===== *)
(** * Events: [EventBase] of [synapse/events/__init__.py]

    An event as the auth and state-resolution code sees it.  The fields whose type
    [EventBase] declares ([type], [sender], [room_id], ...) have that type here;
    [content], whose values nothing has checked, stays a dict of [json].  Reading
    an attribute the event does not have raises [AttributeError], as
    [DictProperty.__get__] does. *)

From S2P Require Import Prelude PyVal Constants RoomVersions.

Record Event := {
  event_id : string;
  type : string;
  sender : string;
  room_id : string;
  ev_state_key : option string;
  content : dict;
  ev_prev_events : list string;
  ev_auth_events : list string;
  origin_server_ts : Z;
  depth : Z;
  signatures : list (string * list (string * string));
  ev_redacts : option json;
  room_version : RoomVersion;
  rejected_reason : option string;
  (** [internal_metadata.recheck_redaction] *)
  recheck_redaction : bool
}.

Abbreviation StateMap A := (gmap (string * string) A).

(** [user_id: DictProperty[str] = DictProperty("sender")] *)
Definition user_id (e : Event) : string := sender e.

(** [assert room_version.event_format == self.format_version] in [__init__] *)
Definition format_version (e : Event) : Z := event_format (room_version e).

Definition get_state_key (e : Event) : option string := ev_state_key e.

Definition is_state (e : Event) : bool :=
  match get_state_key e with Some _ => true | None => false end.

(** The attribute [state_key]. *)
Definition state_key (e : Event) : result string :=
  match ev_state_key e with
  | Some k => Ok k
  | None => Err (PyBuiltin AttributeError)
  end.

Definition membership (e : Event) : result json :=
  dict_getitem "membership" (content e).

(** [None] and a JSON [null] are the same Python value. *)
Definition redacts (e : Event) : json :=
  if updated_redaction_rules (room_version e)
  then get_or "redacts" JNull (content e)
  else default JNull (ev_redacts e).

Definition prev_event_ids (e : Event) : list string := ev_prev_events e.
Definition auth_event_ids (e : Event) : list string := ev_auth_events e.

(** [event.internal_metadata.recheck_redaction = True] *)
Definition set_recheck_redaction (e : Event) : Event := {|
  event_id := event_id e; type := type e; sender := sender e; room_id := room_id e;
  ev_state_key := ev_state_key e; content := content e;
  ev_prev_events := ev_prev_events e; ev_auth_events := ev_auth_events e;
  origin_server_ts := origin_server_ts e; depth := depth e; signatures := signatures e;
  ev_redacts := ev_redacts e; room_version := room_version e;
  rejected_reason := rejected_reason e; recheck_redaction := true |}.

(** [(e.type, e.state_key)] *)
Definition event_key (e : Event) : result (string * string) :=
  k ← state_key e; Ok (type e, k).

(** ** Lemmas *)

Lemma state_key_ok e k : state_key e = Ok k ↔ ev_state_key e = Some k.
Proof. unfold state_key. destruct (ev_state_key e); naive_solver. Qed.

Lemma event_key_ok e k : event_key e = Ok k ↔ k.1 = type e ∧ ev_state_key e = Some k.2.
Proof.
  unfold event_key. rewrite bind_ok. setoid_rewrite state_key_ok.
  destruct k as [t s]; simpl. naive_solver.
Qed.

#[export] Hint Rewrite state_key_ok event_key_ok : synapse_rw.
