(* ===== verification/EventAuth.v ===== *)
(** * Event authorisation: [synapse/event_auth.py]

    Every function of the module, in its order of dependency.  A check returns
    normally or raises; [check_redaction] also sets a flag of the event, so the
    functions that call it return the event.  The key decoding, signature and
    canonical-JSON libraries the module imports are the parameters of [Crypto]. *)

From S2P Require Import Prelude PyVal Constants RoomVersions Ids Events.

(** What [canonicaljson], [signedjson] and [unpaddedbase64] provide. *)
Class Crypto := {
  verify_key : Type;
  (** [len(encode_canonical_json(event.get_pdu_json()))] *)
  pdu_json_size : Event → Z;
  decode_base64 : json → result string;
  decode_verify_key_bytes : string → string → result verify_key;
  verify_signed_json : dict → string → verify_key → result unit
}.

(** [a and b] where evaluating [b] may raise. *)
Definition and_then (a : bool) (b : result bool) : result bool :=
  if a then b else Ok false.

(** ** Power levels *)

Definition get_power_level_event (auth_events : StateMap Event) : option Event :=
  auth_events !! (EventTypes.PowerLevels, "").

(** The creator recorded by a create event. *)
Definition creator_of (rv : RoomVersion) (create : Event) : result json :=
  if implicit_room_creator rv then Ok (JStr (sender create))
  else dict_getitem EventContentFields.ROOM_CREATOR (content create).

Definition get_user_power_level (user : string) (auth_events : StateMap Event) : result Z :=
  match get_power_level_event auth_events with
  | Some ple =>
      users ← as_dict (get_or "users" (JObj []) (content ple));
      let level := get_or user JNull users in
      let level := match level with
                   | JNull => get_or "users_default" (JInt 0) (content ple)
                   | _ => level
                   end in
      match level with
      | JNull => Ok 0
      | _ => py_int level
      end
  | None =>
      match auth_events !! (EventTypes.Create, "") with
      | Some create_event =>
          creator ← creator_of (room_version create_event) create_event;
          Ok (if eq_str creator user then 100 else 0)
      | None => Ok 0
      end
  end.

Definition get_named_level (auth_events : StateMap Event) (name : string) (dflt : Z) : result Z :=
  match get_power_level_event auth_events with
  | None => Ok dflt
  | Some ple =>
      match get_or name JNull (content ple) with
      | JNull => Ok dflt
      | level => py_int level
      end
  end.

Definition get_send_level (etype : string) (skey : option string)
    (power_levels_event : option Event) : result Z :=
  let power_levels_content :=
    match power_levels_event with Some ple => content ple | None => [] end in
  events ← as_dict (get_or "events" (JObj []) power_levels_content);
  let send_level :=
    match get_or etype JNull events with
    | JNull =>
        match skey with
        | Some _ => get_or "state_default" (JInt 50) power_levels_content
        | None => get_or "events_default" (JInt 0) power_levels_content
        end
    | level => level
    end in
  py_int send_level.

(** ** Which state is needed to authorise an event *)

(** [auth_types.add((typ, j))].  A state key that is hashable but not a string
    equals no key of a state map, so it is left out of the set. *)
Definition add_json_key (typ : string) (j : json) (s : gset (string * string))
    : result (gset (string * string)) :=
  match j with
  | JStr k => Ok ({[(typ, k)]} ∪ s)
  | _ => if hashable j then Ok s else Err (PyBuiltin TypeError)
  end.

Definition auth_types_for_event (rv : RoomVersion) (event : Event)
    : result (gset (string * string)) :=
  if decide (type event = EventTypes.Create) then Ok ∅
  else
    let auth_types : gset (string * string) :=
      {[ (EventTypes.PowerLevels, ""); (EventTypes.Member, sender event);
         (EventTypes.Create, "") ]} in
    if decide (type event = EventTypes.Member) then
      m ← membership event;
      let auth_types :=
        if eq_str m Membership.JOIN || eq_str m Membership.INVITE || eq_str m Membership.KNOCK
        then {[ (EventTypes.JoinRules, "") ]} ∪ auth_types else auth_types in
      skey ← state_key event;
      let auth_types := {[ (EventTypes.Member, skey) ]} ∪ auth_types in
      auth_types ←
        (if eq_str m Membership.INVITE && dict_mem "third_party_invite" (content event) then
           tpi ← dict_getitem "third_party_invite" (content event);
           signed ← py_getitem tpi (JStr "signed");
           token ← py_getitem signed (JStr "token");
           add_json_key EventTypes.ThirdPartyInvite token auth_types
         else Ok auth_types);
      if restricted_join_rule rv && eq_str m Membership.JOIN
         && dict_mem EventContentFields.AUTHORISING_USER (content event) then
        user ← dict_getitem EventContentFields.AUTHORISING_USER (content event);
        add_json_key EventTypes.Member user auth_types
      else Ok auth_types
    else Ok auth_types.

(** ** Third-party invites *)

Definition get_public_keys (invite_event : Event) : result (list json) :=
  let public_keys :=
    match dict_get "public_key" (content invite_event) with
    | Some pk =>
        [JObj (("public_key", pk) ::
               match dict_get "key_validity_url" (content invite_event) with
               | Some url => [("key_validity_url", url)]
               | None => []
               end)]
    | None => []
    end in
  more ← py_iter (get_or "public_keys" (JList []) (content invite_event));
  Ok (public_keys ++ more).

(** [auth_events.get((typ, j))] for a [j] of unknown type *)
Definition lookup_json_key (typ : string) (j : json) (auth_events : StateMap Event)
    : result (option Event) :=
  match j with
  | JStr k => Ok (auth_events !! (typ, k))
  | _ => if hashable j then Ok None else Err (PyBuiltin TypeError)
  end.

Section verify.
Context `{Crypto}.

(** The two inner loops for one public key: [Ok true] when a signature verified. *)
Fixpoint verify_key_names (signed : dict) (public_key : json) (server : string)
    (key_names : list string) : result bool :=
  match key_names with
  | [] => Ok false
  | key_name :: rest =>
      if str_prefix "ed25519:" key_name then
        raw ← decode_base64 public_key;
        vk ← decode_verify_key_bytes key_name raw;
        verify_signed_json signed server vk ;;
        Ok true
      else verify_key_names signed public_key server rest
  end.

Fixpoint verify_servers (signed : dict) (public_key : json)
    (sigs : dict) : result bool :=
  match sigs with
  | [] => Ok false
  | (server, signature_block) :: rest =>
      block ← as_dict signature_block;
      done ← verify_key_names signed public_key server block.*1;
      if done : bool then Ok true else verify_servers signed public_key rest
  end.

Definition verify_one_key (signed : dict) (public_key : json) : result bool :=
  try_except
    (sj ← dict_getitem "signatures" signed;
     sigs ← as_dict sj;
     verify_servers signed public_key sigs)
    (λ e, match e with SignatureVerifyException | PyBuiltin KeyError => true | _ => false end)
    (λ _, Ok false).

Fixpoint verify_public_keys (signed : dict) (keys : list json) : result bool :=
  match keys with
  | [] => Ok false
  | public_key_object :: rest =>
      public_key ← py_getitem public_key_object (JStr "public_key");
      done ← verify_one_key signed public_key;
      if done : bool then Ok true else verify_public_keys signed rest
  end.

Definition _verify_third_party_invite (event : Event) (auth_events : StateMap Event)
    : result bool :=
  match dict_get "third_party_invite" (content event) with
  | Some (JObj third_party_invite) =>
      match dict_get "signed" third_party_invite with
      | Some (JObj signed) =>
          if negb (dict_mem "mxid" signed && dict_mem "token" signed
                   && dict_mem "signatures" signed) then Ok false
          else
            token ← dict_getitem "token" signed;
            invite ← lookup_json_key EventTypes.ThirdPartyInvite token auth_events;
            match invite with
            | None => Ok false
            | Some invite_event =>
                if negb (bool_decide (sender invite_event = sender event)) then Ok false
                else if negb (bool_decide (user_id event = user_id invite_event)) then Ok false
                else
                  mxid ← dict_getitem "mxid" signed;
                  skey ← state_key event;
                  if negb (eq_str mxid skey) then Ok false
                  else
                    keys ← get_public_keys invite_event;
                    verify_public_keys signed keys
            end
      | _ => Ok false
      end
  | _ => Ok false
  end.
End verify.

(** ** Membership changes *)

Definition _can_federate (event : Event) (auth_events : StateMap Event) : bool :=
  match auth_events !! (EventTypes.Create, "") with
  | None => false
  | Some creation_event =>
      match get_or EventContentFields.FEDERATE (JBool true) (content creation_event) with
      | JBool true => true
      | _ => false
      end
  end.

Definition _check_joined_room (member : option Event) (user room : string) : result unit :=
  match member with
  | None => Err (AuthError 403 "User %s not in room %s (%s)")
  | Some ev =>
      m ← membership ev;
      raise_if (negb (eq_str m Membership.JOIN)) (AuthError 403 "User %s not in room %s (%s)")
  end.

Definition _check_event_sender_in_room (event : Event) (auth_events : StateMap Event)
    : result unit :=
  _check_joined_room (auth_events !! (EventTypes.Member, user_id event))
    (user_id event) (room_id event).

(** [ev and ev.membership == m] *)
Definition member_is (ev : option Event) (m : string) : result bool :=
  match ev with
  | None => Ok false
  | Some ev => j ← membership ev; Ok (eq_str j m)
  end.

(** The first test of [_is_membership_change_allowed]: the creator's own join,
    the event right after the create event. *)
Definition is_creator_first_join (rv : RoomVersion) (event : Event) (m : json)
    (auth_events : StateMap Event) : result bool :=
  match prev_event_ids event with
  | [prev] =>
      if eq_str m Membership.JOIN then
        match auth_events !! (EventTypes.Create, "") with
        | Some create =>
            if decide (prev = event_id create) then
              creator ← creator_of rv create;
              skey ← state_key event;
              Ok (eq_str creator skey)
            else Ok false
        | None => Ok false
        end
      else Ok false
  | _ => Ok false
  end.

(** What the function looks up before it decides. *)
Record membership_info := {
  mi_membership : json;
  mi_target : string;
  mi_caller_in_room : bool;
  mi_caller_invited : bool;
  mi_caller_knocked : bool;
  mi_target_in_room : bool;
  mi_target_banned : bool;
  mi_join_rule : json;
  mi_user_level : Z;
  mi_target_level : Z;
  mi_invite_level : Z;
  mi_ban_level : Z
}.

Definition get_join_rule (auth_events : StateMap Event) : json :=
  match auth_events !! (EventTypes.JoinRules, "") with
  | Some ev => get_or "join_rule" (JStr JoinRules.INVITE) (content ev)
  | None => JStr JoinRules.INVITE
  end.

Definition get_membership_info (rv : RoomVersion) (event : Event) (m : json)
    (target_user_id : string) (auth_events : StateMap Event) : result membership_info :=
  let caller := auth_events !! (EventTypes.Member, user_id event) in
  caller_in_room ← member_is caller Membership.JOIN;
  caller_invited ← member_is caller Membership.INVITE;
  caller_knocked ← and_then (knock_join_rule rv) (member_is caller Membership.KNOCK);
  let target := auth_events !! (EventTypes.Member, target_user_id) in
  target_in_room ← member_is target Membership.JOIN;
  target_banned ← member_is target Membership.BAN;
  let join_rule := get_join_rule auth_events in
  user_level ← get_user_power_level (user_id event) auth_events;
  target_level ← get_user_power_level target_user_id auth_events;
  invite_level ← get_named_level auth_events "invite" 0;
  ban_level ← get_named_level auth_events "ban" 50;
  Ok {| mi_membership := m; mi_target := target_user_id;
        mi_caller_in_room := caller_in_room; mi_caller_invited := caller_invited;
        mi_caller_knocked := caller_knocked; mi_target_in_room := target_in_room;
        mi_target_banned := target_banned; mi_join_rule := join_rule;
        mi_user_level := user_level; mi_target_level := target_level;
        mi_invite_level := invite_level; mi_ban_level := ban_level |}.

(** [elif Membership.INVITE == membership] *)
Definition check_invite (mi : membership_info) : result unit :=
  if mi_target_banned mi then Err (AuthError 403 "%s is banned from the room")
  else if mi_target_in_room mi then
    Err (UnstableSpecAuthError 403 "%s is already in the room." Codes.ALREADY_JOINED)
  else if mi_user_level mi <? mi_invite_level mi then
    Err (UnstableSpecAuthError 403 "You don't have permission to invite users"
           Codes.INSUFFICIENT_POWER)
  else Ok tt.

(** The restricted-join part of the join rules: an authorising user who is joined
    and may invite. *)
Definition check_authorising_user (event : Event) (mi : membership_info)
    (auth_events : StateMap Event) : result unit :=
  match get_or EventContentFields.AUTHORISING_USER JNull (content event) with
  | JNull => Err (AuthError 403 "Join event is missing authorising user.")
  | authorising_user =>
      member_event ← lookup_json_key EventTypes.Member authorising_user auth_events;
      match authorising_user with
      | JStr user =>
          _check_joined_room member_event user (room_id event) ;;
          level ← get_user_power_level user auth_events;
          raise_if (level <? mi_invite_level mi)
            (AuthError 403 "Join event authorised by invalid server.")
      | _ =>
          (* no member event has a state key that is not a string *)
          Err (AuthError 403 "User %s not in room %s (%s)")
      end
  end.

Definition is_restricted_rule (rv : RoomVersion) (join_rule : json) : bool :=
  (restricted_join_rule rv && eq_str join_rule JoinRules.RESTRICTED)
  || (knock_restricted_join_rule rv && eq_str join_rule JoinRules.KNOCK_RESTRICTED).

(** [elif Membership.JOIN == membership] *)
Definition check_join (rv : RoomVersion) (event : Event) (mi : membership_info)
    (auth_events : StateMap Event) : result unit :=
  let join_rule := mi_join_rule mi in
  if negb (bool_decide (user_id event = mi_target mi)) then
    Err (AuthError 403 "Cannot force another user to join.")
  else if mi_target_banned mi then Err (AuthError 403 "You are banned from this room")
  else if eq_str join_rule JoinRules.PUBLIC then Ok tt
  else if is_restricted_rule rv join_rule then
    if negb (mi_caller_in_room mi) && negb (mi_caller_invited mi)
    then check_authorising_user event mi auth_events
    else Ok tt
  else if eq_str join_rule JoinRules.INVITE
          || (knock_join_rule rv && eq_str join_rule JoinRules.KNOCK)
          || (knock_restricted_join_rule rv && eq_str join_rule JoinRules.KNOCK_RESTRICTED) then
    raise_if (negb (mi_caller_in_room mi) && negb (mi_caller_invited mi))
      (AuthError 403 "You are not invited to this room.")
  else Err (AuthError 403 "You are not allowed to join this room").

(** [elif Membership.LEAVE == membership] *)
Definition check_leave (event : Event) (mi : membership_info) (auth_events : StateMap Event)
    : result unit :=
  if mi_target_banned mi && (mi_user_level mi <? mi_ban_level mi) then
    Err (UnstableSpecAuthError 403 "You cannot unban user %s." Codes.INSUFFICIENT_POWER)
  else if negb (bool_decide (mi_target mi = user_id event)) then
    kick_level ← get_named_level auth_events "kick" 50;
    raise_if ((mi_user_level mi <? kick_level) || (mi_user_level mi <=? mi_target_level mi))
      (UnstableSpecAuthError 403 "You cannot kick user %s." Codes.INSUFFICIENT_POWER)
  else Ok tt.

(** [elif Membership.BAN == membership] *)
Definition check_ban (mi : membership_info) : result unit :=
  if mi_user_level mi <? mi_ban_level mi then
    Err (UnstableSpecAuthError 403 "You don't have permission to ban" Codes.INSUFFICIENT_POWER)
  else if mi_user_level mi <=? mi_target_level mi then
    Err (UnstableSpecAuthError 403 "You don't have permission to ban this user"
           Codes.INSUFFICIENT_POWER)
  else Ok tt.

(** [elif room_version.knock_join_rule and Membership.KNOCK == membership] *)
Definition check_knock (rv : RoomVersion) (event : Event) (mi : membership_info) : result unit :=
  if negb (eq_str (mi_join_rule mi) JoinRules.KNOCK)
     && (negb (knock_restricted_join_rule rv)
         || negb (eq_str (mi_join_rule mi) JoinRules.KNOCK_RESTRICTED)) then
    Err (AuthError 403 "You don't have permission to knock")
  else if negb (bool_decide (mi_target mi = user_id event)) then
    Err (AuthError 403 "You cannot knock for other users")
  else if mi_target_in_room mi then
    Err (UnstableSpecAuthError 403 "You cannot knock on a room you are already in"
           Codes.ALREADY_JOINED)
  else if mi_caller_invited mi then Err (AuthError 403 "You are already invited to this room")
  else if mi_target_banned mi then Err (AuthError 403 "You are banned from this room")
  else Ok tt.

(** The chain of [if Membership.X == membership] at the end of the function. *)
Definition check_transition (rv : RoomVersion) (event : Event) (mi : membership_info)
    (auth_events : StateMap Event) : result unit :=
  let m := mi_membership mi in
  if eq_str m Membership.INVITE then check_invite mi
  else if eq_str m Membership.JOIN then check_join rv event mi auth_events
  else if eq_str m Membership.LEAVE then check_leave event mi auth_events
  else if eq_str m Membership.BAN then check_ban mi
  else if knock_join_rule rv && eq_str m Membership.KNOCK then check_knock rv event mi
  else Err (AuthError 500 "Unknown membership %s").

Section membership.
Context `{Crypto}.

(** The decision once the lookups are done. *)
Definition decide_membership (rv : RoomVersion) (event : Event) (mi : membership_info)
    (auth_events : StateMap Event) : result unit :=
  let m := mi_membership mi in
  if eq_str m Membership.INVITE && dict_mem "third_party_invite" (content event) then
    ok ← _verify_third_party_invite event auth_events;
    if negb ok then Err (AuthError 403 "You are not invited to this room.")
    else if mi_target_banned mi then Err (AuthError 403 "%s is banned from the room")
    else Ok tt
  else if negb (eq_str m Membership.JOIN) && negb (eq_str m Membership.KNOCK) then
    if (mi_caller_invited mi || mi_caller_knocked mi) && eq_str m Membership.LEAVE
       && bool_decide (mi_target mi = user_id event) then Ok tt
    else if negb (mi_caller_in_room mi) then
      Err (UnstableSpecAuthError 403 "%s not in room %s." Codes.NOT_JOINED)
    else check_transition rv event mi auth_events
  else check_transition rv event mi auth_events.

Definition _is_membership_change_allowed (rv : RoomVersion) (event : Event)
    (auth_events : StateMap Event) : result unit :=
  m ← dict_getitem "membership" (content event);
  creator_join ← is_creator_first_join rv event m auth_events;
  if creator_join : bool then Ok tt
  else
    target_user_id ← state_key event;
    creating_domain ← get_domain_from_id (room_id event);
    target_domain ← get_domain_from_id target_user_id;
    raise_if (negb (bool_decide (creating_domain = target_domain))
              && negb (_can_federate event auth_events))
      (AuthError 403 "This room has been marked as unfederatable.") ;;
    mi ← get_membership_info rv event m target_user_id auth_events;
    decide_membership rv event mi auth_events.
End membership.

(** ** Sending, redacting and changing power levels *)

Definition _can_send_event (event : Event) (auth_events : StateMap Event) : result unit :=
  let power_levels_event := get_power_level_event auth_events in
  send_level ← get_send_level (type event) (get_state_key event) power_levels_event;
  user_level ← get_user_power_level (user_id event) auth_events;
  if user_level <? send_level then
    Err (UnstableSpecAuthError 403
           "You don't have permission to post that to the room. user_level (%d) < send_level (%d)"
           Codes.INSUFFICIENT_POWER)
  else
    match ev_state_key event with
    | Some skey =>
        raise_if (str_prefix "@" skey && negb (bool_decide (skey = user_id event)))
          (AuthError 403 "You are not allowed to set others state")
    | None => Ok tt
    end.

(** Returns what the function returns, and the event with its metadata as the
    function leaves it. *)
Definition check_redaction (rv : RoomVersion) (event : Event) (auth_events : StateMap Event)
    : result (bool * Event) :=
  user_level ← get_user_power_level (user_id event) auth_events;
  redact_level ← get_named_level auth_events "redact" 50;
  if redact_level <=? user_level then Ok (false, event)
  else if event_format rv =? EventFormatVersions.ROOM_V1_V2 then
    redacter_domain ← get_domain_from_id (event_id event);
    match redacts event with
    | JStr r =>
        redactee_domain ← get_domain_from_id r;
        if bool_decide (redacter_domain = redactee_domain) then Ok (true, event)
        else Err (AuthError 403 "You don't have permission to redact events")
    | _ => Ok (false, event)
    end
  else Ok (true, set_recheck_redaction event).

(** [set(l)]: the elements without repetitions, or [TypeError] when one is not
    hashable.  The order of the model is that of first occurrence; Python's is
    unspecified, and [iter_res_perm] shows which results do not depend on it. *)
Fixpoint dedup_json (l : list json) : list json :=
  match l with
  | [] => []
  | x :: l => x :: filter (λ y, py_eqb x y = false) (dedup_json l)
  end.

Definition py_set (l : list json) : result (list json) :=
  if forallb hashable l then Ok (dedup_json l) else Err (PyBuiltin TypeError).

(** [for k, v in user_list.items()]: both conversions must succeed. *)
Definition check_user_entry (kv : string * json) : result unit :=
  let '(k, v) := kv in
  try_except (d ← from_string UserID k; Ok tt) (λ _, true)
    (λ _, Err (SynapseError 400 "Not a valid user_id: %s" Codes.UNKNOWN)) ;;
  try_except (z ← py_int v; Ok tt) (λ _, true)
    (λ _, Err (SynapseError 400 "Not a valid power level: %s" Codes.UNKNOWN)).

Definition int_level_keys : list string :=
  ["users_default"; "events_default"; "state_default"; "ban"; "redact"; "kick"; "invite"].

Definition int_map_keys : list string := ["events"; "notifications"; "users"].

(** The body of the loop over [event.content.items()] for
    [enforce_int_power_levels]. *)
Definition check_int_entry (kv : string * json) : result unit :=
  let '(k, v) := kv in
  raise_if (existsb (String.eqb k) int_level_keys && negb (is_int v))
    (SynapseError 400 "{v!r} must be an integer." Codes.UNKNOWN) ;;
  raise_if (existsb (String.eqb k) int_map_keys &&
            negb (match v with JObj o => forallb is_int o.*2 | _ => false end))
    (SynapseError 400 "{v!r} must be a dict wherein all the values are integers." Codes.UNKNOWN).

(** [set(list(old_list) + list(new_list))], each with its directory *)
Definition levels_of (dir : string) (old_list new_list : json)
    : result (list (json * option string)) :=
  old_keys ← py_iter old_list;
  new_keys ← py_iter new_list;
  keys ← py_set (old_keys ++ new_keys);
  Ok (map (λ k : json, (k, Some dir)) keys).

(** [int(loc[level])] if [level in loc], else [None] *)
Definition read_level (level : json) (loc : json) : result (option Z) :=
  present ← py_in level loc;
  if present : bool then v ← py_getitem loc level; z ← py_int v; Ok (Some z) else Ok None.

(** The body of the loop over [levels_to_check]. *)
Definition check_level (user_level : Z) (event : Event) (old_state new_state : dict)
    (ld : json * option string) : result unit :=
  let '(level_to_check, dir) := ld in
  let old_loc := match dir with Some d => get_or d (JObj []) old_state | None => JObj old_state end in
  let new_loc := match dir with Some d => get_or d (JObj []) new_state | None => JObj new_state end in
  old_level ← read_level level_to_check old_loc;
  new_level ← read_level level_to_check new_loc;
  let unchanged := match new_level, old_level with
                   | Some n, Some o => n =? o
                   | _, _ => false
                   end in
  if unchanged then Ok tt
  else if bool_decide (dir = Some "users") && negb (eq_str level_to_check (user_id event))
          && bool_decide (old_level = Some user_level) then
    Err (AuthError 403 "You don't have permission to remove ops level equal to your own")
  else
    let too_big l := match l with Some z => user_level <? z | None => false end in
    raise_if (too_big old_level || too_big new_level)
      (AuthError 403 "You don't have permission to add ops level greater than your own").

Definition get_levels_to_check (rv : RoomVersion) (current_state event : Event)
    : result (list (json * option string)) :=
  let fixed := map (λ k, (JStr k, None)) int_level_keys in
  users ← levels_of "users" (get_or "users" (JObj []) (content current_state))
                            (get_or "users" (JObj []) (content event));
  events ← levels_of "events" (get_or "events" (JObj []) (content current_state))
                              (get_or "events" (JObj []) (content event));
  notifications ←
    (if limit_notifications_power_levels rv then
       levels_of "notifications" (get_or "notifications" (JObj []) (content current_state))
                                 (get_or "notifications" (JObj []) (content event))
     else Ok []);
  Ok (fixed ++ users ++ events ++ notifications).

Definition _check_power_levels (rv : RoomVersion) (event : Event) (auth_events : StateMap Event)
    : result unit :=
  user_list ← as_dict (get_or "users" (JObj []) (content event));
  iter_res check_user_entry user_list ;;
  (if bool_decide (type event = EventTypes.PowerLevels) && enforce_int_power_levels rv
   then iter_res check_int_entry (content event) else Ok tt) ;;
  key ← event_key event;
  match auth_events !! key with
  | None => Ok tt
  | Some current_state =>
      user_level ← get_user_power_level (user_id event) auth_events;
      levels_to_check ← get_levels_to_check rv current_state event;
      iter_res (check_level user_level event (content current_state) (content event))
        levels_to_check
  end.

(** ** Checks that need no room state *)

Definition LENIENT_EVENT_BYTE_LIMITS_ROOM_VERSIONS : list RoomVersion :=
  [RoomVersions.V1; RoomVersions.V2; RoomVersions.V3; RoomVersions.V4; RoomVersions.V5;
   RoomVersions.V6; RoomVersions.V7; RoomVersions.V8; RoomVersions.V9; RoomVersions.V10;
   RoomVersions.MSC1767v10].

Definition size_error (what : string) (unpersistable : bool) : exn :=
  EventSizeError ("'" +:+ what +:+ "' too large") unpersistable.

(** One pass over the five identifier fields with a length function. *)
Definition check_field_sizes (len : string → Z) (unpersistable : bool) (event : Event)
    : result unit :=
  raise_if (255 <? len (user_id event)) (size_error "user_id" unpersistable) ;;
  raise_if (255 <? len (room_id event)) (size_error "room_id" unpersistable) ;;
  raise_if (match ev_state_key event with Some k => 255 <? len k | None => false end)
    (size_error "state_key" unpersistable) ;;
  raise_if (255 <? len (type event)) (size_error "type" unpersistable) ;;
  raise_if (255 <? len (event_id event)) (size_error "event_id" unpersistable).

Section independent.
Context `{Crypto}.

Definition _check_size_limits (event : Event) : result unit :=
  raise_if (MAX_PDU_SIZE <? pdu_json_size event) (EventSizeError "event too large" true) ;;
  check_field_sizes py_len true event ;;
  let strict_byte_limits :=
    negb (bool_decide (room_version event ∈ LENIENT_EVENT_BYTE_LIMITS_ROOM_VERSIONS)) in
  check_field_sizes byte_len strict_byte_limits event.

(** [event.signatures.get(domain)], as a truth value *)
Definition signed_by (event : Event) (domain : string) : bool :=
  match dict_get domain (signatures event) with
  | Some (_ :: _) => true
  | _ => false
  end.

(** [get_domain_from_id] on a content field of unknown type *)
Definition get_domain_from_json (j : json) : result string :=
  match j with
  | JStr s => get_domain_from_id s
  | _ => Err (PyBuiltin AttributeError)
  end.

(** The [hasattr(event, "room_id")] test holds of every [Event]. *)
Definition validate_event_for_room_version (event : Event) : result unit :=
  _check_size_limits event ;;
  sender_domain ← get_domain_from_id (sender event);
  is_invite_via_3pid ←
    and_then (bool_decide (type event = EventTypes.Member))
      (m ← membership event;
       Ok (eq_str m Membership.INVITE && dict_mem "third_party_invite" (content event)));
  raise_if (negb (signed_by event sender_domain) && negb is_invite_via_3pid)
    (AuthError 403 "Event not signed by sender's server") ;;
  (if format_version event =? EventFormatVersions.ROOM_V1_V2 then
     event_id_domain ← get_domain_from_id (event_id event);
     raise_if (negb (signed_by event event_id_domain))
       (AuthError 403 "Event not signed by sending server")
   else Ok tt) ;;
  is_invite_via_allow_rule ←
    and_then (restricted_join_rule (room_version event)
              && bool_decide (type event = EventTypes.Member))
      (m ← membership event;
       Ok (eq_str m Membership.JOIN
           && dict_mem EventContentFields.AUTHORISING_USER (content event)));
  if is_invite_via_allow_rule : bool then
    user ← dict_getitem EventContentFields.AUTHORISING_USER (content event);
    authoriser_domain ← get_domain_from_json user;
    raise_if (negb (signed_by event authoriser_domain))
      (AuthError 403 "Event not signed by authorising server")
  else Ok tt.
End independent.

Definition _check_create (event : Event) : result unit :=
  raise_if (negb (bool_decide (type event = EventTypes.Create))) (PyBuiltin AssertionError) ;;
  raise_if (negb (bool_decide (prev_event_ids event = [])))
    (AuthError 403 "Create event has prev events") ;;
  sender_domain ← get_domain_from_id (sender event);
  room_id_domain ← get_domain_from_id (room_id event);
  raise_if (negb (bool_decide (room_id_domain = sender_domain)))
    (AuthError 403 "Creation event's room_id domain does not match sender's") ;;
  let room_version_prop := get_or "room_version" (JStr "1") (content event) in
  (match room_version_prop with
   | JStr v => raise_if (negb (dict_mem v KNOWN_ROOM_VERSIONS))
                 (AuthError 403 "room appears to have unsupported version %s")
   | _ => if hashable room_version_prop
          then Err (AuthError 403 "room appears to have unsupported version %s")
          else Err (PyBuiltin TypeError)
   end) ;;
  raise_if (negb (implicit_room_creator (room_version event))
            && negb (dict_mem EventContentFields.ROOM_CREATOR (content event)))
    (AuthError 403 "Create event lacks a 'creator' property").

(** The auth events to check: those of the batch, the rest from the store.
    [get_events] is [store.get_events(ids, as_is, allow_rejected=True)]. *)
Definition fetch_auth_events (get_events : gset string → gmap string Event)
    (event : Event) (batched_auth_events : gmap string Event) : gmap string Event :=
  let ids : gset string := list_to_set (auth_event_ids event) in
  if decide (batched_auth_events = ∅) then get_events ids
  else
    let needed_auth_event_ids := ids ∖ dom batched_auth_events in
    if decide (needed_auth_event_ids = ∅) then batched_auth_events
    else get_events needed_auth_event_ids ∪ batched_auth_events.

(** The body of the loop over [event.auth_event_ids()]. *)
Definition check_auth_event (event : Event) (auth_events : gmap string Event)
    (expected_auth_types : gset (string * string)) (auth_dict : StateMap string)
    (auth_event_id : string) : result (StateMap string) :=
  match auth_events !! auth_event_id with
  | None => Err (PyBuiltin RuntimeError)
  | Some auth_event =>
      raise_if (negb (bool_decide (room_id auth_event = room_id event)))
        (AuthError 403 "During auth for event %s in room %s, found event %s in the state which is in room %s") ;;
      k ← event_key auth_event;
      raise_if (bool_decide (is_Some (auth_dict !! k)))
        (AuthError 403 "Event {event.event_id} has duplicate auth_events for {k}: {auth_dict[k]} and {auth_event_id}") ;;
      raise_if (negb (bool_decide (k ∈ expected_auth_types)))
        (AuthError 403 "Event {event.event_id} has unexpected auth_event for {k}: {auth_event_id}") ;;
      raise_if (match rejected_reason auth_event with
                | Some r => negb (bool_decide (r = "")) | None => false end)
        (AuthError 403 "During auth for event %s: found rejected event %s in the state") ;;
      Ok (<[k := auth_event_id]> auth_dict)
  end.

Definition check_state_independent_auth_rules (get_events : gset string → gmap string Event)
    (event : Event) (batched_auth_events : gmap string Event) : result unit :=
  if decide (type event = EventTypes.Create) then _check_create event
  else
    let auth_events := fetch_auth_events get_events event batched_auth_events in
    expected_auth_types ← auth_types_for_event (room_version event) event;
    auth_dict ← fold_res (check_auth_event event auth_events expected_auth_types)
                  (auth_event_ids event) ∅;
    raise_if (match auth_dict !! (EventTypes.Create, "") with
              | Some id => bool_decide (id = "") | None => true end)
      (AuthError 403 "No create event in auth events").

(** ** Checks against the room state *)

(** [{(e.type, e.state_key): e for e in auth_events}] *)
Definition make_auth_dict (auth_events : list Event) : result (StateMap Event) :=
  fold_res (λ d e, k ← event_key e; Ok (<[k := e]> d)) auth_events ∅.

Section dependent.
Context `{Crypto}.

(** The rules for an event other than a create event, given the state. *)
Definition check_against_state (event : Event) (auth_dict : StateMap Event) : result Event :=
  creating_domain ← get_domain_from_id (room_id event);
  originating_domain ← get_domain_from_id (sender event);
  raise_if (negb (bool_decide (creating_domain = originating_domain))
            && negb (_can_federate event auth_dict))
    (AuthError 403 "This room has been marked as unfederatable.") ;;
  if bool_decide (type event = EventTypes.Aliases)
     && special_case_aliases_auth (room_version event) then
    match ev_state_key event with
    | None => Err (AuthError 403 "Alias event must be a state event")
    | Some skey =>
        raise_if (bool_decide (skey = "")) (AuthError 403 "Alias event must have non-empty state_key") ;;
        sender_domain ← get_domain_from_id (sender event);
        raise_if (negb (bool_decide (skey = sender_domain)))
          (AuthError 403 "Alias event's state_key does not match sender's domain") ;;
        Ok event
    end
  else if decide (type event = EventTypes.Member) then
    _is_membership_change_allowed (room_version event) event auth_dict ;; Ok event
  else
    _check_event_sender_in_room event auth_dict ;;
    if decide (type event = EventTypes.ThirdPartyInvite) then
      user_level ← get_user_power_level (user_id event) auth_dict;
      invite_level ← get_named_level auth_dict "invite" 0;
      if user_level <? invite_level then
        Err (UnstableSpecAuthError 403 "You don't have permission to invite users"
               Codes.INSUFFICIENT_POWER)
      else Ok event
    else
      _can_send_event event auth_dict ;;
      (if decide (type event = EventTypes.PowerLevels)
       then _check_power_levels (room_version event) event auth_dict else Ok tt) ;;
      if decide (type event = EventTypes.Redaction)
      then snd <$> check_redaction (room_version event) event auth_dict
      else Ok event.

Definition check_state_dependent_auth_rules (event : Event) (auth_events : list Event)
    : result Event :=
  if decide (type event = EventTypes.Create) then Ok event
  else auth_dict ← make_auth_dict auth_events; check_against_state event auth_dict.
End dependent.
