(* ===== verification/EventAuthLemmas.v ===== *)
(** * Lemmas on event authorisation

    The facts about power levels, level comparison and membership lookups that the
    properties of [EventAuthProps] rest on. *)

From S2P Require Import Prelude PyVal Constants RoomVersions Ids Events EventAuth.

(** ** Strings among JSON values *)

Lemma py_eqb_str_r s j : py_eqb j (JStr s) = eq_str j s.
Proof. by destruct j. Qed.

Lemma elem_of_dedup_json_str s l : JStr s ∈ dedup_json l ↔ JStr s ∈ l.
Proof.
  induction l as [|x l IH]; simpl; [done|].
  rewrite !elem_of_cons, list_elem_of_filter, IH, py_eqb_str_r.
  destruct (eq_str x s) eqn:E; [apply eq_str_true in E as ->; naive_solver|].
  naive_solver.
Qed.

Lemma py_iter_obj_str s o keys :
  py_iter (JObj o) = Ok keys → JStr s ∈ keys ↔ dict_mem s o = true.
Proof.
  intros [= <-]. rewrite dict_mem_keys, list_elem_of_fmap. split.
  - intros ([k v] & [= ->] & Hin). apply list_elem_of_fmap. by exists (k, v).
  - intros ([k v] & -> & Hin)%list_elem_of_fmap. by exists (k, v).
Qed.

(** ** Reading and checking one level *)

(** The level a dict of levels gives to [k], when it converts to an integer. *)
Definition dict_int (k : string) (o : dict) : option Z :=
  match dict_get k o with
  | Some v => match py_int v with Ok z => Some z | Err _ => None end
  | None => None
  end.

Lemma read_level_obj k o r : read_level (JStr k) (JObj o) = Ok r → r = dict_int k o.
Proof.
  unfold read_level, dict_int, dict_mem, py_getitem, dict_getitem. simpl.
  unfold dict_mem. destruct (dict_get k o) as [v|]; simpl; [|naive_solver].
  destruct (py_int v); simpl; naive_solver.
Qed.

Definition level_loc (dir : option string) (state : dict) : json :=
  match dir with Some d => get_or d (JObj []) state | None => JObj state end.

Lemma check_level_ok ul e os ns l dir :
  check_level ul e os ns (l, dir) = Ok tt →
  ∃ o n, read_level l (level_loc dir os) = Ok o ∧ read_level l (level_loc dir ns) = Ok n ∧
    (o = n ∨ ((∀ z, o = Some z → z ≤ ul) ∧ (∀ z, n = Some z → z ≤ ul) ∧
              (dir = Some "users" → l ≠ JStr (user_id e) → o ≠ Some ul))).
Proof.
  unfold check_level, level_loc. intros H. inv_res. rename x into o, x0 into n.
  exists o, n. split_and!; [done..|].
  match type of H1 with (if ?b then _ else _) = _ => destruct b eqn:Hun end.
  { left. destruct n as [n|], o as [o|]; try done.
    apply Z.eqb_eq in Hun. congruence. }
  right. split_if H1. inv_res.
  apply orb_false_iff in H1 as [Ho Hn]. split_and!.
  - intros z ->. by apply Z.ltb_ge.
  - intros z ->. by apply Z.ltb_ge.
  - intros -> Hl ->. apply not_true_iff_false in Heqb. apply Heqb.
    rewrite !bool_decide_true by done. simpl. rewrite andb_true_r.
    apply negb_true_iff, not_true_iff_false. by rewrite eq_str_true.
Qed.

(** The keys compared for one directory include every key of both dicts. *)
Lemma levels_of_complete dir o n levels k :
  levels_of dir (JObj o) (JObj n) = Ok levels →
  dict_mem k o = true ∨ dict_mem k n = true → (JStr k, Some dir) ∈ levels.
Proof.
  unfold levels_of. intros H Hk. inv_res. unfold py_set in *.
  match goal with H : (if ?b then _ else _) = Ok _ |- _ => destruct b; inv_res end.
  apply list_elem_of_fmap. exists (JStr k). split; [done|].
  apply elem_of_dedup_json_str, elem_of_app.
  destruct Hk; [left|right]; by eapply py_iter_obj_str.
Qed.

(** The directories of a power-levels content that the check compares. *)
Definition checked_dirs (rv : RoomVersion) : list string :=
  ["users"; "events"] ++ (if limit_notifications_power_levels rv then ["notifications"] else []).

Lemma get_levels_to_check_dir rv cur e levels dir o n k :
  get_levels_to_check rv cur e = Ok levels → dir ∈ checked_dirs rv →
  get_or dir (JObj []) (content cur) = JObj o → get_or dir (JObj []) (content e) = JObj n →
  dict_mem k o = true ∨ dict_mem k n = true → (JStr k, Some dir) ∈ levels.
Proof.
  unfold get_levels_to_check, checked_dirs. intros H Hdir Ho Hn Hk. inv_res.
  rewrite !elem_of_app. apply elem_of_app in Hdir as [Hdir|Hdir].
  - apply elem_of_cons in Hdir as [->|Hdir].
    { rewrite Ho, Hn in *. right; left. by eapply levels_of_complete. }
    apply list_elem_of_singleton in Hdir as ->.
    rewrite Ho, Hn in *. right; right; left. by eapply levels_of_complete.
  - destruct (limit_notifications_power_levels rv); [|by apply not_elem_of_nil in Hdir].
    apply list_elem_of_singleton in Hdir as ->.
    rewrite Ho, Hn in *. do 3 right. by eapply levels_of_complete.
Qed.

Lemma get_levels_to_check_fixed rv cur e levels k :
  get_levels_to_check rv cur e = Ok levels → k ∈ int_level_keys → (JStr k, None) ∈ levels.
Proof.
  unfold get_levels_to_check. intros H Hk. inv_res. apply elem_of_app; left.
  apply list_elem_of_fmap. by exists k.
Qed.

Lemma check_power_levels_inv rv e S cur sk ul :
  _check_power_levels rv e S = Ok tt → ev_state_key e = Some sk →
  S !! (type e, sk) = Some cur → get_user_power_level (user_id e) S = Ok ul →
  ∃ levels, get_levels_to_check rv cur e = Ok levels ∧
    ∀ l, l ∈ levels → check_level ul e (content cur) (content e) l = Ok tt.
Proof.
  unfold _check_power_levels. intros H Hsk Hcur Hul. inv_res.
  match goal with H : event_key _ = Ok _ |- _ => apply event_key_ok in H as [? Hk] end.
  destruct x2 as [t k]; simpl in *; subst t. rewrite Hsk in Hk. injection Hk as <-.
  rewrite Hcur in *. inv_res. rewrite Hul in *. inv_res.
  eexists; split; [done|]. apply Forall_forall. by eapply iter_res_ok.
Qed.

(** One compared entry of two dicts of levels: unchanged, or both values within
    the sender's level. *)
Lemma check_level_dicts ul e os ns dir o n k :
  check_level ul e os ns (JStr k, dir) = Ok tt →
  level_loc dir os = JObj o → level_loc dir ns = JObj n →
  dict_int k o = dict_int k n ∨
  ((∀ z, dict_int k o = Some z → z ≤ ul) ∧ (∀ z, dict_int k n = Some z → z ≤ ul) ∧
   (dir = Some "users" → k ≠ user_id e → dict_int k o ≠ Some ul)).
Proof.
  intros Hc Ho Hn. destruct (check_level_ok _ _ _ _ _ _ Hc) as (a & b & Ha & Hb & Hab).
  rewrite Ho in Ha. rewrite Hn in Hb.
  apply read_level_obj in Ha as ->. apply read_level_obj in Hb as ->.
  destruct Hab as [->|(H1 & H2 & H3)]; [by left|right]. split_and!; [done..|].
  intros Hd Hk. apply H3; [done|congruence].
Qed.

Lemma dict_int_None k o : dict_mem k o = false → dict_int k o = None.
Proof. unfold dict_int, dict_mem. by destruct (dict_get k o). Qed.

(** ** The level a power-levels event gives to a user *)

Definition users_of (ple : Event) : dict :=
  match get_or "users" (JObj []) (content ple) with JObj o => o | _ => [] end.

(** [u] has an entry of its own. *)
Definition listed (u : string) (ple : Event) : Prop := dict_mem u (users_of ple) = true.

(** The level of the users without an entry. *)
Definition default_level (ple : Event) : Z := default 0 (dict_int "users_default" (content ple)).

Definition level_in (ple : Event) (u : string) : Z :=
  default (default_level ple) (dict_int u (users_of ple)).

Lemma read_level_total k o r :
  read_level (JStr k) (JObj o) = Ok r → dict_mem k o = true → is_Some (dict_int k o).
Proof.
  unfold read_level, dict_int, dict_mem, py_getitem, dict_getitem. simpl.
  unfold dict_mem. destruct (dict_get k o) as [v|]; simpl; [|done].
  destruct (py_int v); simpl; naive_solver.
Qed.

(** Where the entry of [u] and the default convert to integers, the level read is
    the entry, or else the default. *)
Lemma get_user_power_level_in S ple o u :
  S !! (EventTypes.PowerLevels, "") = Some ple →
  get_or "users" (JObj []) (content ple) = JObj o →
  (dict_mem u o = true → is_Some (dict_int u o)) →
  (dict_mem "users_default" (content ple) = true →
   is_Some (dict_int "users_default" (content ple))) →
  get_user_power_level u S = Ok (level_in ple u).
Proof.
  unfold get_user_power_level, get_power_level_event, level_in, default_level, users_of.
  intros -> Ho Hu Hd. rewrite Ho. simpl. revert Hu Hd. unfold dict_mem, dict_int, get_or.
  destruct (dict_get u o) as [v|]; simpl.
  - intros Hu _. specialize (Hu eq_refl) as [z Hz].
    destruct v; simpl in *; try done;
      try (by simplify_eq); by destruct (int_of_str _); simplify_eq/=.
  - intros _ Hd. destruct (dict_get "users_default" (content ple)) as [v|]; simpl; [|done].
    specialize (Hd eq_refl) as [z Hz].
    destruct v; simpl in *; try done;
      try (by simplify_eq); by destruct (int_of_str _); simplify_eq/=.
Qed.

Lemma check_level_reads ul e os ns dir o n k :
  check_level ul e os ns (JStr k, dir) = Ok tt →
  level_loc dir os = JObj o → level_loc dir ns = JObj n →
  (dict_mem k o = true → is_Some (dict_int k o)) ∧
  (dict_mem k n = true → is_Some (dict_int k n)).
Proof.
  intros Hc Ho Hn. destruct (check_level_ok _ _ _ _ _ _ Hc) as (a & b & Ha & Hb & _).
  rewrite Ho in Ha. rewrite Hn in Hb. split; by eapply read_level_total.
Qed.

(** The check has read the sender's level and the [users] of the new event. *)
Lemma check_power_levels_reads rv e S cur sk :
  _check_power_levels rv e S = Ok tt → ev_state_key e = Some sk →
  S !! (type e, sk) = Some cur →
  ∃ ul n, get_user_power_level (user_id e) S = Ok ul ∧
          get_or "users" (JObj []) (content e) = JObj n.
Proof.
  unfold _check_power_levels. intros H Hsk Hcur. inv_res.
  match goal with H : event_key _ = Ok _ |- _ => apply event_key_ok in H as [? Hk] end.
  destruct x2 as [t k]; simpl in *; subst t. rewrite Hsk in Hk. injection Hk as <-.
  rewrite Hcur in *. inv_res. eexists _, x. split; [done|].
  by destruct (get_or "users" (JObj []) (content e)); simplify_eq/=.
Qed.

Lemma get_user_power_level_users u S ple z :
  S !! (EventTypes.PowerLevels, "") = Some ple → get_user_power_level u S = Ok z →
  ∃ o, get_or "users" (JObj []) (content ple) = JObj o.
Proof.
  unfold get_user_power_level, get_power_level_event. intros ->.
  destruct (get_or "users" (JObj []) (content ple)); simpl; eauto; done.
Qed.

(** A level read from an entry or else the default, before and after a change in
    which each of the two is kept or stays within [ul]. *)
Lemma level_change_bounded u sender ul (o n : dict) (d d' : Z) :
  (dict_mem u o = true → is_Some (dict_int u o)) →
  (dict_mem u n = true → is_Some (dict_int u n)) →
  (dict_int u o ≠ dict_int u n →
   (∀ z, dict_int u o = Some z → z ≤ ul ∧ (u ≠ sender → z < ul)) ∧
   (∀ z, dict_int u n = Some z → z ≤ ul)) →
  (d = d' ∨ d ≤ Z.max 0 ul ∧ d' ≤ Z.max 0 ul) →
  let old := default d (dict_int u o) in
  let new := default d' (dict_int u n) in
  new = old ∨
  (dict_mem u o = true → old ≤ ul ∧ (u ≠ sender → old < ul)) ∧
  (¬ dict_mem u o = true → ¬ dict_mem u n = true → old ≤ Z.max 0 ul) ∧
  (new ≤ Z.max 0 ul ∨ (dict_mem u o = true ∧ ¬ dict_mem u n = true ∧ new = d)).
Proof.
  intros Hro Hrn Hb Hd old new. subst old new.
  assert (Ho : dict_mem u o = false → dict_int u o = None) by apply dict_int_None.
  assert (Hn : dict_mem u n = false → dict_int u n = None) by apply dict_int_None.
  destruct (dict_mem u o), (dict_mem u n).
  - destruct (Hro eq_refl) as [a Ha], (Hrn eq_refl) as [b Hb']. rewrite Ha, Hb' in *. simpl.
    destruct (decide (a = b)) as [->|Hne]; [by left|right].
    destruct Hb as [H1 H2]; [congruence|]. specialize (H2 b eq_refl).
    split_and!; [auto|done|left; lia].
  - destruct (Hro eq_refl) as [a Ha]. rewrite Ha, (Hn eq_refl) in *. simpl. right.
    destruct Hb as [H1 _]; [done|].
    split_and!; [auto|done|]. destruct Hd as [->|[? ?]]; [right; naive_solver|by left].
  - destruct (Hrn eq_refl) as [b Hb']. rewrite (Ho eq_refl), Hb' in *. simpl.
    destruct Hb as [_ H2]; [done|]. specialize (H2 b eq_refl).
    right. split_and!; [done|done|left; lia].
  - rewrite (Ho eq_refl), (Hn eq_refl). simpl.
    destruct Hd as [->|[? ?]]; [by left|right]. split_and!; [done|done|by left].
Qed.

(** ** Memberships *)

(** The membership recorded by an optional member event is [m]. *)
Definition has_membership (ev : option Event) (m : string) : Prop :=
  ∃ e, ev = Some e ∧ membership e = Ok (JStr m).

Lemma member_is_ok ev m b :
  member_is ev m = Ok b → (b = true ↔ has_membership ev m).
Proof.
  unfold member_is, has_membership. destruct ev as [e|].
  - intros H. inv_res. split.
    + intros Heq. apply eq_str_true in Heq as ->. eauto.
    + intros (? & [= <-] & Hm). rewrite Hm in *. inv_res. by apply eq_str_true.
  - intros [= <-]. naive_solver.
Qed.

Lemma has_membership_unique ev m m' :
  has_membership ev m → has_membership ev m' → m = m'.
Proof. intros (e & -> & H) (e' & [= <-] & H'). congruence. Qed.

Lemma check_joined_room_ok ev u r :
  _check_joined_room ev u r = Ok tt ↔ has_membership ev Membership.JOIN.
Proof.
  unfold _check_joined_room, has_membership. destruct ev as [e|]; [|naive_solver]. split.
  - intros H. inv_res. apply negb_false_iff, eq_str_true in H0 as ->. eauto.
  - intros (? & [= <-] & ->). simpl. done.
Qed.

(** What [get_membership_info] returns, read back from the state. *)
Lemma get_membership_info_ok rv e m tgt S mi :
  get_membership_info rv e m tgt S = Ok mi →
  mi_membership mi = m ∧ mi_target mi = tgt ∧ mi_join_rule mi = get_join_rule S ∧
  (mi_caller_in_room mi = true ↔
     has_membership (S !! (EventTypes.Member, user_id e)) Membership.JOIN) ∧
  (mi_caller_invited mi = true ↔
     has_membership (S !! (EventTypes.Member, user_id e)) Membership.INVITE) ∧
  (mi_caller_knocked mi = true ↔ knock_join_rule rv = true ∧
     has_membership (S !! (EventTypes.Member, user_id e)) Membership.KNOCK) ∧
  (mi_target_in_room mi = true ↔
     has_membership (S !! (EventTypes.Member, tgt)) Membership.JOIN) ∧
  (mi_target_banned mi = true ↔
     has_membership (S !! (EventTypes.Member, tgt)) Membership.BAN) ∧
  get_user_power_level (user_id e) S = Ok (mi_user_level mi) ∧
  get_user_power_level tgt S = Ok (mi_target_level mi) ∧
  get_named_level S "invite" 0 = Ok (mi_invite_level mi) ∧
  get_named_level S "ban" 50 = Ok (mi_ban_level mi).
Proof.
  unfold get_membership_info. intros H. inv_res. simpl.
  unfold and_then in *.
  repeat match goal with
  | H : member_is _ _ = Ok _ |- _ => apply member_is_ok in H
  end.
  split_and!; try done.
  destruct (knock_join_rule rv); [|inv_res; naive_solver].
  match goal with H : member_is _ _ = Ok _ |- _ => apply member_is_ok in H end. naive_solver.
Qed.

#[export] Hint Resolve check_joined_room_ok : synapse.

Section change.
Context `{Crypto}.

(** The exception the rules start with: the only previous event of the join is the
    create event, and [tgt] is the creator it records. *)
Definition creator_first_join (rv : RoomVersion) (e : Event) (S : StateMap Event) (tgt : string) : Prop :=
  membership e = Ok (JStr Membership.JOIN) ∧
  ∃ create, S !! (EventTypes.Create, "") = Some create ∧
    prev_event_ids e = [event_id create] ∧ creator_of rv create = Ok (JStr tgt).

Lemma is_creator_first_join_ok rv e S m tgt b :
  membership e = Ok m → ev_state_key e = Some tgt → is_creator_first_join rv e m S = Ok b →
  b = true ↔ creator_first_join rv e S tgt.
Proof.
  unfold is_creator_first_join, creator_first_join, state_key. intros Hm Htgt. rewrite Hm, Htgt.
  destruct (prev_event_ids e) as [|p [|? ?]]; try naive_solver.
  destruct (eq_str m Membership.JOIN) eqn:Ej.
  2: { intros [= <-]. split; [done|]. intros [[= ->] _]. by rewrite (proj2 (eq_str_true _ _)) in Ej. }
  apply eq_str_true in Ej as ->.
  destruct (S !! _) as [create|]; [|naive_solver].
  destruct (decide (p = event_id create)) as [->|Hne]; [|naive_solver].
  destruct (creator_of rv create) as [c|] eqn:Ec; simpl; [|done]. intros [= <-].
  rewrite eq_str_true. split.
  - intros ->. split; [done|]. by exists create.
  - intros (_ & ? & [= <-] & _ & Hc). congruence.
Qed.

Lemma membership_change_first rv e S m :
  _is_membership_change_allowed rv e S = Ok tt → membership e = Ok m →
  ∃ b, is_creator_first_join rv e m S = Ok b.
Proof.
  unfold _is_membership_change_allowed. intros Hok Hm. unfold membership in Hm. rewrite Hm in Hok.
  simpl in Hok. apply bind_ok in Hok as (b & Hb & _). eauto.
Qed.

Lemma membership_change_inv rv e S m tgt :
  _is_membership_change_allowed rv e S = Ok tt →
  membership e = Ok m → is_creator_first_join rv e m S = Ok false →
  ev_state_key e = Some tgt →
  ∃ mi, get_membership_info rv e m tgt S = Ok mi ∧ decide_membership rv e mi S = Ok tt.
Proof.
  unfold _is_membership_change_allowed. intros Hok Hm Hcj Htgt.
  unfold membership in Hm. rewrite Hm in Hok. simpl in Hok. rewrite Hcj in Hok. simpl in Hok.
  inv_res. match goal with H : state_key _ = Ok _ |- _ => apply state_key_ok in H end.
  assert (x = tgt) as -> by congruence. eauto.
Qed.

(** The caller of any accepted change that is not a join, a knock, a third-party
    invite or the caller's own leave is joined. *)
Lemma decide_membership_inv rv e mi S m :
  decide_membership rv e mi S = Ok tt → mi_membership mi = JStr m →
  (m = Membership.INVITE ∧ dict_mem "third_party_invite" (content e) = true ∧
     mi_target_banned mi = false) ∨
  (m = Membership.LEAVE ∧ mi_target mi = user_id e ∧
     (mi_caller_invited mi = true ∨ mi_caller_knocked mi = true)) ∨
  (check_transition rv e mi S = Ok tt ∧
     (m = Membership.JOIN ∨ m = Membership.KNOCK ∨ mi_caller_in_room mi = true)).
Proof.
  unfold decide_membership. intros Hok Hm. rewrite Hm in Hok. simpl in Hok.
  repeat case_bool_decide; simpl in Hok; simplify_eq/=; try (by right; right; auto).
  all: repeat match goal with
       | H : (if ?b then _ else _) = Ok _ |- _ => destruct b eqn:?; inv_res
       end; try discriminate.
  all: repeat match goal with
       | H : (if ?b then _ else _) = Ok _ |- _ => destruct b eqn:?; inv_res
       end; try discriminate.
  all: repeat match goal with
       | H : (_ && _) = true |- _ => apply andb_true_iff in H as [? ?]
       | H : (_ || _) = true |- _ => apply orb_true_iff in H
       | H : bool_decide _ = true |- _ => apply bool_decide_eq_true in H
       | H : negb _ = false |- _ => apply negb_false_iff in H
       end.
  all: first [ by left | by right; left | by right; right; auto ].
Qed.
End change.

(** * The state an authorisation decision reads

    Two states that agree on the keys [auth_types_for_event] names give the same
    decision.  This is what lets callers fetch only those events. *)

Section frame.
Context `{Crypto}.
Implicit Types (S T : StateMap Event) (e : Event).

Definition agree_on (ks : gset (string * string)) S T : Prop := ∀ k, k ∈ ks → S !! k = T !! k.

(** The keys every lookup of a power level goes through. *)
Definition level_keys : gset (string * string) :=
  {[ (EventTypes.PowerLevels, ""); (EventTypes.Create, "") ]}.

Lemma agree_on_mono ks ks' S T : ks ⊆ ks' → agree_on ks' S T → agree_on ks S T.
Proof. unfold agree_on. set_solver. Qed.

Lemma get_user_power_level_frame u S T :
  agree_on level_keys S T → get_user_power_level u S = get_user_power_level u T.
Proof.
  intros Ha. unfold get_user_power_level, get_power_level_event.
  rewrite !(Ha _) by (unfold level_keys; set_solver). done.
Qed.

Lemma get_named_level_frame n d S T :
  agree_on level_keys S T → get_named_level S n d = get_named_level T n d.
Proof.
  intros Ha. unfold get_named_level, get_power_level_event.
  rewrite !(Ha _) by (unfold level_keys; set_solver). done.
Qed.

Lemma can_federate_frame e S T : agree_on level_keys S T → _can_federate e S = _can_federate e T.
Proof.
  intros Ha. unfold _can_federate. rewrite !(Ha _) by (unfold level_keys; set_solver). done.
Qed.

Lemma can_send_event_frame e S T :
  agree_on level_keys S T → _can_send_event e S = _can_send_event e T.
Proof.
  intros Ha. unfold _can_send_event. rewrite (get_user_power_level_frame _ _ _ Ha).
  unfold get_power_level_event. rewrite !(Ha _) by (unfold level_keys; set_solver). done.
Qed.

Lemma check_redaction_frame rv e S T :
  agree_on level_keys S T → check_redaction rv e S = check_redaction rv e T.
Proof.
  intros Ha. unfold check_redaction.
  by rewrite (get_user_power_level_frame _ _ _ Ha), (get_named_level_frame _ _ _ _ Ha).
Qed.

Lemma check_power_levels_frame rv e S T :
  agree_on level_keys S T →
  (∀ k, ev_state_key e = Some k → S !! (type e, k) = T !! (type e, k)) →
  _check_power_levels rv e S = _check_power_levels rv e T.
Proof.
  intros Ha Hsk. unfold _check_power_levels. rewrite (get_user_power_level_frame _ _ _ Ha).
  destruct (event_key e) as [k|] eqn:Hk; simpl; [|done].
  apply event_key_ok in Hk as [Hk1 Hk2]. destruct k as [k1 k2]; simpl in *.
  subst. by rewrite (Hsk _ Hk2).
Qed.

Lemma is_creator_first_join_frame rv e m S T :
  agree_on level_keys S T → is_creator_first_join rv e m S = is_creator_first_join rv e m T.
Proof.
  intros Ha. unfold is_creator_first_join.
  rewrite !(Ha _) by (unfold level_keys; set_solver). done.
Qed.

Definition with_join_rule (mi : membership_info) (j : json) : membership_info := {|
  mi_membership := mi_membership mi; mi_target := mi_target mi;
  mi_caller_in_room := mi_caller_in_room mi; mi_caller_invited := mi_caller_invited mi;
  mi_caller_knocked := mi_caller_knocked mi; mi_target_in_room := mi_target_in_room mi;
  mi_target_banned := mi_target_banned mi; mi_join_rule := j;
  mi_user_level := mi_user_level mi; mi_target_level := mi_target_level mi;
  mi_invite_level := mi_invite_level mi; mi_ban_level := mi_ban_level mi |}.

(** Apart from the join rule, the facts looked up agree. *)
Lemma get_membership_info_frame rv e m tgt S T :
  agree_on ({[ (EventTypes.Member, user_id e); (EventTypes.Member, tgt) ]} ∪ level_keys) S T →
  get_membership_info rv e m tgt T =
    (λ mi, with_join_rule mi (get_join_rule T)) <$> get_membership_info rv e m tgt S.
Proof.
  intros Ha. assert (Hl : agree_on level_keys S T) by (eapply agree_on_mono; [|done]; set_solver).
  unfold get_membership_info.
  rewrite (get_user_power_level_frame (user_id e) _ _ Hl), (get_user_power_level_frame tgt _ _ Hl),
    !(get_named_level_frame _ _ _ _ Hl),
    (Ha (EventTypes.Member, user_id e)), (Ha (EventTypes.Member, tgt)) by set_solver.
  repeat match goal with |- context [?m ≫= _] => destruct m; simpl; [|done] end.
  done.
Qed.

Lemma with_join_rule_id mi : with_join_rule mi (mi_join_rule mi) = mi.
Proof. by destruct mi. Qed.

Lemma check_leave_frame e mi j S T :
  agree_on level_keys S T → check_leave e (with_join_rule mi j) S = check_leave e mi T.
Proof. intros Ha. unfold check_leave. by rewrite (get_named_level_frame _ _ _ _ Ha). Qed.

Lemma verify_third_party_invite_frame e S T token types tpi signed s :
  dict_get "third_party_invite" (content e) = Some tpi →
  py_getitem tpi (JStr "signed") = Ok signed → py_getitem signed (JStr "token") = Ok token →
  add_json_key EventTypes.ThirdPartyInvite token s = Ok types → agree_on types S T →
  _verify_third_party_invite e S = _verify_third_party_invite e T.
Proof.
  intros Htpi Hs Ht Hadd Ha. unfold _verify_third_party_invite. rewrite Htpi.
  destruct tpi as [| | | | | |tpi]; try done.
  simpl in Hs. unfold dict_getitem in Hs. destruct (dict_get "signed" tpi); [|done]. inv_res.
  destruct signed as [| | | | | |signed]; try done.
  destruct (negb _); [done|]. simpl in Ht. rewrite Ht. simpl.
  destruct token as [| | | |tok| |]; try done. simpl in *. inv_res.
  by rewrite (Ha (EventTypes.ThirdPartyInvite, tok)) by set_solver.
Qed.

Lemma check_authorising_user_frame e mi S T types :
  agree_on level_keys S T →
  (∀ user, dict_get EventContentFields.AUTHORISING_USER (content e) = Some user →
     ∃ s, add_json_key EventTypes.Member user s = Ok types) →
  agree_on types S T →
  check_authorising_user e mi S = check_authorising_user e mi T.
Proof.
  intros Hl Hadd Ha. unfold check_authorising_user, get_or.
  destruct (dict_get _ (content e)) as [user|]; simpl; [|done].
  destruct (Hadd _ eq_refl) as [s Hs]. destruct user as [| | | |u| |]; try done.
  simpl in *. inv_res. rewrite (Ha (EventTypes.Member, u)) by set_solver.
  by rewrite (get_user_power_level_frame _ _ _ Hl).
Qed.

Lemma add_json_key_mono typ j s s' : add_json_key typ j s = Ok s' → s ⊆ s'.
Proof.
  unfold add_json_key. destruct j; simpl; intros; simplify_eq; try done; set_solver.
Qed.

Definition uses_join_rule (m : json) : bool :=
  eq_str m Membership.JOIN || eq_str m Membership.INVITE || eq_str m Membership.KNOCK.

(** What the set computed for a membership event contains. *)
Lemma auth_types_member_inv rv e types :
  auth_types_for_event rv e = Ok types → type e = EventTypes.Member →
  ∃ m tgt, membership e = Ok m ∧ ev_state_key e = Some tgt ∧
    {[ (EventTypes.Member, user_id e); (EventTypes.Member, tgt) ]} ∪ level_keys ⊆ types ∧
    (uses_join_rule m = true → (EventTypes.JoinRules, "") ∈ types) ∧
    (eq_str m Membership.INVITE && dict_mem "third_party_invite" (content e) = true →
       ∃ tpi signed token s types',
         dict_get "third_party_invite" (content e) = Some tpi ∧
         py_getitem tpi (JStr "signed") = Ok signed ∧
         py_getitem signed (JStr "token") = Ok token ∧
         add_json_key EventTypes.ThirdPartyInvite token s = Ok types' ∧ types' ⊆ types) ∧
    (restricted_join_rule rv && eq_str m Membership.JOIN = true →
       ∀ user, dict_get EventContentFields.AUTHORISING_USER (content e) = Some user →
         ∃ s, add_json_key EventTypes.Member user s = Ok types).
Proof.
  intros Hty Hmem. unfold auth_types_for_event in Hty.
  rewrite Hmem, decide_False, decide_True in Hty by done.
  apply bind_ok in Hty as (m & Hm & Hty). apply bind_ok in Hty as (tgt & Htgt & Hty).
  apply bind_ok in Hty as (t2 & Ht2 & Ht3). apply state_key_ok in Htgt.
  set (base := {[(EventTypes.Member, tgt)]} ∪ _) in Ht2.
  assert (H2 : base ⊆ t2 ∧
    (eq_str m Membership.INVITE && dict_mem "third_party_invite" (content e) = true →
     ∃ tpi signed token s,
       dict_get "third_party_invite" (content e) = Some tpi ∧
       py_getitem tpi (JStr "signed") = Ok signed ∧
       py_getitem signed (JStr "token") = Ok token ∧
       add_json_key EventTypes.ThirdPartyInvite token s = Ok t2)).
  { destruct (eq_str m Membership.INVITE && _); [|inv_res; split; [set_solver|discriminate]].
    apply bind_ok in Ht2 as (tpi & Htpi & Ht2). apply bind_ok in Ht2 as (sg & Hsg & Ht2).
    apply bind_ok in Ht2 as (tok & Htok & Ht2). split; [by eapply add_json_key_mono|].
    intros _. unfold dict_getitem in Htpi. destruct (dict_get _ _) eqn:E; [|done].
    inv_res. eauto 10. }
  assert (H3 : t2 ⊆ types ∧ (restricted_join_rule rv && eq_str m Membership.JOIN = true →
       ∀ user, dict_get EventContentFields.AUTHORISING_USER (content e) = Some user →
         ∃ s, add_json_key EventTypes.Member user s = Ok types)).
  { unfold dict_mem, dict_getitem in Ht3.
    destruct (restricted_join_rule rv && _); [|inv_res; split; [set_solver|discriminate]].
    destruct (dict_get EventContentFields.AUTHORISING_USER (content e)); simpl in Ht3;
      [|inv_res; naive_solver].
    split; [by eapply add_json_key_mono|]. intros _ user [= <-]. eauto. }
  destruct H2 as [Hb2 H2], H3 as [H23 H3]. exists m, tgt.
  assert (Hbase : {[ (EventTypes.Member, user_id e); (EventTypes.Member, tgt) ]} ∪ level_keys ⊆ base ∧
    (uses_join_rule m = true → (EventTypes.JoinRules, "") ∈ base)).
  { unfold base, uses_join_rule, level_keys, user_id. destruct (_ || _); set_solver. }
  split_and!; [done|done|set_solver|set_solver| |done].
  intros Hi. destruct (H2 Hi) as (tpi & sg & tok & s & ? & ? & ? & ?). eauto 10.
Qed.

Lemma check_transition_frame rv e mi S T types :
  agree_on level_keys S T → agree_on types S T →
  (knock_restricted_join_rule rv = true → restricted_join_rule rv = true) →
  mi_join_rule mi = get_join_rule S →
  (uses_join_rule (mi_membership mi) = true → (EventTypes.JoinRules, "") ∈ types) →
  (restricted_join_rule rv && eq_str (mi_membership mi) Membership.JOIN = true →
     ∀ user, dict_get EventContentFields.AUTHORISING_USER (content e) = Some user →
       ∃ s, add_json_key EventTypes.Member user s = Ok types) →
  check_transition rv e (with_join_rule mi (get_join_rule T)) T = check_transition rv e mi S.
Proof.
  intros Hl Ha Hkr Hjr Hrule Hauth. unfold check_transition. simpl.
  assert (Hl' : agree_on level_keys T S) by (intros k Hk; symmetry; auto).
  destruct (uses_join_rule (mi_membership mi)) eqn:Hu.
  - assert (get_join_rule T = mi_join_rule mi) as ->.
    { rewrite Hjr. unfold get_join_rule. by rewrite (Ha _ (Hrule eq_refl)). }
    rewrite with_join_rule_id.
    replace (check_leave e mi T) with (check_leave e mi S)
      by (rewrite <- (with_join_rule_id mi) at 1; by apply check_leave_frame).
    destruct (eq_str _ Membership.INVITE); [done|].
    destruct (eq_str _ Membership.JOIN) eqn:Hj; [|done]. unfold check_join.
    destruct (is_restricted_rule rv (mi_join_rule mi)) eqn:Hr; [|done].
    assert (restricted_join_rule rv = true) as Hres.
    { unfold is_restricted_rule in Hr. destruct (restricted_join_rule rv); [done|].
      destruct (knock_restricted_join_rule rv); [naive_solver|done]. }
    rewrite Hres in Hauth.
    rewrite (check_authorising_user_frame e mi S T types); auto.
  - unfold uses_join_rule in Hu. apply orb_false_iff in Hu as [Hu Hk].
    apply orb_false_iff in Hu as [Hj Hi]. rewrite Hi, Hj, Hk, andb_false_r.
    by rewrite (check_leave_frame _ _ _ T S).
Qed.

Lemma membership_change_frame rv e S T types :
  (knock_restricted_join_rule rv = true → restricted_join_rule rv = true) →
  type e = EventTypes.Member → auth_types_for_event rv e = Ok types → agree_on types S T →
  _is_membership_change_allowed rv e S = _is_membership_change_allowed rv e T.
Proof.
  intros Hkr Hmem Htypes Ha.
  destruct (auth_types_member_inv _ _ _ Htypes Hmem)
    as (m & tgt & Hm & Htgt & Hsub & Hrule & Htpi & Hauth).
  assert (Hl : agree_on level_keys S T).
  { eapply agree_on_mono; [|done]. etrans; [|exact Hsub]. apply union_subseteq_r. }
  unfold _is_membership_change_allowed. unfold membership in Hm. rewrite Hm. simpl.
  rewrite (is_creator_first_join_frame _ _ _ _ _ Hl), (can_federate_frame _ _ _ Hl).
  destruct (is_creator_first_join rv e m T) as [[]|]; simpl; try done.
  unfold state_key. rewrite Htgt. simpl.
  do 3 (match goal with |- (?r ≫= _) = (?r ≫= _) => destruct r; simpl; [|done] end).
  rewrite (get_membership_info_frame _ _ _ _ S T)
    by (by eapply agree_on_mono; [exact Hsub|]).
  destruct (get_membership_info rv e m tgt S) as [mi|] eqn:Hmi; simpl; [|done].
  destruct (get_membership_info_ok _ _ _ _ _ _ Hmi) as (Hmm & _ & Hjr & _).
  unfold decide_membership. simpl. rewrite Hmm.
  assert (Ht : check_transition rv e (with_join_rule mi (get_join_rule T)) T
               = check_transition rv e mi S)
    by (apply (check_transition_frame rv e mi S T types); rewrite ?Hmm; auto).
  rewrite Ht. destruct (eq_str m Membership.INVITE && _) eqn:Hi; [|done].
  destruct (Htpi eq_refl) as (tpi & sg & tok & s & types' & Hg & Hs & Htok & Hadd & Hsub').
  rewrite (verify_third_party_invite_frame e S T tok types' tpi sg s); try done.
  by eapply agree_on_mono.
Qed.

Lemma auth_types_base rv e types :
  auth_types_for_event rv e = Ok types → type e ≠ EventTypes.Create →
  level_keys ⊆ types ∧ (EventTypes.Member, user_id e) ∈ types.
Proof.
  intros Ht Hc. destruct (decide (type e = EventTypes.Member)) as [Hm|Hm].
  - destruct (auth_types_member_inv _ _ _ Ht Hm) as (? & ? & _ & _ & Hsub & _). set_solver.
  - unfold auth_types_for_event in Ht. rewrite !decide_False in Ht by done. inv_res.
    unfold level_keys, user_id. set_solver.
Qed.
End frame.
