(* ===== verification/EventAuthProps.v ===== *)
(** * Properties of event authorisation

    What acceptance by the auth rules guarantees: power levels bound what their
    holders can change, bans hold, joins follow the join rule, and the rules read
    only the state that [auth_types_for_event] names. *)

From S2P Require Import Prelude PyVal Constants RoomVersions Ids Events EventAuth EventAuthLemmas.

(** ** Power levels *)

(** What the check of a power-levels event that replaces [cur] says of one user's
    entries in the two [users] dicts. *)
Lemma users_entries_bounded rv e S sk cur ul o n u :
  _check_power_levels rv e S = Ok tt →
  ev_state_key e = Some sk → S !! (type e, sk) = Some cur →
  get_user_power_level (user_id e) S = Ok ul →
  get_or "users" (JObj []) (content cur) = JObj o →
  get_or "users" (JObj []) (content e) = JObj n →
  ((dict_mem u o = true → is_Some (dict_int u o)) ∧
   (dict_mem u n = true → is_Some (dict_int u n))) ∧
  (dict_int u o ≠ dict_int u n →
   (∀ z, dict_int u o = Some z → z ≤ ul ∧ (u ≠ user_id e → z < ul)) ∧
   (∀ z, dict_int u n = Some z → z ≤ ul)).
Proof.
  intros Hok Hsk Hcur Hul Ho Hn.
  destruct (check_power_levels_inv _ _ _ _ _ _ Hok Hsk Hcur Hul) as (levels & Hl & Hall).
  assert (Hin : dict_mem u o = true ∨ dict_mem u n = true → (JStr u, Some "users") ∈ levels).
  { intros Hmem. eapply get_levels_to_check_dir; eauto. unfold checked_dirs. set_solver. }
  split.
  { split; intros Hm.
    - by apply (check_level_reads _ _ _ _ _ o n _ (Hall _ (Hin (or_introl Hm))) Ho Hn).
    - by apply (check_level_reads _ _ _ _ _ o n _ (Hall _ (Hin (or_intror Hm))) Ho Hn). }
  intros Hne.
  assert (Hmem : dict_mem u o = true ∨ dict_mem u n = true).
  { destruct (dict_mem u o) eqn:E1, (dict_mem u n) eqn:E2; auto.
    by rewrite !dict_int_None in Hne. }
  destruct (check_level_dicts _ _ _ _ _ o n _ (Hall _ (Hin Hmem)) Ho Hn)
    as [?|(H1 & H2 & H3)]; [done|].
  split; [|done]. intros z Hz. split; [by apply H1|]. intros Hu.
  specialize (H1 z Hz). specialize (H3 eq_refl Hu). rewrite Hz in H3.
  assert (z ≠ ul) by congruence. lia.
Qed.

(** The same for [users_default]. *)
Lemma users_default_bounded rv e S sk cur ul :
  _check_power_levels rv e S = Ok tt →
  ev_state_key e = Some sk → S !! (type e, sk) = Some cur →
  get_user_power_level (user_id e) S = Ok ul →
  (∀ x, x = cur ∨ x = e → dict_mem "users_default" (content x) = true →
        is_Some (dict_int "users_default" (content x))) ∧
  (default_level cur = default_level e ∨
   default_level cur ≤ Z.max 0 ul ∧ default_level e ≤ Z.max 0 ul).
Proof.
  intros Hok Hsk Hcur Hul.
  destruct (check_power_levels_inv _ _ _ _ _ _ Hok Hsk Hcur Hul) as (levels & Hl & Hall).
  assert (Hin : (JStr "users_default", None) ∈ levels).
  { eapply get_levels_to_check_fixed; [done|]. unfold int_level_keys. set_solver. }
  specialize (Hall _ Hin).
  split; [destruct (check_level_reads _ _ _ _ None _ _ _ Hall eq_refl eq_refl); naive_solver|].
  unfold default_level.
  destruct (check_level_dicts _ _ _ _ None _ _ _ Hall eq_refl eq_refl) as [->|(H1 & H2 & _)]; [auto|].
  right. split.
  - destruct (dict_int _ (content cur)) as [z|]; simpl; [specialize (H1 z eq_refl)|]; lia.
  - destruct (dict_int _ (content e)) as [z|]; simpl; [specialize (H2 z eq_refl)|]; lia.
Qed.


(** The same bound for the other levels a power-levels event holds: the level
    needed for an event type (and, where the room version checks them, for a
    notification) and the defaults and action levels, such as [ban] or
    [users_default], change only between values within the sender's level. *)
Theorem other_levels_bounded rv e S sk cur ul :
  _check_power_levels rv e S = Ok tt →
  ev_state_key e = Some sk → S !! (type e, sk) = Some cur →
  get_user_power_level (user_id e) S = Ok ul →
  (∀ k, k ∈ int_level_keys → dict_int k (content cur) ≠ dict_int k (content e) →
     ∀ z, dict_int k (content cur) = Some z ∨ dict_int k (content e) = Some z → z ≤ ul) ∧
  (∀ dir o n k, dir ∈ checked_dirs rv →
     get_or dir (JObj []) (content cur) = JObj o →
     get_or dir (JObj []) (content e) = JObj n → dict_int k o ≠ dict_int k n →
     ∀ z, dict_int k o = Some z ∨ dict_int k n = Some z → z ≤ ul).
Proof.
  intros Hok Hsk Hcur Hul.
  destruct (check_power_levels_inv _ _ _ _ _ _ Hok Hsk Hcur Hul) as (levels & Hl & Hall).
  split.
  - intros k Hk Hne. pose proof (get_levels_to_check_fixed _ _ _ _ _ Hl Hk) as Hin.
    destruct (check_level_dicts _ _ _ _ None _ _ _ (Hall _ Hin) eq_refl eq_refl)
      as [?|(H1 & H2 & _)]; [done|]. naive_solver.
  - intros dir o n k Hdir Ho Hn Hne.
    assert (Hmem : dict_mem k o = true ∨ dict_mem k n = true).
    { destruct (dict_mem k o) eqn:E1, (dict_mem k n) eqn:E2; auto.
      by rewrite !dict_int_None in Hne. }
    pose proof (get_levels_to_check_dir _ _ _ _ _ _ _ _ Hl Hdir Ho Hn Hmem) as Hin.
    destruct (check_level_dicts _ _ _ _ (Some dir) o n _ (Hall _ Hin) Ho Hn)
      as [?|(H1 & H2 & _)]; [done|]. naive_solver.
Qed.

(** ** Memberships *)

(** Brings the facts of [get_membership_info] into the context. *)
Ltac read_info H :=
  let mi := fresh "mi" in
  destruct H as (mi & Hmi & Hdec);
  destruct (get_membership_info_ok _ _ _ _ _ _ Hmi)
    as (Hmm & Htg & Hjr & Hcin & Hcinv & Hckn & Htin & Htban & Hul & Htl & Hil & Hbl).

Section membership.
Context `{Crypto}.
Implicit Types (S : StateMap Event) (e : Event).

(** C24: a ban holds.  While the target is banned, a membership change for it that
    the rules accept is a leave or a renewed ban, sent by someone else who is joined
    to the room and whose power reaches the level needed to ban; or it is the
    creator's join directly after the create event, which the rules accept whatever
    the state says. *)
Theorem ban_holds rv e S m tgt :
  _is_membership_change_allowed rv e S = Ok tt →
  membership e = Ok (JStr m) → ev_state_key e = Some tgt →
  has_membership (S !! (EventTypes.Member, tgt)) Membership.BAN →
  creator_first_join rv e S tgt ∨
  (m = Membership.LEAVE ∨ m = Membership.BAN) ∧ user_id e ≠ tgt ∧
  has_membership (S !! (EventTypes.Member, user_id e)) Membership.JOIN ∧
  ∃ ul bl, get_user_power_level (user_id e) S = Ok ul ∧
           get_named_level S "ban" 50 = Ok bl ∧ bl ≤ ul.
Proof.
  intros Hok Hm Htgt Hban.
  destruct (membership_change_first _ _ _ _ Hok Hm) as [[|] Hcj].
  { left. by eapply (is_creator_first_join_ok _ _ _ _ _ _ Hm Htgt Hcj). }
  right. pose proof (membership_change_inv _ _ _ _ _ Hok Hm Hcj Htgt) as Hinv. read_info Hinv.
  pose proof (proj2 Htban Hban) as Htb.
  assert (Hself : ∀ m', has_membership (S !! (EventTypes.Member, user_id e)) m' →
                        m' ≠ Membership.BAN → user_id e ≠ tgt).
  { intros m' Hh Hne Heq. rewrite Heq in Hh. by apply Hne, (has_membership_unique _ _ _ Hh Hban). }
  destruct (decide_membership_inv _ _ _ _ _ Hdec Hmm)
    as [(_ & _ & Hb)|[(_ & Heq & Hc)|(Ht & Hc)]].
  - congruence.
  - exfalso. destruct Hc as [Hc|Hc].
    + apply Hcinv in Hc. by apply (Hself _ Hc); [|congruence].
    + apply Hckn in Hc as [_ Hc]. by apply (Hself _ Hc); [|congruence].
  - unfold check_transition, check_invite, check_join, check_leave, check_ban, check_knock in Ht.
    rewrite Hmm, Htb in Ht. simpl in Ht.
    repeat case_bool_decide; simplify_eq/=; try discriminate;
      repeat split_if Ht; inv_res; try discriminate.
    all: destruct Hc as [Hc|[Hc|Hc]]; try discriminate; apply Hcin in Hc.
    all: split; [auto|]; split; [by apply (Hself _ Hc)|]; split; [done|].
    all: eexists _, _; split_and!; [done..|].
    all: by apply Z.ltb_ge.
Qed.

(** Kicking or banning takes more power than the target has: an accepted leave
    or ban of another user is sent by a joined user whose level is strictly above
    the target's and reaches the level the room asks for the action. *)
Theorem moderation_needs_power rv e S m tgt :
  _is_membership_change_allowed rv e S = Ok tt →
  membership e = Ok (JStr m) → is_creator_first_join rv e (JStr m) S = Ok false →
  ev_state_key e = Some tgt → user_id e ≠ tgt →
  m = Membership.LEAVE ∨ m = Membership.BAN →
  has_membership (S !! (EventTypes.Member, user_id e)) Membership.JOIN ∧
  ∃ ul tl needed,
    get_user_power_level (user_id e) S = Ok ul ∧ get_user_power_level tgt S = Ok tl ∧
    get_named_level S (if decide (m = Membership.BAN) then "ban" else "kick") 50 = Ok needed ∧
    tl < ul ∧ needed ≤ ul.
Proof.
  intros Hok Hm Hcj Htgt Hne Hmv.
  pose proof (membership_change_inv _ _ _ _ _ Hok Hm Hcj Htgt) as Hinv. read_info Hinv.
  destruct (decide_membership_inv _ _ _ _ _ Hdec Hmm)
    as [(-> & _)|[(_ & Heq & _)|(Ht & Hc)]]; [by destruct Hmv|congruence|].
  assert (Hj : has_membership (S !! (EventTypes.Member, user_id e)) Membership.JOIN).
  { apply Hcin. destruct Hc as [->|[->|?]], Hmv; done. }
  split; [done|]. exists (mi_user_level mi), (mi_target_level mi).
  unfold check_transition, check_leave, check_ban in Ht. rewrite Hmm, Htg in Ht.
  destruct Hmv as [-> | ->]; simpl in Ht.
  - rewrite (bool_decide_false (tgt = _)) in Ht by done. simpl in Ht.
    split_if Ht. apply bind_ok in Ht as (kl & Hkl & Ht).
    apply raise_if_ok, orb_false_iff in Ht as [H1 H2].
    exists kl. split_and!; [done..| |]; lia.
  - split_if Ht. split_if Ht. exists (mi_ban_level mi). split_and!; [done..| |]; lia.
Qed.

(** A member who may invite has authorised the join. *)
Definition authorised_join e S : Prop :=
  ∃ user level invite_level,
    dict_get EventContentFields.AUTHORISING_USER (content e) = Some (JStr user) ∧
    has_membership (S !! (EventTypes.Member, user)) Membership.JOIN ∧
    get_user_power_level user S = Ok level ∧
    get_named_level S "invite" 0 = Ok invite_level ∧ invite_level ≤ level.

Definition already_in e S : Prop :=
  has_membership (S !! (EventTypes.Member, user_id e)) Membership.JOIN ∨
  has_membership (S !! (EventTypes.Member, user_id e)) Membership.INVITE.

Definition invite_like_rule rv (join_rule : json) : bool :=
  eq_str join_rule JoinRules.INVITE || (knock_join_rule rv && eq_str join_rule JoinRules.KNOCK).

(** The join rule lets [tgt] in. *)
Definition rule_lets_in rv e S tgt : Prop :=
  user_id e = tgt ∧
  ¬ has_membership (S !! (EventTypes.Member, tgt)) Membership.BAN ∧
  (get_join_rule S = JStr JoinRules.PUBLIC ∨
   (is_restricted_rule rv (get_join_rule S) = true ∧ (already_in e S ∨ authorised_join e S)) ∨
   (invite_like_rule rv (get_join_rule S) = true ∧ already_in e S)).

(** The room is one of [tgt]'s own server or it may federate. *)
Definition open_to_server e S tgt : Prop :=
  get_domain_from_id (room_id e) = get_domain_from_id tgt ∨ _can_federate e S = true.

Definition may_join rv e S tgt : Prop :=
  creator_first_join rv e S tgt ∨ (open_to_server e S tgt ∧ rule_lets_in rv e S tgt).

Lemma check_authorising_user_ok rv e m tgt S mi :
  get_membership_info rv e m tgt S = Ok mi →
  check_authorising_user e mi S = Ok tt ↔ authorised_join e S.
Proof.
  intros Hmi. destruct (get_membership_info_ok _ _ _ _ _ _ Hmi)
    as (_ & _ & _ & _ & _ & _ & _ & _ & _ & _ & Hil & _).
  unfold check_authorising_user, authorised_join, get_or.
  destruct (dict_get _ (content e)) as [[| | | |u|l|o]|]; simpl; try naive_solver.
  split.
  - intros Hc. apply bind_ok in Hc as ([] & Hj & Hc). apply check_joined_room_ok in Hj.
    apply bind_ok in Hc as (lvl & Hl & Hc). apply raise_if_ok in Hc.
    exists u, lvl, (mi_invite_level mi). split_and!; try done. lia.
  - intros (u' & l & il & [= <-] & Hj & Hl & Hil' & Hle).
    rewrite (proj2 (check_joined_room_ok _ u (room_id e)) Hj). simpl. rewrite Hl. simpl.
    apply raise_if_ok. assert (il = mi_invite_level mi) as -> by congruence. lia.
Qed.

(** [check_join] decides [rule_lets_in]. *)
Lemma check_join_iff rv e S tgt mi :
  get_membership_info rv e (JStr Membership.JOIN) tgt S = Ok mi →
  check_join rv e mi S = Ok tt ↔ rule_lets_in rv e S tgt.
Proof.
  intros Hmi.
  destruct (get_membership_info_ok _ _ _ _ _ _ Hmi)
    as (Hmm & Htg & Hjr & Hcin & Hcinv & _ & _ & Htban & _).
  assert (Hin : negb (mi_caller_in_room mi) && negb (mi_caller_invited mi) = false ↔ already_in e S).
  { unfold already_in. rewrite <- Hcin, <- Hcinv.
    destruct (mi_caller_in_room mi), (mi_caller_invited mi); naive_solver. }
  pose proof (check_authorising_user_ok _ _ _ _ _ _ Hmi) as Hau.
  unfold check_join, rule_lets_in, invite_like_rule. rewrite Htg, Hjr.
  destruct (decide (user_id e = tgt)) as [Heq|Hne];
    [rewrite bool_decide_true by done | rewrite bool_decide_false by done; naive_solver].
  simpl. destruct (mi_target_banned mi) eqn:Htb; [naive_solver|].
  assert (Hnb : ¬ has_membership (S !! (EventTypes.Member, tgt)) Membership.BAN).
  { rewrite <- Htban. done. }
  destruct (eq_str (get_join_rule S) JoinRules.PUBLIC) eqn:Hpub.
  { apply eq_str_true in Hpub. naive_solver. }
  assert (Hnp : get_join_rule S ≠ JStr JoinRules.PUBLIC).
  { intros Hp. apply eq_str_true in Hp. congruence. }
  destruct (is_restricted_rule rv (get_join_rule S)) eqn:Hres.
  { assert (Hninv : eq_str (get_join_rule S) JoinRules.INVITE
                    || knock_join_rule rv && eq_str (get_join_rule S) JoinRules.KNOCK = false).
    { unfold is_restricted_rule in Hres. clear -Hres.
      destruct (get_join_rule S) as [| | | |r| |]; try by rewrite !andb_false_r in Hres.
      simpl in *. repeat case_bool_decide; subst; try done;
        by rewrite ?andb_false_r in *. }
    rewrite Hninv.
    destruct (negb (mi_caller_in_room mi) && negb (mi_caller_invited mi)); naive_solver. }
  assert (Hkr : knock_restricted_join_rule rv
                && eq_str (get_join_rule S) JoinRules.KNOCK_RESTRICTED = false).
  { by apply orb_false_iff in Hres as [_ ?]. }
  rewrite Hkr, orb_false_r.
  destruct (eq_str (get_join_rule S) JoinRules.INVITE || _); [|naive_solver].
  rewrite raise_if_ok. naive_solver.
Qed.

(** C25: a join is accepted if and only if it is the creator's join directly after
    the create event, or the room is on the user's own server or may federate, the
    user joins for themself, is not banned, and the room is public, or restricted
    with the user already joined or invited or with an authorising member who may
    invite, or invite-only (or knock) with the user already joined or invited.  This
    is for events and states that can be read: the creator of the room, the two
    domains, the memberships and the power levels that are looked up. *)
Theorem join_allowed_iff rv e S tgt b dom_r dom_t mi :
  membership e = Ok (JStr Membership.JOIN) → ev_state_key e = Some tgt →
  is_creator_first_join rv e (JStr Membership.JOIN) S = Ok b →
  get_domain_from_id (room_id e) = Ok dom_r → get_domain_from_id tgt = Ok dom_t →
  get_membership_info rv e (JStr Membership.JOIN) tgt S = Ok mi →
  _is_membership_change_allowed rv e S = Ok tt ↔ may_join rv e S tgt.
Proof.
  intros Hm Htgt Hcj Hdr Hdt Hmi. unfold may_join, open_to_server.
  rewrite <- (is_creator_first_join_ok _ _ _ _ _ _ Hm Htgt Hcj), <- (check_join_iff _ _ _ _ _ Hmi).
  destruct (get_membership_info_ok _ _ _ _ _ _ Hmi) as (Hmm & _).
  unfold _is_membership_change_allowed. unfold membership in Hm. rewrite Hm. simpl.
  rewrite Hcj. simpl. destruct b; [naive_solver|].
  unfold state_key. rewrite Htgt. simpl. rewrite Hdr, Hdt. simpl.
  assert (Hd : decide_membership rv e mi S = check_join rv e mi S)
    by (unfold decide_membership, check_transition; by rewrite Hmm).
  destruct (decide (dom_r = dom_t)) as [->|Hne].
  { rewrite bool_decide_true by done. simpl. rewrite Hmi. simpl. rewrite Hd. naive_solver. }
  rewrite bool_decide_false by done. simpl.
  destruct (_can_federate e S); simpl; [rewrite Hmi; simpl; rewrite Hd|]; naive_solver.
Qed.
End membership.

(** ** The state that is read *)

(** C23: the state named by [auth_types_for_event] is enough: two room states that
    agree on those keys, and for a power-levels event on its own type and state key
    too, give the same outcome, error included.  The event is not a create event,
    and of a room version in which [knock_restricted] comes with [restricted] joins.
    (The own key of a power-levels event is among those named when its state key is
    empty; [power_levels_own_key] shows that it must be added when it is not.) *)
Theorem auth_types_sufficient `{Crypto} (e : Event) (S T : StateMap Event)
    (types : gset (string * string)) :
  type e ≠ EventTypes.Create → wf_room_version (room_version e) = true →
  (type e = EventTypes.PowerLevels →
   ∀ k, ev_state_key e = Some k → S !! (type e, k) = T !! (type e, k)) →
  auth_types_for_event (room_version e) e = Ok types → agree_on types S T →
  check_against_state e S = check_against_state e T.
Proof.
  intros Hc Hwf Hpl Htypes Ha.
  assert (Hkr : knock_restricted_join_rule (room_version e) = true →
                restricted_join_rule (room_version e) = true).
  { unfold wf_room_version in Hwf. intros Hk. rewrite Hk in Hwf.
    destruct (restricted_join_rule (room_version e)); [done|].
    by rewrite !andb_false_r in Hwf. }
  destruct (auth_types_base _ _ _ Htypes Hc) as [Hlk Hms].
  pose proof (agree_on_mono _ _ _ _ Hlk Ha) as Hl.
  unfold check_against_state. rewrite (can_federate_frame _ _ _ Hl).
  do 3 (match goal with |- (?r ≫= _) = (?r ≫= _) => destruct r; simpl; [|done] end).
  destruct (bool_decide (type e = EventTypes.Aliases) && _); [done|].
  destruct (decide (type e = EventTypes.Member)) as [Hm|Hm].
  { by rewrite (membership_change_frame _ _ _ _ _ Hkr Hm Htypes Ha). }
  unfold _check_event_sender_in_room. rewrite (Ha _ Hms).
  rewrite (get_user_power_level_frame _ _ _ Hl), (get_named_level_frame _ _ _ _ Hl),
    (can_send_event_frame _ _ _ Hl), (check_redaction_frame _ _ _ _ Hl).
  destruct (decide (type e = EventTypes.PowerLevels)) as [Hp|Hp]; [|done].
  by rewrite (check_power_levels_frame _ _ _ _ Hl (Hpl Hp)).
Qed.

(** ** Events other than memberships *)

(** An accepted event that is not a create, membership, third-party-invite or
    specially treated aliases event was sent by a user who is joined to the room in
    the given state and whose power reaches the level needed to send it; and if its
    state key is a user ID, it is the sender's. *)
Theorem sender_joined_with_power `{Crypto} (e e' : Event) auth_events S :
  check_state_dependent_auth_rules e auth_events = Ok e' →
  make_auth_dict auth_events = Ok S →
  type e ∉ [EventTypes.Create; EventTypes.Member; EventTypes.ThirdPartyInvite] →
  type e ≠ EventTypes.Aliases ∨ special_case_aliases_auth (room_version e) = false →
  has_membership (S !! (EventTypes.Member, sender e)) Membership.JOIN ∧
  (∃ ul sl, get_user_power_level (sender e) S = Ok ul ∧
            get_send_level (type e) (ev_state_key e) (get_power_level_event S) = Ok sl ∧
            sl ≤ ul) ∧
  (∀ k, ev_state_key e = Some k → str_prefix "@" k = true → k = sender e).
Proof.
  intros Hok HS Hty Hal. rewrite !not_elem_of_cons in Hty. destruct Hty as (Hc & Hm & Ht & _).
  unfold check_state_dependent_auth_rules in Hok. rewrite decide_False in Hok by done.
  rewrite HS in Hok. simpl in Hok. unfold check_against_state in Hok.
  apply bind_ok in Hok as (? & _ & Hok). apply bind_ok in Hok as (? & _ & Hok).
  apply bind_ok in Hok as (? & _ & Hok).
  replace (bool_decide (type e = EventTypes.Aliases) && _) with false in Hok.
  2: { destruct Hal as [Hal| ->]; [by rewrite bool_decide_false|by rewrite andb_false_r]. }
  rewrite !decide_False in Hok by done.
  apply bind_ok in Hok as ([] & Hj & Hok). apply bind_ok in Hok as ([] & Hs & _).
  split; [by apply check_joined_room_ok in Hj|].
  unfold _can_send_event in Hs.
  apply bind_ok in Hs as (sl & Hsl & Hs). apply bind_ok in Hs as (ul & Hul & Hs).
  split_if Hs. split; [exists ul, sl; split_and!; [done|done|lia]|].
  intros k Hk Hat. rewrite Hk in Hs. apply raise_if_ok in Hs. rewrite Hat in Hs.
  by apply negb_false_iff, bool_decide_eq_true in Hs.
Qed.

(** What the state-independent rules ask of one auth event. *)
Definition good_auth_event (e : Event) (types : gset (string * string))
    (auth : gmap string Event) (id : string) (k : string * string) : Prop :=
  ∃ a, auth !! id = Some a ∧ room_id a = room_id e ∧ event_key a = Ok k ∧ k ∈ types ∧
       (rejected_reason a = None ∨ rejected_reason a = Some "").

Lemma check_auth_events_ok e auth types ids d d' :
  fold_res (check_auth_event e auth types) ids d = Ok d' →
  ∃ keys, Forall2 (good_auth_event e types auth) ids keys ∧ NoDup keys ∧
    Forall (λ k, d !! k = None) keys ∧ ∀ k, is_Some (d' !! k) → is_Some (d !! k) ∨ k ∈ keys.
Proof.
  revert d. induction ids as [|id ids IH]; intros d; simpl.
  - intros [= <-]. exists []. split_and!; [constructor..|auto].
  - intros Hf. apply bind_ok in Hf as (d1 & Hd1 & Hf).
    destruct (IH _ Hf) as (keys & Hk & Hnd & Hfresh & Hdom).
    unfold check_auth_event in Hd1. destruct (auth !! id) as [a|] eqn:Ea; [|done].
    inv_res. rename x0 into k.
    match goal with H : negb (bool_decide (room_id _ = _)) = false |- _ =>
      apply negb_false_iff, bool_decide_eq_true in H end.
    match goal with H : bool_decide (is_Some _) = false |- _ =>
      apply bool_decide_eq_false, eq_None_not_Some in H end.
    match goal with H : negb (bool_decide (_ ∈ _)) = false |- _ =>
      apply negb_false_iff, bool_decide_eq_true in H end.
    exists (k :: keys). split_and!.
    + constructor; [|done]. exists a. split_and!; try done.
      destruct (rejected_reason a) as [r|]; [right|by left].
      match goal with H : negb (bool_decide (_ = "")) = false |- _ =>
        apply negb_false_iff, bool_decide_eq_true in H as -> end. done.
    + apply NoDup_cons; split; [|done]. intros Hin.
      eapply (proj1 (Forall_forall _ _) Hfresh) in Hin. by rewrite lookup_insert_eq in Hin.
    + constructor; [done|]. eapply Forall_impl; [exact Hfresh|]. simpl. intros k' Hk'.
      by apply lookup_insert_None in Hk' as [? _].
    + intros k' Hk'. destruct (Hdom _ Hk') as [Hi|Hi]; [|by right; right].
      destruct (decide (k = k')) as [->|Hne]; [by right; left|].
      rewrite lookup_insert_ne in Hi by done. by left.
Qed.

(** An event that passes the state-independent rules cites auth events that are
    all known, in the same room, not rejected, of pairwise different (type,
    state_key), each one of the keys the selection algorithm allows, and the create
    event among them: powers granted in another room, or by a rejected event, cannot
    be used. *)
Theorem state_independent_rules_sound get_events e batched :
  check_state_independent_auth_rules get_events e batched = Ok tt →
  type e ≠ EventTypes.Create →
  ∃ types keys, auth_types_for_event (room_version e) e = Ok types ∧
    Forall2 (good_auth_event e types (fetch_auth_events get_events e batched))
      (auth_event_ids e) keys ∧
    NoDup keys ∧ (EventTypes.Create, "") ∈ keys.
Proof.
  unfold check_state_independent_auth_rules. intros Hok Hc.
  rewrite decide_False in Hok by done.
  apply bind_ok in Hok as (types & Ht & Hok). apply bind_ok in Hok as (d & Hd & Hok).
  apply raise_if_ok in Hok. exists types.
  destruct (check_auth_events_ok _ _ _ _ _ _ Hd) as (keys & Hk & Hnd & _ & Hdom).
  exists keys. split_and!; try done.
  destruct (d !! _) as [id|] eqn:Ed; [|done].
  destruct (Hdom _ (mk_is_Some _ _ Ed)) as [[? Hi]|]; [|done]. by rewrite lookup_empty in Hi.
Qed.

(** The size check accepts exactly the events whose canonical JSON is at most
    65536 bytes and whose five identifier fields are at most 255 bytes each; and when
    it refuses, the event may be persisted (as rejected) only if its room version
    counts code points and every field is within 255 code points. *)
Theorem size_limits_spec `{Crypto} (e : Event) :
  (_check_size_limits e = Ok tt ↔
     pdu_json_size e ≤ MAX_PDU_SIZE ∧
     Forall (λ s, byte_len s ≤ 255)
       ([user_id e; room_id e; type e; event_id e] ++ option_list (ev_state_key e))) ∧
  (∀ msg, _check_size_limits e = Err (EventSizeError msg false) →
     room_version e ∈ LENIENT_EVENT_BYTE_LIMITS_ROOM_VERSIONS ∧
     pdu_json_size e ≤ MAX_PDU_SIZE ∧
     Forall (λ s, py_len s ≤ 255)
       ([user_id e; room_id e; type e; event_id e] ++ option_list (ev_state_key e))).
Proof.
  assert (Hfields : ∀ len b, check_field_sizes len b e = Ok tt ↔
     Forall (λ s, len s ≤ 255)
       ([user_id e; room_id e; type e; event_id e] ++ option_list (ev_state_key e))).
  { intros len b. unfold check_field_sizes.
    rewrite Forall_app, !Forall_cons.
    destruct (ev_state_key e) as [k|]; simpl; rewrite ?Forall_cons; split.
    all: try (intros Hok; inv_res; split_and!; try constructor; lia).
    all: intros Hok; destruct_and!;
      by repeat (rewrite (proj2 (raise_if_ok _ _ tt)) by lia; simpl). }
  assert (Hnoerr : ∀ len msg, check_field_sizes len true e ≠ Err (EventSizeError msg false)).
  { intros len msg. unfold check_field_sizes, raise_if, size_error.
    repeat (match goal with |- context [if ?b then _ else _] => destruct b; simpl; [congruence|] end).
    done. }
  unfold _check_size_limits. split.
  - split.
    + intros Hok. inv_res. split; [lia|]. by eapply Hfields.
    + intros [Hs Hf]. rewrite (proj2 (raise_if_ok _ _ tt)) by lia. simpl.
      rewrite (proj2 (Hfields py_len true)).
      2: { eapply Forall_impl; [exact Hf|]. simpl. intros s Hle.
           pose proof (py_len_le_byte_len s). lia. }
      simpl. by apply Hfields.
  - intros msg Herr. apply bind_err in Herr as [Herr|([] & Hsz & Herr)];
      [by unfold raise_if in Herr; split_if Herr|].
    apply raise_if_ok in Hsz.
    apply bind_err in Herr as [Herr|([] & Hcp & Herr)]; [by apply Hnoerr in Herr|].
    apply Hfields in Hcp. split_and!; [|lia|done].
    destruct (decide (room_version e ∈ LENIENT_EVENT_BYTE_LIMITS_ROOM_VERSIONS)) as [|Hn]; [done|].
    rewrite bool_decide_false in Herr by done. by apply Hnoerr in Herr.
Qed.

Lemma check_user_entry_cases kv :
  check_user_entry kv = Ok tt ∨
  ∃ msg, check_user_entry kv = Err (SynapseError 400 msg Codes.UNKNOWN).
Proof.
  destruct kv as [k v]. unfold check_user_entry, try_except.
  destruct (from_string UserID k); simpl; [|eauto]. destruct (py_int v); simpl; eauto.
Qed.

(** A power-levels event whose [users] has a key that is not a user ID, or a
    level that is not convertible to an integer, is refused with a [SynapseError] of
    code 400, which is not an [AuthError]: code that handles only [AuthError], as
    the documentation of the auth rules says to expect, does not catch it. *)
Theorem malformed_power_levels_error rv e S users :
  as_dict (get_or "users" (JObj []) (content e)) = Ok users →
  Exists (λ kv, check_user_entry kv ≠ Ok tt) users →
  ∃ err, _check_power_levels rv e S = Err err ∧ is_AuthError err = false ∧
         is_SynapseError err = true.
Proof.
  intros Hu Hex. unfold _check_power_levels. rewrite Hu. simpl.
  assert (Herr : ∃ msg, iter_res check_user_entry users
                        = Err (SynapseError 400 msg Codes.UNKNOWN)).
  { clear Hu. induction Hex as [kv l Hkv|kv l Hex IH]; simpl;
      destruct (check_user_entry_cases kv) as [Hc|[msg Hc]]; rewrite Hc; simpl; eauto; done. }
  destruct Herr as [msg ->]. simpl. eauto.
Qed.

(** A redaction that the rules let through without the sender having the power
    to redact is either by the server that made the event (room versions 1 and 2,
    where the domain of the IDs tells) or marked for a later check of the sender
    against the redacted event (version 3 on); with the power, it is never marked. *)
Theorem redaction_checked rv e S b e' ul rl :
  check_redaction rv e S = Ok (b, e') →
  get_user_power_level (user_id e) S = Ok ul → get_named_level S "redact" 50 = Ok rl →
  (rl ≤ ul → b = false ∧ e' = e) ∧
  (ul < rl →
     if event_format rv =? EventFormatVersions.ROOM_V1_V2
     then e' = e ∧ ∀ r, redacts e = JStr r →
            b = true ∧ ∃ d, get_domain_from_id (event_id e) = Ok d ∧ get_domain_from_id r = Ok d
     else b = true ∧ recheck_redaction e' = true).
Proof.
  intros Hok Hul Hrl. unfold check_redaction in Hok. rewrite Hul, Hrl in Hok. simpl in Hok.
  split; intros Hlt.
  - replace (rl <=? ul) with true in Hok by lia. naive_solver.
  - replace (rl <=? ul) with false in Hok by lia. destruct (event_format rv =? _).
    + apply bind_ok in Hok as (d & Hd & Hok).
      destruct (redacts e) as [| | | |r| |]; try (simplify_eq; split; done).
      apply bind_ok in Hok as (d' & Hd' & Hok).
      case_bool_decide; [|done]. simplify_eq. split; [done|]. intros r' [= <-]. eauto.
    + naive_solver.
Qed.
