(* ===== verification/EventAuthExamples.v ===== *)
(** * Witnesses for the properties of event authorisation

    One room of version 10 with an admin [@a:x] (100), a moderator [@b:x] (50), an
    ordinary member [@c:x] and a banned user [@z:x], and events in it at which the
    hypotheses of the properties hold. *)

From S2P Require Import Prelude PyVal Constants RoomVersions Ids Events EventAuth EventAuthLemmas EventAuthProps.

(** A signature library that accepts every signature. *)
Definition example_crypto : Crypto := {|
  verify_key := unit;
  pdu_json_size := λ _, 1000;
  decode_base64 := λ _, Ok "";
  decode_verify_key_bytes := λ _ _, Ok tt;
  verify_signed_json := λ _ _ _, Ok tt
|}.
#[local] Existing Instance example_crypto.

Definition ex_event (id typ from : string) (skey : option string) (c : dict) : Event := {|
  event_id := id; type := typ; sender := from; room_id := "!r:x"; ev_state_key := skey;
  content := c; ev_prev_events := ["$prev1"; "$prev2"]; ev_auth_events := ["$create"; "$pl"; "$ma"];
  origin_server_ts := 1; depth := 1; signatures := [("x", [("ed25519:1", "sig")])]; ev_redacts := None;
  room_version := RoomVersions.V10; rejected_reason := None; recheck_redaction := false |}.

Definition ex_member (id from target m : string) : Event :=
  ex_event id EventTypes.Member from (Some target) [("membership", JStr m)].

Definition ex_create : Event :=
  ex_event "$create" EventTypes.Create "@a:x" (Some "") [("creator", JStr "@a:x")].

Definition ex_levels (b : Z) : dict :=
  [("users", JObj [("@a:x", JInt 100); ("@b:x", JInt b)]); ("ban", JInt 50); ("kick", JInt 50)].

Definition ex_pl : Event :=
  ex_event "$pl" EventTypes.PowerLevels "@a:x" (Some "") (ex_levels 50).

Definition ex_join_rules (rule : string) : Event :=
  ex_event "$jr" EventTypes.JoinRules "@a:x" (Some "") [("join_rule", JStr rule)].

Definition ex_auth : list Event :=
  [ex_create; ex_pl; ex_join_rules JoinRules.INVITE;
   ex_member "$ma" "@a:x" "@a:x" Membership.JOIN;
   ex_member "$mb" "@b:x" "@b:x" Membership.JOIN;
   ex_member "$mc" "@c:x" "@c:x" Membership.JOIN;
   ex_member "$md" "@a:x" "@d:x" Membership.INVITE;
   ex_member "$mz" "@b:x" "@z:x" Membership.BAN].

Definition ex_state : StateMap Event := unwrap ∅ (make_auth_dict ex_auth).

(** The admin raises the moderator to 75. *)
Definition ex_new_pl : Event :=
  ex_event "$pl2" EventTypes.PowerLevels "@a:x" (Some "") (ex_levels 75).


(** The last case: a sender at 50 who removes the entry of a user at 40 in a room
    whose default is 100 lifts that user to 100. *)
Definition ex_high_default (users : dict) : Event :=
  ex_event "$hi" EventTypes.PowerLevels "@b:x" (Some "")
    [("users", JObj users); ("users_default", JInt 100)].

Example removed_entry_falls_back :
  let S := <[(EventTypes.PowerLevels, "") :=
               ex_high_default [("@b:x", JInt 50); ("@c:x", JInt 40)]]> ex_state in
  let e := ex_high_default [("@b:x", JInt 50)] in
  _check_power_levels RoomVersions.V10 e S = Ok tt ∧
  get_user_power_level "@b:x" S = Ok 50 ∧ get_user_power_level "@c:x" S = Ok 40 ∧
  get_user_power_level "@c:x" (<[(EventTypes.PowerLevels, "") := e]> S) = Ok 100.
Proof. vm_compute. split_and!; reflexivity. Qed.

(** The moderator may not demote another moderator's equal. *)
Example equal_level_refused :
  _check_power_levels RoomVersions.V10
    (ex_event "$pl3" EventTypes.PowerLevels "@b:x" (Some "")
       [("users", JObj [("@a:x", JInt 50); ("@b:x", JInt 50)]); ("ban", JInt 50); ("kick", JInt 50)])
    ex_state
  = Err (AuthError 403 "You don't have permission to add ops level greater than your own").
Proof. vm_compute. reflexivity. Qed.

Lemma other_levels_bounded_witness :
  dict_int "ban" (ex_levels 50) ≠ dict_int "ban" [("ban", JInt 60)] ∧
  (∀ z, dict_int "ban" (ex_levels 50) = Some z ∨ dict_int "ban" [("ban", JInt 60)] = Some z →
        z ≤ 100).
Proof.
  split; [vm_compute; congruence|].
  apply (proj1 (other_levels_bounded RoomVersions.V10
    (ex_event "$pl4" EventTypes.PowerLevels "@a:x" (Some "") [("ban", JInt 60)])
    ex_state "" ex_pl 100 eq_refl eq_refl eq_refl eq_refl) "ban");
    [vm_compute; set_solver | vm_compute; congruence].
Defined.

Lemma ban_holds_witness :
  creator_first_join RoomVersions.V10 (ex_member "$u" "@b:x" "@z:x" Membership.LEAVE) ex_state "@z:x" ∨
  (Membership.LEAVE = Membership.LEAVE ∨ Membership.LEAVE = Membership.BAN) ∧
  "@b:x" ≠ "@z:x" ∧ has_membership (ex_state !! (EventTypes.Member, "@b:x")) Membership.JOIN ∧
  ∃ ul bl, get_user_power_level "@b:x" ex_state = Ok ul ∧
           get_named_level ex_state "ban" 50 = Ok bl ∧ bl ≤ ul.
Proof.
  apply (ban_holds RoomVersions.V10 (ex_member "$u" "@b:x" "@z:x" Membership.LEAVE) ex_state
           Membership.LEAVE "@z:x").
  1-3: vm_compute; reflexivity.
  eexists; split; vm_compute; reflexivity.
Defined.

Lemma moderation_needs_power_witness :
  has_membership (ex_state !! (EventTypes.Member, "@b:x")) Membership.JOIN ∧
  ∃ ul tl needed,
    get_user_power_level "@b:x" ex_state = Ok ul ∧ get_user_power_level "@c:x" ex_state = Ok tl ∧
    get_named_level ex_state "ban" 50 = Ok needed ∧ tl < ul ∧ needed ≤ ul.
Proof.
  apply (moderation_needs_power RoomVersions.V10 (ex_member "$u" "@b:x" "@c:x" Membership.BAN)
           ex_state Membership.BAN "@c:x"); try (vm_compute; reflexivity).
  - vm_compute. discriminate.
  - by right.
Defined.

(** The invited user joins an invite-only room. *)
Definition no_info : membership_info := {|
  mi_membership := JNull; mi_target := ""; mi_caller_in_room := false;
  mi_caller_invited := false; mi_caller_knocked := false; mi_target_in_room := false;
  mi_target_banned := false; mi_join_rule := JNull; mi_user_level := 0;
  mi_target_level := 0; mi_invite_level := 0; mi_ban_level := 0 |}.

Definition ex_join : Event := ex_member "$j" "@d:x" "@d:x" Membership.JOIN.

Lemma join_allowed_iff_witness :
  _is_membership_change_allowed RoomVersions.V10 ex_join ex_state = Ok tt ∧
  may_join RoomVersions.V10 ex_join ex_state "@d:x".
Proof.
  split; [vm_compute; reflexivity|].
  apply (join_allowed_iff RoomVersions.V10 ex_join ex_state "@d:x" false "x" "x"
           (unwrap no_info (get_membership_info RoomVersions.V10 ex_join
              (JStr Membership.JOIN) "@d:x" ex_state))); vm_compute; reflexivity.
Defined.

Definition ex_ban : Event := ex_member "$u" "@b:x" "@c:x" Membership.BAN.

Definition ex_ban_types : gset (string * string) :=
  unwrap ∅ (auth_types_for_event RoomVersions.V10 ex_ban).

Lemma auth_types_sufficient_witness :
  check_against_state ex_ban ex_state =
  check_against_state ex_ban (delete (EventTypes.Member, "@z:x") ex_state).
Proof.
  apply (auth_types_sufficient ex_ban _ _ ex_ban_types).
  - discriminate.
  - reflexivity.
  - discriminate.
  - apply unwrap_ok. vm_compute. reflexivity.
  - intros k Hk. rewrite lookup_delete_ne; [done|]. intros <-. revert Hk.
    apply (bool_decide_unpack (_ ∉ _)). vm_compute. exact I.
Defined.

(** A power-levels event with another state key is compared with the event at that
    key, which is not among the auth types: a sender at 50 may give 60 while there
    is none, and may not once there is one. *)
Definition ex_other_pl (b : Z) : Event :=
  ex_event "$po" EventTypes.PowerLevels "@b:x" (Some "other") [("users", JObj [("@b:x", JInt b)])].

Example power_levels_own_key :
  bool_decide ((EventTypes.PowerLevels, "other") ∈
    unwrap ∅ (auth_types_for_event RoomVersions.V10 (ex_other_pl 60))) = false ∧
  check_against_state (ex_other_pl 60) ex_state = Ok (ex_other_pl 60) ∧
  check_against_state (ex_other_pl 60)
    (<[(EventTypes.PowerLevels, "other") := ex_other_pl 50]> ex_state) =
    Err (AuthError 403 "You don't have permission to add ops level greater than your own").
Proof. split; [|split]; vm_compute; reflexivity. Qed.

Definition ex_topic : Event := ex_event "$t" "m.room.topic" "@b:x" (Some "") [].

Lemma sender_joined_with_power_witness :
  has_membership (ex_state !! (EventTypes.Member, "@b:x")) Membership.JOIN ∧
  (∃ ul sl, get_user_power_level "@b:x" ex_state = Ok ul ∧
     get_send_level "m.room.topic" (Some "") (get_power_level_event ex_state) = Ok sl ∧ sl ≤ ul) ∧
  (∀ k, Some "" = Some k → str_prefix "@" k = true → k = "@b:x").
Proof.
  apply (sender_joined_with_power ex_topic
           (unwrap ex_topic (check_state_dependent_auth_rules ex_topic ex_auth)) ex_auth ex_state).
  - apply unwrap_ok. vm_compute. reflexivity.
  - apply unwrap_ok. vm_compute. reflexivity.
  - rewrite !not_elem_of_cons. split_and!; try discriminate. apply not_elem_of_nil.
  - left. discriminate.
Defined.

Definition ex_get_events (ids : gset string) : gmap string Event :=
  filter (λ kv, kv.1 ∈ ids)
    (list_to_map ((λ e, (event_id e, e)) <$> ex_auth) : gmap string Event).

Lemma state_independent_rules_sound_witness :
  ∃ types keys,
    auth_types_for_event RoomVersions.V10 (ex_event "$t" "m.room.topic" "@a:x" (Some "") [])
      = Ok types ∧
    Forall2 (good_auth_event (ex_event "$t" "m.room.topic" "@a:x" (Some "") []) types
               (fetch_auth_events ex_get_events
                  (ex_event "$t" "m.room.topic" "@a:x" (Some "") []) ∅))
      ["$create"; "$pl"; "$ma"] keys ∧
    NoDup keys ∧ (EventTypes.Create, "") ∈ keys.
Proof.
  apply (state_independent_rules_sound ex_get_events
           (ex_event "$t" "m.room.topic" "@a:x" (Some "") []) ∅); vm_compute; congruence.
Defined.

(** A power-levels event naming something that is not a user ID. *)
Definition ex_bad_pl : Event :=
  ex_event "$pl5" EventTypes.PowerLevels "@a:x" (Some "") [("users", JObj [("nobody", JInt 0)])].

Lemma malformed_power_levels_error_witness :
  ∃ err, _check_power_levels RoomVersions.V10 ex_bad_pl ex_state = Err err ∧
         is_AuthError err = false ∧ is_SynapseError err = true.
Proof.
  apply (malformed_power_levels_error RoomVersions.V10 ex_bad_pl ex_state [("nobody", JInt 0)]).
  - reflexivity.
  - constructor. vm_compute. discriminate.
Defined.

Definition ex_redaction : Event := ex_event "$red" EventTypes.Redaction "@c:x" None [].

Lemma redaction_checked_witness :
  (50 ≤ 0 → true = false ∧ set_recheck_redaction ex_redaction = ex_redaction) ∧
  (0 < 50 → true = true ∧ recheck_redaction (set_recheck_redaction ex_redaction) = true).
Proof.
  apply (redaction_checked RoomVersions.V10 ex_redaction ex_state true
           (set_recheck_redaction ex_redaction) 0 50); vm_compute; reflexivity.
Defined.
