(* ===== verification/EventObjects.v ===== *)
(** * Event objects: the classes of [synapse/events/__init__.py]

    [FrozenEvent], [FrozenEventV2] and [FrozenEventV3] differ in the event id, in the
    form of the references to other events and in one assertion, which depend on
    [room_version.event_format].  Interning and freezing change no value.  [Events.v]
    has the typed view of an event that authorisation reads; [view] relates the two. *)

From S2P Require Import Prelude PyVal Constants RoomVersions Events.

(** ** Operations on dicts *)

(** [d[k] = v] *)
Fixpoint dict_set {A} (k : string) (v : A) (d : list (string * A)) : list (string * A) :=
  match d with
  | [] => [(k, v)]
  | (k', w) :: d => if decide (k = k') then (k, v) :: d else (k', w) :: dict_set k v d
  end.

(** [d.pop(k, None)], for what is left *)
Definition dict_pop {A} (k : string) (d : list (string * A)) : list (string * A) :=
  filter (λ kv, kv.1 ≠ k) d.

(** An element of the list that [dict(...)] is given; keys are strings. *)
Definition dict_item (j : json) : result (string * json) :=
  l ← py_iter j;
  match l with
  | [JStr k; v] => Ok (k, v)
  | [_; _] => Err (PyBuiltin TypeError)
  | _ => Err (PyBuiltin ValueError)
  end.

(** [dict(j)] *)
Definition py_dict (j : json) : result dict :=
  match j with
  | JObj o => Ok o
  | _ => l ← py_iter j;
         fold_res (λ d x, '(k, v) ← dict_item x; Ok (dict_set k v d)) l []
  end.

(** ** [EventBase] *)

Record FrozenEvent := MkFrozenEvent {
  fe_room_version : RoomVersion;
  (** [_dict]: the event without its signatures and unsigned data *)
  _dict : dict;
  fe_signatures : dict;
  fe_unsigned : dict;
  fe_rejected_reason : option string;
  (** [internal_metadata._dict] *)
  internal_metadata : dict;
  stream_ordering : option Z;
  outlier : bool
}.

(** [{name: dict(sigs.items()) for name, sigs in ...items()}] *)
Definition copy_signatures (j : json) : result dict :=
  sigs ← as_dict j;
  fold_res (λ d ns, s ← as_dict ns.2; Ok (dict_set ns.1 (JObj s) d)) sigs [].

(** The constructor of [FrozenEvent], which needs an event id. *)
Definition FrozenEvent_init (event_dict : dict) (rv : RoomVersion)
    (internal_metadata_dict : dict) (rejected : option string) : result FrozenEvent :=
  sigs ← copy_signatures (get_or "signatures" (JObj []) event_dict);
  unsigned ← py_dict (get_or "unsigned" (JObj []) event_dict);
  let event_dict := dict_pop "unsigned" (dict_pop "signatures" event_dict) in
  _event_id ← dict_getitem "event_id" event_dict;
  Ok (MkFrozenEvent rv event_dict sigs unsigned rejected internal_metadata_dict None false).

(** That of [FrozenEventV2] and [FrozenEventV3], which forbid one. *)
Definition FrozenEventV2_init (event_dict : dict) (rv : RoomVersion)
    (internal_metadata_dict : dict) (rejected : option string) : result FrozenEvent :=
  sigs ← copy_signatures (get_or "signatures" (JObj []) event_dict);
  raise_if (dict_mem "event_id" event_dict) (PyBuiltin AssertionError) ;;
  unsigned ← py_dict (get_or "unsigned" (JObj []) event_dict);
  let event_dict := dict_pop "unsigned" (dict_pop "signatures" event_dict) in
  Ok (MkFrozenEvent rv event_dict sigs unsigned rejected internal_metadata_dict None false).

Definition _event_type_from_format_version (format_version : Z)
    : result (dict → RoomVersion → dict → option string → result FrozenEvent) :=
  if format_version =? EventFormatVersions.ROOM_V1_V2 then Ok FrozenEvent_init
  else if format_version =? EventFormatVersions.ROOM_V3 then Ok FrozenEventV2_init
  else if format_version =? EventFormatVersions.ROOM_V4_PLUS then Ok FrozenEventV2_init
  else Err (PyException "No event format %r").

Definition make_event_from_dict (event_dict : dict) (rv : RoomVersion)
    (internal_metadata_dict : dict) (rejected : option string) : result FrozenEvent :=
  event_type ← _event_type_from_format_version (event_format rv);
  event_type event_dict rv internal_metadata_dict rejected.

Definition get_dict (e : FrozenEvent) : dict :=
  dict_set "unsigned" (JObj (fe_unsigned e))
    (dict_set "signatures" (JObj (fe_signatures e)) (_dict e)).

(** [get_pdu_json()] without a time *)
Definition get_pdu_json (e : FrozenEvent) : dict :=
  dict_set "unsigned" (JObj (dict_pop "redacted_because" (fe_unsigned e))) (get_dict e).

(** A [DictProperty]. *)
Definition get_property (key : string) (e : FrozenEvent) : result json :=
  match dict_get key (_dict e) with
  | Some v => Ok v
  | None => Err (PyBuiltin AttributeError)
  end.

(** [event.get(key)] *)
Definition fe_get (key : string) (e : FrozenEvent) : json := get_or key JNull (_dict e).

(** [[e for e, _ in ...]], or the list itself in the later formats *)
Definition first_of_pair (j : json) : result json :=
  l ← py_iter j;
  match l with [x; _] => Ok x | _ => Err (PyBuiltin ValueError) end.

Definition event_refs (key : string) (e : FrozenEvent) : result json :=
  j ← dict_getitem key (_dict e);
  if event_format (fe_room_version e) =? EventFormatVersions.ROOM_V1_V2
  then l ← py_iter j; JList <$> map_res first_of_pair l
  else Ok j.

Definition fe_prev_event_ids : FrozenEvent → result json := event_refs "prev_events".
Definition fe_auth_event_ids : FrozenEvent → result json := event_refs "auth_events".
