(* ===== verification/Redaction.v ===== *)
(** * Redaction and event hashes: [prune_event] and [prune_event_dict] of
    [synapse/events/utils.py], the event ids of [synapse/events/__init__.py], and
    [synapse/crypto/event_signing.py]

    The hash, base64, canonical-JSON and signing libraries are the parameters of
    [Hashing]. *)

From S2P Require Import Prelude PyVal Constants RoomVersions Events EventObjects.

(** ** [prune_event_dict] *)

(** [add_fields]: [event_dict["content"]] is read for each field, so it is a
    computation that may raise. *)
Definition add_fields (content : result json) (fields : list string) (new_content : dict)
    : result dict :=
  fold_res (λ new_content field,
      c ← content;
      present ← py_in (JStr field) c;
      if present : bool
      then c ← content; v ← py_getitem c (JStr field); Ok (dict_set field v new_content)
      else Ok new_content) fields new_content.

(** What of a member event's content is kept. *)
Definition prune_member (rv : RoomVersion) (content : result json) : result dict :=
  new_content ← add_fields content ["membership"] [];
  new_content ← (if restricted_join_rule_fix rv
                 then add_fields content [EventContentFields.AUTHORISING_USER] new_content
                 else Ok new_content);
  if updated_redaction_rules rv then
    c ← content;
    c ← as_dict c;
    match dict_get "third_party_invite" c with
    | Some (JObj third_party_invite) =>
        let kept := match dict_get "signed" third_party_invite with
                    | Some signed => [("signed", signed)]
                    | None => []
                    end in
        Ok (dict_set "third_party_invite" (JObj kept) new_content)
    | _ => Ok new_content
    end
  else Ok new_content.

Definition power_level_fields : list string :=
  ["users"; "users_default"; "events"; "events_default"; "state_default"; "ban"; "kick"; "redact"].

(** The content by event type. *)
Definition prune_by_type (rv : RoomVersion) (event_type : json) (content : result json)
    : result json :=
  if eq_str event_type EventTypes.Member then JObj <$> prune_member rv content
  else if eq_str event_type EventTypes.Create then
    if updated_redaction_rules rv then content
    else if negb (implicit_room_creator rv) then JObj <$> add_fields content ["creator"] []
    else Ok (JObj [])
  else if eq_str event_type EventTypes.JoinRules then
    new_content ← add_fields content ["join_rule"] [];
    JObj <$> (if restricted_join_rule rv then add_fields content ["allow"] new_content
              else Ok new_content)
  else if eq_str event_type EventTypes.PowerLevels then
    new_content ← add_fields content power_level_fields [];
    JObj <$> (if updated_redaction_rules rv then add_fields content ["invite"] new_content
              else Ok new_content)
  else if eq_str event_type EventTypes.Aliases && special_case_aliases_auth rv then
    JObj <$> add_fields content ["aliases"] []
  else if eq_str event_type EventTypes.RoomHistoryVisibility then
    JObj <$> add_fields content ["history_visibility"] []
  else if eq_str event_type EventTypes.Redaction && updated_redaction_rules rv then
    JObj <$> add_fields content ["redacts"] []
  else Ok (JObj []).

(** [{field: d[field] for field in fields if field in d}] *)
Definition pick_fields (fields : list string) (d : dict) : dict :=
  omap (λ field, pair field <$> dict_get field d) fields.

(** The relation that [msc3389_relation_redactions] keeps.  [new_content] is a dict
    here: it is either built above or the content whose [get] was just called. *)
Definition keep_relation (content : result json) (new_content : json) : result json :=
  c ← content;
  c ← as_dict c;
  match dict_get "m.relates_to" c with
  | Some (JObj relates_to) =>
      match pick_fields ["rel_type"; "event_id"] relates_to with
      | [] => Ok new_content
      | new_relates_to =>
          nc ← as_dict new_content;
          Ok (JObj (dict_set "m.relates_to" (JObj new_relates_to) nc))
      end
  | _ => Ok new_content
  end.

Definition prune_content (rv : RoomVersion) (event_type : json) (content : result json)
    : result json :=
  new_content ← prune_by_type rv event_type content;
  if msc3389_relation_redactions rv then keep_relation content new_content else Ok new_content.

Definition allowed_keys (rv : RoomVersion) : list string :=
  ["event_id"; "sender"; "room_id"; "hashes"; "signatures"; "content"; "type"; "state_key";
   "depth"; "prev_events"; "auth_events"; "origin_server_ts"] ++
  if updated_redaction_rules rv then [] else ["prev_state"; "membership"; "origin"].

(** [if k in j: unsigned[k] = j[k]] *)
Definition copy_unsigned (j : json) (unsigned : dict) (k : string) : result dict :=
  present ← py_in (JStr k) j;
  if present : bool then v ← py_getitem j (JStr k); Ok (dict_set k v unsigned) else Ok unsigned.

Definition prune_event_dict (rv : RoomVersion) (event_dict : dict) : result dict :=
  event_type ← dict_getitem "type" event_dict;
  new_content ← prune_content rv event_type (dict_getitem "content" event_dict);
  let allowed_fields := filter (λ kv, kv.1 ∈ allowed_keys rv) event_dict in
  let allowed_fields := dict_set "content" new_content allowed_fields in
  let event_unsigned := get_or "unsigned" (JObj []) event_dict in
  unsigned ← fold_res (copy_unsigned event_unsigned) ["age_ts"; "replaces_state"] [];
  Ok (dict_set "unsigned" (JObj unsigned) allowed_fields).

(** ** [prune_event] *)

Definition prune_event (event : FrozenEvent) : result FrozenEvent :=
  pruned_event_dict ← prune_event_dict (fe_room_version event) (get_dict event);
  pruned_event ← make_event_from_dict pruned_event_dict (fe_room_version event)
                   (internal_metadata event) None;
  Ok (MkFrozenEvent (fe_room_version pruned_event) (_dict pruned_event)
        (fe_signatures pruned_event) (fe_unsigned pruned_event) (fe_rejected_reason pruned_event)
        (dict_set "redacted" (JBool true) (internal_metadata pruned_event))
        (stream_ordering event) (outlier event)).

(** ** Hashes and signatures *)

Class Hashing := {
  signing_key : Type;
  encode_canonical_json : dict → result string;
  (** [hashlib.sha256(...).digest()] *)
  sha256 : string → string;
  encode_base64 : string → string;
  encode_base64_urlsafe : string → string;
  decode_b64 : json → result string;
  (** [sign_json(json, name, key)] *)
  sign_json : dict → string → signing_key → result dict
}.

Section hashing.
Context `{Hashing}.

Definition hash_name : string := "sha256".

Definition compute_content_hash (event_dict : dict) : result (string * string) :=
  let event_dict := dict_pop "destinations" (dict_pop "outlier" (dict_pop "hashes"
    (dict_pop "signatures" (dict_pop "unsigned" (dict_pop "age_ts" event_dict))))) in
  event_json_bytes ← encode_canonical_json event_dict;
  Ok (hash_name, sha256 event_json_bytes).

Definition compute_event_reference_hash (event : FrozenEvent) : result (string * string) :=
  tmp_event ← prune_event event;
  let event_dict := dict_pop "unsigned" (dict_pop "age_ts" (dict_pop "signatures"
    (get_pdu_json tmp_event))) in
  event_json_bytes ← encode_canonical_json event_dict;
  Ok (hash_name, sha256 event_json_bytes).

(** [event.event_id] of the three classes. *)
Definition fe_event_id (event : FrozenEvent) : result json :=
  let fmt := event_format (fe_room_version event) in
  if fmt =? EventFormatVersions.ROOM_V1_V2 then dict_getitem "event_id" (_dict event)
  else
    h ← compute_event_reference_hash event;
    Ok (JStr ("$" +:+ (if fmt =? EventFormatVersions.ROOM_V3 then encode_base64 h.2
                       else encode_base64_urlsafe h.2))).

Definition check_event_content_hash (event : FrozenEvent) : result bool :=
  '(name, expected_hash) ← compute_content_hash (get_pdu_json event);
  match fe_get "hashes" event with
  | JObj hashes =>
      match dict_get name hashes with
      | None => Err (SynapseError 400 "Algorithm %s not in hashes %s" Codes.UNAUTHORIZED)
      | Some message_hash_base64 =>
          message_hash_bytes ← try_except (decode_b64 message_hash_base64) (λ _, true)
            (λ _, Err (SynapseError 400 "Invalid base64: %s" Codes.UNAUTHORIZED));
          Ok (bool_decide (message_hash_bytes = expected_hash))
      end
  | _ => Err (SynapseError 400 "Malformed 'hashes': %s" Codes.UNAUTHORIZED)
  end.

Definition compute_event_signature (rv : RoomVersion) (event_dict : dict) (signature_name : string)
    (key : signing_key) : result json :=
  redact_json ← prune_event_dict rv event_dict;
  let redact_json := dict_pop "unsigned" (dict_pop "age_ts" redact_json) in
  redact_json ← sign_json redact_json signature_name key;
  dict_getitem "signatures" redact_json.

(** The event dict it leaves in place of the one it is given. *)
Definition add_hashes_and_signatures (rv : RoomVersion) (event_dict : dict)
    (signature_name : string) (key : signing_key) : result dict :=
  '(name, digest) ← compute_content_hash event_dict;
  event_dict ←
    match dict_get "hashes" event_dict with
    | None => Ok (dict_set "hashes" (JObj [(name, JStr (encode_base64 digest))]) event_dict)
    | Some (JObj hashes) =>
        Ok (dict_set "hashes" (JObj (dict_set name (JStr (encode_base64 digest)) hashes)) event_dict)
    | Some _ => Err (PyBuiltin TypeError)
    end;
  sigs ← compute_event_signature rv event_dict signature_name key;
  Ok (dict_set "signatures" sigs event_dict).
End hashing.
