(* ===== verification/RedactionProps.v ===== *)
(** * What redaction keeps

    Redacting an event twice is redacting it once; a redacted event keeps its id, its
    place in the graph and its signatures; and in rooms with the updated redaction
    rules redacting state events changes no authorisation decision, with two
    exceptions that the statement names. *)

From S2P Require Import Prelude PyVal Constants RoomVersions Ids Events EventAuth EventAuthLemmas EventObjects Redaction.

#[local] Arguments pick_fields : simpl never.
#[local] Arguments add_fields : simpl never.

(** ** Dicts *)

Section dicts.
Context {A : Type}.
Implicit Types (d : list (string * A)) (k : string).

Lemma dict_get_set k k' v d :
  dict_get k (dict_set k' v d) = if decide (k = k') then Some v else dict_get k d.
Proof.
  induction d as [|[k1 w] d IH]; simpl; [done|]. repeat (case_decide; simpl; simplify_eq; try done).
Qed.

Lemma dict_get_set_eq k v d : dict_get k (dict_set k v d) = Some v.
Proof. by rewrite dict_get_set, decide_True. Qed.
Lemma dict_get_set_ne k k' v d : k ≠ k' → dict_get k (dict_set k' v d) = dict_get k d.
Proof. intros. by rewrite dict_get_set, decide_False. Qed.

Lemma dict_get_filter (P : string → Prop) `{∀ k, Decision (P k)} k d :
  dict_get k (filter (λ kv, P kv.1) d) = if decide (P k) then dict_get k d else None.
Proof.
  induction d as [|[k1 w] d IH]; simpl; [by case_decide|].
  rewrite filter_cons. simpl. repeat (case_decide; simpl; simplify_eq; try done).
Qed.

Lemma dict_get_allowed k (L : list string) d :
  dict_get k (filter (λ kv, kv.1 ∈ L) d) = if decide (k ∈ L) then dict_get k d else None.
Proof. exact (dict_get_filter (λ k, k ∈ L) k d). Qed.

Lemma dict_get_pop k k' d : dict_get k (dict_pop k' d) = if decide (k = k') then None else dict_get k d.
Proof.
  unfold dict_pop. induction d as [|[k1 w] d IH]; simpl; [by case_decide|].
  rewrite filter_cons. simpl. repeat (case_decide; simpl; simplify_eq; try done).
Qed.

Lemma dict_set_id k v d : dict_get k d = Some v → dict_set k v d = d.
Proof.
  induction d as [|[k1 w] d IH]; simpl; [done|]. case_decide; [naive_solver|].
  intros. f_equal. auto.
Qed.

Lemma dict_set_new k v d : dict_get k d = None → dict_set k v d = d ++ [(k, v)].
Proof.
  induction d as [|[k1 w] d IH]; simpl; [done|]. case_decide; [done|].
  intros. f_equal. auto.
Qed.

Lemma filter_dict_set (P : string → Prop) `{∀ k, Decision (P k)} k v d :
  filter (λ kv, P kv.1) (dict_set k v d) =
  if decide (P k) then dict_set k v (filter (λ kv, P kv.1) d) else filter (λ kv, P kv.1) d.
Proof.
  induction d as [|[k1 w] d IH]; simpl.
  { cbn. by destruct (decide (P k)). }
  destruct (decide (k = k1)) as [->|].
  - rewrite !filter_cons. simpl. repeat (case_decide; simpl; simplify_eq; try done).
  - rewrite !filter_cons. simpl. rewrite IH. repeat (case_decide; simpl; simplify_eq; try done).
Qed.

Lemma allowed_dict_set (L : list string) k v d :
  filter (λ kv, kv.1 ∈ L) (dict_set k v d) =
  if decide (k ∈ L) then dict_set k v (filter (λ kv, kv.1 ∈ L) d) else filter (λ kv, kv.1 ∈ L) d.
Proof. exact (filter_dict_set (λ k, k ∈ L) k v d). Qed.

Lemma dict_get_app k d1 d2 :
  dict_get k (d1 ++ d2) = match dict_get k d1 with Some v => Some v | None => dict_get k d2 end.
Proof. induction d1 as [|[k1 w] d1 IH]; simpl; [done|]. by case_decide. Qed.
End dicts.

Lemma pick_fields_cons f F o :
  pick_fields (f :: F) o =
  match dict_get f o with Some v => [(f, v)] | None => [] end ++ pick_fields F o.
Proof. unfold pick_fields. cbn. by destruct (dict_get f o). Qed.

Lemma dict_get_pick k F o :
  dict_get k (pick_fields F o) = if decide (k ∈ F) then dict_get k o else None.
Proof.
  induction F as [|f F IH].
  { by destruct (decide (k ∈ [])) as [?%not_elem_of_nil|]. }
  rewrite pick_fields_cons, dict_get_app, IH. clear IH.
  destruct (decide (k = f)) as [->|Hne].
  - rewrite (decide_True (P := f ∈ f :: F)) by (by left).
    destruct (dict_get f o); simpl; [by rewrite decide_True|by case_decide].
  - assert (Hin : k ∈ f :: F ↔ k ∈ F) by (rewrite elem_of_cons; naive_solver).
    destruct (decide (k ∈ F)), (decide (k ∈ f :: F)); try naive_solver;
      destruct (dict_get f o); simpl; rewrite ?decide_False by done; done.
Qed.

Lemma pick_fields_ext F o1 o2 :
  (∀ k, k ∈ F → dict_get k o1 = dict_get k o2) → pick_fields F o1 = pick_fields F o2.
Proof.
  induction F as [|f F IH]; intros Heq; [done|].
  rewrite !pick_fields_cons, (Heq f), IH; [done| |by left]. intros k Hk. apply Heq. by right.
Qed.

Lemma pick_fields_app F G o : pick_fields (F ++ G) o = pick_fields F o ++ pick_fields G o.
Proof.
  induction F as [|f F IH]; [done|]. rewrite <- app_comm_cons, !pick_fields_cons, IH.
  by rewrite app_assoc.
Qed.

(** ** What [prune_content] computes *)

(** The dict a content is, or the empty one. *)
Definition obj_of (content : result json) : dict :=
  match content with Ok (JObj o) => o | _ => [] end.

(** One step of [add_fields]. *)
Definition add_field (content : result json) (field : string) (nc : dict) : result dict :=
  c ← content;
  present ← py_in (JStr field) c;
  if present : bool
  then c ← content; v ← py_getitem c (JStr field); Ok (dict_set field v nc)
  else Ok nc.

Lemma add_fields_cons content f F nc :
  add_fields content (f :: F) nc = (add_field content f nc ≫= add_fields content F).
Proof. done. Qed.

Lemma add_field_obj o f nc :
  add_field (Ok (JObj o)) f nc =
  Ok (match dict_get f o with Some v => dict_set f v nc | None => nc end).
Proof. unfold add_field. simpl. unfold dict_mem, dict_getitem. by destruct (dict_get f o). Qed.

Lemma add_fields_obj o F nc :
  NoDup F → (∀ f, f ∈ F → dict_get f nc = None) →
  add_fields (Ok (JObj o)) F nc = Ok (nc ++ pick_fields F o).
Proof.
  revert nc. induction F as [|f F IH]; intros nc Hnd Hnc.
  { unfold add_fields, pick_fields. simpl. by rewrite app_nil_r. }
  apply NoDup_cons in Hnd as [Hf Hnd].
  rewrite add_fields_cons, add_field_obj, pick_fields_cons. simpl.
  destruct (dict_get f o) as [v|]; [|apply IH; [done|]; intros g Hg; apply Hnc; by right].
  rewrite dict_set_new by (apply Hnc; by left). rewrite IH; [by rewrite <- app_assoc|done|].
  intros g Hg. rewrite dict_get_app, Hnc by (by right). simpl. rewrite decide_False; [done|].
  by intros ->.
Qed.

(** A content that is not a dict has no field. *)
Lemma add_fields_other content F nc nc' :
  (∀ o, content ≠ Ok (JObj o)) → add_fields content F nc = Ok nc' → nc' = nc.
Proof.
  intros Hno. revert nc. induction F as [|f F IH]; intros nc; [unfold add_fields; simpl; congruence|].
  rewrite add_fields_cons. intros (nc1 & Hstep & ->%IH)%bind_ok.
  apply bind_ok in Hstep as (c & -> & Hstep). apply bind_ok in Hstep as (p & Hin & Hstep).
  destruct p; [|congruence]. simpl in Hstep.
  apply bind_ok in Hstep as (v & Hv & Hstep).
  destruct c as [| | | | | |o]; simpl in Hv; try done. by destruct (Hno o).
Qed.

Lemma add_fields_ok content F nc nc' :
  NoDup F → (∀ f, f ∈ F → dict_get f nc = None) →
  add_fields content F nc = Ok nc' → nc' = nc ++ pick_fields F (obj_of content).
Proof.
  intros Hnd Hnc Hadd.
  destruct content as [[| | | | | |o]|e]; try (rewrite add_fields_obj in Hadd by done; simplify_eq; done);
  (apply add_fields_other in Hadd as ->; [|done]; simpl;
   by replace (pick_fields F []) with ([] : dict);
   [rewrite app_nil_r|clear; induction F; [done|by rewrite pick_fields_cons]]).
Qed.

(** The content fields kept of an event type, the create events of the updated rules
    apart, which are kept whole. *)
Definition keeps_all (rv : RoomVersion) (ty : json) : bool :=
  eq_str ty EventTypes.Create && updated_redaction_rules rv.

Definition kept_fields (rv : RoomVersion) (ty : json) : list string :=
  if eq_str ty EventTypes.Member then
    "membership" :: if restricted_join_rule_fix rv then [EventContentFields.AUTHORISING_USER] else []
  else if eq_str ty EventTypes.Create then
    if implicit_room_creator rv then [] else ["creator"]
  else if eq_str ty EventTypes.JoinRules then
    "join_rule" :: if restricted_join_rule rv then ["allow"] else []
  else if eq_str ty EventTypes.PowerLevels then
    power_level_fields ++ if updated_redaction_rules rv then ["invite"] else []
  else if eq_str ty EventTypes.Aliases && special_case_aliases_auth rv then ["aliases"]
  else if eq_str ty EventTypes.RoomHistoryVisibility then ["history_visibility"]
  else if eq_str ty EventTypes.Redaction && updated_redaction_rules rv then ["redacts"]
  else [].

(** The part of a third-party invite that is kept. *)
Definition kept_invite (rv : RoomVersion) (ty : json) (o : dict) : dict :=
  if eq_str ty EventTypes.Member && updated_redaction_rules rv then
    match dict_get "third_party_invite" o with
    | Some (JObj i) => [("third_party_invite", JObj (pick_fields ["signed"] i))]
    | _ => []
    end
  else [].

Definition pruned (rv : RoomVersion) (ty : json) (o : dict) : dict :=
  if keeps_all rv ty then o else pick_fields (kept_fields rv ty) o ++ kept_invite rv ty o.

Lemma eq_str_ne ty s t : eq_str ty s = true → s ≠ t → eq_str ty t = false.
Proof. intros ->%eq_str_true Hne. simpl. by apply bool_decide_eq_false. Qed.

Lemma kept_fields_NoDup rv ty : NoDup (kept_fields rv ty).
Proof.
  unfold kept_fields.
  repeat match goal with |- context [if ?b then _ else _] => destruct b end;
    apply (bool_decide_eq_true_1 _); by vm_compute.
Qed.

(** No type has a field of this name to keep. *)
Lemma kept_fields_not rv ty k :
  k ∈ ["third_party_invite"; "m.relates_to"] → k ∉ kept_fields rv ty.
Proof.
  intros Hk. unfold kept_fields. apply elem_of_cons in Hk as [->|Hk%list_elem_of_singleton]; subst;
  repeat match goal with |- context [if ?b then _ else _] => destruct b end;
    apply (bool_decide_eq_false_1 _); by vm_compute.
Qed.

Lemma pick_signed i :
  match dict_get "signed" i with Some signed => [("signed", signed)] | None => [] end =
  pick_fields ["signed"] i.
Proof. rewrite pick_fields_cons. by destruct (dict_get "signed" i). Qed.

(** Two calls of [add_fields] are one. *)
Lemma add_fields_twice content F G nc :
  (nc ← add_fields content F nc; add_fields content G nc) = add_fields content (F ++ G) nc.
Proof. unfold add_fields. by rewrite fold_res_app. Qed.

Lemma add_fields_if content F G (b : bool) nc :
  (nc ← add_fields content F nc; if b then add_fields content G nc else Ok nc) =
  add_fields content (F ++ if b then G else []) nc.
Proof.
  destruct b; [apply add_fields_twice|]. rewrite app_nil_r. by destruct (add_fields content F nc).
Qed.

Lemma prune_member_eq rv content :
  prune_member rv content =
  (nc ← add_fields content (kept_fields rv (JStr EventTypes.Member)) [];
   if updated_redaction_rules rv then
     c ← content; c ← as_dict c;
     Ok (match dict_get "third_party_invite" c with
         | Some (JObj i) => dict_set "third_party_invite" (JObj (pick_fields ["signed"] i)) nc
         | _ => nc
         end)
   else Ok nc).
Proof.
  change (kept_fields rv (JStr EventTypes.Member)) with (["membership"] ++
    if restricted_join_rule_fix rv then [EventContentFields.AUTHORISING_USER] else []).
  rewrite <- add_fields_if. unfold prune_member.
  destruct (add_fields content ["membership"] []) as [nc|]; simpl; [|done].
  destruct (if restricted_join_rule_fix rv then _ else _) as [nc1|]; simpl; [|done].
  destruct (updated_redaction_rules rv); [|done]. destruct content as [c|]; simpl; [|done].
  destruct (as_dict c) as [o|]; simpl; [|done].
  destruct (dict_get "third_party_invite" o) as [[]|]; try done. by rewrite pick_signed.
Qed.

Lemma fmap_add_fields_if content F G (b : bool) nc :
  (nc ← add_fields content F nc; JObj <$> (if b then add_fields content G nc else Ok nc)) =
  JObj <$> add_fields content (F ++ if b then G else []) nc.
Proof. rewrite <- add_fields_if. by destruct (add_fields content F nc). Qed.

Lemma prune_by_type_eq rv ty content :
  eq_str ty EventTypes.Member = false → keeps_all rv ty = false →
  prune_by_type rv ty content = JObj <$> add_fields content (kept_fields rv ty) [].
Proof.
  intros Hm Hk. unfold prune_by_type, kept_fields, keeps_all in *. rewrite Hm.
  destruct (eq_str ty EventTypes.Create).
  { simpl in Hk. rewrite Hk. by destruct (implicit_room_creator rv). }
  destruct (eq_str ty EventTypes.JoinRules); [apply fmap_add_fields_if|].
  destruct (eq_str ty EventTypes.PowerLevels); [apply fmap_add_fields_if|].
  by repeat match goal with |- context [if ?b then _ else _] => destruct b end.
Qed.

Lemma kept_invite_fresh rv ty o : dict_get "third_party_invite" (pick_fields (kept_fields rv ty) o) = None.
Proof.
  rewrite dict_get_pick, decide_False; [done|]. apply kept_fields_not. by left.
Qed.

(** The content by type, on a dict. *)
Lemma prune_by_type_obj rv ty o : prune_by_type rv ty (Ok (JObj o)) = Ok (JObj (pruned rv ty o)).
Proof.
  pose proof (kept_fields_NoDup rv ty) as Hnd. unfold pruned, kept_invite.
  destruct (eq_str ty EventTypes.Member) eqn:Hm.
  - apply eq_str_true in Hm as ->. unfold prune_by_type. simpl.
    rewrite prune_member_eq, add_fields_obj by done. simpl.
    destruct (updated_redaction_rules rv); simpl; [|by rewrite app_nil_r].
    destruct (dict_get "third_party_invite" o) as [[]|]; simpl; rewrite ?app_nil_r; try done.
    by rewrite dict_set_new by apply kept_invite_fresh.
  - destruct (keeps_all rv ty) eqn:Hk.
    + unfold keeps_all in Hk. apply andb_true_iff in Hk as [Hc Hu].
      unfold prune_by_type. by rewrite Hm, Hc, Hu.
    + rewrite prune_by_type_eq by done. rewrite add_fields_obj by done. simpl. by rewrite app_nil_r.
Qed.

Lemma pick_fields_nil F : pick_fields F [] = [].
Proof. induction F; [done|]. by rewrite pick_fields_cons. Qed.

Lemma obj_or_not content :
  (∃ o, content = Ok (JObj o)) ∨ ((∀ o, content ≠ Ok (JObj o)) ∧ obj_of content = []).
Proof. destruct content as [[]|]; simpl; eauto; by right. Qed.

Lemma as_dict_other content :
  (∀ o, content ≠ Ok (JObj o)) → ∀ o, (c ← content; as_dict c) ≠ Ok o.
Proof. intros Hno o. destruct content as [[| | | | | |o']|]; simpl; try done. by destruct (Hno o'). Qed.

(** On any content, when nothing is raised. *)
Lemma prune_by_type_ok rv ty content nc :
  prune_by_type rv ty content = Ok nc →
  (keeps_all rv ty = true ∧ content = Ok nc) ∨ nc = JObj (pruned rv ty (obj_of content)).
Proof.
  intros Hp. destruct (keeps_all rv ty) eqn:Hk.
  { left. split; [done|]. unfold keeps_all in Hk. apply andb_true_iff in Hk as [Hc Hu].
    unfold prune_by_type in Hp. rewrite (eq_str_ne ty EventTypes.Create) in Hp by done.
    by rewrite Hc, Hu in Hp. }
  right. destruct (obj_or_not content) as [[o ->]|[Hno Hobj]].
  { rewrite prune_by_type_obj in Hp. by simplify_eq. }
  rewrite Hobj. unfold pruned, kept_invite. rewrite Hk, pick_fields_nil. simpl.
  destruct (eq_str ty EventTypes.Member) eqn:Hm.
  - unfold prune_by_type in Hp. rewrite Hm, prune_member_eq in Hp.
    apply fmap_ok in Hp as (d & Hp & ->). apply bind_ok in Hp as (d1 & Hd1 & Hp).
    apply add_fields_other in Hd1 as ->; [|done].
    destruct (updated_redaction_rules rv); [|by simplify_eq].
    apply bind_ok in Hp as (c & Hc & Hp). apply bind_ok in Hp as (o & Ho & Hp).
    destruct (as_dict_other content Hno o). by rewrite Hc.
  - rewrite prune_by_type_eq in Hp by done. apply fmap_ok in Hp as (d & Hd & ->).
    by apply add_fields_other in Hd as ->.
Qed.

(** The relation kept under [msc3389_relation_redactions]. *)
Definition with_relation (rv : RoomVersion) (o nc : dict) : dict :=
  if msc3389_relation_redactions rv then
    match dict_get "m.relates_to" o with
    | Some (JObj r) =>
        match pick_fields ["rel_type"; "event_id"] r with
        | [] => nc
        | r' => dict_set "m.relates_to" (JObj r') nc
        end
    | _ => nc
    end
  else nc.

Definition pruned_content (rv : RoomVersion) (ty : json) (o : dict) : dict :=
  with_relation rv o (pruned rv ty o).

Lemma prune_content_obj rv ty o :
  prune_content rv ty (Ok (JObj o)) = Ok (JObj (pruned_content rv ty o)).
Proof.
  unfold prune_content, pruned_content, with_relation. rewrite prune_by_type_obj. simpl.
  destruct (msc3389_relation_redactions rv); [|done]. unfold keep_relation. simpl.
  destruct (dict_get "m.relates_to" o) as [[]|]; try done. by destruct (pick_fields _ _).
Qed.

Lemma prune_content_ok rv ty content nc :
  prune_content rv ty content = Ok nc →
  content = Ok nc ∨ nc = JObj (pruned_content rv ty (obj_of content)).
Proof.
  intros Hp. destruct (obj_or_not content) as [[o ->]|[Hno Hobj]].
  { right. rewrite prune_content_obj in Hp. by simplify_eq. }
  apply bind_ok in Hp as (nc1 & Hnc1 & Hp). destruct (msc3389_relation_redactions rv) eqn:Hr.
  { apply bind_ok in Hp as (c & Hc & Hp). apply bind_ok in Hp as (o & Ho & _).
    destruct (as_dict_other content Hno o). by rewrite Hc. }
  simplify_eq. destruct (prune_by_type_ok _ _ _ _ Hnc1) as [[_ ?]| ->]; [by left|right].
  unfold pruned_content, with_relation. by rewrite Hr.
Qed.

Lemma pick_fields_idem F o : pick_fields F (pick_fields F o) = pick_fields F o.
Proof. apply pick_fields_ext. intros k Hk. by rewrite dict_get_pick, decide_True. Qed.

Lemma dict_get_with_relation rv o nc k :
  k ≠ "m.relates_to" → dict_get k (with_relation rv o nc) = dict_get k nc.
Proof.
  intros Hk. unfold with_relation. destruct (msc3389_relation_redactions rv); [|done].
  destruct (dict_get "m.relates_to" o) as [[]|]; try done.
  destruct (pick_fields _ _); [done|]. by apply dict_get_set_ne.
Qed.

Lemma kept_invite_other rv ty o k : k ≠ "third_party_invite" → dict_get k (kept_invite rv ty o) = None.
Proof.
  intros Hk. unfold kept_invite. destruct (_ && _); [|done].
  destruct (dict_get "third_party_invite" o) as [[]|]; simpl; try done. by rewrite decide_False.
Qed.

Lemma dict_get_pruned rv ty o k :
  keeps_all rv ty = false → k ∈ kept_fields rv ty → dict_get k (pruned rv ty o) = dict_get k o.
Proof.
  intros Hk Hin. unfold pruned. rewrite Hk, dict_get_app, dict_get_pick, decide_True by done.
  destruct (dict_get k o); [done|]. apply kept_invite_other. intros ->.
  apply (kept_fields_not rv ty "third_party_invite"); [by left|done].
Qed.

Lemma kept_invite_idem rv ty o :
  keeps_all rv ty = false →
  kept_invite rv ty (with_relation rv o (pruned rv ty o)) = kept_invite rv ty o.
Proof.
  intros Hk. unfold kept_invite at 1. destruct (_ && _) eqn:Hb; [|unfold kept_invite; by rewrite Hb].
  rewrite dict_get_with_relation by done. unfold pruned.
  rewrite Hk, dict_get_app, kept_invite_fresh. unfold kept_invite. rewrite Hb.
  destruct (dict_get "third_party_invite" o) as [[]|]; simpl; try done.
  by rewrite pick_fields_idem.
Qed.

Lemma with_relation_idem rv o nc :
  (with_relation rv o nc = nc → with_relation rv nc nc = nc) →
  with_relation rv (with_relation rv o nc) nc = with_relation rv o nc.
Proof.
  intros Hsame. unfold with_relation in *. destruct (msc3389_relation_redactions rv); [|done].
  destruct (dict_get "m.relates_to" o) as [[| | | | | |r]|] eqn:Ho; try (by apply Hsame).
  destruct (pick_fields ["rel_type"; "event_id"] r) as [|x r'] eqn:Hr; [by apply Hsame|].
  by rewrite dict_get_set_eq, <- Hr, pick_fields_idem, Hr.
Qed.

Lemma pruned_content_idem rv ty o :
  pruned_content rv ty (pruned_content rv ty o) = pruned_content rv ty o.
Proof.
  unfold pruned_content. destruct (keeps_all rv ty) eqn:Hk.
  - unfold pruned. rewrite Hk. set (o' := with_relation rv o o).
    unfold with_relation. destruct (msc3389_relation_redactions rv) eqn:Hm; [|done].
    destruct (dict_get "m.relates_to" o') as [[| | | | | |r]|] eqn:Ho; try done.
    destruct (pick_fields ["rel_type"; "event_id"] r) as [|x r'] eqn:Hr; [done|].
    apply dict_set_id. rewrite Ho, <- Hr. do 2 f_equal. revert Ho. unfold o', with_relation.
    rewrite Hm. destruct (dict_get "m.relates_to" o) as [[| | | | | |r0]|] eqn:Ho; intros Ho';
      try congruence.
    destruct (pick_fields ["rel_type"; "event_id"] r0) as [|y r0'] eqn:Hr0; [congruence|].
    rewrite dict_get_set_eq in Ho'. injection Ho' as <-. by rewrite <- Hr0, pick_fields_idem.
  - replace (pruned rv ty (with_relation rv o (pruned rv ty o))) with (pruned rv ty o).
    + apply with_relation_idem. intros _. unfold with_relation.
      destruct (msc3389_relation_redactions rv); [|done].
      replace (dict_get "m.relates_to" (pruned rv ty o)) with (@None json); [done|].
      unfold pruned. rewrite Hk, dict_get_app, kept_invite_other by done.
      rewrite dict_get_pick, decide_False; [done|]. apply kept_fields_not. by right; left.
    + unfold pruned at 2. rewrite Hk, kept_invite_idem by done. unfold pruned at 1. rewrite Hk.
      f_equal. apply pick_fields_ext. intros k Hin.
      rewrite dict_get_with_relation; [by rewrite dict_get_pruned|].
      intros ->. eapply kept_fields_not; [|exact Hin]. by right; left.
Qed.

(** Nothing else survives. *)
Lemma pruned_content_get rv ty o k v :
  k ∉ ["third_party_invite"; "m.relates_to"] →
  dict_get k (pruned_content rv ty o) = Some v →
  dict_get k o = Some v ∧ (keeps_all rv ty = true ∨ k ∈ kept_fields rv ty).
Proof.
  intros Hk. unfold pruned_content. rewrite dict_get_with_relation by set_solver.
  unfold pruned. destruct (keeps_all rv ty); [by auto|].
  rewrite dict_get_app, kept_invite_other by set_solver. rewrite dict_get_pick.
  case_decide; [|done]. destruct (dict_get k o); naive_solver.
Qed.

Lemma prune_content_idem rv ty content nc :
  prune_content rv ty content = Ok nc → prune_content rv ty (Ok nc) = Ok nc.
Proof.
  intros Hp. destruct (prune_content_ok _ _ _ _ Hp) as [Hc| ->]; [by rewrite <- Hc at 1|].
  by rewrite prune_content_obj, pruned_content_idem.
Qed.

(** ** [prune_event_dict] *)

Definition unsigned_keys : list string := ["age_ts"; "replaces_state"].

(** The unsigned keys are copied as [add_fields] copies the content's. *)
Lemma prune_event_dict_eq rv d :
  prune_event_dict rv d =
  (ty ← dict_getitem "type" d;
   nc ← prune_content rv ty (dict_getitem "content" d);
   u ← add_fields (Ok (get_or "unsigned" (JObj []) d)) unsigned_keys [];
   Ok (dict_set "unsigned" (JObj u)
         (dict_set "content" nc (filter (λ kv, kv.1 ∈ allowed_keys rv) d)))).
Proof. done. Qed.

Lemma prune_event_dict_ok rv d d' :
  prune_event_dict rv d = Ok d' →
  ∃ ty nc, dict_get "type" d = Some ty ∧ prune_content rv ty (dict_getitem "content" d) = Ok nc ∧
    d' = dict_set "unsigned"
      (JObj (pick_fields unsigned_keys (obj_of (Ok (get_or "unsigned" (JObj []) d)))))
      (dict_set "content" nc (filter (λ kv, kv.1 ∈ allowed_keys rv) d)).
Proof.
  rewrite prune_event_dict_eq. intros (ty & Hty & Hp)%bind_ok. apply bind_ok in Hp as (nc & Hnc & Hp).
  apply bind_ok in Hp as (u & Hu & [= <-]). exists ty, nc.
  unfold dict_getitem in Hty. destruct (dict_get "type" d); simplify_eq.
  apply add_fields_ok in Hu as ->; [done| |done].
  repeat constructor; set_solver.
Qed.

Lemma unsigned_not_allowed rv : "unsigned" ∉ allowed_keys rv.
Proof.
  unfold allowed_keys. destruct (updated_redaction_rules rv); apply (bool_decide_eq_false_1 _); by vm_compute.
Qed.

(** A kept field other than the content is the same in the pruned dict. *)
Lemma prune_event_dict_get rv d d' k :
  prune_event_dict rv d = Ok d' → k ∈ allowed_keys rv → k ≠ "content" →
  dict_get k d' = dict_get k d.
Proof.
  intros (ty & nc & _ & _ & ->)%prune_event_dict_ok Hk Hne.
  rewrite dict_get_set_ne by (intros ->; by apply (unsigned_not_allowed rv)).
  rewrite dict_get_set_ne by done.
  by rewrite dict_get_allowed, decide_True.
Qed.

Lemma base_allowed rv k :
  k ∈ ["event_id"; "sender"; "room_id"; "hashes"; "signatures"; "content"; "type"; "state_key";
       "depth"; "prev_events"; "auth_events"; "origin_server_ts"] → k ∈ allowed_keys rv.
Proof. intros Hk. unfold allowed_keys. apply elem_of_app. by left. Qed.

(** Pruning a pruned dict changes nothing. *)
Lemma prune_event_dict_idem rv d d' :
  prune_event_dict rv d = Ok d' → prune_event_dict rv d' = Ok d'.
Proof.
  intros Hp. pose proof (prune_event_dict_get _ _ _ "type" Hp) as Hty.
  apply prune_event_dict_ok in Hp as (ty & nc & Hty0 & Hnc & Hd').
  assert (Ht : dict_getitem "type" d' = Ok ty).
  { unfold dict_getitem. rewrite Hty, Hty0; [done|apply base_allowed; by_elem|done]. }
  rewrite prune_event_dict_eq, Ht. simpl.
  assert (Hc : dict_getitem "content" d' = Ok nc).
  { unfold dict_getitem. by rewrite Hd', dict_get_set_ne, dict_get_set_eq. }
  rewrite Hc, (prune_content_idem _ _ _ _ Hnc). simpl.
  set (u := pick_fields unsigned_keys _) in Hd'.
  assert (Hu : get_or "unsigned" (JObj []) d' = JObj u).
  { unfold get_or. by rewrite Hd', dict_get_set_eq. }
  rewrite Hu, add_fields_obj; [|repeat constructor; set_solver|done]. simpl.
  replace (pick_fields unsigned_keys u) with u by (symmetry; apply pick_fields_idem).
  rewrite Hd', allowed_dict_set, decide_False by apply unsigned_not_allowed.
  rewrite allowed_dict_set, decide_True by (apply base_allowed; by_elem).
  rewrite list_filter_filter_l by done. do 2 f_equal. apply dict_set_id, dict_get_set_eq.
Qed.

(** ** [prune_event] *)

Definition sigs_ok (s : dict) : Prop := NoDup s.*1 ∧ Forall (λ kv, is_mapping kv.2 = true) s.

Lemma dict_set_keys {A} k (v : A) d :
  (dict_set k v d).*1 = if decide (k ∈ d.*1) then d.*1 else d.*1 ++ [k].
Proof.
  induction d as [|[k1 w] d IH]; [done|].
  change ((k1, w) :: d).*1 with (k1 :: d.*1). simpl dict_set.
  destruct (decide (k = k1)) as [->|Hne].
  - rewrite decide_True by (by left). done.
  - change ((k1, w) :: dict_set k v d).*1 with (k1 :: (dict_set k v d).*1). rewrite IH.
    destruct (decide (k ∈ d.*1)) as [Hin|Hin].
    + by rewrite decide_True by (by right).
    + rewrite decide_False; [done|]. intros [?|?]%elem_of_cons; done.
Qed.

Lemma dict_set_NoDup {A} k (v : A) d : NoDup d.*1 → NoDup (dict_set k v d).*1.
Proof.
  intros Hnd. rewrite dict_set_keys. case_decide; [done|].
  apply NoDup_app. split_and!; [done| |apply NoDup_singleton]. intros x Hx ->%list_elem_of_singleton. done.
Qed.

Lemma elem_of_dict_set {A} k (v : A) d kv : kv ∈ dict_set k v d → kv = (k, v) ∨ kv ∈ d.
Proof.
  induction d as [|[k1 w] d IH]; simpl.
  - intros ->%list_elem_of_singleton. by left.
  - case_decide; intros [->|Hin]%elem_of_cons; [by left|by right; right|by right; left|].
    destruct (IH Hin); [by left|by right; right].
Qed.

Lemma copy_signatures_ok j s : copy_signatures j = Ok s → sigs_ok s.
Proof.
  intros (sigs & _ & Hf)%bind_ok. revert Hf. apply (fold_res_ind sigs_ok).
  2:{ split; constructor. }
  intros d [n v] d' _ [Hnd Hall] (o & Ho & [= <-])%bind_ok. split; [by apply dict_set_NoDup|].
  rewrite Forall_forall in *. by intros kv [->|Hin]%elem_of_dict_set; [|apply Hall].
Qed.

Lemma dict_get_None_keys {A} k (d : list (string * A)) : k ∉ d.*1 → dict_get k d = None.
Proof.
  intros Hk. destruct (dict_get k d) eqn:E; [|done]. destruct Hk.
  apply dict_mem_keys. unfold dict_mem. by rewrite E.
Qed.

Lemma copy_signatures_id s : sigs_ok s → copy_signatures (JObj s) = Ok s.
Proof.
  intros [Hnd Hall]. unfold copy_signatures. simpl.
  cut (∀ acc, NoDup (acc ++ s).*1 →
    fold_res (λ d ns, s ← as_dict ns.2; Ok (dict_set ns.1 (JObj s) d)) s acc = Ok (acc ++ s)).
  { intros Hcut. by apply (Hcut []). }
  clear Hnd. induction Hall as [|[n v] s Hv Hall IH]; intros acc Hnd; simpl; [by rewrite app_nil_r|].
  destruct v as [| | | | | |o]; try done. simpl.
  rewrite dict_set_new.
  - rewrite IH; by rewrite <- app_assoc.
  - apply dict_get_None_keys. rewrite fmap_app in Hnd. apply NoDup_app in Hnd as (_ & Hdis & _).
    intros Hin. apply (Hdis n Hin). by left.
Qed.

(** The constructor is one of the two. *)
Lemma event_type_cases fmt f :
  _event_type_from_format_version fmt = Ok f → f = FrozenEvent_init ∨ f = FrozenEventV2_init.
Proof.
  unfold _event_type_from_format_version.
  repeat match goal with |- context [if ?b then _ else _] => destruct b end; naive_solver.
Qed.

(** What the constructor returns. *)
Lemma make_event_ok d rv meta rej fe :
  make_event_from_dict d rv meta rej = Ok fe →
  ∃ s u, copy_signatures (get_or "signatures" (JObj []) d) = Ok s ∧
    py_dict (get_or "unsigned" (JObj []) d) = Ok u ∧
    fe = MkFrozenEvent rv (dict_pop "unsigned" (dict_pop "signatures" d)) s u rej meta None false.
Proof.
  intros (f & [-> | ->]%event_type_cases & Hm)%bind_ok; apply bind_ok in Hm as (s & Hs & Hm).
  - apply bind_ok in Hm as (u & Hu & Hm). apply bind_ok in Hm as (? & _ & [= <-]). eauto.
  - apply bind_ok in Hm as (? & _ & Hm). apply bind_ok in Hm as (u & Hu & [= <-]). eauto.
Qed.

(** Two dicts with the same event id are accepted alike. *)
Lemma make_event_again d d' rv meta meta' rej fe s u :
  make_event_from_dict d rv meta rej = Ok fe →
  dict_get "signatures" d' = Some (JObj s) → sigs_ok s → dict_get "unsigned" d' = Some (JObj u) →
  dict_get "event_id" d' = dict_get "event_id" d →
  make_event_from_dict d' rv meta' rej =
    Ok (MkFrozenEvent rv (dict_pop "unsigned" (dict_pop "signatures" d')) s u rej meta' None false).
Proof.
  intros (f & Hf & Hm)%bind_ok Hs Hok Hu Hid. unfold make_event_from_dict. rewrite Hf. simpl.
  apply event_type_cases in Hf as [-> | ->].
  - apply bind_ok in Hm as (? & _ & Hm). apply bind_ok in Hm as (? & _ & Hm).
    apply bind_ok in Hm as (i & Hi & _). unfold FrozenEvent_init, get_or.
    rewrite Hs, Hu. simpl. rewrite copy_signatures_id by done. simpl.
    unfold dict_getitem in *. rewrite !dict_get_pop in Hi |- *. simpl in *. rewrite Hid.
    by destruct (dict_get "event_id" d).
  - apply bind_ok in Hm as (? & _ & Hm). apply bind_ok in Hm as (? & Ha & _).
    unfold FrozenEventV2_init, get_or. rewrite Hs, Hu. simpl. rewrite copy_signatures_id by done.
    simpl. unfold dict_mem in *. rewrite Hid. by rewrite Ha.
Qed.

Lemma dict_get_get_dict k e :
  dict_get k (get_dict e) =
  if decide (k = "unsigned") then Some (JObj (fe_unsigned e))
  else if decide (k = "signatures") then Some (JObj (fe_signatures e)) else dict_get k (_dict e).
Proof. unfold get_dict. by rewrite !dict_get_set. Qed.

Lemma filter_all {A} (P : A → Prop) `{∀ x, Decision (P x)} l : Forall P l → filter P l = l.
Proof. induction 1; [done|]. rewrite filter_cons, decide_True by done. by f_equal. Qed.

(** A dict that pruning leaves as it is. *)
Lemma prune_event_dict_fix rv a u ty nc :
  dict_get "type" a = Some ty → dict_get "content" a = Some nc →
  prune_content rv ty (Ok nc) = Ok nc → Forall (λ kv, kv.1 ∈ allowed_keys rv) a →
  pick_fields unsigned_keys u = u →
  prune_event_dict rv (a ++ [("unsigned", JObj u)]) = Ok (a ++ [("unsigned", JObj u)]).
Proof.
  intros Hty Hc Hp Hall Hu.
  assert (Hau : dict_get "unsigned" a = None).
  { apply dict_get_None_keys. intros (kv & Hk & Hin)%list_elem_of_fmap.
    rewrite Forall_forall in Hall. apply Hall in Hin. rewrite <- Hk in Hin.
    by apply (unsigned_not_allowed rv). }
  rewrite prune_event_dict_eq. unfold dict_getitem, get_or.
  rewrite !dict_get_app, Hty, Hc, Hau. simpl. rewrite Hp. simpl.
  rewrite add_fields_obj; [|repeat constructor; set_solver|done]. simpl. rewrite Hu. f_equal.
  rewrite filter_app, (filter_all _ a) by done.
  assert (filter (λ kv : string * json, kv.1 ∈ allowed_keys rv) [("unsigned", JObj u)] = []) as ->.
  { rewrite filter_cons, filter_nil, decide_False; [done|]. apply unsigned_not_allowed. }
  rewrite app_nil_r, (dict_set_id "content") by done. by apply dict_set_new.
Qed.

Lemma prune_event_ok fe fe' :
  prune_event fe = Ok fe' →
  ∃ d', prune_event_dict (fe_room_version fe) (get_dict fe) = Ok d' ∧
    is_ok (make_event_from_dict d' (fe_room_version fe) (internal_metadata fe) None) = true ∧
    copy_signatures (JObj (fe_signatures fe)) = Ok (fe_signatures fe') ∧
    fe' = MkFrozenEvent (fe_room_version fe) (dict_pop "unsigned" (dict_pop "signatures" d'))
            (fe_signatures fe') (pick_fields unsigned_keys (fe_unsigned fe)) None
            (dict_set "redacted" (JBool true) (internal_metadata fe))
            (stream_ordering fe) (outlier fe).
Proof.
  intros (d' & Hd' & Hp)%bind_ok. apply bind_ok in Hp as (pe & Hpe & [= <-]). exists d'.
  split; [done|]. rewrite Hpe. split; [done|].
  apply make_event_ok in Hpe as (s & u & Hs & Hu & ->). simpl.
  unfold get_or in Hs. erewrite prune_event_dict_get in Hs; [|exact Hd'|apply base_allowed; by_elem|done].
  rewrite dict_get_get_dict in Hs. simpl default in Hs. split; [exact Hs|].
  apply prune_event_dict_ok in Hd' as (ty & nc & _ & _ & ->).
  unfold get_or in Hu. rewrite dict_get_set_eq, dict_get_get_dict in Hu. simpl in Hu. by simplify_eq.
Qed.

(** The keys of a pruned event, its signatures and unsigned data apart. *)
Lemma pruned_dict_keys rv d d' k :
  prune_event_dict rv d = Ok d' → k ∈ d'.*1 → k = "unsigned" ∨ k ∈ allowed_keys rv.
Proof.
  intros (ty & nc & _ & _ & ->)%prune_event_dict_ok (kv & -> & Hin)%list_elem_of_fmap.
  apply elem_of_dict_set in Hin as [->|Hin]; [by left|right].
  apply elem_of_dict_set in Hin as [->|Hin]; [apply base_allowed; by_elem|].
  by apply list_elem_of_filter in Hin as [? _].
Qed.

Lemma get_dict_app rv d' s u rej meta so out :
  let e := MkFrozenEvent rv (dict_pop "unsigned" (dict_pop "signatures" d')) s u rej meta so out in
  get_dict e = (_dict e ++ [("signatures", JObj s)]) ++ [("unsigned", JObj u)].
Proof.
  unfold get_dict. simpl. rewrite (dict_set_new "signatures").
  - rewrite dict_set_new; [done|]. by rewrite dict_get_app, !dict_get_pop.
  - by rewrite !dict_get_pop.
Qed.

Lemma pop_keys {A} k (d : list (string * A)) kv : kv ∈ dict_pop k d → kv ∈ d ∧ kv.1 ≠ k.
Proof. unfold dict_pop. rewrite list_elem_of_filter. tauto. Qed.

(** The dict of a pruned event is pruned. *)
Lemma prune_get_dict fe fe' :
  prune_event fe = Ok fe' →
  prune_event_dict (fe_room_version fe') (get_dict fe') = Ok (get_dict fe').
Proof.
  intros (d' & Hd' & _ & Hs & Hfe')%prune_event_ok. rewrite Hfe'. rewrite get_dict_app. simpl.
  pose proof (prune_event_dict_idem _ _ _ Hd') as Hidem.
  apply prune_event_dict_ok in Hidem as (ty & nc & Hty & Hnc & Heq).
  assert (Hc : dict_get "content" d' = Some nc).
  { rewrite Heq, dict_get_set_ne, dict_get_set_eq; done. }
  unfold dict_getitem in Hnc. rewrite Hc in Hnc.
  apply (prune_event_dict_fix _ _ _ ty nc); [| |done| |apply pick_fields_idem].
  - rewrite dict_get_app, !dict_get_pop. simpl. by rewrite Hty.
  - rewrite dict_get_app, !dict_get_pop. simpl. by rewrite Hc.
  - rewrite Forall_app, Forall_singleton. simpl. split; [|apply base_allowed; by_elem].
    rewrite Forall_forall. intros kv [[Hin _]%pop_keys Hne]%pop_keys.
    assert (Hk : kv.1 ∈ d'.*1) by (apply list_elem_of_fmap; eauto).
    by apply (pruned_dict_keys _ _ _ _ Hd') in Hk as [?|?].
Qed.

Lemma dict_pop_none {A} k (d : list (string * A)) : dict_get k d = None → dict_pop k d = d.
Proof.
  intros Hk. apply filter_all. rewrite Forall_forall. intros [k' v] Hin Heq. simpl in Heq. subst k'.
  assert (Hm : dict_mem k d = true) by (apply dict_mem_keys, list_elem_of_fmap; by exists (k, v)).
  unfold dict_mem in Hm. by rewrite Hk in Hm.
Qed.

Lemma dict_pop_app {A} k (d1 d2 : list (string * A)) :
  dict_pop k (d1 ++ d2) = dict_pop k d1 ++ dict_pop k d2.
Proof. apply filter_app. Qed.

(** Taking the signatures and unsigned data out again. *)
Lemma pop_get_dict fe :
  dict_get "signatures" (_dict fe) = None → dict_get "unsigned" (_dict fe) = None →
  dict_pop "unsigned" (dict_pop "signatures" (get_dict fe)) = _dict fe.
Proof.
  intros Hs Hu. unfold get_dict. rewrite (dict_set_new "signatures") by done.
  rewrite dict_set_new by (by rewrite dict_get_app, Hu).
  rewrite !dict_pop_app, (dict_pop_none "signatures"), (dict_pop_none "unsigned") by done.
  by rewrite !app_nil_r.
Qed.

Lemma prune_event_idem fe fe' : prune_event fe = Ok fe' → prune_event fe' = Ok fe'.
Proof.
  intros Hp. pose proof (prune_get_dict _ _ Hp) as Hd.
  apply prune_event_ok in Hp as (d' & Hd' & [pe Hpe]%is_ok_true & Hs & Hfe').
  assert (Hns : dict_get "signatures" (_dict fe') = None) by (by rewrite Hfe'; simpl; rewrite !dict_get_pop).
  assert (Hnu : dict_get "unsigned" (_dict fe') = None) by (by rewrite Hfe'; simpl; rewrite !dict_get_pop).
  unfold prune_event. rewrite Hd. simpl.
  rewrite (make_event_again d' _ _ (internal_metadata fe) _ _ pe (fe_signatures fe') (fe_unsigned fe')).
  - simpl. rewrite pop_get_dict by done. rewrite Hfe'. simpl. do 2 f_equal.
    apply dict_set_id, dict_get_set_eq.
  - by rewrite Hfe'.
  - by rewrite dict_get_get_dict.
  - by eapply copy_signatures_ok.
  - by rewrite dict_get_get_dict.
  - rewrite dict_get_get_dict, Hfe'. simpl. by rewrite !dict_get_pop.
Qed.

(** A field that pruning keeps. *)
Lemma prune_event_get fe fe' k :
  prune_event fe = Ok fe' → k ∈ allowed_keys (fe_room_version fe) →
  k ∉ ["content"; "signatures"; "unsigned"] → dict_get k (_dict fe') = dict_get k (_dict fe).
Proof.
  intros (d' & Hd' & _ & _ & ->)%prune_event_ok Hk Hne. simpl.
  rewrite !dict_get_pop, !decide_False by set_solver.
  rewrite (prune_event_dict_get _ _ _ _ Hd') by set_solver.
  by rewrite dict_get_get_dict, !decide_False by set_solver.
Qed.

Section identity.
Context `{Hashing}.

Lemma prune_event_id fe fe' : prune_event fe = Ok fe' → fe_event_id fe' = fe_event_id fe.
Proof.
  intros Hp. pose proof (prune_event_idem _ _ Hp) as Hi.
  assert (Hv : fe_room_version fe' = fe_room_version fe)
    by (apply prune_event_ok in Hp as (? & _ & _ & _ & ->); done).
  unfold fe_event_id. rewrite Hv. destruct (_ =? EventFormatVersions.ROOM_V1_V2).
  - unfold dict_getitem. rewrite (prune_event_get _ _ _ Hp); [done|apply base_allowed; by_elem|].
    apply (bool_decide_eq_false_1 _). by vm_compute.
  - unfold compute_event_reference_hash. by rewrite Hi, Hp.
Qed.
End identity.

(** ** The content hash *)

Definition not_hashed : list string :=
  ["age_ts"; "unsigned"; "signatures"; "hashes"; "outlier"; "destinations"].

Definition hashed_part (d : dict) : dict := filter (λ kv, kv.1 ∉ not_hashed) d.

Lemma hashed_part_set k v d : k ∈ not_hashed → hashed_part (dict_set k v d) = hashed_part d.
Proof.
  intros Hk. pose proof (filter_dict_set (λ k, k ∉ not_hashed) k v d) as E.
  etrans; [exact E|]. rewrite decide_False by tauto. done.
Qed.

Lemma hashed_part_pop k d : k ∈ not_hashed → hashed_part (dict_pop k d) = hashed_part d.
Proof.
  intros Hk. unfold hashed_part, dict_pop. apply list_filter_filter_l. intros [k' v] Hin Heq. simpl in *. congruence.
Qed.

Section content_hash.
Context `{Hashing}.

Lemma compute_content_hash_eq d :
  compute_content_hash d = (b ← encode_canonical_json (hashed_part d); Ok (hash_name, sha256 b)).
Proof.
  unfold compute_content_hash. do 2 f_equal. unfold dict_pop.
  rewrite !list_filter_filter. apply list_filter_iff. intros [k v]. simpl. unfold not_hashed.
  rewrite !not_elem_of_cons. split; [|naive_solver]. intros; split_and!; try tauto. apply not_elem_of_nil.
Qed.

Lemma hashed_part_pdu d rv s u rej meta :
  hashed_part (get_pdu_json
    (MkFrozenEvent rv (dict_pop "unsigned" (dict_pop "signatures" d)) s u rej meta None false)) =
  hashed_part d.
Proof.
  unfold get_pdu_json, get_dict. simpl.
  by rewrite !hashed_part_set, !hashed_part_pop by by_elem.
Qed.

(** What [add_hashes_and_signatures] leaves. *)
Lemma add_hashes_ok rv d name key d' :
  add_hashes_and_signatures rv d name key = Ok d' →
  ∃ b hs sigs, encode_canonical_json (hashed_part d) = Ok b ∧
    dict_get hash_name hs = Some (JStr (encode_base64 (sha256 b))) ∧
    d' = dict_set "signatures" sigs (dict_set "hashes" (JObj hs) d).
Proof.
  unfold add_hashes_and_signatures. rewrite compute_content_hash_eq.
  intros ([n h] & (b & Hb & [= <- <-])%bind_ok & Hd)%bind_ok.
  apply bind_ok in Hd as (d1 & Hd1 & Hd). apply bind_ok in Hd as (sigs & _ & [= <-]).
  exists b. destruct (dict_get "hashes" d) as [[| | | | | |hs]|]; try done; injection Hd1 as <-.
  - eexists (dict_set hash_name _ hs), sigs. split_and!; [done| |done]. apply dict_get_set_eq.
  - eexists [(hash_name, _)], sigs. by split_and!.
Qed.
End content_hash.

(** ** Properties *)

(** Redaction of an event dict is stable and lets nothing else through.  Redacting
    again changes nothing and the signature to check stays the same; every key left is
    an allowed one, unchanged unless it is the content; and a content field left is
    one of the fields kept for the event's type, with its old value. *)
Theorem redaction_stable `{Hashing} rv d d' :
  prune_event_dict rv d = Ok d' →
  prune_event_dict rv d' = Ok d' ∧
  (∀ name key, compute_event_signature rv d' name key = compute_event_signature rv d name key) ∧
  (∀ k, k ∈ d'.*1 → k = "unsigned" ∨ k ∈ allowed_keys rv) ∧
  (∀ k, k ∈ allowed_keys rv → k ≠ "content" → dict_get k d' = dict_get k d) ∧
  (∀ ty o k v, dict_get "type" d = Some ty → dict_get "content" d = Some (JObj o) →
     k ∉ ["third_party_invite"; "m.relates_to"] →
     (∃ o', dict_get "content" d' = Some (JObj o') ∧ dict_get k o' = Some v) →
     dict_get k o = Some v ∧ (keeps_all rv ty = true ∨ k ∈ kept_fields rv ty)).
Proof.
  intros Hp. pose proof (prune_event_dict_idem _ _ _ Hp) as Hi. split_and!.
  - done.
  - intros name key. unfold compute_event_signature. by rewrite Hi, Hp.
  - intros k. by apply (pruned_dict_keys rv d d').
  - intros k. by apply prune_event_dict_get.
  - intros ty o k v Hty Hc Hk (o' & Hc' & Hv).
    apply prune_event_dict_ok in Hp as (ty' & nc & Hty' & Hnc & ->).
    rewrite Hty in Hty'. injection Hty' as <-. unfold dict_getitem in Hnc.
    rewrite Hc, prune_content_obj in Hnc. injection Hnc as <-.
    rewrite dict_get_set_ne, dict_get_set_eq in Hc' by done. injection Hc' as <-.
    by apply pruned_content_get.
Qed.

(** C32: a redacted event is still the same event.  It has the same event id, also where
    the id is a hash of the event, the same references to other events, sender, room,
    type, state key and depth; redacting it again gives back the same object. *)
Theorem redaction_keeps_identity `{Hashing} fe fe' :
  prune_event fe = Ok fe' →
  prune_event fe' = Ok fe' ∧ fe_event_id fe' = fe_event_id fe ∧
  fe_prev_event_ids fe' = fe_prev_event_ids fe ∧ fe_auth_event_ids fe' = fe_auth_event_ids fe ∧
  fe_room_version fe' = fe_room_version fe ∧ stream_ordering fe' = stream_ordering fe ∧
  dict_get "redacted" (internal_metadata fe') = Some (JBool true) ∧
  (∀ k, k ∈ ["sender"; "room_id"; "type"; "state_key"; "depth"; "hashes"; "origin_server_ts"] →
     get_property k fe' = get_property k fe).
Proof.
  intros Hp. pose proof (prune_event_ok _ _ Hp) as (d' & _ & _ & _ & Hfe').
  assert (Hget : ∀ k, k ∈ ["sender"; "room_id"; "type"; "state_key"; "depth"; "hashes";
      "origin_server_ts"; "prev_events"; "auth_events"] → dict_get k (_dict fe') = dict_get k (_dict fe)).
  { intros k Hk. apply prune_event_get; [done|apply base_allowed; set_solver|set_solver]. }
  assert (Hv : fe_room_version fe' = fe_room_version fe) by (by rewrite Hfe').
  assert (Hrefs : ∀ k, k ∈ ["prev_events"; "auth_events"] → event_refs k fe' = event_refs k fe).
  { intros k Hk. unfold event_refs, dict_getitem. rewrite Hv, Hget by set_solver. done. }
  split_and!; [by eapply prune_event_idem|by apply prune_event_id|apply Hrefs; by_elem..|done| | |].
  - by rewrite Hfe'.
  - rewrite Hfe'. simpl. apply dict_get_set_eq.
  - intros k Hk. unfold get_property. rewrite Hget by set_solver. done.
Qed.

(** An event that this server hashes and signs passes the content-hash check of
    the servers that receive it, whatever the room version and the event's unsigned
    data, when base64 decodes what it encodes. *)
Theorem content_hash_roundtrip `{Hashing} rv d name key d' meta rej fe :
  (∀ s, decode_b64 (JStr (encode_base64 s)) = Ok s) →
  add_hashes_and_signatures rv d name key = Ok d' →
  make_event_from_dict d' rv meta rej = Ok fe →
  check_event_content_hash fe = Ok true.
Proof.
  intros Hb64 (b & hs & sigs & Hb & Hhs & ->)%add_hashes_ok (s & u & _ & _ & ->)%make_event_ok.
  unfold check_event_content_hash. rewrite compute_content_hash_eq, hashed_part_pdu.
  rewrite !hashed_part_set by by_elem. rewrite Hb. simpl.
  unfold fe_get, get_or. simpl. rewrite !dict_get_pop, dict_get_set_ne, dict_get_set_eq by done. simpl.
  rewrite Hhs. unfold try_except. rewrite Hb64. simpl. by rewrite bool_decide_true.
Qed.
