(* ===== verification/RedactionAuth.v ===== *)
(** * Redaction and authorisation

    In rooms with the updated redaction rules, redacting events of the room state
    changes no authorisation decision.  Two reads are not protected: the
    notification levels of the old power-levels event when a new one is checked, and
    the keys of a third-party invite. *)

From S2P Require Import Prelude PyVal Constants RoomVersions Ids Events EventAuth EventAuthLemmas EventObjects Redaction RedactionProps.

#[local] Arguments pick_fields : simpl never.

(** ** The typed view of an event object *)

Definition str_of (j : json) : option string := match j with JStr s => Some s | _ => None end.
Definition ok_of {A} (r : result A) : option A := match r with Ok a => Some a | Err _ => None end.
Definition str_list_of (j : json) : option (list string) :=
  match j with JList l => mapM str_of l | _ => None end.
Definition str_dict_of (j : json) : option (list (string * string)) :=
  match j with JObj o => mapM (λ kv : string * json, pair kv.1 <$> str_of kv.2) o | _ => None end.

Section view.
Context `{Hashing}.

(** An event object whose fields have the types [EventBase] declares. *)
Definition view (fe : FrozenEvent) : option Event :=
  eid ← ok_of (fe_event_id fe) ≫= str_of;
  ty ← dict_get "type" (_dict fe) ≫= str_of;
  snd ← dict_get "sender" (_dict fe) ≫= str_of;
  room ← dict_get "room_id" (_dict fe) ≫= str_of;
  skey ← match dict_get "state_key" (_dict fe) with
         | None => Some None
         | Some j => Some <$> str_of j
         end;
  c ← match dict_get "content" (_dict fe) with Some (JObj o) => Some o | _ => None end;
  prev ← ok_of (fe_prev_event_ids fe) ≫= str_list_of;
  auth ← ok_of (fe_auth_event_ids fe) ≫= str_list_of;
  ts ← match dict_get "origin_server_ts" (_dict fe) with Some (JInt z) => Some z | _ => None end;
  dp ← match dict_get "depth" (_dict fe) with Some (JInt z) => Some z | _ => None end;
  sigs ← mapM (λ ns : string * json, pair ns.1 <$> str_dict_of ns.2) (fe_signatures fe);
  Some {| event_id := eid; type := ty; sender := snd; room_id := room; ev_state_key := skey;
          content := c; ev_prev_events := prev; ev_auth_events := auth; origin_server_ts := ts;
          depth := dp;
          signatures := sigs; ev_redacts := dict_get "redacts" (_dict fe);
          room_version := fe_room_version fe; rejected_reason := fe_rejected_reason fe;
          recheck_redaction :=
            match dict_get "recheck_redaction" (internal_metadata fe) with
            | Some (JBool b) => b | _ => false end |}.

(** [e'] is [e] after [prune_event]. *)
Definition redaction_of (e e' : Event) : Prop :=
  ∃ fe fe', view fe = Some e ∧ prune_event fe = Ok fe' ∧ view fe' = Some e'.

Lemma view_ok fe e :
  view fe = Some e →
  ok_of (fe_event_id fe) ≫= str_of = Some (event_id e) ∧
  dict_get "type" (_dict fe) = Some (JStr (type e)) ∧
  dict_get "sender" (_dict fe) = Some (JStr (sender e)) ∧
  dict_get "content" (_dict fe) = Some (JObj (content e)) ∧
  room_version e = fe_room_version fe.
Proof.
  unfold view. intros (eid & Heid & Hv)%bind_Some.
  apply bind_Some in Hv as (ty & (jt & Hty & Hjt)%bind_Some & Hv).
  apply bind_Some in Hv as (snd & (js & Hsnd & Hjs)%bind_Some & Hv).
  apply bind_Some in Hv as (room & _ & Hv). apply bind_Some in Hv as (skey & _ & Hv).
  apply bind_Some in Hv as (c & Hc & Hv). apply bind_Some in Hv as (prev & _ & Hv).
  apply bind_Some in Hv as (auth & _ & Hv). apply bind_Some in Hv as (ts & _ & Hv).
  apply bind_Some in Hv as (dp & _ & Hv). apply bind_Some in Hv as (sigs & _ & [= <-]). simpl.
  destruct jt, js; simplify_eq/=.
  destruct (dict_get "content" (_dict fe)) as [[]|]; by simplify_eq.
Qed.

(** What a redacted event keeps. *)
Lemma redaction_of_fields e e' :
  redaction_of e e' →
  event_id e' = event_id e ∧ type e' = type e ∧ sender e' = sender e ∧
  room_version e' = room_version e ∧
  content e' = pruned_content (room_version e) (JStr (type e)) (content e).
Proof.
  intros (fe & fe' & Hv & Hp & Hv'). pose proof (prune_event_id _ _ Hp) as Hid.
  apply view_ok in Hv as (V1 & V2 & V3 & V4 & V5), Hv' as (W1 & W2 & W3 & W4 & W5).
  rewrite Hid in W1.
  assert (Ht : dict_get "type" (_dict fe') = dict_get "type" (_dict fe))
    by (apply prune_event_get; [done|apply base_allowed; by_elem|set_solver]).
  assert (Hs : dict_get "sender" (_dict fe') = dict_get "sender" (_dict fe))
    by (apply prune_event_get; [done|apply base_allowed; by_elem|set_solver]).
  rewrite V2, W2 in Ht. rewrite V3, W3 in Hs. injection Ht as Ht. injection Hs as Hs.
  apply prune_event_ok in Hp as (d' & Hd' & _ & _ & Hfe'). rewrite Hfe' in W4, W5.
  simpl in W4, W5. split_and!; try congruence.
  apply prune_event_dict_ok in Hd' as (ty & nc & Hty & Hnc & ->).
  rewrite !dict_get_pop, dict_get_set_ne, dict_get_set_eq in W4 by done. simpl in W4.
  rewrite dict_get_get_dict in Hty. unfold dict_getitem in Hnc. rewrite dict_get_get_dict in Hnc.
  simpl in *. rewrite V2 in Hty. rewrite V4 in Hnc. simplify_eq.
  rewrite prune_content_obj in Hnc. rewrite V5. by simplify_eq.
Qed.

(** A content field the redacted event keeps. *)
Lemma redaction_of_get e e' f :
  redaction_of e e' → f ≠ "m.relates_to" →
  keeps_all (room_version e) (JStr (type e)) = true ∨ f ∈ kept_fields (room_version e) (JStr (type e)) →
  dict_get f (content e') = dict_get f (content e).
Proof.
  intros (_ & _ & _ & _ & ->)%redaction_of_fields Hf Hk. unfold pruned_content.
  rewrite dict_get_with_relation by done. destruct (keeps_all _ _) eqn:Ha.
  - unfold pruned. by rewrite Ha.
  - destruct Hk as [?|Hk]; [done|]. by apply dict_get_pruned.
Qed.
End view.

(** ** Decisions on a state and on the state after redactions *)

Section neutral.
Context `{Hashing} `{Crypto} (S T : StateMap Event).

(** [T] is [S] with some of its events redacted. *)
Definition redacted_state : Prop :=
  ∀ k, option_Forall2 (λ e e', e' = e ∨ redaction_of e e') (S !! k) (T !! k).

(** Each event is under its type, in a room with the updated rules. *)
Definition updated_state : Prop :=
  ∀ t k e, S !! (t, k) = Some e → type e = t ∧ updated_redaction_rules (room_version e) = true.

Hypothesis Hred : redacted_state.
Hypothesis Hupd : updated_state.

(** The events of one type agree on what is kept of it. *)
Lemma state_lookup t k :
  match S !! (t, k), T !! (t, k) with
  | Some e, Some e' =>
      event_id e' = event_id e ∧ sender e' = sender e ∧ room_version e' = room_version e ∧
      ∀ f, f ≠ "m.relates_to" →
        (∀ rv, updated_redaction_rules rv = true →
           keeps_all rv (JStr t) = true ∨ f ∈ kept_fields rv (JStr t)) →
        dict_get f (content e') = dict_get f (content e)
  | None, None => True
  | _, _ => False
  end.
Proof.
  specialize (Hred (t, k)). destruct (S !! (t, k)) as [e|] eqn:Hs; inversion Hred as [? e' Hee|]; [|done].
  destruct (Hupd _ _ _ Hs) as [<- Hu]. destruct Hee as [->|Hr]; [done|].
  destruct (redaction_of_fields _ _ Hr) as (E1 & _ & E3 & E4 & _). split_and!; [done..|].
  intros f Hf Hk. eapply redaction_of_get; [done|done|]. by apply Hk.
Qed.

(** [(t, k)] looked up in both states, the same fields read from both. *)
Ltac lookup_both t k :=
  let Hl := fresh "Hl" in
  pose proof (state_lookup t k) as Hl;
  destruct (S !! (t, k)) as [?e|] eqn:?, (T !! (t, k)) as [?e|] eqn:?; try done;
  [destruct Hl as (?Hid & ?Hsnd & ?Hrv & ?Hget)|..].

Lemma power_level_field f rv :
  f ∈ power_level_fields ++ ["invite"] → updated_redaction_rules rv = true →
  keeps_all rv (JStr EventTypes.PowerLevels) = true ∨ f ∈ kept_fields rv (JStr EventTypes.PowerLevels).
Proof. intros Hf Hu. right. unfold kept_fields. simpl. by rewrite Hu. Qed.

Lemma create_field f rv :
  updated_redaction_rules rv = true →
  keeps_all rv (JStr EventTypes.Create) = true ∨ f ∈ kept_fields rv (JStr EventTypes.Create).
Proof. intros Hu. left. unfold keeps_all. by rewrite Hu. Qed.

Lemma power_level_or e e' f d :
  (∀ f, f ≠ "m.relates_to" →
     (∀ rv, updated_redaction_rules rv = true →
        keeps_all rv (JStr EventTypes.PowerLevels) = true ∨
        f ∈ kept_fields rv (JStr EventTypes.PowerLevels)) →
     dict_get f (content e') = dict_get f (content e)) →
  f ∈ power_level_fields ++ ["invite"] → get_or f d (content e') = get_or f d (content e).
Proof.
  intros Hget Hf. unfold get_or. rewrite Hget; [done| |intros; by apply power_level_field].
  intros ->. revert Hf. apply (bool_decide_eq_false_1 _). by vm_compute.
Qed.

Lemma get_user_power_level_red u : get_user_power_level u T = get_user_power_level u S.
Proof.
  unfold get_user_power_level, get_power_level_event. lookup_both EventTypes.PowerLevels "".
  - rewrite !(power_level_or e e0) by (done || by_elem). done.
  - clear Hl. lookup_both EventTypes.Create "". rewrite Hrv. unfold creator_of, dict_getitem.
    by rewrite Hsnd, Hget by (done || (intros; by apply create_field)).
Qed.

Lemma get_named_level_red n d :
  n ∈ power_level_fields ++ ["invite"] → get_named_level T n d = get_named_level S n d.
Proof.
  intros Hn. unfold get_named_level, get_power_level_event. lookup_both EventTypes.PowerLevels "".
  by rewrite (power_level_or e e0).
Qed.

Lemma can_federate_red ev : _can_federate ev T = _can_federate ev S.
Proof.
  unfold _can_federate. lookup_both EventTypes.Create "". unfold get_or.
  by rewrite Hget by (done || (intros; by apply create_field)).
Qed.

Lemma can_send_event_red ev : _can_send_event ev T = _can_send_event ev S.
Proof.
  unfold _can_send_event. rewrite get_user_power_level_red. f_equal.
  unfold get_send_level, get_power_level_event. lookup_both EventTypes.PowerLevels "".
  by rewrite !(power_level_or e e0) by (done || by_elem).
Qed.

Lemma check_redaction_red rv ev : check_redaction rv ev T = check_redaction rv ev S.
Proof.
  unfold check_redaction. by rewrite get_user_power_level_red, get_named_level_red by by_elem.
Qed.

Lemma member_field rv :
  updated_redaction_rules rv = true →
  keeps_all rv (JStr EventTypes.Member) = true ∨
  "membership" ∈ kept_fields rv (JStr EventTypes.Member).
Proof. intros _. right. unfold kept_fields. simpl. by left. Qed.

Lemma check_joined_room_red k u room :
  _check_joined_room (T !! (EventTypes.Member, k)) u room =
  _check_joined_room (S !! (EventTypes.Member, k)) u room.
Proof.
  lookup_both EventTypes.Member k. unfold _check_joined_room, membership, dict_getitem.
  by rewrite Hget by (done || apply member_field).
Qed.

Lemma member_is_red k m :
  member_is (T !! (EventTypes.Member, k)) m = member_is (S !! (EventTypes.Member, k)) m.
Proof.
  lookup_both EventTypes.Member k. unfold member_is, membership, dict_getitem.
  by rewrite Hget by (done || apply member_field).
Qed.

Lemma get_join_rule_red : get_join_rule T = get_join_rule S.
Proof.
  unfold get_join_rule. lookup_both EventTypes.JoinRules "". unfold get_or. rewrite Hget; [done..|].
  intros rv _. right. unfold kept_fields. simpl. by left.
Qed.

Lemma is_creator_first_join_red rv ev m :
  is_creator_first_join rv ev m T = is_creator_first_join rv ev m S.
Proof.
  unfold is_creator_first_join. lookup_both EventTypes.Create "".
  unfold creator_of, dict_getitem.
  by rewrite Hid, Hsnd, Hget by (done || (intros; by apply create_field)).
Qed.

Lemma get_membership_info_red rv ev m tgt :
  get_membership_info rv ev m tgt T = get_membership_info rv ev m tgt S.
Proof.
  unfold get_membership_info.
  by rewrite !member_is_red, !get_user_power_level_red, !get_named_level_red, get_join_rule_red by by_elem.
Qed.

Lemma check_authorising_user_red ev mi : check_authorising_user ev mi T = check_authorising_user ev mi S.
Proof.
  unfold check_authorising_user. destruct (get_or _ JNull _) as [| | | |u| |]; try done. simpl.
  by rewrite check_joined_room_red, get_user_power_level_red.
Qed.

Lemma check_transition_red rv ev mi : check_transition rv ev mi T = check_transition rv ev mi S.
Proof.
  unfold check_transition, check_join, check_leave.
  by rewrite check_authorising_user_red, get_named_level_red by by_elem.
Qed.

Lemma membership_change_red rv ev :
  (∀ m, dict_get "membership" (content ev) = Some m →
     eq_str m Membership.INVITE && dict_mem "third_party_invite" (content ev) = false) →
  _is_membership_change_allowed rv ev T = _is_membership_change_allowed rv ev S.
Proof.
  intros Htpi. unfold _is_membership_change_allowed, dict_getitem.
  destruct (dict_get "membership" (content ev)) as [m|]; [|done]. simpl.
  rewrite is_creator_first_join_red, can_federate_red.
  destruct (is_creator_first_join rv ev m S) as [[]|]; simpl; try done.
  destruct (state_key ev) as [tgt|]; simpl; [|done].
  rewrite get_membership_info_red.
  do 3 (match goal with |- (?r ≫= _) = (?r ≫= _) => destruct r; simpl; [|done] end).
  destruct (get_membership_info rv ev m tgt S) as [mi|] eqn:Hmi; simpl; [|done].
  destruct (get_membership_info_ok _ _ _ _ _ _ Hmi) as (Hm & _).
  unfold decide_membership. rewrite Hm, Htpi by done. by rewrite !check_transition_red.
Qed.

Lemma iter_res_ext {A} (f g : A → result unit) l :
  (∀ x, x ∈ l → f x = g x) → iter_res f l = iter_res g l.
Proof.
  induction l as [|x l IH]; intros Heq; simpl; [done|].
  rewrite Heq by (by left). rewrite IH; [done|]. intros y Hy. apply Heq. by right.
Qed.

(** The levels compared are those of the fixed keys and of the three maps. *)
Lemma levels_of_dir dir j1 j2 l x : levels_of dir j1 j2 = Ok l → x ∈ l → x.2 = Some dir.
Proof.
  unfold levels_of. intros (? & _ & Hl)%bind_ok. apply bind_ok in Hl as (? & _ & Hl).
  apply bind_ok in Hl as (ks & _ & [= <-]). intros (y & -> & _)%list_elem_of_fmap. done.
Qed.

Lemma levels_to_check_dirs rv e ev l x :
  get_levels_to_check rv e ev = Ok l → x ∈ l →
  (∃ k, x = (JStr k, None) ∧ k ∈ int_level_keys) ∨
  ∃ dir, x.2 = Some dir ∧ dir ∈ ["users"; "events"; "notifications"].
Proof.
  unfold get_levels_to_check. intros (us & Hus & Hl)%bind_ok. apply bind_ok in Hl as (es & Hes & Hl).
  apply bind_ok in Hl as (ns & Hns & Hl).
  assert (l = map (λ k, (JStr k, None)) int_level_keys ++ us ++ es ++ ns) as -> by (by injection Hl).
  intros [Hx|[Hx|[Hx|Hx]%elem_of_app]%elem_of_app]%elem_of_app.
  - left. apply list_elem_of_fmap in Hx as (k & -> & Hk). eauto.
  - right. eexists. split; [exact (levels_of_dir _ _ _ _ _ Hus Hx)|set_solver].
  - right. eexists. split; [exact (levels_of_dir _ _ _ _ _ Hes Hx)|set_solver].
  - right. destruct (limit_notifications_power_levels rv); [|by inversion Hns; subst; inversion Hx].
    eexists. split; [exact (levels_of_dir _ _ _ _ _ Hns Hx)|set_solver].
Qed.

(** Without notification levels, the three maps and the fixed keys are kept. *)
Lemma no_notifications k e :
  S !! (EventTypes.PowerLevels, k) = Some e → dict_get "notifications" (content e) = None →
  ∀ e', T !! (EventTypes.PowerLevels, k) = Some e' → dict_get "notifications" (content e') = None.
Proof.
  intros Hs Hn e' Ht. specialize (Hred (EventTypes.PowerLevels, k)). rewrite Hs, Ht in Hred.
  assert (Hee : e' = e ∨ redaction_of e e') by (by inversion Hred). destruct Hee as [->|Hr]; [done|].
  destruct (redaction_of_fields _ _ Hr) as (_ & _ & _ & _ & ->).
  destruct (dict_get "notifications" (pruned_content _ _ _)) eqn:Hg; [|done].
  apply pruned_content_get in Hg as [Hg _]; [congruence|set_solver].
Qed.

Lemma check_level_red lvl ev e e' x :
  (∀ f, f ∈ ["users"; "events"; "notifications"] → dict_get f (content e') = dict_get f (content e)) →
  (∀ f, f ∈ int_level_keys → dict_get f (content e') = dict_get f (content e)) →
  (∃ k, x = (JStr k, None) ∧ k ∈ int_level_keys) ∨
    (∃ dir, x.2 = Some dir ∧ dir ∈ ["users"; "events"; "notifications"]) →
  check_level lvl ev (content e') (content ev) x = check_level lvl ev (content e) (content ev) x.
Proof.
  intros Hmaps Hkeys [(k & -> & Hk)|(dir & Hdir & Hin)]; unfold check_level.
  - assert (read_level (JStr k) (JObj (content e')) = read_level (JStr k) (JObj (content e))) as ->; [|done].
    unfold read_level. simpl. unfold dict_mem, dict_getitem. by rewrite Hkeys.
  - destruct x as [lv d]. simpl in Hdir. subst d. unfold get_or. by rewrite (Hmaps dir).
Qed.

Lemma check_power_levels_red rv ev :
  type ev = EventTypes.PowerLevels →
  (∀ k e, S !! (EventTypes.PowerLevels, k) = Some e → dict_get "notifications" (content e) = None) →
  _check_power_levels rv ev T = _check_power_levels rv ev S.
Proof.
  intros Hty Hno. unfold _check_power_levels.
  do 3 (match goal with |- (?r ≫= _) = (?r ≫= _) => destruct r; simpl; [|done] end).
  destruct (event_key ev) as [[t k]|] eqn:Hk; simpl; [|done].
  apply event_key_ok in Hk as [Ht _]. simpl in Ht. rewrite Ht, Hty, get_user_power_level_red.
  pose proof (no_notifications k) as Hnn. lookup_both EventTypes.PowerLevels k.
  specialize (Hnn _ eq_refl (Hno _ _ Heqo) _ eq_refl). specialize (Hno _ _ Heqo).
  assert (Hf : ∀ f, f ∈ power_level_fields ++ ["invite"; "notifications"] →
    dict_get f (content e0) = dict_get f (content e)).
  { intros f Hf. destruct (decide (f = "notifications")) as [->|Hne]; [congruence|].
    apply Hget; [|intros; apply power_level_field; set_solver].
    intros ->. revert Hf. apply (bool_decide_eq_false_1 _). by vm_compute. }
  destruct (get_user_power_level _ S) as [lvl|]; simpl; [|done].
  assert (get_levels_to_check rv e0 ev = get_levels_to_check rv e ev) as ->.
  { unfold get_levels_to_check, get_or. by rewrite !Hf by by_elem. }
  destruct (get_levels_to_check rv e ev) as [l|] eqn:Hl'; simpl; [|done].
  apply iter_res_ext. intros x Hx. apply check_level_red.
  - intros f Hin. apply Hf. set_solver.
  - intros f Hin. apply Hf. unfold int_level_keys in Hin. unfold power_level_fields. set_solver.
  - by eapply levels_to_check_dirs.
Qed.
End neutral.

(** Building such states one event at a time. *)
Lemma redacted_state_empty `{Hashing} : redacted_state ∅ ∅.
Proof. intros k. rewrite lookup_empty. constructor. Qed.

Lemma redacted_state_insert `{Hashing} (S T : StateMap Event) k e e' :
  e' = e ∨ redaction_of e e' → redacted_state S T → redacted_state (<[k := e]> S) (<[k := e']> T).
Proof.
  intros He Hst k'. destruct (decide (k = k')) as [->|Hne].
  - rewrite !lookup_insert_eq. by constructor.
  - rewrite !lookup_insert_ne by done. apply Hst.
Qed.

Lemma updated_state_insert (S : StateMap Event) t k e :
  type e = t → updated_redaction_rules (room_version e) = true →
  updated_state S → updated_state (<[(t, k) := e]> S).
Proof.
  intros Ht Hu Hs t' k' e'. destruct (decide ((t, k) = (t', k'))) as [[= <- <-]|Hne].
  - rewrite lookup_insert_eq. intros [= <-]. done.
  - rewrite lookup_insert_ne by done. apply Hs.
Qed.

(** ** Properties *)

(** C27: redactions in the room state do not change what is authorised.  In a room with
    the updated redaction rules, take any state and redact any of its events: every
    event is accepted, rejected or fails exactly as before, except possibly a
    power-levels event when the current one sets notification levels, and a
    third-party invite, whose keys redaction removes. *)
Theorem redaction_neutral `{Hashing} `{Crypto} (S T : StateMap Event) ev :
  redacted_state S T → updated_state S →
  (type ev = EventTypes.PowerLevels → ∀ k e,
     S !! (EventTypes.PowerLevels, k) = Some e → dict_get "notifications" (content e) = None) →
  (type ev = EventTypes.Member → ∀ m, dict_get "membership" (content ev) = Some m →
     eq_str m Membership.INVITE && dict_mem "third_party_invite" (content ev) = false) →
  check_against_state ev T = check_against_state ev S.
Proof.
  intros Hred Hupd Hpl Htpi. unfold check_against_state.
  rewrite (can_federate_red S T Hred Hupd ev).
  do 3 (match goal with |- (?r ≫= _) = (?r ≫= _) => destruct r; simpl; [|done] end).
  destruct (_ && special_case_aliases_auth _); [done|].
  destruct (decide (type ev = EventTypes.Member)) as [Hm|Hm].
  { rewrite (membership_change_red S T Hred Hupd); [done|]. by apply Htpi. }
  unfold _check_event_sender_in_room. rewrite (check_joined_room_red S T Hred Hupd).
  rewrite (get_user_power_level_red S T Hred Hupd), (can_send_event_red S T Hred Hupd).
  rewrite (get_named_level_red S T Hred Hupd) by by_elem.
  rewrite (check_redaction_red S T Hred Hupd).
  destruct (decide (type ev = EventTypes.PowerLevels)) as [Hp|Hp]; [|done].
  rewrite (check_power_levels_red S T Hred Hupd); [done..|]. by apply Hpl.
Qed.
