(* ===== verification/RedactionExamples.v ===== *)
(** * Witnesses for the properties of redaction

    A room of version 11 in which the power levels and a member event are redacted,
    with a hash and a signature library that are the identity or constants. *)

From S2P Require Import Prelude PyVal Constants RoomVersions Ids Events EventAuth EventObjects Redaction RedactionProps RedactionAuth.

Definition example_hashing : Hashing := {|
  signing_key := unit;
  encode_canonical_json := λ d, Ok (str_join "," d.*1);
  sha256 := λ s, s;
  encode_base64 := λ s, s;
  encode_base64_urlsafe := λ s, s;
  decode_b64 := λ j, match j with JStr s => Ok s | _ => Err (PyBuiltin ValueError) end;
  sign_json := λ d name _, Ok (dict_set "signatures" (JObj [(name, JObj [("ed25519:1", JStr "sig")])]) d)
|}.
#[local] Existing Instance example_hashing.

Definition accepting_crypto : Crypto := {|
  verify_key := unit;
  pdu_json_size := λ _, 1000;
  decode_base64 := λ _, Ok "";
  decode_verify_key_bytes := λ _ _, Ok tt;
  verify_signed_json := λ _ _ _, Ok tt
|}.
#[local] Existing Instance accepting_crypto.

Definition ex_dict (typ from skey : string) (c : dict) : dict :=
  [("type", JStr typ); ("room_id", JStr "!r:x"); ("sender", JStr from); ("state_key", JStr skey);
   ("content", JObj c); ("prev_events", JList [JStr "$prev"]); ("auth_events", JList []);
   ("origin_server_ts", JInt 1); ("depth", JInt 3); ("unknown", JInt 7);
   ("unsigned", JObj [("age_ts", JInt 5); ("redacted_because", JInt 0)])].

Definition no_event : FrozenEvent := MkFrozenEvent RoomVersions.V11 [] [] [] None [] None false.
Definition no_view : Event := {|
  event_id := ""; type := ""; sender := ""; room_id := ""; ev_state_key := None; content := [];
  ev_prev_events := []; ev_auth_events := []; origin_server_ts := 0; depth := 0; signatures := [];
  ev_redacts := None; room_version := RoomVersions.V11; rejected_reason := None;
  recheck_redaction := false |}.

Definition ex_fe (typ from skey : string) (c : dict) : FrozenEvent :=
  unwrap no_event (make_event_from_dict (ex_dict typ from skey c) RoomVersions.V11 [] None).

Definition ex_view (fe : FrozenEvent) : Event := default no_view (view fe).
Definition ex_pruned (fe : FrozenEvent) : FrozenEvent := unwrap no_event (prune_event fe).

Definition fe_levels : FrozenEvent :=
  ex_fe EventTypes.PowerLevels "@a:x" ""
    [("users", JObj [("@a:x", JInt 100)]); ("invite", JInt 20); ("comment", JStr "rude")].
Definition fe_member : FrozenEvent :=
  ex_fe EventTypes.Member "@a:x" "@a:x" [("membership", JStr "join"); ("displayname", JStr "rude")].
Definition fe_create : FrozenEvent :=
  ex_fe EventTypes.Create "@a:x" "" [("m.federate", JBool true)].

Definition member_dict : dict :=
  ex_dict EventTypes.Member "@a:x" "@a:x" [("displayname", JStr "rude"); ("membership", JStr "join")].
Definition member_pruned : dict := unwrap [] (prune_event_dict RoomVersions.V11 member_dict).

Lemma redaction_stable_witness :
  dict_get "content" member_pruned = Some (JObj [("membership", JStr "join")]) ∧
  prune_event_dict RoomVersions.V11 member_pruned = Ok member_pruned.
Proof.
  split; [by vm_compute|].
  apply (redaction_stable RoomVersions.V11 member_dict member_pruned).
  apply unwrap_ok. by vm_compute.
Defined.

Lemma redaction_keeps_identity_witness :
  is_ok (fe_event_id fe_member) = true ∧ _dict (ex_pruned fe_member) ≠ _dict fe_member ∧
  fe_event_id (ex_pruned fe_member) = fe_event_id fe_member.
Proof.
  split; [by vm_compute|]. split; [by vm_compute|].
  apply (redaction_keeps_identity fe_member (ex_pruned fe_member)).
  apply unwrap_ok. by vm_compute.
Defined.

(** The state before and after the redactions. *)
Definition state_before : StateMap Event :=
  <[(EventTypes.PowerLevels, "") := ex_view fe_levels]>
  (<[(EventTypes.Member, "@a:x") := ex_view fe_member]>
  (<[(EventTypes.Create, "") := ex_view fe_create]> ∅)).
Definition state_after : StateMap Event :=
  <[(EventTypes.PowerLevels, "") := ex_view (ex_pruned fe_levels)]>
  (<[(EventTypes.Member, "@a:x") := ex_view (ex_pruned fe_member)]>
  (<[(EventTypes.Create, "") := ex_view fe_create]> ∅)).

(** The user invites somebody, which needs level 20. *)
Definition ex_invite : Event :=
  ex_view (ex_fe EventTypes.Member "@a:x" "@b:x" [("membership", JStr "invite")]).

Lemma view_some fe : bool_decide (is_Some (view fe)) = true → view fe = Some (ex_view fe).
Proof. unfold ex_view. intros [e ->]%bool_decide_eq_true. done. Qed.

Lemma ex_redaction_of fe :
  bool_decide (is_Some (view fe)) = true → is_ok (prune_event fe) = true →
  bool_decide (is_Some (view (ex_pruned fe))) = true →
  redaction_of (ex_view fe) (ex_view (ex_pruned fe)).
Proof.
  intros Hv Hp Hv'. exists fe, (ex_pruned fe).
  split_and!; [by apply view_some|by apply unwrap_ok|by apply view_some].
Qed.

Lemma redaction_neutral_witness :
  is_ok (check_against_state ex_invite state_before) = true ∧
  check_against_state ex_invite state_after = check_against_state ex_invite state_before.
Proof.
  split; [by vm_compute|].
  apply (redaction_neutral state_before state_after ex_invite).
  - unfold state_before, state_after.
    do 2 (apply redacted_state_insert; [right; apply ex_redaction_of; by vm_compute|]).
    apply redacted_state_insert; [by left|apply redacted_state_empty].
  - unfold state_before. do 3 (apply updated_state_insert; [by vm_compute..|]).
    intros t k e. by rewrite lookup_empty.
  - by intros Hty%(f_equal (String.eqb EventTypes.PowerLevels)).
  - intros _ m. by intros [= <-].
Defined.

Definition ex_key : @signing_key example_hashing := tt.

(** An event hashed and signed here, as it is received elsewhere. *)
Definition signed_dict : dict :=
  unwrap [] (add_hashes_and_signatures RoomVersions.V11 member_dict "x" ex_key).
Definition received : FrozenEvent :=
  unwrap no_event (make_event_from_dict signed_dict RoomVersions.V11 [] None).

Lemma content_hash_roundtrip_witness :
  dict_mem "hashes" (_dict received) = true ∧ check_event_content_hash received = Ok true.
Proof.
  split; [by vm_compute|].
  apply (content_hash_roundtrip RoomVersions.V11 member_dict "x" ex_key signed_dict [] None).
  - done.
  - apply unwrap_ok. by vm_compute.
  - apply unwrap_ok. by vm_compute.
Defined.
