(* ===== verification/StateFilter.v ===== *)
(** * State filters: [synapse/types/state.py]

    A filter is a map from event type to the state keys wanted ([None] for all of
    them) and a flag for the types not listed.  The meaning of a filter is the set
    of (type, state_key) pairs it [matches]; the properties relate every operation
    of the class to it. *)

From S2P Require Import Prelude Constants.

Record StateFilter := MkStateFilter {
  types : gmap string (option (gset string));
  include_others : bool
}.

(** The constructor, with [__attrs_post_init__]: with [include_others], wildcard
    entries are dropped. *)
Definition new_StateFilter (types : gmap string (option (gset string)))
    (include_others : bool) : StateFilter :=
  if include_others
  then MkStateFilter (filter (λ kv, is_Some (kv.2)) types) include_others
  else MkStateFilter types include_others.

Definition _ALL_STATE_FILTER : StateFilter := new_StateFilter ∅ true.
Definition _ALL_NON_MEMBER_STATE_FILTER : StateFilter :=
  new_StateFilter {[EventTypes.Member := Some ∅]} true.
Definition _NONE_STATE_FILTER : StateFilter := new_StateFilter ∅ false.

Definition all : StateFilter := _ALL_STATE_FILTER.
Definition none : StateFilter := _NONE_STATE_FILTER.

(** ** Constructors *)

(** One iteration of the loop of [from_types]. *)
Definition from_types_step (type_dict : gmap string (option (gset string)))
    (ts : string * option string) : gmap string (option (gset string)) :=
  let '(typ, s) := ts in
  match type_dict !! typ with
  | Some None => type_dict
  | entry =>
      match s with
      | None => <[typ := None]> type_dict
      | Some s =>
          let old := match entry with Some (Some ks) => ks | _ => ∅ end in
          <[typ := Some ({[s]} ∪ old)]> type_dict
      end
  end.

Definition from_types (ts : list (string * option string)) : StateFilter :=
  new_StateFilter (foldl from_types_step ∅ ts) false.

Definition to_types (self : StateFilter) : list (string * option string) :=
  tk ← map_to_list (types self);
  match tk.2 with
  | None => [(tk.1, None)]
  | Some state_keys => (λ k, (tk.1, Some k)) <$> elements state_keys
  end.

Definition from_lazy_load_member_list (members : list string) : StateFilter :=
  new_StateFilter {[EventTypes.Member := Some (list_to_set members)]} true.

(** The collections of [types] are frozen into sets. *)
Definition freeze (types : gmap string (option (gset string))) (include_others : bool)
    : StateFilter :=
  new_StateFilter types include_others.

(** ** Queries *)

Definition is_full (self : StateFilter) : bool :=
  include_others self && bool_decide (types self = ∅).

Definition has_wildcards (self : StateFilter) : bool :=
  include_others self
  || existsb (λ tk, match tk.2 with None => true | Some _ => false end)
       (map_to_list (types self)).

Definition concrete_types (self : StateFilter) : list (string * string) :=
  tk ← map_to_list (types self);
  match tk.2 with
  | Some state_keys => (λ s, (tk.1, s)) <$> elements state_keys
  | None => []
  end.

Definition wildcard_types (self : StateFilter) : list string :=
  (filter (λ tk, tk.2 = None) (map_to_list (types self))).*1.

Definition max_entries_returned (self : StateFilter) : option nat :=
  if has_wildcards self then None else Some (length (concrete_types self)).

(** Whether one key passes: the test of the loop in [filter_state]. *)
Definition matches (self : StateFilter) (k : string * string) : bool :=
  match types self !! k.1 with
  | Some None => true
  | Some (Some state_keys) => bool_decide (k.2 ∈ state_keys)
  | None => include_others self
  end.

Definition filter_state {A} (self : StateFilter) (state_dict : gmap (string * string) A)
    : gmap (string * string) A :=
  if is_full self then state_dict
  else filter (λ kv, matches self kv.1 = true) state_dict.

(** ** Transformations *)

Definition return_expanded (self : StateFilter) : StateFilter :=
  if is_full self then self
  else if negb (has_wildcards self) then self
  else
    let get_all_members :=
      match types self !! EventTypes.Member with
      | Some entry => bool_decide (entry = None)
      | None => include_others self
      end in
    let has_non_member_wildcard :=
      include_others self
      || existsb (λ tk, match tk.2 with None => true | Some _ => false end)
           (map_to_list (delete EventTypes.Member (types self))) in
    if negb has_non_member_wildcard then self
    else if get_all_members then all
    else match types self !! EventTypes.Member with
         | Some entry => new_StateFilter {[EventTypes.Member := entry]} true
         | None => _ALL_NON_MEMBER_STATE_FILTER
         end.

Definition get_member_split (self : StateFilter) : StateFilter * StateFilter :=
  let member_filter :=
    match types self !! EventTypes.Member with
    | Some None => all
    | Some (Some state_keys) => new_StateFilter {[EventTypes.Member := Some state_keys]} false
    | None => if include_others self then all else none
    end in
  (member_filter, new_StateFilter (delete EventTypes.Member (types self)) (include_others self)).

Definition _decompose_into_four_parts (self : StateFilter)
    : (bool * gset string) * (gset string * gset (string * string)) :=
  let is_all := include_others self in
  let excluded_types := if is_all then dom (types self) else ∅ in
  ((is_all, excluded_types),
   (list_to_set (wildcard_types self), list_to_set (concrete_types self))).

(** One iteration of the loop over [plus_state_keys]. *)
Definition add_state_key (all_part : bool) (tk : string * string)
    (new_types : gmap string (option (gset string))) : gmap string (option (gset string)) :=
  match new_types !! tk.1 with
  | Some (Some entry) => <[tk.1 := Some ({[tk.2]} ∪ entry)]> new_types
  | Some None => new_types
  | None => if all_part then new_types else <[tk.1 := Some {[tk.2]}]> new_types
  end.

Definition _recompose_from_four_parts (all_part : bool) (minus_wildcards : gset string)
    (plus_wildcards : gset string) (plus_state_keys : gset (string * string)) : StateFilter :=
  let new_types : gmap string (option (gset string)) :=
    if all_part then gset_to_gmap (Some ∅) minus_wildcards else ∅ in
  let new_types := gset_to_gmap None plus_wildcards ∪ new_types in
  let new_types := foldr (add_state_key all_part) new_types (elements plus_state_keys) in
  freeze new_types all_part.

Definition approx_difference (self other : StateFilter) : StateFilter :=
  let '((self_all, self_excludes), (self_wildcards, self_concrete_keys)) :=
    _decompose_into_four_parts self in
  let '((other_all, other_excludes), (other_wildcards, other_concrete_keys)) :=
    _decompose_into_four_parts other in
  let new_all := self_all in
  let new_excludes := self_excludes ∪ other_wildcards in
  let new_wildcards := self_wildcards ∖ other_wildcards in
  let new_concrete_keys :=
    filter (λ tk, tk.1 ∉ other_wildcards) self_concrete_keys ∖ other_concrete_keys in
  if other_all then
    let new_wildcards :=
      if self_all then new_wildcards ∪ (other_excludes ∖ self_excludes) else new_wildcards in
    let new_wildcards := new_wildcards ∩ other_excludes in
    let new_concrete_keys := filter (λ tk, tk.1 ∈ other_excludes) new_concrete_keys in
    _recompose_from_four_parts false ∅ new_wildcards new_concrete_keys
  else _recompose_from_four_parts new_all new_excludes new_wildcards new_concrete_keys.

Definition must_await_full_state (self : StateFilter) (is_mine_id : string → bool) : bool :=
  match types self !! EventTypes.Member with
  | None => include_others self
  | Some None => true
  | Some (Some member_state_keys) =>
      existsb (λ state_key, negb (is_mine_id state_key)) (elements member_state_keys)
  end.

(** ** The SQL clause *)

(** The disjuncts [make_sql_filter_clause] writes, with their arguments. *)
Inductive sql_atom :=
| TypeIs (t : string)
| TypeKeyIs (t k : string)
| TypeNotIn (ts : list string).

Definition render_atom (a : sql_atom) : string :=
  match a with
  | TypeIs _ => "(type = ?)"
  | TypeKeyIs _ _ => "(type = ? AND state_key = ?)"
  | TypeNotIn ts =>
      "type NOT IN (" +:+ String.concat "," ((λ _, "?") <$> ts) +:+ ")"
  end.

Definition atom_args (a : sql_atom) : list string :=
  match a with
  | TypeIs t => [t]
  | TypeKeyIs t k => [t; k]
  | TypeNotIn ts => ts
  end.

(** The clauses for the listed types, then the one for the others. *)
Definition sql_atoms (self : StateFilter) : list sql_atom :=
  (tk ← map_to_list (types self);
   match tk.2 with
   | None => [TypeIs tk.1]
   | Some state_keys => TypeKeyIs tk.1 <$> elements state_keys
   end) ++
  (if include_others self then [TypeNotIn (map_to_list (types self)).*1] else []).

Definition make_sql_filter_clause (self : StateFilter) : string * list string :=
  if is_full self then ("", [])
  else if negb (include_others self) && bool_decide (types self = ∅) then ("1 = 2", [])
  else (String.concat " OR " (render_atom <$> sql_atoms self),
        a ← sql_atoms self; atom_args a).

(** Evaluation of a disjunct on a row. *)
Definition eval_atom (a : sql_atom) (k : string * string) : bool :=
  match a with
  | TypeIs t => bool_decide (k.1 = t)
  | TypeKeyIs t s => bool_decide (k.1 = t) && bool_decide (k.2 = s)
  | TypeNotIn ts => bool_decide (k.1 ∉ ts)
  end.
