(* ===== verification/StateFilterProps.v ===== *)
(** * Properties of state filters *)

From S2P Require Import Prelude PyVal Constants StateFilter.

(** ** Canonical filters: what the constructor makes *)

Definition canonical (f : StateFilter) : Prop :=
  include_others f = true → ∀ t, types f !! t ≠ Some None.

(** Filters that let the same keys through. *)
Definition filter_equiv (f g : StateFilter) : Prop := ∀ k, matches f k = matches g k.

#[export] Instance filter_equiv_equivalence : Equivalence filter_equiv.
Proof.
  split; unfold filter_equiv; [done | by intros f g ? k | intros f g h H1 H2 k].
  by rewrite H1.
Qed.

Lemma lookup_filter_some (m : gmap string (option (gset string))) t :
  filter (λ kv, is_Some (kv.2)) m !! t =
    match m !! t with Some (Some ks) => Some (Some ks) | _ => None end.
Proof.
  apply option_eq. intros e. rewrite map_lookup_filter_Some.
  destruct (m !! t) as [[ks|]|]; simpl; split; naive_solver.
Qed.

Lemma new_StateFilter_canonical m o : canonical (new_StateFilter m o).
Proof.
  unfold canonical, new_StateFilter. destruct o; simpl; [|done]. intros _ t.
  rewrite lookup_filter_some. by destruct (m !! t) as [[]|].
Qed.

Lemma new_StateFilter_matches m o k :
  matches (new_StateFilter m o) k = matches (MkStateFilter m o) k.
Proof.
  unfold matches, new_StateFilter. destruct o; simpl; [|done].
  rewrite lookup_filter_some. by destruct (m !! k.1) as [[]|].
Qed.

Lemma is_full_matches f k : is_full f = true → matches f k = true.
Proof.
  unfold is_full, matches. intros [Ho Ht%bool_decide_eq_true]%andb_true_iff.
  by rewrite Ht, lookup_empty.
Qed.

Lemma lookup_filter_state {A} (f : StateFilter) (s : gmap (string * string) A) (k : string * string) :
  filter_state f s !! k = if matches f k then s !! k else None.
Proof.
  unfold filter_state. destruct (is_full f) eqn:Hf.
  - by rewrite is_full_matches.
  - rewrite map_lookup_filter. destruct (s !! k) as [v|]; simpl; [|by destruct (matches f k)].
    destruct (matches f k) eqn:Hm.
    + by rewrite option_guard_True.
    + by rewrite option_guard_False by (simpl; congruence).
Qed.

#[export] Instance filter_state_proper {A} :
  Proper (filter_equiv ==> (=) ==> (=)) (@filter_state A).
Proof.
  intros f g Hfg s ? <-. apply map_eq. intros k. by rewrite !lookup_filter_state, Hfg.
Qed.

Lemma size_list_to_set_le `{Countable A} (l : list A) :
  (size (list_to_set l : gset A) ≤ length l)%nat.
Proof.
  induction l as [|x l IH]; simpl; [done|].
  rewrite size_union_alt, size_singleton.
  assert (size (list_to_set l ∖ {[x]} : gset A) ≤ size (list_to_set l : gset A))%nat
    by (apply subseteq_size; set_solver). lia.
Qed.

(** ** The pieces of a filter *)

Lemma elem_of_concrete_types f t k :
  (t, k) ∈ concrete_types f ↔ ∃ ks, types f !! t = Some (Some ks) ∧ k ∈ ks.
Proof.
  unfold concrete_types. rewrite list_elem_of_bind. split.
  - intros ([t' e] & Hin & Hm). simpl in *. apply elem_of_map_to_list in Hm.
    destruct e as [ks|]; [|by apply not_elem_of_nil in Hin].
    apply list_elem_of_fmap in Hin as (s & [= -> ->] & Hs).
    exists ks. split; [done|]. by apply elem_of_elements.
  - intros (ks & Ht & Hk). exists (t, Some ks). split.
    + simpl. apply list_elem_of_fmap. exists k. split; [done|]. by apply elem_of_elements.
    + by apply elem_of_map_to_list.
Qed.

Lemma elem_of_wildcard_types f t : t ∈ wildcard_types f ↔ types f !! t = Some None.
Proof.
  unfold wildcard_types. rewrite list_elem_of_fmap. split.
  - intros ([t' e] & -> & [He Hin]%list_elem_of_filter). simpl in *. subst.
    by apply elem_of_map_to_list in Hin.
  - intros Ht. exists (t, None). split; [done|]. apply list_elem_of_filter.
    split; [done|]. by apply elem_of_map_to_list.
Qed.

Lemma has_wildcard_entry (m : gmap string (option (gset string))) :
  existsb (λ tk, match tk.2 with None => true | Some _ => false end) (map_to_list m) = true ↔
  ∃ t, m !! t = Some None.
Proof.
  rewrite existsb_exists. split.
  - intros ([t e] & Hin & He). apply list_elem_of_In, elem_of_map_to_list in Hin.
    destruct e; [done|]. eauto.
  - intros [t Ht]. exists (t, None). split; [|done].
    by apply list_elem_of_In, elem_of_map_to_list.
Qed.

(** [matches] by its cases. *)
Lemma matches_true f t k :
  matches f (t, k) = true ↔
  types f !! t = Some None ∨ (∃ ks, types f !! t = Some (Some ks) ∧ k ∈ ks) ∨
  (types f !! t = None ∧ include_others f = true).
Proof.
  unfold matches; simpl. destruct (types f !! t) as [[ks|]|].
  - rewrite bool_decide_eq_true. naive_solver.
  - naive_solver.
  - naive_solver.
Qed.

(** ** Recomposition *)

Lemma add_state_key_matches a m t' k' k :
  matches (MkStateFilter (add_state_key a (t', k') m) a) k =
  matches (MkStateFilter m a) k || bool_decide (k = (t', k')).
Proof.
  destruct k as [t k]. unfold matches, add_state_key. simpl.
  destruct (m !! t') as [[ks|]|] eqn:Hm; [| |destruct a].
  - destruct (decide (t = t')) as [->|Hne].
    + rewrite lookup_insert_eq, Hm. apply eq_true_iff_eq.
      rewrite orb_true_iff, !bool_decide_eq_true. set_solver.
    + rewrite lookup_insert_ne by done. rewrite (bool_decide_false ((t, k) = _)) by congruence.
      by rewrite orb_false_r.
  - destruct (decide (t = t')) as [->|Hne]; [by rewrite Hm|].
    rewrite (bool_decide_false ((t, k) = _)) by congruence. by rewrite orb_false_r.
  - destruct (decide (t = t')) as [->|Hne]; [by rewrite Hm|].
    rewrite (bool_decide_false ((t, k) = _)) by congruence. by rewrite orb_false_r.
  - destruct (decide (t = t')) as [->|Hne].
    + rewrite lookup_insert_eq, Hm. simpl. apply bool_decide_ext. set_solver.
    + rewrite lookup_insert_ne by done. rewrite (bool_decide_false ((t, k) = _)) by congruence.
      by rewrite orb_false_r.
Qed.

Lemma add_state_keys_matches a m l k :
  matches (MkStateFilter (foldr (add_state_key a) m l) a) k = true ↔
  matches (MkStateFilter m a) k = true ∨ k ∈ l.
Proof.
  induction l as [|[t' k'] l IH]; simpl; [set_solver|].
  rewrite add_state_key_matches, orb_true_iff, IH, bool_decide_eq_true. set_solver.
Qed.

Lemma recompose_matches a minus wild keys t k :
  matches (_recompose_from_four_parts a minus wild keys) (t, k) = true ↔
  t ∈ wild ∨ (t, k) ∈ keys ∨ (a = true ∧ t ∉ minus).
Proof.
  unfold _recompose_from_four_parts, freeze. rewrite new_StateFilter_matches.
  rewrite add_state_keys_matches, elem_of_elements, matches_true. simpl.
  assert (Hl : (gset_to_gmap None wild ∪ (if a then gset_to_gmap (Some ∅) minus else ∅)
                : gmap string (option (gset string))) !! t =
               if decide (t ∈ wild) then Some None
               else if decide (a = true ∧ t ∈ minus) then Some (Some ∅) else None).
  { rewrite lookup_union, lookup_gset_to_gmap. destruct (decide (t ∈ wild)).
    - rewrite option_guard_True by done. simpl. by destruct (_ !! t).
    - rewrite option_guard_False by done. rewrite (left_id_L None _).
      destruct a; [|by rewrite lookup_empty, decide_False by naive_solver].
      rewrite lookup_gset_to_gmap. destruct (decide (t ∈ minus)).
      + rewrite option_guard_True, decide_True by done. done.
      + rewrite option_guard_False, decide_False by naive_solver. done. }
  rewrite Hl. destruct a; repeat case_decide; naive_solver (set_solver).
Qed.

(** The difference, by the entries of the two filters. *)
Lemma approx_difference_matches f g t k :
  canonical f → canonical g →
  matches (approx_difference f g) (t, k) = true ↔
    matches f (t, k) = true ∧
    match types g !! t, types f !! t with
    | Some None, _ => False
    | Some (Some kg), Some (Some _) => k ∉ kg
    | Some (Some _), _ => True
    | None, _ => include_others g = false
    end.
Proof.
  intros Hcf Hcg. rewrite (matches_true f).
  unfold approx_difference, _decompose_into_four_parts.
  destruct (include_others g) eqn:Hg, (include_others f) eqn:Hf;
    rewrite recompose_matches;
    rewrite ?elem_of_intersection, ?elem_of_union, ?elem_of_difference, ?elem_of_filter,
      ?elem_of_difference, ?elem_of_filter, ?elem_of_list_to_set, ?elem_of_wildcard_types,
      ?elem_of_concrete_types, ?elem_of_dom, ?elem_of_list_to_set, ?elem_of_wildcard_types;
    simpl; destruct (types f !! t) as [[ks|]|] eqn:Ef, (types g !! t) as [[kg|]|] eqn:Eg;
    unfold is_Some; try (by exfalso; eapply Hcf); try (by exfalso; eapply Hcg); naive_solver.
Qed.

(** A filter that lets a whole type through lists it as a wildcard or not at all:
    a finite set of state keys is never all of them. *)
Lemma matches_whole_type f t :
  (∀ k, matches f (t, k) = true) → types f !! t = Some None ∨
    (types f !! t = None ∧ include_others f = true).
Proof.
  unfold matches; simpl. destruct (types f !! t) as [[ks|]|]; intros H; [|by left|].
  - specialize (H (fresh ks)). apply bool_decide_eq_true in H. by apply is_fresh in H.
  - right. split; [done|]. by apply (H "").
Qed.

(** What [return_expanded] can return: the filter itself, when it has no wildcard
    beyond the membership events, or a filter with every non-member event. *)
Lemma return_expanded_cases f :
  canonical f →
  (return_expanded f = f ∧
     ((∀ t k, t ≠ EventTypes.Member → matches f (t, k) = true) ∨
      ∀ t, t ≠ EventTypes.Member → ∃ ks : gset string, ∀ k, matches f (t, k) = true ↔ k ∈ ks)) ∨
  ((∀ t k, t ≠ EventTypes.Member → matches (return_expanded f) (t, k) = true) ∧
   ∀ u, matches (return_expanded f) (EventTypes.Member, u) = matches f (EventTypes.Member, u)).
Proof.
  intros Hc. unfold return_expanded.
  assert (Hfin : include_others f = false →
    (∀ t, t ≠ EventTypes.Member → types f !! t ≠ Some None) →
    ∀ t, t ≠ EventTypes.Member → ∃ ks : gset string, ∀ k, matches f (t, k) = true ↔ k ∈ ks).
  { intros Ho Hw t Ht. unfold matches. simpl. specialize (Hw t Ht).
    destruct (types f !! t) as [[ks|]|]; [|done|].
    - exists ks. intros k. apply bool_decide_eq_true.
    - exists ∅. rewrite Ho. set_solver. }
  destruct (is_full f) eqn:Hf.
  { left. split; [done|]. left. intros t k _. by apply is_full_matches. }
  destruct (has_wildcards f) eqn:Hw; simpl; cycle 1.
  { left. split; [done|]. right. apply orb_false_iff in Hw as [Ho Hw].
    apply Hfin; [done|]. intros t _ Ht. apply not_true_iff_false in Hw. apply Hw.
    apply has_wildcard_entry. eauto. }
  destruct (include_others f || _) eqn:Hn; simpl; cycle 1.
  { left. split; [done|]. right. apply orb_false_iff in Hn as [Ho Hn].
    apply Hfin; [done|]. intros t Ht HN. apply not_true_iff_false in Hn. apply Hn.
    apply has_wildcard_entry. exists t. by rewrite lookup_delete_ne. }
  right. unfold matches.
  destruct (types f !! EventTypes.Member) as [[ks|]|] eqn:HM; simpl.
  - split; intros; simpl.
    + rewrite lookup_filter_some, lookup_singleton_ne; done.
    + rewrite lookup_filter_some, lookup_singleton_eq, HM. done.
  - split; intros; simpl; rewrite ?HM, lookup_filter_some, lookup_empty; done.
  - destruct (include_others f); simpl; split; intros; simpl.
    + by rewrite lookup_filter_some, lookup_empty.
    + by rewrite lookup_filter_some, lookup_empty, HM.
    + by rewrite lookup_filter_some, lookup_singleton_ne.
    + rewrite lookup_filter_some, lookup_singleton_eq, HM. by apply bool_decide_eq_false.
Qed.

(** ** Round trips *)

(** An entry of the dictionary [from_types] builds, as the pairs that reached it. *)
Lemma from_types_step_matches d ts t k :
  matches (MkStateFilter (from_types_step d ts) false) (t, k) =
  matches (MkStateFilter d false) (t, k) ||
  bool_decide (ts = (t, None) ∨ ts = (t, Some k)).
Proof.
  destruct ts as [t' s]. unfold matches, from_types_step. simpl. apply eq_true_iff_eq.
  rewrite orb_true_iff, bool_decide_eq_true.
  destruct (decide (t = t')) as [<-|Hne].
  - destruct (d !! t) as [[ks|]|] eqn:Hd, s as [s|]; simpl;
      rewrite ?lookup_insert_eq, ?Hd, ?bool_decide_eq_true; set_solver.
  - assert ((t', s) = (t, None) ∨ (t', s) = (t, Some k) ↔ False) as -> by naive_solver.
    destruct (d !! t') as [[ks|]|] eqn:Hd, s as [s|]; simpl;
      rewrite ?lookup_insert_ne by done; tauto.
Qed.

Lemma from_types_matches ts t k :
  matches (from_types ts) (t, k) = true ↔ (t, None) ∈ ts ∨ (t, Some k) ∈ ts.
Proof.
  unfold from_types. rewrite new_StateFilter_matches.
  assert (H : ∀ d, matches (MkStateFilter (foldl from_types_step d ts) false) (t, k) = true ↔
    matches (MkStateFilter d false) (t, k) = true ∨ (t, None) ∈ ts ∨ (t, Some k) ∈ ts).
  { induction ts as [|x ts IH]; intros d; simpl; [set_solver|].
    rewrite IH, from_types_step_matches, orb_true_iff, bool_decide_eq_true. set_solver. }
  rewrite H. unfold matches at 1. simpl. rewrite lookup_empty. naive_solver.
Qed.

Lemma elem_of_to_types f t s :
  (t, s) ∈ to_types f ↔
  (types f !! t = Some None ∧ s = None) ∨
  (∃ ks k, types f !! t = Some (Some ks) ∧ k ∈ ks ∧ s = Some k).
Proof.
  unfold to_types. rewrite list_elem_of_bind. split.
  - intros ([t' e] & Hin & Hm). simpl in *. apply elem_of_map_to_list in Hm.
    destruct e as [ks|].
    + apply list_elem_of_fmap in Hin as (k & [= -> ->] & Hk). right.
      exists ks, k. by apply elem_of_elements in Hk.
    + apply list_elem_of_singleton in Hin as [= -> ->]. by left.
  - intros [[Ht ->]|(ks & k & Ht & Hk & ->)].
    + exists (t, None). split; [by left|]. by apply elem_of_map_to_list.
    + exists (t, Some ks). split; [|by apply elem_of_map_to_list]. simpl.
      apply list_elem_of_fmap. exists k. split; [done|]. by apply elem_of_elements.
Qed.

(** ** The SQL clause *)

Lemma elem_of_sql_atoms f a :
  a ∈ sql_atoms f ↔
  match a with
  | TypeIs t => types f !! t = Some None
  | TypeKeyIs t k => ∃ ks, types f !! t = Some (Some ks) ∧ k ∈ ks
  | TypeNotIn ts => include_others f = true ∧ ts = (map_to_list (types f)).*1
  end.
Proof.
  unfold sql_atoms. rewrite elem_of_app, list_elem_of_bind.
  assert (Ho : a ∈ (if include_others f then [TypeNotIn (map_to_list (types f)).*1] else []) ↔
    include_others f = true ∧ a = TypeNotIn (map_to_list (types f)).*1).
  { destruct (include_others f); set_solver. }
  rewrite Ho. split.
  - intros [([t e] & Hin & Hm)|[Hi ->]]; [|done]. simpl in *.
    apply elem_of_map_to_list in Hm. destruct e as [ks|].
    + apply list_elem_of_fmap in Hin as (k & -> & Hk%elem_of_elements). eauto.
    + by apply list_elem_of_singleton in Hin as ->.
  - destruct a as [t|t k|ts].
    + intros Ht. left. exists (t, None). split; [by left|]. by apply elem_of_map_to_list.
    + intros (ks & Ht & Hk). left. exists (t, Some ks). split; [|by apply elem_of_map_to_list].
      apply list_elem_of_fmap. exists k. split; [done|]. by apply elem_of_elements.
    + intros [Hi ->]. by right.
Qed.

(** The disjunction the clause writes holds of a row exactly when the filter lets
    its key through. *)
Lemma sql_atoms_matches f k :
  existsb (λ a, eval_atom a k) (sql_atoms f) = matches f k.
Proof.
  destruct k as [t k]. apply eq_true_iff_eq. rewrite existsb_exists, matches_true. split.
  - intros (a & Hin & He). apply list_elem_of_In, elem_of_sql_atoms in Hin.
    destruct a as [t'|t' k'|ts]; simpl in He.
    + apply bool_decide_eq_true in He as ->. by left.
    + apply andb_true_iff in He as [->%bool_decide_eq_true ->%bool_decide_eq_true].
      right. by left.
    + destruct Hin as [Hi ->]. apply bool_decide_eq_true in He. right. right.
      split; [|done]. apply eq_None_not_Some. intros [e Ht%elem_of_map_to_list].
      apply He. by apply (list_elem_of_fmap_2 fst) in Ht.
  - intros [Ht|[Ht|[Ht Hi]]].
    + exists (TypeIs t). rewrite <- list_elem_of_In, elem_of_sql_atoms. simpl.
      by rewrite bool_decide_true.
    + exists (TypeKeyIs t k). rewrite <- list_elem_of_In, elem_of_sql_atoms. simpl.
      by rewrite !bool_decide_true.
    + exists (TypeNotIn (map_to_list (types f)).*1).
      rewrite <- list_elem_of_In, elem_of_sql_atoms. split; [done|]. simpl.
      apply bool_decide_eq_true.
      intros ([t' e] & -> & Hin%elem_of_map_to_list)%list_elem_of_fmap. simpl in Ht. congruence.
Qed.

(** Every disjunct holds of some row, so the disjunction is empty exactly when the
    filter lets nothing through. *)
Lemma sql_atoms_nil f : sql_atoms f = [] ↔ ∀ k, matches f k = false.
Proof.
  setoid_rewrite <- sql_atoms_matches. split; [by intros ->|].
  destruct (sql_atoms f) as [|a l]; intros H; [done|]. exfalso. simpl in H.
  destruct a as [t|t k|ts]; simpl in H.
  - specialize (H (t, "")). simpl in H. by rewrite bool_decide_true in H.
  - specialize (H (t, k)). simpl in H. by rewrite !bool_decide_true in H.
  - specialize (H (fresh ts, "")). simpl in H.
    rewrite bool_decide_true in H by apply infinite_is_fresh. done.
Qed.

(** A clause with a disjunct starts with one of two letters. *)
Lemma render_atoms_head l :
  l ≠ [] → ∃ c r, String.concat " OR " (render_atom <$> l) = String c r ∧
    (c = "("%char ∨ c = "t"%char).
Proof.
  destruct l as [|a [|b l]]; intros Hl; [done| |]; simpl; destruct a; simpl;
    rewrite ?str_app_cons; eauto.
Qed.

Lemma make_sql_filter_clause_cases f :
  (is_full f = true ∧ make_sql_filter_clause f = ("", [])) ∨
  (is_full f = false ∧ include_others f = false ∧ types f = ∅ ∧
     make_sql_filter_clause f = ("1 = 2", [])) ∨
  (is_full f = false ∧ (include_others f = true ∨ types f ≠ ∅) ∧
     make_sql_filter_clause f =
       (String.concat " OR " (render_atom <$> sql_atoms f), a ← sql_atoms f; atom_args a)).
Proof.
  unfold make_sql_filter_clause. destruct (is_full f); [by left|right].
  destruct (include_others f); simpl; [by right; eauto|].
  case_bool_decide; [left|right]; eauto.
Qed.

(** ** Properties *)

(** The difference of two state filters keeps its contract for every key: it
    lets through every key of [self] that [other] does not let through, and no key
    outside [self]; and where the type is listed with its state keys in [self], or
    [other] covers the whole type, it is exact. *)
Theorem approx_difference_spec f g t k :
  canonical f → canonical g →
  (matches f (t, k) = true → matches g (t, k) = false →
     matches (approx_difference f g) (t, k) = true) ∧
  (matches (approx_difference f g) (t, k) = true → matches f (t, k) = true) ∧
  ((∃ ks, types f !! t = Some (Some ks)) ∨ (∀ k', matches g (t, k') = true) →
     matches (approx_difference f g) (t, k) = true → matches g (t, k) = false).
Proof.
  intros Hcf Hcg. rewrite (approx_difference_matches f g) by done. split_and!.
  - intros Hm Hg. split; [done|]. unfold matches in Hg. simpl in Hg.
    destruct (types g !! t) as [[kg|]|]; [|done|done].
    apply bool_decide_eq_false in Hg. by destruct (types f !! t) as [[]|].
  - by intros [].
  - intros Hx [_ Hg]. unfold matches. simpl.
    destruct Hx as [[ks Hks]|Hx%matches_whole_type].
    + rewrite Hks in Hg. destruct (types g !! t) as [[kg|]|]; [|done|done].
      by apply bool_decide_eq_false.
    + destruct Hx as [Hx|[Hx Ho]]; rewrite Hx in Hg; [done|]. congruence.
Qed.

(** Expanding a filter for the state cache never loses a key, changes nothing
    for membership events, and leaves a filter whose non-member part is either a
    finite list of state keys or everything. *)
Theorem return_expanded_spec f :
  canonical f →
  (∀ k, matches f k = true → matches (return_expanded f) k = true) ∧
  (∀ u, matches (return_expanded f) (EventTypes.Member, u) =
        matches f (EventTypes.Member, u)) ∧
  ((∀ t k, t ≠ EventTypes.Member → matches (return_expanded f) (t, k) = true) ∨
   (∀ t, t ≠ EventTypes.Member →
      ∃ ks : gset string, ∀ k, matches (return_expanded f) (t, k) = true ↔ k ∈ ks)).
Proof.
  intros Hc. destruct (return_expanded_cases f Hc) as [[-> Hno]|[Hall Hm]].
  - split_and!; [done|done|exact Hno].
  - split_and!; [|done|by left].
    intros [t k]. destruct (decide (t = EventTypes.Member)) as [->|Ht].
    + by rewrite Hm.
    + intros _. by apply Hall.
Qed.

(** Splitting a filter for the two state caches loses and adds nothing: the
    first half decides membership events and the second half all the others, the
    way [_get_state_for_groups] puts the two results together. *)
Theorem get_member_split_spec f k :
  matches f k =
    if decide (k.1 = EventTypes.Member) then matches (get_member_split f).1 k
    else matches (get_member_split f).2 k.
Proof.
  destruct k as [t k]. unfold get_member_split. simpl. case_decide as Ht.
  - subst. unfold matches at 1. simpl.
    destruct (types f !! EventTypes.Member) as [[ks|]|] eqn:HM.
    + unfold matches. simpl. by rewrite lookup_singleton_eq.
    + done.
    + by destruct (include_others f).
  - rewrite new_StateFilter_matches. unfold matches. simpl. by rewrite lookup_delete_ne.
Qed.

(** [from_types] builds the filter for exactly the pairs it is given, and
    rebuilding a filter from its [to_types] listing, or from its four parts, gives a
    filter that lets the same keys through. *)
Theorem filter_roundtrips :
  (∀ ts t k, matches (from_types ts) (t, k) = true ↔ (t, None) ∈ ts ∨ (t, Some k) ∈ ts) ∧
  (∀ f, include_others f = false → filter_equiv (from_types (to_types f)) f) ∧
  (∀ f, canonical f →
     let '((a, excl), (wild, keys)) := _decompose_into_four_parts f in
     filter_equiv (_recompose_from_four_parts a excl wild keys) f).
Proof.
  split_and!.
  - apply from_types_matches.
  - intros f Ho [t k]. apply eq_true_iff_eq.
    rewrite from_types_matches, !elem_of_to_types, matches_true, Ho. naive_solver.
  - intros f Hc [t k]. apply eq_true_iff_eq. unfold _decompose_into_four_parts.
    rewrite recompose_matches, matches_true, !elem_of_list_to_set,
      elem_of_wildcard_types, elem_of_concrete_types.
    destruct (include_others f); [rewrite elem_of_dom, <- eq_None_not_Some|]; naive_solver.
Qed.

(** The size a caller may rely on: a filter without wildcards never returns more
    entries than [max_entries_returned], whatever the state. *)
Theorem max_entries_returned_bound {A} (f : StateFilter) (s : gmap (string * string) A) n :
  max_entries_returned f = Some n → (size (filter_state f s) ≤ n)%nat.
Proof.
  unfold max_entries_returned, has_wildcards.
  destruct (include_others f) eqn:Ho; simpl; [done|]. destruct (existsb _ _) eqn:Hw; [done|].
  intros [= <-]. rewrite <- size_dom. rewrite <- size_list_to_set_le.
  apply subseteq_size. intros [t k] [v Hv]%elem_of_dom.
  rewrite lookup_filter_state in Hv. destruct (matches f (t, k)) eqn:Hm; [|done].
  apply elem_of_list_to_set, elem_of_concrete_types. apply matches_true in Hm.
  destruct Hm as [Hm|[Hm|[_ Hm]]]; [|done|congruence].
  apply not_true_iff_false in Hw. destruct Hw. apply has_wildcard_entry. eauto.
Qed.

(** The full state must be awaited exactly when the filter can let a remote
    user's membership through; otherwise every membership it lets through belongs
    to a local user. *)
Theorem must_await_full_state_spec f is_mine_id :
  (∃ u : string, is_mine_id u = false) →
  (∀ u, matches f (EventTypes.Member, u) = true → is_mine_id u = true) ↔
  must_await_full_state f is_mine_id = false.
Proof.
  intros (u0 & Hu0). unfold must_await_full_state, matches. simpl.
  destruct (types f !! EventTypes.Member) as [[ks|]|].
  - rewrite <- not_true_iff_false, existsb_exists. split.
    + intros Hall (u & Hu%list_elem_of_In%elem_of_elements & Hn).
      rewrite Hall in Hn; [done|]. by apply bool_decide_eq_true.
    + intros Hn u Hu%bool_decide_eq_true. apply not_false_iff_true. intros Hf. apply Hn.
      exists u. rewrite <- list_elem_of_In, elem_of_elements. by rewrite Hf.
  - split; [|done]. intros H. by rewrite H in Hu0.
  - destruct (include_others f); [|done]. split; [|done]. intros H. by rewrite H in Hu0.
Qed.

(** The SQL clause selects the rows whose key the filter lets through, except
    that a filter with listed types but no state key at all is written as the empty
    clause, which restricts nothing. *)
Theorem make_sql_filter_clause_spec f :
  ((make_sql_filter_clause f).1 = "" ↔
     is_full f = true ∨ (types f ≠ ∅ ∧ ∀ k, matches f k = false)) ∧
  ((make_sql_filter_clause f).1 ≠ "" → (make_sql_filter_clause f).1 ≠ "1 = 2" →
     make_sql_filter_clause f =
       (String.concat " OR " (render_atom <$> sql_atoms f), a ← sql_atoms f; atom_args a) ∧
     ∀ k, existsb (λ a, eval_atom a k) (sql_atoms f) = matches f k) ∧
  ((make_sql_filter_clause f).1 = "1 = 2" → ∀ k, matches f k = false).
Proof.
  destruct (make_sql_filter_clause_cases f) as [(Hf & ->)|[(Hf & Ho & Ht & ->)|(Hf & Hn & ->)]];
    simpl.
  - split_and!; [naive_solver|done|done].
  - split_and!; [|done|].
    + split; [done|]. rewrite Hf, Ht. naive_solver.
    + intros _ k. unfold matches. by rewrite Ht, lookup_empty.
  - rewrite Hf, <- sql_atoms_nil. destruct (decide (sql_atoms f = [])) as [Hs|Hs].
    + rewrite Hs. split_and!; [|done|done]. split; [|done]. intros _. right. split; [|done].
      destruct Hn as [Hn|Hn]; [|done]. unfold sql_atoms in Hs. rewrite Hn in Hs.
      by apply app_eq_nil in Hs as [_ ?].
    + destruct (render_atoms_head _ Hs) as (c & r & -> & Hc). split_and!.
      * naive_solver.
      * intros _ _. split; [done|]. intros k. apply sql_atoms_matches.
      * intros [= -> _]. by destruct Hc.
Qed.

(** ** Witnesses *)

Definition lazy_filter : StateFilter := from_lazy_load_member_list ["@a:x"; "@b:x"].
Definition names_filter : StateFilter := from_types [("m.room.name", None)].

Lemma approx_difference_spec_witness :
  matches lazy_filter ("m.room.topic", "") = true ∧
  matches (approx_difference lazy_filter names_filter) ("m.room.topic", "") = true.
Proof.
  split; [by vm_compute|].
  destruct (approx_difference_spec lazy_filter names_filter "m.room.topic" "") as [H _];
    [apply new_StateFilter_canonical | apply new_StateFilter_canonical |].
  apply H; by vm_compute.
Defined.

Lemma return_expanded_spec_witness :
  matches names_filter ("m.room.name", "") = true ∧
  matches (return_expanded names_filter) ("m.room.name", "") = true.
Proof.
  split; [by vm_compute|].
  destruct (return_expanded_spec names_filter) as [H _]; [apply new_StateFilter_canonical |].
  apply H. by vm_compute.
Defined.

Lemma max_entries_returned_bound_witness :
  max_entries_returned (from_types [("m.room.name", Some "")]) = Some 1%nat ∧
  (size (filter_state (from_types [("m.room.name", Some "")])
     ({[("m.room.name", "") := "n"; ("m.room.topic", "") := "t"]} : gmap (string * string) string))
   ≤ 1)%nat.
Proof.
  split; [by vm_compute|]. apply max_entries_returned_bound. by vm_compute.
Defined.

Lemma must_await_full_state_spec_witness :
  must_await_full_state lazy_filter (λ u, bool_decide (u = "@a:x")) = true ∧
  ((∀ u, matches names_filter (EventTypes.Member, u) = true → bool_decide (u = "@a:x") = true) ↔
   must_await_full_state names_filter (λ u, bool_decide (u = "@a:x")) = false).
Proof.
  split; [by vm_compute|].
  apply (must_await_full_state_spec names_filter (λ u, bool_decide (u = "@a:x"))).
  exists "@b:y". by vm_compute.
Defined.
