(* ===== verification/TopoSort.v ===== *)
(** * Lexicographic topological sort: [lexicographical_topological_sort] of
    [synapse/state/v2.py]

    Kahn's algorithm with a heap of the nodes that have no outgoing edge left.
    Python leaves the order in which a set is iterated open, so the order is a
    parameter here, and the theorems hold for every one.  The iteration orders and
    the heap are used by other components too. *)

From S2P Require Import Prelude.

(** ** Iteration orders *)

(** The order in which Python iterates over a set or a dict. *)
Class IterOrder := {
  set_iter : ∀ {A} `{Countable A}, gset A → list A;
  dict_items : ∀ {A}, gmap string A → list (string * A)
}.

(** Every element once. *)
Class IterOrderOk `(IterOrder) : Prop := {
  set_iter_perm : ∀ {A} `{Countable A} (X : gset A), set_iter X ≡ₚ elements X;
  dict_items_perm : ∀ {A} (m : gmap string A), dict_items m ≡ₚ map_to_list m
}.

#[export] Instance canonical_order : IterOrder := {|
  set_iter := λ A _ _ X, elements X;
  dict_items := λ A m, map_to_list m
|}.

#[export] Instance canonical_order_ok : IterOrderOk canonical_order.
Proof. by split. Qed.

(** The opposite order, as an example of another one. *)
Definition reversed_order : IterOrder := {|
  set_iter := λ A _ _ X, rev (elements X);
  dict_items := λ A m, rev (map_to_list m)
|}.

Lemma reversed_order_ok : IterOrderOk reversed_order.
Proof. split; intros; simpl; symmetry; apply Permutation_rev. Qed.

Lemma elem_of_set_iter `{IterOrderOk} `{Countable A} (X : gset A) x : x ∈ set_iter X ↔ x ∈ X.
Proof. by rewrite set_iter_perm, elem_of_elements. Qed.

Lemma NoDup_set_iter `{IterOrderOk} `{Countable A} (X : gset A) : NoDup (set_iter X).
Proof. rewrite set_iter_perm. apply NoDup_elements. Qed.

(** [d.items()], for keys of any type. *)
Definition map_items `{IterOrder} `{Countable K} {A} (m : gmap K A) : list (K * A) :=
  omap (λ k, pair k <$> m !! k) (set_iter (dom m)).

Lemma elem_of_map_items `{IterOrderOk} `{Countable K} {A} (m : gmap K A) i : i ∈ map_items m ↔ m !! i.1 = Some i.2.
Proof.
  unfold map_items. rewrite list_elem_of_omap. split.
  - intros (k & _ & Hi). destruct (m !! k) eqn:E; [|done]. by injection Hi as <-.
  - intros Hi. exists i.1. rewrite elem_of_set_iter, elem_of_dom, Hi. split; [by eexists|]. by destruct i.
Qed.

(** ** Heaps

    What [heapq] promises: [heappop] removes the smallest item. *)

Section heap.
Context {A : Type} (R : relation A) `{!RelDecision R}.

(** The smallest of [x :: l] and the rest. *)
Fixpoint select_min (x : A) (l : list A) : A * list A :=
  match l with
  | [] => (x, [])
  | y :: l =>
      if decide (R x y)
      then let '(m, rest) := select_min x l in (m, y :: rest)
      else let '(m, rest) := select_min y l in (m, x :: rest)
  end.

Definition heappop (h : list A) : option (A * list A) :=
  match h with
  | [] => None
  | x :: l => Some (select_min x l)
  end.

Definition heappush (h : list A) (x : A) : list A := x :: h.

Context `{!PreOrder R, !Total R}.

Lemma select_min_spec x l :
  let '(m, rest) := select_min x l in
  x :: l ≡ₚ m :: rest ∧ ∀ y, y ∈ x :: l → R m y.
Proof.
  revert x. induction l as [|y l IH]; intros x; simpl.
  - split; [done|]. by intros y ->%list_elem_of_singleton.
  - case_decide as Hxy.
    + specialize (IH x). destruct (select_min x l) as [m rest]. destruct IH as [Hp Hm].
      split; [rewrite (Permutation_swap y m), <- Hp; apply Permutation_swap|].
      intros z Hz. rewrite !elem_of_cons in Hz. destruct Hz as [->|[->|Hz]].
      * apply Hm. by left.
      * trans x; [apply Hm; by left | done].
      * apply Hm. by right.
    + specialize (IH y). destruct (select_min y l) as [m rest]. destruct IH as [Hp Hm].
      split; [by rewrite (Permutation_swap x m), <- Hp|].
      assert (Hyx : R y x) by (by destruct (total R x y)).
      intros z Hz. apply elem_of_cons in Hz as [->|Hz]; [|by apply Hm].
      trans y; [apply Hm; by left | done].
Qed.

Lemma heappop_some h m rest :
  heappop h = Some (m, rest) → h ≡ₚ m :: rest ∧ ∀ y, y ∈ h → R m y.
Proof.
  destruct h as [|x l]; simpl; [done|]. intros [= Hs].
  pose proof (select_min_spec x l) as H. by rewrite Hs in H.
Qed.

Lemma heappop_none h : heappop h = None ↔ h = [].
Proof. by destruct h. Qed.
End heap.

(** ** Graphs *)

Abbreviation graph := (gmap string (gset string)).

(** [d.setdefault(k, set()).add(x)] *)
Definition setdefault_add (k x : string) (d : graph) : graph :=
  <[k := {[x]} ∪ default ∅ (d !! k)]> d.

(** [d.setdefault(k, set())] *)
Definition setdefault (k : string) (d : graph) : graph :=
  match d !! k with Some _ => d | None => <[k := ∅]> d end.

(** [d[k]] *)
Definition getitem {A} (d : gmap string A) (k : string) : result A :=
  match d !! k with Some v => Ok v | None => Err (PyBuiltin KeyError) end.

Lemma getitem_some {A} (m : gmap string A) k v : m !! k = Some v → getitem m k = Ok v.
Proof. intros Hk. unfold getitem. by rewrite Hk. Qed.

Section sort.
Context `{IterOrder}.
Context {K : Type} (leK : relation (K * string)) `{!RelDecision leK}.

(** One iteration of the loop that builds [zero_outdegree] and [reverse_graph]. *)
Definition init_node (key : string → result K) (st : list (K * string) * graph)
    (ne : string * gset string) : result (list (K * string) * graph) :=
  let '(zero_outdegree, reverse_graph) := st in
  let '(node, edges) := ne in
  zero_outdegree ←
    (if bool_decide (size edges = 0%nat) then k ← key node; Ok (zero_outdegree ++ [(k, node)])
     else Ok zero_outdegree);
  let reverse_graph := setdefault node reverse_graph in
  Ok (zero_outdegree,
      foldl (λ rg edge, setdefault_add edge node rg) reverse_graph (set_iter edges)).

(** One iteration of the loop over the nodes that point to a finished node. *)
Definition visit_parent (key : string → result K) (node : string)
    (st : graph * list (K * string)) (parent : string) : result (graph * list (K * string)) :=
  let '(outdegree_map, zero_outdegree) := st in
  out ← getitem outdegree_map parent;
  let out := out ∖ {[node]} in
  let outdegree_map := <[parent := out]> outdegree_map in
  if bool_decide (size out = 0%nat) then
    k ← key parent; Ok (outdegree_map, heappush zero_outdegree (k, parent))
  else Ok (outdegree_map, zero_outdegree).

(** [while zero_outdegree]: [None] when the fuel runs out. *)
Fixpoint sort_loop (fuel : nat) (key : string → result K) (reverse_graph outdegree_map : graph)
    (zero_outdegree : list (K * string)) : option (result (list string)) :=
  match fuel with
  | O => None
  | S fuel =>
      match heappop leK zero_outdegree with
      | None => Some (Ok [])
      | Some ((_, node), zero_outdegree) =>
          match
            (parents ← getitem reverse_graph node;
             fold_res (visit_parent key node) (set_iter parents) (outdegree_map, zero_outdegree))
          with
          | Err e => Some (Err e)
          | Ok (outdegree_map, zero_outdegree) =>
              fmap (M:=result) (cons node) <$>
                sort_loop fuel key reverse_graph outdegree_map zero_outdegree
          end
      end
  end.

(** The generator, run to its end; a node is finished at most once, so the number
    of nodes bounds the iterations. *)
Definition lexicographical_topological_sort (g : graph) (key : string → result K)
    : option (result (list string)) :=
  match fold_res (init_node key) (dict_items g) ([], ∅) with
  | Err e => Some (Err e)
  | Ok (zero_outdegree, reverse_graph) =>
      sort_loop (S (size g)) key reverse_graph g zero_outdegree
  end.
End sort.

Arguments visit_parent : simpl never.

(** ** Specification: repeatedly take the least node all of whose edges are taken *)

Section spec.
Context {K : Type} (leK : relation (K * string)) (g : graph) (κ : string → K).

(** [n] has not been taken, and everything it points to has. *)
Definition ready (taken : gset string) (n : string) : Prop :=
  (n ∉ taken) ∧ ∃ es, g !! n = Some es ∧ es ⊆ taken.

Inductive greedy (taken : gset string) : list string → Prop :=
| greedy_nil : (∀ n, ¬ ready taken n) → greedy taken []
| greedy_cons n l :
    ready taken n → (∀ m, ready taken m → leK (κ n, n) (κ m, m)) →
    greedy ({[n]} ∪ taken) l → greedy taken (n :: l).

(** The specification leaves no choice. *)
Lemma greedy_unique `{!AntiSymm (=) leK} taken l1 l2 :
  greedy taken l1 → greedy taken l2 → l1 = l2.
Proof.
  intros H1. revert l2. induction H1 as [taken Hn|taken n l Hr Hmin Hg IH]; intros l2 H2.
  - destruct H2 as [|m l' Hr']; [done|]. by destruct (Hn m).
  - destruct H2 as [Hn'|m l' Hr' Hmin' Hg']; [by destruct (Hn' n)|].
    assert ((κ n, n) = (κ m, m)) as [= _ <-] by (apply (anti_symm leK); auto).
    f_equal. by apply IH.
Qed.

Lemma greedy_fresh taken l : greedy taken l → NoDup l ∧ ∀ n, n ∈ l → (n ∉ taken) ∧ n ∈ dom g.
Proof.
  induction 1 as [taken Hn|taken n l [Hr (es & Hes & _)] Hmin Hg [IHd IH]].
  - split; [constructor|]. by intros n ?%not_elem_of_nil.
  - split.
    + constructor; [|done]. intros Hin. destruct (IH n Hin) as [Hnot _]. set_solver.
    + intros m [->|Hm]%elem_of_cons.
      * split; [done|]. apply elem_of_dom. eauto.
      * destruct (IH m Hm) as [Hnot ?]. split; [set_solver|done].
Qed.

(** Everything a node points to comes before it. *)
Lemma greedy_edges_before taken l l1 n l2 es m :
  greedy taken l → l = l1 ++ n :: l2 → g !! n = Some es → m ∈ es → m ∈ taken ∨ m ∈ l1.
Proof.
  intros Hg. revert l1. induction Hg as [taken Hn|taken n' l [Hr (es' & Hes' & Hsub)] Hmin Hg IH];
    intros l1 Hl Hes Hm.
  - by destruct l1.
  - destruct l1 as [|x l1]; simplify_eq/=.
    + left. set_solver.
    + destruct (IH l1 eq_refl Hes Hm) as [Hin|Hin]; set_solver.
Qed.

(** Among the nodes that could come next, the least does. *)
Lemma greedy_least taken l l1 n l2 m :
  greedy taken l → l = l1 ++ n :: l2 → ready (list_to_set l1 ∪ taken) m →
  leK (κ n, n) (κ m, m).
Proof.
  intros Hg. revert l1. induction Hg as [taken Hn|taken n' l Hr Hmin Hg IH]; intros l1 Hl Hm.
  - by destruct l1.
  - destruct l1 as [|x l1]; simplify_eq/=.
    + apply Hmin. by rewrite (left_id_L ∅ (∪)) in Hm.
    + apply (IH l1 eq_refl).
      by replace (list_to_set l1 ∪ ({[x]} ∪ taken)) with ({[x]} ∪ list_to_set l1 ∪ taken)
        by set_solver.
Qed.

Lemma greedy_least_later l l1 n l2 m es :
  greedy ∅ l → l = l1 ++ n :: l2 → g !! m = Some es → m ∈ l2 →
  (∀ a, a ∈ es → a ∈ l1) → leK (κ n, n) (κ m, m).
Proof.
  intros Hg Heq Hes Hm Hready. apply (greedy_least ∅ l l1 n l2 m Hg Heq).
  rewrite (right_id_L ∅ (∪)). split.
  - rewrite elem_of_list_to_set. intros Hm1. destruct (greedy_fresh _ _ Hg) as [Hnd _].
    rewrite Heq in Hnd. apply NoDup_app in Hnd as (_ & Hdis & _). apply (Hdis m Hm1). by right.
  - exists es. split; [done|]. intros a Ha. apply elem_of_list_to_set. auto.
Qed.

(** Nodes left over at the end all have an edge that is never taken. *)
Lemma greedy_stuck taken l n :
  greedy taken l → n ∈ dom g → n ∉ taken → n ∉ l →
  ∃ es m, g !! n = Some es ∧ m ∈ es ∧ (m ∉ taken) ∧ m ∉ l.
Proof.
  induction 1 as [taken Hn|taken n' l [Hr (es' & Hes' & Hsub)] Hmin Hg IH]; intros Hd Ht Hl.
  - apply elem_of_dom in Hd as [es Hes].
    destruct (decide (es ⊆ taken)) as [Hs|Hs]; [destruct (Hn n); split; eauto|].
    assert (Hne : es ∖ taken ≠ ∅) .
    { intros He. apply Hs. intros x Hx. destruct (decide (x ∈ taken)); [done|].
      assert (x ∈ es ∖ taken) as Hin by set_solver. rewrite He in Hin. set_solver. }
    apply set_choose_L in Hne as [m Hm]. exists es, m. set_solver.
  - rewrite not_elem_of_cons in Hl. destruct IH as (es & m & ? & ? & ? & ?); [set_solver..|].
    exists es, m. set_solver.
Qed.

(** On an acyclic graph whose edges stay inside it, the result is all the nodes. *)
Lemma greedy_complete l (rank : string → nat) :
  (∀ n es m, g !! n = Some es → m ∈ es → m ∈ dom g ∧ (rank m < rank n)%nat) →
  greedy ∅ l → l ≡ₚ elements (dom g).
Proof.
  intros Hrank Hg. destruct (greedy_fresh _ _ Hg) as [Hnd Hin].
  apply NoDup_Permutation; [done|apply NoDup_elements|]. intros n.
  rewrite elem_of_elements. split; [by intros [_ ?]%Hin|].
  induction n as [n IH] using (well_founded_ind (Wf_nat.well_founded_ltof _ rank)). intros Hd.
  destruct (decide (n ∈ l)) as [|Hn]; [done|]. exfalso.
  destruct (greedy_stuck _ _ n Hg Hd) as (es & m & Hes & Hm & _ & Hml); [set_solver|done|].
  destruct (Hrank _ _ _ Hes Hm) as [Hdm Hlt]. apply Hml. by apply IH.
Qed.
End spec.

(** ** The algorithm meets the specification *)

Lemma lookup_setdefault_add k x d n :
  default ∅ (setdefault_add k x d !! n) =
    (if decide (n = k) then {[x]} ∪ default ∅ (d !! n) else default ∅ (d !! n)).
Proof.
  unfold setdefault_add. destruct (decide (n = k)) as [->|].
  - by rewrite lookup_insert_eq.
  - by rewrite lookup_insert_ne.
Qed.

Lemma elem_of_add_edges es node rg n p :
  p ∈ default ∅ (foldl (λ rg e, setdefault_add e node rg) rg es !! n) ↔
  (p ∈ default ∅ (rg !! n)) ∨ (p = node ∧ n ∈ es).
Proof.
  revert rg. induction es as [|e es IH]; intros rg; simpl; [set_solver|].
  rewrite IH, lookup_setdefault_add. case_decide; set_solver.
Qed.

Lemma dom_add_edges es node rg :
  dom (foldl (λ rg e, setdefault_add e node rg) rg es) = dom rg ∪ list_to_set es.
Proof.
  revert rg. induction es as [|e es IH]; intros rg; simpl; [set_solver|].
  rewrite IH. unfold setdefault_add. rewrite dom_insert_L. set_solver.
Qed.

Lemma setdefault_default k d n : default ∅ (setdefault k d !! n) = default ∅ (d !! n).
Proof.
  unfold setdefault. destruct (d !! k) eqn:Hk; [done|].
  destruct (decide (n = k)) as [->|]; [by rewrite lookup_insert_eq, Hk|].
  by rewrite lookup_insert_ne.
Qed.

Lemma dom_setdefault k d : dom (setdefault k d) = {[k]} ∪ dom d.
Proof.
  unfold setdefault. destruct (d !! k) eqn:Hk; [|by rewrite dom_insert_L].
  apply elem_of_dom_2 in Hk. set_solver.
Qed.

Section correct.
Context `{IterOrderOk}.
Context {K : Type} (leK : relation (K * string)) `{!RelDecision leK}.
Context `{!PreOrder leK, !Total leK}.
Context (g : graph) (key : string → result K) (κ : string → K).
Hypothesis key_ok : ∀ n, n ∈ dom g → key n = Ok (κ n).

(** What the first loop leaves: the ready nodes on the heap, and every edge
    reversed. *)
Lemma init_spec l zs rg :
  (∀ n es, (n, es) ∈ l → g !! n = Some es) →
  NoDup zs.*2 → (∀ x, x ∈ zs.*2 → x ∉ l.*1) → NoDup l.*1 →
  (∀ k n, (k, n) ∈ zs → k = κ n) →
  ∃ zs' rg', fold_res (init_node key) l (zs, rg) = Ok (zs', rg') ∧
    NoDup zs'.*2 ∧
    (∀ k n, (k, n) ∈ zs' → k = κ n) ∧
    (∀ n, n ∈ zs'.*2 ↔ n ∈ zs.*2 ∨ (n, ∅) ∈ l) ∧
    (∀ n p, p ∈ default ∅ (rg' !! n) ↔
       (p ∈ default ∅ (rg !! n)) ∨ ∃ es, (p, es) ∈ l ∧ n ∈ es) ∧
    dom rg ∪ list_to_set l.*1 ⊆ dom rg'.
Proof.
  revert zs rg. induction l as [|[node es] l IH]; intros zs rg Hg Hnd Hdis Hl Hk; simpl.
  - exists zs, rg. split_and!; set_solver.
  - assert (Hn : g !! node = Some es) by (apply Hg; by left).
    rewrite key_ok by (by apply elem_of_dom_2 in Hn). simpl.
    apply NoDup_cons in Hl as [Hl1 Hl].
    set (rg1 := foldl _ _ _).
    assert (Hrg1 : ∀ n p, p ∈ default ∅ (rg1 !! n) ↔
      (p ∈ default ∅ (rg !! n)) ∨ (p = node ∧ n ∈ es)).
    { intros n p. unfold rg1. rewrite elem_of_add_edges, setdefault_default.
      by rewrite elem_of_set_iter. }
    assert (Hdom : dom rg1 = {[node]} ∪ dom rg ∪ es).
    { unfold rg1. rewrite dom_add_edges, dom_setdefault. f_equal. apply set_eq. intros x.
      by rewrite elem_of_list_to_set, elem_of_set_iter. }
    assert (Hg' : ∀ n es0, (n, es0) ∈ l → g !! n = Some es0) by (intros; apply Hg; by right).
    assert (Hdis' : ∀ x, x ∈ zs.*2 → x ∉ l.*1) by (intros x Hx Hx'; apply (Hdis x Hx); by right).
    assert (Hnz : node ∉ zs.*2) by (intros Hx; apply (Hdis node Hx); by left).
    clearbody rg1.
    destruct (bool_decide (size es = 0%nat)) eqn:Hes; simpl.
    + apply bool_decide_eq_true, size_empty_inv, leibniz_equiv in Hes. subst es.
      destruct (IH (zs ++ [(κ node, node)]) rg1) as (zs' & rg' & -> & H1 & H2 & H3 & H4 & H5);
        [done| | |done| |].
      * rewrite fmap_app. simpl. apply NoDup_app. split_and!; [done| |apply NoDup_singleton].
        by intros x Hx ->%list_elem_of_singleton.
      * rewrite fmap_app. intros x [Hx| ->%list_elem_of_singleton]%elem_of_app; auto.
      * intros k n [?|[= -> ->]%list_elem_of_singleton]%elem_of_app; auto.
      * clear IH Hg Hg' Hdis Hdis' Hk key_ok. exists zs', rg'. split_and!; [done..| | |].
        -- intros n. rewrite H3, fmap_app, elem_of_app. simpl.
           rewrite list_elem_of_singleton, elem_of_cons. naive_solver.
        -- intros n p. rewrite H4, Hrg1. setoid_rewrite elem_of_cons.
           pose proof (not_elem_of_empty (C:=gset string) n) as He. clear -He. naive_solver.
        -- rewrite Hdom in H5. clear -H5. set_solver.
    + apply bool_decide_eq_false in Hes.
      destruct (IH zs rg1) as (zs' & rg' & -> & H1 & H2 & H3 & H4 & H5); [done..|].
      clear IH Hg Hg' Hdis Hdis' Hk key_ok. exists zs', rg'. split_and!; [done..| | |].
      * intros n. rewrite H3, elem_of_cons. split; [naive_solver|].
        intros [?|[[= -> <-]|?]]; [by left| |by right]. by rewrite size_empty in Hes.
      * intros n p. rewrite H4, Hrg1. setoid_rewrite elem_of_cons. clear. naive_solver.
      * rewrite Hdom in H5. clear -H5. set_solver.
Qed.

(** What holds between iterations of the main loop: the edges to finished nodes are
    gone, and the heap holds the ready nodes. *)
Record loop_inv (taken : gset string) (od : graph) (zs : list (K * string)) : Prop := {
  inv_od : ∀ n, od !! n = (λ es, es ∖ taken) <$> g !! n;
  inv_nodup : NoDup zs.*2;
  inv_key : ∀ k n, (k, n) ∈ zs → k = κ n;
  inv_ready : ∀ n, n ∈ zs.*2 ↔ ready g taken n;
  inv_closed : ∀ n es, n ∈ taken → g !! n = Some es → es ⊆ taken
}.

(** The same in the middle of the loop over the parents of [node]: those in [done]
    have lost their edge to it. *)
Record parents_inv (taken : gset string) (node : string) (done : gset string)
    (od : graph) (zs : list (K * string)) : Prop := {
  pinv_od : ∀ n, od !! n =
    (λ es, es ∖ (if decide (n ∈ done) then {[node]} ∪ taken else taken)) <$> g !! n;
  pinv_nodup : NoDup zs.*2;
  pinv_key : ∀ k n, (k, n) ∈ zs → k = κ n;
  pinv_ready : ∀ n, n ∈ zs.*2 ↔
    (ready g taken n ∧ n ≠ node) ∨ (n ∈ done ∧ ready g ({[node]} ∪ taken) n)
}.

Lemma size_empty_iff (X : gset string) : bool_decide (size X = 0%nat) = bool_decide (X = ∅).
Proof. apply bool_decide_ext. rewrite size_empty_iff. apply leibniz_equiv_iff. Qed.

Lemma visit_parent_inv taken node done od zs p es :
  ready g taken node → (∀ n es, n ∈ taken → g !! n = Some es → es ⊆ taken) →
  parents_inv taken node done od zs →
  g !! p = Some es → node ∈ es → p ∉ done →
  ∃ od' zs', visit_parent key node (od, zs) p = Ok (od', zs') ∧
    parents_inv taken node ({[p]} ∪ done) od' zs'.
Proof.
  intros [Hnt (esn & Hgn & Hesn)] Hcl [Hod Hnd Hk Hr] Hp Hin Hdone.
  assert (Hpt : p ∉ taken) by (intros Hpt; apply Hnt; by apply (Hcl p es)).
  assert (Hpn : p ≠ node) by (intros ->; simplify_eq; set_solver).
  assert (Hpz : p ∉ zs.*2).
  { rewrite Hr. intros [[[_ (es' & Hes' & Hsub)] _]|[? _]]; [|done]. simplify_eq. set_solver. }
  unfold visit_parent, getitem. rewrite Hod, Hp. simpl. rewrite decide_False by done.
  rewrite size_empty_iff.
  assert (Hod' : ∀ n, <[p := es ∖ taken ∖ {[node]}]> od !! n =
    (λ es, es ∖ (if decide (n ∈ {[p]} ∪ done) then {[node]} ∪ taken else taken)) <$> g !! n).
  { intros n. destruct (decide (n = p)) as [->|Hne].
    - rewrite lookup_insert_eq, Hp. simpl. rewrite decide_True by set_solver.
      f_equal. set_solver.
    - rewrite lookup_insert_ne, Hod by done. destruct (g !! n); simpl; [|done].
      repeat case_decide; set_solver. }
  rewrite key_ok by (by apply elem_of_dom_2 in Hp). simpl.
  assert (Hrp : ready g ({[node]} ∪ taken) p ↔ es ∖ taken ∖ {[node]} = ∅).
  { unfold ready. rewrite Hp. split.
    - intros [_ (es' & [= <-] & Hsub)]. set_solver.
    - intros He. split; [set_solver|]. exists es. split; [done|]. intros x Hx.
      destruct (decide (x = node)) as [->|]; [set_solver|].
      destruct (decide (x ∈ taken)); [set_solver|].
      assert (x ∈ es ∖ taken ∖ {[node]}) as Hx' by set_solver. rewrite He in Hx'. set_solver. }
  case_bool_decide as He.
  - eexists _, _. split; [done|]. split; [done| | |].
    + simpl. by constructor.
    + intros k n [[= -> ->]|?]%elem_of_cons; auto.
    + intros n. unfold heappush. simpl. rewrite elem_of_cons, Hr. clear -Hrp He. set_solver.
  - eexists _, _. split; [done|]. split; [done..|].
    intros n. rewrite Hr. clear -Hrp He. set_solver.
Qed.

Lemma visit_parents_inv taken node ps done od zs :
  ready g taken node → (∀ n es, n ∈ taken → g !! n = Some es → es ⊆ taken) →
  parents_inv taken node done od zs →
  NoDup ps → (∀ p, p ∈ ps → (p ∉ done) ∧ ∃ es, g !! p = Some es ∧ node ∈ es) →
  ∃ od' zs', fold_res (visit_parent key node) ps (od, zs) = Ok (od', zs') ∧
    parents_inv taken node (list_to_set ps ∪ done) od' zs'.
Proof.
  intros Hr Hcl. revert done od zs.
  induction ps as [|p ps IH]; intros done od zs Hinv Hnd Hps; simpl.
  - exists od, zs. split; [done|]. by rewrite (left_id_L ∅ (∪)).
  - apply NoDup_cons in Hnd as [Hp Hnd].
    destruct (Hps p) as [Hd (es & Hes & Hin)]; [by left|].
    destruct (visit_parent_inv _ _ _ _ _ _ _ Hr Hcl Hinv Hes Hin Hd) as (od' & zs' & -> & Hinv').
    simpl. destruct (IH _ _ _ Hinv' Hnd) as (od2 & zs2 & -> & Hinv2).
    + intros q Hq. destruct (Hps q) as [Hqd Hqe]; [by right|]. split; [|done].
      intros [->%elem_of_singleton|?]%elem_of_union; done.
    + exists od2, zs2. split; [done|].
      by replace ({[p]} ∪ list_to_set ps ∪ done) with (list_to_set ps ∪ ({[p]} ∪ done))
        by set_solver.
Qed.

(** One iteration of the main loop. *)
Lemma loop_step taken od zs rg k node zs1 :
  loop_inv taken od zs →
  (∀ n p, p ∈ default ∅ (rg !! n) ↔ ∃ es, g !! p = Some es ∧ n ∈ es) →
  dom g ⊆ dom rg →
  heappop leK zs = Some ((k, node), zs1) →
  ready g taken node ∧ (∀ m, ready g taken m → leK (κ node, node) (κ m, m)) ∧
  ∃ od' zs', (parents ← getitem rg node;
              fold_res (visit_parent key node) (set_iter parents) (od, zs1)) = Ok (od', zs') ∧
    loop_inv ({[node]} ∪ taken) od' zs'.
Proof.
  intros [Hod Hnd Hk Hr Hcl] Hrg Hdom Hpop.
  apply heappop_some in Hpop as [Hperm Hmin]; [|done..].
  assert (Hz2 : zs.*2 ≡ₚ node :: zs1.*2) by (by rewrite Hperm).
  assert (Hzs1 : ∀ x, x ∈ zs1 → x ∈ zs) by (intros x Hx; rewrite Hperm; by right).
  assert (k = κ node) as -> by (apply Hk; rewrite Hperm; by left).
  assert (Hready : ready g taken node) by (apply Hr; rewrite Hz2; by left).
  rewrite Hz2 in Hnd. apply NoDup_cons in Hnd as [Hn1 Hnd1].
  split; [done|]. split.
  { intros m Hm%Hr. apply list_elem_of_fmap in Hm as ([k' m'] & -> & Hin). simpl.
    pose proof (Hk _ _ Hin) as ->. by apply Hmin. }
  destruct Hready as [Hnt (esn & Hgn & Hesn)].
  assert (is_Some (rg !! node)) as [ps Hps].
  { apply elem_of_dom, Hdom, elem_of_dom. eauto. }
  unfold getitem. rewrite Hps. simpl.
  specialize (Hrg node). rewrite Hps in Hrg. simpl in Hrg.
  destruct (visit_parents_inv taken node (set_iter ps) ∅ od zs1) as (od' & zs' & -> & Hinv).
  - split; eauto.
  - done.
  - split; [|done|by auto|].
    + intros n. rewrite Hod. by rewrite decide_False by set_solver.
    + intros n. rewrite <- Hr, Hz2, elem_of_cons. clear -Hn1. set_solver.
  - apply NoDup_set_iter.
  - intros p Hp%elem_of_set_iter%Hrg. split; [set_solver|done].
  - exists od', zs'. split; [done|]. destruct Hinv as [Pod Pnd Pk Pr]. split; [|done|done| |].
    + intros n. rewrite Pod. destruct (g !! n) as [es|] eqn:Hes; simpl; [|done]. f_equal.
      case_decide as Hd; [done|]. rewrite (right_id_L ∅ (∪)), elem_of_list_to_set, elem_of_set_iter, Hrg in Hd.
      assert (node ∉ es) by naive_solver. set_solver.
    + intros n. rewrite Pr, (right_id_L ∅ (∪)), elem_of_list_to_set, elem_of_set_iter, Hrg.
      unfold ready. split.
      * intros [[[Hnn (es & Hes & Hsub)] Hne]|[_ Hn]]; [|done]. split; [set_solver|].
        exists es. split; [done|set_solver].
      * intros [Hnn (es & Hes & Hsub)]. destruct (decide (node ∈ es)) as [Hin|Hin]; [right|left].
        -- split; [eauto|]. split; [done|eauto].
        -- split; [|set_solver]. split; [set_solver|]. exists es. split; [done|set_solver].
    + intros n es Hn Hes. apply elem_of_union in Hn as [->%elem_of_singleton|Hn].
      * simplify_eq. set_solver.
      * specialize (Hcl n es Hn Hes). set_solver.
Qed.

Lemma sort_loop_greedy fuel rg taken od zs :
  loop_inv taken od zs →
  (∀ n p, p ∈ default ∅ (rg !! n) ↔ ∃ es, g !! p = Some es ∧ n ∈ es) →
  dom g ⊆ dom rg → (size (dom g ∖ taken) < fuel)%nat →
  ∃ l, sort_loop leK fuel key rg od zs = Some (Ok l) ∧ greedy leK g κ taken l.
Proof.
  intros Hinv Hrg Hdom. revert taken od zs Hinv.
  induction fuel as [|fuel IH]; intros taken od zs Hinv Hfuel; [lia|]. simpl.
  destruct (heappop leK zs) as [[[k node] zs1]|] eqn:Hpop.
  - destruct (loop_step _ _ _ _ _ _ _ Hinv Hrg Hdom Hpop)
      as (Hready & Hmin & od' & zs' & -> & Hinv').
    destruct (IH _ _ _ Hinv') as (l & -> & Hl).
    + destruct Hready as [Hnt (es & Hes & _)]. apply elem_of_dom_2 in Hes.
      assert (Hlt : dom g ∖ ({[node]} ∪ taken) ⊂ dom g ∖ taken) by set_solver.
      apply subset_size in Hlt. lia.
    + exists (node :: l). split; [done|]. by constructor.
  - apply heappop_none in Hpop as ->. exists []. split; [done|]. constructor.
    intros n Hn%(inv_ready _ _ _ Hinv). by apply not_elem_of_nil in Hn.
Qed.

Lemma lexicographical_topological_sort_greedy :
  ∃ l, lexicographical_topological_sort leK g key = Some (Ok l) ∧ greedy leK g κ ∅ l.
Proof.
  unfold lexicographical_topological_sort.
  assert (Hitems : ∀ n es, (n, es) ∈ dict_items g ↔ g !! n = Some es)
    by (intros; by rewrite dict_items_perm, elem_of_map_to_list).
  destruct (init_spec (dict_items g) [] ∅) as (zs & rg & -> & H1 & H2 & H3 & H4 & H5).
  - by intros n es ?%Hitems.
  - constructor.
  - by intros x ?%not_elem_of_nil.
  - rewrite dict_items_perm. apply NoDup_fst_map_to_list.
  - by intros k n ?%not_elem_of_nil.
  - apply sort_loop_greedy.
    + split; [|done|done| |].
      * intros n. destruct (g !! n) as [es|]; simpl; [|done]. f_equal. set_solver.
      * intros n. rewrite H3, Hitems. unfold ready. split.
        -- intros [?%not_elem_of_nil|?]; [done|]. split; [set_solver|eauto].
        -- intros [_ (es & Hes & Hsub)]. right. rewrite Hes. f_equal. set_solver.
      * set_solver.
    + intros n p. rewrite H4, lookup_empty. setoid_rewrite Hitems. simpl. set_solver.
    + intros n [es Hes]%elem_of_dom. apply H5. apply elem_of_union_r, elem_of_list_to_set.
      apply list_elem_of_fmap. exists (n, es). by rewrite Hitems.
    + assert (size (dom g ∖ ∅) ≤ size (dom g))%nat as Hsz by (apply subseteq_size; set_solver).
      rewrite (size_dom g) in Hsz. lia.
Qed.
End correct.

(** ** Properties *)

(** On an acyclic graph whose edges stay inside it, the lexicographic
    topological sort ends and returns one list, the same whatever order sets and
    dicts are iterated in: every node once, after everything it points to, and at
    each place the least of the nodes that could stand there. *)
Theorem topological_sort_correct {K} (leK : relation (K * string)) `{!RelDecision leK}
    `{!PartialOrder leK, !Total leK} (g : graph) (key : string → result K) (κ : string → K)
    (rank : string → nat) :
  (∀ n, n ∈ dom g → key n = Ok (κ n)) →
  (∀ n es m, g !! n = Some es → m ∈ es → m ∈ dom g ∧ (rank m < rank n)%nat) →
  ∃ l, (∀ o : IterOrder, IterOrderOk o →
          lexicographical_topological_sort leK g key = Some (Ok l)) ∧
    l ≡ₚ elements (dom g) ∧
    ∀ l1 n l2, l = l1 ++ n :: l2 →
      (∀ es m, g !! n = Some es → m ∈ es → m ∈ l1) ∧
      (∀ m, ready g (list_to_set l1) m → leK (κ n, n) (κ m, m)).
Proof.
  intros Hkey Hrank.
  destruct (lexicographical_topological_sort_greedy leK g key κ Hkey) as (l & _ & Hl).
  exists l. split; [|split].
  - intros o Ho. destruct (lexicographical_topological_sort_greedy leK g key κ Hkey)
      as (l' & -> & Hl'). by rewrite (greedy_unique leK g κ ∅ l l').
  - by eapply greedy_complete.
  - intros l1 n l2 Heq. split.
    + intros es m Hes Hm. destruct (greedy_edges_before _ _ _ _ _ _ _ _ _ _ Hl Heq Hes Hm);
        [set_solver|done].
    + intros m Hm. eapply (greedy_least leK g κ ∅ l); [done..|]. by rewrite (right_id_L ∅ (∪)).
Qed.
