(* ===== verification/IterUtils.v ===== *)
(** * Helpers on iterables: [synapse/util/iterutils.py]

    Batches, partitions and the two topological sorts.  A sort visits every node once at
    most, so that the number of nodes bounds its rounds; the theorems show that it is
    enough. *)

From S2P Require Import Prelude TopoSort.

(** ** Batches *)

(** [batch_iter], for a size that is not zero. *)
Fixpoint batches {A} (fuel size : nat) (l : list A) : list (list A) :=
  match fuel, l with
  | S fuel, _ :: _ => take size l :: batches fuel size (drop size l)
  | _, _ => []
  end.
Definition batch_iter {A} (l : list A) (size : nat) : list (list A) := batches (length l) size l.

(** [chunk_seq]: slices from the multiples of [maxlen]. *)
Definition chunk_seq {A} (iseq : list A) (maxlen : nat) : list (list A) :=
  (λ i, take maxlen (drop i iseq)) <$> filter (λ i, (i mod maxlen = 0)%nat) (seq 0 (length iseq)).

Definition partition {A} (l : list A) (predicate : A → bool) : list A * list A :=
  foldl (λ r x, if predicate x then (r.1 ++ [x], r.2) else (r.1, r.2 ++ [x])) ([], []) l.

(** ** Topological sorts *)

Section sort.
Context `{IterOrder}.

(** [degree_map] and [reverse_graph], for one edge and for one node of the graph. *)
Definition count_edge (node : string) (st : gmap string Z * graph) (edge : string) : gmap string Z * graph :=
  let '(degree_map, reverse_graph) := st in
  (if bool_decide (edge ∈ dom degree_map) then alter (λ d, d + 1) node degree_map else degree_map,
   setdefault_add edge node reverse_graph).

Definition count_edges (st : gmap string Z * graph) (ne : string * list string) : gmap string Z * graph :=
  let '(node, edges) := ne in
  if bool_decide (node ∈ dom st.1) then
    let '(degree_map, reverse_graph) := foldl (count_edge node) st (set_iter (list_to_set edges)) in
    (degree_map, setdefault node reverse_graph)
  else st.

Definition degrees (nodes : gset string) (g : gmap string (list string)) : gmap string Z * graph :=
  foldl count_edges (gset_to_gmap 0 nodes, ∅) (dict_items g).

Definition zero_degrees (degree_map : gmap string Z) : list string :=
  (filter (λ nd, nd.2 = 0) (dict_items degree_map)).*1.

(** A node is done: those that point to it have one edge less. *)
Definition drop_edge (push : list string → string → list string) (st : gmap string Z * list string) (edge : string)
    : gmap string Z * list string :=
  let '(degree_map, zero_degree) := st in
  match degree_map !! edge with
  | None => st
  | Some d => (<[edge := d - 1]> degree_map, if bool_decide (d - 1 = 0) then push zero_degree edge else zero_degree)
  end.

Fixpoint sorted_loop (fuel : nat) (reverse_graph : graph) (degree_map : gmap string Z) (zero_degree : list string) : list string :=
  match fuel, heappop String.le zero_degree with
  | S fuel, Some (node, zero_degree) =>
      let '(degree_map, zero_degree) :=
        foldl (drop_edge heappush) (degree_map, zero_degree) (set_iter (default ∅ (reverse_graph !! node))) in
      node :: sorted_loop fuel reverse_graph degree_map zero_degree
  | _, _ => []
  end.

Definition sorted_topologically (nodes : gset string) (g : gmap string (list string)) : list string :=
  let '(degree_map, reverse_graph) := degrees nodes g in
  sorted_loop (size nodes) reverse_graph degree_map (zero_degrees degree_map).

(** All nodes whose turn it is at once. *)
Definition list_append (l : list string) (x : string) : list string := l ++ [x].
Fixpoint batched_loop (fuel : nat) (reverse_graph : graph) (degree_map : gmap string Z) (zero_degree : list string) : list (list string) :=
  match fuel, zero_degree with
  | S fuel, _ :: _ =>
      let '(degree_map, new_zero_degree) :=
        foldl (λ st node, foldl (drop_edge list_append) st (set_iter (default ∅ (reverse_graph !! node)))) (degree_map, []) zero_degree in
      zero_degree :: batched_loop fuel reverse_graph degree_map new_zero_degree
  | _, _ => []
  end.

Definition sorted_topologically_batched (nodes : gset string) (g : gmap string (list string)) : list (list string) :=
  let '(degree_map, reverse_graph) := degrees nodes g in
  batched_loop (size nodes) reverse_graph degree_map (zero_degrees degree_map).
End sort.

(** ** Batches and partitions *)

Lemma batches_spec {A} (fuel n : nat) (l : list A) :
  (0 < n)%nat → (length l ≤ fuel)%nat → concat (batches fuel n l) = l ∧ Forall (λ b, b ≠ [] ∧ (length b ≤ n)%nat) (batches fuel n l).
Proof.
  intros Hn. revert l. induction fuel as [|fuel IH]; intros [|x l] Hl; simpl in *; try (by split; [|constructor]); [lia|].
  destruct n as [|n]; [lia|]. destruct (IH (drop (S n) (x :: l))) as [IH1 IH2]; [rewrite length_drop; simpl; lia|]. split.
  - simpl in *. rewrite IH1. f_equal. by rewrite take_drop.
  - constructor; [|exact IH2]. split; [done|]. rewrite length_take. simpl. lia.
Qed.

Lemma batch_iter_concat {A} (l : list A) n : (0 < n)%nat → concat (batch_iter l n) = l.
Proof. intros Hn. by apply batches_spec. Qed.

Lemma elem_of_batch {A} (l : list A) n b x : (0 < n)%nat → b ∈ batch_iter l n → x ∈ b → x ∈ l.
Proof. intros Hn Hb Hx. rewrite <- (batch_iter_concat l n Hn). apply list_elem_of_In, in_concat. exists b. split; by apply list_elem_of_In. Qed.

Lemma partition_spec {A} (l : list A) p : partition l p = (filter (λ x, p x = true) l, filter (λ x, p x = false) l).
Proof.
  unfold partition. enough (Hg : ∀ a b, foldl (λ r x, if p x then (r.1 ++ [x], r.2) else (r.1, r.2 ++ [x])) (a, b) l =
    (a ++ filter (λ x, p x = true) l, b ++ filter (λ x, p x = false) l)) by apply Hg.
  induction l as [|x l IH]; intros a b; simpl; [by rewrite !app_nil_r|].
  rewrite !filter_cons. destruct (p x) eqn:E; simpl; rewrite IH; repeat case_decide; try done; by rewrite <- app_assoc.
Qed.

(** ** The sorts meet the specification of [TopoSort] *)

(** The part of the graph between the nodes. *)
Definition between (nodes : gset string) (g : gmap string (list string)) : graph :=
  set_to_map (λ n, (n, list_to_set (default [] (g !! n)) ∩ nodes)) nodes.

Definition le_node (a b : unit * string) : Prop := String.le a.2 b.2.

Lemma lookup_between nodes g n :
  between nodes g !! n = if decide (n ∈ nodes) then Some (list_to_set (default [] (g !! n)) ∩ nodes) else None.
Proof.
  apply option_eq. intros es. unfold between. rewrite lookup_set_to_map by (by intros ? ? _ _ [= ->]). case_decide; naive_solver.
Qed.

Lemma dom_between nodes g : dom (between nodes g) = nodes.
Proof. apply set_eq. intros n. rewrite elem_of_dom, lookup_between. case_decide; [split; [done|by eexists]|split; [by intros []|done]]. Qed.

Section correct.
Context `{IterOrderOk}.
Implicit Types (nodes taken X : gset string) (g : gmap string (list string)) (rg : graph) (dm : gmap string Z).

(** ** Counting *)

(** What [degrees] computes. *)
Record counted nodes g dm rg : Prop := {
  ct_degree n : dm !! n = if decide (n ∈ nodes) then Some (Z.of_nat (size ((list_to_set (default [] (g !! n)) : gset string) ∩ nodes))) else None;
  ct_reverse n p : p ∈ default ∅ (rg !! n) ↔ p ∈ nodes ∧ n ∈ default [] (g !! p)
}.

Lemma count_edge_fold node es dm rg :
  NoDup es →
  let '(dm', rg') := foldl (count_edge node) (dm, rg) es in
  (∀ n, dm' !! n = if decide (n = node) then (λ d, d + Z.of_nat (length (filter (λ e, e ∈ dom dm) es))) <$> dm !! n else dm !! n) ∧
  (∀ n p, p ∈ default ∅ (rg' !! n) ↔ p ∈ default ∅ (rg !! n) ∨ (p = node ∧ n ∈ es)).
Proof.
  intros Hnd. revert dm rg. induction es as [|e es IH]; intros dm rg.
  { split; [|set_solver]. intros n. simpl. case_decide; [|done]. destruct (dm !! n); simpl; [f_equal; lia|done]. }
  apply NoDup_cons in Hnd as [_ Hnd]. cbn [foldl]. unfold count_edge at 2.
  set (dm1 := if bool_decide (e ∈ dom dm) then _ else _). specialize (IH Hnd dm1 (setdefault_add e node rg)).
  destruct (foldl _ _ _) as [dm' rg']. destruct IH as [I1 I2].
  assert (Hdom : dom dm1 = dom dm) by (unfold dm1; case_bool_decide; [apply dom_alter_L|done]). split.
  - intros n. rewrite I1, Hdom, filter_cons. case_decide as Hn.
    + subst n. unfold dm1. destruct (decide (e ∈ dom dm)) as [He|He].
      * rewrite bool_decide_true, lookup_alter_eq by done. destruct (dm !! node); simpl; [f_equal; lia|done].
      * by rewrite bool_decide_false.
    + unfold dm1. case_bool_decide; [by rewrite lookup_alter_ne by done|done].
  - intros n p. rewrite I2, lookup_setdefault_add, elem_of_cons. case_decide; set_solver.
Qed.

Lemma filter_size (X Y : gset string) : length (filter (λ e, e ∈ Y) (set_iter X)) = size (X ∩ Y).
Proof.
  rewrite <- (size_list_to_set (C := gset string)).
  - f_equal. apply set_eq. intros x. rewrite elem_of_list_to_set, list_elem_of_filter, elem_of_set_iter. set_solver.
  - apply NoDup_filter, NoDup_set_iter.
Qed.

Lemma degrees_spec nodes g : counted nodes g (degrees nodes g).1 (degrees nodes g).2.
Proof.
  unfold degrees.
  assert (Hgen : ∀ l dm rg, NoDup l.*1 → (∀ n es, (n, es) ∈ l → g !! n = Some es) →
    dom dm = nodes → (∀ n, n ∈ l.*1 → n ∈ nodes → dm !! n = Some 0) →
    let '(dm', rg') := foldl count_edges (dm, rg) l in
    (∀ n, dm' !! n = if decide (n ∈ l.*1 ∧ n ∈ nodes) then Some (Z.of_nat (size ((list_to_set (default [] (g !! n)) : gset string) ∩ nodes))) else dm !! n) ∧
    (∀ n p, p ∈ default ∅ (rg' !! n) ↔ p ∈ default ∅ (rg !! n) ∨ (p ∈ l.*1 ∧ p ∈ nodes ∧ n ∈ default [] (g !! p)))).
  { induction l as [|[node es] l IH]; intros dm rg Hnd Hl Hdom Hz; cbn [foldl].
    { split; [|set_solver]. intros n. by rewrite decide_False by (intros [[]%not_elem_of_nil _]). }
    apply NoDup_cons in Hnd as [Hn Hnd]. pose proof (Hl node es ltac:(by left)) as Hg. unfold count_edges at 2. cbn [fst snd]. rewrite Hdom.
    destruct (decide (node ∈ nodes)) as [Hin|Hout].
    - rewrite bool_decide_true by done. pose proof (count_edge_fold node (set_iter (list_to_set es)) dm rg (NoDup_set_iter _)) as Hf.
      destruct (foldl (count_edge node) _ _) as [dm1 rg1]. destruct Hf as [F1 F2].
      assert (Hd1 : dom dm1 = nodes).
      { rewrite <- Hdom. apply set_eq. intros n. rewrite !elem_of_dom, F1. case_decide; [|done]. destruct (dm !! n); split; intros [? ?]; try done; by eexists. }
      specialize (IH dm1 (setdefault node rg1) Hnd ltac:(intros; apply Hl; by right) Hd1).
      destruct (foldl count_edges _ _) as [dm' rg']. destruct IH as [I1 I2].
      { intros n Hnl Hnn. rewrite F1, decide_False by (intros ->; done). apply Hz; [by right|done]. }
      split.
      + intros n. rewrite I1. destruct (decide (n = node)) as [->|Hne].
        * rewrite decide_False by (by intros [? ?]). rewrite F1, decide_True by done. rewrite (decide_True (P := node ∈ _ ∧ _)) by (split; [by left|done]).
          rewrite (Hz node) by (first [done|by left]). rewrite filter_size, Hdom, Hg. simpl. f_equal.
        * rewrite F1, (decide_False (P := n = node)) by done. apply decide_ext. rewrite fmap_cons, elem_of_cons. naive_solver.
      + intros n p. rewrite I2, setdefault_default, F2, elem_of_set_iter, elem_of_list_to_set, fmap_cons, elem_of_cons. simpl. split.
        * intros [[?|[-> Hn']]|(? & ? & ?)]; [by left| |right; split_and!; [by right|done|done]]. right. split; [by left|]. by rewrite Hg.
        * intros [?|([->|?] & ? & Hp)]; [by left; left| |by right]. left. right. split; [done|]. by rewrite Hg in Hp.
    - rewrite bool_decide_false by done. specialize (IH dm rg Hnd ltac:(intros; apply Hl; by right) Hdom ltac:(intros; apply Hz; [by right|done])).
      destruct (foldl count_edges _ _) as [dm' rg']. destruct IH as [I1 I2]. split.
      + intros n. rewrite I1. apply decide_ext. rewrite fmap_cons, elem_of_cons. simpl. naive_solver.
      + intros n p. rewrite I2, fmap_cons, elem_of_cons. simpl. naive_solver. }
  specialize (Hgen (dict_items g) (gset_to_gmap 0 nodes) ∅). destruct (foldl count_edges _ _) as [dm rg].
  assert (Hit : ∀ n es, (n, es) ∈ dict_items g ↔ g !! n = Some es) by (intros; by rewrite dict_items_perm, elem_of_map_to_list).
  assert (Hdm : ∀ n, n ∈ (dict_items g).*1 ↔ is_Some (g !! n)).
  { intros n. rewrite list_elem_of_fmap. split; [intros ([? es] & -> & Hx%Hit); by eexists|intros [es Hx%Hit]; by exists (n, es)]. }
  destruct Hgen as [G1 G2]; [rewrite dict_items_perm; apply NoDup_fst_map_to_list|by intros n es ?%Hit|apply dom_gset_to_gmap| |].
  { intros n _ Hn. by apply lookup_gset_to_gmap_Some. }
  constructor; simpl.
  - intros n. rewrite G1. destruct (decide (n ∈ nodes)) as [Hn|Hn]; [|rewrite decide_False by tauto; by apply lookup_gset_to_gmap_None].
    case_decide as Hd; [done|]. rewrite Hdm in Hd. destruct (g !! n) as [es|] eqn:E; [destruct Hd; split; [by eexists|done]|]. simpl.
    rewrite (left_absorb_L ∅ (∩)), size_empty. by apply lookup_gset_to_gmap_Some.
  - intros n p. rewrite G2, lookup_empty, Hdm. simpl. destruct (g !! p) as [es|]; simpl; [|set_solver]. split; [set_solver|]. intros [? ?]. right. by split_and!.
Qed.
(** ** Rounds *)

Lemma drop_edges (push : list string → string → list string) ps dm zs :
  (∀ l x, push l x ≡ₚ x :: l) → NoDup ps → (∀ p, p ∈ ps → is_Some (dm !! p)) →
  let '(dm', zs') := foldl (drop_edge push) (dm, zs) ps in
  (∀ n, dm' !! n = if decide (n ∈ ps) then (λ d, d - 1) <$> dm !! n else dm !! n) ∧
  zs' ≡ₚ filter (λ p, dm !! p = Some 1) ps ++ zs.
Proof.
  intros Hpush. revert dm zs. induction ps as [|p ps IH]; intros dm zs Hnd Hp; cbn [foldl].
  { split; [|done]. intros n. by rewrite decide_False by (apply not_elem_of_nil). }
  apply NoDup_cons in Hnd as [Hnp Hnd]. destruct (Hp p ltac:(by left)) as [d Hd]. unfold drop_edge at 2. rewrite Hd.
  match goal with |- context [foldl _ (?a, ?b) ps] => specialize (IH a b Hnd) end.
  destruct (foldl _ _ _) as [dm' zs']. destruct IH as [I1 I2].
  { intros q Hq. rewrite lookup_insert_ne by (by intros ->). apply Hp. by right. }
  split.
  - intros n. rewrite I1. destruct (decide (n = p)) as [->|Hne].
    + rewrite decide_False by done. rewrite decide_True by (by left). by rewrite lookup_insert_eq, Hd.
    + rewrite lookup_insert_ne by done. apply decide_ext. rewrite elem_of_cons. naive_solver.
  - rewrite I2, filter_cons. rewrite (filter_same _ (λ q, dm !! q = Some 1)).
    2:{ intros q Hq. by rewrite lookup_insert_ne by (by intros ->). }
    destruct (decide (dm !! p = Some 1)) as [E|E].
    + rewrite bool_decide_true by (rewrite Hd in E; injection E; lia). rewrite Hpush. symmetry. apply Permutation_middle.
    + by rewrite bool_decide_false by (intros ?; apply E; rewrite Hd; f_equal; lia).
Qed.

Section rounds.
Context (nodes : gset string) (g : gmap string (list string)).
Abbreviation G := (between nodes g).

Definition degree_inv taken dm : Prop := ∀ n, dm !! n = (λ es, Z.of_nat (size (es ∖ taken))) <$> G !! n.
Definition closed taken : Prop := ∀ n es, n ∈ taken → G !! n = Some es → es ⊆ taken.

Lemma between_edge n es m : G !! n = Some es → m ∈ es ↔ m ∈ default [] (g !! n) ∧ m ∈ nodes.
Proof. rewrite lookup_between. case_decide; [|done]. intros [= <-]. by rewrite elem_of_intersection, elem_of_list_to_set. Qed.

(** A node is done. *)
Lemma round push taken dm rg zs node :
  (∀ l x, push l x ≡ₚ x :: l) → (∀ n p, p ∈ default ∅ (rg !! n) ↔ p ∈ nodes ∧ n ∈ default [] (g !! p)) →
  degree_inv taken dm → closed taken → ready G taken node →
  let '(dm', zs') := foldl (drop_edge push) (dm, zs) (set_iter (default ∅ (rg !! node))) in
  degree_inv ({[node]} ∪ taken) dm' ∧ closed ({[node]} ∪ taken) ∧
  ∃ newly, zs' ≡ₚ newly ++ zs ∧ NoDup newly ∧ ∀ n, n ∈ newly ↔ ready G ({[node]} ∪ taken) n ∧ ¬ ready G taken n.
Proof.
  intros Hpush Hrg Hdm Hcl [Hnt (esn & Hesn & Hsn)]. set (ps := set_iter (default ∅ (rg !! node))).
  assert (Hnode : node ∈ nodes) by (rewrite <- (dom_between nodes g); by eapply elem_of_dom_2).
  assert (Hps : ∀ p, p ∈ ps ↔ ∃ es, G !! p = Some es ∧ node ∈ es).
  { intros p. unfold ps. rewrite elem_of_set_iter, Hrg. split.
    - intros [Hp Hn]. exists (list_to_set (default [] (g !! p)) ∩ nodes). rewrite lookup_between, decide_True by done. split; [done|]. set_solver.
    - intros (es & Hes & Hin). apply (between_edge p es node Hes) in Hin as [? _]. split; [|done]. rewrite <- (dom_between nodes g). by eapply elem_of_dom_2. }
  assert (Hold : ∀ p es, p ∈ ps → G !! p = Some es → node ∈ es ∧ (p ∉ taken) ∧ p ≠ node).
  { intros p es (es' & Hes' & Hin)%Hps Hes. rewrite Hes in Hes'. injection Hes' as <-. split_and!; [done| |].
    - intros Hp. by apply Hnt, (Hcl p es).
    - intros ->. rewrite Hesn in Hes. injection Hes as <-. by apply Hnt, Hsn. }
  pose proof (drop_edges push ps dm zs Hpush (NoDup_set_iter _)) as Hd. destruct (foldl _ _ _) as [dm' zs']. destruct Hd as [D1 D2].
  { intros p (es & Hes & _)%Hps. rewrite Hdm, Hes. by eexists. }
  split_and!.
  - intros n. rewrite D1, Hdm. destruct (G !! n) as [es|] eqn:Hes; simpl; [|by case_decide]. case_decide as Hn; simpl; f_equal.
    + destruct (Hold n es Hn Hes) as (Hin & _ & _).
      assert (Hsz : size (es ∖ taken) = S (size (es ∖ ({[node]} ∪ taken)))).
      { replace (es ∖ taken) with ({[node]} ∪ es ∖ ({[node]} ∪ taken)).
        - rewrite size_union by set_solver. by rewrite size_singleton.
        - apply set_eq. intros x. destruct (decide (x = node)); set_solver. }
      lia.
    + do 2 f_equal. assert (node ∉ es) by (intros ?; apply Hn, Hps; eauto). set_solver.
  - intros n es [->%elem_of_singleton|Hn]%elem_of_union Hes; [rewrite Hesn in Hes; injection Hes as <-; set_solver|].
    specialize (Hcl n es Hn Hes). set_solver.
  - exists (filter (λ p, dm !! p = Some 1) ps). split_and!; [done|apply NoDup_filter, NoDup_set_iter|].
    intros n. rewrite list_elem_of_filter, Hdm. split.
    + intros [E Hn]. pose proof Hn as (es & Hes & _)%Hps. rewrite Hes in E. injection E as E. destruct (Hold n es Hn Hes) as (Hin & Hn1 & Hn2).
      assert (Hone : es ∖ taken = {[node]}).
      { assert (E1 : size (es ∖ taken) = 1%nat) by lia. apply size_1_elem_of in E1 as [x Hx]. apply leibniz_equiv in Hx.
        assert (Hx1 : node ∈ es ∖ taken) by set_solver. rewrite Hx in *. set_solver. }
      split.
      * split; [set_solver|]. exists es. split; [done|]. intros x Hx. destruct (decide (x ∈ taken)); [set_solver|].
        assert (Hx1 : x ∈ es ∖ taken) by set_solver. rewrite Hone in Hx1. set_solver.
      * intros [_ (es' & Hes' & Hsub)]. rewrite Hes in Hes'. injection Hes' as <-. set_solver.
    + intros [[Hn1 (es & Hes & Hsub)] Hnr]. assert (Hin : node ∈ es).
      { destruct (decide (node ∈ es)); [done|]. destruct Hnr. split; [set_solver|]. exists es. split; [done|set_solver]. }
      rewrite Hes. split; [|apply Hps; eauto]. simpl. replace (es ∖ taken) with ({[node]} : gset string) by set_solver. by rewrite size_singleton.
Qed.

Lemma sorted_loop_greedy fuel taken dm rg zs :
  (∀ n p, p ∈ default ∅ (rg !! n) ↔ p ∈ nodes ∧ n ∈ default [] (g !! p)) →
  degree_inv taken dm → closed taken → NoDup zs → (∀ n, n ∈ zs ↔ ready G taken n) → (size (nodes ∖ taken) ≤ fuel)%nat →
  greedy le_node G (λ _, tt) taken (sorted_loop fuel rg dm zs).
Proof.
  intros Hrg. revert taken dm zs. induction fuel as [|fuel IH]; intros taken dm zs Hdm Hcl Hnd Hzs Hf; simpl.
  - constructor. intros n [Hn (es & Hes & _)]. assert (Hin : n ∈ nodes ∖ taken) by (apply elem_of_dom_2 in Hes; rewrite dom_between in Hes; set_solver).
    assert (E : size (nodes ∖ taken) = 0%nat) by lia. apply size_empty_inv in E. set_solver.
  - destruct (heappop String.le zs) as [[node zs1]|] eqn:E.
    2:{ apply heappop_none in E as ->. constructor. intros n Hn%Hzs. by apply not_elem_of_nil in Hn. }
    apply heappop_some in E as [Hp Hmin]; [|apply _..]. assert (Hr : ready G taken node) by (apply Hzs; rewrite Hp; by left).
    pose proof (round heappush taken dm rg zs1 node ltac:(done) Hrg Hdm Hcl Hr) as Hstep.
    destruct (foldl _ _ _) as [dm' zs']. destruct Hstep as (S1 & S2 & newly & S3 & S4 & S5). rewrite Hp in Hnd. apply NoDup_cons in Hnd as [Hn1 Hnd].
    constructor; [done|intros m Hm%Hzs; by apply Hmin|]. apply IH; [done|done| | |].
    + rewrite S3. apply NoDup_app. split_and!; [done| |done]. intros n [_ Hno]%S5 Hn. apply Hno, Hzs. rewrite Hp. by right.
    + intros n. rewrite S3, elem_of_app, S5. split.
      * intros [[? _]|Hn]; [done|]. assert (Hrn : ready G taken n) by (apply Hzs; rewrite Hp; by right). destruct Hrn as [Hnt (es & Hes & Hsub)].
        split; [|exists es; split; [done|set_solver]]. assert (n ≠ node) by (by intros ->). set_solver.
      * intros Hn. destruct (decide (n ∈ zs)) as [Hz|Hz]; [|left; split; [done|by rewrite <- Hzs]].
        right. rewrite Hp in Hz. apply elem_of_cons in Hz as [->|?]; [|done]. destruct Hn as [Hn _]. set_solver.
    + destruct Hr as [Hnt (es & Hes & _)]. apply elem_of_dom_2 in Hes. rewrite dom_between in Hes.
      assert (Hlt : nodes ∖ ({[node]} ∪ taken) ⊂ nodes ∖ taken) by set_solver. apply subset_size in Hlt. lia.
Qed.

Lemma zero_degrees_ready dm : degree_inv ∅ dm → NoDup (zero_degrees dm) ∧ ∀ n, n ∈ zero_degrees dm ↔ ready G ∅ n.
Proof.
  intros Hdm. unfold zero_degrees. split.
  - eapply sublist_NoDup; [|apply fmap_sublist, sublist_filter]. rewrite dict_items_perm. apply NoDup_fst_map_to_list.
  - intros n. rewrite list_elem_of_fmap. unfold ready. split.
    + intros ([n' d] & -> & [Hd Hi]%list_elem_of_filter). simpl in *. subst d. rewrite dict_items_perm, elem_of_map_to_list, Hdm in Hi.
      destruct (G !! n') as [es|]; [|done]. injection Hi as Hi. split; [set_solver|]. exists es. split; [done|].
      assert (E : size (es ∖ ∅) = 0%nat) by lia. apply size_empty_inv in E. set_solver.
    + intros [_ (es & Hes & Hsub)]. exists (n, 0). split; [done|]. apply list_elem_of_filter. split; [done|].
      rewrite dict_items_perm, elem_of_map_to_list, Hdm, Hes. simpl. do 2 f_equal. replace (es ∖ ∅) with (∅ : gset string) by set_solver. by rewrite size_empty.
Qed.

Lemma degrees_inv : degree_inv ∅ (degrees nodes g).1 ∧ ∀ n p, p ∈ default ∅ ((degrees nodes g).2 !! n) ↔ p ∈ nodes ∧ n ∈ default [] (g !! p).
Proof.
  destruct (degrees_spec nodes g) as [C1 C2]. split; [|done]. intros n. rewrite C1, lookup_between. case_decide; [|done]. simpl. do 3 f_equal. set_solver.
Qed.

Lemma sorted_topologically_greedy : greedy le_node G (λ _, tt) ∅ (sorted_topologically nodes g).
Proof.
  destruct degrees_inv as [D1 D2]. unfold sorted_topologically. destruct (degrees nodes g) as [dm rg]. simpl in *.
  destruct (zero_degrees_ready dm D1). apply sorted_loop_greedy; try done. apply subseteq_size. set_solver.
Qed.

(** A batch at a time: everything whose turn it is. *)
Inductive in_batches (taken : gset string) : list (list string) → Prop :=
| batches_nil : (∀ n, ¬ ready G taken n) → in_batches taken []
| batches_cons b l :
    b ≠ [] → NoDup b → (∀ n, n ∈ b ↔ ready G taken n) → in_batches (list_to_set b ∪ taken) l → in_batches taken (b :: l).

Lemma list_append_perm l x : list_append l x ≡ₚ x :: l.
Proof. unfold list_append. symmetry. apply Permutation_cons_append. Qed.

Lemma batch_round taken dm rg b zs :
  (∀ n p, p ∈ default ∅ (rg !! n) ↔ p ∈ nodes ∧ n ∈ default [] (g !! p)) →
  degree_inv taken dm → closed taken → NoDup b → (∀ n, n ∈ b → ready G taken n) →
  NoDup zs → (∀ n, n ∈ b ++ zs ↔ ready G taken n) → (∀ n, n ∈ b → n ∉ zs) →
  let '(dm', zs') := foldl (λ st node, foldl (drop_edge list_append) st (set_iter (default ∅ (rg !! node)))) (dm, zs) b in
  degree_inv (list_to_set b ∪ taken) dm' ∧ closed (list_to_set b ∪ taken) ∧ NoDup zs' ∧ ∀ n, n ∈ zs' ↔ ready G (list_to_set b ∪ taken) n.
Proof.
  intros Hrg. revert taken dm zs. induction b as [|node b IH]; intros taken dm zs Hdm Hcl Hnd Hb Hz Hzs Hdis; cbn [foldl].
  { simpl. rewrite (left_id_L ∅ (∪)). by split_and!. }
  apply NoDup_cons in Hnd as [Hn Hnd]. pose proof (Hb node ltac:(by left)) as Hr.
  pose proof (round list_append taken dm rg zs node list_append_perm Hrg Hdm Hcl Hr) as Hstep.
  destruct (foldl (drop_edge list_append) _ _) as [dm1 zs1]. destruct Hstep as (S1 & S2 & newly & S3 & S4 & S5).
  assert (Hready : ∀ n, ready G taken n → n ≠ node → ready G ({[node]} ∪ taken) n).
  { intros n [Hnt (es & Hes & Hsub)] Hne. split; [set_solver|]. exists es. split; [done|set_solver]. }
  specialize (IH ({[node]} ∪ taken) dm1 zs1 S1 S2 Hnd).
  destruct (foldl _ (dm1, zs1) b) as [dm' zs']. simpl. replace ({[node]} ∪ list_to_set b ∪ taken) with (list_to_set b ∪ ({[node]} ∪ taken)) by set_solver.
  apply IH.
  - intros n Hin. apply Hready; [apply Hb; by right|by intros ->].
  - rewrite S3. apply NoDup_app. split_and!; [done| |done]. intros n [_ Hno]%S5 Hin. apply Hno, Hzs, elem_of_app. by right.
  - intros n. rewrite S3, !elem_of_app, S5. split.
    + intros [Hin|[[? _]|Hin]]; [apply Hready; [apply Hb; by right|by intros ->]|done|].
      apply Hready; [apply Hzs, elem_of_app; by right|]. intros ->. apply (Hdis node); [by left|done].
    + intros Hrn. destruct (decide (n ∈ (node :: b) ++ zs)) as [Ho|Ho]; [|right; left; split; [done|by rewrite <- Hzs]].
      apply elem_of_app in Ho as [[->|?]%elem_of_cons|?]; [|by left|by right; right]. destruct Hrn as [Hrn _]. set_solver.
  - intros n Hin. rewrite S3, elem_of_app, S5. intros [[_ Hno]|Hin']; [apply Hno, Hb; by right|]. apply (Hdis n); [by right|done].
Qed.

Lemma batched_loop_ok fuel taken dm rg zs :
  (∀ n p, p ∈ default ∅ (rg !! n) ↔ p ∈ nodes ∧ n ∈ default [] (g !! p)) →
  degree_inv taken dm → closed taken → NoDup zs → (∀ n, n ∈ zs ↔ ready G taken n) → (size (nodes ∖ taken) ≤ fuel)%nat →
  in_batches taken (batched_loop fuel rg dm zs).
Proof.
  intros Hrg. revert taken dm zs. induction fuel as [|fuel IH]; intros taken dm zs Hdm Hcl Hnd Hzs Hf; simpl.
  - constructor. intros n [Hn (es & Hes & _)]. assert (Hin : n ∈ nodes ∖ taken) by (apply elem_of_dom_2 in Hes; rewrite dom_between in Hes; set_solver).
    assert (E : size (nodes ∖ taken) = 0%nat) by lia. apply size_empty_inv in E. set_solver.
  - destruct zs as [|z zs]; [constructor; intros n Hn%Hzs; by apply not_elem_of_nil in Hn|].
    pose proof (batch_round taken dm rg (z :: zs) [] Hrg Hdm Hcl Hnd ltac:(intros; by apply Hzs) ltac:(constructor)) as Hb.
    destruct (foldl _ _ (z :: zs)) as [dm' zs']. destruct Hb as (B1 & B2 & B3 & B4); [intros n; by rewrite app_nil_r|intros n _; apply not_elem_of_nil|].
    constructor; [done|done|done|]. apply IH; try done. destruct (proj1 (Hzs z) ltac:(by left)) as [Hzt (es & Hes & _)]. apply elem_of_dom_2 in Hes. rewrite dom_between in Hes.
    assert (Hlt : nodes ∖ (list_to_set (z :: zs) ∪ taken) ⊂ nodes ∖ taken) by set_solver. apply subset_size in Hlt. lia.
Qed.

Lemma sorted_topologically_batched_ok : in_batches ∅ (sorted_topologically_batched nodes g).
Proof.
  destruct degrees_inv as [D1 D2]. unfold sorted_topologically_batched. destruct (degrees nodes g) as [dm rg]. simpl in *.
  destruct (zero_degrees_ready dm D1). apply batched_loop_ok; try done. apply subseteq_size. set_solver.
Qed.

(** ** What the clients use *)

Context (rank : string → nat) (Hrank : ∀ n m, n ∈ nodes → m ∈ nodes → m ∈ default [] (g !! n) → (rank m < rank n)%nat).

Lemma between_ranked n es m : G !! n = Some es → m ∈ es → m ∈ dom G ∧ (rank m < rank n)%nat.
Proof.
  intros Hes Hm. pose proof (elem_of_dom_2 _ _ _ Hes) as Hn. rewrite dom_between in *. apply (between_edge n es m Hes) in Hm as [? ?]. split; [done|by apply Hrank].
Qed.

(** Every node once. *)
Lemma sorted_perm : sorted_topologically nodes g ≡ₚ elements nodes.
Proof. rewrite <- (dom_between nodes g) at 2. eapply greedy_complete; [|apply sorted_topologically_greedy]. apply between_ranked. Qed.

Lemma elem_of_sorted n : n ∈ sorted_topologically nodes g ↔ n ∈ nodes.
Proof. by rewrite sorted_perm, elem_of_elements. Qed.

Lemma NoDup_sorted : NoDup (sorted_topologically nodes g).
Proof. rewrite sorted_perm. apply NoDup_elements. Qed.

(** After what it points to. *)
Lemma sorted_before l1 n l2 m : sorted_topologically nodes g = l1 ++ n :: l2 → m ∈ default [] (g !! n) → m ∈ nodes → m ∈ l1.
Proof.
  intros Hl Hm Hmn. assert (Hn : n ∈ nodes) by (apply elem_of_sorted; rewrite Hl; set_solver).
  destruct (greedy_edges_before le_node G (λ _, tt) ∅ _ l1 n l2 (list_to_set (default [] (g !! n)) ∩ nodes) m sorted_topologically_greedy Hl) as [?|?]; [| |set_solver|done].
  - by rewrite lookup_between, decide_True.
  - apply elem_of_intersection. by rewrite elem_of_list_to_set.
Qed.

(** The least of those whose turn it is. *)
Lemma sorted_least l1 n l2 m :
  sorted_topologically nodes g = l1 ++ n :: l2 → m ∈ l2 → (∀ x, x ∈ default [] (g !! m) → x ∈ nodes → x ∈ l1) → String.le n m.
Proof.
  intros Hl Hm Hready. assert (Hmn : m ∈ nodes) by (apply elem_of_sorted; rewrite Hl; set_solver).
  apply (greedy_least_later le_node G (λ _, tt) _ l1 n l2 m (list_to_set (default [] (g !! m)) ∩ nodes) sorted_topologically_greedy Hl); [by rewrite lookup_between, decide_True|done|].
  intros x [Hx%elem_of_list_to_set ?]%elem_of_intersection. by apply Hready.
Qed.

(** The batches hold every node once, each in the first batch after those it points to. *)
Lemma batches_complete taken bs :
  taken ⊆ nodes → in_batches taken bs → concat bs ≡ₚ elements (nodes ∖ taken) ∧
  ∀ b1 b b2 n m, bs = b1 ++ b :: b2 → n ∈ b → m ∈ default [] (g !! n) → m ∈ nodes → m ∈ taken ∨ m ∈ concat b1.
Proof.
  intros Hsub Hb. induction Hb as [taken Hno|taken b l Hne Hnd Hr Hl IH].
  - split; [|by intros [] ? ? ? ? ?]. assert (E : nodes ∖ taken = ∅); [|rewrite E; by rewrite elements_empty]. apply set_eq. intros n. split; [|set_solver]. intros Hn. exfalso.
    remember (rank n) as k eqn:Ek. revert n Ek Hn. induction (lt_wf k) as [k _ IHk]. intros n -> [Hn Hnt]%elem_of_difference. apply (Hno n). split; [done|]. rewrite lookup_between, decide_True by done. eexists. split; [done|].
    intros m [Hm%elem_of_list_to_set Hmn]%elem_of_intersection. destruct (decide (m ∈ taken)); [done|]. exfalso. by apply (IHk (rank m) (Hrank n m Hn Hmn Hm) m); [|set_solver].
  - assert (Hbn : ∀ n, n ∈ b → n ∈ nodes ∧ n ∉ taken) by (intros n [? (es & Hes & _)]%Hr; split; [rewrite <- (dom_between nodes g); by eapply elem_of_dom_2|done]).
    destruct IH as [IH1 IH2]; [intros n [Hn%elem_of_list_to_set|?]%elem_of_union; [by apply Hbn|by apply Hsub]|]. split.
    + simpl. etransitivity; [apply Permutation_app; [symmetry; exact (elements_list_to_set (C := gset string) b Hnd)|exact IH1]|]. rewrite <- elements_disj_union by set_solver.
      assert (E : list_to_set b ∪ nodes ∖ (list_to_set b ∪ taken) = nodes ∖ taken); [|by rewrite E]. apply set_eq. intros n.
      rewrite elem_of_union, elem_of_list_to_set, !elem_of_difference, elem_of_union, elem_of_list_to_set. specialize (Hbn n). destruct (decide (n ∈ b)); naive_solver.
    + intros [|b1 bs1] b' b2 n m [= -> El] Hn Hm Hmn.
      * left. apply Hr in Hn as [_ (es & Hes & Hes')]. apply Hes'. apply (between_edge n es m Hes). done.
      * destruct (IH2 bs1 b' b2 n m El Hn Hm Hmn) as [[Hb%elem_of_list_to_set|?]%elem_of_union|?]; [right; simpl; set_solver|by left|right; simpl; set_solver].
Qed.
End rounds.
End correct.

(** C31: on nodes that do not point to each other in a circle, [sorted_topologically] returns
    every node once, after the nodes it points to, and always the least id whose turn it
    is; [sorted_topologically_batched] returns every node once, in a batch after those of
    the nodes it points to.  Edges to and from other nodes do not matter, and neither does
    the order in which dicts and sets are iterated. *)
Theorem sorted_topologically_correct `{IterOrderOk} (nodes : gset string) (g : gmap string (list string)) (rank : string → nat) :
  (∀ n m, n ∈ nodes → m ∈ nodes → m ∈ default [] (g !! n) → (rank m < rank n)%nat) →
  let l := sorted_topologically nodes g in let bs := sorted_topologically_batched nodes g in
  l ≡ₚ elements nodes ∧ concat bs ≡ₚ elements nodes ∧
  (∀ l1 n l2, l = l1 ++ n :: l2 → (∀ m, m ∈ default [] (g !! n) → m ∈ nodes → m ∈ l1) ∧
    ∀ m, m ∈ l2 → (∀ x, x ∈ default [] (g !! m) → x ∈ nodes → x ∈ l1) → String.le n m) ∧
  ∀ b1 b b2 n m, bs = b1 ++ b :: b2 → n ∈ b → m ∈ default [] (g !! n) → m ∈ nodes → m ∈ concat b1.
Proof.
  intros Hrank l bs. destruct (batches_complete nodes g rank Hrank ∅ bs) as [B1 B2]; [set_solver|apply sorted_topologically_batched_ok|]. rewrite difference_empty_L in B1. split_and!.
  - by apply (sorted_perm nodes g rank).
  - done.
  - intros l1 n l2 Hl. split; [intros m; by apply (sorted_before nodes g rank Hrank l1 n l2)|intros m; by apply (sorted_least nodes g rank Hrank l1 n l2)].
  - intros b1 b b2 n m Hb Hn Hm Hmn. destruct (B2 b1 b b2 n m Hb Hn Hm Hmn); [set_solver|done].
Qed.

Definition diamond : gmap string (list string) := {["d" := ["b"; "c"; "x"]; "c" := ["a"]; "b" := ["a"]; "x" := ["d"]]}.

Definition diamond_rank (n : string) : nat := if decide (n = "d") then 2 else if decide (n = "a") then 0 else 1.

Lemma sorted_topologically_witness :
  sorted_topologically {["a"; "b"; "c"; "d"]} diamond = ["a"; "b"; "c"; "d"] ∧
  concat (sorted_topologically_batched {["a"; "b"; "c"; "d"]} diamond) ≡ₚ elements ({["a"; "b"; "c"; "d"]} : gset string).
Proof.
  split; [by vm_compute|]. apply (sorted_topologically_correct ({["a"; "b"; "c"; "d"]} : gset string) diamond diamond_rank).
  assert (Hall : Forall (λ n, Forall (λ m, m ∈ default [] (diamond !! n) → (diamond_rank m < diamond_rank n)%nat) ["a"; "b"; "c"; "d"]) ["a"; "b"; "c"; "d"]) by (apply (bool_decide_unpack _); by vm_compute).
  intros n m Hn Hm. rewrite Forall_forall in Hall. specialize (Hall n ltac:(set_solver)). rewrite Forall_forall in Hall. apply Hall. set_solver.
Defined.
