(* ===== verification/StateResV2.v ===== *)
(** * State resolution, version 2: [synapse/state/v2.py]

    The event map is a cache the functions share and fill from the store, so they
    run in a monad that threads it; a Python exception is an [Err], and [None] says
    the fuel of a loop ran out. *)

From S2P Require Import Prelude PyVal Constants RoomVersions Events EventAuth TopoSort.

(** ** The store *)

(** [StateResolutionStore] *)
Class StateResolutionStore := {
  (** [get_events(event_ids, allow_rejected=True)] *)
  get_events : list string → gmap string Event;
  get_auth_chain_difference : string → list (gset string) → gset string
}.

(** ** The monad *)

Abbreviation EventMap := (gmap string Event).

Definition SR (A : Type) : Type := EventMap → option (result (A * EventMap)).

#[export] Instance SR_ret : MRet SR := λ A a em, Some (Ok (a, em)).
#[export] Instance SR_bind : MBind SR := λ A B f m em,
  match m em with
  | None => None
  | Some (Err e) => Some (Err e)
  | Some (Ok (a, em)) => f a em
  end.

Definition out_of_fuel {A} : SR A := λ _, None.
Definition lift {A} (r : result A) : SR A := λ em, Some (x ← r; Ok (x, em)).
Definition lift_opt {A} (r : option (result A)) : SR A :=
  match r with Some r => lift r | None => out_of_fuel end.
Definition get_map : SR EventMap := λ em, Some (Ok (em, em)).
Definition set_map (em : EventMap) : SR unit := λ _, Some (Ok (tt, em)).

(** [event_map.update(events)] *)
Definition update_map (events : EventMap) : SR unit :=
  λ em, Some (Ok (tt, events ∪ em)).

(** [for x in l: acc = f acc x] *)
Fixpoint foldM {A B} (f : B → A → SR B) (l : list A) (acc : B) : SR B :=
  match l with
  | [] => mret acc
  | x :: l => acc ← f acc x; foldM f l acc
  end.

(** ** Conflicts *)

(** One iteration of the loop of [_seperate]. *)
Definition seperate_key (state_sets : list (StateMap string))
    (acc : StateMap string * StateMap (gset string)) (key : string * string)
    : StateMap string * StateMap (gset string) :=
  let '(unconflicted_state, conflicted_state) := acc in
  let event_ids : gset (option string) :=
    list_to_set ((λ state_set : StateMap string, state_set !! key) <$> state_sets) in
  (* [event_ids.discard(None)]; a lone id is never [None], as some set has the key *)
  let known : gset string := list_to_set (omap id (elements event_ids)) in
  if bool_decide (size event_ids = 1%nat) then
    match elements known with
    | x :: _ => (<[key := x]> unconflicted_state, conflicted_state)
    | [] => acc
    end
  else (unconflicted_state, <[key := known]> conflicted_state).

Definition state_keys (state_sets : list (StateMap string)) : gset (string * string) :=
  ⋃ ((λ state_set : StateMap string, dom state_set) <$> state_sets).

Section v2.
Context `{IterOrder, StateResolutionStore, Crypto}.

Definition _seperate (state_sets : list (StateMap string))
    : StateMap string * StateMap (gset string) :=
  foldl (seperate_key state_sets) (∅, ∅) (set_iter (state_keys state_sets)).

(** ** Events *)

(** [None] only with [allow_none]. *)
Definition _get_event (room : string) (eid : string) (allow_none : bool) : SR (option Event) :=
  em ← get_map;
  (if bool_decide (eid ∈ dom em) then mret tt else update_map (get_events [eid])) ;;
  em ← get_map;
  match em !! eid with
  | None =>
      if allow_none then mret None else lift (Err (PyException "Unknown event %s"))
  | Some event =>
      if bool_decide (room_id event = room) then mret (Some event)
      else lift (Err (PyException "In state res for room %s, event %s is in %s"))
  end.

(** [_get_event] without [allow_none]: the event. *)
Definition get_event (room : string) (eid : string) : SR Event :=
  ev ← _get_event room eid false;
  match ev with
  | Some ev => mret ev
  | None => lift (Err (PyException "Unknown event %s"))
  end.

(** [event_map[event_id]] *)
Definition map_getitem (eid : string) : SR Event :=
  em ← get_map; lift (getitem em eid).

(** The loop that looks among auth events for the one of a given key, stopping at
    the first; with the id it was listed under. *)
Fixpoint find_auth_event (room : string) (key : string * string) (aids : list string)
    : SR (option (string * Event)) :=
  match aids with
  | [] => mret None
  | aid :: aids =>
      aev ← _get_event room aid true;
      match aev with
      | None => find_auth_event room key aids
      | Some aev =>
          k ← lift (event_key aev);
          if bool_decide (k = key) then mret (Some (aid, aev))
          else find_auth_event room key aids
      end
  end.

Definition pl_key : string * string := (EventTypes.PowerLevels, "").
Definition create_key : string * string := (EventTypes.Create, "").

(** [pl.content.get("users", {}).get(sender)], then ["users_default"], as an
    integer. *)
Definition level_from_pl (pl : Event) (user : string) : result Z :=
  users ← as_dict (get_or "users" (JObj []) (content pl));
  match get_or user JNull users with
  | JNull =>
      match get_or "users_default" (JInt 0) (content pl) with
      | JNull => Ok 0
      | level => py_int level
      end
  | level => py_int level
  end.

Definition _get_power_level_for_sender (room : string) (eid : string) : SR Z :=
  event ← get_event room eid;
  pl ← find_auth_event room pl_key (auth_event_ids event);
  match pl with
  | None =>
      create ← find_auth_event room create_key (auth_event_ids event);
      match create with
      | Some (_, aev) =>
          mret (if eq_str (get_or "creator" JNull (content aev)) (sender event) then 100 else 0)
      | None => mret 0
      end
  | Some (_, pl) => lift (level_from_pl pl (sender event))
  end.

(** ** The auth chain difference *)

(** [while to_search], on the unpersisted events. *)
Fixpoint search_chain (fuel : nat) (unpersisted_events : EventMap) (chain : gset string)
    (to_search : list Event) : option (gset string) :=
  match fuel with
  | O => None
  | S fuel =>
      match to_search with
      | [] => Some chain
      | event :: to_search =>
          (* the last one appended is the next to be popped *)
          search_chain fuel unpersisted_events (chain ∪ list_to_set (auth_event_ids event))
            (rev (omap (λ auth_id, unpersisted_events !! auth_id) (auth_event_ids event))
             ++ to_search)
      end
  end.

(** One iteration of the loop that fills [events_to_auth_chain]. *)
Definition add_chain (fuel : nat) (unpersisted_events : EventMap)
    (acc : option graph) (event : Event) : option graph :=
  events_to_auth_chain ← acc;
  chain ← search_chain fuel unpersisted_events {[event_id event]} [event];
  Some (<[event_id event := chain]> events_to_auth_chain).

(** One iteration of the loop over the ids of a state set. *)
Definition add_state_id (unpersisted_events : EventMap) (events_to_auth_chain : graph)
    (acc : gset string * gset string) (eid : string) : gset string * gset string :=
  let '(set_ids, unpersisted_ids) := acc in
  match events_to_auth_chain !! eid with
  | Some event_chain =>
      (set_ids ∪ filter (λ e, e ∉ dom unpersisted_events) event_chain,
       unpersisted_ids ∪ filter (λ e, e ∈ dom unpersisted_events) event_chain)
  | None => ({[eid]} ∪ set_ids, unpersisted_ids)
  end.

(** [state_set.values()] *)
Definition values {A} (m : StateMap A) : list A := (map_to_list m).*2.

Definition split_state_set (unpersisted_events : EventMap) (events_to_auth_chain : graph)
    (state_set : StateMap string) : gset string * gset string :=
  foldl (add_state_id unpersisted_events events_to_auth_chain) (∅, ∅) (values state_set).

Definition unions (l : list (gset string)) : gset string := ⋃ l.

(** [l[0].intersection( *l[1:])] *)
Definition intersections (l : list (gset string)) : result (gset string) :=
  match l with
  | [] => Err (PyBuiltin IndexError)
  | x :: l => Ok (foldl (∩) x l)
  end.

Definition _get_auth_chain_difference (fuel : nat) (room : string)
    (state_sets : list (StateMap string)) : SR (gset string) :=
  unpersisted_events ← get_map;
  events_to_auth_chain ← lift_opt (Ok <$>
    foldl (add_chain fuel unpersisted_events) (Some ∅) (dict_items unpersisted_events).*2);
  '(state_sets_ids, unpersisted_part) ←
    (if bool_decide (unpersisted_events = ∅) then
       mret ((λ s, list_to_set (values s)) <$> state_sets, ∅)
     else
       let split := split_state_set unpersisted_events events_to_auth_chain <$> state_sets in
       intersection ← lift (intersections split.*2);
       mret (split.*1, unions split.*2 ∖ intersection));
  mret (get_auth_chain_difference room state_sets_ids ∪ unpersisted_part).

(** ** Sorting the power events *)

Definition _is_power_event (event : Event) : result bool :=
  k ← event_key event;
  if bool_decide (k ∈ [pl_key; (EventTypes.JoinRules, ""); create_key]) then Ok true
  else if bool_decide (type event = EventTypes.Member) then
    m ← membership event;
    if eq_str m "leave" || eq_str m "ban" then
      skey ← state_key event; Ok (negb (bool_decide (sender event = skey)))
    else Ok false
  else Ok false.

(** The loop over the auth events of [eid]: the stack and the graph. *)
Definition add_auth_edge (full_conflicted_set : gset string) (eid : string)
    (acc : list string * graph) (aid : string) : list string * graph :=
  let '(state, g) := acc in
  if bool_decide (aid ∈ full_conflicted_set) then
    (if bool_decide (aid ∈ dom g) then state else aid :: state, setdefault_add eid aid g)
  else acc.

(** [while state] *)
Fixpoint add_chain_loop (fuel : nat) (room : string) (full_conflicted_set : gset string)
    (g : graph) (state : list string) : SR graph :=
  match fuel with
  | O => out_of_fuel
  | S fuel =>
      match state with
      | [] => mret g
      | eid :: state =>
          let g := setdefault eid g in
          event ← get_event room eid;
          let '(state, g) :=
            foldl (add_auth_edge full_conflicted_set eid) (state, g) (auth_event_ids event) in
          add_chain_loop fuel room full_conflicted_set g state
      end
  end.

Definition _add_event_and_auth_chain_to_graph (fuel : nat) (room : string)
    (full_conflicted_set : gset string) (g : graph) (eid : string) : SR graph :=
  add_chain_loop fuel room full_conflicted_set g [eid].

(** Python's order on tuples of two integers and a string, paired with the node as
    on the heap. *)
Definition sort_key : Type := Z * Z * string.

Definition sort_key_le (a b : sort_key) : Prop :=
  let '(a1, a2, a3) := a in
  let '(b1, b2, b3) := b in
  a1 < b1 ∨ (a1 = b1 ∧ (a2 < b2 ∨ (a2 = b2 ∧ String.le a3 b3))).

#[export] Instance sort_key_le_dec : RelDecision sort_key_le.
Proof. intros [[a1 a2] a3] [[b1 b2] b3]. unfold sort_key_le. apply _. Defined.

Definition heap_item_le (a b : sort_key * string) : Prop :=
  if decide (a.1 = b.1) then String.le a.2 b.2 else sort_key_le a.1 b.1.

#[export] Instance heap_item_le_dec : RelDecision heap_item_le.
Proof. intros a b. unfold heap_item_le. destruct (decide (a.1 = b.1)); apply _. Defined.

(** [_get_power_order] *)
Definition _get_power_order (em : EventMap) (event_to_pl : gmap string Z) (eid : string)
    : result sort_key :=
  ev ← getitem em eid;
  pl ← getitem event_to_pl eid;
  Ok (- pl, origin_server_ts ev, eid).

(** A generator of event ids: each element, when it is asked for, gives an id or is
    passed over. *)
Definition id_generator : Type := list (SR (option string)).

(** The first loop: the graph of the power events and their auth chains. *)
Definition build_graph (fuel : nat) (room : string) (full_conflicted_set : gset string)
    (ids : id_generator) : SR graph :=
  foldM (λ g next,
    eid ← next;
    match eid with
    | Some eid => _add_event_and_auth_chain_to_graph fuel room full_conflicted_set g eid
    | None => mret g
    end) ids (∅ : graph).

(** The second loop: the power level of the sender of each node. *)
Definition graph_levels (room : string) (ids : list string) : SR (gmap string Z) :=
  foldM (λ event_to_pl eid,
    pl ← _get_power_level_for_sender room eid;
    mret (<[eid := pl]> event_to_pl)) ids (∅ : gmap string Z).

Definition _reverse_topological_power_sort (fuel : nat) (room : string)
    (ids : id_generator) (full_conflicted_set : gset string) : SR (list string) :=
  g ← build_graph fuel room full_conflicted_set ids;
  event_to_pl ← graph_levels room (dict_items g).*1;
  em ← get_map;
  lift_opt (lexicographical_topological_sort heap_item_le g (_get_power_order em event_to_pl)).

(** ** Applying events in order *)

(** [d[k] = v] on a dict in insertion order. *)
Fixpoint odict_set {A} (k : string * string) (v : A) (d : list ((string * string) * A))
    : list ((string * string) * A) :=
  match d with
  | [] => [(k, v)]
  | (k', v') :: d => if bool_decide (k = k') then (k, v) :: d else (k', v') :: odict_set k v d
  end.

Abbreviation AuthEvents := (list ((string * string) * Event)).

(** The auth events named by the event itself. *)
Definition add_own_auth_event (room : string) (auth_events : AuthEvents) (aid : string)
    : SR AuthEvents :=
  ev ← _get_event room aid true;
  match ev with
  | None => mret auth_events
  | Some ev =>
      match rejected_reason ev with
      | None => k ← lift (event_key ev); mret (odict_set k ev auth_events)
      | Some _ => mret auth_events
      end
  end.

(** The auth events of the state resolved so far. *)
Definition add_resolved_auth_event (room : string) (resolved_state : StateMap string)
    (auth_events : AuthEvents) (key : string * string) : SR AuthEvents :=
  match resolved_state !! key with
  | None => mret auth_events
  | Some ev_id =>
      ev ← get_event room ev_id;
      match rejected_reason ev with
      | None => ev ← map_getitem ev_id; mret (odict_set key ev auth_events)
      | Some _ => mret auth_events
      end
  end.

(** The auth events one event is checked against. *)
Definition collect_auth_events (room : string) (rv : RoomVersion)
    (resolved_state : StateMap string) (event : Event) : SR AuthEvents :=
  auth_events ← foldM (add_own_auth_event room) (auth_event_ids event) [];
  keys ← lift (auth_types_for_event rv event);
  foldM (add_resolved_auth_event room resolved_state) (set_iter keys) auth_events.

(** [try: check...; resolved_state[...] = event_id / except AuthError: pass].  The
    check may mark the event object, which the event map shares, for a redaction
    recheck. *)
Definition try_apply (event : Event) (eid : string) (auth_events : AuthEvents)
    (resolved_state : StateMap string) : SR (StateMap string) :=
  match check_state_dependent_auth_rules event auth_events.*2 with
  | Ok event' =>
      em ← get_map;
      set_map (<[eid := event']> em) ;;
      k ← lift (event_key event');
      mret (<[k := eid]> resolved_state)
  | Err e => if is_AuthError e then mret resolved_state else lift (Err e)
  end.

Definition auth_check_one (room : string) (rv : RoomVersion) (resolved_state : StateMap string)
    (eid : string) : SR (StateMap string) :=
  event ← map_getitem eid;
  auth_events ← collect_auth_events room rv resolved_state event;
  match rejected_reason event with
  | Some _ => mret resolved_state
  | None => try_apply event eid auth_events resolved_state
  end.

Definition _iterative_auth_checks (room : string) (rv : RoomVersion) (ids : list string)
    (base_state : StateMap string) : SR (StateMap string) :=
  foldM (auth_check_one room rv) ids base_state.

(** ** The mainline *)

(** [while pl] *)
Fixpoint mainline_loop (fuel : nat) (room : string) (pl : string) : SR (list string) :=
  match fuel with
  | O => out_of_fuel
  | S fuel =>
      (* an empty id is as good as [None] *)
      if bool_decide (pl = "") then mret [] else
      pl_ev ← get_event room pl;
      next ← find_auth_event room pl_key (auth_event_ids pl_ev);
      match next with
      | None => mret [pl]
      | Some (aid, _) => rest ← mainline_loop fuel room aid; mret (pl :: rest)
      end
  end.

(** [{ev_id: i + 1 for i, ev_id in enumerate(reversed(mainline))}] *)
Fixpoint number_from (i : Z) (l : list string) (m : gmap string Z) : gmap string Z :=
  match l with
  | [] => m
  | x :: l => number_from (i + 1) l (<[x := i]> m)
  end.

Definition make_mainline_map (mainline : list string) : gmap string Z :=
  number_from 1 (rev mainline) ∅.

(** [while tmp_event] *)
Fixpoint depth_loop (fuel : nat) (room : string) (mainline_map : gmap string Z)
    (tmp_event : Event) : SR Z :=
  match fuel with
  | O => out_of_fuel
  | S fuel =>
      match mainline_map !! event_id tmp_event with
      | Some depth => mret depth
      | None =>
          next ← find_auth_event room pl_key (auth_event_ids tmp_event);
          match next with
          | None => mret 0
          | Some (_, aev) => depth_loop fuel room mainline_map aev
          end
      end
  end.

Definition _get_mainline_depth_for_event (fuel : nat) (event : Event)
    (mainline_map : gmap string Z) : SR Z :=
  depth_loop fuel (room_id event) mainline_map event.

(** [event_ids.sort(key=lambda ev_id: order_map[ev_id])] *)
Definition sort_ids (order_map : list sort_key) : list string :=
  (merge_sort sort_key_le order_map).*2.

(** One iteration of the loop that fills [order_map]. *)
Definition add_order (fuel : nat) (mainline_map : gmap string Z) (order_map : list sort_key)
    (ev_id : string) : SR (list sort_key) :=
  event ← map_getitem ev_id;
  depth ← _get_mainline_depth_for_event fuel event mainline_map;
  event ← map_getitem ev_id;
  mret (order_map ++ [(depth, origin_server_ts event, ev_id)]).

Definition _mainline_sort (fuel : nat) (room : string) (ids : list string)
    (resolved_power_event_id : option string) : SR (list string) :=
  match ids with
  | [] => mret []
  | _ =>
      mainline ← match resolved_power_event_id with
                 | None => mret []
                 | Some pl => mainline_loop fuel room pl
                 end;
      let mainline_map := make_mainline_map mainline in
      order_map ← foldM (add_order fuel mainline_map) ids [];
      mret (sort_ids order_map)
  end.

(** ** The whole algorithm *)

(** [for event in event_map.values(): if event.room_id != room_id: raise] *)
Definition check_rooms (room : string) (em : EventMap) : result unit :=
  iter_res (λ ie, raise_if (negb (bool_decide (room_id ie.2 = room)))
    (PyException "Attempting to state-resolve for room %s with event %s which is in %s"))
    (dict_items em).

(** [(eid for eid in full_conflicted_set if _is_power_event(event_map[eid]))] *)
Definition power_events (full_conflicted_set : gset string) : id_generator :=
  (λ eid, event ← map_getitem eid;
          p ← lift (_is_power_event event);
          mret (if p : bool then Some eid else None)) <$> set_iter full_conflicted_set.

(** Fetch what is missing of the full conflicted set, and keep what is known. *)
Definition fetch_conflicted (room : string) (full_conflicted_set : gset string)
    : SR (gset string) :=
  em ← get_map;
  update_map (get_events (filter (λ eid, eid ∉ dom em) (set_iter full_conflicted_set))) ;;
  em ← get_map;
  lift (check_rooms room em) ;;
  mret (filter (λ eid, eid ∈ dom em) full_conflicted_set).

(** Everything after the conflicted set has been fetched. *)
Definition resolve_conflicted (fuel : nat) (room : string) (rv : RoomVersion)
    (unconflicted_state : StateMap string) (full_conflicted_set : gset string)
    : SR (StateMap string) :=
  sorted_power_events ← _reverse_topological_power_sort fuel room
    (power_events full_conflicted_set) full_conflicted_set;
  resolved_state ← _iterative_auth_checks room rv sorted_power_events unconflicted_state;
  let leftover_events :=
    filter (λ ev_id, ev_id ∉ sorted_power_events) (set_iter full_conflicted_set) in
  leftover_events ← _mainline_sort fuel room leftover_events (resolved_state !! pl_key);
  resolved_state ← _iterative_auth_checks room rv leftover_events resolved_state;
  mret (unconflicted_state ∪ resolved_state).

(** [event_map = {}] when it is [None] is the caller's initial map. *)
Definition resolve_events_with_store (fuel : nat) (room : string) (rv : RoomVersion)
    (state_sets : list (StateMap string)) : SR (StateMap string) :=
  let '(unconflicted_state, conflicted_state) := _seperate state_sets in
  if bool_decide (conflicted_state = ∅) then mret unconflicted_state
  else
    auth_diff ← _get_auth_chain_difference fuel room state_sets;
    full_conflicted_set ←
      fetch_conflicted room (unions (values conflicted_state) ∪ auth_diff);
    resolve_conflicted fuel room rv unconflicted_state full_conflicted_set.
End v2.
