(* ===== verification/StateResLemmas.v ===== *)
(** * Lemmas on state resolution: the monad, the sort order, and what every step
    does to the event map. *)

From S2P Require Import Prelude PyVal Constants RoomVersions Events EventAuth TopoSort StateResV2.

(** ** The sort order *)

#[export] Instance sort_key_le_po : PartialOrder sort_key_le.
Proof.
  split; [split|].
  - intros [[a b] c]. simpl. right. split; [done|]. right. split; [done|]. reflexivity.
  - intros [[a1 b1] c1] [[a2 b2] c2] [[a3 b3] c3]. simpl.
    intros [?|[-> [?|[-> Hc]]]] [?|[-> [?|[-> Hc']]]];
      try (left; lia); right; (split; [lia|]); try (left; lia).
    right. split; [lia|]. by trans c2.
  - intros [[a1 b1] c1] [[a2 b2] c2]. simpl.
    intros [?|[-> [?|[-> Hc]]]] [?|[? [?|[? Hc']]]]; try lia.
    f_equal. by apply (anti_symm String.le).
Qed.

#[export] Instance sort_key_le_total : Total sort_key_le.
Proof.
  intros [[a1 b1] c1] [[a2 b2] c2]. simpl.
  destruct (Z.lt_trichotomy a1 a2) as [?|[->|?]]; [by left; left| |by right; left].
  destruct (Z.lt_trichotomy b1 b2) as [?|[->|?]]; [left; right; auto| |right; right; auto].
  destruct (total String.le c1 c2); [left|right]; right; auto.
Qed.

#[export] Instance heap_item_le_po : PartialOrder heap_item_le.
Proof.
  unfold heap_item_le. split; [split|].
  - intros [k n]. simpl. by rewrite decide_True.
  - intros [k1 n1] [k2 n2] [k3 n3]; simpl. intros H1 H2.
    destruct (decide (k1 = k2)) as [E12|N12], (decide (k2 = k3)) as [E23|N23].
    + rewrite decide_True by congruence. by trans n2.
    + rewrite decide_False by congruence. by rewrite E12.
    + rewrite decide_False by congruence. by rewrite <- E23.
    + rewrite decide_False; [by trans k2|]. intros E. apply N12. subst.
      by apply (anti_symm sort_key_le).
  - intros [k1 n1] [k2 n2]; simpl.
    destruct (decide (k1 = k2)) as [->|N].
    + rewrite decide_True by done. intros H1 H2. f_equal. by apply (anti_symm String.le).
    + rewrite decide_False by done. intros H1 H2. destruct N. by apply (anti_symm sort_key_le).
Qed.

#[export] Instance heap_item_le_total : Total heap_item_le.
Proof.
  intros [k1 n1] [k2 n2]. unfold heap_item_le. simpl. destruct (decide (k1 = k2)) as [->|N].
  - rewrite decide_True by done. apply (total String.le).
  - rewrite decide_False by done. apply (total sort_key_le).
Qed.

Lemma heap_item_le_key k1 n1 k2 n2 : heap_item_le (k1, n1) (k2, n2) → sort_key_le k1 k2.
Proof. unfold heap_item_le. simpl. case_decide as Hk; [|done]. intros _. by rewrite Hk. Qed.

(** ** The monad *)

(** [m], started with the map [em], returns [a] and leaves [em']. *)
Definition returns {A} (m : SR A) (em : EventMap) (a : A) (em' : EventMap) : Prop :=
  m em = Some (Ok (a, em')).

Lemma returns_bind {A B} (m : SR A) (f : A → SR B) em b em'' :
  returns (m ≫= f) em b em'' ↔ ∃ a em', returns m em a em' ∧ returns (f a) em' b em''.
Proof.
  unfold returns, mbind, SR_bind. destruct (m em) as [[[a em']|e]|]; naive_solver.
Qed.

Lemma returns_ret {A} (a b : A) em em' : returns (mret a) em b em' ↔ b = a ∧ em' = em.
Proof. unfold returns, mret, SR_ret. naive_solver. Qed.

Lemma returns_lift {A} (r : result A) em a em' : returns (lift r) em a em' ↔ r = Ok a ∧ em' = em.
Proof. unfold returns, lift. destruct r; simpl; naive_solver. Qed.

Lemma returns_lift_opt {A} (r : option (result A)) em a em' :
  returns (lift_opt r) em a em' ↔ r = Some (Ok a) ∧ em' = em.
Proof.
  destruct r as [r|]; simpl.
  - rewrite returns_lift. naive_solver.
  - unfold returns, out_of_fuel. naive_solver.
Qed.

Lemma returns_get em a em' : returns get_map em a em' ↔ a = em ∧ em' = em.
Proof. unfold returns, get_map. naive_solver. Qed.

Lemma returns_update es em a em' : returns (update_map es) em a em' ↔ em' = es ∪ em.
Proof. unfold returns, update_map. destruct a. naive_solver. Qed.

Lemma returns_set em0 em a em' : returns (set_map em0) em a em' ↔ em' = em0.
Proof. unfold returns, set_map. destruct a. naive_solver. Qed.

Lemma returns_no_fuel {A} em (a : A) em' : returns out_of_fuel em a em' ↔ False.
Proof. by unfold returns, out_of_fuel. Qed.

#[export] Hint Rewrite @returns_ret @returns_lift @returns_lift_opt returns_get returns_update
  returns_set @returns_no_fuel : synapse_rw.

(** [step H]: take a hypothesis about a program apart, one instruction at a time. *)
Tactic Notation "step" hyp(H) "as" simple_intropattern(p) simple_intropattern(q) :=
  apply returns_bind in H as (p & q & ? & H).

(** An invariant of the accumulator and the map is kept by a loop. *)
Lemma foldM_ind {A B} (P : B → EventMap → Prop) (f : B → A → SR B) l acc em r em' :
  (∀ b x em1 b' em2, x ∈ l → P b em1 → returns (f b x) em1 b' em2 → P b' em2) →
  P acc em → returns (foldM f l acc) em r em' → P r em'.
Proof.
  revert acc em. induction l as [|x l IH]; intros acc em Hstep H0; simpl.
  - rewrite returns_ret. by intros [-> ->].
  - rewrite returns_bind. intros (b & em1 & Hb & Hr).
    apply (IH b em1); [|by eapply Hstep; [left|..]|done].
    intros b1 y em2 b2 em3 Hy. apply Hstep. by right.
Qed.

(** ** How the event map evolves *)

(** The same event, apart from the redaction-recheck mark. *)
Definition same_event (e e' : Event) : Prop := set_recheck_redaction e = set_recheck_redaction e'.

#[export] Instance same_event_equivalence : Equivalence same_event.
Proof. split; unfold same_event; [done|by intros ? ?|intros ? ? ? -> ->; done]. Qed.

Definition grows (em em' : EventMap) : Prop :=
  ∀ id e, em !! id = Some e → ∃ e', em' !! id = Some e' ∧ same_event e e'.

#[export] Instance grows_preorder : PreOrder grows.
Proof.
  split.
  - intros em id e He. by exists e.
  - intros em1 em2 em3 H12 H23 id e He. destruct (H12 _ _ He) as (e' & He' & Hs).
    destruct (H23 _ _ He') as (e'' & He'' & Hs'). exists e''. split; [done|]. by trans e'.
Qed.

Lemma grows_dom em em' : grows em em' → dom em ⊆ dom em'.
Proof.
  intros Hg id [e He]%elem_of_dom. destruct (Hg _ _ He) as (e' & He' & _).
  by apply elem_of_dom_2 in He'.
Qed.

(** ** What the store promises *)

(** [get_events] returns those of the requested events that the database has. *)
Class StoreLaws `(StateResolutionStore) (db : EventMap) : Prop := {
  get_events_spec : ∀ ids, get_events ids = filter (λ ie, ie.1 ∈ ids) db
}.

Create HintDb keeps discriminated.

Section keeps.
Context `{IterOrderOk} `{!StateResolutionStore, !Crypto} (db : EventMap) `{!StoreLaws _ db}.

(** A fact about events that holds of everything in the store, and does not look at
    the redaction-recheck mark, holds of everything that enters the map. *)
Context (good : string → Event → Prop).
Hypothesis good_same : ∀ id e e', same_event e e' → good id e → good id e'.
Hypothesis db_good : map_Forall good db.

Definition keeps {A} (m : SR A) : Prop :=
  ∀ em a em', map_Forall good em → returns m em a em' → map_Forall good em' ∧ grows em em'.

Lemma keeps_ret {A} (a : A) : keeps (mret a).
Proof. intros em b em' Hg [-> ->]%returns_ret. by split. Qed.

Lemma keeps_lift {A} (r : result A) : keeps (lift r).
Proof. intros em b em' Hg [_ ->]%returns_lift. by split. Qed.

Lemma keeps_lift_opt {A} (r : option (result A)) : keeps (lift_opt r).
Proof. intros em b em' Hg [_ ->]%returns_lift_opt. by split. Qed.

Lemma keeps_get : keeps get_map.
Proof. intros em b em' Hg [_ ->]%returns_get. by split. Qed.

Lemma keeps_no_fuel {A} : keeps (@out_of_fuel A).
Proof. by intros em b em' Hg ?%returns_no_fuel. Qed.

Lemma keeps_bind {A B} (m : SR A) (f : A → SR B) :
  keeps m → (∀ a, keeps (f a)) → keeps (m ≫= f).
Proof.
  intros Hm Hf em b em'' Hg (a & em' & Hr1 & Hr2)%returns_bind.
  destruct (Hm _ _ _ Hg Hr1) as [Hg' Hgr]. destruct (Hf _ _ _ _ Hg' Hr2) as [Hg'' Hgr'].
  split; [done|]. by trans em'.
Qed.

Lemma keeps_foldM {A B} (f : B → A → SR B) l acc :
  (∀ b x, keeps (f b x)) → keeps (foldM f l acc).
Proof.
  intros Hf. revert acc. induction l as [|x l IH]; intros acc; simpl; [apply keeps_ret|].
  by apply keeps_bind.
Qed.

Hint Resolve keeps_ret keeps_lift keeps_lift_opt keeps_get keeps_no_fuel : keeps.

(** [keep]: decompose a program down to the instructions that keep the map. *)
Ltac keep :=
  repeat first
    [ match goal with |- ∀ _, _ => intro end
    | solve [eauto with keeps]
    | match goal with
      | |- keeps (_ ≫= _) => apply keeps_bind
      | |- keeps (foldM _ _ _) => apply keeps_foldM
      | |- context [match ?x with _ => _ end] => destruct x
      end ].

(** Fetching events the map does not have. *)
Lemma fetch_keeps em ids :
  map_Forall good em → (∀ id, id ∈ ids → em !! id = None) →
  map_Forall good (get_events ids ∪ em) ∧ grows em (get_events ids ∪ em).
Proof.
  intros Hg Hnew. rewrite get_events_spec. split.
  - apply map_Forall_union_2; [|done]. intros id e [He _]%map_lookup_filter_Some. by apply db_good.
  - intros id e He. exists e. split; [|done]. apply lookup_union_Some_raw. right.
    split; [|done]. apply map_lookup_filter_None. right. intros e' _ Hin.
    specialize (Hnew id Hin). congruence.
Qed.

Lemma _get_event_keeps room eid allow_none : keeps (_get_event room eid allow_none).
Proof.
  intros em a em' Hg Hr. unfold _get_event in Hr.
  apply returns_bind in Hr as (em0 & ? & [-> ->]%returns_get & Hr).
  apply returns_bind in Hr as ([] & em1 & Hu & Hr).
  assert (map_Forall good em1 ∧ grows em em1) as Hem1.
  { case_bool_decide as Hd.
    - apply returns_ret in Hu as [_ ->]. by split.
    - apply returns_update in Hu as ->. apply fetch_keeps; [done|].
      intros id ->%list_elem_of_singleton. by apply not_elem_of_dom. }
  apply returns_bind in Hr as (em2 & ? & [-> ->]%returns_get & Hr).
  assert (em' = em1) as ->; [|done].
  destruct (em1 !! eid); [case_bool_decide|destruct allow_none];
    autorewrite with synapse_rw in Hr; by destruct Hr.
Qed.
Hint Resolve _get_event_keeps : keeps.

Lemma get_event_keeps room eid : keeps (get_event room eid).
Proof. unfold get_event. keep. Qed.
Hint Resolve get_event_keeps : keeps.

Lemma map_getitem_keeps eid : keeps (map_getitem eid).
Proof. unfold map_getitem. keep. Qed.
Hint Resolve map_getitem_keeps : keeps.

Lemma find_auth_event_keeps room key aids : keeps (find_auth_event room key aids).
Proof. induction aids; simpl; keep. Qed.
Hint Resolve find_auth_event_keeps : keeps.

Lemma power_level_keeps room eid : keeps (_get_power_level_for_sender room eid).
Proof. unfold _get_power_level_for_sender. keep. Qed.
Hint Resolve power_level_keeps : keeps.

Lemma add_chain_loop_keeps fuel room full g state : keeps (add_chain_loop fuel room full g state).
Proof.
  revert g state. induction fuel as [|fuel IH]; intros g [|eid state]; simpl; keep.
Qed.
Hint Resolve add_chain_loop_keeps : keeps.

Lemma build_graph_keeps fuel room full ids :
  Forall keeps ids → keeps (build_graph fuel room full ids).
Proof.
  intros Hids. unfold build_graph. generalize (∅ : graph).
  induction Hids as [|m ids Hm Hids IH]; intros g; simpl; [apply keeps_ret|].
  unfold _add_event_and_auth_chain_to_graph in *. keep.
Qed.
Hint Resolve build_graph_keeps : keeps.

Lemma power_events_keeps full : Forall keeps (power_events full).
Proof. unfold power_events. apply Forall_fmap, Forall_true. intros eid. simpl. keep. Qed.
Hint Resolve power_events_keeps : keeps.

Lemma graph_levels_keeps room ids : keeps (graph_levels room ids).
Proof. unfold graph_levels. keep. Qed.
Hint Resolve graph_levels_keeps : keeps.

Lemma power_sort_keeps fuel room ids full :
  Forall keeps ids → keeps (_reverse_topological_power_sort fuel room ids full).
Proof. unfold _reverse_topological_power_sort. keep. Qed.
Hint Resolve power_sort_keeps : keeps.

Lemma mainline_loop_keeps fuel room pl : keeps (mainline_loop fuel room pl).
Proof. revert pl. induction fuel as [|fuel IH]; intros pl; simpl; keep. Qed.
Hint Resolve mainline_loop_keeps : keeps.

Lemma depth_loop_keeps fuel room m e : keeps (depth_loop fuel room m e).
Proof. revert e. induction fuel as [|fuel IH]; intros e; simpl; keep. Qed.
Hint Resolve depth_loop_keeps : keeps.

Lemma add_order_keeps fuel m l ev_id : keeps (add_order fuel m l ev_id).
Proof. unfold add_order, _get_mainline_depth_for_event. keep. Qed.
Hint Resolve add_order_keeps : keeps.

Lemma mainline_sort_keeps fuel room ids pl : keeps (_mainline_sort fuel room ids pl).
Proof. unfold _mainline_sort. keep. Qed.
Hint Resolve mainline_sort_keeps : keeps.

Lemma collect_auth_events_keeps room rv st ev : keeps (collect_auth_events room rv st ev).
Proof. unfold collect_auth_events, add_own_auth_event, add_resolved_auth_event. keep. Qed.
Hint Resolve collect_auth_events_keeps : keeps.

(** ** Applying events *)

Lemma check_rules_same_event event auths event' :
  check_state_dependent_auth_rules event auths = Ok event' → same_event event event'.
Proof.
  unfold check_state_dependent_auth_rules. case_decide; [by intros [= <-]|].
  intros (d & _ & Hc)%bind_ok. unfold check_against_state in Hc.
  repeat match type of Hc with
  | (_ ≫= _) = Ok _ => apply bind_ok in Hc as (? & ? & Hc)
  | Ok _ = Ok _ => by injection Hc as <-
  | Err _ = Ok _ => discriminate Hc
  | snd <$> _ = Ok _ => apply fmap_ok in Hc as ([? ?] & Hc & ->)
  | (match ?x with _ => _ end) = Ok _ => destruct x
  end.
  unfold check_redaction in Hc.
  repeat match type of Hc with
  | (_ ≫= _) = Ok _ => apply bind_ok in Hc as (? & ? & Hc)
  | Ok _ = Ok _ => injection Hc as <- <-; unfold same_event; reflexivity
  | Err _ = Ok _ => discriminate Hc
  | (match ?x with _ => _ end) = Ok _ => destruct x
  end.
Qed.

(** The map knows an event of that key under the id. *)
Definition entered (em : EventMap) (k : string * string) (v : string) : Prop :=
  ∃ ev ev', em !! v = Some ev' ∧ same_event ev ev' ∧ event_key ev = Ok k.

Lemma entered_grows em em' k v : grows em em' → entered em k v → entered em' k v.
Proof.
  intros Hg (ev & ev' & Hem & Hs & Hrest).
  destruct (Hg _ _ Hem) as (ev2 & Hem' & Hs'). exists ev, ev2.
  split; [done|]. split; [by trans ev'|done].
Qed.

Lemma _get_event_some room eid b em ev em' :
  returns (_get_event room eid b) em (Some ev) em' → em' !! eid = Some ev ∧ room_id ev = room.
Proof.
  intros Hr. unfold _get_event in Hr.
  apply returns_bind in Hr as (em0 & ? & [-> ->]%returns_get & Hr).
  apply returns_bind in Hr as ([] & em1 & _ & Hr).
  apply returns_bind in Hr as (em2 & ? & [-> ->]%returns_get & Hr).
  destruct (em1 !! eid) as [e|] eqn:He.
  - case_bool_decide; autorewrite with synapse_rw in Hr; destruct Hr as [? ->]; [|done].
    by simplify_eq.
  - destruct b; autorewrite with synapse_rw in Hr; by destruct Hr.
Qed.

Lemma get_event_some room eid em ev em' :
  returns (get_event room eid) em ev em' → em' !! eid = Some ev ∧ room_id ev = room.
Proof.
  intros Hr. unfold get_event in Hr. apply returns_bind in Hr as ([e|] & em1 & Hg & Hr).
  - apply returns_ret in Hr as [-> ->]. by apply _get_event_some in Hg.
  - apply returns_lift in Hr. by destruct Hr.
Qed.

Lemma map_getitem_some eid em ev em' :
  returns (map_getitem eid) em ev em' → em !! eid = Some ev ∧ em' = em.
Proof.
  unfold map_getitem. intros (em0 & ? & [-> ->]%returns_get & Hr)%returns_bind.
  apply returns_lift in Hr as [Hr ->]. unfold getitem in Hr. by destruct (em !! eid); simplify_eq.
Qed.

Lemma auth_check_one_spec room rv st eid em st' em' :
  map_Forall good em → returns (auth_check_one room rv st eid) em st' em' →
  map_Forall good em' ∧ grows em em' ∧
  (st' = st ∨ ∃ k, st' = <[k := eid]> st ∧ entered em' k eid).
Proof.
  intros Hg Hr. unfold auth_check_one in Hr.
  apply returns_bind in Hr as (event & ? & [Hev ->]%map_getitem_some & Hr).
  apply returns_bind in Hr as (auths & em1 & Hc & Hr).
  destruct (collect_auth_events_keeps _ _ _ _ _ _ _ Hg Hc) as [Hg1 Hgr1].
  destruct (rejected_reason event) eqn:Hrej.
  { apply returns_ret in Hr as [-> ->]. auto. }
  unfold try_apply in Hr.
  destruct (check_state_dependent_auth_rules event auths.*2) as [event'|e] eqn:Hchk; cycle 1.
  { destruct (is_AuthError e); autorewrite with synapse_rw in Hr; destruct Hr as [Hr ->]; [|done].
    auto. }
  pose proof (check_rules_same_event _ _ _ Hchk) as Hsame.
  apply returns_bind in Hr as (? & ? & [-> ->]%returns_get & Hr).
  apply returns_bind in Hr as ([] & em2 & ->%returns_set & Hr).
  apply returns_bind in Hr as (k & ? & [Hk ->]%returns_lift & Hr).
  apply returns_ret in Hr as [-> ->].
  destruct (Hgr1 _ _ Hev) as (e1 & He1 & Hse1).
  assert (Hgr : grows em1 (<[eid := event']> em1)).
  { intros id e He. destruct (decide (id = eid)) as [->|Hne].
    - rewrite lookup_insert_eq. exists event'. split; [done|]. simplify_eq. by rewrite <- Hse1.
    - rewrite lookup_insert_ne by done. by exists e. }
  split_and!.
  - apply map_Forall_insert_2; [|done]. by apply (good_same _ event); [|apply Hg].
  - by trans em1.
  - right. exists k. split; [done|]. exists event, event'.
    rewrite lookup_insert_eq. split_and!; try done.
    rewrite event_key_ok in Hk |- *. destruct Hk as [-> Hk].
    unfold same_event in Hsame. destruct event, event'. simpl in *. by simplify_eq.
Qed.

Lemma iterative_auth_checks_spec room rv ids base em r em' :
  map_Forall good em → returns (_iterative_auth_checks room rv ids base) em r em' →
  map_Forall good em' ∧ grows em em' ∧
  ∀ k v, r !! k = Some v → base !! k = Some v ∨ (v ∈ ids ∧ entered em' k v).
Proof.
  intros Hg. apply (foldM_ind (λ r em1, map_Forall good em1 ∧ grows em em1 ∧
    ∀ k v, r !! k = Some v → base !! k = Some v ∨ (v ∈ ids ∧ entered em1 k v))).
  - intros st eid em1 st' em2 Hin (Hg1 & Hgr & Hst) Hs.
    destruct (auth_check_one_spec _ _ _ _ _ _ _ Hg1 Hs) as (Hg2 & Hgr2 & Hcase).
    assert (Hold : ∀ k v, st !! k = Some v →
      base !! k = Some v ∨ (v ∈ ids ∧ entered em2 k v)).
    { intros k v [?|[? Ha]]%Hst; [by left|right]. split; [done|]. by eapply entered_grows. }
    split_and!; [done|by trans em1|].
    destruct Hcase as [->|(k0 & -> & Ha)]; [done|].
    intros k v. destruct (decide (k = k0)) as [->|Hne].
    + rewrite lookup_insert_eq. intros [= <-]. by right.
    + rewrite lookup_insert_ne by done. apply Hold.
  - split_and!; [done|done|]. by left.
Qed.
End keeps.
