(* ===== verification/StateResProps.v ===== *)
(** * Properties of state resolution *)

From S2P Require Import Prelude PyVal Constants RoomVersions Events EventAuth TopoSort StateResV2 StateResLemmas.

(** ** Conflicts *)

Section seperate.
Context `{IterOrderOk}.
Context (state_sets : list (StateMap string)).

Definition ids_at (key : string * string) : gset (option string) :=
  list_to_set ((λ state_set : StateMap string, state_set !! key) <$> state_sets).

Definition known_at (key : string * string) : gset string :=
  list_to_set (omap id (elements (ids_at key))).

Lemma elem_of_ids_at key o : o ∈ ids_at key ↔ ∃ s, s ∈ state_sets ∧ s !! key = o.
Proof.
  unfold ids_at. rewrite elem_of_list_to_set, list_elem_of_fmap. naive_solver.
Qed.

Lemma elem_of_known_at key v : v ∈ known_at key ↔ ∃ s, s ∈ state_sets ∧ s !! key = Some v.
Proof.
  unfold known_at. rewrite elem_of_list_to_set, list_elem_of_omap.
  setoid_rewrite elem_of_elements. setoid_rewrite elem_of_ids_at. naive_solver.
Qed.

(** What the loop leaves at a key it visits. *)
Lemma seperate_fold l acc k :
  (k ∉ l → (foldl (seperate_key state_sets) acc l).1 !! k = acc.1 !! k ∧
           (foldl (seperate_key state_sets) acc l).2 !! k = acc.2 !! k) ∧
  (k ∈ l → acc.1 !! k = None → acc.2 !! k = None → NoDup l →
   (foldl (seperate_key state_sets) acc l).1 !! k =
     (if bool_decide (size (ids_at k) = 1%nat) then head (elements (known_at k)) else None) ∧
   (foldl (seperate_key state_sets) acc l).2 !! k =
     (if bool_decide (size (ids_at k) = 1%nat) then None else Some (known_at k))).
Proof.
  revert acc. induction l as [|x l IH]; intros acc; simpl; [set_solver|].
  assert (Hne : ∀ y, y ≠ x → (seperate_key state_sets acc x).1 !! y = acc.1 !! y ∧
    (seperate_key state_sets acc x).2 !! y = acc.2 !! y).
  { clear IH. intros y Hy. destruct acc as [u c]. unfold seperate_key.
    fold (ids_at x). fold (known_at x).
    case_bool_decide; [destruct (elements _)|]; simpl; rewrite ?lookup_insert_ne by congruence; done. }
  assert (Heq : acc.1 !! x = None → acc.2 !! x = None →
    (seperate_key state_sets acc x).1 !! x =
      (if bool_decide (size (ids_at x) = 1%nat) then head (elements (known_at x)) else None) ∧
    (seperate_key state_sets acc x).2 !! x =
      (if bool_decide (size (ids_at x) = 1%nat) then None else Some (known_at x))).
  { clear IH. intros H1 H2. destruct acc as [u c]. unfold seperate_key.
    fold (ids_at x). fold (known_at x).
    case_bool_decide; [destruct (elements _)|]; simpl in *; rewrite ?lookup_insert_eq; done. }
  destruct (IH (seperate_key state_sets acc x)) as [IHn IHy]. split.
  - rewrite not_elem_of_cons. intros [Hk Hl]. destruct (IHn Hl) as [-> ->]. by apply Hne.
  - intros Hk H1 H2 [Hx Hl]%NoDup_cons. destruct (decide (k = x)) as [->|Hkx].
    + destruct (IHn Hx) as [-> ->]. by apply Heq.
    + apply elem_of_cons in Hk as [?|Hk]; [done|]. destruct (Hne k Hkx) as [E1 E2].
      apply IHy; congruence.
Qed.

Lemma elem_of_state_keys k : k ∈ state_keys state_sets ↔ ∃ s, s ∈ state_sets ∧ is_Some (s !! k).
Proof.
  unfold state_keys. rewrite elem_of_union_list. setoid_rewrite list_elem_of_fmap.
  setoid_rewrite <- elem_of_dom. naive_solver.
Qed.

(** All the sets give the key the same value, or give it none. *)
Lemma ids_at_singleton k : size (ids_at k) = 1%nat ↔
  ∃ o, state_sets ≠ [] ∧ ∀ s, s ∈ state_sets → s !! k = o.
Proof.
  split.
  - intros [o Ho%leibniz_equiv]%size_1_elem_of. exists o. split.
    + intros Hnil. assert (o ∈ ids_at k) as Hin by (rewrite Ho; set_solver).
      apply elem_of_ids_at in Hin as (s & Hs & _). rewrite Hnil in Hs.
      by apply not_elem_of_nil in Hs.
    + intros s Hs. assert (s !! k ∈ ids_at k) as Hin by (apply elem_of_ids_at; eauto).
      rewrite Ho in Hin. set_solver.
  - intros (o & Hne & Hall). assert (ids_at k = {[o]}) as ->; [|apply size_singleton].
    apply set_eq. intros o'. rewrite elem_of_ids_at, elem_of_singleton. split.
    + intros (s & Hs & <-). by apply Hall.
    + intros ->. destruct state_sets as [|s l]; [done|]. exists s. split; [by left|].
      apply Hall. by left.
Qed.

Lemma seperate_lookup k :
  k ∈ state_keys state_sets →
  (_seperate state_sets).1 !! k =
    (if bool_decide (size (ids_at k) = 1%nat) then head (elements (known_at k)) else None) ∧
  (_seperate state_sets).2 !! k =
    (if bool_decide (size (ids_at k) = 1%nat) then None else Some (known_at k)).
Proof.
  intros Hk. unfold _seperate.
  destruct (seperate_fold (set_iter (state_keys state_sets)) (∅, ∅) k) as [_ Hy].
  apply Hy; [by apply elem_of_set_iter|apply lookup_empty|apply lookup_empty|apply NoDup_set_iter].
Qed.

Lemma seperate_lookup_none k :
  k ∉ state_keys state_sets →
  (_seperate state_sets).1 !! k = None ∧ (_seperate state_sets).2 !! k = None.
Proof.
  intros Hk. unfold _seperate.
  destruct (seperate_fold (set_iter (state_keys state_sets)) (∅, ∅) k) as [Hn _].
  rewrite elem_of_set_iter in Hn. destruct (Hn Hk) as [-> ->]. split; apply lookup_empty.
Qed.

Lemma head_singleton {A} `{Countable A} (X : gset A) v :
  (∀ x, x ∈ X ↔ x = v) → head (elements X) = Some v.
Proof.
  intros HX. assert (X = {[v]}) as -> by set_solver. by rewrite elements_singleton.
Qed.

Lemma unconflicted_spec k v :
  (_seperate state_sets).1 !! k = Some v ↔
  state_sets ≠ [] ∧ ∀ s, s ∈ state_sets → s !! k = Some v.
Proof.
  split.
  - intros Hu. destruct (decide (k ∈ state_keys state_sets)) as [Hk|Hk]; cycle 1.
    { destruct (seperate_lookup_none k Hk). congruence. }
    destruct (seperate_lookup k Hk) as [Hl _]. rewrite Hu in Hl. case_bool_decide as Hsz; [|done].
    apply ids_at_singleton in Hsz as (o & Hne & Hall). split; [done|]. intros s Hs.
    rewrite (Hall s Hs). symmetry in Hl. apply head_Some_elem_of, elem_of_elements in Hl.
    apply elem_of_known_at in Hl as (s' & Hs' & Hv). by rewrite <- (Hall s' Hs').
  - intros [Hne Hall]. assert (Hk : k ∈ state_keys state_sets).
    { apply elem_of_state_keys. destruct state_sets as [|s l]; [done|]. exists s.
      split; [by left|]. rewrite Hall by (by left). by eexists. }
    destruct (seperate_lookup k Hk) as [-> _].
    rewrite bool_decide_true by (apply ids_at_singleton; eauto).
    apply head_singleton. intros x. rewrite elem_of_known_at. split.
    + intros (s & Hs & Hx). rewrite Hall in Hx by done. congruence.
    + intros ->. destruct state_sets as [|s l]; [done|]. exists s. split; [by left|].
      apply Hall. by left.
Qed.

Lemma conflicted_spec k V :
  (_seperate state_sets).2 !! k = Some V ↔
  k ∈ state_keys state_sets ∧
  ¬ (∃ v, ∀ s, s ∈ state_sets → s !! k = Some v) ∧
  ∀ v, v ∈ V ↔ ∃ s, s ∈ state_sets ∧ s !! k = Some v.
Proof.
  destruct (decide (k ∈ state_keys state_sets)) as [Hk|Hk]; cycle 1.
  { destruct (seperate_lookup_none k Hk) as [_ ->]. naive_solver. }
  destruct (seperate_lookup k Hk) as [_ ->].
  assert (Hsz : size (ids_at k) = 1%nat ↔ ∃ v, ∀ s, s ∈ state_sets → s !! k = Some v).
  { rewrite ids_at_singleton. apply elem_of_state_keys in Hk as (s0 & Hs0 & v0 & Hv0). split.
    - intros (o & _ & Hall). exists v0. intros s Hs. rewrite (Hall s Hs).
      by rewrite <- (Hall s0 Hs0).
    - intros (v & Hall). exists (Some v). split; [|done]. intros Hnil. rewrite Hnil in Hs0. by apply not_elem_of_nil in Hs0. }
  case_bool_decide as Hd; [naive_solver|].
  setoid_rewrite <- elem_of_known_at. split.
  - intros [= <-]. split_and!; [done|by rewrite <- Hsz|done].
  - intros (_ & _ & HV). f_equal. set_solver.
Qed.
End seperate.

(** ** The graph of the power events *)

Section graph.
Context `{IterOrderOk} `{!StateResolutionStore, !Crypto} (db : EventMap) `{!StoreLaws _ db}.

(** The map only grows (an instance of [keeps] with nothing to keep). *)
Definition steady {A} (m : SR A) : Prop := ∀ em a em', returns m em a em' → grows em em'.

Lemma keeps_steady {A} (m : SR A) : keeps (λ _ _, True) m → steady m.
Proof. intros Hk em a em' Hr. by destruct (Hk em a em' (λ _ _ _, I) Hr). Qed.

Lemma get_event_steady room eid : steady (get_event room eid).
Proof. by apply keeps_steady, (get_event_keeps db). Qed.

Lemma power_level_steady room eid : steady (_get_power_level_for_sender room eid).
Proof. by apply keeps_steady, (power_level_keeps db). Qed.

Record graph_inv (full : gset string) (em : EventMap) (g : graph) (stack : list string) : Prop := {
  gi_edges : ∀ n es, g !! n = Some es →
    ∃ e, em !! n = Some e ∧ ∀ a, a ∈ es ↔ a ∈ full ∧ a ∈ auth_event_ids e;
  gi_closed : ∀ n es a, g !! n = Some es → a ∈ es → a ∈ dom g ∨ a ∈ stack;
  gi_full : dom g ⊆ full;
  gi_stack : ∀ a, a ∈ stack → a ∈ full
}.

Lemma same_event_auth e e' : same_event e e' → auth_event_ids e' = auth_event_ids e.
Proof. unfold same_event. destruct e, e'. simpl. intros [=]. by subst. Qed.

Lemma graph_inv_grows full em em' g stack :
  grows em em' → graph_inv full em g stack → graph_inv full em' g stack.
Proof.
  intros Hgr [He Hc Hf Hs]. split; [|done..]. intros n es Hn.
  destruct (He n es Hn) as (e & Hem & Hes). destruct (Hgr _ _ Hem) as (e' & Hem' & Hsame).
  exists e'. split; [done|]. intros a. by rewrite Hes, (same_event_auth _ _ Hsame).
Qed.

(** The loop over the auth events: the node's edges and the ids pushed. *)
Lemma add_auth_edges full eid aids state g es0 :
  g !! eid = Some es0 →
  ∃ es, (foldl (add_auth_edge full eid) (state, g) aids).2 = <[eid := es]> g ∧
    (∀ a, a ∈ es ↔ a ∈ es0 ∨ (a ∈ full ∧ a ∈ aids)) ∧
    (∀ a, a ∈ (foldl (add_auth_edge full eid) (state, g) aids).1 ↔
       a ∈ state ∨ (a ∈ full ∧ (a ∉ dom g) ∧ a ∈ aids)).
Proof.
  revert state g es0. induction aids as [|x aids IH]; intros state g es0 Hg; simpl.
  - exists es0. rewrite insert_id by done. set_solver.
  - case_bool_decide as Hx; cycle 1.
    { destruct (IH state g es0 Hg) as (es & -> & Hes & Hst). exists es. set_solver. }
    unfold setdefault_add. rewrite Hg. simpl.
    destruct (IH (if bool_decide (x ∈ dom g) then state else x :: state)
                 (<[eid := {[x]} ∪ es0]> g) ({[x]} ∪ es0)) as (es & -> & Hes & Hst);
      [by rewrite lookup_insert_eq|].
    exists es. rewrite insert_insert_eq. split; [done|]. split; [set_solver|].
    intros a. rewrite Hst. apply elem_of_dom_2 in Hg.
    assert (Hd : dom (<[eid := {[x]} ∪ es0]> g) = dom g) by (rewrite dom_insert_L; set_solver).
    rewrite Hd, elem_of_cons. case_bool_decide; [|rewrite elem_of_cons]; naive_solver.
Qed.

Lemma setdefault_lookup k d : setdefault k d !! k = Some (default ∅ (d !! k)).
Proof.
  unfold setdefault. destruct (d !! k) eqn:Hk; [done|]. by rewrite lookup_insert_eq.
Qed.

Lemma setdefault_lookup_ne k d n : n ≠ k → setdefault k d !! n = d !! n.
Proof.
  intros Hn. unfold setdefault. destruct (d !! k) eqn:Hk; [done|]. by rewrite lookup_insert_ne.
Qed.

Lemma add_chain_loop_inv fuel room full g stack em g' em' :
  graph_inv full em g stack →
  returns (add_chain_loop fuel room full g stack) em g' em' →
  graph_inv full em' g' [] ∧ grows em em' ∧ dom g ⊆ dom g' ∧ (∀ a, a ∈ stack → a ∈ dom g').
Proof.
  revert g stack em. induction fuel as [|fuel IH]; intros g stack em Hinv; simpl.
  { by intros ?%returns_no_fuel. }
  destruct stack as [|eid stack].
  { intros [-> ->]%returns_ret. split_and!; [done..|]. by intros a ?%not_elem_of_nil. }
  intros (event & em1 & Hget & Hr)%returns_bind.
  pose proof (get_event_steady _ _ _ _ _ Hget) as Hgr1.
  apply get_event_some in Hget as [Hev _].
  apply (graph_inv_grows _ _ em1) in Hinv; [|done].
  destruct (add_auth_edges full eid (auth_event_ids event) stack (setdefault eid g) _
    (setdefault_lookup eid g)) as (es & Hg2 & Hes & Hst).
  destruct (foldl _ _ _) as [stack2 g2]. simpl in Hg2, Hst. subst g2.
  assert (Hdom : dom (<[eid := es]> (setdefault eid g)) = {[eid]} ∪ dom g).
  { rewrite dom_insert_L, dom_setdefault. set_solver. }
  destruct Hinv as [He Hc Hf Hs].
  assert (Hinv2 : graph_inv full em1 (<[eid := es]> (setdefault eid g)) stack2).
  { split.
    - intros n es'. destruct (decide (n = eid)) as [->|Hne].
      + rewrite lookup_insert_eq. intros [= <-]. exists event. split; [done|]. intros a.
        rewrite Hes. destruct (g !! eid) as [es0|] eqn:Hg0; simpl; [|set_solver].
        destruct (He eid es0 Hg0) as (e & Hem & Hes0). simplify_eq. rewrite Hes0. tauto.
      + rewrite lookup_insert_ne, setdefault_lookup_ne by done. apply He.
    - intros n es' a. rewrite Hdom, Hst, dom_setdefault. destruct (decide (n = eid)) as [->|Hne].
      + rewrite lookup_insert_eq. intros [= <-] [Ha|[Ha1 Ha2]]%Hes.
        * destruct (g !! eid) as [es0|] eqn:Hg0; simpl in Ha; [|set_solver].
          destruct (Hc eid es0 a Hg0 Ha); set_solver.
        * destruct (decide (a ∈ {[eid]} ∪ dom g)); [by left|]. right. right. done.
      + rewrite lookup_insert_ne, setdefault_lookup_ne by done. intros Hn Ha.
        destruct (Hc n es' a Hn Ha) as [?|[->|?]%elem_of_cons]; set_solver.
    - rewrite Hdom. specialize (Hs eid). set_solver.
    - intros a. rewrite Hst. intros [Ha|[? _]]; [|done]. apply Hs. by right. }
  destruct (IH _ _ _ Hinv2 Hr) as (Hinv' & Hgr & Hsub & Hstk).
  rewrite Hdom in Hsub. split_and!; [done|by trans em1|set_solver|].
  intros a [->|Ha]%elem_of_cons; [set_solver|]. apply Hstk, Hst. by left.
Qed.

Lemma same_event_power e e' : same_event e e' → _is_power_event e = _is_power_event e'.
Proof.
  intros Hs. transitivity (_is_power_event (set_recheck_redaction e)); [reflexivity|].
  rewrite Hs. reflexivity.
Qed.

Definition power_event_id (eid : string) : SR (option string) :=
  event ← map_getitem eid;
  p ← lift (_is_power_event event);
  mret (if p : bool then Some eid else None).

Definition add_power_event (fuel : nat) (room : string) (full : gset string) (g : graph)
    (next : SR (option string)) : SR graph :=
  eid ← next;
  match eid with
  | Some eid => _add_event_and_auth_chain_to_graph fuel room full g eid
  | None => mret g
  end.

(** One power event more in the graph. *)
Lemma add_power_event_inv fuel room full g x em g' em' :
  graph_inv full em g [] → x ∈ full →
  returns (add_power_event fuel room full g (power_event_id x)) em g' em' →
  graph_inv full em' g' [] ∧ grows em em' ∧ dom g ⊆ dom g' ∧
  ∃ e, em' !! x = Some e ∧ (_is_power_event e = Ok true → x ∈ dom g').
Proof.
  intros Hinv Hx (o & em2 & Hgen & Hr)%returns_bind.
  apply returns_bind in Hgen as (ev & ? & [Hev ->]%map_getitem_some & Hgen).
  apply returns_bind in Hgen as (p & ? & [Hp ->]%returns_lift & [-> ->]%returns_ret).
  destruct p.
  - destruct (add_chain_loop_inv fuel room full g [x] em g' em') as (Hi & Hgr & Hsub & Hin);
      [|done|].
    + destruct Hinv as [He Hc Hf Hs]. split; [done| |done|].
      * intros n es a Hn Ha. destruct (Hc n es a Hn Ha) as [?|?%not_elem_of_nil]; [by left|done].
      * by intros a ->%list_elem_of_singleton.
    + split_and!; [done..|]. destruct (Hgr _ _ Hev) as (e & He & _). exists e.
      split; [done|]. intros _. apply Hin. by left.
  - apply returns_ret in Hr as [-> ->]. split_and!; [done..|]. exists ev. split; [done|].
    congruence.
Qed.

Lemma build_graph_fold fuel room full l g em g' em' :
  graph_inv full em g [] → (∀ x, x ∈ l → x ∈ full) →
  returns (foldM (add_power_event fuel room full) (power_event_id <$> l) g) em g' em' →
  graph_inv full em' g' [] ∧ grows em em' ∧ dom g ⊆ dom g' ∧
  ∀ eid, eid ∈ l → ∃ e, em' !! eid = Some e ∧ (_is_power_event e = Ok true → eid ∈ dom g').
Proof.
  revert g em. induction l as [|x l IH]; intros g em Hinv Hl Hr; simpl in Hr.
  { apply returns_ret in Hr as [-> ->]. split_and!; [done..|].
    by intros eid ?%not_elem_of_nil. }
  apply returns_bind in Hr as (g1 & em1 & Hx & Hr).
  apply add_power_event_inv in Hx as (Hi1 & Hgr1 & Hsub1 & e1 & He1 & Hx1);
    [|done|apply Hl; by left].
  destruct (IH g1 em1 Hi1) as (Hi2 & Hgr2 & Hsub2 & Hpow);
    [by intros y Hy; apply Hl; right|done|].
  split_and!; [done|by trans em1|set_solver|].
  intros eid [->|Hin]%elem_of_cons; [|by apply Hpow].
  destruct (Hgr2 _ _ He1) as (e' & He' & Hs). exists e'. split; [done|].
  intros Hpe. apply Hsub2, Hx1. by rewrite (same_event_power _ _ Hs).
Qed.

Lemma build_graph_inv fuel room full em g em' :
  returns (build_graph fuel room full (power_events full)) em g em' →
  graph_inv full em' g [] ∧ grows em em' ∧
  ∀ eid, eid ∈ full → ∃ e, em' !! eid = Some e ∧ (_is_power_event e = Ok true → eid ∈ dom g).
Proof.
  intros Hr. destruct (build_graph_fold fuel room full (set_iter full) ∅ em g em')
    as (Hi & Hgr & _ & Hp).
  - by split; set_solver.
  - by intros x ?%elem_of_set_iter.
  - done.
  - split_and!; [done..|]. intros eid Hin. apply Hp. by apply elem_of_set_iter.
Qed.

Lemma graph_levels_spec room ids em m em' :
  returns (graph_levels room ids) em m em' →
  grows em em' ∧
  ∀ id, id ∈ ids → ∃ pl em1 em2, m !! id = Some pl ∧
    returns (_get_power_level_for_sender room id) em1 pl em2.
Proof.
  unfold graph_levels.
  assert (Hgen : ∀ (m0 : gmap string Z) em0, returns (foldM (λ event_to_pl eid,
      pl ← _get_power_level_for_sender room eid;
      mret (<[eid := pl]> event_to_pl)) ids m0) em0 m em' →
    grows em0 em' ∧
    (∀ id, id ∈ ids → ∃ pl em1 em2, m !! id = Some pl ∧
      returns (_get_power_level_for_sender room id) em1 pl em2) ∧
    (∀ id, id ∉ ids → m !! id = m0 !! id)); [|intros Hr; by destruct (Hgen _ _ Hr) as (? & ? & _)].
  induction ids as [|x ids IH]; intros m0 em0 Hr; simpl in Hr.
  { apply returns_ret in Hr as [-> ->]. split_and!; [done| |done]. by intros id ?%not_elem_of_nil. }
  apply returns_bind in Hr as (m1 & em1 & Hx & Hr).
  apply returns_bind in Hx as (pl & em2 & Hpl & [-> ->]%returns_ret).
  destruct (IH _ _ Hr) as (Hgr & Hin & Hout).
  pose proof (power_level_steady _ _ _ _ _ Hpl) as Hgr1.
  split_and!; [by trans em2| |].
  - intros id Hid. destruct (decide (id ∈ ids)) as [Hi|Hi]; [by apply Hin|].
    apply elem_of_cons in Hid as [->|]; [|done]. exists pl, em0, em2.
    rewrite (Hout x Hi), lookup_insert_eq. done.
  - intros id [Hne Hi]%not_elem_of_cons. rewrite (Hout id Hi). by rewrite lookup_insert_ne.
Qed.

(** The sort key of a power event. *)
Definition power_key (em : EventMap) (level : string → Z) (n : string) : sort_key :=
  (- level n, default 0 (origin_server_ts <$> em !! n), n).

(** The two loops leave what the sort needs: its key is defined on every node, and
    it returns the greedy order of the graph. *)
Lemma power_graph_sorts fuel room full em g em1 levels em2 :
  returns (build_graph fuel room full (power_events full)) em g em1 →
  returns (graph_levels room (dict_items g).*1) em1 levels em2 →
  graph_inv full em2 g [] ∧ grows em em2 ∧
  (∀ eid, eid ∈ full → ∃ e, em2 !! eid = Some e ∧ (_is_power_event e = Ok true → eid ∈ dom g)) ∧
  (∀ n, n ∈ dom g → ∃ em3 em4, returns (_get_power_level_for_sender room n) em3
     (default 0 (levels !! n)) em4) ∧
  ∃ l, lexicographical_topological_sort heap_item_le g (_get_power_order em2 levels) =
         Some (Ok l) ∧
       greedy heap_item_le g (power_key em2 (λ n, default 0 (levels !! n))) ∅ l.
Proof.
  intros (Hinv & Hgr1 & Hpow)%build_graph_inv [Hgr2 Hlv]%graph_levels_spec.
  apply (graph_inv_grows _ _ em2) in Hinv; [|done].
  assert (Hids : ∀ n, n ∈ dom g → n ∈ (dict_items g).*1).
  { intros n [es Hes]%elem_of_dom. apply list_elem_of_fmap. exists (n, es).
    by rewrite dict_items_perm, elem_of_map_to_list. }
  split_and!; [done|by trans em1| | |].
  - intros eid Hin. destruct (Hpow eid Hin) as (e1 & He1 & Hd).
    destruct (Hgr2 _ _ He1) as (e' & He' & Hsame). exists e'. split; [done|].
    by rewrite <- (same_event_power _ _ Hsame).
  - intros n Hn%Hids%Hlv. destruct Hn as (pl & e1 & e2 & Hpl & Hret). exists e1, e2. by rewrite Hpl.
  - apply lexicographical_topological_sort_greedy; [apply _..|].
    intros n Hn. unfold _get_power_order, power_key, getitem.
    destruct (Hlv n (Hids n Hn)) as (pl & ? & ? & Hpl & _).
    apply elem_of_dom in Hn as [es Hes]. destruct (gi_edges _ _ _ _ Hinv n es Hes) as (e & Hem & _).
    by rewrite Hem, Hpl.
Qed.

(** The power sort is the greedy order of the graph it builds. *)
Lemma power_sort_greedy fuel room full em l em' :
  returns (_reverse_topological_power_sort fuel room (power_events full) full) em l em' →
  ∃ (g : graph) (level : string → Z),
    graph_inv full em' g [] ∧ grows em em' ∧
    greedy heap_item_le g (power_key em' level) ∅ l ∧
    (∀ eid, eid ∈ full → ∃ e, em' !! eid = Some e ∧ (_is_power_event e = Ok true → eid ∈ dom g)) ∧
    (∀ n, n ∈ dom g → ∃ em1 em2, returns (_get_power_level_for_sender room n) em1 (level n) em2).
Proof.
  intros Hr. unfold _reverse_topological_power_sort in Hr.
  apply returns_bind in Hr as (g & em1 & Hg & Hr).
  apply returns_bind in Hr as (levels & em2 & Hlv & Hr).
  apply returns_bind in Hr as (em3 & ? & [-> ->]%returns_get & Hr).
  apply returns_lift_opt in Hr as [Hsort ->].
  destruct (power_graph_sorts _ _ _ _ _ _ _ _ Hg Hlv) as (Hinv & Hgr & Hpow & Hlev & l' & Hs & Hl').
  rewrite Hs in Hsort. simplify_eq. exists g, (λ n, default 0 (levels !! n)). done.
Qed.

(** Its graph is acyclic when auth events are. *)
Lemma graph_inv_acyclic full em g (rank : string → nat) :
  graph_inv full em g [] →
  (∀ id e a, em !! id = Some e → a ∈ auth_event_ids e → (rank a < rank id)%nat) →
  ∀ n es m, g !! n = Some es → m ∈ es → m ∈ dom g ∧ (rank m < rank n)%nat.
Proof.
  intros [He Hc _ _] Hrank n es m Hes Hm. destruct (He n es Hes) as (e & Hem & Hed).
  split; [by destruct (Hc n es m Hes Hm) as [?|?%not_elem_of_nil]|].
  apply (Hrank n e m Hem). by apply Hed.
Qed.
End graph.

Section mainline.
Context `{IterOrderOk} `{!StateResolutionStore, !Crypto} (db : EventMap) `{!StoreLaws _ db}.

Lemma add_order_fold fuel mm ids acc em om em' :
  returns (foldM (add_order fuel mm) ids acc) em om em' →
  ∃ ks, om = acc ++ ks ∧ Forall2 (λ id (k : sort_key), k.2 = id ∧
    ∃ ev em1 em2, em1 !! id = Some ev ∧
      returns (_get_mainline_depth_for_event fuel ev mm) em1 k.1.1 em2 ∧
      ∃ ev', em2 !! id = Some ev' ∧ k.1.2 = origin_server_ts ev') ids ks.
Proof.
  revert acc em. induction ids as [|id ids IH]; intros acc em Hr; simpl in Hr.
  { apply returns_ret in Hr as [-> ->]. exists []. by rewrite app_nil_r. }
  apply returns_bind in Hr as (acc1 & em1 & Hx & Hr). unfold add_order in Hx.
  apply returns_bind in Hx as (ev & ? & [Hev ->]%map_getitem_some & Hx).
  apply returns_bind in Hx as (d & em2 & Hd & Hx).
  apply returns_bind in Hx as (ev' & ? & [Hev' ->]%map_getitem_some & Hx).
  apply returns_ret in Hx as [-> ->]. destruct (IH _ _ Hr) as (ks & -> & Hks).
  exists ((d, origin_server_ts ev', id) :: ks). split; [by rewrite <- app_assoc|].
  constructor; [|done]. split; [done|]. exists ev, em, em2. eauto.
Qed.

Lemma number_from_out i l m x : x ∉ l → number_from i l m !! x = m !! x.
Proof.
  revert i m. induction l as [|y l IH]; intros i m; simpl; [done|].
  intros [Hne Hl]%not_elem_of_cons. rewrite IH by done. by rewrite lookup_insert_ne.
Qed.

Lemma number_from_in i l m j x :
  NoDup l → l !! j = Some x → number_from i l m !! x = Some (i + Z.of_nat j).
Proof.
  revert i m j. induction l as [|y l IH]; intros i m j Hnd; [by destruct j|].
  apply NoDup_cons in Hnd as [Hy Hnd]. destruct j as [|j]; simpl.
  - intros [= ->]. rewrite number_from_out by done. rewrite lookup_insert_eq. f_equal. lia.
  - intros Hj. rewrite (IH _ _ j) by done. f_equal. lia.
Qed.

(** The oldest event of the mainline has depth 1, the newest the length of the
    mainline, and no other event has one. *)
Lemma make_mainline_map_spec ml :
  NoDup ml →
  (∀ j x, ml !! j = Some x → make_mainline_map ml !! x = Some (Z.of_nat (length ml - j))) ∧
  (∀ x, x ∉ ml → make_mainline_map ml !! x = None).
Proof.
  intros Hnd. unfold make_mainline_map. split.
  - intros j x Hj. assert (Hlt : (j < length ml)%nat) by (by apply lookup_lt_Some in Hj).
    rewrite (number_from_in 1 _ _ (length ml - S j)).
    + f_equal. lia.
    + by rewrite <- Permutation_rev.
    + rewrite rev_alt. change (rev_append ml []) with (reverse ml). rewrite reverse_lookup by lia.
      replace (length ml - S (length ml - S j))%nat with j by lia. done.
  - intros x Hx. rewrite number_from_out; [apply lookup_empty|]. by rewrite <- Permutation_rev.
Qed.

(** The mainline sort permutes its input and sorts it by depth, time and id. *)
Lemma mainline_sort_spec fuel room ids pl em l em' :
  returns (_mainline_sort fuel room ids pl) em l em' → ids ≠ [] →
  ∃ mainline em1 (order : list sort_key),
    returns (match pl with None => mret [] | Some pl => mainline_loop fuel room pl end)
      em mainline em1 ∧
    l ≡ₚ ids ∧ l = order.*2 ∧ StronglySorted sort_key_le order ∧
    Forall (λ k : sort_key, ∃ ev em2 em3, em2 !! k.2 = Some ev ∧
      returns (_get_mainline_depth_for_event fuel ev (make_mainline_map mainline))
        em2 k.1.1 em3) order.
Proof.
  intros Hr Hne. unfold _mainline_sort in Hr. destruct ids as [|id0 ids0]; [done|].
  clear Hne. revert Hr. generalize (id0 :: ids0). intros ids Hr.
  apply returns_bind in Hr as (ml & em1 & Hml & Hr).
  apply returns_bind in Hr as (om & em2 & Hom & [-> ->]%returns_ret).
  apply add_order_fold in Hom as (ks & -> & Hks). simpl. unfold sort_ids.
  assert (Hids : ks.*2 = ids).
  { induction Hks as [|? ? ? ? [<- _] _ IH]; [done|]. rewrite fmap_cons. by f_equal. }
  exists ml, em1, (merge_sort sort_key_le ks). split_and!; [done| |done| |].
  - by rewrite merge_sort_Permutation, Hids.
  - apply StronglySorted_merge_sort; apply _.
  - rewrite merge_sort_Permutation. clear Hids.
    induction Hks as [|? ? ? ? [<- (ev & e1 & e2 & Hev & Hd & _)] _ IH]; constructor; eauto 6.
Qed.

Lemma mainline_sort_perm fuel room ids pl em l em' :
  returns (_mainline_sort fuel room ids pl) em l em' → l ≡ₚ ids.
Proof.
  intros Hr. destruct (decide (ids = [])) as [->|Hne].
  - by apply returns_ret in Hr as [-> _].
  - by destruct (mainline_sort_spec _ _ _ _ _ _ _ Hr Hne) as (? & ? & ? & _ & ? & _).
Qed.
End mainline.

Section resolve.
Context `{IterOrderOk} `{!StateResolutionStore, !Crypto} (db : EventMap) `{!StoreLaws _ db}.

Lemma fetch_conflicted_spec room X em full em' :
  returns (fetch_conflicted room X) em full em' →
  full = X ∩ dom em' ∧ grows em em' ∧ em' = filter (λ ie, ie.1 ∈ X ∖ dom em) db ∪ em ∧
  ∀ id e, em' !! id = Some e → room_id e = room.
Proof.
  intros Hr. unfold fetch_conflicted in Hr.
  apply returns_bind in Hr as (? & ? & [-> ->]%returns_get & Hr).
  apply returns_bind in Hr as ([] & em1 & Hu%returns_update & Hr).
  apply returns_bind in Hr as (? & ? & [-> ->]%returns_get & Hr).
  apply returns_bind in Hr as ([] & ? & [Hroom ->]%returns_lift & [-> ->]%returns_ret).
  destruct (fetch_keeps db (λ _ _, True) (λ _ _ _, I) em
    (filter (λ eid, eid ∉ dom em) (set_iter X))) as [_ Hgr].
  { by intros ? ? ?. }
  { intros id [Hid _]%list_elem_of_filter. by apply not_elem_of_dom. }
  rewrite <- Hu in Hgr. split_and!; [|done| |].
  - apply set_eq. intros x. rewrite elem_of_filter, elem_of_intersection. tauto.
  - rewrite Hu, get_events_spec. f_equal. apply map_filter_ext. intros id e _. simpl.
    rewrite list_elem_of_filter, elem_of_set_iter, elem_of_difference. tauto.
  - intros id e He. unfold check_rooms in Hroom. apply iter_res_ok in Hroom.
    rewrite Forall_forall in Hroom. specialize (Hroom (id, e)).
    rewrite dict_items_perm, elem_of_map_to_list in Hroom. specialize (Hroom He).
    apply raise_if_ok in Hroom. simpl in Hroom. by apply negb_false_iff, bool_decide_eq_true in Hroom.
Qed.

(** Resolving a fetched conflicted set keeps the unconflicted state and adds only
    events of the set, each under its own key. *)
Lemma resolve_conflicted_spec fuel room rv u full em r em' :
  returns (resolve_conflicted fuel room rv u full) em r em' →
  grows em em' ∧
  (∀ k v, u !! k = Some v → r !! k = Some v) ∧
  (∀ k v, r !! k = Some v → u !! k = Some v ∨ (v ∈ full ∧ entered em' k v)).
Proof.
  intros Hr. unfold resolve_conflicted in Hr.
  apply returns_bind in Hr as (pow & em1 & Hpow & Hr).
  apply returns_bind in Hr as (st1 & em2 & Hst1 & Hr).
  apply returns_bind in Hr as (left' & em3 & Hleft & Hr).
  apply returns_bind in Hr as (st2 & em4 & Hst2 & [-> ->]%returns_ret).
  assert (Htriv : ∀ m : EventMap, map_Forall (λ _ _, True) m) by (by intros m ? ? ?).
  apply (power_sort_greedy db) in Hpow as (g & level & [_ _ Hf _] & Hgr1 & Hgreedy & _ & _).
  apply greedy_fresh in Hgreedy as [_ Hpow].
  destruct (iterative_auth_checks_spec db (λ _ _, True) ltac:(done) (Htriv _) _ _ _ _ _ _ _
    (Htriv _) Hst1) as (_ & Hgr2 & Hs1).
  pose proof (keeps_steady _ (mainline_sort_keeps db (λ _ _, True) (Htriv _) _ _ _ _)
    _ _ _ Hleft) as Hgr3.
  destruct (iterative_auth_checks_spec db (λ _ _, True) ltac:(done) (Htriv _) _ _ _ _ _ _ _
    (Htriv _) Hst2) as (_ & Hgr4 & Hs2).
  apply mainline_sort_perm in Hleft as Hperm.
  split_and!; [by trans em1; [|trans em2; [|trans em3]]| |].
  - intros k v Hk. by apply lookup_union_Some_l.
  - intros k v [Hk|[Hu Hk]]%lookup_union_Some_raw; [by left|].
    apply Hs2 in Hk as [Hk|[Hin Ha]].
    + apply Hs1 in Hk as [?|[Hin Ha]]; [by left|right]. split.
      * apply Hf. by apply Hpow.
      * apply (entered_grows em2); [by trans em3|done].
    + right. split; [|done]. rewrite Hperm in Hin. apply list_elem_of_filter in Hin as [_ Hin].
      by apply elem_of_set_iter in Hin.
Qed.

Lemma auth_chain_difference_map fuel room state_sets em d em' :
  returns (_get_auth_chain_difference fuel room state_sets) em d em' → em' = em.
Proof.
  intros Hr. unfold _get_auth_chain_difference in Hr.
  apply returns_bind in Hr as (? & ? & [-> ->]%returns_get & Hr).
  apply returns_bind in Hr as (ch & ? & [_ ->]%returns_lift_opt & Hr).
  apply returns_bind in Hr as ([ids part] & em1 & Hs & Hr).
  assert (em1 = em) as ->.
  { case_bool_decide; [by apply returns_ret in Hs as [_ ->]|].
    apply returns_bind in Hs as (i & ? & [_ ->]%returns_lift & Hs). by apply returns_ret in Hs as [_ ->]. }
  by apply returns_ret in Hr as [_ ->].
Qed.

Lemma elem_of_values {A} (m : StateMap A) v : v ∈ values m ↔ ∃ k, m !! k = Some v.
Proof.
  unfold values. rewrite list_elem_of_fmap. split.
  - intros ([k v'] & -> & Hin%elem_of_map_to_list). eauto.
  - intros [k Hk]. exists (k, v). by rewrite elem_of_map_to_list.
Qed.
End resolve.

(** ** What the events are checked against *)

(** The events the algorithm can know, [G], are those of the event map and, for ids it
    does not have, those of the store.  Events are compared up to the redaction-recheck
    mark, which the checks may set. *)
Definition known_as (G : EventMap) (id : string) (e : Event) : Prop :=
  ∃ e0, G !! id = Some e0 ∧ same_event e0 e.

Definition usable (G : EventMap) (id : string) : bool :=
  match G !! id with Some e => bool_decide (rejected_reason e = None) | None => false end.

(** The known, non-rejected auth events that an event names, by key; the last one of a
    key counts. *)
Definition own_step (G : EventMap) (m : StateMap string) (id : string) : StateMap string :=
  match G !! id with
  | Some e =>
      match rejected_reason e, event_key e with None, Ok k => <[k := id]> m | _, _ => m end
  | None => m
  end.
Definition own_auth (G : EventMap) (ids : list string) : StateMap string :=
  foldl (own_step G) ∅ ids.

(** The state an event is checked against: at the keys the auth rules ask for, the
    non-rejected events of the state resolved so far; elsewhere the event's own auth
    events. *)
Definition auth_state (G : EventMap) (keys : gset (string * string)) (st : StateMap string)
    (e : Event) : StateMap string :=
  filter (λ kv, kv.1 ∈ keys ∧ usable G kv.2 = true) st ∪ own_auth G (auth_event_ids e).

(** [l] holds exactly the events of the state [A]. *)
Record represents (G : EventMap) (A : StateMap string) (l : list ((string * string) * Event)) : Prop := {
  rep_nodup : NoDup l.*1;
  rep_sound : ∀ k e, (k, e) ∈ l → ∃ id, A !! k = Some id ∧ known_as G id e;
  rep_complete : ∀ k, is_Some (A !! k) → k ∈ l.*1
}.

(** One event after the other is checked against the state at that moment: it is
    entered if it is not rejected and the rules accept it, and left out if it is rejected
    or the rules refuse it with an [AuthError]. *)
Inductive checked `{Crypto} (G : EventMap) (rv : RoomVersion)
    : StateMap string → list string → StateMap string → Prop :=
  | checked_nil st : checked G rv st [] st
  | checked_accept st id ids st' e keys auths e' k :
      known_as G id e → rejected_reason e = None →
      auth_types_for_event rv e = Ok keys → represents G (auth_state G keys st e) auths →
      check_state_dependent_auth_rules e auths.*2 = Ok e' → event_key e = Ok k →
      checked G rv (<[k := id]> st) ids st' → checked G rv st (id :: ids) st'
  | checked_rejected st id ids st' e :
      known_as G id e → is_Some (rejected_reason e) →
      checked G rv st ids st' → checked G rv st (id :: ids) st'
  | checked_refused st id ids st' e keys auths err :
      known_as G id e → rejected_reason e = None →
      auth_types_for_event rv e = Ok keys → represents G (auth_state G keys st e) auths →
      check_state_dependent_auth_rules e auths.*2 = Err err → is_AuthError err = true →
      checked G rv st ids st' → checked G rv st (id :: ids) st'.

Lemma checked_entries `{Crypto} G rv st ids st' k v :
  checked G rv st ids st' → st' !! k = Some v →
  st !! k = Some v ∨ v ∈ ids ∧ ∃ e, known_as G v e ∧ event_key e = Ok k.
Proof.
  induction 1 as [|st id ids st' e keys auths e' k' He _ _ _ _ Hk _ IH
    |st id ids st' e _ _ _ IH|st id ids st' e keys auths err _ _ _ _ _ _ _ IH]; intros Hv; [by left|..].
  2-3: destruct (IH Hv) as [?|[? ?]]; [by left|right; split; [by right|done]].
  destruct (IH Hv) as [Hi|[? ?]]; [|right; split; [by right|done]].
  apply lookup_insert_Some in Hi as [[-> ->]|[_ ?]]; [|by left].
  right. split; [by left|by exists e].
Qed.

(** *** The dict of auth events *)

Lemma odict_set_keys {A} k (v : A) d k' : k' ∈ (odict_set k v d).*1 ↔ k' = k ∨ k' ∈ d.*1.
Proof.
  induction d as [|[k1 v1] d IH]; simpl; [by rewrite list_elem_of_singleton, elem_of_nil; naive_solver|].
  case_bool_decide; simpl; rewrite !elem_of_cons; [naive_solver|]. rewrite IH. naive_solver.
Qed.

Lemma odict_set_nodup {A} k (v : A) d : NoDup d.*1 → NoDup (odict_set k v d).*1.
Proof.
  induction d as [|[k1 v1] d IH]; simpl; [intros _; apply NoDup_singleton|].
  intros [Hn Hd]%NoDup_cons. case_bool_decide; simpl; [subst; by constructor|].
  constructor; [|by apply IH]. intros [->|?]%odict_set_keys; done.
Qed.

Lemma odict_set_elem {A} k (v : A) d k' v' :
  NoDup d.*1 → (k', v') ∈ odict_set k v d → k' = k ∧ v' = v ∨ k' ≠ k ∧ (k', v') ∈ d.
Proof.
  induction d as [|[k1 v1] d IH]; simpl.
  - intros _ [= -> ->]%list_elem_of_singleton. by left.
  - intros [Hn Hd]%NoDup_cons. case_bool_decide as Hk; rewrite !elem_of_cons.
    + subst k1. intros [[= -> ->]|Hin]; [by left|right]. split; [|by right].
      intros ->. apply Hn. by apply (list_elem_of_fmap_2 fst _ (k, v')).
    + intros [[= -> ->]|Hin]; [right; split; [done|by left]|].
      destruct (IH Hd Hin) as [?|[? ?]]; [by left|right; split; [done|by right]].
Qed.

Lemma represents_nil G : represents G ∅ [].
Proof.
  split; [constructor|by intros k e ?%not_elem_of_nil|]. intros k. rewrite lookup_empty. by intros [? ?].
Qed.

Lemma represents_set G A l k id e :
  known_as G id e → represents G A l → represents G (<[k := id]> A) (odict_set k e l).
Proof.
  intros He [Hn Hs Hc]. split.
  - by apply odict_set_nodup.
  - intros k' e' [[-> ->]|[Hne Hin]]%odict_set_elem; [exists id; by rewrite lookup_insert_eq| |done].
    rewrite lookup_insert_ne by done. by apply Hs.
  - intros k' Hk. apply odict_set_keys. destruct (decide (k' = k)) as [->|Hne]; [by left|right].
    rewrite lookup_insert_ne in Hk by done. by apply Hc.
Qed.

Lemma same_event_rejected e e' : same_event e e' → rejected_reason e = rejected_reason e'.
Proof. unfold same_event. destruct e, e'. simpl. intros [=]. by subst. Qed.

Lemma same_event_key_of e e' : same_event e e' → event_key e = event_key e'.
Proof. unfold same_event. destruct e, e'. simpl. intros [=]. by subst. Qed.

Lemma usable_known G id e : known_as G id e → usable G id = bool_decide (rejected_reason e = None).
Proof. intros (e0 & He0 & Hs). unfold usable. by rewrite He0, (same_event_rejected _ _ Hs). Qed.

Lemma own_step_known G m id e k :
  known_as G id e → rejected_reason e = None → event_key e = Ok k → own_step G m id = <[k := id]> m.
Proof.
  intros (e0 & He0 & Hs) Hrej Hk. unfold own_step.
  by rewrite He0, (same_event_rejected _ _ Hs), Hrej, (same_event_key_of _ _ Hs), Hk.
Qed.

Lemma own_step_rejected G m id e r :
  known_as G id e → rejected_reason e = Some r → own_step G m id = m.
Proof.
  intros (e0 & He0 & Hs) Hrej. unfold own_step. by rewrite He0, (same_event_rejected _ _ Hs), Hrej.
Qed.

(** One more key of the resolved state. *)
Lemma resolved_step (P : string → bool) (st m : StateMap string) (key : string * string) keys :
  filter (λ kv, kv.1 ∈ keys ∧ P kv.2 = true) st ∪
    match st !! key with Some id => if P id then <[key := id]> m else m | None => m end =
  filter (λ kv, kv.1 ∈ key :: keys ∧ P kv.2 = true) st ∪ m.
Proof.
  apply map_eq. intros k. rewrite !lookup_union, !map_lookup_filter.
  assert (Hm : k ≠ key → (match st !! key with Some id => if P id then <[key := id]> m else m | None => m end) !! k = m !! k).
  { intros Hne. destruct (st !! key) as [id|]; [|done]. destruct (P id); [|done]. by rewrite lookup_insert_ne. }
  destruct (decide (k = key)) as [->|Hne].
  - destruct (st !! key) as [id|]; simpl; [|done]. destruct (P id) eqn:HP.
    + rewrite lookup_insert_eq. rewrite (option_guard_True (key ∈ key :: keys ∧ true = true)) by (split; [by left|done]).
      destruct (decide (key ∈ keys)); [rewrite option_guard_True by done|rewrite option_guard_False by tauto]; by destruct (m !! key).
    + rewrite !option_guard_False by naive_solver. done.
  - rewrite (Hm Hne). destruct (st !! k) as [id|]; simpl; [|done].
    destruct (decide (k ∈ keys ∧ P id = true)) as [Hd|Hd].
    + rewrite !option_guard_True; [done| |done]. split; [right|]; by destruct Hd.
    + rewrite !option_guard_False; [done| |done]. intros [[->|?]%elem_of_cons ?]; tauto.
Qed.

(** *** The loops *)

Section checks.
Context `{IterOrderOk} `{!StateResolutionStore, !Crypto} (db : EventMap) `{!StoreLaws _ db}.
Context (em0 : EventMap).
Hypothesis same_events : ∀ id e e', em0 !! id = Some e → db !! id = Some e' → same_event e e'.
Let G : EventMap := em0 ∪ db.

(** The event map holds events of [G], and at least those it started with. *)
Definition of_world (em : EventMap) : Prop := map_Forall (known_as G) em ∧ grows em0 em.

Lemma known_as_same id e e' : same_event e e' → known_as G id e → known_as G id e'.
Proof. intros Hs (e0 & He0 & Hs0). exists e0. split; [done|]. by trans e. Qed.

Lemma db_known : map_Forall (known_as G) db.
Proof.
  intros id e' Hdb. unfold known_as, G. destruct (em0 !! id) as [e|] eqn:He.
  - exists e. split; [by apply lookup_union_Some_l|]. by eapply same_events.
  - exists e'. split; [by rewrite lookup_union_r|done].
Qed.

Lemma start_of_world : of_world em0.
Proof.
  split; [|done]. intros id e He. exists e. split; [by apply lookup_union_Some_l|done].
Qed.

Lemma keeps_of_world {A} (m : SR A) em a em' :
  keeps (known_as G) m → of_world em → returns m em a em' → of_world em'.
Proof. intros Hk [Hw Hg] Hr. destruct (Hk em a em' Hw Hr). split; [done|by trans em]. Qed.

Lemma get_event_of_world room id b em o em' :
  of_world em → returns (_get_event room id b) em o em' →
  of_world em' ∧ match o with Some e => known_as G id e | None => G !! id = None end.
Proof.
  intros Hw Hr. pose proof (keeps_of_world _ _ _ _
    (_get_event_keeps db (known_as G) db_known room id b) Hw Hr) as Hw'. split; [done|].
  destruct o as [e|]; [apply Hw'; by apply _get_event_some in Hr as [? _]|].
  unfold _get_event in Hr. apply returns_bind in Hr as (? & ? & [-> ->]%returns_get & Hr).
  apply returns_bind in Hr as ([] & em1 & Hu & Hr).
  apply returns_bind in Hr as (? & ? & [-> ->]%returns_get & Hr).
  destruct (em1 !! id) as [e|] eqn:He1.
  { case_bool_decide; autorewrite with synapse_rw in Hr; by destruct Hr. }
  assert (Hem : em !! id = None).
  { case_bool_decide as Hd; [|by apply not_elem_of_dom]. by apply returns_ret in Hu as [_ ->]. }
  rewrite bool_decide_false in Hu by (by apply not_elem_of_dom).
  apply returns_update in Hu as ->. apply lookup_union_None in He1 as [Hg _].
  apply lookup_union_None. split.
  - apply not_elem_of_dom. intros Hin. apply not_elem_of_dom in Hem. apply Hem.
    by apply (grows_dom _ _ (proj2 Hw)).
  - rewrite get_events_spec in Hg. destruct (db !! id) as [e|] eqn:Hdb; [|done].
    apply map_lookup_filter_None in Hg as [Hg|Hg]; [congruence|]. destruct (Hg e Hdb). by left.
Qed.

Lemma own_loop room ids m acc em auths em' :
  of_world em → represents G m acc →
  returns (foldM (add_own_auth_event room) ids acc) em auths em' →
  of_world em' ∧ represents G (foldl (own_step G) m ids) auths.
Proof.
  revert m acc em. induction ids as [|id ids IH]; intros m acc em Hw Hrep; simpl.
  { intros [-> ->]%returns_ret. done. }
  intros (acc1 & em1 & Hs & Hr)%returns_bind.
  assert (Hstep : of_world em1 ∧ represents G (own_step G m id) acc1); [|destruct Hstep; by eapply IH].
  unfold add_own_auth_event in Hs. apply returns_bind in Hs as (o & em2 & Ho & Hs).
  destruct (get_event_of_world _ _ _ _ _ _ Hw Ho) as [Hw2 Hk]. destruct o as [e|].
  2: { apply returns_ret in Hs as [-> ->]. unfold own_step. by rewrite Hk. }
  destruct (rejected_reason e) as [r|] eqn:Hrej.
  { apply returns_ret in Hs as [-> ->]. by rewrite (own_step_rejected _ _ _ _ _ Hk Hrej). }
  apply returns_bind in Hs as (k & ? & [Hkey ->]%returns_lift & [-> ->]%returns_ret).
  rewrite (own_step_known _ _ _ _ _ Hk Hrej Hkey). split; [done|]. by apply represents_set.
Qed.

Lemma resolved_loop (room : string) (st : StateMap string) (keys : list (string * string)) m acc em auths em' :
  of_world em → represents G m acc →
  returns (foldM (add_resolved_auth_event room st) keys acc) em auths em' →
  of_world em' ∧ represents G (filter (λ kv, kv.1 ∈ keys ∧ usable G kv.2 = true) st ∪ m) auths.
Proof.
  revert m acc em. induction keys as [|key keys IH]; intros m acc em Hw Hrep; simpl.
  { intros [-> ->]%returns_ret. split; [done|].
    replace (filter _ st) with (∅ : StateMap string); [by rewrite (left_id_L ∅ (∪))|].
    symmetry. apply map_empty. intros k. apply map_lookup_filter_None. right. set_solver. }
  intros (acc1 & em1 & Hs & Hr)%returns_bind.
  set (m1 := match st !! key with
             | Some id => if usable G id then <[key := id]> m else m | None => m end).
  assert (Hstep : of_world em1 ∧ represents G m1 acc1).
  { unfold add_resolved_auth_event in Hs. unfold m1. destruct (st !! key) as [id|].
    2: { by apply returns_ret in Hs as [-> ->]. }
    apply returns_bind in Hs as (e & em2 & He & Hs).
    pose proof (keeps_of_world _ _ _ _ (get_event_keeps db (known_as G) db_known room id) Hw He) as Hw2.
    apply get_event_some in He as [He _]. rewrite (usable_known _ _ _ (proj1 Hw2 _ _ He)).
    destruct (rejected_reason e) as [r|] eqn:Hrej.
    { apply returns_ret in Hs as [-> ->]. by rewrite bool_decide_false. }
    rewrite bool_decide_true by done.
    apply returns_bind in Hs as (e' & ? & [He' ->]%map_getitem_some & [-> ->]%returns_ret).
    split; [done|]. apply represents_set; [|done]. by apply Hw2. }
  destruct Hstep as [Hw1 Hrep1]. destruct (IH _ _ _ Hw1 Hrep1 Hr) as [Hw' Hrep']. split; [done|].
  by rewrite <- resolved_step.
Qed.

(** The auth events that are collected are those of [auth_state]. *)
Lemma collect_represents (room : string) (rv : RoomVersion) (st : StateMap string) (e : Event) em auths em' :
  of_world em → returns (collect_auth_events room rv st e) em auths em' →
  of_world em' ∧ ∃ keys, auth_types_for_event rv e = Ok keys ∧ represents G (auth_state G keys st e) auths.
Proof.
  intros Hw Hr. unfold collect_auth_events in Hr. apply returns_bind in Hr as (own & em1 & Ho & Hr).
  destruct (own_loop _ _ _ _ _ _ _ Hw (represents_nil G) Ho) as [Hw1 Hrep].
  apply returns_bind in Hr as (keys & ? & [Hkeys ->]%returns_lift & Hr).
  destruct (resolved_loop _ _ _ _ _ _ _ _ Hw1 Hrep Hr) as [Hw' Hrep']. split; [done|].
  exists keys. split; [done|]. unfold auth_state.
  replace (filter (λ kv, kv.1 ∈ keys ∧ usable G kv.2 = true) st)
    with (filter (λ kv, kv.1 ∈ set_iter keys ∧ usable G kv.2 = true) st); [done|].
  apply map_filter_ext. intros k id _. simpl. by rewrite elem_of_set_iter.
Qed.

Lemma auth_check_step (room : string) (rv : RoomVersion) (st : StateMap string) (id : string) em st1 em' :
  of_world em → returns (auth_check_one room rv st id) em st1 em' →
  of_world em' ∧ ∀ ids st', checked G rv st1 ids st' → checked G rv st (id :: ids) st'.
Proof.
  intros Hw Hr. split.
  { eapply keeps_of_world; [|exact Hw|exact Hr]. intros em1 a em2 Hg Hr1.
    by destruct (auth_check_one_spec db (known_as G) known_as_same db_known _ _ _ _ _ _ _ Hg Hr1) as (? & ? & _). }
  unfold auth_check_one in Hr. apply returns_bind in Hr as (e & ? & [He ->]%map_getitem_some & Hr).
  pose proof (proj1 Hw _ _ He) as Hknown.
  apply returns_bind in Hr as (auths & em1 & Hc & Hr).
  destruct (collect_represents _ _ _ _ _ _ _ Hw Hc) as (_ & keys & Hkeys & Hrep).
  destruct (rejected_reason e) as [r|] eqn:Hrej.
  { apply returns_ret in Hr as [-> _]. intros ids st' Hrest. eapply checked_rejected; eauto. }
  unfold try_apply in Hr.
  destruct (check_state_dependent_auth_rules e auths.*2) as [e'|err] eqn:Hchk.
  - apply returns_bind in Hr as (? & ? & [-> ->]%returns_get & Hr).
    apply returns_bind in Hr as ([] & em2 & _ & Hr).
    apply returns_bind in Hr as (k & ? & [Hk _]%returns_lift & [-> _]%returns_ret).
    rewrite <- (same_event_key_of _ _ (check_rules_same_event _ _ _ Hchk)) in Hk.
    intros ids st' Hrest. by eapply checked_accept.
  - destruct (is_AuthError err) eqn:Herr; autorewrite with synapse_rw in Hr; destruct Hr as [Hr _]; [|done].
    rewrite Hr. intros ids st' Hrest. by eapply checked_refused.
Qed.

Lemma iterative_checked (room : string) (rv : RoomVersion) (ids : list string) (st : StateMap string) em r em' :
  of_world em → returns (_iterative_auth_checks room rv ids st) em r em' →
  of_world em' ∧ checked G rv st ids r.
Proof.
  unfold _iterative_auth_checks. revert st em. induction ids as [|id ids IH]; intros st em Hw; simpl.
  { intros [-> ->]%returns_ret. split; [done|constructor]. }
  intros (st1 & em1 & Hs & Hr)%returns_bind. destruct (auth_check_step _ _ _ _ _ _ _ Hw Hs) as [Hw1 Hstep].
  destruct (IH _ _ Hw1 Hr) as [Hw' Hrest]. split; [done|]. by apply Hstep.
Qed.

(** Resolving a fetched conflicted set: the power events are checked first, then the
    others, and the unconflicted state is put back. *)
Lemma resolve_conflicted_checked fuel room rv u full em r em' :
  of_world em → returns (resolve_conflicted fuel room rv u full) em r em' →
  ∃ power others st1 st2,
    NoDup power ∧ list_to_set power ⊆ full ∧
    (∀ rank : string → nat,
       (∀ id e a, known_as G id e → a ∈ auth_event_ids e → (rank a < rank id)%nat) →
       ∀ id e, id ∈ full → known_as G id e → _is_power_event e = Ok true → id ∈ power) ∧
    others ≡ₚ elements (full ∖ list_to_set power) ∧
    checked G rv u power st1 ∧ checked G rv st1 others st2 ∧ r = u ∪ st2.
Proof.
  intros Hw Hr. unfold resolve_conflicted in Hr.
  apply returns_bind in Hr as (pow & em1 & Hpow & Hr).
  apply returns_bind in Hr as (st1 & em2 & Hst1 & Hr).
  apply returns_bind in Hr as (left' & em3 & Hleft & Hr).
  apply returns_bind in Hr as (st2 & em4 & Hst2 & [-> ->]%returns_ret).
  pose proof (keeps_of_world _ _ _ _ (power_sort_keeps db (known_as G) db_known _ _ _ _
    (power_events_keeps _ _)) Hw Hpow) as Hw1.
  destruct (iterative_checked _ _ _ _ _ _ _ Hw1 Hst1) as [Hw2 Hc1].
  pose proof (keeps_of_world _ _ _ _ (mainline_sort_keeps db (known_as G) db_known _ _ _ _) Hw2 Hleft) as Hw3.
  destruct (iterative_checked _ _ _ _ _ _ _ Hw3 Hst2) as [_ Hc2].
  apply (power_sort_greedy db) in Hpow as (g & level & Hinv & _ & Hgreedy & Hpe & _).
  pose proof (gi_full _ _ _ _ Hinv) as Hf. apply greedy_fresh in Hgreedy as Hfr. destruct Hfr as [Hnd Hin].
  exists pow, left', st1, st2. split_and!; [done| | | |done|done|done].
  - intros id Hid%elem_of_list_to_set. apply Hf. by apply Hin.
  - intros rank Hrank id e Hid Hknown Hp.
    assert (Hac := graph_inv_acyclic _ _ _ rank Hinv (λ id e a He, Hrank id e a (proj1 Hw1 _ _ He))).
    rewrite (greedy_complete _ _ _ _ rank Hac Hgreedy), elem_of_elements.
    destruct (Hpe id Hid) as (e1 & He1 & Hd). apply Hd. rewrite <- Hp. apply same_event_power.
    destruct Hknown as (e0 & He0 & Hs), (proj1 Hw1 _ _ He1) as (e0' & He0' & Hs'). simplify_eq. by rewrite <- Hs'.
  - rewrite (mainline_sort_perm _ _ _ _ _ _ _ Hleft). apply NoDup_Permutation.
    + apply NoDup_filter, NoDup_set_iter.
    + apply NoDup_elements.
    + intros id. rewrite list_elem_of_filter, elem_of_set_iter, elem_of_elements, elem_of_difference, elem_of_list_to_set. tauto.
Qed.
End checks.
