(* ===== verification/StateResTerm.v ===== *)
(** * Termination of state resolution

    The loops that follow auth events end because auth events are acyclic; the
    number of iterations is bounded whatever the order in which sets are iterated. *)

From S2P Require Import Prelude PyVal Constants RoomVersions Events EventAuth TopoSort StateResV2 StateResLemmas StateResProps.

Lemma filter_none {A} (P : A → Prop) `{∀ x, Decision (P x)} l :
  (∀ x, x ∈ l → ¬ P x) → filter P l = [].
Proof.
  induction l as [|x l IH]; intros Hn; [done|].
  rewrite filter_cons_False; [|apply Hn; by left]. apply IH. intros y Hy. apply Hn. by right.
Qed.

(** [m], started with [em], returns or raises. *)
Definition halts {A} (m : SR A) (em : EventMap) : Prop := m em ≠ None.

Lemma halts_ret {A} (a : A) em : halts (mret a) em.
Proof. done. Qed.

Lemma halts_lift {A} (r : result A) em : halts (lift r) em.
Proof. done. Qed.

Lemma halts_get em : halts get_map em.
Proof. done. Qed.

Lemma halts_update es em : halts (update_map es) em.
Proof. done. Qed.

Lemma halts_set em0 em : halts (set_map em0) em.
Proof. done. Qed.

Lemma halts_bind {A B} (m : SR A) (f : A → SR B) em :
  halts m em → (∀ a em', returns m em a em' → halts (f a) em') → halts (m ≫= f) em.
Proof.
  unfold halts, returns, mbind, SR_bind. destruct (m em) as [[[a em']|e]|] eqn:Hm; [|done..].
  intros _ Hf. by apply Hf.
Qed.

Create HintDb halts discriminated.
#[export] Hint Resolve halts_ret halts_lift halts_get halts_update halts_set : halts.

(** [halt]: decompose a program down to the instructions that halt. *)
Ltac halt :=
  repeat first
    [ match goal with |- ∀ _, _ => intro end
    | solve [eauto with halts]
    | match goal with
      | |- halts (_ ≫= _) _ => apply halts_bind
      | |- context [match ?x with _ => _ end] => destruct x
      end ].

(** A loop halts if its body does, under an invariant of the map. *)
Lemma halts_foldM {A B} (I : EventMap → Prop) (f : B → A → SR B) l acc em :
  (∀ b x em1, x ∈ l → I em1 → halts (f b x) em1) →
  (∀ b x em1 b' em2, x ∈ l → I em1 → returns (f b x) em1 b' em2 → I em2) →
  I em → halts (foldM f l acc) em.
Proof.
  revert acc em. induction l as [|x l IH]; intros acc em Hh Hi HI; simpl; [halt|].
  apply halts_bind; [apply Hh; [by left|done]|]. intros b em1 Hb. apply IH.
  - intros b' y em2 Hy. apply Hh. by right.
  - intros b' y em2 b2 em3 Hy. apply Hi. by right.
  - eapply Hi; [by left|done..].
Qed.

Lemma halts_foldM' {A B} (f : B → A → SR B) l acc em :
  (∀ b x em1, halts (f b x) em1) → halts (foldM f l acc) em.
Proof. intros Hh. by apply (halts_foldM (λ _, True)). Qed.

(** [b] is [a] or in its auth chain, following the events of [U]. *)
Inductive auth_reach (U : EventMap) : string → string → Prop :=
| reach_refl a : auth_reach U a a
| reach_step a e a' b :
    U !! a = Some e → a' ∈ auth_event_ids e → auth_reach U a' b → auth_reach U a b.

(** The events of a map have a bounded number of auth events. *)
Lemma degree_bound (em : EventMap) :
  ∃ D, ∀ id e, em !! id = Some e → (length (auth_event_ids e) ≤ D)%nat.
Proof.
  induction em as [|id e em _ _ [D HD]] using map_first_key_ind.
  - exists 0%nat. intros id e. by rewrite lookup_empty.
  - exists (length (auth_event_ids e) + D)%nat. intros i e'.
    destruct (decide (i = id)) as [->|Hne].
    + rewrite lookup_insert_eq. intros [= <-]. lia.
    + rewrite lookup_insert_ne by done. intros He%HD. lia.
Qed.

(** Auth events are older than the event, and there are not too many of them. *)
Definition well_founded_event (rank : string → nat) (D : nat) (id : string) (e : Event) : Prop :=
  event_id e = id ∧ (∀ a, a ∈ auth_event_ids e → (rank a < rank id)%nat) ∧
  (length (auth_event_ids e) ≤ D)%nat.

Lemma well_founded_same rank D id e e' :
  same_event e e' → well_founded_event rank D id e → well_founded_event rank D id e'.
Proof.
  intros Hs (Hid & Ha & Hl). unfold well_founded_event. rewrite (same_event_auth _ _ Hs).
  split_and!; [|done..]. unfold same_event in Hs. destruct e, e'. simpl in *. injection Hs as ->. congruence.
Qed.

(** ** The auth chains of the unpersisted events *)

Section chains.
Context `{IterOrderOk} (rank : string → nat) (D : nat).
Context (U : EventMap) (U_wf : map_Forall (well_founded_event rank D) U).

(** What one event on the stack adds to the chain, and the fuel it takes. *)
Definition search_done (events : list Event) (n : nat) : Prop :=
  ∀ rest chain fuel, ∃ chain',
    search_chain (n + fuel) U chain (events ++ rest) = search_chain fuel U chain' rest ∧
    ∀ b, b ∈ chain' ↔
      b ∈ chain ∨ ∃ e a, e ∈ events ∧ a ∈ auth_event_ids e ∧ auth_reach U a b.

Lemma search_done_list events :
  (∀ e, e ∈ events → ∃ n, search_done [e] n) → ∃ n, search_done events n.
Proof.
  induction events as [|e events IH]; intros He.
  - exists 0%nat. intros rest chain fuel. exists chain. set_solver.
  - destruct (He e) as [n1 Hn1]; [by left|].
    destruct IH as [n2 Hn2]; [intros e' He'; apply He; by right|].
    exists (n1 + n2)%nat. intros rest chain fuel.
    destruct (Hn1 (events ++ rest) chain (n2 + fuel)%nat) as (c1 & E1 & Hc1).
    destruct (Hn2 rest c1 fuel) as (c2 & E2 & Hc2). exists c2. split.
    + rewrite <- E2, <- E1. by rewrite Nat.add_assoc.
    + intros b. rewrite Hc2, Hc1. set_solver.
Qed.

Lemma search_done_event id e : U !! id = Some e → ∃ n, search_done [e] n.
Proof.
  revert e. induction id as [id IH] using (well_founded_ind (Wf_nat.well_founded_ltof _ rank)).
  intros e He. destruct (U_wf _ _ He) as (_ & Hrank & _).
  set (cs := rev (omap (λ auth_id, U !! auth_id) (auth_event_ids e))).
  assert (Hcs : ∀ c, c ∈ cs ↔ ∃ a, a ∈ auth_event_ids e ∧ U !! a = Some c).
  { intros c. unfold cs. by rewrite <- Permutation_rev, list_elem_of_omap. }
  destruct (search_done_list cs) as [n Hn].
  { intros c (a & Ha & Hc)%Hcs. apply (IH a); [by apply Hrank|done]. }
  exists (S n). intros rest chain fuel.
  destruct (Hn rest (chain ∪ list_to_set (auth_event_ids e)) fuel) as (c' & E & Hc').
  exists c'. split; [exact E|]. intros b. rewrite Hc', elem_of_union, elem_of_list_to_set. split.
  - intros [[?|Hb]|(c & a & (a0 & Ha0 & Hc)%Hcs & Ha & Hr)]; [by left|right..].
    + exists e, b. split; [by left|]. split; [done|constructor].
    + exists e, a0. split; [by left|]. split; [done|]. by eapply reach_step.
  - intros [?|(e' & a & ->%list_elem_of_singleton & Ha & Hr)]; [by left; left|].
    destruct Hr as [a|a ea a' b Hea Ha' Hr]; [by left; right|]. right.
    exists ea, a'. split; [|done]. apply Hcs. eauto.
Qed.

Lemma search_chain_spec id e : U !! id = Some e →
  ∃ N, ∀ fuel, (N ≤ fuel)%nat →
    ∃ chain, search_chain fuel U {[event_id e]} [e] = Some chain ∧
      ∀ b, b ∈ chain ↔ auth_reach U id b.
Proof.
  intros He. destruct (search_done_event id e He) as [n Hn]. exists (S n). intros fuel Hf.
  destruct (U_wf _ _ He) as (Hid & _).
  destruct (Hn [] {[event_id e]} (fuel - n)%nat) as (c & E & Hc).
  exists c. split.
  - replace (n + (fuel - n))%nat with fuel in E by lia. rewrite app_nil_r in E. rewrite E.
    destruct (fuel - n)%nat eqn:Hz; [lia|done].
  - intros b. rewrite Hc, elem_of_singleton, Hid. split.
    + intros [->|(e' & a & ->%list_elem_of_singleton & Ha & Hr)]; [constructor|by eapply reach_step].
    + intros Hr. destruct Hr as [|? ea a' b Hea Ha' Hr]; [by left|]. right.
      exists e, a'. simplify_eq. split; [by left|done].
Qed.

(** The dictionary of chains, for any iteration order. *)
Lemma auth_chains_spec :
  ∃ N, ∀ fuel, (N ≤ fuel)%nat →
    ∃ m : graph, foldl (add_chain fuel U) (Some ∅) (dict_items U).*2 = Some m ∧
      ∀ id, match m !! id with
            | Some c => id ∈ dom U ∧ ∀ b, b ∈ c ↔ auth_reach U id b
            | None => id ∉ dom U
            end.
Proof.
  assert (Hl : ∀ l, (∀ id e, (id, e) ∈ l → U !! id = Some e) →
    ∃ N, ∀ fuel, (N ≤ fuel)%nat → ∀ m0 : graph,
      (∀ id c, m0 !! id = Some c → id ∈ dom U ∧ ∀ b, b ∈ c ↔ auth_reach U id b) →
      ∃ m, foldl (add_chain fuel U) (Some m0) l.*2 = Some m ∧
        (∀ id c, m !! id = Some c → id ∈ dom U ∧ ∀ b, b ∈ c ↔ auth_reach U id b) ∧
        ∀ id, id ∈ l.*1 ∨ id ∈ dom m0 → id ∈ dom m).
  { induction l as [|[id e] l IH]; intros Hin.
    - exists 0%nat. intros fuel _ m0 Hm0. exists m0. split_and!; [done..|].
      intros i [Hi|Hi]; [by apply not_elem_of_nil in Hi|done].
    - destruct IH as [N1 Hn1]; [intros; apply Hin; by right|].
      assert (He : U !! id = Some e) by (apply Hin; by left).
      destruct (search_chain_spec id e He) as [N2 Hn2]. exists (N1 + N2)%nat.
      intros fuel Hf m0 Hm0. destruct (Hn2 fuel) as (c & Hs & Hc); [lia|].
      destruct (Hn1 fuel ltac:(lia) (<[id := c]> m0)) as (m & Hm & Hok & Hdom).
      { intros i c'. destruct (decide (i = id)) as [->|Hne].
        - rewrite lookup_insert_eq. intros [= <-]. split; [by apply elem_of_dom_2 in He|done].
        - rewrite lookup_insert_ne by done. apply Hm0. }
      exists m. split_and!; [|done|].
      + simpl. rewrite Hs. simpl. destruct (U_wf _ _ He) as (-> & _). done.
      + intros i Hi. apply Hdom. rewrite dom_insert. simpl in Hi.
        rewrite elem_of_cons in Hi. set_solver. }
  destruct (Hl (dict_items U)) as [N HN].
  { intros id e. by rewrite dict_items_perm, elem_of_map_to_list. }
  exists N. intros fuel Hf. destruct (HN fuel Hf ∅) as (m & Hm & Hok & Hdom).
  { intros id c. by rewrite lookup_empty. }
  exists m. split; [done|]. intros id. destruct (m !! id) as [c|] eqn:Hmi; [by apply Hok|].
  intros [e He]%elem_of_dom. apply not_elem_of_dom in Hmi. apply Hmi, Hdom. left.
  apply list_elem_of_fmap. exists (id, e). by rewrite dict_items_perm, elem_of_map_to_list.
Qed.
End chains.

Section term.
Context `{IterOrderOk} `{!StateResolutionStore, !Crypto} (db : EventMap) `{!StoreLaws _ db}.
Context (rank : string → nat) (D : nat).

Abbreviation wf_map := (map_Forall (well_founded_event rank D)).

Hypothesis db_wf : wf_map db.

Lemma wf_keeps {A} (m : SR A) em a em' :
  keeps (well_founded_event rank D) m → wf_map em → returns m em a em' → wf_map em'.
Proof. intros Hk Hw Hr. by destruct (Hk _ _ _ Hw Hr). Qed.

Lemma _get_event_halts room eid b em : halts (_get_event room eid b) em.
Proof. unfold _get_event. halt. Qed.
Hint Resolve _get_event_halts : halts.

Lemma get_event_halts room eid em : halts (get_event room eid) em.
Proof. unfold get_event. halt. Qed.
Hint Resolve get_event_halts : halts.

Lemma map_getitem_halts eid em : halts (map_getitem eid) em.
Proof. unfold map_getitem. halt. Qed.
Hint Resolve map_getitem_halts : halts.

Lemma find_auth_event_halts room key aids em : halts (find_auth_event room key aids) em.
Proof. revert em. induction aids; intros em; simpl; halt. Qed.
Hint Resolve find_auth_event_halts : halts.

Lemma power_level_halts room eid em : halts (_get_power_level_for_sender room eid) em.
Proof. unfold _get_power_level_for_sender. halt. Qed.
Hint Resolve power_level_halts : halts.

Lemma collect_auth_events_halts room rv st ev em : halts (collect_auth_events room rv st ev) em.
Proof.
  unfold collect_auth_events. halt.
  - apply halts_foldM'. intros b x em1. unfold add_own_auth_event. halt.
  - apply halts_foldM'. intros b x em1. unfold add_resolved_auth_event. halt.
Qed.
Hint Resolve collect_auth_events_halts : halts.

Lemma iterative_auth_checks_halts room rv ids base em :
  halts (_iterative_auth_checks room rv ids base) em.
Proof.
  apply halts_foldM'. intros b x em1. unfold auth_check_one, try_apply. halt.
Qed.
Hint Resolve iterative_auth_checks_halts : halts.

(** ** The mainline *)

Lemma find_auth_event_some room key aids em aid ev em' :
  wf_map em → returns (find_auth_event room key aids) em (Some (aid, ev)) em' →
  aid ∈ aids ∧ em' !! aid = Some ev ∧ wf_map em'.
Proof.
  revert em. induction aids as [|x aids IH]; intros em Hw Hr; simpl in Hr.
  { by apply returns_ret in Hr as [? _]. }
  apply returns_bind in Hr as (o & em1 & Hg & Hr).
  pose proof (wf_keeps _ _ _ _ (_get_event_keeps db _ db_wf _ _ _) Hw Hg) as Hw1.
  destruct o as [aev|]; cycle 1.
  { destruct (IH _ Hw1 Hr) as (? & ? & ?). split_and!; [by right|done..]. }
  apply _get_event_some in Hg as [Hg _].
  apply returns_bind in Hr as (k & ? & [_ ->]%returns_lift & Hr). case_bool_decide.
  - apply returns_ret in Hr as [[= -> ->] ->]. split_and!; [by left|done..].
  - destruct (IH _ Hw1 Hr) as (? & ? & ?). split_and!; [by right|done..].
Qed.

Lemma mainline_loop_halts fuel room pl em :
  wf_map em → (rank pl < fuel)%nat → halts (mainline_loop fuel room pl) em.
Proof.
  revert pl em. induction fuel as [|fuel IH]; intros pl em Hw Hf; [lia|]. simpl.
  case_bool_decide; [halt|]. apply halts_bind; [halt|]. intros pl_ev em1 Hg.
  pose proof (wf_keeps _ _ _ _ (get_event_keeps db _ db_wf _ _) Hw Hg) as Hw1.
  apply get_event_some in Hg as [Hpl _]. destruct (Hw1 _ _ Hpl) as (_ & Hrank & _).
  apply halts_bind; [halt|]. intros [[aid ev]|] em2 Hfind; [|halt].
  apply find_auth_event_some in Hfind as (Hin & _ & Hw2); [|done].
  apply halts_bind; [|halt]. apply IH; [done|]. specialize (Hrank aid Hin). lia.
Qed.

Lemma depth_loop_halts fuel room mm e em :
  wf_map em → well_founded_event rank D (event_id e) e → (rank (event_id e) < fuel)%nat →
  halts (depth_loop fuel room mm e) em.
Proof.
  revert e em. induction fuel as [|fuel IH]; intros e em Hw He Hf; [lia|]. simpl.
  destruct (mm !! event_id e); [halt|]. apply halts_bind; [halt|].
  intros [[aid ev]|] em2 Hfind; [|halt].
  apply find_auth_event_some in Hfind as (Hin & Hem & Hw2); [|done].
  destruct He as (_ & Hrank & _). specialize (Hrank aid Hin).
  pose proof (Hw2 _ _ Hem) as Hev. destruct Hev as (Hid & Hrest).
  apply IH; [done| |rewrite Hid; lia]. rewrite Hid. by split.
Qed.

Lemma mainline_sort_halts fuel room ids pl em :
  wf_map em → (∀ id, id ∈ ids → (rank id < fuel)%nat) →
  (∀ id, pl = Some id → (rank id < fuel)%nat) →
  halts (_mainline_sort fuel room ids pl) em.
Proof.
  intros Hw Hids Hpl. unfold _mainline_sort. destruct ids as [|id0 ids0]; [halt|].
  revert Hids. generalize (id0 :: ids0). intros ids Hids.
  apply halts_bind; [destruct pl; [by apply mainline_loop_halts; auto|halt]|].
  intros ml em1 Hml. assert (Hw1 : wf_map em1).
  { destruct pl; [|by apply returns_ret in Hml as [_ ->]].
    by apply (wf_keeps _ _ _ _ (mainline_loop_keeps db _ db_wf _ _ _) Hw Hml). }
  apply halts_bind; [|halt]. apply (halts_foldM wf_map); [| |done].
  - intros b x em2 Hx Hw2. unfold add_order. apply halts_bind; [halt|].
    intros ev ? [Hev ->]%map_getitem_some. apply halts_bind; [|halt].
    destruct (Hw2 _ _ Hev) as (Hid & Hrest). apply depth_loop_halts; [done|by rewrite Hid|].
    rewrite Hid. by apply Hids.
  - intros b x em2 b' em3 _ Hw2 Hr.
    by apply (wf_keeps _ _ _ _ (add_order_keeps db _ db_wf _ _ _ _) Hw2 Hr).
Qed.

(** ** The graph of the power events *)

Lemma add_auth_edges_stack full eid aids state g :
  eid ∈ dom g →
  dom (foldl (add_auth_edge full eid) (state, g) aids).2 = dom g ∧
  ∃ ps, (foldl (add_auth_edge full eid) (state, g) aids).1 = ps ++ state ∧
    (length ps ≤ length aids)%nat ∧ ∀ a, a ∈ ps → a ∈ full ∧ a ∉ dom g.
Proof.
  revert state g. induction aids as [|x aids IH]; intros state g Hg; simpl.
  { split; [done|]. exists []. split_and!; [done|simpl; lia|]. by intros a ?%not_elem_of_nil. }
  case_bool_decide as Hx; cycle 1.
  { destruct (IH state g Hg) as (? & ps & -> & ? & ?). split; [done|].
    exists ps. split_and!; [done|lia|done]. }
  assert (Hd : dom (setdefault_add eid x g) = dom g).
  { unfold setdefault_add. rewrite dom_insert_L. set_solver. }
  destruct (IH (if bool_decide (x ∈ dom g) then state else x :: state) (setdefault_add eid x g))
    as (-> & ps & -> & Hlen & Hps); [by rewrite Hd|].
  rewrite Hd in Hps. split; [done|]. case_bool_decide.
  - exists ps. split_and!; [done|lia|done].
  - exists (ps ++ [x]). rewrite <- app_assoc, length_app. simpl. split_and!; [done|lia|].
    intros a [Ha| ->%list_elem_of_singleton]%elem_of_app; auto.
Qed.

(** The loop ends: a node is pushed only before it is first popped, so every pop
    either finds a new node or takes an old one off the stack. *)
Lemma add_chain_loop_halts room u : ∀ v s, ∃ N, ∀ full g stack em fuel,
  wf_map em → (size (full ∖ dom g) ≤ u)%nat →
  (length (filter (λ x, x ∈ dom g) stack) ≤ v)%nat → (length stack ≤ s)%nat →
  (∀ a, a ∈ stack → a ∈ full) → (N ≤ fuel)%nat →
  halts (add_chain_loop fuel room full g stack) em.
Proof.
  induction u as [u IHu] using lt_wf_ind. intros v. induction v as [v IHv] using lt_wf_ind. intros s.
  assert (Hv : ∃ N, ∀ v', (v' < v)%nat → ∀ full g stack em fuel,
    wf_map em → (size (full ∖ dom g) ≤ u)%nat →
    (length (filter (λ x, x ∈ dom g) stack) ≤ v')%nat → (length stack ≤ s + D)%nat →
    (∀ a, a ∈ stack → a ∈ full) → (N ≤ fuel)%nat →
    halts (add_chain_loop fuel room full g stack) em).
  { destruct v as [|v]; [exists 0%nat; lia|]. destruct (IHv v ltac:(lia) (s + D)%nat) as [N HN].
    exists N. intros v' Hv' full g stack em fuel. intros. apply HN; [done..|lia|done|done|done]. }
  assert (Hu : ∃ N, ∀ u', (u' < u)%nat → ∀ full g stack em fuel,
    wf_map em → (size (full ∖ dom g) ≤ u')%nat → (length stack ≤ s + D)%nat →
    (∀ a, a ∈ stack → a ∈ full) → (N ≤ fuel)%nat →
    halts (add_chain_loop fuel room full g stack) em).
  { destruct u as [|u]; [exists 0%nat; lia|].
    destruct (IHu u ltac:(lia) (s + D)%nat (s + D)%nat) as [N HN].
    exists N. intros u' Hu' full g stack em fuel ? ? Hs ? ?.
    apply HN; [done|lia| |done..]. etrans; [apply length_filter|done]. }
  clear IHu IHv. destruct Hv as [N1 HN1], Hu as [N2 HN2]. exists (S (N1 + N2)).
  intros full g stack em [|fuel] Hw Hsz Hvis Hlen Hfull Hfuel; [lia|]. simpl.
  destruct stack as [|eid stack]; [halt|].
  apply halts_bind; [halt|]. intros event em1 Hget.
  pose proof (wf_keeps _ _ _ _ (get_event_keeps db _ db_wf _ _) Hw Hget) as Hw1.
  apply get_event_some in Hget as [Hev _]. destruct (Hw1 _ _ Hev) as (_ & _ & HD).
  destruct (add_auth_edges_stack full eid (auth_event_ids event) stack (setdefault eid g))
    as (Hdom & ps & Hst & Hps & Hnew); [rewrite dom_setdefault; set_solver|].
  destruct (foldl _ _ _) as [stack2 g2]. simpl in Hdom, Hst. subst stack2.
  rewrite dom_setdefault in Hdom, Hnew. simpl in Hlen.
  assert (Hfull2 : ∀ a, a ∈ ps ++ stack → a ∈ full).
  { intros a [Ha|Ha]%elem_of_app; [by apply Hnew|]. apply Hfull. by right. }
  destruct (decide (eid ∈ dom g)) as [Hold|Hfresh].
  - rewrite filter_cons_True in Hvis by done. simpl in Hvis.
    assert (Hg2 : dom g2 = dom g) by (rewrite Hdom; set_solver).
    apply (HN1 (length (filter (λ x, x ∈ dom g) stack))); [lia|done| | | |done|lia].
    + by rewrite Hg2.
    + rewrite filter_app, length_app, Hg2.
      assert (filter (λ x, x ∈ dom g) ps = []) as ->; [|done].
      apply filter_none. intros x Hx. specialize (Hnew x Hx). set_solver.
    + rewrite length_app. lia.
  - apply (HN2 (size (full ∖ dom g2))); [|done|done| |done|lia].
    + assert (full ∖ dom g2 ⊂ full ∖ dom g) as Hlt%subset_size.
      { rewrite Hdom. specialize (Hfull eid). set_solver. }
      lia.
    + rewrite length_app. lia.
Qed.

(** ** The whole algorithm *)

Lemma power_sort_halts room M :
  ∃ N, ∀ full em fuel, wf_map em → (size full ≤ M)%nat → (N ≤ fuel)%nat →
    halts (_reverse_topological_power_sort fuel room (power_events full) full) em.
Proof.
  destruct (add_chain_loop_halts room M 1 1) as [N HN]. exists N.
  intros full em fuel Hw Hsz Hf. unfold _reverse_topological_power_sort.
  assert (Hgen : ∀ eid, keeps (well_founded_event rank D) (power_event_id eid)).
  { intros eid. apply (Forall_forall (keeps (well_founded_event rank D)) [power_event_id eid]); [|by left].
    pose proof (power_events_keeps (well_founded_event rank D) {[eid]}) as Hk. unfold power_events in Hk.
    assert (set_iter ({[eid]} : gset string) = [eid]) as Hs.
    { apply Permutation_singleton_r. by rewrite set_iter_perm, elements_singleton. }
    rewrite Hs in Hk. exact Hk. }
  apply halts_bind.
  - apply (halts_foldM wf_map); [| |done].
    + intros g x em1 (eid & -> & Hin%elem_of_set_iter)%list_elem_of_fmap Hw1.
      apply halts_bind; [halt|]. intros o em2 Ho.
      pose proof (wf_keeps _ _ _ _ (Hgen eid) Hw1 Ho) as Hw2.
      apply returns_bind in Ho as (ev & ? & _ & Ho).
      apply returns_bind in Ho as (p & ? & _ & [-> ->]%returns_ret).
      destruct p; [|halt]. apply HN; [done| | | | |done].
      * transitivity (size full); [apply subseteq_size; set_solver|done].
      * etrans; [apply length_filter|done].
      * done.
      * by intros a ->%list_elem_of_singleton.
    + intros g x em1 g' em2 (eid & -> & _)%list_elem_of_fmap Hw1 Hr.
      apply returns_bind in Hr as (o & em3 & Ho & Hr).
      pose proof (wf_keeps _ _ _ _ (Hgen eid) Hw1 Ho) as Hw3.
      destruct o; [|by apply returns_ret in Hr as [_ ->]].
      by apply (wf_keeps _ _ _ _ (add_chain_loop_keeps db _ db_wf _ _ _ _ _) Hw3 Hr).
  - intros g em1 Hg. apply halts_bind; [apply halts_foldM'; halt|]. intros levels em2 Hlv.
    apply halts_bind; [halt|]. intros ? ? [-> ->]%returns_get.
    destruct (power_graph_sorts db _ _ _ _ _ _ _ _ Hg Hlv) as (_ & _ & _ & _ & l & -> & _). halt.
Qed.

Lemma rank_bound (X : gset string) : ∃ R, ∀ x, x ∈ X → (rank x < R)%nat.
Proof.
  induction X as [|x X _ [R HR]] using set_ind_L; [exists 0%nat; set_solver|].
  exists (S (rank x) + R)%nat. intros y [->%elem_of_singleton|Hy%HR]%elem_of_union; lia.
Qed.

Lemma auth_chain_difference_halts em room state_sets :
  wf_map em → ∃ N, ∀ fuel, (N ≤ fuel)%nat →
    halts (_get_auth_chain_difference fuel room state_sets) em.
Proof.
  intros Hw. destruct (auth_chains_spec rank D em Hw) as [N HN]. exists N. intros fuel Hf.
  unfold _get_auth_chain_difference. apply halts_bind; [halt|].
  intros ? ? [-> ->]%returns_get. destruct (HN fuel Hf) as (m & -> & _). simpl. halt.
Qed.

Lemma resolve_halts em room rv state_sets :
  wf_map em → ∃ N, ∀ fuel, (N ≤ fuel)%nat →
    halts (resolve_events_with_store fuel room rv state_sets) em.
Proof.
  intros Hw. destruct (auth_chain_difference_halts em room state_sets Hw) as [N1 Hdiff].
  destruct (power_sort_halts room (size (dom db ∪ dom em))) as [N2 Hpow].
  destruct (rank_bound (dom db ∪ dom em ∪ list_to_set (values (_seperate state_sets).1)))
    as [R HR].
  exists (N1 + N2 + R)%nat. intros fuel Hf. unfold resolve_events_with_store.
  destruct (_seperate state_sets) as [u c]. simpl in HR. case_bool_decide; [halt|].
  apply halts_bind; [apply Hdiff; lia|]. intros diff em1 ->%auth_chain_difference_map.
  apply halts_bind; [unfold fetch_conflicted; halt|]. intros full em1 Hfetch.
  apply (fetch_conflicted_spec db) in Hfetch as (-> & _ & Hem1 & _).
  assert (Hw1 : wf_map em1).
  { rewrite Hem1. apply map_Forall_union_2; [|done].
    intros id e [He _]%map_lookup_filter_Some. by apply db_wf. }
  assert (Hdom : dom em1 ⊆ dom db ∪ dom em).
  { rewrite Hem1, dom_union_L. apply union_mono; [|done]. apply dom_filter_subseteq. }
  set (full := _ ∩ dom em1). assert (Hfull : full ⊆ dom db ∪ dom em) by set_solver.
  unfold resolve_conflicted. apply halts_bind.
  { apply Hpow; [done|by apply subseteq_size|lia]. }
  intros pow em2 Hp. pose proof (wf_keeps _ _ _ _ (power_sort_keeps db _ db_wf _ _ _ _
    (power_events_keeps _ _)) Hw1 Hp) as Hw2.
  apply (power_sort_greedy db) in Hp as (g & lev & [_ _ Hg _] & _ & Hgreedy & _).
  apply greedy_fresh in Hgreedy as [_ Hgreedy].
  apply halts_bind; [halt|]. intros st em3 Hst.
  destruct (iterative_auth_checks_spec db _ (well_founded_same rank D) db_wf _ _ _ _ _ _ _ Hw2 Hst)
    as (Hw3 & _ & Hvals).
  apply halts_bind; [|halt]. apply mainline_sort_halts; [done| |].
  - intros id [_ Hid%elem_of_set_iter]%list_elem_of_filter.
    assert (rank id < R)%nat; [|lia]. apply HR. set_solver.
  - intros id [Hu|[Hin%Hgreedy _]]%Hvals; (assert (rank id < R)%nat; [|lia]); apply HR.
    + apply elem_of_union_r, elem_of_list_to_set, elem_of_values. eauto.
    + destruct Hin as [_ Hin]. set_solver.
Qed.
End term.
