(* ===== verification/StateResAuthChain.v ===== *)
(** * The auth chain difference

    [_get_auth_chain_difference] splits the auth chains of the state sets into the
    part in the event map and the part in the store.  Here the two parts are put
    together again: the result is the difference of the whole auth chains. *)

From S2P Require Import Prelude PyVal Constants RoomVersions Events EventAuth TopoSort StateResV2 StateResLemmas StateResProps StateResTerm.

(** What the store promises of its own auth chain difference: the events in the auth
    chain (following the stored events) of some set but not of every set. *)
Definition in_chain_of (F : EventMap) (ids : gset string) (b : string) : Prop :=
  ∃ a, a ∈ ids ∧ auth_reach F a b.

Class AuthDifferenceLaw `(StateResolutionStore) (db : EventMap) : Prop := {
  auth_difference_spec : ∀ room sets b,
    b ∈ get_auth_chain_difference room sets ↔
    (∃ X, X ∈ sets ∧ in_chain_of db X b) ∧ ¬ (∀ X, X ∈ sets → in_chain_of db X b)
}.

Lemma auth_reach_trans F a b c : auth_reach F a b → auth_reach F b c → auth_reach F a c.
Proof. induction 1; [done|]. intros. eapply reach_step; eauto. Qed.

Lemma auth_reach_mono F G a b : F ⊆ G → auth_reach F a b → auth_reach G a b.
Proof.
  intros Hsub. induction 1 as [|a e a' b He Ha _ IH]; [constructor|].
  eapply reach_step; [|done|done]. by eapply lookup_weaken.
Qed.

Section split.
Context (U db : EventMap).

(** The auth events of a persisted event are persisted. *)
Hypothesis persisted_closed : ∀ id e a,
  db !! id = Some e → id ∉ dom U → a ∈ auth_event_ids e → a ∉ dom U.

Lemma reach_persisted a b :
  a ∉ dom U → auth_reach (U ∪ db) a b ↔ auth_reach db a b.
Proof.
  intros Ha. split; intros Hr; induction Hr as [|a e a' b He Ha' _ IH]; try constructor.
  - apply lookup_union_Some_raw in He as [He|[_ He]]; [by apply elem_of_dom_2 in He|].
    eapply reach_step; [done..|]. apply IH. by eapply persisted_closed.
  - eapply reach_step; [|done|apply IH; by eapply persisted_closed].
    apply lookup_union_Some_raw. right. split; [by apply not_elem_of_dom|done].
Qed.

Lemma reach_persisted_out a b : a ∉ dom U → auth_reach db a b → b ∉ dom U.
Proof.
  intros Ha Hr. induction Hr as [|a e a' b He Ha' _ IH]; [done|].
  apply IH. by eapply persisted_closed.
Qed.

(** A path in the whole graph stays in the map for a while, then in the store. *)
Lemma reach_split a b :
  auth_reach (U ∪ db) a b ↔
  (b ∈ dom U ∧ auth_reach U a b) ∨
  (∃ c, (c ∉ dom U) ∧ auth_reach U a c ∧ auth_reach db c b).
Proof.
  split.
  - intros Hr. induction Hr as [a|a e a' b He Ha' Hr IH].
    { destruct (decide (a ∈ dom U)); [left; split; [done|constructor]|].
      right. exists a. split; [done|]. split; constructor. }
    destruct (decide (a ∈ dom U)) as [Hin|Hout].
    + assert (U !! a = Some e) as HU.
      { apply lookup_union_Some_raw in He as [?|[Hn _]]; [done|].
        by apply not_elem_of_dom in Hn. }
      destruct IH as [[Hb Hu]|(c & Hc & Hu & Hd)]; [left|right; exists c];
        split_and!; try done; by eapply reach_step.
    + right. exists a. split; [done|]. split; [constructor|].
      apply reach_persisted; [done|]. by eapply reach_step.
  - assert (HU : U ⊆ U ∪ db) by apply map_union_subseteq_l.
    intros [[_ Hu]|(c & Hc & Hu & Hd)]; [by eapply auth_reach_mono|].
    eapply auth_reach_trans; [by eapply auth_reach_mono|]. by apply reach_persisted.
Qed.

(** The two halves of one state set. *)
Lemma split_state_set_spec (m : graph) (s : StateMap string) :
  (∀ id, match m !! id with
         | Some c => id ∈ dom U ∧ ∀ b, b ∈ c ↔ auth_reach U id b
         | None => id ∉ dom U
         end) →
  ∀ b, (b ∈ (split_state_set U m s).1 ↔
          (b ∉ dom U) ∧ in_chain_of U (list_to_set (values s)) b) ∧
       (b ∈ (split_state_set U m s).2 ↔
          (b ∈ dom U) ∧ in_chain_of U (list_to_set (values s)) b).
Proof using Type.
  clear persisted_closed db. intros Hm b. unfold split_state_set, in_chain_of. setoid_rewrite elem_of_list_to_set.
  assert (Hgen : ∀ l acc,
    (b ∈ (foldl (add_state_id U m) acc l).1 ↔
       b ∈ acc.1 ∨ ((b ∉ dom U) ∧ ∃ a, a ∈ l ∧ auth_reach U a b)) ∧
    (b ∈ (foldl (add_state_id U m) acc l).2 ↔
       b ∈ acc.2 ∨ ((b ∈ dom U) ∧ ∃ a, a ∈ l ∧ auth_reach U a b))).
  { induction l as [|x l IH]; intros acc; simpl.
    { setoid_rewrite elem_of_nil. naive_solver. }
    destruct (IH (add_state_id U m acc x)) as [-> ->]. setoid_rewrite elem_of_cons.
    destruct acc as [ids un]. simpl. specialize (Hm x). destruct (m !! x) as [c|]; simpl.
    - destruct Hm as [_ Hc]. rewrite !elem_of_union, !elem_of_filter, Hc. naive_solver.
    - assert (Hx : auth_reach U x b ↔ b = x).
      { split; [|intros ->; constructor]. intros Hr. destruct Hr as [|? e ? ? He]; [done|].
        by apply elem_of_dom_2 in He. }
      rewrite elem_of_union, elem_of_singleton. naive_solver. }
  destruct (Hgen (values s) (∅, ∅)) as [-> ->]. simpl. set_solver.
Qed.

(** What a state set reaches in the whole graph, from its two halves. *)
Lemma split_covers (m : graph) (s : StateMap string) b :
  (∀ id, match m !! id with
         | Some c => id ∈ dom U ∧ ∀ b, b ∈ c ↔ auth_reach U id b
         | None => id ∉ dom U
         end) →
  in_chain_of (U ∪ db) (list_to_set (values s)) b ↔
  b ∈ (split_state_set U m s).2 ∨ in_chain_of db (split_state_set U m s).1 b.
Proof.
  intros Hm. destruct (split_state_set_spec m s Hm b) as [_ ->].
  unfold in_chain_of at 1 3. setoid_rewrite reach_split.
  setoid_rewrite (λ c, proj1 (split_state_set_spec m s Hm c)).
  unfold in_chain_of. naive_solver.
Qed.

Lemma split_disjoint (m : graph) (s : StateMap string) b :
  (∀ id, match m !! id with
         | Some c => id ∈ dom U ∧ ∀ b, b ∈ c ↔ auth_reach U id b
         | None => id ∉ dom U
         end) →
  in_chain_of db (split_state_set U m s).1 b → b ∉ dom U.
Proof.
  intros Hm (c & Hc & Hr). apply (split_state_set_spec m s Hm) in Hc as [Hc _].
  by eapply reach_persisted_out.
Qed.
End split.

Lemma elem_of_intersections X l b : b ∈ foldl (∩) X l ↔ b ∈ X ∧ ∀ Y : gset string, Y ∈ l → b ∈ Y.
Proof.
  revert X. induction l as [|Y l IH]; intros X; simpl; [set_solver|].
  rewrite IH. set_solver.
Qed.

Lemma elem_of_unions l b : b ∈ unions l ↔ ∃ X, X ∈ l ∧ b ∈ X.
Proof. unfold unions. rewrite elem_of_union_list. naive_solver. Qed.

Lemma exists_fmap {A B} (f : A → B) (l : list A) (P : B → Prop) :
  (∃ y, y ∈ f <$> l ∧ P y) ↔ ∃ x, x ∈ l ∧ P (f x).
Proof. setoid_rewrite list_elem_of_fmap. naive_solver. Qed.

Lemma forall_fmap {A B} (f : A → B) (l : list A) (P : B → Prop) :
  (∀ y, y ∈ f <$> l → P y) ↔ ∀ x, x ∈ l → P (f x).
Proof. setoid_rewrite list_elem_of_fmap. naive_solver. Qed.

Section difference.
Context `{IterOrderOk} `{!StateResolutionStore, !Crypto}.
Context (db : EventMap) `{!AuthDifferenceLaw _ db}.
Context (U : EventMap) (persisted_closed : ∀ id e a,
  db !! id = Some e → id ∉ dom U → a ∈ auth_event_ids e → a ∉ dom U).
Context (m : graph) (Hm : ∀ id, match m !! id with
  | Some c => id ∈ dom U ∧ ∀ b, b ∈ c ↔ auth_reach U id b
  | None => id ∉ dom U
  end).

(** The union of the stored difference and the difference of the unpersisted parts
    is the difference of the whole chains. *)
Lemma difference_of_halves room state_sets b :
  let split := split_state_set U m <$> state_sets in
  (b ∈ get_auth_chain_difference room split.*1 ∨
   (∃ X, X ∈ split.*2 ∧ b ∈ X) ∧ ¬ (∀ X, X ∈ split.*2 → b ∈ X)) ↔
  (∃ s, s ∈ state_sets ∧ in_chain_of (U ∪ db) (list_to_set (values s)) b) ∧
  ¬ (∀ s, s ∈ state_sets → in_chain_of (U ∪ db) (list_to_set (values s)) b).
Proof.
  intros split. rewrite auth_difference_spec.
  setoid_rewrite (λ s, split_covers U db persisted_closed m s b Hm).
  unfold split. rewrite <- !list_fmap_compose, !exists_fmap, !forall_fmap. simpl.
  assert (Hin : ∀ s, b ∈ (split_state_set U m s).2 → b ∈ dom U).
  { intros s. by intros [Hb _]%(split_state_set_spec U m s Hm). }
  assert (Hout : ∀ s, in_chain_of db (split_state_set U m s).1 b → b ∉ dom U).
  { intros s. by apply (split_disjoint U db persisted_closed m s). }
  destruct (decide (b ∈ dom U)) as [Hb|Hb].
  - assert (∀ s, in_chain_of db (split_state_set U m s).1 b ↔ False) as Hf by naive_solver.
    setoid_rewrite Hf. naive_solver.
  - assert (∀ s, b ∈ (split_state_set U m s).2 ↔ False) as Hf by naive_solver.
    setoid_rewrite Hf. naive_solver.
Qed.
End difference.

(** ** Properties *)

(** C33: with auth events acyclic and the auth events of persisted events persisted,
    [_get_auth_chain_difference] ends and returns exactly the events that are in the
    auth chain of some state set but not of every one, following the events of the
    event map and of the store together; it leaves the event map alone. *)
Theorem auth_chain_difference_correct `{IterOrderOk} `{!StateResolutionStore}
    (db em : EventMap) `{!AuthDifferenceLaw _ db} (rank : string → nat) room state_sets :
  state_sets ≠ [] →
  (∀ id e, em !! id = Some e →
     event_id e = id ∧ ∀ a, a ∈ auth_event_ids e → (rank a < rank id)%nat) →
  (∀ id e a, db !! id = Some e → id ∉ dom em → a ∈ auth_event_ids e → a ∉ dom em) →
  ∃ N, ∀ fuel, (N ≤ fuel)%nat → ∃ d,
    returns (_get_auth_chain_difference fuel room state_sets) em d em ∧
    ∀ b, b ∈ d ↔
      (∃ s, s ∈ state_sets ∧ in_chain_of (em ∪ db) (list_to_set (values s)) b) ∧
      ¬ (∀ s, s ∈ state_sets → in_chain_of (em ∪ db) (list_to_set (values s)) b).
Proof.
  intros Hne Hwf Hclosed. destruct (degree_bound em) as [D HD].
  destruct (auth_chains_spec rank D em) as [N HN].
  { intros id e He. destruct (Hwf id e He). split_and!; [done..|]. by eapply HD. }
  exists N. intros fuel Hf. destruct (HN fuel Hf) as (m & Hm & Hspec).
  unfold _get_auth_chain_difference. destruct (decide (em = ∅)) as [Hem|Hem].
  - eexists. split.
    { apply returns_bind. exists em, em. split; [done|]. rewrite Hm.
      rewrite bool_decide_true by done. reflexivity. }
    intros b. subst em. rewrite (left_id_L ∅ (∪)), elem_of_union, auth_difference_spec.
    rewrite exists_fmap, forall_fmap. set_solver.
  - destruct state_sets as [|s0 ss]; [done|]. eexists. split.
    { apply returns_bind. exists em, em. split; [done|]. rewrite Hm.
      rewrite bool_decide_false by done. reflexivity. }
    intros b. rewrite <- (difference_of_halves db em Hclosed m Hspec room (s0 :: ss) b).
    rewrite elem_of_union, elem_of_difference, elem_of_unions, elem_of_intersections.
    simpl. setoid_rewrite elem_of_cons. naive_solver.
Qed.
