(* ===== verification/StateResThms.v ===== *)
(** * The theorems on state resolution *)

From S2P Require Import Prelude PyVal Constants RoomVersions Events EventAuth TopoSort StateResV2 StateResLemmas StateResProps StateResTerm.


(** C26: state resolution ends: when auth events are acyclic, in the event map and in
    the store, there is a bound on the iterations of its loops, whatever the state
    sets are, after which it has returned or raised. *)
Theorem resolve_terminates `{IterOrderOk} `{!StateResolutionStore, !Crypto} (db : EventMap)
    `{!StoreLaws _ db} (rank : string → nat) em room rv state_sets :
  (∀ id e, em !! id = Some e ∨ db !! id = Some e →
     event_id e = id ∧ ∀ a, a ∈ auth_event_ids e → (rank a < rank id)%nat) →
  ∃ N, ∀ fuel, (N ≤ fuel)%nat → resolve_events_with_store fuel room rv state_sets em ≠ None.
Proof.
  intros Hwf. destruct (degree_bound em) as [D1 HD1], (degree_bound db) as [D2 HD2].
  apply (resolve_halts db rank (D1 + D2)%nat).
  - intros id e He. destruct (Hwf id e); [by right|]. specialize (HD2 id e He).
    split_and!; [done..|lia].
  - intros id e He. destruct (Hwf id e); [by left|]. specialize (HD1 id e He).
    split_and!; [done..|lia].
Qed.

(** The state sets are split exactly: a key is unconflicted when there are state
    sets and they all give it the same event, and otherwise, if some set has it, it
    is conflicted, with the events the sets give it; without a conflict, resolution
    returns the common state and touches nothing. *)
Theorem seperate_exact `{IterOrderOk} `{!StateResolutionStore, !Crypto} state_sets :
  (∀ k v, (_seperate state_sets).1 !! k = Some v ↔
     state_sets ≠ [] ∧ ∀ s, s ∈ state_sets → s !! k = Some v) ∧
  (∀ k V, (_seperate state_sets).2 !! k = Some V ↔
     (∃ s, s ∈ state_sets ∧ is_Some (s !! k)) ∧
     ¬ (∃ v, ∀ s, s ∈ state_sets → s !! k = Some v) ∧
     ∀ v, v ∈ V ↔ ∃ s, s ∈ state_sets ∧ s !! k = Some v) ∧
  (∀ fuel room rv em, (_seperate state_sets).2 = ∅ →
     returns (resolve_events_with_store fuel room rv state_sets) em (_seperate state_sets).1 em).
Proof.
  split_and!.
  - apply unconflicted_spec.
  - intros k V. rewrite conflicted_spec, elem_of_state_keys. done.
  - intros fuel room rv em Hc. unfold resolve_events_with_store.
    destruct (_seperate state_sets) as [u c]. simpl in *. by rewrite bool_decide_true.
Qed.

(** The power events are applied in the order of the specification: every power
    event of the full conflicted set, and only events of that set, each once, after
    those of its auth events that are in the set; and among the events that could come
    next, the one whose sender has the highest power level, then the earliest, then
    the least id. *)
Theorem power_sort_correct `{IterOrderOk} `{!StateResolutionStore, !Crypto} (db : EventMap)
    `{!StoreLaws _ db} (rank : string → nat) fuel room full em l em' :
  (∀ id e a, em' !! id = Some e → a ∈ auth_event_ids e → (rank a < rank id)%nat) →
  returns (_reverse_topological_power_sort fuel room (power_events full) full) em l em' →
  NoDup l ∧ (∀ eid, eid ∈ l → eid ∈ full) ∧
  (∀ eid e, eid ∈ full → em' !! eid = Some e → _is_power_event e = Ok true → eid ∈ l) ∧
  (∀ l1 n l2 e a, l = l1 ++ n :: l2 → em' !! n = Some e → a ∈ auth_event_ids e →
     a ∈ full → a ∈ l1) ∧
  ∃ level : string → Z,
    (∀ n, n ∈ l → ∃ em1 em2, returns (_get_power_level_for_sender room n) em1 (level n) em2) ∧
    (∀ l1 n l2 m en m_ev, l = l1 ++ n :: l2 → m ∈ l2 →
       em' !! n = Some en → em' !! m = Some m_ev →
       (∀ a, a ∈ auth_event_ids m_ev → a ∈ full → a ∈ l1) →
       sort_key_le (- level n, origin_server_ts en, n) (- level m, origin_server_ts m_ev, m)).
Proof.
  intros Hrank (g & level & Hinv & _ & Hgreedy & Hpow & Hlev)%(power_sort_greedy db).
  pose proof (greedy_complete _ _ _ _ rank (graph_inv_acyclic _ _ _ rank Hinv Hrank) Hgreedy)
    as Hperm.
  assert (Hl : ∀ n, n ∈ l ↔ n ∈ dom g) by (intros n; by rewrite Hperm, elem_of_elements).
  destruct Hinv as [He _ Hf _]. split_and!.
  - rewrite Hperm. apply NoDup_elements.
  - intros eid ?%Hl. by apply Hf.
  - intros eid e Hin Hem Hp. apply Hl. destruct (Hpow eid Hin) as (e1 & He1 & Hd). simplify_eq. auto.
  - intros l1 n l2 e a Heq Hem Ha Hfull. assert (Hn : n ∈ l) by (rewrite Heq; set_solver).
    apply Hl, elem_of_dom in Hn as [es Hes]. destruct (He n es Hes) as (e' & Hem' & Hed).
    simplify_eq. destruct (greedy_edges_before _ _ _ _ _ _ _ _ _ a Hgreedy eq_refl Hes);
      [by apply Hed|set_solver|done].
  - exists level. split; [intros n Hn; by apply Hlev, Hl|].
    intros l1 n l2 m en m_ev Heq Hm Hen Hme Hready.
    assert (Hmin : m ∈ l) by (rewrite Heq; set_solver).
    apply Hl, elem_of_dom in Hmin as [es Hes]. destruct (He m es Hes) as (e & Hem & Hed).
    simplify_eq. assert (Hle : heap_item_le (power_key em' level n, n) (power_key em' level m, m)).
    { eapply greedy_least_later; [done..|]. intros a [? ?]%Hed. auto. }
    apply heap_item_le_key in Hle.
    unfold power_key in Hle. by rewrite Hen, Hme in Hle.
Qed.

(** The mainline sort returns its input, sorted by mainline depth, then
    timestamp, then event id; the depths count the mainline, the chain of power-levels
    events from the resolved one, from its oldest event. *)
Theorem mainline_sort_correct `{IterOrderOk} `{!StateResolutionStore} fuel room ids pl em l em' :
  returns (_mainline_sort fuel room ids pl) em l em' → ids ≠ [] →
  ∃ mainline em1 (order : list sort_key),
    returns (match pl with None => mret [] | Some pl => mainline_loop fuel room pl end)
      em mainline em1 ∧
    l ≡ₚ ids ∧ l = order.*2 ∧ StronglySorted sort_key_le order ∧
    Forall (λ k : sort_key, ∃ ev em2 em3, em2 !! k.2 = Some ev ∧
      returns (_get_mainline_depth_for_event fuel ev (make_mainline_map mainline))
        em2 k.1.1 em3) order ∧
    (NoDup mainline →
      (∀ j x, mainline !! j = Some x →
         make_mainline_map mainline !! x = Some (Z.of_nat (length mainline - j))) ∧
      (∀ x, x ∉ mainline → make_mainline_map mainline !! x = None)).
Proof.
  intros Hr Hne. destruct (mainline_sort_spec _ _ _ _ _ _ _ Hr Hne)
    as (ml & em1 & order & Hml & Hp & Hl & Hs & Hd).
  exists ml, em1, order. split_and!; [done..|]. apply make_mainline_map_spec.
Qed.

(** Applying one event never raises because of an [AuthError]: the event is left
    out and the rest goes on; any other exception of the auth rules, such as the
    [SynapseError] for a malformed power-levels event, ends the whole resolution. *)
Theorem auth_error_skips `{IterOrderOk} `{!StateResolutionStore, !Crypto} room rv st eid em ev em1 auths e :
  em !! eid = Some ev → rejected_reason ev = None →
  returns (collect_auth_events room rv st ev) em auths em1 →
  check_state_dependent_auth_rules ev auths.*2 = Err e →
  ∀ rest, _iterative_auth_checks room rv (eid :: rest) st em =
    if is_AuthError e then _iterative_auth_checks room rv rest st em1 else Some (Err e).
Proof.
  intros Hev Hrej Hcol Hchk rest. unfold _iterative_auth_checks. simpl.
  unfold mbind at 1, SR_bind at 1. unfold auth_check_one, mbind, SR_bind.
  unfold map_getitem, mbind, SR_bind, get_map, lift, getitem. rewrite Hev. simpl.
  unfold returns in Hcol. rewrite Hcol, Hrej. unfold try_apply. rewrite Hchk.
  by destruct (is_AuthError e).
Qed.
