(* ===== verification/StateResExamples.v ===== *)
(** * Witnesses for the properties of state resolution

    A room whose state forked: in one branch [@a:x] bans [@b:x] and sets a topic, in
    the other [@b:x] is a member and the topic is another.  All events are in flight
    (in the event map), and the store is empty. *)

From S2P Require Import Prelude PyVal Constants RoomVersions Events EventAuth EventAuthExamples TopoSort StateResV2 StateResLemmas StateResProps StateResTerm StateResAuthChain StateResThms.

#[local] Existing Instance example_crypto.

Definition sr_event (id typ from skey : string) (c : dict) (auth : list string) (ts : Z) : Event := {|
  event_id := id; type := typ; sender := from; room_id := "!r:x"; ev_state_key := Some skey;
  content := c; ev_prev_events := []; ev_auth_events := auth;
  origin_server_ts := ts; depth := ts; signatures := [("x", [("ed25519:1", "sig")])]; ev_redacts := None;
  room_version := RoomVersions.V10; rejected_reason := None; recheck_redaction := false |}.

Definition sr_events : list Event := [
  sr_event "$0create" EventTypes.Create "@a:x" "" [("creator", JStr "@a:x")] [] 1;
  sr_event "$1ma" EventTypes.Member "@a:x" "@a:x" [("membership", JStr "join")] ["$0create"] 2;
  sr_event "$2pl" EventTypes.PowerLevels "@a:x" "" (ex_levels 0) ["$0create"; "$1ma"] 3;
  sr_event "$3jr" EventTypes.JoinRules "@a:x" "" [("join_rule", JStr "public")]
    ["$0create"; "$2pl"; "$1ma"] 4;
  sr_event "$4mb" EventTypes.Member "@b:x" "@b:x" [("membership", JStr "join")]
    ["$0create"; "$2pl"; "$3jr"] 5;
  sr_event "$5ban" EventTypes.Member "@a:x" "@b:x" [("membership", JStr "ban")]
    ["$0create"; "$2pl"; "$1ma"; "$4mb"] 6;
  sr_event "$6t1" "m.room.topic" "@a:x" "" [("topic", JStr "one")] ["$0create"; "$2pl"; "$1ma"] 7;
  sr_event "$7t2" "m.room.topic" "@a:x" "" [("topic", JStr "two")] ["$0create"; "$2pl"; "$1ma"] 8 ].

Definition sr_map : EventMap := list_to_map ((λ e, (event_id e, e)) <$> sr_events).

Definition sr_common : StateMap string := list_to_map [
  ((EventTypes.Create, ""), "$0create"); ((EventTypes.Member, "@a:x"), "$1ma");
  ((EventTypes.PowerLevels, ""), "$2pl"); ((EventTypes.JoinRules, ""), "$3jr")].

Definition sr_sets : list (StateMap string) := [
  <[(EventTypes.Member, "@b:x") := "$5ban"]> (<[("m.room.topic", "") := "$6t1"]> sr_common);
  <[(EventTypes.Member, "@b:x") := "$4mb"]> (<[("m.room.topic", "") := "$7t2"]> sr_common)].

(** The digit of an id is its place in the order of the auth events. *)
Definition sr_rank (id : string) : nat :=
  match id with
  | String _ (String c _) => nat_of_ascii c
  | _ => 0%nat
  end.

(** A store without events. *)
Definition empty_store : StateResolutionStore := {|
  get_events := λ _, ∅;
  get_auth_chain_difference := λ _ sets,
    unions sets ∖ match sets with [] => ∅ | X :: l => foldl (∩) X l end
|}.
#[local] Existing Instance empty_store.

#[local] Instance empty_store_laws : StoreLaws empty_store ∅.
Proof. split. intros ids. by rewrite map_filter_empty. Qed.

Lemma in_chain_of_empty X b : in_chain_of ∅ X b ↔ b ∈ X.
Proof.
  split.
  - intros (a & Ha & Hr). destruct Hr as [|? e ? ? He]; [done|]. by rewrite lookup_empty in He.
  - intros Hb. exists b. split; [done|constructor].
Qed.

#[local] Instance empty_store_difference : AuthDifferenceLaw empty_store ∅.
Proof.
  split. intros room sets b. setoid_rewrite in_chain_of_empty. simpl.
  rewrite elem_of_difference, elem_of_unions. destruct sets as [|X l].
  - set_solver.
  - rewrite elem_of_intersections. setoid_rewrite elem_of_cons. naive_solver.
Qed.

Definition sr_wf (rank : string → nat) (ie : string * Event) : bool :=
  bool_decide (event_id ie.2 = ie.1) &&
  forallb (λ a, Nat.ltb (rank a) (rank ie.1)) (auth_event_ids ie.2).

Lemma sr_wf_spec rank (m : EventMap) : forallb (sr_wf rank) (map_to_list m) = true →
  ∀ id e, m !! id = Some e →
    event_id e = id ∧ ∀ a, a ∈ auth_event_ids e → (rank a < rank id)%nat.
Proof.
  rewrite forallb_forall. intros Hall id e He%elem_of_map_to_list%list_elem_of_In.
  specialize (Hall _ He). apply andb_true_iff in Hall as [Hid%bool_decide_eq_true Ha].
  split; [done|]. intros a Hin%list_elem_of_In. rewrite forallb_forall in Ha.
  by apply Nat.ltb_lt, Ha.
Qed.

(** What a program returned, when it did. *)
Definition ran {A} (r : option (result (A * EventMap))) : bool :=
  match r with Some (Ok _) => true | _ => false end.

Definition value_of {A} (d : A) (r : option (result (A * EventMap))) : A :=
  match r with Some (Ok (a, _)) => a | _ => d end.

Definition map_of {A} (r : option (result (A * EventMap))) : EventMap :=
  match r with Some (Ok (_, em)) => em | _ => ∅ end.

Lemma ran_returns {A} (d : A) (m : SR A) em :
  ran (m em) = true → returns m em (value_of d (m em)) (map_of (m em)).
Proof. unfold returns. by destruct (m em) as [[[? ?]|]|]. Qed.

Definition sr_run : option (result (StateMap string * EventMap)) :=
  resolve_events_with_store 50 "!r:x" RoomVersions.V10 sr_sets sr_map.

(** The ban wins, and the later topic. *)
Example sr_run_result :
  value_of ∅ sr_run !! (EventTypes.Member, "@b:x") = Some "$5ban" ∧
  value_of ∅ sr_run !! ("m.room.topic", "") = Some "$7t2" ∧
  size (value_of ∅ sr_run) = 6%nat.
Proof. vm_compute. done. Qed.


Lemma resolve_terminates_witness :
  ran sr_run = true ∧
  ∃ N, ∀ fuel, (N ≤ fuel)%nat →
    resolve_events_with_store fuel "!r:x" RoomVersions.V10 sr_sets sr_map ≠ None.
Proof.
  split; [by vm_compute|].
  apply (resolve_terminates ∅ sr_rank). intros id e [He|He].
  - revert He. apply sr_wf_spec. by vm_compute.
  - by rewrite lookup_empty in He.
Defined.

Definition sr_full : gset string := list_to_set ["$4mb"; "$5ban"; "$6t1"; "$7t2"; "$2pl"; "$1ma"].

Definition sr_power_run : option (result (list string * EventMap)) :=
  _reverse_topological_power_sort 50 "!r:x" (power_events sr_full) sr_full sr_map.

(** The ban and the power levels, each after the auth events in the set. *)
Example sr_power_run_result : value_of [] sr_power_run = ["$1ma"; "$2pl"; "$4mb"; "$5ban"].
Proof. by vm_compute. Qed.

Lemma power_sort_correct_witness :
  ran sr_power_run = true ∧ NoDup (value_of [] sr_power_run).
Proof.
  split; [by vm_compute|].
  destruct (power_sort_correct ∅ sr_rank 50 "!r:x" sr_full sr_map
    (value_of [] sr_power_run) (map_of sr_power_run)) as [Hnd _].
  - intros id e a He. apply (sr_wf_spec sr_rank (map_of sr_power_run)); [by vm_compute|done].
  - apply (ran_returns []). by vm_compute.
  - exact Hnd.
Defined.

Definition sr_mainline_run : option (result (list string * EventMap)) :=
  _mainline_sort 50 "!r:x" ["$7t2"; "$6t1"] (Some "$2pl") sr_map.

Lemma mainline_sort_correct_witness :
  value_of [] sr_mainline_run = ["$6t1"; "$7t2"] ∧
  ∃ order : list sort_key,
    value_of [] sr_mainline_run = order.*2 ∧ StronglySorted sort_key_le order.
Proof.
  split; [by vm_compute|].
  destruct (mainline_sort_correct 50 "!r:x" ["$7t2"; "$6t1"] (Some "$2pl") sr_map
    (value_of [] sr_mainline_run) (map_of sr_mainline_run))
    as (ml & em1 & order & _ & _ & Hl & Hs & _).
  - apply (ran_returns []). by vm_compute.
  - done.
  - exists order. split; [exact Hl | exact Hs].
Defined.

(** An event its sender has no power to send. *)
Definition sr_topic_b : Event :=
  sr_event "$8t3" "m.room.topic" "@b:x" "" [("topic", JStr "three")] ["$0create"; "$2pl"; "$4mb"] 9.

Definition sr_map2 : EventMap := <["$8t3" := sr_topic_b]> sr_map.

Definition sr_state2 : StateMap string := <[(EventTypes.Member, "@b:x") := "$4mb"]> sr_common.

Definition sr_collect : option (result (list ((string * string) * Event) * EventMap)) :=
  collect_auth_events "!r:x" RoomVersions.V10 sr_state2 sr_topic_b sr_map2.

Lemma auth_error_skips_witness :
  is_ok (check_state_dependent_auth_rules sr_topic_b (value_of [] sr_collect).*2) = false ∧
  _iterative_auth_checks "!r:x" RoomVersions.V10 ["$8t3"] sr_state2 sr_map2 =
    _iterative_auth_checks "!r:x" RoomVersions.V10 [] sr_state2 (map_of sr_collect).
Proof.
  split; [by vm_compute|].
  apply (auth_error_skips "!r:x" RoomVersions.V10 sr_state2 "$8t3" sr_map2 sr_topic_b
    (map_of sr_collect) (value_of [] sr_collect)
    (UnstableSpecAuthError 403 "You don't have permission to post that to the room. user_level (%d) < send_level (%d)"
       Codes.INSUFFICIENT_POWER) ).
  - by vm_compute.
  - done.
  - apply (ran_returns []). by vm_compute.
  - by vm_compute.
Defined.

Lemma auth_chain_difference_correct_witness :
  ∃ N, ∀ fuel, (N ≤ fuel)%nat → ∃ d,
    returns (_get_auth_chain_difference fuel "!r:x" sr_sets) sr_map d sr_map ∧
    ∀ b, b ∈ d ↔
      (∃ s, s ∈ sr_sets ∧ in_chain_of (sr_map ∪ ∅) (list_to_set (values s)) b) ∧
      ¬ (∀ s, s ∈ sr_sets → in_chain_of (sr_map ∪ ∅) (list_to_set (values s)) b).
Proof.
  apply (auth_chain_difference_correct ∅ sr_map sr_rank "!r:x" sr_sets).
  - done.
  - apply sr_wf_spec. by vm_compute.
  - intros id e a He. by rewrite lookup_empty in He.
Defined.

Definition sr_graph : graph :=
  list_to_map [("9a", {["8b"; "7c"]}); ("8b", {["7c"]}); ("7c", ∅); ("0d", ∅)].

Definition sr_graph_rank (id : string) : nat :=
  match id with String c _ => nat_of_ascii c | _ => 0%nat end.

Definition sr_graph_ok (ne : string * gset string) : bool :=
  forallb (λ m, bool_decide (m ∈ dom sr_graph) && Nat.ltb (sr_graph_rank m) (sr_graph_rank ne.1))
    (elements ne.2).

(** The sort, with the nodes' own names as keys, under the opposite iteration order. *)
Lemma topological_sort_correct_witness :
  ∃ l, @lexicographical_topological_sort reversed_order _ heap_item_le _ sr_graph
         (λ n, Ok (0, 0, n)) = Some (Ok l) ∧ l ≡ₚ elements (dom sr_graph).
Proof.
  destruct (topological_sort_correct heap_item_le sr_graph (λ n, Ok (0, 0, n)) (λ n, (0, 0, n))
    sr_graph_rank) as (l & Hl & Hp & _).
  - intros n _. reflexivity.
  - assert (Hall : forallb sr_graph_ok (map_to_list sr_graph) = true) by (by vm_compute).
    rewrite forallb_forall in Hall. intros n es m Hes%elem_of_map_to_list%list_elem_of_In Hm.
    specialize (Hall _ Hes). unfold sr_graph_ok in Hall. rewrite forallb_forall in Hall.
    specialize (Hall m). rewrite <- list_elem_of_In, elem_of_elements in Hall.
    specialize (Hall Hm). apply andb_true_iff in Hall as [Hd%bool_decide_eq_true Hr%Nat.ltb_lt].
    split; assumption.
  - exists l. split; [apply Hl, reversed_order_ok | exact Hp].
Defined.

Lemma seperate_exact_witness :
  (_seperate sr_sets).1 !! (EventTypes.Create, "") = Some "$0create".
Proof.
  destruct (seperate_exact sr_sets) as [Hu _].
  apply Hu. split; [done|]. intros s Hs. unfold sr_sets in Hs.
  rewrite !elem_of_cons in Hs. destruct Hs as [->|[->|Hs]]; [by vm_compute..|].
  by apply not_elem_of_nil in Hs.
Defined.
