(* ===== verification/StateResV1.v ===== *)
(** * State resolution, version 1: [synapse/state/v1.py]

    The algorithm of rooms of version 1.  Dicts whose order of iteration the code does
    not fix are maps, visited in the order that [IterOrder] gives; the conflicted state
    that is built in such an order is a list.  What the rules mark on an event they let
    through ([recheck_redaction]) is kept in the event they return. *)

From S2P Require Import Prelude PyVal Constants RoomVersions Events EventAuth TopoSort.

Module V1.

Definition POWER_KEY : string * string := (EventTypes.PowerLevels, "").

Abbreviation EventMap := (gmap string Event).

(** [hashlib.sha1(s.encode("utf-8")).hexdigest()] *)
Class Sha1 := sha1_hex : string → string.

(** The key by which events are sorted: tuples compare lexicographically. *)
Definition order_key : Type := Z * string.
Definition order_key_le (a b : order_key) : Prop :=
  a.1 < b.1 ∨ a.1 = b.1 ∧ String.le a.2 b.2.

#[export] Instance order_key_le_dec : RelDecision order_key_le.
Proof. intros a b. unfold order_key_le. apply _. Defined.

Section v1.
Context `{IterOrder, Sha1, Crypto}.

(** [m.items()] *)
Definition items {A} (m : StateMap A) : list ((string * string) * A) :=
  omap (λ k, pair k <$> m !! k) (set_iter (dom m)).

(** ** Conflicts *)

(** The body of the inner loop of [_seperate]. *)
Definition seperate_item (acc : StateMap string * StateMap (gset string))
    (kv : (string * string) * string) : StateMap string * StateMap (gset string) :=
  let '(unconflicted_state, conflicted_state) := acc in
  let '(key, value) := kv in
  match unconflicted_state !! key with
  | None =>
      match conflicted_state !! key with
      | None => (<[key := value]> unconflicted_state, conflicted_state)
      | Some ls => (unconflicted_state, <[key := {[value]} ∪ ls]> conflicted_state)
      end
  | Some unconflicted_value =>
      if bool_decide (unconflicted_value = value) then acc
      else (delete key unconflicted_state, <[key := {[value; unconflicted_value]}]> conflicted_state)
  end.

Definition _seperate (first : StateMap string) (rest : list (StateMap string))
    : StateMap string * StateMap (gset string) :=
  foldl (λ acc state_set, foldl seperate_item acc (items state_set)) (first, ∅) rest.

(** ** Auth events *)

(** The auth events for one conflicted event. *)
Definition add_auth_keys (room_version : RoomVersion) (unconflicted_state : StateMap string)
    (state_map : EventMap) (auth_events : StateMap string) (event_id : string)
    : result (StateMap string) :=
  match state_map !! event_id with
  | None => Ok auth_events
  | Some event =>
      keys ← auth_types_for_event room_version event;
      Ok (foldl (λ auth_events key,
            match auth_events !! key with
            | Some _ => auth_events
            | None =>
                match unconflicted_state !! key with
                | Some auth_event_id =>
                    if bool_decide (auth_event_id = "") then auth_events
                    else <[key := auth_event_id]> auth_events
                | None => auth_events
                end
            end) auth_events (set_iter keys))
  end.

Definition _create_auth_events_from_maps (room_version : RoomVersion)
    (unconflicted_state : StateMap string) (conflicted_state : StateMap (gset string))
    (state_map : EventMap) : result (StateMap string) :=
  fold_res (λ auth_events kids,
      fold_res (add_auth_keys room_version unconflicted_state state_map) (set_iter kids.2) auth_events)
    (items conflicted_state) ∅.

(** ** Choosing *)

Definition key_func (e : Event) : order_key := (- depth e, sha1_hex (event_id e)).

(** [sorted]: stable, here by insertion. *)
Fixpoint insert_event (e : Event) (l : list Event) : list Event :=
  match l with
  | [] => [e]
  | x :: l => if decide (order_key_le (key_func e) (key_func x)) then e :: x :: l
              else x :: insert_event e l
  end.
Definition _ordered_events (events : list Event) : list Event := foldr insert_event [] events.

(** The loop of [_resolve_auth_events]. *)
Fixpoint auth_loop (auth_events : StateMap Event) (prev_event : Event) (l : list Event) : result Event :=
  match l with
  | [] => Ok prev_event
  | event :: l =>
      key ← event_key prev_event;
      let auth_events := <[key := prev_event]> auth_events in
      match check_state_dependent_auth_rules event (items auth_events).*2 with
      | Ok event => auth_loop auth_events event l
      | Err e => if is_AuthError e then Ok prev_event else Err e
      end
  end.

(** The keys all the events need. *)
Definition all_auth_keys (room_version : RoomVersion) (events : list Event)
    : result (gset (string * string)) :=
  fold_res (λ keys event, k ← auth_types_for_event room_version event; Ok (keys ∪ k)) events ∅.

Definition _resolve_auth_events (room_version : RoomVersion) (events : list Event)
    (auth_events : StateMap Event) : result Event :=
  let reverse := rev (_ordered_events events) in
  auth_keys ← all_auth_keys room_version events;
  let auth_events := filter (λ kv : (string * string) * Event, kv.1 ∈ auth_keys) auth_events in
  match reverse with
  | [] => Err (PyBuiltin IndexError)
  | [_] => Err (PyBuiltin NameError)
  | prev_event :: l => auth_loop auth_events prev_event l
  end.

(** The loop of [_resolve_normal_events]; the last event if all fail. *)
Fixpoint normal_loop (auth_events : StateMap Event) (l : list Event) : result Event :=
  match l with
  | [] => Err (PyBuiltin NameError)
  | event :: l =>
      match check_state_dependent_auth_rules event (items auth_events).*2 with
      | Ok event => Ok event
      | Err e =>
          if is_AuthError e then match l with [] => Ok event | _ => normal_loop auth_events l end
          else Err e
      end
  end.

Definition _resolve_normal_events (events : list Event) (auth_events : StateMap Event) : result Event :=
  normal_loop auth_events (_ordered_events events).

(** [for key, events in conflicted_state.items(): if wanted: resolved_state[key] = resolve events] *)
Definition resolve_each (wanted : string * string → StateMap Event → bool)
    (resolve : list Event → result Event)
    (conflicted_state : list ((string * string) * list Event)) (resolved_state : StateMap Event)
    : result (StateMap Event) :=
  fold_res (λ resolved_state kes,
      if wanted kes.1 resolved_state
      then e ← resolve kes.2; Ok (<[kes.1 := e]> resolved_state)
      else Ok resolved_state)
    conflicted_state resolved_state.

Definition _resolve_state_events (room_version : RoomVersion)
    (conflicted_state : list ((string * string) * list Event)) (auth_events : StateMap Event)
    : result (StateMap Event) :=
  let auth := _resolve_auth_events room_version in
  resolved_state ← resolve_each (λ key _, bool_decide (key = POWER_KEY))
                     (λ events, auth events auth_events) conflicted_state ∅;
  let auth_events := resolved_state ∪ auth_events in
  resolved_state ← resolve_each (λ key _, bool_decide (key.1 = EventTypes.JoinRules))
                     (λ events, auth events auth_events) conflicted_state resolved_state;
  let auth_events := resolved_state ∪ auth_events in
  resolved_state ← resolve_each (λ key _, bool_decide (key.1 = EventTypes.Member))
                     (λ events, auth events auth_events) conflicted_state resolved_state;
  let auth_events := resolved_state ∪ auth_events in
  resolve_each (λ key resolved, bool_decide (resolved !! key = None))
    (λ events, _resolve_normal_events events auth_events) conflicted_state resolved_state.

(** The conflicts with the events that are known; a lone event needs no resolution. *)
Definition known_conflicts (state_map : EventMap)
    (acc : list ((string * string) * list Event) * StateMap string)
    (kids : (string * string) * gset string)
    : list ((string * string) * list Event) * StateMap string :=
  let '(conflicted_state, unconflicted_state_ids) := acc in
  let events := omap (λ id, state_map !! id) (set_iter kids.2) in
  match events with
  | [] => acc
  | [e] => (conflicted_state, <[kids.1 := event_id e]> unconflicted_state_ids)
  | _ => (conflicted_state ++ [(kids.1, events)], unconflicted_state_ids)
  end.

Definition _resolve_with_state (room_version : RoomVersion) (unconflicted_state_ids : StateMap string)
    (conflicted_state_ids : StateMap (gset string)) (auth_event_ids : StateMap string)
    (state_map : EventMap) : result (StateMap string) :=
  let '(conflicted_state, unconflicted_state_ids) :=
    foldl (known_conflicts state_map) ([], unconflicted_state_ids) (items conflicted_state_ids) in
  let auth_events := omap (λ id, state_map !! id) auth_event_ids in
  resolved_state ← _resolve_state_events room_version conflicted_state auth_events;
  Ok ((event_id <$> resolved_state) ∪ unconflicted_state_ids).

(** ** The whole *)

(** Every event is in the room. *)
Definition check_rooms (room : string) (events : EventMap) : result unit :=
  raise_if (negb (bool_decide (map_Forall (λ _ e, room_id e = room) events)))
    (PyException "Attempting to state-resolve for room %s with event %s which is in %s").

Definition resolve_events_with_store (room : string) (room_version : RoomVersion)
    (state_sets : list (StateMap string)) (event_map : option EventMap)
    (state_map_factory : gset string → EventMap) : result (StateMap string) :=
  match state_sets with
  | [] => Err (PyBuiltin RuntimeError)
  | [state_set] => Ok state_set
  | first :: rest =>
      let '(unconflicted_state, conflicted_state) := _seperate first rest in
      let in_flight : EventMap := default ∅ event_map in
      let needed_events : gset string :=
        map_fold (λ _ ids acc, ids ∪ acc) ∅ conflicted_state ∖ dom in_flight in
      let state_map := in_flight ∪ state_map_factory needed_events in
      check_rooms room state_map ;;
      auth_events ← _create_auth_events_from_maps room_version unconflicted_state conflicted_state state_map;
      let new_needed_events : gset string :=
        map_fold (λ _ id acc, {[id]} ∪ acc) ∅ auth_events ∖ needed_events ∖ dom in_flight in
      let state_map_new := state_map_factory new_needed_events in
      check_rooms room state_map_new ;;
      let state_map := state_map_new ∪ state_map in
      _resolve_with_state room_version unconflicted_state conflicted_state auth_events state_map
  end.
End v1.
End V1.
