(* ===== verification/StateResV1Props.v ===== *)
(** * State resolution, version 1: what it depends on and what it chooses *)

From S2P Require Import Prelude PyVal Constants RoomVersions Events EventAuth TopoSort StateResV2 StateResLemmas StateResV1.
Import V1.

(** ** Iteration *)

Section order.
Context `{IterOrderOk}.

Lemma elem_of_items {A} (m : StateMap A) k v : (k, v) ∈ items m ↔ m !! k = Some v.
Proof.
  unfold items. rewrite list_elem_of_omap. split.
  - intros (k' & _ & Hk). destruct (m !! k') eqn:E; simpl in Hk; [|done]. by simplify_eq.
  - intros Hk. exists k. rewrite Hk. split; [|done]. apply elem_of_set_iter. by apply elem_of_dom_2 in Hk.
Qed.

Lemma items_keys {A} (m : StateMap A) : (items m).*1 = set_iter (dom m).
Proof.
  unfold items. assert (Hd : ∀ k, k ∈ set_iter (dom m) → k ∈ dom m) by (intros k; by rewrite elem_of_set_iter).
  induction (set_iter (dom m)) as [|k l IH]; [done|].
  destruct (m !! k) as [v|] eqn:Hk.
  - simpl. rewrite Hk. simpl. f_equal. apply IH. intros x Hx. apply Hd. by right.
  - exfalso. apply not_elem_of_dom in Hk. apply Hk, Hd. by left.
Qed.

Lemma items_NoDup {A} (m : StateMap A) : NoDup (items m).*1.
Proof. rewrite items_keys. apply NoDup_set_iter. Qed.
End order.

(** ** Conflicts *)

(** The values the state sets have for a key. *)
Definition values (sets : list (StateMap string)) (k : string * string) : gset string :=
  list_to_set (omap (λ S : StateMap string, S !! k) sets).

(** What [_seperate] makes of the values of a key. *)
Definition separated (vs : gset string) (u : option string) (c : option (gset string)) : Prop :=
  (vs = ∅ ∧ u = None ∧ c = None) ∨
  (∃ v, vs = {[v]} ∧ u = Some v ∧ c = None) ∨
  (∃ a b, a ≠ b ∧ a ∈ vs ∧ b ∈ vs ∧ u = None ∧ c = Some vs).

Lemma separated_unique vs u c u' c' : separated vs u c → separated vs u' c' → u = u' ∧ c = c'.
Proof.
  intros [(? & -> & ->)|[(v & ? & -> & ->)|(a & b & ? & ? & ? & -> & ->)]]
    [(? & -> & ->)|[(v' & ? & -> & ->)|(a' & b' & ? & ? & ? & -> & ->)]]; subst; try done; set_solver.
Qed.

Lemma separated_add vs u c v :
  separated vs u c →
  let '(u', c') := match u with
    | None => match c with None => (Some v, None) | Some ls => (None, Some ({[v]} ∪ ls)) end
    | Some x => if bool_decide (x = v) then (u, c) else (None, Some {[v; x]})
    end in separated ({[v]} ∪ vs) u' c'.
Proof.
  intros [(-> & -> & ->)|[(x & -> & -> & ->)|(a & b & Hab & Ha & Hb & -> & ->)]].
  - right. left. exists v. split_and!; [set_solver|done..].
  - case_bool_decide as Hx; [subst; right; left; exists v; split_and!; [set_solver|done..]|].
    right. right. exists v, x. split_and!; set_solver.
  - right. right. exists a, b. split_and!; try done; set_solver.
Qed.

Section separate.
Context `{IterOrderOk}.

Lemma seperate_item_at acc k v j :
  let acc' := seperate_item acc (k, v) in
  (j ≠ k → acc'.1 !! j = acc.1 !! j ∧ acc'.2 !! j = acc.2 !! j) ∧
  (∀ vs, separated vs (acc.1 !! k) (acc.2 !! k) → separated ({[v]} ∪ vs) (acc'.1 !! k) (acc'.2 !! k)).
Proof.
  destruct acc as [u c]. cbn zeta. split.
  - intros Hj. unfold seperate_item. repeat case_match; simpl;
      rewrite ?lookup_insert_ne, ?lookup_delete_ne by done; done.
  - intros vs Hs. pose proof (separated_add vs _ _ v Hs) as Ha. unfold seperate_item. simpl in *.
    destruct (u !! k) as [x|] eqn:Hu; [|destruct (c !! k) as [ls|] eqn:Hc]; simpl in *.
    + case_bool_decide; simpl; [by rewrite Hu|]. by rewrite lookup_delete_eq, lookup_insert_eq.
    + by rewrite Hu, lookup_insert_eq.
    + by rewrite lookup_insert_eq, Hc.
Qed.

(** One state set. *)
Lemma seperate_set l acc vs k :
  NoDup l.*1 → separated vs (acc.1 !! k) (acc.2 !! k) →
  let acc' := foldl seperate_item acc l in
  (k ∉ l.*1 → separated vs (acc'.1 !! k) (acc'.2 !! k)) ∧
  (∀ v, (k, v) ∈ l → separated ({[v]} ∪ vs) (acc'.1 !! k) (acc'.2 !! k)).
Proof.
  revert acc vs. induction l as [|[k1 v1] l IH]; intros acc vs Hnd Hs.
  { split; [done|]. by intros v ?%not_elem_of_nil. }
  simpl in Hnd. apply NoDup_cons in Hnd as [Hni Hnd].
  destruct (seperate_item_at acc k1 v1 k) as [Hne He]. cbn [foldl]. cbn zeta.
  destruct (decide (k = k1)) as [->|Hk].
  - destruct (IH (seperate_item acc (k1, v1)) ({[v1]} ∪ vs) Hnd (He vs Hs)) as [IH1 _].
    split; [intros Hn; destruct Hn; by left|]. intros v [E|Hin]%elem_of_cons.
    + assert (v = v1) as -> by congruence. by apply IH1.
    + destruct Hni. apply list_elem_of_fmap. by exists (k1, v).
  - destruct (Hne Hk) as [E1 E2]. rewrite <- E1, <- E2 in Hs.
    destruct (IH (seperate_item acc (k1, v1)) vs Hnd Hs) as [IH1 IH2]. split.
    + intros Hn. apply IH1. intros Hin. apply Hn. by right.
    + intros v [E|Hin]%elem_of_cons; [congruence|by apply IH2].
Qed.

Lemma values_snoc sets S k :
  values (sets ++ [S]) k = match S !! k with Some v => {[v]} ∪ values sets k | None => values sets k end.
Proof.
  unfold values. rewrite omap_app, list_to_set_app_L. simpl. destruct (S !! k); simpl; set_solver.
Qed.

(** [_seperate] sorts the keys by the values the sets have for them, whatever the order
    in which they are visited. *)
Lemma seperate_spec first rest k :
  separated (values (first :: rest) k) ((_seperate first rest).1 !! k) ((_seperate first rest).2 !! k).
Proof.
  unfold _seperate. induction rest as [|S rest IH] using rev_ind.
  - simpl. unfold values. simpl. rewrite lookup_empty. destruct (first !! k) as [v|]; simpl.
    + right. left. exists v. split_and!; [set_solver|done..].
    + by left.
  - rewrite foldl_app. simpl. rewrite app_comm_cons, values_snoc.
    destruct (seperate_set (items S) (foldl (λ acc state_set, foldl seperate_item acc (items state_set)) (first, ∅) rest)
      _ k (items_NoDup S) IH) as [H1 H2].
    destruct (S !! k) as [v|] eqn:Hk.
    + apply H2. by apply elem_of_items.
    + apply H1. rewrite items_keys, elem_of_set_iter. by apply not_elem_of_dom.
Qed.
End separate.

(** ** Auth events *)

(** An id that is not the empty string. *)
Definition nonempty (o : option string) : option string :=
  id ← o; if bool_decide (id = "") then None else Some id.

(** [a] has the unconflicted ids of the keys in [K]. *)
Definition picks (u : StateMap string) (K : gset (string * string)) (a : StateMap string) : Prop :=
  ∀ key, a !! key = if decide (key ∈ K) then nonempty (u !! key) else None.

(** [key] is among the auth types of the events of [ids]. *)
Definition needed_by (rv : RoomVersion) (sm : EventMap) (ids : list string) (key : string * string) : Prop :=
  ∃ id e ks, id ∈ ids ∧ sm !! id = Some e ∧ auth_types_for_event rv e = Ok ks ∧ key ∈ ks.

Section auth.
Context `{IterOrderOk} (rv : RoomVersion) (u : StateMap string) (sm : EventMap).

Lemma pick_keys l K a :
  picks u K a →
  picks u (K ∪ list_to_set l) (foldl (λ auth_events key,
    match auth_events !! key with
    | Some _ => auth_events
    | None =>
        match u !! key with
        | Some auth_event_id =>
            if bool_decide (auth_event_id = "") then auth_events
            else <[key := auth_event_id]> auth_events
        | None => auth_events
        end
    end) a l).
Proof.
  revert K a. induction l as [|k l IH]; intros K a Ha; simpl; [by rewrite union_empty_r_L|].
  rewrite union_assoc_L. apply IH. clear IH. intros key.
  destruct (decide (key = k)) as [->|Hne].
  - rewrite decide_True by set_solver. pose proof (Ha k) as Hk.
    destruct (a !! k) as [x|] eqn:Hak.
    + rewrite Hak, Hk. case_decide; [done|]. done.
    + unfold nonempty. destruct (u !! k) as [i|]; simpl; [|done].
      case_bool_decide; [done|]. by rewrite lookup_insert_eq.
  - destruct (decide (key ∈ K)) as [Hin|Hin].
    + rewrite decide_True by set_solver. pose proof (Ha key) as Hk. rewrite decide_True in Hk by done.
      repeat case_match; rewrite ?lookup_insert_ne by done; done.
    + rewrite decide_False by set_solver. pose proof (Ha key) as Hk. rewrite decide_False in Hk by done.
      repeat case_match; rewrite ?lookup_insert_ne by done; done.
Qed.

Lemma add_keys_spec ids a K :
  picks u K a →
  (∀ id e, id ∈ ids → sm !! id = Some e → is_ok (auth_types_for_event rv e) = true) →
  ∃ a' K', fold_res (add_auth_keys rv u sm) ids a = Ok a' ∧ picks u K' a' ∧
    ∀ key, key ∈ K' ↔ key ∈ K ∨ needed_by rv sm ids key.
Proof.
  revert a K. induction ids as [|id ids IH]; intros a K Ha Hok; cbn [fold_res].
  { exists a, K. split_and!; [done|done|]. intros key. split; [by left|].
    intros [?|(id & e & ks & ?%not_elem_of_nil & _)]; done. }
  assert (Hstep : ∃ a1 K1, add_auth_keys rv u sm a id = Ok a1 ∧ picks u K1 a1 ∧
    ∀ key, key ∈ K1 ↔ key ∈ K ∨ needed_by rv sm [id] key).
  { unfold add_auth_keys. destruct (sm !! id) as [e|] eqn:He.
    - destruct (auth_types_for_event rv e) as [ks|] eqn:Hks.
      2: { specialize (Hok id e ltac:(by left) He). by rewrite Hks in Hok. }
      cbn [mbind result_bind]. eexists _, _. split; [done|]. split; [by apply pick_keys|].
      intros key. rewrite elem_of_union, elem_of_list_to_set, elem_of_set_iter. split.
      + intros [?|?]; [by left|right; exists id, e, ks; split_and!; [by left|done..]].
      + intros [?|(id' & e' & ks' & ->%list_elem_of_singleton & He' & Hks' & ?)]; [by left|right].
        simplify_eq. rewrite Hks in Hks'. by simplify_eq.
    - exists a, K. split_and!; [done|done|]. intros key. split; [by left|].
      intros [?|(id' & e' & ks' & ->%list_elem_of_singleton & He' & _)]; [done|congruence]. }
  destruct Hstep as (a1 & K1 & -> & Ha1 & HK1). cbn [mbind result_bind].
  destruct (IH a1 K1 Ha1) as (a2 & K2 & -> & Ha2 & HK2); [intros ? ? ?; apply Hok; by right|].
  exists a2, K2. split_and!; [done|done|]. intros key. rewrite HK2, HK1. unfold needed_by.
  setoid_rewrite list_elem_of_singleton. setoid_rewrite elem_of_cons. naive_solver.
Qed.

Lemma add_keys_ok ids a a' id e :
  fold_res (add_auth_keys rv u sm) ids a = Ok a' → id ∈ ids → sm !! id = Some e →
  is_ok (auth_types_for_event rv e) = true.
Proof.
  revert a. induction ids as [|i ids IH]; intros a; cbn [fold_res]; [by intros _ ?%not_elem_of_nil|].
  intros (a1 & H1 & Hr)%bind_ok [->|Hin]%elem_of_cons He; [|by eapply IH].
  unfold add_auth_keys in H1. rewrite He in H1. by destruct (auth_types_for_event rv e).
Qed.

(** The ids of all conflicts, in some order. *)
Definition conflict_ids (c : StateMap (gset string)) : list string :=
  (items c).*2 ≫= set_iter.

Lemma elem_of_conflict_ids c id : id ∈ conflict_ids c ↔ ∃ k ids, c !! k = Some ids ∧ id ∈ ids.
Proof.
  unfold conflict_ids. rewrite list_elem_of_bind. setoid_rewrite elem_of_set_iter. split.
  - intros (ids & Hid & ([k ids'] & -> & Hk%elem_of_items)%list_elem_of_fmap). eauto.
  - intros (k & ids & Hk & Hid). exists ids. split; [done|]. apply list_elem_of_fmap.
    exists (k, ids). split; [done|]. by apply elem_of_items.
Qed.

Lemma create_flat c :
  _create_auth_events_from_maps rv u c sm = fold_res (add_auth_keys rv u sm) (conflict_ids c) ∅.
Proof.
  unfold _create_auth_events_from_maps, conflict_ids. generalize (∅ : StateMap string).
  induction (items c) as [|[k ids] l IH]; intros a; [done|]. cbn [fold_res].
  change (((k, ids) :: l).*2 ≫= set_iter) with (set_iter ids ++ (l.*2 ≫= set_iter)).
  rewrite fold_res_app. simpl. destruct (fold_res (add_auth_keys rv u sm) (set_iter ids) a); [apply IH|done].
Qed.
End auth.

(** The auth events do not depend on the order. *)
Lemma create_order (O1 O2 : IterOrder) `{!IterOrderOk O1, !IterOrderOk O2} rv u sm c a :
  @_create_auth_events_from_maps O1 rv u c sm = Ok a → @_create_auth_events_from_maps O2 rv u c sm = Ok a.
Proof.
  rewrite !create_flat by done. intros Ha.
  assert (Hp0 : picks u ∅ ∅) by (intros key; by rewrite decide_False by set_solver).
  assert (Hok : ∀ O : IterOrder, IterOrderOk O → ∀ id e, id ∈ @conflict_ids O c → sm !! id = Some e →
    is_ok (auth_types_for_event rv e) = true).
  { intros O HO id e Hin. eapply (add_keys_ok (H := O1)); [exact Ha|].
    rewrite elem_of_conflict_ids in Hin by done. by rewrite elem_of_conflict_ids by done. }
  destruct (add_keys_spec (H := O1) rv u sm _ ∅ ∅ Hp0 (Hok O1 _)) as (a1 & K1 & Ha1 & Hp1 & HK1).
  destruct (add_keys_spec (H := O2) rv u sm _ ∅ ∅ Hp0 (Hok O2 _)) as (a2 & K2 & Ha2 & Hp2 & HK2).
  rewrite Ha1 in Ha. simplify_eq. rewrite Ha2. f_equal. apply map_eq. intros key. rewrite Hp1, Hp2.
  assert (HK : key ∈ K1 ↔ key ∈ K2).
  { rewrite HK1, HK2. unfold needed_by. setoid_rewrite elem_of_conflict_ids; [done..]. }
  repeat case_decide; tauto.
Qed.

(** ** The order of events *)

#[export] Instance order_key_le_trans : Transitive order_key_le.
Proof.
  intros [a1 a2] [b1 b2] [c1 c2]. unfold order_key_le. simpl. intros [?|[-> ?]] [?|[-> ?]]; [left; lia|left; lia|by left|].
  right. split; [done|]. by etrans.
Qed.
#[export] Instance order_key_le_total : Total order_key_le.
Proof.
  intros [a1 a2] [b1 b2]. unfold order_key_le. simpl. destruct (Z.lt_trichotomy a1 b1) as [?|[->|?]]; [by left; left| |by right; left].
  destruct (total String.le a2 b2); [left|right]; by right.
Qed.
Lemma order_key_le_antisym a b : order_key_le a b → order_key_le b a → a = b.
Proof.
  destruct a as [a1 a2], b as [b1 b2]. unfold order_key_le. simpl. intros [?|[-> ?]] [?|[? ?]]; try lia.
  f_equal. by apply (anti_symm String.le).
Qed.

Section ordered.
Context `{Sha1}.

Definition before (e1 e2 : Event) : Prop := order_key_le (key_func e1) (key_func e2).

Lemma insert_event_perm e l : insert_event e l ≡ₚ e :: l.
Proof. induction l as [|x l IH]; simpl; [done|]. case_decide; [done|]. rewrite IH. apply Permutation_swap. Qed.

Lemma ordered_perm l : _ordered_events l ≡ₚ l.
Proof. induction l as [|e l IH]; simpl; [done|]. rewrite insert_event_perm. by constructor. Qed.

Lemma insert_event_sorted e l : StronglySorted before l → StronglySorted before (insert_event e l).
Proof.
  induction 1 as [|x l Hs IH Hx]; simpl; [by repeat constructor|]. case_decide as Hd.
  - constructor; [by constructor|]. constructor; [done|]. eapply Forall_impl; [done|].
    intros y Hy. unfold before. by etrans.
  - constructor; [done|]. rewrite insert_event_perm. constructor; [|done].
    destruct (total order_key_le (key_func e) (key_func x)); done.
Qed.

Lemma ordered_sorted l : StronglySorted before (_ordered_events l).
Proof. induction l as [|e l IH]; simpl; [constructor|by apply insert_event_sorted]. Qed.

(** Events with distinct digests are ordered in one way. *)
Definition distinct_digests (l : list Event) : Prop :=
  ∀ e1 e2, e1 ∈ l → e2 ∈ l → sha1_hex (event_id e1) = sha1_hex (event_id e2) → e1 = e2.

Lemma ordered_unique l1 l2 : l1 ≡ₚ l2 → distinct_digests l1 → _ordered_events l1 = _ordered_events l2.
Proof.
  intros Hp Hd. apply (StronglySorted_unique_strong before).
  - intros x1 x2 H1 H2 H3 H4. rewrite ordered_perm in H1, H2. rewrite <- Hp in H2.
    apply Hd; [done..|]. by pose proof (order_key_le_antisym _ _ H3 H4) as [= _ ?].
  - apply ordered_sorted.
  - apply ordered_sorted.
  - by rewrite !ordered_perm.
Qed.
End ordered.

(** ** The choice *)

(** Each event under its own key. *)
Definition keyed (auth : StateMap Event) : Prop := ∀ k e, auth !! k = Some e → event_key e = Ok k.

Lemma make_auth_dict_items `{IterOrderOk} auth : keyed auth → make_auth_dict (items auth).*2 = Ok auth.
Proof.
  intros Hk. unfold make_auth_dict.
  assert (Hgen : ∀ l (d : StateMap Event), (∀ k e, (k, e) ∈ l → event_key e = Ok k) →
    fold_res (λ d e, k ← event_key e; Ok (<[k := e]> d)) l.*2 d = Ok (foldl (λ d ke, <[ke.1 := ke.2]> d) d l)).
  { induction l as [|[k e] l IH]; intros d Hl; [done|]. simpl.
    rewrite (Hl k e) by (by left). simpl. apply IH. intros k' e' ?. apply Hl. by right. }
  rewrite Hgen by (intros k e ?%elem_of_items; by apply Hk). f_equal. apply map_eq. intros k.
  assert (Hfold : ∀ (l : list ((string * string) * Event)) (d : StateMap Event), NoDup l.*1 →
    (∀ e, (k, e) ∈ l → foldl (λ d ke, <[ke.1 := ke.2]> d) d l !! k = Some e) ∧
    (k ∉ l.*1 → foldl (λ d ke, <[ke.1 := ke.2]> d) d l !! k = d !! k)).
  { induction l as [|[k1 e1] l IH]; intros d Hnd; [split; [by intros e ?%not_elem_of_nil|done]|].
    simpl in Hnd. apply NoDup_cons in Hnd as [Hni Hnd]. simpl. destruct (IH (<[k1:=e1]> d) Hnd) as [IH1 IH2]. split.
    - intros e [E|Hin]%elem_of_cons; [|by apply IH1]. assert (k1 = k) as -> by congruence.
      assert (e1 = e) as -> by congruence. rewrite IH2 by done. apply lookup_insert_eq.
    - intros Hn. rewrite IH2 by (intros ?; apply Hn; by right). apply lookup_insert_ne.
      intros ->. apply Hn. by left. }
  destruct (Hfold (items auth) ∅ (items_NoDup auth)) as [H1 H2]. destruct (auth !! k) as [e|] eqn:He.
  - apply H1. by apply elem_of_items.
  - rewrite H2; [done|]. rewrite items_keys, elem_of_set_iter. by apply not_elem_of_dom.
Qed.

Section choice.
Context `{Crypto, Sha1}.

(** The decision on an event given the state. *)
Definition judge (e : Event) (auth : StateMap Event) : result Event :=
  if decide (type e = EventTypes.Create) then Ok e else check_against_state e auth.

Lemma check_judge `{IterOrderOk} e auth :
  keyed auth → check_state_dependent_auth_rules e (items auth).*2 = judge e auth.
Proof.
  intros Hk. unfold check_state_dependent_auth_rules, judge. case_decide; [done|].
  by rewrite make_auth_dict_items.
Qed.

Lemma same_event_key e e' : same_event e e' → event_key e' = event_key e ∧ event_id e' = event_id e.
Proof.
  unfold same_event. intros E. pose proof (f_equal type E) as E1. pose proof (f_equal ev_state_key E) as E2.
  pose proof (f_equal event_id E) as E3. simpl in *. unfold event_key, state_key. by rewrite E1, E2, E3.
Qed.

Lemma keyed_insert auth k e : keyed auth → event_key e = Ok k → keyed (<[k := e]> auth).
Proof. intros Ha He j x [[<- <-]|[_ ?]]%lookup_insert_Some; [done|by apply Ha]. Qed.

Lemma auth_loop_order (O1 O2 : IterOrder) `{!IterOrderOk O1, !IterOrderOk O2} auth prev l :
  keyed auth → @auth_loop O1 _ auth prev l = @auth_loop O2 _ auth prev l.
Proof.
  revert auth prev. induction l as [|e l IH]; intros auth prev Hk; cbn [auth_loop]; [done|].
  destruct (event_key prev) as [k|] eqn:Hp; [|done]. cbn [mbind result_bind].
  pose proof (keyed_insert auth k prev Hk Hp) as Hk'. rewrite !check_judge by done.
  destruct (judge e (<[k:=prev]> auth)); [by apply IH|done].
Qed.

Lemma normal_loop_order (O1 O2 : IterOrder) `{!IterOrderOk O1, !IterOrderOk O2} auth l :
  keyed auth → @normal_loop O1 _ auth l = @normal_loop O2 _ auth l.
Proof.
  intros Hk. induction l as [|e l IH]; cbn [normal_loop]; [done|]. rewrite !check_judge by done.
  destruct (judge e auth); [done|]. case_match; [|done]. by destruct l.
Qed.

Lemma all_auth_keys_order rv es1 es2 K :
  es1 ≡ₚ es2 → all_auth_keys rv es1 = Ok K → all_auth_keys rv es2 = Ok K.
Proof.
  intros Hp. unfold all_auth_keys. generalize (∅ : gset (string * string)).
  induction Hp as [|e l1 l2 _ IH|e1 e2 l|l1 l2 l3 _ IH1 _ IH2]; intros acc; cbn [fold_res]; [done| | |by auto].
  - intros (a & Ha & Hr)%bind_ok. rewrite Ha. cbn [mbind result_bind]. by apply IH.
  - intros (a & (k2 & Hk2 & E2)%bind_ok & (b & (k1 & Hk1 & E1)%bind_ok & Hr)%bind_ok)%bind_ok.
    assert (a = acc ∪ k2) as -> by congruence. assert (b = acc ∪ k2 ∪ k1) as -> by congruence.
    rewrite Hk1. cbn [mbind result_bind]. rewrite Hk2. cbn [mbind result_bind].
    by replace (acc ∪ k1 ∪ k2) with (acc ∪ k2 ∪ k1) by set_solver.
Qed.

Lemma resolve_auth_order (O1 O2 : IterOrder) `{!IterOrderOk O1, !IterOrderOk O2} rv es1 es2 auth e :
  es1 ≡ₚ es2 → distinct_digests es1 → keyed auth →
  @_resolve_auth_events O1 _ _ rv es1 auth = Ok e → @_resolve_auth_events O2 _ _ rv es2 auth = Ok e.
Proof.
  intros Hp Hd Hk. unfold _resolve_auth_events. rewrite <- (ordered_unique es1 es2 Hp Hd).
  intros (K & HK & Hr)%bind_ok. rewrite (all_auth_keys_order rv es1 es2 K Hp HK). cbn [mbind result_bind].
  destruct (rev (_ordered_events es1)) as [|p [|x l]]; [done..|].
  rewrite (auth_loop_order O2 O1); [done|]. intros k y [Hy _]%map_lookup_filter_Some. by apply Hk.
Qed.

Lemma resolve_normal_order (O1 O2 : IterOrder) `{!IterOrderOk O1, !IterOrderOk O2} es1 es2 auth e :
  es1 ≡ₚ es2 → distinct_digests es1 → keyed auth →
  @_resolve_normal_events O1 _ _ es1 auth = Ok e → @_resolve_normal_events O2 _ _ es2 auth = Ok e.
Proof.
  intros Hp Hd Hk. unfold _resolve_normal_events. rewrite <- (ordered_unique es1 es2 Hp Hd).
  by rewrite (normal_loop_order O2 O1).
Qed.

(** The choice is one of the events. *)
Lemma auth_loop_member `{IterOrder} auth prev l e :
  auth_loop auth prev l = Ok e → ∃ x, x ∈ prev :: l ∧ same_event x e.
Proof.
  revert auth prev. induction l as [|y l IH]; intros auth prev; cbn [auth_loop].
  { intros E. assert (prev = e) as <- by congruence. exists prev. split; [by left|done]. }
  intros (k & _ & Hr)%bind_ok. destruct (check_state_dependent_auth_rules y _) as [y'|er] eqn:Hc.
  - apply check_rules_same_event in Hc. destruct (IH _ _ Hr) as (x & [->|Hx]%elem_of_cons & Hs).
    + exists y. split; [by right; left|]. by etrans.
    + exists x. split; [by right; right|done].
  - destruct (is_AuthError er); [|done]. assert (prev = e) as <- by congruence. exists prev. split; [by left|done].
Qed.

Lemma normal_loop_member `{IterOrder} auth l e : normal_loop auth l = Ok e → ∃ x, x ∈ l ∧ same_event x e.
Proof.
  induction l as [|y l IH]; cbn [normal_loop]; [done|].
  destruct (check_state_dependent_auth_rules y _) as [y'|er] eqn:Hc.
  - apply check_rules_same_event in Hc. intros E. assert (y' = e) as -> by congruence. exists y. split; [by left|done].
  - destruct (is_AuthError er); [|done]. destruct l as [|z l].
    + intros E. assert (y = e) as <- by congruence. exists y. split; [by left|done].
    + intros (x & Hx & Hs)%IH. exists x. split; [by right|done].
Qed.

Lemma resolve_auth_member `{IterOrder} rv es auth e :
  _resolve_auth_events rv es auth = Ok e → ∃ x, x ∈ es ∧ same_event x e.
Proof.
  unfold _resolve_auth_events. intros (K & _ & Hr)%bind_ok.
  destruct (rev (_ordered_events es)) as [|p [|y l]] eqn:Hrev; [done..|].
  apply auth_loop_member in Hr as (x & Hx & Hs). exists x. split; [|done].
  rewrite <- Hrev in Hx. by rewrite <- (ordered_perm es), <- rev_involutive, <- Permutation_rev.
Qed.

Lemma resolve_normal_member `{IterOrder} es auth e :
  _resolve_normal_events es auth = Ok e → ∃ x, x ∈ es ∧ same_event x e.
Proof.
  intros (x & Hx & Hs)%normal_loop_member. exists x. by rewrite ordered_perm in Hx.
Qed.
End choice.

(** ** The conflicts with known events *)

Section conflicts.
Context `{IterOrderOk} (sm : EventMap).

Definition known (ids : gset string) : list Event := omap (λ id, sm !! id) (set_iter ids).

(** What a lone known event makes of an entry. *)
Definition settled (es : list Event) (u : option string) : option string :=
  match es with [e] => Some (event_id e) | _ => u end.

Lemma known_conflicts_step cl u k ids :
  known_conflicts sm (cl, u) (k, ids) =
    (if bool_decide (2 ≤ length (known ids))%nat then cl ++ [(k, known ids)] else cl,
     match known ids with [e] => <[k := event_id e]> u | _ => u end).
Proof.
  unfold known_conflicts. simpl. fold (known ids). by destruct (known ids) as [|e1 [|e2 es]].
Qed.

Lemma known_conflicts_fold l cl u cl' u' :
  NoDup l.*1 → foldl (known_conflicts sm) (cl, u) l = (cl', u') →
  (∀ k es, (k, es) ∈ cl' ↔ (k, es) ∈ cl ∨ ∃ ids, (k, ids) ∈ l ∧ es = known ids ∧ (2 ≤ length es)%nat) ∧
  (NoDup cl.*1 → (∀ k, k ∈ cl.*1 → k ∉ l.*1) → NoDup cl'.*1) ∧
  (∀ k, k ∉ l.*1 → u' !! k = u !! k) ∧
  (∀ k ids, (k, ids) ∈ l → u' !! k = settled (known ids) (u !! k)).
Proof.
  revert cl u. induction l as [|[k0 ids0] l IH]; intros cl u Hnd.
  { cbn [foldl]. intros E. assert (cl = cl') as <- by congruence. assert (u = u') as <- by congruence.
    split_and!; try done; [|by intros k ids ?%not_elem_of_nil].
    intros k es. split; [by left|]. intros [?|(ids & ?%not_elem_of_nil & _)]; done. }
  simpl in Hnd. apply NoDup_cons in Hnd as [Hni Hnd]. cbn [foldl]. rewrite known_conflicts_step.
  intros Hf. destruct (IH _ _ Hnd Hf) as (I1 & I2 & I3 & I4). clear IH Hf. split_and!.
  - intros k es. rewrite I1. setoid_rewrite elem_of_cons. case_bool_decide as H2.
    + rewrite elem_of_app, list_elem_of_singleton. naive_solver.
    + naive_solver.
  - intros Hnc Hdisj. apply I2.
    + case_bool_decide; [|done]. rewrite fmap_app. apply NoDup_app. split_and!; [done| |apply NoDup_singleton].
      intros x Hx ->%list_elem_of_singleton. apply (Hdisj _ Hx). by left.
    + intros k Hk Hl. case_bool_decide.
      * rewrite fmap_app, elem_of_app in Hk. destruct Hk as [Hk| ->%list_elem_of_singleton]; [|done].
        apply (Hdisj k Hk). by right.
      * apply (Hdisj k Hk). by right.
  - intros k [Hne Hl]%not_elem_of_cons. simpl in Hne. rewrite I3 by done.
    destruct (known ids0) as [|e [|]]; [done| |done]. by rewrite lookup_insert_ne.
  - intros k ids [E|Hin]%elem_of_cons.
    + assert (k0 = k) as -> by congruence. assert (ids0 = ids) as -> by congruence. rewrite I3 by done.
      unfold settled. destruct (known ids) as [|e [|]]; [done| |done]. by rewrite lookup_insert_eq.
    + rewrite (I4 k ids Hin). assert (k ≠ k0).
      { intros ->. apply Hni. apply list_elem_of_fmap. by exists (k0, ids). }
      f_equal. destruct (known ids0) as [|e [|]]; [done| |done]. by rewrite lookup_insert_ne.
Qed.

(** The conflicts that are resolved, and the state that is not. *)
Definition is_conflict (c : StateMap (gset string)) (k : string * string) (es : list Event) : Prop :=
  ∃ ids, c !! k = Some ids ∧ es = known ids ∧ (2 ≤ length es)%nat.

Lemma known_conflicts_spec c u cl u' :
  foldl (known_conflicts sm) ([], u) (items c) = (cl, u') →
  NoDup cl.*1 ∧ (∀ k es, (k, es) ∈ cl ↔ is_conflict c k es) ∧
  ∀ k, u' !! k = match c !! k with Some ids => settled (known ids) (u !! k) | None => u !! k end.
Proof.
  intros Hf. destruct (known_conflicts_fold _ _ _ _ _ (items_NoDup c) Hf) as (I1 & I2 & I3 & I4). split_and!.
  - apply I2; [constructor|]. by intros k ?%not_elem_of_nil.
  - intros k es. rewrite I1. unfold is_conflict. setoid_rewrite elem_of_items.
    split; [intros [?%not_elem_of_nil|?]; done|by right].
  - intros k. destruct (c !! k) as [ids|] eqn:Hk.
    + apply I4. by apply elem_of_items.
    + apply I3. rewrite items_keys, elem_of_set_iter. by apply not_elem_of_dom.
Qed.
End conflicts.

Lemma known_order (O1 O2 : IterOrder) `{!IterOrderOk O1, !IterOrderOk O2} sm ids :
  @known O1 sm ids ≡ₚ @known O2 sm ids.
Proof. unfold known. apply omap_Permutation. by rewrite !set_iter_perm. Qed.

(** ** Resolving each conflict *)

Abbreviation conflicts := (list ((string * string) * list Event)).

(** What [resolve_each] leaves at each key. *)
Definition each_ok (wanted : string * string → StateMap Event → bool) (f : list Event → result Event)
    (cl : conflicts) (r0 r : StateMap Event) : Prop :=
  (∀ k es, (k, es) ∈ cl → if wanted k r0 then ∃ e, f es = Ok e ∧ r !! k = Some e else r !! k = r0 !! k) ∧
  (∀ k, k ∉ cl.*1 → r !! k = r0 !! k).

(** Whether a key is wanted depends on its own entry only. *)
Definition local_test (wanted : string * string → StateMap Event → bool) : Prop :=
  ∀ k r r', r !! k = r' !! k → wanted k r = wanted k r'.

Lemma resolve_each_ok wanted f cl r0 r :
  NoDup cl.*1 → local_test wanted → resolve_each wanted f cl r0 = Ok r ↔ each_ok wanted f cl r0 r.
Proof.
  intros Hnd Hloc. unfold resolve_each. revert r0 Hnd. induction cl as [|[k es] cl IH]; intros r0 Hnd; cbn [fold_res].
  { split.
    - intros E. assert (r0 = r) as <- by congruence. split; [by intros k es ?%not_elem_of_nil|done].
    - intros [_ Hr]. f_equal. apply map_eq. intros k. symmetry. apply Hr. apply not_elem_of_nil. }
  simpl in Hnd. apply NoDup_cons in Hnd as [Hni Hnd].
  assert (Hkes : ∀ es', (k, es') ∈ cl → False).
  { intros es' Hin. apply Hni, list_elem_of_fmap. by exists (k, es'). }
  rewrite bind_ok. cbn [fst snd]. split.
  - intros (r1 & H1 & H2). apply IH in H2 as [H2 H3]; [|done]. destruct (wanted k r0) eqn:Hw.
    + apply bind_ok in H1 as (e & He & E). assert (r1 = <[k := e]> r0) as -> by congruence. split.
      * intros k' es' [E'|Hin]%elem_of_cons.
        -- assert (k' = k) as -> by congruence. assert (es' = es) as -> by congruence. rewrite Hw.
           exists e. split; [done|]. rewrite H3 by done. apply lookup_insert_eq.
        -- assert (Hne : k' ≠ k) by (intros ->; by apply (Hkes es')). specialize (H2 k' es' Hin).
           rewrite (Hloc k' _ r0) in H2 by (by rewrite lookup_insert_ne). by rewrite lookup_insert_ne in H2.
      * intros k' [Hne Hn]%not_elem_of_cons. simpl in Hne. rewrite H3 by done. by rewrite lookup_insert_ne.
    + assert (r1 = r0) as -> by congruence. split.
      * intros k' es' [E'|Hin]%elem_of_cons; [|by apply H2].
        assert (k' = k) as -> by congruence. rewrite Hw. by apply H3.
      * intros k' [Hne Hn]%not_elem_of_cons. by apply H3.
  - intros [H1 H2]. pose proof (H1 k es ltac:(by left)) as Hk. destruct (wanted k r0) eqn:Hw.
    + destruct Hk as (e & He & Hrk). exists (<[k := e]> r0). rewrite He. split; [done|]. apply IH; [done|]. split.
      * intros k' es' Hin. assert (Hne : k' ≠ k) by (intros ->; by apply (Hkes es')).
        rewrite (Hloc k' _ r0) by (by rewrite lookup_insert_ne). rewrite lookup_insert_ne by done. apply H1. by right.
      * intros k' Hn. destruct (decide (k' = k)) as [->|Hne]; [by rewrite lookup_insert_eq|].
        rewrite lookup_insert_ne by done. apply H2. by apply not_elem_of_cons.
    + exists r0. split; [done|]. apply IH; [done|]. split.
      * intros k' es' Hin. apply H1. by right.
      * intros k' Hn. destruct (decide (k' = k)) as [->|Hne]; [done|]. apply H2. by apply not_elem_of_cons.
Qed.

(** The same conflicts with their events in another order. *)
Definition reordered (cl1 cl2 : conflicts) : Prop :=
  NoDup cl1.*1 ∧ NoDup cl2.*1 ∧ (∀ k, k ∈ cl1.*1 → k ∈ cl2.*1) ∧
  ∀ k es2, (k, es2) ∈ cl2 → ∃ es1, (k, es1) ∈ cl1 ∧ es1 ≡ₚ es2.

Lemma resolve_each_order wanted f1 f2 cl1 cl2 r0 r :
  reordered cl1 cl2 → local_test wanted →
  (∀ k es1 es2 e, (k, es1) ∈ cl1 → es1 ≡ₚ es2 → f1 es1 = Ok e → f2 es2 = Ok e) →
  resolve_each wanted f1 cl1 r0 = Ok r → resolve_each wanted f2 cl2 r0 = Ok r.
Proof.
  intros (Hnd1 & Hnd2 & Hk & Hp) Hloc Hf. rewrite !resolve_each_ok by done. intros [H1 H2]. split.
  - intros k es2 Hin. destruct (Hp k es2 Hin) as (es1 & Hin1 & Hperm). specialize (H1 k es1 Hin1).
    destruct (wanted k r0); [|done]. destruct H1 as (e & He & Hr). exists e. split; [by eapply Hf|done].
  - intros k Hn. apply H2. intros Hin. by apply Hn, Hk.
Qed.

Section state_events.
Context `{Crypto, Sha1}.

(** The events of a conflict are of its key, with distinct digests. *)
Definition good_conflicts (cl : conflicts) : Prop :=
  ∀ k es, (k, es) ∈ cl → distinct_digests es ∧ ∀ x, x ∈ es → event_key x = Ok k.

(** [f] chooses one of the events. *)
Definition chooses (f : list Event → result Event) : Prop :=
  ∀ es e, f es = Ok e → ∃ x, x ∈ es ∧ same_event x e.

Lemma each_keyed wanted f cl r0 r :
  good_conflicts cl → chooses f → keyed r0 → each_ok wanted f cl r0 r → keyed r.
Proof.
  intros Hg Hf Hr0 [H1 H2] k e He. destruct (decide (k ∈ cl.*1)) as [Hin|Hn]; [|rewrite H2 in He by done; by apply Hr0].
  apply list_elem_of_fmap in Hin as ([k' es] & -> & Hin). simpl in *. specialize (H1 k' es Hin).
  destruct (wanted k' r0); [|rewrite H1 in He; by apply Hr0].
  destruct H1 as (e' & Hfe & Hrk). assert (e' = e) as -> by congruence.
  destruct (Hf es e Hfe) as (x & Hx & [-> _]%same_event_key). by apply (Hg k' es).
Qed.

Lemma keyed_union r auth : keyed r → keyed auth → keyed (r ∪ auth).
Proof. intros Hr Ha k e [?|[_ ?]]%lookup_union_Some_raw; [by apply Hr|by apply Ha]. Qed.

Lemma key_tests :
  local_test (λ key _, bool_decide (key = POWER_KEY)) ∧
  local_test (λ key _, bool_decide (key.1 = EventTypes.JoinRules)) ∧
  local_test (λ key _, bool_decide (key.1 = EventTypes.Member)) ∧
  local_test (λ key resolved, bool_decide (resolved !! key = None)).
Proof. split_and!; intros k r r' E; [done..|]. by rewrite E. Qed.

Lemma auth_chooses `{IterOrder} rv auth : chooses (λ es, _resolve_auth_events rv es auth).
Proof. intros es e. apply resolve_auth_member. Qed.
Lemma normal_chooses `{IterOrder} auth : chooses (λ es, _resolve_normal_events es auth).
Proof. intros es e. apply resolve_normal_member. Qed.

(** One of the three passes over auth events. *)
Lemma auth_pass (O1 O2 : IterOrder) `{!IterOrderOk O1, !IterOrderOk O2} wanted rv cl1 cl2 auth r0 r :
  reordered cl1 cl2 → good_conflicts cl1 → local_test wanted → keyed auth → keyed r0 →
  resolve_each wanted (λ es, @_resolve_auth_events O1 _ _ rv es auth) cl1 r0 = Ok r →
  resolve_each wanted (λ es, @_resolve_auth_events O2 _ _ rv es auth) cl2 r0 = Ok r ∧
  keyed r ∧ keyed (r ∪ auth).
Proof.
  intros Hre Hg Hw Ha Hr0 Hr. assert (Hk : keyed r).
  { eapply each_keyed; [done|exact (@auth_chooses O1 rv auth)|done|]. apply resolve_each_ok; [apply Hre|done|exact Hr]. }
  split; [|split; [done|by apply keyed_union]]. eapply resolve_each_order; [done|done| |exact Hr].
  intros k es1 es2 e Hin Hp. simpl. apply (resolve_auth_order O1 O2); [done|by apply (Hg k)|done].
Qed.

Lemma state_events_order (O1 O2 : IterOrder) `{!IterOrderOk O1, !IterOrderOk O2} rv cl1 cl2 auth r :
  reordered cl1 cl2 → good_conflicts cl1 → keyed auth →
  @_resolve_state_events O1 _ _ rv cl1 auth = Ok r → @_resolve_state_events O2 _ _ rv cl2 auth = Ok r.
Proof.
  intros Hre Hg Ha. unfold _resolve_state_events. destruct key_tests as (T1 & T2 & T3 & T4).
  assert (Hem : keyed ∅) by (by intros k e; rewrite lookup_empty).
  intros (r1 & E1 & (r2 & E2 & (r3 & E3 & E4)%bind_ok)%bind_ok)%bind_ok.
  destruct (auth_pass O1 O2 _ rv cl1 cl2 auth ∅ r1 Hre Hg T1 Ha Hem E1) as (-> & Hr1 & Ha1). cbn [mbind result_bind].
  destruct (auth_pass O1 O2 _ rv cl1 cl2 _ r1 r2 Hre Hg T2 Ha1 Hr1 E2) as (-> & Hr2 & Ha2). cbn [mbind result_bind].
  destruct (auth_pass O1 O2 _ rv cl1 cl2 _ r2 r3 Hre Hg T3 Ha2 Hr2 E3) as (-> & Hr3 & Ha3). cbn [mbind result_bind].
  eapply resolve_each_order; [done|done| |exact E4].
  intros k es1 es2 e Hin Hp. simpl. apply (resolve_normal_order O1 O2); [done|by apply (Hg k)|done].
Qed.

(** ** With the state *)

(** The events that are known are under their ids, and those of the state under their
    keys; distinct ids have distinct digests. *)
Record wf_events (sm : EventMap) (u : StateMap string) (c : StateMap (gset string)) : Prop := {
  wf_ids id e : sm !! id = Some e → event_id e = id;
  wf_unconflicted k id e : u !! k = Some id → sm !! id = Some e → event_key e = Ok k;
  wf_conflicted k ids id e : c !! k = Some ids → id ∈ ids → sm !! id = Some e → event_key e = Ok k;
  wf_digests k ids id1 id2 : c !! k = Some ids → id1 ∈ ids → id2 ∈ ids → sha1_hex id1 = sha1_hex id2 → id1 = id2
}.

Lemma elem_of_known `{IterOrderOk} sm ids e : e ∈ known sm ids ↔ ∃ id, id ∈ ids ∧ sm !! id = Some e.
Proof. unfold known. rewrite list_elem_of_omap. by setoid_rewrite elem_of_set_iter. Qed.

Lemma known_good `{IterOrderOk} sm u c cl :
  wf_events sm u c → (∀ k es, (k, es) ∈ cl → is_conflict sm c k es) → good_conflicts cl.
Proof.
  intros Hwf Hcl k es (ids & Hc & -> & _)%Hcl. split.
  - intros e1 e2 (id1 & Hi1 & E1)%elem_of_known (id2 & Hi2 & E2)%elem_of_known Hd.
    rewrite (wf_ids _ _ _ Hwf id1 e1 E1), (wf_ids _ _ _ Hwf id2 e2 E2) in Hd.
    assert (id1 = id2) as -> by (by eapply (wf_digests _ _ _ Hwf)). congruence.
  - intros x (id & Hid & Hx)%elem_of_known. by eapply (wf_conflicted _ _ _ Hwf).
Qed.

Lemma with_state_order (O1 O2 : IterOrder) `{!IterOrderOk O1, !IterOrderOk O2} rv u c a sm s :
  wf_events sm u c → (∀ k id, a !! k = Some id → u !! k = Some id) →
  @_resolve_with_state O1 _ _ rv u c a sm = Ok s → @_resolve_with_state O2 _ _ rv u c a sm = Ok s.
Proof.
  intros Hwf Hau. unfold _resolve_with_state.
  destruct (foldl (@known_conflicts O1 sm) _ _) as [cl1 u1] eqn:F1.
  destruct (foldl (@known_conflicts O2 sm) _ _) as [cl2 u2] eqn:F2.
  destruct (known_conflicts_spec (H := O1) sm c u cl1 u1 F1) as (N1 & C1 & U1).
  destruct (known_conflicts_spec (H := O2) sm c u cl2 u2 F2) as (N2 & C2 & U2).
  assert (Hu : u2 = u1).
  { apply map_eq. intros k. rewrite U1, U2. destruct (c !! k) as [ids|]; [|done].
    pose proof (known_order O1 O2 sm ids) as Hp. unfold settled.
    destruct (@known O1 sm ids) as [|e1 [|e2 l1]].
    - apply Permutation_nil_l in Hp. by rewrite <- Hp.
    - apply Permutation_singleton_l in Hp. by rewrite <- Hp.
    - pose proof (Permutation_length Hp) as Hl. by destruct (@known O2 sm ids) as [|? [|]]. }
  rewrite Hu. intros (r & Hr & Hs)%bind_ok.
  assert (Hre : reordered cl1 cl2).
  { split_and!; [done|done| |].
    - intros k ([k' es] & -> & (ids & Hc & -> & Hlen)%C1)%list_elem_of_fmap. apply list_elem_of_fmap.
      exists (k', @known O2 sm ids). split; [done|]. apply C2. exists ids. split_and!; [done|done|].
      by rewrite <- (known_order O1 O2).
    - intros k es (ids & Hc & -> & Hlen)%C2. exists (@known O1 sm ids). split; [|apply known_order; done].
      apply C1. exists ids. split_and!; [done|done|]. by rewrite (known_order O1 O2). }
  rewrite (state_events_order O1 O2 rv cl1 cl2 _ r Hre); [done| | |exact Hr].
  - eapply (known_good (H1 := O1)); [done|]. intros k es. apply C1.
  - intros k e He. rewrite lookup_omap in He. apply bind_Some in He as (id & Hid & He).
    eapply (wf_unconflicted _ _ _ Hwf); [by apply Hau|done].
Qed.
End state_events.
