(* ===== verification/StateResV1Thms.v ===== *)
(** * State resolution, version 1: the theorems

    The resolved state is a choice among the values of the state sets, it does not depend
    on the order in which dicts and sets are visited, and an ordinary conflict is settled
    by depth among the events that the rules accept. *)

From S2P Require Import Prelude PyVal Constants RoomVersions Events EventAuth TopoSort StateResV2 StateResLemmas StateResV1 StateResV1Props.
Import V1.

(** ** The whole of [_resolve_state_events] *)

Section choices.
Context `{IterOrder, Sha1, Crypto}.

(** Every entry is one of the events of a conflict of its key. *)
Definition chosen (cl : conflicts) (r : StateMap Event) : Prop :=
  ∀ k e, r !! k = Some e → ∃ es x, (k, es) ∈ cl ∧ x ∈ es ∧ same_event x e.

Lemma each_chosen wanted f cl r0 r :
  NoDup cl.*1 → local_test wanted → chooses f → chosen cl r0 →
  resolve_each wanted f cl r0 = Ok r → chosen cl r.
Proof.
  intros Hnd Hloc Hf Hr0 Hr. apply resolve_each_ok in Hr as [H2 H3]; [|done..].
  intros k e He. destruct (decide (k ∈ cl.*1)) as [Hin|Hn]; [|rewrite H3 in He by done; by apply Hr0].
  apply list_elem_of_fmap in Hin as ([k' es] & -> & Hin). simpl in *. specialize (H2 k' es Hin).
  destruct (wanted k' r0); [|rewrite H2 in He; by apply Hr0].
  destruct H2 as (e' & Hfe & Hrk). assert (e' = e) as -> by congruence.
  destruct (Hf es e Hfe) as (x & Hx & Hs). by exists es, x.
Qed.

(** Every conflict is resolved, to one of its events. *)
Lemma state_events_total rv cl auth r :
  NoDup cl.*1 → _resolve_state_events rv cl auth = Ok r →
  chosen cl r ∧ ∀ k, k ∈ cl.*1 → is_Some (r !! k).
Proof.
  intros Hnd. unfold _resolve_state_events. destruct key_tests as (T1 & T2 & T3 & T4).
  intros (r1 & E1 & (r2 & E2 & (r3 & E3 & E4)%bind_ok)%bind_ok)%bind_ok.
  assert (H3 : chosen cl r3).
  { eapply each_chosen; [done|exact T3|apply auth_chooses| |exact E3].
    eapply each_chosen; [done|exact T2|apply auth_chooses| |exact E2].
    eapply each_chosen; [done|exact T1|apply auth_chooses| |exact E1]. by intros k e; rewrite lookup_empty. }
  split; [eapply each_chosen; [done|exact T4|apply normal_chooses|done|exact E4]|].
  intros k ([k' es] & -> & Hin)%list_elem_of_fmap. simpl.
  apply resolve_each_ok in E4 as [E4 _]; [|done..]. specialize (E4 k' es Hin). case_bool_decide as Hk.
  - destruct E4 as (e & _ & ->). done.
  - rewrite E4. by destruct (r3 !! k').
Qed.
End choices.

(** ** The events that are known *)

(** The store returns the events it has among those it is asked for. *)
Definition store_ok (db : EventMap) (state_map_factory : gset string → EventMap) : Prop :=
  ∀ X id, state_map_factory X !! id = if decide (id ∈ X) then db !! id else None.

(** The events in flight, and those of the store. *)
Definition all_events (event_map : option EventMap) (db : EventMap) : EventMap := default ∅ event_map ∪ db.

(** Each event is under its id and its key; distinct ids in conflict have distinct digests. *)
Record wf_sets `{Sha1} (sets : list (StateMap string)) (evs : EventMap) : Prop := {
  sets_ids id e : evs !! id = Some e → event_id e = id;
  sets_keys S k id e : S ∈ sets → S !! k = Some id → evs !! id = Some e → event_key e = Ok k;
  sets_digests S1 S2 k id1 id2 : S1 ∈ sets → S2 ∈ sets → S1 !! k = Some id1 → S2 !! k = Some id2 →
    sha1_hex id1 = sha1_hex id2 → id1 = id2
}.

Lemma elem_of_set_values sets k id : id ∈ values sets k ↔ ∃ S, S ∈ sets ∧ S !! k = Some id.
Proof. unfold values. rewrite elem_of_list_to_set, list_elem_of_omap. done. Qed.

Lemma separated_u vs u c id : separated vs u c → u = Some id → vs = {[id]} ∧ c = None.
Proof. intros [(? & -> & ->)|[(v & ? & -> & ->)|(a & b & ? & ? & ? & -> & ->)]] ?; by simplify_eq. Qed.
Lemma separated_c vs u c ids : separated vs u c → c = Some ids → ids = vs ∧ u = None.
Proof. intros [(? & -> & ->)|[(v & ? & -> & ->)|(a & b & ? & ? & ? & -> & ->)]] ?; by simplify_eq. Qed.

(** The ids of the conflicts, as [resolve_events_with_store] collects them. *)
Definition conflicted_ids (c : StateMap (gset string)) : gset string := map_fold (λ _ ids acc, ids ∪ acc) ∅ c.

Lemma elem_of_conflicted_ids c id : id ∈ conflicted_ids c ↔ ∃ k ids, c !! k = Some ids ∧ id ∈ ids.
Proof.
  unfold conflicted_ids. apply (map_fold_weak_ind (λ acc c, id ∈ acc ↔ ∃ k ids, c !! k = Some ids ∧ id ∈ ids)).
  - split; [set_solver|]. intros (k & ids & Hk & _). by rewrite lookup_empty in Hk.
  - intros k ids m acc Hk IH. rewrite elem_of_union, IH. split.
    + intros [Hid|(k' & ids' & Hk' & Hid)]; [exists k, ids; by rewrite lookup_insert_eq|].
      exists k', ids'. by rewrite lookup_insert_ne by congruence.
    + intros (k' & ids' & [[<- <-]|[? ?]]%lookup_insert_Some & Hid); [by left|right; eauto].
Qed.

(** The map of events of the second step. *)
Lemma state_map_known (db : EventMap) f (fly : EventMap) X Y id :
  store_ok db f →
  (f (Y ∖ X ∖ dom fly) ∪ (fly ∪ f X)) !! id =
    if decide (id ∈ dom fly ∨ id ∈ X ∨ id ∈ Y) then (fly ∪ db) !! id else None.
Proof.
  intros Hf. rewrite !lookup_union, !Hf. destruct (fly !! id) as [e|] eqn:Hfly.
  - assert (Hd : id ∈ dom fly) by (by apply elem_of_dom_2 in Hfly).
    rewrite (decide_False (P := id ∈ Y ∖ X ∖ dom fly)) by set_solver.
    rewrite (decide_True (P := id ∈ dom fly ∨ id ∈ X ∨ id ∈ Y)) by (by left).
    case_decide; by destruct (db !! id).
  - assert (Hd : id ∉ dom fly) by (by apply not_elem_of_dom).
    repeat case_decide; try set_solver; by destruct (db !! id).
Qed.

(** ** The steps of [resolve_events_with_store] *)

Lemma seperate_order (O1 O2 : IterOrder) `{!IterOrderOk O1, !IterOrderOk O2} first rest :
  @_seperate O1 first rest = @_seperate O2 first rest.
Proof.
  assert (Hk : ∀ k, (@_seperate O1 first rest).1 !! k = (@_seperate O2 first rest).1 !! k ∧
    (@_seperate O1 first rest).2 !! k = (@_seperate O2 first rest).2 !! k).
  { intros k. eapply separated_unique; apply seperate_spec; done. }
  destruct (@_seperate O1 first rest) as [u1 c1], (@_seperate O2 first rest) as [u2 c2]. simpl in Hk.
  f_equal; apply map_eq; intros k; apply Hk.
Qed.

Lemma create_unconflicted `{IterOrderOk} rv u c sm a k id :
  _create_auth_events_from_maps rv u c sm = Ok a → a !! k = Some id → u !! k = Some id.
Proof.
  rewrite create_flat. intros Ha.
  assert (Hp0 : picks u ∅ ∅) by (intros key; by rewrite decide_False by set_solver).
  destruct (add_keys_spec rv u sm (conflict_ids c) ∅ ∅ Hp0) as (a' & K & Ha' & Hp & _).
  { intros i e Hi He. by eapply add_keys_ok. }
  rewrite Ha' in Ha. assert (a' = a) as -> by congruence. rewrite Hp. case_decide; [|done].
  unfold nonempty. intros (i & Hi & E)%bind_Some. case_bool_decide; [done|]. by rewrite Hi, E.
Qed.

(** The events the second step knows. *)
Definition second_map (fly : EventMap) (f : gset string → EventMap) (c : StateMap (gset string))
    (a : StateMap string) : EventMap :=
  let needed := conflicted_ids c ∖ dom fly in
  f (map_fold (λ _ id acc, {[id]} ∪ acc) ∅ a ∖ needed ∖ dom fly) ∪ (fly ∪ f needed).

Lemma second_map_sub db f em c a id e :
  store_ok db f → second_map (default ∅ em) f c a !! id = Some e → all_events em db !! id = Some e.
Proof. intros Hf. unfold second_map. rewrite (state_map_known db) by done. by case_decide. Qed.

Lemma second_map_conflicted db f em c a k ids id :
  store_ok db f → c !! k = Some ids → id ∈ ids →
  second_map (default ∅ em) f c a !! id = all_events em db !! id.
Proof.
  intros Hf Hk Hid. unfold second_map. rewrite (state_map_known db) by done. rewrite decide_True; [done|].
  assert (id ∈ conflicted_ids c) by (apply elem_of_conflicted_ids; eauto).
  destruct (decide (id ∈ dom (default ∅ em : EventMap))); [by left|right; left; set_solver].
Qed.

Section steps.
Context `{Sha1, Crypto}.

(** What must succeed for a state to be returned. *)
Definition steps_ok (O : IterOrder) room rv (em : option EventMap) f u c a s : Prop :=
  let fly := default ∅ em in
  check_rooms room (fly ∪ f (conflicted_ids c ∖ dom fly)) = Ok tt ∧
  _create_auth_events_from_maps rv u c (fly ∪ f (conflicted_ids c ∖ dom fly)) = Ok a ∧
  check_rooms room (f (map_fold (λ _ id acc, {[id]} ∪ acc) ∅ a ∖ (conflicted_ids c ∖ dom fly) ∖ dom fly)) = Ok tt ∧
  _resolve_with_state rv u c a (second_map fly f c a) = Ok s.

Lemma resolve_steps (O : IterOrder) room rv S1 S2 rest em f s :
  resolve_events_with_store room rv (S1 :: S2 :: rest) em f = Ok s ↔
  ∃ a, steps_ok O room rv em f (_seperate S1 (S2 :: rest)).1 (_seperate S1 (S2 :: rest)).2 a s.
Proof.
  unfold resolve_events_with_store, steps_ok. destruct (_seperate S1 (S2 :: rest)) as [u c].
  fold (conflicted_ids c). cbn [fst snd]. cbn zeta. split.
  - intros ([] & E1 & (a & E2 & ([] & E3 & E4)%bind_ok)%bind_ok)%bind_ok. by exists a.
  - intros (a & E1 & E2 & E3 & E4). rewrite E1. cbn [mbind result_bind]. rewrite E2. cbn [mbind result_bind].
    rewrite E3. cbn [mbind result_bind]. done.
Qed.

Lemma wf_second `{IterOrderOk} S1 rest db f em a :
  store_ok db f → wf_sets (S1 :: rest) (all_events em db) →
  let '(u, c) := _seperate S1 rest in wf_events (second_map (default ∅ em) f c a) u c.
Proof.
  intros Hf Hwf. pose proof (seperate_spec S1 rest) as Hs. destruct (_seperate S1 rest) as [u c]. cbn [fst snd] in Hs.
  split.
  - intros id e He%(second_map_sub db); [|done]. by eapply sets_ids.
  - intros k id e Hu He%(second_map_sub db); [|done]. destruct (separated_u _ _ _ _ (Hs k) Hu) as [Hv _].
    assert (Hin : id ∈ values (S1 :: rest) k) by set_solver. apply elem_of_set_values in Hin as (S & HS & Hk).
    by eapply sets_keys.
  - intros k ids id e Hc Hid He%(second_map_sub db); [|done]. destruct (separated_c _ _ _ _ (Hs k) Hc) as [-> _].
    apply elem_of_set_values in Hid as (S & HS & Hk). by eapply sets_keys.
  - intros k ids id1 id2 Hc Hi1 Hi2. destruct (separated_c _ _ _ _ (Hs k) Hc) as [-> _].
    apply elem_of_set_values in Hi1 as (T1 & HT1 & Hk1). apply elem_of_set_values in Hi2 as (T2 & HT2 & Hk2).
    by eapply (sets_digests _ _ Hwf T1 T2).
Qed.

(** ** The theorems *)

(** C30: [resolve_events_with_store] of version 1 is deterministic: the state it returns
    does not depend on the order in which it visits dicts and sets, provided that the
    events are stored under their ids and keys and that ids in conflict have distinct
    SHA-1 digests. *)
Theorem v1_deterministic (O1 O2 : IterOrder) `{!IterOrderOk O1, !IterOrderOk O2}
    room rv sets em f db s :
  store_ok db f → wf_sets sets (all_events em db) →
  @resolve_events_with_store O1 _ _ room rv sets em f = Ok s →
  @resolve_events_with_store O2 _ _ room rv sets em f = Ok s.
Proof.
  intros Hf Hwf. destruct sets as [|S1 [|S2 rest]]; [done..|]. rewrite !resolve_steps.
  rewrite (seperate_order O2 O1). intros (a & E1 & E2 & E3 & E4). exists a.
  pose proof (wf_second (H1 := O1) S1 (S2 :: rest) db f em a Hf Hwf) as Hwe.
  destruct (@_seperate O1 S1 (S2 :: rest)) as [u c]. cbn [fst snd] in *.
  split_and!; [done|by apply (create_order O1 O2)|done|].
  apply (with_state_order O1 O2); [done| |done].
  intros k id. by apply (create_unconflicted (H := O1) rv u c _ a k id E2).
Qed.

(** What may become of a key for which the sets have the ids [vs]. *)
Definition v1_outcome (evs : EventMap) (vs : gset string) (o : option string) : Prop :=
  match o with
  | Some id => id ∈ vs ∧ (vs = {[id]} ∨ is_Some (evs !! id))
  | None => (∀ v, vs ≠ {[v]}) ∧ ∀ id, id ∈ vs → evs !! id = None
  end.

(** A conflict after [_resolve_with_state]. *)
Lemma with_state_choice `{IterOrderOk} rv u c a sm s :
  (∀ id e, sm !! id = Some e → event_id e = id) → (∀ k ids, c !! k = Some ids → u !! k = None) →
  _resolve_with_state rv u c a sm = Ok s →
  ∀ k, match c !! k with
       | None => s !! k = u !! k
       | Some ids =>
           match s !! k with
           | Some id => id ∈ ids ∧ is_Some (sm !! id)
           | None => ∀ id, id ∈ ids → sm !! id = None
           end
       end.
Proof.
  intros Hid Hdis. unfold _resolve_with_state.
  destruct (foldl (known_conflicts sm) _ _) as [cl u'] eqn:Hcl.
  apply known_conflicts_spec in Hcl as (Hnd & Hc & Hu). intros (r & Hr & Hs)%bind_ok k.
  assert (s = (event_id <$> r) ∪ u') as -> by congruence.
  apply state_events_total in Hr as [Hch Hall]; [|done]. rewrite lookup_union, lookup_fmap, Hu.
  destruct (r !! k) as [e|] eqn:Hrk.
  - destruct (Hch k e Hrk) as (es & x & (ids & Hk & -> & _)%Hc & Hx & [_ Hes]%same_event_key).
    apply elem_of_known in Hx as (i & Hi & Hx). rewrite Hk. simpl. rewrite union_Some_l, Hes, (Hid i x Hx). by rewrite Hx.
  - simpl. assert (Hl0 : ∀ o : option string, None ∪ o = o) by (by intros []). rewrite Hl0. destruct (c !! k) as [ids|] eqn:Hk; [|done].
    rewrite (Hdis k ids Hk). assert (Hlen : ¬ (2 ≤ length (known sm ids))%nat).
    { intros Hl. destruct (Hall k) as [e He]; [|congruence]. apply list_elem_of_fmap.
      exists (k, known sm ids). split; [done|]. apply Hc. by exists ids. }
    unfold settled. pose proof (λ e, elem_of_known sm ids e) as Hkn.
    destruct (known sm ids) as [|e [|]]; [| |simpl in Hlen; lia].
    + intros i Hi. destruct (sm !! i) as [x|] eqn:Hx; [|done]. exfalso. apply (not_elem_of_nil x), Hkn. by exists i.
    + destruct (proj1 (Hkn e)) as (i & Hi & Hx); [by left|]. by rewrite (Hid i e Hx), Hx.
Qed.

(** Of two or more state sets [resolve_events_with_store] of version 1 keeps every
    value on which they agree, invents none, and gives every key in conflict one of its
    values that is a known event; such a key is left out only if none of them is known. *)
Theorem v1_sound `{IterOrderOk} room rv sets em f db s k :
  store_ok db f → wf_sets sets (all_events em db) → (2 ≤ length sets)%nat →
  resolve_events_with_store room rv sets em f = Ok s →
  v1_outcome (all_events em db) (values sets k) (s !! k).
Proof.
  intros Hf Hwf Hlen. destruct sets as [|S1 [|S2 rest]]; [simpl in Hlen; lia..|]. rewrite resolve_steps.
  intros (a & _ & _ & _ & E). pose proof (seperate_spec S1 (S2 :: rest)) as Hs.
  destruct (_seperate S1 (S2 :: rest)) as [u c]. cbn [fst snd] in *.
  eapply with_state_choice in E; [|intros id e ?%(second_map_sub db); [by eapply sets_ids|done]|].
  2: { intros k' ids. apply (separated_c _ _ _ _ (Hs k')). }
  instantiate (1 := k) in E. unfold v1_outcome.
  destruct (Hs k) as [(Hv & Hu & Hc)|[(v & Hv & Hu & Hc)|(v1 & v2 & Hne & Hv1 & Hv2 & Hu & Hc)]]; rewrite Hc in E.
  - rewrite E, Hu, Hv. set_solver.
  - rewrite E, Hu, Hv. set_solver.
  - destruct (s !! k) as [id|].
    + destruct E as [Hid Hk]. split; [done|right]. by rewrite (second_map_conflicted db _ _ _ _ k _ _ Hf Hc Hid) in Hk.
    + split; [intros v Hv; rewrite Hv, elem_of_singleton in Hv1, Hv2; congruence|].
      intros id Hid. rewrite <- (second_map_conflicted db f em c a k _ id Hf Hc Hid). by apply E.
Qed.

(** Deeper, or of the same depth with a digest that is not larger. *)
Definition preferred (x y : Event) : Prop :=
  depth y < depth x ∨ depth x = depth y ∧ String.le (sha1_hex (event_id x)) (sha1_hex (event_id y)).

Lemma before_preferred x y : before x y ↔ preferred x y.
Proof. unfold before, order_key_le, preferred, key_func. simpl. intuition lia. Qed.

(** [e] is the choice among the conflicting events [es]: the first in the order, by
    depth and then by digest, of those the rules accept; the last of all if they accept none. *)
Definition normal_choice (es : list Event) (auth : StateMap Event) (e : Event) : Prop :=
  (∃ x, x ∈ es ∧ judge x auth = Ok e ∧ ∀ y, y ∈ es → is_ok (judge y auth) = true → preferred x y) ∨
  (e ∈ es ∧ ∀ y, y ∈ es → is_ok (judge y auth) = false ∧ preferred y e).

Lemma normal_loop_choice `{IterOrderOk} auth l :
  keyed auth → l ≠ [] → StronglySorted before l →
  (∀ x er, x ∈ l → judge x auth = Err er → is_AuthError er = true) →
  ∃ e, normal_loop auth l = Ok e ∧ normal_choice l auth e.
Proof.
  intros Hk Hne Hs. induction Hs as [|x l Hs IH Hx]; [done|]. intros Her. cbn [normal_loop].
  rewrite check_judge by done. rewrite Forall_forall in Hx. setoid_rewrite before_preferred in Hx.
  assert (Hrefl : preferred x x) by (by right).
  destruct (judge x auth) as [e|er] eqn:Hj.
  - exists e. split; [done|]. left. exists x. split_and!; [by left|done|].
    intros y [->|Hy]%elem_of_cons _; [done|by apply Hx].
  - rewrite (Her x er ltac:(by left) Hj). destruct l as [|z l].
    { exists x. split; [done|]. right. split; [by left|]. intros y ->%list_elem_of_singleton. by rewrite Hj. }
    destruct IH as (e & He & Hc); [done| |].
    { intros y er' Hy. apply Her. by right. }
    exists e. split; [done|]. destruct Hc as [(y & Hy & Hjy & Hb)|[He' Hb]].
    + left. exists y. split_and!; [by right|done|]. intros w [->|Hw]%elem_of_cons; [by rewrite Hj|by apply Hb].
    + right. split; [by right|]. intros w [->|Hw]%elem_of_cons; [rewrite Hj; split; [done|by apply Hx]|by apply Hb].
Qed.

(** A conflict of ordinary state (names, topics, ...) is settled in favour of the
    deepest event that the auth rules accept, the smallest SHA-1 digest of the id deciding
    between events of one depth; if they accept none, of the shallowest event. *)
Theorem v1_normal_choice `{IterOrderOk} es auth :
  keyed auth → es ≠ [] → (∀ x er, x ∈ es → judge x auth = Err er → is_AuthError er = true) →
  ∃ e, _resolve_normal_events es auth = Ok e ∧ normal_choice es auth e.
Proof.
  intros Hk Hne Her. destruct (normal_loop_choice auth (_ordered_events es)) as (e & He & Hc).
  - done.
  - intros E. apply Hne, Permutation_nil_r. by rewrite <- E, ordered_perm.
  - apply ordered_sorted.
  - intros x er. rewrite ordered_perm. apply Her.
  - exists e. split; [done|]. unfold normal_choice in *. by setoid_rewrite ordered_perm in Hc.
Qed.
End steps.
