(* ===== verification/StateResV1Examples.v ===== *)
(** * Witnesses for the properties of state resolution v1

    A room of version 1 whose state forked: one branch has an older topic and [@b:x] as a
    member, the other a newer topic and [@b:x] banned.  Half of the events are in flight,
    the others in the store. *)

From S2P Require Import Prelude PyVal Constants RoomVersions Events EventAuth EventAuthExamples TopoSort StateResV2 StateResLemmas StateResV1 StateResV1Props StateResV1Thms.
Import V1.

#[local] Existing Instance example_crypto.

(** A digest without collisions. *)
#[local] Instance plain_digest : Sha1 := λ s, s.

Definition v1_event (id typ from skey : string) (c : dict) (d : Z) : Event := {|
  event_id := id; type := typ; sender := from; room_id := "!r:x"; ev_state_key := Some skey;
  content := c; ev_prev_events := []; ev_auth_events := [];
  origin_server_ts := d; depth := d; signatures := [("x", [("ed25519:1", "sig")])]; ev_redacts := None;
  room_version := RoomVersions.V1; rejected_reason := None; recheck_redaction := false |}.

Definition v1_topic1 : Event := v1_event "$t1" "m.room.topic" "@a:x" "" [("topic", JStr "one")] 7.
Definition v1_topic2 : Event := v1_event "$t2" "m.room.topic" "@a:x" "" [("topic", JStr "two")] 8.
(** The deepest, from a user without the power. *)
Definition v1_topic3 : Event := v1_event "$t3" "m.room.topic" "@b:x" "" [("topic", JStr "three")] 9.

Definition by_id (l : list Event) : EventMap := list_to_map ((λ e, (event_id e, e)) <$> l).

Definition v1_in_flight : EventMap := by_id [
  v1_topic1; v1_topic2; v1_topic3;
  v1_event "$mb" EventTypes.Member "@b:x" "@b:x" [("membership", JStr "join")] 5;
  v1_event "$ban" EventTypes.Member "@a:x" "@b:x" [("membership", JStr "ban")] 6].

Definition v1_db : EventMap := by_id [
  v1_event "$create" EventTypes.Create "@a:x" "" [("creator", JStr "@a:x")] 1;
  v1_event "$ma" EventTypes.Member "@a:x" "@a:x" [("membership", JStr "join")] 2;
  v1_event "$pl" EventTypes.PowerLevels "@a:x" "" (ex_levels 0) 3;
  v1_event "$jr" EventTypes.JoinRules "@a:x" "" [("join_rule", JStr "public")] 4].

Definition v1_store (X : gset string) : EventMap := filter (λ ie : string * Event, ie.1 ∈ X) v1_db.

Lemma v1_store_ok : store_ok v1_db v1_store.
Proof.
  intros X id. unfold v1_store. rewrite map_lookup_filter. destruct (v1_db !! id) as [e|]; simpl.
  - case_decide; by simplify_option_eq.
  - by case_decide.
Qed.

Definition v1_common : StateMap string := list_to_map [
  ((EventTypes.Create, ""), "$create"); ((EventTypes.Member, "@a:x"), "$ma");
  ((EventTypes.PowerLevels, ""), "$pl"); ((EventTypes.JoinRules, ""), "$jr")].

Definition v1_sets : list (StateMap string) := [
  <[(EventTypes.Member, "@b:x") := "$mb"]> (<[("m.room.topic", "") := "$t1"]> v1_common);
  <[(EventTypes.Member, "@b:x") := "$ban"]> (<[("m.room.topic", "") := "$t2"]> v1_common);
  <[(EventTypes.Member, "@b:x") := "$mb"]> (<[("m.room.topic", "") := "$t3"]> v1_common)].

(** Under their ids and keys, by computation. *)
Definition keys_right (evs : EventMap) (sets : list (StateMap string)) : bool :=
  forallb (λ ie : string * Event, bool_decide (event_id ie.2 = ie.1)) (map_to_list evs) &&
  forallb (λ S : StateMap string, forallb (λ ki : (string * string) * string,
      match evs !! ki.2 with Some e => bool_decide (event_key e = Ok ki.1) | None => true end)
    (map_to_list S)) sets.

Lemma keys_right_wf sets evs : keys_right evs sets = true → wf_sets sets evs.
Proof.
  intros [H1 H2]%andb_true_iff. rewrite forallb_forall in H1, H2. split; [| |by intros].
  - intros id e He%elem_of_map_to_list%list_elem_of_In. by apply H1, bool_decide_eq_true in He.
  - intros S k id e HS%list_elem_of_In Hk%elem_of_map_to_list%list_elem_of_In He.
    specialize (H2 S HS). rewrite forallb_forall in H2. specialize (H2 _ Hk). cbn [fst snd] in H2.
    rewrite He in H2. by apply bool_decide_eq_true in H2.
Qed.

Lemma v1_sets_wf : wf_sets v1_sets (all_events (Some v1_in_flight) v1_db).
Proof. apply keys_right_wf. by vm_compute. Qed.

Definition v1_run (O : IterOrder) : result (StateMap string) :=
  @resolve_events_with_store O _ _ "!r:x" RoomVersions.V1 v1_sets (Some v1_in_flight) v1_store.

(** The ban stands, and the deepest topic of a sender with the power. *)
Example v1_run_result :
  unwrap ∅ (v1_run canonical_order) !! (EventTypes.Member, "@b:x") = Some "$ban" ∧
  unwrap ∅ (v1_run canonical_order) !! ("m.room.topic", "") = Some "$t2" ∧
  size (unwrap ∅ (v1_run canonical_order)) = 6%nat.
Proof. vm_compute. done. Qed.

Definition v1_state : StateMap string := unwrap ∅ (v1_run canonical_order).

Lemma v1_ran :
  @resolve_events_with_store canonical_order _ _ "!r:x" RoomVersions.V1 v1_sets (Some v1_in_flight) v1_store = Ok v1_state.
Proof. vm_compute. reflexivity. Qed.

Lemma v1_deterministic_witness :
  @resolve_events_with_store reversed_order _ _ "!r:x" RoomVersions.V1 v1_sets (Some v1_in_flight) v1_store = Ok v1_state.
Proof.
  exact (@v1_deterministic _ _ canonical_order reversed_order canonical_order_ok reversed_order_ok
    "!r:x" RoomVersions.V1 v1_sets (Some v1_in_flight) v1_store v1_db v1_state v1_store_ok v1_sets_wf v1_ran).
Defined.

Lemma v1_sound_witness :
  v1_outcome (all_events (Some v1_in_flight) v1_db) (values v1_sets ("m.room.topic", ""))
    (v1_state !! ("m.room.topic", "")).
Proof.
  refine (v1_sound "!r:x" RoomVersions.V1 v1_sets (Some v1_in_flight) v1_store v1_db v1_state _
    v1_store_ok v1_sets_wf _ v1_ran).
  simpl. lia.
Defined.

(** The state in which the topics are judged. *)
Definition v1_auth : StateMap Event := list_to_map (omap
  (λ ki : (string * string) * string, pair ki.1 <$> v1_db !! ki.2) (map_to_list v1_common)).

Lemma v1_auth_keyed : keyed v1_auth.
Proof.
  intros k e He%elem_of_map_to_list%list_elem_of_In.
  assert (Hall : forallb (λ ke : (string * string) * Event, bool_decide (event_key ke.2 = Ok ke.1))
    (map_to_list v1_auth) = true) by (by vm_compute).
  rewrite forallb_forall in Hall. by apply Hall, bool_decide_eq_true in He.
Qed.

Lemma v1_normal_choice_witness :
  normal_choice [v1_topic1; v1_topic3; v1_topic2] v1_auth v1_topic2.
Proof.
  destruct (v1_normal_choice [v1_topic1; v1_topic3; v1_topic2] v1_auth) as (e & He & Hc).
  - exact v1_auth_keyed.
  - done.
  - intros x er Hx. rewrite !elem_of_cons in Hx. destruct Hx as [->|[->|[->|Hx]]]; [| | |by apply not_elem_of_nil in Hx];
      vm_compute; intros E; congruence || (injection E as <-; reflexivity).
  - assert (E : e = v1_topic2).
    { assert (Hr : _resolve_normal_events [v1_topic1; v1_topic3; v1_topic2] v1_auth = Ok v1_topic2) by (by vm_compute).
      rewrite Hr in He. by injection He as <-. }
    by rewrite E in Hc.
Defined.
