(* ===== verification/StreamChangeCache.v ===== *)
(** * The stream change cache: [synapse/util/caches/stream_change_cache.py]

    The cache remembers, for a bounded number of stream positions, which entities
    changed last there.  Its specification is the full history of the changes it was
    told about: every answer is that of the history, except that positions the cache
    no longer covers count as changed. *)

From S2P Require Import Prelude TopoSort.

Record cache := MkCache {
  _original_max_size : Z;
  _max_size : Z;
  (** the attribute [set_cache_factor] assigns, which is not the one [_evict] reads *)
  max_size : option Z;
  _cache : gmap Z (gset string);
  _entity_to_key : gmap string Z;
  _earliest_known_stream_pos : Z
}.

(** The keys of the [SortedDict], in order. *)
Definition sorted_keys (m : gmap Z (gset string)) : list Z :=
  merge_sort Z.le (elements (dom m)).

(** The loop [for entity in r: self._entity_to_key.pop(entity, None)]. *)
Definition drop_entities (r : gset string) (m : gmap string Z) : gmap string Z :=
  filter (λ ep, ep.1 ∉ r) m.

(** One iteration of [while len(self._cache) > self._max_size]. *)
Definition evict_one (c : cache) : result cache :=
  match sorted_keys (_cache c) with
  | [] => Err (PyBuiltin KeyError)
  | k :: _ =>
      let r := default ∅ (_cache c !! k) in
      Ok {| _original_max_size := _original_max_size c; _max_size := _max_size c;
            max_size := max_size c;
            _cache := delete k (_cache c);
            _entity_to_key := drop_entities r (_entity_to_key c);
            _earliest_known_stream_pos := Z.max k (_earliest_known_stream_pos c) |}
  end.

(** The loop; each iteration removes a key, so the number of keys bounds it. *)
Fixpoint evict_loop (fuel : nat) (c : cache) : result cache :=
  if Z.of_nat (size (_cache c)) >? _max_size c then
    match fuel with
    | O => Err (PyBuiltin KeyError)
    | S fuel => c ← evict_one c; evict_loop fuel c
    end
  else Ok c.

Definition _evict (c : cache) : result cache := evict_loop (size (_cache c)) c.

(** Take the entity out of the set of its old position, deleting the set when it is
    left empty; the position must be a key, and the entity an element. *)
Definition forget (entity : string) (old_pos : Z) (m : gmap Z (gset string))
    : result (gmap Z (gset string)) :=
  match m !! old_pos with
  | None => Err (PyBuiltin KeyError)
  | Some e =>
      if bool_decide (entity ∈ e) then
        let e := e ∖ {[entity]} in
        if bool_decide (e = ∅) then Ok (delete old_pos m) else Ok (<[old_pos := e]> m)
      else Err (PyBuiltin KeyError)
  end.

Definition set_cache (c : cache) (m : gmap Z (gset string)) (k : gmap string Z) : cache := {|
  _original_max_size := _original_max_size c; _max_size := _max_size c; max_size := max_size c;
  _cache := m; _entity_to_key := k;
  _earliest_known_stream_pos := _earliest_known_stream_pos c |}.

(** The end of [entity_has_changed]. *)
Definition record_change (c : cache) (entity : string) (stream_pos : Z)
    (m : gmap Z (gset string)) : result cache :=
  _evict (set_cache c (<[stream_pos := {[entity]} ∪ default ∅ (m !! stream_pos)]> m)
                      (<[entity := stream_pos]> (_entity_to_key c))).

Definition entity_has_changed (entity : string) (stream_pos : Z) (c : cache) : result cache :=
  if stream_pos <=? _earliest_known_stream_pos c then Ok c
  else match _entity_to_key c !! entity with
       | Some old_pos =>
           if old_pos >=? stream_pos then Ok c
           else m ← forget entity old_pos (_cache c); record_change c entity stream_pos m
       | None => record_change c entity stream_pos (_cache c)
       end.

(** [__init__] *)
Definition new_cache (current_stream_pos max_size : Z) (prefilled_cache : list (string * Z))
    : result cache :=
  fold_res (λ c ep, entity_has_changed ep.1 ep.2 c) prefilled_cache
    {| _original_max_size := max_size; _max_size := max_size; max_size := None;
       _cache := ∅; _entity_to_key := ∅; _earliest_known_stream_pos := current_stream_pos |}.

(** [set_cache_factor], given [math.floor(self._original_max_size * factor)]. *)
Definition set_cache_factor (new_size : Z → Z) (c : cache) : result (bool * cache) :=
  let new_size := new_size (_original_max_size c) in
  if bool_decide (new_size = _max_size c) then Ok (false, c)
  else
    c ← _evict {| _original_max_size := _original_max_size c; _max_size := _max_size c;
                  max_size := Some new_size; _cache := _cache c;
                  _entity_to_key := _entity_to_key c;
                  _earliest_known_stream_pos := _earliest_known_stream_pos c |};
    Ok (true, c).

Definition has_entity_changed (entity : string) (stream_pos : Z) (c : cache) : bool :=
  if stream_pos <=? _earliest_known_stream_pos c then true
  else match _entity_to_key c !! entity with
       | None => false
       | Some latest_entity_change_pos => stream_pos <? latest_entity_change_pos
       end.

Definition get_max_pos_of_last_change (entity : string) (c : cache) : Z :=
  default (_earliest_known_stream_pos c) (_entity_to_key c !! entity).

(** [self._cache.peekitem()[0]], the largest key. *)
Definition has_any_entity_changed (stream_pos : Z) (c : cache) : bool :=
  if stream_pos <=? _earliest_known_stream_pos c then true
  else match last (sorted_keys (_cache c)) with
       | None => false
       | Some k => stream_pos <? k
       end.

Section queries.
Context `{IterOrder}.

(** [None] is a result without a hit. *)
Definition get_all_entities_changed (stream_pos : Z) (c : cache) : option (list string) :=
  if stream_pos <=? _earliest_known_stream_pos c then None
  else Some (k ← filter (λ k, stream_pos < k) (sorted_keys (_cache c));
             set_iter (default ∅ (_cache c !! k))).

Definition get_entities_changed (entities : gset string) (stream_pos : Z) (c : cache)
    : gset string :=
  match get_all_entities_changed stream_pos c with
  | Some changed => entities ∩ list_to_set changed
  | None => entities
  end.
End queries.

(** ** Sorted keys *)

Lemma elem_of_sorted_keys m k : k ∈ sorted_keys m ↔ k ∈ dom m.
Proof. unfold sorted_keys. by rewrite merge_sort_Permutation, elem_of_elements. Qed.

Lemma sorted_keys_sorted m : StronglySorted Z.le (sorted_keys m).
Proof. apply StronglySorted_merge_sort; apply _. Qed.

Lemma NoDup_sorted_keys m : NoDup (sorted_keys m).
Proof. unfold sorted_keys. rewrite merge_sort_Permutation. apply NoDup_elements. Qed.

Lemma sorted_keys_head m k l :
  sorted_keys m = k :: l → k ∈ dom m ∧ ∀ k', k' ∈ dom m → k ≤ k'.
Proof.
  intros Hk. pose proof (sorted_keys_sorted m) as Hs.
  setoid_rewrite <- elem_of_sorted_keys. rewrite Hk in *. apply StronglySorted_inv in Hs as [_ Hs].
  split; [by left|]. intros k' [->|Hin]%elem_of_cons; [done|].
  by eapply Forall_forall in Hs.
Qed.

Lemma sorted_keys_last m k :
  last (sorted_keys m) = Some k → k ∈ dom m ∧ ∀ k', k' ∈ dom m → k' ≤ k.
Proof.
  intros Hk. setoid_rewrite <- elem_of_sorted_keys. apply last_Some in Hk as [l Hk].
  pose proof (sorted_keys_sorted m) as Hs. rewrite Hk in *. split; [set_solver|].
  intros k' [Hin| ->%list_elem_of_singleton]%elem_of_app; [|done].
  eapply StronglySorted_app_1_elem_of; [done..|by left].
Qed.

Lemma sorted_keys_nil m : sorted_keys m = [] → m = ∅.
Proof.
  intros Hn. apply dom_empty_inv_L, set_eq. intros k. rewrite <- elem_of_sorted_keys, Hn. set_solver.
Qed.

Lemma StronglySorted_filter {A} (R : relation A) (P : A → Prop) `{∀ x, Decision (P x)} l :
  StronglySorted R l → StronglySorted R (filter P l).
Proof.
  induction 1 as [|x l Hs IH Hall]; [constructor|]. rewrite filter_cons. case_decide; [|done].
  constructor; [done|]. rewrite Forall_forall in Hall |- *.
  intros y [_ Hy]%list_elem_of_filter. by apply Hall.
Qed.

Lemma StronglySorted_const {A} (R : relation A) (l : list A) :
  (∀ x y, x ∈ l → y ∈ l → R x y) → StronglySorted R l.
Proof.
  induction l as [|x l IH]; intros Hall; constructor.
  - apply IH. intros y z Hy Hz. apply Hall; by right.
  - apply Forall_forall. intros y Hy. apply Hall; [by left|by right].
Qed.

(** ** The invariant, against the history of changes *)

(** The latest change of an entity the cache knows is the latest of its history; it
    knows those after its earliest position, and its two maps agree. *)
Record cache_inv (H : list (string * Z)) (c : cache) : Prop := {
  inv_sync : ∀ x p, _entity_to_key c !! x = Some p ↔ ∃ S, _cache c !! p = Some S ∧ x ∈ S;
  inv_nonempty : ∀ p, _cache c !! p ≠ Some ∅;
  inv_recent : ∀ p, p ∈ dom (_cache c) → _earliest_known_stream_pos c < p;
  inv_history : ∀ x p, _earliest_known_stream_pos c < p →
    (∃ q, _entity_to_key c !! x = Some q ∧ p ≤ q) ↔ (∃ q, (x, q) ∈ H ∧ p ≤ q)
}.

Lemma evict_one_inv H c :
  cache_inv H c → _cache c ≠ ∅ →
  ∃ c', evict_one c = Ok c' ∧ cache_inv H c' ∧ size (_cache c) = S (size (_cache c')) ∧
    _max_size c' = _max_size c ∧
    _earliest_known_stream_pos c ≤ _earliest_known_stream_pos c'.
Proof.
  intros [Hsync Hne Hrec Hhist] Hc. unfold evict_one.
  destruct (sorted_keys (_cache c)) as [|k l] eqn:Hk; [by apply sorted_keys_nil in Hk|].
  apply sorted_keys_head in Hk as [Hin Hmin]. pose proof (Hrec k Hin) as Hke.
  apply elem_of_dom in Hin as [r Hr]. rewrite Hr. simpl.
  assert (Hent : ∀ x p, drop_entities r (_entity_to_key c) !! x = Some p ↔
    _entity_to_key c !! x = Some p ∧ p ≠ k).
  { intros x p. unfold drop_entities. rewrite map_lookup_filter_Some. simpl. split.
    - intros [Hx Hnr]. split; [done|]. intros ->. apply Hsync in Hx as (S0 & HS & Hin).
      by simplify_eq.
    - intros [Hx Hpk]. split; [done|]. intros Hxr. apply Hpk.
      assert (_entity_to_key c !! x = Some k) by (apply Hsync; eauto). congruence. }
  eexists. split; [done|]. split_and!; simpl.
  - split; simpl.
    + intros x p. rewrite Hent, Hsync. split.
      * intros [(S0 & HS & Hx) Hpk]. exists S0. by rewrite lookup_delete_ne.
      * intros (S0 & [Hpk HS]%lookup_delete_Some & Hx). eauto.
    + intros p [_ HS]%lookup_delete_Some. by apply (Hne p).
    + intros p. rewrite dom_delete, elem_of_difference, elem_of_singleton. intros [Hp Hpk].
      specialize (Hmin p Hp). specialize (Hrec p Hp). lia.
    + intros x p Hp. rewrite <- Hhist by lia. setoid_rewrite Hent. split; [naive_solver|].
      intros (q & Hq & Hpq). exists q. split; [|done]. split; [done|]. lia.
  - assert (Hs : size (delete k (_cache c)) = pred (size (_cache c))) by (by apply map_size_delete_Some; eauto).
    rewrite Hs. destruct (size (_cache c)) eqn:Hz; [|done].
    apply map_size_empty_inv in Hz. congruence.
  - done.
  - lia.
Qed.

Lemma evict_loop_inv H fuel c :
  cache_inv H c → 0 ≤ _max_size c → (size (_cache c) ≤ fuel)%nat →
  ∃ c', evict_loop fuel c = Ok c' ∧ cache_inv H c' ∧ _max_size c' = _max_size c ∧
    Z.of_nat (size (_cache c')) ≤ _max_size c' ∧
    _earliest_known_stream_pos c ≤ _earliest_known_stream_pos c' ∧
    (Z.of_nat (size (_cache c)) ≤ _max_size c → c' = c).
Proof.
  revert c. induction fuel as [|fuel IH]; intros c Hinv Hmax Hsz; simpl; rewrite Z.gtb_ltb;
    destruct (Z.ltb_spec (_max_size c) (Z.of_nat (size (_cache c)))) as [Hlt|Hge].
  - lia.
  - exists c. split_and!; done.
  - destruct (evict_one_inv H c Hinv) as (c1 & -> & Hinv1 & Hs1 & Hm1 & He1).
    { intros Hz. rewrite Hz, map_size_empty in Hlt. lia. }
    simpl. destruct (IH c1 Hinv1) as (c' & -> & Hinv' & Hm' & Hs' & He' & _); [lia..|].
    exists c'. split_and!; [done|done|congruence|done|lia|lia].
  - exists c. split_and!; done.
Qed.

(** The positions with one entity taken out. *)
Record without (c : cache) (x : string) (m : gmap Z (gset string)) : Prop := {
  wo_sync : ∀ y q, (∃ S, m !! q = Some S ∧ y ∈ S) ↔ _entity_to_key c !! y = Some q ∧ y ≠ x;
  wo_nonempty : ∀ q, m !! q ≠ Some ∅;
  wo_recent : ∀ q, q ∈ dom m → _earliest_known_stream_pos c < q
}.

Lemma forget_without H c x old :
  cache_inv H c → _entity_to_key c !! x = Some old →
  ∃ m, forget x old (_cache c) = Ok m ∧ without c x m.
Proof.
  intros [Hsync Hne Hrec _] Hold. destruct (proj1 (Hsync x old) Hold) as (S0 & HS & Hx).
  unfold forget. rewrite HS, bool_decide_true by done.
  assert (Hw : ∀ m, (∀ q, m !! q = if decide (q = old)
      then (if decide (S0 ∖ {[x]} = ∅) then None else Some (S0 ∖ {[x]}))
      else _cache c !! q) → without c x m).
  { intros m Hm. split.
    - intros y q. rewrite Hsync, Hm. destruct (decide (q = old)) as [->|Hq].
      + rewrite HS. clear. case_decide as He; split.
        * naive_solver.
        * intros [(T & [= <-] & Hy) Hyx]. assert (y ∈ S0 ∖ {[x]}) as Hin by set_solver.
          rewrite He in Hin. set_solver.
        * intros (T & [= <-] & Hy). set_solver.
        * intros [(T & [= <-] & Hy) Hyx]. exists (S0 ∖ {[x]}). set_solver.
      + split; [|naive_solver]. intros (T & HT & Hy). split; [eauto|]. intros ->.
        assert (_entity_to_key c !! x = Some q) by (apply Hsync; eauto). congruence.
    - intros q. rewrite Hm. repeat case_decide; naive_solver.
    - intros q [T HT]%elem_of_dom. rewrite Hm in HT. apply Hrec, elem_of_dom.
      destruct (decide (q = old)) as [->|]; eauto. }
  case_bool_decide as He; (eexists; split; [done|]); apply Hw; intros q;
    (destruct (decide (q = old)) as [->|Hq]; [|by rewrite ?lookup_delete_ne, ?lookup_insert_ne]).
  - rewrite lookup_delete_eq. by rewrite decide_True.
  - rewrite lookup_insert_eq. by rewrite decide_False.
Qed.

Lemma no_forget_without H c x :
  cache_inv H c → _entity_to_key c !! x = None → without c x (_cache c).
Proof.
  intros [Hsync Hne Hrec _] Hx. split; [|done..].
  intros y q. rewrite <- Hsync. naive_solver.
Qed.

Lemma record_inv H c x p m :
  cache_inv H c → without c x m → _earliest_known_stream_pos c < p →
  (∀ q, _entity_to_key c !! x = Some q → q < p) →
  cache_inv ((x, p) :: H)
    (set_cache c (<[p := {[x]} ∪ default ∅ (m !! p)]> m) (<[x := p]> (_entity_to_key c))).
Proof.
  intros [_ _ _ Hhist] [Wsync Wne Wrec] Hp Hlt. split; simpl.
  - intros y q. destruct (decide (y = x)) as [->|Hyx].
    + rewrite lookup_insert_eq. split.
      * intros [= <-]. rewrite lookup_insert_eq. eexists. split; [done|].
        by apply elem_of_union_l, elem_of_singleton.
      * intros (T & HT & Hx). destruct (decide (q = p)) as [->|Hqp]; [done|].
        rewrite lookup_insert_ne in HT by done.
        destruct (proj1 (Wsync x q)) as [_ ?]; [eauto|done].
    + rewrite lookup_insert_ne by done. split.
      * intros Hy. destruct (proj2 (Wsync y q)) as (T & HT & HyT); [done|].
        destruct (decide (q = p)) as [->|Hqp].
        -- rewrite lookup_insert_eq, HT. eexists. split; [done|]. by apply elem_of_union_r.
        -- rewrite lookup_insert_ne by done. eauto.
      * intros (T & HT & HyT). apply (Wsync y q). destruct (decide (q = p)) as [->|Hqp].
        -- rewrite lookup_insert_eq in HT. injection HT as <-.
           apply elem_of_union in HyT as [?%elem_of_singleton|HyT]; [done|].
           destruct (m !! p) as [T|]; [by exists T|]. by apply elem_of_empty in HyT.
        -- rewrite lookup_insert_ne in HT by done. eauto.
  - intros q. destruct (decide (q = p)) as [->|Hqp].
    + rewrite lookup_insert_eq. intros [= He]. clear -He. set_solver.
    + by rewrite lookup_insert_ne.
  - intros q. rewrite dom_insert, elem_of_union, elem_of_singleton. intros [->|Hq]; [done|].
    by apply Wrec.
  - intros y q Hq. specialize (Hhist y q Hq). destruct (decide (y = x)) as [->|Hyx].
    + rewrite lookup_insert_eq. split.
      * intros (q' & [= <-] & Hle). exists p. split; [by left|done].
      * intros (q' & Hin & Hle). exists p. split; [done|].
        apply elem_of_cons in Hin as [[= ->]|Hin]; [done|].
        destruct (proj2 Hhist) as (q2 & Hq2 & Hle2); [eauto|]. specialize (Hlt q2 Hq2). lia.
    + rewrite lookup_insert_ne by done. rewrite Hhist. setoid_rewrite elem_of_cons. naive_solver.
Qed.

(** Telling the cache about a change keeps it in step with the history. *)
Lemma entity_has_changed_inv H c x p :
  cache_inv H c → 0 ≤ _max_size c → Z.of_nat (size (_cache c)) ≤ _max_size c →
  ∃ c', entity_has_changed x p c = Ok c' ∧ cache_inv ((x, p) :: H) c' ∧
    _max_size c' = _max_size c ∧ Z.of_nat (size (_cache c')) ≤ _max_size c' ∧
    _earliest_known_stream_pos c ≤ _earliest_known_stream_pos c'.
Proof.
  intros Hinv Hmax Hsz. unfold entity_has_changed.
  assert (Hskip : p ≤ _earliest_known_stream_pos c ∨
      (∃ old, _entity_to_key c !! x = Some old ∧ p ≤ old) → cache_inv ((x, p) :: H) c).
  { intros Hs. destruct Hinv as [Hsync Hne Hrec Hhist]. split; [done..|].
    intros y q Hq. rewrite Hhist by done. setoid_rewrite elem_of_cons. split; [naive_solver|].
    intros (q' & [[= -> ->]|Hin] & Hle); [|eauto]. destruct Hs as [?|(old & Hold & ?)]; [lia|].
    apply Hhist; [done|]. exists old. split; [done|lia]. }
  assert (Hrecord : ∀ m, without c x m → _earliest_known_stream_pos c < p →
      (∀ q, _entity_to_key c !! x = Some q → q < p) →
      ∃ c', record_change c x p m = Ok c' ∧ cache_inv ((x, p) :: H) c' ∧
        _max_size c' = _max_size c ∧ Z.of_nat (size (_cache c')) ≤ _max_size c' ∧
        _earliest_known_stream_pos c ≤ _earliest_known_stream_pos c').
  { intros m Hw Hp Hlt. pose proof (record_inv H c x p m Hinv Hw Hp Hlt) as Hinv1.
    unfold record_change, _evict.
    destruct (evict_loop_inv _ _ _ Hinv1 Hmax (le_n _)) as (c' & -> & ? & ? & ? & ? & _).
    by exists c'. }
  destruct (Z.leb_spec p (_earliest_known_stream_pos c)) as [Hle|Hgt].
  { exists c. split_and!; [done|by apply Hskip; left|done..]. }
  destruct (_entity_to_key c !! x) as [old|] eqn:Hold.
  - rewrite Z.geb_leb. destruct (Z.leb_spec p old) as [Hle|Hlt].
    { exists c. split_and!; [done|apply Hskip; right; eauto|done..]. }
    destruct (forget_without H c x old Hinv Hold) as (m & -> & Hw). simpl.
    apply Hrecord; [done..|]. intros q [= <-]. done.
  - apply Hrecord; [by eapply no_forget_without|done..].
Qed.

(** ** Reachable caches *)

(** A cache made for [start], after the changes [H] (the latest first). *)
Inductive reachable (max start : Z) : list (string * Z) → cache → Prop :=
| reachable_new prefilled c :
    new_cache start max prefilled = Ok c → reachable max start (rev prefilled) c
| reachable_change H c x p c' :
    reachable max start H c → entity_has_changed x p c = Ok c' →
    reachable max start ((x, p) :: H) c'
| reachable_factor H c new_size b c' :
    reachable max start H c → set_cache_factor new_size c = Ok (b, c') →
    reachable max start H c'.

Definition cache_ok (max start : Z) (H : list (string * Z)) (c : cache) : Prop :=
  cache_inv H c ∧ _max_size c = max ∧ Z.of_nat (size (_cache c)) ≤ max ∧
  start ≤ _earliest_known_stream_pos c.

Lemma entity_has_changed_ok max start H c x p :
  0 ≤ max → cache_ok max start H c →
  ∃ c', entity_has_changed x p c = Ok c' ∧ cache_ok max start ((x, p) :: H) c'.
Proof.
  intros Hmax (Hinv & Hm & Hsz & Hst).
  destruct (entity_has_changed_inv H c x p Hinv) as (c' & Hc' & Hinv' & Hm' & Hs' & He'); [lia..|].
  exists c'. split; [done|]. split_and!; [done|lia..].
Qed.

Lemma new_cache_ok max start pre :
  0 ≤ max → ∃ c, new_cache start max pre = Ok c ∧ cache_ok max start (rev pre) c.
Proof.
  intros Hmax. unfold new_cache.
  assert (Hgen : ∀ H c, cache_ok max start H c →
    ∃ c', fold_res (λ c ep, entity_has_changed ep.1 ep.2 c) pre c = Ok c' ∧
      cache_ok max start (rev pre ++ H) c').
  { induction pre as [|[x p] pre IH]; intros H c Hc; simpl; [by exists c|].
    destruct (entity_has_changed_ok max start H c x p Hmax Hc) as (c1 & -> & Hc1). simpl.
    destruct (IH _ _ Hc1) as (c' & -> & Hc'). exists c'. by rewrite <- app_assoc. }
  destruct (Hgen [] {| _original_max_size := max; _max_size := max; max_size := None;
    _cache := ∅; _entity_to_key := ∅; _earliest_known_stream_pos := start |}) as (c' & Hc' & Hok).
  - split_and!; simpl; [|done|by rewrite map_size_empty|done]. split; simpl.
    + intros x p. rewrite lookup_empty. split; [done|]. intros (S0 & HS & _).
      by rewrite lookup_empty in HS.
    + intros p. by rewrite lookup_empty.
    + intros p. rewrite dom_empty. set_solver.
    + intros x p _. rewrite lookup_empty. split; [naive_solver|].
      by intros (q & ?%not_elem_of_nil & _).
  - exists c'. by rewrite app_nil_r in Hok.
Qed.

Lemma set_cache_factor_ok max start H c new_size :
  0 ≤ max → cache_ok max start H c →
  ∃ b c', set_cache_factor new_size c = Ok (b, c') ∧ cache_ok max start H c' ∧
    _cache c' = _cache c ∧ _entity_to_key c' = _entity_to_key c.
Proof.
  intros Hmax (Hinv & Hm & Hsz & Hst). unfold set_cache_factor. case_bool_decide; [by exists false, c|].
  set (c1 := MkCache _ _ _ _ _ _). assert (Hinv1 : cache_inv H c1) by (by destruct Hinv).
  destruct (evict_loop_inv H (size (_cache c1)) c1 Hinv1) as (c' & Hc' & _ & _ & _ & _ & Heq);
    [simpl; lia|done|].
  unfold _evict. rewrite Hc'. simpl. rewrite Heq by (simpl; lia).
  exists true, c1. split; [done|]. split_and!; done.
Qed.

Lemma reachable_ok max start H c : 0 ≤ max → reachable max start H c → cache_ok max start H c.
Proof.
  intros Hmax. induction 1 as [pre c Hc|H c x p c' _ IH Hc|H c f b c' _ IH Hc].
  - destruct (new_cache_ok max start pre Hmax) as (c1 & Hc1 & ?). congruence.
  - destruct (entity_has_changed_ok max start H c x p Hmax IH) as (c1 & Hc1 & ?). congruence.
  - destruct (set_cache_factor_ok max start H c f Hmax IH) as (b1 & c1 & Hc1 & ? & _). congruence.
Qed.

(** ** Answers *)

Section answers.
Context (max start : Z) (H : list (string * Z)) (c : cache).
Hypothesis Hok : cache_ok max start H c.

Abbreviation earliest := (_earliest_known_stream_pos c).

Lemma known_after pos x :
  earliest < pos →
  (∃ q, _entity_to_key c !! x = Some q ∧ pos < q) ↔ (∃ q, (x, q) ∈ H ∧ pos < q).
Proof.
  intros Hpos. destruct Hok as [[_ _ _ Hhist] _].
  specialize (Hhist x (pos + 1) ltac:(lia)). destruct Hhist as [H1 H2].
  split; intros (q & Hq & Hlt); [destruct H1 as (q' & ? & ?)|destruct H2 as (q' & ? & ?)];
    try (exists q; split; [done|lia]); exists q'; (split; [done|lia]).
Qed.

Lemma known_recent x q : _entity_to_key c !! x = Some q → earliest < q.
Proof.
  destruct Hok as [[Hsync _ Hrec _] _]. intros (S0 & HS & _)%Hsync. apply Hrec.
  by apply elem_of_dom_2 in HS.
Qed.

Lemma has_entity_changed_iff x pos :
  has_entity_changed x pos c = true ↔ pos ≤ earliest ∨ ∃ q, (x, q) ∈ H ∧ pos < q.
Proof.
  unfold has_entity_changed. destruct (Z.leb_spec pos earliest) as [Hle|Hgt]; [naive_solver|].
  rewrite <- known_after by done. destruct (_entity_to_key c !! x) as [q|].
  - rewrite Z.ltb_lt. naive_solver lia.
  - naive_solver lia.
Qed.

Lemma last_change_bound x q : (x, q) ∈ H → q ≤ get_max_pos_of_last_change x c.
Proof.
  intros Hin. unfold get_max_pos_of_last_change.
  destruct (Z.le_gt_cases q earliest) as [Hle|Hgt].
  - destruct (_entity_to_key c !! x) as [q'|] eqn:Hx; simpl; [|done].
    apply known_recent in Hx. lia.
  - destruct Hok as [[_ _ _ Hhist] _].
    destruct (proj2 (Hhist x q ltac:(lia))) as (q' & -> & Hle); [by exists q|]. done.
Qed.

Lemma has_any_entity_changed_iff pos :
  has_any_entity_changed pos c = true ↔ pos ≤ earliest ∨ ∃ x q, (x, q) ∈ H ∧ pos < q.
Proof.
  unfold has_any_entity_changed. destruct (Z.leb_spec pos earliest) as [Hle|Hgt]; [naive_solver|].
  setoid_rewrite <- known_after; [|done].
  destruct Hok as [[Hsync Hne Hrec _] _].
  assert (Hex : (∃ x q, _entity_to_key c !! x = Some q ∧ pos < q) ↔
                ∃ k, k ∈ dom (_cache c) ∧ pos < k).
  { split.
    - intros (x & q & (S0 & HS & _)%Hsync & Hlt). exists q. by apply elem_of_dom_2 in HS.
    - intros (k & [S0 HS]%elem_of_dom & Hlt). destruct (set_choose_or_empty S0) as [[x Hx]|He].
      + exists x, k. split; [|done]. apply Hsync. eauto.
      + apply leibniz_equiv in He. subst. by destruct (Hne k). }
  rewrite Hex. destruct (last (sorted_keys (_cache c))) as [k|] eqn:Hk.
  - apply sorted_keys_last in Hk as [Hin Hmax]. rewrite Z.ltb_lt. split; [eauto|].
    intros [?|(k' & Hk' & Hlt)]; [lia|]. specialize (Hmax k' Hk'). lia.
  - apply last_None, sorted_keys_nil in Hk. split; [done|].
    intros [?|(k & Hk' & _)]; [lia|]. rewrite Hk, dom_empty in Hk'. by apply elem_of_empty in Hk'.
Qed.

Context `{IterOrderOk}.

Lemma elem_of_all_changed pos l x :
  get_all_entities_changed pos c = Some l →
  x ∈ l ↔ ∃ q, (x, q) ∈ H ∧ pos < q.
Proof.
  unfold get_all_entities_changed. destruct (Z.leb_spec pos earliest) as [Hle|Hgt]; [done|].
  intros [= <-]. rewrite <- known_after by done. rewrite list_elem_of_bind.
  destruct Hok as [[Hsync _ _ _] _]. setoid_rewrite Hsync. split.
  - intros (k & Hx & [Hk Hin]%list_elem_of_filter). apply elem_of_set_iter in Hx.
    exists k. split; [|done]. destruct (_cache c !! k) as [S0|]; [eauto|].
    by apply elem_of_empty in Hx.
  - intros (k & (S0 & HS & Hx) & Hk). exists k. rewrite elem_of_set_iter, HS. split; [done|].
    apply list_elem_of_filter. split; [done|]. apply elem_of_sorted_keys. by apply elem_of_dom_2 in HS.
Qed.

(** The entities come in the order of their latest change, each once. *)
Lemma all_changed_ordered pos l :
  get_all_entities_changed pos c = Some l →
  NoDup l ∧
  StronglySorted (λ x y, get_max_pos_of_last_change x c ≤ get_max_pos_of_last_change y c) l.
Proof.
  unfold get_all_entities_changed. destruct (Z.leb_spec pos earliest) as [Hle|Hgt]; [done|].
  intros [= <-]. destruct Hok as [[Hsync _ _ _] _].
  assert (Hpos : ∀ k x, x ∈ set_iter (default ∅ (_cache c !! k)) →
    _entity_to_key c !! x = Some k).
  { intros k x Hx%elem_of_set_iter. apply Hsync. destruct (_cache c !! k) as [S0|]; [eauto|].
    by apply elem_of_empty in Hx. }
  assert (Hnd : NoDup (filter (λ k, pos < k) (sorted_keys (_cache c))))
    by apply NoDup_filter, NoDup_sorted_keys.
  assert (Hs : StronglySorted Z.le (filter (λ k, pos < k) (sorted_keys (_cache c))))
    by apply StronglySorted_filter, sorted_keys_sorted.
  unfold get_max_pos_of_last_change.
  induction (filter _ _) as [|k ks IH]; simpl; [split; constructor|].
  apply NoDup_cons in Hnd as [Hk Hnd]. apply StronglySorted_inv in Hs as [Hs Hall].
  destruct (IH Hnd Hs) as [IHd IHs]. split.
  - apply NoDup_app. split_and!; [apply NoDup_set_iter| |done].
    intros x Hx (k' & Hx' & Hin)%list_elem_of_bind.
    apply Hpos in Hx, Hx'. congruence.
  - apply StronglySorted_app_2; [|apply StronglySorted_const|done].
    + intros x y Hx (k' & Hy & Hin)%list_elem_of_bind.
      rewrite (Hpos _ _ Hx), (Hpos _ _ Hy). simpl. by eapply Forall_forall in Hall.
    + intros x y Hx Hy. rewrite (Hpos _ _ Hx), (Hpos _ _ Hy). simpl. lia.
Qed.
End answers.

(** ** Properties *)

(** C40: the cache answers from the history of the changes it was told about.  For
    every reachable cache and every position after its earliest known one, an entity
    counts as changed exactly when the history has a later change of it; at or before
    that position everything counts as changed.  The entities changed are listed once
    each, in the order of their latest change, and the bound on an entity's last
    change is one. *)
Theorem cache_refines_history `{IterOrderOk} max start h c :
  0 ≤ max → reachable max start h c →
  let old pos := pos ≤ _earliest_known_stream_pos c in
  let changed x pos := ∃ q, (x, q) ∈ h ∧ pos < q in
  (∀ x pos, has_entity_changed x pos c = true ↔ old pos ∨ changed x pos) ∧
  (∀ pos, has_any_entity_changed pos c = true ↔ old pos ∨ ∃ x, changed x pos) ∧
  (∀ pos, get_all_entities_changed pos c = None ↔ old pos) ∧
  (∀ pos l, get_all_entities_changed pos c = Some l →
     (∀ x, x ∈ l ↔ changed x pos) ∧ NoDup l ∧
     StronglySorted (λ x y, get_max_pos_of_last_change x c ≤ get_max_pos_of_last_change y c) l) ∧
  (∀ es pos x, x ∈ get_entities_changed es pos c ↔ x ∈ es ∧ (old pos ∨ changed x pos)) ∧
  (∀ x q, (x, q) ∈ h → q ≤ get_max_pos_of_last_change x c).
Proof.
  intros Hmax Hr%reachable_ok; [|done]. intros old changed.
  assert (Hnone : ∀ pos, get_all_entities_changed pos c = None ↔ old pos).
  { intros pos. unfold get_all_entities_changed, old. by destruct (Z.leb_spec pos (_earliest_known_stream_pos c)); split; try lia. }
  split_and!.
  - intros. by eapply has_entity_changed_iff.
  - intros. by eapply has_any_entity_changed_iff.
  - done.
  - intros pos l Hl. split; [intros x; by eapply elem_of_all_changed|by eapply all_changed_ordered].
  - intros es pos x. unfold get_entities_changed.
    destruct (get_all_entities_changed pos c) as [l|] eqn:Hl.
    + rewrite elem_of_intersection, elem_of_list_to_set, (elem_of_all_changed _ _ _ _ Hr _ _ _ Hl).
      assert (¬ old pos) by (rewrite <- Hnone; congruence). unfold changed. tauto.
    + apply Hnone in Hl. tauto.
  - intros. by eapply last_change_bound.
Qed.

(** No operation of a reachable cache raises, the cache never holds more positions
    than its maximum, and asking it to resize reports a change without resizing: the
    positions it holds and the maximum it evicts by stay the same. *)
Theorem cache_bounded max start h c :
  0 ≤ max → reachable max start h c →
  Z.of_nat (size (_cache c)) ≤ max ∧ start ≤ _earliest_known_stream_pos c ∧
  (∀ x p, is_ok (entity_has_changed x p c) = true) ∧
  (∀ new_size, ∃ b c', set_cache_factor new_size c = Ok (b, c') ∧
     _cache c' = _cache c ∧ _max_size c' = _max_size c ∧
     (b = true ↔ new_size (_original_max_size c) ≠ _max_size c)).
Proof.
  intros Hmax Hr%reachable_ok; [|done]. destruct Hr as (Hinv & Hm & Hsz & Hst) eqn:Hr'.
  split_and!; [done..| |].
  - intros x p. destruct (entity_has_changed_ok max start h c x p Hmax Hr) as (c' & -> & _). done.
  - intros f. destruct (set_cache_factor_ok max start h c f Hmax Hr) as (b & c' & Hc' & Hok & Heq & _).
    exists b, c'. split_and!; [done..| |].
    + destruct Hok as (_ & -> & _). done.
    + unfold set_cache_factor in Hc'. case_bool_decide; [naive_solver|].
      apply bind_ok in Hc' as (c2 & _ & [= <- <-]). done.
Qed.

(** ** Witnesses *)

Definition ex_cache : cache :=
  unwrap (MkCache 0 0 None ∅ ∅ 0)
    (c ← new_cache 10 2 [("!a", 11); ("!b", 12)];
     c ← entity_has_changed "!a" 13 c; entity_has_changed "!c" 14 c).

Definition ex_history : list (string * Z) := [("!c", 14); ("!a", 13); ("!b", 12); ("!a", 11)].

Lemma ex_cache_reachable : reachable 2 10 ex_history ex_cache.
Proof.
  set (c1 := unwrap ex_cache (new_cache 10 2 [("!a", 11); ("!b", 12)])).
  set (c2 := unwrap ex_cache (entity_has_changed "!a" 13 c1)).
  apply (reachable_change 2 10 _ c2); [apply (reachable_change 2 10 _ c1)|].
  - apply (reachable_new 2 10 [("!a", 11); ("!b", 12)]). apply unwrap_ok. by vm_compute.
  - apply unwrap_ok. by vm_compute.
  - transitivity (Ok (unwrap ex_cache (entity_has_changed "!c" 14 c2))); [|by vm_compute].
    apply unwrap_ok. by vm_compute.
Qed.

Lemma cache_refines_history_witness :
  has_entity_changed "!a" 13 ex_cache = false ∧
  (∀ x q, (x, q) ∈ ex_history → q ≤ get_max_pos_of_last_change x ex_cache).
Proof.
  split; [by vm_compute|].
  apply (cache_refines_history 2 10 ex_history ex_cache); [lia|apply ex_cache_reachable].
Defined.

Lemma cache_bounded_witness :
  size (_cache ex_cache) = 2%nat ∧ Z.of_nat (size (_cache ex_cache)) ≤ 2.
Proof.
  split; [by vm_compute|].
  apply (cache_bounded 2 10 ex_history ex_cache); [lia|apply ex_cache_reachable].
Defined.
