(* ===== verification/WheelTimer.v ===== *)
(** * The wheel timer: [synapse/util/wheel_timer.py]

    Objects wait in buckets, each with the key of the bucket of time after which its
    objects have timed out.  The bucket size is positive, and times are small enough
    for the rounding of [int(t / bucket_size)] not to matter, so it is [Z.quot]. *)

From S2P Require Import Prelude TopoSort.

Record _Entry := MkEntry { end_key : Z; entry_elements : gset string }.

Record WheelTimer := MkTimer { bucket_size : Z; entries : list _Entry; current_tick : Z }.

Definition new_WheelTimer (bucket_size : Z) : WheelTimer := MkTimer bucket_size [] 0.

Definition key_of (w : WheelTimer) (t : Z) : Z := Z.quot t (bucket_size w).

Definition add_element (obj : string) (e : _Entry) : _Entry :=
  MkEntry (end_key e) ({[obj]} ∪ entry_elements e).

(** [self.entries[i].elements.add(obj)] for an index that is not negative. *)
Definition add_at (i : Z) (obj : string) (w : WheelTimer) : result WheelTimer :=
  if bool_decide (0 ≤ i ∧ i < Z.of_nat (length (entries w)))
  then Ok (MkTimer (bucket_size w) (alter (add_element obj) (Z.to_nat i) (entries w)) (current_tick w))
  else Err (PyBuiltin IndexError).

(** [_Entry(key) for key in range(a, b)] *)
Definition new_entries (a b : Z) : list _Entry := (λ k, MkEntry k ∅) <$> seqZ a (b - a).

(** The end of [insert]: new buckets up to [then_key]. *)
Definition extend_and_add (w : WheelTimer) (now_key then_key : Z) (obj : string)
    : result WheelTimer :=
  let next_key := now_key + 1 in
  let last_key := match last (entries w) with Some e => end_key e | None => next_key end in
  let then_key := Z.max last_key then_key in
  let w := MkTimer (bucket_size w) (entries w ++ new_entries last_key (then_key + 1))
             (current_tick w) in
  add_at (Z.of_nat (length (entries w)) - 1) obj w.

Definition insert (now : Z) (obj : string) (then_ : Z) (w : WheelTimer) : result WheelTimer :=
  let then_key := key_of w then_ + 1 in
  let now_key := key_of w now in
  match head (entries w), last (entries w) with
  | Some first, Some last_ =>
      let min_key := end_key first in
      let max_key := end_key last_ in
      if then_key <=? max_key then add_at (Z.max min_key then_key - min_key) obj w
      else extend_and_add w now_key then_key obj
  | _, _ => extend_and_add w now_key then_key obj
  end.

(** The entries that are due, and the others. *)
Fixpoint pop_due (now_key : Z) (l : list _Entry) : list _Entry * list _Entry :=
  match l with
  | [] => ([], [])
  | e :: l =>
      if end_key e <=? now_key then let '(due, rest) := pop_due now_key l in (e :: due, rest)
      else ([], e :: l)
  end.

Definition fetch `{IterOrder} (now : Z) (w : WheelTimer) : list string * WheelTimer :=
  let '(due, rest) := pop_due (key_of w now) (entries w) in
  (e ← due; set_iter (entry_elements e), MkTimer (bucket_size w) rest (current_tick w)).

Definition len (w : WheelTimer) : nat := sum_list ((λ e, size (entry_elements e)) <$> entries w).

(** ** The buckets *)

(** Consecutive keys are the same or the next one. *)
Fixpoint dense (l : list Z) : Prop :=
  match l with
  | [] => True
  | k :: l => match l with [] => True | k' :: _ => k ≤ k' ≤ k + 1 end ∧ dense l
  end.

Definition keys (w : WheelTimer) : list Z := end_key <$> entries w.

(** [obj] waits in a bucket that is due at key [k] or before. *)
Definition due_by (w : WheelTimer) (obj : string) (k : Z) : Prop :=
  ∃ e, e ∈ entries w ∧ obj ∈ entry_elements e ∧ end_key e ≤ k.

Lemma dense_lookup l k0 i k :
  dense l → head l = Some k0 → l !! i = Some k → k0 ≤ k ≤ k0 + Z.of_nat i.
Proof.
  revert k0 i. induction l as [|x l IH]; intros k0 i; [done|]. intros [Hx Hl] [= ->].
  destruct i as [|i]; simpl; [intros [= ->]; lia|]. intros Hi.
  destruct l as [|y l]; [done|]. specialize (IH y i Hl eq_refl Hi). lia.
Qed.

Lemma dense_sorted l : dense l → StronglySorted Z.le l.
Proof.
  induction l as [|x l IH]; [constructor|]. intros [Hx Hl]. constructor; [by apply IH|].
  apply Forall_forall. intros y [i Hi]%list_elem_of_lookup. destruct l as [|z l]; [done|].
  pose proof (dense_lookup _ z i y Hl eq_refl Hi). lia.
Qed.

Lemma dense_app l1 l2 :
  dense l1 → dense l2 →
  (∀ a b, last l1 = Some a → head l2 = Some b → a ≤ b ≤ a + 1) → dense (l1 ++ l2).
Proof.
  induction l1 as [|x l1 IH]; intros H1 H2 Hab; [done|]. destruct H1 as [Hx H1]. simpl. split.
  - destruct l1 as [|y l1]; [|done]. simpl. destruct l2 as [|b l2]; [done|]. by apply Hab.
  - apply IH; [done..|]. intros a b Ha. apply Hab. destruct l1; done.
Qed.

Lemma dense_seqZ a n : dense (seqZ a n).
Proof.
  destruct (Z.le_gt_cases n 0) as [Hn|Hn]; [by rewrite seqZ_nil|].
  assert (∀ m b, dense (seqZ b (Z.of_nat m))) as Hm.
  { induction m as [|m IH]; intros b; [done|]. rewrite seqZ_cons by lia. simpl.
    replace (Z.pred (Z.of_nat (S m))) with (Z.of_nat m) by lia. split; [|apply IH].
    destruct m; [done|]. rewrite seqZ_cons by lia. lia. }
  rewrite <- (Z2Nat.id n) by lia. apply Hm.
Qed.

Lemma end_key_new_entries a b : end_key <$> new_entries a b = seqZ a (b - a).
Proof. unfold new_entries. rewrite <- list_fmap_compose. by rewrite list_fmap_id. Qed.

Lemma add_at_spec w i e obj :
  entries w !! i = Some e →
  ∃ w', add_at (Z.of_nat i) obj w = Ok w' ∧ bucket_size w' = bucket_size w ∧ keys w' = keys w ∧
    due_by w' obj (end_key e) ∧ (∀ o k, due_by w o k → due_by w' o k).
Proof.
  intros Hi. unfold add_at. pose proof (lookup_lt_Some _ _ _ Hi) as Hlt.
  rewrite bool_decide_true by lia. rewrite Nat2Z.id. eexists. split; [done|]. split_and!.
  - done.
  - unfold keys. simpl. apply list_eq. intros j. rewrite !list_lookup_fmap.
    destruct (decide (i = j)) as [<-|Hne].
    + rewrite list_lookup_alter_eq, Hi. done.
    + by rewrite list_lookup_alter_ne.
  - exists (add_element obj e). simpl. split_and!; [|set_solver|lia].
    apply (list_elem_of_lookup_2 _ i). by rewrite list_lookup_alter_eq, Hi.
  - intros o k (e' & [j Hj]%list_elem_of_lookup & Ho & Hk). simpl.
    destruct (decide (i = j)) as [<-|Hne].
    + exists (add_element obj e). simplify_eq. split_and!; [|set_solver|done]. simpl.
      apply (list_elem_of_lookup_2 _ i). by rewrite list_lookup_alter_eq, Hi.
    + exists e'. split_and!; [|done..]. simpl. apply (list_elem_of_lookup_2 _ j).
      by rewrite list_lookup_alter_ne.
Qed.

(** The bucket an object goes to at the latest. *)
Definition latest_key (w : WheelTimer) (now_key then_key : Z) : Z :=
  Z.max then_key (match head (entries w) with Some e => end_key e | None => now_key + 1 end).

Lemma extend_and_add_spec w now_key then_key obj :
  dense (keys w) →
  (∀ e, last (entries w) = Some e → end_key e < then_key) →
  ∃ w', extend_and_add w now_key then_key obj = Ok w' ∧ bucket_size w' = bucket_size w ∧
    dense (keys w') ∧ due_by w' obj (latest_key w now_key then_key) ∧
    (∀ o k, due_by w o k → due_by w' o k).
Proof.
  intros Hd Hlast. unfold extend_and_add.
  set (lk := match last (entries w) with Some e => end_key e | None => now_key + 1 end).
  set (tk := Z.max lk then_key).
  set (w1 := MkTimer _ _ _).
  assert (Htk : tk ≤ latest_key w now_key then_key).
  { unfold tk, lk, latest_key. destruct (last (entries w)) as [e|] eqn:Hl.
    - specialize (Hlast e eq_refl). lia.
    - apply last_None in Hl. rewrite Hl. simpl. lia. }
  assert (Hne : new_entries lk (tk + 1) = new_entries lk tk ++ [MkEntry tk ∅]).
  { unfold new_entries. replace (tk + 1 - lk) with ((tk - lk) + 1) by lia.
    rewrite seqZ_app by lia. rewrite fmap_app. f_equal. simpl.
    replace (lk + (tk - lk)) with tk by lia. done. }
  assert (Hk1 : keys w1 = keys w ++ seqZ lk (tk + 1 - lk)).
  { unfold keys, w1. simpl. by rewrite fmap_app, end_key_new_entries. }
  destruct (add_at_spec w1 (length (entries w1) - 1) (MkEntry tk ∅) obj)
    as (w' & Hw' & Hb & Hk & Hdue & Hmono).
  { unfold w1. simpl. rewrite Hne, app_assoc, length_app. simpl.
    rewrite lookup_app_r by lia. by replace (_ - _)%nat with 0%nat by lia. }
  exists w'. split_and!.
  - rewrite <- Hw'. f_equal. unfold w1. simpl. rewrite Hne, app_assoc, length_app. simpl. lia.
  - done.
  - rewrite Hk, Hk1. apply dense_app; [done|apply dense_seqZ|].
    intros a b Ha Hb'. unfold keys in Ha. rewrite fmap_last in Ha.
    rewrite seqZ_cons in Hb' by lia. simpl in Hb'. injection Hb' as <-. unfold lk.
    destruct (last (entries w)) as [e|]; [|done]. simpl in Ha. injection Ha as <-. lia.
  - destruct Hdue as (e & He & Ho & Hle). exists e. split_and!; [done..|]. simpl in Hle. lia.
  - intros o k (e & He & Ho & Hle). apply Hmono. exists e. split_and!; [|done..].
    unfold w1. simpl. by apply elem_of_app; left.
Qed.

Lemma insert_spec w now obj then_ :
  dense (keys w) →
  ∃ w', insert now obj then_ w = Ok w' ∧ bucket_size w' = bucket_size w ∧ dense (keys w') ∧
    due_by w' obj (latest_key w (key_of w now) (key_of w then_ + 1)) ∧
    (∀ o k, due_by w o k → due_by w' o k).
Proof.
  intros Hd. unfold insert. set (tk := key_of w then_ + 1).
  destruct (entries w) as [|f l] eqn:He; simpl.
  { apply extend_and_add_spec; [done|]. intros e. by rewrite He. }
  rewrite <- He. destruct (last (entries w)) as [e|] eqn:Hlast; cycle 1.
  { by rewrite last_None, He in Hlast. }
  destruct (Z.leb_spec tk (end_key e)) as [Hle|Hgt]; cycle 1.
  { apply extend_and_add_spec; [done|]. intros e'. rewrite Hlast. intros [= <-]. lia. }
  assert (Hhead : head (keys w) = Some (end_key f)) by (unfold keys; by rewrite He).
  pose proof Hlast as Hlast'. rewrite last_lookup in Hlast'.
  assert (Hek : keys w !! pred (length (entries w)) = Some (end_key e)).
  { unfold keys. rewrite list_lookup_fmap. by rewrite Hlast'. }
  pose proof (dense_lookup _ _ _ _ Hd Hhead Hek) as Hbound.
  set (j := Z.to_nat (Z.max (end_key f) tk - end_key f)).
  assert (Hlen : (j < length (entries w))%nat).
  { unfold j. apply lookup_lt_Some in Hlast'. lia. }
  destruct (lookup_lt_is_Some_2 _ _ Hlen) as [b Hb].
  assert (Hbk : keys w !! j = Some (end_key b)) by (unfold keys; by rewrite list_lookup_fmap, Hb).
  pose proof (dense_lookup _ _ _ _ Hd Hhead Hbk) as Hbb.
  destruct (add_at_spec w j b obj Hb) as (w' & Hw' & Hbs & Hk & Hdue & Hmono).
  exists w'. split_and!; [|done|by rewrite Hk| |done].
  - rewrite <- Hw'. f_equal. unfold j. lia.
  - destruct Hdue as (e' & ? & ? & ?). exists e'. split_and!; [done..|].
    unfold latest_key. rewrite He. simpl. unfold j in Hbb. lia.
Qed.

Lemma pop_due_spec k l :
  StronglySorted Z.le (end_key <$> l) →
  let '(due, rest) := pop_due k l in
  l = due ++ rest ∧ Forall (λ e, end_key e ≤ k) due ∧ Forall (λ e, k < end_key e) rest.
Proof.
  induction l as [|e l IH]; simpl; [by repeat constructor|]. intros [Hs Hall]%StronglySorted_inv.
  destruct (Z.leb_spec (end_key e) k) as [Hle|Hgt].
  - specialize (IH Hs). destruct (pop_due k l) as [due rest]. destruct IH as (-> & Hd & Hr).
    split_and!; [done|by constructor|done].
  - split_and!; [done|constructor|]. constructor; [done|]. rewrite Forall_fmap in Hall.
    eapply Forall_impl; [exact Hall|]. simpl. intros. lia.
Qed.

Lemma dense_suffix l1 l2 : dense (l1 ++ l2) → dense l2.
Proof. induction l1; [done|]. intros [_ ?]. auto. Qed.

(** ** Properties *)

(** A timer as [insert] and [fetch] make it. *)
Inductive timer_reachable `{IterOrder} (size : Z) : WheelTimer → Prop :=
| timer_new : timer_reachable size (new_WheelTimer size)
| timer_insert w now obj then_ w' :
    timer_reachable size w → insert now obj then_ w = Ok w' → timer_reachable size w'
| timer_fetch w now : timer_reachable size w → timer_reachable size (fetch now w).2.

Lemma fetch_dense `{IterOrder} w now : dense (keys w) → dense (keys (fetch now w).2).
Proof.
  intros Hd. unfold fetch. pose proof (pop_due_spec (key_of w now) (entries w)
    (dense_sorted _ Hd)) as Hp.
  destruct (pop_due (key_of w now) (entries w)) as [due rest]. destruct Hp as [He _].
  unfold keys in *. simpl. rewrite He, fmap_app in Hd. by apply dense_suffix in Hd.
Qed.

Lemma timer_reachable_dense `{IterOrder} size w :
  timer_reachable size w → dense (keys w) ∧ bucket_size w = size.
Proof.
  induction 1 as [|w now obj t w' _ [IHd IHs] Hi|w now _ [IHd IHs]].
  - done.
  - destruct (insert_spec w now obj t IHd) as (w1 & Hw1 & Hs & Hd & _).
    rewrite Hi in Hw1. simplify_eq. split; [done|congruence].
  - split; [by apply fetch_dense|]. rewrite <- IHs. unfold fetch. by destruct (pop_due _ _).
Qed.

Lemma fetch_elem_dense `{IterOrderOk} w now o :
  dense (keys w) → o ∈ (fetch now w).1 ↔ due_by w o (key_of w now).
Proof.
  intros Hd. pose proof (pop_due_spec (key_of w now) (entries w) (dense_sorted _ Hd)) as Hp.
  unfold fetch, due_by. destruct (pop_due _ _) as [due rest]. destruct Hp as (-> & Hdue & Hrest).
  simpl. rewrite list_elem_of_bind. setoid_rewrite elem_of_set_iter.
  rewrite Forall_forall in Hdue, Hrest. split.
  - intros (e & Ho & He). exists e. split_and!; [set_solver|done|by apply Hdue].
  - intros (e & [He|He]%elem_of_app & Ho & Hk); [eauto|]. specialize (Hrest e He). lia.
Qed.

Lemma fetch_elem `{IterOrderOk} size w now o :
  timer_reachable size w → o ∈ (fetch now w).1 ↔ due_by w o (key_of w now).
Proof. intros [Hd _]%timer_reachable_dense. by apply fetch_elem_dense. Qed.

(** The timer loses nothing and is never late.  An insert into a reachable timer
    always succeeds, keeps what was waiting, and puts the object in a bucket due no
    later than the one after its time (or the first bucket there is); a fetch returns
    exactly the objects whose bucket is due and keeps the others. *)
Theorem timer_never_late `{IterOrderOk} size w :
  0 < size → timer_reachable size w →
  (∀ now obj then_, ∃ w', insert now obj then_ w = Ok w' ∧
     due_by w' obj (latest_key w (key_of w now) (key_of w then_ + 1)) ∧
     (∀ o k, due_by w o k → due_by w' o k)) ∧
  (∀ now o, o ∈ (fetch now w).1 ↔ due_by w o (key_of w now)) ∧
  (∀ now o k, due_by w o k → o ∈ (fetch now w).1 ∨ due_by (fetch now w).2 o k).
Proof.
  intros _ [Hd _]%timer_reachable_dense. split_and!.
  - intros now obj t. destruct (insert_spec w now obj t Hd) as (w' & ? & _ & _ & ? & ?). eauto.
  - intros now o. by apply fetch_elem_dense.
  - intros now o k (e & He & Ho & Hk).
    pose proof (pop_due_spec (key_of w now) (entries w) (dense_sorted _ Hd)) as Hp.
    unfold fetch, due_by. destruct (pop_due _ _) as [due rest]. destruct Hp as (Heq & _ & _).
    simpl. rewrite Heq in He. apply elem_of_app in He as [He|He]; [left|right; eauto].
    apply list_elem_of_bind. exists e. by rewrite elem_of_set_iter.
Qed.

Definition ex_timer : WheelTimer :=
  unwrap (new_WheelTimer 10)
    (w ← insert 0 "a" 5 (new_WheelTimer 10); w ← insert 0 "b" 35 w; insert 0 "c" 25 w).

Lemma timer_never_late_witness :
  entries ex_timer ≠ [] ∧
  (∀ now o, o ∈ (fetch now ex_timer).1 ↔ due_by ex_timer o (key_of ex_timer now)).
Proof.
  split; [by vm_compute|].
  apply (timer_never_late 10 ex_timer); [lia|].
  set (w1 := unwrap ex_timer (insert 0 "a" 5 (new_WheelTimer 10))).
  set (w2 := unwrap ex_timer (insert 0 "b" 35 w1)).
  apply (timer_insert 10 w2 0 "c" 25); [apply (timer_insert 10 w1 0 "b" 35)|].
  - apply (timer_insert 10 (new_WheelTimer 10) 0 "a" 5); [constructor|]. apply unwrap_ok. by vm_compute.
  - apply unwrap_ok. by vm_compute.
  - by vm_compute.
Defined.

(** An object can be returned before its time: extending a timer that has buckets
    repeats the key of the last one, so that a later insert counts to a bucket with a
    smaller key than it means. *)
Theorem timer_early_return :
  ∃ w now then_, 0 < bucket_size w ∧ timer_reachable (bucket_size w) w ∧ now < then_ ∧
    match insert 0 "c" then_ w with
    | Ok w' => "c" ∈ (fetch now w').1 ∧ "c" ∉ (fetch now w).1
    | Err _ => False
    end.
Proof.
  set (w1 := unwrap ex_timer (insert 0 "a" 5 (new_WheelTimer 10))).
  set (w2 := unwrap ex_timer (insert 0 "b" 35 w1)).
  exists w2, 20, 25. split_and!; [by vm_compute|..].
  - apply (timer_insert 10 w1 0 "b" 35); [|by vm_compute].
    apply (timer_insert 10 (new_WheelTimer 10) 0 "a" 5); [constructor|by vm_compute].
  - lia.
  - vm_compute. split; [|]; [right; left|]. set_solver.
Qed.
