(* ===== verification/IdGenerators.v ===== *)
(** * Stream id generators: [synapse/storage/util/id_generators.py]

    [StreamIdGenerator] has one writer; [MultiWriterIdGenerator] shares a database
    sequence with other processes.  Each critical section under the lock is one
    function on the generator's state.  What the database returns is an argument. *)

From S2P Require Import Prelude TopoSort.

(** [min(l)] and [max(l)], [None] for an empty collection. *)
Definition min_of (l : list Z) : option Z :=
  match l with [] => None | x :: l => Some (foldl Z.min x l) end.
Definition max_of (l : list Z) : option Z :=
  match l with [] => None | x :: l => Some (foldl Z.max x l) end.

(** [max if step > 0 else min] *)
Definition furthest (step a b : Z) : Z := if 0 <? step then Z.max a b else Z.min a b.

(** [_load_current_id], given the [MAX] or [MIN] the query returns. *)
Definition _load_current_id (val : option Z) (step : Z) : Z :=
  let current_id := match val with
                    | Some v => if bool_decide (v = 0) then step else v
                    | None => step
                    end in
  furthest step current_id step.

(** ** [IdGenerator] *)

Record IdGenerator := MkIdGenerator { _next_id : Z }.

Definition new_IdGenerator (val : option Z) : IdGenerator := MkIdGenerator (_load_current_id val 1).

Definition IdGenerator_get_next (g : IdGenerator) : Z * IdGenerator :=
  (_next_id g + 1, MkIdGenerator (_next_id g + 1)).

(** ** [StreamIdGenerator] *)

Module Single.

Record StreamIdGenerator := MkSingle {
  _step : Z;
  _current : Z;
  _is_writer : bool;
  (** an [OrderedDict] used as an ordered set *)
  _unfinished_ids : list Z
}.

Definition new_StreamIdGenerator (val : option Z) (extra_tables : list (option Z)) (step : Z)
    (is_writer : bool) : result StreamIdGenerator :=
  if bool_decide (step = 0) then Err (PyBuiltin AssertionError)
  else Ok (MkSingle step
         (foldl (λ current val, furthest step current (_load_current_id val step))
            (_load_current_id val step) extra_tables) is_writer []).

Definition advance (new_id : Z) (g : StreamIdGenerator) : result StreamIdGenerator :=
  if _is_writer g
  then Err (PyException "Replication is not supported by writer StreamIdGenerator")
  else Ok (MkSingle (_step g) (furthest (_step g) (_current g) new_id) (_is_writer g)
         (_unfinished_ids g)).

(** [self._unfinished_ids[next_id] = next_id] *)
Definition add_unfinished (id : Z) (l : list Z) : list Z :=
  if bool_decide (id ∈ l) then l else l ++ [id].

(** [self._unfinished_ids.pop(next_id)] *)
Fixpoint pop_unfinished (id : Z) (l : list Z) : result (list Z) :=
  match l with
  | [] => Err (PyBuiltin KeyError)
  | x :: l => if bool_decide (x = id) then Ok l else l ← pop_unfinished id l; Ok (x :: l)
  end.

(** Entering [get_next]; also the first half of [get_next_txn]. *)
Definition get_next (g : StreamIdGenerator) : Z * StreamIdGenerator :=
  let next_id := _current g + _step g in
  (next_id, MkSingle (_step g) next_id (_is_writer g) (add_unfinished next_id (_unfinished_ids g))).

Definition get_next_txn (g : StreamIdGenerator) : result (Z * StreamIdGenerator) :=
  if _is_writer g then Ok (get_next g)
  else Err (PyException "Tried to allocate stream ID on non-writer").

(** [range(current + step, current + step * (n + 1), step)] *)
Definition range_ids (current step : Z) (n : nat) : list Z :=
  (λ i, current + step * (Z.of_nat i + 1)) <$> seq 0 n.

Definition get_next_mult (n : nat) (g : StreamIdGenerator) : list Z * StreamIdGenerator :=
  let next_ids := range_ids (_current g) (_step g) n in
  (next_ids, MkSingle (_step g) (_current g + Z.of_nat n * _step g) (_is_writer g)
               (foldl (λ l id, add_unfinished id l) (_unfinished_ids g) next_ids)).

(** Leaving the context manager, and the clean-up of [get_next_txn]. *)
Definition finish (ids : list Z) (g : StreamIdGenerator) : result StreamIdGenerator :=
  l ← fold_res (λ l id, pop_unfinished id l) ids (_unfinished_ids g);
  Ok (MkSingle (_step g) (_current g) (_is_writer g) l).

Definition get_current_token (g : StreamIdGenerator) : Z :=
  if _is_writer g then
    match _unfinished_ids g with
    | id :: _ => id - _step g
    | [] => _current g
    end
  else _current g.
End Single.

(** ** [MultiWriterIdGenerator] *)

Module Multi.

Record MultiWriterIdGenerator := MkMulti {
  _instance_name : string;
  _writers : list string;
  _positive : bool;
  _current_positions : gmap string Z;
  _unfinished_ids : gset Z;
  (** a [SortedList]: only its least element and its elements' number matter *)
  _in_flight_fetches : list Z;
  _finished_ids : gset Z;
  _persisted_upto_position : Z;
  (** a heap *)
  _known_persisted_positions : list Z;
  _max_seen_allocated_stream_id : Z;
  _max_position_of_local_instance : Z
}.

Definition _return_factor (g : MultiWriterIdGenerator) : Z := if _positive g then 1 else -1.

(** [self._current_positions.get(self._instance_name, 0)] *)
Definition our_position (g : MultiWriterIdGenerator) : Z :=
  default 0 (_current_positions g !! _instance_name g).

Definition busy (g : MultiWriterIdGenerator) : bool :=
  negb (bool_decide (_unfinished_ids g = ∅)) || negb (bool_decide (_in_flight_fetches g = [])).

(** The positions of the other instances. *)
Definition other_positions (g : MultiWriterIdGenerator) : list Z :=
  (map_to_list (delete (_instance_name g) (_current_positions g))).*2.

(** [while self._known_persisted_positions]: every iteration but the last pops. *)
Fixpoint skip_forward (fuel : nat) (known : list Z) (upto : Z) : list Z * Z :=
  match fuel with
  | O => (known, upto)
  | S fuel =>
      match heappop Z.le known with
      | None => (known, upto)
      | Some (k, rest) =>
          if k <=? upto then skip_forward fuel rest upto
          else if k =? upto + 1 then skip_forward fuel rest (upto + 1)
          else (known, upto)
      end
  end.

(** The minimum of the current positions, our own only while we are writing. *)
Definition min_position (g : MultiWriterIdGenerator) : Z :=
  let our_current_position := our_position g in
  let min_curr := default our_current_position (min_of (other_positions g)) in
  if negb (our_current_position =? 0) && busy g
  then Z.min min_curr our_current_position else min_curr.

Definition _add_persisted_position (new_id : Z) (g : MultiWriterIdGenerator)
    : MultiWriterIdGenerator :=
  let known := heappush (_known_persisted_positions g) new_id in
  let upto := Z.max (min_position g) (_persisted_upto_position g) in
  let local := Z.max (_max_position_of_local_instance g) upto in
  let local := if busy g then local else Z.max (_max_seen_allocated_stream_id g) local in
  let '(known, upto) := skip_forward (length known) known upto in
  MkMulti (_instance_name g) (_writers g) (_positive g) (_current_positions g) (_unfinished_ids g)
    (_in_flight_fetches g) (_finished_ids g) upto known (_max_seen_allocated_stream_id g) local.

(** The first critical section of [_load_next_mult_id_txn]: what it adds. *)
Definition begin_fetch (g : MultiWriterIdGenerator) : Z * MultiWriterIdGenerator :=
  let current_max := _max_seen_allocated_stream_id g in
  (current_max,
   MkMulti (_instance_name g) (_writers g) (_positive g) (_current_positions g) (_unfinished_ids g)
     (current_max :: _in_flight_fetches g) (_finished_ids g) (_persisted_upto_position g)
     (_known_persisted_positions g) (_max_seen_allocated_stream_id g)
     (_max_position_of_local_instance g)).

(** The second one, with the ids of the sequence; [self._unfinished_ids[-1]] raises
    when there is none. *)
Definition record_fetch (stream_ids : list Z) (g : MultiWriterIdGenerator)
    : result MultiWriterIdGenerator :=
  let unfinished := _unfinished_ids g ∪ list_to_set stream_ids in
  match max_of (elements unfinished) with
  | None => Err (PyBuiltin IndexError)
  | Some m =>
      Ok (MkMulti (_instance_name g) (_writers g) (_positive g) (_current_positions g) unfinished
            (_in_flight_fetches g) (_finished_ids g) (_persisted_upto_position g)
            (_known_persisted_positions g) (Z.max (_max_seen_allocated_stream_id g) m)
            (_max_position_of_local_instance g))
  end.

Fixpoint remove_one (x : Z) (l : list Z) : result (list Z) :=
  match l with
  | [] => Err (PyBuiltin ValueError)
  | y :: l => if y =? x then Ok l else l ← remove_one x l; Ok (y :: l)
  end.

(** The [finally] clause. *)
Definition end_fetch (current_max : Z) (g : MultiWriterIdGenerator)
    : result MultiWriterIdGenerator :=
  l ← remove_one current_max (_in_flight_fetches g);
  Ok (MkMulti (_instance_name g) (_writers g) (_positive g) (_current_positions g)
        (_unfinished_ids g) l (_finished_ids g) (_persisted_upto_position g)
        (_known_persisted_positions g) (_max_seen_allocated_stream_id g)
        (_max_position_of_local_instance g)).

(** [_load_next_mult_id_txn] without interruption. *)
Definition _load_next_mult_id_txn (stream_ids : list Z) (g : MultiWriterIdGenerator)
    : result MultiWriterIdGenerator :=
  let '(current_max, g) := begin_fetch g in
  g ← record_fetch stream_ids g; end_fetch current_max g.

(** The guard of [get_next], [get_next_mult], [get_next_txn] and [get_next_mult_txn]. *)
Definition check_writer (g : MultiWriterIdGenerator) : result unit :=
  raise_if (negb (bool_decide (_writers g = [])) &&
            negb (bool_decide (_instance_name g ∈ _writers g)))
    (PyException "Tried to allocate stream ID on non-writer").

(** [get_next_txn], whose [_load_next_id_txn] takes the first of the ids. *)
Definition get_next_txn (stream_ids : list Z) (g : MultiWriterIdGenerator)
    : result (Z * MultiWriterIdGenerator) :=
  check_writer g ;;
  g ← _load_next_mult_id_txn stream_ids g;
  match stream_ids with
  | next_id :: _ => Ok (_return_factor g * next_id, g)
  | [] => Err (PyBuiltin IndexError)
  end.

Definition get_next_mult_txn (stream_ids : list Z) (g : MultiWriterIdGenerator)
    : result (list Z * MultiWriterIdGenerator) :=
  check_writer g ;;
  g ← _load_next_mult_id_txn stream_ids g;
  Ok ((λ i, _return_factor g * i) <$> stream_ids, g).

(** The least id that is not known to be finished. *)
Definition min_unfinished (g : MultiWriterIdGenerator) : option Z :=
  match min_of (elements (_unfinished_ids g)), min_of (_in_flight_fetches g) with
  | Some u, Some f => Some (Z.min u (f + 1))
  | None, Some f => Some (f + 1)
  | Some u, None => Some u
  | None, None => None
  end.

(** The new position of this instance, and the finished ids still to be kept. *)
Definition new_position (g : MultiWriterIdGenerator) : result (option Z * gset Z) :=
  match min_unfinished g with
  | Some m =>
      Ok (max_of (elements (filter (λ s, s < m) (_finished_ids g))),
          filter (λ s, ¬ s < m) (_finished_ids g))
  | None =>
      match max_of (elements (_finished_ids g)) with
      | Some m => Ok (Some m, ∅)
      | None => Err (PyBuiltin ValueError)
      end
  end.

(** [if new_cur: ...] *)
Definition move_position (new_cur : option Z) (g : MultiWriterIdGenerator)
    : MultiWriterIdGenerator :=
  match new_cur with
  | Some new_cur =>
      if new_cur =? 0 then g
      else
        let curr := our_position g in
        MkMulti (_instance_name g) (_writers g) (_positive g)
          (<[_instance_name g := Z.max curr new_cur]> (_current_positions g)) (_unfinished_ids g)
          (_in_flight_fetches g) (_finished_ids g) (_persisted_upto_position g)
          (_known_persisted_positions g) (_max_seen_allocated_stream_id g)
          (Z.max (Z.max curr new_cur) (_max_position_of_local_instance g))
  | None => g
  end.

Definition set_finished (g : MultiWriterIdGenerator) (unfinished finished : gset Z)
    : MultiWriterIdGenerator :=
  MkMulti (_instance_name g) (_writers g) (_positive g) (_current_positions g) unfinished
    (_in_flight_fetches g) finished (_persisted_upto_position g) (_known_persisted_positions g)
    (_max_seen_allocated_stream_id g) (_max_position_of_local_instance g).

Definition _mark_ids_as_finished (next_ids : list Z) (g : MultiWriterIdGenerator)
    : result MultiWriterIdGenerator :=
  let g := set_finished g (_unfinished_ids g ∖ list_to_set next_ids)
             (_finished_ids g ∪ list_to_set next_ids) in
  '(new_cur, finished) ← new_position g;
  let g := move_position new_cur (set_finished g (_unfinished_ids g) finished) in
  Ok (foldl (λ g id, _add_persisted_position id g) g next_ids).

Definition advance (instance_name : string) (new_id : Z) (g : MultiWriterIdGenerator)
    : MultiWriterIdGenerator :=
  let new_id := new_id * _return_factor g in
  _add_persisted_position new_id
    (MkMulti (_instance_name g) (_writers g) (_positive g)
       (<[instance_name := Z.max new_id (default 0 (_current_positions g !! instance_name))]>
          (_current_positions g)) (_unfinished_ids g)
       (_in_flight_fetches g) (_finished_ids g) (_persisted_upto_position g)
       (_known_persisted_positions g) (Z.max (_max_seen_allocated_stream_id g) new_id)
       (_max_position_of_local_instance g)).

Definition get_persisted_upto_position (g : MultiWriterIdGenerator) : Z :=
  _return_factor g * _persisted_upto_position g.

Definition get_current_token (g : MultiWriterIdGenerator) : Z := get_persisted_upto_position g.

Definition get_current_token_for_writer (instance_name : string) (g : MultiWriterIdGenerator) : Z :=
  if bool_decide (_instance_name g = instance_name)
  then _return_factor g * _max_position_of_local_instance g
  else
    let pos := default (_persisted_upto_position g) (_current_positions g !! instance_name) in
    _return_factor g * Z.max pos (_persisted_upto_position g).

Definition get_minimal_local_current_token (g : MultiWriterIdGenerator) : Z :=
  _return_factor g *
  default (_persisted_upto_position g) (_current_positions g !! _instance_name g).

Definition get_positions (g : MultiWriterIdGenerator) : gmap string Z :=
  (λ i, _return_factor g * i) <$> _current_positions g.

(** The table [stream_positions] after the upsert of this instance's position. *)
Definition _update_stream_positions_table_txn (g : MultiWriterIdGenerator) (table : gmap string Z)
    : gmap string Z :=
  if bool_decide (_writers g = []) then table
  else
    let pos := get_current_token_for_writer (_instance_name g) g in
    let agg := if _positive g then Z.max else Z.min in
    <[_instance_name g :=
        match table !! _instance_name g with Some old => agg old pos | None => pos end]> table.

(** ** Start-up *)

(** The fields [__init__] sets before it reads the database. *)
Definition blank (instance_name : string) (writers : list string) (positive : bool)
    : MultiWriterIdGenerator :=
  MkMulti instance_name writers positive ∅ ∅ [] ∅ 1 [] 1 1.

Definition set_positions (g : MultiWriterIdGenerator) (positions : gmap string Z) (upto : Z)
    : MultiWriterIdGenerator :=
  MkMulti (_instance_name g) (_writers g) (_positive g) positions (_unfinished_ids g)
    (_in_flight_fetches g) (_finished_ids g) upto (_known_persisted_positions g)
    (_max_seen_allocated_stream_id g) (_max_position_of_local_instance g).

(** One row read at start-up. *)
Definition load_row (g : MultiWriterIdGenerator) (row : string * Z) : MultiWriterIdGenerator :=
  let stream_id := _return_factor g * row.2 in
  let g := _add_persisted_position stream_id g in
  if bool_decide (row.1 = _instance_name g)
  then set_positions g (<[row.1 := stream_id]> (_current_positions g)) (_persisted_upto_position g)
  else g.

Definition row_le (a b : string * Z) : Prop := a.2 ≤ b.2.
#[export] Instance row_le_dec : RelDecision row_le.
Proof. intros a b. unfold row_le. apply _. Defined.

(** [_load_current_ids]: the rows of [stream_positions], the greatest id of each table
    (1 when there is none), and the rows of the tables from the minimum position on. *)
Definition _load_current_ids (stream_positions : list (string * Z)) (max_ids : list Z)
    (rows : list (string * Z)) (g : MultiWriterIdGenerator) : MultiWriterIdGenerator :=
  let g :=
    if bool_decide (_writers g = []) then g
    else set_positions g
      (list_to_map ((λ r, (r.1, r.2 * _return_factor g)) <$>
         reverse (filter (λ r, r.1 ∈ _writers g) stream_positions))) (_persisted_upto_position g) in
  let g :=
    match min_of (map_to_list (_current_positions g)).*2 with
    | None => set_positions g (_current_positions g) (foldl Z.max 1 max_ids)
    | Some min_stream_id =>
        foldl load_row (set_positions g (_current_positions g) min_stream_id)
          (merge_sort row_le rows)
    end in
  set_positions g
    (foldl (λ positions writer,
        match positions !! writer with
        | Some _ => positions
        | None => <[writer := _persisted_upto_position g]> positions
        end) (_current_positions g) (_writers g)) (_persisted_upto_position g).

Definition new_MultiWriterIdGenerator (instance_name : string) (writers : list string)
    (positive : bool) (stream_positions : list (string * Z)) (max_ids : list Z)
    (rows : list (string * Z)) : MultiWriterIdGenerator :=
  let g := _load_current_ids stream_positions max_ids rows (blank instance_name writers positive) in
  let max_seen := Z.max (default 1 (max_of (map_to_list (_current_positions g)).*2))
                    (_persisted_upto_position g) in
  MkMulti instance_name writers positive
    (if bool_decide (writers = [])
     then <[instance_name := _persisted_upto_position g]> (_current_positions g)
     else _current_positions g)
    (_unfinished_ids g) (_in_flight_fetches g) (_finished_ids g) (_persisted_upto_position g)
    (_known_persisted_positions g) max_seen max_seen.
End Multi.
