(* ===== verification/IdGenProps.v ===== *)
(** * Properties of the stream id generators *)

From S2P Require Import Prelude TopoSort IdGenerators.

(** ** Minima and maxima *)

Lemma foldl_min_le x l y : (y = x ∨ y ∈ l) → foldl Z.min x l ≤ y.
Proof.
  revert x y. induction l as [|z l IH]; intros x y; simpl; [set_solver by lia|].
  intros [->|[->|Hy]%elem_of_cons].
  - transitivity (Z.min x z); [apply IH; by left|lia].
  - transitivity (Z.min x z); [apply IH; by left|lia].
  - apply IH. by right.
Qed.

Lemma foldl_min_in x l : foldl Z.min x l = x ∨ foldl Z.min x l ∈ l.
Proof.
  revert x. induction l as [|z l IH]; intros x; simpl; [by left|].
  destruct (IH (Z.min x z)) as [->|?]; [|right; by right].
  destruct (Z.min_spec x z) as [[_ ->]|[_ ->]]; [by left|right; by left].
Qed.

Lemma min_of_spec l m : min_of l = Some m → m ∈ l ∧ ∀ x, x ∈ l → m ≤ x.
Proof.
  destruct l as [|y l]; simpl; [done|]. intros [= <-]. split.
  - destruct (foldl_min_in y l) as [->|?]; [by left|by right].
  - intros x [->|Hx]%elem_of_cons; apply foldl_min_le; auto.
Qed.

Lemma min_of_none l : min_of l = None ↔ l = [].
Proof. by destruct l. Qed.

Lemma foldl_max_ge x l y : (y = x ∨ y ∈ l) → y ≤ foldl Z.max x l.
Proof.
  revert x y. induction l as [|z l IH]; intros x y; simpl; [set_solver by lia|].
  intros [->|[->|Hy]%elem_of_cons].
  - transitivity (Z.max x z); [lia|apply IH; by left].
  - transitivity (Z.max x z); [lia|apply IH; by left].
  - apply IH. by right.
Qed.

Lemma foldl_max_in x l : foldl Z.max x l = x ∨ foldl Z.max x l ∈ l.
Proof.
  revert x. induction l as [|z l IH]; intros x; simpl; [by left|].
  destruct (IH (Z.max x z)) as [->|?]; [|right; by right].
  destruct (Z.max_spec x z) as [[_ ->]|[_ ->]]; [right; by left|by left].
Qed.

Lemma max_of_spec l m : max_of l = Some m → m ∈ l ∧ ∀ x, x ∈ l → x ≤ m.
Proof.
  destruct l as [|y l]; simpl; [done|]. intros [= <-]. split.
  - destruct (foldl_max_in y l) as [->|?]; [by left|by right].
  - intros x [->|Hx]%elem_of_cons; apply foldl_max_ge; auto.
Qed.

Lemma max_of_none l : max_of l = None ↔ l = [].
Proof. by destruct l. Qed.

Lemma sublist_sorted {A} (R : relation A) l l' :
  l' `sublist_of` l → StronglySorted R l → StronglySorted R l'.
Proof.
  induction 1 as [|x l' l Hsub IH|x l' l Hsub IH]; intros Hs; [done| |].
  - apply StronglySorted_inv in Hs as [Hs Hall]. constructor; [by apply IH|].
    rewrite Forall_forall in Hall |- *. intros y Hy. apply Hall.
    by eapply elem_of_sublist.
  - apply StronglySorted_inv in Hs as [Hs _]. by apply IH.
Qed.

(** ** The multi-writer generator among the other writers *)

Module MultiProps.
Import Multi.

(** A call of [_load_next_mult_id_txn]: it has asked for ids, got them from the
    sequence, or added them to [_unfinished_ids]. *)
Inductive fetch :=
| Requested (current_max : Z)
| Allocated (current_max : Z) (ids : list Z)
| Recorded (current_max : Z).

Definition fetch_max (f : fetch) : Z :=
  match f with Requested c | Allocated c _ | Recorded c => c end.

(** The generator and the world: the sequence's last value, the ids it has given out
    and to which instance, and the ids whose transaction is over. *)
Record sys := MkSys {
  gen : MultiWriterIdGenerator;
  seq : Z;
  alloc : gmap Z string;
  over : gset Z;
  fetches : list fetch
}.

Definition us (s : sys) : string := _instance_name (gen s).

Definition set_gen (s : sys) (g : MultiWriterIdGenerator) : sys :=
  MkSys g (seq s) (alloc s) (over s) (fetches s).

(** The sequence gives out ids greater than all before. *)
Definition give_ids (w : string) (ids : list Z) (m : gmap Z string) : gmap Z string :=
  list_to_map ((λ id, (id, w)) <$> ids) ∪ m.

(** What another instance may announce: it has no open transaction at or before the
    position, and the position itself is no open transaction of anyone. *)
Definition may_announce (s : sys) (w : string) (pos : Z) : Prop :=
  pos ≤ seq s ∧ (∀ id, alloc s !! id = Some w → id ≤ pos → id ∈ over s) ∧
  (pos ∈ dom (alloc s) → pos ∈ over s).

Inductive step (s : sys) : sys → Prop :=
| step_begin :
    check_writer (gen s) = Ok tt →
    step s (MkSys (begin_fetch (gen s)).2 (seq s) (alloc s) (over s)
              (Requested (begin_fetch (gen s)).1 :: fetches s))
| step_allocate fs1 c fs2 ids last :
    fetches s = fs1 ++ Requested c :: fs2 → ids ≠ [] →
    (∀ id, id ∈ ids → seq s < id ≤ last) →
    step s (MkSys (gen s) last (give_ids (us s) ids (alloc s)) (over s)
              (fs1 ++ Allocated c ids :: fs2))
| step_record fs1 c ids fs2 g :
    fetches s = fs1 ++ Allocated c ids :: fs2 → record_fetch ids (gen s) = Ok g →
    step s (MkSys g (seq s) (alloc s) (over s) (fs1 ++ Recorded c :: fs2))
| step_end fs1 f fs2 g :
    fetches s = fs1 ++ f :: fs2 → end_fetch (fetch_max f) (gen s) = Ok g →
    (* ids that were given out but never recorded are rolled back *)
    step s (MkSys g (seq s) (alloc s)
              (match f with Allocated _ ids => list_to_set ids ∪ over s | _ => over s end)
              (fs1 ++ fs2))
| step_over id : id ∈ dom (alloc s) → step s (MkSys (gen s) (seq s) (alloc s) ({[id]} ∪ over s) (fetches s))
| step_mark ids g :
    ids ≠ [] → (∀ id, id ∈ ids → id ∈ _unfinished_ids (gen s) ∧ id ∈ over s) →
    _mark_ids_as_finished ids (gen s) = Ok g → step s (set_gen s g)
| step_remote_allocate w id :
    w ≠ us s → is_Some (_current_positions (gen s) !! w) → seq s < id →
    step s (MkSys (gen s) id (give_ids w [id] (alloc s)) (over s) (fetches s))
| step_advance w new_id :
    w ≠ us s → may_announce s w (new_id * _return_factor (gen s)) →
    step s (set_gen s (advance w new_id (gen s))).

(** ** The invariant *)

(** Everything the generator holds is at or before the sequence. *)
Record bounded (s : sys) : Prop := {
  b_seq : 0 < seq s;
  b_alloc : ∀ id, id ∈ dom (alloc s) → id ≤ seq s;
  b_upto : _persisted_upto_position (gen s) ≤ seq s;
  b_positions : ∀ w p, _current_positions (gen s) !! w = Some p → p ≤ seq s;
  b_seen : _max_seen_allocated_stream_id (gen s) ≤ seq s;
  b_known : ∀ k, k ∈ _known_persisted_positions (gen s) → k ≤ seq s
}.

(** What the positions of the generator stand for. *)
Record truthful (s : sys) : Prop := {
  t_upto : ∀ id, id ∈ dom (alloc s) → id ≤ _persisted_upto_position (gen s) → id ∈ over s;
  t_known : ∀ k, k ∈ _known_persisted_positions (gen s) → k ∈ dom (alloc s) → k ∈ over s;
  t_positions : ∀ w p id, _current_positions (gen s) !! w = Some p →
    alloc s !! id = Some w → id ≤ p → id ∈ over s;
  t_writers : ∀ id w, alloc s !! id = Some w → w ≠ us s →
    is_Some (_current_positions (gen s) !! w);
  t_ours : ∀ p, _current_positions (gen s) !! us s = Some p → 0 < p;
  t_local : may_announce s (us s) (_max_position_of_local_instance (gen s));
  t_seen : ∀ w, alloc s !! _max_seen_allocated_stream_id (gen s) = Some w →
    w = us s ∨ _max_seen_allocated_stream_id (gen s) ∈ over s;
  t_cur : our_position (gen s) ≤ _max_position_of_local_instance (gen s)
}.

(** What it knows about its own transactions. *)
Record tracked (s : sys) : Prop := {
  k_writer : check_writer (gen s) = Ok tt → is_Some (_current_positions (gen s) !! us s);
  k_busy : busy (gen s) = true → check_writer (gen s) = Ok tt;
  k_open : ∀ id, alloc s !! id = Some (us s) → id ∉ over s →
    id ∈ _unfinished_ids (gen s) ∨ ∃ c ids, Allocated c ids ∈ fetches s ∧ id ∈ ids;
  k_unfinished : ∀ id, id ∈ _unfinished_ids (gen s) → alloc s !! id = Some (us s);
  k_finished : ∀ id, id ∈ _finished_ids (gen s) → alloc s !! id = Some (us s) ∧ id ∈ over s;
  k_in_flight : _in_flight_fetches (gen s) ≡ₚ fetch_max <$> fetches s;
  k_fetches : ∀ f, f ∈ fetches s → fetch_max f ≤ seq s;
  k_allocated : ∀ c ids id, Allocated c ids ∈ fetches s → id ∈ ids →
    c < id ∧ alloc s !! id = Some (us s)
}.

Record safe (s : sys) : Prop := {
  s_bounded : bounded s;
  s_truthful : truthful s;
  s_tracked : tracked s
}.

Lemma skip_forward_spec fuel known upto known' upto' :
  skip_forward fuel known upto = (known', upto') →
  upto ≤ upto' ∧ (∀ k, k ∈ known' → k ∈ known) ∧ (∀ x, upto < x → x ≤ upto' → x ∈ known).
Proof.
  revert known upto. induction fuel as [|fuel IH]; intros known upto; simpl.
  { intros [= <- <-]. split_and!; [lia|done|lia]. }
  destruct (heappop Z.le known) as [[k rest]|] eqn:Hpop; cycle 1.
  { intros [= <- <-]. split_and!; [lia|done|lia]. }
  apply heappop_some in Hpop as [Hperm _]; [|apply _..].
  assert (Hin : ∀ x, x ∈ rest → x ∈ known) by (intros x Hx; rewrite Hperm; by right).
  assert (Hk : k ∈ known) by (rewrite Hperm; by left).
  destruct (Z.leb_spec k upto) as [Hle|Hgt].
  - intros Hs%IH. destruct Hs as (? & H1 & H2). split_and!; [done|naive_solver|naive_solver].
  - destruct (Z.eqb_spec k (upto + 1)) as [->|Hne].
    + intros Hs%IH. destruct Hs as (? & H1 & H2). split_and!; [lia|naive_solver|].
      intros x Hx Hx'. destruct (decide (x = upto + 1)) as [->|]; [done|]. apply Hin, H2; lia.
    + intros [= <- <-]. split_and!; [lia|done|lia].
Qed.

Lemma busy_true g : busy g = true ↔ _unfinished_ids g ≠ ∅ ∨ _in_flight_fetches g ≠ [].
Proof.
  unfold busy. rewrite orb_true_iff, !negb_true_iff, !bool_decide_eq_false. done.
Qed.

Lemma fetch_busy s f : tracked s → f ∈ fetches s → check_writer (gen s) = Ok tt.
Proof.
  intros Hk Hf. apply (k_busy s Hk), busy_true. right. intros Hnil.
  pose proof (k_in_flight s Hk) as Hp. rewrite Hnil in Hp. apply Permutation_nil_l in Hp.
  symmetry in Hp. apply fmap_nil_inv in Hp. rewrite Hp in Hf. by apply not_elem_of_nil in Hf.
Qed.

(** While nothing of ours is open, all our ids are over. *)
Lemma idle_all_over s id :
  tracked s → busy (gen s) = false → alloc s !! id = Some (us s) → id ∈ over s.
Proof.
  intros [_ _ Hopen _ _ Hfl _ _] Hb Hid. unfold busy in Hb.
  apply orb_false_iff in Hb as [Hu%negb_false_iff%bool_decide_eq_true Hf%negb_false_iff%bool_decide_eq_true].
  destruct (decide (id ∈ over s)) as [|Hn]; [done|]. exfalso.
  destruct (Hopen id Hid Hn) as [Hin|(c & ids & Hin & _)].
  - rewrite Hu in Hin. by apply elem_of_empty in Hin.
  - rewrite Hf in Hfl. apply Permutation_nil_l in Hfl. symmetry in Hfl. apply fmap_nil_inv in Hfl. rewrite Hfl in Hin.
    by apply not_elem_of_nil in Hin.
Qed.

Lemma elem_of_other_positions g p :
  p ∈ other_positions g ↔ ∃ w, w ≠ _instance_name g ∧ _current_positions g !! w = Some p.
Proof.
  unfold other_positions. rewrite list_elem_of_fmap. split.
  - intros ([w p'] & -> & [? ?]%elem_of_map_to_list%lookup_delete_Some). eauto.
  - intros (w & Hw & Hp). exists (w, p). split; [done|].
    apply elem_of_map_to_list, lookup_delete_Some. auto.
Qed.

(** The minimum position covers only finished transactions. *)
Lemma min_position_safe s :
  safe s → min_position (gen s) ≤ seq s ∧
  ∀ id, id ∈ dom (alloc s) → id ≤ min_position (gen s) → id ∈ over s.
Proof.
  intros [Hb Ht Hk]. unfold min_position.
  set (m := default (our_position (gen s)) (min_of (other_positions (gen s)))).
  assert (Hm : ∀ id w, alloc s !! id = Some w → w ≠ us s → id ≤ m → id ∈ over s).
  { intros id w Hid Hw Hle. destruct (t_writers s Ht id w Hid Hw) as [p Hp].
    apply (t_positions s Ht w p id); [done..|]. unfold m in Hle.
    assert (Hin : p ∈ other_positions (gen s)) by (apply elem_of_other_positions; eauto).
    destruct (min_of (other_positions (gen s))) as [m'|] eqn:Hmin.
    - apply min_of_spec in Hmin as [_ Hmin]. specialize (Hmin p Hin). simpl in Hle. lia.
    - apply min_of_none in Hmin. rewrite Hmin in Hin. by apply not_elem_of_nil in Hin. }
  assert (Hour : our_position (gen s) ≤ seq s).
  { unfold our_position. pose proof (b_seq s Hb).
    destruct (_current_positions (gen s) !! _instance_name (gen s)) as [p|] eqn:Hp; simpl; [|lia].
    by apply (b_positions s Hb (us s)). }
  assert (Hms : m ≤ seq s).
  { unfold m. destruct (min_of (other_positions (gen s))) as [m'|] eqn:Hmin; simpl; [|done].
    apply min_of_spec in Hmin as [Hin _]. apply elem_of_other_positions in Hin as (w & _ & Hw).
    by apply (b_positions s Hb w). }
  destruct (busy (gen s)) eqn:Hbusy; cycle 1.
  { rewrite andb_false_r. split; [done|]. intros id [w Hid]%elem_of_dom Hle.
    destruct (decide (w = us s)) as [->|Hw]; [by eapply idle_all_over|by eapply Hm]. }
  destruct (k_writer s Hk (k_busy s Hk Hbusy)) as [p0 Hp0].
  pose proof (t_ours s Ht p0 Hp0) as Hpos.
  assert (our_position (gen s) = p0) as Hp by (unfold our_position, us in *; by rewrite Hp0).
  rewrite Hp, (proj2 (Z.eqb_neq p0 0)) by lia. simpl. split; [lia|].
  intros id [w Hid]%elem_of_dom Hle.
  destruct (decide (w = us s)) as [->|Hw]; [|eapply Hm; [done..|lia]].
  apply (t_positions s Ht (us s) p0 id); [done..|lia].
Qed.

Lemma may_announce_max s w a b :
  may_announce s w a → may_announce s w b → may_announce s w (Z.max a b).
Proof. intros Ha Hb. by destruct (Z.max_spec a b) as [[_ ->]|[_ ->]]. Qed.

(** An idle instance may announce every id it has seen. *)
Lemma idle_announce s :
  safe s → busy (gen s) = false →
  may_announce s (us s) (_max_seen_allocated_stream_id (gen s)).
Proof.
  intros [Hb Ht Hk] Hbusy. split_and!.
  - apply (b_seen s Hb).
  - intros id Hid _. by eapply idle_all_over.
  - intros [w Hw]%elem_of_dom. destruct (t_seen s Ht w Hw) as [->|?]; [|done].
    by eapply idle_all_over.
Qed.

(** Recording a persisted position keeps the generator safe. *)
Lemma add_persisted_safe s new_id :
  safe s → new_id ≤ seq s → (new_id ∈ dom (alloc s) → new_id ∈ over s) →
  safe (set_gen s (_add_persisted_position new_id (gen s))).
Proof.
  intros Hs Hseq Hover. destruct (min_position_safe s Hs) as [Hms Hmin].
  pose proof (idle_announce s Hs) as Hidle.
  destruct Hs as [Hb Ht Hk]. unfold _add_persisted_position.
  set (known := heappush (_known_persisted_positions (gen s)) new_id).
  set (upto := Z.max (min_position (gen s)) (_persisted_upto_position (gen s))).
  destruct (skip_forward (length known) known upto) as [known' upto'] eqn:Hskip.
  apply skip_forward_spec in Hskip as (Hle & Hsub & Hwalk).
  assert (Hkn : ∀ k, k ∈ known → k ≤ seq s ∧ (k ∈ dom (alloc s) → k ∈ over s)).
  { intros k [->|Hin]%elem_of_cons; [done|]. split; [by apply (b_known s Hb)|by apply (t_known s Ht)]. }
  assert (Hup : may_announce s (us s) upto).
  { assert (Hall : ∀ id, id ∈ dom (alloc s) → id ≤ upto → id ∈ over s).
    { intros id Hid Hidle'. unfold upto in Hidle'.
      destruct (Z.le_gt_cases id (min_position (gen s))); [by apply Hmin|].
      apply (t_upto s Ht); [done|lia]. }
    split_and!.
    - pose proof (b_upto s Hb). unfold upto. lia.
    - intros id Hid. apply Hall. by apply elem_of_dom_2 in Hid.
    - intros Hd. apply Hall; [done|lia]. }
  split; [|destruct Ht|destruct Hk].
  - destruct Hb. split; simpl; try done.
    + destruct (Z.le_gt_cases upto' upto) as [?|Hlt]; [unfold upto in *; lia|].
      by apply Hkn, Hwalk.
    + intros k ?%Hsub. by apply Hkn.
  - split; simpl; try done.
    + intros id Hid Hidle'. destruct (Z.le_gt_cases id upto) as [Hu|Hu].
      * unfold upto in Hu. destruct (Z.le_gt_cases id (min_position (gen s))); [by apply Hmin|].
        apply t_upto0; [done|lia].
      * by apply Hkn, Hid; apply Hwalk.
    + intros k Hin%Hsub. by apply Hkn.
    + assert (Hl : may_announce s (us s) (Z.max (_max_position_of_local_instance (gen s)) upto))
        by (by apply may_announce_max).
      destruct (busy (gen s)); [exact Hl|]. exact (may_announce_max s (us s) _ _ (Hidle eq_refl) Hl).
    + unfold our_position in *. simpl. destruct (busy (gen s)); lia.
  - by split.
Qed.

(** ** Every step keeps the invariant *)

Lemma lookup_give_ids w ids m id w' :
  give_ids w ids m !! id = Some w' ↔ (id ∈ ids ∧ w' = w) ∨ ((id ∉ ids) ∧ m !! id = Some w').
Proof.
  unfold give_ids. rewrite lookup_union_Some_raw.
  assert (Hl : ∀ x, (list_to_map ((λ id, (id, w)) <$> ids) : gmap Z string) !! id = Some x ↔
    id ∈ ids ∧ x = w).
  { intros x. induction ids as [|y ids IH]; simpl.
    - rewrite lookup_empty. set_solver.
    - destruct (decide (id = y)) as [->|Hne].
      + rewrite lookup_insert_eq. set_solver.
      + rewrite lookup_insert_ne by done. rewrite IH. set_solver. }
  rewrite Hl. destruct (decide (id ∈ ids)) as [Hin|Hin].
  - naive_solver.
  - assert ((list_to_map ((λ id, (id, w)) <$> ids) : gmap Z string) !! id = None) as ->.
    { apply eq_None_not_Some. intros [x Hx]. by apply Hl in Hx as [? _]. }
    naive_solver.
Qed.

(** New ids are after everything the generator knows. *)
Lemma give_ids_safe s w ids last fs :
  safe s → (∀ id, id ∈ ids → seq s < id ≤ last) → seq s ≤ last →
  (w ≠ us s → is_Some (_current_positions (gen s) !! w)) →
  tracked (MkSys (gen s) last (give_ids w ids (alloc s)) (over s) fs) →
  safe (MkSys (gen s) last (give_ids w ids (alloc s)) (over s) fs).
Proof.
  intros [Hb Ht Hk] Hids Hlast Hw Htr.
  assert (Hold : ∀ id, id ≤ seq s → ∀ w', give_ids w ids (alloc s) !! id = Some w' →
    alloc s !! id = Some w').
  { intros id Hle w' [[Hin _]|[_ ?]]%lookup_give_ids; [|done]. specialize (Hids id Hin). lia. }
  split; [|destruct Ht as [H1 H2 H3 H4 H5 (L1 & L2 & L3) H7 H8]|done].
  - destruct Hb as [B0 B1 B2 B3 B4 B5]. split; simpl; try lia.
    + intros id [w' [[Hin _]|[_ Hid]]%lookup_give_ids]%elem_of_dom; [by apply Hids|].
      transitivity (seq s); [|done]. apply B1. by apply elem_of_dom_2 in Hid.
    + intros w' p Hp. specialize (B3 w' p Hp). lia.
    + intros k Hin. specialize (B5 k Hin). lia.
  - split; simpl; try done.
    + intros id [w' Hid]%elem_of_dom Hle. apply H1; [|done].
      apply (Hold id) in Hid; [by apply elem_of_dom_2 in Hid|]. pose proof (b_upto s Hb). lia.
    + intros k Hin [w' Hid]%elem_of_dom. apply H2; [done|].
      apply (Hold k) in Hid; [by apply elem_of_dom_2 in Hid|]. by apply (b_known s Hb).
    + intros w' p id Hp Hid Hle. apply (H3 w' p id); [done| |done]. apply Hold; [|done].
      pose proof (b_positions s Hb w' p Hp). lia.
    + intros id w' [[_ ->]|[_ Hid]]%lookup_give_ids Hne; [by apply Hw|by eapply H4].
    + split_and!; simpl; [lia| |].
      * intros id Hid Hle. apply L2; [|done]. apply Hold; [lia|done].
      * intros [w' Hid]%elem_of_dom. apply L3. apply Hold in Hid; [|done].
        by apply elem_of_dom_2 in Hid.
    + intros w' Hid. apply H7. apply Hold; [|done]. apply (b_seen s Hb).
Qed.

Lemma remove_one_perm x l l' : remove_one x l = Ok l' → l ≡ₚ x :: l'.
Proof.
  revert l'. induction l as [|y l IH]; intros l'; simpl; [done|].
  destruct (Z.eqb_spec y x) as [->|Hne]; [by intros [= <-]|].
  intros (l1 & Hl1%IH & [= <-])%bind_ok. rewrite Hl1. apply Permutation_swap.
Qed.

Lemma elem_of_swap {A} (x y z : A) l1 l2 : z ∈ l1 ++ x :: l2 → z = x ∨ z ∈ l1 ++ y :: l2.
Proof. rewrite !elem_of_app, !elem_of_cons. naive_solver. Qed.

Lemma step_begin_safe s :
  safe s → check_writer (gen s) = Ok tt →
  safe (MkSys (begin_fetch (gen s)).2 (seq s) (alloc s) (over s)
                   (Requested (begin_fetch (gen s)).1 :: fetches s)).
Proof.
  intros [[] [] [W1 W2 K1 K2 K3 K4 K5 K6]] Hw. split; split; simpl; try done.
  - intros id Hid Ho. destruct (K1 id Hid Ho) as [?|(c & ids & ? & ?)]; [by left|right].
    exists c, ids. split; [by right|done].
  - by rewrite K4.
  - intros f [->|Hf]%elem_of_cons; [done|auto].
  - intros c ids id [?|Hf]%elem_of_cons; [done|]. by apply K6.
Qed.

Lemma step_allocate_safe s fs1 c fs2 ids last :
  safe s → fetches s = fs1 ++ Requested c :: fs2 → ids ≠ [] →
  (∀ id, id ∈ ids → seq s < id ≤ last) →
  safe (MkSys (gen s) last (give_ids (us s) ids (alloc s)) (over s)
          (fs1 ++ Allocated c ids :: fs2)).
Proof.
  intros Hs Hfs Hne Hids. assert (Hlast : seq s ≤ last).
  { destruct ids as [|id ids]; [done|]. specialize (Hids id ltac:(by left)). lia. }
  apply give_ids_safe; [done..|].
  destruct (s_tracked s Hs) as [W1 W2 K1 K2 K3 K4 K5 K6]. rewrite Hfs in *.
  split; simpl; [done|done|..].
  - intros id [[Hin _]|[Hin Hid]]%lookup_give_ids Ho.
    + right. exists c, ids. split; [set_solver|done].
    + destruct (K1 id Hid Ho) as [?|(c' & ids' & Hf & Hid')]; [by left|right].
      exists c', ids'. split; [|done].
      by apply (elem_of_swap _ (Allocated c ids)) in Hf as [?|?].
  - intros id Hid%K2. apply lookup_give_ids. right. split; [|done]. intros Hin.
    specialize (Hids id Hin). apply elem_of_dom_2, (b_alloc s (s_bounded s Hs)) in Hid. lia.
  - intros id [Hid ?]%K3. split; [|done]. apply lookup_give_ids. right. split; [|done]. intros Hin.
    specialize (Hids id Hin). apply elem_of_dom_2, (b_alloc s (s_bounded s Hs)) in Hid. lia.
  - rewrite K4. by rewrite !fmap_app.
  - intros f Hf. transitivity (seq s); [|done].
    apply (elem_of_swap _ (Requested c)) in Hf as [->|?]; [|by apply K5].
    apply (K5 (Requested c)). set_solver.
  - intros c' ids' id Hf Hin.
    apply (elem_of_swap _ (Requested c)) in Hf as [[= -> ->]|Hf].
    + split; [|apply lookup_give_ids; by left]. specialize (Hids id Hin).
      specialize (K5 (Requested c) ltac:(set_solver)). simpl in K5. lia.
    + destruct (K6 c' ids' id Hf Hin) as [? Hid]. split; [done|]. apply lookup_give_ids.
      right. split; [|done]. intros Hin'. specialize (Hids id Hin').
      apply elem_of_dom_2, (b_alloc s (s_bounded s Hs)) in Hid. lia.
Qed.

Lemma step_record_safe s fs1 c ids fs2 g :
  safe s → fetches s = fs1 ++ Allocated c ids :: fs2 → record_fetch ids (gen s) = Ok g →
  safe (MkSys g (seq s) (alloc s) (over s) (fs1 ++ Recorded c :: fs2)).
Proof.
  intros [Hb Ht Hk] Hfs. assert (Hcw : check_writer (gen s) = Ok tt).
  { apply (fetch_busy s (Allocated c ids)); [done|]. rewrite Hfs. set_solver. }
  destruct Hk as [W1 W2 K1 K2 K3 K4 K5 K6]. unfold record_fetch.
  destruct (max_of _) as [m|] eqn:Hm; [|done]. intros [= <-]. rewrite Hfs in *.
  assert (Hu : ∀ id, id ∈ _unfinished_ids (gen s) ∪ list_to_set ids → alloc s !! id = Some (us s)).
  { intros id [Hid|Hid%elem_of_list_to_set]%elem_of_union; [by apply K2|].
    apply (K6 c ids id); [set_solver|done]. }
  apply max_of_spec in Hm as [Hm%elem_of_elements%Hu _].
  pose proof Hm as Hm'. apply elem_of_dom_2, (b_alloc s Hb) in Hm'.
  split; [destruct Hb|destruct Ht as [T1 T2 T3 T4 T5 T6 T7 T8]|]; split; simpl; try done; [lia|..].
  - intros w Hw. destruct (Z.max_spec (_max_seen_allocated_stream_id (gen s)) m)
      as [[_ Hx]|[_ Hx]]; rewrite Hx in *; [left|by apply T7].
    unfold us in *. simpl. congruence.
  - intros id Hid Ho. rewrite elem_of_union, elem_of_list_to_set.
    destruct (K1 id Hid Ho) as [?|(c' & ids' & Hf & Hin)]; [by left; left|].
    apply (elem_of_swap _ (Recorded c)) in Hf as [[= -> ->]|Hf]; [by left; right|right; eauto].
  - rewrite K4. by rewrite !fmap_app.
  - intros f Hf. apply (elem_of_swap _ (Allocated c ids)) in Hf as [->|?]; [|by apply K5].
    apply (K5 (Allocated c ids)). set_solver.
  - intros c' ids' id Hf Hin.
    apply (elem_of_swap _ (Allocated c ids)) in Hf as [?|Hf]; [done|by apply (K6 c' ids' id)].
Qed.

(** Transactions that end only make the invariant easier. *)
Lemma over_mono s o fs :
  safe s → over s ⊆ o → tracked (MkSys (gen s) (seq s) (alloc s) o fs) →
  safe (MkSys (gen s) (seq s) (alloc s) o fs).
Proof.
  intros [Hb Ht _] Ho Hk.
  split; [by destruct Hb|destruct Ht as [T1 T2 T3 T4 T5 (L1 & L2 & L3) T7 T8]|done].
  split; simpl; eauto.
  - split_and!; simpl; eauto.
  - intros w Hw. destruct (T7 w Hw); [by left|right; auto].
Qed.

Lemma step_end_safe s fs1 f fs2 g :
  safe s → fetches s = fs1 ++ f :: fs2 → end_fetch (fetch_max f) (gen s) = Ok g →
  safe (MkSys g (seq s) (alloc s)
          (match f with Allocated _ ids => list_to_set ids ∪ over s | _ => over s end)
          (fs1 ++ fs2)).
Proof.
  intros Hs Hfs. unfold end_fetch. intros (l & Hl%remove_one_perm & [= <-])%bind_ok.
  set (o := match f with Allocated _ ids => list_to_set ids ∪ over s | _ => over s end).
  assert (Ho : over s ⊆ o) by (unfold o; destruct f; set_solver).
  assert (Hcw : check_writer (gen s) = Ok tt).
  { apply (fetch_busy s f); [apply Hs|]. rewrite Hfs. set_solver. }
  destruct Hs as [Hb [T1 T2 T3 T4 T5 (L1 & L2 & L3) T7 T8] [W1 W2 K1 K2 K3 K4 K5 K6]].
  rewrite Hfs in *.
  assert (Hin : ∀ f', f' ∈ fs1 ++ fs2 → f' ∈ fs1 ++ f :: fs2).
  { intros f'. rewrite !elem_of_app, elem_of_cons. tauto. }
  split; [by destruct Hb| |].
  { split; simpl; eauto; [split_and!; simpl; eauto|].
    intros w Hw. destruct (T7 w Hw); [by left|right; auto]. }
  split; simpl; [done|done|..].
  - intros id Hid Hno. destruct (K1 id Hid) as [?|(c & ids & Hf & Hid')]; [set_solver|by left|].
    right. rewrite elem_of_app, elem_of_cons in Hf. destruct Hf as [?|[<-|?]].
    + exists c, ids. split; [|done]. apply elem_of_app. by left.
    + exfalso. apply Hno. unfold o. apply elem_of_union_l. by apply elem_of_list_to_set.
    + exists c, ids. split; [|done]. apply elem_of_app. by right.
  - done.
  - intros id [? ?]%K3. auto.
  - rewrite Hl, fmap_app, fmap_cons in K4. rewrite fmap_app.
    rewrite <- Permutation_middle in K4. by apply Permutation_cons_inv in K4.
  - auto.
  - intros c ids id Hf. apply K6. auto.
Qed.

Lemma step_over_safe s id :
  safe s → safe (MkSys (gen s) (seq s) (alloc s) ({[id]} ∪ over s) (fetches s)).
Proof.
  intros Hs. apply over_mono; [done|set_solver|].
  destruct (s_tracked s Hs) as [W1 W2 K1 K2 K3 K4 K5 K6]. split; simpl; try done.
  - intros i Hi Ho. apply K1; [done|set_solver].
  - intros i [? ?]%K3. split; [done|set_solver].
Qed.

Lemma step_remote_safe s w id :
  safe s → w ≠ us s → is_Some (_current_positions (gen s) !! w) → seq s < id →
  safe (MkSys (gen s) id (give_ids w [id] (alloc s)) (over s) (fetches s)).
Proof.
  intros Hs Hw Hp Hid. apply give_ids_safe; [done| |lia|done|].
  { intros i ->%list_elem_of_singleton. lia. }
  destruct (s_tracked s Hs) as [W1 W2 K1 K2 K3 K4 K5 K6].
  assert (Hold : ∀ i, give_ids w [id] (alloc s) !! i = Some (us s) → alloc s !! i = Some (us s)).
  { intros i [[_ ?]|[_ ?]]%lookup_give_ids; [congruence|done]. }
  assert (Hnew : ∀ i w', alloc s !! i = Some w' → give_ids w [id] (alloc s) !! i = Some w').
  { intros i w' Hi. apply lookup_give_ids. right. split; [|done].
    apply elem_of_dom_2, (b_alloc s (s_bounded s Hs)) in Hi as Hle.
    intros ->%list_elem_of_singleton. lia. }
  split; simpl; try done.
  - intros i Hi%Hold. by apply K1.
  - intros i Hi%K2. by apply Hnew.
  - intros i [Hi ?]%K3. split; [by apply Hnew|done].
  - intros f Hf. specialize (K5 f Hf). lia.
  - intros c ids i Hf Hin. destruct (K6 c ids i Hf Hin). split; [done|by apply Hnew].
Qed.

Lemma step_advance_safe s w new_id :
  safe s → w ≠ us s → may_announce s w (new_id * _return_factor (gen s)) →
  safe (set_gen s (advance w new_id (gen s))).
Proof.
  intros [Hb [T1 T2 T3 T4 T5 T6 T7 T8] Hk] Hw (Hseq & Hann & Hself). unfold advance.
  set (pos := new_id * _return_factor (gen s)) in *.
  set (g := MkMulti _ _ _ _ _ _ _ _ _ _ _).
  change (set_gen s (_add_persisted_position pos g)) with
    (set_gen (set_gen s g) (_add_persisted_position pos (gen (set_gen s g)))).
  apply add_persisted_safe; [|done..]. unfold us in Hw.
  split; [destruct Hb as [B0 B1 B2 B3 B4 B5]| |].
  - split; simpl; try done; [|lia]. intros w' p. destruct (decide (w' = w)) as [->|Hne].
    + rewrite lookup_insert_eq. intros [= <-].
      destruct (_current_positions (gen s) !! w) as [p0|] eqn:Hp0; simpl.
      * specialize (B3 w p0 Hp0). lia.
      * lia.
    + rewrite lookup_insert_ne by done. apply B3.
  - split; simpl; try done.
    + intros w' p id. destruct (decide (w' = w)) as [->|Hne].
      * rewrite lookup_insert_eq. intros [= <-] Hid Hle.
        destruct (T4 id w Hid Hw) as [p0 Hp0]. rewrite Hp0 in Hle. simpl in Hle.
        destruct (Z.le_gt_cases id pos); [by apply Hann|]. apply (T3 w p0 id); [done..|lia].
      * rewrite lookup_insert_ne by done. apply T3.
    + intros id w' Hid Hu. destruct (decide (w' = w)) as [->|Hne].
      * rewrite lookup_insert_eq. eauto.
      * rewrite lookup_insert_ne by done. by eapply T4.
    + unfold us in *. simpl. rewrite lookup_insert_ne by done. apply T5.
    + intros w' Hw'. destruct (Z.max_spec (_max_seen_allocated_stream_id (gen s)) pos)
        as [[_ Hm]|[_ Hm]]; rewrite Hm in *; [|by apply T7].
      right. apply Hself. by apply elem_of_dom_2 in Hw'.
    + unfold our_position in *. simpl. by rewrite lookup_insert_ne.
  - destruct Hk as [W1 W2 K1 K2 K3 K4 K5 K6]. split; simpl; try done.
    unfold us in *. simpl. rewrite lookup_insert_ne by done. apply W1.
Qed.

(** Nothing of ours that is still open is before the least unfinished id. *)
Lemma min_unfinished_spec s m id :
  tracked s → min_unfinished (gen s) = Some m →
  alloc s !! id = Some (us s) → id ∉ over s → m ≤ id.
Proof.
  intros [_ _ K1 _ _ K4 _ K6] Hm Hid Ho. unfold min_unfinished in Hm.
  destruct (K1 id Hid Ho) as [Hu|(c & ids & Hf & Hin)].
  - destruct (min_of (elements (_unfinished_ids (gen s)))) as [u|] eqn:Hmin.
    + apply min_of_spec in Hmin as [_ Hmin]. specialize (Hmin id ltac:(by apply elem_of_elements)).
      destruct (min_of (_in_flight_fetches (gen s))); simplify_eq; lia.
    + apply min_of_none in Hmin. apply elem_of_elements in Hu. rewrite Hmin in Hu.
      by apply not_elem_of_nil in Hu.
  - destruct (K6 c ids id Hf Hin) as [Hlt _].
    assert (Hc : c ∈ _in_flight_fetches (gen s)).
    { rewrite K4. apply list_elem_of_fmap. by exists (Allocated c ids). }
    destruct (min_of (_in_flight_fetches (gen s))) as [f|] eqn:Hmin.
    + apply min_of_spec in Hmin as [_ Hmin]. specialize (Hmin c Hc).
      destruct (min_of (elements _)); simplify_eq; lia.
    + apply min_of_none in Hmin. rewrite Hmin in Hc. by apply not_elem_of_nil in Hc.
Qed.

Lemma min_unfinished_none g : min_unfinished g = None → busy g = false.
Proof.
  unfold min_unfinished, busy. destruct (min_of (elements _)) as [u|] eqn:Hu;
    destruct (min_of (_in_flight_fetches g)) as [f|] eqn:Hf; try done.
  apply min_of_none in Hu, Hf. apply elements_empty_inv, leibniz_equiv in Hu. intros _.
  by rewrite Hu, Hf, !bool_decide_true.
Qed.

(** The new position covers only our finished transactions. *)
Lemma new_position_spec s new_cur finished :
  tracked s → new_position (gen s) = Ok (new_cur, finished) →
  finished ⊆ _finished_ids (gen s) ∧
  ∀ p, new_cur = Some p →
    p ∈ _finished_ids (gen s) ∧ ∀ id, alloc s !! id = Some (us s) → id ≤ p → id ∈ over s.
Proof.
  intros Hk. unfold new_position. destruct (min_unfinished (gen s)) as [m|] eqn:Hm.
  - intros [= <- <-]. split; [intros x; rewrite elem_of_filter; tauto|].
    intros p [[Hp Hin]%elem_of_elements%elem_of_filter _]%max_of_spec.
    split; [done|]. intros id Hid Hle. destruct (decide (id ∈ over s)) as [|Ho]; [done|].
    pose proof (min_unfinished_spec s m id Hk Hm Hid Ho). lia.
  - destruct (max_of _) as [p0|] eqn:Hmax; [|done]. intros [= <- <-].
    split; [set_solver|]. intros p [= <-].
    apply max_of_spec in Hmax as [Hin%elem_of_elements _]. split; [done|].
    intros id Hid _. apply (idle_all_over s); [done| |done]. by apply min_unfinished_none.
Qed.

Lemma foldl_add_persisted_safe s ids :
  safe s → (∀ id, id ∈ ids → id ≤ seq s ∧ id ∈ over s) →
  safe (set_gen s (foldl (λ g id, _add_persisted_position id g) (gen s) ids)).
Proof.
  revert s. induction ids as [|id ids IH]; intros s Hs Hids; simpl; [by destruct s|].
  destruct (Hids id) as [Hseq Hov]; [by left|].
  assert (Hs1 : safe (set_gen s (_add_persisted_position id (gen s)))) by (by apply add_persisted_safe).
  apply (IH (set_gen s (_add_persisted_position id (gen s)))); [done|].
  intros i Hi. apply (Hids i). by right.
Qed.

(** Moving our position to one that covers only finished transactions. *)
Lemma move_position_safe s new_cur :
  safe s → is_Some (_current_positions (gen s) !! us s) →
  (∀ p, new_cur = Some p → may_announce s (us s) p) →
  safe (set_gen s (move_position new_cur (gen s))).
Proof.
  intros Hs [p0 Hp0] Hnew. destruct new_cur as [p|]; [|by destruct s]. simpl.
  destruct (Z.eqb_spec p 0) as [|Hp]; [by destruct s|].
  pose proof (Hnew p eq_refl) as Hann. pose proof Hann as (Hseq & Hcov & _).
  destruct Hs as [[B0 B1 B2 B3 B4 B5] [T1 T2 T3 T4 T5 T6 T7 T8] [W1 W2 K1 K2 K3 K4 K5 K6]].
  assert (Hour : our_position (gen s) = p0) by (unfold our_position, us in *; by rewrite Hp0).
  rewrite Hour. specialize (T5 p0 Hp0) as Hpos.
  unfold us in *. split; [split|split|split]; simpl; try done.
  - intros w q. destruct (decide (w = _instance_name (gen s))) as [->|Hne].
    + rewrite lookup_insert_eq. intros [= <-]. specialize (B3 _ _ Hp0). lia.
    + rewrite lookup_insert_ne by done. apply B3.
  - intros w q id. destruct (decide (w = _instance_name (gen s))) as [->|Hne].
    + rewrite lookup_insert_eq. intros [= <-] Hid Hle.
      destruct (Z.le_gt_cases id p); [by apply Hcov|].
      apply (T3 (_instance_name (gen s)) p0 id); [done..|lia].
    + rewrite lookup_insert_ne by done. apply T3.
  - intros id w Hid Hne. unfold us in Hne. simpl in Hne.
    rewrite lookup_insert_ne by done. by eapply T4.
  - unfold us. simpl. rewrite lookup_insert_eq. intros q [= <-]. lia.
  - replace (Z.max (Z.max p0 p) (_max_position_of_local_instance (gen s))) with
      (Z.max p (_max_position_of_local_instance (gen s))) by lia.
    exact (may_announce_max s (us s) _ _ Hann T6).
  - unfold our_position. simpl. rewrite lookup_insert_eq. simpl. lia.
  - intros _. unfold us. simpl. rewrite lookup_insert_eq. eauto.
Qed.

Lemma step_mark_safe s ids g :
  safe s → ids ≠ [] → (∀ id, id ∈ ids → id ∈ _unfinished_ids (gen s) ∧ id ∈ over s) →
  _mark_ids_as_finished ids (gen s) = Ok g → safe (set_gen s g).
Proof.
  intros Hs Hne Hids Hm. unfold _mark_ids_as_finished in Hm.
  assert (Hcw : check_writer (gen s) = Ok tt).
  { apply (k_busy s (s_tracked s Hs)), busy_true. left. destruct ids as [|id ids]; [done|].
    destruct (Hids id ltac:(by left)) as [Hu _]. intros He. rewrite He in Hu.
    by apply elem_of_empty in Hu. }
  set (g1 := set_finished (gen s) _ _) in Hm.
  assert (Hs1 : safe (set_gen s g1)).
  { destruct Hs as [Hb Ht [W1 W2 K1 K2 K3 K4 K5 K6]]. split; [by destruct Hb|by destruct Ht|].
    split; simpl; try done.
    - intros id Hid Ho. destruct (K1 id Hid Ho) as [Hu|?]; [left|by right].
      apply elem_of_difference. split; [done|]. intros Hin%elem_of_list_to_set.
      by apply Ho, Hids.
    - intros id [Hid _]%elem_of_difference. by apply K2.
    - intros id [Hid|Hid%elem_of_list_to_set]%elem_of_union; [by apply K3|].
      destruct (Hids id Hid) as [Hu Ho]. split; [by apply K2|done]. }
  apply bind_ok in Hm as ([new_cur finished] & Hnew & [= <-]).
  destruct (new_position_spec (set_gen s g1) new_cur finished (s_tracked _ Hs1) Hnew) as [Hsub Hcov].
  set (g2 := set_finished g1 (_unfinished_ids g1) finished).
  assert (Hs2 : safe (set_gen s g2)).
  { destruct Hs1 as [Hb Ht [W1 W2 K1 K2 K3 K4 K5 K6]]. split; [by destruct Hb|by destruct Ht|].
    split; simpl; try done. intros id Hid%Hsub. by apply K3. }
  assert (Hs3 : safe (set_gen (set_gen s g2) (move_position new_cur g2))).
  { apply move_position_safe; [done|by apply (k_writer s (s_tracked s Hs))|].
    intros p Hp. destruct (Hcov p Hp) as [Hin Hc].
    apply (k_finished _ (s_tracked _ Hs1)) in Hin as [Hin Hov].
    apply elem_of_dom_2, (b_alloc _ (s_bounded s Hs)) in Hin. done. }
  apply (foldl_add_persisted_safe (set_gen s (move_position new_cur g2))); [done|].
  intros id Hid. destruct (Hids id Hid) as [Hu Ho]. split; [|done].
  apply (k_unfinished _ (s_tracked s Hs)), elem_of_dom_2, (b_alloc _ (s_bounded s Hs)) in Hu. done.
Qed.

Lemma step_safe s s' : safe s → step s s' → safe s'.
Proof.
  intros Hs Hstep. destruct Hstep.
  - by apply step_begin_safe.
  - by eapply step_allocate_safe.
  - by eapply step_record_safe.
  - by apply step_end_safe.
  - by apply step_over_safe.
  - by eapply step_mark_safe.
  - by apply step_remote_safe.
  - by apply step_advance_safe.
Qed.

(** ** Start-up on an empty database *)

Definition start (instance_name : string) (writers : list string) (positive : bool) : sys :=
  MkSys (new_MultiWriterIdGenerator instance_name writers positive [] [] []) 1 ∅ ∅ [].

Lemma setdefault_writers (positions : gmap string Z) writers v :
  (∀ w p, positions !! w = Some p → p = v) →
  let r := foldl (λ positions writer,
    match positions !! writer with
    | Some _ => positions
    | None => <[writer := v]> positions
    end) positions writers in
  (∀ w p, r !! w = Some p → p = v) ∧ (∀ w, w ∈ writers ∨ is_Some (positions !! w) → is_Some (r !! w)).
Proof.
  revert positions. induction writers as [|x ws IH]; intros positions Hv; simpl.
  { split; [done|]. intros w [?%not_elem_of_nil|?]; done. }
  destruct (IH (match positions !! x with Some _ => positions | None => <[x := v]> positions end))
    as [H1 H2].
  { destruct (positions !! x) eqn:Hx; [done|]. intros w p. destruct (decide (w = x)) as [->|].
    - rewrite lookup_insert_eq. congruence.
    - rewrite lookup_insert_ne by done. apply Hv. }
  split; [done|]. intros w Hw. apply H2. rewrite elem_of_cons in Hw.
  destruct (positions !! x) eqn:Hx.
  - destruct Hw as [[->|?]|?]; [right; by rewrite Hx|by left|by right].
  - destruct (decide (w = x)) as [->|Hne]; [right; rewrite lookup_insert_eq; eauto|].
    rewrite lookup_insert_ne by done. naive_solver.
Qed.

Lemma start_safe instance_name writers positive : safe (start instance_name writers positive).
Proof.
  unfold start, new_MultiWriterIdGenerator, _load_current_ids.
  set (b := blank instance_name writers positive).
  assert (Hb : (if bool_decide (_writers b = []) then b
    else set_positions b (list_to_map ((λ r, (r.1, r.2 * _return_factor b)) <$>
      reverse (filter (λ r, r.1 ∈ _writers b) []))) (_persisted_upto_position b)) = b)
    by (by case_bool_decide).
  rewrite Hb. clear Hb. subst b. simpl. rewrite map_to_list_empty. simpl.
  destruct (setdefault_writers ∅ writers 1) as [H1 H2]; [by intros w p; rewrite lookup_empty|].
  set (r := foldl _ _ _) in *. clearbody r.
  assert (Hmax : default 1 (max_of (map_to_list r).*2) `max` 1 = 1).
  { destruct (max_of (map_to_list r).*2) as [m|] eqn:Hm; [|done].
    apply max_of_spec in Hm as [([w p] & -> & Hp%elem_of_map_to_list)%list_elem_of_fmap _].
    apply H1 in Hp. simpl in *. lia. }
  assert (Hpos : ∀ w p, (if bool_decide (writers = []) then <[instance_name := 1]> r else r) !! w
    = Some p → p = 1).
  { intros w p. case_bool_decide; [|apply H1]. destruct (decide (w = instance_name)) as [->|].
    - rewrite lookup_insert_eq. congruence.
    - rewrite lookup_insert_ne by done. apply H1. }
  split; split; simpl; rewrite ?Hmax; try set_solver by lia.
  - split_and!; simpl; [lia| |set_solver]. intros id. by rewrite lookup_empty.
  - unfold our_position. simpl. destruct (_ !! _) as [p|] eqn:Hp; simpl; [|lia].
    apply Hpos in Hp. lia.
  - unfold check_writer. simpl. intros Hcw%raise_if_ok. unfold us. simpl. case_bool_decide as Hw.
    + rewrite lookup_insert_eq. eauto.
    + simpl in Hcw. apply negb_false_iff, bool_decide_eq_true in Hcw. apply H2. by left.
Qed.

(** ** Start-up on an existing database *)

(** The world when this instance starts: it has no open transaction, every id was given to a
    listed writer and is above 1, and every listed writer has a stored position, which it may
    announce; the rows that are read are of finished transactions. *)
Record restart_ok (instance_name : string) (writers : list string) (factor : Z)
    (stream_positions rows : list (string * Z)) (s : sys) : Prop := {
  r_writers : writers ≠ [];
  r_stored w : w ∈ writers → ∃ p, (w, p) ∈ stream_positions;
  r_positions w p : (w, p) ∈ stream_positions → w ∈ writers → 0 < p * factor ∧ may_announce s w (p * factor);
  r_rows w p : (w, p) ∈ rows → 0 < factor * p ≤ seq s ∧ (factor * p ∈ dom (alloc s) → factor * p ∈ over s);
  r_alloc id w : alloc s !! id = Some w → 1 < id ≤ seq s ∧ w ∈ writers;
  r_idle id : alloc s !! id = Some instance_name → id ∈ over s;
  r_fetches : fetches s = []
}.

Definition restart (instance_name : string) (writers : list string) (positive : bool)
    (stream_positions : list (string * Z)) (max_ids : list Z) (rows : list (string * Z)) (s : sys) : sys :=
  set_gen s (new_MultiWriterIdGenerator instance_name writers positive stream_positions max_ids rows).

Section loading.
Context (instance_name : string) (writers : list string) (positive : bool).
Context (stream_positions : list (string * Z)) (max_ids : list Z) (rows : list (string * Z)) (s : sys).
Let factor : Z := if positive then 1 else -1.
Hypothesis Hok : restart_ok instance_name writers factor stream_positions rows s.

(** A generator that is being loaded. *)
Record loading (g : MultiWriterIdGenerator) : Prop := {
  l_name : _instance_name g = instance_name;
  l_factor : _return_factor g = factor;
  l_idle : _unfinished_ids g = ∅ ∧ _in_flight_fetches g = [] ∧ _finished_ids g = ∅;
  l_upto : _persisted_upto_position g ≤ seq s;
  l_past id : id ∈ dom (alloc s) → id ≤ _persisted_upto_position g → id ∈ over s;
  l_known k : k ∈ _known_persisted_positions g → k ≤ seq s ∧ (k ∈ dom (alloc s) → k ∈ over s);
  l_positions w p : _current_positions g !! w = Some p → 0 < p ∧ may_announce s w p;
  l_writers w : w ∈ writers → is_Some (_current_positions g !! w);
  l_listed : _writers g = writers
}.

Lemma loading_min g : loading g → min_position g ≤ seq s ∧ ∀ id, id ∈ dom (alloc s) → id ≤ min_position g → id ∈ over s.
Proof.
  intros [L1 _ (L3 & L4 & _) _ _ _ L7 L8 _]. unfold min_position, busy.
  rewrite L3, L4, !bool_decide_true by done. cbn [negb orb]. rewrite andb_false_r.
  assert (Hour : our_position g ≤ seq s).
  { unfold our_position. destruct (_current_positions g !! _instance_name g) as [p|] eqn:Hp; simpl.
    - by destruct (L7 _ _ Hp) as [_ [? _]].
    - destruct writers as [|w ws] eqn:Hws; [by destruct (r_writers _ _ _ _ _ _ Hok)|].
      destruct (L8 w ltac:(by left)) as [p' Hp']. destruct (L7 _ _ Hp') as [? [? _]]. lia. }
  split.
  - destruct (min_of (other_positions g)) as [m|] eqn:Hmin; simpl; [|done].
    apply min_of_spec in Hmin as [(w & _ & Hw)%elem_of_other_positions _]. by destruct (L7 _ _ Hw) as [_ [? _]].
  - intros id [w Hid]%elem_of_dom Hle. destruct (decide (w = instance_name)) as [->|Hne]; [by apply (r_idle _ _ _ _ _ _ Hok)|].
    destruct (r_alloc _ _ _ _ _ _ Hok id w Hid) as [_ Hw]. destruct (L8 w Hw) as [p Hp].
    destruct (L7 w p Hp) as [_ (_ & Hann & _)]. apply Hann; [done|].
    assert (Hin : p ∈ other_positions g) by (apply elem_of_other_positions; exists w; split; [congruence|done]).
    destruct (min_of (other_positions g)) as [m|] eqn:Hmin.
    + apply min_of_spec in Hmin as [_ Hmin]. specialize (Hmin p Hin). simpl in Hle. lia.
    + apply min_of_none in Hmin. rewrite Hmin in Hin. by apply not_elem_of_nil in Hin.
Qed.

Lemma loading_add g new_id :
  loading g → new_id ≤ seq s → (new_id ∈ dom (alloc s) → new_id ∈ over s) → loading (_add_persisted_position new_id g).
Proof.
  intros Hl Hle Hover. destruct (loading_min g Hl) as [Hms Hmin]. destruct Hl as [L1 L2 L3 L4 L5 L6 L7 L8 L9].
  unfold _add_persisted_position.
  set (known := heappush (_known_persisted_positions g) new_id).
  set (upto := Z.max (min_position g) (_persisted_upto_position g)).
  destruct (skip_forward (length known) known upto) as [known' upto'] eqn:Hskip.
  apply skip_forward_spec in Hskip as (Hlt & Hsub & Hwalk).
  assert (Hkn : ∀ k, k ∈ known → k ≤ seq s ∧ (k ∈ dom (alloc s) → k ∈ over s)).
  { intros k [->|Hin]%elem_of_cons; [done|by apply L6]. }
  constructor; simpl; try done.
  - destruct (Z.le_gt_cases upto' upto) as [?|Hgt]; [unfold upto in *; lia|]. by apply Hkn, Hwalk.
  - intros id Hid Hidle. destruct (Z.le_gt_cases id upto) as [Hu|Hu]; [|by apply Hkn, Hid; apply Hwalk].
    unfold upto in Hu. destruct (Z.le_gt_cases id (min_position g)); [by apply Hmin|]. apply L5; [done|lia].
  - intros k ?%Hsub. by apply Hkn.
Qed.

Lemma loading_row g w p : loading g → (w, p) ∈ rows → loading (load_row g (w, p)).
Proof.
  intros Hl Hin. destruct (r_rows _ _ _ _ _ _ Hok w p Hin) as [Hp Hov].
  unfold load_row. cbn [fst snd]. rewrite (l_factor _ Hl).
  pose proof (loading_add g (factor * p) Hl ltac:(lia) Hov) as Hl'. case_bool_decide as Hw; [|done].
  rewrite (l_name _ Hl') in Hw. destruct Hl' as [L1 L2 L3 L4 L5 L6 L7 L8 L9]. constructor; simpl; try done.
  - intros w' p' [[<- <-]|[_ ?]]%lookup_insert_Some; [|by apply L7]. split; [lia|]. split_and!; [lia| |done].
    intros id Hid _. apply (r_idle _ _ _ _ _ _ Hok). by rewrite <- Hw.
  - intros w' Hw'. apply lookup_insert_is_Some'. right. by apply L8.
Qed.

Lemma loading_rows g l : loading g → (∀ r, r ∈ l → r ∈ rows) → loading (foldl load_row g l).
Proof.
  revert g. induction l as [|[w p] l IH]; intros g Hl Hin; [done|]. simpl. apply IH; [|intros; apply Hin; by right].
  apply loading_row; [done|]. apply Hin. by left.
Qed.

Lemma setdefault_nothing (positions : gmap string Z) v :
  (∀ w, w ∈ writers → is_Some (positions !! w)) →
  foldl (λ positions writer,
    match positions !! writer with Some _ => positions | None => <[writer := v]> positions end) positions writers = positions.
Proof.
  clear Hok. induction writers as [|w ws IH]; intros Hw; [done|]. simpl. destruct (Hw w) as [p ->]; [by left|].
  apply IH. intros w' ?. apply Hw. by right.
Qed.

Lemma loaded_ok : loading (_load_current_ids stream_positions max_ids rows (blank instance_name writers positive)).
Proof.
  unfold _load_current_ids. rewrite bool_decide_false by apply Hok.
  set (l := (λ r : string * Z, (r.1, r.2 * _return_factor _)) <$> _). set (g1 := set_positions _ (list_to_map l) _).
  assert (Hpos : ∀ w p, _current_positions g1 !! w = Some p → 0 < p ∧ may_announce s w p).
  { intros w p Hp. simpl in Hp. apply elem_of_list_to_map_2, list_elem_of_fmap in Hp as ([w' p'] & [= -> ->] & Hin).
    apply elem_of_reverse, list_elem_of_filter in Hin as [Hw Hin]. by apply (r_positions _ _ _ _ _ _ Hok). }
  assert (Hwr : ∀ w, w ∈ writers → is_Some (_current_positions g1 !! w)).
  { intros w Hw. destruct (r_stored _ _ _ _ _ _ Hok w Hw) as [p Hp]. simpl.
    destruct (list_to_map (M := gmap string Z) l !! w) as [q|] eqn:Hn; [by eexists|]. exfalso.
    apply not_elem_of_list_to_map in Hn. apply Hn. unfold l. rewrite <- list_fmap_compose. apply list_elem_of_fmap.
    exists (w, p). split; [done|]. apply elem_of_reverse, list_elem_of_filter. done. }
  destruct (min_of (map_to_list (_current_positions g1)).*2) as [m|] eqn:Hm.
  2: { apply min_of_none, fmap_nil_inv, map_to_list_empty_iff in Hm. exfalso.
       destruct writers as [|w ws] eqn:Hws; [by destruct (r_writers _ _ _ _ _ _ Hok)|].
       destruct (Hwr w ltac:(by left)) as [p Hp]. rewrite Hm in Hp. by rewrite lookup_empty in Hp. }
  apply min_of_spec in Hm as [Hm Hmin].
  assert (Hg : loading (set_positions g1 (_current_positions g1) m)).
  { constructor; simpl; try done.
    - apply list_elem_of_fmap in Hm as ([w p] & -> & Hp%elem_of_map_to_list). by destruct (Hpos w p Hp) as [_ [? _]].
    - intros id [w Hid]%elem_of_dom Hle. destruct (r_alloc _ _ _ _ _ _ Hok id w Hid) as [_ Hw].
      destruct (Hwr w Hw) as [p Hp]. destruct (Hpos w p Hp) as [_ (_ & Hann & _)]. apply Hann; [done|].
      assert (Hin : p ∈ (map_to_list (_current_positions g1)).*2) by (apply list_elem_of_fmap; exists (w, p); split; [done|by apply elem_of_map_to_list]).
      specialize (Hmin p Hin). lia.
    - by intros k ?%not_elem_of_nil. }
  assert (Hperm : ∀ r, r ∈ merge_sort row_le rows → r ∈ rows) by (intros r; by rewrite merge_sort_Permutation).
  pose proof (loading_rows _ _ Hg Hperm) as Hg2. destruct Hg2 as [L1 L2 L3 L4 L5 L6 L7 L8 L9].
  rewrite L9, setdefault_nothing by done. by constructor.
Qed.

Lemma restart_safe : 0 < seq s → safe (restart instance_name writers positive stream_positions max_ids rows s).
Proof.
  intros Hseq. unfold restart, new_MultiWriterIdGenerator. pose proof loaded_ok as Hl.
  set (g := _load_current_ids _ _ _ _) in *. clearbody g. rewrite bool_decide_false by apply Hok.
  destruct Hl as [L1 L2 (L3 & L4 & L5') L4' L5 L6 L7 L8 L9].
  set (mx := Z.max _ (_persisted_upto_position g)).
  assert (Hmx : mx ≤ seq s ∧ (mx ∈ dom (alloc s) → mx ∈ over s) ∧ ∀ w p, _current_positions g !! w = Some p → p ≤ mx).
  { unfold mx. destruct (max_of (map_to_list (_current_positions g)).*2) as [m|] eqn:Em; simpl.
    - apply max_of_spec in Em as [([w p] & -> & Hp%elem_of_map_to_list)%list_elem_of_fmap Hmax]. simpl in *.
      destruct (L7 w p Hp) as [_ (Hle & _ & Hov)]. split_and!; [lia| |].
      + destruct (Z.max_spec p (_persisted_upto_position g)) as [[_ ->]|[_ ->]]; [intros Hd; apply L5; [done|lia]|done].
      + intros w' p' Hp'. assert (Hin : p' ∈ (map_to_list (_current_positions g)).*2) by (apply list_elem_of_fmap; exists (w', p'); split; [done|by apply elem_of_map_to_list]).
        specialize (Hmax p' Hin). lia.
    - exfalso. destruct writers as [|w ws] eqn:Hws; [by destruct (r_writers _ _ _ _ _ _ Hok)|].
      destruct (L8 w ltac:(by left)) as [p Hp]. apply max_of_none in Em. apply fmap_nil_inv, map_to_list_empty_iff in Em. rewrite Em in Hp. by rewrite lookup_empty in Hp. }
  destruct Hmx as (Hmx1 & Hmx2 & Hmx3). clearbody mx. split; split; simpl; unfold us; simpl; rewrite ?L3, ?L4, ?L5', ?(r_fetches _ _ _ _ _ _ Hok); try done.
  - intros id [w Hid]%elem_of_dom. apply (r_alloc _ _ _ _ _ _ Hok id w Hid).
  - intros w p Hp. by destruct (L7 w p Hp) as [_ [? _]].
  - intros k Hk. by apply L6.
  - intros k Hk. by apply L6.
  - intros w p id Hp Hid Hle. destruct (L7 w p Hp) as [_ (_ & Hann & _)]. by apply Hann.
  - intros id w Hid _. apply L8. by apply (r_alloc _ _ _ _ _ _ Hok id w Hid).
  - intros p Hp. by destruct (L7 _ p Hp) as [? _].
  - split_and!; simpl; [done|intros id Hid _; by apply (r_idle _ _ _ _ _ _ Hok)|done].
  - intros w Hid. right. apply Hmx2. by eapply elem_of_dom_2.
  - unfold our_position. simpl. destruct (_current_positions g !! instance_name) as [p|] eqn:Hp; simpl; [by eapply Hmx3|].
    destruct writers as [|w ws] eqn:Hws; [by destruct (r_writers _ _ _ _ _ _ Hok)|].
    destruct (L8 w ltac:(by left)) as [p Hp']. destruct (L7 _ _ Hp') as [? _]. specialize (Hmx3 _ _ Hp'). lia.
  - unfold check_writer. simpl. intros Hcw%raise_if_ok. apply L8.
    rewrite bool_decide_false in Hcw by apply Hok. simpl in Hcw. by apply negb_false_iff, bool_decide_eq_true in Hcw.
  - intros id Hid Ho. destruct Ho. by apply (r_idle _ _ _ _ _ _ Hok).
  - by intros f ?%not_elem_of_nil.
  - by intros c ids id ?%not_elem_of_nil.
Qed.
End loading.

(** How a generator starts: on an empty database, or on one in which every listed writer has
    a position. *)
Inductive initial : sys → Prop :=
| initial_empty (instance_name : string) (writers : list string) (positive : bool) : initial (start instance_name writers positive)
| initial_restart (instance_name : string) (writers : list string) (positive : bool)
    (stream_positions : list (string * Z)) (max_ids : list Z) (rows : list (string * Z)) (s : sys) :
    restart_ok instance_name writers (if positive then 1 else -1) stream_positions rows s → 0 < seq s →
    initial (restart instance_name writers positive stream_positions max_ids rows s).

Lemma initial_safe s : initial s → safe s.
Proof. intros [name ws positive|name ws positive sp ids rows s0 Hok Hseq]; [apply start_safe|by apply restart_safe]. Qed.

(** ** Properties *)

(** C19: the current token of a multi-writer stream is safe, from a start on an empty database
    or on one where every listed writer has a stored position that it could announce, the rows
    read are of finished transactions and this instance has no open transaction ([initial]; a
    listed writer without a stored position may be passed: [unlisted_position_passed]).
    Whatever the interleaving of allocations, commits, announcements of other writers and the
    generator's own critical sections, every id at or before [_persisted_upto_position] belongs
    to a transaction that is over, the position of each instance is before its open
    transactions, and what this instance may announce to the others meets the contract it
    relies on them to meet. *)
Theorem current_token_safe s0 s :
  initial s0 → rtc step s0 s →
  (∀ id, id ∈ dom (alloc s) → id ≤ _persisted_upto_position (gen s) → id ∈ over s) ∧
  (∀ w p id, _current_positions (gen s) !! w = Some p → alloc s !! id = Some w →
     id ∉ over s → p < id) ∧
  may_announce s (us s) (_max_position_of_local_instance (gen s)).
Proof.
  intros H0%initial_safe Hr. assert (Hs : safe s).
  { induction Hr as [|s1 s2 s3 Hstep _ IH]; [done|]. apply IH. by eapply step_safe. }
  destruct Hs as [Hb Ht Hk]. split_and!.
  - apply (t_upto s Ht).
  - intros w p id Hp Hid Ho. destruct (Z.le_gt_cases id p) as [Hle|]; [|done].
    by destruct Ho; eapply (t_positions s Ht).
  - apply (t_local s Ht).
Qed.

(** A listed writer that has no row in [stream_positions] is given the persisted position: with
    an id 4 of its own still open, the current token is 5. *)
Example unlisted_position_passed :
  let g := new_MultiWriterIdGenerator "us" ["us"; "other"] true [("us", 5)] [] [("us", 5)] in
  get_current_token g = 5 ∧ _current_positions g !! "other" = Some 5.
Proof. vm_compute. split; reflexivity. Qed.

(** A restart: this instance stored 5 and has a later row 6, the other stored 3 and writes 7. *)
Definition ex_restart_world : sys :=
  MkSys (blank "us" ["us"; "other"] true) 7 (give_ids "other" [7] (give_ids "us" [5; 6] ∅)) {[5; 6]} [].

Lemma ex_restart_ok : restart_ok "us" ["us"; "other"] 1 [("us", 5); ("other", 3)] [("us", 6); ("us", 5)] ex_restart_world.
Proof.
  assert (Ha : ∀ id w, alloc ex_restart_world !! id = Some w → id = 7 ∧ w = "other" ∨ (id = 5 ∨ id = 6) ∧ w = "us").
  { intros id w. simpl. rewrite lookup_give_ids. intros [[->%list_elem_of_singleton ->]|[_ Hid]]; [by left|right].
    apply lookup_give_ids in Hid as [[Hin ->]|[_ Hn]]; [split; [set_solver|done]|by rewrite lookup_empty in Hn]. }
  split.
  - done.
  - intros w. rewrite !elem_of_cons. intros [-> |[-> |?%not_elem_of_nil]]; [exists 5; by left|exists 3; by right; left|done].
  - intros w p. rewrite !elem_of_cons. intros [[= -> ->]|[[= -> ->]|?%not_elem_of_nil]] _; [| |done].
    + split; [lia|]. split_and!; [simpl; lia|intros id [[-> [=]]|[[-> | ->] _]]%Ha ?; [simpl; set_solver|lia]|intros _; simpl; set_solver].
    + split; [lia|]. split_and!; [simpl; lia|intros id [[-> _]|[_ [=]]]%Ha ?; lia|].
      intros [w Hw]%elem_of_dom. apply Ha in Hw. lia.
  - intros w p. rewrite !elem_of_cons. intros [[= -> ->]|[[= -> ->]|?%not_elem_of_nil]]; [| |done]; (split; [simpl; lia|intros _; simpl; set_solver]).
  - intros id w Hw%Ha. simpl. split; [lia|]. destruct Hw as [[_ ->]|[_ ->]]; set_solver.
  - intros id [[_ [=]]|[[-> | ->] _]]%Ha; simpl; set_solver.
  - done.
Qed.

Definition ex_restarted : sys :=
  restart "us" ["us"; "other"] true [("us", 5); ("other", 3)] [] [("us", 6); ("us", 5)] ex_restart_world.

Example ex_restart_position : _persisted_upto_position (gen ex_restarted) = 3.
Proof. vm_compute. reflexivity. Qed.

(** Two writers: ours asks for an id and gets 2, the other one gets 3, finishes and
    announces it, while ours is still writing. *)
Definition two_writers : list string := ["us"; "other"].

Definition ex_g1 : MultiWriterIdGenerator := (begin_fetch (gen (start "us" two_writers true))).2.
Definition ex_g2 : MultiWriterIdGenerator := unwrap ex_g1 (record_fetch [2] ex_g1).
Definition ex_g3 : MultiWriterIdGenerator := unwrap ex_g2 (end_fetch 1 ex_g2).

Definition ex_before : sys :=
  MkSys ex_g3 3 (give_ids "other" [3] (give_ids "us" [2] ∅)) {[3]} [].
Definition example_steps : sys := set_gen ex_before (advance "other" 3 ex_g3).

Lemma current_token_safe_witness :
  may_announce ex_restarted "us" (_max_position_of_local_instance (gen ex_restarted)) ∧
  get_current_token (gen example_steps) = 1 ∧
  get_current_token_for_writer "other" (gen example_steps) = 3 ∧
  (∀ id, id ∈ dom (alloc example_steps) →
     id ≤ _persisted_upto_position (gen example_steps) → id ∈ over example_steps).
Proof.
  split.
  { refine (proj2 (proj2 (current_token_safe ex_restarted ex_restarted _ _))); [|apply rtc_refl].
    apply (initial_restart "us" ["us"; "other"] true); [exact ex_restart_ok|vm_compute; reflexivity]. }
  split; [by vm_compute|]. split; [by vm_compute|].
  apply (current_token_safe (start "us" two_writers true) example_steps (initial_empty "us" two_writers true)).
  apply (rtc_l _ _ (MkSys ex_g1 1 ∅ ∅ [Requested 1])); [by apply (step_begin (start "us" two_writers true))|].
  apply (rtc_l _ _ (MkSys ex_g1 2 (give_ids "us" [2] ∅) ∅ [Allocated 1 [2]])).
  { apply (step_allocate (MkSys ex_g1 1 ∅ ∅ [Requested 1]) [] 1 [] [2] 2); [done..|].
    intros id ->%list_elem_of_singleton. simpl. lia. }
  apply (rtc_l _ _ (MkSys ex_g2 2 (give_ids "us" [2] ∅) ∅ [Recorded 1])).
  { apply (step_record (MkSys ex_g1 2 (give_ids "us" [2] ∅) ∅ [Allocated 1 [2]]) [] 1 [2] []);
      [done|]. apply unwrap_ok. by vm_compute. }
  apply (rtc_l _ _ (MkSys ex_g3 2 (give_ids "us" [2] ∅) ∅ [])).
  { apply (step_end (MkSys ex_g2 2 (give_ids "us" [2] ∅) ∅ [Recorded 1]) [] (Recorded 1) []);
      [done|]. apply unwrap_ok. by vm_compute. }
  apply (rtc_l _ _ (MkSys ex_g3 3 (give_ids "other" [3] (give_ids "us" [2] ∅)) ∅ [])).
  { apply (step_remote_allocate (MkSys ex_g3 2 (give_ids "us" [2] ∅) ∅ []) "other" 3);
      [by vm_compute|vm_compute; eauto|simpl; lia]. }
  apply (rtc_l _ _ ex_before).
  { unfold ex_before. rewrite <- (right_id_L ∅ (∪) {[3]}).
    apply (step_over (MkSys ex_g3 3 (give_ids "other" [3] (give_ids "us" [2] ∅)) ∅ []) 3).
    by vm_compute. }
  apply rtc_once.
  apply (step_advance ex_before "other" 3); [by vm_compute|].
  split_and!; [by vm_compute| |set_solver].
  intros id Hid _. apply lookup_give_ids in Hid as [[->%list_elem_of_singleton _]|[_ Hid]]; [set_solver|].
  by apply lookup_give_ids in Hid as [[_ ?]|[_ Hid]].
Defined.
(** ** The rows read at start-up *)

Lemma add_persisted_frame id g :
  _instance_name (_add_persisted_position id g) = _instance_name g ∧
  _writers (_add_persisted_position id g) = _writers g ∧
  _positive (_add_persisted_position id g) = _positive g ∧
  _current_positions (_add_persisted_position id g) = _current_positions g.
Proof. unfold _add_persisted_position. by destruct (skip_forward _ _ _). Qed.

Lemma load_row_frame g row :
  _instance_name (load_row g row) = _instance_name g ∧
  _writers (load_row g row) = _writers g ∧ _positive (load_row g row) = _positive g.
Proof.
  unfold load_row.
  destruct (add_persisted_frame (_return_factor g * row.2) g) as (E1 & E2 & E3 & _).
  by case_bool_decide.
Qed.

Lemma load_row_position g row :
  _current_positions (load_row g row) !! _instance_name g =
  if bool_decide (row.1 = _instance_name g) then Some (_return_factor g * row.2)
  else _current_positions g !! _instance_name g.
Proof.
  unfold load_row.
  destruct (add_persisted_frame (_return_factor g * row.2) g) as (E1 & _ & _ & E4).
  rewrite E1. case_bool_decide as Hr; simpl; [|by rewrite E4]. by rewrite Hr, lookup_insert_eq.
Qed.

(** The last row of this instance decides its position. *)
Lemma load_rows_position rows g :
  let g' := foldl load_row g rows in
  _instance_name g' = _instance_name g ∧ _writers g' = _writers g ∧ _positive g' = _positive g ∧
  _current_positions g' !! _instance_name g =
  match last (filter (λ r, r.1 = _instance_name g) rows) with
  | Some row => Some (_return_factor g * row.2)
  | None => _current_positions g !! _instance_name g
  end.
Proof.
  induction rows as [|row rows IH] using rev_ind; simpl; [done|].
  rewrite foldl_snoc. destruct IH as (E1 & E2 & E3 & E4).
  destruct (load_row_frame (foldl load_row g rows) row) as (F1 & F2 & F3).
  pose proof (load_row_position (foldl load_row g rows) row) as F4.
  split_and!; [congruence..|]. rewrite E1 in F4. rewrite F4.
  assert (Hf : _return_factor (foldl load_row g rows) = _return_factor g)
    by (unfold _return_factor; by rewrite E3).
  rewrite filter_app, filter_cons, filter_nil. case_bool_decide as Hr.
  - rewrite decide_True by done. by rewrite last_snoc, Hf.
  - rewrite decide_False by done. by rewrite app_nil_r.
Qed.

(** The last row of an ascending list has the greatest id. *)
Lemma last_sorted_max rows row :
  StronglySorted row_le rows → last rows = Some row → ∀ r, r ∈ rows → r.2 ≤ row.2.
Proof.
  intros Hs (l & ->)%last_Some r [Hr| ->%list_elem_of_singleton]%elem_of_app; [|done].
  by apply (StronglySorted_app_1_elem_of row_le l [row] r row); [..|left].
Qed.

Lemma row_le_total : Total row_le.
Proof. intros a b. unfold row_le. lia. Qed.
Lemma row_le_trans : Transitive row_le.
Proof. intros a b c. unfold row_le. lia. Qed.

Lemma last_own_row us rows :
  (∃ row, row ∈ rows ∧ row.1 = us) →
  ∃ row, last (filter (λ r : string * Z, r.1 = us) (merge_sort row_le rows)) = Some row ∧
    row ∈ rows ∧ row.1 = us ∧ ∀ r, r ∈ rows → r.1 = us → r.2 ≤ row.2.
Proof.
  intros (row0 & Hin0 & Hus0).
  pose proof (merge_sort_Permutation row_le rows) as Hperm.
  assert (Hs : StronglySorted row_le (merge_sort row_le rows)).
  { apply StronglySorted_merge_sort; [apply row_le_trans|apply row_le_total]. }
  destruct (last (filter (λ r, r.1 = us) (merge_sort row_le rows))) as [row|] eqn:Hl.
  - exists row. split; [done|].
    assert (Hrow : row ∈ filter (λ r, r.1 = us) (merge_sort row_le rows))
      by (by apply last_Some_elem_of).
    apply list_elem_of_filter in Hrow as [Hrow1 Hrow2]. rewrite Hperm in Hrow2.
    split_and!; [done..|]. intros r Hr Hr1.
    eapply last_sorted_max; [|exact Hl|].
    + by apply (sublist_sorted row_le (merge_sort row_le rows)); [apply sublist_filter|].
    + apply list_elem_of_filter. split; [done|]. by rewrite Hperm.
  - apply last_None in Hl. exfalso. eapply not_elem_of_nil with (x := row0). rewrite <- Hl.
    apply list_elem_of_filter. split; [done|]. by rewrite Hperm.
Qed.

Lemma setdefault_keeps (positions : gmap string Z) writers v w p :
  positions !! w = Some p →
  foldl (λ (positions : gmap string Z) writer,
      match positions !! writer with
      | Some _ => positions
      | None => <[writer := v]> positions
      end) positions writers !! w = Some p.
Proof.
  revert positions. induction writers as [|x writers IH]; intros positions Hp; simpl; [done|].
  apply IH. destruct (positions !! x) eqn:Hx; [done|].
  destruct (decide (w = x)) as [->|]; [congruence|]. by rewrite lookup_insert_ne.
Qed.

(** What start-up makes of rows this instance wrote after its stored position: its
    position becomes that of the row with the greatest raw stream id.  On a positive
    stream that is beyond all its rows; on a negative stream, whose ids fall, it is
    before all of them, so the last rows are not accounted for. *)
Theorem loaded_own_position g stream_positions max_ids rows :
  _writers g ≠ [] →
  (∃ r, r ∈ stream_positions ∧ r.1 ∈ _writers g) →
  (∃ row, row ∈ rows ∧ row.1 = _instance_name g) →
  ∃ row, row ∈ rows ∧ row.1 = _instance_name g ∧
    _current_positions (_load_current_ids stream_positions max_ids rows g) !! _instance_name g =
      Some (_return_factor g * row.2) ∧
    ∀ r, r ∈ rows → r.1 = _instance_name g →
      if _positive g then _return_factor g * r.2 ≤ _return_factor g * row.2
      else _return_factor g * row.2 ≤ _return_factor g * r.2.
Proof.
  intros Hw (r0 & Hr0 & Hr0w) Hrows.
  destruct (last_own_row (_instance_name g) rows Hrows) as (row & Hlast & Hin & Hus & Hmax).
  exists row. split_and!; [done..| |].
  2:{ intros r Hr Hrus. specialize (Hmax r Hr Hrus). unfold _return_factor.
      destruct (_positive g); lia. }
  unfold _load_current_ids. rewrite bool_decide_false by done.
  set (g1 := set_positions g _ _).
  destruct (min_of (map_to_list (_current_positions g1)).*2) as [m|] eqn:Hm.
  - destruct (load_rows_position (merge_sort row_le rows)
      (set_positions g1 (_current_positions g1) m)) as (_ & _ & _ & E).
    apply setdefault_keeps. etrans; [exact E|]. simpl. by rewrite Hlast.
  - exfalso. apply min_of_none, fmap_nil_inv, map_to_list_empty_iff in Hm.
    subst g1. simpl in Hm. set (l := (_ <$> _) : list (string * Z)) in Hm.
    assert (Hk : r0.1 ∈ l.*1).
    { subst l. rewrite <- list_fmap_compose. apply list_elem_of_fmap. exists r0. split; [done|].
      apply elem_of_reverse, list_elem_of_filter. done. }
    apply list_elem_of_fmap in Hk as ([k v] & Hk1 & Hk).
    assert (Hn : (list_to_map l : gmap string Z) !! k = None) by (by rewrite Hm, lookup_empty).
    apply not_elem_of_list_to_map in Hn. apply Hn. apply list_elem_of_fmap. by exists (k, v).
Qed.

(** A negative stream whose stored position is behind its rows: of ids -1, -2 and -3
    the position stays at the first. *)
Lemma loaded_own_position_witness :
  _current_positions (_load_current_ids [("us", -1)] [] [("us", -1); ("us", -3); ("us", -2)]
    (blank "us" ["us"] false)) !! "us" = Some 1 ∧
  ∃ row, row ∈ [("us", -1); ("us", -3); ("us", -2)] ∧ row.1 = "us" ∧
    _current_positions (_load_current_ids [("us", -1)] [] [("us", -1); ("us", -3); ("us", -2)]
      (blank "us" ["us"] false)) !! "us" = Some (-1 * row.2) ∧
    ∀ r, r ∈ [("us", -1); ("us", -3); ("us", -2)] → r.1 = "us" → -1 * row.2 ≤ -1 * r.2.
Proof.
  split; [by vm_compute|].
  apply (loaded_own_position (blank "us" ["us"] false) [("us", -1)] []
    [("us", -1); ("us", -3); ("us", -2)]).
  - done.
  - exists ("us", -1). split; by left.
  - exists ("us", -1). split; [by left|done].
Defined.
End MultiProps.

(** ** The single-writer generator *)

Module SingleProps.
Import Single.

(** A writer's generator after any calls: the ids of a [finish] are those a [get_next]
    or [get_next_mult] gave out. *)
Inductive reachable : StreamIdGenerator → Prop :=
| reachable_new val extra step g :
    new_StreamIdGenerator val extra step true = Ok g → reachable g
| reachable_next g : reachable g → reachable (get_next g).2
| reachable_mult g n : reachable g → reachable (get_next_mult n g).2
| reachable_finish g ids g' : reachable g → finish ids g = Ok g' → reachable g'.

(** The ids grow in the direction of the step, and none is beyond the current one. *)
Record ordered (g : StreamIdGenerator) : Prop := {
  o_step : 0 < _step g * _step g;
  o_writer : _is_writer g = true;
  o_sorted : StronglySorted (λ a b, _step g * a < _step g * b) (_unfinished_ids g);
  o_current : ∀ id, id ∈ _unfinished_ids g → _step g * id ≤ _step g * _current g
}.

(** Adding an id beyond all the others. *)
Lemma add_unfinished_sorted step id l :
  StronglySorted (λ a b, step * a < step * b) l → (∀ x, x ∈ l → step * x < step * id) →
  add_unfinished id l = l ++ [id] ∧
  StronglySorted (λ a b, step * a < step * b) (l ++ [id]).
Proof.
  intros Hs Hlt. unfold add_unfinished. rewrite bool_decide_false.
  - split; [done|]. apply StronglySorted_app_2; [|done|repeat constructor].
    intros x y Hx ->%list_elem_of_singleton. by apply Hlt.
  - intros Hin%Hlt. lia.
Qed.

Lemma add_next_ordered g :
  ordered g →
  ordered (MkSingle (_step g) (_current g + _step g) (_is_writer g)
             (add_unfinished (_current g + _step g) (_unfinished_ids g))).
Proof.
  intros [Hst Hw Hs Hc].
  destruct (add_unfinished_sorted (_step g) (_current g + _step g) (_unfinished_ids g) Hs) as [He Hs'].
  { intros x Hx%Hc. lia. }
  rewrite He. split; simpl; [done..|].
  intros id [Hin%Hc| ->%list_elem_of_singleton]%elem_of_app; lia.
Qed.

(** [get_next_mult] is [n] times the allocation of [get_next]. *)
Lemma get_next_mult_iter n g :
  (get_next_mult n g).2 = Nat.iter n (λ g, (get_next g).2) g.
Proof.
  induction n as [|n IH].
  { unfold get_next_mult. simpl. destruct g. simpl. f_equal. lia. }
  rewrite Nat.iter_succ, <- IH. unfold get_next_mult, get_next, range_ids.
  rewrite seq_S, fmap_app, foldl_app. cbn -[seq Z.mul Z.of_nat].
  replace (_current g + Z.of_nat (S n) * _step g)
    with (_current g + Z.of_nat n * _step g + _step g) by lia.
  f_equal. f_equal. lia.
Qed.

Lemma pop_unfinished_sub id l l' :
  pop_unfinished id l = Ok l' → l' `sublist_of` l.
Proof.
  revert l'. induction l as [|x l IH]; intros l'; simpl; [done|].
  case_bool_decide; [intros [= <-]; by apply sublist_cons|].
  intros (l1 & Hl1%IH & [= <-])%bind_ok. by apply sublist_skip.
Qed.

Lemma finish_sub ids g g' :
  finish ids g = Ok g' →
  _step g' = _step g ∧ _current g' = _current g ∧ _is_writer g' = _is_writer g ∧
  _unfinished_ids g' `sublist_of` _unfinished_ids g.
Proof.
  unfold finish. intros (l & Hl & [= <-])%bind_ok. simpl. split_and!; try done.
  revert Hl. generalize (_unfinished_ids g). induction ids as [|id ids IH]; intros l0; simpl.
  - by intros [= ->].
  - intros (l1 & Hl1%pop_unfinished_sub & Hl)%bind_ok. trans l1; [by apply IH|done].
Qed.

Lemma finish_ordered ids g g' : ordered g → finish ids g = Ok g' → ordered g'.
Proof.
  intros [Hst Hw Hs Hc] (E1 & E2 & E3 & Hsub)%finish_sub. rewrite <- E1 in *.
  split; [done|congruence|by eapply sublist_sorted|].
  intros id Hid. rewrite E2. apply Hc. by eapply elem_of_sublist.
Qed.

Lemma reachable_ordered g : reachable g → ordered g.
Proof.
  induction 1 as [val extra step g Hg|g _ IH|g n _ IH|g ids g' _ IH Hf].
  - unfold new_StreamIdGenerator in Hg. case_bool_decide as Hz; [done|]. injection Hg as <-.
    split; simpl; [nia|done|constructor|]. by intros id ?%not_elem_of_nil.
  - by apply add_next_ordered.
  - rewrite get_next_mult_iter. induction n as [|n IHn]; simpl; [done|]. by apply add_next_ordered.
  - by eapply finish_ordered.
Qed.

Lemma token_step g :
  ordered g →
  (∀ id, id ∈ _unfinished_ids g → _step g * get_current_token g < _step g * id) ∧
  _step g * get_current_token g ≤ _step g * _current g.
Proof.
  intros [Hst Hw Hs Hc]. unfold get_current_token. rewrite Hw.
  destruct (_unfinished_ids g) as [|id0 l]; [split; [by intros id ?%not_elem_of_nil|lia]|].
  apply StronglySorted_inv in Hs as [_ Hall]. rewrite Forall_forall in Hall.
  specialize (Hc id0 ltac:(by left)) as Hc0. split; [|lia].
  intros id [->|Hin]%elem_of_cons; [lia|]. specialize (Hall id Hin). lia.
Qed.

(** The single-writer stream's token is safe and only moves forward: it is before
    every unfinished id, it is the last id when none is unfinished, the next id is
    after it and after everything given out, and neither allocating nor finishing ids,
    in whatever order, moves it back. *)
Theorem single_token_safe g :
  reachable g →
  (∀ id, id ∈ _unfinished_ids g → _step g * get_current_token g < _step g * id) ∧
  (_unfinished_ids g = [] → get_current_token g = _current g) ∧
  _step g * _current g < _step g * (get_next g).1 ∧
  (∀ g', (∃ n, g' = (get_next_mult n g).2) ∨ g' = (get_next g).2 ∨
         (∃ ids, finish ids g = Ok g') →
     _step g * get_current_token g ≤ _step g * get_current_token g').
Proof.
  intros Ho%reachable_ordered. destruct (token_step g Ho) as [Htok Hcur].
  pose proof (o_writer g Ho) as Hw. pose proof (o_step g Ho) as Hst.
  assert (Hnext : ∀ g, ordered g →
    _step g * get_current_token g ≤ _step g * get_current_token (get_next g).2).
  { clear. intros g [Hst Hw Hs Hc]. unfold get_next, get_current_token. simpl. rewrite Hw.
    destruct (add_unfinished_sorted (_step g) (_current g + _step g) (_unfinished_ids g) Hs) as [-> _].
    { intros x Hx%Hc. lia. }
    destruct (_unfinished_ids g); simpl; lia. }
  split_and!; [done| |simpl; lia|].
  - intros Hn. unfold get_current_token. by rewrite Hw, Hn.
  - intros g' [[n ->]|[->|[ids Hf]]]; [|by apply Hnext|].
    + rewrite get_next_mult_iter.
      assert (Hi : ordered (Nat.iter n (λ g, (get_next g).2) g) ∧
        _step (Nat.iter n (λ g, (get_next g).2) g) = _step g ∧
        _step g * get_current_token g ≤
        _step g * get_current_token (Nat.iter n (λ g, (get_next g).2) g)); [|apply Hi].
      induction n as [|n (IHo & IHs & IHt)]; [done|]. rewrite Nat.iter_succ. split_and!.
      * by apply add_next_ordered.
      * done.
      * specialize (Hnext _ IHo). rewrite IHs in Hnext. by etrans.
    + pose proof (finish_ordered _ _ _ Ho Hf) as Ho'. apply finish_sub in Hf as (E1 & E2 & E3 & Hsub).
      unfold get_current_token at 2. rewrite E3, Hw, E1, E2.
      destruct (_unfinished_ids g') as [|id l]; [done|].
      assert (Hin : id ∈ _unfinished_ids g) by (eapply elem_of_sublist; [by left|done]).
      unfold get_current_token. rewrite Hw. destruct Ho as [_ _ Hs _].
      destruct (_unfinished_ids g) as [|id0 l0]; [by apply not_elem_of_nil in Hin|].
      apply StronglySorted_inv in Hs as [_ Hall]. rewrite Forall_forall in Hall.
      apply elem_of_cons in Hin as [->|Hin]; [lia|]. specialize (Hall id Hin). lia.
Qed.

Definition ex_single : StreamIdGenerator :=
  let g := unwrap (MkSingle 1 0 true []) (new_StreamIdGenerator (Some 5) [] 1 true) in
  let g := (get_next_mult 3 g).2 in
  unwrap g (finish [6; 8] g).

Lemma single_token_safe_witness :
  get_current_token ex_single = 6 ∧
  (∀ id, id ∈ _unfinished_ids ex_single →
     _step ex_single * get_current_token ex_single < _step ex_single * id).
Proof.
  split; [by vm_compute|].
  apply (single_token_safe ex_single).
  set (g := unwrap (MkSingle 1 0 true []) (new_StreamIdGenerator (Some 5) [] 1 true)).
  apply (reachable_finish (get_next_mult 3 g).2 [6; 8]).
  - apply reachable_mult. apply (reachable_new (Some 5) [] 1). by vm_compute.
  - by vm_compute.
Defined.
End SingleProps.
