(* ===== verification/StrLemmas.v ===== *)
(** * Printing, parsing and splitting of strings

    [int(str(z))] is [z], and [s.split(c)] undoes [c.join(...)] of parts without [c]. *)

From S2P Require Import Prelude PyVal.

(** ** Characters *)

Fixpoint str_all (p : ascii → bool) (s : string) : bool :=
  match s with
  | "" => true
  | String c s => p c && str_all p s
  end.

Definition is_digit (c : ascii) : bool := bool_decide (is_Some (digit_val c)).

(** A character of a printed integer. *)
Definition int_char (c : ascii) : bool := bool_decide (c = "-"%char) || is_digit c.

Lemma str_all_app p s t : str_all p (s +:+ t) = str_all p s && str_all p t.
Proof. induction s as [|a s IH]; [done|]. rewrite str_app_cons. simpl. by rewrite IH, andb_assoc. Qed.

Lemma str_all_impl p q s :
  (∀ c, p c = true → q c = true) → str_all p s = true → str_all q s = true.
Proof.
  intros Hpq. induction s as [|a s IH]; simpl; [done|]. rewrite !andb_true_iff. naive_solver.
Qed.

Lemma str_find_all p c s : p c = false → str_all p s = true → str_find c s = None.
Proof.
  intros Hc. induction s as [|a s IH]; simpl; [done|]. intros [Ha Hs]%andb_true_iff.
  case_decide; [congruence|]. by rewrite IH.
Qed.

(** A boolean property of all 256 characters is decided by trying them. *)
Lemma ascii_forall (p : ascii → bool) :
  forallb (λ n, p (ascii_of_nat n)) (seq 0 256) = true → ∀ c, p c = true.
Proof.
  intros Hall c. rewrite forallb_forall in Hall. rewrite <- (ascii_nat_embedding c).
  apply Hall. apply in_seq. pose proof (nat_ascii_bounded c). lia.
Qed.

Lemma int_char_not_space c : int_char c = true → is_space c = false.
Proof.
  intros Hc. pose proof (ascii_forall (λ c, negb (int_char c) || negb (is_space c))) as Hall.
  specialize (Hall ltac:(by vm_compute) c). simpl in Hall. rewrite Hc in Hall.
  by destruct (is_space c).
Qed.

(** ** [str(z)] and [int(s)] *)

Lemma lstrip_id s : str_all int_char s = true → lstrip s = s.
Proof.
  destruct s as [|c s]; simpl; [done|]. intros [Hc _]%andb_true_iff.
  by rewrite int_char_not_space.
Qed.

Lemma rstrip_id s : str_all int_char s = true → rstrip s = s.
Proof.
  induction s as [|c s IH]; simpl; [done|]. intros [Hc Hs]%andb_true_iff.
  rewrite IH by done. destruct s; [|done]. by rewrite int_char_not_space.
Qed.

Definition digit_char (d : Z) : ascii := ascii_of_N (Z.to_N (48 + d)).

Lemma digit_val_char d : 0 ≤ d < 10 → digit_val (digit_char d) = Some d.
Proof.
  intros Hd. unfold digit_val, digit_char. rewrite N_ascii_embedding by lia.
  rewrite Z2N.id by lia.
  replace ((48 <=? 48 + d) && (48 + d <=? 57)) with true by (symmetry; apply andb_true_iff; lia).
  f_equal. lia.
Qed.

Lemma is_digit_char d : 0 ≤ d < 10 → is_digit (digit_char d) = true.
Proof. intros Hd. unfold is_digit. rewrite digit_val_char by done. by apply bool_decide_eq_true. Qed.

Lemma parse_digits_char d s acc b :
  0 ≤ d < 10 → parse_digits (String (digit_char d) s) acc b = parse_digits s (10 * acc + d) true.
Proof. intros Hd. simpl. by rewrite digit_val_char. Qed.

(** The digits of [z] in front of a string. *)
Lemma pos_digits_spec fuel z acc :
  0 ≤ z < 2 ^ Z.of_nat fuel →
  (str_all is_digit acc = true → str_all is_digit (pos_digits fuel z acc) = true) ∧
  (0 < Z.of_nat fuel → pos_digits fuel z acc ≠ "") ∧
  (0 < Z.of_nat fuel → ∃ n, 0 ≤ n ∧ ∀ a b,
     parse_digits (pos_digits fuel z acc) a b = parse_digits acc (a * 10 ^ n + z) true).
Proof.
  revert z acc. induction fuel as [|fuel IH]; intros z acc Hz; [split_and!; (done || lia)|].
  assert (Hm : 0 ≤ z mod 10 < 10) by (apply Z.mod_pos_bound; lia).
  cbn [pos_digits]. fold (digit_char (z mod 10)).
  destruct (Z.ltb_spec z 10) as [Hlt|Hge].
  - rewrite Z.mod_small by lia. split_and!.
    + intros Hacc. simpl. by rewrite is_digit_char, Hacc by lia.
    + done.
    + intros _. exists 1. split; [lia|]. intros a b. rewrite parse_digits_char by lia. f_equal. lia.
  - rewrite Nat2Z.inj_succ, Z.pow_succ_r in Hz by lia.
    assert (Hf : (0 < Z.of_nat fuel)).
    { destruct fuel; [|lia]. simpl in Hz. lia. }
    destruct (IH (z / 10) (String (digit_char (z mod 10)) acc)) as (H1 & H2 & H3).
    { split; [apply Z.div_pos; lia|]. apply Z.div_lt_upper_bound; lia. }
    split_and!.
    + intros Hacc. apply H1. simpl. by rewrite is_digit_char, Hacc.
    + intros _. by apply H2.
    + intros _. destruct (H3 Hf) as (n & Hn & Hp). exists (n + 1). split; [lia|]. intros a b.
      rewrite Hp, parse_digits_char by done. f_equal.
      rewrite Z.pow_add_r by lia. pose proof (Z.div_mod z 10). lia.
Qed.

Lemma log2_fuel z : 0 ≤ z → 0 ≤ z < 2 ^ Z.of_nat (S (Z.to_nat (Z.log2 z))).
Proof.
  intros Hz. split; [done|]. rewrite Nat2Z.inj_succ, Z2Nat.id by apply Z.log2_nonneg.
  destruct (Z.eq_dec z 0) as [->|Hne]; [done|]. apply Z.log2_spec. lia.
Qed.

Lemma str_of_nonneg_spec z :
  0 ≤ z → str_all is_digit (str_of_nonneg z) = true ∧ str_of_nonneg z ≠ "" ∧
    parse_digits (str_of_nonneg z) 0 false = Some z.
Proof.
  intros Hz. destruct (pos_digits_spec _ _ "" (log2_fuel z Hz)) as (H1 & H2 & H3).
  split_and!; [by apply H1|apply H2; lia|]. destruct H3 as (n & _ & Hp); [lia|].
  unfold str_of_nonneg. rewrite Hp. simpl. f_equal.
Qed.

Lemma str_of_int_chars z : str_all int_char (str_of_int z) = true ∧ str_of_int z ≠ "".
Proof.
  assert (Hd : ∀ c, is_digit c = true → int_char c = true).
  { intros c Hc. unfold int_char. by rewrite Hc, orb_true_r. }
  unfold str_of_int. destruct (Z.ltb_spec z 0) as [Hz|Hz].
  - destruct (str_of_nonneg_spec (- z)) as (H1 & _); [lia|]. split; [|done]. simpl.
    by eapply str_all_impl.
  - destruct (str_of_nonneg_spec z) as (H1 & H2 & _); [lia|]. split; [|done]. by eapply str_all_impl.
Qed.

(** [int(str(z)) == z] *)
Lemma int_of_str_of_int z : int_of_str (str_of_int z) = Ok z.
Proof.
  unfold int_of_str, parse_int.
  destruct (str_of_int_chars z) as [Hc _]. rewrite lstrip_id, rstrip_id by done. clear Hc.
  unfold str_of_int. destruct (Z.ltb_spec z 0) as [Hz|Hz].
  - destruct (str_of_nonneg_spec (- z)) as (_ & _ & ->); [lia|]. simpl. f_equal. lia.
  - destruct (str_of_nonneg_spec z) as (H1 & H2 & H3); [lia|].
    destruct (str_of_nonneg z) as [|c s]; [done|]. simpl in H1. apply andb_true_iff in H1 as [H1 _].
    destruct (decide (c = "-"%char)) as [->|Hm]; [done|].
    destruct (decide (c = "+"%char)) as [->|Hp]; [done|].
    destruct c as [[] [] [] [] [] [] [] []]; by rewrite H3 || done.
Qed.

(** ** [split] and [join] *)

Lemma str_split_nosep c s : str_find c s = None → str_split c s = [s].
Proof.
  induction s as [|a s IH]; simpl; [done|]. case_decide; [done|].
  destruct (str_find c s); [done|]. intros _. by rewrite IH.
Qed.

Lemma str_split_app c s t :
  str_find c s = None → str_split c (s +:+ String c t) = s :: str_split c t.
Proof.
  induction s as [|a s IH]; [intros _; rewrite str_app_nil; simpl; by rewrite decide_True|].
  rewrite str_app_cons. simpl. case_decide; [done|].
  destruct (str_find c s); [done|]. intros _. by rewrite IH.
Qed.

Lemma str_split_join c l :
  l ≠ [] → Forall (λ s, str_find c s = None) l → str_split c (str_join (String c "") l) = l.
Proof.
  intros Hne Hall. induction Hall as [|s l Hs Hall IH]; [done|]. clear Hne.
  destruct l as [|s' l]; [by apply str_split_nosep|].
  change (str_join (String c "") (s :: s' :: l))
    with (s +:+ String c (str_join (String c "") (s' :: l))).
  rewrite str_split_app by done. by rewrite IH.
Qed.

Lemma str_split1_app c s t : str_find c s = None → str_split1 c (s +:+ String c t) = [s; t].
Proof.
  intros Hs. unfold str_split1. rewrite str_find_app by done.
  rewrite str_take_length. f_equal. f_equal.
  induction s as [|a s IH]; simpl in *; [done|]. case_decide; [done|].
  destruct (str_find c s); [done|]. by apply IH.
Qed.

(** Printed integers hold none of the separators in use. *)
Lemma str_of_int_nosep c z : int_char c = false → str_find c (str_of_int z) = None.
Proof. intros Hc. eapply str_find_all; [done|]. apply str_of_int_chars. Qed.

#[export] Hint Rewrite int_of_str_of_int : synapse_rw.
