(* ===== verification/StreamTokens.v ===== *)
(** * Stream tokens: [synapse/types/__init__.py]

    A token is a position in a stream with several writers: a minimum position and the
    positions of the writers ahead of it.  Instance names are stored as ids that the
    database assigns; the two lookups are the parameters of [InstanceStore]. *)

From S2P Require Import Prelude PyVal Constants TopoSort StrLemmas.

Class InstanceStore := {
  get_id_for_instance : string → result Z;
  get_name_from_instance_id : Z → result string
}.

(** ** [AbstractMultiWriterStreamToken] *)

Record AbstractMultiWriterStreamToken := MkToken {
  stream : Z;
  instance_map : gmap string Z
}.

#[export] Instance token_eq_dec : EqDecision AbstractMultiWriterStreamToken.
Proof. solve_decision. Defined.

(** [self.instance_map.get(instance_name, self.stream)] *)
Definition get_stream_pos_for_instance (instance_name : string)
    (t : AbstractMultiWriterStreamToken) : Z :=
  default (stream t) (instance_map t !! instance_name).

Definition copy_and_advance (self other : AbstractMultiWriterStreamToken)
    : AbstractMultiWriterStreamToken :=
  let max_stream := Z.max (stream self) (stream other) in
  MkToken max_stream
    (set_to_map (λ instance, (instance,
        Z.max (get_stream_pos_for_instance instance self)
              (get_stream_pos_for_instance instance other)))
      (dom (instance_map self) ∪ dom (instance_map other))).

(** [max(values, default=stream)] *)
Definition get_max_stream_pos (t : AbstractMultiWriterStreamToken) : Z :=
  match (map_to_list (instance_map t)).*2 with
  | [] => stream t
  | x :: l => foldl Z.max x l
  end.

Section strings.
Context `{InstanceStore} `{IterOrder}.

(** One [id.pos] of a vector clock. *)
Definition parse_entry (instance_map : gmap string Z) (part : string) : result (gmap string Z) :=
  match str_split "." part with
  | [key; value] =>
      instance_id ← int_of_str key;
      pos ← int_of_str value;
      instance_name ← get_name_from_instance_id instance_id;
      Ok (<[instance_name := pos]> instance_map)
  | _ => Err (PyBuiltin ValueError)
  end.

(** What follows the [m]. *)
Definition parse_vector (string : string) : result AbstractMultiWriterStreamToken :=
  match str_split "~" string with
  | [] => Err (PyBuiltin IndexError)
  | part0 :: parts =>
      stream ← int_of_str part0;
      instance_map ← fold_res parse_entry parts ∅;
      Ok (MkToken stream instance_map)
  end.

(** The entries of [to_string], the instances at or below the minimum left out. *)
Definition vector_entry (t : AbstractMultiWriterStreamToken) (entries : list string)
    (name_pos : string * Z) : result (list string) :=
  let '(name, pos) := name_pos in
  if pos <=? stream t then Ok entries
  else
    instance_id ← get_id_for_instance name;
    Ok (entries ++ [str_of_int instance_id +:+ "." +:+ str_of_int pos]).

Definition vector_to_string (t : AbstractMultiWriterStreamToken) : result string :=
  entries ← fold_res (vector_entry t) (dict_items (instance_map t)) [];
  Ok ("m" +:+ str_of_int (stream t) +:+ "~" +:+ str_join "~" entries).

(** ** [RoomStreamToken] *)

Record RoomStreamToken := MkRoom {
  token : AbstractMultiWriterStreamToken;
  topological : option Z
}.

(** [if self.topological] *)
Definition truthy (topological : option Z) : bool :=
  match topological with Some z => negb (z =? 0) | None => false end.

Definition new_RoomStreamToken (t : AbstractMultiWriterStreamToken) (topological : option Z)
    : result RoomStreamToken :=
  if negb (bool_decide (instance_map t = ∅)) && truthy topological
  then Err (PyBuiltin ValueError)
  else Ok (MkRoom t topological).

(** The [try] block; falling out of it is the error raised after it. *)
Definition try_parse_room (string : string) : result RoomStreamToken :=
  match string with
  | String "s" rest => stream ← int_of_str rest; new_RoomStreamToken (MkToken stream ∅) None
  | String "t" rest =>
      match str_split1 "-" rest with
      | [part0; part1] =>
          topological ← int_of_str part0;
          stream ← int_of_str part1;
          new_RoomStreamToken (MkToken stream ∅) (Some topological)
      | [part0] => topological ← int_of_str part0; Err (PyBuiltin IndexError)
      | _ => Err (PyBuiltin IndexError)
      end
  | String "m" rest => t ← parse_vector rest; new_RoomStreamToken t None
  | _ => Err (PyException "not a token")
  end.

Definition invalid_token : exn := SynapseError 400 "Invalid room stream token %r" Codes.UNKNOWN.

Definition RoomStreamToken_parse (string : string) : result RoomStreamToken :=
  try_except (try_parse_room string) (λ _, true) (λ _, Err invalid_token).

Definition parse_stream_token (string : string) : result RoomStreamToken :=
  try_except
    match string with
    | String "s" rest => stream ← int_of_str rest; new_RoomStreamToken (MkToken stream ∅) None
    | _ => Err (PyException "not a token")
    end (λ _, true) (λ _, Err invalid_token).

Definition RoomStreamToken_copy_and_advance (self other : RoomStreamToken)
    : result RoomStreamToken :=
  if truthy (topological self) || truthy (topological other)
  then Err (PyException "Can't advance topological tokens")
  else new_RoomStreamToken (copy_and_advance (token self) (token other)) (topological self).

Definition as_historical_tuple (t : RoomStreamToken) : result (Z * Z) :=
  match topological t with
  | None => Err (PyException "Cannot call `RoomStreamToken.as_historical_tuple` on live token")
  | Some topo => Ok (topo, stream (token t))
  end.

Definition RoomStreamToken_get_stream_pos_for_instance (instance_name : string)
    (t : RoomStreamToken) : result Z :=
  match topological t with
  | Some _ => Err (PyBuiltin AssertionError)
  | None => Ok (get_stream_pos_for_instance instance_name (token t))
  end.

Definition RoomStreamToken_to_string (t : RoomStreamToken) : result string :=
  match topological t with
  | Some topo => Ok ("t" +:+ str_of_int topo +:+ "-" +:+ str_of_int (stream (token t)))
  | None =>
      if bool_decide (instance_map (token t) = ∅)
      then Ok ("s" +:+ str_of_int (stream (token t)))
      else vector_to_string (token t)
  end.

(** ** [MultiWriterStreamToken] *)

Definition try_parse_multi (string : string) : result AbstractMultiWriterStreamToken :=
  match string with
  | "" => Err (PyBuiltin IndexError)
  | String c rest =>
      if is_digit c then stream ← int_of_str string; Ok (MkToken stream ∅)
      else if bool_decide (c = "m"%char) then parse_vector rest
      else Err (PyException "not a token")
  end.

Definition MultiWriterStreamToken_parse (string : string)
    : result AbstractMultiWriterStreamToken :=
  try_except (try_parse_multi string) (λ _, true)
    (λ _, Err (SynapseError 400 "Invalid stream token %r" Codes.UNKNOWN)).

Definition MultiWriterStreamToken_to_string (t : AbstractMultiWriterStreamToken) : result string :=
  if bool_decide (instance_map t = ∅) then Ok (str_of_int (stream t)) else vector_to_string t.

(** [low.instance_map.get(instance_name, low.stream)] if there is a name *)
Definition stream_for (instance_name : option string) (t : AbstractMultiWriterStreamToken) : Z :=
  match instance_name with
  | Some name => if bool_decide (name = "") then stream t else get_stream_pos_for_instance name t
  | None => stream t
  end.

Definition is_stream_position_in_range (low high : option AbstractMultiWriterStreamToken)
    (instance_name : option string) (pos : Z) : bool :=
  if match low with Some low => pos <=? stream_for instance_name low | None => false end
  then false
  else if match high with Some high => stream_for instance_name high <? pos | None => false end
  then false
  else true.

(** ** [PersistedPosition] *)

Record PersistedPosition := MkPosition { instance_name : string; position : Z }.

Definition persisted_after (p : PersistedPosition) (t : AbstractMultiWriterStreamToken) : bool :=
  get_stream_pos_for_instance (instance_name p) t <? position p.

Definition to_room_stream_token (p : PersistedPosition) : result RoomStreamToken :=
  new_RoomStreamToken (MkToken (position p) ∅) None.
End strings.

(** ** [StreamToken] *)

Inductive StreamKeyType :=
| ROOM | PRESENCE | TYPING | RECEIPT | ACCOUNT_DATA | PUSH_RULES | TO_DEVICE | DEVICE_LIST
| UN_PARTIAL_STATED_ROOMS.

(** The type of a field, as the overloads of [get_field] give it. *)
Definition stream_value (key : StreamKeyType) : Type :=
  match key with
  | ROOM => RoomStreamToken
  | RECEIPT => AbstractMultiWriterStreamToken
  | _ => Z
  end.

Record StreamToken := MkStreamToken {
  room_key : RoomStreamToken;
  presence_key : Z;
  typing_key : Z;
  receipt_key : AbstractMultiWriterStreamToken;
  account_data_key : Z;
  push_rules_key : Z;
  to_device_key : Z;
  device_list_key : Z;
  groups_key : Z;
  un_partial_stated_rooms_key : Z
}.

Definition START : StreamToken :=
  MkStreamToken (MkRoom (MkToken 0 ∅) None) 0 0 (MkToken 0 ∅) 0 0 0 0 0 0.

Definition get_field (key : StreamKeyType) (t : StreamToken) : stream_value key :=
  match key with
  | ROOM => room_key t
  | PRESENCE => presence_key t
  | TYPING => typing_key t
  | RECEIPT => receipt_key t
  | ACCOUNT_DATA => account_data_key t
  | PUSH_RULES => push_rules_key t
  | TO_DEVICE => to_device_key t
  | DEVICE_LIST => device_list_key t
  | UN_PARTIAL_STATED_ROOMS => un_partial_stated_rooms_key t
  end.

(** [attr.evolve(self, key=new_value)] *)
Definition copy_and_replace (key : StreamKeyType) : stream_value key → StreamToken → StreamToken :=
  match key with
  | ROOM => λ v '(MkStreamToken r p ty re a pu td dl g u), MkStreamToken v p ty re a pu td dl g u
  | PRESENCE => λ v '(MkStreamToken r p ty re a pu td dl g u), MkStreamToken r v ty re a pu td dl g u
  | TYPING => λ v '(MkStreamToken r p ty re a pu td dl g u), MkStreamToken r p v re a pu td dl g u
  | RECEIPT => λ v '(MkStreamToken r p ty re a pu td dl g u), MkStreamToken r p ty v a pu td dl g u
  | ACCOUNT_DATA => λ v '(MkStreamToken r p ty re a pu td dl g u), MkStreamToken r p ty re v pu td dl g u
  | PUSH_RULES => λ v '(MkStreamToken r p ty re a pu td dl g u), MkStreamToken r p ty re a v td dl g u
  | TO_DEVICE => λ v '(MkStreamToken r p ty re a pu td dl g u), MkStreamToken r p ty re a pu v dl g u
  | DEVICE_LIST => λ v '(MkStreamToken r p ty re a pu td dl g u), MkStreamToken r p ty re a pu td v g u
  | UN_PARTIAL_STATED_ROOMS =>
      λ v '(MkStreamToken r p ty re a pu td dl g u), MkStreamToken r p ty re a pu td dl g v
  end.

(** The last lines of [copy_and_advance], for a key with plain positions. *)
Definition advance_plain (self new_token : StreamToken) (old_id new_id : Z) : StreamToken :=
  if old_id <? new_id then new_token else self.

Definition StreamToken_copy_and_advance (key : StreamKeyType)
    : stream_value key → StreamToken → result StreamToken :=
  match key with
  | ROOM => λ v self,
      r ← RoomStreamToken_copy_and_advance (room_key self) v; Ok (copy_and_replace ROOM r self)
  | RECEIPT => λ v self,
      Ok (copy_and_replace RECEIPT (copy_and_advance (receipt_key self) v) self)
  | PRESENCE => λ v self,
      Ok (advance_plain self (copy_and_replace PRESENCE v self) (presence_key self) v)
  | TYPING => λ v self, Ok (advance_plain self (copy_and_replace TYPING v self) (typing_key self) v)
  | ACCOUNT_DATA => λ v self,
      Ok (advance_plain self (copy_and_replace ACCOUNT_DATA v self) (account_data_key self) v)
  | PUSH_RULES => λ v self,
      Ok (advance_plain self (copy_and_replace PUSH_RULES v self) (push_rules_key self) v)
  | TO_DEVICE => λ v self,
      Ok (advance_plain self (copy_and_replace TO_DEVICE v self) (to_device_key self) v)
  | DEVICE_LIST => λ v self,
      Ok (advance_plain self (copy_and_replace DEVICE_LIST v self) (device_list_key self) v)
  | UN_PARTIAL_STATED_ROOMS => λ v self,
      Ok (advance_plain self (copy_and_replace UN_PARTIAL_STATED_ROOMS v self)
            (un_partial_stated_rooms_key self) v)
  end.

Section stream_token_strings.
Context `{InstanceStore} `{IterOrder}.

Definition StreamToken_from_string (string : string) : result StreamToken :=
  let keys := str_split "_" string in
  let keys := keys ++ replicate (10 - length keys) "0" in
  try_except
    match keys with
    | [room; presence; typing; receipt; account_data; push_rules; to_device; device_list; groups;
       un_partial] =>
        room ← RoomStreamToken_parse room;
        presence ← int_of_str presence;
        typing ← int_of_str typing;
        receipt ← MultiWriterStreamToken_parse receipt;
        account_data ← int_of_str account_data;
        push_rules ← int_of_str push_rules;
        to_device ← int_of_str to_device;
        device_list ← int_of_str device_list;
        groups ← int_of_str groups;
        un_partial ← int_of_str un_partial;
        Ok (MkStreamToken room presence typing receipt account_data push_rules to_device
              device_list groups un_partial)
    | _ => Err (PyBuiltin ValueError)
    end (λ _, true) (λ _, Err (SynapseError 400 "Invalid stream token" Codes.UNKNOWN)).

Definition StreamToken_to_string (t : StreamToken) : result string :=
  room ← RoomStreamToken_to_string (room_key t);
  receipt ← MultiWriterStreamToken_to_string (receipt_key t);
  Ok (str_join "_"
        [room; str_of_int (presence_key t); str_of_int (typing_key t); receipt;
         str_of_int (account_data_key t); str_of_int (push_rules_key t);
         str_of_int (to_device_key t); str_of_int (device_list_key t);
         str_of_int (groups_key t); str_of_int (un_partial_stated_rooms_key t)]).
End stream_token_strings.
