(* ===== verification/StreamTokenProps.v ===== *)
(** * Stream tokens are positions

    A token read back from its string is the same position; advancing is the least
    upper bound; the ranges between successive tokens partition the stream. *)

From S2P Require Import Prelude PyVal Constants TopoSort StrLemmas StreamTokens.

(** ** Positions *)

Lemma lookup_advance i a b :
  instance_map (copy_and_advance a b) !! i =
  if decide (i ∈ dom (instance_map a) ∪ dom (instance_map b))
  then Some (Z.max (get_stream_pos_for_instance i a) (get_stream_pos_for_instance i b)) else None.
Proof.
  apply option_eq. intros x. simpl. rewrite lookup_set_to_map by (intros; simplify_eq/=; done).
  case_decide; split.
  - intros (y & _ & [= -> <-]). done.
  - intros [= <-]. by exists i.
  - intros (y & Hy & [= -> _]). done.
  - done.
Qed.

Lemma pos_copy_and_advance i a b :
  get_stream_pos_for_instance i (copy_and_advance a b) =
  Z.max (get_stream_pos_for_instance i a) (get_stream_pos_for_instance i b).
Proof.
  unfold get_stream_pos_for_instance at 1. rewrite lookup_advance.
  case_decide as Hi; [done|]. apply not_elem_of_union in Hi as [Ha Hb].
  apply not_elem_of_dom in Ha, Hb. unfold get_stream_pos_for_instance. by rewrite Ha, Hb.
Qed.

(** [a] is at or before [b], for every writer and for rows without a writer. *)
Definition token_le (a b : AbstractMultiWriterStreamToken) : Prop :=
  stream a ≤ stream b ∧
  ∀ i, get_stream_pos_for_instance i a ≤ get_stream_pos_for_instance i b.

(** Tokens that are the same position. *)
Definition token_eq (a b : AbstractMultiWriterStreamToken) : Prop := token_le a b ∧ token_le b a.

#[export] Instance token_le_preorder : PreOrder token_le.
Proof.
  split; [by intros a|]. intros a b c [H1 H2] [H3 H4]. split; [lia|].
  intros i. specialize (H2 i). specialize (H4 i). lia.
Qed.

#[export] Instance token_eq_equiv : Equivalence token_eq.
Proof. split; [done|by intros a b []|]. intros a b c [] []. split; by etrans. Qed.

#[export] Instance token_le_proper : Proper (token_eq ==> token_eq ==> iff) token_le.
Proof.
  intros a a' [H1 H2] b b' [H3 H4]. split; intros Hle.
  - trans a; [done|]. by trans b.
  - trans a'; [done|]. by trans b'.
Qed.

Lemma advance_upper a b : token_le a (copy_and_advance a b) ∧ token_le b (copy_and_advance a b).
Proof.
  split; (split; [simpl; lia|]); intros i; rewrite pos_copy_and_advance; lia.
Qed.

Lemma advance_least a b c : token_le a c → token_le b c → token_le (copy_and_advance a b) c.
Proof.
  intros [H1 H2] [H3 H4]. split; [simpl; lia|]. intros i. rewrite pos_copy_and_advance.
  specialize (H2 i). specialize (H4 i). lia.
Qed.

#[export] Instance advance_proper : Proper (token_eq ==> token_eq ==> token_eq) copy_and_advance.
Proof.
  intros a a' [H1 H2] b b' [H3 H4].
  destruct (advance_upper a b), (advance_upper a' b'). split; apply advance_least.
  - by trans a'.
  - by trans b'.
  - by trans a.
  - by trans b.
Qed.

Lemma stream_for_le i a b : token_le a b → stream_for i a ≤ stream_for i b.
Proof. intros [H1 H2]. unfold stream_for. destruct i; [case_bool_decide|]; done. Qed.

Lemma in_range_iff low high i pos :
  is_stream_position_in_range low high i pos = true ↔
  (∀ l, low = Some l → stream_for i l < pos) ∧ (∀ h, high = Some h → pos ≤ stream_for i h).
Proof.
  unfold is_stream_position_in_range. destruct low as [l|], high as [h|];
  repeat match goal with |- context [?a <=? ?b] => destruct (Z.leb_spec a b) end;
  repeat match goal with |- context [?a <? ?b] => destruct (Z.ltb_spec a b) end;
  (split; [intros ?; split; intros; simplify_eq; done || lia|]); try done; intros [Ha Hb];
  try (specialize (Ha _ eq_refl)); try (specialize (Hb _ eq_refl)); done || lia.
Qed.

(** ** Vectors as strings *)

(** The writers ahead of the minimum: what the string holds. *)
Definition ahead (t : AbstractMultiWriterStreamToken) : AbstractMultiWriterStreamToken :=
  MkToken (stream t) (filter (λ kv, stream t < kv.2) (instance_map t)).

Lemma pos_ahead i t :
  get_stream_pos_for_instance i (ahead t) = Z.max (stream t) (get_stream_pos_for_instance i t).
Proof.
  unfold get_stream_pos_for_instance, ahead. simpl. rewrite map_lookup_filter.
  destruct (instance_map t !! i) as [p|]; simpl; [|lia].
  case_guard; simpl; lia.
Qed.

Definition insert_all (m : gmap string Z) (l : list (string * Z)) : gmap string Z :=
  foldl (λ m kv, <[kv.1 := kv.2]> m) m l.

Lemma lookup_insert_all m l i p :
  NoDup l.*1 → insert_all m l !! i = Some p ↔ (i, p) ∈ l ∨ ((i ∉ l.*1) ∧ m !! i = Some p).
Proof.
  unfold insert_all. revert m. induction l as [|[k v] l IH]; intros m; simpl.
  { intros _. split; [intros; right; by split; [apply not_elem_of_nil|]|].
    intros [?%not_elem_of_nil|[_ ?]]; done. }
  intros [Hk Hnd]%NoDup_cons. rewrite IH by done. rewrite !elem_of_cons.
  destruct (decide (i = k)) as [->|Hne].
  - rewrite lookup_insert_eq. split.
    + intros [Hin|[_ [= ->]]]; [|by left; left]. destruct Hk. apply list_elem_of_fmap. by exists (k, p).
    + intros [[[= ->]|Hin]|[Hn _]]; [by right|by left|]. destruct Hn. by left.
  - rewrite lookup_insert_ne by done. naive_solver.
Qed.

Lemma NoDup_fst_filter {A B} (P : A * B → Prop) `{∀ x, Decision (P x)} l :
  NoDup l.*1 → NoDup (filter P l).*1.
Proof.
  induction l as [|[k v] l IH]; [done|]. intros [Hk Hnd]%NoDup_cons. rewrite filter_cons.
  case_decide; [|by apply IH]. apply NoDup_cons. split; [|by apply IH].
  intros (x & Hx1 & Hx)%list_elem_of_fmap. apply list_elem_of_filter in Hx as [_ Hx].
  apply Hk, list_elem_of_fmap. eauto.
Qed.

Section vectors.
Context `{InstanceStore} `{IterOrderOk}.
Hypothesis Hids : ∀ name id, get_id_for_instance name = Ok id → get_name_from_instance_id id = Ok name.

Definition entry_string (id pos : Z) : string := str_of_int id +:+ "." +:+ str_of_int pos.

Lemma entry_nosep c id pos :
  int_char c = false → c ≠ "."%char → str_find c (entry_string id pos) = None.
Proof.
  intros Hc Hd. unfold entry_string. rewrite str_find_None_app. split; [by apply str_of_int_nosep|].
  rewrite str_find_None_app. split; [|by apply str_of_int_nosep]. simpl. by rewrite decide_False.
Qed.

Lemma parse_entry_string id pos name m :
  get_name_from_instance_id id = Ok name →
  parse_entry m (entry_string id pos) = Ok (<[name := pos]> m).
Proof.
  intros Hn. unfold parse_entry, entry_string.
  change ("." +:+ str_of_int pos) with (String "." (str_of_int pos)).
  rewrite str_split_app by (by apply str_of_int_nosep).
  rewrite str_split_nosep by (by apply str_of_int_nosep).
  rewrite !int_of_str_of_int. simpl. by rewrite Hn.
Qed.

(** The entries read back. *)
Lemma vector_entries t l acc es :
  fold_res (vector_entry t) l acc = Ok es →
  ∃ es', es = acc ++ es' ∧ length es' = length (filter (λ kv, stream t < kv.2) l) ∧
    (∀ c, int_char c = false → c ≠ "."%char → Forall (λ s, str_find c s = None) es') ∧
    ∀ m, fold_res parse_entry es' m = Ok (insert_all m (filter (λ kv, stream t < kv.2) l)).
Proof.
  revert acc. induction l as [|[name pos] l IH]; intros acc; simpl.
  { intros [= <-]. exists []. rewrite app_nil_r. split_and!; try done. }
  intros (acc1 & Hstep & Hrest)%bind_ok. apply IH in Hrest as (es' & -> & Hlen & Hsep & Hparse).
  rewrite filter_cons. simpl. unfold vector_entry in Hstep.
  destruct (Z.leb_spec pos (stream t)) as [Hle|Hgt].
  - injection Hstep as <-. rewrite decide_False by lia. eauto.
  - apply bind_ok in Hstep as (id & Hid & [= <-]). rewrite decide_True by lia.
    exists (entry_string id pos :: es'). rewrite <- app_assoc. split_and!; simpl; [done|lia| |].
    + intros c Hc Hd. constructor; [by apply entry_nosep|by apply Hsep].
    + intros m. rewrite (parse_entry_string _ _ name) by auto. simpl. by rewrite Hparse.
Qed.

Lemma ahead_items_NoDup t :
  NoDup (filter (λ kv, stream t < kv.2) (dict_items (instance_map t))).*1.
Proof. apply NoDup_fst_filter. rewrite dict_items_perm. apply NoDup_fst_map_to_list. Qed.

Lemma insert_all_ahead t :
  insert_all ∅ (filter (λ kv, stream t < kv.2) (dict_items (instance_map t))) =
  instance_map (ahead t).
Proof.
  pose proof (ahead_items_NoDup t) as Hnd.
  apply map_eq. intros i. apply option_eq. intros p. rewrite lookup_insert_all by done.
  rewrite list_elem_of_filter, dict_items_perm, elem_of_map_to_list, lookup_empty. simpl.
  rewrite map_lookup_filter_Some. simpl. naive_solver.
Qed.

(** The string of a vector has a part for each writer ahead; with none it cannot be
    read back. *)
Lemma parse_vector_to_string t s :
  vector_to_string t = Ok s →
  ∃ rest, s = String "m" rest ∧ str_find "_" s = None ∧
    if decide (instance_map (ahead t) = ∅) then is_ok (parse_vector rest) = false
    else parse_vector rest = Ok (ahead t).
Proof.
  intros (es & Hes & [= <-])%bind_ok. eexists. split; [done|].
  apply vector_entries in Hes as (es' & -> & Hlen & Hsep & Hparse). simpl app.
  split.
  - rewrite !str_find_None_app. split_and!; [done|by apply str_of_int_nosep|done|].
    specialize (Hsep "_"%char eq_refl ltac:(done)). clear -Hsep.
    induction Hsep as [|e es' He Hes IH]; [done|]. destruct es' as [|e' es']; [done|].
    change (str_join "~" (e :: e' :: es')) with (e +:+ "~" +:+ str_join "~" (e' :: es')).
    by rewrite !str_find_None_app.
  - unfold parse_vector. change ("~" +:+ ?x) with (String "~" x).
    rewrite str_split_app by (by apply str_of_int_nosep). rewrite int_of_str_of_int. simpl.
    specialize (Hparse ∅). rewrite insert_all_ahead in Hparse.
    destruct es' as [|e es'].
    + simpl in Hparse. injection Hparse as Hparse. by rewrite decide_True.
    + rewrite str_split_join; [|done|by apply Hsep]. rewrite Hparse. simpl.
      rewrite decide_False; [done|].
      intros He. simpl in Hlen. destruct (filter _ _) as [|[k v] l] eqn:Hf; [done|].
      pose proof (insert_all_ahead t) as Hia. rewrite Hf in Hia.
      assert (Hk : insert_all ∅ ((k, v) :: l) !! k = None) by (by rewrite Hia; simpl; rewrite He).
      assert (Hnd : NoDup ((k, v) :: l).*1) by (rewrite <- Hf; apply ahead_items_NoDup).
      assert (Hs : insert_all ∅ ((k, v) :: l) !! k = Some v) by (apply lookup_insert_all; [done|left; by left]).
      congruence.
Qed.

(** A vector of which something would be written. *)
Definition readable (t : AbstractMultiWriterStreamToken) : Prop :=
  instance_map t = ∅ ∨ instance_map (ahead t) ≠ ∅.
#[local] Instance readable_dec t : Decision (readable t).
Proof. unfold readable. apply _. Defined.

Lemma ahead_empty t : instance_map t = ∅ → ahead t = MkToken (stream t) ∅.
Proof. intros Hm. unfold ahead. by rewrite Hm, map_filter_empty. Qed.

Lemma new_room_ok t : new_RoomStreamToken t None = Ok (MkRoom t None).
Proof. unfold new_RoomStreamToken. by rewrite andb_false_r. Qed.

Lemma str_of_nonneg_nosep c z : 0 ≤ z → is_digit c = false → str_find c (str_of_int z) = None.
Proof.
  intros Hz Hc. unfold str_of_int. destruct (Z.ltb_spec z 0); [lia|].
  eapply str_find_all; [done|]. by apply str_of_nonneg_spec.
Qed.

Lemma room_roundtrip t s :
  (∀ z, topological t = Some z → 0 ≤ z) → RoomStreamToken_to_string t = Ok s →
  str_find "_" s = None ∧
  RoomStreamToken_parse s =
    match topological t with
    | Some z => Ok (MkRoom (MkToken (stream (token t)) ∅) (Some z))
    | None => if decide (readable (token t)) then Ok (MkRoom (ahead (token t)) None)
              else Err invalid_token
    end.
Proof.
  intros Hpos. unfold RoomStreamToken_to_string. destruct (topological t) as [z|] eqn:Ht.
  - intros [= <-]. split; [rewrite !str_find_None_app; split_and!; done || by apply str_of_int_nosep|].
    unfold RoomStreamToken_parse. change ("t" +:+ ?x) with (String "t" x). simpl try_parse_room.
    change ("-" +:+ ?x) with (String "-" x).
    rewrite str_split1_app by (apply str_of_nonneg_nosep; auto).
    by rewrite !int_of_str_of_int.
  - case_bool_decide as Hm.
    + intros [= <-]. split; [rewrite !str_find_None_app; split_and!; done || by apply str_of_int_nosep|].
      rewrite decide_True by (by left). rewrite ahead_empty by done.
      unfold RoomStreamToken_parse. change ("s" +:+ ?x) with (String "s" x). simpl.
      by rewrite int_of_str_of_int.
    + intros (rest & -> & Hsep & Hp)%parse_vector_to_string. split; [done|].
      unfold RoomStreamToken_parse. simpl try_parse_room.
      destruct (decide (instance_map (ahead (token t)) = ∅)) as [He|He].
      * rewrite decide_False by (intros [?|?]; done). apply is_ok_false in Hp as [e ->]. done.
      * rewrite decide_True by (by right). rewrite Hp. simpl. by rewrite new_room_ok.
Qed.

Lemma multi_roundtrip t s :
  0 ≤ stream t → MultiWriterStreamToken_to_string t = Ok s →
  str_find "_" s = None ∧
  MultiWriterStreamToken_parse s =
    if decide (readable t) then Ok (ahead t)
    else Err (SynapseError 400 "Invalid stream token %r" Codes.UNKNOWN).
Proof.
  intros Hpos. unfold MultiWriterStreamToken_to_string. case_bool_decide as Hm.
  - intros [= <-]. split; [by apply str_of_int_nosep|].
    rewrite decide_True by (by left). rewrite ahead_empty by done.
    unfold MultiWriterStreamToken_parse, try_parse_multi.
    destruct (str_of_int (stream t)) as [|c rest] eqn:Hs; [by apply str_of_int_chars in Hs|].
    rewrite <- Hs, int_of_str_of_int.
    destruct (str_of_nonneg_spec (stream t) Hpos) as (Hd & _ & _).
    unfold str_of_int in Hs. destruct (Z.ltb_spec (stream t) 0); [lia|]. rewrite Hs in Hd.
    simpl in Hd. apply andb_true_iff in Hd as [-> _]. done.
  - intros (rest & -> & Hsep & Hp)%parse_vector_to_string. split; [done|].
    unfold MultiWriterStreamToken_parse, try_parse_multi. simpl.
    destruct (decide (instance_map (ahead t) = ∅)) as [He|He].
    + rewrite decide_False by (intros [?|?]; done). apply is_ok_false in Hp as [e ->]. done.
    + rewrite decide_True by (by right). by rewrite Hp.
Qed.
End vectors.

(** ** Properties *)

(** What of a room token its string keeps. *)
Definition room_ahead (r : RoomStreamToken) : RoomStreamToken :=
  match topological r with
  | Some z => MkRoom (MkToken (stream (token r)) ∅) (Some z)
  | None => MkRoom (ahead (token r)) None
  end.

Definition room_readable (r : RoomStreamToken) : Prop :=
  topological r ≠ None ∨ readable (token r).

(** Joining the ten parts and splitting them again. *)
Lemma from_string_join `{InstanceStore} room p1 p2 receipt p4 p5 p6 p7 p8 p9 :
  str_find "_" room = None → str_find "_" receipt = None →
  StreamToken_from_string (str_join "_" [room; str_of_int p1; str_of_int p2; receipt; str_of_int p4;
    str_of_int p5; str_of_int p6; str_of_int p7; str_of_int p8; str_of_int p9]) =
  try_except
    (r ← RoomStreamToken_parse room; m ← MultiWriterStreamToken_parse receipt;
     Ok (MkStreamToken r p1 p2 m p4 p5 p6 p7 p8 p9))
    (λ _, true) (λ _, Err (SynapseError 400 "Invalid stream token" Codes.UNKNOWN)).
Proof.
  intros Hr Hm. unfold StreamToken_from_string. change "_" with (String "_" "").
  rewrite str_split_join; [|done|repeat constructor; done || by apply str_of_int_nosep].
  simpl length. simpl replicate. rewrite app_nil_r. f_equal. rewrite !int_of_str_of_int. simpl.
  destruct (RoomStreamToken_parse room); [|done]. simpl.
  by destruct (MultiWriterStreamToken_parse receipt).
Qed.

(** C34: a stream token that is printed is read back as the same position for every writer if
    its receipt key has no writers or one that is ahead of the minimum, and so its room key
    unless that is topological: writers at or below the minimum are left out of the string, so that the
    position of each writer is the greater of its position and the minimum.  If one of the two
    keys has writers but none is ahead of the minimum, the string is refused with a 400.
    (The ids of instances are given back by the table that gave them, and the topological part
    of the room key and the position of the receipt key are not negative.) *)
Theorem stream_token_roundtrip `{InstanceStore} `{IterOrderOk} t s :
  (∀ name id, get_id_for_instance name = Ok id → get_name_from_instance_id id = Ok name) →
  (∀ z, topological (room_key t) = Some z → 0 ≤ z) → 0 ≤ stream (receipt_key t) →
  StreamToken_to_string t = Ok s →
  (room_readable (room_key t) → readable (receipt_key t) →
     StreamToken_from_string s =
       Ok (copy_and_replace ROOM (room_ahead (room_key t))
             (copy_and_replace RECEIPT (ahead (receipt_key t)) t))) ∧
  (¬ (room_readable (room_key t) ∧ readable (receipt_key t)) →
     StreamToken_from_string s = Err (SynapseError 400 "Invalid stream token" Codes.UNKNOWN)) ∧
  (∀ i tok, get_stream_pos_for_instance i (ahead tok) =
              Z.max (stream tok) (get_stream_pos_for_instance i tok)).
Proof.
  intros Hids Htopo Hpos (room & Hroom & Hs)%bind_ok. apply bind_ok in Hs as (rec & Hrec & Hs).
  set (s0 := str_join "_" _) in Hs. assert (s = s0) as -> by congruence. subst s0. clear Hs.
  apply room_roundtrip in Hroom as [Hs1 Hp1]; [|done..].
  apply multi_roundtrip in Hrec as [Hs2 Hp2]; [|done..].
  rewrite from_string_join, Hp1, Hp2 by done. unfold room_readable, room_ahead.
  split_and!; [| |apply pos_ahead]; destruct t as [[tok topo] ???????? ?]; simpl in *.
  - intros Hr Hm. rewrite (decide_True (P := readable receipt_key)) by done.
    destruct topo; [done|]. rewrite decide_True by naive_solver. done.
  - intros Hno. destruct topo as [z|].
    + rewrite decide_False; [done|]. intros ?. apply Hno. split; [by left|done].
    + destruct (decide (readable tok)); [|done]. rewrite decide_False; [done|].
      intros ?. apply Hno. split; [by right|done].
Qed.

(** Advancing a token gives the least position after both: an event is after the
    result exactly when it is after both tokens, for every writer; and advancing one
    key of a stream token never moves it back and leaves the other keys alone. *)
Theorem token_advance_lub a b :
  (∀ i, get_stream_pos_for_instance i (copy_and_advance a b) =
        Z.max (get_stream_pos_for_instance i a) (get_stream_pos_for_instance i b)) ∧
  token_le a (copy_and_advance a b) ∧ token_le b (copy_and_advance a b) ∧
  (∀ c, token_le a c → token_le b c → token_le (copy_and_advance a b) c) ∧
  (∀ p, persisted_after p (copy_and_advance a b) = persisted_after p a && persisted_after p b) ∧
  (∀ key v t t', StreamToken_copy_and_advance key v t = Ok t' →
     token_le (token (room_key t)) (token (room_key t')) ∧
     token_le (receipt_key t) (receipt_key t') ∧
     presence_key t ≤ presence_key t' ∧ typing_key t ≤ typing_key t' ∧
     account_data_key t ≤ account_data_key t' ∧ push_rules_key t ≤ push_rules_key t' ∧
     to_device_key t ≤ to_device_key t' ∧ device_list_key t ≤ device_list_key t' ∧
     un_partial_stated_rooms_key t ≤ un_partial_stated_rooms_key t' ∧
     ∀ key', key' ≠ key → get_field key' t' = get_field key' t).
Proof.
  split_and!; [intros; apply pos_copy_and_advance|apply advance_upper..|apply advance_least| |].
  - intros p. unfold persisted_after. rewrite pos_copy_and_advance. lia.
  - intros key v [r p ty re ac pu td dl g u] t'. destruct key; simpl; unfold advance_plain.
    1: { intros (r' & Hr & [= <-])%bind_ok. simpl. split_and!; try done || lia.
         - unfold RoomStreamToken_copy_and_advance, new_RoomStreamToken in Hr.
           repeat case_match; simplify_eq/=. apply advance_upper.
         - by intros []. }
    all: try (case_match; intros [= <-]; simpl; split_and!; (done || lia || by intros [])).
    intros [= <-]. simpl. split_and!; try (done || lia). apply advance_upper. by intros [].
Qed.

(** Successive tokens cut the stream into disjoint ranges.  With [low] before [mid]
    before [high], a position is between [low] and [high] exactly when it is between
    [low] and [mid] or between [mid] and [high], and never both: nothing is delivered
    twice or left out between two syncs. *)
Theorem ranges_partition low mid high i pos :
  (∀ l, low = Some l → token_le l mid) → (∀ h, high = Some h → token_le mid h) →
  is_stream_position_in_range low high i pos =
    is_stream_position_in_range low (Some mid) i pos ||
    is_stream_position_in_range (Some mid) high i pos ∧
  is_stream_position_in_range low (Some mid) i pos &&
    is_stream_position_in_range (Some mid) high i pos = false.
Proof.
  intros Hl Hh.
  assert (Hl' : ∀ l, low = Some l → stream_for i l ≤ stream_for i mid)
    by (intros l E; by apply stream_for_le, Hl).
  assert (Hh' : ∀ h, high = Some h → stream_for i mid ≤ stream_for i h)
    by (intros h E; by apply stream_for_le, Hh).
  clear Hl Hh. split.
  - apply eq_true_iff_eq. rewrite orb_true_iff, !in_range_iff. split.
    + intros [H1 H2]. destruct (Z.leb_spec pos (stream_for i mid)); [left|right]; split; naive_solver.
    + intros [[H1 H2]|[H1 H2]]; split; try done; intros x E.
      * specialize (Hh' _ E). specialize (H2 _ eq_refl). lia.
      * specialize (Hl' _ E). specialize (H1 _ eq_refl). lia.
  - apply not_true_iff_false. rewrite andb_true_iff, !in_range_iff. intros [[_ H1] [H2 _]].
    specialize (H1 _ eq_refl). specialize (H2 _ eq_refl). lia.
Qed.

(** ** Witnesses *)

Definition example_store : InstanceStore := {|
  get_id_for_instance := λ name,
    if bool_decide (name = "w1") then Ok 1 else if bool_decide (name = "w2") then Ok 2
    else Err (PyBuiltin KeyError);
  get_name_from_instance_id := λ id,
    if id =? 1 then Ok "w1" else if id =? 2 then Ok "w2" else Err (PyBuiltin KeyError)
|}.
#[local] Existing Instance example_store.

Lemma example_store_ids name id :
  get_id_for_instance name = Ok id → get_name_from_instance_id id = Ok name.
Proof. simpl. repeat case_bool_decide; intros; simplify_eq; done. Qed.

Definition ex_token : StreamToken :=
  MkStreamToken (MkRoom (MkToken 56 {["w1" := 58; "w2" := 40]}) None) 17 338 (MkToken 6732159 ∅)
    4 5 6 7 8 9.

Lemma stream_token_roundtrip_witness :
  StreamToken_to_string ex_token = Ok "m56~1.58_17_338_6732159_4_5_6_7_8_9" ∧
  StreamToken_from_string "m56~1.58_17_338_6732159_4_5_6_7_8_9" =
    Ok (copy_and_replace ROOM (room_ahead (room_key ex_token))
          (copy_and_replace RECEIPT (ahead (receipt_key ex_token)) ex_token)).
Proof.
  split; [by vm_compute|].
  apply (stream_token_roundtrip ex_token "m56~1.58_17_338_6732159_4_5_6_7_8_9").
  - apply example_store_ids.
  - done.
  - by vm_compute.
  - by vm_compute.
  - right. right. apply (bool_decide_eq_true_1 _). by vm_compute.
  - by left.
Defined.

(** All instances at the minimum: the string cannot be read. *)
Example unreadable_token :
  RoomStreamToken_to_string (MkRoom (MkToken 5 {["w1" := 5]}) None) = Ok "m5~" ∧
  RoomStreamToken_parse "m5~" = Err invalid_token.
Proof. split; by vm_compute. Qed.

Lemma ranges_partition_witness :
  is_stream_position_in_range (Some (MkToken 5 ∅)) (Some (MkToken 9 ∅)) (Some "w1") 8 = true ∧
  is_stream_position_in_range (Some (MkToken 5 ∅)) (Some (MkToken 9 ∅)) (Some "w1") 8 =
    is_stream_position_in_range (Some (MkToken 5 ∅)) (Some (MkToken 5 {["w1" := 7]})) (Some "w1") 8 ||
    is_stream_position_in_range (Some (MkToken 5 {["w1" := 7]})) (Some (MkToken 9 ∅)) (Some "w1") 8.
Proof.
  split; [by vm_compute|].
  apply (ranges_partition (Some (MkToken 5 ∅)) (MkToken 5 {["w1" := 7]}) (Some (MkToken 9 ∅)) (Some "w1") 8).
  - intros l [= <-]. split; [done|]. intros i. unfold get_stream_pos_for_instance. simpl.
    destruct (decide (i = "w1")) as [->|]; [by vm_compute|by rewrite lookup_singleton_ne].
  - intros h [= <-]. split; [done|]. intros i. unfold get_stream_pos_for_instance. simpl.
    destruct (decide (i = "w1")) as [->|]; [by vm_compute|by rewrite lookup_singleton_ne].
Defined.
