(* ===== verification/Presence.v ===== *)
(** * Presence: [synapse/api/presence.py] and [synapse/handlers/presence.py]

    The functions that decide what becomes of a presence state, and the operations of
    [PresenceHandler] on its tables and on the wheel timer.  An operation takes the
    time [now] the clock gives it and runs without interruption; what is persisted,
    announced to clients and sent to other servers is not kept beyond the states that
    are to be announced.  The requests' JSON is given by its fields. *)

From S2P Require Import Prelude PyVal Constants Ids TopoSort EventObjects WheelTimer.

Module PresenceState.
Definition OFFLINE : string := "offline".
Definition UNAVAILABLE : string := "unavailable".
Definition ONLINE : string := "online".
Definition BUSY : string := "org.matrix.msc3026.busy".
End PresenceState.

Record UserDevicePresenceState := MkDevice {
  dev_state : string;
  dev_last_active_ts : Z;
  dev_last_sync_ts : Z
}.

Record UserPresenceState := MkPresence {
  p_user_id : string;
  p_state : string;
  last_active_ts : Z;
  last_federation_update_ts : Z;
  last_user_sync_ts : Z;
  status_msg : option string;
  currently_active : bool
}.

#[export] Instance device_eq_dec : EqDecision UserDevicePresenceState.
Proof. solve_decision. Defined.
#[export] Instance presence_eq_dec : EqDecision UserPresenceState.
Proof. solve_decision. Defined.

Definition default_device : UserDevicePresenceState := MkDevice PresenceState.OFFLINE 0 0.
Definition default_presence (user_id : string) : UserPresenceState :=
  MkPresence user_id PresenceState.OFFLINE 0 0 0 None false.

Definition with_state (s : UserPresenceState) (st : string) : UserPresenceState :=
  MkPresence (p_user_id s) st (last_active_ts s) (last_federation_update_ts s)
    (last_user_sync_ts s) (status_msg s) (currently_active s).
Definition with_currently_active (s : UserPresenceState) (b : bool) : UserPresenceState :=
  MkPresence (p_user_id s) (p_state s) (last_active_ts s) (last_federation_update_ts s)
    (last_user_sync_ts s) (status_msg s) b.
Definition with_federation_update (s : UserPresenceState) (ts : Z) : UserPresenceState :=
  MkPresence (p_user_id s) (p_state s) (last_active_ts s) ts
    (last_user_sync_ts s) (status_msg s) (currently_active s).
Definition with_user_sync (s : UserPresenceState) (ts : Z) : UserPresenceState :=
  MkPresence (p_user_id s) (p_state s) (last_active_ts s) (last_federation_update_ts s)
    ts (status_msg s) (currently_active s).
Definition with_last_active (s : UserPresenceState) (ts : Z) : UserPresenceState :=
  MkPresence (p_user_id s) (p_state s) ts (last_federation_update_ts s)
    (last_user_sync_ts s) (status_msg s) (currently_active s).

(** ** Constants, in milliseconds *)

Definition LAST_ACTIVE_GRANULARITY : Z := 60 * 1000.
Definition SYNC_ONLINE_TIMEOUT : Z := 30 * 1000.
Definition BUSY_ONLINE_TIMEOUT : Z := 60 * 60 * 1000.
Definition IDLE_TIMER : Z := 5 * 60 * 1000.
Definition FEDERATION_TIMEOUT : Z := 30 * 60 * 1000.
Definition FEDERATION_PING_INTERVAL : Z := 25 * 60 * 1000.
Definition EXTERNAL_PROCESS_EXPIRY : Z := 5 * 60 * 1000.

(** ** Deciding on one state *)

Definition should_notify (old_state new_state : UserPresenceState) : bool :=
  if bool_decide (old_state = new_state) then false
  else if negb (bool_decide (status_msg old_state = status_msg new_state)) then true
  else if negb (bool_decide (p_state old_state = p_state new_state)) then true
  else if bool_decide (p_state old_state = PresenceState.ONLINE) then
    if negb (Bool.eqb (currently_active new_state) (currently_active old_state)) then true
    else if LAST_ACTIVE_GRANULARITY <? last_active_ts new_state - last_active_ts old_state
    then negb (currently_active new_state)
    else false
  else LAST_ACTIVE_GRANULARITY <? last_active_ts new_state - last_active_ts old_state.

Definition format_user_presence_state (state : UserPresenceState) (now : Z)
    (include_user_id : bool) : dict :=
  [("presence", JStr (p_state state))] ++
  (if include_user_id then [("user_id", JStr (p_user_id state))] else []) ++
  (if last_active_ts state =? 0 then [] else [("last_active_ago", JInt (now - last_active_ts state))]) ++
  (match status_msg state with
   | Some m => if bool_decide (m = "") then [] else [("status_msg", JStr m)]
   | None => [] end) ++
  (if bool_decide (p_state state = PresenceState.ONLINE)
   then [("currently_active", JBool (currently_active state))] else []).

(** [PRESENCE_BY_PRIORITY[state]] *)
Definition PRESENCE_BY_PRIORITY (state : string) : result Z :=
  if bool_decide (state = PresenceState.BUSY) then Ok 4
  else if bool_decide (state = PresenceState.ONLINE) then Ok 3
  else if bool_decide (state = PresenceState.UNAVAILABLE) then Ok 2
  else if bool_decide (state = PresenceState.OFFLINE) then Ok 1
  else Err (PyBuiltin KeyError).

(** The body of the loop of [_combine_device_states]: tuples compare
    lexicographically. *)
Definition combine_step (best : string * Z) (device_state : UserDevicePresenceState)
    : result (string * Z) :=
  let '(presence, last_active_ts) := best in
  p ← PRESENCE_BY_PRIORITY (dev_state device_state);
  q ← PRESENCE_BY_PRIORITY presence;
  Ok (if (q <? p) || ((p =? q) && (last_active_ts <? dev_last_active_ts device_state))
      then (dev_state device_state, dev_last_active_ts device_state) else best).

Definition _combine_device_states (device_states : list UserDevicePresenceState) : result string :=
  fst <$> fold_res combine_step device_states (PresenceState.OFFLINE, -1).

Abbreviation devices := (gmap (option string) UserDevicePresenceState).
Abbreviation sync_set := (gset (string * option string)).

(** [device_state.state = UNAVAILABLE] if it was active too long ago. *)
Definition idle_device (now : Z) (d : UserDevicePresenceState) : UserDevicePresenceState :=
  if bool_decide (dev_state d = PresenceState.ONLINE) && (IDLE_TIMER <? now - dev_last_active_ts d)
  then MkDevice PresenceState.UNAVAILABLE (dev_last_active_ts d) (dev_last_sync_ts d) else d.

Definition device_timed_out (syncing : sync_set) (user : string) (now : Z) (device_id : option string)
    (d : UserDevicePresenceState) : bool :=
  negb (bool_decide ((user, device_id) ∈ syncing)) &&
  ((if bool_decide (dev_state d = PresenceState.BUSY) then BUSY_ONLINE_TIMEOUT
    else SYNC_ONLINE_TIMEOUT) <? now - Z.max (dev_last_sync_ts d) (dev_last_active_ts d)).

(** The devices after the loop, the offline ones removed. *)
Definition timeout_devices (syncing : sync_set) (user : string) (now : Z) (ds : devices) : devices :=
  map_imap (λ device_id d,
      let d := idle_device now d in
      if device_timed_out syncing user now device_id d then None else Some d) ds.

(** [handle_timeout], with the devices it leaves. *)
Definition handle_timeout (state : UserPresenceState) (is_mine : bool) (syncing : sync_set)
    (user_devices : devices) (now : Z) : result (option UserPresenceState * devices) :=
  if bool_decide (p_state state = PresenceState.OFFLINE) then Ok (None, user_devices)
  else if is_mine then
    let user_devices' := timeout_devices syncing (p_user_id state) now user_devices in
    new_presence ←
      (if bool_decide (user_devices' = user_devices) then Ok (p_state state)
       else _combine_device_states (map_to_list user_devices').*2);
    let changed := negb (bool_decide (new_presence = p_state state)) in
    let state := with_state state new_presence in
    let changed := changed
      || (LAST_ACTIVE_GRANULARITY <? now - last_active_ts state)
      || (FEDERATION_PING_INTERVAL <? now - last_federation_update_ts state) in
    Ok (if changed then Some state else None, user_devices')
  else
    if FEDERATION_TIMEOUT <? now - last_federation_update_ts state
    then Ok (Some (with_state state PresenceState.OFFLINE), user_devices)
    else Ok (None, user_devices).

(** ** Timers *)

Definition handle_update (prev_state new_state : UserPresenceState) (is_mine : bool)
    (wheel_timer : WheelTimer) (now : Z) (persist : bool)
    : result (UserPresenceState * bool * bool * WheelTimer) :=
  let user_id := p_user_id new_state in
  let arm (b : bool) (then_ : Z) (w : WheelTimer) : result WheelTimer :=
    if b then WheelTimer.insert now user_id then_ w else Ok w in
  '(new_state, federation_ping, w) ←
    (if is_mine then
       '(new_state, w) ←
         (if bool_decide (p_state new_state = PresenceState.ONLINE) then
            w ← arm (negb persist) (last_active_ts new_state + IDLE_TIMER) wheel_timer;
            let active := now - last_active_ts new_state <? LAST_ACTIVE_GRANULARITY in
            let new_state := with_currently_active new_state active in
            w ← arm (active && negb persist) (last_active_ts new_state + LAST_ACTIVE_GRANULARITY) w;
            Ok (new_state, w)
          else Ok (new_state, wheel_timer));
       '(new_state, ping, w) ←
         (if negb (bool_decide (p_state new_state = PresenceState.OFFLINE)) then
            w ← arm (negb persist) (last_user_sync_ts new_state + SYNC_ONLINE_TIMEOUT) w;
            if FEDERATION_PING_INTERVAL <? now - last_federation_update_ts new_state
            then Ok (with_federation_update new_state now, true, w)
            else Ok (new_state, false, w)
          else Ok (new_state, false, w));
       w ← arm (bool_decide (p_state new_state = PresenceState.BUSY) && negb persist)
             (last_user_sync_ts new_state + BUSY_ONLINE_TIMEOUT) w;
       Ok (new_state, ping, w)
     else
       w ← arm (negb persist) (last_federation_update_ts new_state + FEDERATION_TIMEOUT) wheel_timer;
       Ok (new_state, false, w));
  if should_notify prev_state new_state
  then Ok (with_federation_update new_state now, true, federation_ping, w)
  else Ok (new_state, false, federation_ping, w).

(** ** [PresenceHandler] *)

Record config := MkConfig {
  is_mine_id : string → bool;
  _presence_enabled : bool;
  _track_presence : bool;
  msc3026_enabled : bool
}.

Record PresenceHandler := MkHandler {
  user_to_current_state : gmap string UserPresenceState;
  wheel_timer : WheelTimer;
  _user_to_device_to_current_state : gmap string devices;
  unpersisted_users_changes : gset string;
  _user_device_to_num_current_syncs : gmap (string * option string) Z;
  external_process_to_current_syncs : gmap string sync_set;
  external_process_last_updated_ms : gmap string Z
}.

Definition set_devices (h : PresenceHandler) (user : string) (ds : devices) : PresenceHandler :=
  MkHandler (user_to_current_state h) (wheel_timer h)
    (<[user := ds]> (_user_to_device_to_current_state h)) (unpersisted_users_changes h)
    (_user_device_to_num_current_syncs h) (external_process_to_current_syncs h)
    (external_process_last_updated_ms h).

Definition set_current (h : PresenceHandler) (states : gmap string UserPresenceState)
    (w : WheelTimer) (unpersisted : gset string) : PresenceHandler :=
  MkHandler states w (_user_to_device_to_current_state h) unpersisted
    (_user_device_to_num_current_syncs h) (external_process_to_current_syncs h)
    (external_process_last_updated_ms h).

Definition set_syncs (h : PresenceHandler) (syncs : gmap (string * option string) Z) : PresenceHandler :=
  MkHandler (user_to_current_state h) (wheel_timer h) (_user_to_device_to_current_state h)
    (unpersisted_users_changes h) syncs (external_process_to_current_syncs h)
    (external_process_last_updated_ms h).

Definition set_external (h : PresenceHandler) (procs : gmap string sync_set)
    (updated : gmap string Z) : PresenceHandler :=
  MkHandler (user_to_current_state h) (wheel_timer h) (_user_to_device_to_current_state h)
    (unpersisted_users_changes h) (_user_device_to_num_current_syncs h) procs updated.

Section handler.
Context `{IterOrder} (cfg : config).
(** [store.get_presence_for_users], one user at a time *)
Context (load : string → option UserPresenceState).

(** [__init__]: the states the database had, each with a pseudo-device and timers. *)
Definition init_user (now : Z) (h : PresenceHandler) (state : UserPresenceState)
    : result PresenceHandler :=
  let user := p_user_id state in
  let h := set_devices h user
    {[None := MkDevice (p_state state) (last_active_ts state) (last_user_sync_ts state)]} in
  w ← WheelTimer.insert now user (last_active_ts state + IDLE_TIMER) (wheel_timer h);
  w ← WheelTimer.insert now user (last_user_sync_ts state + SYNC_ONLINE_TIMEOUT) w;
  w ← WheelTimer.insert now user
        (last_federation_update_ts state +
         if is_mine_id cfg user then FEDERATION_PING_INTERVAL else FEDERATION_TIMEOUT) w;
  Ok (set_current h (user_to_current_state h) w (unpersisted_users_changes h)).

Definition new_PresenceHandler (active_presence : list UserPresenceState) (now : Z)
    : result PresenceHandler :=
  let states : gmap string UserPresenceState :=
    foldl (λ m s, <[p_user_id s := s]> m) ∅ active_presence in
  let h := MkHandler states (new_WheelTimer 5000) ∅ ∅ ∅ ∅ ∅ in
  if _track_presence cfg
  then fold_res (init_user now) (dict_items states).*2 h else Ok h.

(** [current_state_for_user]: a state made up for an unknown user is remembered. *)
Definition current_state_for_user (user : string) (h : PresenceHandler)
    : UserPresenceState * PresenceHandler :=
  match user_to_current_state h !! user with
  | Some s => (s, h)
  | None =>
      match load user with
      | Some s => (s, h)
      | None =>
          let s := default_presence user in
          (s, set_current h (<[user := s]> (user_to_current_state h)) (wheel_timer h)
                (unpersisted_users_changes h))
      end
  end.

(** One new state: the table, the timer, the states to announce and to resend. *)
Definition update_one (now : Z) (force_notify : bool)
    (st : gmap string UserPresenceState * WheelTimer *
          list (string * UserPresenceState) * list (string * UserPresenceState))
    (new_state : UserPresenceState)
    : result (gmap string UserPresenceState * WheelTimer *
              list (string * UserPresenceState) * list (string * UserPresenceState)) :=
  let '(states, w, to_notify, to_federation_ping) := st in
  let user := p_user_id new_state in
  let prev_state := default (default_presence user) (states !! user) in
  '(new_state, notify, should_ping, w) ←
    handle_update prev_state new_state (is_mine_id cfg user) w now (negb (_track_presence cfg));
  let notify := force_notify || notify in
  let states := <[user := new_state]> states in
  Ok (if notify then (states, w, dict_set user new_state to_notify, to_federation_ping)
      else if should_ping : bool then (states, w, to_notify, dict_set user new_state to_federation_ping)
      else (states, w, to_notify, to_federation_ping)).

(** [_update_states], with the states it announces to everybody and those it only
    resends to other servers. *)
Definition _update_states (new_states : list UserPresenceState) (force_notify : bool) (now : Z)
    (h : PresenceHandler)
    : result (list UserPresenceState * list UserPresenceState * PresenceHandler) :=
  if negb (_presence_enabled cfg) then Ok ([], [], h)
  else
    let new_states := (foldl (λ d s, dict_set (p_user_id s) s d) [] new_states).*2 in
    '(states, w, to_notify, to_federation_ping) ←
      fold_res (update_one now force_notify) new_states (user_to_current_state h, wheel_timer h, [], []);
    let unpersisted :=
      (unpersisted_users_changes h ∪ list_to_set (p_user_id <$> new_states))
        ∖ list_to_set to_notify.*1 in
    let to_federation_ping := filter (λ kv : string * UserPresenceState, kv.1 ∉ to_notify.*1) to_federation_ping in
    Ok (to_notify.*2, to_federation_ping.*2, set_current h states w unpersisted).

(** [syncing_user_devices] *)
Definition syncing_user_devices (h : PresenceHandler) : sync_set :=
  dom (filter (λ kv : (string * option string) * Z, kv.2 ≠ 0) (_user_device_to_num_current_syncs h)) ∪
  map_fold (λ _ s acc, s ∪ acc) ∅ (external_process_to_current_syncs h).

(** The body of the loop of [handle_timeouts]: the changes, and the devices left. *)
Definition timeout_one (syncing : sync_set) (now : Z)
    (acc : list (string * UserPresenceState) * gmap string devices) (state : UserPresenceState)
    : result (list (string * UserPresenceState) * gmap string devices) :=
  let '(changes, utd) := acc in
  let user := p_user_id state in
  '(new_state, ds) ← handle_timeout state (is_mine_id cfg user) syncing
                       (default ∅ (utd !! user)) now;
  let utd := match utd !! user with Some _ => <[user := ds]> utd | None => utd end in
  Ok (match new_state with Some s => dict_set user s changes | None => changes end, utd).

(** [handle_timeouts]: the updates by user, and the devices left. *)
Definition handle_timeouts (states : list UserPresenceState) (syncing : sync_set) (now : Z)
    (user_to_devices : gmap string devices)
    : result (list UserPresenceState * gmap string devices) :=
  '(changes, user_to_devices) ← fold_res (timeout_one syncing now) states ([], user_to_devices);
  Ok (changes.*2, user_to_devices).

Definition expired_process_ids (now : Z) (h : PresenceHandler) : gset string :=
  dom (filter (λ kv : string * Z, EXTERNAL_PROCESS_EXPIRY < now - kv.2) (external_process_last_updated_ms h)).

(** The users syncing on a process that has expired. *)
Definition expired_users (expired : gset string) (h : PresenceHandler) : gset string :=
  map_fold (λ p s acc, if decide (p ∈ expired) then set_map fst s ∪ acc else acc) ∅
    (external_process_to_current_syncs h).

Definition _handle_timeouts (now : Z) (h : PresenceHandler)
    : result (list UserPresenceState * list UserPresenceState * PresenceHandler) :=
  let '(due, w) := WheelTimer.fetch now (wheel_timer h) in
  let expired := expired_process_ids now h in
  let users_to_check : gset string := list_to_set due ∪ expired_users expired h in
  let h := set_current h (user_to_current_state h) w (unpersisted_users_changes h) in
  let h := set_external h
    (filter (λ kv : string * sync_set, kv.1 ∉ expired) (external_process_to_current_syncs h))
    (filter (λ kv : string * Z, kv.1 ∉ expired) (external_process_last_updated_ms h)) in
  let states := (λ u, default (default_presence u) (user_to_current_state h !! u)) <$>
                  set_iter users_to_check in
  '(changes, utd) ← handle_timeouts states (syncing_user_devices h) now
                      (_user_to_device_to_current_state h);
  _update_states changes false now
    (MkHandler (user_to_current_state h) (wheel_timer h) utd (unpersisted_users_changes h)
       (_user_device_to_num_current_syncs h) (external_process_to_current_syncs h)
       (external_process_last_updated_ms h)).

(** The device a request comes from, created if it is new. *)
Definition device_of (h : PresenceHandler) (user : string) (device_id : option string)
    : devices * UserDevicePresenceState :=
  let ds := default ∅ (_user_to_device_to_current_state h !! user) in
  (ds, default default_device (ds !! device_id)).

Definition bump_presence_active_time (user : string) (device_id : option string) (now : Z)
    (h : PresenceHandler)
    : result (list UserPresenceState * list UserPresenceState * PresenceHandler) :=
  if negb (_track_presence cfg) then Ok ([], [], h)
  else
    let '(ds, d) := device_of h user device_id in
    let st := if bool_decide (dev_state d = PresenceState.UNAVAILABLE)
              then PresenceState.ONLINE else dev_state d in
    let ds := <[device_id := MkDevice st now (dev_last_sync_ts d)]> ds in
    let h := set_devices h user ds in
    let '(prev_state, h) := current_state_for_user user h in
    st ← _combine_device_states (map_to_list ds).*2;
    _update_states [with_state (with_last_active prev_state now) st] false now h.

Definition VALID_PRESENCE : list string :=
  [PresenceState.ONLINE; PresenceState.UNAVAILABLE; PresenceState.OFFLINE] ++
  if msc3026_enabled cfg then [PresenceState.BUSY] else [].

Definition set_state (user : string) (device_id : option string) (presence : string)
    (msg : option string) (force_notify is_sync : bool) (now : Z) (h : PresenceHandler)
    : result (list UserPresenceState * list UserPresenceState * PresenceHandler) :=
  raise_if (negb (bool_decide (presence ∈ VALID_PRESENCE)))
    (SynapseError 400 "Invalid presence state" Codes.UNKNOWN) ;;
  if negb (_track_presence cfg) then Ok ([], [], h)
  else
    let '(prev_state, h) := current_state_for_user user h in
    let presence :=
      if bool_decide (p_state prev_state = PresenceState.BUSY) && is_sync
      then PresenceState.BUSY else presence in
    let '(ds, d) := device_of h user device_id in
    let ds := <[device_id := MkDevice presence now (if is_sync then now else dev_last_sync_ts d)]> ds in
    let h := set_devices h user ds in
    presence ← _combine_device_states (map_to_list ds).*2;
    let s := with_state prev_state presence in
    let s := if bool_decide (presence = PresenceState.ONLINE)
                || bool_decide (presence = PresenceState.BUSY)
             then with_last_active s now else s in
    let s := if is_sync then with_user_sync s now
             else MkPresence (p_user_id s) (p_state s) (last_active_ts s)
                    (last_federation_update_ts s) (last_user_sync_ts s) msg (currently_active s) in
    _update_states [s] force_notify now h.

(** Entering the context manager of [user_syncing]. *)
Definition user_syncing (user : string) (device_id : option string) (affect_presence : bool)
    (presence : string) (now : Z) (h : PresenceHandler)
    : result (list UserPresenceState * list UserPresenceState * PresenceHandler) :=
  if negb affect_presence || negb (_track_presence cfg) then Ok ([], [], h)
  else
    let syncs := _user_device_to_num_current_syncs h in
    let curr_sync := default 0 (syncs !! (user, device_id)) in
    let h := set_syncs h (<[(user, device_id) := curr_sync + 1]> syncs) in
    set_state user device_id presence None false true now h.

(** Leaving it: [_end]. *)
Definition user_syncing_end (user : string) (device_id : option string) (now : Z)
    (h : PresenceHandler)
    : result (list UserPresenceState * list UserPresenceState * PresenceHandler) :=
  match _user_device_to_num_current_syncs h !! (user, device_id) with
  | None => Ok ([], [], h)
  | Some n =>
      let h := set_syncs h (<[(user, device_id) := n - 1]> (_user_device_to_num_current_syncs h)) in
      let '(prev_state, h) := current_state_for_user user h in
      _update_states [with_user_sync prev_state now] false now h
  end.

Definition update_external_syncs_row (process_id user : string) (device_id : option string)
    (is_syncing : bool) (sync_time_msec now : Z) (h : PresenceHandler)
    : result (list UserPresenceState * list UserPresenceState * PresenceHandler) :=
  let '(prev_state, h) := current_state_for_user user h in
  let procs := external_process_to_current_syncs h in
  let process_presence := default ∅ (procs !! process_id) in
  let present := bool_decide ((user, device_id) ∈ process_presence) in
  let set_proc (s : sync_set) (h : PresenceHandler) : PresenceHandler :=
    set_external h (<[process_id := s]> (external_process_to_current_syncs h))
      (<[process_id := now]> (external_process_last_updated_ms h)) in
  if is_syncing && negb present then Ok ([], [], set_proc ({[(user, device_id)]} ∪ process_presence) h)
  else if negb is_syncing && present then
    let '(ds, d) := device_of h user device_id in
    let ds := <[device_id := MkDevice (dev_state d) (dev_last_active_ts d) sync_time_msec]> ds in
    let h := set_devices h user ds in
    '(notify, ping, h) ← _update_states [with_user_sync prev_state sync_time_msec] false now h;
    Ok (notify, ping, set_proc (process_presence ∖ {[(user, device_id)]}) h)
  else Ok ([], [], set_proc process_presence h).

Definition update_external_syncs_clear (process_id : string) (now : Z) (h : PresenceHandler)
    : result (list UserPresenceState * list UserPresenceState * PresenceHandler) :=
  let process_presence := default ∅ (external_process_to_current_syncs h !! process_id) in
  let h := set_external h (delete process_id (external_process_to_current_syncs h))
             (external_process_last_updated_ms h) in
  let h := foldl (λ h '(user, device_id),
      let '(ds, d) := device_of h user device_id in
      set_devices h user (<[device_id := MkDevice (dev_state d) (dev_last_active_ts d) now]> ds))
      h (set_iter process_presence) in
  let updated_users : gset string := set_map fst process_presence in
  let '(states, h) := foldl (λ '(states, h) user,
      let '(s, h) := current_state_for_user user h in (states ++ [with_user_sync s now], h))
      ([], h) (set_iter updated_users) in
  '(notify, ping, h) ← _update_states states false now h;
  Ok (notify, ping,
      set_external h (external_process_to_current_syncs h)
        (delete process_id (external_process_last_updated_ms h))).

(** An entry of an [m.presence] EDU. *)
Record push := MkPush {
  push_user_id : option string;
  push_presence : option string;
  last_active_ago : option Z;
  push_status_msg : option string;
  push_currently_active : bool
}.

Definition present (o : option string) : option string :=
  match o with Some s => if bool_decide (s = "") then None else Some s | None => None end.

(** One entry: skipped when it is incomplete or of another server's user. *)
Definition push_update (origin : string) (now : Z) (st : list UserPresenceState * PresenceHandler)
    (p : push) : result (list UserPresenceState * PresenceHandler) :=
  let '(updates, h) := st in
  match present (push_user_id p) with
  | None => Ok (updates, h)
  | Some user =>
      domain ← get_domain_from_id user;
      if negb (bool_decide (domain = origin)) then Ok (updates, h)
      else match present (push_presence p) with
      | None => Ok (updates, h)
      | Some presence =>
          let '(prev_state, h) := current_state_for_user user h in
          Ok (updates ++ [MkPresence (p_user_id prev_state) presence
                            (match last_active_ago p with
                             | Some ago => now - ago | None => last_active_ts prev_state end)
                            now (last_user_sync_ts prev_state) (push_status_msg p)
                            (push_currently_active p)], h)
      end
  end.

Definition incoming_presence (origin : string) (pushes : list push) (now : Z) (h : PresenceHandler)
    : result (list UserPresenceState * list UserPresenceState * PresenceHandler) :=
  if negb (_track_presence cfg) then Ok ([], [], h)
  else
    '(updates, h) ← fold_res (push_update origin now) pushes ([], h);
    if bool_decide (updates = []) then Ok ([], [], h) else _update_states updates false now h.

(** What is written to the database, and the handler after it. *)
Definition _persist_unpersisted_changes (h : PresenceHandler)
    : result (list UserPresenceState * PresenceHandler) :=
  states ← map_res (λ u, match user_to_current_state h !! u with
                         | Some s => Ok s | None => Err (PyBuiltin KeyError) end)
             (set_iter (unpersisted_users_changes h));
  Ok (states, set_current h (user_to_current_state h) (wheel_timer h) ∅).
End handler.
