(* ===== verification/PresenceProps.v ===== *)
(** * Presence: consistency, timeouts and timers

    The state of a local user is always the combination of its devices' states; a user
    with a device that is syncing never times out; a silent user does when its timer
    is checked; and two ways in which a user stays online for ever. *)

From S2P Require Import Prelude PyVal Constants Ids TopoSort EventObjects RedactionProps WheelTimer Presence.

(** ** Combining devices *)

(** The priority of a state. *)
Definition prio (s : string) : Z := unwrap 0 (PRESENCE_BY_PRIORITY s).
Definition valid_state (s : string) : Prop := is_ok (PRESENCE_BY_PRIORITY s) = true.

Lemma valid_prio s : valid_state s → PRESENCE_BY_PRIORITY s = Ok (prio s).
Proof. apply unwrap_ok. Qed.

Lemma prio_inj s t : valid_state s → valid_state t → prio s = prio t → s = t.
Proof.
  unfold valid_state, prio, PRESENCE_BY_PRIORITY. repeat case_bool_decide; simpl; try done; congruence.
Qed.

Lemma prio_range s : valid_state s → 1 ≤ prio s.
Proof. unfold valid_state, prio, PRESENCE_BY_PRIORITY. repeat case_bool_decide; done. Qed.

Lemma prio_offline : prio PresenceState.OFFLINE = 1.
Proof. by vm_compute. Qed.
Lemma valid_offline : valid_state PresenceState.OFFLINE.
Proof. by vm_compute. Qed.

Lemma combine_step_ok best d :
  valid_state best.1 → valid_state (dev_state d) →
  ∃ r, combine_step best d = Ok r ∧ valid_state r.1 ∧
    prio r.1 = Z.max (prio best.1) (prio (dev_state d)) ∧ (r.1 = best.1 ∨ r.1 = dev_state d).
Proof.
  intros Hb Hd. destruct best as [p ts]. unfold combine_step. simpl in *.
  rewrite !valid_prio by done. simpl. eexists. split; [done|].
  destruct (Z.ltb_spec (prio p) (prio (dev_state d))); simpl.
  { split_and!; [done|lia|by right]. }
  destruct (Z.eqb_spec (prio (dev_state d)) (prio p)) as [He|]; simpl;
    [|split_and!; [done|lia|by left]].
  destruct (ts <? dev_last_active_ts d); simpl; (split_and!; [done|lia|]); [by right|by left].
Qed.

Lemma combine_fold l best :
  valid_state best.1 → (∀ d, d ∈ l → valid_state (dev_state d)) →
  ∃ r, fold_res combine_step l best = Ok r ∧ valid_state r.1 ∧
    (∀ d, d ∈ l → prio (dev_state d) ≤ prio r.1) ∧ prio best.1 ≤ prio r.1 ∧
    (r.1 = best.1 ∨ ∃ d, d ∈ l ∧ r.1 = dev_state d).
Proof.
  revert best. induction l as [|d l IH]; intros best Hb Hl; simpl.
  { exists best. split_and!; try done; [by intros d ?%not_elem_of_nil|by left]. }
  destruct (combine_step_ok best d) as (r1 & -> & Hv1 & Hp1 & Hc1); [done|apply Hl; by left|].
  simpl. destruct (IH r1) as (r & -> & Hv & Hp & Hb' & Hc); [done|intros; apply Hl; by right|].
  exists r. split_and!; [done|done| |lia|].
  - intros x [->|Hx]%elem_of_cons; [lia|by apply Hp].
  - destruct Hc as [Hc|(x & Hx & Hc)]; [|right; exists x; split; [by right|done]].
    rewrite Hc. destruct Hc1 as [->|Hd]; [by left|right; exists d; split; [by left|done]].
Qed.

Lemma combine_step_valid best d r : combine_step best d = Ok r → valid_state (dev_state d).
Proof.
  destruct best as [p ts]. unfold combine_step, valid_state.
  by destruct (PRESENCE_BY_PRIORITY (dev_state d)).
Qed.

(** [p] is what the devices combine to. *)
Definition devices_ok (ds : devices) (p : string) : Prop :=
  valid_state p ∧ (∀ i x, ds !! i = Some x → valid_state (dev_state x) ∧ prio (dev_state x) ≤ prio p) ∧
  (p = PresenceState.OFFLINE ∨ ∃ i x, ds !! i = Some x ∧ dev_state x = p).

Lemma elem_of_devices (ds : devices) x : x ∈ (map_to_list ds).*2 ↔ ∃ i, ds !! i = Some x.
Proof.
  rewrite list_elem_of_fmap. split.
  - intros ([i y] & -> & Hin%elem_of_map_to_list). eauto.
  - intros [i Hi%elem_of_map_to_list]. by exists (i, x).
Qed.

Lemma combine_total (ds : devices) :
  (∀ i x, ds !! i = Some x → valid_state (dev_state x)) →
  ∃ p, _combine_device_states (map_to_list ds).*2 = Ok p ∧ devices_ok ds p.
Proof.
  intros Hv. destruct (combine_fold (map_to_list ds).*2 (PresenceState.OFFLINE, -1))
    as ([p ts] & Hf & Hp & Hle & _ & Hc).
  { apply valid_offline. }
  { intros d [i Hi]%elem_of_devices. by eapply Hv. }
  exists p. unfold _combine_device_states. rewrite Hf. split; [done|]. simpl in *. split_and!.
  - done.
  - intros i x Hi. split; [by eapply Hv|]. apply Hle, elem_of_devices. eauto.
  - destruct Hc as [->|(d & [i Hi]%elem_of_devices & ->)]; [by left|right; eauto].
Qed.

Lemma devices_ok_unique ds p q : devices_ok ds p → devices_ok ds q → p = q.
Proof.
  intros (Vp & Lp & Cp) (Vq & Lq & Cq). apply prio_inj; [done..|].
  pose proof (prio_range _ Vp). pose proof (prio_range _ Vq). pose proof prio_offline.
  assert (prio p ≤ prio q ∧ prio q ≤ prio p); [|lia]. split.
  - destruct Cp as [->|(i & x & Hi & <-)]; [lia|]. by apply Lq in Hi as [_ ?].
  - destruct Cq as [->|(i & x & Hi & <-)]; [lia|]. by apply Lp in Hi as [_ ?].
Qed.

Lemma combine_valid (l : list UserDevicePresenceState) best r d :
  fold_res combine_step l best = Ok r → d ∈ l → valid_state (dev_state d).
Proof.
  revert best. induction l as [|x l IH]; intros best; simpl; [by intros _ ?%not_elem_of_nil|].
  intros (b & Hb & Hr)%bind_ok [->|Hin]%elem_of_cons; [by eapply combine_step_valid|by eapply IH].
Qed.

(** The combination, whatever the order of the devices. *)
Lemma combine_iff ds p : _combine_device_states (map_to_list ds).*2 = Ok p ↔ devices_ok ds p.
Proof.
  split.
  - intros Hp. assert (Hv : ∀ i x, ds !! i = Some x → valid_state (dev_state x)).
    { intros i x Hi. apply fmap_ok in Hp as (r & Hr & _). eapply combine_valid; [done|].
      apply elem_of_devices. eauto. }
    destruct (combine_total ds Hv) as (q & Hq & Hok). congruence.
  - intros Hok. destruct (combine_total ds) as (q & Hq & Hok').
    { intros i x Hi. by apply Hok in Hi as [? _]. }
    by rewrite Hq, (devices_ok_unique ds q p).
Qed.

(** Touching a device without changing its state. *)
Lemma devices_ok_touch ds p i x :
  devices_ok ds p → dev_state x = dev_state (default default_device (ds !! i)) →
  devices_ok (<[i := x]> ds) p.
Proof.
  intros (Vp & Lp & Cp) Hx. split_and!; [done| |].
  - intros j y. destruct (decide (j = i)) as [->|].
    + rewrite lookup_insert_eq. intros [= <-]. rewrite Hx.
      destruct (ds !! i) as [z|] eqn:Hi; simpl; [by apply Lp in Hi|].
      split; [apply valid_offline|]. pose proof (prio_range _ Vp). unfold default_device. simpl.
      rewrite prio_offline. lia.
    + rewrite lookup_insert_ne by done. apply Lp.
  - destruct Cp as [->|(j & y & Hj & Hy)]; [by left|right].
    destruct (decide (j = i)) as [->|].
    + exists i, x. rewrite lookup_insert_eq. split; [done|]. by rewrite Hx, Hj.
    + exists j, y. by rewrite lookup_insert_ne.
Qed.

(** ** The wheel, as the handler uses it *)

Abbreviation key t := (Z.quot t 5000).

(** A wheel of the handler at time [now]: its first bucket is at most the next one. *)
Definition wheel_ok `{IterOrder} (now : Z) (w : WheelTimer) : Prop :=
  timer_reachable 5000 w ∧ ∀ k, head (keys w) = Some k → k ≤ key now + 1.

(** A later wheel, in which whatever waited still waits. *)
Definition wheel_le (w w' : WheelTimer) : Prop := ∀ o k, due_by w o k → due_by w' o k.

#[export] Instance wheel_le_po : PreOrder wheel_le.
Proof. split; [by intros w o k|]. intros w1 w2 w3 H1 H2 o k H. auto. Qed.

Lemma add_at_keys i o w w' : add_at i o w = Ok w' → keys w' = keys w.
Proof.
  unfold add_at. case_bool_decide; [|done]. intros Hw.
  assert (w' = MkTimer (bucket_size w) (alter (add_element o) (Z.to_nat i) (entries w)) (current_tick w))
    as -> by congruence.
  unfold keys. simpl. apply list_eq. intros j. rewrite !list_lookup_fmap.
  destruct (decide (Z.to_nat i = j)) as [<-|Hne].
  - rewrite list_lookup_alter_eq. by destruct (entries w !! Z.to_nat i).
  - by rewrite list_lookup_alter_ne.
Qed.

Lemma extend_head w nk tk o w' :
  extend_and_add w nk tk o = Ok w' →
  head (keys w') = match head (keys w) with Some k => Some k | None => Some (nk + 1) end.
Proof.
  unfold extend_and_add. intros Hw%add_at_keys. rewrite Hw. unfold keys. simpl.
  rewrite fmap_app, end_key_new_entries. destruct (entries w) as [|e l]; [|done]. simpl.
  by rewrite seqZ_cons by lia.
Qed.

Lemma insert_head now o t w w' :
  WheelTimer.insert now o t w = Ok w' →
  head (keys w') = match head (keys w) with Some k => Some k | None => Some (key_of w now + 1) end.
Proof.
  unfold WheelTimer.insert. destruct (entries w) as [|e l] eqn:He.
  { simpl. intros Hw. by rewrite (extend_head _ _ _ _ _ Hw). }
  assert (Hk : head (keys w) = Some (end_key e)) by (unfold keys; by rewrite He).
  rewrite <- He. assert (head (entries w) = Some e) as -> by (by rewrite He). cbn iota beta.
  destruct (last (entries w)); [case_match|]; intros Hw; try by rewrite (extend_head _ _ _ _ _ Hw).
  rewrite (add_at_keys _ _ _ _ Hw). by rewrite Hk.
Qed.

Lemma key_mono a b : a ≤ b → key a ≤ key b.
Proof. intros. apply Z.quot_le_mono; lia. Qed.

Lemma wheel_ok_later `{IterOrder} now now' w : now ≤ now' → wheel_ok now w → wheel_ok now' w.
Proof. intros Hle [Hr Hh]. split; [done|]. intros k Hk%Hh. pose proof (key_mono _ _ Hle). lia. Qed.

Lemma wheel_ok_size `{IterOrder} now w : wheel_ok now w → bucket_size w = 5000.
Proof. by intros [[_ ?]%timer_reachable_dense _]. Qed.

(** A timer that is armed is due in the bucket after its time, or in the next one. *)
Lemma arm_spec `{IterOrder} (b : bool) now u t w :
  wheel_ok now w →
  ∃ w', (if b then WheelTimer.insert now u t w else Ok w) = Ok w' ∧ wheel_ok now w' ∧ wheel_le w w' ∧
    (b = true → due_by w' u (Z.max (key t) (key now) + 1)).
Proof.
  intros Hw. destruct b; [|by exists w]. pose proof (wheel_ok_size _ _ Hw) as Hs.
  destruct Hw as [Hr Hh]. pose proof (timer_reachable_dense _ _ Hr) as [Hd _].
  destruct (insert_spec w now u t Hd) as (w' & Hi & _ & _ & (e & He & Hu & Hk) & Hle).
  exists w'. split_and!; [done| |done|].
  - split; [by eapply timer_insert|]. rewrite (insert_head _ _ _ _ _ Hi). unfold key_of. rewrite Hs.
    intros k. destruct (head (keys w)) as [k'|] eqn:Hk'; intros [= <-]; [by apply Hh|lia].
  - intros _. exists e. split_and!; [done..|]. etrans; [exact Hk|].
    unfold latest_key, key_of. rewrite Hs.
    unfold keys in Hh. destruct (entries w) as [|e0 l]; simpl in *; [lia|].
    specialize (Hh _ eq_refl). lia.
Qed.

Lemma fetch_wheel_ok `{IterOrder} now w : wheel_ok now w → wheel_ok now (fetch now w).2.
Proof.
  intros Hw. pose proof (wheel_ok_size _ _ Hw) as Hs. destruct Hw as [Hr Hh].
  split; [by constructor|]. apply timer_reachable_dense in Hr as [Hd _].
  unfold fetch, key_of, keys in *. rewrite Hs.
  pose proof (pop_due_spec (key now) (entries w) (dense_sorted _ Hd)) as Hp.
  destruct (pop_due (key now) (entries w)) as [due rest]. destruct Hp as (He & Hdue & Hrest). simpl.
  intros k Hk. rewrite He, fmap_app in Hd, Hh.
  destruct (last due) as [x|] eqn:Hl; cycle 1.
  { apply last_None in Hl. subst due. by apply Hh. }
  apply last_Some in Hl as [l' ->]. rewrite fmap_app, <- app_assoc in Hd. apply dense_suffix in Hd.
  destruct rest as [|y rest]; [done|]. simpl in Hk, Hd. injection Hk as <-.
  apply Forall_app in Hdue as [_ Hx]. apply Forall_cons in Hx as [Hx _]. lia.
Qed.

(** ** Updates *)

(** [s'] is [s] but for what [handle_update] may set. *)
Definition same_presence (s s' : UserPresenceState) : Prop :=
  p_user_id s' = p_user_id s ∧ p_state s' = p_state s ∧ last_active_ts s' = last_active_ts s ∧
  last_user_sync_ts s' = last_user_sync_ts s ∧ status_msg s' = status_msg s.

(** When the timer of a user that is not offline is due, once [s] is recorded. *)
Definition deadline (mine : bool) (s : UserPresenceState) : Z :=
  if mine then last_user_sync_ts s + SYNC_ONLINE_TIMEOUT
  else last_federation_update_ts s + FEDERATION_TIMEOUT.

Definition armed (mine : bool) (now : Z) (s : UserPresenceState) (w : WheelTimer) : Prop :=
  mine = false ∨ p_state s ≠ PresenceState.OFFLINE →
  due_by w (p_user_id s) (Z.max (key (deadline mine s)) (key now) + 1).

Lemma armed_le mine now s w w' : wheel_le w w' → armed mine now s w → armed mine now s w'.
Proof. intros Hle Ha Hs. by apply Hle, Ha. Qed.

(** The states by user, the last one of a user kept. *)
Definition by_user (news : list UserPresenceState) : list (string * UserPresenceState) :=
  foldl (λ d s, dict_set (p_user_id s) s d) [] news.

Lemma by_user_snoc news s : by_user (news ++ [s]) = dict_set (p_user_id s) s (by_user news).
Proof. unfold by_user. by rewrite foldl_app. Qed.

Lemma by_user_spec news :
  NoDup (by_user news).*1 ∧ (by_user news).*1 = p_user_id <$> (by_user news).*2 ∧
  (∀ s, s ∈ (by_user news).*2 → s ∈ news) ∧
  (∀ u, u ∈ (by_user news).*1 ↔ u ∈ p_user_id <$> news).
Proof.
  induction news as [|s news (Hnd & Hk & Hin & Hids)] using rev_ind.
  { split_and!; [constructor|done|done|done]. }
  rewrite by_user_snoc. split_and!.
  - by apply dict_set_NoDup.
  - clear -Hk. induction (by_user news) as [|[k v] d IH]; [done|].
    simpl in Hk. injection Hk as Hk1 Hk2. simpl. case_decide; simpl; f_equal; auto.
  - intros x ([k v] & -> & [[= -> ->]|Hx]%elem_of_dict_set)%list_elem_of_fmap; apply elem_of_app.
    + right. by left.
    + left. apply Hin, list_elem_of_fmap. by exists (k, v).
  - intros u. rewrite dict_set_keys, fmap_app, elem_of_app. rewrite <- Hids.
    case_decide as Hd; [|by rewrite elem_of_app].
    split; [by left|]. intros [?| ->%list_elem_of_singleton]; done.
Qed.

Lemma by_user_nodup news : NoDup (p_user_id <$> news) → (by_user news).*2 = news.
Proof.
  induction news as [|s news IH] using rev_ind; [done|]. rewrite by_user_snoc, fmap_app.
  intros (Hnd & Hni & _)%NoDup_app. rewrite <- (IH Hnd) at 2.
  assert (Hs : p_user_id s ∉ (by_user news).*1).
  { destruct (by_user_spec news) as (_ & _ & _ & Hu). rewrite Hu. intros Hx. apply (Hni _ Hx). by left. }
  clear -Hs. induction (by_user news) as [|[k v] d IH]; [done|]. simpl in *.
  apply not_elem_of_cons in Hs as [? Hs]. rewrite decide_False by done. simpl. f_equal. auto.
Qed.

(** [arm Hw]: run the next arming of a timer on the wheel of [Hw]. *)
Ltac arm Hw :=
  match goal with
  | |- context [if ?b then WheelTimer.insert ?now ?u ?t ?w else Ok ?w] =>
      let w' := fresh "w" in let E := fresh "E" in let L := fresh "L" in let D := fresh "D" in
      let H := fresh in
      destruct (arm_spec b now u t w Hw) as (w' & E & H & L & D);
      rewrite E; clear E Hw; rename H into Hw; cbn [mbind result_bind]
  | |- context [WheelTimer.insert ?now ?u ?t ?w] =>
      let w' := fresh "w" in let E := fresh "E" in let L := fresh "L" in let D := fresh "D" in
      let H := fresh in
      destruct (arm_spec true now u t w Hw) as (w' & E & H & L & D);
      rewrite E; clear E Hw; rename H into Hw; cbn [mbind result_bind]
  end.

Section updates.
Context `{IterOrder} (cfg : config).
Hypothesis track : _track_presence cfg = true.
Hypothesis enabled : _presence_enabled cfg = true.

(** [handle_update] keeps the state and arms the timers. *)
Lemma handle_update_spec prev new mine w now :
  wheel_ok now w →
  ∃ s' notify ping w', handle_update prev new mine w now false = Ok (s', notify, ping, w') ∧
    same_presence new s' ∧ wheel_ok now w' ∧ wheel_le w w' ∧ armed mine now new w'.
Proof.
  intros Hw. unfold handle_update. cbn [negb].
  assert (Hn : ∀ s (ping : bool) w', same_presence new s → wheel_ok now w' → wheel_le w w' → armed mine now new w' →
    ∃ s' notify ping' w'', (if should_notify prev s then Ok (with_federation_update s now, true, ping, w')
      else Ok (s, false, ping, w')) = Ok (s', notify, ping', w'') ∧
      same_presence new s' ∧ wheel_ok now w'' ∧ wheel_le w w'' ∧ armed mine now new w'').
  { intros s ping w' Hs ? ? ?. destruct (should_notify prev s); 
      (eexists _, _, _, _; split; [reflexivity|]; split_and!; [exact Hs|done..]). }
  destruct mine; cycle 1.
  { arm Hw. apply Hn; [done..|]. intros _. by apply D. }
  destruct (bool_decide (p_state new = PresenceState.ONLINE)) eqn:Hon; cbn [mbind result_bind].
  - arm Hw. arm Hw.
    rewrite (bool_decide_false (_ = PresenceState.OFFLINE)); cycle 1.
    { simpl. apply bool_decide_eq_true in Hon as ->. done. }
    cbn [negb]. arm Hw. simpl p_state.
    destruct (FEDERATION_PING_INTERVAL <? _); cbn [mbind result_bind]; arm Hw;
      (apply Hn; [done|done|by repeat (etrans; [eassumption|])|intros _; apply L2, D1, eq_refl]).
  - destruct (bool_decide (p_state new = PresenceState.OFFLINE)) eqn:Hoff; cbn [negb mbind result_bind].
    + arm Hw. apply Hn; [done..|]. apply bool_decide_eq_true in Hoff. by intros [|].
    + arm Hw. destruct (FEDERATION_PING_INTERVAL <? _); cbn [mbind result_bind]; arm Hw;
        (apply Hn; [done|done|by repeat (etrans; [eassumption|])|intros _; apply L0, D, eq_refl]).
Qed.

(** What a list of new states makes of the table. *)
Definition updated (news : list UserPresenceState) (states states' : gmap string UserPresenceState) : Prop :=
  (∀ u s', states' !! u = Some s' →
     (∃ s, s ∈ news ∧ p_user_id s = u ∧ same_presence s s') ∨
     (states !! u = Some s' ∧ ∀ s, s ∈ news → p_user_id s ≠ u)) ∧
  dom states' = dom states ∪ list_to_set (p_user_id <$> news).

Lemma update_one_spec now force states w nt ping s :
  wheel_ok now w →
  ∃ states' w' nt' ping', update_one cfg now force (states, w, nt, ping) s = Ok (states', w', nt', ping') ∧
    wheel_ok now w' ∧ wheel_le w w' ∧ armed (is_mine_id cfg (p_user_id s)) now s w' ∧
    ∃ s', same_presence s s' ∧ states' = <[p_user_id s := s']> states.
Proof.
  intros Hw. unfold update_one. rewrite track. cbn [negb].
  set (prev := default _ _).
  destruct (handle_update_spec prev s (is_mine_id cfg (p_user_id s)) w now Hw)
    as (s' & notify & pg & w' & -> & Hs & Hw' & Hle & Ha). cbn [mbind result_bind].
  destruct (force || notify); [|destruct pg]; eexists _, _, _, _; 
    (split; [reflexivity|]; split_and!; [done..|by exists s']).
Qed.

Lemma update_fold_spec now force news states w nt ping :
  NoDup (p_user_id <$> news) → wheel_ok now w →
  ∃ states' w' nt' ping',
    fold_res (update_one cfg now force) news (states, w, nt, ping) = Ok (states', w', nt', ping') ∧
    wheel_ok now w' ∧ wheel_le w w' ∧ updated news states states' ∧
    ∀ s, s ∈ news → armed (is_mine_id cfg (p_user_id s)) now s w'.
Proof.
  revert states w nt ping. induction news as [|s news IH]; intros states w nt ping Hnd Hw;
    cbn [fold_res].
  { exists states, w, nt, ping. split_and!; [done|done|done| |by intros s ?%not_elem_of_nil].
    split; [|set_solver]. intros u s' Hs. right. split; [done|]. by intros s ?%not_elem_of_nil. }
  apply NoDup_cons in Hnd as [Hni Hnd].
  destruct (update_one_spec now force states w nt ping s Hw)
    as (st1 & w1 & nt1 & pg1 & -> & Hw1 & Hle1 & Ha1 & s1 & Hs1 & ->). cbn [mbind result_bind].
  destruct (IH (<[p_user_id s:=s1]> states) w1 nt1 pg1 Hnd Hw1)
    as (st2 & w2 & nt2 & pg2 & -> & Hw2 & Hle2 & [Hu Hd] & Ha2).
  exists st2, w2, nt2, pg2. split_and!; [done|done|by etrans| |].
  - split.
    + intros u s' [(x & Hx & Hxu & Hxs)|[Hl Hne]]%Hu.
      * left. exists x. split_and!; [by right|done..].
      * apply lookup_insert_Some in Hl as [[<- <-]|[Hne' Hl]]; [left; exists s; by split; [left|]|].
        right. split; [done|]. intros x [->|Hx]%elem_of_cons; [done|by apply Hne].
    + rewrite Hd, dom_insert_L. set_solver.
  - intros x [->|Hx]%elem_of_cons; [by eapply armed_le|by apply Ha2].
Qed.

(** [h'] has the tables of [h] that [_update_states] does not touch. *)
Definition same_tables (h h' : PresenceHandler) : Prop :=
  _user_to_device_to_current_state h' = _user_to_device_to_current_state h ∧
  _user_device_to_num_current_syncs h' = _user_device_to_num_current_syncs h ∧
  external_process_to_current_syncs h' = external_process_to_current_syncs h ∧
  external_process_last_updated_ms h' = external_process_last_updated_ms h.

Lemma update_states_spec news force now h :
  wheel_ok now (wheel_timer h) → unpersisted_users_changes h ⊆ dom (user_to_current_state h) →
  ∃ notify ping h', _update_states cfg news force now h = Ok (notify, ping, h') ∧
    wheel_ok now (wheel_timer h') ∧ wheel_le (wheel_timer h) (wheel_timer h') ∧ same_tables h h' ∧
    updated (by_user news).*2 (user_to_current_state h) (user_to_current_state h') ∧
    unpersisted_users_changes h' ⊆ dom (user_to_current_state h') ∧
    ∀ s, s ∈ (by_user news).*2 → armed (is_mine_id cfg (p_user_id s)) now s (wheel_timer h').
Proof.
  intros Hw Hun. unfold _update_states. rewrite enabled. cbn [negb]. fold (by_user news).
  destruct (by_user_spec news) as (Hnd & Hk & _). rewrite Hk in Hnd.
  destruct (update_fold_spec now force (by_user news).*2 (user_to_current_state h) (wheel_timer h) [] []
    Hnd Hw) as (st & w & nt & pg & -> & Hw' & Hle & Hu & Ha). cbn [mbind result_bind].
  eexists _, _, _. split; [reflexivity|]. simpl.
  split; [done|]. split; [done|]. split; [done|]. split; [done|]. split; [|done].
  destruct Hu as [_ ->]. set_solver.
Qed.
End updates.

(** ** Timeouts of one user *)

Lemma lookup_timeout_devices syncing u now ds i :
  timeout_devices syncing u now ds !! i =
  d ← ds !! i; if device_timed_out syncing u now i (idle_device now d) then None else Some (idle_device now d).
Proof. unfold timeout_devices. by rewrite map_lookup_imap. Qed.

Lemma idle_device_valid now d : valid_state (dev_state d) → valid_state (dev_state (idle_device now d)).
Proof. unfold idle_device. by case_match. Qed.

Lemma timeout_devices_valid syncing u now ds :
  (∀ i x, ds !! i = Some x → valid_state (dev_state x)) →
  ∀ i x, timeout_devices syncing u now ds !! i = Some x → valid_state (dev_state x).
Proof.
  intros Hv i x. rewrite lookup_timeout_devices. destruct (ds !! i) as [d|] eqn:Hd; simpl; [|done].
  case_match; [done|]. intros Hx. assert (x = idle_device now d) as -> by congruence.
  by eapply idle_device_valid, Hv.
Qed.

Lemma handle_timeout_mine s syncing ds now :
  p_state s ≠ PresenceState.OFFLINE → devices_ok ds (p_state s) →
  ∃ p b, devices_ok (timeout_devices syncing (p_user_id s) now ds) p ∧ (b = false → p = p_state s) ∧
    handle_timeout s true syncing ds now =
      Ok (if b then Some (with_state s p) else None, timeout_devices syncing (p_user_id s) now ds).
Proof.
  intros Hs Hok. unfold handle_timeout. rewrite bool_decide_false by done. cbn zeta.
  set (ds' := timeout_devices _ _ _ _).
  assert (∃ p, (if bool_decide (ds' = ds) then Ok (p_state s) else _combine_device_states (map_to_list ds').*2)
    = Ok p ∧ devices_ok ds' p) as (p & -> & Hp).
  { case_bool_decide as Hd; [rewrite Hd; by eexists|]. apply combine_total.
    apply timeout_devices_valid. intros i x Hi. by apply Hok in Hi as [? _]. }
  cbn [mbind result_bind]. eexists p, _. split_and!; [done| |reflexivity].
  intros Hb. apply orb_false_iff in Hb as [Hb _]. apply orb_false_iff in Hb as [Hb _].
  by apply negb_false_iff, bool_decide_eq_true in Hb.
Qed.

Lemma timeout_devices_empty syncing u now : timeout_devices syncing u now ∅ = ∅.
Proof. done. Qed.

(** What [handle_timeout] returns, for any user. *)
Lemma handle_timeout_total s mine syncing ds now :
  (mine = true → devices_ok ds (p_state s)) →
  ∃ o ds', handle_timeout s mine syncing ds now = Ok (o, ds') ∧
    (ds = ∅ → ds' = ∅) ∧ (∀ s', o = Some s' → p_user_id s' = p_user_id s) ∧
    (mine = true → devices_ok ds' (p_state (default s o))).
Proof.
  intros Hok. destruct (decide (p_state s = PresenceState.OFFLINE)) as [Hs|Hs].
  { exists None, ds. unfold handle_timeout. by rewrite bool_decide_true. }
  destruct mine.
  - destruct (handle_timeout_mine s syncing ds now Hs (Hok eq_refl)) as (p & b & Hp & Hb & ->).
    eexists _, _. split; [reflexivity|]. split_and!; [by intros ->|by destruct b; intros s' [= <-]|].
    intros _. destruct b; [done|]. simpl. by rewrite <- Hb.
  - unfold handle_timeout. rewrite bool_decide_false by done.
    case_match; eexists _, _; (split; [reflexivity|]); split_and!; try done. by intros s' [= <-].
Qed.

Lemma dict_set_snoc {A} k (v : A) d : k ∉ d.*1 → dict_set k v d = d ++ [(k, v)].
Proof.
  induction d as [|[k' w] d IH]; [done|]. simpl. intros [? ?]%not_elem_of_cons.
  rewrite decide_False by done. f_equal. auto.
Qed.

Section timeouts.
Context (cfg : config) (syncing : sync_set) (now : Z).

(** The devices of a user in a table. *)
Definition devs (utd : gmap string devices) (u : string) : devices := default ∅ (utd !! u).

Definition ht (utd : gmap string devices) (s : UserPresenceState) :=
  handle_timeout s (is_mine_id cfg (p_user_id s)) syncing (devs utd (p_user_id s)) now.

Lemma timeout_step changes utd s :
  (is_mine_id cfg (p_user_id s) = true → devices_ok (devs utd (p_user_id s)) (p_state s)) →
  p_user_id s ∉ changes.*1 →
  ∃ o ds utd', ht utd s = Ok (o, ds) ∧
    timeout_one cfg syncing now (changes, utd) s =
      Ok (changes ++ match o with Some s' => [(p_user_id s, s')] | None => [] end, utd') ∧
    devs utd' (p_user_id s) = ds ∧ (∀ u, u ≠ p_user_id s → devs utd' u = devs utd u).
Proof.
  intros Hok Hni. unfold ht, devs, timeout_one in *.
  destruct (handle_timeout_total s (is_mine_id cfg (p_user_id s)) syncing
    (default ∅ (utd !! p_user_id s)) now Hok) as (o & ds & Hht & Hemp & _). rewrite Hht. cbn [mbind result_bind].
  eexists _, _, _. split; [done|]. split.
  { f_equal. f_equal. destruct o; [by apply dict_set_snoc|by rewrite app_nil_r]. }
  destruct (utd !! p_user_id s) as [d|] eqn:Hd.
  - rewrite lookup_insert_eq. split; [done|]. intros u Hu. by rewrite lookup_insert_ne.
  - rewrite Hd. simpl. split; [by rewrite Hemp|done].
Qed.

Lemma timeouts_fold l changes utd :
  NoDup (p_user_id <$> l) → (∀ s, s ∈ l → p_user_id s ∉ changes.*1) → NoDup changes.*1 →
  (∀ s, s ∈ l → is_mine_id cfg (p_user_id s) = true → devices_ok (devs utd (p_user_id s)) (p_state s)) →
  ∃ changes' utd', fold_res (timeout_one cfg syncing now) l (changes, utd) = Ok (changes', utd') ∧
    NoDup changes'.*1 ∧
    (∀ u, u ∉ p_user_id <$> l → devs utd' u = devs utd u) ∧
    (∀ s, s ∈ l → ∃ o, ht utd s = Ok (o, devs utd' (p_user_id s)) ∧
       ∀ s', (p_user_id s, s') ∈ changes' ↔ o = Some s') ∧
    (∀ kv, kv ∈ changes → kv ∈ changes') ∧
    (∀ kv, kv ∈ changes' → kv ∈ changes ∨ kv.1 ∈ p_user_id <$> l).
Proof.
  revert changes utd. induction l as [|s l IH]; intros changes utd Hnd Hfr Hndc Hok; cbn [fold_res].
  { exists changes, utd. split_and!; try done; [by intros s ?%not_elem_of_nil|by left]. }
  rewrite fmap_cons in Hnd. apply NoDup_cons in Hnd as [Hni Hnd].
  destruct (timeout_step changes utd s) as (o & ds & utd1 & Hht & -> & Hds & Hoth);
    [apply Hok; by left|apply Hfr; by left|]. cbn [mbind result_bind].
  set (c1 := changes ++ _).
  assert (Hl : ∀ s', s' ∈ l → p_user_id s' ≠ p_user_id s).
  { intros s' Hs' E. apply Hni. rewrite <- E. apply list_elem_of_fmap. eauto. }
  assert (Hc1 : ∀ kv, kv ∈ c1 ↔ kv ∈ changes ∨ o = Some kv.2 ∧ kv.1 = p_user_id s).
  { intros [k v]. unfold c1. rewrite elem_of_app. destruct o as [s'|]; simpl.
    - rewrite list_elem_of_singleton. naive_solver.
    - rewrite elem_of_nil. naive_solver. }
  destruct (IH c1 utd1) as (c2 & utd2 & -> & Hnd2 & Ho2 & Hin2 & Hsub2 & Hback2).
  { done. }
  { intros s' Hs'. rewrite list_elem_of_fmap. intros ([k v] & Hk & [Hc|[_ Hk']]%Hc1); simpl in *; subst.
    - apply (Hfr s'); [by right|]. apply list_elem_of_fmap. by exists (p_user_id s', v).
    - by apply (Hl s'). }
  { unfold c1. rewrite fmap_app. destruct o as [s'|]; [|by rewrite app_nil_r].
    apply NoDup_app. split_and!; [done| |apply NoDup_singleton].
    intros x Hx ->%list_elem_of_singleton. by apply (Hfr s); [left|]. }
  { intros s' Hs' Hm. rewrite Hoth by (by apply Hl). apply Hok; [by right|done]. }
  exists c2, utd2. split_and!; [done|done|..].
  - intros u [? ?]%not_elem_of_cons. by rewrite Ho2, Hoth.
  - intros s' [->|Hs']%elem_of_cons.
    + exists o. rewrite Hht, (Ho2 _ Hni), Hds. split; [done|]. intros s'. split.
      * intros [[Hc|[Ho _]]%Hc1|Hc]%Hback2; [|done|by simpl in Hc].
        destruct (Hfr s); [by left|]. apply list_elem_of_fmap. by exists (p_user_id s, s').
      * intros ->. apply Hsub2, Hc1. by right.
    + destruct (Hin2 s' Hs') as (o' & Ho' & Hiff). exists o'. split; [|done].
      rewrite <- Ho'. unfold ht. by rewrite Hoth by (by apply Hl).
  - intros kv Hkv. apply Hsub2, Hc1. by left.
  - intros kv [[Hc|[_ ->]]%Hc1|Hc]%Hback2; [by left|by right; left|by right; right].
Qed.
End timeouts.

(** ** The handler *)

Lemma foldl_inv {A B} (P : B → Prop) (f : B → A → B) l b :
  (∀ b x, P b → P (f b x)) → P b → P (foldl f b l).
Proof. intros Hf. revert b. induction l as [|x l IH]; intros b Hb; simpl; auto. Qed.

(** The state the handler gives for a user. *)
Definition current (load : string → option UserPresenceState) (h : PresenceHandler) (u : string)
    : UserPresenceState := (current_state_for_user load u h).1.

Section handler_ok.
Context `{IterOrderOk} (cfg : config) (load : string → option UserPresenceState).
Hypothesis track : _track_presence cfg = true.
Hypothesis enabled : _presence_enabled cfg = true.
(** The states of the database that were not loaded at the start are offline. *)
Hypothesis load_ok : ∀ u s, load u = Some s → p_user_id s = u ∧ p_state s = PresenceState.OFFLINE.

Abbreviation cur := (current load).
Abbreviation dev h := (devs (_user_to_device_to_current_state h)).

(** A local user's state is the combination of its devices. *)
Definition local_ok (h : PresenceHandler) (u : string) : Prop :=
  is_mine_id cfg u = true → devices_ok (dev h u) (p_state (cur h u)).

(** The tables, but for the users of [X], whose states are about to be updated. *)
Record ok_except (X : list string) (now : Z) (h : PresenceHandler) : Prop := {
  ok_wheel : wheel_ok now (wheel_timer h);
  ok_ids : ∀ u s, user_to_current_state h !! u = Some s → p_user_id s = u;
  ok_unpersisted : unpersisted_users_changes h ⊆ dom (user_to_current_state h);
  ok_local : ∀ u, u ∉ X → local_ok h u
}.
Abbreviation handler_ok := (ok_except []).

Lemma ok_later X now now' h : now ≤ now' → ok_except X now h → ok_except X now' h.
Proof. intros Hle [Hw ? ? ?]. split; [by eapply wheel_ok_later|done..]. Qed.

Lemma current_stored h u s : user_to_current_state h !! u = Some s → cur h u = s.
Proof. intros Hs. unfold current, current_state_for_user. by rewrite Hs. Qed.

Lemma current_absent h u :
  user_to_current_state h !! u = None → cur h u = default (default_presence u) (load u).
Proof. intros Hs. unfold current, current_state_for_user. rewrite Hs. by destruct (load u). Qed.

Lemma current_id X now h u : ok_except X now h → p_user_id (cur h u) = u.
Proof.
  intros Hok. destruct (user_to_current_state h !! u) as [s|] eqn:Hs.
  - rewrite (current_stored _ _ _ Hs). by apply (ok_ids _ _ _ Hok).
  - rewrite (current_absent _ _ Hs). destruct (load u) as [s|] eqn:Hl; [|done]. by apply load_ok in Hl as [? _].
Qed.

(** Remembering a made-up state changes nothing else. *)
Lemma current_state_spec h u :
  ∃ h', current_state_for_user load u h = (cur h u, h') ∧ wheel_timer h' = wheel_timer h ∧
    same_tables h h' ∧ unpersisted_users_changes h' = unpersisted_users_changes h ∧
    dom (user_to_current_state h) ⊆ dom (user_to_current_state h') ∧ (∀ v, cur h' v = cur h v) ∧
    (∀ v s, user_to_current_state h' !! v = Some s →
       user_to_current_state h !! v = Some s ∨ v = u ∧ s = cur h u).
Proof.
  unfold current, current_state_for_user.
  destruct (user_to_current_state h !! u) as [s|] eqn:Hs.
  { exists h. split_and!; try done. intros v s'. by left. }
  destruct (load u) as [s|] eqn:Hl.
  { exists h. split_and!; try done. intros v s'. by left. }
  eexists. split; [reflexivity|]. simpl. split_and!; try done.
  - rewrite dom_insert_L. set_solver.
  - intros v. destruct (decide (v = u)) as [->|Hne].
    + by rewrite lookup_insert_eq, Hs, Hl.
    + rewrite lookup_insert_ne by done. destruct (user_to_current_state h !! v); [done|].
      by destruct (load v).
  - intros v s [[<- <-]|[_ ?]]%lookup_insert_Some; [by right|by left].
Qed.

Lemma current_state_ok X now h u :
  ok_except X now h →
  ∃ h', current_state_for_user load u h = (cur h u, h') ∧ ok_except X now h' ∧ same_tables h h' ∧
    wheel_timer h' = wheel_timer h ∧ (∀ v, cur h' v = cur h v).
Proof.
  intros Hok. destruct (current_state_spec h u) as (h' & He & Hw & Ht & Hun & Hd & Hc & Hl).
  exists h'. split_and!; try done. split.
  - rewrite Hw. apply Hok.
  - intros v s [Hs|[-> ->]]%Hl; [by eapply ok_ids|by eapply current_id].
  - rewrite Hun. etrans; [apply Hok|done].
  - intros v Hv Hm. rewrite Hc. destruct Ht as (-> & _). by apply (ok_local _ _ _ Hok).
Qed.

(** Recording states that agree with the devices. *)
Lemma update_ok news force now h :
  ok_except (p_user_id <$> news) now h →
  (∀ s, s ∈ news → is_mine_id cfg (p_user_id s) = true → devices_ok (dev h (p_user_id s)) (p_state s)) →
  ∃ notify ping h', _update_states cfg news force now h = Ok (notify, ping, h') ∧ handler_ok now h' ∧
    same_tables h h' ∧ wheel_le (wheel_timer h) (wheel_timer h') ∧
    updated (by_user news).*2 (user_to_current_state h) (user_to_current_state h') ∧
    ∀ s, s ∈ (by_user news).*2 → armed (is_mine_id cfg (p_user_id s)) now s (wheel_timer h').
Proof.
  intros Hok Hnews. destruct (update_states_spec cfg track enabled news force now h)
    as (nt & pg & h' & Hu & Hw & Hle & Ht & Hup & Hun & Ha); [apply Hok..|].
  destruct (by_user_spec news) as (_ & Hk & Hin & Hids). rewrite Hk in Hids.
  exists nt, pg, h'. split_and!; try done. split; [done| |done|].
  - intros u s' [(s & _ & <- & Hs)|[Hs _]]%Hup; [apply Hs|by eapply ok_ids].
  - intros u _ Hm. destruct Ht as (-> & _).
    destruct (user_to_current_state h' !! u) as [s'|] eqn:Hs'.
    + rewrite (current_stored _ _ _ Hs'). apply Hup in Hs' as [(s & Hs & <- & (_ & -> & _))|[Hs' Hne]].
      * apply Hnews; [by apply Hin|done].
      * rewrite <- (current_stored _ _ _ Hs'). apply (ok_local _ _ _ Hok); [|done].
        rewrite <- Hids. intros (s & -> & Hs)%list_elem_of_fmap. by apply (Hne s).
    + rewrite (current_absent _ _ Hs'). apply not_elem_of_dom in Hs'. destruct Hup as [_ Hd].
      rewrite Hd, not_elem_of_union, not_elem_of_list_to_set in Hs'. destruct Hs' as [Hs' Hni].
      apply not_elem_of_dom in Hs'. rewrite <- (current_absent _ _ Hs').
      apply (ok_local _ _ _ Hok); [|done]. by rewrite <- Hids.
Qed.

Lemma devs_set h u ds v : dev (set_devices h u ds) v = if decide (v = u) then ds else dev h v.
Proof.
  unfold devs, set_devices. simpl. case_decide as Hv; [subst; by rewrite lookup_insert_eq|].
  by rewrite lookup_insert_ne.
Qed.

Lemma current_same h h' u : user_to_current_state h' = user_to_current_state h → cur h' u = cur h u.
Proof. intros He. unfold current, current_state_for_user. rewrite He. by repeat case_match. Qed.

Lemma set_devices_ok X now h u ds : ok_except X now h → ok_except (u :: X) now (set_devices h u ds).
Proof.
  intros [Hw Hi Hu Hl]. split; [done..|]. intros v [Hv HX]%not_elem_of_cons Hm.
  rewrite devs_set, decide_False by done. rewrite (current_same h) by done. by apply Hl.
Qed.

(** Devices may be set as long as they combine to the same. *)
Lemma set_devices_same X now h u ds :
  ok_except X now h → (is_mine_id cfg u = true → devices_ok ds (p_state (cur h u))) →
  ok_except X now (set_devices h u ds).
Proof.
  intros [Hw Hi Hu Hl] Hds. split; [done..|]. intros v Hv Hm. rewrite (current_same h) by done.
  rewrite devs_set. case_decide as Hvu; [subst; by apply Hds|by apply Hl].
Qed.

Lemma set_syncs_ok X now h syncs : ok_except X now h → ok_except X now (set_syncs h syncs).
Proof.
  intros [? ? ? Hl]. split; [done..|]. intros u Hu Hm. rewrite (current_same h) by done. by apply Hl.
Qed.
Lemma set_external_ok X now h procs upd : ok_except X now h → ok_except X now (set_external h procs upd).
Proof.
  intros [? ? ? Hl]. split; [done..|]. intros u Hu Hm. rewrite (current_same h) by done. by apply Hl.
Qed.

(** An operation that succeeds and keeps the tables consistent. *)
Definition keeps_ok (now : Z)
    (r : result (list UserPresenceState * list UserPresenceState * PresenceHandler)) : Prop :=
  ∃ notify ping h', r = Ok (notify, ping, h') ∧ handler_ok now h'.

(** One user's state recorded after its devices were set. *)
Lemma record_ok now h u s force :
  ok_except [u] now h → p_user_id s = u →
  (is_mine_id cfg u = true → devices_ok (dev h u) (p_state s)) →
  keeps_ok now (_update_states cfg [s] force now h).
Proof.
  intros Hok Hu Hds. destruct (update_ok [s] force now h) as (nt & pg & h' & Hup & Hok' & _).
  - simpl. by rewrite Hu.
  - intros s' ->%list_elem_of_singleton. by rewrite Hu.
  - by exists nt, pg, h'.
Qed.

Lemma ok_weaken X now h : handler_ok now h → ok_except X now h.
Proof. intros [? ? ? Hl]. split; [done..|]. intros u _. apply Hl. apply not_elem_of_nil. Qed.

Lemma local_devices now h u i x :
  handler_ok now h → is_mine_id cfg u = true → dev h u !! i = Some x → valid_state (dev_state x).
Proof.
  intros Hok Hm Hx. assert (devices_ok (dev h u) (p_state (cur h u))) as (_ & Hv & _).
  { apply (ok_local _ _ _ Hok); [apply not_elem_of_nil|done]. }
  by apply Hv in Hx as [? _].
Qed.

Lemma insert_combine now h u i x :
  handler_ok now h → is_mine_id cfg u = true → valid_state (dev_state x) →
  ∃ p, _combine_device_states (map_to_list (<[i:=x]> (dev h u))).*2 = Ok p ∧
    devices_ok (<[i:=x]> (dev h u)) p.
Proof.
  intros Hok Hm Hx. apply combine_total. intros j y [[<- <-]|[_ Hy]]%lookup_insert_Some; [done|].
  by eapply local_devices.
Qed.

Lemma device_valid now h u i :
  handler_ok now h → is_mine_id cfg u = true → valid_state (dev_state (default default_device (dev h u !! i))).
Proof.
  intros Hok Hm. destruct (dev h u !! i) as [x|] eqn:Hx; [by eapply local_devices|apply valid_offline].
Qed.

Lemma bump_ok now h u i :
  handler_ok now h → is_mine_id cfg u = true → keeps_ok now (bump_presence_active_time cfg load u i now h).
Proof.
  intros Hok Hm. unfold bump_presence_active_time, device_of. rewrite track. cbn [negb].
  fold (dev h u). set (d := default default_device _). set (st := if bool_decide _ then _ else _).
  set (x := MkDevice _ _ _).
  assert (Hx : valid_state (dev_state x)).
  { simpl. unfold st. case_bool_decide; [by vm_compute|by eapply device_valid]. }
  destruct (insert_combine now h u i x Hok Hm Hx) as (p & Hp & Hds).
  destruct (current_state_ok [u] now (set_devices h u (<[i:=x]> (dev h u))) u)
    as (h1 & -> & Hok1 & (Ht & _) & _); [by apply set_devices_ok|].
  rewrite Hp. cbn [mbind result_bind]. apply (record_ok now h1 u); [done| |].
  - simpl. eapply (current_id [u]). by apply set_devices_ok.
  - intros _. by rewrite Ht, devs_set, decide_True.
Qed.

Lemma valid_presence st : st ∈ VALID_PRESENCE cfg → valid_state st.
Proof.
  unfold VALID_PRESENCE. rewrite elem_of_app. intros [Hs|Hs].
  - repeat (apply elem_of_cons in Hs as [->|Hs]; [by vm_compute|]). by apply not_elem_of_nil in Hs.
  - destruct (msc3026_enabled cfg); [|by apply not_elem_of_nil in Hs].
    apply list_elem_of_singleton in Hs as ->. by vm_compute.
Qed.

Lemma set_state_ok now h u i presence msg force sync :
  handler_ok now h → is_mine_id cfg u = true → presence ∈ VALID_PRESENCE cfg →
  keeps_ok now (set_state cfg load u i presence msg force sync now h).
Proof.
  intros Hok Hm Hp. unfold set_state. rewrite bool_decide_true by done. simpl raise_if.
  cbn [mbind result_bind]. rewrite track. cbn [negb].
  destruct (current_state_ok [] now h u Hok) as (h1 & -> & Hok1 & (Ht & _) & _ & Hc).
  unfold device_of. fold (dev h1 u). set (pr := if _ && _ then _ else _). set (x := MkDevice _ _ _).
  assert (Hx : valid_state (dev_state x)).
  { simpl. unfold pr. case_match; [by vm_compute|by apply valid_presence]. }
  destruct (insert_combine now h1 u i x Hok1 Hm Hx) as (p & -> & Hds). cbn [mbind result_bind].
  assert (Hok2 : ok_except [u] now (set_devices h1 u (<[i:=x]> (dev h1 u)))) by (by apply set_devices_ok).
  apply (record_ok now _ u); [done| |].
  - pose proof (current_id _ _ _ u Hok). by repeat case_match.
  - intros _. rewrite devs_set, decide_True by done.
    match goal with |- devices_ok _ ?q => assert (q = p) as -> by (by repeat case_match) end. done.
Qed.

Lemma user_syncing_ok now h u i affect presence :
  handler_ok now h → is_mine_id cfg u = true → presence ∈ VALID_PRESENCE cfg →
  keeps_ok now (user_syncing cfg load u i affect presence now h).
Proof.
  intros Hok Hm Hp. unfold user_syncing. rewrite track. destruct affect; cbn [negb orb]; [|by exists [], [], h].
  apply set_state_ok; [by apply set_syncs_ok|done..].
Qed.

(** A state recorded again with another sync time. *)
Lemma resync_ok now h u ts :
  handler_ok now h → keeps_ok now (_update_states cfg [with_user_sync (cur h u) ts] false now h).
Proof.
  intros Hok. apply (record_ok now _ u); [by apply ok_weaken|by apply (current_id [] now)|].
  intros Hm. by apply (ok_local _ _ _ Hok); [apply not_elem_of_nil|].
Qed.

Lemma user_syncing_end_ok now h u i :
  handler_ok now h → keeps_ok now (user_syncing_end cfg load u i now h).
Proof.
  intros Hok. unfold user_syncing_end. case_match; [|by exists [], [], h].
  set (h0 := set_syncs _ _). assert (Hok0 : handler_ok now h0) by (by apply set_syncs_ok).
  destruct (current_state_ok [] now h0 u Hok0) as (h1 & -> & Hok1 & _ & _ & <-). by apply resync_ok.
Qed.

(** A device touched: its state, and so the user's, stays. *)
Lemma touch_ok X now h u i la ls :
  ok_except X now h → u ∉ X →
  ok_except X now (set_devices h u
    (<[i := MkDevice (dev_state (device_of h u i).2) la ls]> (device_of h u i).1)).
Proof.
  intros Hok Hu. apply set_devices_same; [done|]. intros Hm. apply devices_ok_touch; [|done].
  by apply (ok_local _ _ _ Hok).
Qed.

Lemma external_row_ok now h pid u i syncing ts :
  handler_ok now h → keeps_ok now (update_external_syncs_row cfg load pid u i syncing ts now h).
Proof.
  intros Hok. unfold update_external_syncs_row.
  destruct (current_state_ok [] now h u Hok) as (h1 & -> & Hok1 & (Ht & _) & _ & Hc). cbn zeta.
  case_match; [eexists _, _, _; split; [reflexivity|]; by apply set_external_ok|].
  case_match; [|eexists _, _, _; split; [reflexivity|]; by apply set_external_ok].
  pose proof (touch_ok [] now h1 u i (dev_last_active_ts (device_of h1 u i).2) ts Hok1
    (not_elem_of_nil _)) as Hok2.
  destruct (device_of h1 u i) as [ds d]. simpl in Hok2.
  rewrite <- Hc, <- (current_same h1 (set_devices h1 u (<[i:=MkDevice (dev_state d) (dev_last_active_ts d) ts]> ds)) u) by done.
  destruct (resync_ok now _ u ts Hok2) as (nt & pg & h3 & -> & Hok3). cbn [mbind result_bind].
  eexists _, _, _. split; [reflexivity|]. by apply set_external_ok.
Qed.

(** States that are what the handler has, but for the sync time. *)
Definition restated (h : PresenceHandler) (s : UserPresenceState) : Prop :=
  p_state s = p_state (cur h (p_user_id s)).

Lemma restated_ok now h news force :
  handler_ok now h → (∀ s, s ∈ news → restated h s) → keeps_ok now (_update_states cfg news force now h).
Proof.
  intros Hok Hnews. destruct (update_ok news force now h) as (nt & pg & h' & Hup & Hok' & _).
  - by apply ok_weaken.
  - intros s Hs Hm. rewrite (Hnews s Hs). by apply (ok_local _ _ _ Hok); [apply not_elem_of_nil|].
  - by exists nt, pg, h'.
Qed.

Lemma external_clear_ok now h pid :
  handler_ok now h → keeps_ok now (update_external_syncs_clear cfg load pid now h).
Proof.
  intros Hok. unfold update_external_syncs_clear. set (h0 := set_external h _ _).
  assert (Hok0 : handler_ok now h0) by (by apply set_external_ok).
  match goal with |- context [foldl ?f h0 ?l] =>
    assert (Hok1 : handler_ok now (foldl f h0 l)); [|set (h1 := foldl f h0 l) in *] end.
  { apply foldl_inv; [|done]. intros h1 [u i] Hok1.
    pose proof (touch_ok [] now h1 u i (dev_last_active_ts (device_of h1 u i).2) now Hok1
      (not_elem_of_nil _)). by destruct (device_of h1 u i). }
  match goal with |- context [foldl ?f ([], h1) ?l] =>
    assert (Hok2 : let r := foldl f ([], h1) l in handler_ok now r.2 ∧ ∀ s, s ∈ r.1 → restated r.2 s) end.
  { apply (foldl_inv (λ r, handler_ok now r.2 ∧ ∀ s, s ∈ r.1 → restated r.2 s)).
    - intros [states h2] u [Hok2 Hs]. simpl in *.
      destruct (current_state_ok [] now h2 u Hok2) as (h3 & -> & Hok3 & _ & _ & Hc).
      split; [done|]. intros s [Hin| ->%list_elem_of_singleton]%elem_of_app.
      + unfold restated. simpl. rewrite Hc. by apply Hs.
      + unfold restated. simpl. rewrite Hc. by rewrite (current_id [] now h2 u Hok2).
    - split; [done|]. by intros s ?%not_elem_of_nil. }
  match goal with |- context [foldl ?f ([], h1) ?l] => destruct (foldl f ([], h1) l) as [states h2] end.
  destruct Hok2 as [Hok2 Hs]. simpl in Hok2, Hs.
  destruct (restated_ok now h2 states false Hok2 Hs) as (nt & pg & h3 & -> & Hok3). cbn [mbind result_bind].
  eexists _, _, _. split; [reflexivity|]. by apply set_external_ok.
Qed.

(** Users of another server. *)
Definition foreign (origin : string) : Prop :=
  ∀ u, get_domain_from_id u = Ok origin → is_mine_id cfg u = false.

Lemma incoming_ok now h origin pushes :
  handler_ok now h → foreign origin →
  is_ok (fold_res (push_update load origin now) pushes ([], h)) = true →
  keeps_ok now (incoming_presence cfg load origin pushes now h).
Proof.
  intros Hok Hf Hfold. unfold incoming_presence. rewrite track. cbn [negb].
  set (P := λ r : list UserPresenceState * PresenceHandler, handler_ok now r.2 ∧
    ∀ s, s ∈ r.1 → is_mine_id cfg (p_user_id s) = false).
  apply is_ok_true in Hfold as [[ups h1] Hfold]. rewrite Hfold. cbn [mbind result_bind].
  assert (HP : P (ups, h1)).
  { revert Hfold. apply (fold_res_ind P); [|split; [done|by intros s ?%not_elem_of_nil]].
    intros [us h2] p b' _ [Hok2 Hus] Hpush. unfold push_update in Hpush.
    destruct (present (push_user_id p)) as [u|]; [|by inv_res].
    apply bind_ok in Hpush as (dm & Hdm & Hpush).
    case_bool_decide as Ho; cbn [negb] in Hpush; [|by inv_res].
    destruct (present (push_presence p)) as [st|]; [|by inv_res].
    destruct (current_state_ok [] now h2 u Hok2) as (h3 & Hc & Hok3 & _). rewrite Hc in Hpush. inv_res.
    split; [done|]. intros s [Hs| ->%list_elem_of_singleton]%elem_of_app; [by apply Hus|]. simpl.
    rewrite (current_id [] now h2 u Hok2). by apply Hf. }
  destruct HP as [Hok1 Hups]. case_bool_decide.
  - by exists [], [], h1.
  - destruct (update_ok ups false now h1) as (nt & pg & h' & Hup & Hok' & _).
    + by apply ok_weaken.
    + intros s Hs. by rewrite Hups.
    + by exists nt, pg, h'.
Qed.

Lemma updated_current news h h' u :
  updated news (user_to_current_state h) (user_to_current_state h') →
  (∃ s, s ∈ news ∧ p_user_id s = u ∧ same_presence s (cur h' u)) ∨
  ((u ∉ p_user_id <$> news) ∧ cur h' u = cur h u).
Proof.
  intros [Hu Hd]. destruct (user_to_current_state h' !! u) as [s'|] eqn:Hs'.
  - rewrite (current_stored _ _ _ Hs'). apply Hu in Hs' as [(s & ? & ? & ?)|[Hs Hne]]; [by left; exists s|].
    right. split; [intros (s & -> & ?)%list_elem_of_fmap; by apply (Hne s)|]. by rewrite (current_stored _ _ _ Hs).
  - right. rewrite (current_absent _ _ Hs'). apply not_elem_of_dom in Hs'.
    rewrite Hd, not_elem_of_union, not_elem_of_list_to_set, not_elem_of_dom in Hs'.
    destruct Hs' as [Hs' Hni]. split; [done|]. by rewrite (current_absent _ _ Hs').
Qed.

(** The devices that sync once the expired processes are dropped, and the users whose
    timers are due or whose process has expired. *)
Definition still_syncing (now : Z) (h : PresenceHandler) : sync_set :=
  syncing_user_devices (set_external h
    (filter (λ kv : string * sync_set, kv.1 ∉ expired_process_ids now h) (external_process_to_current_syncs h))
    (filter (λ kv : string * Z, kv.1 ∉ expired_process_ids now h) (external_process_last_updated_ms h))).

Definition checked (now : Z) (h : PresenceHandler) (u : string) : Prop :=
  due_by (wheel_timer h) u (key now) ∨ u ∈ expired_users (expired_process_ids now h) h.

(** What becomes of a user. *)
Definition timeout_outcome (now : Z) (h h' : PresenceHandler) (u : string) : Prop :=
  let s := default (default_presence u) (user_to_current_state h !! u) in
  ∃ o, handle_timeout s (is_mine_id cfg u) (still_syncing now h) (dev h u) now = Ok (o, dev h' u) ∧
    match o with Some s' => same_presence s' (cur h' u) | None => cur h' u = cur h u end.

Lemma fetch_due now h u :
  wheel_ok now (wheel_timer h) → u ∈ (fetch now (wheel_timer h)).1 ↔ due_by (wheel_timer h) u (key now).
Proof.
  intros Hw. pose proof (wheel_ok_size _ _ Hw) as Hs. destruct Hw as [Hr _].
  rewrite (fetch_elem 5000 (wheel_timer h)) by done. unfold key_of. by rewrite Hs.
Qed.

Lemma checked_or_not now h u : wheel_ok now (wheel_timer h) → checked now h u ∨ ¬ checked now h u.
Proof.
  intros Hw. unfold checked. rewrite <- (fetch_due now h u Hw).
  destruct (decide (u ∈ (fetch now (wheel_timer h)).1)); [by left; left|].
  destruct (decide (u ∈ expired_users (expired_process_ids now h) h)); [by left; right|].
  right. by intros [|].
Qed.

(** The users of a list of states made up from a table. *)
Lemma stored_ids now h (us : list string) :
  handler_ok now h →
  p_user_id <$> ((λ u, default (default_presence u) (user_to_current_state h !! u)) <$> us) = us.
Proof.
  intros Hok. rewrite <- list_fmap_compose. rewrite <- (list_fmap_id us) at 2.
  apply list_fmap_ext. intros i u _. simpl.
  destruct (user_to_current_state h !! u) as [s|] eqn:Hs; [|done]. by apply (ok_ids _ _ _ Hok).
Qed.

Lemma stored_local now h u :
  handler_ok now h → is_mine_id cfg u = true →
  devices_ok (dev h u) (p_state (default (default_presence u) (user_to_current_state h !! u))).
Proof.
  intros Hok Hm. assert (Hl : devices_ok (dev h u) (p_state (cur h u))).
  { by apply (ok_local _ _ _ Hok); [apply not_elem_of_nil|]. }
  destruct (user_to_current_state h !! u) as [s|] eqn:Hs.
  - by rewrite (current_stored _ _ _ Hs) in Hl.
  - rewrite (current_absent _ _ Hs) in Hl. destruct (load u) as [s|] eqn:Hlo; [|done].
    apply load_ok in Hlo as [_ Hlo]. simpl in Hl. by rewrite Hlo in Hl.
Qed.

Lemma stored_id now h u :
  handler_ok now h → p_user_id (default (default_presence u) (user_to_current_state h !! u)) = u.
Proof.
  intros Hok. destruct (user_to_current_state h !! u) as [s|] eqn:Hs; [|done].
  by apply (ok_ids _ _ _ Hok).
Qed.

Lemma stored_state h u :
  p_state (default (default_presence u) (user_to_current_state h !! u)) = p_state (cur h u).
Proof.
  destruct (user_to_current_state h !! u) as [s|] eqn:Hs; [by rewrite (current_stored _ _ _ Hs)|].
  rewrite (current_absent _ _ Hs). destruct (load u) as [s|] eqn:Hl; [|done]. by apply load_ok in Hl as [_ ?].
Qed.

(** The loop over the users to check. *)
Lemma timeouts_loop now h syn (us : list string) :
  handler_ok now h → NoDup us →
  ∃ ch utd,
    handle_timeouts cfg ((λ u, default (default_presence u) (user_to_current_state h !! u)) <$> us) syn now
      (_user_to_device_to_current_state h) = Ok (ch.*2, utd) ∧
    NoDup ch.*1 ∧ ch.*1 = p_user_id <$> ch.*2 ∧
    (∀ kv, kv ∈ ch → kv.1 ∈ us) ∧ (∀ u, u ∉ us → devs utd u = dev h u) ∧
    (∀ u, u ∈ us → ∃ o,
       let s := default (default_presence u) (user_to_current_state h !! u) in
       handle_timeout s (is_mine_id cfg u) syn (dev h u) now = Ok (o, devs utd u) ∧
       (∀ s', (u, s') ∈ ch ↔ o = Some s') ∧
       (is_mine_id cfg u = true → devices_ok (devs utd u) (p_state (default s o)))).
Proof.
  intros Hok Hnd. set (st := λ u, default (default_presence u) (user_to_current_state h !! u)).
  assert (Hl : p_user_id <$> (st <$> us) = us) by (by apply (stored_ids now)).
  assert (Hmem : ∀ u, u ∈ us → st u ∈ st <$> us) by (intros u Hu; apply list_elem_of_fmap; eauto).
  assert (Hid : ∀ u, p_user_id (st u) = u) by (intros u; by apply (stored_id now)).
  destruct (timeouts_fold cfg syn now (st <$> us) [] (_user_to_device_to_current_state h))
    as (ch & utd & Hf & Hndc & Hother & Hin & _ & Hback).
  { by rewrite Hl. }
  { intros s _. apply not_elem_of_nil. }
  { constructor. }
  { intros s (u & -> & Hu)%list_elem_of_fmap. rewrite Hid. by apply (stored_local now). }
  rewrite Hl in Hother, Hback.
  assert (Hus : ∀ u, u ∈ us → ∃ o, handle_timeout (st u) (is_mine_id cfg u) syn (dev h u) now = Ok (o, devs utd u)
    ∧ (∀ s', (u, s') ∈ ch ↔ o = Some s') ∧ (∀ s', o = Some s' → p_user_id s' = u) ∧
      (is_mine_id cfg u = true → devices_ok (devs utd u) (p_state (default (st u) o)))).
  { intros u Hu. destruct (Hin _ (Hmem u Hu)) as (o & Ho & Hch). unfold ht in Ho. rewrite !Hid in *.
    destruct (handle_timeout_total (st u) (is_mine_id cfg u) syn (dev h u) now) as (o' & ds' & Ho' & _ & Hs' & Hok').
    { by apply (stored_local now). }
    rewrite Ho in Ho'. assert (o' = o) as -> by congruence. assert (ds' = devs utd u) as -> by congruence.
    rewrite Hid in Hs'. by exists o. }
  assert (Hch : ∀ kv, kv ∈ ch → kv.1 ∈ us).
  { intros kv [?%not_elem_of_nil|?]%Hback; done. }
  exists ch, utd. unfold handle_timeouts. rewrite Hf. split_and!; [done|done| |done|done|].
  - rewrite <- list_fmap_compose. apply list_fmap_ext. intros i [k v] Hi%list_elem_of_lookup_2. simpl.
    destruct (Hus k (Hch _ Hi)) as (o & _ & Hiff & Hs & _). symmetry. by apply Hs, Hiff.
  - intros u Hu. destruct (Hus u Hu) as (o & ? & ? & _ & ?). by exists o.
Qed.

Lemma handle_timeouts_spec now h :
  handler_ok now h →
  ∃ nt pg h', _handle_timeouts cfg now h = Ok (nt, pg, h') ∧ handler_ok now h' ∧
    (∀ u, checked now h u → timeout_outcome now h h' u) ∧
    (∀ u, ¬ checked now h u → dev h' u = dev h u ∧ cur h' u = cur h u).
Proof.
  intros Hok. unfold _handle_timeouts.
  pose proof (λ u, fetch_due now h u (ok_wheel _ _ _ Hok)) as Hdue.
  pose proof (fetch_wheel_ok now _ (ok_wheel _ _ _ Hok)) as Hw.
  destruct (fetch now (wheel_timer h)) as [due w]. simpl in Hdue, Hw. cbn zeta.
  set (X := list_to_set due ∪ _). simpl. set (syn := syncing_user_devices _).
  assert (HX : ∀ u, u ∈ set_iter X ↔ checked now h u).
  { intros u. rewrite elem_of_set_iter. unfold X, checked.
    by rewrite elem_of_union, elem_of_list_to_set, Hdue. }
  destruct (timeouts_loop now h syn (set_iter X)) as (ch & utd & -> & Hnd & Hids & Hch & Hoth & Hus).
  { done. } { rewrite set_iter_perm. apply NoDup_elements. }
  cbn [mbind result_bind]. set (h2 := MkHandler _ _ utd _ _ _ _).
  assert (Hc2 : ∀ u, cur h2 u = cur h u) by (intros u; by apply current_same).
  assert (Hnone : ∀ u, u ∉ p_user_id <$> ch.*2 → u ∈ set_iter X → ∀ o,
    (∀ s', (u, s') ∈ ch ↔ o = Some s') → o = None).
  { intros u Hni Hu [s'|] Ho; [|done]. destruct Hni. rewrite <- Hids. apply list_elem_of_fmap.
    exists (u, s'). split; [done|]. by apply Ho. }
  assert (Hok2 : ok_except (p_user_id <$> ch.*2) now h2).
  { split; [done|apply Hok|apply Hok|]. intros u Hu Hm. rewrite Hc2.
    destruct (decide (u ∈ set_iter X)) as [Hx|Hx].
    - destruct (Hus u Hx) as (o & _ & Hiff & Hd). rewrite (Hnone u Hu Hx o Hiff) in Hd.
      rewrite <- stored_state. by apply Hd.
    - unfold h2. simpl. rewrite Hoth by done. by apply (ok_local _ _ _ Hok); [apply not_elem_of_nil|]. }
  assert (Hnews : ∀ s, s ∈ ch.*2 → (p_user_id s, s) ∈ ch).
  { intros s ([k v] & -> & Hkv)%list_elem_of_fmap. simpl. apply list_elem_of_lookup in Hkv as [i Hi].
    assert (Hk : ch.*1 !! i = Some k) by (by rewrite list_lookup_fmap, Hi).
    rewrite Hids, !list_lookup_fmap, Hi in Hk. simpl in Hk. injection Hk as <-.
    by eapply list_elem_of_lookup_2. }
  destruct (update_ok ch.*2 false now h2 Hok2) as (nt & pg & h3 & -> & Hok3 & (Ht & _) & _ & Hup & _).
  { intros s Hs Hm. pose proof (Hnews s Hs) as Hk. destruct (Hus _ (Hch _ Hk)) as (o & _ & Hiff & Hd).
    apply Hiff in Hk. subst o. by apply Hd. }
  rewrite by_user_nodup in Hup by (by rewrite <- Hids).
  exists nt, pg, h3. split_and!; [done|done|..].
  - intros u Hu%HX. destruct (Hus u Hu) as (o & Ho & Hiff & _). exists o. rewrite Ht. split; [done|].
    destruct (updated_current ch.*2 h2 h3 u Hup) as [(s & Hs & Hsu & Hsame)|[Hni Hc]].
    + assert (o = Some s) as -> by (apply Hiff; rewrite <- Hsu; by apply Hnews). done.
    + rewrite (Hnone u Hni Hu o Hiff). by rewrite Hc, Hc2.
  - intros u Hu. rewrite <- HX in Hu. rewrite Ht. unfold h2 at 1. simpl. rewrite Hoth by done. split; [done|].
    destruct (updated_current ch.*2 h2 h3 u Hup) as [(s & Hs & Hsu & _)|[_ Hc]].
    + destruct Hu. rewrite <- Hsu. by apply (Hch (p_user_id s, s)), Hnews.
    + by rewrite Hc, Hc2.
Qed.
End handler_ok.
