(* ===== verification/PresenceThms.v ===== *)
(** * Presence: the handler over time

    The operations as one step function, the handlers they reach, and the theorems. *)

From S2P Require Import Prelude PyVal Constants Ids TopoSort EventObjects RedactionProps WheelTimer Presence PresenceProps.

(** An operation with its arguments. *)
Inductive op :=
| HandleTimeouts
| Bump (user : string) (device : option string)
| SetState (user : string) (device : option string) (presence : string) (msg : option string)
    (force_notify is_sync : bool)
| UserSyncing (user : string) (device : option string) (affect : bool) (presence : string)
| UserSyncingEnd (user : string) (device : option string)
| ExternalRow (process user : string) (device : option string) (is_syncing : bool) (sync_time : Z)
| ExternalClear (process : string)
| Incoming (origin : string) (pushes : list push)
| Persist.

Section run.
Context `{IterOrder} (cfg : config) (load : string → option UserPresenceState).

Definition run (now : Z) (o : op) (h : PresenceHandler) : result PresenceHandler :=
  match o with
  | HandleTimeouts => snd <$> _handle_timeouts cfg now h
  | Bump u i => snd <$> bump_presence_active_time cfg load u i now h
  | SetState u i p m f s => snd <$> set_state cfg load u i p m f s now h
  | UserSyncing u i a p => snd <$> user_syncing cfg load u i a p now h
  | UserSyncingEnd u i => snd <$> user_syncing_end cfg load u i now h
  | ExternalRow pid u i s ts => snd <$> update_external_syncs_row cfg load pid u i s ts now h
  | ExternalClear pid => snd <$> update_external_syncs_clear cfg load pid now h
  | Incoming origin ps => snd <$> incoming_presence cfg load origin ps now h
  | Persist => snd <$> _persist_unpersisted_changes h
  end.

(** What the callers see to: the users are local, the presence of a sync is a known one (the
    servlet of [/sync] refuses others), and [origin] is another server. *)
Definition from_caller (o : op) : Prop :=
  match o with
  | Bump u _ | SetState u _ _ _ _ _ => is_mine_id cfg u = true
  | UserSyncing u _ _ p => is_mine_id cfg u = true ∧ p ∈ VALID_PRESENCE cfg
  | Incoming origin _ => foreign cfg origin
  | _ => True
  end.

(** What they pass on as it comes: a presence that may be unknown, and the user ids that
    another server sends, which may be malformed. *)
Definition well_formed (o : op) : Prop :=
  match o with
  | SetState _ _ p _ _ _ => p ∈ VALID_PRESENCE cfg
  | Incoming _ ps =>
      Forall (λ p, match present (push_user_id p) with
                   | Some u => is_ok (get_domain_from_id u) = true | None => True end) ps
  | _ => True
  end.

(** A handler as the operations make it, and the time of the last one.  An operation that
    raises has done nothing, or read the states of some users. *)
Inductive handler_at : Z → PresenceHandler → Prop :=
| at_start db now h :
    (∀ s, s ∈ db → is_mine_id cfg (p_user_id s) = true → valid_state (p_state s)) →
    new_PresenceHandler cfg db now = Ok h → handler_at now h
| at_step now now' o h h' :
    handler_at now h → now ≤ now' → from_caller o → run now' o h = Ok h' → handler_at now' h'
| at_read now now' u h :
    handler_at now h → now ≤ now' → handler_at now' (current_state_for_user load u h).2.
End run.

(** What the code relies on: presence is enabled and tracked on this process, and the
    states that were not loaded at the start are offline. *)
Class PresenceLaws (cfg : config) (load : string → option UserPresenceState) : Prop := {
  law_track : _track_presence cfg = true;
  law_enabled : _presence_enabled cfg = true;
  law_load : ∀ u s, load u = Some s → p_user_id s = u ∧ p_state s = PresenceState.OFFLINE
}.

Section invariant.
Context `{IterOrderOk} (cfg : config) (load : string → option UserPresenceState) `{!PresenceLaws cfg load}.

Abbreviation handler_ok := (ok_except cfg load []).

Lemma devices_ok_empty : devices_ok ∅ PresenceState.OFFLINE.
Proof. split_and!; [by vm_compute|done|by left]. Qed.

Lemma devices_ok_singleton i x : valid_state (dev_state x) → devices_ok {[i := x]} (dev_state x).
Proof.
  intros Hx. split_and!; [done| |right; exists i, x; by rewrite lookup_singleton_eq].
  intros j y [<- <-]%lookup_singleton_Some. done.
Qed.

Lemma init_user_ok X now h s :
  ok_except cfg load (p_user_id s :: X) now h → user_to_current_state h !! p_user_id s = Some s →
  (is_mine_id cfg (p_user_id s) = true → valid_state (p_state s)) →
  ∃ h', init_user cfg now h s = Ok h' ∧ ok_except cfg load X now h' ∧
    user_to_current_state h' = user_to_current_state h.
Proof.
  intros [Hw Hid Hun Hl] Hs Hv. unfold init_user. set (h1 := set_devices _ _ _).
  change (wheel_timer h1) with (wheel_timer h). do 3 arm Hw.
  eexists. split; [reflexivity|]. split; [|done]. split; [done..|].
  intros u Hu Hm. rewrite (current_same load h) by done.
  change (devices_ok (devs (_user_to_device_to_current_state h1) u) (p_state (current load h u))).
  unfold h1. rewrite devs_set. case_decide as Hus.
  - subst u. rewrite (current_stored _ _ _ _ Hs). apply (devices_ok_singleton None (MkDevice _ _ _)). by apply Hv.
  - apply Hl; [|done]. by apply not_elem_of_cons.
Qed.

Lemma new_handler_ok db now :
  (∀ s, s ∈ db → is_mine_id cfg (p_user_id s) = true → valid_state (p_state s)) →
  ∃ h, new_PresenceHandler cfg db now = Ok h ∧ handler_ok now h.
Proof.
  intros Hdb. unfold new_PresenceHandler. rewrite law_track.
  set (states := foldl _ ∅ db). set (h0 := MkHandler states _ _ _ _ _ _).
  assert (Hst : ∀ u s, states !! u = Some s → p_user_id s = u ∧ s ∈ db).
  { unfold states. clear -db. induction db as [|x l IH] using rev_ind; [done|]. rewrite foldl_app. simpl.
    intros u s [[<- <-]|[_ Hs]]%lookup_insert_Some; [split; [done|]; apply elem_of_app; right; by left|].
    apply IH in Hs as [? ?]. split; [done|]. apply elem_of_app. by left. }
  assert (Hl : ∀ s, s ∈ (dict_items states).*2 → states !! p_user_id s = Some s).
  { intros s ([k v] & -> & Hkv)%list_elem_of_fmap. rewrite dict_items_perm in Hkv.
    apply elem_of_map_to_list in Hkv. simpl. by destruct (Hst _ _ Hkv) as [-> _]. }
  assert (Hok : ok_except cfg load (p_user_id <$> (dict_items states).*2) now h0).
  { split; [by split; [constructor|]|by intros u s [? _]%Hst|set_solver|].
    intros u Hu _. destruct (states !! u) as [s|] eqn:Hs.
    - destruct Hu. destruct (Hst _ _ Hs) as [Hus _]. apply list_elem_of_fmap. exists s. split; [done|].
      apply list_elem_of_fmap. exists (u, s). split; [done|]. rewrite dict_items_perm. by apply elem_of_map_to_list.
    - rewrite (current_absent _ h0 _ Hs). change (devs (_user_to_device_to_current_state h0) u) with (∅ : devices).
      destruct (load u) as [s|] eqn:Hlo; [|apply devices_ok_empty].
      apply law_load in Hlo as [_ Hlo]. simpl. rewrite Hlo. apply devices_ok_empty. }
  assert (Hgen : ∀ l h, ok_except cfg load (p_user_id <$> l) now h → user_to_current_state h = states →
    (∀ s, s ∈ l → states !! p_user_id s = Some s) → ∃ h', fold_res (init_user cfg now) l h = Ok h' ∧ handler_ok now h').
  { induction l as [|s l IH]; intros h Hh Hsts Hl'; cbn [fold_res]; [by exists h|].
    assert (Hs : states !! p_user_id s = Some s) by (apply Hl'; by left).
    destruct (init_user_ok (p_user_id <$> l) now h s) as (h' & -> & Hh' & Heq); [done|by rewrite Hsts| |].
    { apply Hdb. by apply Hst in Hs as [_ ?]. }
    cbn [mbind result_bind]. apply IH; [done|by rewrite Heq|]. intros s' Hs'. apply Hl'. by right. }
  by apply Hgen.
Qed.

Lemma keeps_run now r :
  keeps_ok cfg load now r → ∃ h', snd <$> r = Ok h' ∧ handler_ok now h'.
Proof. intros (nt & pg & h' & -> & Hok). by exists h'. Qed.

Lemma persist_ok now h :
  handler_ok now h → ∃ h', snd <$> _persist_unpersisted_changes h = Ok h' ∧ handler_ok now h'.
Proof.
  intros Hok. unfold _persist_unpersisted_changes.
  assert (∃ l, map_res (λ u, match user_to_current_state h !! u with
    | Some s => Ok s | None => Err (PyBuiltin KeyError) end) (set_iter (unpersisted_users_changes h)) = Ok l)
    as [l ->].
  { assert (Hd : ∀ u, u ∈ set_iter (unpersisted_users_changes h) → u ∈ dom (user_to_current_state h)).
    { intros u. rewrite elem_of_set_iter. by apply (ok_unpersisted _ _ _ _ _ Hok). }
    induction (set_iter (unpersisted_users_changes h)) as [|u us IH]; [by exists []|]. simpl.
    destruct (user_to_current_state h !! u) as [s|] eqn:Hs; simpl.
    - destruct IH as [l ->]; [intros v Hv; apply Hd; by right|]. simpl. eauto.
    - apply not_elem_of_dom in Hs. destruct Hs. apply Hd. by left. }
  cbn [mbind result_bind fmap result_fmap snd]. eexists. split; [reflexivity|].
  destruct Hok as [? ? ? Hl]. split; [done|done|set_solver|]. intros u Hu Hm.
  rewrite (current_same load h) by done. by apply Hl.
Qed.

Lemma push_total origin now acc p :
  is_ok (push_update load origin now acc p) = true ↔
  match present (push_user_id p) with Some u => is_ok (get_domain_from_id u) = true | None => True end.
Proof.
  destruct acc as [ups h]. unfold push_update. destruct (present (push_user_id p)) as [u|]; [|done].
  destruct (get_domain_from_id u) as [d|]; [|done]. cbn [mbind result_bind]. split; [done|]. intros _.
  case_match; [done|]. case_match; [|done]. by destruct (current_state_for_user load u h).
Qed.

Lemma pushes_total origin now ps acc :
  is_ok (fold_res (push_update load origin now) ps acc) = true ↔
  Forall (λ p, match present (push_user_id p) with
               | Some u => is_ok (get_domain_from_id u) = true | None => True end) ps.
Proof.
  revert acc. induction ps as [|p ps IH]; intros acc; [done|]. rewrite Forall_cons, <- (push_total origin now acc p).
  cbn [fold_res]. destruct (push_update load origin now acc p) as [acc'|e]; cbn [mbind result_bind]; [|split; [done|by intros [? _]]].
  rewrite IH. tauto.
Qed.

Lemma run_ok now o h :
  handler_ok now h → from_caller cfg o → well_formed cfg o →
  ∃ h', run cfg load now o h = Ok h' ∧ handler_ok now h'.
Proof.
  intros Hok Ha Hf. pose proof law_track as Ht. pose proof law_enabled as He. pose proof law_load as Hl.
  destruct o as [|u i|u i p m f sy|u i a p|u i|pid u i sy ts|pid|origin ps|]; simpl in *.
  - destruct (handle_timeouts_spec cfg load Ht He Hl now h Hok) as (nt & pg & h' & -> & Hok' & _). by exists h'.
  - apply keeps_run. by apply bump_ok.
  - apply keeps_run. by apply set_state_ok.
  - apply keeps_run. destruct Ha. by apply user_syncing_ok.
  - apply keeps_run. by apply user_syncing_end_ok.
  - apply keeps_run. by apply external_row_ok.
  - apply keeps_run. by apply external_clear_ok.
  - apply keeps_run. apply incoming_ok; [done..|]. by apply pushes_total.
  - by apply persist_ok.
Qed.

(** An operation that is not well-formed raises. *)
Lemma run_refuses now o h : is_ok (run cfg load now o h) = true → well_formed cfg o.
Proof.
  destruct o as [|u i|u i p m f sy|u i a p|u i|pid u i sy ts|pid|origin ps|]; simpl; try done.
  - unfold set_state. case_bool_decide; [done|]. done.
  - unfold incoming_presence. rewrite law_track. cbn [negb]. rewrite <- (pushes_total origin now ps ([], h)).
    by destruct (fold_res _ ps ([], h)).
Qed.

Lemma handler_at_ok now h : handler_at cfg load now h → handler_ok now h.
Proof.
  induction 1 as [db now h Hdb Hh|now now' o h h' _ IH Hle Ha Hr|now now' u h _ IH Hle].
  - destruct (new_handler_ok db now Hdb) as (h1 & Hh1 & Hok). congruence.
  - destruct (run_ok now' o h) as (h1 & Hh1 & Hok); [by eapply ok_later|done|by eapply (run_refuses now' o h); rewrite Hr|].
    congruence.
  - destruct (current_state_ok cfg load law_track law_enabled law_load [] now' h u) as (h' & -> & Hok & _); [by eapply ok_later|done].
Qed.
End invariant.

(** C21: the tables of the handler stay consistent, whatever happens and in whatever
    order sets are visited: for every local user the presence is the combination of the
    presences of its devices (so the best of them, and offline without any), also after
    operations that raised.  An operation for local users, or an announcement of another
    server, raises exactly when it sets an unknown presence or one of the announced user ids
    has no domain. *)
Theorem presence_consistent `{IterOrderOk} cfg load `{!PresenceLaws cfg load} now h :
  handler_at cfg load now h →
  (∀ u, is_mine_id cfg u = true →
     _combine_device_states (map_to_list (devs (_user_to_device_to_current_state h) u)).*2 =
       Ok (p_state (current load h u))) ∧
  (∀ now' o, now ≤ now' → from_caller cfg o → is_ok (run cfg load now' o h) = true ↔ well_formed cfg o).
Proof.
  intros Hh. pose proof (handler_at_ok cfg load now h Hh) as Hok. split.
  - intros u Hm. apply combine_iff. apply (ok_local _ _ _ _ _ Hok); [apply not_elem_of_nil|done].
  - intros now' o Hle Ha. split; [by apply (run_refuses cfg load now' o h)|intros Hf].
    destruct (run_ok cfg load now' o h) as (h' & -> & _); [by eapply ok_later|done..].
Qed.

(** What the timeouts do to a handler that is consistent. *)
Section timeouts.
Context `{IterOrderOk} (cfg : config) (load : string → option UserPresenceState) `{!PresenceLaws cfg load}.
Abbreviation handler_ok := (ok_except cfg load []).
Abbreviation dev h := (devs (_user_to_device_to_current_state h)).

Lemma run_timeouts now h h' :
  handler_ok now h → run cfg load now HandleTimeouts h = Ok h' →
  handler_ok now h' ∧
  (∀ u, checked now h u → timeout_outcome cfg load now h h' u) ∧
  (∀ u, ¬ checked now h u → dev h' u = dev h u ∧ current load h' u = current load h u).
Proof.
  intros Hok Hrun.
  destruct (handle_timeouts_spec cfg load law_track law_enabled law_load now h Hok)
    as (nt & pg & h1 & Hr & Hok1 & Hch & Hun).
  simpl in Hrun. rewrite Hr in Hrun. simpl in Hrun. assert (h1 = h') as <- by congruence. done.
Qed.

(** The devices of a checked user that is online. *)
Lemma outcome_mine now h h' u :
  handler_ok now h → is_mine_id cfg u = true → p_state (current load h u) ≠ PresenceState.OFFLINE →
  timeout_outcome cfg load now h h' u → dev h' u = timeout_devices (still_syncing now h) u now (dev h u).
Proof.
  intros Hok Hm Hs (o & Ho & _). rewrite Hm in Ho.
  set (s := default (default_presence u) (user_to_current_state h !! u)) in *.
  assert (Hid : p_user_id s = u) by (by eapply stored_id).
  destruct (handle_timeout_mine s (still_syncing now h) (dev h u) now) as (p & b & _ & _ & Hht).
  - unfold s. by rewrite (stored_state load law_load).
  - by eapply (stored_local cfg load law_load).
  - rewrite Ho, Hid in Hht. congruence.
Qed.

Lemma outcome_offline now h h' u :
  p_state (current load h u) = PresenceState.OFFLINE →
  timeout_outcome cfg load now h h' u → dev h' u = dev h u ∧ current load h' u = current load h u.
Proof.
  intros Hs (o & Ho & Hc). unfold handle_timeout in Ho.
  rewrite (stored_state load law_load), bool_decide_true in Ho by done.
  assert (o = None) as -> by congruence. split; [congruence|done].
Qed.

(** A device that syncs survives. *)
Lemma syncing_device_stays now h h' u i d :
  handler_ok now h → is_mine_id cfg u = true → run cfg load now HandleTimeouts h = Ok h' →
  dev h u !! i = Some d → dev_state d ≠ PresenceState.OFFLINE → (u, i) ∈ still_syncing now h →
  ∃ d', dev h' u !! i = Some d' ∧ dev_state d' ≠ PresenceState.OFFLINE.
Proof.
  intros Hok Hm Hrun Hd Hon Hsy. destruct (run_timeouts now h h' Hok Hrun) as (_ & Hch & Hun).
  destruct (checked_or_not now h u (ok_wheel _ _ _ _ _ Hok)) as [Hc|Hc]; cycle 1.
  { destruct (Hun u Hc) as [-> _]. by exists d. }
  destruct (decide (p_state (current load h u) = PresenceState.OFFLINE)) as [Hs|Hs].
  { destruct (outcome_offline now h h' u Hs (Hch u Hc)) as [-> _]. by exists d. }
  rewrite (outcome_mine now h h' u) by auto.
  exists (idle_device now d). rewrite lookup_timeout_devices, Hd. simpl.
  unfold device_timed_out. rewrite bool_decide_true by done. split; [done|].
  unfold idle_device. by case_match.
Qed.
End timeouts.

(** A user with a device that is syncing (here or on a process that has not
    expired) and not offline never times out. *)
Theorem syncing_never_offline `{IterOrderOk} cfg load `{!PresenceLaws cfg load} now now' h h' u i d :
  handler_at cfg load now h → now ≤ now' → is_mine_id cfg u = true →
  devs (_user_to_device_to_current_state h) u !! i = Some d → dev_state d ≠ PresenceState.OFFLINE →
  (u, i) ∈ still_syncing now' h →
  run cfg load now' HandleTimeouts h = Ok h' → p_state (current load h' u) ≠ PresenceState.OFFLINE.
Proof.
  intros Hh Hle Hm Hd Hon Hsy Hrun Hoff.
  assert (Hok : ok_except cfg load [] now' h) by (eapply ok_later, handler_at_ok; done).
  destruct (syncing_device_stays cfg load now' h h' u i d) as (d' & Hd' & Hon'); [done..|].
  destruct (run_timeouts cfg load now' h h' Hok Hrun) as (Hok' & _).
  assert (devices_ok (devs (_user_to_device_to_current_state h') u) (p_state (current load h' u))) as (_ & Hv & _).
  { apply (ok_local _ _ _ _ _ Hok'); [apply not_elem_of_nil|done]. }
  apply Hv in Hd' as [Hval Hle']. rewrite Hoff, prio_offline in Hle'. pose proof (prio_range _ Hval).
  apply Hon', prio_inj; [done|apply valid_offline|]. rewrite prio_offline. lia.
Qed.

Section silence.
Context `{IterOrderOk} (cfg : config) (load : string → option UserPresenceState) `{!PresenceLaws cfg load}.
Abbreviation handler_ok := (ok_except cfg load []).
Abbreviation dev h := (devs (_user_to_device_to_current_state h)).

(** Every device of [u] was last heard of by [t], and none is busy or syncing at [t']. *)
Definition quiet (t t' : Z) (h : PresenceHandler) (u : string) : Prop :=
  ∀ j d, dev h u !! j = Some d →
    dev_state d ≠ PresenceState.BUSY ∧ dev_last_sync_ts d ≤ t ∧ dev_last_active_ts d ≤ t ∧
    (u, j) ∉ still_syncing t' h.

Lemma quiet_timeout t t' h u :
  t + SYNC_ONLINE_TIMEOUT < t' → quiet t t' h u → timeout_devices (still_syncing t' h) u t' (dev h u) = ∅.
Proof.
  intros Ht Hq. apply map_eq. intros j. rewrite lookup_empty, lookup_timeout_devices.
  destruct (dev h u !! j) as [d|] eqn:Hd; [|done]. apply Hq in Hd as (Hb & Hs & Ha & Hn). simpl.
  assert (device_timed_out (still_syncing t' h) u t' j (idle_device t' d) = true) as ->; [|done].
  unfold device_timed_out. rewrite bool_decide_false by done. simpl.
  assert (Hi : dev_state (idle_device t' d) ≠ PresenceState.BUSY ∧
    dev_last_sync_ts (idle_device t' d) = dev_last_sync_ts d ∧
    dev_last_active_ts (idle_device t' d) = dev_last_active_ts d) by (unfold idle_device; by case_match).
  destruct Hi as (Hb' & -> & ->). rewrite bool_decide_false by done. apply Z.ltb_lt. lia.
Qed.

(** Recording the end of a sync arms the timer that checks it. *)
Lemma resync_armed now h u ts :
  handler_ok now h → is_mine_id cfg u = true →
  ∃ nt pg h', _update_states cfg [with_user_sync (current load h u) ts] false now h = Ok (nt, pg, h') ∧
    handler_ok now h' ∧
    (p_state (current load h' u) ≠ PresenceState.OFFLINE →
     due_by (wheel_timer h') u (Z.max (key (ts + SYNC_ONLINE_TIMEOUT)) (key now) + 1)).
Proof.
  intros Hok Hm. set (s := with_user_sync _ _).
  assert (Hid : p_user_id s = u) by (by eapply (current_id cfg load law_load)).
  destruct (update_ok cfg load law_track law_enabled [s] false now h)
    as (nt & pg & h' & Hup & Hok' & _ & _ & Hu & Ha).
  { by apply ok_weaken. }
  { intros s' ->%list_elem_of_singleton. rewrite Hid. intros _.
    by apply (ok_local _ _ _ _ _ Hok); [apply not_elem_of_nil|]. }
  exists nt, pg, h'. split_and!; [done|done|]. intros Hon.
  specialize (Ha s). rewrite Hid, Hm in Ha. unfold armed in Ha. rewrite Hid in Ha. apply Ha; [by left|].
  right. destruct (updated_current load [s] h h' u) as [(s' & ->%list_elem_of_singleton & _ & (_ & Hst & _))|[Hni _]].
  - exact Hu.
  - by rewrite <- Hst.
  - destruct Hni. rewrite <- Hid. by left.
Qed.
End silence.

(** When a sync of a local user ends at [t] and nothing happens before the timers are checked
    at [t'], 30 seconds and one bucket later, with no device of the user heard of since [t],
    busy or syncing, then that check takes the user offline.  Checks in between may find the
    timer due too early and lose it: [unavailable_for_ever]. *)
Theorem silent_goes_offline `{IterOrderOk} cfg load `{!PresenceLaws cfg load} now t t' h u i :
  handler_at cfg load now h → now ≤ t → key (t + SYNC_ONLINE_TIMEOUT) < key t' →
  is_mine_id cfg u = true → is_Some (_user_device_to_num_current_syncs h !! (u, i)) →
  ∃ h1, run cfg load t (UserSyncingEnd u i) h = Ok h1 ∧
    (quiet t t' h1 u → ∃ h2, run cfg load t' HandleTimeouts h1 = Ok h2 ∧
      p_state (current load h2 u) = PresenceState.OFFLINE).
Proof.
  intros Hh Hle Hkey Hm [n Hn].
  assert (Ht : t + SYNC_ONLINE_TIMEOUT < t').
  { destruct (Z.lt_ge_cases (t + SYNC_ONLINE_TIMEOUT) t') as [|Hge]; [done|].
    pose proof (key_mono _ _ Hge). lia. }
  assert (t ≤ t') by (unfold SYNC_ONLINE_TIMEOUT in Ht; lia).
  assert (Hok : ok_except cfg load [] t h) by (eapply ok_later, handler_at_ok; done).
  simpl. unfold user_syncing_end. rewrite Hn. set (h0 := set_syncs _ _).
  destruct (current_state_ok cfg load law_track law_enabled law_load [] t h0 u) as (h0' & -> & Hok0 & _ & _ & <-);
    [by apply set_syncs_ok|].
  destruct (resync_armed cfg load t h0' u t Hok0 Hm) as (nt & pg & h1 & -> & Hok1 & Hdue).
  exists h1. split; [done|]. intros Hq.
  assert (Hok1' : ok_except cfg load [] t' h1) by (eapply ok_later; done).
  destruct (run_ok cfg load t' HandleTimeouts h1) as (h2 & Hrun & Hok2); [done..|]. exists h2. split; [done|].
  destruct (run_timeouts cfg load t' h1 h2 Hok1' Hrun) as (_ & Hch & Hun).
  destruct (decide (p_state (current load h1 u) = PresenceState.OFFLINE)) as [Hoff|Hon].
  { destruct (checked_or_not t' h1 u (ok_wheel _ _ _ _ _ Hok1')) as [Hc|Hc].
    - by destruct (outcome_offline cfg load t' h1 h2 u Hoff (Hch u Hc)) as [_ ->].
    - by destruct (Hun u Hc) as [_ ->]. }
  assert (Hc : checked t' h1 u).
  { left. destruct (Hdue Hon) as (e & He & Hu & Hk). exists e. split_and!; [done..|].
    assert (key t ≤ key (t + SYNC_ONLINE_TIMEOUT)) by (apply key_mono; unfold SYNC_ONLINE_TIMEOUT; lia). lia. }
  assert (Hd : devs (_user_to_device_to_current_state h2) u = ∅).
  { rewrite (outcome_mine cfg load t' h1 h2 u) by auto. by eapply quiet_timeout. }
  eapply devices_ok_unique; [|apply devices_ok_empty].
  rewrite <- Hd. apply (ok_local _ _ _ _ _ Hok2); [apply not_elem_of_nil|done].
Qed.

(** ** Users that stay online *)

Section stuck.
Context `{IterOrderOk} (cfg : config) (load : string → option UserPresenceState) `{!PresenceLaws cfg load}.

(** Nothing will ever be checked. *)
Definition unattended (h : PresenceHandler) : Prop :=
  entries (wheel_timer h) = [] ∧ external_process_to_current_syncs h = ∅.

Lemma unattended_timeouts now h :
  unattended h → ∃ h', run cfg load now HandleTimeouts h = Ok h' ∧ unattended h' ∧
    user_to_current_state h' = user_to_current_state h.
Proof.
  intros [Hw He]. unfold run, _handle_timeouts, fetch, expired_users. rewrite Hw, He.
  cbn [pop_due]. rewrite map_fold_empty.
  assert (set_iter (list_to_set (e ← [] : list _Entry; set_iter (entry_elements e)) ∪ ∅ : gset string) = []) as ->.
  { apply Permutation_nil_r. rewrite set_iter_perm. simpl. by rewrite union_empty_l_L, elements_empty. }
  cbn [fmap list_fmap]. unfold handle_timeouts. cbn [fold_res mbind result_bind fmap list_fmap].
  unfold _update_states. rewrite law_enabled. cbn [negb foldl fmap list_fmap fold_res mbind result_bind result_fmap snd].
  eexists. split; [reflexivity|]. split; [|done]. split; [done|]. simpl. rewrite He. apply map_filter_empty.
Qed.

Lemma unattended_for_ever times h u :
  unattended h →
  ∃ h', fold_res (λ h now, run cfg load now HandleTimeouts h) times h = Ok h' ∧
    current load h' u = current load h u.
Proof.
  revert h. induction times as [|now times IH]; intros h Hh; cbn [fold_res]; [by exists h|].
  destruct (unattended_timeouts now h Hh) as (h1 & -> & Hh1 & Heq). cbn [mbind result_bind].
  destruct (IH h1 Hh1) as (h' & -> & Hc). exists h'. split; [done|]. rewrite Hc. by apply current_same.
Qed.

(** Several operations, each with its time. *)
Definition steps (l : list (Z * op)) (h : PresenceHandler) : result PresenceHandler :=
  fold_res (λ h x, run cfg load x.1 x.2 h) l h.

Lemma handler_at_steps l now h h' :
  handler_at cfg load now h → Forall (λ x, from_caller cfg x.2) l → Sorted Z.le (now :: l.*1) →
  steps l h = Ok h' → handler_at cfg load (List.last l.*1 now) h'.
Proof.
  revert now h. induction l as [|[t o] l IH]; intros now h Hh Ha Hs; unfold steps; cbn [fold_res].
  { intros ?. simpl. by assert (h = h') as <- by congruence. }
  apply Forall_cons in Ha as [Ha1 Ha]. apply Sorted_inv in Hs as [Hs Hd]. apply HdRel_inv in Hd.
  intros (h1 & Hr & Hf)%bind_ok. simpl in Hr.
  assert (Hl : List.last ((t, o) :: l).*1 now = List.last l.*1 t).
  { simpl. destruct l as [|x l]; [done|]. simpl. clear. revert x. induction l as [|y l IH]; intros x; [done|]. apply IH. }
  rewrite Hl. apply (IH t h1); [by eapply at_step|done..].
Qed.
End stuck.

(** ** Examples *)

Definition ex_config : config :=
  MkConfig (λ u, bool_decide (get_domain_from_id u = Ok "me")) true true true.
Definition ex_load : string → option UserPresenceState := λ _, None.

#[export] Instance ex_laws : PresenceLaws ex_config ex_load.
Proof. by split. Qed.

Definition ex_start : PresenceHandler := MkHandler ∅ (new_WheelTimer 5000) ∅ ∅ ∅ ∅ ∅.
Definition ex_steps (l : list (Z * op)) : PresenceHandler := unwrap ex_start (steps ex_config ex_load l ex_start).

Lemma ex_start_at now : handler_at ex_config ex_load now ex_start.
Proof. apply (at_start ex_config ex_load [] now); [by intros s ?%not_elem_of_nil|done]. Qed.

Lemma ex_steps_at l :
  Forall (λ x, from_caller ex_config x.2) l → Sorted Z.le (0 :: l.*1) →
  is_ok (steps ex_config ex_load l ex_start) = true →
  handler_at ex_config ex_load (List.last l.*1 0) (ex_steps l).
Proof.
  intros Ha Hs Hok. eapply handler_at_steps; [apply ex_start_at|done|done|]. by apply unwrap_ok.
Qed.

Definition alice : string := "@alice:me".
Definition phone : option string := Some "phone".

(** Alice syncs, is active, and another server announces one of its users. *)
Definition ex_day : list (Z * op) :=
  [(1000, UserSyncing alice phone true PresenceState.ONLINE); (2000, Bump alice phone);
   (3000, Incoming "there" [MkPush (Some "@bob:there") (Some "online") (Some 10) None true]);
   (40000, HandleTimeouts)].

Lemma ex_foreign : foreign ex_config "there".
Proof. intros u Hu. simpl. by rewrite Hu. Qed.

Lemma ex_day_at : handler_at ex_config ex_load 40000 (ex_steps ex_day).
Proof.
  apply (ex_steps_at ex_day); [|by repeat constructor|by vm_compute].
  repeat apply Forall_cons_2; [..|constructor]; simpl; try done.
  - by split; [vm_compute|left].
  - apply ex_foreign.
Qed.

Lemma presence_consistent_witness :
  handler_at ex_config ex_load 40000 (ex_steps ex_day) ∧
  _combine_device_states (map_to_list (devs (_user_to_device_to_current_state (ex_steps ex_day)) alice)).*2 =
    Ok (p_state (current ex_load (ex_steps ex_day) alice)) ∧
  p_state (current ex_load (ex_steps ex_day) alice) = PresenceState.ONLINE ∧
  is_ok (run ex_config ex_load 41000 (SetState alice phone "away" None false false) (ex_steps ex_day)) = false.
Proof.
  split; [apply ex_day_at|]. split; [|split].
  - apply (presence_consistent ex_config ex_load 40000 (ex_steps ex_day) ex_day_at). by vm_compute.
  - by vm_compute.
  - by vm_compute.
Defined.

(** Ten minutes later, with the sync still running. *)
Definition ex_later : PresenceHandler :=
  unwrap ex_start (run ex_config ex_load 640000 HandleTimeouts (ex_steps ex_day)).

Lemma syncing_never_offline_witness :
  p_state (current ex_load ex_later alice) ≠ PresenceState.OFFLINE.
Proof.
  apply (syncing_never_offline ex_config ex_load 40000 640000 (ex_steps ex_day) ex_later alice phone
    (MkDevice PresenceState.ONLINE 2000 1000)).
  - apply ex_day_at.
  - lia.
  - by vm_compute.
  - by vm_compute.
  - by vm_compute.
  - apply (bool_decide_unpack _). by vm_compute.
  - by vm_compute.
Defined.

(** Alice's sync ends at 41 s; at 76 s she is offline. *)
Definition ex_ended : PresenceHandler :=
  unwrap ex_start (run ex_config ex_load 41000 (UserSyncingEnd alice phone) (ex_steps ex_day)).

Lemma silent_goes_offline_witness :
  ∃ h1, run ex_config ex_load 41000 (UserSyncingEnd alice phone) (ex_steps ex_day) = Ok h1 ∧
    (quiet 41000 76000 h1 alice → ∃ h2, run ex_config ex_load 76000 HandleTimeouts h1 = Ok h2 ∧
      p_state (current ex_load h2 alice) = PresenceState.OFFLINE).
Proof.
  apply (silent_goes_offline ex_config ex_load 40000 41000 76000 (ex_steps ex_day) alice phone ex_day_at);
    [lia|by vm_compute|by vm_compute|]. exists 1. by vm_compute.
Defined.

(** The premise of the conclusion holds there. *)
Example ex_ended_quiet : quiet 41000 76000 ex_ended alice.
Proof.
  intros j d. assert (devs (_user_to_device_to_current_state ex_ended) alice =
    {[phone := MkDevice PresenceState.ONLINE 2000 1000]}) as -> by (by vm_compute).
  intros [<- <-]%lookup_singleton_Some. split_and!; [done|simpl; lia|simpl; lia|].
  apply (bool_decide_unpack _). by vm_compute.
Qed.

(** Alice, who has not synced for an hour, sets herself busy; five seconds later her
    timers are due. *)
Definition ex_busy : list (Z * op) :=
  [(100000000, SetState alice phone PresenceState.BUSY None false false); (100005000, HandleTimeouts)].

(** A busy user can stay busy for ever.  The timer of a busy user is set one hour
    after the last sync, not after the last activity on which the timeout depends; when
    both timers are past they are due in the next bucket, the check finds nothing to
    change and sets no new timer, so that no later check ever looks at the user. *)
Theorem busy_for_ever (times : list Z) :
  handler_at ex_config ex_load 100005000 (ex_steps ex_busy) ∧
  ∃ h, fold_res (λ h now, run ex_config ex_load now HandleTimeouts h) times (ex_steps ex_busy) = Ok h ∧
    p_state (current ex_load h alice) = PresenceState.BUSY.
Proof.
  split.
  { apply (ex_steps_at ex_busy); [|by repeat constructor|by vm_compute].
    repeat apply Forall_cons_2; [..|constructor]; simpl; try done. }
  destruct (unattended_for_ever ex_config ex_load times (ex_steps ex_busy) alice) as (h & Hf & Hc).
  - split; by vm_compute.
  - exists h. split; [exact Hf|]. rewrite Hc. by vm_compute.
Qed.

(** Another server announces three of its users in ten seconds; the timer of the third
    is put one bucket early (see [timer_early_return]). *)
Definition announce (u : string) : op :=
  Incoming "there" [MkPush (Some u) (Some "online") None None true].
Definition ex_remote : list (Z * op) :=
  [(1000, announce "@a:there"); (5000, announce "@b:there"); (9000, announce "@c:there");
   (1805000, HandleTimeouts); (1815000, HandleTimeouts); (1825000, HandleTimeouts)].

(** A remote user can stay online for ever: its timer is due one bucket early, when
    the 30 minutes are not over yet; the check finds nothing to change and sets no new
    timer. *)
Theorem remote_for_ever (times : list Z) :
  handler_at ex_config ex_load 1825000 (ex_steps ex_remote) ∧
  p_state (current ex_load (ex_steps ex_remote) "@b:there") = PresenceState.OFFLINE ∧
  ∃ h, fold_res (λ h now, run ex_config ex_load now HandleTimeouts h) times (ex_steps ex_remote) = Ok h ∧
    p_state (current ex_load h "@c:there") = PresenceState.ONLINE.
Proof.
  split; [|split; [by vm_compute|]].
  { apply (ex_steps_at ex_remote); [|by repeat constructor|by vm_compute].
    repeat apply Forall_cons_2; [..|constructor]; simpl; try done; apply ex_foreign. }
  destruct (unattended_for_ever ex_config ex_load times (ex_steps ex_remote) "@c:there") as (h & Hf & Hc).
  - split; by vm_compute.
  - exists h. split; [exact Hf|]. rewrite Hc. by vm_compute.
Qed.

(** Three users of this server look in within ten seconds, and the timers are checked every
    five seconds. *)
Definition visit (t : Z) (u : string) : list (Z * op) :=
  [(t, UserSyncing u phone true PresenceState.UNAVAILABLE); (t, UserSyncingEnd u phone)].
Definition ex_visits : list (Z * op) :=
  visit 1000 "@a:me" ++ visit 5000 "@b:me" ++ visit 9000 "@c:me" ++
  ((λ n, (5000 * n, HandleTimeouts)) <$> [2; 3; 4; 5; 6; 7; 8]).

(** A local user can stay unavailable for ever: the only timer of the third user is due one
    bucket early, when the 30 seconds are not over yet, and no new one is set. *)
Theorem unavailable_for_ever (times : list Z) :
  handler_at ex_config ex_load 40000 (ex_steps ex_visits) ∧
  p_state (current ex_load (ex_steps ex_visits) "@b:me") = PresenceState.OFFLINE ∧
  ∃ h, fold_res (λ h now, run ex_config ex_load now HandleTimeouts h) times (ex_steps ex_visits) = Ok h ∧
    p_state (current ex_load h "@c:me") = PresenceState.UNAVAILABLE.
Proof.
  split; [|split; [by vm_compute|]].
  { apply (ex_steps_at ex_visits); [|by repeat constructor|by vm_compute].
    repeat apply Forall_cons_2; [..|constructor]; simpl; try done; (split; [by vm_compute|by right; left]). }
  destruct (unattended_for_ever ex_config ex_load times (ex_steps ex_visits) "@c:me") as (h & Hf & Hc).
  - split; by vm_compute.
  - exists h. split; [exact Hf|]. rewrite Hc. by vm_compute.
Qed.
