(* ===== verification/AsyncLocks.v ===== *)
(** * Asynchronous locks: [Linearizer] and [ReadWriteLock] of [synapse/util/async_helpers.py]

    A task is one use of a context manager; it runs without interruption between two
    awaits, so that the tasks interleave at the steps below: entering, being resumed
    when what is awaited is there, being cancelled, leaving the body.  Calling back a
    deferred runs the tasks that await it before the rest of the [finally] block, which
    is why leaving a [ReadWriteLock] takes two steps, with others possibly in between. *)

From S2P Require Import Prelude.

(** ** [ReadWriteLock] *)

Module RW.

Inductive mode := Read | Write.

Inductive status :=
| Waiting (to_wait_on : gset nat)
| Holding
(** [new_defer] is called back, the tables are not updated yet *)
| Releasing
| Done.

#[export] Instance mode_eq_dec : EqDecision mode.
Proof. solve_decision. Defined.
#[export] Instance status_eq_dec : EqDecision status.
Proof. solve_decision. Defined.

(** A task, with the cancellation that [delay_cancellation] holds back. *)
Record task := MkTask { t_key : string; t_mode : mode; t_status : status; t_cancelled : bool }.

Record ReadWriteLock := MkLock {
  key_to_current_readers : gmap string (gset nat);
  key_to_current_writer : gmap string nat
}.

(** The lock and all the tasks so far; a task's number stands for its [new_defer]. *)
Record world := MkWorld { lock : ReadWriteLock; tasks : list task }.

Definition start : world := MkWorld (MkLock ∅ ∅) [].

(** [new_defer] has been called back. *)
Definition is_resolved (s : status) : bool :=
  match s with Releasing | Done => true | Waiting _ | Holding => false end.

Definition called (ts : list task) (i : nat) : bool :=
  match ts !! i with Some t => is_resolved (t_status t) | None => false end.

(** Awaiting: nothing happens when everything awaited is there. *)
Definition await (ts : list task) (to_wait_on : gset nat) : status :=
  if bool_decide (set_Forall (λ i, called ts i = true) to_wait_on) then Holding else Waiting to_wait_on.

(** [read], up to the body or the await *)
Definition read (key : string) (w : world) : world :=
  let new_defer := length (tasks w) in
  let curr_readers := default ∅ (key_to_current_readers (lock w) !! key) in
  let curr_writer := key_to_current_writer (lock w) !! key in
  let to_wait_on : gset nat := match curr_writer with Some d => {[d]} | None => ∅ end in
  MkWorld (MkLock (<[key := {[new_defer]} ∪ curr_readers]> (key_to_current_readers (lock w)))
             (key_to_current_writer (lock w)))
    (tasks w ++ [MkTask key Read (await (tasks w) to_wait_on) false]).

(** [write], up to the body or the await *)
Definition write (key : string) (w : world) : world :=
  let new_defer := length (tasks w) in
  let readers := key_to_current_readers (lock w) in
  let curr_readers := default ∅ (readers !! key) in
  let curr_writer := key_to_current_writer (lock w) !! key in
  let to_wait_on : gset nat :=
    curr_readers ∪ match curr_writer with Some d => {[d]} | None => ∅ end in
  MkWorld (MkLock (match readers !! key with Some _ => <[key := ∅]> readers | None => readers end)
             (<[key := new_defer]> (key_to_current_writer (lock w))))
    (tasks w ++ [MkTask key Write (await (tasks w) to_wait_on) false]).

Definition set_task (i : nat) (t : task) (w : world) : world :=
  MkWorld (lock w) (<[i := t]> (tasks w)).

Definition with_status (t : task) (s : status) : task :=
  MkTask (t_key t) (t_mode t) s (t_cancelled t).

(** The end of the await; a delayed cancellation is raised now and leaves at once. *)
Definition resume (i : nat) (w : world) : option world :=
  t ← tasks w !! i;
  match t_status t with
  | Waiting ws =>
      if bool_decide (set_Forall (λ i, called (tasks w) i = true) ws)
      then Some (set_task i (with_status t (if t_cancelled t then Releasing else Holding)) w)
      else None
  | _ => None
  end.

(** The cancellation of a task that awaits: a reader leaves, a writer waits on. *)
Definition cancel (i : nat) (w : world) : option world :=
  t ← tasks w !! i;
  match t_status t, t_mode t with
  | Waiting _, Read => Some (set_task i (with_status t Releasing) w)
  | Waiting ws, Write => Some (set_task i (MkTask (t_key t) Write (Waiting ws) true) w)
  | _, _ => None
  end.

(** The body ends or raises, and [new_defer] is called back. *)
Definition release (i : nat) (w : world) : option world :=
  t ← tasks w !! i;
  match t_status t with
  | Holding => Some (set_task i (with_status t Releasing) w)
  | _ => None
  end.

(** The rest of the [finally] block. *)
Definition finish (i : nat) (w : world) : option world :=
  t ← tasks w !! i;
  match t_status t with
  | Releasing =>
      let l := lock w in
      let l :=
        match t_mode t with
        | Read =>
            match key_to_current_readers l !! t_key t with
            | Some rs => MkLock (<[t_key t := rs ∖ {[i]}]> (key_to_current_readers l))
                           (key_to_current_writer l)
            | None => l
            end
        | Write =>
            if bool_decide (key_to_current_writer l !! t_key t = Some i)
            then MkLock (key_to_current_readers l) (delete (t_key t) (key_to_current_writer l))
            else l
        end in
      Some (MkWorld l (<[i := with_status t Done]> (tasks w)))
  | _ => None
  end.

(** The steps of tasks that are there, without new ones. *)
Inductive progress (w : world) : world → Prop :=
| p_resume i w' : resume i w = Some w' → progress w w'
| p_release i w' : release i w = Some w' → progress w w'
| p_finish i w' : finish i w = Some w' → progress w w'.

Inductive step (w : world) : world → Prop :=
| s_read key : step w (read key w)
| s_write key : step w (write key w)
| s_cancel i w' : cancel i w = Some w' → step w w'
| s_progress w' : progress w w' → step w w'.

Definition reachable : world → Prop := rtc step start.

End RW.

(** ** [Linearizer] *)

Module Lin.

(** An entry: the number of things executing, and the waiting tasks in order. *)
Record _LinearizerEntry := MkEntry { count : Z; deferreds : list nat }.

Inductive status :=
| Waiting
(** the lock is acquired, and the task sleeps once before it enters its body *)
| Sleeping
| Holding
| Left.

#[export] Instance lin_status_eq_dec : EqDecision status.
Proof. solve_decision. Defined.

(** A task refers to its entry, which is shared. *)
Record task := MkTask { t_key : string; t_entry : nat; t_status : status }.

(** The linearizer, the entries it has made and all the tasks so far. *)
Record world := MkWorld {
  key_to_defer : gmap string nat;
  heap : list _LinearizerEntry;
  tasks : list task
}.

Definition start : world := MkWorld ∅ [] [].

Section linearizer.
Context (max_count : Z).

Definition is_queued (key : string) (w : world) : bool :=
  match key_to_defer w !! key with
  | Some a => match heap w !! a with Some e => negb (bool_decide (deferreds e = [])) | None => false end
  | None => false
  end.

(** [self.key_to_defer.setdefault(key, _LinearizerEntry(0, OrderedDict()))] *)
Definition entry_for (key : string) (w : world) : nat * world :=
  match key_to_defer w !! key with
  | Some a => (a, w)
  | None => let a := length (heap w) in
            (a, MkWorld (<[key := a]> (key_to_defer w)) (heap w ++ [MkEntry 0 []]) (tasks w))
  end.

(** [_acquire_lock], up to the return or the await *)
Definition _acquire_lock (key : string) (w : world) : world :=
  let '(a, w) := entry_for key w in
  let e := default (MkEntry 0 []) (heap w !! a) in
  if count e <? max_count then
    MkWorld (key_to_defer w) (<[a := MkEntry (count e + 1) (deferreds e)]> (heap w))
      (tasks w ++ [MkTask key a Holding])
  else
    MkWorld (key_to_defer w)
      (<[a := MkEntry (count e) (deferreds e ++ [length (tasks w)])]> (heap w))
      (tasks w ++ [MkTask key a Waiting]).

Definition set_status (i : nat) (s : status) (w : world) : world :=
  MkWorld (key_to_defer w) (heap w) (alter (λ t, MkTask (t_key t) (t_entry t) s) i (tasks w)).

(** [_release_lock]: the first task that waits is called back and runs at once up to its
    sleep, counting itself. *)
Definition _release_lock (key : string) (a : nat) (w : world) : result world :=
  let e := default (MkEntry 0 []) (heap w !! a) in
  let count := count e - 1 in
  match deferreds e with
  | next :: rest =>
      Ok (set_status next Sleeping
            (MkWorld (key_to_defer w) (<[a := MkEntry (count + 1) rest]> (heap w)) (tasks w)))
  | [] =>
      let w := MkWorld (key_to_defer w) (<[a := MkEntry count []]> (heap w)) (tasks w) in
      if count =? 0 then
        match key_to_defer w !! key with
        | Some _ => Ok (MkWorld (delete key (key_to_defer w)) (heap w) (tasks w))
        | None => Err (PyBuiltin KeyError)
        end
      else Ok w
  end.

(** The sleep is over. *)
Definition wake (i : nat) (w : world) : option world :=
  t ← tasks w !! i;
  if bool_decide (t_status t = Sleeping) then Some (set_status i Holding w) else None.

(** The body ends or raises. *)
Definition leave (i : nat) (w : world) : option (result world) :=
  t ← tasks w !! i;
  if bool_decide (t_status t = Holding)
  then Some (_release_lock (t_key t) (t_entry t) (set_status i Left w)) else None.

(** The task is cancelled while it awaits its turn, or while it sleeps. *)
Definition cancel (i : nat) (w : world) : option (result world) :=
  t ← tasks w !! i;
  match t_status t with
  | Waiting =>
      let e := default (MkEntry 0 []) (heap w !! t_entry t) in
      Some (Ok (set_status i Left
        (MkWorld (key_to_defer w)
           (<[t_entry t := MkEntry (count e) (filter (λ j, j ≠ i) (deferreds e))]> (heap w)) (tasks w))))
  | Sleeping => Some (_release_lock (t_key t) (t_entry t) (set_status i Left w))
  | _ => None
  end.

(** The steps of tasks that are there, without new ones. *)
Inductive progress (w : world) : world → Prop :=
| p_wake i w' : wake i w = Some w' → progress w w'
| p_leave i w' : leave i w = Some (Ok w') → progress w w'.

Inductive step (w : world) : world → Prop :=
| s_acquire key : step w (_acquire_lock key w)
| s_cancel i w' : cancel i w = Some (Ok w') → step w w'
| s_progress w' : progress w w' → step w w'.

Definition reachable : world → Prop := rtc step start.
End linearizer.
End Lin.
