(* ===== verification/AsyncLockProps.v ===== *)
(** * Asynchronous locks: exclusion, order and progress *)

From S2P Require Import Prelude AsyncLocks.

Module RWProps.
Import RW.

(** ** The invariant of [ReadWriteLock] *)

(** Task [i] is [t] and its deferred has not been called back. *)
Definition live (w : world) (i : nat) (t : task) : Prop :=
  tasks w !! i = Some t ∧ is_resolved (t_status t) = false.

Definition readers_of (w : world) (k : string) : gset nat :=
  default ∅ (key_to_current_readers (lock w) !! k).

Definition both_read (t t' : task) : Prop := t_mode t = Read ∧ t_mode t' = Read.

(** [b] waits for [a], or for a writer after [a]. *)
Definition blocked (w : world) (a b : nat) (tb : task) : Prop :=
  ∃ ws, t_status tb = Waiting ws ∧
    (a ∈ ws ∨ ∃ x tx, x ∈ ws ∧ live w x tx ∧ t_mode tx = Write ∧ t_key tx = t_key tb ∧
      (a < x)%nat ∧ (x < b)%nat).

Record inv (w : world) : Prop := {
  (** the tables lead to every live task *)
  inv_tables a t : live w a t →
    (t_mode t = Read ∧ a ∈ readers_of w (t_key t)) ∨
    (∃ x tx, key_to_current_writer (lock w) !! t_key t = Some x ∧ live w x tx ∧ (a ≤ x)%nat);
  inv_readers k a : a ∈ readers_of w k → ∃ t, tasks w !! a = Some t;
  inv_writer k x : key_to_current_writer (lock w) !! k = Some x →
    ∃ tx, tasks w !! x = Some tx ∧ t_key tx = k ∧ t_mode tx = Write;
  inv_blocked a b ta tb : (a < b)%nat → live w a ta → live w b tb → t_key ta = t_key tb →
    both_read ta tb ∨ blocked w a b tb;
  inv_waits b tb ws x : tasks w !! b = Some tb → t_status tb = Waiting ws → x ∈ ws →
    (x < b)%nat ∧ is_Some (tasks w !! x)
}.

(** Nothing before [i] keeps it from running. *)
Definition clear (w : world) (i : nat) (t : task) : Prop :=
  ∀ a ta, (a < i)%nat → live w a ta → t_key ta = t_key t → both_read ta t.

Lemma called_live ts w i t : tasks w = ts → live w i t → called ts i = false.
Proof. intros <- [Hi Ht]. unfold called. by rewrite Hi. Qed.

Lemma holding_clear w i t : inv w → tasks w !! i = Some t → t_status t = Holding → clear w i t.
Proof.
  intros Hinv Hi Hs a ta Ha Hl Hk. destruct (inv_blocked w Hinv a i ta t) as [?|(ws & Hw & _)]; try done.
  - split; [done|by rewrite Hs].
  - congruence.
Qed.

Lemma waited_clear w i t ws :
  inv w → tasks w !! i = Some t → t_status t = Waiting ws →
  set_Forall (λ x, called (tasks w) x = true) ws → clear w i t.
Proof.
  intros Hinv Hi Hs Hall a ta Ha Hl Hk.
  destruct (inv_blocked w Hinv a i ta t) as [?|(ws' & Hw & Hb)]; try done.
  { split; [done|by rewrite Hs]. }
  assert (ws' = ws) as -> by congruence. exfalso.
  destruct Hb as [Hx|(x & tx & Hx & Hl' & _)]; apply Hall in Hx.
  - by rewrite (called_live _ w a ta) in Hx.
  - by rewrite (called_live _ w x tx) in Hx.
Qed.

Lemma live_set w i t' a ta :
  live (set_task i t' w) a ta → (a = i ∧ ta = t' ∧ is_resolved (t_status t') = false) ∨ (a ≠ i ∧ live w a ta).
Proof.
  intros [Ha Hr]. simpl in Ha. destruct (decide (a = i)) as [->|Hne].
  - left. apply list_lookup_insert_Some in Ha as [(_ & -> & _)|[? _]]; done.
  - right. rewrite list_lookup_insert_ne in Ha by done. done.
Qed.

Lemma live_set_other w i t' a ta : a ≠ i → live w a ta → live (set_task i t' w) a ta.
Proof. intros Hne [Ha Hr]. split; [|done]. simpl. by rewrite list_lookup_insert_ne. Qed.

Lemma live_set_same w i t t' :
  tasks w !! i = Some t → is_resolved (t_status t') = false → live (set_task i t' w) i t'.
Proof.
  intros Hi Hr. split; [|done]. simpl. apply list_lookup_insert_eq. by eapply lookup_lt_Some.
Qed.

(** A live task changes its status. *)
Lemma set_task_inv w i t t' :
  inv w → live w i t → t_key t' = t_key t → t_mode t' = t_mode t →
  t_status t' = t_status t ∨ clear w i t ∧ (∀ ws, t_status t' ≠ Waiting ws) ∨
    t_mode t = Read ∧ is_resolved (t_status t') = true →
  inv (set_task i t' w).
Proof.
  intros Hinv Hl Hk Hm Hcase. pose proof Hl as [Hi Hr].
  (* a live writer that was used as a witness is still live *)
  assert (Hkeep : ∀ a ta x tx, live w a ta → (a < x)%nat → live w x tx → t_mode tx = Write →
    t_key tx = t_key ta → ∃ tx', live (set_task i t' w) x tx' ∧ t_mode tx' = Write ∧ t_key tx' = t_key tx).
  { intros a ta x tx Hla Hax Hlx Hwx Hkx. destruct (decide (x = i)) as [->|Hne].
    2: { exists tx. split; [by apply live_set_other|done]. }
    destruct Hlx as [Hx _]. assert (tx = t) as -> by congruence.
    exists t'. split; [|by rewrite Hm, Hk]. apply (live_set_same w i t); [done|].
    destruct Hcase as [->|[[Hc _]|[Hrd _]]]; [done| |congruence].
    destruct (Hc a ta Hax Hla) as [_ Hrd]; [done|congruence]. }
  split.
  - intros a ta Hla.
    assert (∃ ta0, live w a ta0 ∧ t_key ta0 = t_key ta ∧ t_mode ta0 = t_mode ta) as (ta0 & Hla0 & <- & <-).
    { apply live_set in Hla as [(-> & -> & _)|[_ Hla]]; eauto. }
    destruct (inv_tables w Hinv a ta0 Hla0) as [?|(x & tx & Hx & Hlx & Hax)]; [by left|right].
    destruct (inv_writer w Hinv _ _ Hx) as (tx' & Htx' & Hkx & Hwx). pose proof Hlx as [Htx _].
    assert (tx' = tx) as -> by congruence. destruct (decide (a = x)) as [->|Hne].
    + exists x, ta. done.
    + destruct (Hkeep a ta0 x tx) as (tx' & Hl' & _); [done|lia|done|done|done|]. by exists x, tx'.
  - intros k a Ha. destruct (inv_readers w Hinv k a Ha) as [ta Hta]. simpl.
    destruct (decide (a = i)) as [->|]; [|by rewrite list_lookup_insert_ne; eauto].
    rewrite list_lookup_insert_eq by (by eapply lookup_lt_Some). eauto.
  - intros k x Hx. destruct (inv_writer w Hinv k x Hx) as (tx & Htx & Hkx & Hmx). simpl.
    destruct (decide (x = i)) as [->|]; [|by rewrite list_lookup_insert_ne; eauto].
    rewrite list_lookup_insert_eq by (by eapply lookup_lt_Some). exists t'.
    assert (tx = t) as -> by congruence. by rewrite Hk, Hm.
  - intros a b ta tb Hab Hla Hlb Hkab.
    assert (∃ ta0, live w a ta0 ∧ t_key ta0 = t_key ta ∧ t_mode ta0 = t_mode ta) as (ta0 & Hla0 & Hka & Hma).
    { apply live_set in Hla as [(-> & -> & _)|[_ Hla]]; eauto. }
    unfold both_read. rewrite <- Hma.
    apply live_set in Hlb as [(-> & -> & Hrb)|[Hnb Hlb]].
    + rewrite Hm. destruct Hcase as [Hs|[[Hc _]|[_ ?]]]; [| |congruence].
      * destruct (inv_blocked w Hinv a i ta0 t) as [?|(ws & Hw & Hb)]; [done..|congruence|by left|right].
        exists ws. split; [congruence|]. destruct Hb as [?|(x & tx & Hx & Hlx & Hwx & Hkx & Hax & Hxb)]; [by left|right].
        destruct (Hkeep a ta0 x tx) as (tx' & Hl' & ? & ?); [done|lia|done|done|congruence|].
        exists x, tx'. split_and!; [done..|congruence|lia|lia].
      * left. apply (Hc a ta0); [done..|congruence].
    + destruct (inv_blocked w Hinv a b ta0 tb) as [?|(ws & Hw & Hb)]; [done..|congruence|by left|right].
      exists ws. split; [done|]. destruct Hb as [?|(x & tx & Hx & Hlx & Hwx & Hkx & Hax & Hxb)]; [by left|right].
      destruct (Hkeep a ta0 x tx) as (tx' & Hl' & ? & ?); [done|lia|done|done|congruence|].
      exists x, tx'. split_and!; [done..|congruence|lia|lia].
  - intros b tb ws x Hb Hs Hx. simpl in Hb.
    assert (∃ tb0, tasks w !! b = Some tb0 ∧ t_status tb0 = Waiting ws) as (tb0 & Hb0 & Hs0).
    { destruct (decide (b = i)) as [->|]; [|rewrite list_lookup_insert_ne in Hb by done; eauto].
      rewrite list_lookup_insert_eq in Hb by (by eapply lookup_lt_Some). exists t. split; [done|].
      assert (tb = t') as -> by congruence.
      destruct Hcase as [<-|[[_ Hn]|[_ Hn]]]; [done|by destruct (Hn ws)|by rewrite Hs in Hn]. }
    destruct (inv_waits w Hinv b tb0 ws x Hb0 Hs0 Hx) as [? [tx Htx]]. split; [done|].
    apply lookup_lt_is_Some. simpl. rewrite length_insert. by eapply lookup_lt_Some.
Qed.

(** The rest of the [finally] block touches no live task. *)
Lemma finish_inv w i w' : inv w → finish i w = Some w' → inv w'.
Proof.
  intros Hinv Hf. unfold finish in Hf. apply bind_Some in Hf as (t & Hi & Hf).
  destruct (t_status t) eqn:Hs; try done. injection Hf as Hf. symmetry in Hf.
  assert (Hlive : ∀ a ta, live w' a ta ↔ live w a ta).
  { intros a ta. subst w'. unfold live. simpl. destruct (decide (a = i)) as [->|].
    - rewrite list_lookup_insert_eq by (by eapply lookup_lt_Some). split; intros [Ha Hr].
      + assert (ta = with_status t Done) as -> by congruence. done.
      + assert (ta = t) as -> by congruence. by rewrite Hs in Hr.
    - by rewrite list_lookup_insert_ne. }
  assert (Hsome : ∀ a ta, tasks w !! a = Some ta →
    ∃ ta', tasks w' !! a = Some ta' ∧ t_key ta' = t_key ta ∧ t_mode ta' = t_mode ta).
  { intros a ta Ha. subst w'. simpl. destruct (decide (a = i)) as [->|].
    - rewrite list_lookup_insert_eq by (by eapply lookup_lt_Some). assert (ta = t) as -> by congruence. eauto.
    - rewrite list_lookup_insert_ne by done. eauto. }
  assert (Hrd : ∀ k a, a ∈ readers_of w' k → a ∈ readers_of w k).
  { intros k a. subst w'. unfold readers_of. simpl. destruct (t_mode t); [|by case_bool_decide].
    destruct (key_to_current_readers (lock w) !! t_key t) as [rs|] eqn:Hrs; [|done]. simpl.
    destruct (decide (k = t_key t)) as [->|]; [|by rewrite lookup_insert_ne].
    rewrite lookup_insert_eq, Hrs. simpl. set_solver. }
  assert (Hrd' : ∀ k a, a ∈ readers_of w k → a ≠ i → a ∈ readers_of w' k).
  { intros k a. subst w'. unfold readers_of. simpl. destruct (t_mode t); [|by case_bool_decide].
    destruct (key_to_current_readers (lock w) !! t_key t) as [rs|] eqn:Hrs; [|done]. simpl.
    destruct (decide (k = t_key t)) as [->|]; [|by rewrite lookup_insert_ne].
    rewrite lookup_insert_eq, Hrs. simpl. set_solver. }
  assert (Hwr : ∀ k x, key_to_current_writer (lock w') !! k = Some x →
    key_to_current_writer (lock w) !! k = Some x).
  { intros k x. subst w'. simpl. destruct (t_mode t); [by case_match|]. case_bool_decide; [|done].
    simpl. by intros [_ ?]%lookup_delete_Some. }
  assert (Hwr' : ∀ k x, key_to_current_writer (lock w) !! k = Some x → x ≠ i →
    key_to_current_writer (lock w') !! k = Some x).
  { intros k x Hx Hne. subst w'. simpl. destruct (t_mode t); [by case_match|]. case_bool_decide; [|done].
    simpl. apply lookup_delete_Some. split; [congruence|done]. }
  assert (Hni : ∀ a ta, live w a ta → a ≠ i).
  { intros a ta [Ha Hr] ->. assert (ta = t) as -> by congruence. by rewrite Hs in Hr. }
  split.
  - intros a ta Ha. apply Hlive in Ha.
    destruct (inv_tables w Hinv a ta Ha) as [[? ?]|(x & tx & Hx & Hlx & ?)].
    + left. split; [done|]. apply Hrd'; [done|]. by eapply Hni.
    + right. exists x, tx. split_and!; [apply Hwr'; [done|by eapply Hni]|by apply Hlive|done].
  - intros k a [ta Ha]%Hrd%(inv_readers w Hinv). destruct (Hsome a ta Ha) as (ta' & ? & _). eauto.
  - intros k x Hx%Hwr. destruct (inv_writer w Hinv k x Hx) as (tx & Htx & <- & <-).
    destruct (Hsome x tx Htx) as (tx' & ? & ? & ?). eauto.
  - intros a b ta tb Hab Ha%Hlive Hb%Hlive Hk.
    destruct (inv_blocked w Hinv a b ta tb Hab Ha Hb Hk) as [?|(ws & Hw & Hbl)]; [by left|right].
    exists ws. split; [done|]. destruct Hbl as [?|(x & tx & ? & ? & ?)]; [by left|right].
    exists x, tx. rewrite Hlive. done.
  - intros b tb ws x Hb Hsb Hx.
    assert (tasks w !! b = Some tb) as Hb'.
    { subst w'. simpl in Hb. apply list_lookup_insert_Some in Hb as [(-> & <- & _)|[_ ?]]; [done|done]. }
    destruct (inv_waits w Hinv b tb ws x Hb' Hsb Hx) as [? [tx Htx]]. split; [done|].
    destruct (Hsome x tx Htx) as (tx' & ? & _). eauto.
Qed.

(** The live tasks after one more. *)
Lemma live_snoc w l t a ta :
  live (MkWorld l (tasks w ++ [t])) a ta ↔
  (a < length (tasks w))%nat ∧ live w a ta ∨
  a = length (tasks w) ∧ ta = t ∧ is_resolved (t_status t) = false.
Proof.
  unfold live. simpl. rewrite lookup_snoc_Some. split.
  - intros [[[? ?]|[-> ->]] ?]; [by left|by right].
  - intros [(? & ? & ?)|(-> & -> & ?)]; (split; [|done]); [by left|by right].
Qed.

(** What a task that enters must wait for. *)
Definition covers (w : world) (t : task) (ws : gset nat) : Prop :=
  ∀ a ta, live w a ta → t_key ta = t_key t →
    both_read ta t ∨ a ∈ ws ∨
    ∃ x tx, x ∈ ws ∧ live w x tx ∧ t_mode tx = Write ∧ t_key tx = t_key t ∧ (a < x)%nat.

Lemma enter_inv w t ws l :
  inv w → t_status t = await (tasks w) ws → (∀ x, x ∈ ws → is_Some (tasks w !! x)) → covers w t ws →
  (∀ a ta, live (MkWorld l (tasks w ++ [t])) a ta →
    (t_mode ta = Read ∧ a ∈ readers_of (MkWorld l (tasks w ++ [t])) (t_key ta)) ∨
    (∃ x tx, key_to_current_writer l !! t_key ta = Some x ∧
       live (MkWorld l (tasks w ++ [t])) x tx ∧ (a ≤ x)%nat)) →
  (∀ k a, a ∈ readers_of (MkWorld l (tasks w ++ [t])) k → (a ≤ length (tasks w))%nat) →
  (∀ k x, key_to_current_writer l !! k = Some x →
    ∃ tx, (tasks w ++ [t]) !! x = Some tx ∧ t_key tx = k ∧ t_mode tx = Write) →
  inv (MkWorld l (tasks w ++ [t])).
Proof.
  intros Hinv Hs Hws Hcov Htab Hrd Hwr. split; [done| |done| |].
  - intros k a Ha%Hrd. apply lookup_lt_is_Some. simpl. rewrite length_app. simpl. lia.
  - intros a b ta tb Hab Hla Hlb Hk. apply live_snoc in Hlb as [[Hb Hlb]|(-> & -> & Hr)].
    + apply live_snoc in Hla as [[_ Hla]|(-> & _)]; [|lia].
      destruct (inv_blocked w Hinv a b ta tb) as [?|(ws' & Hw & Hbl)]; [done..|by left|right].
      exists ws'. split; [done|]. destruct Hbl as [?|(x & tx & ? & Hlx & ? & ? & ? & ?)]; [by left|right].
      exists x, tx. split_and!; try done; apply live_snoc; left. split; [lia|done].
    + apply live_snoc in Hla as [[_ Hla]|(-> & _)]; [|lia].
      destruct (Hcov a ta Hla Hk) as [?|Hbl]; [by left|right].
      assert (Hlx : ∃ x tx, x ∈ ws ∧ live w x tx) by (destruct Hbl as [|(x & tx & ? & ? & _)]; eauto).
      destruct Hlx as (y & ty & Hy & Hly). exists ws. rewrite Hs in *. unfold await in *.
      case_bool_decide as Hall.
      { apply Hall in Hy. by rewrite (called_live _ w y ty) in Hy. }
      split; [done|]. destruct Hbl as [?|(x & tx & Hx & Hlx & ? & ? & ?)]; [by left|right].
      assert (x < length (tasks w))%nat by (destruct Hlx; by eapply lookup_lt_Some).
      exists x, tx. split_and!; try done. apply live_snoc. by left.
  - intros b tb ws' x Hb Hsb Hx. simpl in *. apply lookup_snoc_Some in Hb as [[_ Hb]|[-> <-]].
    + destruct (inv_waits w Hinv b tb ws' x) as [? [tx Htx]]; [done..|]. split; [done|].
      exists tx. apply lookup_app_Some. by left.
    + rewrite Hs in Hsb. unfold await in Hsb. case_bool_decide; [done|].
      assert (ws' = ws) as -> by congruence. destruct (Hws x Hx) as [tx Htx].
      split; [by eapply lookup_lt_Some|]. exists tx. apply lookup_app_Some. by left.
Qed.

Lemma inv_reader_lt w k a : inv w → a ∈ readers_of w k → (a < length (tasks w))%nat.
Proof. intros Hinv Ha. destruct (inv_readers w Hinv k a Ha) as [t Ht]. by eapply lookup_lt_Some. Qed.

Lemma inv_writer_lt w k x : inv w → key_to_current_writer (lock w) !! k = Some x → (x < length (tasks w))%nat.
Proof. intros Hinv Hx. destruct (inv_writer w Hinv k x Hx) as (t & Ht & _). by eapply lookup_lt_Some. Qed.

(** The current writer of a key, when it is live, covers what the readers do not. *)
Lemma tables_cover w a ta k :
  inv w → live w a ta → t_key ta = k →
  (t_mode ta = Read ∧ a ∈ readers_of w k) ∨ key_to_current_writer (lock w) !! k = Some a ∨
  ∃ x tx, key_to_current_writer (lock w) !! k = Some x ∧ live w x tx ∧ t_mode tx = Write ∧
    t_key tx = k ∧ (a < x)%nat.
Proof.
  intros Hinv Hl <-. destruct (inv_tables w Hinv a ta Hl) as [?|(x & tx & Hx & Hlx & Hax)]; [by left|right].
  destruct (decide (a = x)) as [->|]; [by left|right].
  destruct (inv_writer w Hinv _ _ Hx) as (tx' & Htx' & Hk & Hw). destruct Hlx as [Htx Hr].
  assert (tx' = tx) as -> by congruence. exists x, tx. split_and!; try done. lia.
Qed.

Lemma read_inv w k : inv w → inv (read k w).
Proof.
  intros Hinv. unfold read. eapply enter_inv; [done|reflexivity|..].
  - intros x. destruct (key_to_current_writer (lock w) !! k) as [y|] eqn:Hy; [|set_solver].
    intros ->%elem_of_singleton. destruct (inv_writer w Hinv k y Hy) as (t & ? & _). eauto.
  - intros a ta Hl Hk. simpl in Hk.
    destruct (tables_cover w a ta k Hinv Hl Hk) as [[Hr _]|[Ha|(x & tx & Hx & Hrest)]].
    + by left.
    + right. left. rewrite Ha. set_solver.
    + right. right. exists x, tx. rewrite Hx. split; [set_solver|done].
  - intros a ta [[Ha Hl]|(-> & -> & _)]%live_snoc; simpl.
    + unfold readers_of. simpl. destruct (inv_tables w Hinv a ta Hl) as [[Hm Hr]|(x & tx & Hx & Hlx & Hax)].
      * left. split; [done|]. destruct (decide (t_key ta = k)) as [<-|].
        -- rewrite lookup_insert_eq. simpl. unfold readers_of in Hr. set_solver.
        -- by rewrite lookup_insert_ne.
      * right. exists x, tx. split_and!; try done. apply live_snoc. left. split; [by eapply inv_writer_lt|done].
    + left. split; [done|]. unfold readers_of. simpl. rewrite lookup_insert_eq. simpl. set_solver.
  - intros k' a. unfold readers_of. simpl. destruct (decide (k' = k)) as [->|].
    + rewrite lookup_insert_eq. simpl. intros [->%elem_of_singleton|Ha]%elem_of_union; [done|].
      apply Nat.lt_le_incl. by eapply (inv_reader_lt w k).
    + rewrite lookup_insert_ne by done. intros Ha. apply Nat.lt_le_incl. by eapply (inv_reader_lt w k').
  - simpl. intros k' x Hx. destruct (inv_writer w Hinv k' x Hx) as (tx & ? & ?). exists tx. split; [|done].
    apply lookup_app_Some. by left.
Qed.

Lemma readers_cleared (rd : gmap string (gset nat)) k k' :
  default ∅ ((match rd !! k with Some _ => <[k := ∅]> rd | None => rd end) !! k') =
  if decide (k' = k) then ∅ else default ∅ (rd !! k').
Proof.
  destruct (rd !! k) as [rs|] eqn:Hk.
  - case_decide as Hd; [subst; by rewrite lookup_insert_eq|]. by rewrite lookup_insert_ne.
  - case_decide as Hd; [subst; by rewrite Hk|done].
Qed.

Lemma write_inv w k : inv w → inv (write k w).
Proof.
  intros Hinv. unfold write. eapply enter_inv; [done|reflexivity|..].
  - intros x [Hx|Hx]%elem_of_union; [by destruct (inv_readers w Hinv k x Hx); eauto|].
    destruct (key_to_current_writer (lock w) !! k) as [y|] eqn:Hy; [|set_solver].
    apply elem_of_singleton in Hx as ->. destruct (inv_writer w Hinv k y Hy) as (t & ? & _). eauto.
  - intros a ta Hl Hk. simpl in Hk. right.
    destruct (tables_cover w a ta k Hinv Hl Hk) as [[_ Hr]|[Ha|(x & tx & Hx & Hrest)]].
    + left. unfold readers_of in Hr. set_solver.
    + left. rewrite Ha. set_solver.
    + right. exists x, tx. rewrite Hx. split; [set_solver|done].
  - intros a ta [[Ha Hl]|(-> & -> & Hr)]%live_snoc; simpl.
    + unfold readers_of. simpl. rewrite readers_cleared. destruct (decide (t_key ta = k)) as [<-|Hne].
      * right. rewrite lookup_insert_eq. eexists _, _. split_and!; [done| |].
        -- apply live_snoc. right. split_and!; [done|done|]. simpl. unfold await. by case_bool_decide.
        -- lia.
      * rewrite lookup_insert_ne by done.
        destruct (inv_tables w Hinv a ta Hl) as [[Hm Hr]|(x & tx & Hx & Hlx & Hax)]; [by left|right].
        exists x, tx. split_and!; try done. apply live_snoc. left. split; [by eapply inv_writer_lt|done].
    + right. rewrite lookup_insert_eq. eexists _, _. split_and!; [done| |].
      * apply live_snoc. right. split_and!; done.
      * done.
  - intros k' a. unfold readers_of. simpl. rewrite readers_cleared. case_decide; [set_solver|].
    intros Ha. apply Nat.lt_le_incl. by eapply (inv_reader_lt w k').
  - simpl. intros k' x [[<- <-]|[_ Hx]]%lookup_insert_Some.
    + eexists. split; [by apply lookup_snoc_Some; right|done].
    + destruct (inv_writer w Hinv k' x Hx) as (tx & ? & ?). exists tx. split; [|done].
      apply lookup_app_Some. by left.
Qed.

Lemma progress_inv w w' : inv w → progress w w' → inv w'.
Proof.
  intros Hinv Hp. destruct Hp as [i w' Hr|i w' Hr|i w' Hr]; [| |by eapply finish_inv].
  - unfold resume in Hr. apply bind_Some in Hr as (t & Hi & Hr).
    destruct (t_status t) as [ws| | |] eqn:Hs; try done. case_bool_decide as Hall; [|done].
    assert (w' = set_task i (with_status t (if t_cancelled t then Releasing else Holding)) w) as -> by congruence.
    apply (set_task_inv w i t); try done; [by split; [|rewrite Hs]|].
    right. left. split; [by eapply waited_clear|]. simpl. by destruct (t_cancelled t).
  - unfold release in Hr. apply bind_Some in Hr as (t & Hi & Hr).
    destruct (t_status t) eqn:Hs; try done. assert (w' = set_task i (with_status t Releasing) w) as -> by congruence.
    apply (set_task_inv w i t); try done; [by split; [|rewrite Hs]|].
    right. left. split; [by apply holding_clear|done].
Qed.

Lemma cancel_inv w i w' : inv w → cancel i w = Some w' → inv w'.
Proof.
  intros Hinv Hr. unfold cancel in Hr. apply bind_Some in Hr as (t & Hi & Hr).
  destruct (t_status t) as [ws| | |] eqn:Hs; try done. destruct (t_mode t) eqn:Hm.
  - assert (w' = set_task i (with_status t Releasing) w) as -> by congruence.
    apply (set_task_inv w i t); try done; [by split; [|rewrite Hs]|]. by right; right.
  - assert (w' = set_task i (MkTask (t_key t) Write (Waiting ws) true) w) as -> by congruence.
    apply (set_task_inv w i t); try done; [by split; [|rewrite Hs]|]. by left; rewrite Hs.
Qed.

Lemma reachable_inv w : reachable w → inv w.
Proof.
  intros Hr. unfold reachable in Hr. remember start as w0 eqn:Hw0. assert (inv w0) as Hinv.
  { subst w0. split; try done.
    - intros a t [Ha _]. simpl in Ha. by rewrite lookup_nil in Ha.
    - intros a b ta tb _ [Ha _]. simpl in Ha. by rewrite lookup_nil in Ha. }
  clear Hw0. induction Hr as [|w0 w1 w2 Hs _ IH]; [done|]. apply IH.
  destruct Hs; [by apply read_inv|by apply write_inv|by eapply cancel_inv|by eapply progress_inv].
Qed.

(** ** Progress *)

Definition rank (t : task) : nat :=
  match t_status t with Waiting _ => 3 | Holding => 2 | Releasing => 1 | Done => 0 end.

(** The steps that are left. *)
Definition work (w : world) : nat := sum_list (rank <$> tasks w).

Lemma sum_list_insert (l : list nat) i x y :
  l !! i = Some x → (sum_list (<[i := y]> l) + x = sum_list l + y)%nat.
Proof.
  revert i. induction l as [|z l IH]; intros [|i] Hi; simpl in *; [done..| |].
  - injection Hi as ->. lia.
  - specialize (IH i Hi). lia.
Qed.

Lemma work_set w i t t' l :
  tasks w !! i = Some t → (rank t' < rank t)%nat → (work (MkWorld l (<[i := t']> (tasks w))) < work w)%nat.
Proof.
  intros Hi Hr. unfold work. simpl. rewrite list_fmap_insert.
  pose proof (sum_list_insert (rank <$> tasks w) i (rank t) (rank t')) as Hs.
  rewrite list_lookup_fmap, Hi in Hs. specialize (Hs eq_refl). lia.
Qed.

Lemma progress_work w w' : progress w w' → (work w' < work w)%nat.
Proof.
  intros [i w1 Hr|i w1 Hr|i w1 Hr].
  - unfold resume in Hr. apply bind_Some in Hr as (t & Hi & Hr).
    destruct (t_status t) as [ws| | |] eqn:Hs; try done. case_bool_decide; [|done]. injection Hr as <-.
    apply (work_set w i t); [done|]. unfold rank. rewrite Hs. simpl. destruct (t_cancelled t); simpl; lia.
  - unfold release in Hr. apply bind_Some in Hr as (t & Hi & Hr).
    destruct (t_status t) eqn:Hs; try done. injection Hr as <-.
    apply (work_set w i t); [done|]. unfold rank. rewrite Hs. simpl. lia.
  - unfold finish in Hr. apply bind_Some in Hr as (t & Hi & Hr).
    destruct (t_status t) eqn:Hs; try done. injection Hr as <-.
    apply (work_set w i t); [done|]. unfold rank. rewrite Hs. simpl. lia.
Qed.

Lemma progress_sn w : sn progress w.
Proof.
  remember (work w) as n eqn:Hn. revert w Hn. induction (lt_wf n) as [n _ IH]. intros w ->.
  constructor. intros w' Hp. eapply IH; [by apply progress_work|done].
Qed.

Lemma stuck_done w : inv w → nf progress w → Forall (λ t, t_status t = Done) (tasks w).
Proof.
  intros Hinv Hnf. apply Forall_lookup. intros i.
  induction (lt_wf i) as [i _ IH]. intros t Hi. destruct (t_status t) as [ws| | |] eqn:Hs.
  - destruct Hnf. eexists. apply (p_resume w i). unfold resume. rewrite Hi. simpl. rewrite Hs.
    rewrite bool_decide_true; [reflexivity|]. intros x Hx.
    destruct (inv_waits w Hinv i t ws x Hi Hs Hx) as [Hlt [tx Htx]].
    unfold called. by rewrite Htx, (IH x Hlt tx Htx).
  - destruct Hnf. eexists. apply (p_release w i). unfold release. rewrite Hi. simpl. by rewrite Hs.
  - destruct Hnf. eexists. apply (p_finish w i). unfold finish. rewrite Hi. simpl. by rewrite Hs.
  - done.
Qed.
End RWProps.

(** C20: the read-write lock excludes and is fair: of two tasks on the same key of which
    one writes, the later one is in its body only when the earlier one has left, however
    they interleave and whichever readers and writers are cancelled.  So a writer is
    alone, and readers that come after a waiting writer do not overtake it. *)
Theorem rw_exclusion w i j ti tj :
  RW.reachable w → RW.tasks w !! i = Some ti → RW.tasks w !! j = Some tj →
  RW.t_key ti = RW.t_key tj → RW.t_mode ti = RW.Write ∨ RW.t_mode tj = RW.Write → (i < j)%nat →
  RW.t_status tj = RW.Holding → RW.is_resolved (RW.t_status ti) = true.
Proof.
  intros Hr Hi Hj Hk Hw Hij Hh. apply RWProps.reachable_inv in Hr as Hinv.
  destruct (RW.is_resolved (RW.t_status ti)) eqn:Hres; [done|].
  destruct (RWProps.holding_clear w j tj Hinv Hj Hh i ti) as [? ?]; try done. destruct Hw; congruence.
Qed.

(** C36: the read-write lock does not deadlock: if no new task comes, then however the
    tasks take their steps they come to an end, and when none of them can take a step
    all of them have left. *)
Theorem rw_no_deadlock w :
  RW.reachable w →
  sn RW.progress w ∧
  ∀ w', rtc RW.progress w w' → nf RW.progress w' → Forall (λ t, RW.t_status t = RW.Done) (RW.tasks w').
Proof.
  intros Hr. split; [apply RWProps.progress_sn|]. intros w' Hp Hnf. apply RWProps.stuck_done; [|done].
  apply RWProps.reachable_inv in Hr. clear Hnf. induction Hp as [|w w1 w2 Hs _ IH]; [done|].
  by eapply IH, RWProps.progress_inv.
Qed.

(** A reader that waits for a writer is resumed while the writer leaves. *)
Definition ex_w1 : RW.world := RW.read "k" (RW.write "k" RW.start).
Definition ex_w2 : RW.world := default RW.start (RW.release 0 ex_w1).
Definition ex_w3 : RW.world := default RW.start (RW.resume 1 ex_w2).

Lemma ex_w3_reachable : RW.reachable ex_w3.
Proof.
  eapply rtc_l; [apply (RW.s_write _ "k")|]. eapply rtc_l; [apply (RW.s_read _ "k")|].
  eapply rtc_l; [apply RW.s_progress, (RW.p_release _ 0 ex_w2); by vm_compute|].
  apply rtc_once, RW.s_progress, (RW.p_resume _ 1 ex_w3). by vm_compute.
Qed.

Lemma rw_exclusion_witness :
  RW.tasks ex_w3 !! 1%nat = Some (RW.MkTask "k" RW.Read RW.Holding false) ∧
  RW.is_resolved (RW.t_status (RW.MkTask "k" RW.Write RW.Releasing false)) = true.
Proof.
  split; [by vm_compute|].
  apply (rw_exclusion ex_w3 0 1 (RW.MkTask "k" RW.Write RW.Releasing false)
    (RW.MkTask "k" RW.Read RW.Holding false) ex_w3_reachable);
    [by vm_compute|by vm_compute|done|by left|lia|done].
Defined.

Lemma rw_no_deadlock_witness :
  length (RW.tasks ex_w3) = 2%nat ∧
  (sn RW.progress ex_w3 ∧
   ∀ w', rtc RW.progress ex_w3 w' → nf RW.progress w' →
     Forall (λ t, RW.t_status t = RW.Done) (RW.tasks w')).
Proof. split; [by vm_compute|]. apply (rw_no_deadlock ex_w3 ex_w3_reachable). Defined.
