(* ===== verification/LinearizerProps.v ===== *)
(** * The linearizer: bounded access, first come first served, nothing lost *)

From S2P Require Import Prelude AsyncLocks AsyncLockProps.
Import Lin.

(** ** Counting tasks *)

Definition num (P : task → bool) (ts : list task) : nat :=
  sum_list ((λ t, if P t then 1%nat else 0%nat) <$> ts).

Definition bit (b : bool) : nat := if b then 1 else 0.

Lemma num_cons P t ts : num P (t :: ts) = (bit (P t) + num P ts)%nat.
Proof. done. Qed.

Lemma num_snoc P ts t : num P (ts ++ [t]) = (num P ts + bit (P t))%nat.
Proof.
  induction ts as [|x ts IH]; [unfold num, bit; simpl; lia|].
  rewrite <- app_comm_cons, !num_cons. lia.
Qed.

Lemma num_set P ts i t t' :
  ts !! i = Some t → (num P (<[i := t']> ts) + bit (P t) = num P ts + bit (P t'))%nat.
Proof.
  intros Hi. unfold num. rewrite list_fmap_insert. apply RWProps.sum_list_insert.
  by rewrite list_lookup_fmap, Hi.
Qed.

Lemma num_ext P Q ts ts' :
  length ts' = length ts →
  (∀ i t t', ts !! i = Some t → ts' !! i = Some t' → P t = Q t') → num P ts = num Q ts'.
Proof.
  revert ts'. induction ts as [|t ts IH]; intros [|t' ts'] Hl He; try done.
  injection Hl as Hl. rewrite !num_cons, (He 0%nat t t' eq_refl eq_refl).
  rewrite (IH ts' Hl); [done|]. intros i x x' Hx Hx'. by apply (He (S i)).
Qed.

Lemma num_pos P ts i t : ts !! i = Some t → P t = true → (1 ≤ num P ts)%nat.
Proof.
  revert i. induction ts as [|x ts IH]; intros [|i] Hi Ht; try done; rewrite num_cons.
  - injection Hi as ->. rewrite Ht. simpl. lia.
  - specialize (IH i Hi Ht). lia.
Qed.

Lemma num_0 P ts : (∀ i t, ts !! i = Some t → P t = false) → num P ts = 0%nat.
Proof.
  induction ts as [|x ts IH]; intros Hf; [done|]. rewrite num_cons.
  rewrite (Hf 0%nat x eq_refl), IH; [done|]. intros i t Hi. by apply (Hf (S i)).
Qed.

Lemma alter_insert {A} (f : A → A) (l : list A) (i : nat) x : l !! i = Some x → alter f i l = <[i := f x]> l.
Proof.
  intros Hi. apply list_eq. intros j. destruct (decide (i = j)) as [<-|].
  - rewrite list_lookup_alter_eq, Hi, list_lookup_insert_eq; [done|by eapply lookup_lt_Some].
  - by rewrite list_lookup_alter_ne, list_lookup_insert_ne.
Qed.

(** ** The invariant *)

(** The task has the lock. *)
Definition holds (t : task) : bool :=
  match t_status t with Sleeping | Holding => true | Waiting | Left => false end.

Definition holds_at (a : nat) (t : task) : bool := bool_decide (t_entry t = a) && holds t.

Section inv.
Context (max_count : Z).
Hypothesis max_pos : 1 ≤ max_count.

(** The entry counts the tasks that have the lock, lets no more in than it may, makes
    tasks wait only when it is full, and knows who waits, in order. *)
Record entry_ok (ts : list task) (a : nat) (e : _LinearizerEntry) : Prop := {
  e_count : count e = Z.of_nat (num (holds_at a) ts);
  e_max : count e ≤ max_count;
  e_full : deferreds e ≠ [] → count e = max_count;
  e_sorted : StronglySorted lt (deferreds e);
  e_waiting i : i ∈ deferreds e ↔ ∃ t, ts !! i = Some t ∧ t_entry t = a ∧ t_status t = Waiting
}.

Record inv (w : world) : Prop := {
  i_heap k a : key_to_defer w !! k = Some a → is_Some (heap w !! a);
  i_inj k k' a : key_to_defer w !! k = Some a → key_to_defer w !! k' = Some a → k = k';
  i_task i t : tasks w !! i = Some t → (t_entry t < length (heap w))%nat ∧
    (t_status t ≠ Left → key_to_defer w !! t_key t = Some (t_entry t));
  i_entry a e : heap w !! a = Some e → entry_ok (tasks w) a e
}.

(** Every entry in the table is in use. *)
Definition used (w : world) : Prop :=
  ∀ k a e, key_to_defer w !! k = Some a → heap w !! a = Some e → 1 ≤ count e.

(** [ts'] is [ts] with some tasks of entry [a] further on. *)
Definition moved (a : nat) (ts ts' : list task) : Prop :=
  length ts' = length ts ∧
  ∀ i t, ts !! i = Some t → ∃ t', ts' !! i = Some t' ∧ t_key t' = t_key t ∧ t_entry t' = t_entry t ∧
    (t_entry t ≠ a → t' = t) ∧ (t_status t' ≠ Left → t_status t ≠ Left).

Lemma moved_back a ts ts' i t' :
  moved a ts ts' → ts' !! i = Some t' → ∃ t, ts !! i = Some t ∧ t_key t' = t_key t ∧
    t_entry t' = t_entry t ∧ (t_entry t ≠ a → t' = t) ∧ (t_status t' ≠ Left → t_status t ≠ Left).
Proof.
  intros [Hl Hm] Hi. destruct (lookup_lt_is_Some_2 ts i) as [t Ht].
  { rewrite <- Hl. by eapply lookup_lt_Some. }
  exists t. destruct (Hm i t Ht) as (t1 & Ht1 & ?). assert (t1 = t') as -> by congruence. done.
Qed.

Lemma other_entry_ok a b ts ts' e : a ≠ b → moved a ts ts' → entry_ok ts b e → entry_ok ts' b e.
Proof.
  intros Hne Hm [Hc Hmax Hf Hs Hw]. split; [|done..|].
  - rewrite Hc. f_equal. apply num_ext; [by destruct Hm|]. intros i t t' Ht Ht'.
    destruct (moved_back a ts ts' i t' Hm Ht') as (t1 & Ht1 & _ & He & Hsame & _).
    assert (t1 = t) as -> by congruence. unfold holds_at. rewrite He.
    destruct (decide (t_entry t = a)) as [E|E]; [|by rewrite (Hsame E)].
    rewrite !bool_decide_false by congruence. done.
  - intros i. rewrite Hw. split.
    + intros (t & Ht & Hb & Hst). destruct Hm as [_ Hm]. destruct (Hm i t Ht) as (t' & Ht' & _ & He & Hsame & _).
      assert (t' = t) as -> by (apply Hsame; congruence). eauto.
    + intros (t' & Ht' & Hb & Hst). destruct (moved_back a ts ts' i t' Hm Ht') as (t & Ht & _ & He & Hsame & _).
      assert (t' = t) as -> by (apply Hsame; congruence). eauto.
Qed.

Lemma moved_inv w a e e' ts' :
  inv w → heap w !! a = Some e → moved a (tasks w) ts' → entry_ok ts' a e' →
  inv (MkWorld (key_to_defer w) (<[a := e']> (heap w)) ts').
Proof.
  intros [Hh Hi Ht He] Ha Hm Hok. split; simpl.
  - intros k b Hk. apply lookup_lt_is_Some. rewrite length_insert. by apply lookup_lt_is_Some, (Hh k).
  - done.
  - intros i t' Hi'. rewrite length_insert.
    destruct (moved_back a _ _ i t' Hm Hi') as (t & Hit & -> & -> & _ & Hleft).
    destruct (Ht i t Hit) as [? Hk]. split; [done|]. intros Hs. by apply Hk, Hleft.
  - intros b e1 Hb. destruct (decide (a = b)) as [<-|Hne].
    + rewrite list_lookup_insert_eq in Hb by (by eapply lookup_lt_Some). by assert (e1 = e') as -> by congruence.
    + rewrite list_lookup_insert_ne in Hb by done. by eapply other_entry_ok, He.
Qed.

(** One task changes its status. *)
Lemma moved_set a ts i t s :
  ts !! i = Some t → t_entry t = a → (s ≠ Left → t_status t ≠ Left) →
  moved a ts (alter (λ t, MkTask (t_key t) (t_entry t) s) i ts).
Proof.
  intros Hi He Hs. split; [apply length_alter|]. intros j x Hx. destruct (decide (i = j)) as [<-|Hne].
  - rewrite list_lookup_alter_eq, Hi. assert (x = t) as -> by congruence. simpl.
    eexists. split; [done|]. simpl. split_and!; done.
  - rewrite list_lookup_alter_ne by done. by exists x.
Qed.

Lemma moved_trans a ts1 ts2 ts3 : moved a ts1 ts2 → moved a ts2 ts3 → moved a ts1 ts3.
Proof.
  intros [Hl1 H1] [Hl2 H2]. split; [congruence|]. intros i t Ht.
  destruct (H1 i t Ht) as (t2 & Ht2 & Hk2 & He2 & Hs2 & Hf2).
  destruct (H2 i t2 Ht2) as (t3 & Ht3 & Hk3 & He3 & Hs3 & Hf3). exists t3.
  split_and!; [done|congruence|congruence| |auto].
  intros Hne. rewrite Hs3 by congruence. by apply Hs2.
Qed.

Definition put (s : status) (i : nat) (ts : list task) : list task :=
  alter (λ t, MkTask (t_key t) (t_entry t) s) i ts.

Lemma put_lookup s i ts j t' :
  put s i ts !! j = Some t' ↔ ∃ t, ts !! j = Some t ∧
    t' = if decide (j = i) then MkTask (t_key t) (t_entry t) s else t.
Proof.
  unfold put. destruct (decide (j = i)) as [->|Hne].
  - rewrite list_lookup_alter_eq. destruct (ts !! i); simpl; naive_solver.
  - rewrite list_lookup_alter_ne by done. naive_solver.
Qed.

Lemma num_put a s i ts t :
  ts !! i = Some t → t_entry t = a →
  (num (holds_at a) (put s i ts) + bit (holds t) = num (holds_at a) ts + bit (holds (MkTask (t_key t) a s)))%nat.
Proof.
  intros Hi He. unfold put. rewrite (alter_insert _ ts i t Hi).
  pose proof (num_set (holds_at a) ts i t (MkTask (t_key t) (t_entry t) s) Hi) as Hn.
  unfold holds_at in Hn at 2 4. simpl in Hn. rewrite He, bool_decide_true in Hn by done. simpl in Hn.
  rewrite He. exact Hn.
Qed.

(** Who waits after a task has changed its status. *)
Lemma waiting_put a s i ts j :
  s ≠ Waiting →
  (∃ t, put s i ts !! j = Some t ∧ t_entry t = a ∧ t_status t = Waiting) ↔
  j ≠ i ∧ ∃ t, ts !! j = Some t ∧ t_entry t = a ∧ t_status t = Waiting.
Proof.
  intros Hs. split.
  - intros (t' & (t & Ht & ->)%put_lookup & He & Hw). case_decide as Hj; [done|]. eauto.
  - intros (Hne & t & Ht & He & Hw). exists t. split; [|done]. apply put_lookup. exists t.
    by rewrite decide_False.
Qed.

(** The lock passes to the task that waits longest. *)
Lemma pass_ok ts a e i t next rest :
  entry_ok ts a e → ts !! i = Some t → t_entry t = a → holds t = true → deferreds e = next :: rest →
  moved a ts (put Sleeping next (put Left i ts)) ∧
  entry_ok (put Sleeping next (put Left i ts)) a (MkEntry (count e - 1 + 1) rest).
Proof.
  intros [Hc Hmax Hf Hs Hw] Hi He Hh Hd.
  assert (next ∈ deferreds e) as (tn & Htn & Hen & Hsn)%Hw by (rewrite Hd; by left).
  assert (Hne : next ≠ i) by (intros ->; unfold holds in Hh; simplify_eq; by rewrite Hsn in Hh).
  assert (Htn' : put Left i ts !! next = Some tn).
  { apply put_lookup. exists tn. by rewrite decide_False. }
  rewrite Hd in Hs. apply StronglySorted_inv in Hs as [Hs Hlt].
  split; [|split; simpl].
  - eapply moved_trans; [by apply (moved_set a ts i t Left)|].
    apply (moved_set a _ next tn Sleeping); [done..|]. intros _. by rewrite Hsn.
  - pose proof (num_put a Left i ts t Hi He). pose proof (num_put a Sleeping next _ tn Htn' Hen).
    assert (holds tn = false) as Hhn by (unfold holds; by rewrite Hsn).
    rewrite Hh in *. rewrite Hhn in *. simpl in *. lia.
  - lia.
  - intros _. rewrite Hf; [lia|by rewrite Hd].
  - done.
  - intros j. rewrite waiting_put, waiting_put, <- Hw, Hd, elem_of_cons by done. split.
    + intros Hj. rewrite Forall_forall in Hlt. pose proof (Hlt j Hj). split_and!; [lia| |by right].
      intros ->. assert (i ∈ deferreds e) as (t1 & ? & _ & Hst)%Hw by (rewrite Hd; by right).
      unfold holds in Hh. simplify_eq. by rewrite Hst in Hh.
    + naive_solver.
Qed.

(** Nobody waits: the task only leaves. *)
Lemma drop_ok ts a e i t :
  entry_ok ts a e → ts !! i = Some t → t_entry t = a → holds t = true → deferreds e = [] →
  moved a ts (put Left i ts) ∧ entry_ok (put Left i ts) a (MkEntry (count e - 1) []).
Proof.
  intros [Hc Hmax Hf Hs Hw] Hi He Hh Hd. split; [by eapply moved_set|split; simpl].
  - pose proof (num_put a Left i ts t Hi He). rewrite Hh in *. simpl in *. lia.
  - lia.
  - done.
  - constructor.
  - intros j. rewrite waiting_put, <- Hw, Hd by done. split; [by intros ?%not_elem_of_nil|naive_solver].
Qed.

Lemma task_entry w i t :
  inv w → tasks w !! i = Some t → ∃ e, heap w !! t_entry t = Some e ∧ entry_ok (tasks w) (t_entry t) e.
Proof.
  intros Hinv Hi. destruct (i_task w Hinv i t Hi) as [Hlt _].
  destruct (lookup_lt_is_Some_2 _ _ Hlt) as [e He]. exists e. split; [done|]. by apply (i_entry w Hinv).
Qed.

(** An entry nobody uses can go. *)
Lemma delete_inv w k a e :
  inv w → key_to_defer w !! k = Some a → heap w !! a = Some e → count e = 0 → deferreds e = [] →
  inv (MkWorld (delete k (key_to_defer w)) (heap w) (tasks w)).
Proof.
  intros Hinv Hk He Hc Hd. split; simpl.
  - intros k' b [_ Hb]%lookup_delete_Some. by eapply (i_heap w Hinv).
  - intros k1 k2 b [_ H1]%lookup_delete_Some [_ H2]%lookup_delete_Some. by eapply (i_inj w Hinv).
  - intros i t Hi. destruct (i_task w Hinv i t Hi) as [Hlt Ht]. split; [done|]. intros Hs.
    apply lookup_delete_Some. split; [|by apply Ht]. intros Ek. apply Ht in Hs as Hs'.
    assert (t_entry t = a) as Ea by congruence. pose proof (i_entry w Hinv a e He) as [Hcount _ _ _ Hw].
    destruct (t_status t) eqn:Hst; [| | |done].
    + assert (i ∈ deferreds e) as Hin by (apply Hw; eauto). rewrite Hd in Hin. by apply not_elem_of_nil in Hin.
    + assert (1 ≤ num (holds_at a) (tasks w))%nat; [|lia].
      apply (num_pos _ _ i t Hi). unfold holds_at, holds. by rewrite Hst, bool_decide_true.
    + assert (1 ≤ num (holds_at a) (tasks w))%nat; [|lia].
      apply (num_pos _ _ i t Hi). unfold holds_at, holds. by rewrite Hst, bool_decide_true.
  - by apply (i_entry w Hinv).
Qed.

Lemma used_set w a e' ts :
  used w → (∀ k, key_to_defer w !! k = Some a → 1 ≤ count e') →
  used (MkWorld (key_to_defer w) (<[a := e']> (heap w)) ts).
Proof.
  intros Hu Ha k b e Hk He. simpl in *.
  apply list_lookup_insert_Some in He as [(-> & -> & _)|[_ He]]; [by eapply Ha|by eapply Hu].
Qed.

Lemma release_inv w i t :
  inv w → used w → tasks w !! i = Some t → holds t = true →
  ∃ w', _release_lock (t_key t) (t_entry t) (set_status i Left w) = Ok w' ∧ inv w' ∧ used w'.
Proof.
  intros Hinv Hu Hi Hh. destruct (task_entry w i t Hinv Hi) as (e & He & Hok).
  assert (Hk : key_to_defer w !! t_key t = Some (t_entry t)).
  { apply (i_task w Hinv i t Hi). unfold holds in Hh. by destruct (t_status t). }
  unfold _release_lock. simpl. rewrite He. simpl. fold (put Left i (tasks w)).
  destruct (deferreds e) as [|next rest] eqn:Hd.
  - destruct (drop_ok _ _ e i t Hok Hi eq_refl Hh Hd) as [Hm Hok'].
    pose proof (moved_inv w _ e _ _ Hinv He Hm Hok') as Hinv'.
    rewrite Hk. destruct (Z.eqb_spec (count e - 1) 0) as [H0|H0].
    + eexists. split; [done|]. split.
      * apply (delete_inv (MkWorld (key_to_defer w) (<[t_entry t:=MkEntry (count e - 1) []]> (heap w))
          (put Left i (tasks w))) (t_key t) (t_entry t) (MkEntry (count e - 1) [])); try done.
        simpl. apply list_lookup_insert_eq. by eapply lookup_lt_Some.
      * intros k b e1 Hb He1. simpl in *. apply lookup_delete_Some in Hb as [Hne Hb].
        rewrite list_lookup_insert_ne in He1; [by eapply Hu|].
        intros <-. apply Hne. by eapply (i_inj w Hinv).
    + eexists. split; [done|]. split; [done|]. apply used_set; [done|]. intros k Hk'. simpl.
      specialize (Hu k _ e Hk' He). lia.
  - destruct (pass_ok _ _ e i t next rest Hok Hi eq_refl Hh Hd) as [Hm Hok'].
    pose proof (moved_inv w _ e _ _ Hinv He Hm Hok') as Hinv'.
    eexists. split; [done|]. split; [done|]. apply (used_set w); [done|]. intros k Hk'. simpl.
    specialize (Hu k _ e Hk' He). lia.
Qed.

Lemma wake_inv w i w' : inv w → used w → wake i w = Some w' → inv w' ∧ used w'.
Proof.
  intros Hinv Hu Hw. unfold wake in Hw. apply bind_Some in Hw as (t & Hi & Hw).
  case_bool_decide as Hs; [|done]. assert (w' = set_status i Holding w) as -> by congruence.
  destruct (task_entry w i t Hinv Hi) as (e & He & Hok).
  assert (set_status i Holding w =
    MkWorld (key_to_defer w) (<[t_entry t := e]> (heap w)) (put Holding i (tasks w))) as ->.
  { unfold set_status, put. by rewrite list_insert_id. }
  split; [|apply used_set; [done|]; intros k Hk; by eapply Hu].
  apply (moved_inv w _ e); [done|done|..].
  - eapply moved_set; [done..|]. by rewrite Hs.
  - destruct Hok as [Hc Hmax Hf Hsrt Hw']. split; try done.
    + pose proof (num_put _ Holding i _ t Hi eq_refl) as Hn.
      assert (holds t = true) as Hh by (unfold holds; by rewrite Hs). rewrite Hh in Hn. simpl in Hn. lia.
    + intros j. rewrite waiting_put, Hw' by done. split; [|naive_solver].
      intros (tj & Hj & Hej & Hsj). split; [|eauto]. intros ->. simplify_eq. by rewrite Hs in Hsj.
Qed.

Lemma sorted_filter (P : nat → Prop) `{∀ x, Decision (P x)} l :
  StronglySorted lt l → StronglySorted lt (filter P l).
Proof.
  induction 1 as [|x l Hs IH Hlt]; [constructor|]. rewrite filter_cons. case_decide; [|done].
  constructor; [done|]. rewrite Forall_forall in *. intros y [_ Hy]%list_elem_of_filter. by apply Hlt.
Qed.

Lemma sorted_snoc l x : StronglySorted lt l → (∀ y, y ∈ l → (y < x)%nat) → StronglySorted lt (l ++ [x]).
Proof.
  induction 1 as [|y l Hs IH Hlt]; intros Hx; simpl; [by repeat constructor|].
  constructor; [apply IH; intros z Hz; apply Hx; by right|].
  apply Forall_app. split; [done|]. constructor; [apply Hx; by left|constructor].
Qed.

Lemma unqueue_inv w i t e :
  inv w → used w → tasks w !! i = Some t → t_status t = Waiting → heap w !! t_entry t = Some e →
  let w' := MkWorld (key_to_defer w)
    (<[t_entry t := MkEntry (count e) (filter (λ j, j ≠ i) (deferreds e))]> (heap w)) (put Left i (tasks w)) in
  inv w' ∧ used w'.
Proof.
  intros Hinv Hu Hi Hs He. split; [|apply used_set; [done|]; intros k Hk; exact (Hu k _ e Hk He)].
  apply (moved_inv w _ e); [done|done|..].
  - by eapply moved_set.
  - destruct (i_entry w Hinv _ e He) as [Hc Hmax Hf Hsrt Hw]. split; simpl.
    + pose proof (num_put _ Left i _ t Hi eq_refl) as Hn.
      assert (holds t = false) as Hh by (unfold holds; by rewrite Hs). rewrite Hh in Hn. simpl in Hn. lia.
    + done.
    + intros Hne. apply Hf. intros E. apply Hne. by rewrite E.
    + by apply sorted_filter.
    + intros j. rewrite waiting_put, <- Hw, list_elem_of_filter by done. done.
Qed.

Lemma lin_cancel_inv w i r : inv w → used w → cancel i w = Some r → ∃ w', r = Ok w' ∧ inv w' ∧ used w'.
Proof.
  intros Hinv Hu Hc. unfold cancel in Hc. apply bind_Some in Hc as (t & Hi & Hc).
  destruct (task_entry w i t Hinv Hi) as (e & He & _).
  destruct (t_status t) eqn:Hs; [| |done..]; injection Hc as <-.
  - rewrite He. simpl. eexists. split; [done|]. by apply (unqueue_inv w i t e).
  - apply release_inv; [done..|]. unfold holds. by rewrite Hs.
Qed.

Lemma leave_inv w i r : inv w → used w → leave i w = Some r → ∃ w', r = Ok w' ∧ inv w' ∧ used w'.
Proof.
  intros Hinv Hu Hc. unfold leave in Hc. apply bind_Some in Hc as (t & Hi & Hc).
  case_bool_decide as Hs; [|done]. injection Hc as <-.
  apply release_inv; [done..|]. unfold holds. by rewrite Hs.
Qed.

(** ** Entering *)

Lemma entry_for_inv key w :
  inv w → used w →
  ∃ a e w1, entry_for key w = (a, w1) ∧ inv w1 ∧ heap w1 !! a = Some e ∧ tasks w1 = tasks w ∧
    key_to_defer w1 !! key = Some a ∧
    (∀ k b e, k ≠ key → key_to_defer w1 !! k = Some b → heap w1 !! b = Some e → 1 ≤ count e).
Proof.
  intros Hinv Hu. unfold entry_for. destruct (key_to_defer w !! key) as [a|] eqn:Hk.
  { destruct (i_heap w Hinv key a Hk) as [e He]. exists a, e, w. split_and!; try done.
    intros k b e1 _. apply Hu. }
  set (n := length (heap w)).
  assert (Hold : ∀ k b, key_to_defer w !! k = Some b → (b < n)%nat).
  { intros k b Hb. destruct (i_heap w Hinv k b Hb) as [e He]. by eapply lookup_lt_Some. }
  exists n, (MkEntry 0 []). eexists. split; [done|]. simpl. split_and!.
  - split; simpl.
    + intros k b [[<- <-]|[_ Hb]]%lookup_insert_Some.
      * exists (MkEntry 0 []). apply lookup_snoc_Some. by right.
      * destruct (i_heap w Hinv k b Hb) as [e He]. exists e. apply lookup_app_Some. by left.
    + intros k k' b Hb Hb'. apply lookup_insert_Some in Hb as [[<- <-]|[_ Hb]];
        apply lookup_insert_Some in Hb' as [[<- Eb]|[_ Hb']]; try done.
      * apply Hold in Hb'. lia.
      * subst b. apply Hold in Hb. lia.
      * by eapply (i_inj w Hinv).
    + intros i t Hi. destruct (i_task w Hinv i t Hi) as [Hlt Ht]. rewrite length_app. split; [simpl; lia|].
      intros Hs. apply Ht in Hs. apply lookup_insert_Some. right. split; [|done]. intros Ek. congruence.
    + intros b e Hb. apply lookup_snoc_Some in Hb as [[_ Hb]|[-> <-]]; [by apply (i_entry w Hinv)|].
      assert (Hno : ∀ i t, tasks w !! i = Some t → t_entry t ≠ n).
      { intros i t Hi. destruct (i_task w Hinv i t Hi) as [Hlt _]. unfold n. lia. }
      split; simpl; [|lia|done|constructor|].
      * rewrite num_0; [done|]. intros i t Hi. unfold holds_at. by rewrite bool_decide_false by (by eapply Hno).
      * intros i. split; [by intros ?%not_elem_of_nil|]. intros (t & Hi & He & _). by destruct (Hno i t Hi).
  - apply lookup_snoc_Some. by right.
  - done.
  - apply lookup_insert_eq.
  - intros k b e Hne Hb He. rewrite lookup_insert_ne in Hb by done. apply Hold in Hb as Hlt.
    apply lookup_snoc_Some in He as [[_ He]|[-> _]]; [|lia]. by eapply Hu.
Qed.

(** One more task for an entry. *)
Lemma push_inv w key a e e' st :
  inv w → key_to_defer w !! key = Some a → heap w !! a = Some e →
  entry_ok (tasks w ++ [MkTask key a st]) a e' →
  inv (MkWorld (key_to_defer w) (<[a := e']> (heap w)) (tasks w ++ [MkTask key a st])).
Proof.
  intros Hinv Hk He Hok. split; simpl.
  - intros k b Hb. apply lookup_lt_is_Some. rewrite length_insert. by apply lookup_lt_is_Some, (i_heap w Hinv k).
  - apply (i_inj w Hinv).
  - intros i t [[_ Hi]|[-> <-]]%lookup_snoc_Some; rewrite length_insert; [by apply (i_task w Hinv i)|].
    simpl. split; [by eapply lookup_lt_Some|done].
  - intros b e1 Hb. apply list_lookup_insert_Some in Hb as [(-> & -> & _)|[Hne Hb]]; [done|].
    destruct (i_entry w Hinv b e1 Hb) as [Hc Hmax Hf Hs Hw]. split; try done.
    + rewrite num_snoc. unfold holds_at at 2. simpl. rewrite bool_decide_false by done. simpl. lia.
    + intros i. rewrite Hw. split; intros (t & Hi & Hb' & Hst).
      * exists t. split; [|done]. apply lookup_app_Some. by left.
      * apply lookup_snoc_Some in Hi as [[_ Hi]|[-> <-]]; [eauto|done].
Qed.

Lemma acquire_inv key w : inv w → used w → inv (_acquire_lock max_count key w) ∧ used (_acquire_lock max_count key w).
Proof.
  intros Hinv Hu. unfold _acquire_lock.
  destruct (entry_for_inv key w Hinv Hu) as (a & e & w1 & -> & Hinv1 & He & Hts & Hk & Hu1).
  rewrite He. simpl. pose proof (i_entry w1 Hinv1 a e He) as [Hc Hmax Hf Hs Hw].
  assert (Hused : ∀ e' ts, 1 ≤ count e' →
    used (MkWorld (key_to_defer w1) (<[a := e']> (heap w1)) ts)).
  { intros e' ts He' k b e1 Hb He1. simpl in *.
    apply list_lookup_insert_Some in He1 as [(-> & -> & _)|[Hne He1]]; [done|].
    eapply Hu1; [|done..]. intros ->. congruence. }
  destruct (Z.ltb_spec (count e) max_count) as [Hlt|Hge].
  - split; [|apply Hused; simpl; lia]. apply (push_inv w1 key a e); [done..|]. split; simpl.
    + rewrite num_snoc. unfold holds_at at 2. simpl. rewrite bool_decide_true by done. simpl. lia.
    + lia.
    + intros Hd%Hf. lia.
    + done.
    + intros i. rewrite Hw. split; intros (t & Hi & Hb' & Hst).
      * exists t. split; [|done]. apply lookup_app_Some. by left.
      * apply lookup_snoc_Some in Hi as [[_ Hi]|[-> <-]]; [eauto|done].
  - split; [|apply Hused; simpl; lia]. apply (push_inv w1 key a e); [done..|]. split; simpl.
    + rewrite num_snoc. unfold holds_at at 2. simpl. rewrite andb_false_r. simpl. lia.
    + lia.
    + intros _. lia.
    + apply sorted_snoc; [done|]. intros i (t & Hi & _)%Hw. by eapply lookup_lt_Some.
    + intros i. rewrite elem_of_app, list_elem_of_singleton, Hw. split.
      * intros [(t & Hi & Hb' & Hst)| ->].
        -- exists t. split; [|done]. apply lookup_app_Some. by left.
        -- eexists. split; [by apply lookup_snoc_Some; right|done].
      * intros (t & [[_ Hi]|[-> <-]]%lookup_snoc_Some & Hb' & Hst); [left; eauto|by right].
Qed.

Lemma lin_progress_inv w w' : inv w → used w → progress w w' → inv w' ∧ used w'.
Proof.
  intros Hinv Hu [i w1 Hs|i w1 Hs]; [by eapply wake_inv|].
  destruct (leave_inv w i _ Hinv Hu Hs) as (w2 & E & ?). by simplify_eq.
Qed.

Lemma lin_reachable_inv w : reachable max_count w → inv w ∧ used w.
Proof.
  intros Hr. unfold reachable in Hr. remember start as w0 eqn:Hw0. assert (inv w0 ∧ used w0) as Hinv.
  { subst w0. split; [split; simpl|]; try done. }
  clear Hw0. induction Hr as [|w0 w1 w2 Hs _ IH]; [done|]. apply IH. destruct Hinv as [Hinv Hu].
  destruct Hs as [key|i w' Hs|w' Hs].
  - by apply acquire_inv.
  - destruct (lin_cancel_inv w0 i _ Hinv Hu Hs) as (w1 & E & ?). by simplify_eq.
  - by apply (lin_progress_inv w0 w').
Qed.

(** ** What the tasks of a key see *)

Definition holds_key (k : string) (t : task) : bool := bool_decide (t_key t = k) && holds t.

Lemma holds_key_at w k a :
  inv w → key_to_defer w !! k = Some a → num (holds_key k) (tasks w) = num (holds_at a) (tasks w).
Proof.
  intros Hinv Hk. apply num_ext; [done|]. intros i t t' Hi Hi'. assert (t' = t) as -> by congruence.
  unfold holds_key, holds_at. destruct (holds t) eqn:Hh; [|by rewrite !andb_false_r]. rewrite !andb_true_r.
  assert (Ht : key_to_defer w !! t_key t = Some (t_entry t)).
  { apply (i_task w Hinv i t Hi). unfold holds in Hh. by destruct (t_status t). }
  apply bool_decide_ext. split; [intros E; congruence|]. intros E. eapply (i_inj w Hinv); [done|]. congruence.
Qed.

Lemma holds_key_none w k : inv w → key_to_defer w !! k = None → num (holds_key k) (tasks w) = 0%nat.
Proof.
  intros Hinv Hk. apply num_0. intros i t Hi. unfold holds_key. case_bool_decide as E; [|done].
  unfold holds. destruct (i_task w Hinv i t Hi) as [_ Ht]. rewrite E, Hk in Ht.
  destruct (t_status t); try done; by specialize (Ht ltac:(done)).
Qed.

Lemma waiting_full w i t :
  inv w → tasks w !! i = Some t → t_status t = Waiting →
  Z.of_nat (num (holds_key (t_key t)) (tasks w)) = max_count.
Proof.
  intros Hinv Hi Hs. destruct (task_entry w i t Hinv Hi) as (e & He & [Hc _ Hf _ Hw]).
  rewrite (holds_key_at w _ (t_entry t)); [|done|apply (i_task w Hinv i t Hi); by rewrite Hs].
  rewrite <- Hc. apply Hf. assert (i ∈ deferreds e) as Hin by (apply Hw; eauto).
  intros E. rewrite E in Hin. by apply not_elem_of_nil in Hin.
Qed.

Lemma num_inv P ts : (1 ≤ num P ts)%nat → ∃ i t, ts !! i = Some t ∧ P t = true.
Proof.
  induction ts as [|x ts IH]; [unfold num; simpl; lia|]. rewrite num_cons. intros Hn.
  destruct (P x) eqn:Hx; [by exists 0%nat, x|]. simpl in Hn.
  destruct (IH Hn) as (i & t & Hi & Ht). by exists (S i), t.
Qed.

(** ** Progress *)

Definition rank (s : status) : nat :=
  match s with Waiting => 3 | Sleeping => 2 | Holding => 1 | Left => 0 end.

Definition work (ts : list task) : nat := sum_list ((rank ∘ t_status) <$> ts).

Lemma work_put ts i t s :
  ts !! i = Some t → (work (put s i ts) + rank (t_status t) = work ts + rank s)%nat.
Proof.
  intros Hi. unfold put. rewrite (alter_insert _ ts i t Hi). unfold work. rewrite list_fmap_insert.
  apply (RWProps.sum_list_insert ((rank ∘ t_status) <$> ts) i). by rewrite list_lookup_fmap, Hi.
Qed.

Lemma lin_progress_work w w' : inv w → progress w w' → (work (tasks w') < work (tasks w))%nat.
Proof.
  intros Hinv [i w1 Hs|i w1 Hs].
  - unfold wake in Hs. apply bind_Some in Hs as (t & Hi & Hs). case_bool_decide as Ht; [|done].
    injection Hs as <-. pose proof (work_put (tasks w) i t Holding Hi) as Hp. rewrite Ht in Hp.
    unfold set_status. simpl in *. unfold put in Hp. lia.
  - unfold leave in Hs. apply bind_Some in Hs as (t & Hi & Hs). case_bool_decide as Ht; [|done].
    pose proof (work_put (tasks w) i t Left Hi) as Hp. rewrite Ht in Hp. simpl in Hp.
    injection Hs as Hs. destruct (task_entry w i t Hinv Hi) as (e & He & [_ _ _ _ Hw]).
    unfold _release_lock in Hs. simpl in Hs. rewrite He in Hs. simpl in Hs. fold (put Left i (tasks w)) in Hs.
    destruct (deferreds e) as [|next rest] eqn:Hd.
    + repeat case_match; try done; injection Hs as <-; simpl; lia.
    + injection Hs as <-. simpl. fold (put Sleeping next (put Left i (tasks w))).
      assert (next ∈ next :: rest) as (tn & Htn & _ & Hsn)%Hw by (by left).
      assert (Hn : put Left i (tasks w) !! next = Some tn).
      { apply put_lookup. exists tn. split; [done|]. rewrite decide_False; [done|]. intros ->. congruence. }
      pose proof (work_put _ next tn Sleeping Hn) as Hp'. rewrite Hsn in Hp'. simpl in Hp'. lia.
Qed.

Lemma lin_progress_sn w : inv w → used w → sn progress w.
Proof.
  remember (work (tasks w)) as n eqn:Hn. revert w Hn. induction (lt_wf n) as [n _ IH]. intros w -> Hinv Hu.
  constructor. intros w' Hp. destruct (lin_progress_inv w w' Hinv Hu Hp). by eapply IH; [apply lin_progress_work|..].
Qed.

Lemma stuck_left w : inv w → used w → nf progress w → Forall (λ t, t_status t = Left) (tasks w).
Proof.
  intros Hinv Hu Hnf.
  assert (Hno : ∀ i t, tasks w !! i = Some t → holds t = false).
  { intros i t Hi. unfold holds. destruct (t_status t) eqn:Hs; try done; destruct Hnf.
    - eexists. apply (p_wake w i). unfold wake. rewrite Hi. simpl. by rewrite bool_decide_true.
    - destruct (leave_inv w i (_release_lock (t_key t) (t_entry t) (set_status i Left w)) Hinv Hu)
        as (w' & Hr & _); [unfold leave; rewrite Hi; simpl; by rewrite bool_decide_true|].
      exists w'. apply (p_leave w i). unfold leave. rewrite Hi. simpl. rewrite bool_decide_true by done.
      by rewrite Hr. }
  apply Forall_lookup. intros i t Hi. pose proof (Hno i t Hi) as Hh. unfold holds in Hh.
  destruct (t_status t) eqn:Hs; try done. exfalso. pose proof (waiting_full w i t Hinv Hi Hs) as Hf.
  destruct (num_inv (holds_key (t_key t)) (tasks w)) as (j & tj & Hj & Htj); [lia|].
  unfold holds_key in Htj. rewrite (Hno j tj Hj), andb_false_r in Htj. done.
Qed.
End inv.

(** C28: the linearizer lets at most [max_count] tasks of a key run at a time, makes a task
    wait only while that many run (so no wake-up is lost, also when tasks are cancelled),
    keeps an entry exactly for the keys that some task uses, and leaving or being
    cancelled never raises. *)
Theorem linearizer_bounded max_count w :
  1 ≤ max_count → reachable max_count w →
  (∀ k, Z.of_nat (num (holds_key k) (tasks w)) ≤ max_count) ∧
  (∀ i t, tasks w !! i = Some t → t_status t = Waiting →
     Z.of_nat (num (holds_key (t_key t)) (tasks w)) = max_count) ∧
  (∀ k, is_Some (key_to_defer w !! k) ↔ ∃ i t, tasks w !! i = Some t ∧ t_key t = k ∧ t_status t ≠ Left) ∧
  (∀ i r, leave i w = Some r ∨ cancel i w = Some r → is_ok r = true).
Proof.
  intros Hmax Hr. destruct (lin_reachable_inv max_count Hmax w Hr) as [Hinv Hu]. split_and!.
  - intros k. destruct (key_to_defer w !! k) as [a|] eqn:Hk; [|rewrite holds_key_none with max_count w k; done || lia].
    rewrite (holds_key_at max_count w k a) by done. destruct (i_heap _ _ Hinv k a Hk) as [e He].
    destruct (i_entry _ _ Hinv a e He) as [<- Hm _ _ _]. done.
  - intros i t Hi Hs. by apply waiting_full with i.
  - intros k. split.
    + intros [a Hk]. destruct (i_heap _ _ Hinv k a Hk) as [e He]. pose proof (Hu k a e Hk He) as H1.
      destruct (i_entry _ _ Hinv a e He) as [Hc _ _ _ _].
      rewrite <- (holds_key_at max_count w k a) in Hc by done.
      destruct (num_inv (holds_key k) (tasks w)) as (i & t & Hi & Ht); [lia|].
      unfold holds_key, holds in Ht. apply andb_true_iff in Ht as [Ht1%bool_decide_eq_true Ht2].
      exists i, t. split_and!; [done|done|]. by intros E; rewrite E in Ht2.
    + intros (i & t & Hi & <- & Hs). exists (t_entry t). by apply (i_task _ _ Hinv i).
  - intros i r [Hl|Hc].
    + by destruct (leave_inv max_count w i r Hinv Hu Hl) as (w' & -> & _).
    + by destruct (lin_cancel_inv max_count w i r Hinv Hu Hc) as (w' & -> & _).
Qed.

(** C37: the linearizer serves in order and nobody starves: when a task leaves, the task
    of its key that has waited longest has the lock; and if no new task comes, then
    however the tasks take their steps they come to an end with all tasks having left. *)
Theorem linearizer_fair max_count w :
  1 ≤ max_count → reachable max_count w →
  (∀ i t w' j tj, tasks w !! i = Some t → leave i w = Some (Ok w') →
     tasks w !! j = Some tj → t_key tj = t_key t → t_status tj = Waiting →
     (∀ x tx, tasks w !! x = Some tx → t_key tx = t_key t → t_status tx = Waiting → (j ≤ x)%nat) →
     (t_status <$> tasks w' !! j) = Some Sleeping) ∧
  sn progress w ∧
  ∀ w', rtc progress w w' → nf progress w' → Forall (λ t, t_status t = Left) (tasks w').
Proof.
  intros Hmax Hr. destruct (lin_reachable_inv max_count Hmax w Hr) as [Hinv Hu]. split_and!.
  - intros i t w' j tj Hi Hl Hj Hk Hs Hmin. unfold leave in Hl. rewrite Hi in Hl. simpl in Hl.
    case_bool_decide as Hst; [|done]. injection Hl as Hl.
    destruct (task_entry max_count w i t Hinv Hi) as (e & He & [_ _ _ Hsrt Hw]).
    assert (Hent : ∀ x tx, tasks w !! x = Some tx → t_key tx = t_key t → t_status tx = Waiting →
      t_entry tx = t_entry t).
    { intros x tx Hx Hkx Hsx. destruct (i_task _ _ Hinv x tx Hx) as [_ H1].
      destruct (i_task _ _ Hinv i t Hi) as [_ H2]. rewrite Hsx, Hkx in H1. rewrite Hst in H2.
      rewrite H2 in H1 by done. specialize (H1 ltac:(done)). congruence. }
    assert (Hin : j ∈ deferreds e) by (apply Hw; exists tj; split; [done|]; split; [by eapply Hent|done]).
    unfold _release_lock in Hl. simpl in Hl. rewrite He in Hl. simpl in Hl.
    destruct (deferreds e) as [|next rest] eqn:Hd; [by apply not_elem_of_nil in Hin|].
    apply StronglySorted_inv in Hsrt as [_ Hlt]. rewrite Forall_forall in Hlt.
    assert (next = j) as <-.
    { assert (next ∈ next :: rest) as (tn & Htn & Hen & Hsn)%Hw by (by left).
      assert (j ≤ next)%nat.
      { eapply Hmin; [done| |done]. destruct (i_task _ _ Hinv next tn Htn) as [_ H1].
        destruct (i_task _ _ Hinv i t Hi) as [_ H2]. rewrite Hsn in H1. rewrite Hst in H2.
        eapply (i_inj _ _ Hinv); [by apply H1|]. rewrite Hen. by apply H2. }
      apply elem_of_cons in Hin as [->|Hin]; [done|]. specialize (Hlt j Hin). lia. }
    injection Hl as <-. simpl. rewrite list_lookup_alter_eq.
    rewrite list_lookup_alter_ne by congruence. by rewrite Hj.
  - by apply (lin_progress_sn max_count).
  - intros w' Hp Hnf. clear Hr. induction Hp as [w|w w1 w2 Hs _ IH]; [by apply (stuck_left max_count)|].
    destruct (lin_progress_inv max_count w w1 Hinv Hu Hs). by apply IH.
Qed.

(** One task at a time: the second waits, the third is cancelled. *)
Definition ex_l1 : world := _acquire_lock 1 "k" (_acquire_lock 1 "k" (_acquire_lock 1 "k" start)).
Definition ex_l2 : world := unwrap start (default (Ok start) (cancel 2 ex_l1)).

Lemma ex_l2_reachable : reachable 1 ex_l2.
Proof.
  do 3 (eapply rtc_l; [apply (s_acquire 1 _ "k")|]). apply rtc_once, (s_cancel 1 _ 2). by vm_compute.
Qed.

Lemma linearizer_bounded_witness :
  (∀ k, Z.of_nat (num (holds_key k) (tasks ex_l2)) ≤ 1) ∧ num (holds_key "k") (tasks ex_l2) = 1%nat.
Proof. split; [apply (linearizer_bounded 1 ex_l2); [lia|apply ex_l2_reachable]|by vm_compute]. Defined.

Lemma linearizer_fair_witness :
  (t_status <$> tasks ex_l2 !! 1%nat) = Some Waiting ∧ sn progress ex_l2.
Proof. split; [by vm_compute|]. apply (linearizer_fair 1 ex_l2); [lia|apply ex_l2_reachable]. Defined.
