(* ===== verification/Ratelimiter.v ===== *)
(** * Rate limiting: [synapse/api/ratelimiting.py]

    A leaky bucket per key.  Times, rates and counts are rational numbers: the rounding
    of floating-point arithmetic is not modelled.  The table of per-user overrides is a
    parameter. *)

From Stdlib Require Import QArith Lqa.
From S2P Require Import Prelude.

#[local] Open Scope Q_scope.

Definition Qltb (a b : Q) : bool := negb (Qle_bool b a).

(** [int(q)] *)
Definition Qtrunc (q : Q) : Z := Z.quot (Qnum q) (Zpos (Qden q)).

(** A row of [ratelimit_override]. *)
Record RatelimitOverride := MkOverride { messages_per_second : option Z; override_burst : Z }.

(** What the limiters read of a [Requester]: the application service, if any, by its
    [is_rate_limited]. *)
Record Requester := MkRequester {
  requester_user : string;
  requester_app_service : option bool;
  authenticated_entity : string
}.

Record RatelimitSettings := MkSettings { rl_key : string; per_second : Q; burst_count : Z }.

(** The tokens in the bucket, when it was last empty, and its leak rate. *)
Record bucket := MkBucket { action_count : Q; time_start : Q; bucket_rate : Q }.

Record Ratelimiter := MkRatelimiter {
  rate_hz : Q;
  limiter_burst_count : Z;
  _limiter_name : string;
  actions : gmap string bucket
}.

Definition new_Ratelimiter (cfg : RatelimitSettings) : Ratelimiter :=
  MkRatelimiter (per_second cfg) (burst_count cfg) (rl_key cfg) ∅.

Definition with_actions (l : Ratelimiter) (a : gmap string bucket) : Ratelimiter :=
  MkRatelimiter (rate_hz l) (limiter_burst_count l) (_limiter_name l) a.

Definition _get_key (requester : option Requester) (key : option string) : result string :=
  match key with
  | Some k => Ok k
  | None => match requester with
            | Some r => Ok (requester_user r)
            | None => Err (PyBuiltin ValueError)
            end
  end.

Definition _get_action_counts (key : string) (time_now_s : Q) (l : Ratelimiter) : bucket :=
  default (MkBucket 0 time_now_s 0) (actions l !! key).

(** The bucket is not empty yet. *)
Definition still_counts (time_now_s : Q) (b : bucket) : bool :=
  Qltb 0 (action_count b - (time_now_s - time_start b) * bucket_rate b).

Definition _prune_message_counts (time_now_s : Q) (l : Ratelimiter) : Ratelimiter :=
  with_actions l (filter (λ kv : string * bucket, still_counts time_now_s kv.2 = true) (actions l)).

(** The decision, the time at which the next action is allowed, and the new bucket. *)
Definition decide_action (b : bucket) (rate_hz : Q) (burst_count n_actions : Z) (time_now_s : Q)
    : bool * Q * bucket :=
  let performed_count := action_count b - (time_now_s - time_start b) * rate_hz in
  let '(performed_count, count, start) :=
    if Qltb performed_count 0 then (0, 0, time_now_s) else (performed_count, action_count b, time_start b) in
  let denied := Qltb (inject_Z (burst_count - n_actions)) performed_count in
  let count := if denied then count else count + inject_Z n_actions in
  let time_allowed :=
    if Qltb 0 rate_hz then
      let t := start + (count - inject_Z burst_count + 1) / rate_hz in
      if Qltb t time_now_s then time_now_s else t
    else -(1) in
  (negb denied, time_allowed, MkBucket count start rate_hz).

Section limiter.
(** [store.get_ratelimit_for_user] *)
Context (get_ratelimit_for_user : string → option RatelimitOverride).

(** Rate limiting is switched off: [not override.messages_per_second]. *)
Definition unlimited (o : RatelimitOverride) : bool :=
  match messages_per_second o with Some n => Z.eqb n 0 | None => true end.

(** A requester whose actions are not limited. *)
Definition is_exempt (r : Requester) : bool :=
  match requester_app_service r with Some false => true | _ => false end ||
  match get_ratelimit_for_user (authenticated_entity r) with Some o => unlimited o | None => false end.

Definition can_do_action (requester : option Requester) (key : option string) (rate : option Q)
    (burst : option Z) (update : bool) (n_actions : Z) (time_now_s : Q) (l : Ratelimiter)
    : result (bool * Q * Ratelimiter) :=
  key ← _get_key requester key;
  if match requester with Some r => is_exempt r | None => false end then Ok (true, -(1), l)
  else
    let rate := default (rate_hz l) rate in
    let burst := default (limiter_burst_count l) burst in
    let l := _prune_message_counts time_now_s l in
    let '(allowed, time_allowed, b) :=
      decide_action (_get_action_counts key time_now_s l) rate burst n_actions time_now_s in
    Ok (allowed, time_allowed, if update then with_actions l (<[key := b]> (actions l)) else l).

Definition record_action (requester : option Requester) (key : option string) (n_actions : Z)
    (time_now_s : Q) (l : Ratelimiter) : result Ratelimiter :=
  key ← _get_key requester key;
  let b := _get_action_counts key time_now_s l in
  Ok (with_actions l (<[key := MkBucket (action_count b + inject_Z n_actions) (time_start b) (bucket_rate b)]>
    (actions l))).

(** [ratelimit]: whether it raises, and the limiter after it. *)
Definition ratelimit (requester : option Requester) (key : option string) (rate : option Q)
    (burst : option Z) (update : bool) (n_actions : Z) (time_now_s : Q) (l : Ratelimiter)
    : result unit * Ratelimiter :=
  match can_do_action requester key rate burst update n_actions time_now_s l with
  | Err e => (Err e, l)
  | Ok (allowed, time_allowed, l') =>
      (raise_if (negb allowed)
         (LimitExceededError (_limiter_name l) (Qtrunc (1000 * (time_allowed - time_now_s)))), l')
  end.

(** ** [RequestRatelimiter] *)

Record RequestRatelimiter := MkRequestRatelimiter {
  request_ratelimiter : Ratelimiter;
  _rc_message : RatelimitSettings;
  admin_redaction_ratelimiter : option Ratelimiter
}.

Definition new_RequestRatelimiter (rc_message : RatelimitSettings)
    (rc_admin_redaction : option RatelimitSettings) : RequestRatelimiter :=
  MkRequestRatelimiter (new_Ratelimiter (MkSettings (rl_key rc_message) 0 0)) rc_message
    (new_Ratelimiter <$> rc_admin_redaction).

(** [store.get_app_service_by_user_id(user_id) is not None] *)
Context (is_app_service_sender : string → bool).

Definition request_ratelimit (requester : Requester) (update is_admin_redaction : bool)
    (n_actions : Z) (time_now_s : Q) (r : RequestRatelimiter) : result unit * RequestRatelimiter :=
  let user_id := requester_user requester in
  if is_app_service_sender user_id then (Ok tt, r)
  else
    let limit (rate : Q) (burst : Z) :=
      match (if is_admin_redaction then admin_redaction_ratelimiter r else None) with
      | Some l =>
          let '(res, l) := ratelimit (Some requester) None None None update n_actions time_now_s l in
          (res, MkRequestRatelimiter (request_ratelimiter r) (_rc_message r) (Some l))
      | None =>
          let '(res, l) := ratelimit (Some requester) None (Some rate) (Some burst) update n_actions
                             time_now_s (request_ratelimiter r) in
          (res, MkRequestRatelimiter l (_rc_message r) (admin_redaction_ratelimiter r))
      end in
    match get_ratelimit_for_user user_id with
    | Some o =>
        if unlimited o then (Ok tt, r)
        else limit (inject_Z (default 0%Z (messages_per_second o))) (override_burst o)
    | None => limit (per_second (_rc_message r)) (burst_count (_rc_message r))
    end.
End limiter.

(** * Rate limiting: the limiter is a leaky bucket

    The limiter keeps, for a bucket, the time at which it was last empty and what was
    added since, and forgets buckets that have leaked; here it is shown to decide as the
    meter that is described: a level that leaks and may not exceed the burst. *)

(** A call to the limiter. *)
Inductive call :=
| CanDoAction (requester : option Requester) (key : option string) (rate : option Q)
    (burst : option Z) (update : bool) (n_actions : Z)
| RecordAction (requester : option Requester) (key : option string) (n_actions : Z).

Record request := MkRequest { rq_time : Q; rq_call : call }.

(** What a call answers (that of [record_action] is [true]), and the limiter after it. *)
Definition do_call (overrides : string → option RatelimitOverride) (q : request) (l : Ratelimiter)
    : result bool * Ratelimiter :=
  match rq_call q with
  | CanDoAction requester key rate burst update n =>
      match can_do_action overrides requester key rate burst update n (rq_time q) l with
      | Ok (b, _, l') => (Ok b, l')
      | Err e => (Err e, l)
      end
  | RecordAction requester key n =>
      match record_action requester key n (rq_time q) l with
      | Ok l' => (Ok true, l')
      | Err e => (Err e, l)
      end
  end.

Fixpoint run_limiter (overrides : string → option RatelimitOverride) (reqs : list request) (l : Ratelimiter)
    : list (result bool) * Ratelimiter :=
  match reqs with
  | [] => ([], l)
  | q :: reqs =>
      let '(a, l) := do_call overrides q l in
      let '(answers, l) := run_limiter overrides reqs l in (a :: answers, l)
  end.

(** ** The meter *)

(** [max 0 q] *)
Definition pos (q : Q) : Q := if Qle_bool 0 q then q else 0.

(** A level and the time at which it was measured. *)
Record meter := MkMeter { level : Q; measured : Q }.

(** The level at a later time. *)
Definition leaked (r : Q) (t : Q) (m : meter) : Q := pos (level m - (t - measured m) * r).

(** A request of [n] tokens. *)
Definition try_add (r : Q) (burst : Z) (t : Q) (n : Z) (m : meter) : bool * meter :=
  let v := leaked r t m in
  if Qle_bool (v + inject_Z n) (inject_Z burst) then (true, MkMeter (v + inject_Z n) t)
  else (false, MkMeter v t).

(** The key a call is about: the user of the requester, if none is given. *)
Definition call_key (c : call) : option string :=
  match c with
  | CanDoAction requester key _ _ _ _ | RecordAction requester key _ =>
      match key with Some k => Some k | None => requester_user <$> requester end
  end.

Definition call_n (c : call) : Z :=
  match c with CanDoAction _ _ _ _ _ n | RecordAction _ _ n => n end.

(** A call that takes tokens if it is allowed. *)
Definition counted (overrides : string → option RatelimitOverride) (c : call) : bool :=
  match c with
  | CanDoAction requester _ _ _ update _ =>
      update && negb match requester with Some r => is_exempt overrides r | None => false end
  | RecordAction _ _ _ => false
  end.

(** The meters of the keys used so far. *)
Abbreviation meters := (string → option meter).

Definition set_meter (k : string) (m : meter) (ms : meters) : meters :=
  λ k', if decide (k' = k) then Some m else ms k'.

(** An unused meter is empty. *)
Definition meter_at (t : Q) (m : option meter) : meter := default (MkMeter 0 t) m.

Section meters.
Context (overrides : string → option RatelimitOverride).
(** The rate and the burst of each key. *)
Context (rate : string → Q) (burst : string → Z).

Definition meter_call (q : request) (ms : meters) : result bool * meters :=
  match call_key (rq_call q) with
  | None => (Err (PyBuiltin ValueError), ms)
  | Some k =>
      let m := meter_at (rq_time q) (ms k) in
      match rq_call q with
      | CanDoAction requester _ _ _ update n =>
          if match requester with Some r => is_exempt overrides r | None => false end then (Ok true, ms)
          else
            let '(b, m) := try_add (rate k) (burst k) (rq_time q) n m in
            (Ok b, if update then set_meter k m ms else ms)
      | RecordAction _ _ n =>
          (Ok true, set_meter k (MkMeter (leaked (rate k) (rq_time q) m + inject_Z n) (rq_time q)) ms)
      end
  end.

Fixpoint run_meters (reqs : list request) (ms : meters) : list (result bool) * meters :=
  match reqs with
  | [] => ([], ms)
  | q :: reqs =>
      let '(a, ms) := meter_call q ms in
      let '(answers, ms) := run_meters reqs ms in (a :: answers, ms)
  end.

(** A limiter used as it is meant to be: the calls are in the order of time, those about a key
    are all at its rate and burst (given, or else [rate_hz] and [burst_count]), and
    [record_action] is for keys that were not used before or whose bucket has not run empty. *)
Definition call_ok (rate_hz : Q) (burst_count : Z) (q : request) (ms : meters) : Prop :=
  match call_key (rq_call q) with
  | None => True
  | Some k =>
      match rq_call q with
      | CanDoAction _ _ r b _ _ => default rate_hz r = rate k ∧ default burst_count b = burst k
      | RecordAction _ _ _ =>
          match ms k with None => True | Some m => 0 < leaked (rate k) (rq_time q) m end
      end
  end.

Fixpoint well_used (rate_hz : Q) (burst_count : Z) (t : Q) (reqs : list request) (ms : meters) : Prop :=
  match reqs with
  | [] => True
  | q :: reqs => t <= rq_time q ∧ call_ok rate_hz burst_count q ms ∧
      well_used rate_hz burst_count (rq_time q) reqs (meter_call q ms).2
  end.

(** The tokens granted to [k]. *)
Fixpoint granted (k : string) (reqs : list request) (answers : list (result bool)) : Q :=
  match reqs, answers with
  | q :: reqs, a :: answers =>
      (if decide (call_key (rq_call q) = Some k ∧ counted overrides (rq_call q) = true ∧ a = Ok true)
       then inject_Z (call_n (rq_call q)) else 0) + granted k reqs answers
  | _, _ => 0
  end.
End meters.

(** ** Arithmetic *)

Lemma Qle_bool_false a b : Qle_bool a b = false ↔ b < a.
Proof.
  split.
  - intros H. apply Qnot_le_lt. intros Hle. apply Qle_bool_iff in Hle. congruence.
  - intros H. destruct (Qle_bool a b) eqn:E; [|done]. apply Qle_bool_iff in E. lra.
Qed.

Lemma Qltb_true a b : Qltb a b = true ↔ a < b.
Proof. unfold Qltb. rewrite negb_true_iff. apply Qle_bool_false. Qed.
Lemma Qltb_false a b : Qltb a b = false ↔ b <= a.
Proof. unfold Qltb. rewrite negb_false_iff. apply Qle_bool_iff. Qed.

Lemma pos_cases q : 0 <= q ∧ pos q == q ∨ q < 0 ∧ pos q == 0.
Proof.
  unfold pos. destruct (Qle_bool 0 q) eqn:E.
  - left. apply Qle_bool_iff in E. split; [done|reflexivity].
  - right. apply Qle_bool_false in E. split; [done|reflexivity].
Qed.

#[export] Instance pos_proper : Proper (Qeq ==> Qeq) pos.
Proof. intros p q Hpq. destruct (pos_cases p) as [[? ?]|[? ?]], (pos_cases q) as [[? ?]|[? ?]]; lra. Qed.

Lemma inject_nonneg n : (0 <= n)%Z → 0 <= inject_Z n.
Proof. intros Hn. unfold Qle. simpl. lia. Qed.

(** Case on what [pos] and the tests of the code do. *)
Ltac qcases :=
  repeat match goal with
  | |- context [pos ?q] => destruct (pos_cases q) as [[? ?]|[? ?]]; generalize dependent (pos q); intros
  | H : context [pos ?q] |- _ => destruct (pos_cases q) as [[? ?]|[? ?]]; generalize dependent (pos q); intros
  end.

(** ** Simulation *)

Lemma inject_sub a b : inject_Z (a - b) == inject_Z a - inject_Z b.
Proof. unfold Z.sub. rewrite inject_Z_plus, inject_Z_opp. reflexivity. Qed.

Lemma leak_nonneg r a b : 0 <= r → a <= b → 0 <= (b - a) * r.
Proof. intros. apply Qmult_le_0_compat; lra. Qed.

Lemma leaked_slow r t t' m : 0 <= r → t <= t' → leaked r t m <= leaked r t' m + (t' - t) * r.
Proof.
  intros Hr Hle. pose proof (leak_nonneg r t t' Hr Hle). unfold leaked.
  destruct (pos_cases (level m - (t - measured m) * r)) as [[? ->]|[? ->]],
    (pos_cases (level m - (t' - measured m) * r)) as [[? ->]|[? ->]]; lra.
Qed.

Lemma leaked_now r t v : 0 <= v → leaked r t (MkMeter v t) == v.
Proof. intros Hv. unfold leaked. simpl. destruct (pos_cases (v - (t - t) * r)) as [[? ->]|[? ->]]; lra. Qed.

Lemma leaked_nonneg r t m : 0 <= leaked r t m.
Proof. unfold leaked. destruct (pos_cases (level m - (t - measured m) * r)) as [[? ->]|[? ->]]; lra. Qed.

(** One decision is that of the meter, and so is the level after it. *)
Lemma decide_action_meter r burst b n now :
  let v := pos (action_count b - (now - time_start b) * r) in
  let allowed := Qle_bool (v + inject_Z n) (inject_Z burst) in
  let '(a, _, b') := decide_action b r burst n now in
  a = allowed ∧ (time_start b <= now → time_start b' <= now) ∧ bucket_rate b' = r ∧
  ∀ t, action_count b' - (t - time_start b') * r ==
    v + (if allowed then inject_Z n else 0) - (t - now) * r.
Proof.
  cbn zeta. unfold decide_action.
  destruct (pos_cases (action_count b - (now - time_start b) * r)) as [[H0 Hv]|[H0 Hv]].
  - assert (Qltb (action_count b - (now - time_start b) * r) 0 = false) as -> by (by apply Qltb_false).
    set (p := action_count b - (now - time_start b) * r) in *. generalize dependent (pos p). intros v Hv.
    assert (Hd : Qltb (inject_Z (burst - n)) p = negb (Qle_bool (v + inject_Z n) (inject_Z burst))).
    { unfold Qltb. f_equal. apply eq_true_iff_eq. rewrite !Qle_bool_iff, inject_sub, Hv. split; intros; lra. }
    rewrite Hd, negb_involutive. simpl. split_and!; [done|done|done|]. intros t.
    destruct (Qle_bool (v + inject_Z n) (inject_Z burst)); simpl; unfold p in Hv; lra.
  - assert (Qltb (action_count b - (now - time_start b) * r) 0 = true) as -> by (by apply Qltb_true).
    generalize dependent (pos (action_count b - (now - time_start b) * r)). intros v Hv.
    assert (Hd : Qltb (inject_Z (burst - n)) 0 = negb (Qle_bool (v + inject_Z n) (inject_Z burst))).
    { unfold Qltb. f_equal. apply eq_true_iff_eq. rewrite !Qle_bool_iff, inject_sub, Hv. split; intros; lra. }
    rewrite Hd, negb_involutive. simpl. split_and!; [done|intros; lra|done|]. intros t.
    destruct (Qle_bool (v + inject_Z n) (inject_Z burst)); simpl; lra.
Qed.

Section simulation.
Context (overrides : string → option RatelimitOverride).
Context (rate : string → Q) (burst : string → Z).
Hypothesis rate_nonneg : ∀ k, 0 <= rate k.

(** The tokens in a bucket, if there is one. *)
Definition tokens (l : Ratelimiter) (k : string) (t : Q) : Q :=
  match actions l !! k with
  | Some b => pos (action_count b - (t - time_start b) * rate k)
  | None => 0
  end.

(** The buckets are of their key's rate, or as [record_action] leaves them, of rate 0. *)
Definition limiter_ok (now : Q) (l : Ratelimiter) : Prop :=
  map_Forall (λ k b, time_start b <= now ∧ (bucket_rate b == rate k ∨ bucket_rate b == 0)) (actions l).

(** What has leaked at [now] has leaked at any later time, so that pruning forgets
    nothing. *)
Lemma prune_tokens now l k t :
  limiter_ok now l → now <= t → tokens (_prune_message_counts now l) k t == tokens l k t.
Proof.
  intros Hok Ht. unfold tokens, _prune_message_counts. simpl.
  rewrite map_lookup_filter. destruct (actions l !! k) as [b|] eqn:Hb; [|reflexivity]. simpl.
  destruct (Hok k b Hb) as [Hs Hr].
  case_guard as Hc; simpl; [reflexivity|]. apply not_true_is_false in Hc. unfold still_counts in Hc.
  apply Qltb_false in Hc. pose proof (leak_nonneg _ (time_start b) now (rate_nonneg k) Hs).
  pose proof (leak_nonneg _ now t (rate_nonneg k) Ht).
  destruct (pos_cases (action_count b - (t - time_start b) * rate k)) as [[? ->]|[? ->]]; [|reflexivity].
  destruct Hr as [Hr|Hr]; rewrite Hr in Hc; lra.
Qed.

Lemma prune_ok now l : limiter_ok now l → limiter_ok now (_prune_message_counts now l).
Proof. intros Hok k b [Hb _]%map_lookup_filter_Some. by eapply Hok. Qed.

(** The limiter agrees with the meters from [now] on. *)
Definition agrees (now : Q) (l : Ratelimiter) (ms : meters) : Prop :=
  ∀ k, match ms k with
       | Some m => measured m <= now ∧ ∀ t, now <= t → tokens l k t == leaked (rate k) t m
       | None => actions l !! k = None
       end.

Lemma agrees_tokens now l ms k : agrees now l ms → tokens l k now == leaked (rate k) now (meter_at now (ms k)).
Proof.
  intros Hag. specialize (Hag k). destruct (ms k) as [m|]; simpl; [apply Hag; lra|].
  unfold tokens. rewrite Hag. symmetry. apply leaked_now. lra.
Qed.

Lemma fresh_tokens now l k :
  pos (action_count (_get_action_counts k now l) - (now - time_start (_get_action_counts k now l)) * rate k) ==
  tokens l k now.
Proof.
  unfold _get_action_counts, tokens. destruct (actions l !! k); simpl; [reflexivity|].
  destruct (pos_cases (0 - (now - now) * rate k)) as [[? ->]|[? ->]]; lra.
Qed.

Lemma prune_agrees now l ms : limiter_ok now l → agrees now l ms → agrees now (_prune_message_counts now l) ms.
Proof.
  intros Hok Hag k. specialize (Hag k). destruct (ms k) as [m|].
  - destruct Hag as [Hm Hag]. split; [done|]. intros t Ht. rewrite prune_tokens by done. by apply Hag.
  - simpl. rewrite map_lookup_filter, Hag. done.
Qed.

(** A bucket that is put in place of another. *)
Lemma put_bucket now l ms k b m :
  limiter_ok now l → agrees now l ms → time_start b <= now → bucket_rate b == rate k ∨ bucket_rate b == 0 →
  measured m = now → (∀ t, action_count b - (t - time_start b) * rate k == level m - (t - now) * rate k) →
  limiter_ok now (with_actions l (<[k := b]> (actions l))) ∧
  agrees now (with_actions l (<[k := b]> (actions l))) (set_meter k m ms).
Proof.
  intros Hok Hag Hs Hr Hm Hlev. split; [by apply map_Forall_insert_2|]. intros k'. unfold set_meter, tokens. simpl.
  destruct (decide (k' = k)) as [->|Hne].
  - rewrite lookup_insert_eq. split; [rewrite Hm; lra|]. intros t _. unfold leaked. rewrite Hlev, Hm. reflexivity.
  - rewrite lookup_insert_ne by done. apply Hag.
Qed.

Lemma bucket_start now l k : limiter_ok now l → time_start (_get_action_counts k now l) <= now.
Proof.
  intros Hok. unfold _get_action_counts. destruct (actions l !! k) as [b|] eqn:Hb; simpl; [|lra]. by apply (Hok k b).
Qed.

(** The decision on a pruned limiter. *)
Lemma decide_meter now l ms k n :
  limiter_ok now l → agrees now l ms →
  let '(a, ta, b) := decide_action (_get_action_counts k now l) (rate k) (burst k) n now in
  let '(a', m) := try_add (rate k) (burst k) now n (meter_at now (ms k)) in
  a = a' ∧ limiter_ok now (with_actions l (<[k := b]> (actions l))) ∧
  agrees now (with_actions l (<[k := b]> (actions l))) (set_meter k m ms).
Proof.
  intros Hok Hag. set (b := _get_action_counts k now l).
  pose proof (decide_action_meter (rate k) (burst k) b n now) as Hd. cbn zeta in Hd.
  destruct (decide_action b (rate k) (burst k) n now) as [[a ta] b']. destruct Hd as (-> & Hst & Hrt & Hlev).
  pose proof (fresh_tokens now l k) as Hv. fold b in Hv. rewrite (agrees_tokens _ _ _ _ Hag) in Hv.
  set (v := pos (action_count b - (now - time_start b) * rate k)) in *. unfold try_add. cbn zeta.
  set (v' := leaked (rate k) now _) in *.
  assert (Hq : Qle_bool (v + inject_Z n) (inject_Z (burst k)) = Qle_bool (v' + inject_Z n) (inject_Z (burst k))).
  { apply eq_true_iff_eq. by rewrite !Qle_bool_iff, Hv. }
  specialize (Hst (bucket_start now l k Hok)). rewrite Hq in *. destruct (Qle_bool (v' + inject_Z n) _);
    (split; [done|]; apply put_bucket; try done; [left; by rewrite Hrt|]; intros t; rewrite Hlev, Hv; simpl; lra).
Qed.

(** The level that [record_action] adds to is that of the meter, unless it has run empty. *)
Lemma record_level now l ms k :
  agrees now l ms → match ms k with None => True | Some m => 0 < leaked (rate k) now m end →
  let b := _get_action_counts k now l in
  action_count b - (now - time_start b) * rate k == leaked (rate k) now (meter_at now (ms k)).
Proof.
  intros Hag Hm. pose proof (fresh_tokens now l k) as Hv. rewrite (agrees_tokens _ _ _ _ Hag) in Hv. cbn zeta.
  specialize (Hag k). destruct (ms k) as [m|]; simpl in *.
  - destruct (pos_cases (action_count (_get_action_counts k now l)
      - (now - time_start (_get_action_counts k now l)) * rate k)) as [[? Hp]|[? Hp]]; rewrite Hp in Hv; lra.
  - unfold _get_action_counts. rewrite Hag. simpl. rewrite leaked_now; lra.
Qed.

(** A call to the limiter. *)
Lemma do_call_meter q l ms :
  limiter_ok (rq_time q) l → agrees (rq_time q) l ms → call_ok rate burst (rate_hz l) (limiter_burst_count l) q ms →
  (do_call overrides q l).1 = (meter_call overrides rate burst q ms).1 ∧
  limiter_ok (rq_time q) (do_call overrides q l).2 ∧
  agrees (rq_time q) (do_call overrides q l).2 (meter_call overrides rate burst q ms).2 ∧
  rate_hz (do_call overrides q l).2 = rate_hz l ∧
  limiter_burst_count (do_call overrides q l).2 = limiter_burst_count l.
Proof.
  destruct q as [now c]. cbn [rq_time]. intros Hok Hag Hc.
  assert (Hkey : ∀ r k, _get_key r k = match call_key (RecordAction r k 0) with
    | Some k => Ok k | None => Err (PyBuiltin ValueError) end) by (by intros [?|] [?|]).
  destruct c as [r key rt bt update n|r key n]; unfold do_call, meter_call, call_ok in *; cbn [rq_call rq_time] in *;
    unfold can_do_action, record_action; rewrite Hkey; cbn [call_key] in *;
    destruct (match key with Some _ => _ | None => _ end) as [k|]; simpl; try done.
  - destruct Hc as [-> ->]. destruct (match r with Some _ => _ | None => _ end); simpl; [done|].
    pose proof (prune_ok now l Hok) as Hok0. pose proof (prune_agrees now l ms Hok Hag) as Hag0.
    pose proof (decide_meter now _ ms k n Hok0 Hag0) as Hd.
    destruct (decide_action _ _ _ _ _) as [[a ta] b], (try_add _ _ _ _ _) as [a' m].
    destruct Hd as (-> & Hok1 & Hag1). by destruct update.
  - pose proof (record_level now l ms k Hag Hc) as Hl. cbn zeta in Hl.
    destruct (put_bucket now l ms k
      (MkBucket (action_count (_get_action_counts k now l) + inject_Z n) (time_start (_get_action_counts k now l))
        (bucket_rate (_get_action_counts k now l)))
      (MkMeter (leaked (rate k) now (meter_at now (ms k)) + inject_Z n) now)) as [? ?]; try done.
    + by apply bucket_start.
    + simpl. unfold _get_action_counts. destruct (actions l !! k) as [b|] eqn:Hb; simpl; [by apply (Hok k b)|by right].
    + intros t. simpl. rewrite <- Hl. lra.
Qed.

Lemma ok_agrees_later now now' l ms :
  now <= now' → limiter_ok now l → agrees now l ms → limiter_ok now' l ∧ agrees now' l ms.
Proof.
  intros Hle Hok Hag. split.
  - intros k b Hb. destruct (Hok k b Hb) as [? ?]. split; [lra|done].
  - intros k. specialize (Hag k). destruct (ms k) as [m|]; [|done]. destruct Hag as [? Hag].
    split; [lra|]. intros t Ht. apply Hag. lra.
Qed.

(** The whole run. *)
Lemma run_meter reqs now l ms :
  limiter_ok now l → agrees now l ms → well_used overrides rate burst (rate_hz l) (limiter_burst_count l) now reqs ms →
  (run_limiter overrides reqs l).1 = (run_meters overrides rate burst reqs ms).1 ∧
  ∃ now', now <= now' ∧ limiter_ok now' (run_limiter overrides reqs l).2 ∧
    agrees now' (run_limiter overrides reqs l).2 (run_meters overrides rate burst reqs ms).2 ∧
    rate_hz (run_limiter overrides reqs l).2 = rate_hz l ∧
    limiter_burst_count (run_limiter overrides reqs l).2 = limiter_burst_count l ∧
    ∀ t, now <= t → Forall (λ q, rq_time q <= t) reqs → now' <= t.
Proof.
  revert now l ms. induction reqs as [|q reqs IH]; intros now l ms Hok Hag Hu.
  { split; [done|]. exists now. split_and!; try done. lra. }
  destruct Hu as (Ht & Hc & Hu). destruct (ok_agrees_later _ _ _ _ Ht Hok Hag) as [Hok1 Hag1].
  destruct (do_call_meter q l ms Hok1 Hag1 Hc) as (Ha & Hok2 & Hag2 & Hr & Hb). simpl.
  destruct (do_call overrides q l) as [a l'], (meter_call overrides rate burst q ms) as [a' ms']. simpl in *. subst a'.
  rewrite <- Hr, <- Hb in Hu. destruct (IH _ l' ms' Hok2 Hag2 Hu) as (Heq & now' & Hle & Hok3 & Hag3 & Hr3 & Hb3 & Hlast).
  destruct (run_limiter overrides reqs l') as [as1 l1], (run_meters overrides rate burst reqs ms') as [as2 ms1].
  simpl in *. subst as2. split; [done|]. exists now'. split_and!; [lra|done|done|congruence|congruence|].
  intros t Hn [Hq Hall]%Forall_cons. by apply Hlast.
Qed.

(** ** The bound *)

Definition lvl (k : string) (t : Q) (ms : meters) : Q := leaked (rate k) t (meter_at t (ms k)).

Lemma lvl_slow k t t' ms : t <= t' → lvl k t ms <= lvl k t' ms + (t' - t) * rate k.
Proof.
  intros Ht. unfold lvl. destruct (ms k) as [m|]; simpl; [by apply leaked_slow|].
  rewrite !leaked_now by lra. pose proof (leak_nonneg _ t t' (rate_nonneg k) Ht). lra.
Qed.

(** What a call grants is then in the meter, within the burst. *)
Lemma meter_call_bound q ms k :
  (0 <= call_n (rq_call q))%Z →
  let '(a, ms') := meter_call overrides rate burst q ms in
  if decide (call_key (rq_call q) = Some k ∧ counted overrides (rq_call q) = true ∧ a = Ok true)
  then lvl k (rq_time q) ms + inject_Z (call_n (rq_call q)) == lvl k (rq_time q) ms' ∧
       lvl k (rq_time q) ms' <= inject_Z (burst k)
  else lvl k (rq_time q) ms <= lvl k (rq_time q) ms'.
Proof.
  destruct q as [t c]. cbn [rq_call rq_time]. intros Hn. apply inject_nonneg in Hn. unfold meter_call. cbn [rq_call rq_time].
  destruct (call_key c) as [k'|]; [|rewrite decide_False by (by intros [? _]); lra].
  assert (Hset : ∀ m, measured m = t → 0 <= level m → lvl k t (set_meter k' m ms) ==
    if decide (k = k') then level m else lvl k t ms).
  { intros [v t'] Hm Hv. simpl in *. subst t'. unfold lvl, set_meter. destruct (decide (k = k')) as [->|]; [|reflexivity].
    simpl. by apply leaked_now. }
  pose proof (leaked_nonneg (rate k') t (meter_at t (ms k'))) as Hp.
  assert (Heq : k = k' → lvl k t ms == leaked (rate k') t (meter_at t (ms k'))) by (intros ->; reflexivity).
  destruct c as [r key rt bt update n|r key n]; cbn [counted call_n] in *.
  - destruct (match r with Some _ => _ | None => _ end).
    { rewrite decide_False by (by rewrite andb_false_r; intros (_ & ? & _)). lra. }
    rewrite andb_true_r. unfold try_add. cbn zeta. set (v := leaked (rate k') t _) in *.
    destruct (Qle_bool (v + inject_Z n) (inject_Z (burst k'))) eqn:Hq; (destruct update;
      [|rewrite decide_False by (by intros (_ & ? & _)); lra]).
    + apply Qle_bool_iff in Hq. pose proof (Hset (MkMeter (v + inject_Z n) t) eq_refl ltac:(simpl; lra)) as Hs. simpl in Hs.
      destruct (decide (k = k')) as [<-|Hne].
      * rewrite decide_True by done. specialize (Heq eq_refl). split; lra.
      * rewrite decide_False by (by intros ([= ->] & _)). lra.
    + rewrite decide_False by (by intros (_ & _ & ?)).
      pose proof (Hset (MkMeter v t) eq_refl Hp) as Hs. simpl in Hs.
      destruct (decide (k = k')) as [<-|]; [specialize (Heq eq_refl)|]; lra.
  - rewrite decide_False by (by intros (_ & ? & _)).
    pose proof (Hset (MkMeter (leaked (rate k') t (meter_at t (ms k')) + inject_Z n) t) eq_refl ltac:(simpl; lra)) as Hs. simpl in Hs.
    destruct (decide (k = k')) as [<-|]; [specialize (Heq eq_refl)|]; lra.
Qed.

Lemma meter_bound rh bc k t1 reqs t ms :
  well_used overrides rate burst rh bc t reqs ms →
  Forall (λ q, rq_time q <= t1 ∧ (0 <= call_n (rq_call q))%Z) reqs →
  let g := granted overrides k reqs (run_meters overrides rate burst reqs ms).1 in
  g == 0 ∨ t <= t1 ∧ g + lvl k t ms <= inject_Z (burst k) + (t1 - t) * rate k.
Proof.
  revert t ms. induction reqs as [|q reqs IH]; intros t ms Hu Hall; [by left|].
  destruct Hu as (Ht & _ & Hu). apply Forall_cons in Hall as [[Ht1 Hn] Hall].
  pose proof (lvl_slow k t (rq_time q) ms Ht) as Hslow. pose proof (meter_call_bound q ms k Hn) as Hcall. simpl.
  destruct (meter_call overrides rate burst q ms) as [a ms']. simpl in Hu. specialize (IH _ ms' Hu Hall). cbn zeta in IH.
  destruct (run_meters overrides rate burst reqs ms') as [as1 ms1]. simpl in *. set (g := granted overrides k reqs as1) in *.
  pose proof (leak_nonneg _ _ _ (rate_nonneg k) Ht1) as Hnn. pose proof (leaked_nonneg (rate k) (rq_time q) (meter_at (rq_time q) (ms' k))) as Hp'.
  fold (lvl k (rq_time q) ms') in Hp'. case_decide.
  - right. destruct Hcall as [Hc1 Hc2]. split; [lra|]. destruct IH as [IH|[_ IH]]; lra.
  - destruct IH as [IH|[_ IH]]; [left; lra|right; split; lra].
Qed.
End simulation.

(** A new limiter agrees with empty meters. *)
Lemma new_limiter_ok cfg rate t0 :
  limiter_ok rate t0 (new_Ratelimiter cfg) ∧ agrees rate t0 (new_Ratelimiter cfg) (λ _, None).
Proof. split; [apply map_Forall_empty|done]. Qed.

(** C35: the limiter refines a leaky bucket per key: for all sequences of calls of
    [can_do_action] and [record_action] in the order of time, its answers, made from the time a
    bucket was last empty and the tokens added since, with buckets forgotten once they have
    leaked, are those of a level that leaks at the rate of its key and takes an action only if
    it fits ([well_used]: a key is always used with the same rate and burst, and
    [record_action] is not called for a key whose bucket has run empty since it was last used;
    see [recorded_actions_forgiven]).  Calls of exempt requesters, calls without an update and
    calls without a key and a requester are among them. *)
Theorem limiter_refines_meters overrides rate burst cfg t0 reqs :
  (∀ k, 0 <= rate k) →
  well_used overrides rate burst (per_second cfg) (burst_count cfg) t0 reqs (λ _, None) →
  (run_limiter overrides reqs (new_Ratelimiter cfg)).1 =
    (run_meters overrides rate burst reqs (λ _, None)).1.
Proof.
  intros Hr Hu. destruct (new_limiter_ok cfg rate t0). by eapply run_meter.
Qed.

(** The limit holds: whatever happened before, in any stretch of time from [t1] to [t2]
    the counted calls for a key are granted at most the burst and what leaks in that time. *)
Theorem rate_bound overrides rate burst cfg t0 pre win t1 t2 k :
  (∀ k, 0 <= rate k) → (0 <= burst k)%Z → t0 <= t1 → t1 <= t2 →
  well_used overrides rate burst (per_second cfg) (burst_count cfg) t0 pre (λ _, None) →
  Forall (λ q, rq_time q <= t1) pre →
  well_used overrides rate burst (per_second cfg) (burst_count cfg) t1 win
    (run_meters overrides rate burst pre (λ _, None)).2 →
  Forall (λ q, rq_time q <= t2 ∧ (0 <= call_n (rq_call q))%Z) win →
  granted overrides k win
    (run_limiter overrides win (run_limiter overrides pre (new_Ratelimiter cfg)).2).1 <=
    inject_Z (burst k) + (t2 - t1) * rate k.
Proof.
  intros Hr Hb Ht0 Ht12 Hpre Hbefore Hwin Hall. destruct (new_limiter_ok cfg rate t0) as [Hok Hag].
  destruct (run_meter overrides rate burst Hr pre t0 _ _ Hok Hag Hpre) as (_ & now & Hle & Hok' & Hag' & Hrh & Hbc & Hlast).
  destruct (ok_agrees_later _ now t1 _ _ (Hlast t1 Ht0 Hbefore) Hok' Hag') as [Hok1 Hag1].
  assert (Hwin' : well_used overrides rate burst (rate_hz (run_limiter overrides pre (new_Ratelimiter cfg)).2)
    (limiter_burst_count (run_limiter overrides pre (new_Ratelimiter cfg)).2) t1 win
    (run_meters overrides rate burst pre (λ _, None)).2) by (by rewrite Hrh, Hbc).
  destruct (run_meter overrides rate burst Hr win t1 _ _ Hok1 Hag1 Hwin') as [-> _].
  pose proof (leak_nonneg _ t1 t2 (Hr k) Ht12). pose proof (inject_nonneg _ Hb).
  pose proof (leaked_nonneg (rate k) t1 (meter_at t1 ((run_meters overrides rate burst pre (λ _, None)).2 k))) as Hp.
  destruct (meter_bound overrides rate burst Hr _ _ k t2 win t1 _ Hwin Hall) as [->|[_ Hg]]; [lra|].
  unfold lvl in Hg. lra.
Qed.

(** The time given with a refusal of one action. *)
Lemma refusal_time b r burst now :
  0 < r → (1 <= burst)%Z →
  let '(a, ta, b') := decide_action b r burst 1 now in
  a = false → now < ta ∧ action_count b' - (ta - time_start b') * r == inject_Z (burst - 1).
Proof.
  intros Hr Hb. unfold decide_action. set (p := action_count b - (now - time_start b) * r).
  assert (Hb1 : 0 <= inject_Z (burst - 1)) by (apply inject_nonneg; lia).
  pose proof (inject_sub burst 1) as Hsub. change (inject_Z 1) with 1 in Hsub.
  destruct (Qltb p 0) eqn:Hp.
  - destruct (Qltb (inject_Z (burst - 1)) 0) eqn:Hd; [|done]. apply Qltb_true in Hd. lra.
  - destruct (Qltb (inject_Z (burst - 1)) p) eqn:Hd; [|done]. intros _. apply Qltb_true in Hd.
    assert (Qltb 0 r = true) as -> by (by apply Qltb_true).
    set (x := (action_count b - inject_Z burst + 1) / r).
    assert (Hx : x * r == action_count b - inject_Z burst + 1).
    { unfold x. rewrite Qmult_comm. apply Qmult_div_r. lra. }
    assert (Hlt : now < time_start b + x).
    { apply Qnot_le_lt. intros Hle.
      assert (0 <= (now - time_start b - x) * r) by (apply Qmult_le_0_compat; lra). unfold p in Hd. lra. }
    assert (Qltb (time_start b + x) now = false) as -> by (apply Qltb_false; lra). simpl. split; [done|].
    rewrite Hsub. assert ((time_start b + x - time_start b) * r == x * r) as -> by ring. lra.
Qed.

(** A client that is refused one action and tries again at the time it is given, with
    no other action in between, is let through. *)
Theorem retry_time_correct overrides rate burst cfg t0 pre k rt bt now ta l' :
  (∀ k, 0 <= rate k) → 0 < rate k → (1 <= burst k)%Z → t0 <= now →
  well_used overrides rate burst (per_second cfg) (burst_count cfg) t0 pre (λ _, None) →
  Forall (λ q, rq_time q <= now) pre →
  default (per_second cfg) rt = rate k → default (burst_count cfg) bt = burst k →
  can_do_action overrides None (Some k) rt bt true 1 now
    (run_limiter overrides pre (new_Ratelimiter cfg)).2 = Ok (false, ta, l') →
  now < ta ∧ ∃ ta' l'', can_do_action overrides None (Some k) rt bt true 1 ta l' = Ok (true, ta', l'').
Proof.
  intros Hr Hrk Hb Ht0 Hpre Hbefore Hrt Hbt Hden. destruct (new_limiter_ok cfg rate t0) as [Hok Hag].
  destruct (run_meter overrides rate burst Hr pre t0 _ _ Hok Hag Hpre) as (_ & now0 & Hle & Hok' & Hag' & Hrh & Hbc & Hlast).
  destruct (ok_agrees_later _ now0 now _ _ (Hlast now Ht0 Hbefore) Hok' Hag') as [Hok1 Hag1].
  set (l := (run_limiter overrides pre _).2) in *. simpl in Hrh, Hbc.
  pose proof (prune_ok rate now l Hok1) as Hok2. pose proof (prune_agrees rate Hr now l _ Hok1 Hag1) as Hag2.
  unfold can_do_action in Hden. simpl in Hden. rewrite Hrh, Hbc, Hrt, Hbt in Hden.
  pose proof (decide_meter rate burst now _ _ k 1 Hok2 Hag2) as Hd.
  pose proof (refusal_time (_get_action_counts k now (_prune_message_counts now l)) (rate k) (burst k) now Hrk Hb) as Href.
  destruct (decide_action _ _ _ _ _) as [[a ta1] b'], (try_add _ _ _ _ _) as [a' m].
  destruct Hd as (_ & Hok3 & _). injection Hden as -> -> Hl'. destruct (Href eq_refl) as [Hlt Hlev]. split; [done|].
  assert (Hok4 : limiter_ok rate ta l').
  { rewrite <- Hl'. intros k0 b0 Hb0. destruct (Hok3 k0 b0 Hb0) as [? ?]. split; [lra|done]. }
  assert (Hcfg : rate_hz l' = per_second cfg ∧ limiter_burst_count l' = burst_count cfg) by (by rewrite <- Hl').
  destruct Hcfg as [Hrh' Hbc']. unfold can_do_action. simpl. rewrite Hrh', Hbc', Hrt, Hbt.
  pose proof (decide_action_meter (rate k) (burst k)
    (_get_action_counts k ta (_prune_message_counts ta l')) 1 ta) as Hd. cbn zeta in Hd.
  destruct (decide_action _ _ _ _ _) as [[a2 ta2] b2]. destruct Hd as [-> _].
  match goal with |- context [Qle_bool ?x ?y] => assert (Qle_bool x y = true) as -> end; [|eauto].
  apply Qle_bool_iff. rewrite fresh_tokens, prune_tokens by (done || lra).
  unfold tokens. rewrite <- Hl'. simpl. rewrite lookup_insert_eq, Hlev.
  pose proof (inject_nonneg (burst k - 1) ltac:(lia)) as Hb1.
  destruct (pos_cases (inject_Z (burst k - 1))) as [[_ ->]|[? _]]; [|lra].
  rewrite inject_sub. change (inject_Z 1) with 1. lra.
Qed.

(** ** Examples: one action a second, and two at once *)

Definition ex_settings : RatelimitSettings := MkSettings "rc_message" 1 2.
Definition no_overrides : string → option RatelimitOverride := λ _, None.

(** A call for a key at the limiter's rate, and one of a requester with its own limits: two
    actions a second and four at once. *)
Definition plain_call (k : string) (n : Z) : call := CanDoAction None (Some k) None None true n.
Definition user_call (k : string) (update : bool) (n : Z) : call :=
  CanDoAction (Some (MkRequester k None k)) None (Some 2) (Some 4%Z) update n.

Definition ex_rate (k : string) : Q := if decide (k = "c") then 2 else 1.
Definition ex_burst (k : string) : Z := if decide (k = "c") then 4 else 2.

Definition ex_pre : list request := [MkRequest 0 (plain_call "a" 1); MkRequest 0 (plain_call "a" 1)].
Definition ex_win : list request :=
  [MkRequest 0 (plain_call "a" 1); MkRequest (1#2) (RecordAction None (Some "b") 2);
   MkRequest (1#2) (plain_call "b" 1); MkRequest (1#2) (user_call "c" false 4);
   MkRequest (1#2) (user_call "c" true 4); MkRequest 1 (user_call "c" true 2);
   MkRequest 1 (RecordAction None (Some "c") 1); MkRequest 1 (plain_call "a" 1);
   MkRequest 1 (RecordAction None None 1)].

Lemma ex_rate_nonneg k : 0 <= ex_rate k.
Proof. unfold ex_rate. case_decide; lra. Qed.

Lemma limiter_refines_meters_witness :
  (run_limiter no_overrides (ex_pre ++ ex_win) (new_Ratelimiter ex_settings)).1 =
    [Ok true; Ok true; Ok false; Ok true; Ok false; Ok true; Ok true; Ok false; Ok true; Ok true;
     Err (PyBuiltin ValueError)].
Proof.
  rewrite (limiter_refines_meters no_overrides ex_rate ex_burst ex_settings 0 (ex_pre ++ ex_win)).
  - by vm_compute.
  - apply ex_rate_nonneg.
  - vm_compute. intuition congruence.
Defined.

Lemma rate_bound_witness :
  granted no_overrides "a" ex_win
    (run_limiter no_overrides ex_win (run_limiter no_overrides ex_pre (new_Ratelimiter ex_settings)).2).1
    <= inject_Z 2 + (1 - 0) * 1.
Proof.
  apply (rate_bound no_overrides ex_rate ex_burst ex_settings 0 ex_pre ex_win 0 1 "a").
  - apply ex_rate_nonneg.
  - vm_compute. discriminate.
  - lra.
  - lra.
  - vm_compute. intuition congruence.
  - repeat constructor; simpl; lra.
  - vm_compute. intuition congruence.
  - repeat constructor; simpl; lra || lia.
Defined.

Definition ex_refused : bool * Q * Ratelimiter :=
  unwrap (true, 0, new_Ratelimiter ex_settings)
    (can_do_action no_overrides None (Some "a") None None true 1 0
       (run_limiter no_overrides ex_pre (new_Ratelimiter ex_settings)).2).

Lemma retry_time_correct_witness :
  0 < ex_refused.1.2 ∧
  ∃ ta' l'', can_do_action no_overrides None (Some "a") None None true 1 ex_refused.1.2 ex_refused.2 =
    Ok (true, ta', l'').
Proof.
  apply (retry_time_correct no_overrides ex_rate ex_burst ex_settings 0 ex_pre "a" None None 0 ex_refused.1.2 ex_refused.2).
  - apply ex_rate_nonneg.
  - vm_compute. reflexivity.
  - vm_compute. discriminate.
  - lra.
  - vm_compute. intuition congruence.
  - repeat constructor; simpl; lra.
  - reflexivity.
  - reflexivity.
  - vm_compute. reflexivity.
Defined.

(** The time given with a refusal is too early for several actions at once: it is
    computed for one action, whatever [n_actions] is, so that a client that is refused
    two actions is refused again at that time. *)
Theorem retry_time_too_early :
  ∃ l ta l' ta' l'',
    (run_limiter no_overrides [MkRequest 0 (plain_call "a" 2)] (new_Ratelimiter ex_settings)).2 = l ∧
    can_do_action no_overrides None (Some "a") None None true 2 0 l = Ok (false, ta, l') ∧ 0 < ta ∧
    can_do_action no_overrides None (Some "a") None None true 2 ta l' = Ok (false, ta', l'').
Proof.
  do 5 eexists. split; [reflexivity|]. split; [vm_compute; reflexivity|]. split; [by vm_compute|].
  vm_compute. reflexivity.
Qed.

(** Recorded actions that do not count: an action at 0, two recorded at 100 and another action
    at 100 is allowed.  [record_action] adds to the count since the bucket was last known to be
    empty, at 0, so that its actions are taken to have leaked since then; the meter refuses. *)
Example recorded_actions_forgiven :
  let reqs := [MkRequest 0 (plain_call "a" 1); MkRequest 100 (RecordAction None (Some "a") 2);
               MkRequest 100 (plain_call "a" 1)] in
  (run_limiter no_overrides reqs (new_Ratelimiter ex_settings)).1 = [Ok true; Ok true; Ok true] ∧
  (run_meters no_overrides ex_rate ex_burst reqs (λ _, None)).1 = [Ok true; Ok true; Ok false].
Proof. vm_compute. split; reflexivity. Qed.
