(* ===== verification/Visibility.v ===== *)
(** * Who may see an event: [synapse/visibility.py]

    An event here is its object, which redaction works on, with the typed attributes that
    the checks read.  The database is the class [VisibilityStore]; the clock does not
    advance during a call. *)

From S2P Require Import Prelude PyVal Constants RoomVersions Ids Events EventObjects Redaction StateFilter TopoSort StateResV1.

Definition VISIBILITY_PRIORITY : list string :=
  [HistoryVisibility.WORLD_READABLE; HistoryVisibility.SHARED; HistoryVisibility.INVITED;
   HistoryVisibility.JOINED].

Definition MEMBERSHIP_PRIORITY : list string :=
  [Membership.JOIN; Membership.INVITE; Membership.KNOCK; Membership.LEAVE; Membership.BAN].

Definition _HISTORY_VIS_KEY : string * string := (EventTypes.RoomHistoryVisibility, "").

(** [x in l] and [l.index(x)], for a tuple of strings *)
Definition in_strs (j : json) (l : list string) : bool := existsb (eq_str j) l.

Fixpoint index_of (s : string) (l : list string) : result nat :=
  match l with
  | [] => Err (PyBuiltin ValueError)
  | x :: l => if bool_decide (x = s) then Ok 0%nat else S <$> index_of s l
  end.

(** [j] if it is one of the strings, and [d] if not *)
Definition str_or (j : json) (l : list string) (d : string) : string :=
  match j with JStr s => if in_strs j l then s else d | _ => d end.

(** ** Events *)

Record VEvent := MkVEvent { attrs : Event; object : FrozenEvent }.

Definition v_unsigned (e : VEvent) : dict := fe_unsigned (object e).
Definition v_outlier (e : VEvent) : bool := outlier (object e).

(** [self._dict.get("soft_failed", False)], of which the value is a bool *)
Definition is_soft_failed (e : VEvent) : bool :=
  match dict_get "soft_failed" (internal_metadata (object e)) with Some (JBool b) => b | _ => false end.

(** The ids, senders and rooms of events, without duplicates. *)
Definition ids_of (l : list VEvent) : gset string := list_to_set (map (λ e, event_id (attrs e)) l).
Definition senders_of (l : list VEvent) : gset string := list_to_set (map (λ e, sender (attrs e)) l).
Definition rooms_of (l : list VEvent) : gset string := list_to_set (map (λ e, room_id (attrs e)) l).

(** [[ev for ev in l if ev]] *)
Definition present (l : list (option FrozenEvent)) : list FrozenEvent := omap (λ x, x) l.

(** The events of which the state is stored. *)
Definition with_state (l : list VEvent) : list VEvent := filter (λ e, v_outlier e = false) l.

Record RetentionPolicy := { min_lifetime : option Z; max_lifetime : option Z }.

Class VisibilityStore := {
  time_msec : Z;
  get_state_for_events : gset string → StateFilter → gmap string (StateMap Event);
  get_state_ids_for_events : gset string → StateFilter → gmap string (StateMap string);
  get_events : gset string → gmap string Event;
  ignored_users : string → gset string;
  ignored_by : string → gset string;
  are_users_erased : gset string → gmap string bool;
  get_retention_policy_for_room : string → RetentionPolicy;
  is_partial_state_room : string → bool
}.

(** ** The checks *)

Inductive _CheckFilter := MAYBE_ALLOWED | DENIED.
Inductive _CheckVisibility := ALLOWED | MAYBE_DENIED.
#[export] Instance check_filter_eq_dec : EqDecision _CheckFilter.
Proof. solve_decision. Defined.
Record _CheckMembershipReturn := { allowed : bool; joined : bool }.

(** Whether an event that is not state is older than the room keeps events. *)
Definition expired (now : Z) (retention_policy : RetentionPolicy) (event : Event) : bool :=
  match max_lifetime retention_policy with
  | Some lifetime => origin_server_ts event <? now - lifetime
  | None => false
  end.

Definition _check_filter_send_to_client (event : Event) (now : Z) (retention_policy : RetentionPolicy)
    (sender_ignored : bool) : _CheckFilter :=
  if bool_decide (type event = EventTypes.Dummy) then DENIED
  else if negb (is_state event) && sender_ignored then DENIED
  else if bool_decide (type event = EventTypes.Aliases) then DENIED
  else if negb (is_state event) && expired now retention_policy event then DENIED
  else MAYBE_ALLOWED.

(** [event.unsigned.get("prev_content", {}).get(key, None)] *)
Definition prev_content_get (event : VEvent) (key : string) : result json :=
  prev_content ← as_dict (get_or "prev_content" (JObj []) (v_unsigned event));
  Ok (get_or key JNull prev_content).

Definition _check_history_visibility (event : VEvent) (visibility : string) (is_peeking : bool)
    : result _CheckVisibility :=
  visibility ←
    (if bool_decide (type (attrs event) = EventTypes.RoomHistoryVisibility) then
       prev_visibility ← prev_content_get event "history_visibility";
       let prev_visibility := str_or prev_visibility VISIBILITY_PRIORITY HistoryVisibility.SHARED in
       new_priority ← index_of visibility VISIBILITY_PRIORITY;
       old_priority ← index_of prev_visibility VISIBILITY_PRIORITY;
       Ok (if (old_priority <? new_priority)%nat then prev_visibility else visibility)
     else Ok visibility);
  Ok (if bool_decide (visibility = HistoryVisibility.SHARED) && negb is_peeking then ALLOWED
      else if bool_decide (visibility = HistoryVisibility.WORLD_READABLE) then ALLOWED
      else MAYBE_DENIED).

Definition get_effective_room_visibility_from_state (state : StateMap Event) : string :=
  match state !! _HISTORY_VIS_KEY with
  | None => HistoryVisibility.SHARED
  | Some visibility_event =>
      str_or (get_or "history_visibility" (JStr HistoryVisibility.SHARED) (content visibility_event))
        VISIBILITY_PRIORITY HistoryVisibility.SHARED
  end.

(** [event.type == EventTypes.Member and event.state_key == user_id] *)
Definition is_own_membership (user_id : string) (event : Event) : result bool :=
  if bool_decide (type event = EventTypes.Member)
  then k ← state_key event; Ok (bool_decide (k = user_id))
  else Ok false.

(** What the membership and the visibility allow: the last part of [_check_membership]. *)
Definition by_membership (membership : json) (visibility : string) (is_peeking : bool)
    : _CheckMembershipReturn :=
  if eq_str membership Membership.JOIN then {| allowed := true; joined := true |}
  else if bool_decide (visibility = HistoryVisibility.JOINED) then {| allowed := false; joined := false |}
  else if bool_decide (visibility = HistoryVisibility.INVITED)
    then {| allowed := eq_str membership Membership.INVITE; joined := false |}
  else if bool_decide (visibility = HistoryVisibility.SHARED) && is_peeking
    then {| allowed := false; joined := false |}
  else {| allowed := true; joined := false |}.

Definition _check_membership (user_id : string) (event : VEvent) (visibility : string)
    (state : StateMap Event) (is_peeking : bool) : result _CheckMembershipReturn :=
  own ← is_own_membership user_id (attrs event);
  if own : bool then
    let membership :=
      str_or (get_or "membership" JNull (content (attrs event))) MEMBERSHIP_PRIORITY "leave" in
    prev_membership ← prev_content_get event "membership";
    let prev_membership := str_or prev_membership MEMBERSHIP_PRIORITY "leave" in
    if bool_decide (membership = "leave")
       && (bool_decide (prev_membership = "join") || bool_decide (prev_membership = "invite"))
    then Ok {| allowed := true; joined := bool_decide (membership = Membership.JOIN) |}
    else
      new_priority ← index_of membership MEMBERSHIP_PRIORITY;
      old_priority ← index_of prev_membership MEMBERSHIP_PRIORITY;
      let membership := if (old_priority <? new_priority)%nat then prev_membership else membership in
      Ok (by_membership (JStr membership) visibility is_peeking)
  else
    membership ← match state !! (EventTypes.Member, user_id) with
                 | Some membership_event => membership membership_event
                 | None => Ok JNull
                 end;
    Ok (by_membership membership visibility is_peeking).

(** [None] when the user may not see the event. *)
Definition _check_client_allowed_to_see_event (user_id : string) (event : VEvent) (now : Z)
    (filter_send_to_client is_peeking : bool) (always_include_ids : gset string)
    (sender_ignored : bool) (retention_policy : RetentionPolicy) (state : option (StateMap Event))
    (sender_erased : bool) : result (option FrozenEvent) :=
  if filter_send_to_client &&
     bool_decide (_check_filter_send_to_client (attrs event) now retention_policy sender_ignored = DENIED)
  then Ok None
  else if bool_decide (event_id (attrs event) ∈ always_include_ids) then Ok (Some (object event))
  else if v_outlier event then
    own ← is_own_membership user_id (attrs event);
    Ok (if own : bool then Some (object event) else None)
  else
    match state with
    | None => Err (PyException "Missing state for non-outlier event")
    | Some state =>
        let visibility := get_effective_room_visibility_from_state state in
        lax ← (if sender_erased then Ok MAYBE_DENIED
               else _check_history_visibility event visibility is_peeking);
        match lax with
        | ALLOWED => Ok (Some (object event))
        | MAYBE_DENIED =>
            membership_result ← _check_membership user_id event visibility state is_peeking;
            if negb (allowed membership_result) then Ok None
            else if sender_erased && negb (joined membership_result)
              then Some <$> prune_event (object event)
            else Ok (Some (object event))
        end
    end.

Section store.
Context `{VisibilityStore, IterOrder}.

(** ** Clients *)

(** The policies that were fetched, and the variable [room_id] that the loop leaves behind;
    both are unbound if the policies were not fetched. *)
Definition fetched_policies (filter_send_to_client : bool) (events : list VEvent)
    : option (gmap string RetentionPolicy * option string) :=
  if filter_send_to_client then
    let room_ids := set_iter (rooms_of events) in
    Some (list_to_map ((λ r, (r, get_retention_policy_for_room r)) <$> room_ids), last room_ids)
  else None.

(** [retention_policies[room_id]] *)
Definition policy_in_use (policies : option (gmap string RetentionPolicy * option string))
    : result RetentionPolicy :=
  match policies with
  | Some (retention_policies, Some room_id) =>
      match retention_policies !! room_id with
      | Some p => Ok p
      | None => Err (PyBuiltin KeyError)
      end
  | _ => Err (PyBuiltin NameError)
  end.

Definition filter_events_for_client (user_id : string) (events : list VEvent) (is_peeking : bool)
    (always_include_ids : gset string) (filter_send_to_client : bool) : result (list FrozenEvent) :=
  let events := filter (λ e, is_soft_failed e = false) events in
  let event_id_to_state := get_state_for_events (ids_of (with_state events))
    (from_types [(_HISTORY_VIS_KEY.1, Some _HISTORY_VIS_KEY.2); (EventTypes.Member, Some user_id)]) in
  let ignore_list := ignored_users user_id in
  let erased_senders := are_users_erased (senders_of events) in
  let policies := fetched_policies filter_send_to_client events in
  let allowed (event : VEvent) : result (option FrozenEvent) :=
    retention_policy ← policy_in_use policies;
    _check_client_allowed_to_see_event user_id event time_msec filter_send_to_client is_peeking
      always_include_ids (bool_decide (sender (attrs event) ∈ ignore_list)) retention_policy
      (event_id_to_state !! event_id (attrs event))
      (default false (erased_senders !! sender (attrs event))) in
  filtered_events ← map_res allowed events;
  Ok (present filtered_events).

(** [EventContext.get_prev_state_ids] *)
Abbreviation EventContext := (StateFilter → StateMap string).

Definition _get_state_map (event : VEvent) (context : EventContext) (state_filter : StateFilter)
    : result (StateMap Event) :=
  let state_map := context state_filter in
  let event_map := get_events (map_to_set (λ _ id, id) state_map) in
  let updated_state_map : StateMap Event := omap (λ id, event_map !! id) state_map in
  if is_state (attrs event) then
    current_state_key ← event_key (attrs event);
    Ok (<[current_state_key := attrs event]> updated_state_map)
  else Ok updated_state_map.

(** The users that the checks for sending let through. *)
Definition sendable_to (user_ids : list string) (event : Event) (filter_send_to_client : bool) : gset string :=
  let allowed_user_ids : gset string := list_to_set user_ids in
  if filter_send_to_client then
    let retention_policy := get_retention_policy_for_room (room_id event) in
    filter (λ u, _check_filter_send_to_client event time_msec retention_policy
                   (bool_decide (u ∈ ignored_by (sender event))) ≠ DENIED)
      allowed_user_ids
  else allowed_user_ids.

(** The users whose membership allows it. *)
Definition members_allowed (event : VEvent) (visibility : string) (state_map : StateMap Event)
    (is_peeking : bool) (allowed_user_ids : gset string) : result (gset string) :=
  fold_res (λ acc u,
      r ← _check_membership u event visibility state_map is_peeking;
      Ok (if allowed r then {[u]} ∪ acc else acc))
    (set_iter allowed_user_ids) ∅.

Definition filter_event_for_clients_with_state (user_ids : list string) (event : VEvent)
    (context : EventContext) (is_peeking filter_send_to_client : bool) : result (gset string) :=
  if is_soft_failed event then Ok ∅
  else if bool_decide (user_ids = []) then Ok ∅
  else
    let allowed_user_ids := sendable_to user_ids (attrs event) filter_send_to_client in
    if v_outlier event then
      if bool_decide (type (attrs event) = EventTypes.Member) then
        k ← state_key (attrs event);
        Ok (if bool_decide (k ∈ allowed_user_ids) then {[k]} else ∅)
      else Ok ∅
    else
      visibility_state_map ← _get_state_map event context
        (from_types [(_HISTORY_VIS_KEY.1, Some _HISTORY_VIS_KEY.2)]);
      let visibility := get_effective_room_visibility_from_state visibility_state_map in
      lax ← _check_history_visibility event visibility is_peeking;
      match lax with
      | ALLOWED => Ok allowed_user_ids
      | MAYBE_DENIED =>
          let filter_list := ((λ u, (EventTypes.Member, Some u)) <$> set_iter allowed_user_ids)
                               ++ [(EventTypes.RoomHistoryVisibility, Some "")] in
          state_map ← _get_state_map event context (from_types filter_list);
          members_allowed event visibility state_map is_peeking allowed_user_ids
      end.

(** ** Servers *)

(** The key of [result] in [_event_to_history_vis] for one event. *)
Definition history_vis_of (event_to_state_ids : gmap string (StateMap string))
    (vis_events : gmap string Event) (event : VEvent) : result string :=
  match event_to_state_ids !! event_id (attrs event) ≫= (λ state_ids, state_ids !! _HISTORY_VIS_KEY) with
  | None => Ok HistoryVisibility.SHARED
  | Some visibility_id =>
      if bool_decide (visibility_id = "") then Ok HistoryVisibility.SHARED
      else
        vis_event ← match vis_events !! visibility_id with Some e => Ok e | None => Err (PyBuiltin KeyError) end;
        match get_or "history_visibility" (JStr HistoryVisibility.SHARED) (content vis_event) with
        | JStr vis => Ok vis
        | _ => Err (PyBuiltin AssertionError)
        end
  end.

Definition _event_to_history_vis (events : list VEvent) : result (gmap string string) :=
  let event_to_state_ids := get_state_ids_for_events (ids_of (with_state events))
    (from_types [(_HISTORY_VIS_KEY.1, Some _HISTORY_VIS_KEY.2)]) in
  let visibility_ids : gset string := filter (λ id, id ≠ "")
    (list_to_set (omap (λ kv : string * StateMap string, kv.2 !! _HISTORY_VIS_KEY) (map_to_list event_to_state_ids))) in
  let vis_events := get_events visibility_ids in
  fold_res (λ result event,
      vis ← history_vis_of event_to_state_ids vis_events event;
      Ok (<[event_id (attrs event) := vis]> result))
    events ∅.

(** [include] in [_event_to_memberships] *)
Definition include (server_name : string) (state_key : string) : bool :=
  match str_find ":" state_key with
  | None => false
  | Some idx => bool_decide (str_drop (S idx) state_key = server_name)
  end.

Definition _event_to_memberships (events : list VEvent) (server_name : string)
    : gmap string (StateMap Event) :=
  if bool_decide (events = []) then ∅
  else
    let event_to_state_ids := get_state_ids_for_events (ids_of events)
      (from_types [(EventTypes.Member, None)]) in
    let event_id_to_state_key : gmap string (string * string) :=
      foldl (λ d kv, foldl (λ d ki, <[ki.2 := ki.1]> d) d (V1.items kv.2)) ∅ (dict_items event_to_state_ids) in
    let event_map := get_events
      (list_to_set (omap (λ ik : string * (string * string), if include server_name ik.2.2 then Some ik.1 else None)
         (dict_items event_id_to_state_key))) in
    (λ key_to_eid : StateMap string, omap (λ id, event_map !! id) key_to_eid) <$> event_to_state_ids.

(** The loop of [check_event_is_visible] over the memberships. *)
Fixpoint server_member (target_server_name visibility : string) (memberships : list Event) : result bool :=
  match memberships with
  | [] => Ok false
  | ev :: l =>
      k ← state_key ev;
      domain ← get_domain_from_id k;
      raise_if (negb (bool_decide (domain = target_server_name))) (PyBuiltin AssertionError) ;;
      memtype ← membership ev;
      if eq_str memtype Membership.JOIN then Ok true
      else if eq_str memtype Membership.INVITE && bool_decide (visibility = HistoryVisibility.INVITED) then Ok true
      else server_member target_server_name visibility l
  end.

Definition check_event_is_visible (target_server_name visibility : string) (memberships : StateMap Event)
    : result bool :=
  if negb (bool_decide (visibility ∈ [HistoryVisibility.INVITED; HistoryVisibility.JOINED])) then Ok true
  else server_member target_server_name visibility (V1.items memberships).*2.

Definition is_sender_erased (event : VEvent) (erased_senders : gmap string bool) : result bool :=
  if bool_decide (erased_senders = ∅) then Ok false
  else match erased_senders !! sender (attrs event) with
       | Some b => Ok b
       | None => Err (PyBuiltin KeyError)
       end.

(** The events of rooms that are being joined, from other servers. *)
Definition partial_state_invisible (local_server_name : string) (events : list VEvent) : result (gset string) :=
  fold_res (λ ids e,
      sender_domain ← get_domain_from_id (sender (attrs e));
      Ok (if negb (bool_decide (sender_domain = local_server_name)) && is_partial_state_room (room_id (attrs e))
          then {[event_id (attrs e)]} ∪ ids else ids))
    events ∅.

Definition include_event_in_output (target_server_name : string) (erased_senders : gmap string bool)
    (event_to_history_vis : gmap string string) (event_to_memberships : gmap string (StateMap Event))
    (partial_state_invisible_event_ids : gset string) (e : VEvent) : result bool :=
  erased ← is_sender_erased e erased_senders;
  vis ← match event_to_history_vis !! event_id (attrs e) with Some v => Ok v | None => Err (PyBuiltin KeyError) end;
  visible ← check_event_is_visible target_server_name vis
              (default ∅ (event_to_memberships !! event_id (attrs e)));
  let visible := if bool_decide (event_id (attrs e) ∈ partial_state_invisible_event_ids) then false else visible in
  Ok (visible && negb erased).

Definition filter_events_for_server (target_server_name local_server_name : string) (events : list VEvent)
    (redact filter_out_erased_senders filter_out_remote_partial_state_events : bool)
    : result (list FrozenEvent) :=
  let erased_senders :=
    if filter_out_erased_senders
    then are_users_erased (senders_of events) else ∅ in
  partial_state_invisible_event_ids ←
    (if filter_out_remote_partial_state_events then partial_state_invisible local_server_name events else Ok ∅);
  event_to_history_vis ← _event_to_history_vis events;
  let restricted := filter (λ e,
    match event_to_history_vis !! event_id (attrs e) with
    | Some v => negb (bool_decide (v ∈ [HistoryVisibility.SHARED; HistoryVisibility.WORLD_READABLE]))
    | None => true
    end = true) events in
  let event_to_memberships := _event_to_memberships restricted target_server_name in
  to_return ← map_res (λ e,
      included ← include_event_in_output target_server_name erased_senders event_to_history_vis
                   event_to_memberships partial_state_invisible_event_ids e;
      if included : bool then Ok (Some (object e))
      else if redact then Some <$> prune_event (object e)
      else Ok None) events;
  Ok (present to_return).
End store.
