(* ===== verification/VisibilityProps.v ===== *)
(** * Who may see an event: the rule behind the checks *)

From S2P Require Import Prelude PyVal Constants RoomVersions Ids Events EventObjects Redaction StateFilter StateFilterProps TopoSort StateResV1 StateResV1Props Visibility.

(** ** The rule for clients *)

(** Visible without having been in the room. *)
Definition open_to (visibility : string) (is_peeking : bool) : Prop :=
  visibility = HistoryVisibility.WORLD_READABLE ∨ visibility = HistoryVisibility.SHARED ∧ is_peeking = false.

(** What the event replaced, as far as its sender's server says. *)
Definition replaced (event : VEvent) (key : string) : json :=
  match get_or "prev_content" (JObj []) (v_unsigned event) with JObj o => get_or key JNull o | _ => JNull end.

Definition old_visibility (event : VEvent) : string :=
  str_or (replaced event "history_visibility") VISIBILITY_PRIORITY HistoryVisibility.SHARED.
Definition new_membership (event : VEvent) : string :=
  str_or (get_or "membership" JNull (content (attrs event))) MEMBERSHIP_PRIORITY "leave".
Definition old_membership (event : VEvent) : string :=
  str_or (replaced event "membership") MEMBERSHIP_PRIORITY "leave".

(** The membership event of the user. *)
Definition own (user_id : string) (event : VEvent) : Prop :=
  type (attrs event) = EventTypes.Member ∧ ev_state_key (attrs event) = Some user_id.
#[export] Instance own_dec u e : Decision (own u e).
Proof. unfold own. apply _. Defined.

(** The user had the membership [m] at the event: before or after it, if it is the user's own. *)
Definition was (m user_id : string) (event : VEvent) (state : StateMap Event) : Prop :=
  if decide (own user_id event) then new_membership event = m ∨ old_membership event = m
  else ∃ ev, state !! (EventTypes.Member, user_id) = Some ev ∧ membership ev = Ok (JStr m).

(** The user leaves, or rejects an invitation. *)
Definition own_leave (user_id : string) (event : VEvent) : Prop :=
  own user_id event ∧ new_membership event = Membership.LEAVE ∧
  (old_membership event = Membership.JOIN ∨ old_membership event = Membership.INVITE).

Definition by_being_there (user_id : string) (event : VEvent) (state : StateMap Event) : Prop :=
  was Membership.JOIN user_id event state ∨ own_leave user_id event ∨
  get_effective_room_visibility_from_state state = HistoryVisibility.INVITED ∧
    was Membership.INVITE user_id event state.

(** The history is open, or was until this event. *)
Definition by_openness (event : VEvent) (state : StateMap Event) (is_peeking : bool) : Prop :=
  open_to (get_effective_room_visibility_from_state state) is_peeking ∨
  type (attrs event) = EventTypes.RoomHistoryVisibility ∧ open_to (old_visibility event) is_peeking.

Definition visible (user_id : string) (event : VEvent) (state : StateMap Event) (is_peeking : bool) : Prop :=
  by_openness event state is_peeking ∨ by_being_there user_id event state.

(** Events whose parts have the types that the checks expect. *)
Record readable (event : VEvent) : Prop := {
  readable_prev : ∃ o, get_or "prev_content" (JObj []) (v_unsigned event) = JObj o;
  readable_key : type (attrs event) = EventTypes.Member → is_Some (ev_state_key (attrs event))
}.
Definition readable_state (state : StateMap Event) : Prop :=
  ∀ u ev, state !! (EventTypes.Member, u) = Some ev → is_ok (membership ev) = true.

(** ** Lemmas on the checks *)

Lemma str_or_in j l d : d ∈ l → str_or j l d ∈ l.
Proof.
  intros Hd. unfold str_or. destruct j; try done. case_match eqn:E; [|done].
  unfold in_strs in E. apply existsb_exists in E as (x & Hx%list_elem_of_In & Hs).
  unfold eq_str in Hs. simpl in Hs. by apply bool_decide_eq_true in Hs as ->.
Qed.

Lemma index_of_in s l : s ∈ l → ∃ n, index_of s l = Ok n ∧ l !! n = Some s.
Proof.
  induction l as [|x l IH]; [by intros ?%not_elem_of_nil|]. intros [->|Hin]%elem_of_cons; simpl.
  - rewrite bool_decide_true by done. by exists 0%nat.
  - case_bool_decide as Hx; [subst; by exists 0%nat|]. destruct (IH Hin) as (n & -> & Hn). by exists (S n).
Qed.

Lemma prev_content_get_ok e key : readable e → prev_content_get e key = Ok (replaced e key).
Proof.
  intros [(o & Ho) _]. unfold prev_content_get, replaced. by rewrite Ho.
Qed.

Lemma effective_in st : get_effective_room_visibility_from_state st ∈ VISIBILITY_PRIORITY.
Proof.
  unfold get_effective_room_visibility_from_state. case_match; [apply str_or_in|]; unfold VISIBILITY_PRIORITY; by_elem.
Qed.

Lemma is_own_ok u e : readable e → is_own_membership u (attrs e) = Ok (bool_decide (own u e)).
Proof.
  intros [_ Hk]. unfold is_own_membership. case_bool_decide as Ht.
  - destruct (Hk Ht) as [k Hs]. assert (Hsk : state_key (attrs e) = Ok k) by (by apply state_key_ok).
    rewrite Hsk. cbn [mbind result_bind]. f_equal. apply bool_decide_ext. unfold own. rewrite Hs. naive_solver.
  - f_equal. symmetry. apply bool_decide_false. unfold own. naive_solver.
Qed.

(** The less restrictive of two visibilities is open exactly if one of them is. *)
Lemma least_restrictive v w n m p :
  v ∈ VISIBILITY_PRIORITY → w ∈ VISIBILITY_PRIORITY →
  index_of v VISIBILITY_PRIORITY = Ok n → index_of w VISIBILITY_PRIORITY = Ok m →
  open_to (if (m <? n)%nat then w else v) p ↔ open_to v p ∨ open_to w p.
Proof.
  unfold VISIBILITY_PRIORITY. rewrite !elem_of_cons. intros Hv Hw.
  destruct Hv as [->|[->|[->|[->|?%not_elem_of_nil]]]]; [..|done];
  (destruct Hw as [->|[->|[->|[->|?%not_elem_of_nil]]]]; [..|done]);
  vm_compute; intros [= <-] [= <-]; simpl; unfold open_to; destruct p; intuition congruence.
Qed.

Lemma check_history_spec e v p :
  readable e → v ∈ VISIBILITY_PRIORITY →
  ∃ r, _check_history_visibility e v p = Ok r ∧
    (r = ALLOWED ↔ open_to v p ∨ type (attrs e) = EventTypes.RoomHistoryVisibility ∧ open_to (old_visibility e) p).
Proof.
  intros He Hv. unfold _check_history_visibility.
  assert (Hlast : ∀ x, (if bool_decide (x = HistoryVisibility.SHARED) && negb p then ALLOWED
    else if bool_decide (x = HistoryVisibility.WORLD_READABLE) then ALLOWED else MAYBE_DENIED) = ALLOWED ↔ open_to x p).
  { intros x. unfold open_to. destruct (decide (x = HistoryVisibility.SHARED)) as [->|Hx].
    - rewrite bool_decide_true by done. destruct p; simpl; [|naive_solver]. split; [done|]. by intros [?|[_ ?]].
    - rewrite bool_decide_false by done. simpl. case_bool_decide; naive_solver. }
  case_bool_decide as Ht.
  - rewrite prev_content_get_ok by done. cbn [mbind result_bind].
    change (str_or (replaced e "history_visibility") VISIBILITY_PRIORITY HistoryVisibility.SHARED) with (old_visibility e).
    assert (Ho : old_visibility e ∈ VISIBILITY_PRIORITY) by (apply str_or_in; unfold VISIBILITY_PRIORITY; by_elem).
    destruct (index_of_in v _ Hv) as (n & Hn & _). destruct (index_of_in _ _ Ho) as (m & Hm & _).
    rewrite Hn. cbn [mbind result_bind]. rewrite Hm. cbn [mbind result_bind]. eexists. split; [done|].
    rewrite Hlast, (least_restrictive v (old_visibility e) n m p Hv Ho Hn Hm). naive_solver.
  - eexists. split; [done|]. rewrite Hlast. naive_solver.
Qed.

Lemma by_membership_spec j v p :
  v ∈ VISIBILITY_PRIORITY →
  (allowed (by_membership j v p) = true ↔
     j = JStr Membership.JOIN ∨ open_to v p ∨ v = HistoryVisibility.INVITED ∧ j = JStr Membership.INVITE) ∧
  (joined (by_membership j v p) = true ↔ j = JStr Membership.JOIN).
Proof.
  intros Hv. unfold by_membership.
  assert (Heq : ∀ s, eq_str j s = true ↔ j = JStr s).
  { intros s. destruct j; simpl; try (split; congruence). rewrite bool_decide_eq_true. naive_solver. }
  destruct (eq_str j Membership.JOIN) eqn:Hj; [apply Heq in Hj; naive_solver|].
  assert (Hj' : j ≠ JStr Membership.JOIN) by (intros E%Heq; congruence).
  unfold VISIBILITY_PRIORITY in Hv. rewrite !elem_of_cons in Hv. unfold open_to.
  destruct Hv as [->|[->|[->|[->|?%not_elem_of_nil]]]]; [..|done];
    destruct p; repeat (first [rewrite bool_decide_true by done|rewrite bool_decide_false by done]); simpl;
    rewrite ?Heq; naive_solver.
Qed.

(** The 'most joined' of two memberships. *)
Lemma most_joined m w i k :
  m ∈ MEMBERSHIP_PRIORITY → w ∈ MEMBERSHIP_PRIORITY →
  index_of m MEMBERSHIP_PRIORITY = Ok i → index_of w MEMBERSHIP_PRIORITY = Ok k →
  let x := if (k <? i)%nat then w else m in
  (x = Membership.JOIN ↔ m = Membership.JOIN ∨ w = Membership.JOIN) ∧
  (x = Membership.INVITE ↔ (m = Membership.INVITE ∨ w = Membership.INVITE) ∧
     m ≠ Membership.JOIN ∧ w ≠ Membership.JOIN).
Proof.
  unfold MEMBERSHIP_PRIORITY. rewrite !elem_of_cons. intros Hm Hw.
  destruct Hm as [->|[->|[->|[->|[->|?%not_elem_of_nil]]]]]; [..|done];
  (destruct Hw as [->|[->|[->|[->|[->|?%not_elem_of_nil]]]]]; [..|done]);
  vm_compute; intros [= <-] [= <-]; simpl; intuition congruence.
Qed.

Lemma memberships_in e : new_membership e ∈ MEMBERSHIP_PRIORITY ∧ old_membership e ∈ MEMBERSHIP_PRIORITY.
Proof. split; apply str_or_in; unfold MEMBERSHIP_PRIORITY; by_elem. Qed.

Lemma check_membership_spec u e st p :
  readable e → readable_state st →
  ∃ r, _check_membership u e (get_effective_room_visibility_from_state st) st p = Ok r ∧
    (allowed r = true ↔ open_to (get_effective_room_visibility_from_state st) p ∨ by_being_there u e st) ∧
    (joined r = true ↔ was Membership.JOIN u e st ∧ ¬ own_leave u e).
Proof.
  intros He Hst. unfold _check_membership, by_being_there. rewrite is_own_ok by done. cbn [mbind result_bind].
  pose proof (λ j, by_membership_spec j _ p (effective_in st)) as Hb.
  generalize dependent (get_effective_room_visibility_from_state st). intros v Hb.
  unfold was, own_leave. destruct (decide (own u e)) as [Ho|Ho].
  - rewrite bool_decide_true, prev_content_get_ok by done. cbn [mbind result_bind].
    fold (old_membership e) (new_membership e). destruct (memberships_in e) as [Hn Hw].
    case_match eqn:Hl.
    + eexists. split; [done|]. apply andb_true_iff in Hl as [Hl%bool_decide_eq_true Hl2].
      rewrite Hl. simpl. apply orb_true_iff in Hl2 as [Hl2|Hl2]; apply bool_decide_eq_true in Hl2; rewrite Hl2; naive_solver.
    + destruct (index_of_in _ _ Hn) as (i & Hi & _). destruct (index_of_in _ _ Hw) as (k & Hk & _).
      rewrite Hi. cbn [mbind result_bind]. rewrite Hk. cbn [mbind result_bind].
      destruct (most_joined _ _ _ _ Hn Hw Hi Hk) as [J I]. cbn zeta in J, I. eexists. split; [done|].
      assert (Hnl : ¬ (new_membership e = Membership.LEAVE ∧
        (old_membership e = Membership.JOIN ∨ old_membership e = Membership.INVITE))).
      { intros [E1 E2]. change Membership.LEAVE with "leave" in E1. rewrite E1 in Hl. simpl in Hl.
        destruct E2 as [E2|E2]; rewrite E2 in Hl; done. }
      set (x := if (k <? i)%nat then _ else _) in *. destruct (Hb (JStr x)) as [-> ->].
      assert (Hx : ∀ s, JStr x = JStr s ↔ x = s) by (intros s; split; congruence). rewrite !Hx, J, I.
      destruct (decide (new_membership e = Membership.JOIN)), (decide (old_membership e = Membership.JOIN)); naive_solver.
  - rewrite bool_decide_false by done.
    destruct (st !! (EventTypes.Member, u)) as [ev|] eqn:Hs.
    + specialize (Hst u ev Hs). destruct (membership ev) as [j|] eqn:Hj; [|done]. eexists. split; [done|].
      assert (Hw : ∀ m, (∃ ev0, Some ev = Some ev0 ∧ membership ev0 = Ok (JStr m)) ↔ j = JStr m).
      { intros m. split; [intros (ev0 & E & E'); congruence|]. intros ->. by exists ev. }
      destruct (Hb j) as [-> ->]. rewrite !Hw. tauto.
    + eexists. split; [done|]. destruct (Hb JNull) as [-> ->].
      assert (Hw : ∀ m, (∃ ev0 : Event, None = Some ev0 ∧ membership ev0 = Ok (JStr m)) ↔ False) by naive_solver.
      assert (HN : ∀ s, JNull = JStr s ↔ False) by done. rewrite !Hw, !HN. tauto.
Qed.

(** * Who may see an event: the theorems for clients *)

(** ** One event and one user *)

(** Kept from clients whatever the history visibility: dummy and aliases events, and
    messages from a sender the user ignores or older than the retention policy allows. *)
Definition withheld (e : Event) (now : Z) (policy : RetentionPolicy) (ignored : bool) : Prop :=
  type e = EventTypes.Dummy ∨ type e = EventTypes.Aliases ∨
  ev_state_key e = None ∧ (ignored = true ∨ expired now policy e = true).

(** The rule when the sender was erased: history that was open only until this event
    does not count. *)
Definition visible_erased (user_id : string) (event : VEvent) (state : StateMap Event) (is_peeking : bool) : Prop :=
  open_to (get_effective_room_visibility_from_state state) is_peeking ∨ by_being_there user_id event state.

(** The user was joined at the event and did not leave with it. *)
Definition present_at (user_id : string) (event : VEvent) (state : StateMap Event) : Prop :=
  was Membership.JOIN user_id event state ∧ ¬ own_leave user_id event.

(** What a client is shown of an event. *)
Inductive client_view (user_id : string) (e : VEvent) (now : Z) (send is_peeking : bool)
    (always : gset string) (ignored : bool) (policy : RetentionPolicy) (st : StateMap Event)
    (erased : bool) : result (option FrozenEvent) → Prop :=
  | view_withheld :
      send = true → withheld (attrs e) now policy ignored →
      client_view user_id e now send is_peeking always ignored policy st erased (Ok None)
  | view_always :
      ¬ (send = true ∧ withheld (attrs e) now policy ignored) → event_id (attrs e) ∈ always →
      client_view user_id e now send is_peeking always ignored policy st erased (Ok (Some (object e)))
  | view_outlier r :
      ¬ (send = true ∧ withheld (attrs e) now policy ignored) → event_id (attrs e) ∉ always →
      v_outlier e = true →
      (own user_id e ∧ r = Some (object e) ∨ ¬ own user_id e ∧ r = None) →
      client_view user_id e now send is_peeking always ignored policy st erased (Ok r)
  | view_plain r :
      ¬ (send = true ∧ withheld (attrs e) now policy ignored) → event_id (attrs e) ∉ always →
      v_outlier e = false → erased = false →
      (visible user_id e st is_peeking ∧ r = Some (object e) ∨ ¬ visible user_id e st is_peeking ∧ r = None) →
      client_view user_id e now send is_peeking always ignored policy st erased (Ok r)
  | view_erased r :
      ¬ (send = true ∧ withheld (attrs e) now policy ignored) → event_id (attrs e) ∉ always →
      v_outlier e = false → erased = true →
      (visible_erased user_id e st is_peeking ∧ present_at user_id e st ∧ r = Ok (Some (object e)) ∨
       visible_erased user_id e st is_peeking ∧ ¬ present_at user_id e st ∧ r = Some <$> prune_event (object e) ∨
       ¬ visible_erased user_id e st is_peeking ∧ r = Ok None) →
      client_view user_id e now send is_peeking always ignored policy st erased r.

Lemma send_check_spec e now policy ignored send :
  send && bool_decide (_check_filter_send_to_client e now policy ignored = DENIED) = true ↔
  send = true ∧ withheld e now policy ignored.
Proof.
  rewrite andb_true_iff, bool_decide_eq_true.
  assert (Hw : _check_filter_send_to_client e now policy ignored = DENIED ↔ withheld e now policy ignored);
    [|by rewrite Hw].
  unfold _check_filter_send_to_client, withheld, is_state, get_state_key.
  case_bool_decide as Hd; [naive_solver|].
  destruct (ev_state_key e); cbn [negb andb].
  - case_bool_decide; intuition congruence.
  - destruct ignored; [tauto|]. case_bool_decide; [tauto|].
    destruct (expired now policy e); intuition congruence.
Qed.

Lemma client_view_functional u e now send p always ignored policy st erased r r' :
  client_view u e now send p always ignored policy st erased r →
  client_view u e now send p always ignored policy st erased r' → r = r'.
Proof. intros H H'. inversion H; inversion H'; subst; try done; intuition congruence. Qed.

(** The check returns what [client_view] describes. *)
Lemma client_check_view user_id e now send is_peeking always ignored policy state erased :
  readable e → readable_state (default ∅ state) → (v_outlier e = false → is_Some state) →
  client_view user_id e now send is_peeking always ignored policy (default ∅ state) erased
    (_check_client_allowed_to_see_event user_id e now send is_peeking always ignored policy state erased).
Proof.
  intros He Hst Hsome. unfold _check_client_allowed_to_see_event.
  pose proof (send_check_spec (attrs e) now policy ignored send) as Hs.
  destruct (send && _); [apply view_withheld; by apply Hs|].
  assert (Hn : ¬ (send = true ∧ withheld (attrs e) now policy ignored)) by (by rewrite <- Hs). clear Hs.
  case_bool_decide as Hal; [by apply view_always|].
  destruct (v_outlier e) eqn:Hout.
  { rewrite is_own_ok by done. cbn [mbind result_bind]. apply view_outlier; [done..|].
    case_bool_decide; naive_solver. }
  destruct (Hsome eq_refl) as [st ->]. cbn [default] in *. unfold id in *. clear Hsome.
  destruct (check_membership_spec user_id e st is_peeking He Hst) as (m & Hm & Ha & Hj).
  destruct erased; cbn [mbind result_bind].
  - apply view_erased; [done..|]. rewrite Hm. cbn [mbind result_bind andb].
    unfold visible_erased, present_at. rewrite <- Ha, <- Hj.
    destruct (allowed m), (joined m); cbn [negb]; naive_solver.
  - destruct (check_history_spec e _ is_peeking He (effective_in st)) as (h & -> & Hh).
    cbn [mbind result_bind]. destruct h.
    + apply view_plain; [done..|]. left. split; [|done]. left. by apply Hh.
    + assert (Hc : MAYBE_DENIED ≠ ALLOWED) by done. rewrite Hh in Hc. clear Hh.
      rewrite Hm. cbn [mbind result_bind andb].
      assert (Hv : allowed m = true ↔ visible user_id e st is_peeking).
      { rewrite Ha. unfold visible, by_openness. tauto. }
      destruct (allowed m); cbn [negb]; apply view_plain; try done; naive_solver.
Qed.

(** C22: what a client is shown of an event is exactly what the rule [client_view] says,
    for every combination of the arguments: nothing of a withheld event that is to be sent;
    else an event of [always_include_ids] as it is; an outlier only to the user whose
    membership it is; the event as it is if it is [visible] (the history is open to the
    user, or was until this event; or the user was in the room at the event, left with it,
    or was invited where the invited may read); and if its sender was erased, the event to
    those who were joined at it, its redacted form to the others who may see it.  The
    event's prev_content is a dict, a membership event has a state key, the membership
    events of the state have a membership, and the state of a non-outlier is given. *)
Theorem client_sees_iff user_id e now send is_peeking always ignored policy state erased r :
  readable e → readable_state (default ∅ state) → (v_outlier e = false → is_Some state) →
  _check_client_allowed_to_see_event user_id e now send is_peeking always ignored policy state erased = r ↔
  client_view user_id e now send is_peeking always ignored policy (default ∅ state) erased r.
Proof.
  intros He Hst Hsome.
  pose proof (client_check_view user_id e now send is_peeking always ignored policy state erased He Hst Hsome) as Hv.
  split; [by intros <-|]. intros Hr. by eapply client_view_functional.
Qed.

(** Of an event whose sender has been erased, a client gets the event itself only if
    the user was in the room at the event and did not leave with it; everyone else who may
    see it gets its redacted form, and history that was open only until this event does
    not count. *)
Theorem erased_sender_redacted user_id e now send is_peeking always ignored policy st o :
  readable e → readable_state st → v_outlier e = false → event_id (attrs e) ∉ always →
  _check_client_allowed_to_see_event user_id e now send is_peeking always ignored policy (Some st) true = Ok (Some o) →
  (open_to (get_effective_room_visibility_from_state st) is_peeking ∨ by_being_there user_id e st) ∧
  ((o = object e ∧ was Membership.JOIN user_id e st ∧ ¬ own_leave user_id e) ∨
   (prune_event (object e) = Ok o ∧ ¬ (was Membership.JOIN user_id e st ∧ ¬ own_leave user_id e))).
Proof.
  intros He Hst Hout Hal. unfold _check_client_allowed_to_see_event.
  case_match; [done|]. rewrite bool_decide_false, Hout by done. cbn [mbind result_bind].
  destruct (check_membership_spec user_id e st is_peeking He Hst) as (r & -> & Ha & Hj). cbn [mbind result_bind].
  destruct (allowed r); cbn [negb andb]; [|done]. intros Hr. split; [by apply Ha|].
  destruct (joined r); cbn [negb] in Hr.
  - left. split; [congruence|]. by apply Hj.
  - right. apply fmap_ok in Hr as (x & E & Hx). split; [congruence|]. rewrite <- Hj. done.
Qed.

(** ** Many users *)

(** The store returns the events it has among those it is asked for. *)
Class EventStoreLaws `(VisibilityStore) (db : gmap string Event) : Prop :=
  get_events_ok X id : get_events X !! id = if decide (id ∈ X) then db !! id else None.

(** The state at the event, which includes it: the ids before it are [full]. *)
Definition state_at (db : gmap string Event) (full : StateMap string) (e : VEvent) : StateMap Event :=
  let before : StateMap Event := omap (λ id, db !! id) full in
  match ev_state_key (attrs e) with
  | Some k => <[(type (attrs e), k) := attrs e]> before
  | None => before
  end.

Section many.
Context `{EventStoreLaws} `{!IterOrder, !IterOrderOk _} (full : StateMap string).
Let ctx : StateFilter → StateMap string := λ f, filter_state f full.

Lemma get_state_map_spec e f :
  ∃ m, _get_state_map e ctx f = Ok m ∧
    ∀ k, matches f k = true → m !! k = state_at db full e !! k.
Proof.
  unfold _get_state_map, state_at. set (m0 := omap _ (ctx f)).
  assert (Hm : ∀ k, matches f k = true → m0 !! k = (omap (λ id, db !! id) full : StateMap Event) !! k).
  { intros k Hk. unfold m0, ctx. rewrite !lookup_omap, lookup_filter_state, Hk.
    destruct (full !! k) as [id|] eqn:Hid; [|done]. simpl. rewrite get_events_ok, decide_True; [done|].
    apply elem_of_map_to_set. exists k, id. split; [|done]. by rewrite lookup_filter_state, Hk. }
  unfold is_state, get_state_key. destruct (ev_state_key (attrs e)) as [sk|] eqn:Hk.
  - assert (Hek : event_key (attrs e) = Ok (type (attrs e), sk)) by (by apply event_key_ok).
    rewrite Hek. cbn [mbind result_bind]. eexists. split; [done|]. intros k Hmk.
    destruct (decide (k = (type (attrs e), sk))) as [->|Hne]; [by rewrite !lookup_insert_eq|].
    rewrite !lookup_insert_ne by done. by apply Hm.
  - exists m0. by split.
Qed.

Lemma effective_cong st st' :
  st !! _HISTORY_VIS_KEY = st' !! _HISTORY_VIS_KEY →
  get_effective_room_visibility_from_state st = get_effective_room_visibility_from_state st'.
Proof. intros E. unfold get_effective_room_visibility_from_state. by rewrite E. Qed.

Lemma check_membership_cong u e v st st' p :
  st !! (EventTypes.Member, u) = st' !! (EventTypes.Member, u) →
  _check_membership u e v st p = _check_membership u e v st' p.
Proof. intros E. unfold _check_membership. by rewrite E. Qed.

Lemma members_allowed_spec e v st p (U : gset string) :
  (∀ u, u ∈ U → ∃ r, _check_membership u e v st p = Ok r) →
  ∃ S, members_allowed e v st p U = Ok S ∧
    ∀ u, u ∈ S ↔ u ∈ U ∧ allowed <$> _check_membership u e v st p = Ok true.
Proof.
  unfold members_allowed. intros HU.
  assert (Hl : ∀ l (acc : gset string), (∀ u, u ∈ l → ∃ r, _check_membership u e v st p = Ok r) →
    ∃ S, fold_res (λ acc u, r ← _check_membership u e v st p; Ok (if allowed r then {[u]} ∪ acc else acc)) l acc = Ok S ∧
      ∀ u, u ∈ S ↔ u ∈ acc ∨ u ∈ l ∧ allowed <$> _check_membership u e v st p = Ok true).
  { induction l as [|x l IH]; intros acc Hx; cbn [fold_res].
    - exists acc. split; [done|]. intros u. split; [by left|]. by intros [?|[?%not_elem_of_nil _]].
    - destruct (Hx x) as [r Hr]; [by left|]. rewrite Hr. cbn [mbind result_bind].
      destruct (IH (if allowed r then {[x]} ∪ acc else acc)) as (S & -> & HS); [intros u Hu; apply Hx; by right|].
      exists S. split; [done|]. intros u. rewrite HS, elem_of_cons.
      assert (Hux : u = x → allowed <$> _check_membership u e v st p = Ok true ↔ allowed r = true)
        by (intros ->; rewrite Hr; simpl; split; congruence).
      destruct (allowed r); [rewrite elem_of_union, elem_of_singleton|]; destruct (decide (u = x)) as [Hd|Hd];
        specialize (Hux Hd) || clear Hux; intuition congruence. }
  destruct (Hl (set_iter U) ∅) as (S & HS & HSu); [intros u; rewrite elem_of_set_iter; apply HU|].
  exists S. split; [done|]. intros u. rewrite HSu, elem_of_set_iter. set_solver.
Qed.

(** The check of one user, as [filter_events_for_client] makes it. *)
Definition sees (e : VEvent) (is_peeking send : bool) (u : string) : Prop :=
  ∃ o, _check_client_allowed_to_see_event u e time_msec send is_peeking ∅
         (bool_decide (u ∈ ignored_by (sender (attrs e)))) (get_retention_policy_for_room (room_id (attrs e)))
         (Some (state_at db full e)) false = Ok (Some o).

Lemma elem_of_sendable users e send u :
  u ∈ sendable_to users e send ↔ u ∈ users ∧
    send && bool_decide (_check_filter_send_to_client e time_msec (get_retention_policy_for_room (room_id e))
                           (bool_decide (u ∈ ignored_by (sender e))) = DENIED) = false.
Proof.
  unfold sendable_to. destruct send; simpl.
  - rewrite elem_of_filter, elem_of_list_to_set, bool_decide_eq_false. naive_solver.
  - rewrite elem_of_list_to_set. naive_solver.
Qed.

(** What the check amounts to for a user to whom the event may be sent. *)
Lemma sees_cases e p send users u :
  readable e → readable_state (state_at db full e) →
  (u ∈ users ∧ sees e p send u ↔
   u ∈ sendable_to users (attrs e) send ∧
   if v_outlier e then own u e
   else _check_history_visibility e (get_effective_room_visibility_from_state (state_at db full e)) p = Ok ALLOWED ∨
        allowed <$> _check_membership u e (get_effective_room_visibility_from_state (state_at db full e))
          (state_at db full e) p = Ok true).
Proof.
  intros He Hst. rewrite elem_of_sendable. unfold sees, _check_client_allowed_to_see_event.
  destruct (send && bool_decide _) eqn:Hs; [naive_solver|]. rewrite bool_decide_false by set_solver.
  destruct (v_outlier e) eqn:Ho.
  - rewrite is_own_ok by done. cbn [mbind result_bind]. destruct (bool_decide_reflect (own u e)) as [Hown|Hown].
    + split; [intros [? _]; auto|]. intros [[? _] _]. split; [done|]. by eexists.
    + split; [intros [_ [o ?]]; done|]. by intros [_ ?].
  - destruct (check_history_spec e _ p He (effective_in (state_at db full e))) as (h & -> & _). cbn [mbind result_bind].
    destruct (check_membership_spec u e _ p He Hst) as (r & -> & _). cbn [mbind result_bind].
    change (allowed <$> Ok r) with (Ok (allowed r)). destruct h.
    { split; [intros [? _]; auto|]. intros [[? _] _]. split; [done|]. by eexists. }
    destruct (allowed r); cbn [negb andb].
    + split; [intros [? _]; auto|]. intros [[? _] _]. split; [done|]. by eexists.
    + split; [intros [_ [o ?]]; done|]. intros [_ [?|?]]; done.
Qed.

(** Checking an event for many users at once, by way of the state that the event
    context gives, lets exactly those users see it for whom the check of the single user
    lets it through; nobody sees it if it was soft-failed. *)
Theorem many_users_agree users e p send :
  readable e → readable_state (state_at db full e) →
  ∃ S, filter_event_for_clients_with_state users e ctx p send = Ok S ∧
    ∀ u, u ∈ S ↔ is_soft_failed e = false ∧ u ∈ users ∧ sees e p send u.
Proof.
  intros He Hst. unfold filter_event_for_clients_with_state.
  destruct (is_soft_failed e); [exists ∅; split; [done|]; set_solver|].
  case_bool_decide as Hu; [exists ∅; split; [done|]; intros u; subst; set_solver|].
  setoid_rewrite (λ u, sees_cases e p send users u He Hst).
  destruct (v_outlier e) eqn:Ho.
  - destruct (decide (type (attrs e) = EventTypes.Member)) as [Ht|Ht].
    + rewrite bool_decide_true by done. destruct (readable_key e He Ht) as [k Hk].
      assert (Hsk : state_key (attrs e) = Ok k) by (by apply state_key_ok). rewrite Hsk. cbn [mbind result_bind].
      eexists. split; [done|]. intros u. unfold own. rewrite Hk. case_bool_decide; set_solver.
    + rewrite bool_decide_false by done. exists ∅. split; [done|]. unfold own. set_solver.
  - destruct (get_state_map_spec e (from_types [(_HISTORY_VIS_KEY.1, Some _HISTORY_VIS_KEY.2)])) as (m1 & -> & Hm1).
    cbn [mbind result_bind]. rewrite (effective_cong m1 (state_at db full e)).
    2: { apply Hm1. apply from_types_matches. right. by left. }
    destruct (check_history_spec e _ p He (effective_in (state_at db full e))) as (h & -> & _). cbn [mbind result_bind].
    destruct h; [exists (sendable_to users (attrs e) send); split; [done|]; naive_solver|].
    match goal with |- context [_get_state_map e ctx ?f] => destruct (get_state_map_spec e f) as (m2 & -> & Hm2) end.
    cbn [mbind result_bind].
    assert (Hcong : ∀ u, u ∈ sendable_to users (attrs e) send → ∀ v,
      _check_membership u e v m2 p = _check_membership u e v (state_at db full e) p).
    { intros u Hin v. apply check_membership_cong, Hm2, from_types_matches. right. apply elem_of_app. left.
      apply list_elem_of_fmap. exists u. by rewrite elem_of_set_iter. }
    edestruct members_allowed_spec as (S & -> & HS).
    { intros u Hin. rewrite Hcong by done. destruct (check_membership_spec u e _ p He Hst) as (r & -> & _). by exists r. }
    exists S. split; [done|]. intros u. rewrite HS. split.
    + intros [Hin Ha]. rewrite Hcong in Ha by done. auto.
    + intros (_ & Hin & [?|Ha]); [done|]. split; [done|]. by rewrite Hcong.
Qed.
End many.

(** ** Many events *)

Section events.
Context `{VisibilityStore} `{!IterOrder, !IterOrderOk _}.

(** The events that were not soft-failed. *)
Definition relayed (events : list VEvent) : list VEvent := filter (λ e, is_soft_failed e = false) events.

(** The check of each event with the retention policy of its own room. *)
Definition check_in_room (user_id : string) (events : list VEvent) (is_peeking : bool) (always : gset string)
    (e : VEvent) : result (option FrozenEvent) :=
  _check_client_allowed_to_see_event user_id e time_msec true is_peeking always
    (bool_decide (sender (attrs e) ∈ ignored_users user_id)) (get_retention_policy_for_room (room_id (attrs e)))
    (get_state_for_events (ids_of (with_state events))
       (from_types [(EventTypes.RoomHistoryVisibility, Some ""); (EventTypes.Member, Some user_id)])
       !! event_id (attrs e))
    (default false (are_users_erased (senders_of events) !! sender (attrs e))).

Lemma map_res_ext {A B} (f g : A → result B) l : (∀ x, x ∈ l → f x = g x) → map_res f l = map_res g l.
Proof.
  induction l as [|x l IH]; intros Hfg; [done|]. cbn [map_res]. rewrite Hfg by (by left).
  rewrite IH; [done|]. intros y Hy. apply Hfg. by right.
Qed.

Lemma lookup_tabulated {A} (f : string → A) l k :
  k ∈ l → (list_to_map ((λ r, (r, f r)) <$> l) : gmap string A) !! k = Some (f k).
Proof.
  induction l as [|x l IH]; [by intros ?%not_elem_of_nil|]. intros Hk. simpl.
  destruct (decide (x = k)) as [->|Hne]; [by rewrite lookup_insert_eq|]. rewrite lookup_insert_ne by done.
  apply IH. set_solver.
Qed.

(** The policy that is used is that of the room that the loop saw last. *)
Lemma policy_of_last_room events r :
  last (set_iter (rooms_of events)) = Some r →
  policy_in_use (fetched_policies true events) = Ok (get_retention_policy_for_room r).
Proof.
  intros Hr. unfold fetched_policies, policy_in_use. rewrite Hr.
  rewrite lookup_tabulated; [done|]. by apply last_Some_elem_of.
Qed.

Lemma rooms_of_one events r e :
  (∀ e, e ∈ events → room_id (attrs e) = r) → e ∈ events → set_iter (rooms_of events) = [r].
Proof.
  intros Hr He. assert (Hrooms : rooms_of events = {[r]}).
  { apply set_eq. intros x. unfold rooms_of. rewrite elem_of_list_to_set, list_elem_of_In, in_map_iff, elem_of_singleton.
    setoid_rewrite <- list_elem_of_In. split; [intros (y & <- & Hy); by apply Hr|]. intros ->. exists e. split; [by apply Hr|done]. }
  apply Permutation_singleton_r. by rewrite set_iter_perm, Hrooms, elements_singleton.
Qed.

(** Of events of one room, a client is sent those that were not soft-failed and that
    the check lets through, in their order, each judged by the state at the event and the
    retention policy of its room. *)
Theorem client_filter_one_room user_id events is_peeking always r :
  (∀ e, e ∈ events → room_id (attrs e) = r) →
  filter_events_for_client user_id events is_peeking always true =
    (l ← map_res (check_in_room user_id (relayed events) is_peeking always) (relayed events); Ok (present l)).
Proof.
  intros Hr. unfold filter_events_for_client. fold (relayed events).
  erewrite map_res_ext; [reflexivity|]. intros e He. cbv beta.
  rewrite (policy_of_last_room (relayed events) r).
  2: { rewrite (rooms_of_one _ r e); [done| |done]. intros x [_ Hx]%list_elem_of_filter. by apply Hr. }
  cbn [mbind result_bind]. unfold check_in_room. rewrite Hr; [done|]. by apply list_elem_of_filter in He as [_ ?].
Qed.

(** Asking not to apply the checks for sending ends in an exception, as soon as
    there is an event to judge: the retention policies are read without having been
    fetched. *)
Theorem unsent_filter_raises user_id events is_peeking always e :
  e ∈ events → is_soft_failed e = false →
  filter_events_for_client user_id events is_peeking always false = Err (PyBuiltin NameError).
Proof.
  intros He Hs. unfold filter_events_for_client. fold (relayed events).
  assert (Hr : e ∈ relayed events) by (by apply list_elem_of_filter).
  destruct (relayed events) as [|x l]; [by apply not_elem_of_nil in Hr|]. done.
Qed.
End events.
