(* ===== verification/VisibilityServer.v ===== *)
(** * Which events another server may see: [filter_events_for_server] *)

From S2P Require Import Prelude PyVal Constants RoomVersions Ids Events EventObjects Redaction StateFilter StateFilterProps TopoSort StateResV1 StateResV1Props Visibility VisibilityProps.

(** What the store promises: it returns the events and the state it has, and says of every
    user it is asked about whether the user was erased. *)
Class ServerStoreLaws `(VisibilityStore) (db : gmap string Event) (state_ids : string → StateMap string)
    (erased : string → bool) : Prop := {
  srv_events :: EventStoreLaws _ db;
  get_state_ids_ok X f id :
    get_state_ids_for_events X f !! id = if decide (id ∈ X) then Some (filter_state f (state_ids id)) else None;
  are_users_erased_ok X u : are_users_erased X !! u = if decide (u ∈ X) then Some (erased u) else None
}.

(** The stored state is made of stored events under their keys; what is read of them has
    the expected type. *)
Record stored (db : gmap string Event) (state_ids : string → StateMap string) : Prop := {
  stored_key id k i : state_ids id !! k = Some i → ∃ ev, db !! i = Some ev ∧ event_key ev = Ok k;
  stored_id id k i : state_ids id !! k = Some i → i ≠ "";
  stored_vis id i ev : state_ids id !! _HISTORY_VIS_KEY = Some i → db !! i = Some ev →
    ∃ v, get_or "history_visibility" (JStr HistoryVisibility.SHARED) (content ev) = JStr v;
  stored_membership id u i ev : state_ids id !! (EventTypes.Member, u) = Some i → db !! i = Some ev →
    is_ok (membership ev) = true
}.

Section server.
Context `{ServerStoreLaws} `{!IterOrder, !IterOrderOk _}.

(** The history visibility at an event; outliers count as shared. *)
Definition vis_at (e : VEvent) : string :=
  if v_outlier e then HistoryVisibility.SHARED
  else match state_ids (event_id (attrs e)) !! _HISTORY_VIS_KEY ≫= (λ i, db !! i) with
       | None => HistoryVisibility.SHARED
       | Some ev =>
           match get_or "history_visibility" (JStr HistoryVisibility.SHARED) (content ev) with
           | JStr v => v
           | _ => HistoryVisibility.SHARED
           end
       end.

(** A user of the server has the membership [m] in the state at the event. *)
Definition has_member (server m : string) (e : VEvent) : Prop :=
  ∃ u i ev, state_ids (event_id (attrs e)) !! (EventTypes.Member, u) = Some i ∧ db !! i = Some ev ∧
    get_domain_from_id u = Ok server ∧ membership ev = Ok (JStr m).

(** The rule for servers. *)
Definition open_to_server (server : string) (e : VEvent) : Prop :=
  (vis_at e ≠ HistoryVisibility.INVITED ∧ vis_at e ≠ HistoryVisibility.JOINED) ∨
  has_member server Membership.JOIN e ∨
  vis_at e = HistoryVisibility.INVITED ∧ has_member server Membership.INVITE e.

(** From another server, in a room of which the state is not complete. *)
Definition of_partial_room (local_server : string) (e : VEvent) : Prop :=
  get_domain_from_id (sender (attrs e)) ≠ Ok local_server ∧ is_partial_state_room (room_id (attrs e)) = true.

Definition server_may_see (server local_server : string) (filter_erased filter_partial : bool) (e : VEvent) : Prop :=
  open_to_server server e ∧ (filter_erased = true → erased (sender (attrs e)) = false) ∧
  (filter_partial = true → ¬ of_partial_room local_server e).

(** ** The parts *)

Context (events : list VEvent) (Hids : ∀ e e', e ∈ events → e' ∈ events →
  event_id (attrs e) = event_id (attrs e') → e = e') (Hst : stored db state_ids).

Lemma elem_of_ids l e : e ∈ l → event_id (attrs e) ∈ ids_of l.
Proof. intros He. unfold ids_of. apply elem_of_list_to_set, list_elem_of_In, in_map_iff. exists e. by rewrite <- list_elem_of_In. Qed.

Lemma elem_of_ids_with_state e : e ∈ events → event_id (attrs e) ∈ ids_of (with_state events) ↔ v_outlier e = false.
Proof.
  intros He. unfold ids_of. rewrite elem_of_list_to_set, list_elem_of_In, in_map_iff. setoid_rewrite <- list_elem_of_In.
  unfold with_state. setoid_rewrite list_elem_of_filter. split.
  - intros (e' & Hid & Ho & He'). by rewrite <- (Hids e' e He' He Hid).
  - intros Ho. by exists e.
Qed.

Lemma vis_filter_matches : matches (from_types [(_HISTORY_VIS_KEY.1, Some _HISTORY_VIS_KEY.2)]) _HISTORY_VIS_KEY = true.
Proof. apply from_types_matches. right. by left. Qed.

(** The dict of visibilities. *)
Lemma history_vis_spec :
  ∃ m, _event_to_history_vis events = Ok m ∧ ∀ e, e ∈ events → m !! event_id (attrs e) = Some (vis_at e).
Proof.
  unfold _event_to_history_vis. set (S := get_state_ids_for_events _ _). set (V := get_events _).
  assert (Hone : ∀ e, e ∈ events → history_vis_of S V e = Ok (vis_at e)).
  { intros e He. unfold history_vis_of, vis_at. unfold S at 1. rewrite get_state_ids_ok. case_decide as Hin.
    - apply elem_of_ids_with_state in Hin; [|done]. rewrite Hin. cbn [mbind option_bind].
      rewrite lookup_filter_state, vis_filter_matches.
      destruct (state_ids (event_id (attrs e)) !! _HISTORY_VIS_KEY) as [i|] eqn:Hi; [|done].
      rewrite bool_decide_false by (by eapply stored_id). destruct (stored_key _ _ Hst _ _ _ Hi) as (ev & Hev & _).
      assert (HV : V !! i = Some ev).
      { unfold V. rewrite get_events_ok, decide_True; [done|]. apply elem_of_filter. split; [by eapply stored_id|].
        apply elem_of_list_to_set, list_elem_of_omap. exists (event_id (attrs e), filter_state (from_types [(_HISTORY_VIS_KEY.1, Some _HISTORY_VIS_KEY.2)]) (state_ids (event_id (attrs e)))).
        split; [|cbn [snd]; by rewrite lookup_filter_state, vis_filter_matches]. apply elem_of_map_to_list. unfold S.
        rewrite get_state_ids_ok, decide_True; [done|]. by apply elem_of_ids_with_state. }
      rewrite HV. cbn [mbind result_bind option_bind]. rewrite Hev.
      by destruct (stored_vis _ _ Hst _ _ _ Hi Hev) as [v ->].
    - rewrite elem_of_ids_with_state in Hin by done. by destruct (v_outlier e). }
  assert (Hl : ∀ (l : list VEvent) (m : gmap string string), (∀ e, e ∈ l → e ∈ events) →
    ∃ m', fold_res (λ r e, vis ← history_vis_of S V e; Ok (<[event_id (attrs e) := vis]> r)) l m = Ok m' ∧
      (∀ e, e ∈ l → m' !! event_id (attrs e) = Some (vis_at e)) ∧
      (∀ e, e ∈ events → m !! event_id (attrs e) = Some (vis_at e) → m' !! event_id (attrs e) = Some (vis_at e))).
  { induction l as [|e l IH]; intros m Hsub; cbn [fold_res].
    - exists m. split_and!; [done|by intros e ?%not_elem_of_nil|done].
    - rewrite Hone by (apply Hsub; by left). cbn [mbind result_bind].
      destruct (IH (<[event_id (attrs e) := vis_at e]> m)) as (m' & -> & H3 & H4); [intros x Hx; apply Hsub; by right|].
      exists m'. split_and!; [done| |].
      + intros x [->|Hx]%elem_of_cons; [|by apply H3]. apply H4; [apply Hsub; by left|apply lookup_insert_eq].
      + intros x Hx Hm. apply H4; [done|]. destruct (decide (event_id (attrs x) = event_id (attrs e))) as [E|E].
        * rewrite E, lookup_insert_eq. f_equal. f_equal. symmetry. apply Hids; [done|apply Hsub; by left|done].
        * by rewrite lookup_insert_ne. }
  destruct (Hl events ∅) as (m & -> & Hm & _); [done|]. by exists m.
Qed.

(** The events of partial rooms. *)
Lemma partial_spec local :
  (∀ e, e ∈ events → is_ok (get_domain_from_id (sender (attrs e))) = true) →
  ∃ P, partial_state_invisible local events = Ok P ∧
    ∀ e, e ∈ events → event_id (attrs e) ∈ P ↔ of_partial_room local e.
Proof.
  intros Hdom. unfold partial_state_invisible.
  assert (Hl : ∀ (l : list VEvent) (P : gset string), (∀ e, e ∈ l → e ∈ events) →
    ∃ P', fold_res (λ ids e, d ← get_domain_from_id (sender (attrs e));
        Ok (if negb (bool_decide (d = local)) && is_partial_state_room (room_id (attrs e))
            then {[event_id (attrs e)]} ∪ ids else ids)) l P = Ok P' ∧
      ∀ e, e ∈ events → event_id (attrs e) ∈ P' ↔ event_id (attrs e) ∈ P ∨ e ∈ l ∧ of_partial_room local e).
  { induction l as [|x l IH]; intros P Hsub; cbn [fold_res].
    - exists P. split; [done|]. intros e He. split; [by left|]. by intros [?|[?%not_elem_of_nil _]].
    - assert (Hx : x ∈ events) by (apply Hsub; by left). specialize (Hdom x Hx) as Hd.
      destruct (get_domain_from_id (sender (attrs x))) as [d|] eqn:Ed; [|done]. cbn [mbind result_bind].
      assert (Hsub' : ∀ e, e ∈ l → e ∈ events) by (intros y Hy; apply Hsub; by right).
      match goal with |- context [fold_res _ l ?Q] => destruct (IH Q Hsub') as (P' & -> & HP') end.
      exists P'. split; [done|]. intros e He. rewrite (HP' e He), elem_of_cons.
      assert (Hpx : negb (bool_decide (d = local)) && is_partial_state_room (room_id (attrs x)) = true ↔ of_partial_room local x).
      { unfold of_partial_room. rewrite Ed, andb_true_iff, negb_true_iff, bool_decide_eq_false. naive_solver. }
      clear Hsub Hsub' HP' IH Hdom. destruct (decide (event_id (attrs e) = event_id (attrs x))) as [E|Hne].
      + assert (e = x) as -> by (by apply Hids). destruct (_ && _); [rewrite elem_of_union, elem_of_singleton|]; intuition congruence.
      + assert (e ≠ x) by congruence. destruct (_ && _); [rewrite elem_of_union, elem_of_singleton|]; tauto. }
  destruct (Hl events ∅) as (P & -> & HP); [done|]. exists P. split; [done|]. intros e He. rewrite (HP e He). set_solver.
Qed.

Lemma include_domain server u : include server u = true ↔ get_domain_from_id u = Ok server.
Proof.
  unfold include, get_domain_from_id. destruct (str_find ":" u) as [n|]; [|done].
  rewrite bool_decide_eq_true. naive_solver.
Qed.

(** The dict from event ids to keys. *)
Definition key_dict (l : list (string * StateMap string)) (d : gmap string (string * string)) : gmap string (string * string) :=
  foldl (λ d kv, foldl (λ d ki, <[ki.2 := ki.1]> d) d (V1.items kv.2)) d l.

Lemma key_items (l : list ((string * string) * string)) d i :
  let d' : gmap string (string * string) := foldl (λ d ki, <[ki.2 := ki.1]> d) d l in
  (∀ k, d' !! i = Some k → (k, i) ∈ l ∨ d !! i = Some k) ∧
  (i ∈ l.*2 ∨ is_Some (d !! i) → is_Some (d' !! i)).
Proof.
  revert d. induction l as [|[k0 i0] l IH]; intros d; cbn zeta; cbn [foldl].
  { split; [auto|]. by intros [?%not_elem_of_nil|?]. }
  destruct (IH (<[i0 := k0]> d)) as [I1 I2]. split.
  - intros k [?|Hk]%I1; [left; by right|]. apply lookup_insert_Some in Hk as [[-> ->]|[_ ?]]; [left; by left|by right].
  - intros Hi. apply I2. destruct (decide (i = i0)) as [->|Hne]; [right; by rewrite lookup_insert_eq|].
    rewrite lookup_insert_ne by done. destruct Hi as [[?|?]%elem_of_cons|?]; [done|by left|by right].
Qed.

Lemma key_dict_spec l d i :
  (∀ k, key_dict l d !! i = Some k → (∃ id st, (id, st) ∈ l ∧ st !! k = Some i) ∨ d !! i = Some k) ∧
  ((∃ id st k, (id, st) ∈ l ∧ st !! k = Some i) ∨ is_Some (d !! i) → is_Some (key_dict l d !! i)).
Proof.
  revert d. unfold key_dict. induction l as [|[id st] l IH]; intros d; cbn [foldl].
  { split; [auto|]. intros [(? & ? & ? & ?%not_elem_of_nil & _)|?]; done. }
  destruct (key_items (V1.items st) d i) as [K1 K2]. cbn zeta in *. cbn [snd]. destruct (IH (foldl (λ d ki, <[ki.2 := ki.1]> d) d (V1.items st))) as [I1 I2]. split.
  - intros k [(id' & st' & Hin & Hk)|Hk]%I1.
    + left. exists id', st'. split; [by right|done].
    + apply K1 in Hk as [Hk%elem_of_items|?]; [left; exists id, st; split; [by left|done]|by right].
  - intros Hi. apply I2. destruct Hi as [(id' & st' & k & [E|Hin]%elem_of_cons & Hk)|Hi].
    + right. apply K2. left. assert (st' = st) as -> by congruence. apply list_elem_of_fmap.
      exists (k, i). split; [done|]. by apply elem_of_items.
    + left. by exists id', st', k.
    + right. apply K2. by right.
Qed.

Lemma member_filter_matches k : matches (from_types [(EventTypes.Member, None)]) k = true ↔ k.1 = EventTypes.Member.
Proof.
  destruct k as [t u]. rewrite from_types_matches, !list_elem_of_singleton. simpl. naive_solver.
Qed.

(** The memberships of the server's users at an event. *)
Lemma memberships_spec restricted server e :
  e ∈ restricted →
  ∃ M, _event_to_memberships restricted server !! event_id (attrs e) = Some M ∧
    ∀ k ev, M !! k = Some ev ↔
      k.1 = EventTypes.Member ∧ get_domain_from_id k.2 = Ok server ∧
      ∃ i, state_ids (event_id (attrs e)) !! k = Some i ∧ db !! i = Some ev.
Proof.
  intros He. unfold _event_to_memberships. rewrite bool_decide_false by (intros ->; by apply not_elem_of_nil in He).
  set (S := get_state_ids_for_events _ _). fold (key_dict (dict_items S) ∅). set (D := key_dict _ _).
  set (E := get_events _). rewrite lookup_fmap. unfold S at 1. rewrite get_state_ids_ok, decide_True by (by apply elem_of_ids).
  eexists. split; [done|]. intros k ev. rewrite lookup_omap, lookup_filter_state.
  destruct (matches _ k) eqn:Hk; [apply member_filter_matches in Hk|].
  2: { split; [done|]. intros [Hm _]. apply member_filter_matches in Hm. congruence. }
  destruct (state_ids (event_id (attrs e)) !! k) as [i|] eqn:Hi; [|naive_solver]. cbn [mbind option_bind].
  destruct (stored_key _ _ Hst _ _ _ Hi) as (ev0 & Hev0 & Hk0). unfold E. rewrite get_events_ok.
  assert (HD : D !! i = Some k).
  { destruct (key_dict_spec (dict_items S) ∅ i) as [D1 D2]. fold D in D1, D2. destruct D2 as [k' Hk'].
    - left. exists (event_id (attrs e)), (filter_state (from_types [(EventTypes.Member, None)]) (state_ids (event_id (attrs e)))), k.
      split; [rewrite dict_items_perm; apply elem_of_map_to_list; unfold S; rewrite get_state_ids_ok, decide_True by (by apply elem_of_ids); done|].
      rewrite lookup_filter_state. assert (Hm : matches (from_types [(EventTypes.Member, None)]) k = true) by (by apply member_filter_matches).
      by rewrite Hm.
    - destruct (D1 k' Hk') as [(id' & st' & Hin & Hst')|?]; [|done]. rewrite dict_items_perm in Hin.
      apply elem_of_map_to_list in Hin. unfold S in Hin. rewrite get_state_ids_ok in Hin. case_decide; [|done].
      assert (st' = filter_state (from_types [(EventTypes.Member, None)]) (state_ids id')) as -> by congruence.
      rewrite lookup_filter_state in Hst'. case_match; [|done].
      destruct (stored_key _ _ Hst _ _ _ Hst') as (ev' & Hev' & Hk''). congruence. }
  assert (Hin : i ∈ (list_to_set (omap (λ ik : string * (string * string), if include server ik.2.2 then Some ik.1 else None) (dict_items D)) : gset string)
    ↔ get_domain_from_id k.2 = Ok server).
  { rewrite <- include_domain, elem_of_list_to_set, list_elem_of_omap. split.
    - intros ([i' k'] & Hik & Hi'). rewrite dict_items_perm in Hik. apply elem_of_map_to_list in Hik. cbn [fst snd] in *.
      destruct (include server k'.2) eqn:Hinc; [|done]. assert (i' = i) as -> by congruence. congruence.
    - intros Hinc. exists (i, k). cbn [fst snd]. rewrite Hinc. split; [|done]. rewrite dict_items_perm. by apply elem_of_map_to_list. }
  case_decide as Hd.
  - rewrite Hev0. rewrite Hin in Hd. split.
    + intros E'. split; [done|]. split; [done|]. exists i. split; [done|congruence].
    + intros (_ & _ & i' & E1 & E2). congruence.
  - rewrite Hin in Hd. split; [done|]. intros (_ & ? & _). done.
Qed.

(** The loop over the memberships. *)
Lemma server_member_spec server v l :
  (∀ ev, ev ∈ l → is_ok (membership ev) = true ∧ ∃ u, state_key ev = Ok u ∧ get_domain_from_id u = Ok server) →
  ∃ b, server_member server v l = Ok b ∧
    (b = true ↔ ∃ ev, ev ∈ l ∧ (membership ev = Ok (JStr Membership.JOIN) ∨
       v = HistoryVisibility.INVITED ∧ membership ev = Ok (JStr Membership.INVITE))).
Proof.
  assert (Heq : ∀ j s, eq_str j s = true ↔ j = JStr s).
  { intros j s. destruct j; simpl; try (split; congruence). rewrite bool_decide_eq_true. naive_solver. }
  induction l as [|ev l IH]; intros Hl; cbn [server_member].
  { exists false. split; [done|]. split; [done|]. by intros (ev & ?%not_elem_of_nil & _). }
  destruct (Hl ev) as (Hm & u & -> & Hu); [by left|]. cbn [mbind result_bind]. rewrite Hu. cbn [mbind result_bind].
  cbn [negb raise_if]. rewrite (bool_decide_true (server = server)) by done. cbn [negb raise_if mbind result_bind].
  destruct (membership ev) as [j|] eqn:Hj; [|done]. cbn [mbind result_bind].
  destruct (eq_str j Membership.JOIN) eqn:E1.
  { exists true. split; [done|]. split; [|done]. intros _. exists ev. apply Heq in E1. subst. split; [by left|by left]. }
  destruct (eq_str j Membership.INVITE && _) eqn:E2.
  { apply andb_true_iff in E2 as [E2%Heq E3%bool_decide_eq_true]. exists true. split; [done|]. split; [|done]. intros _.
    exists ev. subst. split; [by left|by right]. }
  destruct IH as (b & -> & Hb); [intros x Hx; apply Hl; by right|]. exists b. split; [done|]. rewrite Hb.
  setoid_rewrite elem_of_cons. split; [intros (x & Hx & ?); eauto|]. intros (x & [->|Hx] & Hor); [|eauto]. exfalso.
  destruct Hor as [Hor|[Hv Hor]]; rewrite Hj in Hor.
  - assert (j = JStr Membership.JOIN) as E by congruence. apply Heq in E. congruence.
  - assert (j = JStr Membership.INVITE) as E by congruence. apply Heq in E.
    rewrite E, bool_decide_true in E2 by done. done.
Qed.

(** ** The theorem *)

Lemma check_visible_spec restricted server e :
  (vis_at e ∈ [HistoryVisibility.INVITED; HistoryVisibility.JOINED] → e ∈ restricted) →
  ∃ b, check_event_is_visible server (vis_at e)
         (default ∅ (_event_to_memberships restricted server !! event_id (attrs e))) = Ok b ∧
    (b = true ↔ open_to_server server e).
Proof.
  intros Hr. unfold check_event_is_visible, open_to_server.
  destruct (bool_decide_reflect (vis_at e ∈ [HistoryVisibility.INVITED; HistoryVisibility.JOINED])) as [Hv|Hv]; cbn [negb].
  2: { exists true. split; [done|]. rewrite !elem_of_cons in Hv. split; [|done]. intros _. left. tauto. }
  destruct (memberships_spec restricted server e (Hr Hv)) as (M & -> & HM). change (default ∅ (Some M)) with M.
  destruct (server_member_spec server (vis_at e) (V1.items M).*2) as (b & -> & Hb).
  { intros ev ([k ev'] & -> & Hk%elem_of_items)%list_elem_of_fmap. cbn [snd].
    apply HM in Hk as (Hm & Hd & i & Hi & Hev). destruct k as [t u]. cbn [fst snd] in *. subst t.
    destruct (stored_key _ _ Hst _ _ _ Hi) as (ev'' & Hev'' & Hkey). assert (ev'' = ev') as -> by congruence.
    apply event_key_ok in Hkey as [_ Hsk]. split; [by eapply stored_membership|]. exists u. split; [by apply state_key_ok|done]. }
  exists b. split; [done|]. rewrite Hb.
  assert (Hmem : ∀ m, (∃ ev, ev ∈ (V1.items M).*2 ∧ membership ev = Ok (JStr m)) ↔ has_member server m e).
  { intros m. unfold has_member. split.
    - intros (ev & ([[t u] ev'] & -> & Hk%elem_of_items)%list_elem_of_fmap & Hev). cbn [snd] in *.
      apply HM in Hk as (Hm & Hd & i & Hi & Hdb). cbn [fst snd] in *. subst t. by exists u, i, ev'.
    - intros (u & i & ev & Hi & Hdb & Hd & Hev). exists ev. split; [|done]. apply list_elem_of_fmap.
      exists ((EventTypes.Member, u), ev). split; [done|]. apply elem_of_items, HM. eauto. }
  rewrite <- !Hmem. rewrite !elem_of_cons in Hv. split.
  - intros (ev & Hev & [?|[? ?]]); right; [left; eauto|right; eauto].
  - intros [[? ?]|[(ev & ? & ?)|[? (ev & ? & ?)]]]; [|by exists ev; auto..].
    destruct Hv as [?|[?|?%not_elem_of_nil]]; done.
Qed.

(** C29: another server is sent the events that it may see by the rule [server_may_see],
    which reads the state at the event: the history is not restricted, or a user of the
    server is in the room (or invited, where the invited may read); not, if asked for, the
    events of erased senders and those from elsewhere in a room whose state is not
    complete.  The others are redacted or left out, as the caller asks. *)
Theorem server_filter_spec server local redact filter_erased filter_partial :
  (∀ e, e ∈ events → is_ok (get_domain_from_id (sender (attrs e))) = true) →
  ∃ may_see : VEvent → bool,
    (∀ e, e ∈ events → may_see e = true ↔ server_may_see server local filter_erased filter_partial e) ∧
    filter_events_for_server server local events redact filter_erased filter_partial =
      (l ← map_res (λ e, if may_see e then Ok (Some (object e))
                         else if redact then Some <$> prune_event (object e) else Ok None) events;
       Ok (present l)).
Proof.
  intros Hdom. unfold filter_events_for_server.
  destruct (partial_spec local Hdom) as (P0 & HP0 & HP).
  assert (Hp : ∃ P : gset string, (if filter_partial then partial_state_invisible local events else Ok ∅) = Ok P ∧
    ∀ e, e ∈ events → event_id (attrs e) ∈ P ↔ filter_partial = true ∧ of_partial_room local e).
  { destruct filter_partial; [exists P0; split; [done|]; intros e He; rewrite (HP e He); tauto|].
    exists ∅. split; [done|]. set_solver. }
  clear P0 HP0 HP. destruct Hp as (P & -> & HP). cbn [mbind result_bind].
  destruct history_vis_spec as (V & -> & HV). cbn [mbind result_bind].
  set (er := if filter_erased then _ else _). set (restricted := filter _ events).
  assert (Hinc : ∀ e, e ∈ events → ∃ b,
    include_event_in_output server er V (_event_to_memberships restricted server) P e = Ok b ∧
    (b = true ↔ server_may_see server local filter_erased filter_partial e)).
  { intros e He. unfold include_event_in_output.
    assert (Her : is_sender_erased e er = Ok (filter_erased && erased (sender (attrs e)))).
    { unfold is_sender_erased, er. destruct filter_erased; [|done].
      assert (Hs : sender (attrs e) ∈ senders_of events).
      { unfold senders_of. apply elem_of_list_to_set, list_elem_of_In, in_map_iff. exists e. by rewrite <- list_elem_of_In. }
      rewrite bool_decide_false, are_users_erased_ok, decide_True; [done..|].
      intros E. assert (Hn : are_users_erased (senders_of events) !! sender (attrs e) = None) by (by rewrite E).
      rewrite are_users_erased_ok, decide_True in Hn; done. }
    rewrite Her. cbn [mbind result_bind]. rewrite (HV e He). cbn [mbind result_bind].
    destruct (check_visible_spec restricted server e) as (b & -> & Hb).
    { intros Hv. unfold restricted. apply list_elem_of_filter. split; [|done]. rewrite (HV e He).
      apply negb_true_iff, bool_decide_eq_false. rewrite !elem_of_cons in *. intros Hv'.
      destruct Hv as [E|[E|?%not_elem_of_nil]], Hv' as [E'|[E'|?%not_elem_of_nil]]; try done; rewrite E in E'; done. }
    cbn [mbind result_bind]. eexists. split; [done|]. unfold server_may_see. rewrite <- Hb, andb_true_iff, negb_true_iff.
    specialize (HP e He). destruct (bool_decide_reflect (event_id (attrs e) ∈ P)) as [Hi|Hi]; rewrite HP in Hi;
      destruct filter_erased, (erased (sender (attrs e))); simpl; intuition congruence. }
  exists (λ e, match include_event_in_output server er V (_event_to_memberships restricted server) P e with
               | Ok b => b | Err _ => false end). split.
  - intros e He. destruct (Hinc e He) as (b & -> & Hb). done.
  - erewrite map_res_ext; [done|]. intros e He. cbv beta. destruct (Hinc e He) as (b & -> & _). done.
Qed.
End server.
