(* ===== verification/VisibilityExamples.v ===== *)
(** * Who may see an event: witnesses and a counterexample

    Two rooms: in [!a:x] events are kept for ever, in [!b:x] for an hour. *)

From S2P Require Import Prelude PyVal Constants RoomVersions Ids Events EventObjects Redaction StateFilter StateFilterProps TopoSort StateResV1 StateResV1Props Visibility VisibilityProps VisibilityServer.

Definition vis_event (id room typ from : string) (skey : option string) (c : dict) (ts : Z) : VEvent :=
  let key := match skey with Some k => [("state_key", JStr k)] | None => [] end in
  {| attrs := {| event_id := id; type := typ; sender := from; room_id := room; ev_state_key := skey;
       content := c; ev_prev_events := []; ev_auth_events := []; origin_server_ts := ts; depth := 1;
       signatures := []; ev_redacts := None; room_version := RoomVersions.V10; rejected_reason := None;
       recheck_redaction := false |};
     object := {| fe_room_version := RoomVersions.V10;
       _dict := [("type", JStr typ); ("sender", JStr from); ("room_id", JStr room); ("content", JObj c);
                 ("origin_server_ts", JInt ts)] ++ key;
       fe_signatures := []; fe_unsigned := []; fe_rejected_reason := None; internal_metadata := [];
       stream_ordering := None; outlier := false |} |}.

(** A message of each room, two hours old. *)
Definition msg_a : VEvent := vis_event "$a" "!a:x" "m.room.message" "@s:x" None [("body", JStr "hi")] 0.
Definition msg_b : VEvent := vis_event "$b" "!b:x" "m.room.message" "@s:x" None [("body", JStr "ho")] 0.

Definition membership_of (id u m : string) : VEvent :=
  vis_event id "!a:x" EventTypes.Member u (Some u) [("membership", JStr m)] 0.
Definition vis_setting (v : string) : VEvent :=
  vis_event "$vis" "!a:x" EventTypes.RoomHistoryVisibility "@s:x" (Some "") [("history_visibility", JStr v)] 0.

Definition vis_db : gmap string Event := list_to_map [
  ("$vis", attrs (vis_setting HistoryVisibility.JOINED));
  ("$mu", attrs (membership_of "$mu" "@u:x" Membership.JOIN));
  ("$mw", attrs (membership_of "$mw" "@w:y" Membership.INVITE))].

Definition vis_ids : StateMap string := list_to_map [
  (_HISTORY_VIS_KEY, "$vis"); ((EventTypes.Member, "@u:x"), "$mu"); ((EventTypes.Member, "@w:y"), "$mw")].

Definition pick {A} (X : gset string) (m : string → option A) : gmap string A :=
  foldr (λ id d, match m id with Some a => <[id := a]> d | None => d end) ∅ (elements X).

Lemma lookup_pick {A} X (m : string → option A) id : pick X m !! id = if decide (id ∈ X) then m id else None.
Proof.
  unfold pick. assert (Hl : ∀ l : list string, (foldr (λ id d, match m id with Some a => <[id := a]> d | None => d end) ∅ l : gmap string A) !! id =
    if decide (id ∈ l) then m id else None).
  { induction l as [|x l IH]; [done|]. simpl. destruct (decide (x = id)) as [->|Hne].
    - rewrite (decide_True (P := id ∈ id :: l)) by (by left). destruct (m id) as [a|] eqn:Hm; simpl; [apply lookup_insert_eq|].
      rewrite IH. by case_decide.
    - destruct (m x); simpl; rewrite ?lookup_insert_ne by done; rewrite IH;
        repeat case_decide; set_solver. }
  rewrite Hl. repeat case_decide; set_solver.
Qed.

(** The clock is at two hours; nobody is ignored, and nobody erased. *)
#[local] Instance vis_store : VisibilityStore := {|
  time_msec := 7200000;
  get_state_for_events X f := pick X (λ _, Some (filter_state f (omap (λ id, vis_db !! id) vis_ids)));
  get_state_ids_for_events X f := pick X (λ _, Some (filter_state f vis_ids));
  get_events X := pick X (λ id, vis_db !! id);
  ignored_users _ := ∅;
  ignored_by _ := ∅;
  are_users_erased X := pick X (λ _, Some false);
  get_retention_policy_for_room r :=
    {| min_lifetime := None; max_lifetime := if bool_decide (r = "!b:x") then Some 3600000 else None |};
  is_partial_state_room _ := false
|}.

#[local] Instance vis_event_laws : EventStoreLaws vis_store vis_db.
Proof. intros X id. exact (lookup_pick X (λ id, vis_db !! id) id). Qed.
#[local] Instance vis_server_laws : ServerStoreLaws vis_store vis_db (λ _, vis_ids) (λ _, false).
Proof.
  split; [apply _| |].
  - intros X f id. exact (lookup_pick X (λ _, Some (filter_state f vis_ids)) id).
  - intros X u. exact (lookup_pick X (λ _, Some false) u).
Qed.

Definition vis_state : StateMap Event := omap (λ id, vis_db !! id) vis_ids.

Lemma msg_readable r : readable (vis_event r "!a:x" "m.room.message" "@s:x" None [("body", JStr "hi")] 0).
Proof. split; [by exists []|done]. Qed.

(** A decidable form of [readable_state]. *)
Lemma check_readable_state (st : StateMap Event) :
  forallb (λ ke : (string * string) * Event, is_ok (membership ke.2) || negb (bool_decide (ke.1.1 = EventTypes.Member)))
    (map_to_list st) = true → readable_state st.
Proof.
  rewrite forallb_forall. intros Hall u ev He%elem_of_map_to_list%list_elem_of_In. specialize (Hall _ He).
  cbn [fst snd] in Hall. rewrite bool_decide_true, orb_false_r in Hall; done.
Qed.

Lemma vis_state_readable : readable_state vis_state.
Proof. apply check_readable_state. by vm_compute. Qed.

(** A member sees the message, an invited user does not. *)
Lemma client_sees_iff_witness :
  _check_client_allowed_to_see_event "@u:x" msg_a 7200000 true false ∅ false
    (get_retention_policy_for_room "!a:x") (Some vis_state) false = Ok (Some (object msg_a)) ↔
  client_view "@u:x" msg_a 7200000 true false ∅ false
    (get_retention_policy_for_room "!a:x") vis_state false (Ok (Some (object msg_a))).
Proof.
  apply (client_sees_iff "@u:x" msg_a 7200000 true false ∅ false (get_retention_policy_for_room "!a:x")
           (Some vis_state) false).
  - exact (msg_readable "$a").
  - exact vis_state_readable.
  - by eexists.
Defined.

Lemma erased_sender_redacted_witness :
  ∃ o, _check_client_allowed_to_see_event "@v:x" msg_a 7200000 true false ∅ false
         (get_retention_policy_for_room "!a:x") (Some ∅) true = Ok (Some o) ∧
    ((o = object msg_a ∧ was Membership.JOIN "@v:x" msg_a ∅ ∧ ¬ own_leave "@v:x" msg_a) ∨
     (prune_event (object msg_a) = Ok o ∧ ¬ (was Membership.JOIN "@v:x" msg_a ∅ ∧ ¬ own_leave "@v:x" msg_a))).
Proof.
  exists (unwrap (object msg_a) (prune_event (object msg_a))).
  assert (Hc : _check_client_allowed_to_see_event "@v:x" msg_a 7200000 true false ∅ false
    (get_retention_policy_for_room "!a:x") (Some ∅) true = Ok (Some (unwrap (object msg_a) (prune_event (object msg_a)))))
    by (by vm_compute).
  split; [exact Hc|].
  refine (proj2 (erased_sender_redacted "@v:x" msg_a 7200000 true false ∅ false
    (get_retention_policy_for_room "!a:x") ∅ _ (msg_readable "$a") _ eq_refl _ Hc)).
  - intros u ev He. by rewrite lookup_empty in He.
  - set_solver.
Defined.

Lemma many_users_agree_witness :
  ∃ S, filter_event_for_clients_with_state ["@u:x"; "@w:y"] msg_a (λ f, filter_state f vis_ids) false true = Ok S ∧
    ∀ u, u ∈ S ↔ is_soft_failed msg_a = false ∧ u ∈ ["@u:x"; "@w:y"] ∧ sees (db := vis_db) vis_ids msg_a false true u.
Proof.
  apply (many_users_agree vis_ids ["@u:x"; "@w:y"] msg_a false true).
  - exact (msg_readable "$a").
  - exact vis_state_readable.
Defined.

Lemma client_filter_one_room_witness :
  filter_events_for_client "@u:x" [msg_a] false ∅ true =
    (l ← map_res (check_in_room "@u:x" (relayed [msg_a]) false ∅) (relayed [msg_a]); Ok (present l)).
Proof.
  apply (client_filter_one_room "@u:x" [msg_a] false ∅ "!a:x").
  intros e ->%list_elem_of_singleton. reflexivity.
Defined.

Lemma unsent_filter_raises_witness :
  filter_events_for_client "@u:x" [msg_a] false ∅ false = Err (PyBuiltin NameError).
Proof. apply (unsent_filter_raises "@u:x" [msg_a] false ∅ msg_a); [by left|reflexivity]. Defined.

(** Of events of several rooms, as a search returns them, all are judged by the
    retention policy of one of the rooms: here the expired message of [!b:x] is sent
    together with that of [!a:x], although alone it is not. *)
Theorem retention_of_another_room :
  filter_events_for_client (H0 := canonical_order) "@u:x" [msg_b] false ∅ true = Ok [] ∧
  (∃ O, IterOrderOk O ∧
     filter_events_for_client (H0 := O) "@u:x" [msg_a; msg_b] false ∅ true = Ok [object msg_a; object msg_b]) ∧
  ∃ O, IterOrderOk O ∧ filter_events_for_client (H0 := O) "@u:x" [msg_a; msg_b] false ∅ true = Ok [].
Proof.
  split; [by vm_compute|]. split.
  - exists reversed_order. split; [apply reversed_order_ok|]. by vm_compute.
  - exists canonical_order. split; [apply _|]. by vm_compute.
Qed.

(** By computation: the stored state is in order. *)
Lemma vis_stored : stored vis_db (λ _, vis_ids).
Proof.
  assert (Hk : ∀ k i, vis_ids !! k = Some i → (∃ ev, vis_db !! i = Some ev ∧ event_key ev = Ok k) ∧ i ≠ "" ∧
    (k = _HISTORY_VIS_KEY → i = "$vis") ∧ (k.1 = EventTypes.Member → i = "$mu" ∨ i = "$mw")).
  { intros k i. unfold vis_ids. simpl. rewrite !lookup_insert_Some, lookup_empty. intros Hki.
    destruct Hki as [[<- <-]|[_ [[<- <-]|[_ [[<- <-]|[_ ?]]]]]]; [..|done];
      (split; [eexists; split; reflexivity|]); split_and!; try done; auto. }
  split.
  - intros _ k i Hi. apply (Hk k i Hi).
  - intros _ k i Hi. apply (Hk k i Hi).
  - intros _ i ev Hi Hev. destruct (Hk _ _ Hi) as (_ & _ & Hv & _). rewrite (Hv eq_refl) in Hev.
    assert (ev = attrs (vis_setting HistoryVisibility.JOINED)) as -> by (vm_compute in Hev; vm_compute; congruence).
    by eexists.
  - intros _ u i ev Hi Hev. destruct (Hk _ _ Hi) as (_ & _ & _ & Hm). destruct (Hm eq_refl) as [E|E]; rewrite E in Hev;
      vm_compute in Hev; injection Hev as <-; reflexivity.
Qed.

Lemma server_filter_spec_witness :
  ∃ may_see : VEvent → bool,
    (∀ e, e ∈ [msg_a] → may_see e = true ↔
       server_may_see (db := vis_db) (state_ids := λ _, vis_ids) (erased := λ _, false) "y" "x" true true e) ∧
    filter_events_for_server "y" "x" [msg_a] true true true =
      (l ← map_res (λ e, if may_see e then Ok (Some (object e))
                         else if true then Some <$> prune_event (object e) else Ok None) [msg_a];
       Ok (present l)).
Proof.
  apply (server_filter_spec [msg_a]).
  - intros e e' ->%list_elem_of_singleton ->%list_elem_of_singleton _. reflexivity.
  - exact vis_stored.
  - intros e ->%list_elem_of_singleton. reflexivity.
Defined.

(** An invitation does not open the history of the members to a server. *)
Example invited_server_gets_redacted :
  filter_events_for_server "y" "x" [msg_a] true false false = (λ o, [o]) <$> prune_event (object msg_a) ∧
  filter_events_for_server "x" "y" [msg_a] true false false = Ok [object msg_a].
Proof. by vm_compute. Qed.
