(* ===== verification/LinkedList.v ===== *)
(** * Circular doubly linked lists: [synapse/util/linked_list.py]

    Nodes are objects that point to each other, so the list lives in a store of nodes.
    A removed node stays in the store, with its references cleared.  The lock is held for
    the whole of each operation, which is therefore one step. *)

From S2P Require Import Prelude.

Record ListNode (P : Type) := MkNode {
  cache_entry : option P;
  prev_node : option nat;
  next_node : option nat
}.
Arguments MkNode {P}.
Arguments cache_entry {P}.
Arguments prev_node {P}.
Arguments next_node {P}.

Section nodes.
Context {P : Type}.
Implicit Types (h : gmap nat (ListNode P)).

(** Attributes of the object at a location. *)
Definition nxt (h : gmap nat (ListNode P)) (x : nat) : option nat := h !! x ≫= next_node.
Definition prv (h : gmap nat (ListNode P)) (x : nat) : option nat := h !! x ≫= prev_node.
Definition get_cache_entry (h : gmap nat (ListNode P)) (x : nat) : option P := h !! x ≫= cache_entry.

Definition set_next (x : nat) (y : option nat) (h : gmap nat (ListNode P)) : gmap nat (ListNode P) :=
  alter (λ n, MkNode (cache_entry n) (prev_node n) y) x h.
Definition set_prev (x : nat) (y : option nat) (h : gmap nat (ListNode P)) : gmap nat (ListNode P) :=
  alter (λ n, MkNode (cache_entry n) y (next_node n)) x h.
Definition set_entry (x : nat) (e : option P) (h : gmap nat (ListNode P)) : gmap nat (ListNode P) :=
  alter (λ n, MkNode e (prev_node n) (next_node n)) x h.

Definition assert_some {A} (o : option A) : result A :=
  match o with Some a => Ok a | None => Err (PyBuiltin AssertionError) end.

Definition create_root_node (h : gmap nat (ListNode P)) : nat * gmap nat (ListNode P) :=
  let root := fresh (dom h) in
  (root, <[root := MkNode None (Some root) (Some root)]> h).

Definition _refs_insert_after (self node : nat) (h : gmap nat (ListNode P)) : result (gmap nat (ListNode P)) :=
  raise_if (bool_decide (is_Some (prv h self))) (PyBuiltin AssertionError) ;;
  raise_if (bool_decide (is_Some (nxt h self))) (PyBuiltin AssertionError) ;;
  next ← assert_some (nxt h node);
  _prev ← assert_some (prv h node);
  let h := set_prev self (Some node) h in
  let h := set_next self (Some next) h in
  let h := set_next node (Some self) h in
  Ok (set_prev next (Some self) h).

Definition insert_after (entry : P) (node : nat) (h : gmap nat (ListNode P)) : result (nat * gmap nat (ListNode P)) :=
  let new_node := fresh (dom h) in
  h ← _refs_insert_after new_node node (<[new_node := MkNode (Some entry) None None]> h);
  Ok (new_node, h).

Definition _refs_remove_node_from_list (self : nat) (h : gmap nat (ListNode P)) : gmap nat (ListNode P) :=
  match prv h self, nxt h self with
  | Some prev, Some next =>
      let h := set_next prev (Some next) h in
      let h := set_prev next (Some prev) h in
      set_next self None (set_prev self None h)
  | _, _ => h
  end.

Definition remove_from_list (self : nat) (h : gmap nat (ListNode P)) : gmap nat (ListNode P) :=
  set_entry self None (_refs_remove_node_from_list self h).

Definition move_after (self node : nat) (h : gmap nat (ListNode P)) : result (gmap nat (ListNode P)) :=
  _ ← assert_some (prv h self);
  _ ← assert_some (nxt h self);
  _ ← assert_some (prv h node);
  _ ← assert_some (nxt h node);
  raise_if (bool_decide (self = node)) (PyBuiltin AssertionError) ;;
  _refs_insert_after self node (_refs_remove_node_from_list self h).

(** ** Reading the store after an update *)

Lemma nxt_set_next x v h y : x ∈ dom h → nxt (set_next x v h) y = if decide (y = x) then v else nxt h y.
Proof.
  intros [n Hx]%elem_of_dom. unfold nxt, set_next. case_decide as Hy.
  - subst. by rewrite lookup_alter_eq, Hx.
  - by rewrite lookup_alter_ne.
Qed.
Lemma prv_set_prev x v h y : x ∈ dom h → prv (set_prev x v h) y = if decide (y = x) then v else prv h y.
Proof.
  intros [n Hx]%elem_of_dom. unfold prv, set_prev. case_decide as Hy.
  - subst. by rewrite lookup_alter_eq, Hx.
  - by rewrite lookup_alter_ne.
Qed.

(** An update of one attribute leaves the others. *)
Lemma alter_attr {A} (f : ListNode P → ListNode P) (g : ListNode P → option A) x h y :
  (∀ n, g (f n) = g n) → (alter f x h !! y ≫= g) = (h !! y ≫= g).
Proof.
  intros Hg. destruct (decide (y = x)) as [->|Hne]; [|by rewrite lookup_alter_ne].
  rewrite lookup_alter_eq. destruct (h !! x); simpl; [apply Hg|done].
Qed.
Lemma prv_set_next x v h y : prv (set_next x v h) y = prv h y.
Proof. by apply alter_attr. Qed.
Lemma nxt_set_prev x v h y : nxt (set_prev x v h) y = nxt h y.
Proof. by apply alter_attr. Qed.
Lemma nxt_set_entry x e h y : nxt (set_entry x e h) y = nxt h y.
Proof. by apply alter_attr. Qed.
Lemma prv_set_entry x e h y : prv (set_entry x e h) y = prv h y.
Proof. by apply alter_attr. Qed.
Lemma entry_set_next x v h y : get_cache_entry (set_next x v h) y = get_cache_entry h y.
Proof. by apply alter_attr. Qed.
Lemma entry_set_prev x v h y : get_cache_entry (set_prev x v h) y = get_cache_entry h y.
Proof. by apply alter_attr. Qed.
Lemma dom_set_next x v h : dom (set_next x v h) = dom h.
Proof. apply dom_alter_L. Qed.
Lemma dom_set_prev x v h : dom (set_prev x v h) = dom h.
Proof. apply dom_alter_L. Qed.

(** ** Rings *)

(** The nodes [l] lie between [x] and [y], linked both ways. *)
Fixpoint chain (h : gmap nat (ListNode P)) (x : nat) (l : list nat) (y : nat) : Prop :=
  match l with
  | [] => nxt h x = Some y ∧ prv h y = Some x
  | a :: l => (nxt h x = Some a ∧ prv h a = Some x) ∧ chain h a l y
  end.

(** The list of [root] has the nodes [l], the newest first. *)
Definition ring (h : gmap nat (ListNode P)) (root : nat) (l : list nat) : Prop := NoDup (root :: l) ∧ chain h root l root.

Lemma chain_app h x l1 a l2 y : chain h x (l1 ++ a :: l2) y ↔ chain h x l1 a ∧ chain h a l2 y.
Proof. revert x. induction l1 as [|b l1 IH]; intros x; simpl; [done|]. rewrite IH. tauto. Qed.

Lemma chain_ext h h' x l y :
  (∀ z, z ∈ x :: l → nxt h' z = nxt h z) → (∀ z, z ∈ l ++ [y] → prv h' z = prv h z) →
  chain h x l y → chain h' x l y.
Proof.
  revert x. induction l as [|a l IH]; intros x Hn Hp; simpl.
  - by rewrite Hn, Hp by set_solver.
  - rewrite (Hn x), (Hp a) by set_solver. intros [? ?]. split; [done|]. apply IH; [..|done]; set_solver.
Qed.

Lemma chain_first h x l y : chain h x l y → nxt h x = Some (default y (head l)).
Proof. destruct l; simpl; tauto. Qed.
Lemma chain_last h x l y : chain h x l y → prv h y = Some (default x (last l)).
Proof.
  revert x. induction l as [|a l IH]; intros x; simpl; [tauto|]. intros [_ Hc]. rewrite (IH a Hc).
  destruct l as [|b l]; [done|]. simpl. by destruct (last (b :: l)) eqn:E; [|by apply last_None in E].
Qed.
Lemma chain_dom h x l y : chain h x l y → x ∈ dom h ∧ y ∈ dom h ∧ ∀ z, z ∈ l → z ∈ dom h.
Proof.
  assert (Hn : ∀ z w, nxt h z = Some w → z ∈ dom h).
  { intros z w (n & Hz & _)%bind_Some. by eapply elem_of_dom_2. }
  assert (Hp : ∀ z w, prv h z = Some w → z ∈ dom h).
  { intros z w (n & Hz & _)%bind_Some. by eapply elem_of_dom_2. }
  revert x. induction l as [|a l IH]; intros x; simpl.
  - intros [? ?]. split_and!; [by eapply Hn|by eapply Hp|]. by intros z ?%not_elem_of_nil.
  - intros [[? ?] (? & ? & ?)%IH]. split_and!; [by eapply Hn|done|]. set_solver.
Qed.

(** Another end, and another start, for a chain. *)
Lemma chain_retarget h h' x l a b :
  NoDup (x :: l) → chain h x l a →
  (∀ z, z ∈ x :: l → z ≠ default x (last l) → nxt h' z = nxt h z) → (∀ z, z ∈ l → prv h' z = prv h z) →
  nxt h' (default x (last l)) = Some b → prv h' b = Some (default x (last l)) →
  chain h' x l b.
Proof.
  revert x. induction l as [|c l IH]; intros x Hnd; [simpl; auto|]. intros [[Hn Hp] Hc] Hnx Hpv Hb Hb'.
  apply NoDup_cons in Hnd as [Hx Hnd].
  assert (Hl : default x (last (c :: l)) = default c (last l)).
  { destruct l as [|d l]; [done|]. rewrite last_cons_cons. by destruct (last (d :: l)) eqn:E; [|by apply last_None in E]. }
  rewrite Hl in *. split.
  - rewrite Hnx, Hpv; [done|by left|by left|]. intros ->. apply Hx.
    destruct (last l) as [d|] eqn:E; simpl; [right; by apply last_Some_elem_of|by left].
  - apply IH; [done|done| | |done|done].
    + intros z Hz. apply Hnx. by right.
    + intros z Hz. apply Hpv. by right.
Qed.

Lemma chain_restart h h' x x' l y :
  chain h x l y → (∀ z, z ∈ l → nxt h' z = nxt h z) →
  (∀ z, z ∈ l ++ [y] → z ≠ default y (head l) → prv h' z = prv h z) →
  nxt h' x' = Some (default y (head l)) → prv h' (default y (head l)) = Some x' →
  NoDup (l ++ [y]) → chain h' x' l y.
Proof.
  destruct l as [|a l]; simpl; [auto|]. intros [_ Hc] Hn Hp Hx Ha [Hna _]%NoDup_cons. split; [done|].
  eapply chain_ext; [intros z Hz; by apply Hn| |done]. intros z Hz. apply Hp; [by right|]. by intros ->.
Qed.

(** ** The operations on rings *)

Lemma create_root_ring h root h' :
  create_root_node h = (root, h') → ring h' root [] ∧ (root ∉ dom h) ∧ h' = <[root := MkNode None (Some root) (Some root)]> h.
Proof.
  unfold create_root_node. intros [= <- <-]. split_and!; [|apply is_fresh|done].
  split; [apply NoDup_singleton|]. unfold chain, nxt, prv. by rewrite !lookup_insert_eq.
Qed.

Lemma refs_insert_ring h n root l e :
  ring h root l → h !! n = Some (MkNode e None None) → n ∉ root :: l →
  ∃ h', _refs_insert_after n root h = Ok h' ∧ ring h' root (n :: l) ∧
    dom h' = dom h ∧ ∀ y, get_cache_entry h' y = get_cache_entry h y.
Proof.
  intros [Hnd Hc] Hn Hni. unfold _refs_insert_after.
  assert (Hpn : prv h n = None) by (unfold prv; by rewrite Hn).
  assert (Hnn : nxt h n = None) by (unfold nxt; by rewrite Hn).
  rewrite Hpn, Hnn, !bool_decide_false by (intros []; done). cbn [raise_if mbind result_bind].
  rewrite (chain_first _ _ _ _ Hc), (chain_last _ _ _ _ Hc). cbn [assert_some mbind result_bind].
  set (f := default root (head l)). eexists. split; [done|].
  destruct (chain_dom _ _ _ _ Hc) as (Hr & _ & Hl).
  assert (Hnd' : n ∈ dom h) by (by apply elem_of_dom_2 in Hn).
  assert (Hf : f ∈ dom h) by (unfold f; destruct l; [done|apply Hl; by left]).
  assert (Hfl : f = root ∨ f ∈ l) by (unfold f; destruct l; [by left|right; by left]).
  apply NoDup_cons in Hnd as [Hrl Hnd]. apply not_elem_of_cons in Hni as [Hnr Hnl].
  assert (Hfn : f ≠ n) by set_solver.
  set (h' := set_prev f _ _).
  assert (N : ∀ z, nxt h' z = if decide (z = root) then Some n else if decide (z = n) then Some f else nxt h z).
  { intros z. unfold h'. rewrite nxt_set_prev, nxt_set_next, nxt_set_next, nxt_set_prev; [done|..];
      by rewrite ?dom_set_next, ?dom_set_prev. }
  assert (V : ∀ z, prv h' z = if decide (z = f) then Some n else if decide (z = n) then Some root else prv h z).
  { intros z. unfold h'. rewrite prv_set_prev, !prv_set_next, prv_set_prev; [done|..];
      by rewrite ?dom_set_next, ?dom_set_prev. }
  split_and!.
  - split; [rewrite !NoDup_cons; set_solver|]. cbn [chain]. rewrite (N root), (V n), decide_True, decide_False, decide_True by done.
    split; [done|]. apply (chain_restart h _ root n l root); [done|..].
    + intros z Hz. rewrite N, !decide_False; [done|set_solver..].
    + intros z Hz Hzf. rewrite V, !decide_False; [done|set_solver|done].
    + by rewrite N, decide_False, decide_True.
    + by rewrite V, decide_True.
    + apply NoDup_app. split_and!; [done|set_solver|apply NoDup_singleton].
  - unfold h'. by rewrite dom_set_prev, !dom_set_next, dom_set_prev.
  - intros y. unfold h'. by rewrite entry_set_prev, !entry_set_next, entry_set_prev.
Qed.

Lemma refs_remove_ring h x root l1 l2 :
  ring h root (l1 ++ x :: l2) →
  let h' := _refs_remove_node_from_list x h in
  ring h' root (l1 ++ l2) ∧ nxt h' x = None ∧ prv h' x = None ∧ dom h' = dom h ∧
  ∀ y, get_cache_entry h' y = get_cache_entry h y.
Proof.
  intros [Hnd Hc]. cbn zeta. unfold _refs_remove_node_from_list. apply chain_app in Hc as [C1 C2].
  rewrite (chain_last _ _ _ _ C1), (chain_first _ _ _ _ C2).
  set (p := default root (last l1)). set (n := default root (head l2)).
  destruct (chain_dom _ _ _ _ C1) as (Hr & Hx & Hl1). destruct (chain_dom _ _ _ _ C2) as (_ & _ & Hl2).
  apply NoDup_cons in Hnd as [Hrl Hnd]. apply NoDup_app in Hnd as (Hn1 & Hdis & Hn2). apply NoDup_cons in Hn2 as [Hx2 Hn2].
  assert (Hp : p = root ∨ p ∈ l1) by (unfold p; destruct (last l1) eqn:E; [right; by apply last_Some_elem_of|by left]).
  assert (Hn : n = root ∨ n ∈ l2) by (unfold n; destruct l2; [by left|right; by left]).
  assert (Hx1 : x ∉ l1) by (intros ?; by apply (Hdis x); [|left]).
  assert (Hxr : x ≠ root) by (intros ->; apply Hrl, elem_of_app; right; by left).
  assert (Hpd : p ∈ dom h) by (destruct Hp as [->|?]; auto). assert (Hnd : n ∈ dom h) by (destruct Hn as [->|?]; auto).
  set (h' := set_next x None _).
  assert (N : ∀ z, nxt h' z = if decide (z = x) then None else if decide (z = p) then Some n else nxt h z).
  { intros z. unfold h'. rewrite nxt_set_next, !nxt_set_prev, nxt_set_next; [done|..];
      by rewrite ?dom_set_prev, ?dom_set_next. }
  assert (V : ∀ z, prv h' z = if decide (z = x) then None else if decide (z = n) then Some p else prv h z).
  { intros z. unfold h'. rewrite prv_set_next, prv_set_prev, prv_set_prev, prv_set_next; [done|..];
      by rewrite ?dom_set_prev, ?dom_set_next. }
  assert (Hpx : p ≠ x) by (intros E; rewrite E in Hp; naive_solver).
  assert (Hnx : n ≠ x) by (intros E; rewrite E in Hn; naive_solver).
  split_and!.
  - split.
    + rewrite NoDup_cons, NoDup_app, elem_of_app. rewrite elem_of_app, elem_of_cons in Hrl. split; [tauto|].
      split_and!; [done| |done]. intros z Hz ?. apply (Hdis z Hz). by right.
    + assert (C : chain h' root l1 n).
      { apply (chain_retarget h _ root l1 x).
        - apply NoDup_cons. split; [|done]. intros ?. apply Hrl, elem_of_app. by left.
        - done.
        - intros z Hz Hzp. rewrite N, !decide_False; [done|done|]. intros ->. by apply elem_of_cons in Hz as [?|?].
        - intros z Hz. rewrite V, !decide_False; [done|..]; intros ->; [|done].
          destruct Hn as [E|Hn]; [|apply (Hdis n Hz); by right]. apply Hrl. rewrite <- E. apply elem_of_app. by left.
        - fold p. by rewrite N, decide_False, decide_True.
        - fold p. by rewrite V, decide_False, decide_True. }
      unfold n in C. destruct l2 as [|n2 l2]; [by rewrite app_nil_r|]. apply chain_app. split; [exact C|].
      simpl in C2. destruct C2 as [_ C2]. unfold n in *. simpl in *.
      eapply chain_ext; [| |exact C2].
      * intros z Hz. assert (z ≠ x) by (intros ->; done).
        assert (z ≠ p).
        { intros ->. destruct Hp as [E|Hp]; [|apply (Hdis p Hp); by right].
          apply Hrl. rewrite <- E. apply elem_of_app. right. by right. }
        by rewrite N, !decide_False.
      * intros z Hz. rewrite elem_of_app, list_elem_of_singleton in Hz. assert (z ≠ x).
        { intros ->. destruct Hz as [Hz|Hz]; [apply Hx2; by right|done]. }
        assert (z ≠ n2).
        { apply NoDup_cons in Hn2 as [Hn2 _]. intros ->. destruct Hz as [Hz|Hz]; [done|]. subst n2.
          apply Hrl, elem_of_app. right. right. by left. }
        by rewrite V, !decide_False.
  - by rewrite N, decide_True.
  - by rewrite V, decide_True.
  - unfold h'. by rewrite dom_set_next, !dom_set_prev, dom_set_next.
  - intros y. unfold h'. by rewrite entry_set_next, !entry_set_prev, entry_set_next.
Qed.

Lemma ring_frame h h' root l :
  (∀ z, z ∈ root :: l → nxt h' z = nxt h z ∧ prv h' z = prv h z) → ring h root l → ring h' root l.
Proof.
  intros Hz [Hnd Hc]. split; [done|]. eapply chain_ext; [| |exact Hc].
  - intros z Hin. by apply Hz.
  - intros z Hin. apply Hz. rewrite elem_of_app, list_elem_of_singleton in Hin. rewrite elem_of_cons. tauto.
Qed.

Lemma insert_after_ring h root l e :
  ring h root l →
  ∃ n h', insert_after e root h = Ok (n, h') ∧ (n ∉ dom h) ∧ ring h' root (n :: l) ∧
    dom h' = {[n]} ∪ dom h ∧ get_cache_entry h' n = Some e ∧
    ∀ y, y ≠ n → get_cache_entry h' y = get_cache_entry h y.
Proof.
  intros Hr. unfold insert_after. set (n := fresh (dom h)). set (h0 := <[n := _]> h).
  assert (Hn : n ∉ dom h) by apply is_fresh.
  assert (Hin : ∀ z, z ∈ root :: l → z ∈ dom h).
  { destruct Hr as [_ Hc]. destruct (chain_dom _ _ _ _ Hc) as (? & _ & ?). intros z [->|?]%elem_of_cons; auto. }
  assert (Hr0 : ring h0 root l).
  { eapply ring_frame; [|exact Hr]. intros z Hz%Hin. unfold nxt, prv, h0. rewrite lookup_insert_ne by (by intros ->). done. }
  destruct (refs_insert_ring h0 n root l (Some e) Hr0) as (h' & -> & Hr' & Hd & He).
  { apply lookup_insert_eq. }
  { by intros Hz%Hin. }
  exists n, h'. split_and!; [done|done|done| | |].
  - rewrite Hd. apply dom_insert_L.
  - rewrite He. unfold get_cache_entry, h0. by rewrite lookup_insert_eq.
  - intros y Hy. rewrite He. unfold get_cache_entry, h0. by rewrite lookup_insert_ne.
Qed.

Lemma entry_set_entry x e h y :
  x ∈ dom h → get_cache_entry (set_entry x e h) y = if decide (y = x) then e else get_cache_entry h y.
Proof.
  intros [n Hx]%elem_of_dom. unfold get_cache_entry, set_entry. case_decide as Hy.
  - subst. by rewrite lookup_alter_eq, Hx.
  - by rewrite lookup_alter_ne.
Qed.

Lemma remove_from_list_ring h x root l1 l2 :
  ring h root (l1 ++ x :: l2) →
  let h' := remove_from_list x h in
  ring h' root (l1 ++ l2) ∧ dom h' = dom h ∧ get_cache_entry h' x = None ∧ prv h' x = None ∧
  ∀ y, y ≠ x → get_cache_entry h' y = get_cache_entry h y.
Proof.
  intros Hr. destruct (refs_remove_ring h x root l1 l2 Hr) as (Hr' & Hn & Hp & Hd & He). cbn zeta in *.
  unfold remove_from_list. set (h1 := _refs_remove_node_from_list x h) in *.
  assert (Hx : x ∈ dom h1).
  { rewrite Hd. destruct Hr as [_ Hc]. destruct (chain_dom _ _ _ _ Hc) as (_ & _ & Hl). apply Hl, elem_of_app. right. by left. }
  split_and!.
  - eapply ring_frame; [|exact Hr']. intros z _. by rewrite nxt_set_entry, prv_set_entry.
  - unfold set_entry. by rewrite dom_alter_L.
  - by rewrite entry_set_entry, decide_True.
  - by rewrite prv_set_entry.
  - intros y Hy. by rewrite entry_set_entry, decide_False.
Qed.

(** Removing a node again changes no reference. *)
Lemma remove_again h x root l : prv h x = None → ring h root l → ring (remove_from_list x h) root l.
Proof.
  intros Hp Hr. unfold remove_from_list, _refs_remove_node_from_list. rewrite Hp.
  eapply ring_frame; [|exact Hr]. intros z _. by rewrite nxt_set_entry, prv_set_entry.
Qed.

Lemma move_after_ring h x root l1 l2 :
  ring h root (l1 ++ x :: l2) →
  ∃ h', move_after x root h = Ok h' ∧ ring h' root (x :: l1 ++ l2) ∧ dom h' = dom h ∧
    ∀ y, get_cache_entry h' y = get_cache_entry h y.
Proof.
  intros Hr. unfold move_after. destruct (refs_remove_ring h x root l1 l2 Hr) as (Hr' & Hn & Hp & Hd & He).
  pose proof Hr as [Hnd Hc]. pose proof Hc as Hc0. apply chain_app in Hc as [C1 C2].
  rewrite (chain_last _ _ _ _ C1), (chain_first _ _ _ _ C2), (chain_last _ _ _ _ Hc0), (chain_first _ _ _ _ Hc0).
  cbn [assert_some mbind result_bind]. cbn zeta in *.
  assert (Hx : x ∉ root :: l1 ++ l2).
  { apply NoDup_cons in Hnd as [Hrl Hnd]. apply NoDup_app in Hnd as (_ & Hdis & Hn2). apply NoDup_cons in Hn2 as [Hx2 _].
    rewrite elem_of_cons, elem_of_app. intros [->|[Hz|Hz]]; [|by apply (Hdis x Hz); left|done].
    apply Hrl, elem_of_app. right. by left. }
  rewrite bool_decide_false by (intros ->; apply Hx; by left). cbn [raise_if mbind result_bind].
  set (h1 := _refs_remove_node_from_list x h) in *.
  assert (Hxd : x ∈ dom h1).
  { rewrite Hd. destruct (chain_dom _ _ _ _ Hc0) as (_ & _ & Hl). apply Hl, elem_of_app. right. by left. }
  apply elem_of_dom in Hxd as [[e pv nx] Hxn]. unfold nxt, prv in Hn, Hp. rewrite Hxn in Hn, Hp. simpl in Hn, Hp. subst.
  destruct (refs_insert_ring h1 x root (l1 ++ l2) e Hr' Hxn Hx) as (h' & -> & Hr'' & Hd' & He').
  exists h'. split_and!; [done|done|congruence|]. intros y. by rewrite He', He.
Qed.
End nodes.
