(* ===== verification/TreeCache.v ===== *)
(** * Dictionaries behind caches: dicts and [synapse/util/caches/treecache.py]

    A dict is a list of entries in the order of insertion.  A [TreeCache] is a tree of
    dicts, whose keys are tuples: here lists of atoms. *)

From S2P Require Import Prelude.

(** ** Dicts with any type of key *)

Section assoc.
Context {A : Type} `{EqDecision A} {B : Type}.

Fixpoint aget (a : A) (l : list (A * B)) : option B :=
  match l with
  | [] => None
  | (x, b) :: l => if decide (a = x) then Some b else aget a l
  end.

(** [d[a] = b]: in its place, or at the end *)
Fixpoint aset (a : A) (b : B) (l : list (A * B)) : list (A * B) :=
  match l with
  | [] => [(a, b)]
  | (x, y) :: l => if decide (a = x) then (a, b) :: l else (x, y) :: aset a b l
  end.

Fixpoint apop (a : A) (l : list (A * B)) : list (A * B) :=
  match l with
  | [] => []
  | (x, y) :: l => if decide (a = x) then l else (x, y) :: apop a l
  end.

Lemma aget_elem a b l : NoDup l.*1 → aget a l = Some b ↔ (a, b) ∈ l.
Proof.
  induction l as [|[x y] l IH]; simpl; [by rewrite elem_of_nil|]. intros [Hx Hnd]%NoDup_cons. rewrite elem_of_cons.
  case_decide as Ha.
  - subst. split; [intros [= ->]; by left|]. intros [E|Hin]; [congruence|]. destruct Hx. apply list_elem_of_fmap. by exists (x, b).
  - rewrite IH by done. split; [by right|]. intros [E|?]; [congruence|done].
Qed.
Lemma aget_None a l : aget a l = None ↔ a ∉ l.*1.
Proof. induction l as [|[x y] l IH]; simpl; [set_solver|]. case_decide; set_solver. Qed.

Lemma aget_aset a b l c : aget c (aset a b l) = if decide (c = a) then Some b else aget c l.
Proof. induction l as [|[x y] l IH]; simpl; [done|]. repeat (case_decide; simpl; subst); try done; congruence. Qed.
Lemma aget_apop a l c : NoDup l.*1 → aget c (apop a l) = if decide (c = a) then None else aget c l.
Proof.
  induction l as [|[x y] l IH]; simpl; [by intros; case_decide|]. intros [Hx Hnd]%NoDup_cons.
  destruct (decide (a = x)) as [->|Hax]; simpl.
  - destruct (decide (c = x)) as [->|]; [by apply aget_None|done].
  - destruct (decide (c = x)) as [->|]; [by rewrite decide_False|]. by apply IH.
Qed.

Lemma keys_aset a b l : (aset a b l).*1 = if decide (a ∈ l.*1) then l.*1 else l.*1 ++ [a].
Proof.
  induction l as [|[x y] l IH]; csimpl; [done|]. destruct (decide (a = x)) as [->|Hne]; csimpl.
  - by rewrite decide_True by (by left).
  - rewrite IH. destruct (decide (a ∈ l.*1)).
    + rewrite decide_True by (by right). done.
    + rewrite decide_False by (by rewrite elem_of_cons; intros [?|?]). done.
Qed.
Lemma NoDup_aset a b l : NoDup l.*1 → NoDup (aset a b l).*1.
Proof.
  intros Hnd. rewrite keys_aset. case_decide; [done|]. apply NoDup_app. split_and!; [done|set_solver|apply NoDup_singleton].
Qed.
Lemma elem_of_apop a x l : x ∈ apop a l → x ∈ l.
Proof. induction l as [|[c y] l IH]; simpl; [done|]. case_decide; [by right|]. rewrite !elem_of_cons. intuition. Qed.
Lemma NoDup_apop a l : NoDup l.*1 → NoDup (apop a l).*1.
Proof.
  induction l as [|[x y] l IH]; csimpl; [done|]. intros [Hx Hnd]%NoDup_cons. case_decide; [done|]. csimpl. apply NoDup_cons. split; [|auto].
  intros ([k v] & -> & Hin)%list_elem_of_fmap. apply Hx. apply list_elem_of_fmap. exists (k, v). split; [done|]. by eapply elem_of_apop.
Qed.
Lemma Forall_aset (P : A * B → Prop) a b l : P (a, b) → Forall P l → Forall P (aset a b l).
Proof. intros Ha. induction 1 as [|[x y] l]; simpl; [by constructor|]. case_decide; by constructor. Qed.
Lemma Forall_apop (P : A * B → Prop) a l : Forall P l → Forall P (apop a l).
Proof. induction 1 as [|[x y] l]; simpl; [done|]. case_decide; [done|]. by constructor. Qed.
Lemma aset_not_nil a b l : aset a b l ≠ [].
Proof. destruct l as [|[x y] l]; simpl; [done|]. by case_decide. Qed.
End assoc.

(** ** [TreeCache] *)

(** A [TreeCacheNode], or a value at a leaf. *)
Inductive tree (A V : Type) :=
| Leaf (v : V)
| TreeCacheNode (cs : list (A * tree A V)).
Arguments Leaf {A V}.
Arguments TreeCacheNode {A V}.

(** Induction through the lists of children. *)
Lemma tree_ind' {A V} (P : tree A V → Prop) :
  (∀ v, P (Leaf v)) → (∀ cs, Forall (λ c, P c.2) cs → P (TreeCacheNode cs)) → ∀ t, P t.
Proof.
  intros HL HN. fix IH 1. intros [v|cs]; [apply HL|]. apply HN. induction cs as [|[a t] cs IHcs]; constructor; [apply IH|exact IHcs].
Qed.

Section tree.
Context {A V : Type} `{Countable A}.

Record TreeCache := MkTreeCache { tc_size : Z; tc_root : list (A * tree A V) }.

Definition new_TreeCache : TreeCache := MkTreeCache 0 [].

(** The loop of [set], from a node down. *)
Fixpoint set_in (key : list A) (value : V) (node : list (A * tree A V)) : result (list (A * tree A V)) :=
  match key with
  | [] => Err (PyBuiltin IndexError)
  | [k] => Ok (aset k (Leaf value) node)
  | k :: key =>
      match aget k node with
      | None => next_node ← set_in key value []; Ok (aset k (TreeCacheNode next_node) node)
      | Some (Leaf _) => Err (PyBuiltin ValueError)
      | Some (TreeCacheNode next_node) =>
          next_node ← set_in key value next_node; Ok (aset k (TreeCacheNode next_node) node)
      end
  end.

Definition tc_set (self : TreeCache) (key : list A) (value : V) : result TreeCache :=
  root ← set_in key value (tc_root self);
  Ok (MkTreeCache (tc_size self + 1) root).

(** The loop of [get]; a value at a leaf has no [get] method. *)
Fixpoint get_in (key : list A) (node : list (A * tree A V)) : result (option (tree A V)) :=
  match key with
  | [] => Err (PyBuiltin IndexError)
  | [k] => Ok (aget k node)
  | k :: key =>
      match aget k node with
      | None => Ok None
      | Some (Leaf _) => Err (PyBuiltin AttributeError)
      | Some (TreeCacheNode next_node) => get_in key next_node
      end
  end.

Definition tc_get (self : TreeCache) (key : list A) : result (option (tree A V)) := get_in key (tc_root self).

Definition tc_contains (self : TreeCache) (key : list A) : result bool :=
  o ← tc_get self key; Ok (bool_decide (is_Some o)).

(** [iterate_tree_cache_entry] and [iterate_tree_cache_items] *)
Fixpoint iterate_tree_cache_entry (d : tree A V) : list V :=
  match d with
  | Leaf v => [v]
  | TreeCacheNode cs => flat_map (λ c, iterate_tree_cache_entry c.2) cs
  end.

Fixpoint iterate_tree_cache_items (key : list A) (value : tree A V) : list (list A * V) :=
  match value with
  | Leaf v => [(key, v)]
  | TreeCacheNode cs => flat_map (λ c, iterate_tree_cache_items (key ++ [c.1]) c.2) cs
  end.

(** The way down of [pop], and the way up, which removes the nodes that became empty. *)
Fixpoint pop_in (key : list A) (node : list (A * tree A V))
    : result (option (tree A V) * list (A * tree A V)) :=
  match key with
  | [] => Err (PyBuiltin IndexError)
  | [k] => Ok (aget k node, apop k node)
  | k :: key =>
      match aget k node with
      | None => Ok (None, node)
      | Some (Leaf _) => Err (PyBuiltin ValueError)
      | Some (TreeCacheNode next_node) =>
          '(popped, next_node) ← pop_in key next_node;
          match popped with
          | None => Ok (None, node)
          | Some popped =>
              Ok (Some popped, match next_node with
                               | [] => apop k node
                               | _ => aset k (TreeCacheNode next_node) node
                               end)
          end
      end
  end.

Definition tc_pop (self : TreeCache) (key : list A) : result (option (tree A V) * TreeCache) :=
  '(popped, root') ← pop_in key (tc_root self);
  match popped with
  | None => Ok (None, self)
  | Some popped =>
      Ok (Some popped, MkTreeCache (tc_size self - Z.of_nat (length (iterate_tree_cache_entry popped))) root')
  end.

Definition tc_values (self : TreeCache) : list V := iterate_tree_cache_entry (TreeCacheNode (tc_root self)).
Definition tc_items (self : TreeCache) : list (list A * V) := iterate_tree_cache_items [] (TreeCacheNode (tc_root self)).
Definition tc_len (self : TreeCache) : Z := tc_size self.

(** ** What a tree holds *)

Fixpoint find (k : list A) (t : tree A V) : option V :=
  match k, t with
  | [], Leaf v => Some v
  | a :: k, TreeCacheNode cs => aget a cs ≫= find k
  | _, _ => None
  end.

(** All leaves at depth [n], and no empty nodes. *)
Fixpoint uniform (n : nat) (t : tree A V) : Prop :=
  match n, t with
  | O, Leaf _ => True
  | S n, TreeCacheNode cs => NoDup cs.*1 ∧ cs ≠ [] ∧ Forall (λ c, uniform n c.2) cs
  | _, _ => False
  end.

(** The children of a node at height [S n]. *)
Definition children (n : nat) (cs : list (A * tree A V)) : Prop := NoDup cs.*1 ∧ Forall (λ c, uniform n c.2) cs.

Lemma children_get n cs a t : children n cs → aget a cs = Some t → uniform n t.
Proof. intros [Hnd Hf] Ha. apply aget_elem in Ha; [|done]. rewrite Forall_forall in Hf. by apply (Hf (a, t)). Qed.

Lemma uniform_children n cs : uniform (S n) (TreeCacheNode cs) ↔ children n cs ∧ cs ≠ [].
Proof. simpl. unfold children. tauto. Qed.

Lemma get_in_spec n cs k :
  children n cs → k ≠ [] → (length k ≤ S n)%nat →
  ∃ o, get_in k cs = Ok o ∧ (∀ k', find (k ++ k') (TreeCacheNode cs) = o ≫= find k') ∧
    ∀ t, o = Some t → uniform (S n - length k) t.
Proof.
  revert n cs. induction k as [|a k IH]; intros n cs Hc Hk Hl; [done|]. destruct k as [|b k].
  - exists (aget a cs). split_and!; [done|done|]. intros t Ht. simpl. rewrite Nat.sub_0_r. by eapply children_get.
  - simpl in Hl. cbn [get_in]. destruct (aget a cs) as [t|] eqn:Ha.
    + pose proof (children_get _ _ _ _ Hc Ha) as Hu. destruct n as [|n]; [lia|]. destruct t as [|cs']; [done|].
      apply uniform_children in Hu as [Hu _]. destruct (IH n cs' Hu) as (o & Ho & Hf & Ht); [done|simpl; lia|].
      exists o. split_and!; [done| |exact Ht]. intros k'.
      change (find ((a :: b :: k) ++ k') (TreeCacheNode cs)) with (aget a cs ≫= find ((b :: k) ++ k')).
      rewrite Ha. apply Hf.
    + exists None. split_and!; [done| |done]. intros k'. simpl. by rewrite Ha.
Qed.

Lemma set_in_spec n cs k v :
  children n cs → length k = S n →
  ∃ cs', set_in k v cs = Ok cs' ∧ children n cs' ∧ cs' ≠ [] ∧
    ∀ k', find k' (TreeCacheNode cs') = if decide (k' = k) then Some v else find k' (TreeCacheNode cs).
Proof.
  revert n cs. induction k as [|a k IH]; intros n cs Hc Hl; [done|]. destruct k as [|b k].
  - simpl in Hl. assert (n = 0%nat) as -> by lia. exists (aset a (Leaf v) cs). split_and!; [done| |apply aset_not_nil|].
    + destruct Hc as [Hnd Hf]. split; [by apply NoDup_aset|]. by apply Forall_aset.
    + intros [|x k']; [done|]. simpl. rewrite aget_aset. destruct (decide (x = a)) as [->|Hx]; simpl.
      * destruct k' as [|y k']; simpl; [by rewrite decide_True|]. rewrite decide_False by congruence.
        destruct (aget a cs) as [t|] eqn:Ha; [|done]. pose proof (children_get _ _ _ _ Hc Ha) as Hu. simpl. by destruct t.
      * rewrite decide_False by congruence. done.
  - destruct n as [|n]; [done|]. cbn [set_in].
    assert (Hsub : ∀ cs0, children n cs0 → (∀ k', aget a cs ≫= find k' = find k' (TreeCacheNode cs0)) →
      ∃ cs', (nx ← set_in (b :: k) v cs0; Ok (aset a (TreeCacheNode nx) cs)) = Ok cs' ∧ children (S n) cs' ∧ cs' ≠ [] ∧
        ∀ k', find k' (TreeCacheNode cs') = if decide (k' = a :: b :: k) then Some v else find k' (TreeCacheNode cs)).
    { intros cs0 Hc0 Hget. destruct (IH n cs0 Hc0) as (nx & -> & Hnx & Hne & Hf); [simpl in *; lia|]. cbn [mbind result_bind].
      eexists. split; [done|]. split_and!; [|apply aset_not_nil|].
      - destruct Hc as [Hnd HF]. split; [by apply NoDup_aset|]. apply Forall_aset; [|done]. by apply uniform_children.
      - intros [|x k']; [done|]. cbn [find]. rewrite aget_aset. destruct (decide (x = a)) as [->|Hx].
        + cbn [mbind option_bind]. rewrite Hf, <- Hget. destruct (decide (k' = b :: k)) as [->|Hk]; [by rewrite decide_True|].
          rewrite decide_False by congruence. done.
        + rewrite decide_False by congruence. done. }
    destruct (aget a cs) as [t|] eqn:Ha.
    + pose proof (children_get _ _ _ _ Hc Ha) as Hu. destruct t as [|cs0]; [done|]. apply Hsub; [by apply uniform_children in Hu as [? _]|done].
    + apply Hsub; [by split; [constructor|constructor]|]. by intros [].
Qed.

Lemma pop_in_cons a b k cs :
  pop_in (a :: b :: k) cs =
    match aget a cs with
    | None => Ok (None, cs)
    | Some (Leaf _) => Err (PyBuiltin ValueError)
    | Some (TreeCacheNode next_node) =>
        '(popped, next_node) ← pop_in (b :: k) next_node;
        match popped with
        | None => Ok (None, cs)
        | Some popped =>
            Ok (Some popped, match next_node with
                             | [] => apop a cs
                             | _ => aset a (TreeCacheNode next_node) cs
                             end)
        end
    end.
Proof. done. Qed.

Lemma pop_in_spec n cs k :
  children n cs → k ≠ [] → (length k ≤ S n)%nat →
  ∃ o cs', pop_in k cs = Ok (o, cs') ∧ children n cs' ∧
    (∀ k', find (k ++ k') (TreeCacheNode cs) = o ≫= find k') ∧
    (∀ t, o = Some t → uniform (S n - length k) t) ∧
    (∀ k', find k' (TreeCacheNode cs') = if decide (k `prefix_of` k') then None else find k' (TreeCacheNode cs)).
Proof.
  revert n cs. induction k as [|a k IH]; intros n cs Hc Hk Hl; [done|]. pose proof Hc as [Hnd HF]. destruct k as [|b k].
  - exists (aget a cs), (apop a cs). split_and!; [done|split; [by apply NoDup_apop|by apply Forall_apop]|done| |].
    + intros t Ht. simpl. rewrite Nat.sub_0_r. by eapply children_get.
    + intros [|x k']; [by rewrite decide_False by (by intros [? ?])|]. cbn [find]. rewrite aget_apop by done.
      destruct (decide (x = a)) as [->|Hx].
      * rewrite decide_True; [done|]. by exists k'.
      * rewrite decide_False; [done|]. intros [k'' [= -> _]]. done.
  - simpl in Hl. rewrite pop_in_cons.
    assert (Hnone : ∀ k', (∀ j, find ((a :: b :: k) ++ j) (TreeCacheNode cs) = None) →
      find k' (TreeCacheNode cs) = if decide (a :: b :: k `prefix_of` k') then None else find k' (TreeCacheNode cs)).
    { intros k' Hno. case_decide as Hp; [|done]. destruct Hp as [j ->]. apply Hno. }
    destruct (aget a cs) as [t|] eqn:Ha.
    2: { exists None, cs. split_and!; [done|done|intros j; simpl; by rewrite Ha|done|].
         intros k'. apply Hnone. intros j. simpl. by rewrite Ha. }
    pose proof (children_get _ _ _ _ Hc Ha) as Hu. destruct n as [|n]; [lia|]. destruct t as [|cs0]; [done|].
    apply uniform_children in Hu as [Hu Hne]. destruct (IH n cs0 Hu) as (o & cs1 & Hpop & Hc1 & Hf & Ht & Hfind); [done|simpl; lia|].
    rewrite Hpop. cbn [mbind result_bind].
    assert (Hf' : ∀ j, find ((a :: b :: k) ++ j) (TreeCacheNode cs) = o ≫= find j).
    { intros j. rewrite <- Hf. simpl. by rewrite Ha. }
    destruct o as [popped|].
    2: { exists None, cs. split_and!; [done|done|done|done|]. intros k'. by apply Hnone. }
    set (cs' := match cs1 with [] => apop a cs | _ => _ end).
    exists (Some popped), cs'. split_and!; [done| |done| |].
    + unfold cs'. destruct cs1 as [|c cs1].
      * split; [by apply NoDup_apop|by apply Forall_apop].
      * split; [by apply NoDup_aset|]. apply Forall_aset; [|done]. by apply uniform_children.
    + intros t [= <-]. apply (Ht popped eq_refl).
    + intros [|x k']; [by rewrite decide_False by (by intros [? ?])|].
      assert (Hget : aget x cs' ≫= find k' = if decide (x = a) then find k' (TreeCacheNode cs1) else aget x cs ≫= find k').
      { unfold cs'. destruct cs1 as [|c cs1].
        - rewrite aget_apop by done. case_decide; [|done]. simpl. by destruct k'.
        - rewrite aget_aset. by case_decide. }
      cbn [find]. rewrite Hget. destruct (decide (x = a)) as [->|Hx].
      * rewrite Hfind, Ha. cbn [mbind option_bind]. destruct (decide (b :: k `prefix_of` k')) as [[j ->]|Hn].
        -- rewrite decide_True; [done|]. by exists j.
        -- rewrite decide_False; [done|]. intros [j E]. apply Hn. exists j. by injection E.
      * rewrite decide_False; [done|]. intros [j E]. simpl in E. congruence.
Qed.

(** ** The items of a tree *)

Lemma items_prefix key t : iterate_tree_cache_items key t = (λ kv, (key ++ kv.1, kv.2)) <$> iterate_tree_cache_items [] t.
Proof.
  revert key. induction t as [v|cs IH] using tree_ind'; intros key; simpl; [by rewrite app_nil_r|].
  induction IH as [|[a t] cs Ht _ IHcs]; [done|]. simpl. rewrite fmap_app, <- IHcs. f_equal. simpl in Ht.
  rewrite (Ht (key ++ [a])), (Ht [a]), <- list_fmap_compose. apply list_fmap_ext. intros _ [k v] _. simpl. by rewrite <- app_assoc.
Qed.

Lemma entries_items key t : iterate_tree_cache_entry t = (iterate_tree_cache_items key t).*2.
Proof.
  revert key. induction t as [v|cs IH] using tree_ind'; intros key; simpl; [done|].
  induction IH as [|[a t] cs Ht _ IHcs]; [done|]. simpl. rewrite fmap_app, <- IHcs. f_equal. apply Ht.
Qed.

Lemma elem_of_node_items cs k v :
  (k, v) ∈ iterate_tree_cache_items [] (TreeCacheNode cs) ↔
  ∃ a k' t, k = a :: k' ∧ (a, t) ∈ cs ∧ (k', v) ∈ iterate_tree_cache_items [] t.
Proof.
  simpl. rewrite list_elem_of_In, in_flat_map. setoid_rewrite <- list_elem_of_In. split.
  - intros ([a t] & Hin & Hk). simpl in Hk. rewrite items_prefix in Hk.
    apply list_elem_of_fmap in Hk as ([k' v'] & [= -> ->] & Hk). by exists a, k', t.
  - intros (a & k' & t & -> & Hin & Hk). exists (a, t). split; [done|]. simpl. rewrite items_prefix.
    apply list_elem_of_fmap. by exists (k', v).
Qed.

Lemma elem_of_items_find n t k v : uniform n t → (k, v) ∈ iterate_tree_cache_items [] t ↔ find k t = Some v.
Proof.
  revert n k. induction t as [w|cs IH] using tree_ind'; intros n k Hu.
  - simpl. rewrite list_elem_of_singleton. destruct k; simpl; naive_solver.
  - rewrite elem_of_node_items. destruct n as [|n]; [done|]. apply uniform_children in Hu as [Hc _].
    pose proof Hc as [Hnd _]. rewrite Forall_forall in IH. destruct k as [|a k]; [simpl; naive_solver|]. cbn [find]. split.
    + intros (a' & k' & t & [= <- <-] & Hin & Hk). pose proof Hin as Ha. apply aget_elem in Ha; [|done]. rewrite Ha. simpl.
      eapply (IH _ Hin n); [by eapply children_get|done].
    + intros (t & Ha & Hk)%bind_Some. pose proof Ha as Hin. apply aget_elem in Hin; [|done].
      exists a, k, t. split_and!; [done|done|]. eapply (IH _ Hin n); [by eapply children_get|done].
Qed.

Lemma items_NoDup_keys n t : uniform n t → NoDup (iterate_tree_cache_items [] t).*1.
Proof.
  revert n. induction t as [w|cs IH] using tree_ind'; intros n Hu; [apply NoDup_singleton|].
  destruct n as [|n]; [done|]. apply uniform_children in Hu as [[Hnd HF] _].
  induction cs as [|[a t] cs IHcs]; [constructor|]. apply Forall_cons in IH as [IHt IH], HF as [Hu HF].
  apply NoDup_cons in Hnd as [Ha Hnd]. change (NoDup (iterate_tree_cache_items [a] t ++ iterate_tree_cache_items [] (TreeCacheNode cs)).*1).
  rewrite fmap_app. apply NoDup_app. split_and!; [| |by apply IHcs].
  - rewrite items_prefix, <- list_fmap_compose. specialize (IHt n Hu).
    replace (fst ∘ (λ kv : list A * V, ([a] ++ kv.1, kv.2))) with ((λ k : list A, a :: k) ∘ (fst : list A * V → _)) by done.
    rewrite list_fmap_compose. by apply (NoDup_fmap_2 _).
  - intros k ([k0 v0] & -> & Hk)%list_elem_of_fmap ([k1 v1] & E & Hin)%list_elem_of_fmap. simpl in E. subst k1.
    rewrite items_prefix in Hk. apply list_elem_of_fmap in Hk as ([k' v'] & [= -> ->] & _).
    apply elem_of_node_items in Hin as (a' & k'' & t' & [= <- <-] & Hin & _). apply Ha, list_elem_of_fmap. by exists (a, t').
Qed.
End tree.
