(* ===== verification/CacheStores.v ===== *)
(** * The interface of the dictionaries behind [LruCache]

    [LruCache] keeps its entries in a dict or in a [TreeCache].  [CacheStore] has the
    operations it uses, [CacheStoreLaws] what it relies on: a finite map from full keys,
    from which the entries under a key can be removed at once. *)

From S2P Require Import Prelude TreeCache.

Class CacheStore (K V S : Type) := {
  cs_new : S;
  (** [cache.get(key, None)], for an entry *)
  cs_get : S → K → result (option V);
  (** [cache[key] = node] *)
  cs_set : S → K → V → result S;
  (** [cache.pop(key, None)], with the leaves of what it returns *)
  cs_pop : S → K → result (option (list V) * S);
  cs_values : S → list V;
  cs_len : S → Z
}.

Class CacheStoreLaws {K V S : Type} `{Countable K} (ops : CacheStore K V S) (full part : K → Prop)
    (under : relation K) `{!RelDecision under} (view : S → gmap K V) (ok : S → Prop) : Prop := {
  full_part k : full k → part k;
  under_full k k' : full k → full k' → under k k' ↔ k = k';
  new_ok : ok cs_new ∧ view cs_new = ∅;
  view_full s k v : ok s → view s !! k = Some v → full k;
  get_ok s k : ok s → full k → cs_get s k = Ok (view s !! k);
  set_ok s k v : ok s → full k → view s !! k = None →
    ∃ s', cs_set s k v = Ok s' ∧ ok s' ∧ view s' = <[k := v]> (view s);
  pop_ok s k : ok s → part k →
    ∃ o s', cs_pop s k = Ok (o, s') ∧ ok s' ∧
      view s' = filter (λ kv, ¬ under k kv.1) (view s) ∧
      default [] o ≡ₚ (map_to_list (filter (λ kv, under k kv.1) (view s))).*2;
  values_ok s : ok s → cs_values s ≡ₚ (map_to_list (view s)).*2;
  len_ok s : ok s → cs_len s = Z.of_nat (size (view s))
}.

(** The entries of a map in which a key decides, in some order. *)
Lemma filter_values {K V} `{Countable K} (P : K → Prop) `{∀ k, Decision (P k)} (m : gmap K V) (l : list (K * V)) :
  NoDup l.*1 → (∀ k v, (k, v) ∈ l ↔ m !! k = Some v ∧ P k) →
  l.*2 ≡ₚ (map_to_list (filter (λ kv, P kv.1) m)).*2.
Proof.
  intros Hnd Hl. apply Permutation_map. apply NoDup_Permutation.
  - by apply NoDup_fmap_1 in Hnd.
  - apply NoDup_map_to_list.
  - intros [k v]. by rewrite Hl, elem_of_map_to_list, map_lookup_filter_Some.
Qed.

(** ** Dicts *)

Section dict.
Context {K V : Type} `{Countable K}.

#[export] Instance dict_store : CacheStore K V (list (K * V)) := {|
  cs_new := [];
  cs_get s k := Ok (aget k s);
  cs_set s k v := Ok (aset k v s);
  cs_pop s k := Ok (match aget k s with Some v => (Some [v], apop k s) | None => (None, s) end);
  cs_values s := s.*2;
  cs_len s := Z.of_nat (length s)
|}.

Definition dict_view (s : list (K * V)) : gmap K V := list_to_map s.

Lemma dict_view_lookup s k : NoDup s.*1 → dict_view s !! k = aget k s.
Proof.
  intros Hnd. apply option_eq. intros v. unfold dict_view. rewrite aget_elem by done. symmetry. by apply elem_of_list_to_map.
Qed.

Lemma dict_view_size s : NoDup s.*1 → size (dict_view s) = length s.
Proof. intros Hnd. unfold dict_view. rewrite <- length_map_to_list. by rewrite map_to_list_to_map. Qed.

#[export] Instance dict_laws : CacheStoreLaws dict_store (λ _, True) (λ _, True) (=) dict_view (λ s, NoDup s.*1).
Proof.
  split; try done.
  - split; [constructor|done].
  - intros s k Hs _. simpl. by rewrite dict_view_lookup.
  - intros s k v Hs _ Hk. exists (aset k v s). split_and!; [done|by apply NoDup_aset|]. apply map_eq. intros j.
    rewrite dict_view_lookup, aget_aset by (by apply NoDup_aset). destruct (decide (j = k)) as [->|Hne].
    + by rewrite lookup_insert_eq.
    + by rewrite lookup_insert_ne, dict_view_lookup.
  - intros s k Hs _. simpl.
    assert (Hf : ∀ s', NoDup s'.*1 → (∀ j, aget j s' = if decide (j = k) then None else aget j s) →
      dict_view s' = filter (λ kv, ¬ k = kv.1) (dict_view s)).
    { intros s' Hs' Hg. apply map_eq. intros j. rewrite dict_view_lookup, Hg, map_lookup_filter, dict_view_lookup by done. simpl.
      case_decide as Hj; [subst; destruct (aget k s); simpl; [|done]; by rewrite option_guard_False by naive_solver|].
      destruct (aget j s); simpl; [|done]. by rewrite option_guard_True by naive_solver. }
    destruct (aget k s) as [v|] eqn:Hk.
    + exists (Some [v]), (apop k s). split_and!; [done|by apply NoDup_apop| |].
      * apply Hf; [by apply NoDup_apop|]. intros j. by apply aget_apop.
      * apply (filter_values (λ j, k = j) (dict_view s) [(k, v)]); [apply NoDup_singleton|].
        intros j w. rewrite list_elem_of_singleton, dict_view_lookup by done. naive_solver.
    + exists None, s. split_and!; [done|done| |].
      * apply Hf; [done|]. intros j. by case_decide; subst.
      * apply (filter_values (λ j, k = j) (dict_view s) []); [constructor|].
        intros j w. rewrite dict_view_lookup by done. split; [by intros ?%not_elem_of_nil|]. intros [? <-]. congruence.
  - intros s Hs. simpl. apply Permutation_map. unfold dict_view. by rewrite map_to_list_to_map.
  - intros s Hs. simpl. by rewrite dict_view_size.
Qed.
End dict.

(** ** Trees *)

Section tree.
Context {A V : Type} `{Countable A}.

(** A partial key gives a node of the tree, which has no attributes of an entry. *)
Definition tree_get (s : @TreeCache A V) (k : list A) : result (option V) :=
  o ← tc_get s k;
  match o with
  | Some (Leaf v) => Ok (Some v)
  | Some (TreeCacheNode _) => Err (PyBuiltin AttributeError)
  | None => Ok None
  end.
Definition tree_pop (s : @TreeCache A V) (k : list A) : result (option (list V) * @TreeCache A V) :=
  popped ← tc_pop s k;
  let '(o, s') := (popped : option (tree A V) * @TreeCache A V) in
  Ok (iterate_tree_cache_entry <$> o, s').

#[export] Instance tree_store : CacheStore (list A) V (@TreeCache A V) := {|
  cs_new := new_TreeCache;
  cs_get := tree_get;
  cs_set := tc_set;
  cs_pop := tree_pop;
  cs_values s := tc_values s;
  cs_len s := tc_len s
|}.

Definition tree_view (s : @TreeCache A V) : gmap (list A) V := list_to_map (tc_items s).

(** Keys of [S n] atoms. *)
Definition tree_ok (n : nat) (s : @TreeCache A V) : Prop :=
  children n (tc_root s) ∧ tc_size s = Z.of_nat (length (tc_items s)).

Lemma elem_of_tc_items n (s : @TreeCache A V) (k : list A) (v : V) :
  children n (tc_root s) → (k, v) ∈ tc_items s ↔ find k (TreeCacheNode (tc_root s)) = Some v.
Proof.
  intros Hc. unfold tc_items. destruct (tc_root s) as [|c cs] eqn:Hr.
  - simpl. split; [by intros ?%not_elem_of_nil|]. by destruct k.
  - apply (elem_of_items_find (S n)). by apply uniform_children.
Qed.

Lemma tc_items_NoDup n (s : @TreeCache A V) : children n (tc_root s) → NoDup (tc_items s).*1.
Proof.
  intros Hc. unfold tc_items. destruct (tc_root s) as [|c cs] eqn:Hr; [constructor|].
  apply (items_NoDup_keys (S n)). by apply uniform_children.
Qed.

Lemma tree_view_lookup n (s : @TreeCache A V) (k : list A) : children n (tc_root s) → tree_view s !! k = find k (TreeCacheNode (tc_root s)).
Proof.
  intros Hc. apply option_eq. intros v. rewrite <- (elem_of_tc_items n) by done. symmetry. apply elem_of_list_to_map.
  by eapply tc_items_NoDup.
Qed.

Lemma tree_view_size n (s : @TreeCache A V) : children n (tc_root s) → size (tree_view s) = length (tc_items s).
Proof.
  intros Hc. unfold tree_view. rewrite <- length_map_to_list, map_to_list_to_map; [done|]. by eapply tc_items_NoDup.
Qed.

Lemma find_length n (cs : list (A * tree A V)) (k : list A) v : children n cs → find k (TreeCacheNode cs) = Some v → length k = S n.
Proof.
  revert n cs. induction k as [|a k IH]; intros n cs Hc; [done|]. cbn [find]. intros (t & Ha & Hk)%bind_Some.
  pose proof (children_get _ _ _ _ Hc Ha) as Hu. destruct n as [|n], t as [w|cs']; try done.
  - destruct k; [done|]. done.
  - apply uniform_children in Hu as [Hu _]. simpl. f_equal. by eapply IH.
Qed.

#[export] Instance tree_laws n :
  CacheStoreLaws tree_store (λ k, length k = S n) (λ k, k ≠ [] ∧ (length k ≤ S n)%nat) prefix tree_view (tree_ok n).
Proof.
  split.
  - intros k Hk. split; [by destruct k|lia].
  - intros k k' Hk Hk'. split; [|by intros ->]. intros [j ->]. rewrite length_app in Hk'. destruct j; [by rewrite app_nil_r|simpl in *; lia].
  - split; [split; [split; constructor|done]|done].
  - intros s k v [Hc _] Hk. rewrite (tree_view_lookup n) in Hk by done. by eapply find_length.
  - intros s k [Hc _] Hk. simpl. unfold tree_get, tc_get.
    destruct (get_in_spec n (tc_root s) k Hc) as (o & -> & Ho & Hu); [by destruct k|lia|]. cbn [mbind result_bind].
    rewrite (tree_view_lookup n) by done. specialize (Ho []). rewrite app_nil_r in Ho. rewrite Ho.
    destruct o as [t|]; [|done]. specialize (Hu t eq_refl). rewrite Hk, Nat.sub_diag in Hu. by destruct t.
  - intros s k v [Hc Hs] Hk Hn. simpl. unfold tc_set.
    destruct (set_in_spec n (tc_root s) k v Hc Hk) as (cs' & -> & Hc' & _ & Hf). cbn [mbind result_bind].
    set (s' := MkTreeCache _ cs'). assert (Hv : tree_view s' = <[k := v]> (tree_view s)).
    { apply map_eq. intros j. rewrite (tree_view_lookup n) by done. simpl. rewrite Hf.
      destruct (decide (j = k)) as [->|Hne]; [by rewrite lookup_insert_eq|]. by rewrite lookup_insert_ne, (tree_view_lookup n). }
    exists s'. split_and!; [done|split; [done|]|done].
    rewrite <- (tree_view_size n) by done. rewrite Hv, map_size_insert_None by done. simpl. rewrite Hs, (tree_view_size n) by done. lia.
  - intros s k [Hc Hs] [Hk Hl]. simpl. unfold tree_pop, tc_pop.
    destruct (pop_in_spec n (tc_root s) k Hc Hk Hl) as (o & cs' & -> & Hc' & Hf & Ht & Hf'). cbn [mbind result_bind].
    assert (Hvals : default [] (iterate_tree_cache_entry <$> o) ≡ₚ (map_to_list (filter (λ kv, k `prefix_of` kv.1) (tree_view s))).*2).
    { rewrite <- (filter_values (λ j, k `prefix_of` j) (tree_view s)
        match o with Some t => (λ kv, (k ++ kv.1, kv.2)) <$> iterate_tree_cache_items [] t | None => [] end).
      - destruct o as [t|]; [|done]. simpl. rewrite (entries_items []), <- list_fmap_compose. done.
      - destruct o as [t|]; [|constructor]. rewrite <- list_fmap_compose.
        replace (fst ∘ (λ kv : list A * V, (k ++ kv.1, kv.2))) with ((λ j : list A, k ++ j) ∘ (fst : list A * V → _)) by done.
        rewrite list_fmap_compose. apply (NoDup_fmap_2 _). eapply items_NoDup_keys. by apply Ht.
      - intros j v. rewrite (tree_view_lookup n) by done. destruct o as [t|].
        + rewrite list_elem_of_fmap. specialize (Ht t eq_refl). split.
          * intros ([j' v'] & [= -> ->] & Hin). split; [|by exists j']. rewrite Hf. simpl. by eapply elem_of_items_find.
          * intros [Hj [j' ->]]. rewrite Hf in Hj. exists (j', v). split; [done|]. by eapply elem_of_items_find.
        + split; [by intros ?%not_elem_of_nil|]. intros [Hj [j' ->]]. by rewrite Hf in Hj. }
    assert (Hview : ∀ s', tc_root s' = cs' → tree_view s' = filter (λ kv, ¬ k `prefix_of` kv.1) (tree_view s)).
    { intros s' Hr. apply map_eq. intros j. rewrite (tree_view_lookup n), Hr, Hf', map_lookup_filter, (tree_view_lookup n) by (by rewrite ?Hr).
      destruct (find j _); simpl; [|by case_decide]. case_decide; [by rewrite option_guard_False by naive_solver|by rewrite option_guard_True]. }
    assert (Hsz : (size (tree_view s) = size (filter (λ kv, ¬ k `prefix_of` kv.1) (tree_view s)) + length (default [] (iterate_tree_cache_entry <$> o)))%nat).
    { rewrite Hvals, length_fmap, length_map_to_list. rewrite <- (map_filter_union_complement (λ kv, k `prefix_of` kv.1) (tree_view s)) at 1.
      rewrite map_size_disj_union by apply map_disjoint_filter_complement. lia. }
    destruct o as [t|]; cbn [mbind result_bind].
    + eexists _, _. split; [done|]. split_and!; [|by apply Hview|done]. split; [done|]. simpl. rewrite Hs.
      rewrite <- (tree_view_size n) by done. rewrite <- (tree_view_size n (MkTreeCache _ cs')) by done. rewrite (Hview (MkTreeCache _ cs') eq_refl).
      simpl in Hsz. lia.
    + exists None, s. split_and!; [done|done| |done]. apply map_eq. intros j. rewrite map_lookup_filter.
      destruct (tree_view s !! j) as [v|] eqn:Hj; simpl; [|done]. rewrite option_guard_True; [done|].
      intros [j' ->]. rewrite (tree_view_lookup n), Hf in Hj; done.
  - intros s [Hc _]. simpl. unfold tc_values. rewrite (entries_items []). apply Permutation_map. unfold tree_view.
    rewrite map_to_list_to_map; [done|]. by eapply tc_items_NoDup.
  - intros s [Hc Hs]. simpl. unfold tc_len. by rewrite Hs, (tree_view_size n).
Qed.
End tree.
