(* ===== verification/LruCache.v ===== *)
(** * [LruCache]: [synapse/util/caches/lrucache.py]

    A cache is a store of entries ([CacheStore]: a dict or a tree) with a linked list of
    them, the most recently used first.  Entries are objects ([_Node]) with a list node
    each; both stay in their stores after they were dropped.  Callbacks are names, and
    running one appends it to a log.  Every operation is one step: the lookups and changes
    of entries hold the lock of the cache; a resize ([set_cache_factor]) runs [evict] without
    it, and is one step here as on the thread of the reactor, which makes all of these calls.
    Metrics, memory tracking and the global list of the time-based expiry are
    left out. *)

From S2P Require Import Prelude TopoSort LinkedList CacheStores.

Record _Node (K V C : Type) := MkEntry {
  _list_node : nat;
  key : K;
  value : V;
  (** [None] is the empty list *)
  callbacks : list C
}.
Arguments MkEntry {K V C}.
Arguments _list_node {K V C}.
Arguments key {K V C}.
Arguments value {K V C}.
Arguments callbacks {K V C}.

Record LruCache (K V C S : Type) := MkLru {
  cache : S;
  nodes : gmap nat (_Node K V C);
  lists : gmap nat (ListNode nat);
  list_root : nat;
  cached_cache_len : Z;
  max_size : Z;
  _original_max_size : Z;
  apply_cache_factor_from_config : bool;
  (** the callbacks that were run *)
  ran : list C
}.
Arguments MkLru {K V C S}.
Arguments cache {K V C S}.
Arguments nodes {K V C S}.
Arguments lists {K V C S}.
Arguments list_root {K V C S}.
Arguments cached_cache_len {K V C S}.
Arguments max_size {K V C S}.
Arguments _original_max_size {K V C S}.
Arguments apply_cache_factor_from_config {K V C S}.
Arguments ran {K V C S}.

Section lru.
Context {K V C S : Type} `{Countable K, EqDecision V, Countable C, IterOrder} `{!CacheStore K nat S}.
Context (size_callback : option (V → Z)).
Abbreviation lru := (LruCache K V C S).

Definition new_LruCache (max_size : Z) (default_factor_size : Z → Z) (apply_cache_factor_from_config : bool) : lru :=
  let '(root, lists) := create_root_node ∅ in
  {| cache := cs_new; nodes := ∅; lists := lists; list_root := root; cached_cache_len := 0;
     max_size := if apply_cache_factor_from_config then default_factor_size max_size else max_size;
     _original_max_size := max_size; apply_cache_factor_from_config := apply_cache_factor_from_config;
     ran := [] |}.

(** ** Updates of single attributes *)

Definition set_cache (x : S) (c : lru) : lru :=
  MkLru x (nodes c) (lists c) (list_root c) (cached_cache_len c) (max_size c) (_original_max_size c) (apply_cache_factor_from_config c) (ran c).
Definition set_nodes (x : gmap nat (_Node K V C)) (c : lru) : lru :=
  MkLru (cache c) x (lists c) (list_root c) (cached_cache_len c) (max_size c) (_original_max_size c) (apply_cache_factor_from_config c) (ran c).
Definition set_lists (x : gmap nat (ListNode nat)) (c : lru) : lru :=
  MkLru (cache c) (nodes c) x (list_root c) (cached_cache_len c) (max_size c) (_original_max_size c) (apply_cache_factor_from_config c) (ran c).
Definition set_len (x : Z) (c : lru) : lru :=
  MkLru (cache c) (nodes c) (lists c) (list_root c) x (max_size c) (_original_max_size c) (apply_cache_factor_from_config c) (ran c).
Definition set_max (x : Z) (c : lru) : lru :=
  MkLru (cache c) (nodes c) (lists c) (list_root c) (cached_cache_len c) x (_original_max_size c) (apply_cache_factor_from_config c) (ran c).
Definition set_ran (x : list C) (c : lru) : lru :=
  MkLru (cache c) (nodes c) (lists c) (list_root c) (cached_cache_len c) (max_size c) (_original_max_size c) (apply_cache_factor_from_config c) x.

(** The entry at an id: an object that exists. *)
Definition entry (id : nat) (c : lru) : result (_Node K V C) :=
  match nodes c !! id with Some n => Ok n | None => Err (PyBuiltin AttributeError) end.

(** ** Entries *)

(** [_Node.add_callbacks] on the list of callbacks *)
Definition add_callbacks (cbs new : list C) : list C :=
  foldl (λ cbs cb, if bool_decide (cb ∈ cbs) then cbs else cbs ++ [cb]) cbs new.

Definition node_add_callbacks (id : nat) (new : list C) (c : lru) : lru :=
  set_nodes (alter (λ n, MkEntry (_list_node n) (key n) (value n) (add_callbacks (callbacks n) new)) id (nodes c)) c.

Definition run_and_clear_callbacks (id : nat) (c : lru) : result lru :=
  n ← entry id c;
  let c := set_ran (ran c ++ callbacks n) c in
  Ok (set_nodes (<[id := MkEntry (_list_node n) (key n) (value n) []]> (nodes c)) c).

Definition drop_from_lists (id : nat) (c : lru) : result lru :=
  n ← entry id c;
  Ok (set_lists (remove_from_list (_list_node n) (lists c)) c).

Definition move_to_front (id : nat) (c : lru) : result lru :=
  n ← entry id c;
  lists ← move_after (_list_node n) (list_root c) (lists c);
  Ok (set_lists lists c).

(** ** The closures of [__init__] *)

Definition cache_len (c : lru) : Z :=
  match size_callback with Some _ => cached_cache_len c | None => cs_len (cache c) end.

Definition add_node (k : K) (v : V) (cbs : list C) (c : lru) : result lru :=
  let id := fresh (dom (nodes c)) in
  '(list_node, lists) ← insert_after id (list_root c) (lists c);
  let c := set_lists lists c in
  let c := set_nodes (<[id := MkEntry list_node k v (add_callbacks [] cbs)]> (nodes c)) c in
  cache' ← cs_set (cache c) k id;
  let c := set_cache cache' c in
  Ok (match size_callback with Some f => set_len (cached_cache_len c + f v) c | None => c end).

Definition delete_node (id : nat) (c : lru) : result lru :=
  c ← drop_from_lists id c;
  n ← entry id c;
  let c := match size_callback with Some f => set_len (cached_cache_len c - f (value n)) c | None => c end in
  run_and_clear_callbacks id c.

(** One round of the loop of [evict]. *)
Definition evict_one (c : lru) : result lru :=
  todelete ← assert_some (prv (lists c) (list_root c));
  id ← assert_some (get_cache_entry (lists c) todelete);
  c ← delete_node id c;
  n ← entry id c;
  '(_, cache') ← cs_pop (cache c) (key n);
  Ok (set_cache cache' c).

Fixpoint evict_loop (fuel : nat) (c : lru) : result lru :=
  if cache_len c <=? max_size c then Ok c
  else match fuel with
       | O => Ok c
       | Datatypes.S fuel => c ← evict_one c; evict_loop fuel c
       end.

(** There are no more rounds than entries. *)
Definition evict (c : lru) : result lru := evict_loop (size (nodes c)) c.

Definition cache_get (k : K) (cbs : list C) (update_last_access : bool) (c : lru) : result (option V * lru) :=
  node ← cs_get (cache c) k;
  match node with
  | Some id =>
      c ← (if update_last_access then move_to_front id c else Ok c);
      let c := node_add_callbacks id cbs c in
      n ← entry id c;
      Ok (Some (value n), c)
  | None => Ok (None, c)
  end.

Definition cache_set (k : K) (v : V) (cbs : list C) (c : lru) : result lru :=
  node ← cs_get (cache c) k;
  c ← match node with
      | Some id =>
          n ← entry id c;
          c ← (if bool_decide (v ≠ value n) then run_and_clear_callbacks id c else Ok c);
          let c := match size_callback with
                   | Some f => set_len (cached_cache_len c - f (value n) + f v) c
                   | None => c
                   end in
          let c := node_add_callbacks id cbs c in
          c ← move_to_front id c;
          n ← entry id c;
          Ok (set_nodes (<[id := MkEntry (_list_node n) (key n) v (callbacks n)]> (nodes c)) c)
      | None => add_node k v (set_iter (list_to_set cbs : gset C)) c
      end;
  evict c.

Definition cache_set_default (k : K) (v : V) (c : lru) : result (V * lru) :=
  node ← cs_get (cache c) k;
  match node with
  | Some id => n ← entry id c; Ok (value n, c)
  | None => c ← add_node k v [] c; c ← evict c; Ok (v, c)
  end.

Definition cache_pop (k : K) (c : lru) : result (option V * lru) :=
  node ← cs_get (cache c) k;
  match node with
  | Some id =>
      c ← delete_node id c;
      n ← entry id c;
      '(_, cache') ← cs_pop (cache c) (key n);
      Ok (Some (value n), set_cache cache' c)
  | None => Ok (None, c)
  end.

Definition cache_del_multi (k : K) (c : lru) : result lru :=
  '(popped, cache') ← cs_pop (cache c) k;
  let c := set_cache cache' c in
  fold_res (λ c leaf, delete_node leaf c) (default [] popped) c.

Definition cache_clear (c : lru) : result lru :=
  c ← fold_res (λ c id, c ← run_and_clear_callbacks id c; drop_from_lists id c) (cs_values (cache c)) c;
  raise_if (negb (bool_decide (nxt (lists c) (list_root c) = Some (list_root c)))) (PyBuiltin AssertionError) ;;
  raise_if (negb (bool_decide (prv (lists c) (list_root c) = Some (list_root c)))) (PyBuiltin AssertionError) ;;
  let c := set_cache cs_new c in
  Ok (match size_callback with Some _ => set_len 0 c | None => c end).

Definition cache_contains (k : K) (c : lru) : result bool :=
  node ← cs_get (cache c) k; Ok (bool_decide (is_Some node)).

(** ** The methods *)

Definition getitem (k : K) (c : lru) : result (V * lru) :=
  '(o, c) ← cache_get k [] true c;
  match o with Some v => Ok (v, c) | None => Err (PyBuiltin KeyError) end.

Definition setitem (k : K) (v : V) (c : lru) : result lru := cache_set k v [] c.

(** [scaled] is [int(self._original_max_size * factor)].  The lock is not taken. *)
Definition set_cache_factor (scaled : Z) (c : lru) : result lru :=
  if negb (apply_cache_factor_from_config c) then Ok c
  else if bool_decide (scaled = max_size c) then Ok c
  else evict (set_max scaled c).
End lru.
