(* ===== verification/LruProps.v ===== *)
(** * [LruCache] as a list of entries, the most recently used first *)

From S2P Require Import Prelude TopoSort LinkedList CacheStores LruCache.

(** ** The abstract cache *)

Section spec.
Context {K V C : Type} `{Countable K, EqDecision V, Countable C, IterOrder}.
Context (size_callback : option (V → Z)) (under : relation K) `{!RelDecision under} (resizable : bool).

Record item := Item { i_key : K; i_val : V; i_cbs : list C }.

Definition size_of (v : V) : Z := match size_callback with Some f => f v | None => 1 end.
Definition total (l : list item) : Z := foldr (λ e s, size_of (i_val e) + s) 0 l.

Definition lookup_item (k : K) (l : list item) : option item := snd <$> list_find (λ e, i_key e = k) l.
Definition without (k : K) (l : list item) : list item := filter (λ e, i_key e ≠ k) l.

(** The longest beginning that fits. *)
Fixpoint fitting (room : Z) (l : list item) : list item :=
  match l with
  | [] => []
  | e :: l => if size_of (i_val e) <=? room then e :: fitting (room - size_of (i_val e)) l else []
  end.

Definition callbacks_of (l : list item) : list C := l ≫= i_cbs.

(** A cache, and what happens to it: the least recently used items go. *)
Record state := State { s_items : list item; s_max : Z; s_ran : list C }.

Definition shrink (s : state) : state :=
  let kept := fitting (s_max s) (s_items s) in
  State kept (s_max s) (s_ran s ++ callbacks_of (reverse (drop (length kept) (s_items s)))).

Inductive op :=
| Get (k : K) (cbs : list C) (update_last_access : bool)
| SetItem (k : K) (v : V) (cbs : list C)
| SetDefault (k : K) (v : V)
| Pop (k : K)
| DelMulti (k : K)
| Clear
| Contains (k : K)
| Resize (scaled : Z).

Inductive outcome := Value (o : option V) | Answer (b : bool) | Done.

Definition get_item (k : K) (cbs : list C) (touch : bool) (s : state) : outcome * state :=
  match lookup_item k (s_items s) with
  | None => (Value None, s)
  | Some e =>
      let e' := Item k (i_val e) (add_callbacks (i_cbs e) cbs) in
      (Value (Some (i_val e)),
       State (if touch then e' :: without k (s_items s)
              else (λ x, if decide (i_key x = k) then e' else x) <$> s_items s) (s_max s) (s_ran s))
  end.

Definition set_item (k : K) (v : V) (cbs : list C) (s : state) : state :=
  match lookup_item k (s_items s) with
  | None =>
      shrink (State (Item k v (add_callbacks [] (set_iter (list_to_set cbs : gset C))) :: s_items s) (s_max s) (s_ran s))
  | Some e =>
      let changed := bool_decide (v ≠ i_val e) in
      shrink (State (Item k v (add_callbacks (if changed then [] else i_cbs e) cbs) :: without k (s_items s)) (s_max s)
                (s_ran s ++ if changed then i_cbs e else []))
  end.

Definition set_default (k : K) (v : V) (s : state) : outcome * state :=
  match lookup_item k (s_items s) with
  | Some e => (Value (Some (i_val e)), s)
  | None => (Value (Some v), shrink (State (Item k v [] :: s_items s) (s_max s) (s_ran s)))
  end.

Definition drop_items (P : K → Prop) `{∀ k, Decision (P k)} (s : state) : state :=
  State (filter (λ e, ¬ P (i_key e)) (s_items s)) (s_max s)
    (s_ran s ++ callbacks_of (filter (λ e, P (i_key e)) (s_items s))).

Definition step (o : op) (s : state) : outcome * state :=
  match o with
  | Get k cbs touch => get_item k cbs touch s
  | SetItem k v cbs => (Done, set_item k v cbs s)
  | SetDefault k v => set_default k v s
  | Pop k => (Value (i_val <$> lookup_item k (s_items s)), drop_items (λ k', k' = k) s)
  | DelMulti k => (Done, drop_items (λ k', under k k') s)
  | Clear => (Done, drop_items (λ _, True) s)
  | Contains k => (Answer (bool_decide (is_Some (lookup_item k (s_items s)))), s)
  | Resize scaled => (Done, if negb resizable || bool_decide (scaled = s_max s) then s else shrink (State (s_items s) scaled (s_ran s)))
  end.

(** ** Facts about lists of items *)

Lemma total_app l1 l2 : total (l1 ++ l2) = total l1 + total l2.
Proof. induction l1 as [|e l1 IH]; simpl; [done|]. rewrite IH. lia. Qed.

Lemma lookup_item_split k l1 e l2 :
  NoDup (i_key <$> l1 ++ e :: l2) → i_key e = k →
  lookup_item k (l1 ++ e :: l2) = Some e ∧ without k (l1 ++ e :: l2) = l1 ++ l2.
Proof.
  intros Hnd <-. rewrite fmap_app, fmap_cons in Hnd. apply NoDup_app in Hnd as (Hn1 & Hd & [He Hn2]%NoDup_cons).
  assert (HA : ∀ x, x ∈ l1 → i_key x ≠ i_key e).
  { intros x Hx E. apply (Hd (i_key x)); [by apply list_elem_of_fmap_2|]. rewrite E. by left. }
  assert (HB : ∀ x, x ∈ l2 → i_key x ≠ i_key e).
  { intros x Hx E. apply He. rewrite <- E. by apply list_elem_of_fmap_2. }
  split.
  - unfold lookup_item. rewrite (proj2 (list_find_Some _ _ (length l1) e)); [done|]. split_and!.
    + by rewrite lookup_app_r, Nat.sub_diag.
    + done.
    + intros j y Hy Hj. rewrite lookup_app_l in Hy by done. apply HA. by eapply list_elem_of_lookup_2.
  - unfold without. rewrite filter_app, filter_cons, decide_False by naive_solver. f_equal.
    + apply filter_keeps. intros x Hx. by apply HA.
    + apply filter_keeps. intros x Hx. by apply HB.
Qed.

Lemma lookup_item_Some k l e : lookup_item k l = Some e → ∃ l1 l2, l = l1 ++ e :: l2 ∧ i_key e = k.
Proof.
  unfold lookup_item. intros ([i e'] & Hf & [= <-])%fmap_Some. apply list_find_Some in Hf as (Hl & Hk & _).
  apply take_drop_middle in Hl. simpl in *. eauto.
Qed.
Lemma lookup_item_None k l : lookup_item k l = None ↔ k ∉ i_key <$> l.
Proof.
  unfold lookup_item. rewrite fmap_None, list_find_None, Forall_forall. split.
  - intros Hall (e & -> & He)%list_elem_of_fmap. by apply (Hall e).
  - intros Hn e He <-. apply Hn. by apply list_elem_of_fmap_2.
Qed.

Context (Hsize : ∀ v, 0 ≤ size_of v).

Lemma total_nonneg l : 0 ≤ total l.
Proof. induction l as [|e l IH]; simpl; [lia|]. pose proof (Hsize (i_val e)). lia. Qed.

Lemma fitting_all room l : total l ≤ room → fitting room l = l.
Proof.
  revert room. induction l as [|e l IH]; intros room; simpl; [done|]. intros Ht. pose proof (total_nonneg l).
  rewrite (proj2 (Z.leb_le _ _)) by lia. rewrite IH by lia. done.
Qed.
Lemma fitting_snoc room l e : room < total (l ++ [e]) → fitting room (l ++ [e]) = fitting room l.
Proof.
  revert room. induction l as [|x l IH]; intros room; simpl; intros Ht.
  - by rewrite (proj2 (Z.leb_gt _ _)) by lia.
  - case_match; [|done]. rewrite IH by lia. done.
Qed.
Lemma fitting_prefix room l : ∃ l', l = fitting room l ++ l'.
Proof.
  revert room. induction l as [|x l IH]; intros room; simpl; [by exists []|]. case_match.
  - destruct (IH (room - size_of (i_val x))) as [l' E]. exists l'. simpl. by rewrite <- E.
  - by exists (x :: l).
Qed.
Lemma fitting_fits room l : 0 ≤ room → total (fitting room l) ≤ room.
Proof.
  revert room. induction l as [|x l IH]; intros room Hr; simpl; [lia|]. case_match eqn:E; simpl; [|lia].
  apply Z.leb_le in E. specialize (IH (room - size_of (i_val x))). lia.
Qed.
End spec.

(** * [LruCache] refines the list of items

    The invariant ties the linked list, the entries, the store and the counter together;
    every operation keeps it and does to the list of items what [step] does. *)

Section refine.
Context {K V C S : Type} `{Countable K, EqDecision V, Countable C, IterOrder} `{!CacheStore K nat S}.
Context {full part : K → Prop} {under : relation K} `{!RelDecision under} {view : S → gmap K nat} {ok : S → Prop}.
Context `{!CacheStoreLaws _ full part under view ok}.
Context (size_callback : option (V → Z)).

Abbreviation lru := (LruCache K V C S).
Abbreviation item := (@item K V C).
Abbreviation total := (@total K V C size_callback).

(** An entry of the linked list: the entry, its list node and the item it stands for. *)
Record row := Row { r_id : nat; r_ln : nat; r_item : item }.

Definition entry_of (r : row) : _Node K V C :=
  MkEntry (r_ln r) (i_key (r_item r)) (i_val (r_item r)) (i_cbs (r_item r)).

(** Everything but the store. *)
Record body (c : lru) (rows : list row) : Prop := {
  b_ids : NoDup (r_id <$> rows);
  b_nodes r : r ∈ rows → nodes c !! r_id r = Some (entry_of r);
  b_ring : ring (lists c) (list_root c) (r_ln <$> rows);
  b_entry r : r ∈ rows → get_cache_entry (lists c) (r_ln r) = Some (r_id r);
  b_len : is_Some size_callback → cached_cache_len c = total (r_item <$> rows)
}.

Definition key_of (r : row) : K := i_key (r_item r).

(** The store has the rows. *)
Record stored (s : S) (rows : list row) : Prop := {
  st_ok : ok s;
  st_keys : NoDup (key_of <$> rows);
  st_view k id : view s !! k = Some id ↔ ∃ r, r ∈ rows ∧ key_of r = k ∧ r_id r = id
}.

Definition conf (c : lru) : nat * Z * Z * bool :=
  (list_root c, max_size c, _original_max_size c, apply_cache_factor_from_config c).

Lemma entry_ok c rows r : body c rows → r ∈ rows → entry (r_id r) c = Ok (entry_of r).
Proof. intros Hb Hr. unfold entry. by rewrite (b_nodes _ _ Hb r Hr). Qed.

Lemma rows_split l1 (r : row) l2 x : x ∈ l1 ++ r :: l2 ↔ x = r ∨ x ∈ l1 ++ l2.
Proof. rewrite !elem_of_app, elem_of_cons. tauto. Qed.

Lemma ids_split l1 r l2 x : NoDup (r_id <$> l1 ++ r :: l2) → x ∈ l1 ++ l2 → r_id x ≠ r_id r.
Proof.
  rewrite fmap_app, fmap_cons. intros (_ & Hd & [Hr _]%NoDup_cons)%NoDup_app Hx E.
  apply elem_of_app in Hx as [Hx|Hx].
  - apply (Hd (r_id x)); [by apply list_elem_of_fmap_2|]. rewrite E. by left.
  - apply Hr. rewrite <- E. by apply list_elem_of_fmap_2.
Qed.

Lemma NoDup_remove {A} (l1 : list A) x l2 : NoDup (l1 ++ x :: l2) → NoDup (l1 ++ l2).
Proof. intros Hnd. by apply NoDup_ListNoDup, (List.NoDup_remove_1 l1 l2 x), NoDup_ListNoDup. Qed.

Lemma total_split l1 r l2 : total (r_item <$> l1 ++ r :: l2) = size_of size_callback (i_val (r_item r)) + total (r_item <$> l1 ++ l2).
Proof. rewrite !fmap_app, fmap_cons, !total_app. simpl. lia. Qed.

(** ** Deleting and moving entries *)

Lemma delete_node_ok c l1 r l2 :
  body c (l1 ++ r :: l2) →
  ∃ c', delete_node size_callback (r_id r) c = Ok c' ∧ body c' (l1 ++ l2) ∧ cache c' = cache c ∧ conf c' = conf c ∧
    ran c' = ran c ++ i_cbs (r_item r) ∧
    entry (r_id r) c' = Ok (MkEntry (r_ln r) (key_of r) (i_val (r_item r)) []).
Proof.
  intros Hb. assert (Hr : r ∈ l1 ++ r :: l2) by (apply rows_split; by left). unfold delete_node, drop_from_lists.
  rewrite (entry_ok _ _ _ Hb Hr). cbn [mbind result_bind]. unfold entry at 1. cbn [set_lists nodes].
  rewrite (b_nodes _ _ Hb r Hr). cbn [mbind result_bind].
  pose proof (b_ring _ _ Hb) as Hring. rewrite fmap_app, fmap_cons in Hring.
  destruct (remove_from_list_ring _ _ _ _ _ Hring) as (Hring' & Hdom & He & Hp & Hen). cbn zeta in *.
  set (c1 := match size_callback with Some f => _ | None => _ end).
  assert (Hc1 : nodes c1 = nodes c ∧ lists c1 = remove_from_list (r_ln r) (lists c) ∧ cache c1 = cache c ∧
    conf c1 = conf c ∧ ran c1 = ran c ∧ (is_Some size_callback → cached_cache_len c1 = cached_cache_len c - size_of size_callback (i_val (r_item r)))).
  { unfold c1, size_of. destruct size_callback; simpl; split_and!; done. }
  destruct Hc1 as (N & L & E & F & R & Z). clearbody c1. unfold run_and_clear_callbacks, entry. rewrite N, (b_nodes _ _ Hb r Hr).
  cbn [mbind result_bind]. eexists. split; [done|]. split; [|split; [done|split; [|split]]].
  - constructor; simpl.
    + pose proof (b_ids _ _ Hb) as Hi. rewrite fmap_app, fmap_cons in Hi. rewrite fmap_app. by apply NoDup_remove in Hi.
    + intros x Hx. rewrite N, lookup_insert_ne; [apply (b_nodes _ _ Hb)|].
      * apply rows_split. by right.
      * apply not_eq_sym. eapply ids_split; [apply (b_ids _ _ Hb)|done].
    + rewrite L, fmap_app. unfold conf in F. by assert (list_root c1 = list_root c) as -> by congruence.
    + intros x Hx. rewrite L, Hen.
      * apply (b_entry _ _ Hb). apply rows_split. by right.
      * intros Hln. destruct Hring as [Hnd _]. apply NoDup_cons in Hnd as [_ Hnd]. apply NoDup_app in Hnd as (_ & Hd & [Hn _]%NoDup_cons).
        apply elem_of_app in Hx as [Hx|Hx].
        -- apply (Hd (r_ln x)); [by apply list_elem_of_fmap_2|]. rewrite Hln. by left.
        -- apply Hn. rewrite <- Hln. by apply list_elem_of_fmap_2.
    + intros Hs. rewrite Z, (b_len _ _ Hb Hs), total_split by done. lia.
  - unfold conf in *. simpl. congruence.
  - simpl. by rewrite R.
  - simpl. by rewrite lookup_insert_eq.
Qed.

Lemma move_to_front_ok c l1 r l2 :
  body c (l1 ++ r :: l2) →
  ∃ c', move_to_front (r_id r) c = Ok c' ∧ body c' (r :: l1 ++ l2) ∧ cache c' = cache c ∧ conf c' = conf c ∧
    ran c' = ran c ∧ nodes c' = nodes c.
Proof.
  intros Hb. assert (Hr : r ∈ l1 ++ r :: l2) by (apply rows_split; by left). unfold move_to_front.
  rewrite (entry_ok _ _ _ Hb Hr). cbn [mbind result_bind].
  pose proof (b_ring _ _ Hb) as Hring. rewrite fmap_app, fmap_cons in Hring.
  destruct (move_after_ring _ _ _ _ _ Hring) as (h' & Hm & Hring' & Hdom & He). cbn [entry_of _list_node]. rewrite Hm. cbn [mbind result_bind].
  eexists. split; [done|]. split_and!; try done.
  assert (Hp : r :: l1 ++ l2 ≡ₚ l1 ++ r :: l2) by apply Permutation_middle.
  constructor; simpl.
  - pose proof (b_ids _ _ Hb) as Hi. by rewrite <- Hp in Hi.
  - intros x Hx. apply (b_nodes _ _ Hb). by rewrite Hp in Hx.
  - by rewrite fmap_app.
  - intros x Hx. rewrite He. apply (b_entry _ _ Hb). by rewrite Hp in Hx.
  - intros Hs. rewrite (b_len _ _ Hb Hs), total_split. done.
Qed.

(** ** The store *)

Lemma stored_full s rows r : stored s rows → r ∈ rows → full (key_of r).
Proof. intros Hs Hr. eapply view_full; [apply (st_ok _ _ Hs)|]. apply (st_view _ _ Hs). eauto. Qed.

Lemma stored_pop s rows k :
  stored s rows → part k →
  ∃ o s', cs_pop s k = Ok (o, s') ∧ stored s' (filter (λ r, ¬ under k (key_of r)) rows) ∧
    default [] o ≡ₚ r_id <$> filter (λ r, under k (key_of r)) rows.
Proof.
  intros Hs Hk. destruct (pop_ok s k (st_ok _ _ Hs) Hk) as (o & s' & Hp & Ho & Hv & Hl). exists o, s'. split; [done|].
  assert (Hnd : ∀ (P : row → Prop) `{∀ r, Decision (P r)}, NoDup (key_of <$> filter P rows)).
  { intros P HP. eapply sublist_NoDup; [apply (st_keys _ _ Hs)|]. apply fmap_sublist, sublist_filter. }
  split.
  - constructor; [done|apply Hnd|]. intros k' id. rewrite Hv, map_lookup_filter_Some, (st_view _ _ Hs). simpl.
    setoid_rewrite list_elem_of_filter. naive_solver.
  - rewrite Hl. symmetry.
    replace (r_id <$> filter (λ r, under k (key_of r)) rows) with (((λ r, (key_of r, r_id r)) <$> filter (λ r, under k (key_of r)) rows).*2)
      by (by rewrite <- list_fmap_compose).
    apply (filter_values (λ k', under k k')).
    + rewrite <- list_fmap_compose. apply (Hnd (λ r, under k (key_of r))).
    + intros k' id. rewrite list_elem_of_fmap, (st_view _ _ Hs). setoid_rewrite list_elem_of_filter. naive_solver.
Qed.

Lemma filter_one s l1 r l2 :
  stored s (l1 ++ r :: l2) → filter (λ x, ¬ under (key_of r) (key_of x)) (l1 ++ r :: l2) = l1 ++ l2.
Proof.
  intros Hs. assert (Hf : ∀ x, x ∈ l1 ++ r :: l2 → full (key_of x)) by (intros x Hx; by eapply stored_full).
  pose proof (st_keys _ _ Hs) as Hnd. rewrite fmap_app, fmap_cons in Hnd. apply NoDup_app in Hnd as (_ & Hd & [Hr _]%NoDup_cons).
  assert (Hfr : full (key_of r)) by (apply Hf, rows_split; by left).
  rewrite filter_app, filter_cons, decide_False by (intros Hn; apply Hn; by apply under_full). f_equal; apply filter_keeps; intros x Hx.
  - rewrite under_full; [|done|apply Hf, elem_of_app; by left]. intros E.
    apply (Hd (key_of x)); [by apply list_elem_of_fmap_2|]. rewrite <- E. by left.
  - rewrite under_full; [|done|apply Hf, elem_of_app; right; by right]. intros E. apply Hr. rewrite E. by apply list_elem_of_fmap_2.
Qed.

Lemma stored_get s rows k :
  stored s rows → full k →
  cs_get s k = Ok (r_id <$> (snd <$> list_find (λ r, key_of r = k) rows)).
Proof.
  intros Hs Hk. rewrite (get_ok s k (st_ok _ _ Hs) Hk). f_equal.
  destruct (list_find (λ r, key_of r = k) rows) as [[i r]|] eqn:Hf; simpl.
  - apply list_find_Some in Hf as (Hr & Hkr & _). apply (st_view _ _ Hs). exists r. split; [by eapply list_elem_of_lookup_2|done].
  - destruct (view s !! k) as [id|] eqn:Hv; [|done]. apply (st_view _ _ Hs) in Hv as (r & Hr & Hkr & _).
    rewrite list_find_None, Forall_forall in Hf. by apply Hf in Hr.
Qed.

Lemma cache_len_total c rows : body c rows → stored (cache c) rows → cache_len size_callback c = total (r_item <$> rows).
Proof.
  intros Hb Hs. unfold cache_len. assert (Hsc : is_Some size_callback ∨ size_callback = None) by (destruct size_callback; eauto).
  destruct Hsc as [Hsc|Hn].
  { rewrite <- (b_len _ _ Hb Hsc). destruct Hsc as [f Hf]. by rewrite Hf. }
  transitivity (cs_len (cache c)); [by rewrite Hn|]. rewrite (len_ok _ (st_ok _ _ Hs)).
  assert (Hv : view (cache c) = dict_view ((λ r, (key_of r, r_id r)) <$> rows)).
  { apply map_eq. intros k. apply option_eq. intros id. rewrite (st_view _ _ Hs). unfold dict_view.
    rewrite <- elem_of_list_to_map, list_elem_of_fmap by (rewrite <- list_fmap_compose; apply (st_keys _ _ Hs)). naive_solver. }
  rewrite Hv, dict_view_size by (rewrite <- list_fmap_compose; apply (st_keys _ _ Hs)). rewrite length_fmap.
  clear -Hn. induction rows as [|r rows IH]; [done|].
  change (total (r_item <$> r :: rows)) with (size_of size_callback (i_val (r_item r)) + total (r_item <$> rows)).
  rewrite <- IH. unfold size_of. rewrite Hn. simpl length. lia.
Qed.

(** ** Eviction *)

Context (Hsize : ∀ v, 0 ≤ size_of size_callback v).

Lemma evict_one_ok c l r :
  body c (l ++ [r]) → stored (cache c) (l ++ [r]) →
  ∃ c', evict_one size_callback c = Ok c' ∧ body c' l ∧ stored (cache c') l ∧ conf c' = conf c ∧
    ran c' = ran c ++ i_cbs (r_item r).
Proof.
  intros Hb Hs. unfold evict_one. pose proof (b_ring _ _ Hb) as [_ Hc]. rewrite fmap_app in Hc. simpl in Hc.
  rewrite (chain_last _ _ _ _ Hc), last_snoc. simpl.
  rewrite (b_entry _ _ Hb r) by (apply elem_of_app; right; by left). cbn [assert_some mbind result_bind].
  destruct (delete_node_ok c l r [] Hb) as (c1 & -> & Hb1 & Hca & Hcf & Hrn & He). cbn [mbind result_bind]. rewrite He. cbn [mbind result_bind key].
  destruct (stored_pop (cache c1) (l ++ [r]) (key_of r)) as (o & s' & Hp & Hs' & _).
  { by rewrite Hca. }
  { eapply full_part, stored_full; [exact Hs|]. apply elem_of_app. right. by left. }
  rewrite Hp. cbn [mbind result_bind]. rewrite (filter_one (cache c) l r []) in Hs' by done. rewrite app_nil_r in *.
  eexists. split; [done|]. split_and!; try done. by destruct Hb1; constructor.
Qed.

Lemma evict_loop_ok fuel c rows :
  body c rows → stored (cache c) rows → 0 ≤ max_size c → (length rows ≤ fuel)%nat →
  ∃ c' rows', evict_loop size_callback fuel c = Ok c' ∧ body c' rows' ∧ stored (cache c') rows' ∧
    r_item <$> rows' = fitting size_callback (max_size c) (r_item <$> rows) ∧ conf c' = conf c ∧
    ran c' = ran c ++ callbacks_of (reverse (drop (length rows') (r_item <$> rows))).
Proof.
  revert fuel c. induction rows as [|r l IH] using rev_ind; intros fuel c Hb Hs Hm Hf.
  - assert (Hl : cache_len size_callback c = 0) by (by rewrite (cache_len_total _ _ Hb Hs)).
    exists c, []. split; [|split_and!; try done; by rewrite app_nil_r].
    destruct fuel; simpl; by rewrite Hl, (proj2 (Z.leb_le _ _)).
  - assert (Hsn : r_item <$> l ++ [r] = (r_item <$> l) ++ [r_item r]) by (by rewrite fmap_app).
    assert (Hstep : evict_loop size_callback fuel c =
      if cache_len size_callback c <=? max_size c then Ok c
      else match fuel with O => Ok c | Datatypes.S fuel => c ← evict_one size_callback c; evict_loop size_callback fuel c end)
      by (by destruct fuel).
    rewrite Hstep, (cache_len_total _ _ Hb Hs). destruct (total (r_item <$> l ++ [r]) <=? max_size c) eqn:E.
    + apply Z.leb_le in E. exists c, (l ++ [r]). split_and!; try done.
      * by rewrite fitting_all.
      * rewrite drop_ge by (by rewrite length_fmap). by rewrite app_nil_r.
    + apply Z.leb_gt in E. rewrite Hsn in E. rewrite length_app in Hf. simpl in Hf. destruct fuel as [|fuel]; [lia|].
      destruct (evict_one_ok c l r Hb Hs) as (c1 & -> & Hb1 & Hs1 & Hcf & Hrn). cbn [mbind result_bind].
      assert (Hm1 : max_size c1 = max_size c) by (unfold conf in Hcf; congruence).
      destruct (IH fuel c1 Hb1 Hs1) as (c' & rows' & -> & Hb' & Hs' & Hfit & Hcf' & Hrn'); [lia|lia|].
      exists c', rows'. split_and!; try done; [|congruence|].
      * rewrite Hm1 in Hfit. by rewrite Hfit, Hsn, fitting_snoc.
      * rewrite Hrn', Hrn, Hsn. rewrite drop_app_le.
        2: { rewrite <- (length_fmap r_item rows'), Hfit. destruct (fitting_prefix size_callback (max_size c1) (r_item <$> l)) as [l' E'].
             rewrite E' at 2. rewrite length_app. lia. }
        unfold callbacks_of. by rewrite reverse_snoc, bind_cons, <- app_assoc.
Qed.

Lemma length_rows c rows : body c rows → (length rows ≤ size (nodes c))%nat.
Proof.
  intros Hb. rewrite <- (length_fmap r_id), <- (size_list_to_set (C := gset nat)) by apply (b_ids _ _ Hb). rewrite <- size_dom.
  apply subseteq_size. intros id. rewrite elem_of_list_to_set. intros (r & -> & Hr)%list_elem_of_fmap. apply elem_of_dom. by rewrite (b_nodes _ _ Hb r Hr).
Qed.

(** ** The refinement *)

(** What the cache is to its client. *)
Record refines (c : lru) (s : @state K V C) : Prop := {
  ref_rows : ∃ rows, body c rows ∧ stored (cache c) rows ∧ s_items s = r_item <$> rows;
  ref_max : max_size c = s_max s;
  ref_ran : ran c ≡ₚ s_ran s
}.

Lemma evict_refines c s :
  refines c s → 0 ≤ max_size c →
  ∃ c', evict size_callback c = Ok c' ∧ refines c' (shrink size_callback s) ∧ conf c' = conf c.
Proof.
  intros [(rows & Hb & Hs & Hi) Hm Hr] Hpos. unfold evict.
  destruct (evict_loop_ok (size (nodes c)) c rows Hb Hs Hpos (length_rows _ _ Hb)) as (c' & rows' & -> & Hb' & Hs' & Hfit & Hcf & Hrn).
  exists c'. split_and!; [done| |done]. unfold shrink. rewrite Hi, <- Hm, <- Hfit, length_fmap. constructor; simpl.
  - by exists rows'.
  - unfold conf in Hcf. congruence.
  - by rewrite Hrn, Hr.
Qed.

Lemma add_node_refines c s k v cbs :
  refines c s → full k → lookup_item k (s_items s) = None →
  ∃ c', add_node size_callback k v cbs c = Ok c' ∧
    refines c' (State (Item k v (add_callbacks [] cbs) :: s_items s) (s_max s) (s_ran s)) ∧ conf c' = conf c.
Proof.
  intros [(rows & Hb & Hs & Hi) Hm Hr] Hk Hn. unfold add_node. set (id := fresh (dom (nodes c))).
  assert (Hid : id ∉ dom (nodes c)) by apply is_fresh.
  destruct (insert_after_ring _ _ _ id (b_ring _ _ Hb)) as (n & h' & -> & Hnd & Hring & Hdom & He & Hen). cbn [mbind result_bind].
  cbn [set_nodes set_lists cache].
  assert (Hvk : view (cache c) !! k = None).
  { destruct (view (cache c) !! k) as [id'|] eqn:E; [|done]. apply (st_view _ _ Hs) in E as (r & Hin & <- & _).
    exfalso. apply lookup_item_None in Hn. apply Hn. rewrite Hi, <- list_fmap_compose. by apply (list_elem_of_fmap_2 (i_key ∘ r_item)). }
  destruct (set_ok _ k id (st_ok _ _ Hs) Hk Hvk) as (s' & -> & Hok & Hview). cbn [mbind result_bind].
  set (r := Row id n (Item k v (add_callbacks [] cbs))). set (c1 := match size_callback with Some f => _ | None => _ end).
  assert (Hc1 : nodes c1 = <[id := entry_of r]> (nodes c) ∧ lists c1 = h' ∧ cache c1 = s' ∧ conf c1 = conf c ∧ ran c1 = ran c ∧
    (is_Some size_callback → cached_cache_len c1 = cached_cache_len c + size_of size_callback v)).
  { unfold c1, size_of. destruct size_callback; simpl; split_and!; done. }
  destruct Hc1 as (N & L & E & F & R & Z). clearbody c1.
  assert (Hrows : ∀ x, x ∈ rows → r_id x ≠ id).
  { intros x Hx Ex. apply Hid. rewrite <- Ex. apply elem_of_dom. by rewrite (b_nodes _ _ Hb x Hx). }
  exists c1. split_and!; [done| |done]. constructor; simpl.
  - exists (r :: rows). split_and!; [| |by rewrite Hi].
    + constructor.
      * simpl. apply NoDup_cons. split; [|apply (b_ids _ _ Hb)]. intros (x & Ex & Hx)%list_elem_of_fmap. by apply (Hrows x).
      * intros x [->|Hx]%elem_of_cons; rewrite N; [apply lookup_insert_eq|]. rewrite lookup_insert_ne by (apply not_eq_sym; by apply Hrows).
        by apply (b_nodes _ _ Hb).
      * rewrite L. unfold conf in F. assert (list_root c1 = list_root c) as -> by congruence. done.
      * intros x [->|Hx]%elem_of_cons; rewrite L; [done|]. rewrite Hen; [by apply (b_entry _ _ Hb)|]. intros Ex. apply Hnd. rewrite <- Ex.
        destruct (b_ring _ _ Hb) as [_ Hc]. destruct (chain_dom _ _ _ _ Hc) as (_ & _ & Hl). apply Hl. by apply list_elem_of_fmap_2.
      * intros Hsc. rewrite Z, (b_len _ _ Hb Hsc) by done.
        change (total (r_item <$> r :: rows)) with (size_of size_callback v + total (r_item <$> rows)). lia.
    + rewrite E. constructor; [done| |].
      * simpl. apply NoDup_cons. split; [|apply (st_keys _ _ Hs)]. apply lookup_item_None in Hn. rewrite Hi, <- list_fmap_compose in Hn. exact Hn.
      * intros k' id'. rewrite Hview, lookup_insert_Some, (st_view _ _ Hs). setoid_rewrite elem_of_cons. split.
        -- intros [[<- <-]|[_ (x & Hx & ? & ?)]]; [exists r; auto|exists x; auto].
        -- intros (x & [->|Hx] & <- & <-); [by left|]. right. split; [|by exists x]. intros Ex.
           assert (Hx' : view (cache c) !! k = Some (r_id x)) by (apply (st_view _ _ Hs); exists x; auto). congruence.
  - unfold conf in F. congruence.
  - by rewrite R.
Qed.
End refine.
