(* ===== verification/LruThms.v ===== *)
(** * [LruCache]: the theorems *)

From S2P Require Import Prelude TopoSort LinkedList CacheStores LruCache LruProps.

Section ops.
Context {K V C S : Type} `{Countable K, EqDecision V, Countable C, IterOrder} `{!CacheStore K nat S}.
Context {full part : K → Prop} {under : relation K} `{!RelDecision under} {view : S → gmap K nat} {ok : S → Prop}.
Context `{!CacheStoreLaws _ full part under view ok}.
Context (size_callback : option (V → Z)) (Hsize : ∀ v, 0 ≤ size_of size_callback v).

Abbreviation lru := (LruCache K V C S).
Abbreviation body := (@body K V C S size_callback).
Abbreviation stored := (@stored K V C S _ _ view ok).
Abbreviation refines := (@refines K V C S _ _ view ok size_callback).

(** ** Finding an entry *)

Lemma get_cases (s : S) rows k :
  stored s rows → full k →
  (cs_get s k = Ok None ∧ lookup_item k (r_item <$> rows) = None) ∨
  (∃ l1 r l2, rows = l1 ++ r :: l2 ∧ key_of r = k ∧ cs_get s k = Ok (Some (r_id r)) ∧
     lookup_item k (r_item <$> rows) = Some (r_item r) ∧ without k (r_item <$> rows) = r_item <$> l1 ++ l2).
Proof.
  intros Hs Hk. rewrite (stored_get s rows k) by done. destruct (list_find (λ r, key_of r = k) rows) as [[i r]|] eqn:Hf; simpl.
  - right. apply list_find_Some in Hf as (Hl & Hkr & _). apply take_drop_middle in Hl. rewrite <- Hl.
    exists (take i rows), r, (drop (Datatypes.S i) rows). pose proof (st_keys _ _ Hs) as Hnd. rewrite <- Hl in Hnd.
    assert (Hnd' : NoDup (i_key <$> (r_item <$> take i rows) ++ r_item r :: (r_item <$> drop (Datatypes.S i) rows))).
    { rewrite fmap_app, fmap_cons, <- !list_fmap_compose. rewrite fmap_app, fmap_cons in Hnd. exact Hnd. }
    rewrite !fmap_app, fmap_cons. destruct (lookup_item_split k _ _ _ Hnd' Hkr) as [-> ->]. done.
  - left. split; [done|]. apply lookup_item_None. rewrite list_find_None, Forall_forall in Hf. rewrite <- list_fmap_compose.
    intros (r & -> & Hr)%list_elem_of_fmap. by apply (Hf r).
Qed.

(** ** Changing an entry in place *)

Definition with_cbs (r : @row K V C) (cbs : list C) : row :=
  Row (r_id r) (r_ln r) (Item (i_key (r_item r)) (i_val (r_item r)) cbs).
Definition with_val (r : @row K V C) (v : V) : row :=
  Row (r_id r) (r_ln r) (Item (i_key (r_item r)) v (i_cbs (r_item r))).

Lemma update_body (c c' : lru) l1 r r' l2 :
  body c (l1 ++ r :: l2) → r_id r' = r_id r → r_ln r' = r_ln r →
  nodes c' = <[r_id r := entry_of r']> (nodes c) → lists c' = lists c → list_root c' = list_root c →
  (is_Some size_callback → cached_cache_len c' = total size_callback (r_item <$> l1 ++ r' :: l2)) →
  body c' (l1 ++ r' :: l2).
Proof.
  intros Hb Hi Hl Hn HL HR HZ.
  assert (Hids : r_id <$> l1 ++ r' :: l2 = r_id <$> l1 ++ r :: l2) by (by rewrite !fmap_app, !fmap_cons, Hi).
  assert (Hlns : r_ln <$> l1 ++ r' :: l2 = r_ln <$> l1 ++ r :: l2) by (by rewrite !fmap_app, !fmap_cons, Hl).
  constructor.
  - rewrite Hids. apply (b_ids _ _ _ Hb).
  - intros x [->|Hx]%rows_split; rewrite Hn; [rewrite Hi; apply lookup_insert_eq|].
    rewrite lookup_insert_ne; [apply (b_nodes _ _ _ Hb), rows_split; by right|].
    apply not_eq_sym. eapply ids_split; [apply (b_ids _ _ _ Hb)|done].
  - rewrite HL, HR, Hlns. apply (b_ring _ _ _ Hb).
  - intros x [->|Hx]%rows_split; rewrite HL, ?Hi, ?Hl; apply (b_entry _ _ _ Hb), rows_split; auto.
  - done.
Qed.

Lemma update_stored (s : S) l1 r r' l2 :
  stored s (l1 ++ r :: l2) → r_id r' = r_id r → key_of r' = key_of r → stored s (l1 ++ r' :: l2).
Proof.
  intros Hs Hi Hk. constructor; [apply (st_ok _ _ Hs)| |].
  - pose proof (st_keys _ _ Hs) as Hnd. rewrite fmap_app, fmap_cons in *. by rewrite Hk.
  - intros k id. rewrite (st_view _ _ Hs). setoid_rewrite rows_split. split.
    + intros (x & [->|Hx] & <- & <-); [exists r'; auto|exists x; auto].
    + intros (x & [->|Hx] & <- & <-); [exists r; auto|exists x; auto].
Qed.

Lemma stored_front (s : S) l1 r r' l2 :
  stored s (l1 ++ r :: l2) → r_id r' = r_id r → key_of r' = key_of r → stored s (r' :: l1 ++ l2).
Proof.
  intros [S1 S2 S3] Hi Hk. apply (update_stored s [] r); [|done|done]. simpl.
  assert (Hp : r :: l1 ++ l2 ≡ₚ l1 ++ r :: l2) by apply Permutation_middle.
  constructor; [done|by rewrite Hp|]. intros k' id. rewrite S3. by setoid_rewrite Hp.
Qed.

Lemma total_cbs l1 r l2 cbs :
  total size_callback (r_item <$> l1 ++ with_cbs r cbs :: l2) = total size_callback (r_item <$> l1 ++ r :: l2).
Proof. by rewrite !total_split. Qed.

Lemma alter_present {A} (f : A → A) i (m : gmap nat A) x : m !! i = Some x → alter f i m = <[i := f x]> m.
Proof.
  intros Hx. apply map_eq. intros j. destruct (decide (j = i)) as [->|Hne].
  - by rewrite lookup_alter_eq, Hx, lookup_insert_eq.
  - by rewrite lookup_alter_ne, lookup_insert_ne.
Qed.

Lemma add_callbacks_body (c : lru) l1 r l2 new :
  body c (l1 ++ r :: l2) →
  body (node_add_callbacks (r_id r) new c) (l1 ++ with_cbs r (add_callbacks (i_cbs (r_item r)) new) :: l2).
Proof.
  intros Hb. assert (Hr : r ∈ l1 ++ r :: l2) by (apply rows_split; by left).
  eapply (update_body c); [done|done|done| |done|done|].
  - unfold node_add_callbacks. simpl. by rewrite (alter_present _ _ _ _ (b_nodes _ _ _ Hb r Hr)).
  - intros Hsc. rewrite total_cbs. by apply (b_len _ _ _ Hb).
Qed.

Lemma run_callbacks_ok (c : lru) l1 r l2 :
  body c (l1 ++ r :: l2) →
  ∃ c', run_and_clear_callbacks (r_id r) c = Ok c' ∧ body c' (l1 ++ with_cbs r [] :: l2) ∧ cache c' = cache c ∧ conf c' = conf c ∧
    ran c' = ran c ++ i_cbs (r_item r) ∧ cached_cache_len c' = cached_cache_len c.
Proof.
  intros Hb. assert (Hr : r ∈ l1 ++ r :: l2) by (apply rows_split; by left). unfold run_and_clear_callbacks.
  rewrite (entry_ok _ _ _ _ Hb Hr). cbn [mbind result_bind]. eexists. split; [done|]. split_and!; [|done..].
  eapply (update_body c); [done|done|done|done|done|done|]. intros Hsc. rewrite total_cbs. by apply (b_len _ _ _ Hb).
Qed.

(** The counter is read by none of these. *)
Lemma move_set_len id z (c : lru) : move_to_front id (set_len z c) = set_len z <$> move_to_front id c.
Proof.
  unfold move_to_front, entry. simpl. destruct (nodes c !! id); [|done]. simpl. by destruct (move_after _ _ _).
Qed.

(** ** The operations *)

Lemma get_refines (c : lru) s k cbs touch :
  refines c s → full k →
  ∃ c', cache_get k cbs touch c = Ok (i_val <$> lookup_item k (s_items s), c') ∧
    refines c' (get_item k cbs touch s).2 ∧ conf c' = conf c.
Proof.
  intros [(rows & Hb & Hs & Hi) Hm Hr] Hk. unfold cache_get, get_item. rewrite Hi.
  destruct (get_cases _ _ _ Hs Hk) as [[Hg Hn]|(l1 & r & l2 & -> & Hkr & Hg & Hlk & Hw)].
  { rewrite Hg, Hn. cbn [mbind result_bind]. exists c. split_and!; [done| |done]. by constructor; [exists rows|..]. }
  rewrite Hg, Hlk. cbn [mbind result_bind]. simpl. destruct touch.
  - destruct (move_to_front_ok _ c l1 r l2 Hb) as (c1 & -> & Hb1 & Hca & Hcf & Hrn & Hnd). cbn [mbind result_bind].
    pose proof (add_callbacks_body c1 [] r (l1 ++ l2) cbs Hb1) as Hb2.
    set (r' := with_cbs r _) in *. pose proof (entry_ok _ _ _ r' Hb2 ltac:(by left)) as He. change (r_id r') with (r_id r) in He.
    rewrite He. cbn [mbind result_bind]. eexists. split; [done|]. split; [|exact Hcf]. constructor; simpl.
    + exists (r' :: l1 ++ l2). split_and!; [exact Hb2| |].
      * rewrite Hca. by apply (stored_front _ l1 r).
      * rewrite Hw. unfold r', with_cbs. simpl. by rewrite <- Hkr.
    + unfold conf in Hcf. congruence.
    + by rewrite Hrn.
  - cbn [mbind result_bind]. pose proof (add_callbacks_body c l1 r l2 cbs Hb) as Hb2. set (r' := with_cbs r _) in *.
    pose proof (entry_ok _ _ _ r' Hb2 (proj2 (rows_split l1 r' l2 r') (or_introl eq_refl))) as He. change (r_id r') with (r_id r) in He.
    rewrite He. cbn [mbind result_bind]. eexists. split; [done|]. split; [|done]. constructor; simpl; [|done|done].
    exists (l1 ++ r' :: l2). split_and!; [exact Hb2|by apply (update_stored _ l1 r)|].
    pose proof (st_keys _ _ Hs) as Hnd. rewrite fmap_app, fmap_cons in Hnd. apply NoDup_app in Hnd as (_ & Hd & [Hr' _]%NoDup_cons).
    assert (Hid : ∀ l : list (@row K V C), (∀ x, x ∈ l → key_of x ≠ k) →
      (λ x, if decide (i_key x = k) then Item k (i_val (r_item r)) (add_callbacks (i_cbs (r_item r)) cbs) else x) <$> (r_item <$> l) = r_item <$> l).
    { intros l Hl. rewrite <- list_fmap_compose. apply list_fmap_ext. intros j x Hx. simpl. rewrite decide_False; [done|].
      apply Hl. by eapply list_elem_of_lookup_2. }
    rewrite !fmap_app, !fmap_cons, !Hid.
    + unfold key_of in Hkr. rewrite decide_True by done. unfold r', with_cbs. simpl. by rewrite <- Hkr.
    + intros x Hx E. apply Hr'. rewrite Hkr, <- E. by apply list_elem_of_fmap_2.
    + intros x Hx E. apply (Hd (key_of x)); [by apply list_elem_of_fmap_2|]. rewrite E, <- Hkr. by left.
Qed.

(** Replacing the value of an entry, before eviction. *)
Definition replace_value (id : nat) (v : V) (cbs : list C) (c : lru) : result lru :=
  n ← entry id c;
  c ← (if bool_decide (v ≠ value n) then run_and_clear_callbacks id c else Ok c);
  let c := match size_callback with
           | Some f => set_len (cached_cache_len c - f (value n) + f v) c
           | None => c
           end in
  let c := node_add_callbacks id cbs c in
  c ← move_to_front id c;
  n ← entry id c;
  Ok (set_nodes (<[id := MkEntry (_list_node n) (key n) v (callbacks n)]> (nodes c)) c).

Lemma run_if_ok (changed : bool) (c : lru) l1 r l2 :
  body c (l1 ++ r :: l2) →
  ∃ c1, (if changed then run_and_clear_callbacks (r_id r) c else Ok c) = Ok c1 ∧
    body c1 (l1 ++ with_cbs r (if changed then [] else i_cbs (r_item r)) :: l2) ∧ cache c1 = cache c ∧ conf c1 = conf c ∧
    ran c1 = (ran c ++ if changed then i_cbs (r_item r) else []) ∧ cached_cache_len c1 = cached_cache_len c.
Proof.
  intros Hb. destruct changed.
  - destruct (run_callbacks_ok c l1 r l2 Hb) as (c1 & -> & ? & ? & ? & ? & ?). by exists c1.
  - exists c. split_and!; try done; [|by rewrite app_nil_r]. replace (with_cbs r (i_cbs (r_item r))) with r; [done|]. by destruct r as [? ? []].
Qed.

Lemma replace_value_ok (c : lru) l1 r l2 v cbs :
  let changed := bool_decide (v ≠ i_val (r_item r)) in
  let r' := with_val (with_cbs r (add_callbacks (if changed then [] else i_cbs (r_item r)) cbs)) v in
  body c (l1 ++ r :: l2) →
  ∃ c', replace_value (r_id r) v cbs c = Ok c' ∧ body c' (r' :: l1 ++ l2) ∧ cache c' = cache c ∧ conf c' = conf c ∧
    ran c' = ran c ++ if changed then i_cbs (r_item r) else [].
Proof.
  intros changed r3 Hb. unfold replace_value. assert (Hin : r ∈ l1 ++ r :: l2) by (apply rows_split; by left).
  rewrite (entry_ok _ _ _ _ Hb Hin). cbn [mbind result_bind entry_of value]. fold changed.
  destruct (run_if_ok changed c l1 r l2 Hb) as (c1 & -> & Hb1 & Hca1 & Hcf1 & Hrn1 & Hz1). cbn [mbind result_bind].
  set (r1 := with_cbs r (if changed then [] else i_cbs (r_item r))) in *. pose proof (add_callbacks_body c1 l1 r1 l2 cbs Hb1) as Hb2. change (r_id r1) with (r_id r) in Hb2.
  set (r2 := with_cbs r1 (add_callbacks (i_cbs (r_item r1)) cbs)) in *.
  destruct (move_to_front_ok _ _ l1 r2 l2 Hb2) as (c3 & Hmv & Hb3 & Hca3 & Hcf3 & Hrn3 & Hnd3). change (r_id r2) with (r_id r) in Hmv.
  set (z := λ f : V → Z, cached_cache_len c1 - f (i_val (r_item r)) + f v).
  set (adj := λ x : lru, match size_callback with Some f => set_len (z f) x | None => x end).
  assert (Hadj : move_to_front (r_id r) (node_add_callbacks (r_id r) cbs (adj c1)) = Ok (adj c3)).
  { unfold adj. destruct size_callback as [f|]; [|done].
    change (node_add_callbacks (r_id r) cbs (set_len (z f) c1)) with (set_len (z f) (node_add_callbacks (r_id r) cbs c1)). by rewrite move_set_len, Hmv. }
  change (match size_callback with Some f => set_len (cached_cache_len c1 - f (i_val (r_item r)) + f v) c1 | None => c1 end) with (adj c1).
  rewrite Hadj. cbn [mbind result_bind].
  assert (Hfr : nodes (adj c3) = nodes c3 ∧ lists (adj c3) = lists c3 ∧ cache (adj c3) = cache c3 ∧ conf (adj c3) = conf c3 ∧ ran (adj c3) = ran c3).
  { unfold adj. by destruct size_callback. }
  destruct Hfr as (A1 & A2 & A3 & A4 & A5).
  assert (He : entry (r_id r) (adj c3) = Ok (entry_of r2)).
  { unfold entry. rewrite A1. change (r_id r) with (r_id r2). by rewrite (b_nodes _ _ _ Hb3 r2 ltac:(by left)). }
  rewrite He. cbn [mbind result_bind]. eexists. split; [done|]. split_and!.
  - eapply (update_body c3 _ [] r2 r3 (l1 ++ l2)); [done|done|done|simpl; by rewrite A1|done| |].
    + simpl. unfold conf in A4. congruence.
    + intros [f Hf]. rewrite !app_nil_l, fmap_cons. cbn [set_nodes cached_cache_len total foldr]. fold (total size_callback (r_item <$> l1 ++ l2)).
      unfold adj, z. rewrite Hf. cbn [set_len cached_cache_len]. rewrite <- Hf, Hz1, (b_len _ _ _ Hb), total_split by (by rewrite Hf).
      unfold size_of. rewrite Hf. cbn [r3 with_val r_item i_val]. lia.
  - simpl. rewrite A3, Hca3. exact Hca1.
  - etransitivity; [exact A4|]. rewrite Hcf3. exact Hcf1.
  - simpl. rewrite A5, Hrn3. exact Hrn1.
Qed.

Lemma set_refines (c : lru) s k v cbs :
  refines c s → full k → 0 ≤ max_size c →
  ∃ c', cache_set size_callback k v cbs c = Ok c' ∧ refines c' (set_item size_callback k v cbs s) ∧ conf c' = conf c.
Proof.
  intros Hrf Hk Hpos. pose proof Hrf as [(rows & Hb & Hs & Hi) Hm Hr]. unfold cache_set, set_item. rewrite Hi.
  assert (Hev : ∀ c1 s1, refines c1 s1 → conf c1 = conf c → ∃ c', evict size_callback c1 = Ok c' ∧ refines c' (shrink size_callback s1) ∧ conf c' = conf c).
  { intros c1 s1 Hr1 Hcf. destruct (evict_refines size_callback Hsize c1 _ Hr1) as (c' & -> & Hr' & Hcf').
    - unfold conf in Hcf. by assert (max_size c1 = max_size c) as -> by congruence.
    - exists c'. split_and!; [done|done|congruence]. }
  destruct (get_cases _ _ _ Hs Hk) as [[Hg Hn]|(l1 & r & l2 & -> & Hkr & Hg & Hlk & Hw)].
  - rewrite Hg, Hn. cbn [mbind result_bind].
    destruct (add_node_refines size_callback Hsize c s k v (set_iter (list_to_set cbs : gset C)) Hrf Hk) as (c1 & -> & Hr1 & Hcf); [by rewrite Hi|].
    cbn [mbind result_bind]. rewrite Hi in Hr1. by apply Hev.
  - rewrite Hg, Hlk. cbn [mbind result_bind].
    destruct (replace_value_ok c l1 r l2 v cbs Hb) as (c1 & Hrv & Hb1 & Hca & Hcf & Hrn). unfold replace_value in Hrv. rewrite Hrv.
    cbn [mbind result_bind]. apply Hev; [|done]. constructor; simpl.
    + eexists. split_and!; [exact Hb1|rewrite Hca; by apply (stored_front _ l1 r)|]. unfold with_val, with_cbs. csimpl. by rewrite Hw, <- Hkr.
    + unfold conf in Hcf. congruence.
    + by rewrite Hrn, Hr.
Qed.
End ops.
