(* ===== verification/LruMain.v ===== *)
(** * [LruCache]: the operations that remove entries *)

From S2P Require Import Prelude TopoSort LinkedList CacheStores LruCache LruProps LruThms.

Section ops.
Context {K V C S : Type} `{Countable K, EqDecision V, Countable C, IterOrder} `{!CacheStore K nat S}.
Context {full part : K → Prop} {under : relation K} `{!RelDecision under} {view : S → gmap K nat} {ok : S → Prop}.
Context `{!CacheStoreLaws _ full part under view ok}.
Context (size_callback : option (V → Z)).

Abbreviation lru := (LruCache K V C S).
Abbreviation row := (@row K V C).
Abbreviation body := (@body K V C S size_callback).
Abbreviation stored := (@stored K V C S _ _ view ok).
Abbreviation refines := (@refines K V C S _ _ view ok size_callback).

(** ** Several entries at once *)

Lemma delete_many_ok ids (c : lru) (rows : list row) :
  NoDup ids → (∀ id, id ∈ ids → id ∈ r_id <$> rows) → body c rows →
  ∃ c', fold_res (λ c id, delete_node size_callback id c) ids c = Ok c' ∧ body c' (filter (λ r, r_id r ∉ ids) rows) ∧
    cache c' = cache c ∧ conf c' = conf c ∧ ran c' ≡ₚ ran c ++ callbacks_of (r_item <$> filter (λ r, r_id r ∈ ids) rows).
Proof.
  revert c rows. induction ids as [|id ids IH]; intros c rows Hnd Hin Hb; cbn [fold_res].
  - exists c. split_and!; try done.
    + rewrite filter_keeps; [done|]. intros r _. apply not_elem_of_nil.
    + rewrite filter_drops; [by rewrite app_nil_r|]. intros r _. apply not_elem_of_nil.
  - apply NoDup_cons in Hnd as [Hid Hnd]. pose proof (Hin id ltac:(by left)) as (r & -> & Hr)%list_elem_of_fmap.
    apply list_elem_of_split in Hr as (l1 & l2 & ->).
    destruct (delete_node_ok size_callback c l1 r l2 Hb) as (c1 & -> & Hb1 & Hca1 & Hcf1 & Hrn1 & _). cbn [mbind result_bind].
    assert (Hne : ∀ x, x ∈ l1 ++ l2 → r_id x ≠ r_id r) by (intros x; eapply ids_split; apply (b_ids _ _ _ Hb)).
    destruct (IH c1 (l1 ++ l2) Hnd) as (c' & Hf & Hb' & Hca' & Hcf' & Hrn').
    { intros id Hi. pose proof (Hin id ltac:(by right)) as (x & -> & Hx)%list_elem_of_fmap.
      apply list_elem_of_fmap. exists x. split; [done|]. apply rows_split in Hx as [->|Hx]; done. }
    { done. }
    assert (Hsame : ∀ x, x ∈ l1 ++ l2 → r_id x ∈ r_id r :: ids ↔ r_id x ∈ ids).
    { intros x Hx. rewrite elem_of_cons. split; [|by right]. intros [E|]; [by apply Hne in E|done]. }
    exists c'. split; [done|]. split_and!; [|congruence|congruence|].
    + replace (filter (λ x, r_id x ∉ r_id r :: ids) (l1 ++ r :: l2)) with (filter (λ x, r_id x ∉ ids) (l1 ++ l2)); [done|].
      rewrite !filter_app, filter_cons, decide_False by (intros Hn; apply Hn; by left).
      f_equal; apply filter_same; intros x Hx; by rewrite Hsame by (apply elem_of_app; auto).
    + rewrite Hrn', Hrn1, <- app_assoc. f_equiv.
      transitivity (callbacks_of (r_item <$> r :: filter (λ x, r_id x ∈ ids) (l1 ++ l2))); [done|].
      unfold callbacks_of. apply bind_Permutation, fmap_Permutation.
      rewrite !filter_app, filter_cons, decide_True by (by left). rewrite <- Permutation_middle. constructor.
      apply Permutation_refl'. f_equal; apply filter_same; intros x Hx; by rewrite Hsame by (apply elem_of_app; auto).
Qed.

Lemma ids_inj (rows : list row) r x : NoDup (r_id <$> rows) → r ∈ rows → x ∈ rows → r_id r = r_id x → r = x.
Proof.
  intros Hnd [i Hi]%list_elem_of_lookup [j Hj]%list_elem_of_lookup E. assert (i = j) as ->; [|congruence].
  eapply NoDup_lookup; [exact Hnd|rewrite list_lookup_fmap, Hi; done|]. rewrite list_lookup_fmap, Hj. simpl. by rewrite E.
Qed.

Lemma filter_ids (P : row → Prop) `{∀ r, Decision (P r)} (rows : list row) r :
  NoDup (r_id <$> rows) → r ∈ rows → r_id r ∈ r_id <$> filter P rows ↔ P r.
Proof.
  intros Hnd Hr. rewrite list_elem_of_fmap. setoid_rewrite list_elem_of_filter. split.
  - intros (x & E & Hx & Hin). by rewrite (ids_inj rows r x).
  - intros HP. by exists r.
Qed.

Lemma delete_filter_ok (P : row → Prop) `{∀ r, Decision (P r)} ids (c : lru) (rows : list row) :
  ids ≡ₚ r_id <$> filter P rows → body c rows →
  ∃ c', fold_res (λ c id, delete_node size_callback id c) ids c = Ok c' ∧ body c' (filter (λ r, ¬ P r) rows) ∧
    cache c' = cache c ∧ conf c' = conf c ∧ ran c' ≡ₚ ran c ++ callbacks_of (r_item <$> filter P rows).
Proof.
  intros Hids Hb. pose proof (b_ids _ _ _ Hb) as Hnd. destruct (delete_many_ok ids c rows) as (c' & Hf & Hb' & Hca & Hcf & Hrn).
  - rewrite Hids. eapply sublist_NoDup; [exact Hnd|]. apply fmap_sublist, sublist_filter.
  - intros id. rewrite Hids. intros (r & -> & Hr)%list_elem_of_fmap. apply list_elem_of_filter in Hr as [_ Hr]. by apply list_elem_of_fmap_2.
  - done.
  - assert (Hm : ∀ r, r ∈ rows → r_id r ∈ ids ↔ P r) by (intros r Hr; rewrite Hids; by apply filter_ids).
    rewrite (filter_same _ P) in Hrn by done. rewrite (filter_same _ (λ r, ¬ P r)) in Hb' by (intros r Hr; by rewrite Hm).
    by exists c'.
Qed.

Lemma delete_refines (P : K → Prop) `{∀ k, Decision (P k)} ids (c : lru) s' (s : state) rows :
  body c rows → s_items s = r_item <$> rows → max_size c = s_max s → ran c ≡ₚ s_ran s →
  cache c = s' → stored s' (filter (λ r, ¬ P (key_of r)) rows) → ids ≡ₚ r_id <$> filter (λ r, P (key_of r)) rows →
  ∃ c', fold_res (λ c id, delete_node size_callback id c) ids c = Ok c' ∧ refines c' (drop_items P s) ∧ conf c' = conf c.
Proof.
  intros Hb Hi Hm Hr Hca Hs Hids. destruct (delete_filter_ok (λ r, P (key_of r)) ids c rows Hids Hb) as (c' & Hf & Hb' & Hca' & Hcf & Hrn).
  assert (Hfm : ∀ (Q : K → Prop) `{∀ k, Decision (Q k)}, r_item <$> filter (λ r, Q (key_of r)) rows = filter (λ e, Q (i_key e)) (s_items s)).
  { intros Q HQ. rewrite Hi, list_filter_fmap. done. }
  exists c'. split_and!; [done| |done]. constructor; simpl.
  - exists (filter (λ r, ¬ P (key_of r)) rows). split_and!; [done|by rewrite Hca', Hca|]. symmetry. exact (Hfm (λ k, ¬ P k) _).
  - unfold conf in Hcf. congruence.
  - by rewrite Hrn, Hr, (Hfm P).
Qed.

Lemma body_cache s' (c : lru) rows : body c rows → body (set_cache s' c) rows.
Proof. by intros []; constructor. Qed.

Lemma del_multi_refines (c : lru) s k :
  refines c s → part k →
  ∃ c', cache_del_multi size_callback k c = Ok c' ∧ refines c' (drop_items (λ k', under k k') s) ∧ conf c' = conf c.
Proof.
  intros [(rows & Hb & Hs & Hi) Hm Hr] Hk. unfold cache_del_multi.
  destruct (stored_pop (cache c) rows k Hs Hk) as (o & s' & -> & Hs' & Ho). cbn [mbind result_bind].
  by apply (delete_refines (λ k', under k k') _ (set_cache s' c) s' s rows); [apply body_cache|..].
Qed.

Lemma pop_refines (c : lru) s k :
  refines c s → full k →
  ∃ c', cache_pop size_callback k c = Ok (i_val <$> lookup_item k (s_items s), c') ∧ refines c' (drop_items (λ k', k' = k) s) ∧ conf c' = conf c.
Proof.
  intros [(rows & Hb & Hs & Hi) Hm Hr] Hk. unfold cache_pop.
  assert (Hall : ∀ r, r ∈ rows → under k (key_of r) ↔ key_of r = k).
  { intros r Hin. rewrite under_full; [done|done|]. by eapply stored_full. }
  destruct (get_cases _ _ _ Hs Hk) as [[Hg Hn]|(l1 & r & l2 & -> & Hkr & Hg & Hlk & Hw)]; rewrite Hg, Hi; cbn [mbind result_bind].
  - rewrite Hn. exists c. split_and!; [done| |done]. unfold drop_items. rewrite Hi. apply lookup_item_None in Hn. constructor; simpl; [|done|].
    + exists rows. split_and!; [done|done|]. apply filter_keeps. intros e He E. apply Hn. rewrite <- E. by apply list_elem_of_fmap_2.
    + rewrite filter_drops, app_nil_r; [done|]. intros e He E. apply Hn. rewrite <- E. by apply list_elem_of_fmap_2.
  - rewrite Hlk. destruct (delete_node_ok size_callback c l1 r l2 Hb) as (c1 & -> & Hb1 & Hca & Hcf & Hrn & He). cbn [mbind result_bind].
    rewrite He. cbn [mbind result_bind key value].
    destruct (stored_pop (cache c1) (l1 ++ r :: l2) (key_of r)) as (o & s' & Hp & Hs' & _); [by rewrite Hca|rewrite Hkr; by eapply full_part|].
    rewrite Hp. cbn [mbind result_bind]. rewrite (filter_one (cache c)) in Hs' by done. eexists. split; [done|]. split; [|done].
    assert (Hwo : filter (λ e, i_key e ≠ k) (r_item <$> l1 ++ r :: l2) = r_item <$> l1 ++ l2) by exact Hw.
    unfold drop_items. rewrite Hi. constructor; simpl.
    + exists (l1 ++ l2). split_and!; [by apply body_cache|done|done].
    + unfold conf in Hcf. congruence.
    + rewrite Hrn, Hr. f_equiv. rewrite list_filter_fmap, filter_app, filter_cons.
      pose proof (st_keys _ _ Hs) as Hnd. rewrite fmap_app, fmap_cons in Hnd. apply NoDup_app in Hnd as (_ & Hd & [Hr' _]%NoDup_cons).
      rewrite decide_True by done. rewrite !(filter_drops _ l1), (filter_drops _ l2).
      * simpl. unfold callbacks_of. simpl. by rewrite app_nil_r.
      * intros x Hx E. apply Hr'. rewrite Hkr. simpl in E. rewrite <- E. by apply (list_elem_of_fmap_2 key_of).
      * intros x Hx E. apply (Hd (key_of x)); [by apply list_elem_of_fmap_2|]. simpl in E. unfold key_of in *. rewrite E, <- Hkr. by left.
Qed.
End ops.

(** * [LruCache]: whole histories of operations *)

Section clear.
Context {K V C S : Type} `{Countable K, EqDecision V, Countable C, IterOrder} `{!CacheStore K nat S}.
Context {full part : K → Prop} {under : relation K} `{!RelDecision under} {view : S → gmap K nat} {ok : S → Prop}.
Context `{!CacheStoreLaws _ full part under view ok}.
Context (size_callback : option (V → Z)).

Abbreviation lru := (LruCache K V C S).
Abbreviation refines := (@refines K V C S _ _ view ok size_callback).

(** A round of the loop of [cache_clear] is a deletion in a cache that counts entries. *)
Lemma clear_one_delete id (c : lru) :
  (c ← run_and_clear_callbacks id c; drop_from_lists id c) = delete_node None id c.
Proof.
  unfold delete_node, run_and_clear_callbacks, drop_from_lists, entry. destruct (nodes c !! id) as [n|] eqn:E; [|done].
  cbn [mbind result_bind set_nodes set_lists set_ran nodes]. by rewrite lookup_insert_eq, E.
Qed.

Lemma clear_loop_delete ids (c : lru) :
  fold_res (λ c id, c ← run_and_clear_callbacks id c; drop_from_lists id c) ids c = fold_res (λ c id, delete_node None id c) ids c.
Proof.
  revert c. induction ids as [|id ids IH]; intros c; cbn [fold_res]; [done|]. rewrite clear_one_delete.
  destruct (delete_node None id c); [|done]. apply IH.
Qed.

Lemma stored_values (s : S) (rows : list (@row K V C)) : LruProps.stored (view := view) (ok := ok) s rows → cs_values s ≡ₚ r_id <$> rows.
Proof.
  intros Hs. rewrite (values_ok s (st_ok _ _ Hs)).
  transitivity (map_to_list (filter (λ kv, True) (view s))).*2.
  { by rewrite map_filter_id. }
  symmetry. replace (r_id <$> rows) with (((λ r, (key_of r, r_id r)) <$> rows).*2) by (by rewrite <- list_fmap_compose).
  refine (filter_values (λ _ : K, True) (view s) _ _ _).
  - rewrite <- list_fmap_compose. apply (st_keys _ _ Hs).
  - intros k id. rewrite list_elem_of_fmap, (st_view _ _ Hs). naive_solver.
Qed.

Lemma clear_refines (c : lru) s :
  refines c s → ∃ c', cache_clear size_callback c = Ok c' ∧ refines c' (drop_items (λ _, True) s) ∧ conf c' = conf c.
Proof.
  intros [(rows & Hb & Hs & Hi) Hm Hr]. unfold cache_clear. rewrite clear_loop_delete.
  assert (Hb0 : LruProps.body None c rows) by (destruct Hb; constructor; try done; by intros [??]).
  destruct (delete_filter_ok None (λ _, True) (cs_values (cache c)) c rows) as (c1 & -> & Hb1 & Hca & Hcf & Hrn); [|done|].
  { rewrite filter_keeps by done. by apply stored_values. }
  cbn [mbind result_bind]. rewrite filter_drops in Hb1 by naive_solver. rewrite filter_keeps in Hrn by done.
  pose proof (b_ring _ _ _ Hb1) as Hring. destruct Hring as [Hnd [Hn Hp]]. rewrite Hn, Hp, !bool_decide_eq_true_2 by done.
  cbn [negb raise_if mbind result_bind]. destruct (new_ok (CacheStoreLaws := CacheStoreLaws0)) as [Hok Hnew].
  set (c' := match size_callback with Some _ => _ | None => _ end).
  assert (Hc' : nodes c' = nodes c1 ∧ lists c' = lists c1 ∧ list_root c' = list_root c1 ∧ cache c' = cs_new ∧ conf c' = conf c1 ∧ ran c' = ran c1 ∧
    (is_Some size_callback → cached_cache_len c' = 0)).
  { unfold c'. destruct size_callback; split_and!; try done; by intros [??]. }
  clearbody c'. destruct Hc' as (A1 & A2 & A3 & A4 & A5 & A6 & A7). exists c'. split_and!; [done| |congruence].
  unfold drop_items. rewrite filter_drops by naive_solver. rewrite filter_keeps by done. constructor; simpl.
  - exists []. split; [|split; [|done]].
    + destruct Hb1. constructor; try done; try (by intros r ?%not_elem_of_nil). by rewrite A2, A3.
    + rewrite A4. constructor; [done|constructor|]. intros k id. rewrite Hnew, lookup_empty. split; [done|]. by intros (? & ?%not_elem_of_nil & _).
  - unfold conf in *. congruence.
  - by rewrite A6, Hrn, Hr, Hi.
Qed.
End clear.

Section main.
Context {K V C S : Type} `{Countable K, EqDecision V, Countable C, IterOrder} `{!CacheStore K nat S}.
Context {full part : K → Prop} {under : relation K} `{!RelDecision under} {view : S → gmap K nat} {ok : S → Prop}.
Context `{!CacheStoreLaws _ full part under view ok}.
Context (size_callback : option (V → Z)) (Hsize : ∀ v, 0 ≤ size_of size_callback v).

Abbreviation lru := (LruCache K V C S).
Abbreviation refines := (@refines K V C S _ _ view ok size_callback).
Abbreviation state := (@state K V C).
Abbreviation op := (@op K V C).

Lemma evict_conf (c : lru) s :
  refines c s → 0 ≤ max_size c → ∃ c', evict size_callback c = Ok c' ∧ refines c' (shrink size_callback s) ∧ conf c' = conf c.
Proof. intros. by eapply evict_refines. Qed.

Lemma set_default_refines (c : lru) s k v :
  refines c s → full k → 0 ≤ max_size c →
  ∃ v' c', cache_set_default size_callback k v c = Ok (v', c') ∧ (set_default size_callback k v s).1 = Value (Some v') ∧
    refines c' (set_default size_callback k v s).2 ∧ conf c' = conf c.
Proof.
  intros Hrf Hk Hpos. pose proof Hrf as [(rows & Hb & Hs & Hi) Hm Hr]. unfold cache_set_default, set_default. rewrite Hi.
  destruct (get_cases _ _ _ Hs Hk) as [[Hg Hn]|(l1 & r & l2 & -> & Hkr & Hg & Hlk & Hw)].
  - rewrite Hg, Hn. cbn [mbind result_bind].
    destruct (add_node_refines size_callback Hsize c s k v [] Hrf Hk) as (c1 & -> & Hr1 & Hcf); [by rewrite Hi|].
    cbn [mbind result_bind]. rewrite Hi in Hr1. destruct (evict_conf c1 _ Hr1) as (c' & -> & Hr' & Hcf').
    { unfold conf in Hcf. by assert (max_size c1 = max_size c) as -> by congruence. }
    cbn [mbind result_bind]. exists v, c'. split_and!; [done|done|done|congruence].
  - rewrite Hg, Hlk. cbn [mbind result_bind]. rewrite (entry_ok _ _ _ _ Hb) by (apply rows_split; by left).
    cbn [mbind result_bind]. by exists (i_val (r_item r)), c.
Qed.

Lemma contains_refines (c : lru) s k :
  refines c s → full k → cache_contains k c = Ok (bool_decide (is_Some (lookup_item k (s_items s)))).
Proof.
  intros [(rows & Hb & Hs & Hi) Hm Hr] Hk. unfold cache_contains. rewrite Hi.
  destruct (get_cases _ _ _ Hs Hk) as [[-> ->]|(l1 & r & l2 & -> & Hkr & -> & -> & Hw)]; cbn [mbind result_bind]; f_equal; by apply bool_decide_ext.
Qed.

Lemma resize_refines (c : lru) s scaled :
  refines c s → 0 ≤ scaled →
  ∃ c', set_cache_factor size_callback scaled c = Ok c' ∧
    refines c' (if negb (apply_cache_factor_from_config c) || bool_decide (scaled = s_max s) then s
                else shrink size_callback (State (s_items s) scaled (s_ran s))) ∧
    apply_cache_factor_from_config c' = apply_cache_factor_from_config c ∧ (max_size c' = max_size c ∨ max_size c' = scaled).
Proof.
  intros Hrf Hpos. pose proof (ref_max _ _ _ Hrf) as Hm. unfold set_cache_factor. rewrite Hm.
  destruct (apply_cache_factor_from_config c) eqn:Ha; simpl; [|exists c; auto].
  destruct (bool_decide (scaled = s_max s)) eqn:E; [exists c; auto|].
  destruct (evict_conf (set_max scaled c) (State (s_items s) scaled (s_ran s))) as (c' & -> & Hr' & Hcf).
  - destruct Hrf as [(rows & Hb & Hs & Hi) _ Hr]. constructor; [|done|done]. exists rows. split_and!; [|done|done]. by destruct Hb.
  - done.
  - exists c'. unfold conf in Hcf. simpl in Hcf. split_and!; [done|done|congruence|right; congruence].
Qed.

(** ** One operation *)

Definition run (o : op) (c : lru) : result (@outcome V * lru) :=
  match o with
  | Get k cbs touch => '(v, c) ← cache_get k cbs touch c; Ok (Value v, c)
  | SetItem k v cbs => c ← cache_set size_callback k v cbs c; Ok (Done, c)
  | SetDefault k v => '(v, c) ← cache_set_default size_callback k v c; Ok (Value (Some v), c)
  | Pop k => '(v, c) ← cache_pop size_callback k c; Ok (Value v, c)
  | DelMulti k => c ← cache_del_multi size_callback k c; Ok (Done, c)
  | Clear => c ← cache_clear size_callback c; Ok (Done, c)
  | Contains k => b ← cache_contains k c; Ok (Answer b, c)
  | Resize scaled => c ← set_cache_factor size_callback scaled c; Ok (Done, c)
  end.

Definition valid (o : op) : Prop :=
  match o with
  | Get k _ _ | SetItem k _ _ | SetDefault k _ | Pop k | Contains k => full k
  | DelMulti k => part k
  | Clear => True
  | Resize scaled => 0 ≤ scaled
  end.

Abbreviation spec_step c := (step size_callback under (apply_cache_factor_from_config c)).

Lemma run_refines o (c : lru) s :
  refines c s → 0 ≤ max_size c → valid o →
  ∃ c', run o c = Ok ((spec_step c o s).1, c') ∧ refines c' (spec_step c o s).2 ∧ 0 ≤ max_size c' ∧
    apply_cache_factor_from_config c' = apply_cache_factor_from_config c.
Proof.
  intros Hrf Hpos Hv.
  assert (Hcf : ∀ c' : lru, conf c' = conf c → 0 ≤ max_size c' ∧ apply_cache_factor_from_config c' = apply_cache_factor_from_config c).
  { unfold conf. intros c' E. assert (max_size c' = max_size c) as -> by congruence. split; [done|congruence]. }
  destruct o as [k cbs touch|k v cbs|k v|k|k| |k|scaled]; simpl in Hv; cbn [run step fst snd].
  - destruct (get_refines size_callback c s k cbs touch Hrf Hv) as (c' & -> & Hr' & ?). exists c'. split; [|auto].
    unfold get_item. by destruct (lookup_item k (s_items s)).
  - destruct (set_refines size_callback Hsize c s k v cbs Hrf Hv Hpos) as (c' & -> & Hr' & ?). exists c'. auto.
  - destruct (set_default_refines c s k v Hrf Hv Hpos) as (v' & c' & -> & -> & Hr' & ?). exists c'. auto.
  - destruct (pop_refines size_callback c s k Hrf Hv) as (c' & -> & Hr' & ?). exists c'. auto.
  - destruct (del_multi_refines size_callback c s k Hrf Hv) as (c' & -> & Hr' & ?). exists c'. auto.
  - destruct (clear_refines size_callback c s Hrf) as (c' & -> & Hr' & ?). exists c'. auto.
  - rewrite (contains_refines c s k Hrf Hv). exists c. auto.
  - destruct (resize_refines c s scaled Hrf Hv) as (c' & -> & Hr' & Ha & [Hm|Hm]); exists c'; split_and!; try done; lia.
Qed.
End main.
