(* ===== verification/LruHistory.v ===== *)
(** * [LruCache]: properties of every history *)

From S2P Require Import Prelude TopoSort LinkedList TreeCache CacheStores LruCache LruProps LruThms LruMain.

(** ** The reference *)

Section spec.
Context {K V C : Type} `{Countable K, EqDecision V, Countable C, IterOrder}.
Context (size_callback : option (V → Z)) (under : relation K) `{!RelDecision under} (resizable : bool).

Fixpoint steps (ops : list op) (s : @state K V C) : list outcome * @state K V C :=
  match ops with
  | [] => ([], s)
  | o :: ops => let '(r, s) := step size_callback under resizable o s in
                let '(rs, s) := steps ops s in (r :: rs, s)
  end.

Lemma steps_cons o ops s :
  steps (o :: ops) s = ((step size_callback under resizable o s).1 :: (steps ops (step size_callback under resizable o s).2).1,
                        (steps ops (step size_callback under resizable o s).2).2).
Proof. cbn [steps]. destruct (step size_callback under resizable o s) as [r s']. cbn [fst snd]. by destruct (steps ops s'). Qed.

Lemma steps_app ops1 ops2 s :
  steps (ops1 ++ ops2) s = ((steps ops1 s).1 ++ (steps ops2 (steps ops1 s).2).1, (steps ops2 (steps ops1 s).2).2).
Proof.
  revert s. induction ops1 as [|o ops1 IH]; intros s; [simpl; by destruct (steps ops2 s)|].
  rewrite <- app_comm_cons, !steps_cons, IH. done.
Qed.

Lemma length_steps ops s : length (steps ops s).1 = length ops.
Proof. revert s. induction ops as [|o ops IH]; intros s; [done|]. rewrite steps_cons. simpl. by rewrite IH. Qed.

Lemma elem_of_add_callbacks (l new : list C) cb : cb ∈ add_callbacks l new ↔ cb ∈ l ∨ cb ∈ new.
Proof.
  revert l. induction new as [|x new IH]; intros l; [set_solver|]. unfold add_callbacks. cbn [foldl]. fold (add_callbacks (C := C)).
  etransitivity; [apply IH|]. case_bool_decide; set_solver.
Qed.

(** A callback was run, or is with the value it was registered for. *)
Definition tracked (k : K) (v : V) (cb : C) (s : @state K V C) : Prop :=
  cb ∈ s_ran s ∨ ∃ e, e ∈ s_items s ∧ i_key e = k ∧ i_val e = v ∧ cb ∈ i_cbs e.

Lemma elem_of_callbacks (l : list (@item K V C)) e cb : e ∈ l → cb ∈ i_cbs e → cb ∈ callbacks_of l.
Proof. intros He Hcb. apply list_elem_of_bind. by exists e. Qed.

Lemma shrink_tracked k v cb s : tracked k v cb s → tracked k v cb (shrink size_callback s).
Proof.
  intros [Hr|(e & He & Hk & Hv & Hcb)]; [left; simpl; set_solver|]. unfold shrink.
  destruct (fitting_prefix size_callback (s_max s) (s_items s)) as [l' El]. rewrite El in He. apply elem_of_app in He as [He|He]; [right; by exists e|].
  left. simpl. apply elem_of_app. right. apply (elem_of_callbacks _ e); [|done]. apply elem_of_reverse.
  rewrite El at 2. by rewrite drop_app_length.
Qed.

Lemma drop_tracked (P : K → Prop) `{∀ k, Decision (P k)} k v cb s : tracked k v cb s → tracked k v cb (drop_items P s).
Proof.
  intros [Hr|(e & He & Hk & Hv & Hcb)]; [left; simpl; set_solver|]. destruct (decide (P (i_key e))) as [HP|HP].
  - left. apply elem_of_app. right. apply (elem_of_callbacks _ e); [|done]. by apply list_elem_of_filter.
  - right. exists e. split; [|done]. by apply list_elem_of_filter.
Qed.

Lemma lookup_item_elem k (l : list (@item K V C)) e : NoDup (i_key <$> l) → e ∈ l → i_key e = k → lookup_item k l = Some e.
Proof. intros Hnd (l1 & l2 & ->)%list_elem_of_split Hk. by apply lookup_item_split. Qed.

Lemma without_elem k (l : list (@item K V C)) e : e ∈ l → i_key e ≠ k → e ∈ without k l.
Proof. intros. by apply list_elem_of_filter. Qed.

Lemma get_tracked k v cb s k' cbs touch :
  NoDup (i_key <$> s_items s) → tracked k v cb s → tracked k v cb (get_item k' cbs touch s).2.
Proof.
  intros Hnd Ht. unfold get_item. destruct (lookup_item k' (s_items s)) as [e0|] eqn:E; [|done].
  destruct Ht as [Hr|(e & He & Hk & Hv & Hcb)]; [by left|]. right. simpl. destruct (decide (k = k')) as [->|Hne].
  - rewrite (lookup_item_elem k' _ e) in E by done. injection E as <-. set (e' := Item _ _ _). exists e'.
    assert (Hcb' : cb ∈ i_cbs e') by (apply elem_of_add_callbacks; by left). split; [|done]. destruct touch; [by left|].
    apply list_elem_of_fmap. exists e. by rewrite decide_True.
  - exists e. split; [|done]. destruct touch; [right; apply without_elem; congruence|].
    apply list_elem_of_fmap. exists e. by rewrite decide_False by congruence.
Qed.

Lemma set_tracked k v cb s k' v' cbs :
  NoDup (i_key <$> s_items s) → tracked k v cb s → tracked k v cb (set_item size_callback k' v' cbs s).
Proof.
  intros Hnd Ht. unfold set_item. destruct (lookup_item k' (s_items s)) as [e0|] eqn:E; apply shrink_tracked.
  - destruct Ht as [Hr|(e & He & Hk & Hv & Hcb)]; [left; simpl; set_solver|]. destruct (decide (k = k')) as [->|Hne].
    + rewrite (lookup_item_elem k' _ e) in E by done. injection E as <-. case_bool_decide as Hch; [left; simpl; set_solver|].
      right. eexists. split; [by left|]. split_and!; [done|simpl; congruence|]. apply elem_of_add_callbacks. by left.
    + right. exists e. split; [|done]. right. apply without_elem; congruence.
  - destruct Ht as [Hr|(e & He & Hk & Hv & Hcb)]; [by left|]. right. exists e. split; [by right|done].
Qed.

Lemma step_tracked k v cb o s :
  NoDup (i_key <$> s_items s) → tracked k v cb s → tracked k v cb (step size_callback under resizable o s).2.
Proof.
  intros Hnd Ht. destruct o as [k' cbs touch|k' v' cbs|k' v'|k'|k'| |k'|scaled]; cbn [step snd].
  - by apply get_tracked.
  - by apply set_tracked.
  - unfold set_default. destruct (lookup_item _ _); [done|]. apply shrink_tracked.
    destruct Ht as [?|(e & ? & ?)]; [by left|]. right. exists e. split; [by right|done].
  - by apply drop_tracked.
  - by apply drop_tracked.
  - by apply drop_tracked.
  - done.
  - destruct (_ || _); [done|]. apply shrink_tracked. by destruct Ht as [?|?]; [left|right].
Qed.

(** The items fit. *)
Lemma get_total (k : K) (cbs : list C) touch (s : @state K V C) :
  NoDup (i_key <$> s_items s) → total size_callback (s_items (get_item k cbs touch s).2) = total size_callback (s_items s).
Proof.
  intros Hnd. unfold get_item. destruct (lookup_item k (s_items s)) as [e|] eqn:E; [|done].
  destruct (lookup_item_Some _ _ _ E) as (l1 & l2 & El & Hk). cbn [snd s_items]. rewrite El in *. destruct touch.
  - destruct (lookup_item_split k l1 e l2 Hnd Hk) as [_ ->]. cbn [total foldr]. fold (total size_callback (l1 ++ l2)).
    rewrite !total_app. simpl. lia.
  - set (e' := Item _ _ _). set (f := λ x, if decide (i_key x = k) then e' else x).
    assert (Hf : ∀ l : list (@item K V C), k ∉ i_key <$> l → f <$> l = l).
    { intros l Hl. rewrite <- (list_fmap_id l) at 2. apply list_fmap_ext. intros i x Hx. unfold f. rewrite decide_False; [done|].
      intros Ek. apply Hl. rewrite <- Ek. apply list_elem_of_fmap_2. by eapply list_elem_of_lookup_2. }
    rewrite fmap_app, fmap_cons in Hnd. apply NoDup_app in Hnd as (_ & Hd & [He _]%NoDup_cons). rewrite Hk in He.
    rewrite fmap_app, fmap_cons, !Hf; [|done|intros Hx; apply (Hd _ Hx); rewrite Hk; by left].
    rewrite !total_app. unfold f. rewrite decide_True by done. done.
Qed.

Lemma step_fits o (s : @state K V C) :
  (∀ v, 0 ≤ size_of size_callback v) → NoDup (i_key <$> s_items s) → 0 ≤ s_max s → (∀ scaled, o = Resize scaled → 0 ≤ scaled) → total size_callback (s_items s) ≤ s_max s →
  total size_callback (s_items (step size_callback under resizable o s).2) ≤ s_max (step size_callback under resizable o s).2.
Proof.
  intros Hsize Hnd Hpos Hsc Hf.
  assert (Hsh : ∀ s' : @state K V C, 0 ≤ s_max s' → total size_callback (s_items (shrink size_callback s')) ≤ s_max (shrink size_callback s'))
    by (intros s' ?; by apply fitting_fits).
  assert (Hfil : ∀ (P : item → Prop) `{∀ x, Decision (P x)} (l : list (@item K V C)), total size_callback (filter P l) ≤ total size_callback l).
  { intros P HP l. induction l as [|e l IH]; [done|]. rewrite filter_cons. pose proof (Hsize (i_val e)). case_decide; simpl; lia. }
  destruct o as [k cbs touch|k v cbs|k v|k|k| |k|scaled]; cbn [step snd]; try done.
  - rewrite get_total by done. unfold get_item. by destruct (lookup_item k (s_items s)).
  - unfold set_item. by destruct (lookup_item k (s_items s)); apply Hsh.
  - unfold set_default. by destruct (lookup_item k (s_items s)); [|apply Hsh].
  - simpl. etransitivity; [apply Hfil|done].
  - simpl. etransitivity; [apply Hfil|done].
  - simpl. etransitivity; [apply Hfil|done].
  - destruct (_ || _); [done|]. apply Hsh. simpl. eauto.
Qed.
End spec.

(** ** The cache *)

Section cache.
Context {K V C S : Type} `{Countable K, EqDecision V, Countable C, IterOrder} `{!CacheStore K nat S}.
Context {full part : K → Prop} {under : relation K} `{!RelDecision under} {view : S → gmap K nat} {ok : S → Prop}.
Context `{!CacheStoreLaws _ full part under view ok}.
Context (size_callback : option (V → Z)) (default_factor_size : Z → Z).

Abbreviation lru := (LruCache K V C S).
Abbreviation refines := (@refines K V C S _ _ view ok size_callback).
Abbreviation op := (@op K V C).
Abbreviation valid := (@valid K V C full part).

Fixpoint runs (ops : list op) (c : lru) : result (list outcome * lru) :=
  match ops with
  | [] => Ok ([], c)
  | o :: ops => '(r, c) ← run size_callback o c; '(rs, c) ← runs ops c; Ok (r :: rs, c)
  end.

Definition start_size (max_size : Z) (scale : bool) : Z := if scale then default_factor_size max_size else max_size.

Lemma new_refines m scale : refines (new_LruCache m default_factor_size scale) (State [] (start_size m scale) []).
Proof.
  destruct (new_ok (CacheStoreLaws := CacheStoreLaws0)) as [Hok Hnew]. unfold new_LruCache.
  destruct (create_root_node ∅) as [root h] eqn:E. pose proof (create_root_ring _ _ _ E) as [Hring _].
  constructor; [|done|done]. exists []. split_and!; [constructor|constructor|done]; try done; try (by intros r ?%not_elem_of_nil).
  - constructor.
  - constructor.
  - intros k id. simpl. rewrite Hnew, lookup_empty. split; [done|]. by intros (? & ?%not_elem_of_nil & _).
Qed.

Lemma refines_keys (c : lru) s : refines c s → NoDup (i_key <$> s_items s).
Proof. intros [(rows & _ & Hs & ->) _ _]. rewrite <- list_fmap_compose. apply (st_keys _ _ Hs). Qed.

Lemma runs_app ops1 ops2 (c : lru) :
  runs (ops1 ++ ops2) c = ('(rs1, c1) ← runs ops1 c; '(rs2, c2) ← runs ops2 c1; Ok (rs1 ++ rs2, c2)).
Proof.
  revert c. induction ops1 as [|o ops1 IH]; intros c.
  - cbn [runs app mbind result_bind]. by destruct (runs ops2 c) as [[]|].
  - rewrite <- app_comm_cons. cbn [runs]. destruct (run size_callback o c) as [[r c1]|]; [|done]. cbn [mbind result_bind]. rewrite IH.
    destruct (runs ops1 c1) as [[rs1 c2]|]; [|done]. cbn [mbind result_bind]. by destruct (runs ops2 c2) as [[]|].
Qed.

Context (Hsize : ∀ v, 0 ≤ size_of size_callback v).

Lemma runs_refines ops (c : lru) s :
  let b := apply_cache_factor_from_config c in
  refines c s → 0 ≤ max_size c → Forall valid ops →
  ∃ c', runs ops c = Ok ((steps size_callback under b ops s).1, c') ∧ refines c' (steps size_callback under b ops s).2 ∧ 0 ≤ max_size c'.
Proof.
  revert c s. induction ops as [|o ops IH]; intros c s b Hr Hm Hv; [by exists c|]. apply Forall_cons in Hv as [Ho Hv].
  destruct (run_refines size_callback Hsize o c s Hr Hm Ho) as (c1 & Hrun & Hr1 & Hm1 & Hb).
  destruct (IH c1 _ Hr1 Hm1 Hv) as (c' & Hruns & Hr' & Hm'). rewrite Hb in Hruns, Hr'. fold b in Hrun, Hruns, Hr'.
  exists c'. rewrite steps_cons. cbn [runs fst snd]. rewrite Hrun. cbn [mbind result_bind]. rewrite Hruns. by cbn [mbind result_bind].
Qed.

Lemma runs_fit ops (c : lru) s :
  refines c s → 0 ≤ max_size c → Forall valid ops → total size_callback (s_items s) ≤ s_max s →
  ∃ rs c', runs ops c = Ok (rs, c') ∧ cache_len size_callback c' ≤ max_size c'.
Proof.
  revert c s. induction ops as [|o ops IH]; intros c s Hr Hm Hv Hf.
  - exists [], c. split; [done|]. destruct Hr as [(rows & Hb & Hs & Hi) -> _]. rewrite (cache_len_total _ _ _ Hb Hs). congruence.
  - apply Forall_cons in Hv as [Ho Hv].
    destruct (run_refines size_callback Hsize o c s Hr Hm Ho) as (c1 & Hrun & Hr1 & Hm1 & _).
    destruct (IH c1 _ Hr1 Hm1 Hv) as (rs & c' & Hruns & Hc').
    + apply step_fits; [done|by eapply refines_keys|by rewrite <- (ref_max _ _ _ Hr)| |done]. by intros scaled ->.
    + eexists _, c'. cbn [runs]. rewrite Hrun. cbn [mbind result_bind]. rewrite Hruns. by cbn [mbind result_bind].
Qed.

Lemma runs_tracked k v cb ops (c : lru) s :
  refines c s → 0 ≤ max_size c → Forall valid ops → tracked k v cb s →
  ∃ rs c' s', runs ops c = Ok (rs, c') ∧ refines c' s' ∧ tracked k v cb s'.
Proof.
  revert c s. induction ops as [|o ops IH]; intros c s Hr Hm Hv Ht; [by exists [], c, s|]. apply Forall_cons in Hv as [Ho Hv].
  destruct (run_refines size_callback Hsize o c s Hr Hm Ho) as (c1 & Hrun & Hr1 & Hm1 & _).
  destruct (IH c1 _ Hr1 Hm1 Hv) as (rs & c' & s' & Hruns & Hr' & Ht').
  - apply step_tracked; [by eapply refines_keys|done].
  - eexists _, c', s'. cbn [runs]. rewrite Hrun. cbn [mbind result_bind]. rewrite Hruns. by cbn [mbind result_bind].
Qed.

(** C13: [LruCache] refines a list of items, the most recently used first.  For any
    sequence of lookups, insertions, removals, partial removals and resizes, over any
    store with the laws of [CacheStoreLaws], no operation raises, each one returns what it
    returns on the list, and the same callbacks are run. *)
Theorem lru_refines m scale ops :
  0 ≤ start_size m scale → Forall valid ops →
  ∃ c, runs ops (new_LruCache m default_factor_size scale) = Ok ((steps size_callback under scale ops (State [] (start_size m scale) [])).1, c) ∧
    ran c ≡ₚ s_ran (steps size_callback under scale ops (State [] (start_size m scale) [])).2.
Proof.
  intros Hm Hv. destruct (runs_refines ops _ _ (new_refines m scale)) as (c & Hr & [_ _ Hran] & _); [|done|by exists c].
  exact Hm.
Qed.

(** The size of the cache, as its size callback counts, is never more than its
    maximum after an operation. *)
Theorem lru_bounded m scale ops :
  0 ≤ start_size m scale → Forall valid ops →
  ∃ rs c, runs ops (new_LruCache m default_factor_size scale) = Ok (rs, c) ∧ cache_len size_callback c ≤ max_size c.
Proof. intros Hm Hv. by apply (runs_fit ops _ _ (new_refines m scale)). Qed.

(** Invalidation reaches those who depend on an entry: a callback that was given to a
    lookup which found a value has been run, unless the cache would still return that very
    value. *)
Theorem lru_callbacks m scale before k cbs touch after v rs c cb :
  0 ≤ start_size m scale → Forall valid (before ++ Get k cbs touch :: after) → 
  runs (before ++ Get k cbs touch :: after) (new_LruCache m default_factor_size scale) = Ok (rs, c) →
  rs !! length before = Some (Value (Some v)) → cb ∈ cbs →
  cb ∈ ran c ∨ ∃ c', cache_get k [] false c = Ok (Some v, c').
Proof.
  intros Hm [Hv1 [Hk Hv2]%Forall_cons]%Forall_app Hrun Hrs Hcb. rewrite runs_app in Hrun.
  destruct (runs_refines before _ _ (new_refines m scale) Hm Hv1) as (c1 & Hr1 & Href1 & Hm1). rewrite Hr1 in Hrun. cbn [mbind result_bind] in Hrun.
  set (s1 := (steps _ _ _ _ _).2) in *. destruct (run_refines size_callback Hsize (Get k cbs touch) c1 s1 Href1 Hm1 Hk) as (c2 & Hr2 & Href2 & Hm2 & _).
  cbn [runs] in Hrun. rewrite Hr2 in Hrun. cbn [mbind result_bind step fst snd] in *.
  destruct (runs after c2) as [[rs3 c3]|] eqn:Hr3; [|done]. cbn [mbind result_bind] in Hrun. injection Hrun as <- <-.
  rewrite lookup_app_r in Hrs by (by rewrite length_steps). rewrite length_steps, Nat.sub_diag in Hrs. injection Hrs as Hrs.
  destruct (runs_tracked k v cb after c2 _ Href2 Hm2 Hv2) as (rs' & c' & s' & Hr3' & Href3 & Ht).
  - unfold get_item in *. destruct (lookup_item k (s_items s1)) as [e|] eqn:Ee; [|done]. injection Hrs as Hev. right. cbn [snd s_items].
    set (e' := Item _ _ _). exists e'. split_and!; [|done|done|apply elem_of_add_callbacks; by right].
    destruct touch; [by left|]. apply list_elem_of_fmap. exists e. destruct (lookup_item_Some _ _ _ Ee) as (l1 & l2 & -> & Hek).
    split; [by rewrite decide_True|]. apply elem_of_app. right. by left.
  - rewrite Hr3 in Hr3'. injection Hr3' as <- <-. destruct Ht as [Ht|(e & He & Hek & Hev & _)].
    + left. by rewrite (ref_ran _ _ _ Href3).
    + right. destruct (get_refines size_callback c3 s' k [] false Href3 Hk) as (c' & Hg & _). exists c'.
      by rewrite Hg, (lookup_item_elem k _ e (refines_keys _ _ Href3) He Hek), <- Hev.
Qed.
End cache.

(** * [LruCache] on concrete histories: a dict of counted values, a tree of two-part keys *)

(** A tree of keys with a room and a user; the second entry is used again, the third
    displaces the first, and the entries of a room go at once. *)
Definition ex_ops : list (@op (list string) Z nat) :=
  [SetItem ["!a"; "@u"] 1 [10%nat]; SetItem ["!b"; "@u"] 2 [20%nat]; Get ["!a"; "@u"] [11%nat] true;
   SetItem ["!a"; "@w"] 3 [30%nat]; Contains ["!b"; "@u"]; Get ["!a"; "@u"] [] false; DelMulti ["!a"];
   Get ["!a"; "@w"] [] true; SetDefault ["!c"; "@u"] 4; Resize 0; Clear].

Example ex_runs :
  (fst <$> runs (S := @TreeCache string nat) None ex_ops (new_LruCache 2 (λ z, z) true)) =
  Ok [Done; Done; Value (Some 1); Done; Answer false; Value (Some 1); Done; Value None; Value (Some 4); Done; Done].
Proof. vm_compute. reflexivity. Qed.

Lemma ex_valid : Forall (LruMain.valid (full := λ k : list string, length k = 2%nat) (part := λ k, k ≠ [] ∧ (length k ≤ 2)%nat)) ex_ops.
Proof. unfold ex_ops. repeat constructor; simpl; (done || lia). Qed.

(** A cache that counts the length of its values, in a dict. *)
Definition ex_size (l : list nat) : Z := Z.of_nat (length l).
Definition ex_dict_ops : list (@op string (list nat) nat) :=
  [SetItem "a" [1; 2]%nat [1%nat]; SetItem "b" [3]%nat []; Get "a" [2%nat] false; SetItem "b" [4; 5]%nat []; Pop "b"].

Lemma ex_dict_valid : Forall (LruMain.valid (full := λ _, True) (part := λ _, True)) ex_dict_ops.
Proof. repeat constructor. Qed.

Lemma ex_size_nonneg v : 0 ≤ size_of (Some ex_size) v.
Proof. unfold size_of, ex_size. lia. Qed.

Abbreviation ex_tree := (@TreeCache string nat).
Abbreviation ex_dict := (list (string * nat)).

Lemma lru_refines_witness :
  ∃ c : LruCache (list string) Z nat ex_tree, runs None ex_ops (new_LruCache 2 (λ z, z) true) = Ok ((steps None prefix true ex_ops (State [] 2 [])).1, c) ∧
    ran c ≡ₚ s_ran (steps None prefix true ex_ops (State [] 2 [])).2.
Proof.
  apply (lru_refines (view := tree_view) (ok := tree_ok 1) None (λ z, z) (λ _, Z.le_0_1) 2 true ex_ops).
  - done.
  - exact ex_valid.
Defined.

Lemma lru_bounded_witness :
  ∃ rs (c : LruCache string (list nat) nat ex_dict), runs (Some ex_size) ex_dict_ops (new_LruCache 3 (λ z, z) false) = Ok (rs, c) ∧
    cache_len (Some ex_size) c ≤ max_size c.
Proof.
  apply (lru_bounded (view := dict_view) (ok := λ s, NoDup s.*1) (Some ex_size) (λ z, z) ex_size_nonneg 3 false ex_dict_ops).
  - done.
  - exact ex_dict_valid.
Defined.

(** The callback [11] was registered by the third operation, and the entry was dropped by
    the seventh. *)
Lemma lru_callbacks_witness :
  match runs None ex_ops (new_LruCache 2 (λ z, z) true : LruCache (list string) Z nat ex_tree) with
  | Ok (rs, c) => 11%nat ∈ ran c ∨ ∃ c', cache_get ["!a"; "@u"] [] false c = Ok (Some 1, c')
  | Err _ => False
  end.
Proof.
  destruct (runs None ex_ops (new_LruCache 2 (λ z, z) true : LruCache (list string) Z nat ex_tree)) as [[rs c]|] eqn:E.
  - refine (lru_callbacks (view := tree_view) (ok := tree_ok 1) None (λ z, z) (λ _, Z.le_0_1) 2 true
      (take 2 ex_ops) ["!a"; "@u"] [11%nat] true (drop 3 ex_ops) 1 rs c 11%nat _ ex_valid E _ _).
    + done.
    + assert (Hrs : rs = [Done; Done; Value (Some 1); Done; Answer false; Value (Some 1); Done; Value None; Value (Some 4); Done; Done]).
      { pose proof ex_runs as X. rewrite E in X. by injection X. }
      by rewrite Hrs.
    + by left.
  - pose proof ex_runs as X. rewrite E in X. discriminate X.
Defined.

(** * [LruCache] for its clients: a property of all entries

    What a client that only stores values with some property can rely on. *)

Section client.
Context {K V C S : Type} `{Countable K, EqDecision V, Countable C, IterOrder} `{!CacheStore K nat S}.
Context {full part : K → Prop} {under : relation K} `{!RelDecision under} {view : S → gmap K nat} {ok : S → Prop}.
Context `{!CacheStoreLaws _ full part under view ok}.
Context (size_callback : option (V → Z)) (Hsize : ∀ v, 0 ≤ size_of size_callback v).

Abbreviation lru := (LruCache K V C S).
Abbreviation refines := (@refines K V C S _ _ view ok size_callback).

Definition holds (Q : K → V → Prop) (c : lru) : Prop :=
  0 ≤ max_size c ∧ ∃ s, refines c s ∧ ∀ e, e ∈ s_items s → Q (i_key e) (i_val e).

Lemma holds_mono (Q Q' : K → V → Prop) c : (∀ k v, Q k v → Q' k v) → holds Q c → holds Q' c.
Proof. intros HQ [Hm (s & Hr & Hs)]. split; [done|]. exists s. auto. Qed.

Lemma new_holds Q m (f : Z → Z) scale : 0 ≤ start_size f m scale → holds Q (new_LruCache m f scale).
Proof. intros Hm. split; [done|]. eexists. split; [apply new_refines|]. by intros e ?%not_elem_of_nil. Qed.

Lemma fitting_elem room (l : list (@item K V C)) e : e ∈ fitting size_callback room l → e ∈ l.
Proof. destruct (fitting_prefix size_callback room l) as [l' El]. intros He. rewrite El. apply elem_of_app. by left. Qed.

(** Values enter the cache only by being set. *)
Lemma set_items k v cbs (s : @state K V C) e :
  e ∈ s_items (set_item size_callback k v cbs s) → (i_key e = k ∧ i_val e = v) ∨ e ∈ s_items s.
Proof.
  unfold set_item. destruct (lookup_item k (s_items s)); intros [->|He]%fitting_elem%elem_of_cons; [by left| |by left|by right].
  right. by apply list_elem_of_filter in He as [_ He].
Qed.

Lemma get_items k cbs touch (s : @state K V C) e :
  e ∈ s_items (get_item k cbs touch s).2 → ∃ e0, e0 ∈ s_items s ∧ i_key e = i_key e0 ∧ i_val e = i_val e0.
Proof.
  unfold get_item. destruct (lookup_item k (s_items s)) as [e0|] eqn:E; [|by exists e].
  destruct (lookup_item_Some _ _ _ E) as (l1 & l2 & El & Hk). assert (Hin : e0 ∈ s_items s) by (rewrite El; apply elem_of_app; right; by left).
  simpl. destruct touch.
  - intros [->|He]%elem_of_cons; [by exists e0|]. apply list_elem_of_filter in He as [_ He]. by exists e.
  - intros (x & -> & Hx)%list_elem_of_fmap. case_decide; [by exists e0|by exists x].
Qed.

Lemma cache_get_holds Q (c : lru) k cbs touch :
  holds Q c → full k →
  ∃ o c', cache_get k cbs touch c = Ok (o, c') ∧ holds Q c' ∧ ∀ v, o = Some v → Q k v.
Proof.
  intros [Hm (s & Hr & Hs)] Hk. destruct (get_refines size_callback c s k cbs touch Hr Hk) as (c' & Hg & Hr' & Hcf).
  eexists _, c'. split; [exact Hg|]. split.
  - split; [unfold conf in Hcf; by assert (max_size c' = max_size c) as -> by congruence|]. eexists. split; [exact Hr'|].
    intros e (e0 & He0 & -> & ->)%get_items. by apply Hs.
  - intros v (e & He & ->)%fmap_Some. apply lookup_item_Some in He as (l1 & l2 & El & <-). apply Hs. rewrite El. apply elem_of_app. right. by left.
Qed.

Lemma cache_set_holds Q (c : lru) k v cbs :
  holds Q c → full k → Q k v → ∃ c', cache_set size_callback k v cbs c = Ok c' ∧ holds Q c'.
Proof.
  intros [Hm (s & Hr & Hs)] Hk Hv. destruct (set_refines size_callback Hsize c s k v cbs Hr Hk Hm) as (c' & Hg & Hr' & Hcf).
  exists c'. split; [exact Hg|]. split; [unfold conf in Hcf; by assert (max_size c' = max_size c) as -> by congruence|].
  eexists. split; [exact Hr'|]. intros e [[-> ->]|He]%set_items; [done|]. by apply Hs.
Qed.

Lemma cache_del_multi_holds Q (c : lru) k :
  holds Q c → part k → ∃ c', cache_del_multi size_callback k c = Ok c' ∧ holds (λ k' v, Q k' v ∧ ¬ under k k') c'.
Proof.
  intros [Hm (s & Hr & Hs)] Hk. destruct (del_multi_refines size_callback c s k Hr Hk) as (c' & Hg & Hr' & Hcf).
  exists c'. split; [exact Hg|]. split; [unfold conf in Hcf; by assert (max_size c' = max_size c) as -> by congruence|].
  eexists. split; [exact Hr'|]. simpl. intros e [Hn He]%list_elem_of_filter. auto.
Qed.

Lemma cache_clear_holds Q (c : lru) : holds Q c → ∃ c', cache_clear size_callback c = Ok c' ∧ holds (λ _ _, False) c'.
Proof.
  intros [Hm (s & Hr & Hs)]. destruct (clear_refines size_callback c s Hr) as (c' & Hg & Hr' & Hcf).
  exists c'. split; [exact Hg|]. split; [unfold conf in Hcf; by assert (max_size c' = max_size c) as -> by congruence|].
  eexists. split; [exact Hr'|]. simpl. intros e [Hn He]%list_elem_of_filter. by apply Hn.
Qed.
End client.
