(* ===== verification/DictionaryCache.v ===== *)
(** * [DictionaryCache]: [synapse/util/caches/dictionary_cache.py]

    One [LruCache] over a tree, of two kinds of entries: the value of a key of a dict, or
    that it has none, under [(key, dict_key)], and a whole dict under
    [(key, _FullCacheKey.KEY)].  No callbacks are registered, so that the comparison of
    values in the cache decides nothing. *)

From S2P Require Import Prelude TopoSort TreeCache CacheStores LruCache.

Record DictionaryEntry (DKT DV : Type) `{Countable DKT} := MkEntryOf {
  full : bool;
  known_absent : gset DKT;
  value_of : gmap DKT DV
}.
Arguments MkEntryOf {DKT DV _ _}.
Arguments full {DKT DV _ _}.
Arguments known_absent {DKT DV _ _}.
Arguments value_of {DKT DV _ _}.

(** The values of the cache: [_PerKeyValue], with [None] for the sentinel, and dicts. *)
Inductive cached (DKT DV : Type) `{Countable DKT} :=
| _PerKeyValue (v : option DV)
| FullDict (d : gmap DKT DV).
Arguments _PerKeyValue {DKT DV _ _}.
Arguments FullDict {DKT DV _ _}.

#[export] Instance cached_eq_dec `{Countable DKT, EqDecision DV} : EqDecision (cached DKT DV).
Proof. solve_decision. Defined.

Section cache.
Context {KT DKT DV : Type} `{Countable KT, Countable DKT, EqDecision DV, IterOrder}.

(** The parts of a key; [inr None] is [_FullCacheKey.KEY]. *)
Definition atom : Type := KT + option DKT.

Definition full_key (k : KT) : list atom := [inl k; inr None].
Definition dict_key_of (k : KT) (d : DKT) : list atom := [inl k; inr (Some d)].

Definition key_prefix (k : KT) : list atom := [inl k].

(** [len] *)
Definition len_cached (v : cached DKT DV) : Z :=
  match v with _PerKeyValue _ => 1 | FullDict d => Z.of_nat (size d) end.

Abbreviation lru := (LruCache (list atom) (cached DKT DV) unit (@TreeCache atom nat)).

Record DictionaryCache := MkDictionaryCache {
  dc_cache : lru;
  sequence : Z;
  thread : option nat
}.

Definition new_DictionaryCache (max_entries : Z) (default_factor_size : Z → Z) : DictionaryCache :=
  {| dc_cache := new_LruCache max_entries default_factor_size true; sequence := 0; thread := None |}.

Definition set_dc_cache (c : lru) (dc : DictionaryCache) : DictionaryCache := MkDictionaryCache c (sequence dc) (thread dc).

Definition check_thread (current : nat) (dc : DictionaryCache) : result DictionaryCache :=
  match thread dc with
  | None => Ok (MkDictionaryCache (dc_cache dc) (sequence dc) (Some current))
  | Some expected => if bool_decide (expected = current) then Ok dc else Err (PyBuiltin ValueError)
  end.

Definition _get_full_dict (key : KT) (dc : DictionaryCache) : result (DictionaryEntry DKT DV * DictionaryCache) :=
  '(entry, c) ← cache_get (full_key key) [] true (dc_cache dc);
  match entry with
  | Some (FullDict d) => Ok (MkEntryOf true ∅ d, set_dc_cache c dc)
  | Some (_PerKeyValue _) => Err (PyBuiltin AssertionError)
  | None => Ok (MkEntryOf false ∅ ∅, set_dc_cache c dc)
  end.

(** The first loop of [get]. *)
Definition get_one (key : KT) (acc : gmap DKT DV * gset DKT * list DKT * lru) (d : DKT)
    : result (gmap DKT DV * gset DKT * list DKT * lru) :=
  let '(values, absent, missing, c) := acc in
  '(entry, c) ← cache_get (dict_key_of key d) [] true c;
  match entry with
  | None => Ok (values, absent, missing ++ [d], c)
  | Some (FullDict _) => Err (PyBuiltin AssertionError)
  | Some (_PerKeyValue None) => Ok (values, absent ∪ {[d]}, missing, c)
  | Some (_PerKeyValue (Some v)) => Ok (<[d := v]> values, absent, missing, c)
  end.

(** The second, with the whole dict. *)
Definition fill_one (key : KT) (entry : gmap DKT DV) (acc : gmap DKT DV * lru) (d : DKT) : result (gmap DKT DV * lru) :=
  let '(values, c) := acc in
  let value := entry !! d in
  c ← setitem (Some len_cached) (dict_key_of key d) (_PerKeyValue value) c;
  Ok (match value with Some v => <[d := v]> values | None => values end, c).

Definition dc_get (key : KT) (dict_keys : option (list DKT)) (dc : DictionaryCache)
    : result (DictionaryEntry DKT DV * DictionaryCache) :=
  match dict_keys with
  | None => _get_full_dict key dc
  | Some dict_keys =>
      '(values, absent, missing, c) ← fold_res (get_one key) dict_keys (∅, ∅, [], dc_cache dc);
      if bool_decide (missing = []) then Ok (MkEntryOf false absent values, set_dc_cache c dc) else
      '(entry, c) ← cache_get (full_key key) [] false c;
      match entry with
      | None => Ok (MkEntryOf false absent values, set_dc_cache c dc)
      | Some (_PerKeyValue _) => Err (PyBuiltin AssertionError)
      | Some (FullDict entry) =>
          '(values, c) ← fold_res (fill_one key entry) missing (values, c);
          Ok (MkEntryOf true ∅ values, set_dc_cache c dc)
      end
  end.

Definition invalidate (current : nat) (key : KT) (dc : DictionaryCache) : result DictionaryCache :=
  dc ← check_thread current dc;
  c ← cache_del_multi (Some len_cached) (key_prefix key) (dc_cache dc);
  Ok (MkDictionaryCache c (sequence dc + 1) (thread dc)).

Definition invalidate_all (current : nat) (dc : DictionaryCache) : result DictionaryCache :=
  dc ← check_thread current dc;
  c ← cache_clear (Some len_cached) (dc_cache dc);
  Ok (MkDictionaryCache c (sequence dc + 1) (thread dc)).

Definition _update_subset (key : KT) (value : gmap DKT DV) (fetched_keys : list DKT) (dc : DictionaryCache)
    : result DictionaryCache :=
  c ← fold_res (λ c kv, setitem (Some len_cached) (dict_key_of key kv.1) (_PerKeyValue (Some kv.2)) c) (map_to_list value) (dc_cache dc);
  c ← fold_res (λ c d, if bool_decide (is_Some (value !! d)) then Ok c
                       else setitem (Some len_cached) (dict_key_of key d) (_PerKeyValue None) c) fetched_keys c;
  Ok (set_dc_cache c dc).

Definition dc_update (current : nat) (seq : Z) (key : KT) (value : gmap DKT DV) (fetched_keys : option (list DKT))
    (dc : DictionaryCache) : result DictionaryCache :=
  dc ← check_thread current dc;
  if bool_decide (sequence dc = seq) then
    match fetched_keys with
    | None =>
        c ← setitem (Some len_cached) (full_key key) (FullDict value) (dc_cache dc);
        Ok (set_dc_cache c dc)
    | Some fetched_keys => _update_subset key value fetched_keys dc
    end
  else Ok dc.
End cache.
Arguments DictionaryCache KT DKT DV {_ _}.
Arguments atom KT DKT : clear implicits.
