(* ===== verification/DictionaryCacheProps.v ===== *)
(** * [DictionaryCache] agrees with the data it caches *)

From S2P Require Import Prelude TopoSort LinkedList TreeCache CacheStores LruCache LruProps LruMain LruHistory DictionaryCache.

Section props.
Context {KT DKT DV : Type} `{Countable KT, Countable DKT, EqDecision DV, IterOrder}.

Abbreviation atom := (atom KT DKT).
Abbreviation cached := (cached DKT DV).
Abbreviation lru := (LruCache (list atom) cached unit (@TreeCache atom nat)).
Abbreviation holds := (@holds (list atom) cached unit (@TreeCache atom nat) _ _ tree_view (tree_ok 1) (Some len_cached)).
Abbreviation dcache := (DictionaryCache KT DKT DV).

Lemma len_nonneg (v : cached) : 0 ≤ size_of (Some len_cached) v.
Proof. destruct v; simpl; lia. Qed.

(** What an entry should be: for a known key, of the kind its key says, and, for the keys
    whose data did not change since, what the data has. *)
Definition agrees (known trusted : KT → Prop) (db : KT → gmap DKT DV) (key : list atom) (v : cached) : Prop :=
  match key, v with
  | [inl k; inr None], FullDict d => known k ∧ (trusted k → d = db k)
  | [inl k; inr (Some x)], _PerKeyValue o => known k ∧ (trusted k → o = db k !! x)
  | _, _ => False
  end.

Definition coherent (known trusted : KT → Prop) (db : KT → gmap DKT DV) (dc : dcache) : Prop :=
  holds (agrees known trusted db) (dc_cache dc).

(** What the loops have found about [ds]. *)
Record found (m : gmap DKT DV) (ds : list DKT) (values : gmap DKT DV) (absent : gset DKT) (missing : list DKT) : Prop := {
  f_values d v : values !! d = Some v → d ∈ ds ∧ m !! d = Some v;
  f_absent d : d ∈ absent → d ∈ ds ∧ m !! d = None;
  f_missing d : d ∈ missing → d ∈ ds;
  f_all d : d ∈ ds → is_Some (values !! d) ∨ d ∈ absent ∨ d ∈ missing
}.

Lemma get_one_ok known trusted db k ds values absent missing c d :
  holds (agrees known trusted db) c → (trusted k → found (db k) ds values absent missing) →
  ∃ values' absent' missing' c', get_one k (values, absent, missing, c) d = Ok (values', absent', missing', c') ∧
    holds (agrees known trusted db) c' ∧ (trusted k → found (db k) (ds ++ [d]) values' absent' missing').
Proof.
  intros Hc Hf. unfold get_one.
  destruct (cache_get_holds (Some len_cached) _ c (dict_key_of k d) [] true Hc) as (o & c' & -> & Hc' & Ho); [done|].
  cbn [mbind result_bind]. destruct o as [[v|e]|]; [|by specialize (Ho _ eq_refl)|].
  - specialize (Ho _ eq_refl). simpl in Ho. destruct Ho as [_ Ho]. destruct v as [v|]; eexists _, _, _, c'; (split; [done|]); (split; [done|]); intros Ht;
      destruct (Hf Ht) as [F1 F2 F3 F4]; specialize (Ho Ht); constructor.
    + intros x w. rewrite lookup_insert_Some, elem_of_app. intros [[<- <-]|[_ Hx]]; [split; [right; by left|done]|]. apply F1 in Hx as []. auto.
    + intros x Hx. apply F2 in Hx as []. rewrite elem_of_app. auto.
    + intros x Hx. apply F3 in Hx. rewrite elem_of_app. auto.
    + intros x [Hx|Hx%list_elem_of_singleton]%elem_of_app.
      * destruct (decide (x = d)) as [->|Hne]; [left; by rewrite lookup_insert_eq|]. rewrite lookup_insert_ne by done. auto.
      * subst. left. by rewrite lookup_insert_eq.
    + intros x w Hx. apply F1 in Hx as []. rewrite elem_of_app. auto.
    + intros x. rewrite elem_of_union, elem_of_singleton, elem_of_app. intros [Hx| ->]; [apply F2 in Hx as []; auto|]. split; [right; by left|done].
    + intros x Hx. apply F3 in Hx. rewrite elem_of_app. auto.
    + intros x. rewrite elem_of_union, elem_of_singleton, elem_of_app, list_elem_of_singleton. intros [Hx| ->]; [|auto]. destruct (F4 x Hx) as [|[|]]; auto.
  - eexists _, _, _, c'. split; [done|]. split; [done|]. intros Ht. destruct (Hf Ht) as [F1 F2 F3 F4]. constructor.
    + intros x w Hx. apply F1 in Hx as []. rewrite elem_of_app. auto.
    + intros x Hx. apply F2 in Hx as []. rewrite elem_of_app. auto.
    + intros x. rewrite !elem_of_app. intros [Hx|Hx]; auto.
    + intros x. rewrite !elem_of_app. intros [Hx|Hx]; [|auto]. destruct (F4 x Hx) as [|[|]]; auto.
Qed.

Lemma get_all_ok known trusted db k dks ds values absent missing c :
  holds (agrees known trusted db) c → (trusted k → found (db k) ds values absent missing) →
  ∃ values' absent' missing' c', fold_res (get_one k) dks (values, absent, missing, c) = Ok (values', absent', missing', c') ∧
    holds (agrees known trusted db) c' ∧ (trusted k → found (db k) (ds ++ dks) values' absent' missing').
Proof.
  revert ds values absent missing c. induction dks as [|d dks IH]; intros ds values absent missing c Hc Hf; cbn [fold_res].
  - rewrite app_nil_r. by exists values, absent, missing, c.
  - destruct (get_one_ok known trusted db k ds values absent missing c d Hc Hf) as (v1 & a1 & m1 & c1 & -> & Hc1 & Hf1).
    cbn [mbind result_bind]. destruct (IH _ _ _ _ _ Hc1 Hf1) as (v2 & a2 & m2 & c2 & -> & Hc2 & Hf2).
    exists v2, a2, m2, c2. split; [done|]. split; [done|]. by rewrite <- app_assoc in Hf2.
Qed.

(** The second loop adds what it is given from the whole dict. *)
Lemma fill_all_ok known trusted db k entry missing values c :
  holds (agrees known trusted db) c → known k → (trusted k → entry = db k) →
  ∃ values' c', fold_res (fill_one k entry) missing (values, c) = Ok (values', c') ∧ holds (agrees known trusted db) c' ∧
    (∀ d, values' !! d = if decide (d ∈ missing) then match entry !! d with Some v => Some v | None => values !! d end else values !! d).
Proof.
  intros Hc Hkn He. revert values c Hc. induction missing as [|x missing IH]; intros values c Hc; cbn [fold_res].
  - exists values, c. split; [done|]. split; [done|]. intros d. by rewrite decide_False by apply not_elem_of_nil.
  - destruct (cache_set_holds (Some len_cached) len_nonneg _ c (dict_key_of k x) (_PerKeyValue (entry !! x)) [] Hc) as (c1 & Hset & Hc1); [done| |].
    { simpl. split; [done|]. intros Ht. by rewrite He. }
    set (vs1 := match entry !! x with Some v => <[x := v]> values | None => values end).
    assert (fill_one k entry (values, c) x = Ok (vs1, c1)) as -> by (unfold fill_one, setitem; by rewrite Hset).
    cbn [mbind result_bind]. destruct (IH vs1 c1 Hc1) as (v2 & c2 & -> & Hc2 & Hv2).
    exists v2, c2. split; [done|]. split; [done|]. intros d. rewrite Hv2. unfold vs1. destruct (decide (d = x)) as [->|Hne].
    + rewrite (decide_True (P := x ∈ x :: missing)) by (by left). destruct (entry !! x); [|by case_decide]. rewrite lookup_insert_eq. by case_decide.
    + rewrite (decide_ext (d ∈ x :: missing) (d ∈ missing)) by (rewrite elem_of_cons; naive_solver).
      destruct (entry !! x); [by rewrite lookup_insert_ne|done].
Qed.

(** What an answer says of the data. *)
Definition answers (m : gmap DKT DV) (dict_keys : option (list DKT)) (entry : DictionaryEntry DKT DV) : Prop :=
  (∀ d v, value_of entry !! d = Some v → m !! d = Some v) ∧
  (∀ d, d ∈ known_absent entry → m !! d = None) ∧
  (full entry = true → ∀ d, (match dict_keys with Some ds => d ∈ ds | None => True end) → value_of entry !! d = m !! d).

Lemma dc_get_ok known trusted db dc k dict_keys :
  coherent known trusted db dc →
  ∃ entry dc', dc_get k dict_keys dc = Ok (entry, dc') ∧ coherent known trusted db dc' ∧ sequence dc' = sequence dc ∧ thread dc' = thread dc ∧
    (trusted k → answers (db k) dict_keys entry).
Proof.
  intros Hc. destruct dict_keys as [dks|]; cbn [dc_get].
  - destruct (get_all_ok known trusted db k dks [] ∅ ∅ [] (dc_cache dc) Hc) as (vs & ab & ms & c & -> & Hc1 & Hf).
    { intros _. constructor; try done; try (intros d ?%not_elem_of_nil; done). }
    cbn [mbind result_bind]. simpl in Hf.
    assert (Hpart : trusted k → answers (db k) (Some dks) (MkEntryOf false ab vs)).
    { intros Ht. destruct (Hf Ht) as [F1 F2 _ _]. split_and!; [|by intros d Hd; apply F2|done]. intros d v Hv. by apply F1. }
    case_bool_decide as Hms; [eexists _, _; split; [done|]; done|].
    destruct (cache_get_holds (Some len_cached) _ c (full_key k) [] false Hc1) as (o & c2 & -> & Hc2 & Ho); [done|]. cbn [mbind result_bind].
    destruct o as [[|e]|]; [by specialize (Ho _ eq_refl)| |eexists _, _; split; [done|]; done].
    specialize (Ho _ eq_refl). simpl in Ho. destruct Ho as [Hkn Ho]. destruct (fill_all_ok known trusted db k e ms vs c2 Hc2 Hkn Ho) as (vs' & c3 & -> & Hc3 & Hv).
    cbn [mbind result_bind]. eexists _, _. split; [done|]. split; [done|]. split; [done|]. split; [done|].
    intros Ht. rewrite (Ho Ht) in Hv. destruct (Hf Ht) as [F1 F2 F3 F4]. simpl in *. split_and!; simpl.
    + intros d v. rewrite Hv. case_decide; [destruct (db k !! d) eqn:E; [congruence|]|]; intros Hx; apply F1 in Hx as []; congruence.
    + intros d Hd. by apply elem_of_empty in Hd.
    + intros _ d Hd. rewrite Hv. case_decide as Hm; [destruct (db k !! d) eqn:E; [done|]|].
      * destruct (vs !! d) eqn:E'; [|done]. apply F1 in E' as []. congruence.
      * destruct (F4 d Hd) as [[v Hv']|[Hab|]]; [|  |done].
        -- rewrite Hv'. symmetry. by apply F1.
        -- destruct (vs !! d) eqn:E'; [symmetry; by apply F1|]. symmetry. by apply F2.
  - unfold _get_full_dict. destruct (cache_get_holds (Some len_cached) _ (dc_cache dc) (full_key k) [] true Hc) as (o & c & -> & Hc1 & Ho); [done|].
    cbn [mbind result_bind]. destruct o as [[|e]|]; [by specialize (Ho _ eq_refl)| |].
    + specialize (Ho _ eq_refl). simpl in Ho. destruct Ho as [_ Ho]. eexists _, _. split; [done|]. split; [done|]. split; [done|]. split; [done|].
      intros Ht. rewrite (Ho Ht). by split_and!; simpl.
    + eexists _, _. split; [done|]. split; [done|]. split; [done|]. split; [done|]. intros _. by split_and!; simpl.
Qed.

(** ** Updates and invalidation *)

(** What a query for some keys, or for all, may return. *)
Definition fetched (m value : gmap DKT DV) (fetched_keys : option (list DKT)) : Prop :=
  match fetched_keys with
  | None => value = m
  | Some ds => (∀ d v, value !! d = Some v → m !! d = Some v) ∧ (∀ d, d ∈ ds → value !! d = None → m !! d = None)
  end.

Lemma check_thread_ok current (dc : dcache) :
  thread dc = None ∨ thread dc = Some current →
  check_thread current dc = Ok (MkDictionaryCache (dc_cache dc) (sequence dc) (Some current)).
Proof. unfold check_thread. destruct dc as [c q t]. simpl. intros [->| ->]; [done|]. by rewrite bool_decide_true. Qed.

Lemma fold_holds {A} Q (f : lru → A → result lru) l c :
  (∀ c x, x ∈ l → holds Q c → ∃ c', f c x = Ok c' ∧ holds Q c') → holds Q c → ∃ c', fold_res f l c = Ok c' ∧ holds Q c'.
Proof.
  intros Hf Hc. revert c Hc. induction l as [|x l IH]; intros c Hc; cbn [fold_res]; [by exists c|].
  destruct (Hf c x ltac:(by left) Hc) as (c1 & -> & Hc1). cbn [mbind result_bind]. apply IH; [|done]. intros c' y Hy. apply Hf. by right.
Qed.

Lemma dc_update_ok known trusted db dc current seq k value fk :
  coherent known trusted db dc → thread dc = None ∨ thread dc = Some current → known k →
  (trusted k → sequence dc = seq → fetched (db k) value fk) →
  ∃ dc', dc_update current seq k value fk dc = Ok dc' ∧ coherent known trusted db dc' ∧ sequence dc' = sequence dc ∧ thread dc' = Some current.
Proof.
  intros Hc Hth Hkn Hf. unfold dc_update. rewrite (check_thread_ok _ _ Hth). cbn [mbind result_bind sequence].
  case_bool_decide as Hseq; [|eexists; split; [done|]; done]. destruct fk as [ds|].
  - unfold _update_subset. cbn [dc_cache].
    destruct (fold_holds (agrees known trusted db) (λ c kv, setitem (Some len_cached) (dict_key_of k kv.1) (_PerKeyValue (Some kv.2)) c) (map_to_list value) (dc_cache dc)) as (c1 & -> & Hc1); [|done|].
    { intros c [d v] Hx Hc'. apply elem_of_map_to_list in Hx. apply cache_set_holds; [apply len_nonneg|done|done|]. simpl. split; [done|]. intros Ht.
      symmetry. by apply (Hf Ht Hseq). }
    cbn [mbind result_bind].
    destruct (fold_holds (agrees known trusted db) (λ c d, if bool_decide (is_Some (value !! d)) then Ok c
      else setitem (Some len_cached) (dict_key_of k d) (_PerKeyValue None) c) ds c1) as (c2 & -> & Hc2); [|done|].
    { intros c d Hd Hc'. case_bool_decide as Hv; [by exists c|]. apply cache_set_holds; [apply len_nonneg|done|done|]. simpl. split; [done|]. intros Ht.
      symmetry. apply (Hf Ht Hseq); [done|]. by apply eq_None_not_Some. }
    cbn [mbind result_bind]. by eexists.
  - unfold setitem.
    destruct (cache_set_holds (Some len_cached) len_nonneg _ (dc_cache dc) (full_key k) (FullDict value) [] Hc) as (c1 & Hs & Hc1); [done| |].
    { simpl. split; [done|]. intros Ht. by apply (Hf Ht Hseq). }
    cbn [dc_cache]. rewrite Hs. cbn [mbind result_bind]. by eexists.
Qed.

Lemma invalidate_ok known trusted db dc current k :
  coherent known trusted db dc → thread dc = None ∨ thread dc = Some current →
  ∃ dc', invalidate current k dc = Ok dc' ∧ coherent known (λ k', trusted k' ∨ k' = k) db dc' ∧ sequence dc' = sequence dc + 1 ∧ thread dc' = Some current.
Proof.
  intros Hc Hth. unfold invalidate. rewrite (check_thread_ok _ _ Hth). cbn [mbind result_bind dc_cache].
  destruct (cache_del_multi_holds (Some len_cached) _ (dc_cache dc) (key_prefix k) Hc) as (c1 & -> & Hc1); [by split; [|simpl; lia]|].
  cbn [mbind result_bind]. eexists. split; [done|]. split; [|done]. eapply holds_mono; [|exact Hc1].
  intros key v [Ha Hn]. destruct key as [|[k'|] [|[|[x|]] [|]]]; try done; destruct v; try done; simpl in *.
  - destruct Ha as [Hkn Ha]. split; [done|]. intros [Ht| ->]; [auto|]. destruct Hn. by exists [inr (Some x)].
  - destruct Ha as [Hkn Ha]. split; [done|]. intros [Ht| ->]; [auto|]. destruct Hn. by exists [inr None].
Qed.

Lemma invalidate_all_ok known trusted db dc current :
  coherent known trusted db dc → thread dc = None ∨ thread dc = Some current →
  ∃ dc', invalidate_all current dc = Ok dc' ∧ coherent known (λ _, True) db dc' ∧ sequence dc' = sequence dc + 1 ∧ thread dc' = Some current.
Proof.
  intros Hc Hth. unfold invalidate_all. rewrite (check_thread_ok _ _ Hth). cbn [mbind result_bind dc_cache].
  destruct (cache_clear_holds (Some len_cached) _ (dc_cache dc) Hc) as (c1 & -> & Hc1). cbn [mbind result_bind].
  eexists. split; [done|]. split; [|done]. by eapply holds_mono; [|exact Hc1].
Qed.

(** ** The cache beside the data

    Queries run while the data changes: a query reads the sequence number when it starts,
    and the cache is updated with what it read when it ends; a change of the data is
    followed, later, by an invalidation. *)

Record world := World {
  w_dc : dcache;
  w_db : KT → gmap DKT DV;
  (** changed, and not invalidated yet *)
  w_dirty : gset KT;
  w_running : list (Z * KT * gmap DKT DV * option (list DKT))
}.

Definition write (db : KT → gmap DKT DV) (k : KT) (m : gmap DKT DV) : KT → gmap DKT DV := λ k', if decide (k' = k) then m else db k'.

Inductive wstep (main : nat) : world → world → Prop :=
| Select dc db dirty rs k value fk :
    fetched (db k) value fk → wstep main (World dc db dirty rs) (World dc db dirty ((sequence dc, k, value, fk) :: rs))
| Finish dc dc' db dirty rs1 rs2 seq k value fk :
    dc_update main seq k value fk dc = Ok dc' →
    wstep main (World dc db dirty (rs1 ++ (seq, k, value, fk) :: rs2)) (World dc' db dirty (rs1 ++ rs2))
| Lookup dc dc' db dirty rs k dks entry :
    dc_get k dks dc = Ok (entry, dc') → wstep main (World dc db dirty rs) (World dc' db dirty rs)
| Change dc db dirty rs k m : wstep main (World dc db dirty rs) (World dc (write db k m) (dirty ∪ {[k]}) rs)
| Invalidate dc dc' db dirty rs k :
    invalidate main k dc = Ok dc' → wstep main (World dc db dirty rs) (World dc' db (dirty ∖ {[k]}) rs)
| InvalidateAll dc dc' db dirty rs :
    invalidate_all main dc = Ok dc' → wstep main (World dc db dirty rs) (World dc' db ∅ rs).

Definition start_world (max_entries : Z) (factor : Z → Z) (db : KT → gmap DKT DV) : world :=
  World (new_DictionaryCache max_entries factor) db ∅ [].

Record world_ok (main : nat) (w : world) : Prop := {
  wo_coherent : coherent (λ _, True) (λ k, k ∉ w_dirty w) (w_db w) (w_dc w);
  wo_thread : thread (w_dc w) = None ∨ thread (w_dc w) = Some main;
  wo_running seq k value fk :
    (seq, k, value, fk) ∈ w_running w → seq ≤ sequence (w_dc w) ∧ (seq = sequence (w_dc w) → k ∉ w_dirty w → fetched (w_db w k) value fk)
}.

Lemma agrees_mono (N N' T T' : KT → Prop) db db' key v :
  (∀ k, N k → N' k) → (∀ k, N k → T' k → T k ∧ db' k = db k) → agrees N T db key v → agrees N' T' db' key v.
Proof.
  intros HN HT. destruct key as [|[k'|] [|[|[x|]] [|]]]; try done; destruct v; try done; simpl;
    intros [Hn Ha]; (split; [by apply HN|]); intros [Ht E]%HT; try done; rewrite E; auto.
Qed.

Lemma wstep_ok main w w' : wstep main w w' → world_ok main w → world_ok main w'.
Proof.
  intros Hst [Hc Hth Hr]. destruct Hst as [dc db dirty rs k value fk Hf|dc dc' db dirty rs1 rs2 seq k value fk Hu|dc dc' db dirty rs k dks entry Hg
    |dc db dirty rs k m|dc dc' db dirty rs k Hi|dc dc' db dirty rs Hi]; simpl in *.
  - constructor; simpl; [done|done|]. intros seq' k' value' fk' [[= -> -> -> ->]|Hin]%elem_of_cons; [by split|auto].
  - destruct (Hr seq k value fk) as [Hle Hfr]; [apply elem_of_app; right; by left|].
    destruct (dc_update_ok (λ _, True) (λ k, k ∉ dirty) db dc main seq k value fk Hc Hth I) as (dc1 & Hu' & Hc1 & Hs1 & Ht1); [auto|].
    rewrite Hu in Hu'. injection Hu' as <-. constructor; simpl; [done|by right|]. intros seq' k' value' fk' Hin. rewrite Hs1. apply Hr.
    apply elem_of_app in Hin as [|]; apply elem_of_app; [by left|right; by right].
  - destruct (dc_get_ok (λ _, True) (λ k, k ∉ dirty) db dc k dks Hc) as (e1 & dc1 & Hg' & Hc1 & Hs1 & Ht1 & _). rewrite Hg in Hg'. injection Hg' as <- <-.
    constructor; simpl; [done|by rewrite Ht1|]. by rewrite Hs1.
  - constructor; simpl; [|done|].
    + eapply holds_mono; [|exact Hc]. intros key v. apply agrees_mono; [done|]. intros k' _ [Hd Hne]%not_elem_of_union. split; [done|].
      unfold write. rewrite decide_False; [done|]. intros ->. apply Hne. by apply elem_of_singleton.
    + intros seq' k' value' fk' Hin. destruct (Hr _ _ _ _ Hin) as [Hle Hfr]. split; [done|]. intros E [Hd Hne]%not_elem_of_union.
      unfold write. rewrite decide_False; [auto|]. intros ->. apply Hne. by apply elem_of_singleton.
  - destruct (invalidate_ok (λ _, True) (λ k, k ∉ dirty) db dc main k Hc Hth) as (dc1 & Hi' & Hc1 & Hs1 & Ht1). rewrite Hi in Hi'. injection Hi' as <-.
    constructor; simpl; [|by right|].
    + eapply holds_mono; [|exact Hc1]. intros key v. apply agrees_mono; [done|]. intros k' _ Hd. split; [|done].
      destruct (decide (k' = k)) as [|Hne]; [by right|]. left. intros Hin. apply Hd. by apply elem_of_difference; rewrite elem_of_singleton.
    + intros seq' k' value' fk' Hin. destruct (Hr _ _ _ _ Hin) as [Hle _]. rewrite Hs1. split; [lia|]. intros. lia.
  - destruct (invalidate_all_ok (λ _, True) (λ k, k ∉ dirty) db dc main Hc Hth) as (dc1 & Hi' & Hc1 & Hs1 & Ht1). rewrite Hi in Hi'. injection Hi' as <-.
    constructor; simpl; [|by right|].
    + eapply holds_mono; [|exact Hc1]. intros key v. by apply agrees_mono.
    + intros seq' k' value' fk' Hin. destruct (Hr _ _ _ _ Hin) as [Hle _]. rewrite Hs1. split; [lia|]. intros. lia.
Qed.

Lemma world_reach main max_entries factor db w :
  0 ≤ factor max_entries → rtc (wstep main) (start_world max_entries factor db) w → world_ok main w.
Proof.
  intros Hm. apply (rtc_ind_r (λ w, world_ok main w)).
  - constructor; simpl; [by apply new_holds|by left|]. by intros ? ? ? ? ?%not_elem_of_nil.
  - intros w1 w2 _ Hst. by apply wstep_ok.
Qed.

(** The type of a value of the cache is the one the two loops of [get] assert for its key. *)
Definition well_typed (key : list atom) (v : cached) : Prop :=
  match key with
  | [inl _; inr None] => ∃ d, v = FullDict d
  | [inl _; inr (Some _)] => ∃ o, v = _PerKeyValue o
  | _ => False
  end.

(** C38: the cache is well typed, whatever the order of queries, changes and
    invalidations, and also for the keys that changed and were not invalidated yet: what
    is stored under a full key is a dict, what is stored under a dict key is the value of
    one key, so that no lookup fails on an assertion. *)
Theorem dictionary_cache_typed main max_entries factor db w :
  0 ≤ factor max_entries → rtc (wstep main) (start_world max_entries factor db) w →
  (∀ k dks, is_ok (dc_get k dks (w_dc w)) = true) ∧
  ∀ key c v c', length key = 2%nat → cache_get key c false (dc_cache (w_dc w)) = Ok (Some v, c') → well_typed key v.
Proof.
  intros Hm Hw. pose proof (wo_coherent _ _ (world_reach _ _ _ _ _ Hm Hw)) as Hc. split.
  - intros k dks. destruct (dc_get_ok _ _ _ (w_dc w) k dks Hc) as (entry & dc' & -> & _). done.
  - intros key cbs v c' Hk Hg. destruct (cache_get_holds (Some len_cached) _ _ key cbs false Hc Hk) as (o & c2 & Hg' & _ & Ha).
    rewrite Hg in Hg'. injection Hg' as <- <-. specialize (Ha v eq_refl).
    destruct key as [|[k'|] [|[|[x|]] [|]]]; try done; destruct v; try done; simpl; eauto.
Qed.

(** C12: a lookup in the cache never tells a stale thing.  However queries, their ends,
    changes of the data and invalidations interleave, a lookup for a key that has no
    change waiting for its invalidation returns, gives only values the data has, names
    only absent keys as absent, and, when it says so, is complete. *)
Theorem dictionary_cache_coherent main max_entries factor db w k dks :
  0 ≤ factor max_entries → rtc (wstep main) (start_world max_entries factor db) w → k ∉ w_dirty w →
  ∃ entry dc', dc_get k dks (w_dc w) = Ok (entry, dc') ∧ answers (w_db w k) dks entry.
Proof.
  intros Hm Hw Hk. pose proof (world_reach _ _ _ _ _ Hm Hw) as Hok.
  destruct (dc_get_ok _ _ _ (w_dc w) k dks (wo_coherent _ _ Hok)) as (entry & dc' & Hg & _ & _ & _ & Ha). exists entry, dc'. auto.
Qed.
End props.

(** ** A query overtaken by a change *)

Lemma ok_unwrap {A} (d : A) (r : result A) : is_ok r = true → r = Ok (unwrap d r).
Proof. by destruct r. Qed.

Definition ex_dc := (new_DictionaryCache 10 (λ z, z) : DictionaryCache Z string Z).
Definition ex_data (k : Z) : gmap string Z := {["a" := k]}.
Definition ex_data' := write ex_data 1 {["b" := 5]}.
Definition ex_dc1 := unwrap ex_dc (invalidate 0 1 ex_dc).
Definition ex_dc2 := unwrap ex_dc (dc_update 0 0 1 (ex_data 1) None ex_dc1).
Definition ex_dc3 := unwrap ex_dc (dc_update 0 1 1 {["b" := 5]} None ex_dc2).

Lemma ex_world : rtc (wstep 0) (start_world 10 (λ z, z) ex_data) (World ex_dc3 ex_data' ({[1]} ∖ {[1]}) []).
Proof.
  eapply rtc_l; [apply (Select 0 ex_dc ex_data ∅ [] 1 (ex_data 1) None); done|].
  eapply rtc_l; [apply (Change 0 _ _ _ _ 1 {["b" := 5]})|]. rewrite (left_id_L ∅ (∪)).
  eapply rtc_l; [apply (Invalidate 0 _ ex_dc1 _ _ _ 1); apply ok_unwrap; vm_compute; reflexivity|].
  eapply rtc_l; [apply (Finish 0 _ ex_dc2 _ _ [] [] 0 1 (ex_data 1) None); apply ok_unwrap; vm_compute; reflexivity|].
  eapply rtc_l; [apply (Select 0 ex_dc2 ex_data' _ [] 1 {["b" := 5]} None); reflexivity|].
  eapply rtc_l; [apply (Finish 0 _ ex_dc3 _ _ [] [] 1 1 {["b" := 5]} None); apply ok_unwrap; vm_compute; reflexivity|].
  apply rtc_refl.
Qed.

(** The stale answer was not kept. *)
Example ex_world_get : (λ e, (full e.1, map_to_list (value_of e.1))) <$> dc_get 1 None ex_dc3 = Ok (true, [("b", 5)]).
Proof. vm_compute. reflexivity. Qed.

Lemma dictionary_cache_coherent_witness :
  ∃ entry dc', dc_get 1 (Some ["a"; "b"]) ex_dc3 = Ok (entry, dc') ∧ answers (ex_data' 1) (Some ["a"; "b"]) entry.
Proof.
  refine (dictionary_cache_coherent 0 10 (λ z, z) ex_data _ 1 (Some ["a"; "b"]) _ ex_world _).
  - done.
  - simpl. intros [_ Hn]%elem_of_difference. apply Hn. by apply elem_of_singleton.
Defined.

Lemma dictionary_cache_typed_witness :
  (∀ k dks, is_ok (dc_get k dks ex_dc3) = true) ∧
  ∀ key c v c', length key = 2%nat → cache_get key c false (dc_cache ex_dc3) = Ok (Some v, c') → well_typed key v.
Proof. refine (dictionary_cache_typed 0 10 (λ z, z) ex_data _ _ ex_world). done. Defined.
