(* ===== verification/StateGroups.v ===== *)
(** * State groups in the database: [synapse/storage/databases/state/]

    The tables of the state store and the transactions of [store.py] and [bg_updates.py]
    on them.  A state group is stored as a whole, or as the difference to a previous group:
    the rows of [state_groups_state], on top of those of the group [state_group_edges]
    leads to.  Both database engines are modelled; a transaction is one step. *)

From S2P Require Import Prelude Constants StateFilter.

Abbreviation StateMap := (gmap (string * string) string).

(** ** The tables *)

Record sg_row := SgRow {
  sg_group : Z;
  sg_room : string;
  sg_key : string * string;
  sg_event : string
}.

Record sgdb := MkDb {
  (** id, to the room and the event *)
  state_groups : gmap Z (string * string);
  (** state_group, prev_state_group *)
  state_group_edges : list (Z * Z);
  state_groups_state : list sg_row;
  (** [_state_group_seq_gen]: the last id it gave out *)
  seq_gen : Z
}.

Inductive DatabaseEngine := PostgresEngine | Sqlite3Engine.

Definition IntegrityError : exn := PyException "IntegrityError".
Definition ProgrammingError : exn := PyException "ProgrammingError".

(** [simple_select_one_onecol_txn] on [state_group_edges] *)
Definition select_prev (db : sgdb) (g : Z) : option Z := head (filter (λ e, e.1 = g) (state_group_edges db)).*2.

Definition insert_state_group (g : Z) (room_id event_id : string) (db : sgdb) : result sgdb :=
  if bool_decide (g ∈ dom (state_groups db)) then Err IntegrityError
  else Ok (MkDb (<[g := (room_id, event_id)]> (state_groups db)) (state_group_edges db) (state_groups_state db) (seq_gen db)).

Definition insert_edge (g prev : Z) (db : sgdb) : result sgdb :=
  if bool_decide ((g, prev) ∈ state_group_edges db) then Err IntegrityError
  else Ok (MkDb (state_groups db) (state_group_edges db ++ [(g, prev)]) (state_groups_state db) (seq_gen db)).

Definition insert_rows (g : Z) (room_id : string) (m : StateMap) (db : sgdb) : sgdb :=
  MkDb (state_groups db) (state_group_edges db)
    (state_groups_state db ++ ((λ kv, SgRow g room_id kv.1 kv.2) <$> map_to_list m)) (seq_gen db).

Definition delete_rows (gs : list Z) (db : sgdb) : sgdb :=
  MkDb (state_groups db) (state_group_edges db) (filter (λ r, sg_group r ∉ gs) (state_groups_state db)) (seq_gen db).
Definition delete_edges (gs : list Z) (db : sgdb) : sgdb :=
  MkDb (state_groups db) (filter (λ e, e.1 ∉ gs) (state_group_edges db)) (state_groups_state db) (seq_gen db).
Definition delete_groups (gs : list Z) (db : sgdb) : sgdb :=
  MkDb (filter (λ e, e.1 ∉ gs) (state_groups db)) (state_group_edges db) (state_groups_state db) (seq_gen db).

Definition get_next_id_txn (db : sgdb) : Z * sgdb :=
  (seq_gen db + 1, MkDb (state_groups db) (state_group_edges db) (state_groups_state db) (seq_gen db + 1)).
Definition get_next_mult_txn (n : nat) (db : sgdb) : list Z * sgdb :=
  ((λ i, seq_gen db + 1 + Z.of_nat i) <$> seq 0 n,
   MkDb (state_groups db) (state_group_edges db) (state_groups_state db) (seq_gen db + Z.of_nat n)).

(** ** Reading *)

(** A row passes the clause of [make_sql_filter_clause]; no clause lets all rows pass. *)
Definition sql_where (f : StateFilter) (k : string * string) : bool :=
  let clause := (make_sql_filter_clause f).1 in
  if bool_decide (clause = "") then true
  else if bool_decide (clause = "1 = 2") then false
  else existsb (λ a, eval_atom a k) (sql_atoms f).

(** [results[group].update(...)]: the rows whose key is not there yet. *)
Definition update_missing (rows : list sg_row) (res : StateMap) : StateMap :=
  foldl (λ res r, if bool_decide (sg_key r ∈ dom res) then res else <[sg_key r := sg_event r]> res) res rows.

Definition select_rows (f : StateFilter) (g : Z) (db : sgdb) : list sg_row :=
  filter (λ r, sg_group r = g ∧ sql_where f (sg_key r) = true) (state_groups_state db).

(** The loop over a group and the ones below it.  They have smaller numbers, so that a
    group has at most as many as its number. *)
Fixpoint walk_groups (fuel : nat) (f : StateFilter) (db : sgdb) (next_group : Z) (res : StateMap) : StateMap :=
  match fuel with
  | O => res
  | S fuel =>
      if bool_decide (next_group = 0) then res else
      let res := update_missing (select_rows f next_group db) res in
      if bool_decide (max_entries_returned f = Some (size res)) then res
      else match select_prev db next_group with
           | Some next_group => walk_groups fuel f db next_group res
           | None => res
           end
  end.

(** The common table expression [sgs]: a level of groups, and those it leads to. *)
Fixpoint recursive_groups (fuel : nat) (db : sgdb) (level : list Z) : list Z :=
  match fuel with
  | O => []
  | S fuel =>
      match level with
      | [] => []
      | _ => level ++ recursive_groups fuel db (s ← level; (filter (λ e, e.1 = s) (state_group_edges db)).*2)
      end
  end.

Definition sgs (db : sgdb) (g : Z) : list Z := recursive_groups (Z.to_nat g) db [g].

(** [SELECT DISTINCT ON (type, state_key) ... ORDER BY type, state_key, state_group DESC] *)
Definition distinct_on (rows : list sg_row) : gmap (string * string) (Z * string) :=
  foldl (λ m r, match m !! sg_key r with
                | Some (g, _) => if g <? sg_group r then <[sg_key r := (sg_group r, sg_event r)]> m else m
                | None => <[sg_key r := (sg_group r, sg_event r)]> m
                end) ∅ rows.

Definition select_distinct (db : sgdb) (g : Z) (cond : string * string → bool) : StateMap :=
  snd <$> distinct_on (filter (λ r, sg_group r ∈ sgs db g ∧ cond (sg_key r) = true) (state_groups_state db)).

(** A select per condition; [None] is any state key. *)
Definition condition_combos (f : StateFilter) : list (string * option string) :=
  tk ← map_to_list (types f);
  match tk.2 with
  | None => [(tk.1, None)]
  | Some state_keys => (λ k, (tk.1, Some k)) <$> elements state_keys
  end.

Definition combo_matches (c : string * option string) (k : string * string) : bool :=
  bool_decide (k.1 = c.1) && match c.2 with Some s => bool_decide (k.2 = s) | None => true end.

Definition use_condition_optimization (f : StateFilter) : bool := negb (include_others f) && negb (is_full f).

(** [results[group][key] = event_id] for the rows of the query *)
Definition select_postgres (f : StateFilter) (db : sgdb) (g : Z) (res : StateMap) : result StateMap :=
  let combos := condition_combos f in
  if use_condition_optimization f && bool_decide (length combos < 10)%nat then
    (* no select at all is not a statement *)
    match combos with
    | [] => Err ProgrammingError
    | _ => Ok (foldl (λ res c, select_distinct db g (combo_matches c) ∪ res) res combos)
    end
  else Ok (select_distinct db g (sql_where f) ∪ res).

Definition read_group (engine : DatabaseEngine) (f : StateFilter) (db : sgdb) (g : Z) (res : StateMap) : result StateMap :=
  match engine with
  | PostgresEngine => select_postgres f db g res
  | Sqlite3Engine => Ok (walk_groups (Z.to_nat g) f db g res)
  end.

Definition _get_state_groups_from_groups_txn (engine : DatabaseEngine) (groups : list Z) (f : StateFilter) (db : sgdb)
    : result (gmap Z StateMap) :=
  let results : gmap Z StateMap := list_to_map ((λ g, (g, ∅)) <$> groups) in
  fold_res (λ results g, m ← read_group engine f db g (default ∅ (results !! g)); Ok (<[g := m]> results)) groups results.

Fixpoint chunks_of (fuel n : nat) (l : list Z) : list (list Z) :=
  match fuel, l with
  | O, _ | _, [] => []
  | S fuel, _ => take n l :: chunks_of fuel n (drop n l)
  end.

(** Each chunk is a transaction of its own. *)
Definition _get_state_groups_from_groups (engine : DatabaseEngine) (groups : list Z) (f : StateFilter) (db : sgdb)
    : result (gmap Z StateMap) :=
  fold_res (λ results chunk, res ← _get_state_groups_from_groups_txn engine chunk f db; Ok (res ∪ results))
    (chunks_of (length groups) 100 groups) ∅.

Fixpoint count_hops (fuel : nat) (db : sgdb) (next_group : Z) (count : Z) : Z :=
  match fuel with
  | O => count
  | S fuel =>
      if bool_decide (next_group = 0) then count else
      match select_prev db next_group with
      | Some p => if bool_decide (p = 0) then count else count_hops fuel db p (count + 1)
      | None => count
      end
  end.

Definition _count_state_group_hops_txn (engine : DatabaseEngine) (db : sgdb) (g : Z) : Z :=
  match engine with
  | PostgresEngine => Z.of_nat (length (sgs db g))
  | Sqlite3Engine => count_hops (Z.to_nat g) db g 0
  end.

(** ** Writing *)

Definition MAX_STATE_DELTA_HOPS : Z := 100.

(** The check both writers of deltas begin with. *)
Definition check_prev_group (prev_group : Z) (db : sgdb) : result unit :=
  raise_if (bool_decide (prev_group = 0) || negb (bool_decide (is_Some (state_groups db !! prev_group))))
    (PyException "Trying to persist state with unpersisted prev_group").

Definition insert_delta_group_txn (engine : DatabaseEngine) (event_id room_id : string) (prev_group : Z) (delta_ids : StateMap)
    (db : sgdb) : result (option Z * sgdb) :=
  check_prev_group prev_group db ;;
  let potential_hops := _count_state_group_hops_txn engine db prev_group in
  if MAX_STATE_DELTA_HOPS <=? potential_hops then Ok (None, db) else
  let '(state_group, db) := get_next_id_txn db in
  db ← insert_state_group state_group room_id event_id db;
  db ← insert_edge state_group prev_group db;
  Ok (Some state_group, insert_rows state_group room_id delta_ids db).

(** Without the updates of the caches it asks for. *)
Definition insert_full_state_txn (event_id room_id : string) (current_state_ids : StateMap) (db : sgdb) : result (Z * sgdb) :=
  let '(state_group, db) := get_next_id_txn db in
  db ← insert_state_group state_group room_id event_id db;
  Ok (state_group, insert_rows state_group room_id current_state_ids db).

(** An event of a batch: its key, when it is a state event; and its context. *)
Record batch_event := BatchEvent { be_event_id : string; be_state : option (string * string) }.
Record batch_context := BatchContext {
  state_group_before_event : option Z;
  state_group_after_event : option Z;
  state_delta_due_to_event : option StateMap
}.

(** The loop that hands out the groups. *)
Fixpoint assign_groups (sg_before : Z) (state_group_iter : list Z) (l : list (batch_event * batch_context))
    : result (list (batch_event * batch_context)) :=
  match l with
  | [] => Ok []
  | (event, context) :: l =>
      match be_state event with
      | None =>
          rest ← assign_groups sg_before state_group_iter l;
          Ok ((event, BatchContext (Some sg_before) (Some sg_before) (state_delta_due_to_event context)) :: rest)
      | Some key =>
          match state_group_iter with
          | [] => Err (PyException "StopIteration")
          | sg_after :: state_group_iter =>
              rest ← assign_groups sg_after state_group_iter l;
              Ok ((event, BatchContext (Some sg_before) (Some sg_after) (Some {[key := be_event_id event]})) :: rest)
          end
      end
  end.

Definition is_state (ec : batch_event * batch_context) : bool := match be_state ec.1 with Some _ => true | None => false end.

(** The columns of the inserted rows; a group that is not set is NULL, which the tables refuse. *)
Definition group_column (o : option Z) : result Z := match o with Some g => Ok g | None => Err IntegrityError end.

Definition insert_deltas_group_txn (room_id : string) (events_and_context : list (batch_event * batch_context)) (prev_group : Z)
    (db : sgdb) : result (list (batch_event * batch_context) * sgdb) :=
  check_prev_group prev_group db ;;
  let num_state_groups := length (filter (λ ec, is_state ec = true) events_and_context) in
  let '(state_groups, db) := get_next_mult_txn num_state_groups db in
  l ← assign_groups prev_group state_groups events_and_context;
  db ← fold_res (λ db (ec : batch_event * batch_context), g ← group_column (state_group_after_event ec.2); insert_state_group g room_id (be_event_id ec.1) db)
         (filter (λ ec, is_state ec = true) l) db;
  db ← fold_res (λ db (ec : batch_event * batch_context), g ← group_column (state_group_after_event ec.2); p ← group_column (state_group_before_event ec.2); insert_edge g p db)
         (filter (λ ec, is_state ec = true) l) db;
  db ← fold_res (λ db (ec : batch_event * batch_context),
           match state_delta_due_to_event ec.2 with
           | Some d => g ← group_column (state_group_after_event ec.2); Ok (insert_rows g room_id d db)
           | None => Ok db
           end) l db;
  Ok (l, db).

(** ** Removing *)

(** One round of the loop of [_purge_unreferenced_state_groups]. *)
Definition de_delta (engine : DatabaseEngine) (room_id : string) (sg : Z) (db : sgdb) : result sgdb :=
  curr_state_by_group ← _get_state_groups_from_groups_txn engine [sg] all db;
  match curr_state_by_group !! sg with
  | None => Err (PyBuiltin KeyError)
  | Some curr_state => Ok (insert_rows sg room_id curr_state (delete_edges [sg] (delete_rows [sg] db)))
  end.

Definition remaining_state_groups (state_groups_to_delete : list Z) (db : sgdb) : gset Z :=
  list_to_set (filter (λ g, g ∉ state_groups_to_delete) (filter (λ e, e.2 ∈ state_groups_to_delete) (state_group_edges db)).*1).

Definition _purge_unreferenced_state_groups (engine : DatabaseEngine) (room_id : string) (state_groups_to_delete : list Z) (db : sgdb)
    : result sgdb :=
  db ← fold_res (λ db sg, de_delta engine room_id sg db) (elements (remaining_state_groups state_groups_to_delete db)) db;
  Ok (delete_groups state_groups_to_delete (delete_rows state_groups_to_delete db)).

Definition _purge_room_state_txn (state_groups_to_delete : list Z) (db : sgdb) : sgdb :=
  delete_groups state_groups_to_delete (delete_edges state_groups_to_delete (delete_rows state_groups_to_delete db)).

Definition get_previous_state_groups (groups : list Z) (db : sgdb) : gmap Z Z :=
  foldl (λ m e, <[e.1 := e.2]> m) ∅ (filter (λ e, e.2 ∈ groups) (state_group_edges db)).

(** The transaction of [get_state_group_delta]: the difference to the previous group, [None]
    for a whole group. *)
Definition _get_state_group_delta_txn (state_group : Z) (db : sgdb) : option (Z * StateMap) :=
  match select_prev db state_group with
  | Some prev_group =>
      if bool_decide (prev_group = 0) then None
      else Some (prev_group, foldl (λ m r, <[sg_key r := sg_event r]> m) ∅ (filter (λ r, sg_group r = state_group) (state_groups_state db)))
  | None => None
  end.

(** ** Re-encoding as differences: [_background_deduplicate_state] *)

(** [SELECT coalesce(max(id), 0) FROM state_groups WHERE id < ? AND room_id = ?] *)
Definition max_group_below (g : Z) (room_id : string) (db : sgdb) : Z :=
  foldr Z.max 0 (filter (λ e, e.1 < g ∧ e.2.1 = room_id) (map_to_list (state_groups db))).*1.

(** One round, for a group without edges. *)
Definition deduplicate_group (engine : DatabaseEngine) (state_group : Z) (room_id : string) (db : sgdb) : result sgdb :=
  let prev_group := max_group_below state_group room_id db in
  if bool_decide (prev_group = 0) then Ok db else
  let potential_hops := _count_state_group_hops_txn engine db prev_group in
  if MAX_STATE_DELTA_HOPS <=? potential_hops then Ok db else
  prev_state_by_group ← _get_state_groups_from_groups_txn engine [prev_group] all db;
  curr_state_by_group ← _get_state_groups_from_groups_txn engine [state_group] all db;
  match prev_state_by_group !! prev_group, curr_state_by_group !! state_group with
  | Some prev_state, Some curr_state =>
      if bool_decide (dom prev_state ⊆ dom curr_state) then
        let delta_state := filter (λ kv, prev_state !! kv.1 ≠ Some kv.2) curr_state in
        db ← insert_edge state_group prev_group (delete_edges [state_group] db);
        Ok (insert_rows state_group room_id delta_state (delete_rows [state_group] db))
      else Ok db
  | _, _ => Err (PyBuiltin KeyError)
  end.

(** [SELECT id, room_id FROM state_groups WHERE ? < id AND id <= ? ORDER BY id ASC LIMIT 1] *)
Definition next_state_group (last max_group : Z) (db : sgdb) : option (Z * string) :=
  foldr (λ e best, match best with
                   | Some (g, _) => if bool_decide (e.1 < g) then Some (e.1, e.2.1) else best
                   | None => Some (e.1, e.2.1)
                   end) None
    (filter (λ e, last < e.1 ∧ e.1 ≤ max_group) (map_to_list (state_groups db))).

(** The transaction: whether it is done, and how many groups it looked at. *)
Fixpoint reindex_txn (engine : DatabaseEngine) (batch : nat) (count new_last_state_group max_group : Z) (db : sgdb)
    : result (bool * Z * sgdb) :=
  match batch with
  | O => Ok (false, count, db)
  | S batch =>
      match next_state_group new_last_state_group max_group db with
      | None => Ok (true, count, db)
      | Some (state_group, room_id) =>
          if bool_decide (state_group = 0) then Ok (true, count, db)
          else if bool_decide (is_Some (select_prev db state_group)) then Ok (true, count, db)
          else db ← deduplicate_group engine state_group room_id db;
               reindex_txn engine batch (count + 1) state_group max_group db
      end
  end.
