(* ===== verification/StateGroupProps.v ===== *)
(** * State groups: what the tables mean *)

From S2P Require Import Prelude Constants StateFilter StateFilterProps StateGroups.

(** ** The state of a group *)

(** The rows of one group. *)
Definition delta (db : sgdb) (g : Z) : StateMap :=
  list_to_map ((λ r, (sg_key r, sg_event r)) <$> filter (λ r, sg_group r = g) (state_groups_state db)).

(** On top of the state of the previous group. *)
Fixpoint full_state_at (fuel : nat) (db : sgdb) (g : Z) : StateMap :=
  match fuel with
  | O => ∅
  | S fuel => delta db g ∪ match select_prev db g with Some p => full_state_at fuel db p | None => ∅ end
  end.

Definition full_state (db : sgdb) (g : Z) : StateMap := full_state_at (Z.to_nat g) db g.

(** ** The tables the store keeps *)

Record wf (db : sgdb) : Prop := {
  wf_edges : NoDup (state_group_edges db).*1;
  wf_less g p : (g, p) ∈ state_group_edges db → 0 < p < g;
  wf_rows : NoDup ((λ r, (sg_group r, sg_key r)) <$> state_groups_state db);
  wf_seq : 0 ≤ seq_gen db;
  wf_ids g : is_Some (state_groups db !! g) → 0 < g ≤ seq_gen db;
  wf_edge_ids g p : (g, p) ∈ state_group_edges db → g ≤ seq_gen db;
  wf_row_ids r : r ∈ state_groups_state db → 0 < sg_group r ≤ seq_gen db
}.

Lemma head_filter_fst (l : list (Z * Z)) g p : NoDup l.*1 → head (filter (λ e, e.1 = g) l).*2 = Some p ↔ (g, p) ∈ l.
Proof.
  induction l as [|[a b] l IH]; intros Hnd; [split; [done|by intros ?%not_elem_of_nil]|]. apply NoDup_cons in Hnd as [Ha Hnd].
  rewrite filter_cons. simpl. case_decide as Hg.
  - subst. simpl. rewrite elem_of_cons. split; [intros [= ->]; by left|]. intros [[= ->]|Hin]; [done|].
    destruct Ha. apply list_elem_of_fmap. by exists (g, p).
  - rewrite IH by done. rewrite elem_of_cons. split; [by right|]. intros [[= -> ->]|]; done.
Qed.

Section wf.
Context (db : sgdb) (Hwf : wf db).

Lemma select_prev_edge g p : select_prev db g = Some p ↔ (g, p) ∈ state_group_edges db.
Proof. apply head_filter_fst, (wf_edges _ Hwf). Qed.

Lemma prev_less g p : select_prev db g = Some p → 0 < p < g.
Proof. intros Hp%select_prev_edge. by apply (wf_less _ Hwf). Qed.

Lemma delta_lookup g k v : delta db g !! k = Some v ↔ ∃ r, r ∈ state_groups_state db ∧ sg_group r = g ∧ sg_key r = k ∧ sg_event r = v.
Proof.
  unfold delta. rewrite <- elem_of_list_to_map.
  - rewrite list_elem_of_fmap. setoid_rewrite list_elem_of_filter. naive_solver.
  - rewrite <- list_fmap_compose. pose proof (wf_rows _ Hwf) as Hnd. induction (state_groups_state db) as [|r l IH]; [constructor|].
    rewrite fmap_cons in Hnd. apply NoDup_cons in Hnd as [Hr Hnd]. rewrite filter_cons. case_decide as Hg; [|by apply IH].
    rewrite fmap_cons. apply NoDup_cons. split; [|by apply IH]. intros (x & Hk & Hx)%list_elem_of_fmap. apply list_elem_of_filter in Hx as [Hgx Hx].
    apply Hr. apply list_elem_of_fmap. exists x. split; [|done]. simpl in Hk. by rewrite Hk, Hg, Hgx.
Qed.

Lemma delta_no_group g : ¬ (0 < g ≤ seq_gen db) → delta db g = ∅.
Proof.
  intros Hg. apply map_eq. intros k. rewrite lookup_empty. apply eq_None_not_Some. intros [v (r & Hr & <- & _)%delta_lookup].
  apply Hg. by apply (wf_row_ids _ Hwf).
Qed.

Lemma full_state_fuel n m g : (Z.to_nat g ≤ n)%nat → (Z.to_nat g ≤ m)%nat → full_state_at n db g = full_state_at m db g.
Proof.
  revert m g. induction n as [|n IH]; intros m g Hn Hm.
  - assert (Hg : g ≤ 0) by lia. destruct m as [|m]; [done|]. simpl. rewrite (delta_no_group g) by lia.
    destruct (select_prev db g) eqn:E; [|by rewrite (left_id_L ∅ (∪))]. apply prev_less in E. lia.
  - destruct m as [|m].
    + assert (Hg : g ≤ 0) by lia. simpl. rewrite (delta_no_group g) by lia.
      destruct (select_prev db g) eqn:E; [|by rewrite (left_id_L ∅ (∪))]. apply prev_less in E. lia.
    + simpl. f_equal. destruct (select_prev db g) as [p|] eqn:E; [|done]. apply prev_less in E. apply IH; lia.
Qed.

Lemma full_state_eq g : full_state db g = delta db g ∪ match select_prev db g with Some p => full_state db p | None => ∅ end.
Proof.
  unfold full_state. rewrite (full_state_fuel (Z.to_nat g) (S (Z.to_nat g)) g) by lia. simpl. f_equal.
  destruct (select_prev db g) as [p|] eqn:E; [|done]. apply prev_less in E. apply full_state_fuel; lia.
Qed.

(** Groups by the number of groups below them. *)
Lemma group_ind (P : Z → Prop) :
  (∀ g, select_prev db g = None → P g) → (∀ g p, select_prev db g = Some p → P p → P g) → ∀ g, P g.
Proof.
  intros H0 H1 g. destruct (select_prev db g) as [p|] eqn:Hp; [|by apply H0].
  assert (Hg : 0 ≤ g) by (apply prev_less in Hp; lia). clear p Hp.
  induction g as [g IH] using (well_founded_induction (Z.lt_wf 0)).
  destruct (select_prev db g) as [p|] eqn:Hp; [|by apply H0]. pose proof (prev_less _ _ Hp). apply (H1 g p Hp). apply IH; lia.
Qed.
End wf.

(** * Reading state groups: both engines return the state of the group *)

(** ** Filters in SQL *)

Lemma sql_where_matches f k : matches f k = true → sql_where f k = true.
Proof.
  intros Hm. unfold sql_where. destruct (make_sql_filter_clause_cases f) as [(Hf & ->)|[(Hf & Ho & Ht & _)|(Hf & Hn & ->)]]; simpl; [done| |].
  - exfalso. unfold matches in Hm. by rewrite Ht, lookup_empty, Ho in Hm.
  - rewrite <- sql_atoms_matches in Hm. repeat case_bool_decide; [done| |done].
    destruct (sql_atoms f) as [|a l] eqn:E; [done|]. destruct (render_atoms_head (a :: l)) as (c & r & Er & Hc); [done|].
    match goal with Hx : String.concat _ _ = _ |- _ => rewrite Er in Hx; injection Hx as -> _; by destruct Hc end.
Qed.

(** A filter that lets something through is written exactly. *)
Lemma sql_where_exact f k0 : matches f k0 = true → ∀ k, sql_where f k = matches f k.
Proof.
  intros Hm k. destruct (matches f k) eqn:E; [by apply sql_where_matches|]. unfold sql_where.
  destruct (make_sql_filter_clause_cases f) as [(Hf & _)|[(Hf & Ho & Ht & ->)|(Hf & Hn & ->)]]; simpl; [by rewrite (is_full_matches f k Hf) in E|done|].
  rewrite <- sql_atoms_matches in Hm, E. rewrite E. destruct (sql_atoms f) as [|a l] eqn:Ea; [done|].
  destruct (render_atoms_head (a :: l)) as (c & r & -> & Hc); [done|]. rewrite bool_decide_false by done. by case_bool_decide.
Qed.

Lemma concrete_matches f k : has_wildcards f = false → matches f k = true ↔ k ∈ concrete_types f.
Proof.
  unfold has_wildcards. intros [Ho Hw]%orb_false_iff. destruct k as [t k]. rewrite elem_of_concrete_types, matches_true, Ho. split.
  - intros [Hm|[Hm|[_ Hm]]]; [|done|done]. apply not_true_iff_false in Hw. destruct Hw. apply has_wildcard_entry. eauto.
  - intros Hm. right. by left.
Qed.

(** A map of as many of the listed keys as there are has them all. *)
Lemma all_concrete (f : StateFilter) (res : StateMap) (k : string * string) :
  max_entries_returned f = Some (size res) → (∀ k', is_Some (res !! k') → matches f k' = true) → matches f k = true → is_Some (res !! k).
Proof.
  unfold max_entries_returned. destruct (has_wildcards f) eqn:Hw; [done|]. intros [= Hs] Hres Hk.
  assert (Hsub : dom res ⊆ list_to_set (concrete_types f)).
  { intros k' Hk'%elem_of_dom. by apply elem_of_list_to_set, concrete_matches, Hres. }
  assert (E : dom res = list_to_set (concrete_types f)).
  { apply set_subseteq_size_eq; [done|]. rewrite size_dom, <- Hs. apply size_list_to_set_le. }
  apply elem_of_dom. rewrite E. by apply elem_of_list_to_set, concrete_matches.
Qed.

(** ** The walk *)

Lemma update_missing_lookup (rows : list sg_row) (res : StateMap) k :
  update_missing rows res !! k =
    match res !! k with Some v => Some v | None => sg_event <$> head (filter (λ r, sg_key r = k) rows) end.
Proof.
  revert res. induction rows as [|r rows IH]; intros res; unfold update_missing; cbn [foldl]; [by destruct (res !! k)|].
  etransitivity; [apply IH|]. rewrite filter_cons. case_bool_decide as Hd.
  - destruct (res !! k) eqn:E; [done|]. rewrite decide_False; [done|]. intros <-. apply elem_of_dom in Hd as [? ?]. congruence.
  - apply not_elem_of_dom in Hd. destruct (decide (sg_key r = k)) as [<-|Hne].
    + by rewrite lookup_insert_eq, Hd.
    + by rewrite lookup_insert_ne.
Qed.

Section reads.
Context (db : sgdb) (Hwf : wf db).

Lemma head_filter_delta f g k :
  sg_event <$> head (filter (λ r, sg_key r = k) (select_rows f g db)) = if sql_where f k then delta db g !! k else None.
Proof.
  unfold select_rows. apply option_eq. intros v. split.
  - intros (r & Hh & ->)%fmap_Some. assert (Hr : r ∈ filter (λ r, sg_key r = k) (filter (λ r, sg_group r = g ∧ sql_where f (sg_key r) = true) (state_groups_state db)))
      by (destruct (filter _ (filter _ _)); [done|]; injection Hh as ->; by left).
    apply list_elem_of_filter in Hr as [<- Hr]. apply list_elem_of_filter in Hr as [[Hg ->] Hr]. apply delta_lookup; [done|]. by exists r.
  - destruct (sql_where f k) eqn:Hw; [|done]. intros (r & Hr & Hg & Hk & Hv)%delta_lookup; [|done].
    destruct (filter (λ r, sg_key r = k) _) as [|r' l] eqn:E.
    + exfalso. eapply not_elem_of_nil. rewrite <- E. apply list_elem_of_filter. split; [exact Hk|]. apply list_elem_of_filter. by rewrite Hk.
    + simpl. assert (Hr' : r' ∈ filter (λ r, sg_key r = k) (filter (λ r, sg_group r = g ∧ sql_where f (sg_key r) = true) (state_groups_state db)))
        by (rewrite E; by left).
      apply list_elem_of_filter in Hr' as [Hk' Hr']. apply list_elem_of_filter in Hr' as [[Hg' _] Hr'].
      assert (Hd : delta db g !! k = Some (sg_event r')) by (apply delta_lookup; [done|]; by exists r').
      assert (Hd' : delta db g !! k = Some v) by (apply delta_lookup; [done|]; by exists r). congruence.
Qed.

(** What a reader may add to what it has: part of the state, and all that the filter lets
    through. *)
Record reads (f : StateFilter) (m res out : StateMap) : Prop := {
  rd_keeps k w : res !! k = Some w → out !! k = Some w;
  rd_where k : is_Some (out !! k) → is_Some (res !! k) ∨ sql_where f k = true;
  rd_sound k v : out !! k = Some v → res !! k = None → m !! k = Some v;
  rd_all k : matches f k = true → res !! k = None → out !! k = m !! k
}.

Lemma lookup_union_delta (d low : StateMap) k : (d ∪ low) !! k = match d !! k with Some v => Some v | None => low !! k end.
Proof. rewrite lookup_union. by destruct (d !! k), (low !! k). Qed.

(** One group, then the ones below it. *)
Lemma reads_below f d low res out :
  let res' : StateMap → Prop := λ r, ∀ k, r !! k = match res !! k with Some v => Some v | None => if sql_where f k then d !! k else None end in
  ∀ r, res' r → reads f low r out → reads f (d ∪ low) res out.
Proof.
  intros res' r Hr [R1 R2 R3 R4]. constructor.
  - intros k w Hk. apply R1. by rewrite Hr, Hk.
  - intros k Hk. destruct (R2 k Hk) as [[v Hv]|]; [|by right]. rewrite Hr in Hv. destruct (res !! k); [by left|].
    destruct (sql_where f k); [by right|done].
  - intros k v Hv Hk. rewrite lookup_union_delta. pose proof (Hr k) as Hrk. rewrite Hk in Hrk. destruct (r !! k) as [w|] eqn:E.
    + rewrite (R1 _ _ E) in Hv. destruct (sql_where f k); [|done]. by rewrite <- Hrk.
    + assert (Hw : sql_where f k = true) by (destruct (R2 k) as [[? ?]|]; [by eauto|congruence|done]).
      rewrite Hw in Hrk. rewrite <- Hrk. by apply R3.
  - intros k Hm Hk. rewrite lookup_union_delta. pose proof (Hr k) as Hrk. rewrite Hk, (sql_where_matches f k Hm) in Hrk.
    destruct (d !! k) as [w|]; [by apply R1|]. by apply R4.
Qed.

Lemma walk_groups_reads fuel f g res :
  (Z.to_nat g ≤ fuel)%nat → 0 < g → (∀ k, is_Some (res !! k) → sql_where f k = true) →
  reads f (full_state db g) res (walk_groups fuel f db g res).
Proof.
  revert g res. induction fuel as [|fuel IH]; intros g res Hfuel Hg Hres; [lia|]. cbn [walk_groups]. rewrite bool_decide_false by lia.
  set (res' := update_missing _ _). rewrite (full_state_eq db Hwf g).
  assert (Hres' : ∀ k, res' !! k = match res !! k with Some v => Some v | None => if sql_where f k then delta db g !! k else None end).
  { intros k. unfold res'. by rewrite update_missing_lookup, head_filter_delta. }
  assert (Hw' : ∀ k, is_Some (res' !! k) → sql_where f k = true).
  { intros k [v Hv]. rewrite Hres' in Hv. destruct (res !! k) eqn:E; [by apply Hres; rewrite E|]. by destruct (sql_where f k). }
  apply (reads_below f _ _ _ _ res' Hres'). case_bool_decide as Hmax.
  - constructor; [done|by left|by intros k v -> ?|]. intros k Hk Hn. destruct (all_concrete f res' k Hmax) as [v Hv]; [|done|congruence].
    intros k' Hk'. rewrite <- (sql_where_exact f k Hk). by apply Hw'.
  - destruct (select_prev db g) as [p|] eqn:Hp.
    + pose proof (prev_less db Hwf g p Hp). apply IH; [lia|lia|done].
    + constructor; [done|by left|by intros k v -> ?|]. intros k _ ->. by rewrite lookup_empty.
Qed.

(** ** The query *)

Lemma filter_one_edge g : (filter (λ e, e.1 = g) (state_group_edges db)).*2 = match select_prev db g with Some p => [p] | None => [] end.
Proof.
  unfold select_prev. pose proof (wf_edges _ Hwf) as Hnd. induction (state_group_edges db) as [|[a b] l IH]; [done|].
  apply NoDup_cons in Hnd as [Ha Hnd]. rewrite filter_cons. simpl. case_decide as E; [|by apply IH]. subst. simpl. f_equal.
  rewrite filter_drops; [done|]. intros [x y] Hx E. simpl in E. subst. apply Ha, list_elem_of_fmap. by exists (g, y).
Qed.

Lemma recursive_one n g :
  recursive_groups (S n) db [g] = g :: match select_prev db g with Some p => recursive_groups n db [p] | None => recursive_groups n db [] end.
Proof. cbn [recursive_groups app]. f_equal. simpl. rewrite app_nil_r, filter_one_edge. by destruct (select_prev db g). Qed.

Lemma recursive_nil n : recursive_groups n db [] = [].
Proof. by destruct n. Qed.

Lemma recursive_fuel n m g : 0 < g → (Z.to_nat g ≤ n)%nat → (Z.to_nat g ≤ m)%nat → recursive_groups n db [g] = recursive_groups m db [g].
Proof.
  revert m g. induction n as [|n IH]; intros m g Hg Hn Hm; [lia|]. destruct m as [|m]; [lia|]. rewrite !recursive_one. f_equal.
  destruct (select_prev db g) as [p|] eqn:Hp; [|by rewrite !recursive_nil]. pose proof (prev_less db Hwf g p Hp). apply IH; lia.
Qed.

Lemma sgs_eq g : 0 < g → sgs db g = g :: match select_prev db g with Some p => sgs db p | None => [] end.
Proof.
  intros Hg. unfold sgs. rewrite (recursive_fuel _ (S (Z.to_nat g))) by lia. rewrite recursive_one. f_equal.
  destruct (select_prev db g) as [p|] eqn:Hp; [|by rewrite recursive_nil]. pose proof (prev_less db Hwf g p Hp). apply recursive_fuel; lia.
Qed.

Lemma sgs_le g g' : 0 < g → g' ∈ sgs db g → g' ≤ g.
Proof.
  induction g as [g Hp|g p Hp IH] using (group_ind db Hwf); intros Hg; rewrite sgs_eq, Hp by done.
  - intros ->%list_elem_of_singleton. done.
  - pose proof (prev_less db Hwf g p Hp). intros [->|Hin]%elem_of_cons; [done|]. specialize (IH ltac:(lia) Hin). lia.
Qed.

(** The state of a group is in the highest row. *)
Lemma full_state_highest g k v :
  0 < g →
  full_state db g !! k = Some v ↔
  ∃ r, r ∈ state_groups_state db ∧ sg_group r ∈ sgs db g ∧ sg_key r = k ∧ sg_event r = v ∧
    ∀ r', r' ∈ state_groups_state db → sg_group r' ∈ sgs db g → sg_key r' = k → sg_group r' ≤ sg_group r.
Proof.
  intros Hg. revert Hg v. induction g as [g Hp|g p Hp IH] using (group_ind db Hwf); intros Hg v;
    rewrite (full_state_eq db Hwf), Hp, sgs_eq, Hp, lookup_union_delta by done.
  - rewrite lookup_empty. destruct (delta db g !! k) as [w|] eqn:Hd.
    + apply (delta_lookup db Hwf) in Hd as (r & Hr & Hgr & Hk & Hv). split.
      * intros [= <-]. exists r. split_and!; try done; [rewrite Hgr; by left|]. intros r' _ ->%list_elem_of_singleton _. lia.
      * intros (r' & Hr' & Hg'%list_elem_of_singleton & Hk' & <- & _).
        assert (Hd : delta db g !! k = Some (sg_event r')) by (apply delta_lookup; [done|]; by exists r').
        assert (Hd' : delta db g !! k = Some w) by (apply delta_lookup; [done|]; by exists r). congruence.
    + split; [done|]. intros (r & Hr & Hg'%list_elem_of_singleton & Hk & Hv & _). exfalso.
      assert (Hd' : delta db g !! k = Some (sg_event r)) by (apply delta_lookup; [done|]; by exists r). congruence.
  - pose proof (prev_less db Hwf g p Hp) as Hlt. destruct (delta db g !! k) as [w|] eqn:Hd.
    + pose proof Hd as Hd0. apply (delta_lookup db Hwf) in Hd as (r & Hr & Hgr & Hk & Hv). split.
      * intros [= <-]. exists r. split_and!; try done; [rewrite Hgr; by left|].
        intros r' _ [->|Hin]%elem_of_cons _; [lia|]. apply sgs_le in Hin; lia.
      * intros (r' & Hr' & Hg' & Hk' & <- & Hmax). specialize (Hmax r Hr ltac:(rewrite Hgr; by left) Hk).
        apply elem_of_cons in Hg' as [Hg'|Hg']; [|apply sgs_le in Hg'; lia].
        assert (Hd : delta db g !! k = Some (sg_event r')) by (apply delta_lookup; [done|]; by exists r'). congruence.
    + assert (Hno : ∀ r, r ∈ state_groups_state db → sg_group r = g → sg_key r ≠ k).
      { intros r Hr Hgr Hk. assert (Hd' : delta db g !! k = Some (sg_event r)) by (apply delta_lookup; [done|]; by exists r). congruence. }
      rewrite (IH ltac:(lia)). split.
      * intros (r & Hr & Hgr & Hk & Hv & Hmax). exists r. split_and!; try done; [by right|].
        intros r' Hr' [Hg'|Hg']%elem_of_cons Hk'; [by destruct (Hno r')|auto].
      * intros (r & Hr & [Hgr|Hgr]%elem_of_cons & Hk & Hv & Hmax); [by destruct (Hno r)|]. exists r. split_and!; try done.
        intros r' Hr' Hg' Hk'. apply Hmax; [done|by right|done].
Qed.

Lemma distinct_on_lookup (rows : list sg_row) k :
  match distinct_on rows !! k with
  | Some (g, v) => ∃ r, r ∈ rows ∧ sg_key r = k ∧ sg_group r = g ∧ sg_event r = v ∧ ∀ r', r' ∈ rows → sg_key r' = k → sg_group r' ≤ g
  | None => ∀ r, r ∈ rows → sg_key r ≠ k
  end.
Proof.
  induction rows as [|r rows IH] using rev_ind; [unfold distinct_on; simpl; rewrite lookup_empty; by intros r ?%not_elem_of_nil|].
  unfold distinct_on in *. rewrite foldl_app. simpl. set (m := foldl _ _ _) in *. clearbody m.
  destruct (decide (sg_key r = k)) as [Hk|Hk].
  - subst k. destruct (m !! sg_key r) as [[g v]|] eqn:E.
    + destruct IH as (r0 & H0 & Hk0 & Hg0 & Hv0 & Hmax). destruct (g <? sg_group r) eqn:Hlt.
      * rewrite lookup_insert_eq. exists r. split_and!; try done; [apply elem_of_app; right; by left|].
        intros r' [Hin|Hin]%elem_of_app Hk'; [specialize (Hmax r' Hin Hk'); lia|]. apply list_elem_of_singleton in Hin. subst. lia.
      * rewrite E. exists r0. split_and!; try done; [apply elem_of_app; by left|].
        intros r' [Hin|Hin]%elem_of_app Hk'; [by apply Hmax|]. apply list_elem_of_singleton in Hin. subst. lia.
    + rewrite lookup_insert_eq. exists r. split_and!; try done; [apply elem_of_app; right; by left|].
      intros r' [Hin|Hin]%elem_of_app Hk'; [by destruct (IH r')|]. apply list_elem_of_singleton in Hin. subst. lia.
  - assert (E : (match m !! sg_key r with Some (g, _) => if g <? sg_group r then <[sg_key r := (sg_group r, sg_event r)]> m else m
       | None => <[sg_key r := (sg_group r, sg_event r)]> m end) !! k = m !! k).
    { destruct (m !! sg_key r) as [[g v]|]; [destruct (g <? sg_group r); [|done]|]; by rewrite lookup_insert_ne. }
    rewrite E. destruct (m !! k) as [[g v]|].
    + destruct IH as (r0 & H0 & Hk0 & Hg0 & Hv0 & Hmax). exists r0. split_and!; try done; [apply elem_of_app; by left|].
      intros r' [Hin|Hin]%elem_of_app Hk'; [by apply Hmax|]. apply list_elem_of_singleton in Hin. by subst.
    + intros r' [Hin|Hin]%elem_of_app; [by apply IH|]. apply list_elem_of_singleton in Hin. by subst.
Qed.

Lemma select_distinct_lookup g cond k :
  0 < g → select_distinct db g cond !! k = if cond k then full_state db g !! k else None.
Proof.
  intros Hg. unfold select_distinct. rewrite lookup_fmap. set (rows := filter _ _).
  assert (Hrows : ∀ r, r ∈ rows ↔ (sg_group r ∈ sgs db g ∧ cond (sg_key r) = true) ∧ r ∈ state_groups_state db) by (intros r; unfold rows; by rewrite list_elem_of_filter).
  pose proof (distinct_on_lookup rows k) as Hd. destruct (distinct_on rows !! k) as [[g' v]|]; simpl.
  - destruct Hd as (r & [[Hin Hc] Hr]%Hrows & Hk & Hgr & Hv & Hmax). rewrite <- Hk, Hc, Hk. symmetry. apply full_state_highest; [done|].
    exists r. split_and!; try done. intros r' Hr' Hin' Hk'. rewrite Hgr. apply Hmax; [|done]. apply Hrows. by rewrite Hk', <- Hk.
  - destruct (cond k) eqn:Hc; [|done]. destruct (full_state db g !! k) as [v|] eqn:E; [|done].
    apply full_state_highest in E as (r & Hr & Hin & Hk & _); [|done]. destruct (Hd r); [|done]. apply Hrows. by rewrite Hk.
Qed.

(** ** Both engines *)

(** What a reader has found of a state: nothing else, and all that the filter lets through. *)
Definition found_in (f : StateFilter) (m res : StateMap) : Prop :=
  ∀ k v, res !! k = Some v → m !! k = Some v ∧ sql_where f k = true.
Definition answers_filter (f : StateFilter) (m out : StateMap) : Prop :=
  found_in f m out ∧ ∀ k, matches f k = true → out !! k = m !! k.

Lemma found_in_empty f m : found_in f m ∅.
Proof. intros k v. by rewrite lookup_empty. Qed.

Lemma reads_answers f m res out : found_in f m res → reads f m res out → answers_filter f m out.
Proof.
  intros Hres [R1 R2 R3 R4]. split.
  - intros k v Hv. destruct (res !! k) as [w|] eqn:E.
    + rewrite (R1 _ _ E) in Hv. injection Hv as ->. by apply Hres.
    + split; [by apply R3|]. destruct (R2 k) as [[? ?]|]; [by eauto|congruence|done].
  - intros k Hm. destruct (res !! k) as [w|] eqn:E; [|by apply R4]. rewrite (R1 _ _ E). symmetry. by apply Hres.
Qed.

Lemma combos_match f k : include_others f = false → existsb (λ c, combo_matches c k) (condition_combos f) = matches f k.
Proof.
  intros Ho. apply eq_true_iff_eq. rewrite existsb_exists. destruct k as [t k]. rewrite matches_true, Ho.
  setoid_rewrite <- list_elem_of_In. unfold condition_combos, combo_matches. setoid_rewrite list_elem_of_bind. split.
  - intros ([t' c] & ([t2 e] & Hin & Hm%elem_of_map_to_list) & [Ht%bool_decide_eq_true Hc]%andb_true_iff). simpl in *. destruct e as [ks|].
    + apply list_elem_of_fmap in Hin as (s & [= -> ->] & Hs%elem_of_elements). apply bool_decide_eq_true in Hc. subst. right. left. eauto.
    + apply list_elem_of_singleton in Hin as [= -> ->]. subst. by left.
  - intros [Hm|[(ks & Hm & Hk)|[_ Hm]]]; [| |done].
    + exists (t, None). split; [|simpl; by rewrite bool_decide_true]. exists (t, None). split; [by left|by apply elem_of_map_to_list].
    + exists (t, Some k). split; [|simpl; by rewrite !bool_decide_true]. exists (t, Some ks). split; [|by apply elem_of_map_to_list].
      apply list_elem_of_fmap. exists k. split; [done|]. by apply elem_of_elements.
Qed.

Lemma fold_combos_lookup g combos res k :
  0 < g → (∀ k v, res !! k = Some v → full_state db g !! k = Some v) →
  foldl (λ res c, select_distinct db g (combo_matches c) ∪ res) res combos !! k =
    if existsb (λ c, combo_matches c k) combos then full_state db g !! k else res !! k.
Proof.
  intros Hg. revert res. induction combos as [|c combos IH]; intros res Hres; [done|]. cbn [foldl existsb]. rewrite IH.
  - destruct (existsb _ combos); [by rewrite orb_true_r|]. rewrite orb_false_r, lookup_union_delta, select_distinct_lookup by done.
    destruct (combo_matches c k); [|done]. destruct (full_state db g !! k) eqn:E; [done|]. destruct (res !! k) eqn:E'; [|done]. apply Hres in E'. congruence.
  - intros k' v. rewrite lookup_union_delta, select_distinct_lookup by done. destruct (combo_matches c k'); [|by apply Hres].
    destruct (full_state db g !! k') eqn:E; [done|]. intros Hv%Hres. congruence.
Qed.

Lemma read_group_answers (engine : DatabaseEngine) (f : StateFilter) g res :
  0 < g → (∃ k, matches f k = true) → found_in f (full_state db g) res →
  ∃ out, read_group engine f db g res = Ok out ∧ answers_filter f (full_state db g) out.
Proof.
  intros Hg [k0 Hk0] Hres. pose proof (sql_where_exact f k0 Hk0) as Hex. destruct engine; cbn [read_group].
  - unfold select_postgres. set (combos := condition_combos f). destruct (use_condition_optimization f && _) eqn:Hopt.
    + apply andb_true_iff in Hopt as [[Ho%negb_true_iff _]%andb_true_iff _]. pose proof (combos_match f k0 Ho) as Hc.
      fold combos in Hc. rewrite Hk0 in Hc. assert (Hout : ∀ k, foldl (λ res c, select_distinct db g (combo_matches c) ∪ res) res combos !! k =
        if matches f k then full_state db g !! k else res !! k).
      { intros k. rewrite fold_combos_lookup by (try done; intros k' v Hv; by apply Hres). unfold combos. by rewrite (combos_match f k Ho). }
      destruct combos as [|c cs] eqn:Ec; [done|]. eexists. split; [done|]. split.
      * intros k v. rewrite Hout, Hex. destruct (matches f k) eqn:Hm; [done|]. intros Hv. apply Hres in Hv as [? Hw]. rewrite Hex in Hw. congruence.
      * intros k Hm. by rewrite Hout, Hm.
    + eexists. split; [done|]. split.
      * intros k v. rewrite lookup_union_delta, select_distinct_lookup by done. destruct (sql_where f k) eqn:Hw; [|intros Hv; apply Hres in Hv as []; congruence].
        destruct (full_state db g !! k) eqn:E; [done|]. intros Hv. apply Hres in Hv as []. congruence.
      * intros k Hm. rewrite lookup_union_delta, select_distinct_lookup, Hex, Hm by done. destruct (full_state db g !! k) eqn:E; [done|].
        destruct (res !! k) eqn:E'; [|done]. apply Hres in E' as []. congruence.
  - eexists. split; [done|]. eapply reads_answers; [done|]. apply walk_groups_reads; [done|done|]. intros k [v Hv]. by apply Hres in Hv as [].
Qed.

Lemma answers_filter_exact (f : StateFilter) m out : (∃ k, matches f k = true) → answers_filter f m out → out = filter_state f m.
Proof.
  intros [k0 Hk0] [Hs Ha]. apply map_eq. intros k. rewrite lookup_filter_state. destruct (matches f k) eqn:Hm; [by apply Ha|].
  destruct (out !! k) eqn:E; [|done]. apply Hs in E as [_ Hw]. rewrite (sql_where_exact f k0 Hk0) in Hw. congruence.
Qed.

Lemma filter_state_answers (f : StateFilter) m : (∃ k, matches f k = true) → answers_filter f m (filter_state f m).
Proof.
  intros [k0 Hk0]. split; [|intros k Hm; by rewrite lookup_filter_state, Hm].
  intros k v. rewrite lookup_filter_state, (sql_where_exact f k0 Hk0). by destruct (matches f k).
Qed.

(** The loop over the groups. *)
Lemma read_groups_loop (engine : DatabaseEngine) (f : StateFilter) (groups : list Z) (results : gmap Z StateMap) :
  (∃ k, matches f k = true) → Forall (λ g, 0 < g) groups →
  (∀ g res, results !! g = Some res → found_in f (full_state db g) res) →
  ∃ results', fold_res (λ results g, m ← read_group engine f db g (default ∅ (results !! g)); Ok (<[g := m]> results)) groups results = Ok results' ∧
    ∀ g, results' !! g = if decide (g ∈ groups) then Some (filter_state f (full_state db g)) else results !! g.
Proof.
  intros Hf. revert results. induction groups as [|g groups IH]; intros results Hpos Hres; cbn [fold_res].
  - exists results. split; [done|]. intros g. by rewrite decide_False by apply not_elem_of_nil.
  - apply Forall_cons in Hpos as [Hg Hpos].
    destruct (read_group_answers engine f g (default ∅ (results !! g)) Hg Hf) as (out & -> & Hout).
    { destruct (results !! g) eqn:E; [by apply Hres|apply found_in_empty]. }
    cbn [mbind result_bind]. pose proof Hout as Ho. apply answers_filter_exact in Ho; [|done].
    destruct (IH (<[g := out]> results) Hpos) as (results' & -> & Hr').
    + intros g' res. rewrite lookup_insert_Some. intros [[<- <-]|[_ Hr]]; [by apply Hout|by apply Hres].
    + exists results'. split; [done|]. intros g'. rewrite Hr'. destruct (decide (g' ∈ groups)) as [Hin|Hin]; [by rewrite decide_True by (by right)|].
      destruct (decide (g' = g)) as [->|Hne]; [rewrite lookup_insert_eq, decide_True by (by left); by rewrite Ho|].
      rewrite lookup_insert_ne, decide_False by (try done; rewrite elem_of_cons; naive_solver). done.
Qed.

Lemma from_groups_txn (engine : DatabaseEngine) (f : StateFilter) (groups : list Z) :
  (∃ k, matches f k = true) → Forall (λ g, 0 < g) groups →
  ∃ results, _get_state_groups_from_groups_txn engine groups f db = Ok results ∧
    ∀ g, results !! g = if decide (g ∈ groups) then Some (filter_state f (full_state db g)) else None.
Proof.
  intros Hf Hpos. unfold _get_state_groups_from_groups_txn. set (r0 := list_to_map _).
  assert (Hr0 : ∀ g res, r0 !! g = Some res → g ∈ groups ∧ res = ∅).
  { intros g res Hg. apply elem_of_list_to_map_2, list_elem_of_fmap in Hg as (x & [= -> ->] & Hx). done. }
  destruct (read_groups_loop engine f groups r0 Hf Hpos) as (results & Hok & Hres).
  - intros g res [_ ->]%Hr0. apply found_in_empty.
  - exists results. split; [done|]. intros g. rewrite Hres. case_decide as Hin; [done|]. destruct (r0 !! g) eqn:E; [|done]. by apply Hr0 in E as [].
Qed.

Lemma elem_of_chunks fuel n (l : list Z) x : (length l ≤ fuel)%nat → (0 < n)%nat → x ∈ l ↔ ∃ c, c ∈ chunks_of fuel n l ∧ x ∈ c.
Proof.
  revert l. induction fuel as [|fuel IH]; intros l Hl Hn.
  - destruct l; [|simpl in Hl; lia]. split; [by intros ?%not_elem_of_nil|]. by intros (? & ?%not_elem_of_nil & _).
  - destruct l as [|y l]; [split; [by intros ?%not_elem_of_nil|]; by intros (? & ?%not_elem_of_nil & _)|].
    set (L := y :: l) in *. assert (Hc : chunks_of (S fuel) n L = take n L :: chunks_of fuel n (drop n L)) by done. rewrite Hc.
    rewrite <- (take_drop n L) at 1. rewrite elem_of_app, (IH (drop n L)); [|rewrite length_drop; simpl in *; lia|done].
    setoid_rewrite elem_of_cons. naive_solver.
Qed.

Lemma from_groups (engine : DatabaseEngine) (f : StateFilter) (groups : list Z) :
  (∃ k, matches f k = true) → Forall (λ g, 0 < g) groups →
  ∃ results, _get_state_groups_from_groups engine groups f db = Ok results ∧
    ∀ g, results !! g = if decide (g ∈ groups) then Some (filter_state f (full_state db g)) else None.
Proof.
  intros Hf Hpos. unfold _get_state_groups_from_groups. set (chunks := chunks_of _ _ _).
  assert (Hall : ∀ g, g ∈ groups ↔ ∃ c, c ∈ chunks ∧ g ∈ c) by (intros g; apply elem_of_chunks; lia).
  assert (Hloop : ∀ (cs : list (list Z)) (r0 : gmap Z StateMap), (∀ c, c ∈ cs → c ∈ chunks) →
    ∃ results, fold_res (λ results chunk, res ← _get_state_groups_from_groups_txn engine chunk f db; Ok (res ∪ results)) cs r0 = Ok results ∧
      ∀ g, (∃ c, c ∈ cs ∧ g ∈ c) ∧ results !! g = Some (filter_state f (full_state db g)) ∨ (¬ (∃ c, c ∈ cs ∧ g ∈ c)) ∧ results !! g = r0 !! g).
  { induction cs as [|c cs IH]; intros r0 Hcs; cbn [fold_res].
    - exists r0. split; [done|]. intros g. right. split; [|done]. by intros (? & ?%not_elem_of_nil & _).
    - destruct (from_groups_txn engine f c Hf) as (res & -> & Hres).
      { apply Forall_forall. intros g Hg. rewrite Forall_forall in Hpos. apply Hpos, Hall. exists c. split; [|done]. apply Hcs. by left. }
      cbn [mbind result_bind]. destruct (IH (res ∪ r0)) as (results & -> & Hr); [intros c' Hc'; apply Hcs; by right|]. exists results. split; [done|].
      intros g. destruct (Hr g) as [[(c' & Hc' & Hg) Hv]|[Hn Hv]].
      + left. split; [|done]. exists c'. split; [by right|done].
      + rewrite Hv, lookup_union, Hres. case_decide as Hg.
        * left. split; [exists c; split; [by left|done]|]. by destruct (r0 !! g).
        * right. split; [|by destruct (r0 !! g)]. intros (c' & [->|Hc']%elem_of_cons & Hg'); [done|]. apply Hn. by exists c'. }
  destruct (Hloop chunks ∅) as (results & Hok & Hr); [done|]. exists results. split; [done|]. intros g.
  destruct (Hr g) as [[Hin Hv]|[Hn Hv]]; rewrite Hv.
  - by rewrite decide_True by (by apply Hall).
  - rewrite decide_False by (by rewrite Hall). apply lookup_empty.
Qed.
End reads.

(** C16: on well-formed tables ([wf]), for a filter that matches some key (for one that matches
    none PostgreSQL is given an invalid statement: [read_nothing_postgres]) and positive
    groups, the two ways to read state groups agree with each other and with the tables: the
    recursive query for PostgreSQL, whole or as a select per condition, and the walk for
    SQLite, with its early end, return for every group asked for, in chunks of a hundred,
    exactly what the filter lets through of the group's own rows on top of those of the
    groups below it. *)
Theorem read_state_groups (db : sgdb) (engine : DatabaseEngine) (f : StateFilter) (groups : list Z) :
  wf db → (∃ k, matches f k = true) → Forall (λ g, 0 < g) groups →
  ∃ results, _get_state_groups_from_groups engine groups f db = Ok results ∧
    ∀ g, results !! g = if decide (g ∈ groups) then Some (filter_state f (full_state db g)) else None.
Proof. intros Hwf. by apply from_groups. Qed.
