(* ===== verification/StateGroupWrites.v ===== *)
(** * Writing and removing state groups *)

From S2P Require Import Prelude Constants StateFilter StateFilterProps StateGroups StateGroupProps.

(** Two databases give a group the same state when they do so for the groups its state is
    made of. *)
Lemma full_state_same (db db' : sgdb) (P : Z → Prop) :
  wf db → wf db' →
  (∀ g, P g → full_state db' g = full_state db g ∨
     (delta db' g = delta db g ∧ select_prev db' g = select_prev db g ∧ ∀ p, select_prev db g = Some p → P p)) →
  ∀ g, P g → full_state db' g = full_state db g.
Proof.
  intros Hwf Hwf' HP g. induction g as [g Hp|g p Hp IH] using (group_ind db Hwf); intros Hg; destruct (HP g Hg) as [|(Hd & Hs & Hn)]; try done;
    rewrite (full_state_eq db' Hwf'), (full_state_eq db Hwf), Hd, Hs, Hp; [done|]. by rewrite IH by auto.
Qed.

(** A row more. *)
Lemma delta_insert_rows g room m db g' :
  delta db g = ∅ → delta (insert_rows g room m db) g' = if decide (g' = g) then m else delta db g'.
Proof.
  intros Hg. unfold delta, insert_rows. simpl. rewrite filter_app, fmap_app, list_to_map_app. case_decide as Hd.
  - subst. fold (delta db g). rewrite Hg, (left_id_L ∅ (∪)). rewrite filter_keeps; [|by intros r (? & -> & _)%list_elem_of_fmap].
    rewrite <- list_fmap_compose. rewrite (list_fmap_ext _ id); [by rewrite list_fmap_id, list_to_map_to_list|]. by intros i [].
  - rewrite (filter_drops _ (_ <$> _)); [simpl; by rewrite (right_id_L ∅ (∪))|]. intros r (? & -> & _)%list_elem_of_fmap. simpl. congruence.
Qed.

Lemma delta_delete_rows gs db g : delta (delete_rows gs db) g = if decide (g ∈ gs) then ∅ else delta db g.
Proof.
  unfold delta, delete_rows. simpl. rewrite list_filter_filter. case_decide as Hg.
  - rewrite filter_drops; [done|]. intros r _ [Hr Hn]. subst. done.
  - f_equal. f_equal. apply filter_same. intros r _. naive_solver.
Qed.

Lemma select_prev_delete gs db g : select_prev (delete_edges gs db) g = if decide (g ∈ gs) then None else select_prev db g.
Proof.
  unfold select_prev, delete_edges. simpl. rewrite list_filter_filter. case_decide as Hg.
  - rewrite filter_drops; [done|]. intros e _ [He Hn]. subst. done.
  - f_equal. f_equal. apply filter_same. intros e _. naive_solver.
Qed.

Lemma select_prev_insert g p db db' g' :
  insert_edge g p db = Ok db' → select_prev db g = None → select_prev db' g' = if decide (g' = g) then Some p else select_prev db g'.
Proof.
  unfold insert_edge. case_bool_decide; [done|]. intros [= <-] Hn. unfold select_prev in *. simpl. rewrite filter_app, fmap_app, head_app. case_decide as Hg.
  - subst. rewrite Hn. rewrite filter_cons, decide_True by done. done.
  - rewrite filter_cons, decide_False by (simpl; congruence). by destruct (head (filter (λ e, e.1 = g') (state_group_edges db)).*2).
Qed.

(** ** New groups *)

Lemma wf_new_id db : wf db → wf (get_next_id_txn db).2.
Proof.
  intros [W1 W2 W3 W4 W5 W6 W7]. constructor; simpl; try done; [lia| | |].
  - intros g Hg. apply W5 in Hg. lia.
  - intros g p Hg. apply W6 in Hg. lia.
  - intros r Hr. apply W7 in Hr. lia.
Qed.

Lemma wf_insert_group g room ev db db' : wf db → 0 < g ≤ seq_gen db → insert_state_group g room ev db = Ok db' → wf db'.
Proof.
  intros [W1 W2 W3 W4 W5 W6 W7] Hg. unfold insert_state_group. case_bool_decide; [done|]. intros [= <-]. constructor; simpl; try done.
  intros g'. rewrite lookup_insert_is_Some. intros [<-|[_ Hs]]; [done|]. by apply W5.
Qed.

Lemma wf_insert_edge g p db db' : wf db → select_prev db g = None → 0 < p < g → g ≤ seq_gen db → insert_edge g p db = Ok db' → wf db'.
Proof.
  intros Hwf Hn Hp Hg. pose proof Hwf as [W1 W2 W3 W4 W5 W6 W7]. unfold insert_edge. case_bool_decide; [done|]. intros [= <-]. constructor; simpl; try done.
  - rewrite fmap_app. apply NoDup_app. split; [done|]. split; [|apply NoDup_singleton].
    intros x (e & -> & He)%list_elem_of_fmap Hx%list_elem_of_singleton. destruct e as [a b]. simpl in Hx. subst.
    apply (select_prev_edge db Hwf) in He. congruence.
  - intros a b [Hin|Hin%list_elem_of_singleton]%elem_of_app; [by apply W2|]. by injection Hin as -> ->.
  - intros a b [Hin|Hin%list_elem_of_singleton]%elem_of_app; [by eapply W6|]. by injection Hin as -> ->.
Qed.

Lemma wf_insert_rows g room m db : wf db → delta db g = ∅ → 0 < g ≤ seq_gen db → wf (insert_rows g room m db).
Proof.
  intros Hwf Hd Hg. pose proof Hwf as [W1 W2 W3 W4 W5 W6 W7]. constructor; simpl; try done.
  - rewrite fmap_app, <- list_fmap_compose. apply NoDup_app. split; [done|]. split.
    + intros x (r & -> & Hr)%list_elem_of_fmap (kv & Hkv & _)%list_elem_of_fmap. simpl in Hkv. injection Hkv as Hgr _.
      assert (Hs : delta db g !! sg_key r = Some (sg_event r)) by (apply delta_lookup; [done|]; by exists r). by rewrite Hd, lookup_empty in Hs.
    + rewrite (list_fmap_ext _ ((λ k, (g, k)) ∘ fst)) by (by intros i []). rewrite list_fmap_compose. apply (NoDup_fmap_2 _), NoDup_fst_map_to_list.
  - intros r [Hr|(kv & -> & _)%list_elem_of_fmap]%elem_of_app; [by apply W7|done].
Qed.

Lemma wf_delete_rows gs db : wf db → wf (delete_rows gs db).
Proof.
  intros [W1 W2 W3 W4 W5 W6 W7]. constructor; simpl; try done.
  - eapply sublist_NoDup; [exact W3|]. apply fmap_sublist, sublist_filter.
  - intros r [_ Hr]%list_elem_of_filter. by apply W7.
Qed.
Lemma wf_delete_edges gs db : wf db → wf (delete_edges gs db).
Proof.
  intros [W1 W2 W3 W4 W5 W6 W7]. constructor; simpl; try done.
  - eapply sublist_NoDup; [exact W1|]. apply fmap_sublist, sublist_filter.
  - intros g p [_ Hg]%list_elem_of_filter. by apply W2.
  - intros g p [_ Hg]%list_elem_of_filter. by eapply W6.
Qed.
Lemma wf_delete_groups gs db : wf db → wf (delete_groups gs db).
Proof. intros [W1 W2 W3 W4 W5 W6 W7]. constructor; simpl; try done. intros g [v Hv]. apply map_lookup_filter_Some in Hv as [Hv _]. apply W5. eauto. Qed.

(** The new id is of no group. *)
Lemma new_id_fresh db :
  wf db → state_groups db !! (seq_gen db + 1) = None ∧ delta db (seq_gen db + 1) = ∅ ∧ select_prev db (seq_gen db + 1) = None.
Proof.
  intros Hwf. split_and!.
  - apply eq_None_not_Some. intros Hs%(wf_ids _ Hwf). lia.
  - apply delta_no_group; [done|lia].
  - destruct (select_prev db (seq_gen db + 1)) as [p|] eqn:E; [|done]. apply (select_prev_edge db Hwf) in E. apply (wf_edge_ids _ Hwf) in E. lia.
Qed.

(** A new group leaves the others as they are. *)
Lemma new_group_frame db db' :
  let sg := seq_gen db + 1 in
  wf db → wf db' → (∀ g, g ≠ sg → delta db' g = delta db g ∧ select_prev db' g = select_prev db g) →
  ∀ g, g ≠ sg → full_state db' g = full_state db g.
Proof.
  intros sg Hwf Hwf' Heq. apply (full_state_same db db' (λ g, g ≠ sg)); [done|done|]. intros g Hg. right.
  destruct (Heq g Hg) as [Hd Hs]. split_and!; [done|done|]. intros p Hp ->. pose proof (prev_less db Hwf _ _ Hp).
  apply (select_prev_edge db Hwf) in Hp. apply (wf_edge_ids _ Hwf) in Hp. unfold sg in *. lia.
Qed.

Lemma insert_full_state_ok ev room m db :
  wf db → ∃ db', insert_full_state_txn ev room m db = Ok (seq_gen db + 1, db') ∧ wf db' ∧ full_state db' (seq_gen db + 1) = m ∧
    (∀ g, g ≠ seq_gen db + 1 → full_state db' g = full_state db g) ∧ seq_gen db' = seq_gen db + 1 ∧ state_group_edges db' = state_group_edges db ∧
    state_groups db' = <[seq_gen db + 1 := (room, ev)]> (state_groups db).
Proof.
  intros Hwf. destruct (new_id_fresh db Hwf) as (Hg & Hd & Hp). unfold insert_full_state_txn, get_next_id_txn. set (sg := seq_gen db + 1) in *.
  set (db1 := MkDb _ _ _ _). assert (Hwf1 : wf db1) by (apply (wf_new_id db Hwf)).
  unfold insert_state_group. rewrite bool_decide_false by (simpl; by apply not_elem_of_dom). cbn [mbind result_bind].
  set (db2 := MkDb _ _ _ _). pose proof (wf_seq _ Hwf).
  assert (Hwf2 : wf db2).
  { apply (wf_insert_group sg room ev db1 db2 Hwf1); [simpl; lia|]. unfold insert_state_group. by rewrite bool_decide_false by (simpl; by apply not_elem_of_dom). }
  eexists. split; [done|]. assert (Hwf3 : wf (insert_rows sg room m db2)) by (apply wf_insert_rows; [done|exact Hd|simpl; lia]).
  assert (Hdel : ∀ g, delta (insert_rows sg room m db2) g = if decide (g = sg) then m else delta db g).
  { intros g. rewrite delta_insert_rows by exact Hd. done. }
  split_and!; [done| | |done|done|done].
  - rewrite (full_state_eq _ Hwf3), Hdel, decide_True by done. change (select_prev (insert_rows sg room m db2) sg) with (select_prev db sg).
    by rewrite Hp, (right_id_L ∅ (∪)).
  - apply new_group_frame; [done|done|]. intros g Hne. by rewrite Hdel, decide_False.
Qed.

(** ** Deltas *)

Lemma sgs_same db db' (P : Z → Prop) :
  wf db → wf db' → (∀ g, P g → 0 < g ∧ select_prev db' g = select_prev db g ∧ ∀ p, select_prev db g = Some p → P p) →
  ∀ g, P g → sgs db' g = sgs db g.
Proof.
  intros Hwf Hwf' HP g. induction g as [g Hp|g p Hp IH] using (group_ind db Hwf); intros Hg; destruct (HP g Hg) as (Hpos & Hs & Hn);
    rewrite (sgs_eq db' Hwf'), (sgs_eq db Hwf), Hs, Hp by done; [done|]. by rewrite IH by auto.
Qed.

Lemma count_hops_sgs db fuel g c : wf db → 0 < g → (Z.to_nat g ≤ fuel)%nat → count_hops fuel db g c = c + Z.of_nat (length (sgs db g)) - 1.
Proof.
  intros Hwf. revert g c. induction fuel as [|fuel IH]; intros g c Hg Hf; [lia|]. cbn [count_hops]. rewrite bool_decide_false, (sgs_eq db Hwf) by lia.
  destruct (select_prev db g) as [p|] eqn:Hp; [|simpl; lia]. pose proof (prev_less db Hwf g p Hp). rewrite bool_decide_false, IH by lia.
  simpl length. lia.
Qed.

(** What the hops count stands for. *)
Lemma count_state_group_hops engine db g :
  wf db → 0 < g → _count_state_group_hops_txn engine db g = Z.of_nat (length (sgs db g)) - match engine with PostgresEngine => 0 | Sqlite3Engine => 1 end.
Proof. intros Hwf Hg. destruct engine; simpl; [lia|]. by rewrite count_hops_sgs. Qed.

(** The tables with a group on top of another. *)
Definition with_delta (room ev : string) (sg prev : Z) (d : StateMap) (db : sgdb) : sgdb :=
  insert_rows sg room d (MkDb (<[sg := (room, ev)]> (state_groups db)) (state_group_edges db ++ [(sg, prev)]) (state_groups_state db) sg).

Lemma with_delta_ok room ev sg prev d db :
  wf db → sg = seq_gen db + 1 → 0 < prev ≤ seq_gen db →
  wf (with_delta room ev sg prev d db) ∧ full_state (with_delta room ev sg prev d db) sg = d ∪ full_state db prev ∧
  ∀ g, g ≠ sg → full_state (with_delta room ev sg prev d db) g = full_state db g.
Proof.
  intros Hwf -> Hid. destruct (new_id_fresh db Hwf) as (Hg & Hd & Hp). set (sg := seq_gen db + 1) in *.
  set (db1 := (get_next_id_txn db).2). assert (Hwf1 : wf db1) by (apply (wf_new_id db Hwf)).
  set (db2 := MkDb (<[sg := (room, ev)]> (state_groups db)) (state_group_edges db) (state_groups_state db) sg).
  assert (Hwf2 : wf db2).
  { apply (wf_insert_group sg room ev db1 db2 Hwf1); [unfold sg; simpl; lia|]. unfold insert_state_group.
    by rewrite bool_decide_false by (simpl; by apply not_elem_of_dom). }
  set (db3 := MkDb (state_groups db2) (state_group_edges db ++ [(sg, prev)]) (state_groups_state db) sg).
  assert (E3 : insert_edge sg prev db2 = Ok db3).
  { unfold insert_edge. rewrite bool_decide_false; [done|]. intros Hin%(select_prev_edge db2 Hwf2). simpl in Hin.
    change (select_prev db2 sg) with (select_prev db sg) in Hin. congruence. }
  assert (Hwf3 : wf db3) by (apply (wf_insert_edge sg prev db2 db3 Hwf2 Hp); [unfold sg; lia|simpl; lia|done]).
  pose proof (λ g, select_prev_insert sg prev db2 db3 g E3 Hp) as Hs3. change (with_delta room ev sg prev d db) with (insert_rows sg room d db3).
  assert (Hwf4 : wf (insert_rows sg room d db3)) by (apply wf_insert_rows; [done|exact Hd|unfold sg; simpl; lia]).
  assert (Hdel : ∀ g, delta (insert_rows sg room d db3) g = if decide (g = sg) then d else delta db g).
  { intros g. rewrite delta_insert_rows by exact Hd. done. }
  assert (Hfr : ∀ g, g ≠ sg → full_state (insert_rows sg room d db3) g = full_state db g).
  { apply new_group_frame; [done|done|]. intros g Hne. rewrite Hdel, decide_False by done. split; [done|].
    change (select_prev (insert_rows sg room d db3) g) with (select_prev db3 g). by rewrite Hs3, decide_False. }
  split_and!; [done| |done]. rewrite (full_state_eq _ Hwf4), Hdel, decide_True by done.
  change (select_prev (insert_rows sg room d db3) sg) with (select_prev db3 sg). rewrite Hs3, decide_True by done. by rewrite Hfr by (unfold sg; lia).
Qed.

Lemma insert_delta_eq engine ev room prev d db :
  wf db → is_Some (state_groups db !! prev) →
  insert_delta_group_txn engine ev room prev d db =
    if MAX_STATE_DELTA_HOPS <=? _count_state_group_hops_txn engine db prev then Ok (None, db)
    else Ok (Some (seq_gen db + 1), with_delta room ev (seq_gen db + 1) prev d db).
Proof.
  intros Hwf Hprev. pose proof (wf_ids _ Hwf prev Hprev) as Hid. unfold insert_delta_group_txn, check_prev_group.
  rewrite (bool_decide_false (prev = 0)) by lia. rewrite bool_decide_true by done. cbn [negb orb raise_if mbind result_bind].
  destruct (MAX_STATE_DELTA_HOPS <=? _); [done|]. destruct (new_id_fresh db Hwf) as (Hg & Hd & Hp). unfold get_next_id_txn. set (sg := seq_gen db + 1) in *.
  unfold insert_state_group. rewrite bool_decide_false by (simpl; by apply not_elem_of_dom). cbn [mbind result_bind].
  unfold insert_edge. rewrite bool_decide_false; [done|]. simpl. intros Hin%(select_prev_edge db Hwf). congruence.
Qed.

(** ** Purging *)

Lemma all_matches k : matches all k = true.
Proof. done. Qed.

Lemma read_whole engine db g : wf db → 0 < g → ∃ res, _get_state_groups_from_groups_txn engine [g] all db = Ok res ∧ res !! g = Some (full_state db g).
Proof.
  intros Hwf Hg. destruct (from_groups_txn db Hwf engine all [g]) as (res & Hok & Hres); [by exists ("", "")|by repeat constructor|].
  exists res. split; [done|]. rewrite Hres, decide_True by (by left). done.
Qed.

Lemma de_delta_ok engine room sg db :
  wf db → 0 < sg ≤ seq_gen db →
  ∃ db', de_delta engine room sg db = Ok db' ∧ wf db' ∧ (∀ g, full_state db' g = full_state db g) ∧
    (∀ g, select_prev db' g = if decide (g = sg) then None else select_prev db g) ∧ seq_gen db' = seq_gen db ∧ state_groups db' = state_groups db.
Proof.
  intros Hwf Hsg. unfold de_delta. destruct (read_whole engine db sg Hwf) as (res & -> & Hres); [lia|]. cbn [mbind result_bind]. rewrite Hres.
  set (db1 := delete_edges [sg] (delete_rows [sg] db)). assert (Hwf1 : wf db1) by (by apply wf_delete_edges, wf_delete_rows).
  assert (Hd1 : ∀ g, delta db1 g = if decide (g ∈ [sg]) then ∅ else delta db g) by (intros g; apply (delta_delete_rows [sg])).
  eexists. split; [done|]. set (db2 := insert_rows _ _ _ _).
  assert (Hwf2 : wf db2) by (apply wf_insert_rows; [done|rewrite Hd1, decide_True by (by left); done|done]).
  assert (Hdel : ∀ g, delta db2 g = if decide (g = sg) then full_state db sg else delta db g).
  { intros g. unfold db2. rewrite delta_insert_rows by (rewrite Hd1, decide_True by (by left); done). rewrite Hd1. case_decide; [done|].
    by rewrite decide_False by (by intros ->%list_elem_of_singleton). }
  assert (Hpr : ∀ g, select_prev db2 g = if decide (g = sg) then None else select_prev db g).
  { intros g. change (select_prev db2 g) with (select_prev (delete_edges [sg] db) g). rewrite select_prev_delete.
    by rewrite (decide_ext (g ∈ [sg]) (g = sg)) by apply list_elem_of_singleton. }
  split_and!; [done| |done|done|done]. intros g. apply (full_state_same db db2 (λ _, True)); [done|done| |done]. intros g' _.
  destruct (decide (g' = sg)) as [->|Hne].
  - left. rewrite (full_state_eq db2 Hwf2), Hdel, Hpr, !decide_True by done. by rewrite (right_id_L ∅ (∪)).
  - right. by rewrite Hdel, Hpr, !decide_False by done.
Qed.

Lemma de_delta_all engine room sgs db :
  wf db → (∀ sg, sg ∈ sgs → 0 < sg ≤ seq_gen db) →
  ∃ db', fold_res (λ db sg, de_delta engine room sg db) sgs db = Ok db' ∧ wf db' ∧ (∀ g, full_state db' g = full_state db g) ∧
    (∀ g, select_prev db' g = if decide (g ∈ sgs) then None else select_prev db g) ∧ seq_gen db' = seq_gen db ∧ state_groups db' = state_groups db.
Proof.
  revert db. induction sgs as [|sg sgs IH]; intros db Hwf Hin; cbn [fold_res].
  - by exists db.
  - destruct (de_delta_ok engine room sg db Hwf (Hin sg ltac:(by left))) as (db1 & -> & Hwf1 & Hf1 & Hp1 & Hs1 & Hg1). cbn [mbind result_bind].
    destruct (IH db1 Hwf1) as (db2 & Hok & Hwf2 & Hf2 & Hp2 & Hs2 & Hg2); [intros x Hx; rewrite Hs1; apply Hin; by right|].
    exists db2. split; [done|]. split_and!; [done|intros g; by rewrite Hf2, Hf1| |congruence|congruence].
    intros g. rewrite Hp2, Hp1. destruct (decide (g ∈ sgs)); [by rewrite decide_True by (by right)|].
    destruct (decide (g = sg)) as [->|Hne]; [by rewrite decide_True by (by left)|]. rewrite decide_False; [done|]. intros [|]%elem_of_cons; done.
Qed.

Lemma elem_of_remaining gs db g : g ∈ remaining_state_groups gs db ↔ (g ∉ gs) ∧ ∃ p, p ∈ gs ∧ (g, p) ∈ state_group_edges db.
Proof.
  unfold remaining_state_groups. rewrite elem_of_list_to_set, list_elem_of_filter, list_elem_of_fmap. setoid_rewrite list_elem_of_filter. split.
  - intros [Hn ([a b] & -> & Hp & He)]. split; [done|]. by exists b.
  - intros [Hn (p & Hp & He)]. split; [done|]. by exists (g, p).
Qed.

Lemma purge_unreferenced_ok engine room gs db :
  wf db →
  ∃ db', _purge_unreferenced_state_groups engine room gs db = Ok db' ∧ wf db' ∧
    (∀ g, g ∉ gs → full_state db' g = full_state db g) ∧
    (∀ g, g ∈ gs → delta db' g = ∅ ∧ state_groups db' !! g = None) ∧ (∀ g, g ∉ gs → state_groups db' !! g = state_groups db !! g) ∧
    seq_gen db' = seq_gen db.
Proof.
  intros Hwf. unfold _purge_unreferenced_state_groups.
  destruct (de_delta_all engine room (elements (remaining_state_groups gs db)) db Hwf) as (db1 & -> & Hwf1 & Hf1 & Hp1 & Hs1 & Hg1).
  { intros sg Hsg%elem_of_elements. apply elem_of_remaining in Hsg as (_ & p & _ & He). pose proof (wf_less _ Hwf _ _ He). apply (wf_edge_ids _ Hwf) in He. lia. }
  cbn [mbind result_bind]. eexists. split; [done|]. set (db2 := delete_groups _ _).
  assert (Hwf2 : wf db2) by (by apply wf_delete_groups, wf_delete_rows).
  assert (Hdel : ∀ g, delta db2 g = if decide (g ∈ gs) then ∅ else delta db1 g) by (intros g; apply (delta_delete_rows gs)).
  split_and!; [done| | | |done].
  - intros g Hg. rewrite <- Hf1. revert g Hg. apply full_state_same; [done|done|]. intros g Hg. right. rewrite Hdel, decide_False by done. split_and!; [done|done|].
    intros p Hp Hin. rewrite Hp1 in Hp. case_decide as Hd; [done|]. apply Hd, elem_of_elements, elem_of_remaining. split; [done|]. exists p.
    split; [done|]. by apply (select_prev_edge db Hwf).
  - intros g Hg. split; [by rewrite Hdel, decide_True|]. simpl. apply map_lookup_filter_None. right. intros x _ Hn. done.
  - intros g Hg. simpl. rewrite map_lookup_filter, Hg1. destruct (state_groups db !! g); [|done]. simpl. by rewrite option_guard_True.
Qed.

(** ** Re-encoding *)

Lemma max_group_below_cases g room db :
  max_group_below g room db = 0 ∨ (max_group_below g room db < g ∧ is_Some (state_groups db !! max_group_below g room db)).
Proof.
  unfold max_group_below. set (l := (filter _ _).*1).
  assert (Hl : ∀ x, x ∈ l → x < g ∧ is_Some (state_groups db !! x)).
  { intros x ([a v] & -> & Hin)%list_elem_of_fmap. apply list_elem_of_filter in Hin as [[Hlt _] Hin%elem_of_map_to_list]. simpl in *. eauto. }
  clearbody l. induction l as [|x l IH]; [by left|]. simpl. destruct (Z.max_spec x (foldr Z.max 0 l)) as [[_ ->]|[_ ->]].
  - apply IH. intros y Hy. apply Hl. by right.
  - right. apply Hl. by left.
Qed.

Lemma deduplicate_ok engine sg room db :
  wf db → 0 < sg ≤ seq_gen db → select_prev db sg = None →
  ∃ db', deduplicate_group engine sg room db = Ok db' ∧ wf db' ∧ (∀ g, full_state db' g = full_state db g) ∧
    seq_gen db' = seq_gen db ∧ state_groups db' = state_groups db.
Proof.
  intros Hwf Hsg Hnone. unfold deduplicate_group. set (prev := max_group_below sg room db).
  case_bool_decide as Hp0; [by exists db|]. destruct (_ <=? _); [by exists db|].
  destruct (max_group_below_cases sg room db) as [|[Hlt Hid%(wf_ids _ Hwf)]]; [done|]. fold prev in Hlt, Hid.
  destruct (read_whole engine db prev Hwf) as (r1 & -> & Hr1); [lia|]. cbn [mbind result_bind].
  destruct (read_whole engine db sg Hwf) as (r2 & -> & Hr2); [lia|]. cbn [mbind result_bind]. rewrite Hr1, Hr2.
  case_bool_decide as Hsub; [|by exists db]. set (d := filter _ _).
  assert (Hwf1 : wf (delete_edges [sg] db)) by (by apply wf_delete_edges).
  assert (Hp1 : select_prev (delete_edges [sg] db) sg = None) by (rewrite select_prev_delete, decide_True by (by left); done).
  destruct (insert_edge sg prev (delete_edges [sg] db)) as [db2|] eqn:E2.
  2: { unfold insert_edge in E2. rewrite bool_decide_false in E2; [done|]. intros Hin%(select_prev_edge _ Hwf1). congruence. }
  assert (Hwf2 : wf db2) by (apply (wf_insert_edge sg prev _ db2 Hwf1 Hp1); [lia|simpl; lia|done]).
  pose proof (λ g, select_prev_insert sg prev _ db2 g E2 Hp1) as Hs2.
  assert (Hsame : state_groups_state db2 = state_groups_state db ∧ seq_gen db2 = seq_gen db ∧ state_groups db2 = state_groups db)
    by (unfold insert_edge in E2; case_bool_decide; [done|]; by injection E2 as <-).
  destruct Hsame as (Hrows & Hseq & Hgr). cbn [mbind result_bind]. eexists. split; [done|]. set (db3 := insert_rows _ _ _ _).
  assert (Hd2 : ∀ g, delta (delete_rows [sg] db2) g = if decide (g ∈ [sg]) then ∅ else delta db g).
  { intros g. rewrite delta_delete_rows. unfold delta. by rewrite Hrows. }
  assert (Hwf3 : wf db3).
  { apply wf_insert_rows; [by apply wf_delete_rows|rewrite Hd2, decide_True by (by left); done|simpl; lia]. }
  assert (Hdel : ∀ g, delta db3 g = if decide (g = sg) then d else delta db g).
  { intros g. unfold db3. rewrite delta_insert_rows by (rewrite Hd2, decide_True by (by left); done). rewrite Hd2. case_decide; [done|].
    by rewrite decide_False by (by intros ->%list_elem_of_singleton). }
  assert (Hpr : ∀ g, select_prev db3 g = if decide (g = sg) then Some prev else select_prev db g).
  { intros g. change (select_prev db3 g) with (select_prev db2 g). rewrite Hs2. case_decide; [done|].
    rewrite select_prev_delete, decide_False; [done|]. by intros ->%list_elem_of_singleton. }
  assert (Hlow : ∀ g, g < sg → full_state db3 g = full_state db g).
  { apply full_state_same; [done|done|]. intros g Hg. right. rewrite Hdel, Hpr, !decide_False by lia. split_and!; [done|done|].
    intros p Hp. apply (prev_less db Hwf) in Hp. lia. }
  split_and!; [done| |done|done]. intros g. apply (full_state_same db db3 (λ _, True)); [done|done| |done]. intros g' _.
  destruct (decide (g' = sg)) as [->|Hne]; [|right; by rewrite Hdel, Hpr, !decide_False by done].
  left. rewrite (full_state_eq db3 Hwf3), Hdel, Hpr, !decide_True, Hlow by done. apply map_eq. intros k.
  rewrite lookup_union_delta. unfold d. rewrite map_lookup_filter. destruct (full_state db sg !! k) as [v|] eqn:Ek; simpl.
  - destruct (decide (full_state db prev !! k = Some v)) as [Hv|Hv]; [by rewrite option_guard_False by (intros Hx; by apply Hx)|by rewrite option_guard_True].
  - apply not_elem_of_dom. intros Hk%Hsub. apply not_elem_of_dom in Ek. done.
Qed.

Lemma next_state_group_some last max db g room :
  next_state_group last max db = Some (g, room) → is_Some (state_groups db !! g).
Proof.
  unfold next_state_group. set (l := filter _ _). assert (Hl : ∀ e, e ∈ l → is_Some (state_groups db !! e.1)).
  { intros [a v] [_ Hin%elem_of_map_to_list]%list_elem_of_filter. simpl. eauto. }
  clearbody l. revert g room. induction l as [|e l IH]; intros g room; [done|]. simpl.
  destruct (foldr _ None l) as [[g' r']|] eqn:E.
  - case_bool_decide; intros [= <- <-]; [apply Hl; by left|]. eapply IH; [|done]. intros x Hx. apply Hl. by right.
  - intros [= <- <-]. apply Hl. by left.
Qed.

Lemma reindex_ok engine batch count last max db :
  wf db → ∃ b n db', reindex_txn engine batch count last max db = Ok (b, n, db') ∧ wf db' ∧ (∀ g, full_state db' g = full_state db g) ∧
    state_groups db' = state_groups db ∧ seq_gen db' = seq_gen db.
Proof.
  revert count last db. induction batch as [|batch IH]; intros count last db Hwf; cbn [reindex_txn]; [by eexists _, _, db|].
  destruct (next_state_group last max db) as [[sg room]|] eqn:En; [|by eexists _, _, db].
  case_bool_decide; [by eexists _, _, db|]. case_bool_decide as Hpr; [by eexists _, _, db|].
  apply next_state_group_some, (wf_ids _ Hwf) in En. apply eq_None_not_Some in Hpr.
  destruct (deduplicate_ok engine sg room db Hwf En Hpr) as (db1 & -> & Hwf1 & Hf1 & Hs1 & Hg1). cbn [mbind result_bind].
  destruct (IH (count + 1) sg db1 Hwf1) as (b & n & db2 & Hok & Hwf2 & Hf2 & Hg2 & Hs2). exists b, n, db2.
  split_and!; [done|done|intros g; by rewrite Hf2, Hf1|congruence|congruence].
Qed.

(** * Batches of events: [store_state_deltas_for_batched] *)

(** The state after an event, and around each event of a linear chain. *)
Definition state_after (m : StateMap) (e : batch_event) : StateMap :=
  match be_state e with Some k => <[k := be_event_id e]> m | None => m end.

Fixpoint states_around (m : StateMap) (l : list batch_event) : list (StateMap * StateMap) :=
  match l with
  | [] => []
  | e :: l => (m, state_after m e) :: states_around (state_after m e) l
  end.

(** A new group of the batch: its number, the one below, the event and its key. *)
Record added := Added { a_group : Z; a_prev : Z; a_key : string * string; a_event : string }.

Section batch.
Context (room : string).

Definition extend (db : sgdb) (a : added) : sgdb :=
  with_delta room (a_event a) (a_group a) (a_prev a) {[a_key a := a_event a]} db.

(** What the loop adds, beside the contexts it makes. *)
Fixpoint added_groups (sg_before next : Z) (l : list batch_event) : list added :=
  match l with
  | [] => []
  | e :: l => match be_state e with
              | None => added_groups sg_before next l
              | Some k => Added next sg_before k (be_event_id e) :: added_groups next (next + 1) l
              end
  end.

Fixpoint contexts (sg_before next : Z) (l : list (batch_event * batch_context)) : list (batch_event * batch_context) :=
  match l with
  | [] => []
  | (e, c) :: l =>
      match be_state e with
      | None => (e, BatchContext (Some sg_before) (Some sg_before) (state_delta_due_to_event c)) :: contexts sg_before next l
      | Some k => (e, BatchContext (Some sg_before) (Some next) (Some {[k := be_event_id e]})) :: contexts next (next + 1) l
      end
  end.

Lemma assign_groups_eq l sg_before next n :
  n = length (filter (λ ec, is_state ec = true) l) →
  assign_groups sg_before ((λ i, next + Z.of_nat i) <$> seq 0 n) l = Ok (contexts sg_before next l).
Proof.
  revert sg_before next n. induction l as [|[[ev [k|]] c] l IH]; intros sg_before next n; [by intros ->| |]; rewrite filter_cons; cbn [assign_groups contexts be_state].
  - rewrite decide_True by done. intros ->. csimpl. rewrite Z.add_0_r.
    match goal with |- context [seq 1 ?x] => set (n := x) end. rewrite <- (fmap_S_seq 0 n), <- list_fmap_compose.
    rewrite (list_fmap_ext _ (λ i : nat, (next + 1) + Z.of_nat i)) by (intros i x _; simpl; lia).
    rewrite IH by done. by cbn [mbind result_bind].
  - rewrite decide_False by done. intros Hn. rewrite IH by done. by cbn [mbind result_bind].
Qed.

(** The rows of the tables are those of the groups added one by one. *)
Lemma extend_all l db :
  foldl extend db l =
  MkDb (foldl (λ m a, <[a_group a := (room, a_event a)]> m) (state_groups db) l)
    (state_group_edges db ++ ((λ a, (a_group a, a_prev a)) <$> l))
    (state_groups_state db ++ ((λ a, SgRow (a_group a) room (a_key a) (a_event a)) <$> l))
    (foldl (λ _ a, a_group a) (seq_gen db) l).
Proof.
  revert db. induction l as [|a l IH]; intros db.
  - simpl. rewrite !app_nil_r. by destruct db.
  - cbn [foldl fmap list_fmap]. rewrite IH. unfold extend, with_delta, insert_rows. simpl. f_equal.
    + by rewrite <- app_assoc.
    + rewrite map_to_list_singleton. simpl. by rewrite <- app_assoc.
Qed.

Definition context_of (a : added) : batch_event * batch_context :=
  (BatchEvent (a_event a) (Some (a_key a)), BatchContext (Some (a_prev a)) (Some (a_group a)) (Some {[a_key a := a_event a]})).

Lemma filter_contexts l sb nx : filter (λ ec, is_state ec = true) (contexts sb nx l) = context_of <$> added_groups sb nx l.*1.
Proof.
  revert sb nx. induction l as [|[[ev [k|]] c] l IH]; intros sb nx; cbn [contexts be_state]; [done| |]; rewrite filter_cons.
  - rewrite decide_True by done. csimpl. by rewrite IH.
  - rewrite decide_False by done. apply IH.
Qed.

Lemma length_added l sb nx : length (added_groups sb nx l.*1) = length (filter (λ ec : batch_event * batch_context, is_state ec = true) l).
Proof.
  revert sb nx. induction l as [|[[ev [k|]] c] l IH]; intros sb nx; [done| |]; rewrite filter_cons.
  - rewrite decide_True by done. csimpl. by rewrite (IH nx (nx + 1)).
  - rewrite decide_False by done. apply IH.
Qed.

(** The numbers are consecutive. *)
Lemma added_asc l sb nx i a : added_groups sb nx l !! i = Some a → a_group a = nx + Z.of_nat i.
Proof.
  revert sb nx i. induction l as [|[ev [k|]] l IH]; intros sb nx i; cbn [added_groups be_state]; [done| |apply IH].
  destruct i as [|i]; simpl; [intros [= <-]; simpl; lia|]. intros Ha. apply IH in Ha. lia.
Qed.

Lemma last_added A nx : (∀ i a, A !! i = Some a → a_group a = nx + 1 + Z.of_nat i) → foldl (λ _ a, a_group a) nx A = nx + Z.of_nat (length A).
Proof.
  revert nx. induction A as [|a A IH]; intros nx HA; simpl; [lia|]. pose proof (HA 0%nat a eq_refl) as Ha. rewrite Ha, IH; [lia|].
  intros i b Hb. rewrite (HA (S i) b Hb). lia.
Qed.

Lemma insert_groups_fold A nx db :
  (∀ i a, A !! i = Some a → a_group a = nx + Z.of_nat i) → (∀ g, g ∈ dom (state_groups db) → g < nx) →
  fold_res (λ db (ec : batch_event * batch_context), g ← group_column (state_group_after_event ec.2); insert_state_group g room (be_event_id ec.1) db) (context_of <$> A) db =
  Ok (MkDb (foldl (λ m a, <[a_group a := (room, a_event a)]> m) (state_groups db) A) (state_group_edges db) (state_groups_state db) (seq_gen db)).
Proof.
  revert nx db. induction A as [|a A IH]; intros nx db HA Hdb; [by destruct db|]. pose proof (HA 0%nat a eq_refl) as Ha. csimpl.
  unfold insert_state_group at 2. rewrite bool_decide_false by (intros Hin%Hdb; lia). cbn [mbind result_bind]. rewrite (IH (nx + 1)).
  - done.
  - intros i b Hb. rewrite (HA (S i) b Hb). lia.
  - intros g. simpl. rewrite dom_insert_L, elem_of_union, elem_of_singleton. intros [->|Hg%Hdb]; lia.
Qed.

Lemma insert_edges_fold A nx db :
  (∀ i a, A !! i = Some a → a_group a = nx + Z.of_nat i) → (∀ g p, (g, p) ∈ state_group_edges db → g < nx) →
  fold_res (λ db (ec : batch_event * batch_context), g ← group_column (state_group_after_event ec.2); p ← group_column (state_group_before_event ec.2); insert_edge g p db)
    (context_of <$> A) db =
  Ok (MkDb (state_groups db) (state_group_edges db ++ ((λ a, (a_group a, a_prev a)) <$> A)) (state_groups_state db) (seq_gen db)).
Proof.
  revert nx db. induction A as [|a A IH]; intros nx db HA Hdb; [csimpl; rewrite app_nil_r; by destruct db|]. pose proof (HA 0%nat a eq_refl) as Ha. csimpl.
  unfold insert_edge at 2. rewrite bool_decide_false by (intros Hin%Hdb; lia). cbn [mbind result_bind]. rewrite (IH (nx + 1)).
  - simpl. by rewrite <- app_assoc.
  - intros i b Hb. rewrite (HA (S i) b Hb). lia.
  - intros g p. simpl. rewrite elem_of_app, list_elem_of_singleton. intros [Hg%Hdb|[= -> ->]]; lia.
Qed.

Lemma insert_rows_fold l sb nx db :
  (∀ ec, ec ∈ l → be_state ec.1 = None → state_delta_due_to_event ec.2 = None) →
  fold_res (λ db (ec : batch_event * batch_context),
      match state_delta_due_to_event ec.2 with
      | Some d => g ← group_column (state_group_after_event ec.2); Ok (insert_rows g room d db)
      | None => Ok db
      end) (contexts sb nx l) db =
  Ok (MkDb (state_groups db) (state_group_edges db)
        (state_groups_state db ++ ((λ a, SgRow (a_group a) room (a_key a) (a_event a)) <$> added_groups sb nx l.*1)) (seq_gen db)).
Proof.
  revert sb nx db. induction l as [|[[ev [k|]] c] l IH]; intros sb nx db Hl; csimpl.
  - rewrite app_nil_r. by destruct db.
  - rewrite IH by (intros ec Hec; apply Hl; by right). unfold insert_rows. simpl. rewrite map_to_list_singleton. simpl. by rewrite <- app_assoc.
  - assert (Hc : state_delta_due_to_event c = None) by (apply (Hl (BatchEvent ev None, c)); [by left|done]). rewrite Hc. simpl. apply IH. intros ec Hec. apply Hl. by right.
Qed.

Lemma insert_deltas_eq l prev db :
  wf db → is_Some (state_groups db !! prev) →
  (∀ ec, ec ∈ l → be_state ec.1 = None → state_delta_due_to_event ec.2 = None) →
  insert_deltas_group_txn room l prev db =
    Ok (contexts prev (seq_gen db + 1) l, foldl extend db (added_groups prev (seq_gen db + 1) l.*1)).
Proof.
  intros Hwf Hprev Hl. pose proof (wf_ids _ Hwf prev Hprev) as Hid. unfold insert_deltas_group_txn, check_prev_group.
  rewrite (bool_decide_false (prev = 0)) by lia. rewrite bool_decide_true by done. cbn [negb orb raise_if mbind result_bind].
  unfold get_next_mult_txn. set (n := length _). rewrite (assign_groups_eq l prev (seq_gen db + 1) n eq_refl). cbn [mbind result_bind].
  rewrite filter_contexts. set (A := added_groups prev (seq_gen db + 1) l.*1). pose proof (added_asc l.*1 prev (seq_gen db + 1)) as Hasc.
  rewrite (insert_groups_fold A (seq_gen db + 1)); [|done|]. 2: { simpl. intros g Hg%elem_of_dom%(wf_ids _ Hwf). lia. }
  cbn [mbind result_bind]. rewrite (insert_edges_fold A (seq_gen db + 1)); [|done|]. 2: { simpl. intros g p Hg%(wf_edge_ids _ Hwf). lia. }
  cbn [mbind result_bind]. rewrite insert_rows_fold by done. cbn [mbind result_bind]. simpl. rewrite extend_all. f_equal. f_equal. f_equal.
  rewrite last_added by done. unfold A. rewrite length_added. done.
Qed.

Definition around (db : sgdb) (ec : batch_event * batch_context) (m : StateMap * StateMap) : Prop :=
  ∃ b a, state_group_before_event ec.2 = Some b ∧ state_group_after_event ec.2 = Some a ∧ full_state db b = m.1 ∧ full_state db a = m.2.

Lemma batch_states l sb db :
  wf db → 0 < sb ≤ seq_gen db →
  let db' := foldl extend db (added_groups sb (seq_gen db + 1) l.*1) in
  wf db' ∧ (∀ g, g ≤ seq_gen db → full_state db' g = full_state db g) ∧
  Forall2 (around db') (contexts sb (seq_gen db + 1) l) (states_around (full_state db sb) l.*1).
Proof.
  revert sb db. induction l as [|[[ev [k|]] c] l IH]; intros sb db Hwf Hsb; csimpl.
  - split_and!; [done|done|constructor].
  - set (db1 := extend db _). destruct (with_delta_ok room ev (seq_gen db + 1) sb {[k := ev]} db Hwf eq_refl Hsb) as (Hwf1 & Hf1 & Hfr1).
    destruct (IH (seq_gen db + 1) db1 Hwf1) as (Hwf2 & Hfr2 & Hst); [simpl; lia|]. change (seq_gen db1) with (seq_gen db + 1) in *.
    change (full_state (with_delta room ev (seq_gen db + 1) sb {[k := ev]} db)) with (full_state db1) in *.
    assert (Hm : state_after (full_state db sb) (BatchEvent ev (Some k)) = full_state db1 (seq_gen db + 1)).
    { rewrite Hf1. unfold state_after. simpl. apply insert_union_singleton_l. }
    split_and!; [done|intros g Hg; by rewrite Hfr2, Hfr1 by lia|]. constructor; [|by rewrite Hm].
    exists sb, (seq_gen db + 1). split_and!; [done|done| |]; simpl.
    + rewrite Hfr2, Hfr1 by lia. done.
    + rewrite Hfr2 by lia. by rewrite Hm.
  - destruct (IH sb db Hwf Hsb) as (Hwf2 & Hfr2 & Hst). split_and!; [done|done|]. constructor; [|done].
    exists sb, sb. split_and!; [done|done| |]; simpl; apply Hfr2; lia.
Qed.

(** A batch of events on a linear chain is given groups that describe it: the group
    before and the group after each event have the state before and after it, where a state
    event replaces its key and other events change nothing; the groups that were there keep
    their states. *)
Theorem store_batch_states l prev db :
  wf db → is_Some (state_groups db !! prev) →
  (∀ ec, ec ∈ l → be_state ec.1 = None → state_delta_due_to_event ec.2 = None) →
  ∃ l' db', insert_deltas_group_txn room l prev db = Ok (l', db') ∧ l'.*1 = l.*1 ∧ wf db' ∧
    (∀ g, g ≤ seq_gen db → full_state db' g = full_state db g) ∧ Forall2 (around db') l' (states_around (full_state db prev) l.*1).
Proof.
  intros Hwf Hprev Hl. pose proof (wf_ids _ Hwf prev Hprev) as Hid. eexists _, _. split; [by apply insert_deltas_eq|].
  split; [|by apply batch_states]. generalize prev (seq_gen db + 1). clear. induction l as [|[[ev [k|]] c] l IH]; intros p nx; csimpl; [done| |]; by rewrite IH.
Qed.
End batch.
