(* ===== verification/StateStore.v ===== *)
(** * The state store and its caches: [StateGroupDataStore] of
    [synapse/storage/databases/state/store.py]

    The tables of [StateGroups] behind two [DictionaryCache]s, one of the membership
    events of a group and one of the others.  A method that awaits the database runs
    without interruption here; that other tasks may run in between is the subject of
    [DictionaryCacheProps]. *)

From S2P Require Import Prelude Constants TopoSort StateFilter StateGroups DictionaryCache.

Abbreviation StateKey := (string * string)%type.
Abbreviation sg_cache := (DictionaryCache Z StateKey string).

Record StateStore := MkStateStore {
  st_db : sgdb;
  _state_group_cache : sg_cache;
  _state_group_members_cache : sg_cache
}.

Section store.
Context `{IterOrder} (engine : DatabaseEngine) (main : nat).

Definition new_StateStore (factor : Z → Z) (db : sgdb) : StateStore :=
  MkStateStore db (new_DictionaryCache 50000 factor) (new_DictionaryCache 500000 factor).

Definition _get_state_for_group_using_cache (cache : sg_cache) (group : Z) (f : StateFilter)
    : result (StateMap * bool * sg_cache) :=
  let dict_keys := if has_wildcards f then None else Some (concrete_types f) in
  '(entry, cache) ← dc_get group dict_keys cache;
  let state_dict_ids := value_of entry in
  if full entry || is_full f then Ok (filter_state f state_dict_ids, full entry, cache)
  else
    let missing_types :=
      if has_wildcards f then true
      else existsb (λ key, negb (bool_decide (is_Some (state_dict_ids !! key))) && negb (bool_decide (key ∈ known_absent entry))) (concrete_types f) in
    Ok (filter_state f state_dict_ids, negb missing_types, cache).

(** One round of the loop over the groups. *)
Definition lookup_group (f : StateFilter) (acc : gmap Z StateMap * gset Z * sg_cache) (group : Z)
    : result (gmap Z StateMap * gset Z * sg_cache) :=
  let '(results, incomplete, cache) := acc in
  '(state_dict_ids, got_all, cache) ← _get_state_for_group_using_cache cache group f;
  Ok (<[group := state_dict_ids]> results, (if got_all : bool then incomplete else incomplete ∪ {[group]}), cache).

Definition _get_state_for_groups_using_cache (groups : list Z) (cache : sg_cache) (f : StateFilter)
    : result (gmap Z StateMap * gset Z * sg_cache) :=
  fold_res (lookup_group f) (set_iter (list_to_set groups : gset Z)) (∅, ∅, cache).

(** [k[0] == EventTypes.Member] *)
Definition member_part (m : StateMap) : StateMap := filter (λ kv, kv.1.1 = EventTypes.Member) m.
Definition non_member_part (m : StateMap) : StateMap := filter (λ kv, kv.1.1 ≠ EventTypes.Member) m.

Definition fetched_types (f : StateFilter) : option (list StateKey) := if is_full f then None else Some (concrete_types f).

Definition _insert_into_cache (group_to_state_dict : gmap Z StateMap) (f : StateFilter)
    (cache_seq_num_members cache_seq_num_non_members : Z) (st : StateStore) : result StateStore :=
  let '(member_filter, non_member_filter) := get_member_split f in
  let member_types := fetched_types member_filter in
  let non_member_types := fetched_types non_member_filter in
  fold_res (λ st (gs : Z * StateMap),
      m ← dc_update main cache_seq_num_members gs.1 (member_part gs.2) member_types (_state_group_members_cache st);
      nm ← dc_update main cache_seq_num_non_members gs.1 (non_member_part gs.2) non_member_types (_state_group_cache st);
      Ok (MkStateStore (st_db st) nm m))
    (map_to_list group_to_state_dict) st.

(** [state[group].update(member_state[group])] *)
Definition merge_member_state (member_state : gmap Z StateMap) (state : gmap Z StateMap) (group : Z) : result (gmap Z StateMap) :=
  match state !! group, member_state !! group with
  | Some s, Some ms => Ok (<[group := ms ∪ s]> state)
  | _, _ => Err (PyBuiltin KeyError)
  end.

Definition _get_state_for_groups (groups : list Z) (f : StateFilter) (st : StateStore) : result (gmap Z StateMap * StateStore) :=
  let '(member_filter, non_member_filter) := get_member_split f in
  '(non_member_state, incomplete_groups_nm, nm) ← _get_state_for_groups_using_cache groups (_state_group_cache st) non_member_filter;
  '(member_state, incomplete_groups_m, m) ← _get_state_for_groups_using_cache groups (_state_group_members_cache st) member_filter;
  let st := MkStateStore (st_db st) nm m in
  state ← fold_res (merge_member_state member_state) groups non_member_state;
  let incomplete_groups := incomplete_groups_m ∪ incomplete_groups_nm in
  if bool_decide (incomplete_groups = ∅) then Ok (state, st) else
  let cache_sequence_nm := sequence (_state_group_cache st) in
  let cache_sequence_m := sequence (_state_group_members_cache st) in
  let db_state_filter := return_expanded f in
  group_to_state_dict ← _get_state_groups_from_groups engine (set_iter incomplete_groups) db_state_filter (st_db st);
  st ← _insert_into_cache group_to_state_dict db_state_filter cache_sequence_m cache_sequence_nm st;
  Ok ((filter_state f <$> group_to_state_dict) ∪ state, st).

(** [insert_full_state_txn], with the updates of the caches after it. *)
Definition insert_full_state (event_id room_id : string) (current_state_ids : StateMap) (st : StateStore) : result (Z * StateStore) :=
  '(state_group, db) ← insert_full_state_txn event_id room_id current_state_ids (st_db st);
  m ← dc_update main (sequence (_state_group_members_cache st)) state_group (member_part current_state_ids) None (_state_group_members_cache st);
  nm ← dc_update main (sequence (_state_group_cache st)) state_group (non_member_part current_state_ids) None (_state_group_cache st);
  Ok (state_group, MkStateStore db nm m).

(** The delta group, when there is a previous group. *)
Definition try_delta_group (event_id room_id : string) (prev_group : option Z) (delta_ids : option StateMap) (st : StateStore)
    : result (option Z * StateStore) :=
  match prev_group, delta_ids with
  | Some prev_group, Some delta_ids =>
      '(state_group, db) ← insert_delta_group_txn engine event_id room_id prev_group delta_ids (st_db st);
      Ok (state_group, MkStateStore db (_state_group_cache st) (_state_group_members_cache st))
  | _, _ => Ok (None, st)
  end.

Definition store_state_group (event_id room_id : string) (prev_group : option Z) (delta_ids current_state_ids : option StateMap)
    (st : StateStore) : result (Z * StateStore) :=
  raise_if (bool_decide (prev_group = None) && bool_decide (current_state_ids = None))
    (PyException "current_state_ids and prev_group can't both be None") ;;
  raise_if (negb (bool_decide (prev_group = None)) && bool_decide (delta_ids = None))
    (PyException "delta_ids is None when prev_group is not None") ;;
  '(state_group, st) ← try_delta_group event_id room_id prev_group delta_ids st;
  match state_group with
  | Some state_group => Ok (state_group, st)
  | None =>
      '(current, st) ← match current_state_ids, prev_group, delta_ids with
        | Some current, _, _ => Ok (current, st)
        | None, Some prev_group, Some delta_ids =>
            '(groups, st) ← _get_state_for_groups [prev_group] all st;
            match groups !! prev_group with
            | Some s => Ok (delta_ids ∪ s, st)
            | None => Err (PyBuiltin KeyError)
            end
        | None, _, _ => Err (PyBuiltin AssertionError)
        end;
      insert_full_state event_id room_id current st
  end.

(** The purges leave the caches alone. *)
Definition purge_unreferenced_state_groups (room_id : string) (gs : list Z) (st : StateStore) : result StateStore :=
  db ← _purge_unreferenced_state_groups engine room_id gs (st_db st);
  Ok (MkStateStore db (_state_group_cache st) (_state_group_members_cache st)).

Definition purge_room_state (gs : list Z) (st : StateStore) : StateStore :=
  MkStateStore (_purge_room_state_txn gs (st_db st)) (_state_group_cache st) (_state_group_members_cache st).

Definition store_state_deltas_for_batched (room_id : string) (l : list (batch_event * batch_context)) (prev_group : Z) (st : StateStore)
    : result (list (batch_event * batch_context) * StateStore) :=
  '(l, db) ← insert_deltas_group_txn room_id l prev_group (st_db st);
  Ok (l, MkStateStore db (_state_group_cache st) (_state_group_members_cache st)).
End store.
