(* ===== verification/StateStoreProps.v ===== *)
(** * The caches of the state store agree with its tables *)

From S2P Require Import Prelude Constants StateFilter StateFilterProps TopoSort LruHistory DictionaryCache DictionaryCacheProps StateGroups StateGroupProps StateGroupWrites StateStore.

(** ** Filters *)

Lemma filter_state_lookup_eq (f : StateFilter) (m m' : StateMap) :
  (∀ k, matches f k = true → m !! k = m' !! k) → filter_state f m = filter_state f m'.
Proof. intros Hm. apply map_eq. intros k. rewrite !lookup_filter_state. destruct (matches f k) eqn:E; [by apply Hm|done]. Qed.

(** A filter with wildcards, or with keys, lets something through, and not only members
    when it is the second half of a split. *)
Lemma some_match f : has_wildcards f = true ∨ concrete_types f ≠ [] → ∃ k, matches f k = true.
Proof.
  intros [Hw|Hc].
  - unfold has_wildcards in Hw. apply orb_true_iff in Hw as [Ho|[t Ht]%has_wildcard_entry].
    + exists (fresh (dom (types f)), ""). apply matches_true. right. right. split; [|done]. apply not_elem_of_dom. apply is_fresh.
    + exists (t, ""). apply matches_true. by left.
  - destruct (concrete_types f) as [|[t k] l] eqn:E; [done|]. exists (t, k).
    apply matches_true. right. left. apply elem_of_concrete_types. rewrite E. by left.
Qed.

Lemma member_split_match f :
  has_wildcards (get_member_split f).1 = true ∨ concrete_types (get_member_split f).1 ≠ [] → ∃ k, matches f k = true.
Proof.
  intros Hs. assert (Hm : ∃ u, matches (get_member_split f).1 (EventTypes.Member, u) = true).
  { unfold get_member_split in *. simpl in *. destruct (types f !! EventTypes.Member) as [[ks|]|].
    - destruct (some_match _ Hs) as [[t u] Hk]. exists u. apply matches_true in Hk. apply matches_true. simpl in *.
      destruct Hk as [Hk|[(ks' & Hk & Hu)|[_ Hk]]]; [| |done].
      + apply lookup_singleton_Some in Hk as [_ Hk]. done.
      + apply lookup_singleton_Some in Hk as [_ [= ->]]. right. left. exists ks'. by rewrite lookup_singleton_eq.
    - by exists "".
    - destruct (include_others f); [by exists ""|]. destruct (some_match _ Hs) as [k Hk]. done. }
  destruct Hm as [u Hu]. exists (EventTypes.Member, u). rewrite get_member_split_spec. by rewrite decide_True.
Qed.

Lemma non_member_split_match f :
  has_wildcards (get_member_split f).2 = true ∨ concrete_types (get_member_split f).2 ≠ [] → ∃ k, matches f k = true.
Proof.
  intros Hs. assert (Hm : ∃ t u, t ≠ EventTypes.Member ∧ matches (get_member_split f).2 (t, u) = true).
  { unfold get_member_split in *. simpl in *. set (g := new_StateFilter _ _) in *.
    assert (Hg : ∀ t u, matches g (t, u) = matches (MkStateFilter (delete EventTypes.Member (types f)) (include_others f)) (t, u))
      by (intros t u; apply new_StateFilter_matches).
    destruct (include_others f) eqn:Ho.
    - set (t := fresh (dom (types f) ∪ {[EventTypes.Member]})). assert (Ht : t ∉ dom (types f) ∪ {[EventTypes.Member]}) by apply is_fresh.
      apply not_elem_of_union in Ht as [Ht1 Ht2]. exists t, "". split; [by intros E; apply Ht2, elem_of_singleton|].
      rewrite Hg. unfold matches. simpl. rewrite lookup_delete_ne, (not_elem_of_dom_1 _ _ Ht1) by (intros E; by apply Ht2, elem_of_singleton). done.
    - destruct (some_match _ Hs) as [[t u] Hk]. exists t, u. split; [|done]. intros ->. rewrite Hg in Hk. unfold matches in Hk. simpl in Hk.
      by rewrite lookup_delete_eq in Hk. }
  destruct Hm as (t & u & Ht & Hu). exists (t, u). rewrite get_member_split_spec. by rewrite decide_False.
Qed.

Lemma expanded_matches f k : canonical f → matches f k = true → matches (return_expanded f) k = true.
Proof.
  intros Hc. destruct (return_expanded_cases f Hc) as [[-> _]|[Hall Hm]]; [done|]. destruct k as [t u].
  destruct (decide (t = EventTypes.Member)) as [->|Ht]; [by rewrite Hm|]. intros _. by apply Hall.
Qed.

Lemma lookup_member_part m k : member_part m !! k = if decide (k.1 = EventTypes.Member) then m !! k else None.
Proof.
  unfold member_part. rewrite map_lookup_filter. destruct (m !! k); simpl; [|by case_decide]. case_decide; [by rewrite option_guard_True|by rewrite option_guard_False].
Qed.
Lemma lookup_non_member_part m k : non_member_part m !! k = if decide (k.1 = EventTypes.Member) then None else m !! k.
Proof.
  unfold non_member_part. rewrite map_lookup_filter. destruct (m !! k); simpl; [|by case_decide].
  case_decide; [by rewrite option_guard_False by naive_solver|by rewrite option_guard_True].
Qed.

(** The two halves make the whole. *)
Lemma split_union f m :
  filter_state (get_member_split f).1 (member_part m) ∪ filter_state (get_member_split f).2 (non_member_part m) = filter_state f m.
Proof.
  apply map_eq. intros k. rewrite lookup_union_delta, !lookup_filter_state, lookup_member_part, lookup_non_member_part, (get_member_split_spec f k).
  case_decide; [|by destruct (matches _ k)]. destruct (matches (get_member_split f).1 k), (m !! k); try done; by destruct (matches (get_member_split f).2 k).
Qed.

(** ** One group *)

Section caches.
Context `{IterOrderOk}.

Abbreviation cache_ok known trusted db := (coherent (KT := Z) (DKT := StateKey) (DV := string) known trusted db).

Lemma group_using_cache_ok (known trusted : Z → Prop) (db : Z → StateMap) (cache : sg_cache) (g : Z) (f : StateFilter) :
  cache_ok known trusted db cache → trusted g →
  ∃ m got_all cache', _get_state_for_group_using_cache cache g f = Ok (m, got_all, cache') ∧ cache_ok known trusted db cache' ∧
    sequence cache' = sequence cache ∧ thread cache' = thread cache ∧
    (if got_all : bool then m = filter_state f (db g) else has_wildcards f = true ∨ concrete_types f ≠ []).
Proof.
  intros Hc Ht. unfold _get_state_for_group_using_cache.
  destruct (dc_get_ok known trusted db cache g (if has_wildcards f then None else Some (concrete_types f)) Hc) as (entry & cache' & -> & Hc' & Hs & Hth & Ha).
  cbn [mbind result_bind]. destruct (Ha Ht) as (A1 & A2 & A3). destruct (full entry) eqn:Hfull; cbn [orb].
  - eexists _, _, cache'. split; [done|]. split_and!; try done. apply filter_state_lookup_eq. intros k Hk. apply A3; [done|].
    destruct (has_wildcards f) eqn:Hw; [done|]. by apply concrete_matches.
  - destruct (is_full f) eqn:Hf.
    + eexists _, _, cache'. split; [done|]. split_and!; try done. left. unfold is_full in Hf. apply andb_true_iff in Hf as [Ho _].
      unfold has_wildcards. by rewrite Ho.
    + destruct (has_wildcards f) eqn:Hw; [eexists _, _, cache'; split; [done|]; split_and!; try done; by left|].
      set (missing := existsb _ _). eexists _, _, cache'. split; [done|]. split_and!; try done. destruct missing eqn:Hm; simpl.
      * right. unfold missing in Hm. destruct (concrete_types f); done.
      * apply filter_state_lookup_eq. intros k Hk%concrete_matches; [|done]. apply not_true_iff_false in Hm.
        destruct (value_of entry !! k) as [v|] eqn:Ev; [symmetry; by apply A1|]. symmetry. apply A2.
        destruct (decide (k ∈ known_absent entry)) as [|Hn]; [done|]. exfalso. apply Hm. unfold missing. apply existsb_exists. exists k.
        split; [by apply list_elem_of_In|]. rewrite Ev, !bool_decide_false by (try done; by intros [? ?]). done.
Qed.

Lemma groups_using_cache_loop (known trusted : Z → Prop) (db : Z → StateMap) (f : StateFilter) (groups : list Z)
    (results : gmap Z StateMap) (incomplete : gset Z) (cache : sg_cache) :
  cache_ok known trusted db cache → Forall trusted groups →
  ∃ results' incomplete' cache', fold_res (lookup_group f) groups (results, incomplete, cache) = Ok (results', incomplete', cache') ∧
    cache_ok known trusted db cache' ∧ sequence cache' = sequence cache ∧ thread cache' = thread cache ∧
    (∀ g, g ∈ incomplete' → g ∈ incomplete ∨ g ∈ groups ∧ (has_wildcards f = true ∨ concrete_types f ≠ [])) ∧ incomplete ⊆ incomplete' ∧
    (∀ g, is_Some (results' !! g) ↔ is_Some (results !! g) ∨ g ∈ groups) ∧
    (∀ g m, results' !! g = Some m → g ∈ incomplete' ∨ m = filter_state f (db g) ∨ results !! g = Some m).
Proof.
  revert results incomplete cache. induction groups as [|g groups IH]; intros results incomplete cache Hc Hg; cbn [fold_res].
  - exists results, incomplete, cache. split; [done|]. split_and!; try done; try (intros; naive_solver).
    intros g'. split; [by left|]. intros [|?%not_elem_of_nil]; done.
  - apply Forall_cons in Hg as [Hg Hgs]. unfold lookup_group at 2.
    destruct (group_using_cache_ok known trusted db cache g f Hc Hg) as (m & got & c1 & -> & Hc1 & Hs1 & Ht1 & Hm1). cbn [mbind result_bind].
    set (inc1 := if got then incomplete else incomplete ∪ {[g]}).
    destruct (IH (<[g := m]> results) inc1 c1 Hc1 Hgs) as (r2 & i2 & c2 & -> & Hc2 & Hs2 & Ht2 & Hi2 & Hsub & Hdom & Hr2).
    exists r2, i2, c2. split; [done|]. split_and!; [done|congruence|congruence| | | |].
    + intros g' [Hin|[Hin Hx]]%Hi2; [|right; split; [by right|done]]. unfold inc1 in Hin. destruct got; [by left|].
      apply elem_of_union in Hin as [|Hin%elem_of_singleton]; [by left|]. subst. right. split; [by left|done].
    + etransitivity; [|exact Hsub]. unfold inc1. destruct got; [done|]. apply union_subseteq_l.
    + intros g'. rewrite Hdom, lookup_insert_is_Some, elem_of_cons. destruct (decide (g = g')); naive_solver.
    + intros g' m' Hm'. destruct (Hr2 g' m' Hm') as [|[|Hin]]; [by left|by right; left|].
      apply lookup_insert_Some in Hin as [[<- <-]|[_ ?]]; [|by right; right].
      destruct got; [by right; left|]. left. apply Hsub. unfold inc1. apply elem_of_union. right. by apply elem_of_singleton.
Qed.

Lemma groups_using_cache_ok (known trusted : Z → Prop) (db : Z → StateMap) (f : StateFilter) (groups : list Z) (cache : sg_cache) :
  cache_ok known trusted db cache → Forall trusted groups →
  ∃ results incomplete cache', _get_state_for_groups_using_cache groups cache f = Ok (results, incomplete, cache') ∧
    cache_ok known trusted db cache' ∧ sequence cache' = sequence cache ∧ thread cache' = thread cache ∧
    (∀ g, g ∈ incomplete → g ∈ groups ∧ (has_wildcards f = true ∨ concrete_types f ≠ [])) ∧
    (∀ g, g ∈ groups → ∃ m, results !! g = Some m ∧ (g ∈ incomplete ∨ m = filter_state f (db g))) ∧
    (∀ g, g ∉ groups → results !! g = None).
Proof.
  intros Hc Hg. unfold _get_state_for_groups_using_cache.
  assert (Hin : ∀ g, g ∈ set_iter (list_to_set groups : gset Z) ↔ g ∈ groups).
  { intros g. rewrite set_iter_perm, elem_of_elements. apply elem_of_list_to_set. }
  destruct (groups_using_cache_loop known trusted db f (set_iter (list_to_set groups : gset Z)) ∅ ∅ cache Hc) as (r & i & c & Hok & Hc' & Hs & Ht & Hi & _ & Hd & Hr).
  { rewrite Forall_forall in *. intros g Hg'%Hin. by apply Hg. }
  exists r, i, c. split; [done|]. split_and!; [done|done|done| | |].
  - intros g [?%elem_of_empty|[? ?]]%Hi; [done|]. by rewrite <- Hin.
  - intros g Hg'. destruct (proj2 (Hd g)) as [m Hm]; [right; by apply Hin|]. exists m. split; [done|].
    destruct (Hr g m Hm) as [|[|Hx]]; [by left|by right|]. by rewrite lookup_empty in Hx.
  - intros g Hn. destruct (r !! g) as [m|] eqn:E; [|done]. destruct (proj1 (Hd g) (ex_intro _ m E)) as [Hx|Hx%Hin]; [|done].
    rewrite lookup_empty in Hx. by destruct Hx.
Qed.
End caches.

(** * The state store: reads through the caches, and round trips *)

Section store.
Context `{IterOrderOk} (engine : DatabaseEngine) (main : nat).

Abbreviation cache_ok known trusted db := (coherent (KT := Z) (DKT := StateKey) (DV := string) known trusted db).

Definition thread_ok (c : sg_cache) : Prop := thread c = None ∨ thread c = Some main.

(** The store, with the groups that were purged from its tables.  Only groups that exist
    are in the caches. *)
Record store_ok (purged : gset Z) (st : StateStore) : Prop := {
  so_wf : wf (st_db st);
  so_nm : cache_ok (λ g, g ≤ seq_gen (st_db st)) (λ g, g ∉ purged) (λ g, non_member_part (full_state (st_db st) g)) (_state_group_cache st);
  so_m : cache_ok (λ g, g ≤ seq_gen (st_db st)) (λ g, g ∉ purged) (λ g, member_part (full_state (st_db st) g)) (_state_group_members_cache st);
  so_thread_nm : thread_ok (_state_group_cache st);
  so_thread_m : thread_ok (_state_group_members_cache st)
}.

(** A group that can be asked for. *)
Definition live (purged : gset Z) (st : StateStore) (g : Z) : Prop := 0 < g ≤ seq_gen (st_db st) ∧ g ∉ purged.

(** ** What a query brings to the caches *)

Lemma fetched_part (f h : StateFilter) (part : StateMap → StateMap) (P : StateKey → bool) m :
  (∀ m k, part m !! k = if P k then m !! k else None) → (∀ k, P k = true → matches f k = matches h k) →
  fetched (part m) (part (filter_state f m)) (fetched_types h).
Proof.
  intros Hp Hm. unfold fetched_types. destruct (is_full h) eqn:Hf; simpl.
  - apply map_eq. intros k. rewrite !Hp, lookup_filter_state. destruct (P k) eqn:E; [|done]. by rewrite Hm, (is_full_matches h k Hf).
  - split.
    + intros k v. rewrite !Hp, lookup_filter_state. destruct (P k); [|done]. by destruct (matches f k).
    + intros k Hk. rewrite !Hp, lookup_filter_state. destruct (P k) eqn:E; [|done]. rewrite Hm by done.
      destruct k as [t u]. apply elem_of_concrete_types in Hk. assert (Hx : matches h (t, u) = true) by (apply matches_true; right; by left).
      by rewrite Hx.
Qed.

Lemma fetched_members f m : fetched (member_part m) (member_part (filter_state f m)) (fetched_types (get_member_split f).1).
Proof.
  apply (fetched_part f _ member_part (λ k, bool_decide (k.1 = EventTypes.Member))).
  - intros m' k. rewrite lookup_member_part. case_decide; [by rewrite bool_decide_true|by rewrite bool_decide_false].
  - intros k Hk%bool_decide_eq_true. rewrite (get_member_split_spec f k). by rewrite decide_True.
Qed.
Lemma fetched_non_members f m : fetched (non_member_part m) (non_member_part (filter_state f m)) (fetched_types (get_member_split f).2).
Proof.
  apply (fetched_part f _ non_member_part (λ k, bool_decide (k.1 ≠ EventTypes.Member))).
  - intros m' k. rewrite lookup_non_member_part. case_decide; [by rewrite bool_decide_false by naive_solver|by rewrite bool_decide_true].
  - intros k Hk%bool_decide_eq_true. rewrite (get_member_split_spec f k). by rewrite decide_False.
Qed.

Lemma insert_into_cache_ok (purged : gset Z) (st : StateStore) (f : StateFilter) (results : gmap Z StateMap) (sm snm : Z) :
  store_ok purged st → (∀ g m, results !! g = Some m → g ≤ seq_gen (st_db st) ∧ m = filter_state f (full_state (st_db st) g)) →
  ∃ st', _insert_into_cache main results f sm snm st = Ok st' ∧ store_ok purged st' ∧ st_db st' = st_db st.
Proof.
  intros Hst Hres. unfold _insert_into_cache. destruct (get_member_split f) as [mf nmf] eqn:Esp.
  assert (Hl : ∀ gs, gs ∈ map_to_list results → gs.1 ≤ seq_gen (st_db st) ∧ gs.2 = filter_state f (full_state (st_db st) gs.1)).
  { intros [g m] Hg%elem_of_map_to_list. by apply Hres. }
  clear Hres. revert st Hst Hl. induction (map_to_list results) as [|[g m] l IH]; intros st Hst Hl; cbn [fold_res]; [by exists st|].
  destruct (Hl (g, m) ltac:(by left)) as [Hg Hm]. simpl in Hg, Hm. destruct Hst as [S1 S2 S3 S4 S5].
  destruct (dc_update_ok _ _ _ _ main sm g (member_part m) (fetched_types mf) S3 S5 Hg) as (c1 & Hu1 & Hc1 & Hs1 & Ht1).
  { intros _ _. rewrite Hm. replace mf with (get_member_split f).1 by (by rewrite Esp). apply fetched_members. }
  cbn [fst snd]. rewrite Hu1. cbn [mbind result_bind].
  destruct (dc_update_ok _ _ _ _ main snm g (non_member_part m) (fetched_types nmf) S2 S4 Hg) as (c2 & Hu2 & Hc2 & Hs2 & Ht2).
  { intros _ _. rewrite Hm. replace nmf with (get_member_split f).2 by (by rewrite Esp). apply fetched_non_members. }
  rewrite Hu2. cbn [mbind result_bind].
  destruct (IH (MkStateStore (st_db st) c2 c1)) as (st' & Hok & Hst' & Hdb); [by constructor; simpl; [| | |right|right]| |by exists st'].
  simpl. intros gs Hgs. apply Hl. by right.
Qed.

(** Putting the halves together. *)
Lemma merge_ok (ms : gmap Z StateMap) (groups : list Z) (state : gmap Z StateMap) :
  (∀ g, g ∈ groups → is_Some (state !! g) ∧ is_Some (ms !! g)) →
  ∃ state', fold_res (merge_member_state ms) groups state = Ok state' ∧
    (∀ g, g ∈ groups → ∀ s m, state !! g = Some s → ms !! g = Some m → state' !! g = Some (m ∪ s)) ∧ (∀ g, g ∉ groups → state' !! g = state !! g).
Proof.
  assert (Hgen : ∀ (gs : list Z) (state : gmap Z StateMap), (∀ g, g ∈ gs → is_Some (state !! g) ∧ is_Some (ms !! g)) →
    ∃ state', fold_res (merge_member_state ms) gs state = Ok state' ∧
      ∀ g, state' !! g = if decide (g ∈ gs) then match ms !! g, state !! g with Some m, Some s => Some (m ∪ s) | _, o => o end else state !! g).
  { induction gs as [|g gs IH]; intros st0 Hg; cbn [fold_res]; [by exists st0|].
    destruct (Hg g ltac:(by left)) as [[s Hs] [m Hm]]. unfold merge_member_state at 2. rewrite Hs, Hm. cbn [mbind result_bind].
    destruct (IH (<[g := m ∪ s]> st0)) as (st' & -> & Hst').
    - intros g' Hg'. destruct (Hg g' ltac:(by right)) as [? ?]. split; [|done]. apply lookup_insert_is_Some'. by right.
    - exists st'. split; [done|]. intros g'. rewrite Hst'. destruct (decide (g' = g)) as [->|Hne].
      + rewrite (decide_True (P := g ∈ g :: gs)) by (by left). rewrite lookup_insert_eq, Hs, Hm. case_decide; [|done].
        by rewrite (assoc_L (∪)), (idemp_L (∪)).
      + rewrite lookup_insert_ne by done. by rewrite (decide_ext (g' ∈ g :: gs) (g' ∈ gs)) by (rewrite elem_of_cons; naive_solver). }
  intros Hg. destruct (Hgen groups state Hg) as (st' & Hok & Hst'). exists st'. split; [done|]. split.
  - intros g Hin s m Hs Hm. by rewrite Hst', decide_True, Hs, Hm.
  - intros g Hin. by rewrite Hst', decide_False.
Qed.

(** ** Reading *)

Lemma get_state_ok (purged : gset Z) (st : StateStore) (groups : list Z) (f : StateFilter) :
  store_ok purged st → canonical f → Forall (live purged st) groups →
  ∃ res st', _get_state_for_groups engine main groups f st = Ok (res, st') ∧ store_ok purged st' ∧ st_db st' = st_db st ∧
    (∀ g, g ∈ groups → res !! g = Some (filter_state f (full_state (st_db st) g))) ∧ (∀ g, g ∉ groups → res !! g = None).
Proof.
  intros Hst Hcan Hlive. pose proof Hst as [S1 S2 S3 S4 S5]. rewrite Forall_forall in Hlive.
  assert (Htr : Forall (λ g, g ∉ purged) groups) by (rewrite Forall_forall; intros g Hg; by apply Hlive).
  unfold _get_state_for_groups. destruct (get_member_split f) as [mf nmf] eqn:Esp.
  assert (Emf : mf = (get_member_split f).1) by (by rewrite Esp). assert (Enmf : nmf = (get_member_split f).2) by (by rewrite Esp).
  destruct (groups_using_cache_ok _ _ _ nmf groups _ S2 Htr) as (rnm & inm & c1 & -> & Hc1 & Hs1 & Ht1 & Hi1 & Hr1 & Hnone). cbn [mbind result_bind].
  destruct (groups_using_cache_ok _ _ _ mf groups _ S3 Htr) as (rm & im & c2 & -> & Hc2 & Hs2 & Ht2 & Hi2 & Hr2 & _). cbn [mbind result_bind].
  destruct (merge_ok rm groups rnm) as (state & -> & Hstate & Hother).
  { intros g Hg. destruct (Hr1 g Hg) as (? & -> & _), (Hr2 g Hg) as (? & -> & _). done. }
  cbn [mbind result_bind]. set (st1 := MkStateStore _ _ _).
  assert (Hst1 : store_ok purged st1) by (constructor; simpl; [done|done|done|by unfold thread_ok; rewrite Ht1|by unfold thread_ok; rewrite Ht2]).
  assert (Hdone : ∀ g, g ∈ groups → g ∉ im ∪ inm → state !! g = Some (filter_state f (full_state (st_db st) g))).
  { intros g Hg [Hn2 Hn1]%not_elem_of_union. destruct (Hr1 g Hg) as (m1 & Hm1 & [?|E1]); [done|]. destruct (Hr2 g Hg) as (m2 & Hm2 & [?|E2]); [done|].
    rewrite (Hstate g Hg m1 m2 Hm1 Hm2), E1, E2, Emf, Enmf. f_equal. apply split_union. }
  case_bool_decide as Hempty.
  - eexists _, st1. split; [done|]. split_and!; [done|done| |]; [|intros g Hg; rewrite Hother by done; by apply Hnone].
    intros g Hg. apply Hdone; [done|]. rewrite Hempty. apply not_elem_of_empty.
  - assert (Hin : ∀ g, g ∈ im ∪ inm → g ∈ groups) by (intros g [[? _]%Hi2|[? _]%Hi1]%elem_of_union; done).
    assert (Hsome : ∃ k, matches (return_expanded f) k = true).
    { assert (Hk : ∃ k, matches f k = true).
      { apply set_choose_L in Hempty as [g [[_ Hx]%Hi2|[_ Hx]%Hi1]%elem_of_union].
        - rewrite Emf in Hx. by apply member_split_match.
        - rewrite Enmf in Hx. by apply non_member_split_match. }
      destruct Hk as [k Hk]. exists k. by apply expanded_matches. }
    destruct (from_groups (st_db st1) S1 engine (return_expanded f) (set_iter (im ∪ inm)) Hsome) as (results & Hq & Hres).
    { rewrite Forall_forall. intros g. rewrite set_iter_perm, elem_of_elements. intros Hg%Hin. apply Hlive in Hg as [? _]. lia. }
    assert (Hres' : ∀ g, results !! g = if decide (g ∈ im ∪ inm) then Some (filter_state (return_expanded f) (full_state (st_db st) g)) else None).
    { intros g. rewrite Hres. assert (Hg : g ∈ set_iter (im ∪ inm) ↔ g ∈ im ∪ inm) by (by rewrite set_iter_perm, elem_of_elements).
      by rewrite (decide_ext _ _ _ _ Hg). }
    rewrite Hq. cbn [mbind result_bind].
    destruct (insert_into_cache_ok purged st1 (return_expanded f) results (sequence (_state_group_members_cache st1)) (sequence (_state_group_cache st1)) Hst1)
      as (st2 & -> & Hst2 & Hdb2).
    { intros g m. rewrite Hres'. case_decide as Hg; [|done]. intros [= <-]. apply Hin, Hlive in Hg as [? _]. split; [simpl; lia|done]. }
    cbn [mbind result_bind]. eexists _, st2. split; [done|]. split_and!; [done|done| |]; intros g Hg; rewrite lookup_union, lookup_fmap, Hres'; cycle 1.
    { rewrite decide_False by (intros Hx%Hin; done). simpl. rewrite (left_id_L None (∪)), Hother by done. by apply Hnone. }
    case_decide as Hg'; simpl.
    + rewrite (filter_state_lookup_eq f _ (full_state (st_db st) g)); [by destruct (state !! g)|]. intros k Hk. by rewrite lookup_filter_state, expanded_matches.
    + rewrite (left_id_L None (∪)). by apply Hdone.
Qed.

(** ** Writing *)

(** The caches stay right when the groups they know keep their state. *)
Lemma store_frame (purged purged' : gset Z) (st : StateStore) (db' : sgdb) :
  store_ok purged st → wf db' → seq_gen (st_db st) ≤ seq_gen db' → purged ⊆ purged' →
  (∀ g, g ≤ seq_gen (st_db st) → g ∉ purged' → full_state db' g = full_state (st_db st) g) →
  store_ok purged' (MkStateStore db' (_state_group_cache st) (_state_group_members_cache st)).
Proof.
  intros [S1 S2 S3 S4 S5] Hwf Hseq Hpu Hfr.
  assert (Hmono : ∀ (part : StateMap → StateMap) key v,
    agrees (λ g, g ≤ seq_gen (st_db st)) (λ g, g ∉ purged) (λ g, part (full_state (st_db st) g)) key v →
    agrees (λ g, g ≤ seq_gen db') (λ g, g ∉ purged') (λ g, part (full_state db' g)) key v).
  { intros part key v. apply agrees_mono; [intros; lia|]. intros g Hg Hn. split; [by intros Hin; apply Hn, Hpu|]. by rewrite Hfr. }
  constructor; simpl; try done; (eapply holds_mono; [|done]; apply Hmono).
Qed.

Lemma insert_full_state_store purged ev room m st :
  store_ok purged st → seq_gen (st_db st) + 1 ∉ purged →
  ∃ st', insert_full_state main ev room m st = Ok (seq_gen (st_db st) + 1, st') ∧ store_ok purged st' ∧
    full_state (st_db st') (seq_gen (st_db st) + 1) = m ∧
    (∀ g, g ≠ seq_gen (st_db st) + 1 → full_state (st_db st') g = full_state (st_db st) g) ∧ seq_gen (st_db st') = seq_gen (st_db st) + 1 ∧
    state_group_edges (st_db st') = state_group_edges (st_db st) ∧ state_groups (st_db st') = <[seq_gen (st_db st) + 1 := (room, ev)]> (state_groups (st_db st)).
Proof.
  intros Hst Hnew. pose proof Hst as [S1 _ _ _ _]. unfold insert_full_state.
  destruct (insert_full_state_ok ev room m (st_db st) S1) as (db' & -> & Hwf & Hm & Hfr & Hseq & He & Hd). cbn [mbind result_bind].
  set (sg := seq_gen (st_db st) + 1) in *.
  assert (Hst1 : store_ok purged (MkStateStore db' (_state_group_cache st) (_state_group_members_cache st))).
  { apply (store_frame purged purged st db' Hst Hwf); [unfold sg in *; lia|done|]. intros g Hg _. apply Hfr. unfold sg. lia. }
  destruct Hst1 as [T1 T2 T3 T4 T5]. simpl in *.
  destruct (dc_update_ok _ _ _ _ main (sequence (_state_group_members_cache st)) sg (member_part m) None T3 T5) as (c1 & -> & Hc1 & _ & Ht1); [lia|by rewrite Hm|].
  cbn [mbind result_bind].
  destruct (dc_update_ok _ _ _ _ main (sequence (_state_group_cache st)) sg (non_member_part m) None T2 T4) as (c2 & -> & Hc2 & _ & Ht2); [lia|by rewrite Hm|].
  cbn [mbind result_bind]. eexists. split; [done|]. split_and!; try done. constructor; simpl; [done|done|done|by right|by right].
Qed.

(** No chain is longer than it may be. *)
Definition hops_ok (db : sgdb) : Prop := ∀ g, 0 < g → Z.of_nat (length (sgs db g)) ≤ MAX_STATE_DELTA_HOPS + 1.

Lemma hops_no_prev db g : wf db → 0 < g → select_prev db g = None → Z.of_nat (length (sgs db g)) ≤ MAX_STATE_DELTA_HOPS + 1.
Proof. intros Hwf Hg Hp. rewrite (sgs_eq db Hwf), Hp by done. unfold MAX_STATE_DELTA_HOPS. simpl. lia. Qed.

Lemma hops_same_edges db db' : wf db → wf db' → state_group_edges db' = state_group_edges db → hops_ok db → hops_ok db'.
Proof.
  intros Hwf Hwf' He Hh g Hg. rewrite (sgs_same db db' (λ g, 0 < g) Hwf Hwf'); [by apply Hh| |done]. intros g' Hg'.
  unfold select_prev. rewrite He. split_and!; [done|done|]. intros p Hp. apply (prev_less db Hwf) in Hp. lia.
Qed.

Lemma hops_with_delta room ev prev d db :
  wf db → 0 < prev ≤ seq_gen db → _count_state_group_hops_txn engine db prev < MAX_STATE_DELTA_HOPS → hops_ok db →
  hops_ok (with_delta room ev (seq_gen db + 1) prev d db).
Proof.
  intros Hwf Hprev Hlt Hh. destruct (with_delta_ok room ev (seq_gen db + 1) prev d db Hwf eq_refl Hprev) as (Hwf' & _).
  set (db' := with_delta _ _ _ _ _ _) in *. destruct (new_id_fresh db Hwf) as (_ & _ & Hn). set (sg := seq_gen db + 1) in *.
  assert (Hpr : ∀ g, select_prev db' g = if decide (g = sg) then Some prev else select_prev db g).
  { intros g. change (select_prev db' g) with (select_prev (MkDb (state_groups db) (state_group_edges db ++ [(sg, prev)]) (state_groups_state db) (seq_gen db)) g).
    apply (select_prev_insert sg prev db); [|done]. unfold insert_edge. rewrite bool_decide_false; [done|].
    intros Hin%(select_prev_edge db Hwf). congruence. }
  assert (Hold : ∀ g, 0 < g ∧ g ≠ sg → sgs db' g = sgs db g).
  { apply sgs_same; [done|done|]. intros g [Hg Hne]. rewrite Hpr, decide_False by done. split_and!; [done|done|]. intros p Hp.
    pose proof (prev_less db Hwf _ _ Hp). split; [lia|]. apply (select_prev_edge db Hwf), (wf_edge_ids _ Hwf) in Hp. unfold sg. lia. }
  intros g Hg. destruct (decide (g = sg)) as [->|Hne]; [|rewrite Hold by done; by apply Hh].
  rewrite (sgs_eq db' Hwf'), Hpr, decide_True by done. rewrite Hold by (unfold sg; lia). rewrite count_state_group_hops in Hlt by (done || lia).
  simpl length. destruct engine; lia.
Qed.

(** What storing a group does. *)
Record stored_group (purged : gset Z) (ev room : string) (prev : option Z) (delta_ids current : option StateMap) (st : StateStore) (sg : Z) (st' : StateStore) : Prop := {
  sd_ok : store_ok purged st';
  sd_id : sg = seq_gen (st_db st) + 1 ∧ seq_gen (st_db st') = sg;
  sd_state : current = Some (full_state (st_db st') sg) ∨
    ∃ p d, prev = Some p ∧ delta_ids = Some d ∧ full_state (st_db st') sg = d ∪ full_state (st_db st) p;
  sd_others g : g ≠ sg → full_state (st_db st') g = full_state (st_db st) g;
  sd_groups : state_groups (st_db st') = <[sg := (room, ev)]> (state_groups (st_db st));
  sd_hops : hops_ok (st_db st) → hops_ok (st_db st')
}.

(** What a caller has to give: a group that is there with the changes to it, or a state. *)
Definition can_store (purged : gset Z) (prev : option Z) (delta_ids current : option StateMap) (st : StateStore) : Prop :=
  match prev with
  | Some p => live purged st p ∧ is_Some (state_groups (st_db st) !! p) ∧
      ∃ d, delta_ids = Some d ∧ match current with Some c => c = d ∪ full_state (st_db st) p | None => True end
  | None => is_Some current
  end.

Lemma store_state_group_ok purged ev room prev delta_ids current st :
  store_ok purged st → (∀ g, g ∈ purged → g ≤ seq_gen (st_db st)) →
  can_store purged prev delta_ids current st →
  ∃ sg st', store_state_group engine main ev room prev delta_ids current st = Ok (sg, st') ∧ stored_group purged ev room prev delta_ids current st sg st'.
Proof.
  intros Hst Hpu Hpre. pose proof Hst as [S1 _ _ _ _]. unfold store_state_group.
  assert (Hfresh : seq_gen (st_db st) + 1 ∉ purged) by (intros Hin%Hpu; lia).
  assert (Hfull : ∀ c st1, store_ok purged st1 → st_db st1 = st_db st → (current = Some c ∨ ∃ p d, prev = Some p ∧ delta_ids = Some d ∧ c = d ∪ full_state (st_db st) p) →
    ∃ sg st', insert_full_state main ev room c st1 = Ok (sg, st') ∧ stored_group purged ev room prev delta_ids current st sg st').
  { intros c st1 Hst1 E Hc. rewrite <- E in *. destruct (insert_full_state_store purged ev room c st1 Hst1 Hfresh) as (st' & Hok & Hst' & Hm & Hfr & Hseq & He & Hd).
    eexists _, st'. split; [exact Hok|]. constructor; rewrite <- ?E; try done.
    - rewrite Hm. destruct Hc as [Hc|Hc]; [by left|by right].
    - intros Hh. rewrite <- ?E in Hh. eapply hops_same_edges; [exact S1|apply (so_wf _ _ Hst')|done|done]. }
  destruct prev as [p|].
  - destruct Hpre as ([Hid Hlive] & Hp & d & -> & Hcur). rewrite (bool_decide_false (Some p = None)), (bool_decide_false (Some d = None)) by done.
    cbn [andb negb raise_if mbind result_bind try_delta_group]. rewrite (insert_delta_eq engine ev room p d (st_db st) S1 Hp).
    destruct (MAX_STATE_DELTA_HOPS <=? _) eqn:Hhops; cbn [mbind result_bind].
    + assert (Hst0 : MkStateStore (st_db st) (_state_group_cache st) (_state_group_members_cache st) = st) by (by destruct st). rewrite Hst0.
      destruct current as [c|]; cbn [mbind result_bind]; [apply Hfull; [done|done|by left]|].
      destruct (get_state_ok purged st [p] all Hst) as (res & st1 & -> & Hst1 & Hdb & Hres & _); [by intros _ t|by constructor; [split|]|].
      cbn [mbind result_bind]. rewrite (Hres p) by (by left). change (filter_state all (full_state (st_db st) p)) with (full_state (st_db st) p).
      cbn [mbind result_bind]. apply Hfull; [done|done|]. right. eauto.
    + destruct (with_delta_ok room ev (seq_gen (st_db st) + 1) p d (st_db st) S1 eq_refl Hid) as (Hwf & Hm & Hfr).
      eexists _, _. split; [done|]. constructor; cbn [st_db]; try done.
      * apply (store_frame purged purged st _ Hst Hwf); [simpl; lia|done|]. intros g Hg _. apply Hfr. lia.
      * right. eauto.
      * intros Hh. apply hops_with_delta; [done|done|lia|done].
  - destruct Hpre as [c ->]. rewrite (bool_decide_true (None = None)), (bool_decide_false (Some c = None)) by done.
    cbn [andb negb raise_if mbind result_bind try_delta_group]. apply Hfull; [done|done|by left].
Qed.
End store.
