(* ===== verification/StateStoreMain.v ===== *)
(** * The state store over its whole life *)

From S2P Require Import Prelude Constants StateFilter StateFilterProps TopoSort CacheStores LruHistory DictionaryCache DictionaryCacheProps StateGroups StateGroupProps StateGroupWrites StateStore StateStoreProps.

Section life.
Context `{IterOrderOk} (engine : DatabaseEngine) (main : nat).

(** What happens to a store, with the groups purged so far. *)
Inductive sstep : gset Z * StateStore → gset Z * StateStore → Prop :=
| SRead purged st groups f res st' :
    canonical f → Forall (live purged st) groups → _get_state_for_groups engine main groups f st = Ok (res, st') →
    sstep (purged, st) (purged, st')
| SStore purged st ev room prev delta_ids current sg st' :
    can_store purged prev delta_ids current st → store_state_group engine main ev room prev delta_ids current st = Ok (sg, st') →
    sstep (purged, st) (purged, st')
| SBatch purged st room l prev l' st' :
    live purged st prev → is_Some (state_groups (st_db st) !! prev) →
    (∀ ec, ec ∈ l → be_state ec.1 = None → state_delta_due_to_event ec.2 = None) →
    store_state_deltas_for_batched room l prev st = Ok (l', st') → sstep (purged, st) (purged, st')
| SPurge purged st room gs st' :
    (∀ g, g ∈ gs → g ≤ seq_gen (st_db st)) → purge_unreferenced_state_groups engine room gs st = Ok st' →
    sstep (purged, st) (purged ∪ list_to_set gs, st')
| SPurgeRoom purged st gs :
    (∀ g, g ∈ gs → g ≤ seq_gen (st_db st)) → (∀ g p, (g, p) ∈ state_group_edges (st_db st) → p ∈ gs → g ∈ gs) →
    sstep (purged, st) (purged ∪ list_to_set gs, purge_room_state gs st)
| SReindex purged st batch last max_group b n db' :
    reindex_txn engine batch 0 last max_group (st_db st) = Ok (b, n, db') →
    sstep (purged, st) (purged, MkStateStore db' (_state_group_cache st) (_state_group_members_cache st)).

Definition life_ok (w : gset Z * StateStore) : Prop := store_ok main w.1 w.2 ∧ ∀ g, g ∈ w.1 → g ≤ seq_gen (st_db w.2).

(** A step keeps the caches right, and the groups that are not purged. *)
Definition kept (w w' : gset Z * StateStore) : Prop :=
  life_ok w' ∧ w.1 ⊆ w'.1 ∧ seq_gen (st_db w.2) ≤ seq_gen (st_db w'.2) ∧
  ∀ g, 0 < g ≤ seq_gen (st_db w.2) → g ∉ w'.1 → full_state (st_db w'.2) g = full_state (st_db w.2) g.

Lemma with_db_kept purged purged' st db' :
  life_ok (purged, st) → wf db' → seq_gen (st_db st) ≤ seq_gen db' → purged ⊆ purged' → (∀ g, g ∈ purged' → g ≤ seq_gen db') →
  (∀ g, g ≤ seq_gen (st_db st) → g ∉ purged' → full_state db' g = full_state (st_db st) g) →
  kept (purged, st) (purged', MkStateStore db' (_state_group_cache st) (_state_group_members_cache st)).
Proof. 
  intros [Hst Hpu] Hwf Hs Hsub Hpu' Hfr. split; [split; [by eapply store_frame|done]|]. split_and!; simpl; [done|done|].
  intros g [_ Hg] Hn. by apply Hfr.
Qed.

Lemma purge_room_frame gs db :
  wf db → (∀ g p, (g, p) ∈ state_group_edges db → p ∈ gs → g ∈ gs) →
  wf (_purge_room_state_txn gs db) ∧ ∀ g, g ∉ gs → full_state (_purge_room_state_txn gs db) g = full_state db g.
Proof.
  intros Hwf Hcl. assert (Hwf' : wf (_purge_room_state_txn gs db)) by (by apply wf_delete_groups, wf_delete_edges, wf_delete_rows).
  split; [done|]. apply full_state_same; [done|done|]. intros g Hg. right. split_and!.
  - etransitivity; [apply (delta_delete_rows gs)|]. by rewrite decide_False.
  - etransitivity; [apply (select_prev_delete gs)|]. by rewrite decide_False.
  - intros p Hp%(select_prev_edge db Hwf) Hin. apply Hg. by apply (Hcl g p).
Qed.

Lemma sstep_kept w w' : life_ok w → sstep w w' → kept w w'.
Proof.
  intros Hw Hs. pose proof Hw as [Hst Hpu]. destruct Hs as [purged st groups f res st' Hf Hl Hg|purged st ev room prev d cur sg st' Hcan Hg
    |purged st room l prev l' st' Hl Hp Hc Hg|purged st room gs st' Hgs Hg|purged st gs Hgs Hcl|purged st batch last mx b n db' Hg]; simpl in *.
  - destruct (get_state_ok engine main purged st groups f Hst Hf Hl) as (res1 & st1 & Hg1 & Hst1 & Hdb & _). rewrite Hg in Hg1. injection Hg1 as <- <-.
    unfold kept, life_ok. simpl. rewrite Hdb. by split_and!.
  - destruct (store_state_group_ok engine main purged ev room prev d cur st Hst Hpu Hcan) as (sg1 & st1 & Hg1 & D). rewrite Hg in Hg1. injection Hg1 as <- <-.
    destruct (sd_id _ _ _ _ _ _ _ _ _ _ D) as (Hsg & Hseq). split_and!; simpl; [split; [apply D|]| |lia|].
    + intros g Hin%Hpu. simpl. lia.
    + done.
    + intros g Hg' _. apply (sd_others _ _ _ _ _ _ _ _ _ _ D). lia.
  - unfold store_state_deltas_for_batched in Hg. rewrite (insert_deltas_eq room l prev (st_db st) (so_wf _ _ _ Hst) Hp Hc) in Hg.
    cbn [mbind result_bind] in Hg. injection Hg as <- <-. destruct (batch_states room l prev (st_db st) (so_wf _ _ _ Hst)) as (Hwf' & Hfr & _); [apply Hl|].
    assert (Hseq : seq_gen (st_db st) ≤ seq_gen (foldl (extend room) (st_db st) (added_groups prev (seq_gen (st_db st) + 1) l.*1))).
    { rewrite extend_all. simpl. rewrite last_added by apply added_asc. lia. }
    apply with_db_kept; [done|done|done|done| |auto]. intros g Hin%Hpu. simpl in *. lia.
  - unfold purge_unreferenced_state_groups in Hg. destruct (purge_unreferenced_ok engine room gs (st_db st) (so_wf _ _ _ Hst)) as (db' & Hok & Hwf' & Hfr & _ & _ & Hseq).
    rewrite Hok in Hg. cbn [mbind result_bind] in Hg. injection Hg as <-. apply with_db_kept; [done|done|lia|apply union_subseteq_l| |].
    + intros g [Hin%Hpu|Hin%elem_of_list_to_set%Hgs]%elem_of_union; simpl in *; lia.
    + intros g _ [_ Hn]%not_elem_of_union. apply Hfr. by rewrite <- (elem_of_list_to_set (C := gset Z)).
  - destruct (purge_room_frame gs (st_db st) (so_wf _ _ _ Hst) Hcl) as [Hwf' Hfr]. apply with_db_kept; [done|done|done|apply union_subseteq_l| |].
    + intros g [Hin%Hpu|Hin%elem_of_list_to_set%Hgs]%elem_of_union; simpl in *; lia.
    + intros g _ [_ Hn]%not_elem_of_union. apply Hfr. by rewrite <- (elem_of_list_to_set (C := gset Z)).
  - destruct (reindex_ok engine batch 0 last mx (st_db st) (so_wf _ _ _ Hst)) as (b1 & n1 & db1 & Hok & Hwf' & Hfr & _ & Hseq). rewrite Hg in Hok. injection Hok as <- <- <-.
    apply with_db_kept; [done|done|lia|done| |auto]. intros g Hin%Hpu. simpl in *. lia.
Qed.

Lemma kept_refl w : life_ok w → kept w w.
Proof. intros Hw. by split_and!. Qed.
Lemma kept_trans w1 w2 w3 : kept w1 w2 → kept w2 w3 → kept w1 w3.
Proof.
  intros (_ & Hsub & Hseq & Hfr) (Hok & Hsub' & Hseq' & Hfr'). split_and!; [done|by etransitivity|lia|].
  intros g Hg Hn. rewrite Hfr'; [|lia|done]. apply Hfr; [done|]. intros Hin. by apply Hn, Hsub'.
Qed.
Lemma steps_kept w w' : life_ok w → rtc sstep w w' → kept w w'.
Proof.
  intros Hw Hs. revert Hw. induction Hs as [w|w1 w2 w3 Hs _ IH]; intros Hw; [by apply kept_refl|].
  pose proof (sstep_kept _ _ Hw Hs) as Hk. eapply kept_trans; [exact Hk|]. apply IH, Hk.
Qed.

Lemma new_store_ok factor db : wf db → 0 ≤ factor 50000 → 0 ≤ factor 500000 → life_ok (∅, new_StateStore factor db).
Proof. intros Hwf H1 H2. split; [|by intros g ?%elem_of_empty]. constructor; simpl; [done|by apply new_holds|by apply new_holds|by left|by left]. Qed.

(** ** The theorems *)

(** A store that was started on well-formed tables and what happened since.  [wf] asks, among
    other things, that no edge is left of a group above the sequence: this excludes tables
    whose highest group was purged before a restart on SQLite, where the sequence starts again
    from the highest group ([reused_id_has_old_state] below). *)
Definition reachable (factor : Z → Z) (db : sgdb) (w : gset Z * StateStore) : Prop :=
  wf db ∧ 0 ≤ factor 50000 ∧ 0 ≤ factor 500000 ∧ rtc sstep (∅, new_StateStore factor db) w.

Lemma store_reachable_ok factor db w : reachable factor db w → life_ok w.
Proof. intros (Hwf & H1 & H2 & Hs). apply (steps_kept (∅, new_StateStore factor db)); [by apply new_store_ok|done]. Qed.

(** The state a caller of [store_state_group] describes. *)
Definition described (prev : option Z) (delta_ids current : option StateMap) (st : StateStore) : StateMap :=
  match current, prev, delta_ids with
  | Some c, _, _ => c
  | None, Some p, Some d => d ∪ full_state (st_db st) p
  | _, _, _ => ∅
  end.

(** C4: reads through the two caches are exact.  Whatever was read, stored, batched,
    purged or re-encoded before, with either database engine, reading any filter for
    groups that exist returns for each group exactly the part of its state that the
    filter lets through. *)
Theorem state_store_reads factor db purged st groups f :
  reachable factor db (purged, st) → canonical f → Forall (live purged st) groups →
  ∃ res st', _get_state_for_groups engine main groups f st = Ok (res, st') ∧
    ∀ g, g ∈ groups → res !! g = Some (filter_state f (full_state (st_db st) g)).
Proof.
  intros Hr Hf Hg. destruct (store_reachable_ok _ _ _ Hr) as [Hst _].
  destruct (get_state_ok engine main purged st groups f Hst Hf Hg) as (res & st' & Hok & _ & _ & Hres & _). by exists res, st'.
Qed.

(** C5: a stored state group can be read back for as long as it is not purged.  The store was
    started on well-formed tables ([wf]), in which no edge is left of a group above the
    sequence (a purge of the highest group followed by a restart on SQLite leaves one, and
    the next group is then stored on top of it: [reused_id_has_old_state]).  Storing a state, or
    the changes to a group that exists, returns a new group, and at any later time a read of
    that group with any canonical filter returns what the filter lets through of the state
    that was described to the store. *)
Theorem store_state_group_roundtrip factor db purged st ev room prev delta_ids current :
  reachable factor db (purged, st) → can_store purged prev delta_ids current st →
  ∃ sg st', store_state_group engine main ev room prev delta_ids current st = Ok (sg, st') ∧
    ∀ purged2 st2 f, rtc sstep (purged, st') (purged2, st2) → sg ∉ purged2 → canonical f →
      ∃ res st3, _get_state_for_groups engine main [sg] f st2 = Ok (res, st3) ∧
        res !! sg = Some (filter_state f (described prev delta_ids current st)).
Proof.
  intros Hr Hcan. destruct (store_reachable_ok _ _ _ Hr) as [Hst Hpu].
  destruct (store_state_group_ok engine main purged ev room prev delta_ids current st Hst Hpu Hcan) as (sg & st' & Hok & D).
  exists sg, st'. split; [done|]. intros purged2 st2 f Hs Hn Hf.
  destruct (sd_id _ _ _ _ _ _ _ _ _ _ D) as (Hsg & Hseq). pose proof (wf_seq _ (so_wf _ _ _ Hst)) as Hpos.
  assert (Hlife : life_ok (purged, st')) by (split; [apply D|]; intros g Hin%Hpu; simpl in *; lia).
  destruct (steps_kept _ _ Hlife Hs) as ([Hst2 _] & _ & Hle & Hfr). simpl in *.
  destruct (get_state_ok engine main purged2 st2 [sg] f Hst2 Hf) as (res & st3 & Hg & _ & _ & Hres & _); [constructor; [split; [lia|done]|constructor]|].
  exists res, st3. split; [done|]. rewrite (Hres sg) by (by left). rewrite Hfr by (try done; lia). do 2 f_equal.
  unfold described. destruct (sd_state _ _ _ _ _ _ _ _ _ _ D) as [->|(p & d & -> & -> & E)]; [done|]. destruct current as [c|]; [|done].
  destruct Hcan as (_ & _ & d' & [= <-] & ->). done.
Qed.

(** The state of a group never changes while it exists: not when other groups are
    stored, purged or re-encoded, and not when it is itself re-encoded. *)
Theorem state_groups_immutable factor db purged st purged2 st2 g :
  reachable factor db (purged, st) → rtc sstep (purged, st) (purged2, st2) → live purged st g → g ∉ purged2 →
  full_state (st_db st2) g = full_state (st_db st) g.
Proof.
  intros Hr Hs [Hg _] Hn. destruct (steps_kept _ _ (store_reachable_ok _ _ _ Hr) Hs) as (_ & _ & _ & Hfr). by apply Hfr.
Qed.

(** C39: chains of deltas are bounded: where no group needs more than a hundred hops,
    [store_state_group] makes none that does. *)
Theorem store_state_group_hops factor db purged st ev room prev delta_ids current :
  reachable factor db (purged, st) → can_store purged prev delta_ids current st → hops_ok (st_db st) →
  ∃ sg st', store_state_group engine main ev room prev delta_ids current st = Ok (sg, st') ∧
    ∀ g, 0 < g → Z.of_nat (length (sgs (st_db st') g)) ≤ 101.
Proof.
  intros Hr Hcan Hh. destruct (store_reachable_ok _ _ _ Hr) as [Hst Hpu].
  destruct (store_state_group_ok engine main purged ev room prev delta_ids current st Hst Hpu Hcan) as (sg & st' & Hok & D).
  exists sg, st'. split; [done|]. by apply (sd_hops _ _ _ _ _ _ _ _ _ _ D).
Qed.
End life.

(** * The state store on concrete tables *)

Definition ex_key (t : string) : string * string := (t, "").
Definition ex_create : StateMap := {[ex_key EventTypes.Create := "$create"]}.
Definition ex_member : string * string := (EventTypes.Member, "@alice:a").

(** A room: group 1 is whole, group 2 adds a member. *)
Definition ex_db : sgdb :=
  MkDb (<[1 := ("!r", "$create")]> (<[2 := ("!r", "$join")]> ∅)) [(2, 1)]
    [SgRow 1 "!r" (ex_key EventTypes.Create) "$create"; SgRow 2 "!r" ex_member "$join"] 2.

Lemma ex_db_wf : wf ex_db.
Proof.
  constructor; simpl.
  - apply NoDup_singleton.
  - intros g p [= -> ->]%list_elem_of_singleton. lia.
  - apply (bool_decide_eq_true_1 _). vm_compute. reflexivity.
  - lia.
  - intros g. rewrite lookup_insert_is_Some, lookup_insert_is_Some, lookup_empty. intros [<-|[_ [<-|[_ [? ?]]]]]; [lia|lia|done].
  - intros g p [= -> ->]%list_elem_of_singleton. lia.
  - intros r [->|Hr]%elem_of_cons; [simpl; lia|]. apply list_elem_of_singleton in Hr. subst. simpl. lia.
Qed.

Definition ex_store : StateStore := new_StateStore (λ z, z) ex_db.

(** A name is set, then the group is read. *)
Definition ex_delta : StateMap := {[ex_key "m.room.name" := "$name"]}.
Definition ex_store3 : StateStore :=
  (unwrap (0, ex_store) (store_state_group Sqlite3Engine 0 "$name" "!r" (Some 2) (Some ex_delta) None ex_store)).2.

Lemma ex_can_store : can_store ∅ (Some 2) (Some ex_delta) None ex_store.
Proof. split; [split; [simpl; lia|apply not_elem_of_empty]|]. split; [by vm_compute; eexists|]. by exists ex_delta. Qed.

Lemma ex_reachable : reachable Sqlite3Engine 0 (λ z, z) ex_db (∅, ex_store).
Proof. split_and!; [apply ex_db_wf|lia|lia|apply rtc_refl]. Qed.

Lemma ex_store3_eq : store_state_group Sqlite3Engine 0 "$name" "!r" (Some 2) (Some ex_delta) None ex_store = Ok (3, ex_store3).
Proof.
  unfold ex_store3. destruct (store_state_group Sqlite3Engine 0 "$name" "!r" (Some 2) (Some ex_delta) None ex_store) as [[g st]|] eqn:E.
  - simpl. do 2 f_equal. assert (X : fst <$> store_state_group Sqlite3Engine 0 "$name" "!r" (Some 2) (Some ex_delta) None ex_store = Ok 3) by (vm_compute; reflexivity).
    rewrite E in X. by injection X.
  - assert (X : is_ok (store_state_group Sqlite3Engine 0 "$name" "!r" (Some 2) (Some ex_delta) None ex_store) = true) by (vm_compute; reflexivity).
    by rewrite E in X.
Qed.

Lemma ex_reachable3 : reachable Sqlite3Engine 0 (λ z, z) ex_db (∅, ex_store3).
Proof.
  split_and!; [apply ex_db_wf|lia|lia|]. eapply rtc_l; [|apply rtc_refl].
  eapply (SStore _ _ ∅ ex_store "$name" "!r" (Some 2) (Some ex_delta) None); [apply ex_can_store|apply ex_store3_eq].
Qed.

Definition ex_filter : StateFilter := from_types [(EventTypes.Member, None); ("m.room.name", Some "")].

Lemma state_store_reads_witness :
  ∃ res st', _get_state_for_groups Sqlite3Engine 0 [3; 1] ex_filter ex_store3 = Ok (res, st') ∧
    ∀ g, g ∈ [3; 1] → res !! g = Some (filter_state ex_filter (full_state (st_db ex_store3) g)).
Proof.
  refine (state_store_reads Sqlite3Engine 0 (λ z, z) ex_db ∅ ex_store3 [3; 1] ex_filter ex_reachable3 _ _).
  - by intros Ho.
  - assert (Hs : seq_gen (st_db ex_store3) = 3) by (vm_compute; reflexivity).
    repeat constructor; rewrite ?Hs; (lia || apply not_elem_of_empty).
Defined.

(** What it returns. *)
Example ex_reads :
  (λ r : gmap Z StateMap * StateStore, (λ gm : Z * StateMap, (gm.1, map_to_list gm.2)) <$> map_to_list r.1) <$> _get_state_for_groups Sqlite3Engine 0 [3; 1] ex_filter ex_store3 =
  Ok [(3, [(ex_key "m.room.name", "$name"); (ex_member, "$join")]); (1, [])].
Proof. vm_compute. reflexivity. Qed.

Lemma store_state_group_roundtrip_witness :
  ∃ sg st', store_state_group Sqlite3Engine 0 "$name" "!r" (Some 2) (Some ex_delta) None ex_store = Ok (sg, st') ∧
    ∀ purged2 st2 f, rtc (sstep Sqlite3Engine 0) (∅, st') (purged2, st2) → sg ∉ purged2 → canonical f →
      ∃ res st3, _get_state_for_groups Sqlite3Engine 0 [sg] f st2 = Ok (res, st3) ∧
        res !! sg = Some (filter_state f (described (Some 2) (Some ex_delta) None ex_store)).
Proof. exact (store_state_group_roundtrip Sqlite3Engine 0 (λ z, z) ex_db ∅ ex_store "$name" "!r" (Some 2) (Some ex_delta) None ex_reachable ex_can_store). Defined.

Lemma state_groups_immutable_witness : full_state (st_db ex_store3) 2 = full_state ex_db 2.
Proof.
  refine (state_groups_immutable Sqlite3Engine 0 (λ z, z) ex_db ∅ ex_store ∅ ex_store3 2 ex_reachable _ _ _).
  - eapply rtc_l; [|apply rtc_refl].
    eapply (SStore _ _ ∅ ex_store "$name" "!r" (Some 2) (Some ex_delta) None); [apply ex_can_store|apply ex_store3_eq].
  - split; [simpl; lia|apply not_elem_of_empty].
  - apply not_elem_of_empty.
Defined.

Lemma ex_hops : hops_ok ex_db.
Proof.
  intros g Hg. destruct (decide (g = 2)) as [->|Hne]; [vm_compute; discriminate|].
  apply hops_no_prev; [apply ex_db_wf|done|]. unfold select_prev. simpl. by rewrite filter_cons, decide_False by (simpl; lia).
Qed.

Lemma store_state_group_hops_witness :
  ∃ sg st', store_state_group Sqlite3Engine 0 "$name" "!r" (Some 2) (Some ex_delta) None ex_store = Ok (sg, st') ∧
    ∀ g, 0 < g → Z.of_nat (length (sgs (st_db st') g)) ≤ 101.
Proof. exact (store_state_group_hops Sqlite3Engine 0 (λ z, z) ex_db ∅ ex_store "$name" "!r" (Some 2) (Some ex_delta) None ex_reachable ex_can_store ex_hops). Defined.

(** ** Purging in two steps

    A purge leaves the edge of a group it deletes.  When the group below is purged later,
    the deleted group is taken for a group that remains, and its rows come back. *)

Definition ex_purged : sgdb := unwrap ex_db (_purge_unreferenced_state_groups Sqlite3Engine "!r" [2] ex_db).
Definition ex_purged2 : sgdb := unwrap ex_db (_purge_unreferenced_state_groups Sqlite3Engine "!r" [1] ex_purged).

Example purge_leaves_edges : state_group_edges ex_purged = [(2, 1)] ∧ state_groups ex_purged !! 2 = None.
Proof. split; vm_compute; reflexivity. Qed.

(** A purge leaves the edges of the groups it deletes, and a later purge of the group
    below takes a deleted group for one that remains: after both groups of a room were
    purged, one after the other, the tables have no group but a row of one. *)
Example purge_brings_rows_back :
  map_to_list (state_groups ex_purged2) = [] ∧ state_groups_state ex_purged2 = [SgRow 2 "!r" (ex_key EventTypes.Create) "$create"].
Proof. split; vm_compute; reflexivity. Qed.

(** On SQLite the numbers start again from the highest group after a restart, so that the
    next whole group is stored on top of the edge that was left. *)
Definition ex_restarted : sgdb := MkDb (state_groups ex_purged) (state_group_edges ex_purged) (state_groups_state ex_purged) 1.
Definition ex_reused : Z * sgdb := unwrap (0, ex_db) (insert_full_state_txn "$x" "!r" {[ex_member := "$leave"]} ex_restarted).

Example reused_id_has_old_state : ex_reused.1 = 2 ∧ full_state ex_reused.2 2 !! ex_key EventTypes.Create = Some "$create".
Proof. split; vm_compute; reflexivity. Qed.

(** ** Filters that let nothing through *)

Example read_nothing_postgres : _get_state_groups_from_groups_txn PostgresEngine [1] none ex_db = Err ProgrammingError.
Proof. vm_compute. reflexivity. Qed.

(** ** Batches *)

Definition ex_batch : list (batch_event * batch_context) :=
  [(BatchEvent "$a" (Some (ex_key "m.room.topic")), BatchContext None None None); (BatchEvent "$m" None, BatchContext None None None);
   (BatchEvent "$b" (Some (ex_key "m.room.topic")), BatchContext None None None)].

Lemma store_batch_states_witness :
  ∃ l' db', insert_deltas_group_txn "!r" ex_batch 2 ex_db = Ok (l', db') ∧ l'.*1 = ex_batch.*1 ∧ wf db' ∧
    (∀ g, g ≤ 2 → full_state db' g = full_state ex_db g) ∧ Forall2 (around db') l' (states_around (full_state ex_db 2) ex_batch.*1).
Proof.
  refine (store_batch_states "!r" ex_batch 2 ex_db ex_db_wf _ _).
  - vm_compute. by eexists.
  - intros ec Hec _. repeat (apply elem_of_cons in Hec as [->|Hec]; [done|]). by apply not_elem_of_nil in Hec.
Defined.

Example ex_batch_groups :
  (λ r : list (batch_event * batch_context) * sgdb, (λ ec : batch_event * batch_context, (state_group_before_event ec.2, state_group_after_event ec.2)) <$> r.1)
    <$> insert_deltas_group_txn "!r" ex_batch 2 ex_db = Ok [(Some 2, Some 3); (Some 3, Some 3); (Some 3, Some 4)].
Proof. vm_compute. reflexivity. Qed.

(** ** Reading *)

Lemma read_state_groups_witness :
  ∃ results, _get_state_groups_from_groups PostgresEngine [2; 1] ex_filter ex_db = Ok results ∧
    ∀ g, results !! g = if decide (g ∈ [2; 1]) then Some (filter_state ex_filter (full_state ex_db g)) else None.
Proof.
  refine (read_state_groups ex_db PostgresEngine ex_filter [2; 1] ex_db_wf _ _).
  - exists ex_member. vm_compute. reflexivity.
  - repeat constructor; lia.
Defined.
