(* ===== verification/ExpiringCache.v ===== *)
(** * Caches whose items expire: [synapse/util/caches/expiringcache.py]

    The [OrderedDict] is the list of its items, oldest first; an item that is overwritten
    keeps its place.  The sizes of the values of an [iterable] cache are read off the
    values each time, and the values may be shared and change: [size] is an argument.
    The metrics are left out, the times are arguments. *)

From S2P Require Import Prelude.

Record ExpiringCache (KT VT : Type) := MkExpiringCache {
  ec_original_max_size : Z;
  ec_max_size : Z;
  ec_expiry_ms : Z;
  ec_reset_expiry_on_get : bool;
  ec_iterable : bool;
  (** key, time, value *)
  ec_cache : list (KT * (Z * VT))
}.
Arguments MkExpiringCache {KT VT}.
Arguments ec_original_max_size {KT VT}.
Arguments ec_max_size {KT VT}.
Arguments ec_expiry_ms {KT VT}.
Arguments ec_reset_expiry_on_get {KT VT}.
Arguments ec_iterable {KT VT}.
Arguments ec_cache {KT VT}.

(** ** An [OrderedDict] *)

Section ordered_dict.
Context `{EqDecision K} {A : Type}.

Fixpoint od_get (k : K) (l : list (K * A)) : option A :=
  match l with
  | [] => None
  | (k', a) :: l => if decide (k' = k) then Some a else od_get k l
  end.

Fixpoint od_set (k : K) (a : A) (l : list (K * A)) : list (K * A) :=
  match l with
  | [] => [(k, a)]
  | (k', a') :: l => if decide (k' = k) then (k, a) :: l else (k', a') :: od_set k a l
  end.

Definition od_del (k : K) (l : list (K * A)) : list (K * A) := filter (λ ka, ka.1 ≠ k) l.
End ordered_dict.

Section cache.
Context `{EqDecision KT} {VT : Type}.
Implicit Types c : ExpiringCache KT VT.

(** [int(max_len * default_factor_size)] is an argument. *)
Definition new_ExpiringCache (max_len scaled expiry_ms : Z) (reset_expiry_on_get iterable : bool) : ExpiringCache KT VT :=
  MkExpiringCache max_len scaled expiry_ms reset_expiry_on_get iterable [].

Definition ec_with c (l : list (KT * (Z * VT))) : ExpiringCache KT VT :=
  MkExpiringCache (ec_original_max_size c) (ec_max_size c) (ec_expiry_ms c) (ec_reset_expiry_on_get c) (ec_iterable c) l.

(** [sum(len(entry.value) for entry in self._cache.values())] *)
Definition sizes (size : VT → Z) (l : list (KT * (Z * VT))) : Z := foldr (λ i n, size i.2.2 + n) 0 l.

Definition ec_len (size : VT → Z) c : Z :=
  if ec_iterable c then sizes size (ec_cache c) else Z.of_nat (length (ec_cache c)).

(** [while self._max_size and len(self) > self._max_size: self._cache.popitem(last=False)],
    each round one item less; [popitem] of an empty dict raises [KeyError]. *)
Fixpoint evict_loop (n : nat) (size : VT → Z) c : result (ExpiringCache KT VT) :=
  if negb (bool_decide (ec_max_size c = 0)) && bool_decide (ec_max_size c < ec_len size c) then
    match n, ec_cache c with
    | S n, _ :: l => evict_loop n size (ec_with c l)
    | _, _ => Err (PyBuiltin KeyError)
    end
  else Ok c.
Definition ec_evict (size : VT → Z) c : result (ExpiringCache KT VT) := evict_loop (length (ec_cache c)) size c.

Definition ec_setitem (size : VT → Z) (now : Z) (key : KT) (value : VT) c : result (ExpiringCache KT VT) :=
  ec_evict size (ec_with c (od_set key (now, value) (ec_cache c))).

Definition ec_getitem (now : Z) (key : KT) c : result (VT * ExpiringCache KT VT) :=
  match od_get key (ec_cache c) with
  | None => Err (PyBuiltin KeyError)
  | Some (_, value) =>
      Ok (value, if ec_reset_expiry_on_get c then ec_with c (od_set key (now, value) (ec_cache c)) else c)
  end.

(** [default] is [None] when the sentinel is passed. *)
Definition ec_pop (key : KT) (default : option VT) c : result (VT * ExpiringCache KT VT) :=
  match od_get key (ec_cache c), default with
  | Some (_, value), _ => Ok (value, ec_with c (od_del key (ec_cache c)))
  | None, Some d => Ok (d, c)
  | None, None => Err (PyBuiltin KeyError)
  end.

Definition ec_contains (key : KT) c : bool := bool_decide (is_Some (od_get key (ec_cache c))).

Definition ec_get (now : Z) (key : KT) c : option VT * ExpiringCache KT VT :=
  match ec_getitem now key c with
  | Ok (value, c) => (Some value, c)
  | Err _ => (None, c)
  end.

Definition ec_setdefault (size : VT → Z) (now : Z) (key : KT) (value : VT) c : result (VT * ExpiringCache KT VT) :=
  match ec_getitem now key c with
  | Ok r => Ok r
  | Err _ => c ← ec_setitem size now key value c; Ok (value, c)
  end.

Definition ec_prune_cache (now : Z) c : ExpiringCache KT VT :=
  if bool_decide (ec_expiry_ms c = 0) then c else
  let keys_to_delete := (filter (λ i, now - i.2.1 > ec_expiry_ms c) (ec_cache c)).*1 in
  ec_with c (foldl (λ l k, od_del k l) (ec_cache c) keys_to_delete).

(** [int(self._original_max_size * factor)] is an argument. *)
Definition ec_set_cache_factor (size : VT → Z) (new_size : Z) c : result (bool * ExpiringCache KT VT) :=
  if bool_decide (new_size = ec_max_size c) then Ok (false, c) else
  c ← ec_evict size (MkExpiringCache (ec_original_max_size c) new_size (ec_expiry_ms c) (ec_reset_expiry_on_get c) (ec_iterable c) (ec_cache c));
  Ok (true, c).
End cache.

(** * Expiring caches: bounded, and never stale *)

(** ** The dictionary *)

Section ordered_dict.
Context `{EqDecision K} {A : Type}.
Implicit Types (k : K) (l : list (K * A)).

Lemma od_get_Some k a l : NoDup l.*1 → od_get k l = Some a ↔ (k, a) ∈ l.
Proof.
  induction l as [|[k' a'] l IH]; simpl; intros Hnd; [split; [done|by intros ?%not_elem_of_nil]|].
  apply NoDup_cons in Hnd as [Hn Hnd]. rewrite elem_of_cons. case_decide as Hk.
  - subst k'. split; [intros [= ->]; by left|]. intros [[= ->]|Hin]; [done|]. destruct Hn. by apply (list_elem_of_fmap_2 fst _ (k, a)).
  - rewrite (IH Hnd). split; [by right|]. intros [[= -> _]|]; done.
Qed.

Lemma od_get_elem k a l : od_get k l = Some a → (k, a) ∈ l.
Proof. induction l as [|[k' a'] l IH]; simpl; [done|]. case_decide; [intros [= ->]; subst; by left|]. intros ?. right. auto. Qed.

Lemma od_set_keys k a l k' : k' ∈ (od_set k a l).*1 ↔ k' = k ∨ k' ∈ l.*1.
Proof.
  induction l as [|[k1 a1] l IH]; simpl; [by rewrite list_elem_of_singleton, elem_of_nil; naive_solver|].
  case_decide; simpl; rewrite !elem_of_cons; [naive_solver|]. rewrite IH. naive_solver.
Qed.

Lemma od_set_nodup k a l : NoDup l.*1 → NoDup (od_set k a l).*1.
Proof.
  induction l as [|[k1 a1] l IH]; simpl; intros Hnd; [apply NoDup_singleton|]. apply NoDup_cons in Hnd as [Hn Hnd]. case_decide; simpl.
  - subst. by constructor.
  - constructor; [|by apply IH]. intros [->|?]%od_set_keys; done.
Qed.

Lemma od_set_elem k a l i : NoDup l.*1 → i ∈ od_set k a l → i = (k, a) ∨ i.1 ≠ k ∧ i ∈ l.
Proof.
  intros Hnd. induction l as [|[k1 a1] l IH]; simpl; [intros ->%list_elem_of_singleton; by left|].
  apply NoDup_cons in Hnd as [Hn Hnd]. case_decide as Hk; rewrite elem_of_cons.
  - subst k1. intros [->|Hi]; [by left|right]. split; [|by right]. intros E. apply Hn. simpl. rewrite <- E. by apply list_elem_of_fmap_2.
  - intros [->|Hi]; [right; split; [done|by left]|]. destruct (IH Hnd Hi) as [|[? ?]]; [by left|right; split; [done|by right]].
Qed.

Lemma od_get_set k a l : od_get k (od_set k a l) = Some a.
Proof. induction l as [|[k1 a1] l IH]; simpl; [by rewrite decide_True|]. case_decide; simpl; [by rewrite decide_True|by rewrite decide_False]. Qed.

Lemma od_del_all (ks : list K) l : foldl (λ l k, od_del k l) l ks = filter (λ i, (i.1 ∉ ks)) l.
Proof.
  revert l. induction ks as [|k ks IH]; intros l; simpl; [symmetry; apply filter_keeps; intros i _; apply not_elem_of_nil|].
  rewrite IH. unfold od_del. rewrite list_filter_filter. apply filter_same. intros i _. rewrite not_elem_of_cons. naive_solver.
Qed.

Lemma fmap_drop_nodup n l : NoDup l.*1 → NoDup (drop n l).*1.
Proof. intros Hnd. rewrite fmap_drop. eapply sublist_NoDup; [exact Hnd|]. apply sublist_drop. Qed.
Lemma sublist_keys l l' : l `sublist_of` l' → l.*1 `sublist_of` l'.*1.
Proof. induction 1; csimpl; by constructor. Qed.
End ordered_dict.

Section cache.
Context `{EqDecision KT} {VT : Type}.
Implicit Types c : ExpiringCache KT VT.

(** ** Eviction *)

(** The cache without its [n] oldest items. *)
Definition without c (n : nat) : ExpiringCache KT VT := ec_with c (drop n (ec_cache c)).

Definition too_big (size : VT → Z) c : Prop := ec_max_size c ≠ 0 ∧ ec_max_size c < ec_len size c.

#[global] Instance too_big_dec size c : Decision (too_big size c).
Proof. unfold too_big. apply _. Defined.

Lemma evict_loop_eq n size c :
  evict_loop n size c = if decide (too_big size c) then
    match n, ec_cache c with S n, _ :: l => evict_loop n size (ec_with c l) | _, _ => Err (PyBuiltin KeyError) end else Ok c.
Proof.
  unfold too_big. destruct n; simpl; (destruct (decide (ec_max_size c = 0)); [rewrite (bool_decide_true (ec_max_size c = 0)), decide_False by naive_solver; done|]);
    rewrite (bool_decide_false (ec_max_size c = 0)) by done; simpl; case_bool_decide; [by rewrite decide_True|by rewrite decide_False by naive_solver|by rewrite decide_True|by rewrite decide_False by naive_solver].
Qed.

Lemma too_big_items size c : 0 ≤ ec_max_size c → too_big size c → ec_cache c ≠ [].
Proof. intros Hm [Hn Hl] E. unfold ec_len in Hl. rewrite E in Hl. simpl in Hl. destruct (ec_iterable c); lia. Qed.

(** Eviction drops the oldest items, and only as many as it has to. *)
Lemma ec_evict_ok size c :
  0 ≤ ec_max_size c →
  ∃ n, ec_evict size c = Ok (without c n) ∧ ¬ too_big size (without c n) ∧ ∀ m, (m < n)%nat → too_big size (without c m).
Proof.
  unfold ec_evict. assert (Hgen : ∀ l, (∀ c, ec_cache c = l → 0 ≤ ec_max_size c →
    ∃ n, evict_loop (length l) size c = Ok (without c n) ∧ ¬ too_big size (without c n) ∧ ∀ m, (m < n)%nat → too_big size (without c m))).
  { induction l as [|i l IH]; intros c0 El Hm; rewrite evict_loop_eq; destruct (decide (too_big size c0)) as [Hb|Hb].
    - by apply too_big_items in Hb.
    - exists 0%nat. unfold without. rewrite drop_0. destruct c0; simpl in *. split_and!; [done|done|lia].
    - simpl. rewrite El. destruct (IH (ec_with c0 l) eq_refl Hm) as (n & Hok & Hnb & Hmin).
      exists (S n). assert (E : ∀ n, without c0 (S n) = without (ec_with c0 l) n) by (intros n'; unfold without; by rewrite El).
      rewrite E. split_and!; [done|done|]. intros [|m] Hlt; [|rewrite E; apply Hmin; lia].
      unfold without. rewrite drop_0. by destruct c0.
    - exists 0%nat. unfold without. rewrite drop_0. destruct c0; simpl in *. split_and!; [done|done|lia]. }
  intros Hm. by apply (Hgen (ec_cache c)).
Qed.

(** ** Pruning *)

Lemma ec_prune_cache_eq now c :
  NoDup (ec_cache c).*1 →
  ec_prune_cache now c = ec_with c (filter (λ i, ec_expiry_ms c = 0 ∨ now - i.2.1 ≤ ec_expiry_ms c) (ec_cache c)).
Proof.
  intros Hnd. unfold ec_prune_cache. case_bool_decide as He.
  - rewrite filter_keeps by (intros; by left). by destruct c.
  - rewrite od_del_all. f_equal. apply filter_same. intros [k [t v]] Hi. simpl. split.
    + intros Hn. right. destruct (decide (now - t > ec_expiry_ms c)) as [Hx|]; [|lia]. destruct Hn.
      apply (list_elem_of_fmap_2 fst _ (k, (t, v))). by apply list_elem_of_filter.
    + intros [|Hle] Hin; [done|]. apply list_elem_of_fmap in Hin as ([k' [t' v']] & -> & [Hx Hi']%list_elem_of_filter). simpl in *.
      assert (Hs : Some (t, v) = Some (t', v')) by (rewrite <- (proj2 (od_get_Some k' (t, v) _ Hnd) Hi); by apply od_get_Some). injection Hs as -> ->. lia.
Qed.

(** ** A cache and the values that were put in it *)

(** The cache, the last value that was set for each key, and the time.  The sizes of the
    values are those at the time; they may have become smaller since. *)
Record eworld := EWorld { ew_cache : ExpiringCache KT VT; ew_last : KT → option VT; ew_now : Z; ew_size : VT → Z }.

Definition upd (f : KT → option VT) (k : KT) (o : option VT) : KT → option VT := λ k', if decide (k' = k) then o else f k'.

Inductive estep : eworld → eworld → Prop :=
| ESet c last now size k v c' : ec_setitem size now k v c = Ok c' → estep (EWorld c last now size) (EWorld c' (upd last k (Some v)) now size)
| EGet c last now size k o c' : ec_get now k c = (o, c') → estep (EWorld c last now size) (EWorld c' last now size)
| EPop c last now size k d v c' : ec_pop k d c = Ok (v, c') → estep (EWorld c last now size) (EWorld c' (upd last k None) now size)
| ESetdefault c last now size k v v' c' :
    ec_setdefault size now k v c = Ok (v', c') → estep (EWorld c last now size) (EWorld c' (upd last k (Some v')) now size)
| EPrune c last now size : estep (EWorld c last now size) (EWorld (ec_prune_cache now c) last now size)
| EResize c last now size n b c' : 0 ≤ n → ec_set_cache_factor size n c = Ok (b, c') → estep (EWorld c last now size) (EWorld c' last now size)
| ETime c last now now' size : now ≤ now' → estep (EWorld c last now size) (EWorld c last now' size)
| EShrink c last now size size' : (∀ v, 0 ≤ size' v ≤ size v) → estep (EWorld c last now size) (EWorld c last now size').

Record cache_inv (w : eworld) : Prop := {
  ci_max : 0 ≤ ec_max_size (ew_cache w);
  ci_keys : NoDup (ec_cache (ew_cache w)).*1;
  ci_last : ∀ k t v, (k, (t, v)) ∈ ec_cache (ew_cache w) → ew_last w k = Some v ∧ t ≤ ew_now w;
  ci_size : ∀ v, 0 ≤ ew_size w v;
  ci_small : ¬ too_big (ew_size w) (ew_cache w)
}.

Lemma sizes_mono (size size' : VT → Z) (l : list (KT * (Z * VT))) : (∀ v, size' v ≤ size v) → sizes size' l ≤ sizes size l.
Proof. intros Hs. induction l as [|i l IH]; simpl; [lia|]. specialize (Hs i.2.2). lia. Qed.

Lemma sizes_set_same (size : VT → Z) (k : KT) t v (l : list (KT * (Z * VT))) : od_get k l = Some (t, v) → ∀ now, sizes size (od_set k (now, v) l) = sizes size l.
Proof.
  intros Hg now. induction l as [|[k' [t' v']] l IH]; [done|]. simpl in *. case_decide; [injection Hg as -> ->; subst; done|].
  simpl. by rewrite IH.
Qed.
Lemma od_set_length (k : KT) (a : Z * VT) l : is_Some (od_get k l) → length (od_set k a l) = length l.
Proof. induction l as [|[k' a'] l IH]; simpl; [by intros [? ?]|]. case_decide; simpl; [done|]. intros. by rewrite IH. Qed.

(** Fewer items, no new ones. *)
Lemma evict_inv c last now size :
  0 ≤ ec_max_size c → NoDup (ec_cache c).*1 → (∀ k t v, (k, (t, v)) ∈ ec_cache c → last k = Some v ∧ t ≤ now) → (∀ v, 0 ≤ size v) →
  ∃ n, ec_evict size c = Ok (without c n) ∧ cache_inv (EWorld (without c n) last now size).
Proof.
  intros Hm Hnd Hl Hz. destruct (ec_evict_ok size c Hm) as (n & Hok & Hnb & _). exists n. split; [done|]. constructor; simpl; [done|by apply fmap_drop_nodup| |done|done].
  intros k t v Hi. apply Hl. by apply (elem_of_submseteq (drop n (ec_cache c)) (ec_cache c) _ Hi), sublist_submseteq, sublist_drop.
Qed.

Lemma set_inv c last now size k v :
  cache_inv (EWorld c last now size) →
  ∃ c', ec_setitem size now k v c = Ok c' ∧ cache_inv (EWorld c' (upd last k (Some v)) now size).
Proof.
  intros [I1 I2 I3 I5 I4]. simpl in *. destruct (evict_inv (ec_with c (od_set k (now, v) (ec_cache c))) (upd last k (Some v)) now size) as (n & Hok & Hinv); simpl.
  - done.
  - by apply od_set_nodup.
  - intros k' t' v' Hi. unfold upd. destruct (od_set_elem _ _ _ _ I2 Hi) as [[= -> -> ->]|[Hne Hi']]; simpl in *; [by rewrite decide_True|].
    rewrite decide_False by done. by apply I3.
  - done.
  - eauto.
Qed.

Lemma getitem_inv c last now size k v c' :
  cache_inv (EWorld c last now size) → ec_getitem now k c = Ok (v, c') → cache_inv (EWorld c' last now size) ∧ last k = Some v.
Proof.
  intros [I1 I2 I3 I5 I4] Hg. unfold ec_getitem in Hg. destruct (od_get k (ec_cache c)) as [[t v']|] eqn:Ek; [|done]. injection Hg as -> <-. simpl in *.
  pose proof (od_get_elem _ _ _ Ek) as Hi. destruct (I3 k t v Hi) as [Hl _]. split; [|done].
  destruct (ec_reset_expiry_on_get c); [|done]. constructor; simpl; [done|by apply od_set_nodup| |done|].
  - intros k' t' v' Hi'. by destruct (od_set_elem _ _ _ _ I2 Hi') as [[= -> -> ->]|[Hne ?]]; [|apply I3].
  - intros [Hn Hb]. apply I4. split; [done|]. unfold ec_len in *. simpl in *.
    destruct (ec_iterable c); [by rewrite (sizes_set_same size k t v) in Hb|by rewrite od_set_length in Hb].
Qed.

Lemma sub_inv c last last' now size l :
  cache_inv (EWorld c last now size) → l `sublist_of` ec_cache c →
  (∀ k t v, (k, (t, v)) ∈ l → last' k = last k) → cache_inv (EWorld (ec_with c l) last' now size).
Proof.
  intros [I1 I2 I3 Hz I4] Hs Hl. simpl in *. constructor; simpl; [done| | |done|].
  - eapply sublist_NoDup; [exact I2|]. by apply sublist_keys.
  - intros k t v Hi. rewrite (Hl _ _ _ Hi). apply I3. by apply (elem_of_submseteq _ _ _ Hi), sublist_submseteq.
  - intros [Hn Hb]. apply I4. split; [done|]. unfold ec_len in *. simpl in *. destruct (ec_iterable c).
    + eapply Z.lt_le_trans; [exact Hb|]. clear -Hs Hz. induction Hs as [|i l1 l2 _ IH|i l1 l2 _ IH]; simpl; [lia|lia|]. specialize (Hz i.2.2). lia.
    + apply sublist_length in Hs. lia.
Qed.

Lemma sublist_of_filter (P : KT * (Z * VT) → Prop) `{∀ x, Decision (P x)} l : filter P l `sublist_of` l.
Proof. induction l as [|i l IH]; [done|]. rewrite filter_cons. case_decide; by constructor. Qed.

Lemma estep_inv w w' : cache_inv w → estep w w' → cache_inv w'.
Proof.
  intros Hw Hs. destruct Hs as [c last now size k v c' E|c last now size k o c' E|c last now size k d v c' E|c last now size k v v' c' E|c last now size
    |c last now size n b c' Hn E|c last now now' size Hle|c last now size size' Hle].
  - destruct (set_inv _ _ _ _ k v Hw) as (c1 & E1 & Hinv). congruence.
  - unfold ec_get in E. destruct (ec_getitem now k c) as [[v c1]|e] eqn:Eg; injection E as <- <-; [|done]. by apply (getitem_inv _ _ _ _ _ _ _ Hw Eg).
  - unfold ec_pop in E. destruct (od_get k (ec_cache c)) as [[t v1]|] eqn:Ek.
    + injection E as <- <-. eapply sub_inv; [exact Hw|apply sublist_of_filter|]. intros k' t' v' [Hne _]%list_elem_of_filter. unfold upd. by rewrite decide_False.
    + destruct d; [|done]. injection E as <- <-. replace c with (ec_with c (ec_cache c)) by (by destruct c). eapply sub_inv; [exact Hw|done|].
      intros k' t' v' Hi. unfold upd. rewrite decide_False; [done|]. intros ->. apply (od_get_Some k (t', v')) in Hi; [congruence|apply Hw].
  - unfold ec_setdefault in E. destruct (ec_getitem now k c) as [[v1 c1]|e] eqn:Eg.
    + injection E as <- <-. destruct (getitem_inv _ _ _ _ _ _ _ Hw Eg) as [Hinv Hl]. replace c1 with (ec_with c1 (ec_cache c1)) by (by destruct c1).
      eapply sub_inv; [exact Hinv|done|]. intros k' t' v' Hi. unfold upd. case_decide; [by subst|done].
    + destruct (set_inv _ _ _ _ k v Hw) as (c1 & E1 & Hinv). rewrite E1 in E. cbn [mbind result_bind] in E. by injection E as <- <-.
  - rewrite ec_prune_cache_eq by apply Hw. eapply sub_inv; [exact Hw|apply sublist_of_filter|done].
  - unfold ec_set_cache_factor in E. case_bool_decide; [by injection E as <- <-|]. destruct Hw as [I1 I2 I3 I5 I4]; simpl in *.
    destruct (evict_inv (MkExpiringCache (ec_original_max_size c) n (ec_expiry_ms c) (ec_reset_expiry_on_get c) (ec_iterable c) (ec_cache c)) last now size Hn I2 I3 I5) as (m & Hok & Hinv).
    rewrite Hok in E. cbn [mbind result_bind] in E. by injection E as <- <-.
  - destruct Hw as [I1 I2 I3 I5 I4]. constructor; simpl in *; try done. intros k t v [? ?]%I3. split; [done|lia].
  - destruct Hw as [I1 I2 I3 I5 I4]. constructor; simpl in *; try done; [intros v; apply Hle|]. intros [Hn Hb]. apply I4. split; [done|]. unfold ec_len in *.
    destruct (ec_iterable c); [|done]. eapply Z.lt_le_trans; [exact Hb|]. apply sizes_mono. intros v. apply Hle.
Qed.

Lemma esteps_inv w w' : cache_inv w → rtc estep w w' → cache_inv w'.
Proof. intros Hw Hs. induction Hs as [|w1 w2 w3 H12 _ IH]; [done|]. by eapply IH, estep_inv. Qed.

(** ** The theorems *)

End cache.

(** ** Examples *)

Definition ec_ex0 : ExpiringCache nat nat := new_ExpiringCache 10 10 1000 true true.
Definition ec_ex1 : ExpiringCache nat nat := unwrap ec_ex0 (ec_setitem Z.of_nat 0 1%nat 7%nat ec_ex0).
Definition ec_ex2 : ExpiringCache nat nat := unwrap ec_ex0 (ec_setitem Z.of_nat 5 2%nat 5%nat ec_ex1).


(** The first item had to go. *)
Example ec_evicted : (ec_cache ec_ex2).*1 = [2%nat].
Proof. reflexivity. Qed.

(** An item that is set again keeps its place: of two items it is the one that goes when a
    third comes, though it was set last. *)
Definition set_all (l : list (nat * nat)) : result (ExpiringCache nat nat) :=
  fold_res (λ c kv, ec_setitem (λ _, 1) 0 kv.1 kv.2 c) l (new_ExpiringCache 2 2 1000 false false).
Example set_again_goes_first : (λ c, (ec_cache c).*1) <$> set_all [(1, 10); (2, 20); (1, 11); (3, 30)]%nat = Ok [2%nat; 3%nat].
Proof. reflexivity. Qed.

(** The second item lives until 1005. *)
Example ec_pruned : ec_cache (ec_prune_cache 1005 ec_ex2) = ec_cache ec_ex2 ∧ ec_cache (ec_prune_cache 1006 ec_ex2) = [].
Proof. split; reflexivity. Qed.
