(* ===== verification/EventContext.v ===== *)
(** * Event contexts: [synapse/events/snapshot.py]

    The two classes of contexts and the functions that turn them into JSON and back; the
    methods that read and write state groups are in [StateHandler].  The JSON object is a
    record with its members, in which lists stand for the lists and tuples of the source;
    the reference to the storage is left out. *)

From S2P Require Import Prelude TopoSort StateGroups.

(** What is used of [ApplicationService]. *)
Record ApplicationService := { as_id : string; as_token : string; as_sender : string }.

(** [for service in self.services_cache: if service.id == as_id: return service] *)
Definition get_app_service_by_id (services_cache : list ApplicationService) (id : string) : option ApplicationService :=
  head (filter (λ s, as_id s = id) services_cache).

Record EventContext := {
  ec_state_group_deltas : gmap (Z * Z) StateMap;
  ec_rejected : option string;
  ec_state_group : option Z;
  ec_state_group_before_event : option Z;
  ec_state_delta_due_to_event : option StateMap;
  ec_app_service : option ApplicationService;
  ec_partial_state : bool
}.

Record UnpersistedEventContext := {
  uc_state_group_before_event : option Z;
  uc_state_group_after_event : option Z;
  uc_state_delta_due_to_event : option StateMap;
  uc_prev_group_for_state_group_before_event : option Z;
  uc_delta_ids_to_state_group_before_event : option StateMap;
  uc_partial_state : bool;
  uc_state_map_before_event : option StateMap
}.

(** Python truth of an optional number, string and map. *)
Definition truthy_int (o : option Z) : bool := match o with Some g => negb (bool_decide (g = 0)) | None => false end.
Definition truthy_str (o : option string) : bool := match o with Some s => negb (bool_decide (s = "")) | None => false end.
Definition truthy_map (o : option StateMap) : bool := match o with Some m => negb (bool_decide (m = ∅)) | None => false end.

Definition with_state (state_group state_group_before_event : option Z) (state_delta_due_to_event : option StateMap)
    (partial_state : bool) (state_group_deltas : gmap (Z * Z) StateMap) : EventContext := {|
  ec_state_group_deltas := state_group_deltas; ec_rejected := None; ec_state_group := state_group;
  ec_state_group_before_event := state_group_before_event; ec_state_delta_due_to_event := state_delta_due_to_event;
  ec_app_service := None; ec_partial_state := partial_state |}.

Definition for_outlier : EventContext := {|
  ec_state_group_deltas := ∅; ec_rejected := None; ec_state_group := None; ec_state_group_before_event := None;
  ec_state_delta_due_to_event := None; ec_app_service := None; ec_partial_state := false |}.

(** The property [state_group]. *)
Definition state_group (c : EventContext) : result (option Z) :=
  raise_if (truthy_str (ec_rejected c)) (PyBuiltin RuntimeError) ;; Ok (ec_state_group c).

(** [state_group_deltas[(g1, g2)] = delta], with the assertion that the delta is known. *)
Definition add_delta (g1 g2 : option Z) (delta : option StateMap) (deltas : gmap (Z * Z) StateMap) : result (gmap (Z * Z) StateMap) :=
  if truthy_int g1 && truthy_int g2 then
    match g1, g2, delta with
    | Some g1, Some g2, Some delta => Ok (<[(g1, g2) := delta]> deltas)
    | _, _, _ => Err (PyBuiltin AssertionError)
    end
  else Ok deltas.

Definition _build_state_group_deltas (c : UnpersistedEventContext) : result (gmap (Z * Z) StateMap) :=
  deltas ← add_delta (uc_state_group_before_event c) (uc_state_group_after_event c) (uc_state_delta_due_to_event c) ∅;
  add_delta (uc_prev_group_for_state_group_before_event c) (uc_state_group_before_event c)
    (uc_delta_ids_to_state_group_before_event c) deltas.

(** ** As JSON *)

Record SerializedContext := {
  sc_state_group : option Z;
  sc_state_group_before_event : option Z;
  sc_rejected : option string;
  sc_state_group_deltas : list (Z * Z * option (list (string * string * string)));
  sc_state_delta_due_to_event : option (list (string * string * string));
  sc_app_service_id : option string;
  (** absent in what older versions sent *)
  sc_partial_state : option bool
}.

Section json.
Context `{IterOrder}.

Definition _encode_state_dict (state_dict : option StateMap) : option (list (string * string * string)) :=
  (λ m : StateMap, (λ kv : (string * string) * string, (kv.1.1, kv.1.2, kv.2)) <$> map_items m) <$> state_dict.

Definition _decode_state_dict (input : option (list (string * string * string))) : option StateMap :=
  (λ l : list (string * string * string), foldl (λ m i, <[(i.1.1, i.1.2) := i.2]> m) ∅ l) <$> input.

Definition _encode_state_group_delta (state_group_delta : gmap (Z * Z) StateMap)
    : list (Z * Z * option (list (string * string * string))) :=
  if bool_decide (state_group_delta = ∅) then []
  else (λ kv : (Z * Z) * StateMap, (kv.1.1, kv.1.2, _encode_state_dict (Some kv.2))) <$> map_items state_group_delta.

Definition _decode_state_group_delta (input : list (Z * Z * option (list (string * string * string))))
    : result (gmap (Z * Z) StateMap) :=
  fold_res (λ deltas i,
    match _decode_state_dict i.2 with
    | Some state_map => Ok (<[(i.1.1, i.1.2) := state_map]> deltas)
    | None => Err (PyBuiltin AssertionError)
    end) input ∅.

Definition serialize (c : EventContext) : SerializedContext := {|
  sc_state_group := ec_state_group c;
  sc_state_group_before_event := ec_state_group_before_event c;
  sc_rejected := ec_rejected c;
  sc_state_group_deltas := _encode_state_group_delta (ec_state_group_deltas c);
  sc_state_delta_due_to_event := _encode_state_dict (ec_state_delta_due_to_event c);
  sc_app_service_id := as_id <$> ec_app_service c;
  sc_partial_state := Some (ec_partial_state c) |}.

Definition deserialize (services_cache : list ApplicationService) (input : SerializedContext) : result EventContext :=
  deltas ← _decode_state_group_delta (sc_state_group_deltas input);
  Ok {|
    ec_state_group_deltas := deltas;
    ec_rejected := sc_rejected input;
    ec_state_group := sc_state_group input;
    ec_state_group_before_event := sc_state_group_before_event input;
    ec_state_delta_due_to_event := _decode_state_dict (sc_state_delta_due_to_event input);
    ec_app_service :=
      match sc_app_service_id input with
      | Some id => if bool_decide (id = "") then None else get_app_service_by_id services_cache id
      | None => None
      end;
    ec_partial_state := default false (sc_partial_state input) |}.
End json.

(** ** Round trips *)

Section roundtrip.
Context `{IterOrderOk}.

(** Filling a dict from the items of a dict, in any order. *)
Lemma insert_items `{Countable K} {A} (l : list (K * A)) (m m0 : gmap K A) :
  (∀ i, i ∈ l → m !! i.1 = Some i.2) →
  ∀ k, foldl (λ m i, <[i.1 := i.2]> m) m0 l !! k = if decide (k ∈ l.*1) then m !! k else m0 !! k.
Proof.
  revert m0. induction l as [|i l IH]; intros m0 Hl k; cbn [foldl]; [by rewrite decide_False by apply not_elem_of_nil|].
  rewrite fmap_cons.
  rewrite IH by (intros i' Hi'; apply Hl; by right). pose proof (Hl i ltac:(by left)) as Hi.
  destruct (decide (k = i.1)) as [->|Hne].
  - rewrite (decide_True (P := i.1 ∈ i.1 :: l.*1)) by (by left). case_decide; [done|]. by rewrite lookup_insert_eq, Hi.
  - rewrite lookup_insert_ne by done. by rewrite (decide_ext (k ∈ i.1 :: l.*1) (k ∈ l.*1)) by (rewrite elem_of_cons; naive_solver).
Qed.

Lemma items_back `{Countable K} {A} (m : gmap K A) : foldl (λ m i, <[i.1 := i.2]> m) (∅ : gmap K A) (map_items m) = m.
Proof.
  apply map_eq. intros k. rewrite (insert_items _ m) by (intros i; apply elem_of_map_items). case_decide as Hk; [done|].
  rewrite lookup_empty. destruct (m !! k) as [a|] eqn:E; [|done]. destruct Hk.
  apply (list_elem_of_fmap_2 fst _ (k, a)). by apply elem_of_map_items.
Qed.

Lemma state_dict_back (o : option StateMap) : _decode_state_dict (_encode_state_dict o) = o.
Proof.
  destruct o as [m|]; [|done]. unfold _decode_state_dict, _encode_state_dict. cbn [fmap option_fmap option_map]. f_equal.
  rewrite <- (items_back m) at 2. generalize (∅ : StateMap). induction (map_items m) as [|[[t k] v] l IH]; intros m0; [done|]. apply IH.
Qed.

Lemma state_group_delta_back d : _decode_state_group_delta (_encode_state_group_delta d) = Ok d.
Proof.
  unfold _decode_state_group_delta, _encode_state_group_delta. case_bool_decide as Hd; [by subst|].
  rewrite <- (items_back d) at 2. generalize (∅ : gmap (Z * Z) StateMap). induction (map_items d) as [|[[g1 g2] m] l IH]; intros m0; [done|].
  cbn [fmap list_fmap fold_res fst snd]. rewrite state_dict_back. cbn [mbind result_bind foldl fst snd]. apply IH.
Qed.

(** The application service is one the server knows, under a name. *)
Definition service_known (services_cache : list ApplicationService) (c : EventContext) : Prop :=
  ∀ s, ec_app_service c = Some s → as_id s ≠ "" ∧ get_app_service_by_id services_cache (as_id s) = Some s.

(** C18: a context that is sent to another worker arrives as it was: [deserialize] undoes
    [serialize], in whatever order the dicts are written, for contexts of application
    services the server knows. *)
Theorem context_roundtrip services_cache c :
  service_known services_cache c → deserialize services_cache (serialize c) = Ok c.
Proof.
  intros Hs. unfold deserialize, serialize. simpl. rewrite state_group_delta_back. cbn [mbind result_bind]. rewrite state_dict_back. f_equal.
  destruct c as [d r g b dl s p]. simpl in *. f_equal. destruct s as [s|]; [|done]. simpl. destruct (Hs s eq_refl) as [Hne Hg].
  by rewrite bool_decide_false.
Qed.
End roundtrip.

(** ** An example *)

Definition ex_services : list ApplicationService := [{| as_id := "irc"; as_token := "t"; as_sender := "@irc:x" |}].
Definition ex_context : EventContext := {|
  ec_state_group_deltas := {[(1, 2) := {[("m.room.name", "") := "$n"]}]}; ec_rejected := None; ec_state_group := Some 2;
  ec_state_group_before_event := Some 1; ec_state_delta_due_to_event := Some {[("m.room.name", "") := "$n"]};
  ec_app_service := head ex_services; ec_partial_state := true |}.

Lemma context_roundtrip_witness : deserialize ex_services (serialize ex_context) = Ok ex_context.
Proof. apply (context_roundtrip ex_services ex_context). intros s [= <-]. split; [done|vm_compute; reflexivity]. Defined.

(** A service that is not registered under its id is lost. *)
Example service_lost : (λ c, ec_app_service c) <$> deserialize [] (serialize ex_context) = Ok None.
Proof. vm_compute. reflexivity. Qed.
