(* ===== verification/StateHandler.v ===== *)
(** * The state handler: [synapse/state/__init__.py]

    [StateHandler] works out the state before and after an event, [StateResolutionHandler]
    resolves the states of several groups and remembers the results, and the methods of
    [synapse/events/snapshot.py] store the state groups of a context.  They work on the
    state store ([StateStore]), through the methods of
    [synapse/storage/controllers/state.py], and on the tables of the main database that
    tell the state group of an event and which events have partial state.

    Cache entries are shared and assigned to: they are addresses in a heap.  A call runs
    without interruption, at the time the clock shows; when it fails, it leaves what it
    had changed.  Waiting for full state is the first thing any call does, so that a call
    that waits has changed nothing and is the same call when it goes on.  State resolution
    itself is an interface, [StateResolver].  Metrics and logging are left out.

    [get_state_group_delta] of the store is cached, and nothing invalidates that cache: it is
    a field here, filled when a group is asked for; that the cache may drop entries is a step
    of the handler's history ([HForget] in [StateHandlerMain]). *)

From S2P Require Import Prelude PyVal Constants RoomVersions Events TopoSort StateFilter StateGroups DictionaryCache StateStore ExpiringCache EventContext.

(** ** Cache entries *)

Record StateCacheEntry := MkEntry {
  e_state : option StateMap;
  e_state_group : option Z;
  e_prev_group : option Z;
  e_delta_ids : option StateMap
}.

Definition new_StateCacheEntry (state : option StateMap) (state_group prev_group : option Z) (delta_ids : option StateMap)
    : result StateCacheEntry :=
  raise_if (bool_decide (state = None) && bool_decide (state_group = None) && bool_decide (prev_group = None))
    (PyException "One of state, state_group or prev_group must be not None") ;;
  raise_if (negb (bool_decide (prev_group = None)) && bool_decide (delta_ids = None))
    (PyException "If prev_group is set so must delta_ids") ;;
  Ok (MkEntry state state_group prev_group delta_ids).

(** The state is dropped, since the store has it now. *)
Definition set_state_group (state_group : Z) (e : StateCacheEntry) : StateCacheEntry :=
  MkEntry None (Some state_group) (e_prev_group e) (e_delta_ids e).

(** [if m: length += len(m)] *)
Definition map_len (o : option StateMap) : Z := match o with Some m => Z.of_nat (size m) | None => 0 end.
Definition entry_len (e : StateCacheEntry) : Z :=
  let length := map_len (e_state e) + map_len (e_delta_ids e) in
  if bool_decide (length = 0) then 1 else length.

(** [len(new_state_event_ids) != len(state)], and the comparison of the sets of ids. *)
Definition exact_match (new_state_event_ids : gset string) (state : StateMap) : bool :=
  if negb (bool_decide (size new_state_event_ids = size state)) then false
  else bool_decide (new_state_event_ids = map_img state).

(** The loop that looks for the closest group. *)
Definition closest_step (new_state : StateMap) (acc : option Z * option StateMap) (group : Z * StateMap) : option Z * option StateMap :=
  let '(old_group, old_state) := group in
  if negb (bool_decide (dom old_state ∖ dom new_state = ∅)) then acc else
  let n_delta_ids : StateMap := filter (λ kv, old_state !! kv.1 ≠ Some kv.2) new_state in
  if negb (truthy_map acc.2) || bool_decide (Z.of_nat (size n_delta_ids) < map_len acc.2) then (Some old_group, Some n_delta_ids) else acc.

Definition _make_state_cache_entry `{IterOrder} (new_state : StateMap) (state_groups_ids : gmap Z StateMap) : result StateCacheEntry :=
  let new_state_event_ids : gset string := map_img new_state in
  match filter (λ gs, exact_match new_state_event_ids gs.2 = true) (map_items state_groups_ids) with
  | (sg, _) :: _ => new_StateCacheEntry None (Some sg) None None
  | [] =>
      let '(prev_group, delta_ids) := foldl (closest_step new_state) (None, None) (map_items state_groups_ids) in
      if negb (bool_decide (prev_group = None)) then new_StateCacheEntry None None prev_group delta_ids
      else new_StateCacheEntry (Some new_state) None None None
  end.

(** ** State and effects *)

(** What is used of the tables of the main database. *)
Record MainTables := MkMain {
  event_to_state_groups : gmap string Z;
  partial_state_events : gset string;
  partial_state_rooms : gset string;
  (** [room_id] to [room_version] *)
  rooms : gmap string string
}.

Record Handler := MkHandler {
  h_store : StateStore;
  h_main : MainTables;
  (** the cache entries that were made *)
  h_heap : list StateCacheEntry;
  (** [_state_cache], with the addresses of its entries *)
  h_cache : ExpiringCache (gset Z) nat;
  h_now : Z;
  (** the cache of [get_state_group_delta] *)
  h_deltas : gmap Z (option (Z * StateMap))
}.

Inductive outcome (A : Type) : Type :=
| Returned (a : A)
| Raised (e : exn)
| Waiting.
Arguments Returned {A} a.
Arguments Raised {A} e.
Arguments Waiting {A}.

Definition HM (A : Type) : Type := Handler → outcome A * Handler.

#[export] Instance HM_ret : MRet HM := λ A a h, (Returned a, h).
#[export] Instance HM_bind : MBind HM := λ A B f m h,
  match m h with
  | (Returned a, h) => f a h
  | (Raised e, h) => (Raised e, h)
  | (Waiting, h) => (Waiting, h)
  end.

Definition lift {A} (r : result A) : HM A := λ h, (match r with Ok a => Returned a | Err e => Raised e end, h).
Definition gets {A} (f : Handler → A) : HM A := λ h, (Returned (f h), h).
Definition set_store (s : StateStore) (h : Handler) : Handler := MkHandler s (h_main h) (h_heap h) (h_cache h) (h_now h) (h_deltas h).
Definition set_main (m : MainTables) (h : Handler) : Handler := MkHandler (h_store h) m (h_heap h) (h_cache h) (h_now h) (h_deltas h).
Definition set_heap (l : list StateCacheEntry) (h : Handler) : Handler := MkHandler (h_store h) (h_main h) l (h_cache h) (h_now h) (h_deltas h).
Definition set_cache (c : ExpiringCache (gset Z) nat) (h : Handler) : Handler := MkHandler (h_store h) (h_main h) (h_heap h) c (h_now h) (h_deltas h).
Definition set_deltas (ds : gmap Z (option (Z * StateMap))) (h : Handler) : Handler := MkHandler (h_store h) (h_main h) (h_heap h) (h_cache h) (h_now h) ds.

(** A method of the state store; when it fails its transaction is rolled back. *)
Definition store_op {A} (f : StateStore → result (A * StateStore)) : HM A := λ h,
  match f (h_store h) with
  | Ok (a, s) => (Returned a, set_store s h)
  | Err e => (Raised e, h)
  end.

(** A new cache entry, and the entry at an address. *)
Definition alloc (e : StateCacheEntry) : HM nat := λ h, (Returned (length (h_heap h)), set_heap (h_heap h ++ [e]) h).
Definition no_entry : StateCacheEntry := MkEntry None None None None.
Definition entry_at (h : Handler) (r : nat) : StateCacheEntry := default no_entry (h_heap h !! r).
Definition entry_set_state_group (r : nat) (g : Z) : HM unit := λ h,
  (Returned tt, set_heap (<[r := set_state_group g (entry_at h r)]> (h_heap h)) h).

(** Resolution of state sets, for a room of a version. *)
Class StateResolver := resolve_state : string → string → list StateMap → result StateMap.

Definition EVICTION_TIMEOUT_SECONDS : Z := 60 * 60.

(** The handler of a server that starts; [scaled] is the size of the cache after scaling. *)
Definition new_Handler (factor : Z → Z) (scaled : Z) (db : sgdb) (t : MainTables) (now : Z) : Handler :=
  MkHandler (new_StateStore factor db) t [] (new_ExpiringCache 100000 scaled (EVICTION_TIMEOUT_SECONDS * 1000) true true) now ∅.

Section handler.
Context `{IterOrder, StateResolver} (engine : DatabaseEngine) (main : nat) (is_mine_id : string → bool).

(** ** [StateStorageController] *)

Definition get_state_for_groups (groups : list Z) (state_filter : option StateFilter) : HM (gmap Z StateMap) :=
  store_op (_get_state_for_groups engine main groups (default all state_filter)).

Definition get_state_ids_for_group (state_group : Z) (state_filter : option StateFilter) : HM StateMap :=
  group_to_state ← get_state_for_groups [state_group] state_filter;
  lift (match group_to_state !! state_group with Some s => Ok s | None => Err (PyBuiltin KeyError) end).

Definition ctrl_store_state_group (event_id room_id : string) (prev_group : option Z) (delta_ids current_state_ids : option StateMap) : HM Z :=
  store_op (store_state_group engine main event_id room_id prev_group delta_ids current_state_ids).

(** [StateGroupDataStore.get_state_group_delta], through its cache. *)
Definition get_state_group_delta (state_group : Z) : HM (option (Z * StateMap)) := λ h,
  match h_deltas h !! state_group with
  | Some r => (Returned r, h)
  | None =>
      let r := _get_state_group_delta_txn state_group (st_db (h_store h)) in
      (Returned r, set_deltas (<[state_group := r]> (h_deltas h)) h)
  end.

Definition ctrl_get_state_group_delta (state_group : Z) : HM (option Z * option StateMap) :=
  r ← get_state_group_delta state_group;
  mret (fst <$> r, snd <$> r).

(** [{e_id: e_id in partial for e_id in event_ids}] *)
Definition get_partial_state_events (event_ids : list string) : HM (gmap string bool) :=
  gets (λ h, list_to_map ((λ e, (e, bool_decide (e ∈ partial_state_events (h_main h)))) <$> event_ids)).

Definition await_full_state (event_ids : list string) : HM unit := λ h,
  if bool_decide (Exists (λ e, e ∈ partial_state_events (h_main h)) event_ids) then (Waiting, h) else (Returned tt, h).

Definition _get_state_group_for_events (event_ids : list string) : HM (gmap string Z) := λ h,
  lift (fold_res (λ (res : gmap string Z) e,
    match event_to_state_groups (h_main h) !! e with
    | Some g => Ok (<[e := g]> res)
    | None => Err (PyBuiltin RuntimeError)
    end) event_ids ∅) h.

Definition get_state_group_for_events (event_ids : list string) (await : bool) : HM (gmap string Z) :=
  (if await then await_full_state event_ids else mret tt) ;;
  _get_state_group_for_events event_ids.

(** [await_full_state and state_filter and not state_filter.must_await_full_state(...)] *)
Definition still_await (await : bool) (state_filter : option StateFilter) : bool :=
  match state_filter with
  | Some f => if await && negb (must_await_full_state f is_mine_id) then false else await
  | None => await
  end.

(** [event_to_state[event]], where [event_to_state] maps to [group_to_state[group]] *)
Definition add_event_state (event_to_groups : gmap string Z) (group_to_state : gmap Z StateMap) (res : gmap string StateMap) (event : string)
    : result (gmap string StateMap) :=
  match event_to_groups !! event ≫= λ g, group_to_state !! g with
  | Some s => Ok (<[event := s]> res)
  | None => Err (PyBuiltin KeyError)
  end.

Definition get_state_ids_for_events (event_ids : list string) (state_filter : option StateFilter) (await : bool) : HM (gmap string StateMap) :=
  event_to_groups ← get_state_group_for_events event_ids (still_await await state_filter);
  let groups : gset Z := map_img event_to_groups in
  group_to_state ← store_op (_get_state_for_groups engine main (set_iter groups) (default all state_filter));
  lift (fold_res (add_event_state event_to_groups group_to_state) event_ids ∅).

(** ** Resolution *)

(** [_StateCacheEntry.get_state] *)
Definition get_state (r : nat) (state_filter : option StateFilter) : HM StateMap :=
  entry ← gets (λ h, entry_at h r);
  match e_state entry, e_state_group entry, e_prev_group entry, e_delta_ids entry with
  | Some s, _, _, _ => mret s
  | None, Some g, _, _ => get_state_ids_for_group g state_filter
  | None, None, Some prev_group, Some delta_ids =>
      prev_state ← get_state_ids_for_group prev_group state_filter;
      mret (delta_ids ∪ prev_state)
  | _, _, _, _ => lift (Err (PyBuiltin AssertionError))
  end.

(** [self._state_cache.get(group_names, None)]; [if cache:] is true when its length is
    not zero. *)
Definition state_cache_get (group_names : gset Z) : HM (option nat) := λ h,
  let '(o, c) := ec_get (h_now h) group_names (h_cache h) in
  (Returned (match o with Some r => if bool_decide (entry_len (entry_at h r) = 0) then None else Some r | None => None end), set_cache c h).

(** [self._state_cache[group_names] = cache] *)
Definition state_cache_set (group_names : gset Z) (r : nat) : HM unit := λ h,
  match ec_setitem (λ r, entry_len (entry_at h r)) (h_now h) group_names r (h_cache h) with
  | Ok c => (Returned tt, set_cache c h)
  | Err e => (Raised e, h)
  end.

Definition resolve_state_groups (room_id room_version : string) (state_groups_ids : gmap Z StateMap) : HM nat :=
  let group_names := dom state_groups_ids in
  cache ← state_cache_get group_names;
  match cache with
  | Some r => mret r
  | None =>
      new_state ← lift (resolve_state room_id room_version (map_items state_groups_ids).*2);
      cache ← lift (_make_state_cache_entry new_state state_groups_ids);
      r ← alloc cache;
      state_cache_set group_names r ;;
      mret r
  end.

Definition get_room_version_id (room_id : string) : HM string := λ h,
  lift (match rooms (h_main h) !! room_id with
    | Some v => Ok v
    | None => Err (SynapseError 404 "Could not find room_version for %s" "M_NOT_FOUND")
    end) h.

Definition resolve_state_groups_for_events (room_id : string) (event_ids : list string) (await : bool) : HM nat :=
  state_groups ← get_state_group_for_events event_ids await;
  let state_group_ids_set : gset Z := map_img state_groups in
  match elements state_group_ids_set with
  | [state_group_id] =>
      '(prev_group, delta_ids) ← ctrl_get_state_group_delta state_group_id;
      e ← lift (new_StateCacheEntry None (Some state_group_id) prev_group delta_ids);
      alloc e
  | [] => e ← lift (new_StateCacheEntry (Some ∅) None None None); alloc e
  | _ =>
      room_version ← get_room_version_id room_id;
      state_to_resolve ← get_state_for_groups (set_iter state_group_ids_set) None;
      resolve_state_groups room_id room_version state_to_resolve
  end.

Definition compute_state_after_events (room_id : string) (event_ids : list string) (state_filter : option StateFilter) (await : bool) : HM StateMap :=
  ret ← resolve_state_groups_for_events room_id event_ids (still_await await state_filter);
  get_state ret state_filter.

(** ** Contexts *)

(** What is known of the state before an event. *)
Record StateBefore := {
  sb_group : option Z;
  sb_prev_group : option Z;
  sb_deltas : option StateMap;
  sb_state_ids : option StateMap;
  sb_partial : bool;
  sb_entry : option nat
}.

(** The state across the prev events, with a state group. *)
Definition resolve_state_before (e : Event) : HM StateBefore :=
  incomplete_prev_events ← get_partial_state_events (prev_event_ids e);
  let partial_state := existsb snd (map_to_list incomplete_prev_events) in
  r ← resolve_state_groups_for_events (room_id e) (prev_event_ids e) false;
  entry ← gets (λ h, entry_at h r);
  let prev_group := e_prev_group entry in
  let deltas := e_delta_ids entry in
  match e_state_group entry with
  | Some g => mret {| sb_group := Some g; sb_prev_group := prev_group; sb_deltas := deltas; sb_state_ids := None;
                      sb_partial := partial_state; sb_entry := Some r |}
  | None =>
      state_ids ← (match prev_group with None => m ← get_state r (Some all); mret (Some m) | Some _ => mret None end);
      g ← ctrl_store_state_group (event_id e) (room_id e) prev_group deltas state_ids;
      entry_set_state_group r g ;;
      mret {| sb_group := Some g; sb_prev_group := prev_group; sb_deltas := deltas; sb_state_ids := state_ids;
              sb_partial := partial_state; sb_entry := Some r |}
  end.

Definition state_before (e : Event) (state_ids_before_event : option StateMap) (partial_state : option bool)
    (state_group_before_event : option Z) : HM StateBefore :=
  if truthy_map state_ids_before_event then
    match partial_state with
    | Some p => mret {| sb_group := state_group_before_event; sb_prev_group := None; sb_deltas := None;
                        sb_state_ids := state_ids_before_event; sb_partial := p; sb_entry := None |}
    | None => lift (Err (PyBuiltin AssertionError))
    end
  else
    match partial_state with
    | Some _ => lift (Err (PyBuiltin AssertionError))
    | None => resolve_state_before e
    end.

(** The event that had the key before. *)
Definition replaced_event (key : string * string) (b : StateBefore) : HM (option string) :=
  match sb_state_ids b, sb_entry b with
  | Some m, _ => mret (m !! key)
  | None, Some r => m ← get_state r (Some (from_types [(key.1, Some key.2)])); mret (m !! key)
  | None, None => lift (Err (PyBuiltin NameError))
  end.

(** The context, and what [event.unsigned["replaces_state"]] is set to. *)
Definition calculate_context_info (e : Event) (is_outlier : bool) (state_ids_before_event : option StateMap)
    (partial_state : option bool) (state_group_before_event : option Z) : HM (UnpersistedEventContext * option string) :=
  lift (raise_if is_outlier (PyBuiltin AssertionError)) ;;
  b ← state_before e state_ids_before_event partial_state state_group_before_event;
  match get_state_key e with
  | None =>
      mret ({| uc_state_group_before_event := sb_group b; uc_state_group_after_event := sb_group b;
               uc_state_delta_due_to_event := Some ∅; uc_prev_group_for_state_group_before_event := sb_prev_group b;
               uc_delta_ids_to_state_group_before_event := sb_deltas b; uc_partial_state := sb_partial b;
               uc_state_map_before_event := sb_state_ids b |}, None)
  | Some k =>
      let key := (type e, k) in
      replaces ← replaced_event key b;
      let replaces_state := if truthy_str replaces && negb (bool_decide (replaces = Some (event_id e))) then replaces else None in
      mret ({| uc_state_group_before_event := sb_group b; uc_state_group_after_event := None;
               uc_state_delta_due_to_event := Some {[key := event_id e]}; uc_prev_group_for_state_group_before_event := sb_prev_group b;
               uc_delta_ids_to_state_group_before_event := sb_deltas b; uc_partial_state := sb_partial b;
               uc_state_map_before_event := sb_state_ids b |}, replaces_state)
  end.

(** [UnpersistedEventContext.persist] *)
Definition persist (e : Event) (c : UnpersistedEventContext) : HM EventContext :=
  before ← (match uc_state_group_before_event c with
    | Some g => mret g
    | None =>
        lift (raise_if (negb (truthy_map (uc_state_map_before_event c))) (PyBuiltin AssertionError)) ;;
        ctrl_store_state_group (event_id e) (room_id e) (uc_prev_group_for_state_group_before_event c)
          (uc_delta_ids_to_state_group_before_event c) (uc_state_map_before_event c)
    end);
  after ← (if truthy_map (uc_state_delta_due_to_event c)
    then ctrl_store_state_group (event_id e) (room_id e) (Some before) (uc_state_delta_due_to_event c) None
    else mret before);
  deltas ← lift (_build_state_group_deltas {|
    uc_state_group_before_event := Some before; uc_state_group_after_event := Some after;
    uc_state_delta_due_to_event := uc_state_delta_due_to_event c;
    uc_prev_group_for_state_group_before_event := uc_prev_group_for_state_group_before_event c;
    uc_delta_ids_to_state_group_before_event := uc_delta_ids_to_state_group_before_event c;
    uc_partial_state := uc_partial_state c; uc_state_map_before_event := uc_state_map_before_event c |});
  mret (with_state (Some after) (Some before) (uc_state_delta_due_to_event c) (uc_partial_state c) deltas).

Definition compute_event_context (e : Event) (is_outlier : bool) (state_ids_before_event : option StateMap) (partial_state : option bool)
    : HM EventContext :=
  unpersisted ← calculate_context_info e is_outlier state_ids_before_event partial_state None;
  persist e unpersisted.1.

(** [UnpersistedEventContext.get_prev_state_ids] *)
Definition unpersisted_get_prev_state_ids (c : UnpersistedEventContext) (state_filter : option StateFilter) : HM StateMap :=
  if truthy_map (uc_state_map_before_event c) then lift (Ok (default ∅ (uc_state_map_before_event c)))
  else
    match uc_state_group_before_event c with
    | Some g => get_state_ids_for_group g state_filter
    | None => lift (Err (PyBuiltin AssertionError))
    end.

(** [EventContext.get_prev_state_ids] *)
Definition get_prev_state_ids (c : EventContext) (state_filter : option StateFilter) : HM StateMap :=
  match ec_state_group_before_event c with
  | Some g => get_state_ids_for_group g state_filter
  | None => lift (Err (PyBuiltin AssertionError))
  end.

Definition get_current_state_ids (c : EventContext) (state_filter : option StateFilter) : HM StateMap :=
  lift (raise_if (truthy_str (ec_rejected c)) (PyBuiltin RuntimeError)) ;;
  match ec_state_delta_due_to_event c with
  | None => lift (Err (PyBuiltin AssertionError))
  | Some delta =>
      prev_state_ids ← get_prev_state_ids c state_filter;
      mret (if bool_decide (delta = ∅) then prev_state_ids else delta ∪ prev_state_ids)
  end.

(** ** Events in the main database *)

(** The state group an event is given: that of its predecessor when it is rejected. *)
Definition mapped_group (c : EventContext) : result (option Z) :=
  if truthy_str (ec_rejected c) then Ok (ec_state_group_before_event c) else state_group c.

(** The row of [event_to_state_groups], a column that is not NULL. *)
Definition upsert_state_group (id : string) (g : option Z) (t : MainTables) : result MainTables :=
  match g with
  | Some g => Ok (MkMain (<[id := g]> (event_to_state_groups t)) (partial_state_events t) (partial_state_rooms t) (rooms t))
  | None => Err IntegrityError
  end.

(** A row of [partial_state_events]: the room must be in [partial_state_rooms], and an
    event can be there once. *)
Definition PartialStateConflictError : exn := SynapseError 409 "Cannot persist partial state event in un-partial stated room" "M_UNKNOWN".
Definition insert_partial_state_event (room id : string) (t : MainTables) : result MainTables :=
  if bool_decide (room ∈ partial_state_rooms t) && negb (bool_decide (id ∈ partial_state_events t))
  then Ok (MkMain (event_to_state_groups t) (partial_state_events t ∪ {[id]}) (partial_state_rooms t) (rooms t))
  else Err PartialStateConflictError.

(** [_store_event_state_mappings_txn], with whether each event is an outlier. *)
Definition _store_event_state_mappings_txn (l : list (Event * bool * EventContext)) (t : MainTables) : result MainTables :=
  groups ← fold_res (λ (groups : list (string * option Z)) (ec : Event * bool * EventContext),
    let '(e, is_outlier, c) := ec in
    if is_outlier : bool then raise_if (ec_partial_state c) (PyBuiltin ValueError) ;; Ok groups
    else g ← mapped_group c; Ok (groups ++ [(event_id e, g)])) l [];
  t ← fold_res (λ t (ec : Event * bool * EventContext),
    if ec_partial_state ec.2 then insert_partial_state_event (room_id ec.1.1) (event_id ec.1.1) t else Ok t) l t;
  fold_res (λ t (ig : string * option Z), upsert_state_group ig.1 ig.2 t) groups t.

(** [_update_state_for_partial_state_event_txn]: the state group is set where the event is
    known; the row of [partial_state_events] must be there. *)
Definition _update_state_for_partial_state_event_txn (e : Event) (is_outlier : bool) (c : EventContext) (t : MainTables) : result MainTables :=
  raise_if is_outlier (PyBuiltin AssertionError) ;;
  g ← mapped_group c;
  t ← (if bool_decide (event_id e ∈ dom (event_to_state_groups t)) then upsert_state_group (event_id e) g t else Ok t);
  if bool_decide (event_id e ∈ partial_state_events t)
  then Ok (MkMain (event_to_state_groups t) (partial_state_events t ∖ {[event_id e]}) (partial_state_rooms t) (rooms t))
  else Err (SynapseError 404 "No row found" "M_UNKNOWN").

Definition main_op (f : MainTables → result MainTables) : HM unit := λ h,
  match f (h_main h) with Ok t => (Returned tt, set_main t h) | Err e => (Raised e, h) end.

(** [get_referenced_state_groups] *)
Definition get_referenced_state_groups (groups : list Z) (t : MainTables) : gset Z :=
  filter (λ g, g ∈ groups) (map_img (event_to_state_groups t)).
End handler.
