(* ===== verification/StateHandlerProps.v ===== *)
(** * The state handler: cache entries, and what is invariant *)

From S2P Require Import Prelude PyVal Constants RoomVersions Events TopoSort StateFilter StateFilterProps StateGroups StateGroupProps StateGroupWrites CacheStores LruHistory DictionaryCache DictionaryCacheProps StateStore StateStoreProps StateStoreMain ExpiringCache EventContext StateHandler.

(** ** Choosing a group to build on *)

Section keyed.
Context (key_of : string → string * string).

(** Events are in a state under their own key. *)
Definition keyed (m : StateMap) : Prop := ∀ k v, m !! k = Some v → key_of v = k.

Lemma keyed_img m m' : keyed m → keyed m' → map_img (SA := gset string) m = map_img m' → m = m'.
Proof.
  assert (Hsub : ∀ m m', keyed m → keyed m' → map_img (SA := gset string) m = map_img m' → ∀ k v, m !! k = Some v → m' !! k = Some v).
  { intros m1 m2 H1 H2 E k v Hv. assert (Hin : v ∈ map_img (SA := gset string) m1) by (apply elem_of_map_img; eauto).
    rewrite E in Hin. apply elem_of_map_img in Hin as [k' Hk']. rewrite <- (H1 _ _ Hv). by rewrite (H2 _ _ Hk'). }
  intros H1 H2 E. apply map_eq. intros k. apply option_eq. intros v. split; by apply Hsub.
Qed.

Lemma keyed_maps_union m m' : keyed m → keyed m' → keyed (m ∪ m').
Proof. intros H1 H2 k v [?|[_ ?]]%lookup_union_Some_raw; auto. Qed.
Lemma keyed_singleton k v : key_of v = k → keyed {[k := v]}.
Proof. intros Hk k' v' [<- <-]%lookup_singleton_Some. done. Qed.
Lemma keyed_empty : keyed ∅.
Proof. intros k v. by rewrite lookup_empty. Qed.

(** The changes from an old state that lacks nothing. *)
Definition changes (old new : StateMap) : StateMap := filter (λ kv, old !! kv.1 ≠ Some kv.2) new.

Lemma changes_union old new : dom old ⊆ dom new → changes old new ∪ old = new.
Proof.
  intros Hd. apply map_eq. intros k. unfold changes. rewrite lookup_union, map_lookup_filter. destruct (new !! k) as [v|] eqn:En; simpl.
  - destruct (decide (old !! k = Some v)) as [E|E]; [rewrite option_guard_False by naive_solver; by rewrite E|].
    rewrite option_guard_True by done. by destruct (old !! k).
  - destruct (old !! k) as [v|] eqn:Eo; [|done]. exfalso. apply (not_elem_of_dom new k); [done|]. apply Hd. by apply elem_of_dom.
Qed.
Lemma changes_empty old new : dom old ⊆ dom new → changes old new = ∅ → old = new.
Proof. intros Hd E. pose proof (changes_union old new Hd) as Hu. by rewrite E, (left_id_L ∅ (∪)) in Hu. Qed.

(** A group the new state can be built on, with the changes. *)
Definition candidate (new : StateMap) (l : list (Z * StateMap)) (p : Z) (d : StateMap) : Prop :=
  ∃ m, (p, m) ∈ l ∧ dom m ⊆ dom new ∧ d = changes m new.

(** What the loop has found: the first of the candidates with the fewest changes. *)
Definition closest (new : StateMap) (l : list (Z * StateMap)) (acc : option Z * option StateMap) : Prop :=
  match acc with
  | (Some p, Some d) => candidate new l p d ∧ ∀ p' d', candidate new l p' d' → (size d ≤ size d')%nat
  | (None, None) => ∀ p d, ¬ candidate new l p d
  | _ => False
  end.

Lemma closest_step_eq new acc g m :
  closest_step new acc (g, m) =
    if decide (dom m ⊆ dom new) then
      match acc.2 with
      | Some d => if decide (d = ∅ ∨ (size (changes m new) < size d)%nat) then (Some g, Some (changes m new)) else acc
      | None => (Some g, Some (changes m new))
      end
    else acc.
Proof.
  unfold closest_step. fold (changes m new). case_bool_decide as Hd; simpl; cycle 1.
  { rewrite decide_False; [done|]. intros Hs. apply Hd. by apply subseteq_empty_difference_L. }
  rewrite decide_True; [|intros k Hk; destruct (decide (k ∈ dom new)); [done|]; exfalso; apply (not_elem_of_empty (C := gset (string * string)) k); rewrite <- Hd; set_solver].
  destruct acc as [o [d|]]; simpl; [|done]. destruct (decide (d = ∅)) as [E|E].
  - rewrite (bool_decide_true (d = ∅)), decide_True by (done || by left). done.
  - rewrite (bool_decide_false (d = ∅)) by done. simpl. case_bool_decide; [rewrite decide_True by (right; lia)|rewrite decide_False by (intros [|]; [done|lia])]; done.
Qed.

Lemma closest_loop new l :
  (∀ g m, (g, m) ∈ l → m ≠ new) → closest new l (foldl (closest_step new) (None, None) l).
Proof.
  intros Hne. assert (Hgen : ∀ l2 l1 acc, (∀ g m, (g, m) ∈ l2 → m ≠ new) → (∀ d, acc.2 = Some d → d ≠ ∅) → closest new l1 acc →
    closest new (l1 ++ l2) (foldl (closest_step new) acc l2)); [|by apply (Hgen l [] (None, None)); [done|done|intros p d (m & ?%not_elem_of_nil & _)]].
  induction l2 as [|[g m] l2 IH]; intros l1 acc Hn Ha Hc; [by rewrite app_nil_r|]. cbn [foldl]. rewrite (cons_middle (g, m) l1 l2), (assoc_L (++)).
  assert (Hn2 : ∀ g m, (g, m) ∈ l2 → m ≠ new) by (intros ? ? ?; apply (Hn g0); by right).
  assert (Hsplit : ∀ p d, candidate new (l1 ++ [(g, m)]) p d ↔ candidate new l1 p d ∨ p = g ∧ dom m ⊆ dom new ∧ d = changes m new).
  { intros p d. unfold candidate. setoid_rewrite elem_of_app. setoid_rewrite list_elem_of_singleton. naive_solver. }
  rewrite closest_step_eq. destruct (decide (dom m ⊆ dom new)) as [Hd|Hd]; cycle 1.
  { apply IH; [done|done|]. destruct acc as [[p|] [d|]]; simpl in *; try done.
    - destruct Hc as [Hc Hmin]. split; [apply Hsplit; by left|]. intros p' d' [Hx|(_ & ? & _)]%Hsplit; [by eapply Hmin|done].
    - intros p d [Hx|(_ & ? & _)]%Hsplit; [by eapply Hc|done]. }
  assert (Hnew : changes m new ≠ ∅) by (intros E%(changes_empty m new Hd); by apply (Hn g m); [left|]).
  apply IH; [done| |].
  - destruct acc as [o [d|]]; simpl in *; [|by intros ? [= <-]]. case_decide; [by intros ? [= <-]|done].
  - destruct acc as [[p|] [d|]]; simpl in Hc; try done; cbn [snd].
    + specialize (Ha d eq_refl). destruct Hc as [Hc Hmin]. case_decide as Hlt.
      * split; [apply Hsplit; by right|]. intros p' d' [Hx%Hmin|(_ & _ & ->)]%Hsplit; [|lia]. destruct Hlt as [->|]; [done|lia].
      * split; [apply Hsplit; by left|]. intros p' d' [Hx%Hmin|(_ & _ & ->)]%Hsplit; [lia|]. destruct (decide (size (changes m new) < size d)%nat); [|lia]. destruct Hlt. by right.
    + split; [apply Hsplit; by right|]. intros p' d' [Hx%Hc|(_ & _ & ->)]%Hsplit; [done|lia].
Qed.

Lemma keyed_size new : keyed new → size (map_img (SA := gset string) new) = size new.
Proof.
  induction new as [|k v m Hk IH] using map_ind; intros Hn; [by rewrite map_img_empty_L, size_empty|].
  assert (Hm : keyed m). { intros k' v' Hv. apply Hn. rewrite lookup_insert_ne; [done|]. intros ->. congruence. }
  assert (Hv : v ∉ map_img (SA := gset string) m).
  { intros [k' Hk']%elem_of_map_img. pose proof (Hm _ _ Hk') as E. rewrite (Hn k v) in E by apply lookup_insert_eq. congruence. }
  rewrite map_img_insert_notin_L, size_union, size_singleton, IH, map_size_insert_None by (done || set_solver). done.
Qed.

Lemma keyed_exact new m : keyed new → keyed m → exact_match (map_img new) m = true ↔ m = new.
Proof.
  intros Hn Hm. unfold exact_match. rewrite keyed_size by done. split.
  - case_bool_decide; simpl; [|done]. intros E%bool_decide_eq_true. by apply keyed_img.
  - intros ->. by rewrite !bool_decide_true.
Qed.

(** What the entry for a resolved state stands for. *)
Lemma make_entry_ok `{IterOrderOk} (new : StateMap) (groups : gmap Z StateMap) :
  keyed new → (∀ g m, groups !! g = Some m → keyed m) →
  ∃ e, _make_state_cache_entry new groups = Ok e ∧
    ((∃ g, e = MkEntry None (Some g) None None ∧ groups !! g = Some new) ∨
     (∃ p m d, e = MkEntry None None (Some p) (Some d) ∧ groups !! p = Some m ∧ d ∪ m = new ∧ (∀ g, groups !! g ≠ Some new) ∧
       ∀ p' m', groups !! p' = Some m' → dom m' ⊆ dom new → (size d ≤ size (changes m' new))%nat) ∨
     (e = MkEntry (Some new) None None None ∧ ∀ g m, groups !! g = Some m → ¬ dom m ⊆ dom new)).
Proof.
  intros Hn Hg. unfold _make_state_cache_entry. destruct (filter _ (map_items groups)) as [|[g m] l] eqn:Ef.
  - assert (Hno : ∀ g m, (g, m) ∈ map_items groups → m ≠ new).
    { intros g m Hi ->. apply (not_elem_of_nil (g, new)). rewrite <- Ef. apply list_elem_of_filter. split; [|done].
      apply keyed_exact; [done| |done]. apply elem_of_map_items in Hi. by eapply Hg. }
    pose proof (closest_loop new (map_items groups) Hno) as Hc. destruct (foldl _ _ _) as [[p|] [d|]]; simpl in Hc; try done.
    + destruct Hc as [(m & Hi%elem_of_map_items & Hd & ->) Hmin]. eexists. split; [done|]. right. left. exists p, m, (changes m new).
      split_and!; [done|done|by apply changes_union|intros g Hgn; by apply (Hno g new); [apply elem_of_map_items|]|].
      intros p' m' Hp' Hd'. apply (Hmin p'). exists m'. by rewrite elem_of_map_items.
    + eexists. split; [done|]. right. right. split; [done|]. intros g m Hm Hd. apply (Hc g (changes m new)). exists m. by rewrite elem_of_map_items.
  - assert (Hi : (g, m) ∈ filter (λ gs : Z * StateMap, exact_match (map_img new) gs.2 = true) (map_items groups)) by (rewrite Ef; by left).
    apply list_elem_of_filter in Hi as [Hx Hi%elem_of_map_items]. apply keyed_exact in Hx; [|done|by eapply Hg]. simpl in *. subst m.
    eexists. split; [done|]. left. by exists g.
Qed.
End keyed.

(** ** The invariant *)

Section inv.
Context `{IterOrderOk, StateResolver} (engine : DatabaseEngine) (main : nat).
(** The key of an event, and its room. *)
Context (key_of : string → string * string) (event_room : string → string).

Abbreviation keyed := (keyed key_of).

Definition h_db (h : Handler) : sgdb := st_db (h_store h).
Definition group_room (h : Handler) (g : Z) : option string := fst <$> state_groups (h_db h) !! g.

(** A group that is there, of a room. *)
Definition there (purged : gset Z) (h : Handler) (room : string) (g : Z) : Prop :=
  live purged (h_store h) g ∧ group_room h g = Some room.

(** The state that the groups resolve to, in some order. *)
Definition resolution (h : Handler) (room : string) (gs : gset Z) (s : StateMap) : Prop :=
  ∃ ver l, rooms (h_main h) !! room = Some ver ∧ l ≡ₚ elements gs ∧ resolve_state room ver (full_state (h_db h) <$> l) = Ok s.

(** An entry that stands for a state of a room. *)
Record entry_ok (purged : gset Z) (h : Handler) (room : string) (e : StateCacheEntry) (s : StateMap) : Prop := {
  eo_state m : e_state e = Some m → m = s;
  eo_group g : e_state_group e = Some g → there purged h room g ∧ full_state (h_db h) g = s;
  eo_prev p : e_prev_group e = Some p → 0 < p ≤ seq_gen (h_db h) ∧ ∃ d, e_delta_ids e = Some d ∧ (p ∉ purged → d ∪ full_state (h_db h) p = s);
  eo_some : e_state e = None → e_state_group e = None → is_Some (e_prev_group e);
  eo_there p : e_state_group e = None → e_prev_group e = Some p → there purged h room p;
  eo_keyed : keyed s
}.

(** An entry of the cache also keeps the group below it. *)
Definition cached_ok (purged : gset Z) (h : Handler) (room : string) (gs : gset Z) (r : nat) : Prop :=
  ∃ e s, h_heap h !! r = Some e ∧ (∀ g, g ∈ gs → there purged h room g) ∧ resolution h room gs s ∧
    entry_ok purged h room e s ∧ (∀ p, e_prev_group e = Some p → there purged h room p).

Definition entry_size (h : Handler) (r : nat) : Z := entry_len (entry_at h r).

(** What the cache of deltas says of a group holds while the group and the one it was a
    difference to are there. *)
Definition delta_ok (purged : gset Z) (h : Handler) (g : Z) (r : option (Z * StateMap)) : Prop :=
  g ≤ seq_gen (h_db h) ∧
  ((g ∉ purged) → ∀ p d, r = Some (p, d) →
    0 < p ≤ seq_gen (h_db h) ∧ ((p ∉ purged) → full_state (h_db h) g = d ∪ full_state (h_db h) p)).

Record hinv (purged : gset Z) (h : Handler) : Prop := {
  hi_life : life_ok main (purged, h_store h);
  hi_events ev g : event_to_state_groups (h_main h) !! ev = Some g → there purged h (event_room ev) g;
  hi_keyed g : live purged (h_store h) g → keyed (full_state (h_db h) g);
  (** each entry is of one room *)
  hi_cached : ∃ owner, ∀ gs t r, (gs, (t, r)) ∈ ec_cache (h_cache h) → cached_ok purged h (owner r) gs r;
  hi_cache : ∃ last, cache_inv (EWorld (h_cache h) last (h_now h) (entry_size h));
  hi_deltas g r : h_deltas h !! g = Some r → delta_ok purged h g r
}.

Lemma hi_store purged h : hinv purged h → store_ok main purged (h_store h).
Proof. intros Hh. apply (hi_life _ _ Hh). Qed.
Lemma hi_wf purged h : hinv purged h → wf (h_db h).
Proof. intros Hh. apply (so_wf _ _ _ (hi_store _ _ Hh)). Qed.

(** What is kept when groups are added. *)
Record grows (h h' : Handler) : Prop := {
  gr_main : h_main h' = h_main h;
  gr_now : h_now h' = h_now h;
  gr_seq : seq_gen (h_db h) ≤ seq_gen (h_db h');
  gr_state g : g ≤ seq_gen (h_db h) → full_state (h_db h') g = full_state (h_db h) g;
  gr_row g : is_Some (state_groups (h_db h) !! g) → state_groups (h_db h') !! g = state_groups (h_db h) !! g
}.

Lemma grows_refl h : grows h h.
Proof. by constructor. Qed.
Lemma live_grows purged h h' g : grows h h' → live purged (h_store h) g → live purged (h_store h') g.
Proof. intros Hg [Hr Hn]. pose proof (gr_seq _ _ Hg). split; [unfold h_db in *; lia|done]. Qed.
Lemma grows_trans h1 h2 h3 : grows h1 h2 → grows h2 h3 → grows h1 h3.
Proof.
  intros G1 G2. constructor.
  - rewrite (gr_main _ _ G2). apply G1.
  - rewrite (gr_now _ _ G2). apply G1.
  - pose proof (gr_seq _ _ G1). pose proof (gr_seq _ _ G2). lia.
  - intros g Hg. rewrite (gr_state _ _ G2); [by apply G1|]. pose proof (gr_seq _ _ G1). lia.
  - intros g Hg. rewrite (gr_row _ _ G2); [by apply G1|]. by rewrite (gr_row _ _ G1).
Qed.

Lemma there_grows purged h h' room g : grows h h' → there purged h room g → there purged h' room g.
Proof.
  intros G [Hl Hr]. split; [by eapply live_grows|]. unfold group_room in *. rewrite (gr_row _ _ G); [done|].
  by destruct (state_groups (h_db h) !! g).
Qed.
Lemma entry_grows purged h h' room e s : grows h h' → entry_ok purged h room e s → entry_ok purged h' room e s.
Proof.
  intros G [E1 E2 E3 E4 E5 E6]. pose proof (gr_seq _ _ G) as Hseq. constructor; try done.
  - intros g Hg. destruct (E2 g Hg) as [Ht Hs]. split; [by eapply there_grows|]. rewrite (gr_state _ _ G); [done|]. destruct Ht as [[? _] _]. unfold h_db. lia.
  - intros p Hp'. destruct (E3 p Hp') as (H0p & d & Hd & Hs). split; [lia|]. exists d. split; [done|]. intros Hnp. rewrite (gr_state _ _ G); [auto|lia].
  - intros p Hn Hp'. by eapply there_grows, E5.
Qed.
Lemma delta_grows purged h h' g r : grows h h' → delta_ok purged h g r → delta_ok purged h' g r.
Proof.
  intros G [Hg Hd]. pose proof (gr_seq _ _ G). split; [lia|]. intros Hn p d Hr. destruct (Hd Hn p d Hr) as [Hp Hs].
  split; [lia|]. intros Hnp. rewrite !(gr_state _ _ G) by lia. auto.
Qed.
Lemma resolution_grows purged h h' room gs s :
  grows h h' → (∀ g, g ∈ gs → there purged h room g) → resolution h room gs s → resolution h' room gs s.
Proof.
  intros G Hgs (ver & l & Hv & Hl & Hr). exists ver, l. rewrite (gr_main _ _ G). split_and!; [done|done|].
  rewrite <- Hr. f_equal. apply list_fmap_ext. intros i g Hg. apply (gr_state _ _ G).
  destruct (Hgs g) as [[? _] _]; [apply elem_of_elements; rewrite <- Hl; by eapply list_elem_of_lookup_2|]. unfold h_db. lia.
Qed.
Lemma cached_grows purged h h' room gs r :
  grows h h' → h_heap h' !! r = h_heap h !! r → cached_ok purged h room gs r → cached_ok purged h' room gs r.
Proof.
  intros G Hr (e & s & He & Hgs & Hres & Hok & Hp). exists e, s. rewrite Hr. split_and!; [done| | | |].
  - intros g Hg. eapply there_grows; [done|auto].
  - by eapply resolution_grows.
  - by eapply entry_grows.
  - intros p Hp'. eapply there_grows; [done|auto].
Qed.

(** The invariant of a handler that differs in its store and in entries that are not in
    the cache. *)
Lemma hinv_grows purged h h' :
  hinv purged h → grows h h' → life_ok main (purged, h_store h') → h_cache h' = h_cache h →
  (∀ g, live purged (h_store h') g → keyed (full_state (h_db h') g)) →
  (∀ r e, h_heap h !! r = Some e → h_heap h' !! r = Some e) → h_deltas h' = h_deltas h → hinv purged h'.
Proof.
  intros Hh G Hl Hc Hk Hheap Hds. constructor; [done| |done| | |intros g r; rewrite Hds; intros Hg; eapply delta_grows; [done|by eapply hi_deltas]].
  - intros ev g. rewrite (gr_main _ _ G). intros Hg. eapply there_grows; [done|by eapply hi_events].
  - destruct (hi_cached _ _ Hh) as [owner Ho]. exists owner. intros gs t r. rewrite Hc. intros Hi%Ho. eapply cached_grows; [done| |done].
    destruct Hi as (e & _ & He & _). by rewrite He, (Hheap r e).
  - destruct (hi_cache _ _ Hh) as [last Hi]. exists last. rewrite Hc, (gr_now _ _ G). destruct Hi as [I1 I2 I3 I5 I4]. constructor; try done; simpl in *.
    + intros r. unfold entry_size, entry_len. case_bool_decide; [lia|]. unfold map_len. destruct (e_state _), (e_delta_ids _); lia.
    + assert (Hz : ∀ i, i ∈ ec_cache (h_cache h) → entry_size h' i.2.2 = entry_size h i.2.2).
      { intros [gs [t r]] Hi. destruct (hi_cached _ _ Hh) as [owner Ho]. destruct (Ho _ _ _ Hi) as (e & _ & He & _). unfold entry_size, entry_at. simpl. by rewrite He, (Hheap r e). }
      assert (Hs : ∀ l, (∀ i, i ∈ l → i ∈ ec_cache (h_cache h)) → sizes (entry_size h') l = sizes (entry_size h) l).
      { induction l as [|i l IH]; intros Hl'; [done|]. simpl. rewrite Hz, IH; [done| |]; [intros; apply Hl'; by right|apply Hl'; by left]. }
      unfold too_big, ec_len in *. by rewrite Hs.
Qed.

Lemma hinv_read purged h st' :
  hinv purged h → store_ok main purged st' → st_db st' = h_db h → hinv purged (set_store st' h) ∧ grows h (set_store st' h).
Proof.
  intros Hh Hst Hdb. assert (G : grows h (set_store st' h)) by (constructor; unfold h_db in *; simpl; rewrite ?Hdb; done).
  split; [|done]. destruct (hi_life _ _ Hh) as [_ Hpu].
  eapply hinv_grows; [done|done| |done| |done|done].
  - split; [done|]. intros g Hg. simpl. unfold h_db in Hdb. rewrite Hdb. by apply Hpu.
  - intros g Hg. unfold h_db in *. simpl in *. rewrite Hdb. apply (hi_keyed _ _ Hh). unfold live in *. by rewrite Hdb in Hg.
Qed.

(** Only the store is different. *)
Definition same_entries (h h' : Handler) : Prop := h_heap h' = h_heap h ∧ h_cache h' = h_cache h.

(** ** Reading *)

Lemma get_state_for_groups_ok purged h groups f :
  hinv purged h → canonical (default all f) → Forall (live purged (h_store h)) groups →
  ∃ res h', get_state_for_groups engine main groups f h = (Returned res, h') ∧ hinv purged h' ∧ grows h h' ∧ same_entries h h' ∧ h_db h' = h_db h ∧
    (∀ g, g ∈ groups → res !! g = Some (filter_state (default all f) (full_state (h_db h) g))) ∧ (∀ g, g ∉ groups → res !! g = None).
Proof.
  intros Hh Hf Hg. unfold get_state_for_groups, store_op.
  destruct (get_state_ok engine main purged (h_store h) groups (default all f) (hi_store _ _ Hh) Hf Hg) as (res & st' & -> & Hst & Hdb & Hres & Hno).
  destruct (hinv_read purged h st' Hh Hst Hdb) as [Hinv G]. by exists res, (set_store st' h).
Qed.

Lemma get_state_ids_for_group_ok purged h g f :
  hinv purged h → canonical (default all f) → live purged (h_store h) g →
  ∃ h', get_state_ids_for_group engine main g f h = (Returned (filter_state (default all f) (full_state (h_db h) g)), h') ∧
    hinv purged h' ∧ grows h h' ∧ same_entries h h' ∧ h_db h' = h_db h.
Proof.
  intros Hh Hf Hg. unfold get_state_ids_for_group, mbind, HM_bind.
  destruct (get_state_for_groups_ok purged h [g] f Hh Hf) as (res & h' & -> & Hh' & G & Hheap & Hdb & Hres & _); [by constructor|].
  exists h'. unfold lift. rewrite (Hres g) by (by left). by split_and!.
Qed.

Lemma canonical_all : canonical all.
Proof. intros _ t. done. Qed.

(** The state behind an entry; without a filter, all of it. *)
Lemma entry_get_state_ok purged h r e room s f :
  hinv purged h → canonical (default all f) → h_heap h !! r = Some e → entry_ok purged h room e s →
  ∃ m h', get_state engine main r f h = (Returned m, h') ∧ hinv purged h' ∧ grows h h' ∧ same_entries h h' ∧ h_db h' = h_db h ∧
    (∀ k, matches (default all f) k = true → m !! k = s !! k) ∧ (∀ k v, m !! k = Some v → s !! k = Some v).
Proof.
  intros Hh Hf Hr [E1 E2 E3 E4 E5 E6]. unfold get_state, mbind, HM_bind, gets, entry_at. rewrite Hr. simpl.
  destruct (e_state e) as [m|] eqn:Es; [exists s, h; rewrite (E1 m) by done; split_and!; try done; by apply grows_refl|].
  destruct (e_state_group e) as [g|] eqn:Eg.
  - destruct (E2 g eq_refl) as [[Hl _] <-]. destruct (get_state_ids_for_group_ok purged h g f Hh Hf Hl) as (h' & -> & Hh' & G & Hheap & Hdb).
    eexists _, h'. split_and!; try done; intros k; rewrite lookup_filter_state; [by intros ->|]. intros v. by destruct (matches _ k).
  - destruct (E4 eq_refl eq_refl) as [p Hp]. rewrite Hp. destruct (E3 p Hp) as (H0p & d & Hd & Hs). rewrite Hd.
    destruct (E5 p eq_refl Hp) as [Hl _]. destruct (get_state_ids_for_group_ok purged h p f Hh Hf Hl) as (h' & -> & Hh' & G & Hheap & Hdb).
    eexists _, h'. split; [done|]. rewrite <- (Hs (proj2 Hl)). split_and!; try done; intros k; rewrite !lookup_union_delta, lookup_filter_state.
    + intros ->. done.
    + intros v. destruct (d !! k); [done|]. by destruct (matches _ k).
Qed.

Lemma entry_get_all_ok purged h r e room s :
  hinv purged h → h_heap h !! r = Some e → entry_ok purged h room e s →
  ∃ h', get_state engine main r (Some all) h = (Returned s, h') ∧ hinv purged h' ∧ grows h h' ∧ same_entries h h' ∧ h_db h' = h_db h.
Proof.
  intros Hh Hr He. destruct (entry_get_state_ok purged h r e room s (Some all) Hh canonical_all Hr He) as (m & h' & Hg & Hh' & G & Hheap & Hdb & Hm & _).
  exists h'. split_and!; try done. replace s with m; [done|]. apply map_eq. intros k. by apply Hm.
Qed.
End inv.
