(* ===== verification/StateHandlerThms.v ===== *)
(** * The state handler: what each operation does *)

From S2P Require Import Prelude PyVal Constants RoomVersions Events StateFilter StateFilterProps TopoSort CacheStores LruHistory DictionaryCache DictionaryCacheProps StateGroups StateGroupProps StateGroupWrites StateStore StateStoreProps StateStoreMain ExpiringCache EventContext StateHandler StateHandlerProps.

(** What the handler relies on: resolution puts events under their own keys when the
    states it is given do. *)
Class StateResolverLaws `(StateResolver) (key_of : string → string * string) : Prop :=
  resolve_keyed room ver sets s : Forall (keyed key_of) sets → resolve_state room ver sets = Ok s → keyed key_of s.

Section ops.
Context `{IterOrderOk, HR : StateResolver} (engine : DatabaseEngine) (main : nat).
Context (key_of : string → string * string) (event_room : string → string).
Context `{!StateResolverLaws HR key_of}.

Abbreviation keyed := (keyed key_of).
Abbreviation hinv := (hinv main key_of event_room).
Abbreviation entry_ok := (entry_ok key_of).
Abbreviation cached_ok := (cached_ok key_of).

(** ** Storing *)

Lemma store_group_ok purged h ev room prev delta current s :
  hinv purged h → keyed s →
  match prev with
  | Some p => (∃ room', there purged h room' p) ∧ ∃ d, delta = Some d ∧ d ∪ full_state (h_db h) p = s ∧ (current = None ∨ current = Some s)
  | None => current = Some s
  end →
  ∃ g h', ctrl_store_state_group engine main ev room prev delta current h = (Returned g, h') ∧ hinv purged h' ∧ grows h h' ∧
    same_entries h h' ∧ there purged h' room g ∧ full_state (h_db h') g = s ∧ seq_gen (h_db h) < g.
Proof.
  intros Hh Hk Hpre. destruct (hi_life _ _ _ _ _ Hh) as [Hst Hpu]. simpl in Hst, Hpu. unfold ctrl_store_state_group, store_op.
  destruct (store_state_group_ok engine main purged ev room prev delta current (h_store h) Hst Hpu) as (g & st' & -> & D).
  { destruct prev as [p|]; [|by exists s]. destruct Hpre as ((room' & Hl & Hr) & d & -> & Hs & Hc). split; [done|]. split.
    - unfold group_room, h_db in Hr. by destruct (state_groups _ !! p).
    - exists d. split; [done|]. by destruct Hc as [->| ->]. }
  destruct (sd_id _ _ _ _ _ _ _ _ _ _ D) as [Hg Hseq]. pose proof (sd_groups _ _ _ _ _ _ _ _ _ _ D) as Hrows. pose proof (sd_others _ _ _ _ _ _ _ _ _ _ D) as Hfr.
  pose proof (wf_seq _ (so_wf _ _ _ Hst)) as Hpos. assert (Hs : full_state (st_db st') g = s).
  { destruct (sd_state _ _ _ _ _ _ _ _ _ _ D) as [Hc|(p & d & -> & -> & ->)].
    - destruct prev as [p|]; [destruct Hpre as (_ & d & _ & _ & [->| ->])|]; congruence.
    - by destruct Hpre as (_ & d' & [= <-] & <- & _). }
  assert (G : grows h (set_store st' h)).
  { constructor; unfold h_db; simpl; [done|done|lia| |].
    - intros g' Hl. apply Hfr. lia.
    - intros g' Hg'. rewrite Hrows, lookup_insert_ne; [done|]. intros <-. apply (wf_ids _ (so_wf _ _ _ Hst)) in Hg'. simpl in *. lia. }
  exists g, (set_store st' h). assert (Hlife : life_ok main (purged, st')). { split; [apply D|]. intros g' Hg'%Hpu; simpl in *. lia. }
  split_and!; [done| |done|done| |done|unfold h_db; lia].
  - eapply hinv_grows; [done|done|done|done| |done|done]. intros g' [Hl Hn]. simpl in Hl. destruct (decide (g' = g)) as [->|Hne]; [unfold h_db; simpl; by rewrite Hs|].
    rewrite (gr_state _ _ G) by (unfold h_db; lia). apply (hi_keyed _ _ _ _ _ Hh). split; [lia|done].
  - split; [split; [simpl; lia|intros Hin%Hpu; simpl in *; lia]|]. unfold group_room, h_db. simpl. by rewrite Hrows, lookup_insert_eq.
Qed.

(** ** The cache of resolved states *)

Lemma entry_len_pos e : 0 < entry_len e.
Proof. unfold entry_len. case_bool_decide; [lia|]. unfold map_len in *. destruct (e_state e), (e_delta_ids e); lia. Qed.

Lemma grows_set_cache h c : grows h (set_cache c h).
Proof. by constructor. Qed.

Lemma hinv_set_cache purged h c :
  hinv purged h → (∃ last, cache_inv (EWorld c last (h_now h) (entry_size h))) →
  (∃ owner, ∀ gs t r, (gs, (t, r)) ∈ ec_cache c → cached_ok purged h (owner r) gs r) → hinv purged (set_cache c h).
Proof. intros [I1 I2 I3 I4 I5 I6] Hc [owner Hi]. constructor; [exact I1|exact I2|exact I3| |exact Hc|exact I6]. exists owner. intros gs t r Hg. eapply cached_grows; [apply grows_set_cache|done|by eapply Hi]. Qed.

(** All the keys that lead to an entry are of its room. *)
Definition owned (purged : gset Z) (h : Handler) (room : string) (r : nat) : Prop :=
  ∀ gs t, (gs, (t, r)) ∈ ec_cache (h_cache h) → cached_ok purged h room gs r.

Lemma owned_grows purged h h' room r :
  grows h h' → h_heap h' !! r = h_heap h !! r → h_cache h' = h_cache h → owned purged h room r → owned purged h' room r.
Proof. intros G Hr Hc Ho gs t. rewrite Hc. intros Hi. by eapply cached_grows, Ho. Qed.

Lemma cache_get_ok purged h gs :
  hinv purged h →
  ∃ o c, state_cache_get gs h = (Returned o, set_cache c h) ∧ hinv purged (set_cache c h) ∧
    ∀ r, o = Some r → ∃ room, cached_ok purged h room gs r ∧ owned purged (set_cache c h) room r.
Proof.
  intros Hh. destruct (hi_cache _ _ _ _ _ Hh) as [last Hc], (hi_cached _ _ _ _ _ Hh) as [owner Ho]. unfold state_cache_get, ec_get.
  destruct (ec_getitem (h_now h) gs (h_cache h)) as [[r c]|] eqn:Eg.
  - destruct (getitem_inv _ _ _ _ _ _ _ Hc Eg) as [Hc' _]. unfold ec_getitem in Eg. destruct (od_get gs (ec_cache (h_cache h))) as [[t r']|] eqn:Ed; [|done].
    injection Eg as -> Ec. pose proof (Ho _ _ _ (od_get_elem _ _ _ Ed)) as Hr.
    rewrite bool_decide_false by (pose proof (entry_len_pos (entry_at h r)); lia).
    assert (Hall : ∀ gs' t' r', (gs', (t', r')) ∈ ec_cache c → cached_ok purged h (owner r') gs' r').
    { intros gs' t' r'' Hi. destruct (ec_reset_expiry_on_get (h_cache h)); subst c; [|by eapply Ho].
      simpl in Hi. destruct (od_set_elem _ _ _ _ (ci_keys _ Hc) Hi) as [[= -> -> ->]|[_ ?]]; [done|by eapply Ho]. }
    eexists _, c. split; [done|]. split; [apply hinv_set_cache; [done|by exists last|by exists owner]|]. intros r' [= <-]. exists (owner r). split; [done|].
    intros gs' t' Hi%Hall. by eapply cached_grows; [apply grows_set_cache| |].
  - eexists _, (h_cache h). split; [done|]. split; [|done]. by destruct h.
Qed.

Lemma cache_set_ok purged h room gs r :
  hinv purged h → cached_ok purged h room gs r → owned purged h room r →
  ∃ c, state_cache_set gs r h = (Returned tt, set_cache c h) ∧ hinv purged (set_cache c h) ∧ owned purged (set_cache c h) room r.
Proof.
  intros Hh Hr Hown. destruct (hi_cache _ _ _ _ _ Hh) as [last Hc], (hi_cached _ _ _ _ _ Hh) as [owner Ho]. unfold state_cache_set.
  destruct (set_inv _ _ _ _ gs r Hc) as (c & Hok & Hc'). change (λ r, entry_len (entry_at h r)) with (entry_size h). rewrite Hok.
  assert (Hall : ∀ gs' t' r', (gs', (t', r')) ∈ ec_cache c → cached_ok purged h (if decide (r' = r) then room else owner r') gs' r').
  { intros gs' t' r' Hi. unfold ec_setitem in Hok.
    destruct (ec_evict_ok (entry_size h) (ec_with (h_cache h) (od_set gs (h_now h, r) (ec_cache (h_cache h)))) (ci_max _ Hc)) as (n & Hok' & _).
    rewrite Hok in Hok'. injection Hok' as ->. simpl in Hi. apply (elem_of_submseteq _ (od_set gs (h_now h, r) (ec_cache (h_cache h)))) in Hi; [|apply sublist_submseteq, sublist_drop].
    destruct (od_set_elem _ _ _ _ (ci_keys _ Hc) Hi) as [[= -> -> ->]|[_ Hi']]; [by rewrite decide_True|]. case_decide; [subst; by eapply Hown|by eapply Ho]. }
  exists c. split; [done|]. split; [apply hinv_set_cache; [done|by eexists|by exists (λ r', if decide (r' = r) then room else owner r')]|]. intros gs' t' Hi%Hall. rewrite decide_True in Hi by done.
  by eapply cached_grows; [apply grows_set_cache| |].
Qed.

Lemma alloc_ok purged h e :
  hinv purged h →
  ∃ h', alloc e h = (Returned (length (h_heap h)), h') ∧ hinv purged h' ∧ grows h h' ∧ h_db h' = h_db h ∧
    h_heap h' !! length (h_heap h) = Some e ∧ ∀ room, owned purged h' room (length (h_heap h)).
Proof.
  intros Hh. assert (G : grows h (set_heap (h_heap h ++ [e]) h)) by (by constructor).
  assert (Hheap : ∀ r e', h_heap h !! r = Some e' → (h_heap h ++ [e]) !! r = Some e') by (intros r e' He; by apply lookup_app_l_Some).
  eexists. split; [done|]. split_and!; [|done|done| |].
  - eapply hinv_grows; [done|done|apply Hh|done|apply Hh|done|done].
  - simpl. by rewrite lookup_app_r, Nat.sub_diag by lia.
  - intros room gs t Hi. simpl in Hi. destruct (hi_cached _ _ _ _ _ Hh) as [owner Ho]. destruct (Ho _ _ _ Hi) as (e' & _ & He%lookup_lt_Some & _). lia.
Qed.

(** ** Resolution *)

Lemma map_items_keys `{Countable K} {A} (m : gmap K A) : (map_items m).*1 = set_iter (dom m).
Proof.
  unfold map_items. assert (Hl : ∀ k, k ∈ set_iter (dom m) → is_Some (m !! k)) by (intros k Hk%elem_of_set_iter; by apply elem_of_dom).
  induction (set_iter (dom m)) as [|k l IH]; [done|]. destruct (Hl k ltac:(by left)) as [a Ha]. csimpl. rewrite Ha. csimpl.
  f_equal. apply IH. intros k' Hk'. apply Hl. by right.
Qed.
Lemma map_items_values (m : gmap Z StateMap) (f : Z → StateMap) : (∀ g s, m !! g = Some s → s = f g) → (map_items m).*2 = f <$> (map_items m).*1.
Proof.
  intros Hm. rewrite <- list_fmap_compose. apply list_fmap_ext. intros i [g s] Hi. simpl. apply Hm.
  apply (elem_of_map_items m (g, s)). by eapply list_elem_of_lookup_2.
Qed.

(** An entry that is at an address. *)
Definition entry_for (purged : gset Z) (h : Handler) (room : string) (r : nat) (s : StateMap) : Prop :=
  (∃ e, h_heap h !! r = Some e ∧ entry_ok purged h room e s) ∧ owned purged h room r.

(** Resolution failed. *)
Definition resolution_fails (h : Handler) (room : string) (gs : gset Z) (x : exn) : Prop :=
  ∃ ver l, rooms (h_main h) !! room = Some ver ∧ l ≡ₚ elements gs ∧ resolve_state room ver (full_state (h_db h) <$> l) = Err x.

Lemma resolve_state_groups_ok (purged : gset Z) (h : Handler) (room ver : string) (groups : gmap Z StateMap) :
  hinv purged h → rooms (h_main h) !! room = Some ver → dom groups ≠ ∅ →
  (∀ g m, groups !! g = Some m → there purged h room g ∧ m = full_state (h_db h) g) →
  ∃ o h', resolve_state_groups room ver groups h = (o, h') ∧ hinv purged h' ∧ grows h h' ∧ h_db h' = h_db h ∧
    match o with
    | Returned r => ∃ s, entry_for purged h' room r s ∧ resolution h room (dom groups) s
    | Raised x => resolution_fails h room (dom groups) x
    | Waiting => False
    end.
Proof.
  intros Hh Hv Hne Hg. unfold resolve_state_groups, mbind, HM_bind.
  assert (Hgs : ∀ g, g ∈ dom groups → there purged h room g) by (intros g [m Hm]%elem_of_dom; by eapply Hg).
  destruct (cache_get_ok purged h (dom groups) Hh) as (o & c & -> & Hh1 & Ho).
  assert (G1 : grows h (set_cache c h)) by apply grows_set_cache. destruct o as [r|].
  - destruct (Ho r eq_refl) as (room' & Hr & Hown). eexists _, _. split; [done|]. split_and!; [done|done|done|].
    destruct Hr as (e & s & He & Hth & Hres & Hok & Hp).
    apply set_choose_L in Hne as [g Hin]. destruct (Hgs g Hin) as [_ E1], (Hth g Hin) as [_ E2]. rewrite E1 in E2. injection E2 as <-.
    exists s. split; [|done]. split; [|done]. exists e. split; [done|]. by eapply entry_grows.
  - assert (Hval : (map_items groups).*2 = full_state (h_db h) <$> (map_items groups).*1) by (apply map_items_values; intros g m Hm; by apply Hg in Hm as [_ ?]).
    rewrite Hval, map_items_keys. assert (Hperm : set_iter (dom groups) ≡ₚ elements (dom groups)) by apply set_iter_perm.
    unfold lift at 1. destruct (resolve_state room ver _) as [new|x] eqn:Er; [|eexists _, _; split; [done|]; split_and!; try done; by exists ver, (set_iter (dom groups))].
    assert (Hres : resolution h room (dom groups) new) by (by exists ver, (set_iter (dom groups))).
    assert (Hk : keyed new).
    { eapply resolve_keyed; [|exact Er]. apply Forall_fmap, Forall_forall. intros g Hin%elem_of_set_iter. apply (hi_keyed _ _ _ _ _ Hh), Hgs, Hin. }
    destruct (make_entry_ok key_of new groups Hk) as (e & -> & He).
    { intros g m Hm. destruct (Hg g m Hm) as [[Hl _] ->]. by apply (hi_keyed _ _ _ _ _ Hh). }
    cbn [lift]. destruct (alloc_ok purged _ e Hh1) as (h2 & -> & Hh2 & G2 & Hdb2 & Hr & Hown).
    set (r := length _) in *. assert (G : grows h h2) by (by eapply grows_trans).
    assert (Hok : entry_ok purged h2 room e new ∧ ∀ p, e_prev_group e = Some p → there purged h2 room p).
    { destruct He as [(g & -> & Hm)|[(p & m & d & -> & Hm & Hd & _ & _)|[-> _]]].
      - destruct (Hg _ _ Hm) as [Ht Es]. split; [|done]. constructor; try done. simpl. intros g' [= <-]. split; [by eapply there_grows|]. by rewrite Hdb2.
      - destruct (Hg _ _ Hm) as [Ht Es]. assert (Ht2 : there purged h2 room p) by (by eapply there_grows).
        split; [|by intros p' [= <-]]. constructor; try done; simpl; [|by intros p' _ [= <-]]. intros p' [= <-].
        split; [apply Ht2|]. exists d. split; [done|]. intros _. rewrite Hdb2, <- Hd. f_equal. by rewrite Es.
      - split; [|done]. constructor; try done. simpl. congruence. }
    destruct Hok as [Hok Hp]. assert (Hcached : cached_ok purged h2 room (dom groups) r).
    { exists e, new. split_and!; [done| | |done|done]; [intros g Hin; eapply there_grows; [exact G|auto]|by eapply resolution_grows]. }
    destruct (cache_set_ok purged h2 room (dom groups) r Hh2 Hcached (Hown room)) as (c3 & -> & Hh3 & Hown3). eexists _, _. split; [done|].
    pose proof (grows_set_cache h2 c3) as G3. split_and!; [done|by eapply grows_trans|done|].
    exists new. split; [|done]. split; [|done]. exists e. split; [done|]. by eapply entry_grows.
Qed.
End ops.

(** * The state handler: the state before an event, and its context *)

Section context.
Context `{IterOrderOk, HR : StateResolver} (engine : DatabaseEngine) (main : nat).

(** ** The state after some events *)

Definition event_group (h : Handler) (e : string) : option Z := event_to_state_groups (h_main h) !! e.
Definition groups_of (h : Handler) (ids : list string) : gset Z := list_to_set (omap (event_group h) ids).

(** What the state before an event with these prev events has to be: that of their group
    if they have the same, and what the groups resolve to if not. *)
Definition state_after (h : Handler) (room : string) (ids : list string) (s : StateMap) : Prop :=
  match elements (groups_of h ids) with
  | [] => s = ∅
  | [g] => s = full_state (h_db h) g
  | _ => resolution h room (groups_of h ids) s
  end.

Lemma elem_of_groups_of h ids g : g ∈ groups_of h ids ↔ ∃ e, e ∈ ids ∧ event_group h e = Some g.
Proof. unfold groups_of. rewrite elem_of_list_to_set, list_elem_of_omap. done. Qed.

(** The failures of [resolve_state_groups_for_events]. *)
Definition fails (h : Handler) (room : string) (ids : list string) (x : exn) : Prop :=
  (x = PyBuiltin RuntimeError ∧ ∃ e, e ∈ ids ∧ event_group h e = None) ∨
  ((∃ g1 g2, g1 ≠ g2 ∧ g1 ∈ groups_of h ids ∧ g2 ∈ groups_of h ids) ∧
   (rooms (h_main h) !! room = None ∧ x = SynapseError 404 "Could not find room_version for %s" "M_NOT_FOUND" ∨
    resolution_fails h room (groups_of h ids) x)).

Lemma groups_loop h (ids : list string) :
  (∃ m, _get_state_group_for_events ids h = (Returned m, h) ∧ (∀ e g, m !! e = Some g ↔ e ∈ ids ∧ event_group h e = Some g) ∧ ∀ e, e ∈ ids → is_Some (event_group h e)) ∨
  (_get_state_group_for_events ids h = (Raised (PyBuiltin RuntimeError), h) ∧ ∃ e, e ∈ ids ∧ event_group h e = None).
Proof.
  unfold _get_state_group_for_events, lift. assert (Hgen : ∀ (l : list string) (acc : gmap string Z),
    (∃ m, fold_res (λ (res : gmap string Z) e, match event_to_state_groups (h_main h) !! e with Some g => Ok (<[e := g]> res) | None => Err (PyBuiltin RuntimeError) end) l acc = Ok m ∧
      (∀ e g, m !! e = Some g ↔ (e ∈ l ∧ event_group h e = Some g) ∨ (e ∉ l) ∧ acc !! e = Some g) ∧ ∀ e, e ∈ l → is_Some (event_group h e)) ∨
    (fold_res (λ (res : gmap string Z) e, match event_to_state_groups (h_main h) !! e with Some g => Ok (<[e := g]> res) | None => Err (PyBuiltin RuntimeError) end) l acc = Err (PyBuiltin RuntimeError) ∧
      ∃ e, e ∈ l ∧ event_group h e = None)).
  { induction l as [|e l IH]; intros acc; cbn [fold_res].
    - left. exists acc. split_and!; [done| |by intros e ?%not_elem_of_nil]. intros e g. rewrite elem_of_nil. naive_solver.
    - destruct (event_to_state_groups (h_main h) !! e) as [g|] eqn:Eg; cbn [mbind result_bind]; [|right; split; [done|]; exists e; split; [by left|done]].
      destruct (IH (<[e := g]> acc)) as [(m & -> & Hm & Hk)|(-> & e' & ? & ?)]; [left; exists m|right; split; [done|]; exists e'; split; [by right|done]].
      split_and!; [done| |intros e' [->|?]%elem_of_cons; [by exists g|by apply Hk]].
      intros e' g'. rewrite Hm, elem_of_cons. destruct (decide (e' = e)) as [->|Hne]; [rewrite lookup_insert_eq|rewrite lookup_insert_ne by done; naive_solver].
      unfold event_group in *. rewrite Eg. destruct (decide (e ∈ l)); naive_solver. }
  destruct (Hgen ids ∅) as [(m & -> & Hm & Hk)|(-> & He)]; [left; exists m|by right]. split_and!; [done| |done].
  intros e g. rewrite Hm, lookup_empty. naive_solver.
Qed.

(** [get_state_group_for_events], with the waiting. *)
Lemma groups_for_events h ids await :
  match get_state_group_for_events ids await h with
  | (Returned m, h') => h' = h ∧ map_img m = groups_of h ids ∧ (∀ e g, m !! e = Some g ↔ e ∈ ids ∧ event_group h e = Some g) ∧ ∀ e, e ∈ ids → is_Some (event_group h e)
  | (Raised x, h') => h' = h ∧ x = PyBuiltin RuntimeError ∧ ∃ e, e ∈ ids ∧ event_group h e = None
  | (Waiting, h') => h' = h ∧ await = true ∧ ∃ e, e ∈ ids ∧ e ∈ partial_state_events (h_main h)
  end.
Proof.
  assert (Hl : match _get_state_group_for_events ids h with
    | (Returned m, h') => h' = h ∧ map_img m = groups_of h ids ∧ (∀ e g, m !! e = Some g ↔ e ∈ ids ∧ event_group h e = Some g) ∧ ∀ e, e ∈ ids → is_Some (event_group h e)
    | (Raised x, h') => h' = h ∧ x = PyBuiltin RuntimeError ∧ ∃ e, e ∈ ids ∧ event_group h e = None
    | (Waiting, h') => False
    end).
  { destruct (groups_loop h ids) as [(m & -> & Hm & Hk)|(-> & He)]; [|done]. split_and!; try done. apply set_eq. intros g.
    rewrite elem_of_map_img, elem_of_groups_of. by setoid_rewrite Hm. }
  unfold get_state_group_for_events, mbind, HM_bind. destruct await.
  - unfold await_full_state. case_bool_decide as Hp; cbv beta iota.
    + apply Exists_exists in Hp as (e & Hin & Hp). split_and!; [done|done|]. by exists e.
    + revert Hl. by destruct (_get_state_group_for_events ids h) as [[] ?].
  - revert Hl. cbv beta iota delta [mret HM_ret]. by destruct (_get_state_group_for_events ids h) as [[] ?].
Qed.

Context (key_of : string → string * string) (event_room : string → string).
Context `{!StateResolverLaws HR key_of}.

Abbreviation keyed := (keyed key_of).
Abbreviation hinv := (hinv main key_of event_room).
Abbreviation entry_ok := (entry_ok key_of).
Abbreviation entry_for := (entry_for key_of).

Lemma new_entry_for purged h room e s :
  hinv purged h → entry_ok purged h room e s →
  ∃ r h', alloc e h = (Returned r, h') ∧ hinv purged h' ∧ grows h h' ∧ h_db h' = h_db h ∧ entry_for purged h' room r s.
Proof.
  intros Hh He. destruct (alloc_ok main key_of event_room purged h e Hh) as (h' & Ha & Hh' & G & Hdb & Hr & Hown).
  eexists _, h'. split; [exact Ha|]. split_and!; [done|done|done|]. split; [|done].
  exists e. split; [done|]. by eapply entry_grows.
Qed.

(** The delta of a group leads to its state. *)
Lemma group_delta_ok db g p d : wf db → _get_state_group_delta_txn g db = Some (p, d) → 0 < p < g ∧ full_state db g = d ∪ full_state db p.
Proof.
  intros Hwf. unfold _get_state_group_delta_txn. destruct (select_prev db g) as [p'|] eqn:Ep; [|done]. case_bool_decide; [done|]. intros [= <- Hd].
  split; [pose proof (prev_less db Hwf _ _ Ep); lia|]. rewrite (full_state_eq db Hwf g), Ep. f_equal. rewrite <- Hd. clear Hd.
  set (rows := filter _ (state_groups_state db)). set (l := (λ r, (sg_key r, sg_event r)) <$> rows).
  replace (foldl (λ m r, <[sg_key r := sg_event r]> m) ∅ rows) with (foldl (λ m i, <[i.1 := i.2]> m) (∅ : StateMap) l) by apply foldl_fmap.
  apply map_eq. intros k. rewrite (insert_items l (delta db g)); [case_decide as Hk; [done|]|].
  - rewrite lookup_empty. destruct (delta db g !! k) as [v|] eqn:E; [|done]. apply (delta_lookup db Hwf) in E as (r & Hr & Hg & <- & <-).
    destruct Hk. apply (list_elem_of_fmap_2 fst _ (sg_key r, sg_event r)), (list_elem_of_fmap_2 (λ r, (sg_key r, sg_event r))). by apply list_elem_of_filter.
  - intros i (r & -> & [Hg Hr]%list_elem_of_filter)%list_elem_of_fmap. apply (delta_lookup db Hwf). by exists r.
Qed.

(** The cached delta. *)
Lemma cached_delta_ok purged h g :
  hinv purged h → g ≤ seq_gen (h_db h) →
  ∃ r h', get_state_group_delta g h = (Returned r, h') ∧ hinv purged h' ∧ grows h h' ∧ h_db h' = h_db h ∧ delta_ok purged h' g r.
Proof.
  intros Hh Hg. unfold get_state_group_delta. destruct (h_deltas h !! g) as [r|] eqn:Er.
  - eexists _, h. split; [done|]. split_and!; [done|apply grows_refl|done|by eapply hi_deltas].
  - set (r := _get_state_group_delta_txn g _). assert (G : ∀ ds, grows h (set_deltas ds h)) by (by constructor).
    assert (Hr : delta_ok purged h g r).
    { split; [done|]. intros _ p d Hd. destruct (group_delta_ok _ _ _ _ (hi_wf _ _ _ _ _ Hh) Hd) as [Hp Hs]. split; [lia|done]. }
    eexists _, _. split; [done|]. split_and!; [|done|done|by apply (delta_grows _ h)].
    destruct Hh as [I1 I2 I3 [owner I4] I5 I6]. constructor; [exact I1|exact I2|exact I3| |exact I5|].
    + exists owner. intros gs t r' Hi. by eapply cached_grows, I4.
    + intros g' r' Hl. simpl in Hl. apply lookup_insert_Some in Hl as [[<- <-]|[_ Hl]]; (eapply delta_grows; [apply G|]); [done|by apply I6].
Qed.

Lemma single_entry purged h room g r :
  hinv purged h → there purged h room g → delta_ok purged h g r →
  ∃ e, new_StateCacheEntry None (Some g) (fst <$> r) (snd <$> r) = Ok e ∧ entry_ok purged h room e (full_state (h_db h) g).
Proof.
  intros Hh Ht [_ Hr]. unfold new_StateCacheEntry. pose proof (hi_keyed _ _ _ _ _ Hh g (proj1 Ht)) as Hk.
  destruct r as [[p d]|]; (eexists; split; [done|]).
  - constructor; simpl; try done; [by intros g' [= <-]|]. intros p' [= <-].
    destruct (Hr (proj2 (proj1 Ht)) p d eq_refl) as [Hp Hs]. split; [lia|]. exists d. split; [done|]. intros Hn. symmetry. auto.
  - constructor; simpl; try done. by intros g' [= <-].
Qed.

(** ** The state across events *)

Lemma resolve_for_events_ok (purged : gset Z) (h : Handler) (room : string) (ids : list string) (await : bool) :
  hinv purged h → (∀ e, e ∈ ids → event_room e = room) →
  ∃ o h', resolve_state_groups_for_events engine main room ids await h = (o, h') ∧ hinv purged h' ∧ grows h h' ∧ h_db h' = h_db h ∧
    match o with
    | Returned r => ∃ s, entry_for purged h' room r s ∧ state_after h room ids s ∧ ∀ e, e ∈ ids → is_Some (event_group h e)
    | Raised x => fails h room ids x
    | Waiting => await = true ∧ ∃ e, e ∈ ids ∧ e ∈ partial_state_events (h_main h)
    end.
Proof.
  intros Hh Hroom. unfold resolve_state_groups_for_events, mbind, HM_bind. pose proof (groups_for_events h ids await) as Hg.
  assert (Hth : ∀ g, g ∈ groups_of h ids → there purged h room g).
  { intros g (e & He & Hge)%elem_of_groups_of. rewrite <- (Hroom e He). by apply (hi_events _ _ _ _ _ Hh). }
  destruct (get_state_group_for_events ids await h) as [[m|x|] h1].
  - destruct Hg as (-> & -> & _ & Hk). unfold state_after. destruct (elements (groups_of h ids)) as [|g [|g2 l]] eqn:El.
    + destruct (new_entry_for purged h room (MkEntry (Some ∅) None None None) ∅ Hh) as (r & h' & Ha & Hh' & G & Hdb & Hf).
      { constructor; simpl; try done. congruence. }
      unfold lift. simpl. rewrite Ha. eexists _, h'. split; [done|]. split_and!; [done|done|done|]. by exists ∅.
    + assert (Hin : g ∈ groups_of h ids) by (apply elem_of_elements; rewrite El; by left).
      destruct (cached_delta_ok purged h g Hh) as (dr & h1 & Hd & Hh1 & G1 & Hdb1 & Hdr); [destruct (Hth g Hin) as [[? _] _]; unfold h_db; lia|].
      destruct (single_entry purged h1 room g dr Hh1 (there_grows _ _ _ _ _ G1 (Hth g Hin)) Hdr) as (e & He & Hok).
      destruct (new_entry_for purged h1 room e _ Hh1 Hok) as (r & h' & Ha & Hh' & G & Hdb & Hf).
      unfold ctrl_get_state_group_delta, mbind, HM_bind. rewrite Hd. cbv beta iota delta [mret HM_ret]. rewrite He. unfold lift. rewrite Ha.
      eexists _, h'. split; [done|]. split_and!; [done|by eapply grows_trans|congruence|]. eexists. split; [done|]. by rewrite Hdb1.
    + assert (Hin : g ∈ groups_of h ids ∧ g2 ∈ groups_of h ids ∧ g ≠ g2).
      { pose proof (NoDup_elements (groups_of h ids)) as Hnd. rewrite El in Hnd. apply NoDup_cons in Hnd as [Hn _].
        rewrite <- !elem_of_elements, El. split_and!; [by left|by right; left|]. intros ->. apply Hn. by left. }
      unfold get_room_version_id, lift at 1. destruct (rooms (h_main h) !! room) as [ver|] eqn:Ev.
      2: { eexists _, h. split; [done|]. split_and!; [done|apply grows_refl|done|]. right. split; [exists g, g2; naive_solver|]. by left. }
      destruct (get_state_for_groups_ok engine main key_of event_room purged h (set_iter (groups_of h ids)) None Hh canonical_all) as (res & h1 & -> & Hh1 & G1 & Hheap1 & Hdb1 & Hres & Hno).
      { apply Forall_forall. intros g' Hg'%elem_of_set_iter. by apply Hth. }
      assert (Hdom : dom res = groups_of h ids).
      { apply set_eq. intros g'. rewrite elem_of_dom, <- (elem_of_set_iter (groups_of h ids)). split; intros Hx.
        - destruct (decide (g' ∈ set_iter (groups_of h ids))); [done|]. rewrite Hno in Hx by done. by destruct Hx.
        - rewrite Hres by done. done. }
      destruct (resolve_state_groups_ok main key_of event_room purged h1 room ver res Hh1) as (o & h2 & -> & Hh2 & G2 & Hdb2 & Ho).
      * by rewrite (gr_main _ _ G1).
      * rewrite Hdom. intros E. destruct Hin as [Hin _]. rewrite E in Hin. by apply elem_of_empty in Hin.
      * intros g' m' Hm'. assert (Hg' : g' ∈ groups_of h ids) by (rewrite <- Hdom; apply elem_of_dom; eauto).
        split; [by eapply there_grows, Hth|]. rewrite Hres in Hm' by (by apply elem_of_set_iter). injection Hm' as <-. by rewrite Hdb1.
      * exists o, h2. split; [done|]. split_and!; [done|by eapply grows_trans|congruence|]. rewrite Hdom in Ho. destruct o as [r|x|]; [| |done].
        -- destruct Ho as (s & Hf & Hres'). exists s. split_and!; [done| |done]. unfold resolution in *. by rewrite Hdb1, (gr_main _ _ G1) in Hres'.
        -- right. split; [exists g, g2; naive_solver|]. right. unfold resolution_fails in *. by rewrite Hdb1, (gr_main _ _ G1) in Ho.
  - destruct Hg as (-> & -> & He). eexists _, h. split; [done|]. split_and!; [done|apply grows_refl|done|]. by left.
  - destruct Hg as (-> & -> & He). eexists _, h. split; [done|]. split_and!; [done|apply grows_refl|done|done|done].
Qed.

Lemma entry_for_grows purged h h' room r s : grows h h' → same_entries h h' → entry_for purged h room r s → entry_for purged h' room r s.
Proof.
  intros G [Hheap Hc] [(e & Hr & He) Hown]. split; [exists e; split; [by rewrite Hheap|by eapply entry_grows]|].
  eapply owned_grows; [done|by rewrite Hheap|done|done].
Qed.

(** ** Giving a state a group *)

Lemma entry_unique purged h room room' e s s' : entry_ok purged h room e s → entry_ok purged h room' e s' → s = s'.
Proof.
  intros [E1 E2 E3 E4 E5 _] [F1 F2 F3 _ _ _]. destruct (e_state e) as [m|] eqn:Es; [by rewrite <- (E1 m), <- (F1 m)|].
  destruct (e_state_group e) as [g|] eqn:Eg; [destruct (E2 g eq_refl) as [_ <-], (F2 g eq_refl) as [_ <-]; done|].
  destruct (E4 eq_refl eq_refl) as [p Hp]. pose proof (proj2 (proj1 (E5 p eq_refl Hp))) as Hn.
  destruct (E3 p Hp) as (_ & d & Hd & Hs), (F3 p Hp) as (_ & d' & Hd' & Hs'). rewrite <- (Hs Hn), <- (Hs' Hn). congruence.
Qed.

Lemma set_state_group_len g e : entry_len (set_state_group g e) ≤ entry_len e.
Proof.
  unfold entry_len, set_state_group. simpl. assert (Hn : ∀ o, 0 ≤ map_len o) by (intros [m|]; unfold map_len; lia).
  pose proof (Hn (e_state e)). pose proof (Hn (e_delta_ids e)). case_bool_decide; case_bool_decide; simpl in *; lia.
Qed.

Lemma set_group_ok purged h room r s g :
  hinv purged h → entry_for purged h room r s → there purged h room g → full_state (h_db h) g = s →
  ∃ h', entry_set_state_group r g h = (Returned tt, h') ∧ hinv purged h' ∧ grows h h' ∧ h_db h' = h_db h ∧ entry_for purged h' room r s.
Proof.
  intros Hh [(e & Hr & He) Hown] Ht Hs. unfold entry_set_state_group, entry_at. rewrite Hr. simpl. set (e' := set_state_group g e).
  set (h' := set_heap _ h). assert (G : grows h h') by (by constructor).
  assert (Hr' : h_heap h' !! r = Some e') by (simpl; apply list_lookup_insert_eq; by eapply lookup_lt_Some).
  assert (Hne : ∀ r', r' ≠ r → h_heap h' !! r' = h_heap h !! r') by (intros r' Hn; simpl; by rewrite list_lookup_insert_ne).
  assert (He' : entry_ok purged h' room e' s).
  { destruct He as [E1 E2 E3 E4 E5 E6]. constructor; simpl; try done. intros g' [= <-]. split; [by eapply there_grows|done]. }
  assert (Hc' : ∀ gs t, (gs, (t, r)) ∈ ec_cache (h_cache h) → cached_ok key_of purged h' room gs r).
  { intros gs t Hi. destruct (Hown gs t Hi) as (e1 & s1 & Hr1 & Hgs & Hres & Hok & Hp). rewrite Hr in Hr1. injection Hr1 as <-.
    rewrite (entry_unique _ _ _ _ _ _ _ Hok He) in Hres. exists e', s. split_and!; [done| | |done|].
    - intros g' Hg'. eapply there_grows; [done|auto].
    - by eapply resolution_grows.
    - intros p Hp'. eapply there_grows; [done|by apply Hp]. }
  exists h'. split; [done|]. split_and!; [|done|done|].
  - constructor.
    + apply Hh.
    + intros ev g' Hg'. eapply there_grows; [done|]. by apply (hi_events _ _ _ _ _ Hh).
    + apply Hh.
    + destruct (hi_cached _ _ _ _ _ Hh) as [owner Ho]. exists (λ r', if decide (r' = r) then room else owner r'). intros gs t r' Hi.
      case_decide as Hd; [subst; by eapply Hc'|]. eapply cached_grows; [done|by apply Hne|by eapply Ho].
    + destruct (hi_cache _ _ _ _ _ Hh) as [last Hc]. exists last. eapply estep_inv; [exact Hc|]. apply EShrink. intros r'. unfold entry_size, entry_at. split.
      * pose proof (entry_len_pos (default no_entry (h_heap h' !! r'))). lia.
      * destruct (decide (r' = r)) as [->|Hn]; [rewrite Hr', Hr; apply set_state_group_len|by rewrite Hne].
    + intros g' r' Hg'. eapply delta_grows; [done|]. by apply (hi_deltas _ _ _ _ _ Hh).
  - split; [by exists e'|]. intros gs t Hi. by eapply Hc'.
Qed.

(** ** The state before an event *)

(** What is known of the state before an event. *)
Record before_ok (purged : gset Z) (h : Handler) (room : string) (s : StateMap) (b : StateBefore) : Prop := {
  bo_group g : sb_group b = Some g → there purged h room g ∧ full_state (h_db h) g = s;
  bo_prev p : sb_prev_group b = Some p → 0 < p ≤ seq_gen (h_db h) ∧ ∃ d, sb_deltas b = Some d ∧ ((p ∉ purged) → d ∪ full_state (h_db h) p = s);
  bo_ids m : sb_state_ids b = Some m → m = s;
  bo_none : sb_group b = None → sb_prev_group b = None ∧ sb_state_ids b = Some s ∧ s ≠ ∅;
  bo_entry : sb_state_ids b = None → ∃ r, sb_entry b = Some r ∧ entry_for purged h room r s;
  bo_keyed : keyed s
}.

Lemma partial_flag h ids :
  get_partial_state_events ids h = (Returned (list_to_map ((λ e, (e, bool_decide (e ∈ partial_state_events (h_main h)))) <$> ids)), h) ∧
  existsb snd (map_to_list (list_to_map ((λ e, (e, bool_decide (e ∈ partial_state_events (h_main h)))) <$> ids) : gmap string bool)) =
    bool_decide (Exists (λ e, e ∈ partial_state_events (h_main h)) ids).
Proof.
  split; [done|]. set (f := λ e, (e, bool_decide (e ∈ partial_state_events (h_main h)))).
  assert (Hl : ∀ e b, (list_to_map (f <$> ids) : gmap string bool) !! e = Some b ↔ e ∈ ids ∧ b = bool_decide (e ∈ partial_state_events (h_main h))).
  { intros e b. induction ids as [|e' l IH]; [csimpl; rewrite lookup_empty, elem_of_nil; naive_solver|]. csimpl. rewrite elem_of_cons.
    destruct (decide (e = e')) as [->|Hne]; [rewrite lookup_insert_eq; naive_solver|rewrite lookup_insert_ne by done; naive_solver]. }
  apply eq_true_iff_eq. rewrite bool_decide_eq_true, Exists_exists, existsb_exists. split.
  - intros ([e b] & Hi%list_elem_of_In & Hb). simpl in Hb. subst b. apply elem_of_map_to_list, Hl in Hi as [Hin Hb]. exists e. split; [done|].
    symmetry in Hb. by apply bool_decide_eq_true in Hb.
  - intros (e & Hin & Hp). exists (e, true). split; [|done]. apply list_elem_of_In, elem_of_map_to_list, Hl. by rewrite bool_decide_true.
Qed.

Lemma resolve_state_before_ok (purged : gset Z) (h : Handler) (e : Event) :
  hinv purged h → (∀ p, p ∈ prev_event_ids e → event_room p = room_id e) →
  ∃ o h', resolve_state_before engine main e h = (o, h') ∧ hinv purged h' ∧ grows h h' ∧
    match o with
    | Returned b => ∃ s, before_ok purged h' (room_id e) s b ∧ is_Some (sb_group b) ∧ state_after h (room_id e) (prev_event_ids e) s ∧
        sb_partial b = bool_decide (Exists (λ p, p ∈ partial_state_events (h_main h)) (prev_event_ids e))
    | Raised x => fails h (room_id e) (prev_event_ids e) x
    | Waiting => False
    end.
Proof.
  intros Hh Hroom. unfold resolve_state_before, mbind, HM_bind. destruct (partial_flag h (prev_event_ids e)) as [-> Hpart]. rewrite Hpart.
  destruct (resolve_for_events_ok purged h (room_id e) (prev_event_ids e) false Hh Hroom) as (o & h1 & -> & Hh1 & G1 & Hdb1 & Ho).
  destruct o as [r|x|]; [|by eexists _, h1|by destruct Ho as [? _]]. destruct Ho as (s & Hf & Hs & _).
  pose proof Hf as [(en & Hr & Hen) Hown]. unfold gets, entry_at. rewrite Hr. cbn [default from_option id].
  pose proof Hen as [E1 E2 E3 E4 E5 E6]. destruct (e_state_group en) as [g|] eqn:Eg.
  - eexists _, h1. split; [done|]. split_and!; [done|done|]. exists s. split_and!; [|by eexists|done|done].
    constructor; simpl; try done. by exists r.
  - assert (Hst : ∃ ids h2, (match e_prev_group en with None => m ← get_state engine main r (Some all); mret (Some m) | Some _ => mret None end) h1 = (Returned ids, h2) ∧
      hinv purged h2 ∧ grows h1 h2 ∧ entry_for purged h2 (room_id e) r s ∧
      match e_prev_group en with Some p => ids = None ∧ there purged h2 (room_id e) p | None => ids = Some s end).
    { destruct (e_prev_group en) as [p|] eqn:Ep.
      - eexists _, h1. split; [done|]. split_and!; [done|apply grows_refl|done|done|by apply E5].
      - destruct (entry_get_all_ok engine main key_of event_room purged h1 r en (room_id e) s Hh1 Hr Hen) as (h2 & Hg & Hh2 & G2 & Hheap & Hdb).
        unfold mbind, HM_bind. rewrite Hg. eexists _, h2. split; [done|]. split_and!; [done|done| |done]. by eapply entry_for_grows. }
    destruct Hst as (ids & h2 & Hst & Hh2 & G2 & Hf2 & Hids). unfold mbind, HM_bind in Hst. rewrite Hst.
    pose proof Hf2 as [(en2 & Hr2 & Hen2) _]. destruct (store_group_ok engine main key_of event_room purged h2 (event_id e) (room_id e) (e_prev_group en) (e_delta_ids en) ids s Hh2 E6)
      as (g & h3 & -> & Hh3 & G3 & Hsame & Ht & Hg & _).
    { destruct (e_prev_group en) as [p|]; [|done]. destruct Hids as [-> Hp]. split; [by eexists|]. destruct (E3 p eq_refl) as (Hp0 & d & -> & Hd).
      exists d. split_and!; [done| |by left]. rewrite (gr_state _ _ G2) by lia. apply Hd, Hp. }
    destruct (set_group_ok purged h3 (room_id e) r s g Hh3 (entry_for_grows _ _ _ _ _ _ G3 Hsame Hf2) Ht Hg) as (h4 & -> & Hh4 & G4 & Hdb4 & Hf4).
    assert (G : grows h1 h4) by (eapply grows_trans; [exact G2|]; by eapply grows_trans).
    eexists _, h4. split; [done|]. split_and!; [done|by eapply grows_trans|]. exists s. split_and!; [|by eexists|done|done].
    constructor; simpl; try done.
    + intros g' [= <-]. split; [by apply (there_grows _ h3)|by rewrite Hdb4].
    + intros p Hp. destruct (E3 p Hp) as (Hp0 & d & -> & Hd). pose proof (gr_seq _ _ G). split; [lia|]. exists d. split; [done|]. intros Hn. rewrite (gr_state _ _ G) by lia. auto.
    + intros m ->. destruct (e_prev_group en); [by destruct Hids|congruence].
    + intros _. by exists r.
Qed.
End context.
