(* ===== verification/StateHandlerMain.v ===== *)
(** * The state handler: contexts of events *)

From S2P Require Import Prelude PyVal Constants RoomVersions Events StateFilter StateFilterProps TopoSort CacheStores LruHistory DictionaryCache DictionaryCacheProps StateGroups StateGroupProps StateGroupWrites StateStore StateStoreProps StateStoreMain ExpiringCache EventContext StateHandler StateHandlerProps StateHandlerThms.

Section contexts.
Context `{IterOrderOk, HR : StateResolver} (engine : DatabaseEngine) (main : nat).
Context (key_of : string → string * string) (event_room : string → string).
Context `{!StateResolverLaws HR key_of}.

Abbreviation keyed := (keyed key_of).
Abbreviation hinv := (hinv main key_of event_room).
Abbreviation before_ok := (before_ok key_of).

(** The change an event makes. *)
Definition event_delta (e : Event) : StateMap :=
  match get_state_key e with Some k => {[(type e, k) := event_id e]} | None => ∅ end.

(** An event is known under its key, in its room, and comes after events of its room. *)
Record event_ok (e : Event) : Prop := {
  ev_key k : get_state_key e = Some k → key_of (event_id e) = (type e, k);
  ev_room : event_room (event_id e) = room_id e;
  ev_prevs p : p ∈ prev_event_ids e → event_room p = room_id e
}.

Lemma event_delta_keyed e : event_ok e → keyed (event_delta e).
Proof.
  intros He. unfold event_delta. destruct (get_state_key e) as [k|] eqn:Ek; [|apply keyed_empty]. apply keyed_singleton. by apply (ev_key e He).
Qed.

(** The event that is replaced: another one, at the key of the event. *)
Definition replaces (e : Event) (s : StateMap) : option string :=
  match get_state_key e with
  | Some k => match s !! (type e, k) with
      | Some x => if decide (x ≠ "" ∧ x ≠ event_id e) then Some x else None
      | None => None
      end
  | None => None
  end.

(** A context that is not stored yet. *)
Record unpersisted_ok (purged : gset Z) (h : Handler) (e : Event) (s : StateMap) (c : UnpersistedEventContext) : Prop := {
  uo_group g : uc_state_group_before_event c = Some g → there purged h (room_id e) g ∧ full_state (h_db h) g = s;
  uo_prev p : uc_prev_group_for_state_group_before_event c = Some p →
    0 < p ≤ seq_gen (h_db h) ∧ ∃ d, uc_delta_ids_to_state_group_before_event c = Some d ∧ ((p ∉ purged) → d ∪ full_state (h_db h) p = s);
  uo_none : uc_state_group_before_event c = None →
    uc_prev_group_for_state_group_before_event c = None ∧ uc_state_map_before_event c = Some s ∧ s ≠ ∅;
  uo_map m : uc_state_map_before_event c = Some m → m = s;
  uo_delta : uc_state_delta_due_to_event c = Some (event_delta e);
  uo_keyed : keyed s
}.

(** A context: the states before and after the event have groups. *)
Record context_ok (purged : gset Z) (h : Handler) (e : Event) (s : StateMap) (c : EventContext) : Prop := {
  co_before : ∃ b, ec_state_group_before_event c = Some b ∧ there purged h (room_id e) b ∧ full_state (h_db h) b = s;
  co_after : ∃ a, ec_state_group c = Some a ∧ there purged h (room_id e) a ∧ full_state (h_db h) a = event_delta e ∪ s;
  co_delta : ec_state_delta_due_to_event c = Some (event_delta e);
  co_deltas g1 g2 d : ec_state_group_deltas c !! (g1, g2) = Some d → (g1 ∉ purged) → full_state (h_db h) g2 = d ∪ full_state (h_db h) g1;
  co_rejected : ec_rejected c = None
}.

Lemma replaced_event_ok purged h e k s b :
  hinv purged h → get_state_key e = Some k → before_ok purged h (room_id e) s b →
  ∃ h', replaced_event engine main (type e, k) b h = (Returned (s !! (type e, k)), h') ∧ hinv purged h' ∧ grows h h'.
Proof.
  intros Hh Hk Hb. unfold replaced_event. destruct (sb_state_ids b) as [m|] eqn:Em.
  - rewrite (bo_ids _ _ _ _ _ _ Hb m Em). exists h. split_and!; [done|done|apply grows_refl].
  - destruct (bo_entry _ _ _ _ _ _ Hb Em) as (r & -> & (en & Hr & Hen) & _). unfold mbind, HM_bind. cbn [fst snd].
    destruct (entry_get_state_ok engine main key_of event_room purged h r en (room_id e) s (Some (from_types [(type e, Some k)])) Hh) as (m & h' & -> & Hh' & G & _ & _ & Hm & _); [done|done|done|].
    exists h'. split_and!; [|done|done]. unfold mret, HM_ret. rewrite Hm; [done|]. apply from_types_matches. right. by left.
Qed.

Lemma before_ok_grows purged h h' room s b :
  grows h h' → same_entries h h' → before_ok purged h room s b → before_ok purged h' room s b.
Proof.
  intros G Hsame [B1 B2 B3 B4 B5 B6]. pose proof (gr_seq _ _ G). constructor; try done.
  - intros g Hg. destruct (B1 g Hg) as [Ht Hs]. split; [by eapply there_grows|]. rewrite (gr_state _ _ G); [done|]. destruct Ht as [[? _] _]. unfold h_db. lia.
  - intros p Hp. destruct (B2 p Hp) as (Hp0 & d & Hd & Hs). split; [lia|]. exists d. split; [done|]. intros Hnp. rewrite (gr_state _ _ G) by lia. auto.
  - intros Hn. destruct (B5 Hn) as (r & Hr & Hf). exists r. split; [done|]. by eapply entry_for_grows.
Qed.

(** From what is known before the event to its context. *)
Lemma unpersisted_from purged h h' e s b c :
  grows h h' → before_ok purged h (room_id e) s b →
  uc_state_group_before_event c = sb_group b → uc_prev_group_for_state_group_before_event c = sb_prev_group b →
  uc_delta_ids_to_state_group_before_event c = sb_deltas b → uc_state_map_before_event c = sb_state_ids b →
  uc_state_delta_due_to_event c = Some (event_delta e) → unpersisted_ok purged h' e s c.
Proof.
  intros G [B1 B2 B3 B4 B5 B6] E1 E2 E3 E4 Hd. pose proof (gr_seq _ _ G). constructor; rewrite ?E1, ?E2, ?E3, ?E4; try done.
  - intros g Hg. destruct (B1 g Hg) as [Ht Hs]. split; [by eapply there_grows|]. rewrite (gr_state _ _ G); [done|]. destruct Ht as [[? _] _]. unfold h_db. lia.
  - intros p Hp. destruct (B2 p Hp) as (Hp0 & d & Hd' & Hs). split; [lia|]. exists d. split; [done|]. intros Hnp. rewrite (gr_state _ _ G) by lia. auto.
Qed.

(** How [calculate_context_info] ends when it is given a state, and when it is not. *)
Definition given_ok (purged : gset Z) (h : Handler) (e : Event) (ids : option StateMap) (partial : option bool) (group : option Z) : Prop :=
  match ids with
  | Some s => s ≠ ∅ ∧ is_Some partial ∧ keyed s ∧ ∀ g, group = Some g → there purged h (room_id e) g ∧ full_state (h_db h) g = s
  | None => partial = None
  end.

Lemma state_before_ok (purged : gset Z) (h : Handler) (e : Event) ids partial group :
  hinv purged h → event_ok e → given_ok purged h e ids partial group →
  ∃ o h', state_before engine main e ids partial group h = (o, h') ∧ hinv purged h' ∧ grows h h' ∧
    match o with
    | Returned b => ∃ s, before_ok purged h' (room_id e) s b ∧
        match ids with
        | Some m => s = m ∧ Some (sb_partial b) = partial
        | None => state_after h (room_id e) (prev_event_ids e) s ∧ sb_partial b = bool_decide (Exists (λ p, p ∈ partial_state_events (h_main h)) (prev_event_ids e))
        end
    | Raised x => ids = None ∧ fails h (room_id e) (prev_event_ids e) x
    | Waiting => False
    end.
Proof.
  intros Hh He Hg. unfold state_before. destruct ids as [s|]; simpl in Hg.
  - destruct Hg as (Hne & [p ->] & Hk & Hgr). simpl. rewrite bool_decide_false by done. simpl. eexists _, h. split; [done|].
    split_and!; [done|apply grows_refl|]. exists s. split; [|done]. constructor; simpl; try done. congruence.
  - subst partial. simpl. destruct (resolve_state_before_ok engine main key_of event_room purged h e Hh (ev_prevs e He)) as (o & h' & -> & Hh' & G & Ho).
    exists o, h'. split; [done|]. split_and!; [done|done|]. destruct o as [b|x|]; [|done|done]. destruct Ho as (s & Hb & _ & Hs & Hp). by exists s.
Qed.

Lemma calculate_ok (purged : gset Z) (h : Handler) (e : Event) ids partial group :
  hinv purged h → event_ok e → given_ok purged h e ids partial group →
  ∃ o h', calculate_context_info engine main e false ids partial group h = (o, h') ∧ hinv purged h' ∧ grows h h' ∧
    match o with
    | Returned (c, rep) => ∃ s, unpersisted_ok purged h' e s c ∧ rep = replaces e s ∧
        match ids with
        | Some m => s = m ∧ Some (uc_partial_state c) = partial
        | None => state_after h (room_id e) (prev_event_ids e) s ∧ uc_partial_state c = bool_decide (Exists (λ p, p ∈ partial_state_events (h_main h)) (prev_event_ids e))
        end
    | Raised x => ids = None ∧ fails h (room_id e) (prev_event_ids e) x
    | Waiting => False
    end.
Proof.
  intros Hh He Hg. unfold calculate_context_info, mbind, HM_bind. cbn [lift raise_if].
  destruct (state_before_ok purged h e ids partial group Hh He Hg) as (o & h1 & -> & Hh1 & G1 & Ho). destruct o as [b|x|]; [|by eexists _, h1|done].
  destruct Ho as (s & Hb & Hs). unfold event_delta, replaces. destruct (get_state_key e) as [k|] eqn:Ek.
  - destruct (replaced_event_ok purged h1 e k s b Hh1 Ek Hb) as (h2 & -> & Hh2 & G2). eexists _, h2. split; [done|].
    split_and!; [done|by eapply grows_trans|]. cbn beta iota. exists s. split; [|split; [|done]].
    + eapply unpersisted_from; [exact G2|exact Hb|done..|]. simpl. unfold event_delta. by rewrite Ek.
    + destruct (s !! (type e, k)) as [x|]; [|done]. simpl. destruct (decide (x = "")) as [->|Hx]; [rewrite decide_False by naive_solver; done|].
      rewrite (bool_decide_false (x = "")) by done. simpl. destruct (decide (x = event_id e)) as [->|Hxe].
      * rewrite bool_decide_true, decide_False by naive_solver. done.
      * rewrite bool_decide_false, decide_True by naive_solver. done.
  - eexists _, h1. split; [done|]. split_and!; [done|done|]. cbn beta iota. exists s. split; [|split; [done|done]].
    eapply unpersisted_from; [apply grows_refl|exact Hb|done..|]. simpl. unfold event_delta. by rewrite Ek.
Qed.

(** ** Storing the groups of a context *)

Lemma build_deltas_ok (purged : gset Z) (db : sgdb) b a delta prev deltas part ids :
  0 < b → 0 < a → full_state db a = delta ∪ full_state db b →
  (∀ p, prev = Some p → 0 < p ∧ ∃ d, deltas = Some d ∧ ((p ∉ purged) → full_state db b = d ∪ full_state db p)) →
  ∃ m, _build_state_group_deltas {| uc_state_group_before_event := Some b; uc_state_group_after_event := Some a; uc_state_delta_due_to_event := Some delta;
      uc_prev_group_for_state_group_before_event := prev; uc_delta_ids_to_state_group_before_event := deltas; uc_partial_state := part; uc_state_map_before_event := ids |} = Ok m ∧
    ∀ g1 g2 d, m !! (g1, g2) = Some d → (g1 ∉ purged) → full_state db g2 = d ∪ full_state db g1.
Proof.
  intros Hb Ha Hab Hp. unfold _build_state_group_deltas, add_delta. simpl. rewrite !bool_decide_false by lia. cbn [negb andb mbind result_bind].
  assert (Hone : ∀ g1 g2 d, ({[(b, a) := delta]} : gmap (Z * Z) StateMap) !! (g1, g2) = Some d → (g1 ∉ purged) → full_state db g2 = d ∪ full_state db g1).
  { intros g1 g2 d [[= <- <-] <-]%lookup_singleton_Some. done. }
  destruct prev as [p|]; simpl; [|eexists; split; [done|]; by rewrite insert_empty]. destruct (Hp p eq_refl) as (Hp0 & d & -> & Hd).
  rewrite (bool_decide_false (p = 0)) by lia. cbn [negb andb]. eexists. split; [done|]. intros g1 g2 d'. rewrite insert_empty.
  intros [[[= <- <-] <-]|[_ Hl]]%lookup_insert_Some; [done|by apply Hone].
Qed.

Lemma event_delta_truthy e : truthy_map (Some (event_delta e)) = Events.is_state e.
Proof.
  unfold event_delta, Events.is_state, truthy_map. destruct (get_state_key e); [|by rewrite bool_decide_true].
  rewrite bool_decide_false; [done|]. apply map_non_empty_singleton.
Qed.

Lemma persist_context_ok (purged : gset Z) (h : Handler) (e : Event) (s : StateMap) (c : UnpersistedEventContext) :
  hinv purged h → event_ok e → unpersisted_ok purged h e s c →
  ∃ c' h', persist engine main e c h = (Returned c', h') ∧ hinv purged h' ∧ grows h h' ∧ context_ok purged h' e s c' ∧ ec_partial_state c' = uc_partial_state c.
Proof.
  intros Hh He Hc. unfold persist, mbind, HM_bind. rewrite (uo_delta _ _ _ _ _ Hc).
  assert (Hb : ∃ b h1, (match uc_state_group_before_event c with
      | Some g => mret g
      | None => lift (raise_if (negb (truthy_map (uc_state_map_before_event c))) (PyBuiltin AssertionError)) ;;
          ctrl_store_state_group engine main (event_id e) (room_id e) (uc_prev_group_for_state_group_before_event c) (uc_delta_ids_to_state_group_before_event c) (uc_state_map_before_event c)
      end) h = (Returned b, h1) ∧ hinv purged h1 ∧ grows h h1 ∧ there purged h1 (room_id e) b ∧ full_state (h_db h1) b = s).
  { destruct (uc_state_group_before_event c) as [g|] eqn:Eg.
    - eexists g, h. split; [done|]. split_and!; [done|apply grows_refl|by apply (uo_group _ _ _ _ _ Hc)|by apply (uo_group _ _ _ _ _ Hc)].
    - destruct (uo_none _ _ _ _ _ Hc Eg) as (-> & -> & Hne). simpl. rewrite bool_decide_false by done. unfold mbind, HM_bind. cbn [negb lift raise_if].
      destruct (store_group_ok engine main key_of event_room purged h (event_id e) (room_id e) None (uc_delta_ids_to_state_group_before_event c) (Some s) s Hh (uo_keyed _ _ _ _ _ Hc) eq_refl)
        as (g & h1 & -> & Hh1 & G1 & _ & Ht & Hs & _). by exists g, h1. }
  destruct Hb as (b & h1 & Hb & Hh1 & G1 & Htb & Hsb). unfold mbind, HM_bind in Hb. rewrite Hb. rewrite event_delta_truthy.
  assert (Ha : ∃ a h2, (if Events.is_state e then ctrl_store_state_group engine main (event_id e) (room_id e) (Some b) (Some (event_delta e)) None else mret b) h1 = (Returned a, h2) ∧
    hinv purged h2 ∧ grows h1 h2 ∧ there purged h2 (room_id e) a ∧ full_state (h_db h2) a = event_delta e ∪ s).
  { destruct (Events.is_state e) eqn:Est.
    - destruct (store_group_ok engine main key_of event_room purged h1 (event_id e) (room_id e) (Some b) (Some (event_delta e)) None (event_delta e ∪ s) Hh1)
        as (a & h2 & -> & Hh2 & G2 & _ & Ht & Hs & _); [apply keyed_maps_union; [by apply event_delta_keyed|apply Hc]| |by exists a, h2].
      split; [by eexists|]. exists (event_delta e). by rewrite Hsb; split_and!; [| |left].
    - exists b, h1. split; [done|]. split_and!; [done|apply grows_refl|done|]. rewrite Hsb. unfold event_delta. unfold Events.is_state in Est.
      destruct (get_state_key e); [done|]. by rewrite (left_id_L ∅ (∪)). }
  destruct Ha as (a & h2 & -> & Hh2 & G2 & Hta & Hsa).
  assert (Hsb2 : full_state (h_db h2) b = s) by (rewrite (gr_state _ _ G2); [done|]; destruct Htb as [[? _] _]; unfold h_db; lia).
  destruct (build_deltas_ok purged (h_db h2) b a (event_delta e) (uc_prev_group_for_state_group_before_event c) (uc_delta_ids_to_state_group_before_event c) (uc_partial_state c) (uc_state_map_before_event c))
    as (m & -> & Hm).
  - destruct Htb as [[? _] _]. lia.
  - destruct Hta as [[? _] _]. lia.
  - by rewrite Hsb2.
  - intros p Hp. destruct (uo_prev _ _ _ _ _ Hc p Hp) as (Hp0 & d & Hd & Hs). split; [lia|]. exists d. split; [done|].
    intros Hn. rewrite Hsb2, <- (Hs Hn). f_equal. symmetry. pose proof (gr_seq _ _ G1). rewrite (gr_state _ _ G2) by lia. apply (gr_state _ _ G1). lia.
  - eexists _, h2. split; [done|]. split_and!; [done|by eapply grows_trans| |done]. constructor; simpl; try done.
    + exists b. split_and!; [done|by eapply there_grows|done].
    + by exists a.
Qed.
End contexts.

(** * The state handler over its whole life *)

Section life.
Context `{IterOrderOk, HR : StateResolver} (engine : DatabaseEngine) (main : nat) (is_mine_id : string → bool).
Context (key_of : string → string * string) (event_room : string → string).
Context `{!StateResolverLaws HR key_of}.

Abbreviation keyed := (keyed key_of).
Abbreviation hinv := (hinv main key_of event_room).
Abbreviation event_ok := (event_ok key_of event_room).
Abbreviation given_ok := (given_ok key_of).
Abbreviation unpersisted_ok := (unpersisted_ok key_of).

(** The group an event is given is one of its room. *)
Definition mapping_ok (purged : gset Z) (h : Handler) (e : Event) (c : EventContext) : Prop :=
  event_ok e ∧ ∀ g, mapped_group c = Ok (Some g) → there purged h (room_id e) g.

(** Nothing refers to the groups: no event, and no entry of the cache. *)
Definition unused (h : Handler) (gs : list Z) : Prop :=
  (∀ ev g, event_to_state_groups (h_main h) !! ev = Some g → g ∉ gs) ∧
  ∀ names t r e, (names, (t, r)) ∈ ec_cache (h_cache h) → h_heap h !! r = Some e →
    (∀ g, g ∈ names → g ∉ gs) ∧ (∀ g, e_state_group e = Some g → g ∉ gs) ∧ (∀ p, e_prev_group e = Some p → p ∉ gs).

(** What happens to a handler and its tables, with the groups purged so far.  Calls may
    return, raise or wait. *)
Inductive hstep : gset Z * Handler → gset Z * Handler → Prop :=
| HCalculate purged h e ids partial group o h' :
    event_ok e → given_ok purged h e ids partial group → calculate_context_info engine main e false ids partial group h = (o, h') →
    hstep (purged, h) (purged, h')
| HPersist purged h e s c o h' :
    event_ok e → unpersisted_ok purged h e s c → persist engine main e c h = (o, h') → hstep (purged, h) (purged, h')
| HStateAfter purged h room ids f await o h' :
    (∀ e, e ∈ ids → event_room e = room) → canonical (default all f) →
    compute_state_after_events engine main is_mine_id room ids f await h = (o, h') → hstep (purged, h) (purged, h')
| HStateOf purged h ids f await o h' :
    canonical (default all f) → get_state_ids_for_events engine main is_mine_id ids f await h = (o, h') → hstep (purged, h) (purged, h')
| HMapping purged h l o h' :
    (∀ e c, (e, false, c) ∈ l → mapping_ok purged h e c) → main_op (_store_event_state_mappings_txn l) h = (o, h') → hstep (purged, h) (purged, h')
| HUpdate purged h e c o h' :
    mapping_ok purged h e c → main_op (_update_state_for_partial_state_event_txn e false c) h = (o, h') → hstep (purged, h) (purged, h')
| HPurge purged h room gs st' :
    (∀ g, g ∈ gs → g ≤ seq_gen (h_db h)) → unused h gs → purge_unreferenced_state_groups engine room gs (h_store h) = Ok st' →
    hstep (purged, h) (purged ∪ list_to_set gs, set_store st' h)
| HRoom purged h room ver :
    rooms (h_main h) !! room = None →
    hstep (purged, h) (purged, set_main (MkMain (event_to_state_groups (h_main h)) (partial_state_events (h_main h)) (partial_state_rooms (h_main h)) (<[room := ver]> (rooms (h_main h)))) h)
| HPartialRoom purged h prooms :
    hstep (purged, h) (purged, set_main (MkMain (event_to_state_groups (h_main h)) (partial_state_events (h_main h)) prooms (rooms (h_main h))) h)
| HTime purged h now : h_now h ≤ now → hstep (purged, h) (purged, MkHandler (h_store h) (h_main h) (h_heap h) (h_cache h) now (h_deltas h))
| HForget purged h ds : ds ⊆ h_deltas h → hstep (purged, h) (purged, set_deltas ds h)
| HPrune purged h : hstep (purged, h) (purged, set_cache (ec_prune_cache (h_now h) (h_cache h)) h)
| HResize purged h n b c : 0 ≤ n → ec_set_cache_factor (entry_size h) n (h_cache h) = Ok (b, c) → hstep (purged, h) (purged, set_cache c h).

(** ** Every step keeps the invariant *)

(** Groups that are there stay, and keep their state. *)
Record stays (P : gset Z) (h : Handler) (P' : gset Z) (h' : Handler) : Prop := {
  st_purged : P ⊆ P';
  st_seq : seq_gen (h_db h) ≤ seq_gen (h_db h');
  st_full g : live P (h_store h) g → g ∉ P' → full_state (h_db h') g = full_state (h_db h) g;
  st_row g : g ∉ P' → is_Some (state_groups (h_db h) !! g) → state_groups (h_db h') !! g = state_groups (h_db h) !! g;
  st_events ev g : event_to_state_groups (h_main h) !! ev = Some g → g ∉ P'
}.

Lemma grows_stays P h h' : hinv P h → grows h h' → stays P h P h'.
Proof.
  intros Hh G. constructor; [done|apply G| | |].
  - intros g [Hg _] _. apply (gr_state _ _ G). unfold h_db. lia.
  - intros g _ Hg. by apply (gr_row _ _ G).
  - intros ev g Hg. by apply (hi_events _ _ _ _ _ Hh) in Hg as [[_ ?] _].
Qed.

Lemma compute_state_after_ok P h room ids f await :
  hinv P h → (∀ e, e ∈ ids → event_room e = room) → canonical (default all f) →
  ∃ o h', compute_state_after_events engine main is_mine_id room ids f await h = (o, h') ∧ hinv P h' ∧ grows h h' ∧ h_db h' = h_db h ∧
    match o with
    | Returned m => ∃ s, state_after h room ids s ∧ (∀ k, matches (default all f) k = true → m !! k = s !! k) ∧ ∀ k v, m !! k = Some v → s !! k = Some v
    | Raised x => fails h room ids x
    | Waiting => await = true ∧ ∃ e, e ∈ ids ∧ e ∈ partial_state_events (h_main h)
    end.
Proof.
  intros Hh Hr Hf. unfold compute_state_after_events, mbind, HM_bind.
  destruct (resolve_for_events_ok engine main key_of event_room P h room ids (still_await is_mine_id await f) Hh Hr) as (o & h1 & -> & Hh1 & G1 & Hdb1 & Ho).
  destruct o as [r|x|].
  - destruct Ho as (s & [(en & Hen & Hok) _] & Hs & _).
    destruct (entry_get_state_ok engine main key_of event_room P h1 r en room s f Hh1 Hf Hen Hok) as (m & h2 & -> & Hh2 & G2 & _ & Hdb2 & Hm & Hm').
    eexists _, h2. split; [done|]. split_and!; [done|by eapply grows_trans|congruence|]. by exists s.
  - eexists _, h1. split; [done|]. by split_and!.
  - eexists _, h1. split; [done|]. split_and!; [done|done|done| |by destruct Ho].
    destruct Ho as [Ha _]. unfold still_await in Ha. destruct f as [f|]; [|done]. by destruct await.
Qed.

Lemma state_ids_for_events_ok P h ids f await :
  hinv P h → canonical (default all f) →
  ∃ o h', get_state_ids_for_events engine main is_mine_id ids f await h = (o, h') ∧ hinv P h' ∧ grows h h' ∧ h_db h' = h_db h ∧
    match o with
    | Returned m => ∀ e, e ∈ ids → ∃ g, event_group h e = Some g ∧ m !! e = Some (filter_state (default all f) (full_state (h_db h) g))
    | Raised x => x = PyBuiltin RuntimeError ∧ ∃ e, e ∈ ids ∧ event_group h e = None
    | Waiting => await = true ∧ ∃ e, e ∈ ids ∧ e ∈ partial_state_events (h_main h)
    end.
Proof.
  intros Hh Hf. unfold get_state_ids_for_events, mbind, HM_bind. pose proof (groups_for_events h ids (still_await is_mine_id await f)) as Hg.
  destruct (get_state_group_for_events ids (still_await is_mine_id await f) h) as [[m|x|] h1].
  - destruct Hg as (-> & -> & Hm & Hk). 
    destruct (get_state_for_groups_ok engine main key_of event_room P h (set_iter (groups_of h ids)) f Hh Hf) as (res & h2 & Hget & Hh2 & G2 & _ & Hdb2 & Hres & _).
    { apply Forall_forall. intros g (e & He & Hge)%elem_of_set_iter%elem_of_groups_of. by apply (hi_events _ _ _ _ _ Hh) in Hge as [? _]. }
    unfold get_state_for_groups in Hget. rewrite Hget.
    assert (Hfold : ∀ (l : list string) (acc : gmap string StateMap), (∀ e, e ∈ l → e ∈ ids) →
      ∃ r, fold_res (add_event_state m res) l acc = Ok r ∧
        (∀ e, e ∈ l → ∃ g, event_group h e = Some g ∧ r !! e = Some (filter_state (default all f) (full_state (h_db h) g))) ∧ ∀ e, e ∉ l → r !! e = acc !! e).
    { induction l as [|e l IH]; intros acc Hl; cbn [fold_res]; [exists acc; split_and!; [done|by intros e ?%not_elem_of_nil|done]|].
      assert (He : e ∈ ids) by (apply Hl; by left). destruct (Hk e He) as [g Hge]. unfold add_event_state at 2. rewrite (proj2 (Hm e g)) by done. cbn [mbind option_bind].
      rewrite Hres by (apply elem_of_set_iter, elem_of_groups_of; eauto). cbn [mbind result_bind].
      destruct (IH (<[e := filter_state (default all f) (full_state (h_db h) g)]> acc)) as (r & -> & Hin & Hout); [intros; apply Hl; by right|].
      exists r. split; [done|]. split.
      - intros e' [->|He']%elem_of_cons; [|by apply Hin]. destruct (decide (e ∈ l)) as [|Hn]; [by apply Hin|]. exists g. split; [done|]. rewrite Hout by done. apply lookup_insert_eq.
      - intros e' [Hne Hn]%not_elem_of_cons. rewrite Hout by done. by apply lookup_insert_ne. }
    destruct (Hfold ids ∅ (λ e He, He)) as (r & Hr & Hin & _). unfold lift. rewrite Hr. eexists _, h2. split; [done|]. split_and!; done.
  - destruct Hg as (-> & -> & He). eexists _, h. split; [done|]. split_and!; [done|apply grows_refl|done|done|done].
  - destruct Hg as (-> & Ha & He). eexists _, h. split; [done|]. split_and!; [done|apply grows_refl|done| |done].
    unfold still_await in Ha. destruct f as [f|]; [|done]. by destruct await.
Qed.

(** ** The tables of the main database *)

Lemma upsert_ok id o t t' :
  upsert_state_group id o t = Ok t' → rooms t' = rooms t ∧ ∃ g, o = Some g ∧ event_to_state_groups t' = <[id := g]> (event_to_state_groups t).
Proof. unfold upsert_state_group. destruct o as [g|]; [|done]. intros [= <-]. split; [done|]. by exists g. Qed.

Lemma mappings_ok l t t' :
  _store_event_state_mappings_txn l t = Ok t' →
  rooms t' = rooms t ∧ ∀ ev g, event_to_state_groups t' !! ev = Some g →
    event_to_state_groups t !! ev = Some g ∨ ∃ e c, (e, false, c) ∈ l ∧ event_id e = ev ∧ mapped_group c = Ok (Some g).
Proof.
  unfold _store_event_state_mappings_txn. intros (groups & Hgroups & (t1 & Ht1 & Ht')%bind_ok)%bind_ok.
  assert (Hin : ∀ i, i ∈ groups → ∃ e c, (e, false, c) ∈ l ∧ event_id e = i.1 ∧ mapped_group c = Ok i.2).
  { revert Hgroups. apply (fold_res_ind (λ groups, ∀ i, i ∈ groups → ∃ e c, (e, false, c) ∈ l ∧ event_id e = i.1 ∧ mapped_group c = Ok i.2)); [|by intros i ?%not_elem_of_nil].
    intros acc [[e out] c] acc' Hl Hacc. destruct out.
    - intros ([] & _ & [= <-])%bind_ok. done.
    - intros (o & Ho & [= <-])%bind_ok i [Hi|Hi%list_elem_of_singleton]%elem_of_app; [by apply Hacc|]. subst i. by exists e, c. }
  assert (Hp : rooms t1 = rooms t ∧ event_to_state_groups t1 = event_to_state_groups t).
  { revert Ht1. apply (fold_res_ind (λ t1, rooms t1 = rooms t ∧ event_to_state_groups t1 = event_to_state_groups t)); [|done].
    intros ta [[e out] c] tb _ [E1 E2]. simpl. destruct (ec_partial_state c); [|by intros [= <-]]. unfold insert_partial_state_event.
    destruct (_ && _); [|done]. intros [= <-]. done. }
  destruct Hp as [E1 E2]. revert Ht'. apply (fold_res_ind (λ t', rooms t' = rooms t ∧ ∀ ev g, event_to_state_groups t' !! ev = Some g →
    event_to_state_groups t !! ev = Some g ∨ ∃ e c, (e, false, c) ∈ l ∧ event_id e = ev ∧ mapped_group c = Ok (Some g))); [|by rewrite E1, E2; split; [|left]].
  intros ta i tb Hi [F1 F2] (G1 & g & Hg & G2)%upsert_ok. split; [congruence|]. intros ev g'. rewrite G2.
  intros [[<- <-]|[_ ?]]%lookup_insert_Some; [|by apply F2]. right. destruct (Hin i Hi) as (e & c & Hl & He & Hm). exists e, c. by rewrite <- Hg.
Qed.

Lemma update_group_ok e c t t' :
  _update_state_for_partial_state_event_txn e false c t = Ok t' →
  rooms t' = rooms t ∧ ∀ ev g, event_to_state_groups t' !! ev = Some g →
    event_to_state_groups t !! ev = Some g ∨ event_id e = ev ∧ mapped_group c = Ok (Some g).
Proof.
  unfold _update_state_for_partial_state_event_txn. cbn [raise_if mbind result_bind]. intros (o & Ho & (t1 & Ht1 & Ht')%bind_ok)%bind_ok.
  case_bool_decide; [|done]. injection Ht' as <-. simpl. case_bool_decide; [|injection Ht1 as <-; split; [done|by left]].
  apply upsert_ok in Ht1 as (E1 & g & -> & E2). split; [done|]. intros ev g'. rewrite E2.
  intros [[<- <-]|[_ ?]]%lookup_insert_Some; [by right|by left].
Qed.

Lemma hinv_set_main P h t :
  hinv P h → rooms (h_main h) ⊆ rooms t →
  (∀ ev g, event_to_state_groups t !! ev = Some g → there P h (event_room ev) g) → hinv P (set_main t h) ∧ stays P h P (set_main t h).
Proof.
  intros Hh Hr He. split; [|constructor; try done; intros ev g Hg; by apply (hi_events _ _ _ _ _ Hh) in Hg as [[_ ?] _]].
  constructor; [apply Hh|done|apply Hh| |apply Hh|intros g r Hg; by apply (hi_deltas _ _ _ _ _ Hh)]. destruct (hi_cached _ _ _ _ _ Hh) as [owner Ho]. exists owner. intros gs ti r Hi.
  destruct (Ho gs ti r Hi) as (e & s & Hen & Hgs & (ver & l & Hv & Hl & Hres) & [E1 E2 E3 E4 E5 E6] & Hp). exists e, s. split_and!; [done|done| | |done].
  - exists ver, l. split_and!; [by eapply lookup_weaken|done|done].
  - by constructor.
Qed.

Lemma main_op_ok P h f o h' :
  hinv P h → (∀ t, f (h_main h) = Ok t → rooms t = rooms (h_main h) ∧ ∀ ev g, event_to_state_groups t !! ev = Some g → there P h (event_room ev) g) →
  main_op f h = (o, h') → hinv P h' ∧ stays P h P h'.
Proof.
  intros Hh Hf. unfold main_op. destruct (f (h_main h)) as [t|x] eqn:Ef; intros [= <- <-].
  - destruct (Hf t eq_refl) as [Hr He]. apply hinv_set_main; [done|by rewrite Hr|done].
  - split; [done|]. by apply grows_stays, grows_refl.
Qed.

(** ** Purging *)

Lemma purge_ok P h room gs st' :
  hinv P h → (∀ g, g ∈ gs → g ≤ seq_gen (h_db h)) → unused h gs → purge_unreferenced_state_groups engine room gs (h_store h) = Ok st' →
  hinv (P ∪ list_to_set gs) (set_store st' h) ∧ stays P h (P ∪ list_to_set gs) (set_store st' h).
Proof.
  intros Hh Hgs [Hu1 Hu2] Hp. pose proof (hi_life _ _ _ _ _ Hh) as Hlife.
  destruct (sstep_kept engine main (P, h_store h) (P ∪ list_to_set gs, st') Hlife) as (Hlife' & _); [by eapply SPurge|].
  unfold purge_unreferenced_state_groups in Hp. destruct (purge_unreferenced_ok engine room gs (h_db h) (hi_wf _ _ _ _ _ Hh)) as (db' & Hok & Hwf' & Hfr & _ & Hrow & Hseq).
  unfold h_db in Hok. rewrite Hok in Hp. cbn [mbind result_bind] in Hp. injection Hp as <-. set (h' := set_store _ h).
  assert (Hnot : ∀ g, g ∉ P ∪ list_to_set gs ↔ (g ∉ P) ∧ (g ∉ gs)) by (intros g; by rewrite not_elem_of_union, (elem_of_list_to_set (C := gset Z))).
  assert (Hlive : ∀ g, live (P ∪ list_to_set gs) (h_store h') g ↔ live P (h_store h) g ∧ (g ∉ gs)).
  { intros g. unfold live. simpl. unfold h_db in Hseq. rewrite Hseq, Hnot. naive_solver. }
  assert (Hth : ∀ r g, there P h r g → (g ∉ gs) → there (P ∪ list_to_set gs) h' r g).
  { intros r g [Hl Hg] Hn. split; [by apply Hlive|]. unfold group_room. unfold h_db at 1. simpl. by rewrite Hrow. }
  assert (Hfull : ∀ g, (g ∉ gs) → full_state (h_db h') g = full_state (h_db h) g) by (intros g Hn; by apply Hfr).
  split.
  - constructor; [done| | | |apply Hh|].
    + intros ev g Hg. apply Hth; [by apply (hi_events _ _ _ _ _ Hh)|by eapply Hu1].
    + intros g [Hl Hn]%Hlive. rewrite Hfull by done. by apply (hi_keyed _ _ _ _ _ Hh).
    + destruct (hi_cached _ _ _ _ _ Hh) as [owner Ho]. exists owner. intros names t r Hi.
      destruct (Ho names t r Hi) as (e & s & Hen & Hnames & (ver & l & Hv & Hl & Hres) & [E1 E2 E3 E4 E5 E6] & Hpr).
      destruct (Hu2 names t r e Hi Hen) as (U1 & U2 & U3). exists e, s. split_and!; [done|by auto| | |by auto].
      * exists ver, l. split_and!; [done|done|]. rewrite <- Hres. f_equal. apply list_fmap_ext. intros i g Hg. apply Hfull, U1, elem_of_elements.
        rewrite <- Hl. by eapply list_elem_of_lookup_2.
      * constructor; try done.
        -- intros g Hg. destruct (E2 g Hg) as [Ht Hs]. split; [by auto|]. by rewrite Hfull by auto.
        -- intros p Hp'. destruct (E3 p Hp') as (Hp0 & d & Hd & Hs). split; [unfold h_db; simpl; lia|]. exists d. split; [done|]. intros [Hn1 Hn2]%Hnot. rewrite Hfull by done. auto.
        -- intros p Hn Hp'. apply Hth; [by apply E5|by apply U3].
    + intros g r Hg. destruct (hi_deltas _ _ _ _ _ Hh g r Hg) as [Hle Hd]. split; [unfold h_db at 1; simpl; lia|].
      intros [Hn1 Hn2]%Hnot p d Hr. destruct (Hd Hn1 p d Hr) as [Hp0 Hs]. split; [unfold h_db at 1; simpl; lia|].
      intros [Hm1 Hm2]%Hnot. rewrite !Hfull by done. auto.
  - constructor.
    + apply union_subseteq_l.
    + unfold h_db at 2. simpl. lia.
    + intros g _ [_ Hn]%Hnot. by apply Hfull.
    + intros g [_ Hn]%Hnot _. unfold h_db at 1. simpl. by apply Hrow.
    + intros ev g Hg. apply Hnot. split; [|by eapply Hu1]. by apply (hi_events _ _ _ _ _ Hh) in Hg as [[_ ?] _].
Qed.
End life.
