(* ===== verification/StateHandlerHistory.v ===== *)
(** * The state handler: the theorems *)

From S2P Require Import Prelude PyVal Constants RoomVersions Events TopoSort StateFilter StateFilterProps StateGroups StateGroupProps StateGroupWrites CacheStores LruHistory DictionaryCache DictionaryCacheProps StateStore StateStoreProps StateStoreMain ExpiringCache EventContext StateHandler StateHandlerProps StateHandlerThms StateHandlerMain.

(** C15: the entry made for a resolved state stands for that state and is the cheapest one:
    an input group when one has that state; else an input group it only adds to or
    changes, with the changes, of which there are no more than from any other such group;
    and the whole state only when every group has keys the state has not. *)
Theorem resolved_entry_closest `{IterOrderOk} (key_of : string → string * string) (new : StateMap) (groups : gmap Z StateMap) :
  keyed key_of new → (∀ g m, groups !! g = Some m → keyed key_of m) →
  ∃ e, _make_state_cache_entry new groups = Ok e ∧
    ((∃ g, e = MkEntry None (Some g) None None ∧ groups !! g = Some new) ∨
     (∃ p m d, e = MkEntry None None (Some p) (Some d) ∧ groups !! p = Some m ∧ d ∪ m = new ∧ (∀ g, groups !! g ≠ Some new) ∧
       ∀ p' m', groups !! p' = Some m' → dom m' ⊆ dom new → (size d ≤ size (changes m' new))%nat) ∨
     (e = MkEntry (Some new) None None None ∧ ∀ g m, groups !! g = Some m → ¬ dom m ⊆ dom new)).
Proof. intros Hn Hg. by apply (make_entry_ok key_of). Qed.

Section history.
Context `{IterOrderOk, HR : StateResolver} (engine : DatabaseEngine) (main : nat) (is_mine_id : string → bool).
Context (key_of : string → string * string) (event_room : string → string).
Context `{!StateResolverLaws HR key_of}.

Abbreviation keyed := (keyed key_of).
Abbreviation hinv := (hinv main key_of event_room).
Abbreviation event_ok := (event_ok key_of event_room).
Abbreviation given_ok := (given_ok key_of).
Abbreviation hstep := (hstep engine main is_mine_id key_of event_room).

Lemma hstep_ok w w' : hinv w.1 w.2 → hstep w w' → hinv w'.1 w'.2 ∧ stays w.1 w.2 w'.1 w'.2.
Proof.
  intros Hh Hs. destruct Hs as [P h e ids partial group o h' He Hg E|P h e s c o h' He Hc E|P h room ids f await o h' Hr Hf E|P h ids f await o h' Hf E
    |P h l o h' Hm E|P h e c o h' Hm E|P h room gs st' Hgs Hu E|P h room ver Hr|P h prooms|P h now Hn|P h ds Hds|P h|P h n b c Hn E]; simpl in *.
  - destruct (calculate_ok engine main key_of event_room P h e ids partial group Hh He Hg) as (o1 & h1 & E1 & Hh1 & G & _). rewrite E in E1. injection E1 as <- <-.
    split; [done|by apply (grows_stays main key_of event_room)].
  - destruct (persist_context_ok engine main key_of event_room P h e s c Hh He Hc) as (c1 & h1 & E1 & Hh1 & G & _). rewrite E in E1. injection E1 as -> <-.
    split; [done|by apply (grows_stays main key_of event_room)].
  - destruct (compute_state_after_ok engine main is_mine_id key_of event_room P h room ids f await Hh Hr Hf) as (o1 & h1 & E1 & Hh1 & G & _). rewrite E in E1. injection E1 as <- <-.
    split; [done|by apply (grows_stays main key_of event_room)].
  - destruct (state_ids_for_events_ok engine main is_mine_id key_of event_room P h ids f await Hh Hf) as (o1 & h1 & E1 & Hh1 & G & _). rewrite E in E1. injection E1 as <- <-.
    split; [done|by apply (grows_stays main key_of event_room)].
  - eapply main_op_ok; [done| |exact E]. intros t [Hr Ht]%mappings_ok. split; [done|]. intros ev g [Hg|(e & c & Hl & <- & Hg)]%Ht; [by apply (hi_events _ _ _ _ _ Hh)|].
    destruct (Hm e c Hl) as [He Hx]. rewrite (ev_room _ _ e He). by apply Hx.
  - eapply main_op_ok; [done| |exact E]. intros t [Hr Ht]%update_group_ok. split; [done|]. intros ev g [Hg|(<- & Hg)]%Ht; [by apply (hi_events _ _ _ _ _ Hh)|].
    destruct Hm as [He Hx]. rewrite (ev_room _ _ e He). by apply Hx.
  - by eapply purge_ok.
  - apply hinv_set_main; [done|by apply insert_subseteq|]. intros ev g Hg. by apply (hi_events _ _ _ _ _ Hh).
  - apply hinv_set_main; [done|done|]. intros ev g Hg. by apply (hi_events _ _ _ _ _ Hh).
  - split; [|constructor; try done; intros ev g Hg; by apply (hi_events _ _ _ _ _ Hh) in Hg as [[_ ?] _]].
    constructor; [apply Hh|apply Hh|apply Hh| | |intros g r Hg; by apply (hi_deltas _ _ _ _ _ Hh)].
    + destruct (hi_cached _ _ _ _ _ Hh) as [owner Ho]. exists owner. intros gs t r (e & s & Hen & Hgs & Hres & [E1 E2 E3 E4 E5 E6] & Hp)%Ho. exists e, s. by split_and!.
    + destruct (hi_cache _ _ _ _ _ Hh) as [last Hc]. exists last. by eapply estep_inv, ETime.
  - assert (G : grows h (set_deltas ds h)) by (by constructor). split; [|by apply (grows_stays main key_of event_room)].
    destruct Hh as [I1 I2 I3 [owner I4] I5 I6]. constructor; [exact I1|exact I2|exact I3| |exact I5|].
    + exists owner. intros gs t r' Hi. by eapply cached_grows, I4.
    + intros g r Hg. apply (delta_grows _ h); [done|]. apply I6. by eapply lookup_weaken.
  - destruct (hi_cache _ _ _ _ _ Hh) as [last Hc], (hi_cached _ _ _ _ _ Hh) as [owner Ho].
    split; [|apply (grows_stays main key_of event_room); [done|apply grows_set_cache]]. apply hinv_set_cache; [done|exists last; by eapply estep_inv, EPrune|].
    exists owner. intros gs t r Hi. apply (Ho gs t). rewrite ec_prune_cache_eq in Hi by apply Hc. simpl in Hi. by apply list_elem_of_filter in Hi as [_ ?].
  - destruct (hi_cache _ _ _ _ _ Hh) as [last Hc], (hi_cached _ _ _ _ _ Hh) as [owner Ho].
    split; [|apply (grows_stays main key_of event_room); [done|apply grows_set_cache]]. apply hinv_set_cache; [done|exists last; by eapply estep_inv, EResize|].
    exists owner. intros gs t r Hi. apply (Ho gs t). unfold ec_set_cache_factor in E. case_bool_decide; [by injection E as <- <-|].
    match type of E with (ec_evict ?z ?k ≫= _) = _ => destruct (ec_evict_ok z k Hn) as (m & Hok & _) end. rewrite Hok in E. cbn [mbind result_bind] in E. injection E as <- <-.
    simpl in Hi. by apply (elem_of_submseteq _ (ec_cache (h_cache h))) in Hi; [|apply sublist_submseteq, sublist_drop].
Qed.

Lemma stays_refl P h : hinv P h → stays P h P h.
Proof. intros Hh. apply (grows_stays main key_of event_room); [done|apply grows_refl]. Qed.

(** The groups an event had at some time stay, and so does their state. *)
Definition remains (w w' : gset Z * Handler) : Prop :=
  seq_gen (h_db w.2) ≤ seq_gen (h_db w'.2) ∧
  ∀ g, live w.1 (h_store w.2) g → g ∉ w'.1 → full_state (h_db w'.2) g = full_state (h_db w.2) g.

Lemma hsteps_ok w w' : hinv w.1 w.2 → rtc hstep w w' → hinv w'.1 w'.2 ∧ w.1 ⊆ w'.1 ∧ remains w w'.
Proof.
  intros Hh Hs. revert Hh. induction Hs as [w|w1 w2 w3 H12 _ IH]; intros Hh; [done|].
  destruct (hstep_ok w1 w2 Hh H12) as [Hh2 [S1 S2 S3 _ _]]. destruct (IH Hh2) as (Hh3 & Hsub & R1 & R2). split_and!; [done|by etransitivity|].
  split; [lia|]. intros g Hg Hn. assert (Hn2 : g ∉ w2.1) by (intros Hin; by apply Hn, Hsub). rewrite R2; [by apply S3| |done].
  destruct Hg as [Hg _]. split; [unfold h_db in *; lia|done].
Qed.

(** ** Reachable handlers *)

Record tables_ok (db : sgdb) (t : MainTables) : Prop := {
  to_wf : wf db;
  to_keyed g : keyed (full_state db g);
  to_events ev g : event_to_state_groups t !! ev = Some g → 0 < g ≤ seq_gen db ∧ fst <$> state_groups db !! g = Some (event_room ev)
}.

(** A handler that was started on such tables, and what has been purged since. *)
Definition handler_reachable (w : gset Z * Handler) : Prop :=
  ∃ factor scaled db t now, tables_ok db t ∧ 0 ≤ factor 50000 ∧ 0 ≤ factor 500000 ∧ 0 ≤ scaled ∧
    rtc hstep (∅, new_Handler factor scaled db t now) w.

Lemma new_state_handler_ok factor scaled db t now :
  tables_ok db t → 0 ≤ factor 50000 → 0 ≤ factor 500000 → 0 ≤ scaled → hinv ∅ (new_Handler factor scaled db t now).
Proof.
  intros [T1 T2 T3] F1 F2 Hs. constructor.
  - by apply new_store_ok.
  - intros ev g [Hg Hr]%T3. split; [split; [done|apply not_elem_of_empty]|done].
  - intros g _. apply T2.
  - exists (λ _, ""). intros gs ti r Hi. by apply not_elem_of_nil in Hi.
  - exists (λ _, None). constructor; simpl; [done|constructor|by intros k ti v ?%not_elem_of_nil| |].
    + intros r. pose proof (entry_len_pos (entry_at (new_Handler factor scaled db t now) r)). unfold entry_size. lia.
    + intros [_ Hb]. unfold ec_len in Hb. simpl in Hb. lia.
  - intros g r Hg. simpl in Hg. by rewrite lookup_empty in Hg.
Qed.

Lemma handler_reachable_ok w : handler_reachable w → hinv w.1 w.2.
Proof.
  intros (factor & scaled & db & t & now & Ht & F1 & F2 & Hs & Hr). apply (hsteps_ok (∅, new_Handler factor scaled db t now) w); [|done]. by apply new_state_handler_ok.
Qed.

(** ** The theorems *)

(** C3: [compute_event_context] finds the state of an event that is not an outlier.  The
    handler is one that was started on well-formed tables ([tables_ok]) and reached by calls,
    failures, expiry, and purges of groups that neither an event nor an entry of the cache of
    resolved states names (a purge of a group that the cache still names is excluded, though
    the code does not check it: see [purged_group_used_again]).  The event and the given
    state are under their own keys and of the room ([event_ok], [given_ok]).  Then the
    context has groups of the room for the states before and after the event.  The state
    before it is the given one, or that of the group of its prev events, or what their groups
    resolve to, even when the answer comes from the cache; after a state event it has the
    event at its key.  A delta in the context leads from its first group to its second,
    unless the first has been purged (the deltas come from a cache that is not told of
    purges: see [stale_group_delta]).  The call fails only when no state is given and a prev
    event has no state, the version of the room is not known, or resolution fails. *)
Theorem compute_event_context_correct P h e ids partial :
  handler_reachable (P, h) → event_ok e → given_ok P h e ids partial None →
  match compute_event_context engine main e false ids partial h with
  | (Returned c, h') => ∃ s, context_ok P h' e s c ∧
      match ids with
      | Some m => s = m ∧ Some (ec_partial_state c) = partial
      | None => state_after h (room_id e) (prev_event_ids e) s ∧ ec_partial_state c = bool_decide (Exists (λ p, p ∈ partial_state_events (h_main h)) (prev_event_ids e))
      end
  | (Raised x, _) => ids = None ∧ fails h (room_id e) (prev_event_ids e) x
  | (Waiting, _) => False
  end.
Proof.
  intros Hr%handler_reachable_ok He Hg. unfold compute_event_context, mbind, HM_bind.
  destruct (calculate_ok engine main key_of event_room P h e ids partial None Hr He Hg) as ([[c rep]|x|] & h1 & -> & Hh1 & G1 & Ho); [|done|done].
  destruct Ho as (s & Hc & _ & Hs). cbn [fst]. destruct (persist_context_ok engine main key_of event_room P h1 e s c Hh1 He Hc) as (c' & h2 & -> & Hh2 & G2 & Hok & Hp).
  exists s. split; [done|]. by rewrite Hp.
Qed.

(** C6: the state at an event that was stored stays what it was.  Once the context of a
    (non-outlier) event is stored, reading the state at the event with any canonical filter
    returns what the filter lets through of that state, after any further history of the
    handler in the sense of C3 (in which no purge takes a group that an event or an entry of
    the cache of resolved states names), as long as the event has not been given another
    group, as when its state becomes complete. *)
Theorem stored_event_state P h e ids partial c h1 h2 P3 h3 f :
  handler_reachable (P, h) → event_ok e → given_ok P h e ids partial None →
  compute_event_context engine main e false ids partial h = (Returned c, h1) →
  main_op (_store_event_state_mappings_txn [(e, false, c)]) h1 = (Returned tt, h2) →
  rtc hstep (P, h2) (P3, h3) → event_group h3 (event_id e) = event_group h2 (event_id e) → canonical f →
  ∃ s, (match ids with Some m => s = m | None => state_after h (room_id e) (prev_event_ids e) s end) ∧
    ∃ m h4, get_state_ids_for_events engine main is_mine_id [event_id e] (Some f) false h3 = (Returned m, h4) ∧
      m !! event_id e = Some (filter_state f (event_delta e ∪ s)).
Proof.
  intros Hr%handler_reachable_ok He Hg Hc Hm Hs Hsame Hf. unfold compute_event_context, mbind, HM_bind in Hc.
  destruct (calculate_ok engine main key_of event_room P h e ids partial None Hr He Hg) as ([[uc rep]|x|] & ha & Ec & Hha & Ga & Ho); rewrite Ec in Hc; [|done|done].
  destruct Ho as (s & Huc & _ & Hst). destruct (persist_context_ok engine main key_of event_room P ha e s uc Hha He Huc) as (c' & hb & Ep & Hhb & Gb & Hok & _).
  cbn [fst] in Hc. rewrite Ep in Hc. injection Hc as -> ->. destruct (co_after _ _ _ _ _ Hok) as (a & Ha & Hta & Hsa).
  assert (Hmg : mapped_group c = Ok (Some a)) by (unfold mapped_group, state_group; rewrite (co_rejected _ _ _ _ _ Hok), Ha; done).
  assert (Hh2 : hinv P h2 ∧ h_store h2 = h_store h1 ∧ event_group h2 (event_id e) = Some a).
  { split; [|].
    - apply (hstep_ok (P, h1) (P, h2) Hhb). eapply (HMapping _ _ _ _ _ P h1 [(e, false, c)] (Returned tt) h2); [|done].
      intros e' c' [= -> ->]%list_elem_of_singleton. split; [done|]. intros g. rewrite Hmg. by intros [= <-].
    - unfold main_op in Hm. destruct (_store_event_state_mappings_txn [(e, false, c)] (h_main h1)) as [t|] eqn:Et; [|done]. injection Hm as <-. split; [done|].
      unfold _store_event_state_mappings_txn in Et. cbn [fold_res] in Et. rewrite Hmg in Et. cbn [mbind result_bind app fold_res] in Et.
      apply bind_ok in Et as (t1 & _ & Et). cbn in Et. injection Et as <-. unfold event_group. simpl. apply lookup_insert_eq. }
  destruct Hh2 as (Hh2 & Hst2 & Hg2). destruct (hsteps_ok (P, h2) (P3, h3) Hh2 Hs) as (Hh3 & Hsub & Hseq & Hfull). simpl in *.
  exists s. split; [destruct ids; by destruct Hst|]. rewrite Hg2 in Hsame.
  destruct (state_ids_for_events_ok engine main is_mine_id key_of event_room P3 h3 [event_id e] (Some f) false Hh3 Hf) as (o & h4 & Eq & _ & _ & _ & Ho).
  destruct o as [m|x|]; [|destruct Ho as (_ & ev & ->%list_elem_of_singleton & Hn); congruence|by destruct Ho].
  exists m, h4. split; [done|]. destruct (Ho (event_id e) ltac:(by left)) as (g & Hge & ->). rewrite Hsame in Hge. injection Hge as <-. simpl. do 2 f_equal.
  rewrite Hfull; [unfold h_db in *; by rewrite Hst2| |by apply (hi_events _ _ _ _ _ Hh3) in Hsame as [[_ ?] _]].
  destruct Hta as [Hl _]. by rewrite Hst2.
Qed.

(** [compute_state_after_events] returns the resolved state: on every key the filter
    matches the result is that of the state the groups of the events resolve to, and it
    contains nothing that is not in that state.  It waits only for events whose state is
    partial, when it is asked to. *)
Theorem state_after_events_correct P h room ids f await :
  handler_reachable (P, h) → (∀ e, e ∈ ids → event_room e = room) → canonical (default all f) →
  match compute_state_after_events engine main is_mine_id room ids f await h with
  | (Returned m, _) => ∃ s, state_after h room ids s ∧ (∀ k, matches (default all f) k = true → m !! k = s !! k) ∧ ∀ k v, m !! k = Some v → s !! k = Some v
  | (Raised x, _) => fails h room ids x
  | (Waiting, _) => await = true ∧ ∃ e, e ∈ ids ∧ e ∈ partial_state_events (h_main h)
  end.
Proof.
  intros Hr%handler_reachable_ok He Hf. destruct (compute_state_after_ok engine main is_mine_id key_of event_room P h room ids f await Hr He Hf) as (o & h' & -> & _ & _ & _ & Ho).
  by destruct o.
Qed.

(** The cache of resolved states stays within its size, although its entries change. *)
Theorem state_cache_bounded P h :
  handler_reachable (P, h) → ec_max_size (h_cache h) = 0 ∨ ec_len (entry_size h) (h_cache h) ≤ ec_max_size (h_cache h).
Proof.
  intros Hr%handler_reachable_ok. destruct (hi_cache _ _ _ _ _ Hr) as [last Hc]. pose proof (ci_small _ Hc) as Hb. unfold too_big in Hb. simpl in Hb. lia.
Qed.
End history.
