(* ===== verification/StateDispatch.v ===== *)
(** * Choosing the algorithm: [StateResolutionHandler.resolve_events_with_store]

    The dispatch of [synapse/state/__init__.py] on the version of the room, over the two
    algorithms, and what the state handler relies on. *)

From S2P Require Import Prelude PyVal Constants RoomVersions Events EventAuth TopoSort StateResV2 StateResLemmas StateResProps StateResV1 StateResV1Props StateResV1Thms EventContext StateHandler StateHandlerProps StateHandlerThms.

Section dispatch.
Context `{IterOrder, StateResolutionStore, V1.Sha1, Crypto}.

(** [state_res_store.get_events] without rejected events, as version 1 calls it. *)
Definition get_accepted_events (X : gset string) : EventMap := filter (λ ie, rejected_reason ie.2 = None) (get_events (set_iter X)).

(** [None] is out of fuel. *)
Definition resolve_events_with_store (fuel : nat) (room_id room_version : string) (state_sets : list (StateMap string)) (event_map : option EventMap)
    : option (result (StateMap string)) :=
  match list_to_map (M := gmap string RoomVersion) KNOWN_ROOM_VERSIONS !! room_version with
  | None => Some (Err (PyBuiltin KeyError))
  | Some room_version_obj =>
      if bool_decide (state_res room_version_obj = StateResolutionVersions.V1)
      then Some (V1.resolve_events_with_store room_id room_version_obj state_sets event_map get_accepted_events)
      else (λ r : result (StateMap string * EventMap), r ≫= λ se, Ok se.1) <$> StateResV2.resolve_events_with_store fuel room_id room_version_obj state_sets (default ∅ event_map)
  end.

(** As the handler calls it. *)
Definition handler_resolver (fuel : nat) : StateResolver := λ room_id room_version state_sets,
  default (Err (PyBuiltin RuntimeError)) (resolve_events_with_store fuel room_id room_version state_sets None).
End dispatch.

(** ** The interface of the state handler *)

(** The key of an event of the database. *)
Definition db_key (db : EventMap) (id : string) : string * string :=
  match db !! id with Some e => unwrap ("", "") (event_key e) | None => ("", "") end.

Section laws.
Context `{IterOrderOk} `{!StateResolutionStore, !V1.Sha1, !Crypto} (db : EventMap) `{!StoreLaws _ db}.
Context (Hids : ∀ id e, db !! id = Some e → event_id e = id).

Lemma accepted_ok : store_ok (filter (λ ie, rejected_reason ie.2 = None) db) get_accepted_events.
Proof.
  intros X id. unfold get_accepted_events. rewrite get_events_spec, !map_lookup_filter. destruct (db !! id) as [e|]; simpl; [|by case_decide].
  destruct (decide (id ∈ X)) as [Hin|Hn].
  - rewrite (option_guard_True (id ∈ set_iter X)) by (by apply elem_of_set_iter). done.
  - rewrite (option_guard_False (id ∈ set_iter X)) by (by rewrite elem_of_set_iter). done.
Qed.

Lemma v1_from_sets room rv sets s k v :
  V1.resolve_events_with_store room rv sets None get_accepted_events = Ok s → s !! k = Some v → ∃ S, S ∈ sets ∧ S !! k = Some v.
Proof.
  destruct sets as [|S1 [|S2 rest]]; [done|by intros [= ->] Hk; exists s; split; [left|]|]. rewrite resolve_steps. intros (a & _ & _ & _ & E) Hk.
  pose proof (seperate_spec S1 (S2 :: rest)) as Hs. destruct (V1._seperate S1 (S2 :: rest)) as [u c]. cbn [fst snd] in *.
  eapply with_state_choice in E; [|intros id e Hx|].
  - instantiate (1 := k) in E. rewrite Hk in E. apply elem_of_set_values.
    destruct (Hs k) as [(Hv & Hu & Hc)|[(v' & Hv & Hu & Hc)|(v1 & v2 & Hne & Hv1 & Hv2 & Hu & Hc)]]; rewrite Hc in E.
    + congruence.
    + rewrite Hu in E. injection E as <-. rewrite Hv. by apply elem_of_singleton.
    + by destruct E.
  - apply (second_map_sub (filter (λ ie, rejected_reason ie.2 = None) db) _ None) in Hx; [|apply accepted_ok]. unfold all_events in Hx. simpl in Hx.
    rewrite (left_id_L ∅ (∪)) in Hx. apply map_lookup_filter_Some in Hx as [Hx _]. by apply Hids.
  - intros k' ids. apply (separated_c _ _ _ _ (Hs k')).
Qed.

(** What version 2 returns: the entries all the sets have, and events of the database at
    their own keys. *)
Lemma v2_entries fuel room rv sets s em k v :
  returns (StateResV2.resolve_events_with_store fuel room rv sets) ∅ s em → s !! k = Some v →
  (sets ≠ [] ∧ ∀ S, S ∈ sets → S !! k = Some v) ∨ ∃ e, db !! v = Some e ∧ event_key e = Ok k.
Proof.
  intros Hr. unfold StateResV2.resolve_events_with_store in Hr. pose proof (unconflicted_spec sets) as Hu.
  destruct (StateResV2._seperate sets) as [u c]. simpl in Hu. case_bool_decide.
  { apply returns_ret in Hr as [-> ->]. intros Hv%Hu. by left. }
  apply returns_bind in Hr as (diff & em1 & Hdiff & Hr). pose proof (auth_chain_difference_map _ _ _ _ _ _ Hdiff) as ->.
  apply returns_bind in Hr as (full & em2 & Hfetch & Hr). apply (fetch_conflicted_spec db) in Hfetch as (-> & _ & Eem & _).
  apply (resolve_conflicted_spec db) in Hr as (Hg & _ & Hadd). intros [Hv%Hu|[Hin (ev & ev' & Hem & Hsame & Hkey)]]%Hadd; [by left|right].
  apply elem_of_intersection in Hin as [_ [e0 He0]%elem_of_dom]. destruct (Hg _ _ He0) as (e1 & He1 & Hsame1). rewrite Hem in He1. injection He1 as <-.
  exists e0. rewrite Eem, (right_id_L ∅ (∪)) in He0. apply map_lookup_filter_Some in He0 as [He0 _]. split; [done|].
  apply same_event_key in Hsame as [E1 _], Hsame1 as [E2 _]. congruence.
Qed.

Lemma dispatch_keyed fuel room ver sets s :
  Forall (keyed (db_key db)) sets → resolve_events_with_store fuel room ver sets None = Some (Ok s) → keyed (db_key db) s.
Proof.
  intros Hk. unfold resolve_events_with_store. destruct (_ !! ver) as [rv|]; [|done]. rewrite Forall_forall in Hk. case_bool_decide.
  - intros [= Hr] k v Hv. destruct (v1_from_sets _ _ _ _ _ _ Hr Hv) as (S & HS & HSk). exact (Hk S HS k v HSk).
  - cbn [default from_option]. destruct (StateResV2.resolve_events_with_store fuel room rv sets ∅) as [[[s' em]|x]|] eqn:Er; simpl; [|done|done]. intros [= <-] k v Hv.
    destruct (v2_entries fuel room rv sets s' em k v Er Hv) as [[Hne Hall]|(e & He & Hkey)].
    + destruct sets as [|S sets]; [done|]. exact (Hk S ltac:(by left) k v (Hall S ltac:(by left))).
    + unfold db_key. by rewrite He, Hkey.
Qed.
#[export] Instance handler_resolver_laws fuel : StateResolverLaws (handler_resolver fuel) (db_key db).
Proof.
  intros room ver sets s Hk. unfold resolve_state, handler_resolver. destruct (resolve_events_with_store fuel room ver sets None) as [[s'|]|] eqn:E; simpl; [|done|done].
  intros [= <-]. by eapply dispatch_keyed.
Qed.

(** The two algorithms meet what the state handler relies on: when every event in the
    given states is at its own key, so it is in the resolved state, in every room version. *)
Theorem dispatch_keeps_keys fuel room ver sets s :
  Forall (keyed (db_key db)) sets → resolve_events_with_store fuel room ver sets None = Some (Ok s) → keyed (db_key db) s.
Proof. apply dispatch_keyed. Qed.
End laws.
