(* ===== verification/PurgeEvents.v ===== *)
(** * Purging history: [synapse/storage/controllers/purge_events.py]

    [_find_unreferenced_groups] looks for the state groups that can be deleted after the
    events that had them, in the tables of [StateGroups] and [StateHandler]. *)

From S2P Require Import Prelude TopoSort StateGroups StateHandler.

Section purge.
Context `{IterOrder}.

(** [set(itertools.islice(next_to_search, 100))] when there are that many *)
Definition next_search (next_to_search : gset Z) : gset Z * gset Z :=
  if bool_decide (size next_to_search < 100)%nat then (next_to_search, ∅)
  else let current_search : gset Z := list_to_set (take 100 (set_iter next_to_search)) in (current_search, next_to_search ∖ current_search).

(** The loop, with the groups seen and the groups found to be referenced; [None] is out of
    fuel. *)
Fixpoint search_loop (fuel : nat) (t : MainTables) (db : sgdb) (next_to_search state_groups_seen referenced_groups : gset Z) : option (gset Z * gset Z) :=
  if bool_decide (next_to_search = ∅) then Some (state_groups_seen, referenced_groups) else
  match fuel with
  | O => None
  | S fuel =>
      let '(current_search, next_to_search) := next_search next_to_search in
      let referenced := get_referenced_state_groups (set_iter current_search) t in
      let referenced_groups := referenced_groups ∪ referenced in
      let current_search := current_search ∖ referenced in
      let edges := get_previous_state_groups (set_iter current_search) db in
      let prevs := map_img edges ∖ state_groups_seen in
      search_loop fuel t db (next_to_search ∪ prevs) (state_groups_seen ∪ prevs) referenced_groups
  end.

Definition _find_unreferenced_groups (fuel : nat) (t : MainTables) (db : sgdb) (state_groups : gset Z) : option (gset Z) :=
  (λ sr : gset Z * gset Z, sr.1 ∖ sr.2) <$> search_loop fuel t db state_groups state_groups ∅.
End purge.

(** ** The search finds nothing *)

Section search.
Context `{IterOrderOk}.

(** A group an event refers to. *)
Definition referenced (t : MainTables) (g : Z) : Prop := ∃ ev, event_to_state_groups t !! ev = Some g.

Lemma elem_of_referenced t l g : g ∈ get_referenced_state_groups l t ↔ g ∈ l ∧ referenced t g.
Proof. unfold get_referenced_state_groups, referenced. rewrite elem_of_filter, elem_of_map_img. done. Qed.

Lemma next_search_ok next :
  next ≠ ∅ → let '(current, rest) := next_search next in next = current ∪ rest ∧ current ⊆ next ∧ rest ⊆ next ∧ (size rest < size next)%nat.
Proof.
  intros Hne. unfold next_search. case_bool_decide as Hs.
  - split_and!; [set_solver|done|set_solver|]. rewrite size_empty. destruct (size next) eqn:E; [|lia]. by apply size_empty_inv, leibniz_equiv in E.
  - set (c := list_to_set (take 100 (set_iter next)) : gset Z).
    assert (Hc : c ⊆ next). { intros g Hg%elem_of_list_to_set. apply elem_of_set_iter. eapply elem_of_submseteq; [exact Hg|]. apply sublist_submseteq, sublist_take. }
    assert (Hn : c ≠ ∅).
    { assert (Hlen : length (set_iter next) = size next) by (rewrite set_iter_perm; done). destruct (set_iter next) as [|g l] eqn:El; [simpl in Hlen; lia|].
      intros E. apply (not_elem_of_empty (C := gset Z) g). rewrite <- E. unfold c. simpl. set_solver. }
    split_and!; [|done|set_solver|].
    + apply set_eq. intros g. destruct (decide (g ∈ c)); set_solver.
    + apply subset_size. split; [set_solver|]. intros Hsub. apply set_choose_L in Hn as [g Hg]. specialize (Hsub g (Hc g Hg)). set_solver.
Qed.

(** What is looked up is what was asked for: the edges whose lower end is among the groups. *)
Lemma previous_groups_given l db p : p ∈ map_img (SA := gset Z) (get_previous_state_groups l db) → p ∈ l.
Proof.
  rewrite elem_of_map_img. unfold get_previous_state_groups. intros [g Hg].
  assert (Hgen : ∀ es (m : gmap Z Z), (∀ e, e ∈ es → e.2 ∈ l) → (∀ g p, m !! g = Some p → p ∈ l) → ∀ g p, foldl (λ m e, <[e.1 := e.2]> m) m es !! g = Some p → p ∈ l).
  { induction es as [|e es IH]; intros m Hes Hm; [done|]. simpl. apply IH; [intros; apply Hes; by right|].
    intros g' p' [[_ <-]|[_ ?]]%lookup_insert_Some; [apply Hes; by left|by eapply Hm]. }
  eapply Hgen; [| |exact Hg]; [by intros e [? _]%list_elem_of_filter|by intros ? ?; rewrite lookup_empty].
Qed.

Lemma search_loop_ok fuel t db next seen acc :
  next ⊆ seen → (size next ≤ fuel)%nat →
  search_loop fuel t db next seen acc = Some (seen, acc ∪ get_referenced_state_groups (set_iter next) t).
Proof.
  revert next acc. induction fuel as [|fuel IH]; intros next acc Hsub Hf; cbn [search_loop]; case_bool_decide as Hn.
  - subst. do 2 f_equal. apply set_eq. intros g. rewrite elem_of_union, elem_of_referenced, elem_of_set_iter. set_solver.
  - destruct Hn. apply leibniz_equiv, size_empty_inv. lia.
  - subst. do 2 f_equal. apply set_eq. intros g. rewrite elem_of_union, elem_of_referenced, elem_of_set_iter. set_solver.
  - pose proof (next_search_ok next Hn) as Hs. destruct (next_search next) as [current rest]. destruct Hs as (-> & Hc & Hr & Hlt).
    set (ref := get_referenced_state_groups (set_iter current) t). set (prevs := map_img _ ∖ seen).
    assert (Hp : prevs = ∅).
    { apply set_eq. intros p. unfold prevs. rewrite elem_of_difference. split; [|by intros ?%not_elem_of_empty]. intros [Hp%previous_groups_given Hns]. exfalso. apply Hns, Hsub.
      apply elem_of_set_iter in Hp. set_solver. }
    rewrite Hp, !(right_id_L ∅ (∪)). rewrite IH by (set_solver || lia). do 2 f_equal. apply set_eq. intros g. unfold ref.
    rewrite !elem_of_union, !elem_of_referenced, !elem_of_set_iter, elem_of_union. tauto.
Qed.

(** C17: [_find_unreferenced_groups] returns exactly those of the groups it is given that no
    event refers to.  It ends, and it never gets to the groups below them, which it means
    to search too: what it looks up are the groups it was given. *)
Theorem find_unreferenced_exact t db state_groups :
  ∃ to_delete, _find_unreferenced_groups (size state_groups) t db state_groups = Some to_delete ∧
    ∀ g, g ∈ to_delete ↔ g ∈ state_groups ∧ ¬ referenced t g.
Proof.
  unfold _find_unreferenced_groups. rewrite search_loop_ok by done. eexists. split; [done|]. intros g. simpl.
  rewrite (left_id_L ∅ (∪)), elem_of_difference, elem_of_referenced, elem_of_set_iter. naive_solver.
Qed.
End search.
