(* ===== verification/StateHandlerExamples.v ===== *)
(** * The state handler on concrete tables

    The forked room of [StateResExamples]: each of two events has a state group, and a new
    event comes after both.  Its state is resolved by the real algorithm. *)

From S2P Require Import Prelude PyVal Constants RoomVersions Events EventAuth EventAuthExamples TopoSort StateResV2 StateResLemmas StateResExamples StateResV1 StateFilter StateFilterProps StateGroups StateGroupProps StateStore StateStoreProps StateStoreMain ExpiringCache EventContext StateHandler StateHandlerProps StateHandlerThms StateHandlerMain StateHandlerHistory StateDispatch PurgeEvents.

#[local] Existing Instance example_crypto.

(** ** The events *)

Definition sh_event (id typ from : string) (skey : option string) (prevs : list string) : Event := {|
  event_id := id; type := typ; sender := from; room_id := "!r:x"; ev_state_key := skey;
  content := [("name", JStr "n")]; ev_prev_events := prevs; ev_auth_events := ["$0create"; "$2pl"; "$1ma"];
  origin_server_ts := 9; depth := 9; signatures := [("x", [("ed25519:1", "sig")])]; ev_redacts := None;
  room_version := RoomVersions.V10; rejected_reason := None; recheck_redaction := false |}.

Definition sh_name : Event := sh_event "$8name" "m.room.name" "@a:x" (Some "") ["$p1"; "$p2"].
Definition sh_message : Event := sh_event "$9msg" "m.room.message" "@a:x" None ["$p2"; "$p1"].

Definition sh_events : EventMap := <["$8name" := sh_name]> sr_map.

Definition sh_event_store : StateResolutionStore := {|
  get_events := λ ids, filter (λ ie, ie.1 ∈ ids) sh_events;
  get_auth_chain_difference := λ _ sets, unions sets ∖ match sets with [] => ∅ | X :: l => foldl (∩) X l end
|}.
#[local] Existing Instance sh_event_store.
#[local] Instance sh_store_laws : StoreLaws sh_event_store sh_events.
Proof. by split. Qed.
#[local] Instance sh_sha1 : V1.Sha1 := λ s, s.
#[local] Instance sh_resolver : StateResolver := handler_resolver 50.

Definition sh_room (_ : string) : string := "!r:x".

Lemma sh_ids id e : sh_events !! id = Some e → event_id e = id.
Proof.
  assert (Hb : forallb (λ ie : string * Event, bool_decide (event_id ie.2 = ie.1)) (map_to_list sh_events) = true) by (vm_compute; reflexivity).
  rewrite forallb_forall in Hb. intros He%elem_of_map_to_list%list_elem_of_In. by apply Hb, bool_decide_eq_true in He.
Qed.

#[local] Instance sh_laws : StateResolverLaws sh_resolver (db_key sh_events).
Proof. apply (handler_resolver_laws sh_events sh_ids). Qed.

(** ** The tables *)

Definition rows_of (g : Z) (m : StateMap) : list sg_row := (λ kv, SgRow g "!r:x" kv.1 kv.2) <$> map_to_list m.
Definition sh_db : sgdb :=
  MkDb (<[1 := ("!r:x", "$p1")]> (<[2 := ("!r:x", "$p2")]> ∅)) []
    (rows_of 1 (nth 0 sr_sets ∅) ++ rows_of 2 (nth 1 sr_sets ∅)) 2.
Definition sh_tables : MainTables := MkMain (<["$p1" := 1]> (<["$p2" := 2]> ∅)) ∅ ∅ {["!r:x" := "10"]}.

(** Tables that can be checked by evaluation. *)
Definition check_tables (db : sgdb) : bool :=
  bool_decide (NoDup (state_group_edges db).*1) && forallb (λ e, (0 <? e.2) && (e.2 <? e.1) && (e.1 <=? seq_gen db)) (state_group_edges db) &&
  bool_decide (NoDup ((λ r, (sg_group r, sg_key r)) <$> state_groups_state db)) && (0 <=? seq_gen db) &&
  forallb (λ e : Z * (string * string), (0 <? e.1) && (e.1 <=? seq_gen db)) (map_to_list (state_groups db)) &&
  forallb (λ r, (0 <? sg_group r) && (sg_group r <=? seq_gen db)) (state_groups_state db).

Lemma check_tables_wf db : check_tables db = true → wf db.
Proof.
  unfold check_tables. rewrite !andb_true_iff, !bool_decide_eq_true, !forallb_forall. intros [[[[[H1 H2] H3] H4] H5] H6].
  assert (He : ∀ g p, (g, p) ∈ state_group_edges db → 0 < p < g ∧ g ≤ seq_gen db).
  { intros g p Hin%list_elem_of_In%H2. apply andb_true_iff in Hin as [Hin ?]. apply andb_true_iff in Hin as [? ?]. simpl in *. lia. }
  constructor; [done|intros g p Hin; by destruct (He g p Hin)|done|lia| |intros g p Hin; by destruct (He g p Hin)|].
  - intros g [x Hx]. apply elem_of_map_to_list, list_elem_of_In, H5 in Hx. apply andb_true_iff in Hx as [? ?]. simpl in *. lia.
  - intros r Hin%list_elem_of_In%H6. apply andb_true_iff in Hin as [? ?]. lia.
Qed.

(** What is in a state is in a row. *)
Lemma full_state_row db g k v : wf db → full_state db g !! k = Some v → ∃ r, r ∈ state_groups_state db ∧ sg_key r = k ∧ sg_event r = v.
Proof.
  intros Hwf. unfold full_state. generalize (Z.to_nat g). intros n. revert g. induction n as [|n IH]; intros g; simpl; [by rewrite lookup_empty|].
  rewrite lookup_union_delta. destruct (delta db g !! k) as [v'|] eqn:Ed.
  - intros [= ->]. apply (delta_lookup db Hwf) in Ed as (r & Hr & _ & <- & <-). by exists r.
  - destruct (select_prev db g) as [p|]; [apply IH|by rewrite lookup_empty].
Qed.

Lemma rows_keyed db key_of : wf db → forallb (λ r, bool_decide (key_of (sg_event r) = sg_key r)) (state_groups_state db) = true → ∀ g, keyed key_of (full_state db g).
Proof.
  intros Hwf Hb g k v (r & Hr%list_elem_of_In & <- & <-)%full_state_row; [|done]. rewrite forallb_forall in Hb. by apply Hb, bool_decide_eq_true in Hr.
Qed.

Lemma sh_wf : wf sh_db.
Proof. apply check_tables_wf. vm_compute. reflexivity. Qed.

Lemma sh_tables_ok : tables_ok (db_key sh_events) sh_room sh_db sh_tables.
Proof.
  constructor; [apply sh_wf| |].
  - apply rows_keyed; [apply sh_wf|]. vm_compute. reflexivity.
  - intros ev g. simpl. rewrite !lookup_insert_Some, lookup_empty. intros [[_ <-]|[_ [[_ <-]|[_ ?]]]]; [| |done]; (split; [simpl; lia|vm_compute; reflexivity]).
Qed.

Definition sh_handler : Handler := new_Handler (λ z, z) 100 sh_db sh_tables 1000.
Definition sh_mine (_ : string) : bool := false.

Lemma sh_reachable : handler_reachable Sqlite3Engine 0 sh_mine (db_key sh_events) sh_room (∅, sh_handler).
Proof. exists (λ z, z), 100, sh_db, sh_tables, 1000. split_and!; [apply sh_tables_ok|lia|lia|lia|apply rtc_refl]. Qed.

Lemma sh_name_ok : event_ok (db_key sh_events) sh_room sh_name.
Proof. constructor; [|done|done]. intros k [= <-]. vm_compute. reflexivity. Qed.

(** ** The witnesses *)

Lemma compute_event_context_correct_witness :
  match compute_event_context Sqlite3Engine 0 sh_name false None None sh_handler with
  | (Returned c, h') => ∃ s, context_ok ∅ h' sh_name s c ∧ state_after sh_handler "!r:x" ["$p1"; "$p2"] s ∧
      ec_partial_state c = bool_decide (Exists (λ p, p ∈ partial_state_events sh_tables) ["$p1"; "$p2"])
  | (Raised x, _) => @None StateMap = None ∧ fails sh_handler "!r:x" ["$p1"; "$p2"] x
  | (Waiting, _) => False
  end.
Proof. exact (compute_event_context_correct Sqlite3Engine 0 sh_mine (db_key sh_events) sh_room ∅ sh_handler sh_name None None sh_reachable sh_name_ok eq_refl). Defined.

(** What the call returns, and what it leaves. *)
Definition sh_run : outcome EventContext * Handler := compute_event_context Sqlite3Engine 0 sh_name false None None sh_handler.
Definition returned {A} (d : A) (o : outcome A) : A := match o with Returned a => a | _ => d end.
Definition sh_context : EventContext := returned for_outlier sh_run.1.
Definition sh_handler1 : Handler := sh_run.2.

Lemma returned_eq {A} (d : A) (r : outcome A * Handler) : match r.1 with Returned _ => true | _ => false end = true → r = (Returned (returned d r.1), r.2).
Proof. by destruct r as [[] ?]. Qed.

Lemma sh_run_eq : compute_event_context Sqlite3Engine 0 sh_name false None None sh_handler = (Returned sh_context, sh_handler1).
Proof. apply (returned_eq for_outlier sh_run). vm_compute. reflexivity. Qed.

Example sh_context_groups :
  ec_state_group_before_event sh_context = Some 3 ∧ ec_state_group sh_context = Some 4 ∧
  full_state (h_db sh_handler1) 3 !! (EventTypes.Member, "@b:x") = Some "$5ban" ∧
  full_state (h_db sh_handler1) 3 !! ("m.room.topic", "") = Some "$7t2" ∧
  full_state (h_db sh_handler1) 4 !! ("m.room.name", "") = Some "$8name" ∧
  (map_to_list <$> ec_state_group_deltas sh_context !! (2, 3)) = Some [((EventTypes.Member, "@b:x"), "$5ban")].
Proof. vm_compute. done. Qed.

Definition sh_stored : outcome unit * Handler := main_op (_store_event_state_mappings_txn [(sh_name, false, sh_context)]) sh_handler1.
Definition sh_handler2 : Handler := sh_stored.2.

Lemma stored_event_state_witness :
  ∃ s, state_after sh_handler "!r:x" ["$p1"; "$p2"] s ∧
    ∃ m h4, get_state_ids_for_events Sqlite3Engine 0 sh_mine ["$8name"] (Some all) false sh_handler2 = (Returned m, h4) ∧
      m !! "$8name" = Some (filter_state all (event_delta sh_name ∪ s)).
Proof.
  refine (stored_event_state Sqlite3Engine 0 sh_mine (db_key sh_events) sh_room ∅ sh_handler sh_name None None sh_context sh_handler1 sh_handler2 ∅ sh_handler2 all
    sh_reachable sh_name_ok eq_refl sh_run_eq _ (rtc_refl _ _) eq_refl canonical_all).
  rewrite (returned_eq tt sh_stored) at 1; [|vm_compute; reflexivity]. by destruct (returned tt sh_stored.1).
Defined.


(** Checking by evaluation that the events of a state are at their keys. *)
Lemma keyed_check (key_of : string → string * string) (m : StateMap) :
  forallb (λ kv : (string * string) * string, bool_decide (key_of kv.2 = kv.1)) (map_to_list m) = true → keyed key_of m.
Proof. intros Hb k v Hv%elem_of_map_to_list%list_elem_of_In. rewrite forallb_forall in Hb. by apply Hb, bool_decide_eq_true in Hv. Qed.

Definition sh_filter : StateFilter := from_types [("m.room.topic", Some "")].

Lemma sh_canonical : canonical (default all (Some sh_filter)).
Proof. done. Qed.

Lemma state_after_events_correct_witness :
  match compute_state_after_events Sqlite3Engine 0 sh_mine "!r:x" ["$p1"; "$p2"] (Some sh_filter) true sh_handler with
  | (Returned m, _) => ∃ s, state_after sh_handler "!r:x" ["$p1"; "$p2"] s ∧ (∀ k, matches sh_filter k = true → m !! k = s !! k) ∧ ∀ k v, m !! k = Some v → s !! k = Some v
  | (Raised x, _) => fails sh_handler "!r:x" ["$p1"; "$p2"] x
  | (Waiting, _) => true = true ∧ ∃ e, e ∈ ["$p1"; "$p2"] ∧ e ∈ partial_state_events sh_tables
  end.
Proof.
  exact (state_after_events_correct Sqlite3Engine 0 sh_mine (db_key sh_events) sh_room ∅ sh_handler "!r:x" ["$p1"; "$p2"] (Some sh_filter) true
    sh_reachable (λ _ _, eq_refl) sh_canonical).
Defined.

(** The filter is not applied to the changes of an entry that has no group yet: the
    result has more than was asked for. *)
Example sh_more_than_asked :
  map_to_list (returned ∅ (compute_state_after_events Sqlite3Engine 0 sh_mine "!r:x" ["$p1"; "$p2"] (Some sh_filter) true sh_handler).1) =
  [(("m.room.topic", ""), "$7t2"); ((EventTypes.Member, "@b:x"), "$5ban")].
Proof. vm_compute. reflexivity. Qed.

Lemma resolved_entry_closest_witness :
  ∃ e, _make_state_cache_entry (nth 0 sr_sets ∅) {[1 := nth 1 sr_sets ∅; 2 := sr_common]} = Ok e ∧
    ((∃ g, e = MkEntry None (Some g) None None ∧ ({[1 := nth 1 sr_sets ∅; 2 := sr_common]} : gmap Z StateMap) !! g = Some (nth 0 sr_sets ∅)) ∨
     (∃ p m d, e = MkEntry None None (Some p) (Some d) ∧ ({[1 := nth 1 sr_sets ∅; 2 := sr_common]} : gmap Z StateMap) !! p = Some m ∧ d ∪ m = nth 0 sr_sets ∅ ∧
       (∀ g, ({[1 := nth 1 sr_sets ∅; 2 := sr_common]} : gmap Z StateMap) !! g ≠ Some (nth 0 sr_sets ∅)) ∧
       ∀ p' m', ({[1 := nth 1 sr_sets ∅; 2 := sr_common]} : gmap Z StateMap) !! p' = Some m' → dom m' ⊆ dom (nth 0 sr_sets ∅) → (size d ≤ size (changes m' (nth 0 sr_sets ∅)))%nat) ∨
     (e = MkEntry (Some (nth 0 sr_sets ∅)) None None None ∧ ∀ g m, ({[1 := nth 1 sr_sets ∅; 2 := sr_common]} : gmap Z StateMap) !! g = Some m → ¬ dom m ⊆ dom (nth 0 sr_sets ∅))).
Proof.
  refine (resolved_entry_closest (db_key sh_events) (nth 0 sr_sets ∅) {[1 := nth 1 sr_sets ∅; 2 := sr_common]} _ _).
  - apply keyed_check. vm_compute. reflexivity.
  - intros g m. rewrite lookup_insert_Some. intros [[_ <-]|[_ [_ <-]%lookup_singleton_Some]]; apply keyed_check; vm_compute; reflexivity.
Defined.

(** ** A purge the cache does not know of

    A message after both events is given group 3, for the state the two groups resolve to.
    Then the message is deleted with other history, so that no event has group 3, and the
    group is purged.  The cache of resolved states still leads to it. *)

Definition sh_before : Handler := (compute_event_context Sqlite3Engine 0 sh_message false None None sh_handler).2.
Definition sh_to_delete : list Z := elements (default ∅ (_find_unreferenced_groups 9 (h_main sh_before) (h_db sh_before) {[3]})).
Definition sh_purged : Handler := set_store (unwrap (h_store sh_before) (purge_unreferenced_state_groups Sqlite3Engine "!r:x" sh_to_delete (h_store sh_before))) sh_before.
Definition sh_again : outcome EventContext * Handler := compute_event_context Sqlite3Engine 0 sh_message false None None sh_purged.
(** The handler after a restart, whose caches are empty. *)
Definition sh_restarted : Handler := new_Handler (λ z, z) 100 (h_db sh_again.2) sh_tables 2000.

(** The cache of resolved states outlives the groups it leads to.  After the only event
    that had a resolved group was purged and the group with it, the next event that comes
    after the same events is given the group that is no more; as soon as the state is read
    from the tables, a user the resolved state bans is a member. *)
Example purged_group_used_again :
  full_state (h_db sh_before) 3 !! (EventTypes.Member, "@b:x") = Some "$5ban" ∧
  ec_state_group (returned for_outlier sh_again.1) = Some 3 ∧ state_groups (h_db sh_again.2) !! 3 = None ∧
  returned ∅ (get_current_state_ids Sqlite3Engine 0 (returned for_outlier sh_again.1) None sh_restarted).1 !! (EventTypes.Member, "@b:x") = Some "$4mb".
Proof. vm_compute. done. Qed.

(** ** A delta that outlives its group

    Group 2 is a difference to group 1, which is purged: group 2 is made whole, but the
    cache of [get_state_group_delta] still has the difference. *)

Definition sh_delta_db : sgdb :=
  MkDb (<[1 := ("!r:x", "$p1")]> (<[2 := ("!r:x", "$p2")]> ∅)) [(2, 1)]
    (rows_of 1 sr_common ++ rows_of 2 {[("m.room.topic", "") := "$7t2"]}) 2.
Definition sh_asked : Handler := (get_state_group_delta 2 (new_Handler (λ z, z) 100 sh_delta_db sh_tables 1000)).2.
Definition sh_delta_purged : Handler :=
  set_store (unwrap (h_store sh_asked) (purge_unreferenced_state_groups Sqlite3Engine "!r:x" [1] (h_store sh_asked))) sh_asked.

Example stale_group_delta :
  fst <$> returned None (get_state_group_delta 2 sh_delta_purged).1 = Some 1 ∧
  _get_state_group_delta_txn 2 (h_db sh_delta_purged) = None ∧ state_groups (h_db sh_delta_purged) !! 1 = None.
Proof. vm_compute. done. Qed.

Lemma find_unreferenced_exact_witness :
  ∃ to_delete, _find_unreferenced_groups (size ({[1; 3]} : gset Z)) sh_tables sh_db {[1; 3]} = Some to_delete ∧
    ∀ g, g ∈ to_delete ↔ g ∈ ({[1; 3]} : gset Z) ∧ ¬ referenced sh_tables g.
Proof. exact (find_unreferenced_exact sh_tables sh_db {[1; 3]}). Defined.

(** Group 1 is below group 2, and nothing refers to it; it is not found. *)
Example group_below_not_found :
  elements <$> _find_unreferenced_groups 9 (MkMain ∅ ∅ ∅ ∅) (MkDb ∅ [(2, 1)] [] 2) {[2]} = Some [2].
Proof. vm_compute. reflexivity. Qed.

(** ** The dispatch *)

Definition sh_resolved : StateMap := unwrap ∅ (handler_resolver 50 "!r:x" "10" sr_sets).

Lemma dispatch_keeps_keys_witness : keyed (db_key sh_events) sh_resolved.
Proof.
  refine (dispatch_keeps_keys sh_events sh_ids 50 "!r:x" "10" sr_sets sh_resolved _ _).
  - constructor; [|constructor; [|constructor]]; apply keyed_check; vm_compute; reflexivity.
  - vm_compute. reflexivity.
Defined.
