(* ===== verification/AuthChains.v ===== *)
(** * Auth chains in the database

    The auth events of each state event are rows of [event_auth].  To find out quickly which
    events are in the auth chain of which, the chain cover index arranges the events in
    chains and keeps links between chains: [_add_chain_cover_index], [_allocate_chain_ids],
    [_persist_event_auth_chain_txn] and [_LinkMap] of
    [synapse/storage/databases/main/events.py].

    A transaction is a function on the tables; what it raises is a failed transaction.
    Rows are returned in the order of the table or of the iteration over what was asked
    for.  A loop that ran out of its fuel would raise [OutOfFuel]; the theorems show that
    none does. *)

From S2P Require Import Prelude PyVal Constants RoomVersions Events TopoSort IterUtils StateGroups.

(** ** The tables *)

(** What is used of [events] and [state_events]. *)
Record EventRow := MkEventRow { er_type : string; er_state_key : option string; er_depth : Z }.

Record ChainDb := MkChainDb {
  cd_events : gmap string EventRow;
  (** [event_id], [auth_id] *)
  cd_event_auth : list (string * string);
  (** [event_id] to [chain_id], [sequence_number] *)
  cd_chains : gmap string (Z * Z);
  (** origin chain and sequence number, target chain and sequence number *)
  cd_links : list ((Z * Z) * (Z * Z));
  (** [event_id] to [room_id], [type], [state_key] *)
  cd_to_calculate : gmap string (string * (string * string));
  (** the sequence of chain ids *)
  cd_seq : Z;
  (** the rooms with [has_auth_chain_index] *)
  cd_index_rooms : gset string
}.

Definition OutOfFuel : exn := PyException "out of fuel".

(** [SELECT auth_id FROM event_auth WHERE event_id = ?] *)
Definition auth_ids (db : ChainDb) (e : string) : list string := (filter (λ r, r.1 = e) (cd_event_auth db)).*2.

(** The type and state key of a state event. *)
Definition state_event (db : ChainDb) (e : string) : option (string * string) :=
  cd_events db !! e ≫= λ r, pair (er_type r) <$> er_state_key r.

(** ** [_LinkMap] *)

Record LinkMap := MkLinkMap {
  (** source chain, target chain, source sequence number to target sequence number *)
  lm_maps : gmap Z (gmap Z (gmap Z Z));
  lm_additions : gset (Z * Z * Z * Z)
}.

Definition new_LinkMap : LinkMap := MkLinkMap ∅ ∅.

Definition get_links_between (lm : LinkMap) (source_chain target_chain : Z) : gmap Z Z :=
  default ∅ (default ∅ (lm_maps lm !! source_chain) !! target_chain).

Definition put_links (source_chain target_chain : Z) (links : gmap Z Z) (lm : LinkMap) : LinkMap :=
  MkLinkMap (<[source_chain := <[target_chain := links]> (default ∅ (lm_maps lm !! source_chain))]> (lm_maps lm)) (lm_additions lm).

Section link_map.
Context `{IterOrder}.

Definition add_link (src_tuple target_tuple : Z * Z) (new : bool) (lm : LinkMap) : result (bool * LinkMap) :=
  let '(src_chain, src_seq) := src_tuple in
  let '(target_chain, target_seq) := target_tuple in
  let current_links := get_links_between lm src_chain target_chain in
  let lm := put_links src_chain target_chain current_links lm in
  raise_if (bool_decide (src_chain = target_chain)) (PyBuiltin AssertionError) ;;
  if new && existsb (λ c : Z * Z, (c.1 <=? src_seq) && (target_seq <=? c.2)) (map_items current_links) then Ok (false, lm) else
  let lm := if new then MkLinkMap (lm_maps lm) ({[(src_chain, src_seq, target_chain, target_seq)]} ∪ lm_additions lm) else lm in
  Ok (true, put_links src_chain target_chain (<[src_seq := target_seq]> current_links) lm).

Definition get_links_from (src_tuple : Z * Z) (lm : LinkMap) : list (Z * Z) :=
  ts ← map_items (default ∅ (lm_maps lm !! src_tuple.1));
  (λ l : Z * Z, (ts.1, l.2)) <$> filter (λ l : Z * Z, l.1 ≤ src_tuple.2) (map_items ts.2).

Definition get_additions (lm : LinkMap) : list ((Z * Z) * (Z * Z)) :=
  omap (λ a : Z * Z * Z * Z,
    let '(src_chain, src_seq, target_chain, _) := a in
    (λ target_seq, ((src_chain, src_seq), (target_chain, target_seq))) <$> get_links_between lm src_chain target_chain !! src_seq)
    (set_iter (lm_additions lm)).

Definition exists_path_from (src_tuple target_tuple : Z * Z) (lm : LinkMap) : bool :=
  if bool_decide (src_tuple.1 = target_tuple.1) then target_tuple.2 <=? src_tuple.2
  else existsb (λ l : Z * Z, (l.1 <=? src_tuple.2) && (target_tuple.2 <=? l.2)) (map_items (get_links_between lm src_tuple.1 target_tuple.1)).
End link_map.

(** ** Allocating chains *)

(** A chain id, or an [object()] that stands for one to come. *)
Abbreviation chain_key := (Z + nat)%type.

Section allocate.
Context `{IterOrder}.
Context (event_to_types : gmap string (string * string)) (event_to_auth_chain : gmap string (list string)).
Context (chain_map : gmap string (Z * Z)).

(** The first auth event with the same type and state key. *)
Definition chain_parent (event_id : string) : option string :=
  head (filter (λ auth_id, event_to_types !! event_id = event_to_types !! auth_id) (default [] (event_to_auth_chain !! event_id))).

Definition tree_step (st : gset Z * list (string * option string)) (event_id : string) : gset Z * list (string * option string) :=
  let '(existing_chains, tree) := st in
  match chain_parent event_id with
  | Some auth_id =>
      (match chain_map !! auth_id with Some (c, _) => {[c]} ∪ existing_chains | None => existing_chains end, tree ++ [(event_id, Some auth_id)])
  | None => (existing_chains, tree ++ [(event_id, None)])
  end.

(** [SELECT chain_id, MAX(sequence_number) ... GROUP BY chain_id] *)
Definition max_sequence_numbers (chains : gmap string (Z * Z)) (existing_chains : gset Z) : gmap chain_key Z :=
  foldr (λ (r : string * (Z * Z)) m,
    if bool_decide (r.2.1 ∈ existing_chains) then <[inl r.2.1 := Z.max r.2.2 (default r.2.2 (m !! inl r.2.1))]> m else m) ∅ (map_to_list chains).

Record Allocation := MkAllocation {
  al_max : gmap chain_key Z;
  al_tuples : gmap string (chain_key * Z);
  al_unallocated : gset nat;
  (** how many objects were made *)
  al_objects : nat
}.

(** The chain id and sequence number of the auth event, if there is one. *)
Definition existing_chain (auth_event_id : option string) (al : Allocation) : result (option (chain_key * Z)) :=
  match auth_event_id with
  | None => Ok None
  | Some a =>
      if bool_decide (a = "") then Ok None else
      match al_tuples al !! a with
      | Some t => Ok (Some t)
      | None => t ← getitem chain_map a; Ok (Some (inl t.1, t.2))
      end
  end.

Definition alloc_step (al : Allocation) (t : string * option string) : result Allocation :=
  let '(event_id, auth_event_id) := t in
  existing_chain_id ← existing_chain auth_event_id al;
  new_chain_tuple ←
    (match existing_chain_id with
     | Some (proposed_new_id, seq) =>
         match al_max al !! proposed_new_id with
         | Some m => Ok (if m <? seq + 1 then Some (proposed_new_id, seq + 1) else None)
         | None => Err (PyBuiltin KeyError)
         end
     | None => Ok None
     end);
  Ok (match new_chain_tuple with
      | Some (c, s) => MkAllocation (<[c := s]> (al_max al)) (<[event_id := (c, s)]> (al_tuples al)) (al_unallocated al) (al_objects al)
      | None =>
          let c : chain_key := inr (al_objects al) in
          MkAllocation (<[c := 1]> (al_max al)) (<[event_id := (c, 1)]> (al_tuples al)) ({[al_objects al]} ∪ al_unallocated al) (S (al_objects al))
      end).

(** The chain ids in place of the objects; also the new value of the sequence. *)
Definition allocated_map (existing_chains : gset Z) (unallocated : gset nat) (seq : Z) : gmap chain_key Z :=
  let newly_allocated_chain_ids := (λ i, seq + 1 + Z.of_nat i) <$> List.seq 0 (size unallocated) in
  list_to_map ((λ c, (inl c, c)) <$> set_iter existing_chains) ∪ list_to_map (zip (inr <$> set_iter unallocated) newly_allocated_chain_ids).

Definition _allocate_chain_ids (events_to_calc_chain_id_for : gset string) (chains : gmap string (Z * Z)) (seq : Z)
    : result (gmap string (Z * Z) * Z) :=
  let '(existing_chains, tree) := foldl tree_step (∅, []) (sorted_topologically events_to_calc_chain_id_for event_to_auth_chain) in
  al ← fold_res alloc_step tree (MkAllocation (max_sequence_numbers chains existing_chains) ∅ ∅ 0);
  let ids := allocated_map existing_chains (al_unallocated al) seq in
  tuples ← fold_res (λ m (t : string * (chain_key * Z)),
    match ids !! t.2.1 with Some c => Ok (<[t.1 := (c, t.2.2)]> m) | None => Err (PyBuiltin KeyError) end) (dict_items (al_tuples al)) ∅;
  Ok (tuples, seq + Z.of_nat (size (al_unallocated al))).
End allocate.

(** ** The chain cover index *)

(** The dicts and sets [_add_chain_cover_index] fills. *)
Record Calc := MkCalc {
  ca_types : gmap string (string * string);
  ca_auth : gmap string (list string);
  (** [events_to_calc_chain_id_for] *)
  ca_todo : gset string;
  (** [chain_map] *)
  ca_map : gmap string (Z * Z)
}.

Section index.
Context `{IterOrder}.

(** Events that could not be indexed before. *)
Definition add_calculate_row (db : ChainDb) (c : Calc) (row : string * (string * (string * string))) : Calc :=
  let '(event_id, (_, ty)) := row in
  MkCalc (<[event_id := ty]> (ca_types c)) (<[event_id := auth_ids db event_id]> (ca_auth c)) ({[event_id]} ∪ ca_todo c) (ca_map c).

Definition calculate_rows (db : ChainDb) (rooms : gset string) : list (string * (string * (string * string))) :=
  filter (λ r, r.2.1 ∈ rooms) (dict_items (cd_to_calculate db)).

Definition missing_auth (c : Calc) : gset string :=
  list_to_set (filter (λ a, a ∉ ca_todo c) (concat (dict_items (ca_auth c)).*2)).

(** One row of the query for the auth events; an event that is not known, or no state
    event, has none. *)
Definition fetch_auth_row (db : ChainDb) (st : Calc * gset string) (auth_id : string) : Calc * gset string :=
  let '(c, missing) := st in
  match state_event db auth_id with
  | None => st
  | Some ty =>
      let types := <[auth_id := ty]> (ca_types c) in
      match cd_chains db !! auth_id with
      | None =>
          let auths := auth_ids db auth_id in
          (MkCalc types (<[auth_id := auths]> (ca_auth c)) ({[auth_id]} ∪ ca_todo c) (ca_map c),
           missing ∪ list_to_set (filter (λ e, e ∉ dom types) auths))
      | Some t => (MkCalc types (ca_auth c) (ca_todo c) (<[auth_id := t]> (ca_map c)), missing)
      end
  end.

Fixpoint fetch_loop (fuel : nat) (db : ChainDb) (c : Calc) (missing : gset string) : result Calc :=
  if bool_decide (missing = ∅) then Ok c else
  match fuel with
  | O => Err OutOfFuel
  | S fuel => let '(c, missing) := foldl (fetch_auth_row db) (c, ∅) (set_iter missing) in fetch_loop fuel db c missing
  end.

(** An event one of whose auth events is not known is left for later. *)
Definition discard_step (event_to_room_id : gmap string string) (c : Calc)
    (st : gset string * gmap string (string * (string * string))) (event_id : string)
    : result (gset string * gmap string (string * (string * string))) :=
  let '(todo, to_calculate) := st in
  auths ← getitem (ca_auth c) event_id;
  if existsb (λ a, negb (bool_decide (a ∈ dom (ca_map c))) && negb (bool_decide (a ∈ todo))) auths then
    let todo := todo ∖ {[event_id]} in
    match event_to_room_id !! event_id with
    | None => Ok (todo, to_calculate)
    | Some room_id =>
        if bool_decide (room_id = "") then Ok (todo, to_calculate) else
        ty ← getitem (ca_types c) event_id;
        raise_if (bool_decide (event_id ∈ dom to_calculate)) IntegrityError ;;
        Ok (todo, <[event_id := (room_id, ty)]> to_calculate)
    end
  else Ok st.

(** [itertools.permutations(l, r=2)] *)
Definition permutations2 {A} (l : list A) : list (A * A) :=
  let il := imap pair l in
  x ← il; y ← il; if decide (x.1 = y.1) then [] else [(x.2, y.2)].

(** The auth events to which links are needed. *)
Definition reduce_auth (chain_map : gmap string (Z * Z)) (lm : LinkMap) (chain_id : Z) (auths : list string) : result (gset string) :=
  reduction ← fold_res (λ (r : gset string) a,
    t ← getitem chain_map a; Ok (if bool_decide (t.1 = chain_id) then r else {[a]} ∪ r)) auths ∅;
  fold_res (λ (r : gset string) (se : string * string),
    s ← getitem chain_map se.1; e ← getitem chain_map se.2;
    Ok (if exists_path_from s e lm then r ∖ {[se.2]} else r)) (permutations2 auths) reduction.

(** The links from an event to an auth event and to what that one links to. *)
Definition link_auth (chain_map : gmap string (Z * Z)) (src : Z * Z) (lm : LinkMap) (auth_id : string) : result LinkMap :=
  target ← getitem chain_map auth_id;
  r ← add_link src target true lm;
  fold_res (λ lm (t : Z * Z),
    if bool_decide (t.1 = src.1) then Ok lm else r ← add_link src t true lm; Ok r.2) (get_links_from target r.2) r.2.

Definition link_event (event_to_auth_chain : gmap string (list string)) (chain_map : gmap string (Z * Z)) (lm : LinkMap) (event_id : string)
    : result LinkMap :=
  src ← getitem chain_map event_id;
  reduction ← reduce_auth chain_map lm src.1 (default [] (event_to_auth_chain !! event_id));
  fold_res (link_auth chain_map src) (set_iter reduction) lm.

(** A row of [event_auth_chains], with its two unique keys. *)
Definition insert_chain (chains : gmap string (Z * Z)) (r : string * (Z * Z)) : result (gmap string (Z * Z)) :=
  if bool_decide (r.1 ∈ dom chains) || bool_decide (r.2 ∈ (map_img chains : gset (Z * Z))) then Err IntegrityError
  else Ok (<[r.1 := r.2]> chains).

(** The events to calculate and what is known of their auth events. *)
Definition collect_calc (event_to_room_id : gmap string string) (event_to_types : gmap string (string * string))
    (event_to_auth_chain : gmap string (list string)) (db : ChainDb) : result Calc :=
  let c := MkCalc event_to_types event_to_auth_chain (dom event_to_room_id) ∅ in
  let c := foldl (add_calculate_row db) c (calculate_rows db (map_img event_to_room_id)) in
  fetch_loop (S (S (size (cd_events db)))) db c (missing_auth c).

(** The links of the chains in use, and those the new events make. *)
Definition calculate_links (event_to_auth_chain : gmap string (list string)) (chain_map : gmap string (Z * Z)) (todo : gset string)
    (links : list ((Z * Z) * (Z * Z))) : result (list ((Z * Z) * (Z * Z))) :=
  let chain_ids : gset Z := set_map fst (map_img chain_map : gset (Z * Z)) in
  lm ← fold_res (λ lm (l : (Z * Z) * (Z * Z)), r ← add_link l.1 l.2 false lm; Ok r.2) (filter (λ l, l.1.1 ∈ chain_ids) links) new_LinkMap;
  lm ← fold_res (link_event event_to_auth_chain chain_map) (sorted_topologically todo event_to_auth_chain) lm;
  Ok (get_additions lm).

Definition _add_chain_cover_index (event_to_room_id : gmap string string) (event_to_types : gmap string (string * string))
    (event_to_auth_chain : gmap string (list string)) (db : ChainDb) : result ChainDb :=
  c ← collect_calc event_to_room_id event_to_types event_to_auth_chain db;
  '(todo, to_calculate) ← fold_res (discard_step event_to_room_id c) (sorted_topologically (dom (ca_auth c)) (ca_auth c)) (ca_todo c, cd_to_calculate db);
  if bool_decide (todo = ∅) then
    Ok (MkChainDb (cd_events db) (cd_event_auth db) (cd_chains db) (cd_links db) to_calculate (cd_seq db) (cd_index_rooms db))
  else
    '(new_chain_tuples, seq) ← _allocate_chain_ids (ca_types c) (ca_auth c) (ca_map c) todo (cd_chains db) (cd_seq db);
    let chain_map := new_chain_tuples ∪ ca_map c in
    chains ← fold_res insert_chain (dict_items new_chain_tuples) (cd_chains db);
    additions ← calculate_links (ca_auth c) chain_map todo (cd_links db);
    Ok (MkChainDb (cd_events db) (cd_event_auth db) chains (cd_links db ++ additions)
      (filter (λ r, r.1 ∉ dom new_chain_tuples) to_calculate) seq (cd_index_rooms db)).

(** ** Storing events *)

(** What [_store_event_txn] writes to [events] and [state_events]. *)
Definition store_event_rows (events : list Event) (db : ChainDb) : result ChainDb :=
  rows ← fold_res (λ rows e,
    raise_if (bool_decide (event_id e ∈ dom rows)) IntegrityError ;;
    Ok (<[event_id e := MkEventRow (type e) (get_state_key e) (depth e)]> rows)) events (cd_events db);
  Ok (MkChainDb rows (cd_event_auth db) (cd_chains db) (cd_links db) (cd_to_calculate db) (cd_seq db) (cd_index_rooms db)).

Definition _persist_event_auth_chain_txn (events : list Event) (db : ChainDb) : result ChainDb :=
  if negb (existsb Events.is_state events) then Ok db else
  let rows := e ← filter (λ e, Events.is_state e = true) events; (λ a, (event_id e, a)) <$> auth_event_ids e in
  let db := MkChainDb (cd_events db) (cd_event_auth db ++ rows) (cd_chains db) (cd_links db) (cd_to_calculate db) (cd_seq db) (cd_index_rooms db) in
  let state_events := filter (λ e, Events.is_state e = true ∧ room_id e ∈ cd_index_rooms db) events in
  match state_events with
  | [] => Ok db
  | _ =>
      event_to_types ← fold_res (λ (m : gmap string (string * string)) e, k ← event_key e; Ok (<[event_id e := k]> m)) state_events ∅;
      _add_chain_cover_index (foldl (λ m e, <[event_id e := room_id e]> m) ∅ state_events) event_to_types
        (foldl (λ m e, <[event_id e := auth_event_ids e]> m) ∅ state_events) db
  end.

(** [_store_event_txn] and [_persist_event_auth_chain_txn], in the order in which
    [_persist_events_txn] calls them for events that were not seen before. *)
Definition persist_auth_chains (events : list Event) (db : ChainDb) : result ChainDb :=
  db ← store_event_rows events db; _persist_event_auth_chain_txn events db.
End index.
