(* ===== verification/AuthChainReads.v ===== *)
(** * Reading auth chains: [synapse/storage/databases/main/event_federation.py]

    Auth chains and auth chain differences, from the chain cover index or by walking the
    graph.  The sets of a difference are objects of the caller, and the transaction changes
    them: they are part of its result.  The cache of auth events is a dict that may forget;
    how it does is a parameter, [forget]. *)

From S2P Require Import Prelude TopoSort IterUtils StateGroups AuthChains.

Definition _NoChainCoverIndex : exn := PyException "Unexpectedly no chain cover for events in %s".

(** [search.sort()], on pairs of a depth and an id *)
Definition le_search (a b : Z * string) : Prop := a.1 < b.1 ∨ a.1 = b.1 ∧ String.le a.2 b.2.
#[export] Instance le_search_dec : RelDecision le_search.
Proof. intros a b. unfold le_search. apply _. Defined.

Section reads.
Context `{IterOrder} (engine : DatabaseEngine).

(** [SELECT event_id, chain_id, sequence_number ... WHERE event_id IN ...] *)
Definition select_chains (db : ChainDb) (ids : list string) : list (string * (Z * Z)) :=
  omap (λ e, pair e <$> cd_chains db !! e) ids.

(** [SELECT ... FROM event_auth_chain_links WHERE origin_chain_id IN ...] *)
Definition select_links (db : ChainDb) (chains : list Z) : list ((Z * Z) * (Z * Z)) := filter (λ l, l.1.1 ∈ chains) (cd_links db).

(** [chains[c] = max(s, chains.get(c, 0))] *)
Definition raise_to (chains : gmap Z Z) (t : Z * Z) : gmap Z Z := <[t.1 := Z.max t.2 (default 0 (chains !! t.1))]> chains.

(** The events whose chain id and sequence number meet one of some conditions: PostgreSQL
    joins with the list of them, SQLite runs one query for each. *)
Definition select_where (db : ChainDb) (conditions : list (Z * Z → bool)) : gset string :=
  match engine with
  | PostgresEngine => list_to_set (r ← map_to_list (cd_chains db); c ← conditions; if c r.2 : bool then [r.1] else [])
  | Sqlite3Engine => foldl (λ res c, res ∪ list_to_set (filter (λ r : string * (Z * Z), c r.2 = true) (map_to_list (cd_chains db))).*1) ∅ conditions
  end.

(** ** Auth chains *)

Definition follow_link (event_chains chains : gmap Z Z) (l : (Z * Z) * (Z * Z)) : gmap Z Z :=
  if l.1.2 <=? default 0 (event_chains !! l.1.1) then raise_to chains l.2 else chains.

(** The chain of an initial event, up to before the event. *)
Definition add_initial_chain (chains : gmap Z Z) (cs : Z * Z) : gmap Z Z :=
  if bool_decide (cs.2 = 1) then chains else raise_to chains (cs.1, cs.2 - 1).

Definition _get_auth_chain_ids_using_cover_index_txn (event_ids : list string) (include_given : bool) (db : ChainDb) : result (gset string) :=
  let initial_events : gset string := list_to_set event_ids in
  let rows := batch_iter (set_iter initial_events) 1000 ≫= select_chains db in
  let seen_events : gset string := list_to_set rows.*1 in
  let event_chains := foldl raise_to ∅ rows.*2 in
  raise_if (negb (bool_decide (initial_events ∖ seen_events = ∅))) _NoChainCoverIndex ;;
  let links := batch_iter (map_items event_chains).*1 1000 ≫= select_links db in
  let chains := foldl (follow_link event_chains) ∅ links in
  let chains := foldl add_initial_chain chains (map_items event_chains) in
  let results := if include_given then initial_events else ∅ in
  Ok (results ∪ select_where db ((λ (cm t : Z * Z), bool_decide (t.1 = cm.1) && (t.2 <=? cm.2)) <$> map_items chains)).

(** ** Walking the graph *)

Context (forget : gmap string (list (string * Z)) → gmap string (list (string * Z))).

Definition cache_set (e : string) (l : list (string * Z)) (cache : gmap string (list (string * Z))) : gmap string (list (string * Z)) :=
  forget (<[e := l]> cache).

(** [event_auth] joined with the [events] of the auth events. *)
Definition select_auth (db : ChainDb) (ids : list string) : list (string * (string * Z)) :=
  omap (λ ea : string * string, if bool_decide (ea.1 ∈ ids) then (λ r, (ea.1, (ea.2, er_depth r))) <$> cd_events db !! ea.2 else None) (cd_event_auth db).

Definition rows_of_event (rows : list (string * (string * Z))) (e : string) : list (string * Z) := (filter (λ r, r.1 = e) rows).*2.

(** The auth events of a chunk of events, from the cache or the database, and the cache
    after that: the events for which there were rows are added. *)
Definition fetch_chunk (db : ChainDb) (chunk : list string) (cache : gmap string (list (string * Z)))
    : list (string * (string * Z)) * gmap string (list (string * Z)) :=
  let cached := e ← chunk; match cache !! e with Some l => pair e <$> l | None => [] end in
  let to_fetch := filter (λ e, cache !! e = None) chunk in
  let rows := select_auth db to_fetch in
  (cached ++ rows, foldl (λ cache e, cache_set e (rows_of_event rows e) cache) cache (remove_dups rows.*1)).

Fixpoint walk_front (fuel : nat) (db : ChainDb) (front results : gset string) (cache : gmap string (list (string * Z)))
    : result (gset string * gmap string (list (string * Z))) :=
  if bool_decide (front = ∅) then Ok (results, cache) else
  match fuel with
  | O => Err OutOfFuel
  | S fuel =>
      let '(new_front, cache) := foldl (λ st chunk,
        let '(found, cache) := fetch_chunk db chunk st.2 in (st.1 ∪ list_to_set (fst ∘ snd <$> found), cache)) (∅, cache) (batch_iter (set_iter front) 100) in
      let front := new_front ∖ results in
      walk_front fuel db front (results ∪ front) cache
  end.

Definition _get_auth_chain_ids_txn (event_ids : list string) (include_given : bool) (db : ChainDb) (cache : gmap string (list (string * Z)))
    : result (gset string * gmap string (list (string * Z))) :=
  walk_front (S (size (cd_events db))) db (list_to_set event_ids) (if include_given then list_to_set event_ids else ∅) cache.

(** ** Differences: the walk *)

Abbreviation missing_sets := (gmap string (gset nat)).

(** [while a_ids]: what the auth events of an event that was seen before lead to is
    reachable from the current event. *)
Definition mark_ancestors (event_sets : gset nat) (event_to_auth_events : graph) (st : missing_sets * gset string) (a_id : string)
    : result (missing_sets * gset string) :=
  m ← getitem st.1 a_id;
  Ok (<[a_id := m ∩ event_sets]> st.1, st.2 ∪ default ∅ (event_to_auth_events !! a_id)).

Fixpoint mark_loop (fuel : nat) (event_sets : gset nat) (event_to_auth_events : graph) (missing : missing_sets) (a_ids : gset string)
    : result missing_sets :=
  if bool_decide (a_ids = ∅) then Ok missing else
  match fuel with
  | O => Err OutOfFuel
  | S fuel =>
      st ← fold_res (mark_ancestors event_sets event_to_auth_events) (set_iter a_ids) (missing, ∅);
      mark_loop fuel event_sets event_to_auth_events st.1 st.2
  end.

Record Walk := MkWalk {
  wk_missing : missing_sets;
  wk_auth : graph;
  wk_search : list (Z * string)
}.

(** One row of what was found. *)
Definition walk_row (fuel n_sets : nat) (w : Walk) (row : string * (string * Z)) : result Walk :=
  let '(event_id, (auth_event_id, auth_event_depth)) := row in
  let auth := setdefault_add event_id auth_event_id (wk_auth w) in
  event_sets ← getitem (wk_missing w) event_id;
  match wk_missing w !! auth_event_id with
  | None =>
      let sets : gset nat := list_to_set (seq 0 n_sets) in
      Ok (MkWalk (<[auth_event_id := sets ∩ event_sets]> (wk_missing w)) auth (wk_search w ++ [(auth_event_depth, auth_event_id)]))
  | Some _ =>
      missing ← mark_loop fuel event_sets auth (wk_missing w) (default ∅ (auth !! auth_event_id));
      sets ← getitem missing auth_event_id;
      event_sets ← getitem missing event_id;
      Ok (MkWalk (<[auth_event_id := sets ∩ event_sets]> missing) auth (wk_search w))
  end.

Fixpoint walk_loop (fuel n_sets : nat) (db : ChainDb) (w : Walk) (cache : gmap string (list (string * Z)))
    : result (missing_sets * gmap string (list (string * Z))) :=
  if forallb (λ de, bool_decide (wk_missing w !! de.2 = Some ∅)) (wk_search w) then Ok (wk_missing w, cache) else
  match fuel with
  | O => Err OutOfFuel
  | S fuel =>
      let cut := (length (wk_search w) - 100)%nat in
      let '(found, cache) := fetch_chunk db (drop cut (wk_search w)).*2 cache in
      w ← fold_res (walk_row (S (size (cd_events db))) n_sets) found (MkWalk (wk_missing w) (wk_auth w) (take cut (wk_search w)));
      walk_loop fuel n_sets db (MkWalk (wk_missing w) (wk_auth w) (merge_sort le_search (wk_search w))) cache
  end.

(** [{i for i, a in enumerate(state_sets) if event_id not in a}] *)
Definition not_in_sets (state_sets : list (gset string)) (e : string) : gset nat :=
  list_to_set ((filter (λ ia : nat * gset string, e ∉ ia.2) (imap pair state_sets)).*1).

(** The union of the state sets; [state_sets[0]] raises when there is none. *)
Definition union_of (state_sets : list (gset string)) : result (gset string) :=
  match state_sets with [] => Err (PyBuiltin IndexError) | s :: l => Ok (foldl (∪) s l) end.

Definition _get_auth_chain_difference_txn (state_sets : list (gset string)) (db : ChainDb) (cache : gmap string (list (string * Z)))
    : result (gset string * gmap string (list (string * Z))) :=
  initial_events ← union_of state_sets;
  let missing : missing_sets := set_to_map (λ e, (e, not_in_sets state_sets e)) initial_events in
  let search := omap (λ e, (λ r, (er_depth r, e)) <$> cd_events db !! e) (concat (batch_iter (set_iter initial_events) 1000)) in
  r ← walk_loop (S (size (cd_events db))) (length state_sets) db (MkWalk missing ∅ (merge_sort le_search search)) cache;
  Ok (filter (λ e, r.1 !! e ≠ Some ∅) (dom r.1), r.2).

(** ** Differences: the index *)

(** What [fetch_chain_info] fills. *)
Record ChainInfo := MkChainInfo {
  ci_info : gmap string (Z * Z);
  ci_to_event : gmap Z (gmap Z string);
  ci_seen : gset Z
}.

Definition add_chain_info (ci : ChainInfo) (r : string * (Z * Z)) : ChainInfo :=
  MkChainInfo (<[r.1 := r.2]> (ci_info ci)) (<[r.2.1 := <[r.2.2 := r.1]> (default ∅ (ci_to_event ci !! r.2.1))]> (ci_to_event ci)) ({[r.2.1]} ∪ ci_seen ci).

Definition fetch_chain_info (db : ChainDb) (events_to_fetch : gset string) (ci : ChainInfo) : ChainInfo :=
  foldl add_chain_info ci (batch_iter (set_iter events_to_fetch) 1000 ≫= select_chains db).

(** The auth events of the events of a room that are not indexed. *)
Definition event_to_auth_ids (db : ChainDb) (room_id : string) : graph :=
  map_imap (λ e (r : string * (string * string)), if bool_decide (r.1 = room_id) then Some (list_to_set (auth_ids db e)) else None) (cd_to_calculate db).

(** [while processing] *)
Fixpoint partial_chain (fuel : nat) (to_auth : graph) (processing to_add : gset string) : result (gset string) :=
  match set_iter processing with
  | [] => Ok to_add
  | auth_id :: _ =>
      match fuel with
      | O => Err OutOfFuel
      | S fuel =>
          let processing := processing ∖ {[auth_id]} in
          let to_add := {[auth_id]} ∪ to_add in
          match to_auth !! auth_id with
          | None => partial_chain fuel to_auth processing to_add
          | Some sub_auth_ids => partial_chain fuel to_auth (processing ∪ (sub_auth_ids ∖ to_add)) to_add
          end
      end
  end.

(** The state set without an event that is not indexed, and what is not indexed of it. *)
Definition replace_unindexed (have_index : gset string) (st : gset string * gset string) (ec : string * gset string) : gset string * gset string :=
  let '(state_set, unindexed) := st in
  let '(event_id, auth_chain) := ec in
  if bool_decide (event_id ∈ state_set) then
    let state_set := state_set ∖ {[event_id]} ∖ auth_chain in
    (state_set ∪ filter (λ a, a ∈ have_index) auth_chain, {[event_id]} ∪ unindexed ∪ filter (λ a, a ∉ have_index) auth_chain)
  else st.

Definition _fixup_auth_chain_difference_sets (room_id : string) (state_sets : list (gset string)) (events_missing_chain_info have_chain_index : gset string) (db : ChainDb)
    : result (gset string * list (gset string)) :=
  let to_auth := event_to_auth_ids db room_id in
  let have_index := have_chain_index ∪ filter (λ a, a ∈ dom (cd_chains db)) (map_fold (λ _ s acc, s ∪ acc) ∅ to_auth) in
  raise_if (negb (bool_decide (events_missing_chain_info ∖ dom to_auth = ∅))) _NoChainCoverIndex ;;
  let fuel := size (map_fold (λ _ s acc, s ∪ acc) ∅ to_auth : gset string) in
  chains ← fold_res (λ (l : list (string * gset string)) (ea : string * gset string),
    if existsb (λ s, bool_decide (ea.1 ∈ s)) state_sets then c ← partial_chain fuel to_auth ea.2 ∅; Ok (l ++ [(ea.1, c)]) else Ok l) (dict_items to_auth) [];
  let split := (λ s, foldl (replace_unindexed have_index) (s, ∅) chains) <$> state_sets in
  match split.*2 with
  | [] => Err (PyBuiltin IndexError)
  | s :: l => Ok (foldl (∪) s l ∖ foldl (∩) s l, split.*1)
  end.

(** [chains] of one state set *)
Definition initial_chains (info : gmap string (Z * Z)) (state_set : gset string) : result (gmap Z Z) :=
  fold_res (λ chains e, t ← getitem info e; Ok (raise_to chains t)) (set_iter state_set) ∅.

(** A link is followed for each state set; the target chain is seen. *)
Definition follow_links (st : list (gmap Z Z) * gset Z) (l : (Z * Z) * (Z * Z)) : list (gmap Z Z) * gset Z :=
  ((λ chains, follow_link chains chains l) <$> st.1, {[l.2.1]} ∪ st.2).

Definition min_max (l : list Z) : Z * Z :=
  match l with [] => (0, 0) | x :: l => (foldl Z.min x l, foldl Z.max x l) end.

(** The events of a gap, as far as they are known; or the gap is to be fetched. *)
Fixpoint fill_gap (events : gmap Z string) (seqs : list Z) (result : gset string) : gset string * bool :=
  match seqs with
  | [] => (result, false)
  | seq_no :: seqs =>
      match events !! seq_no with
      | Some e => if bool_decide (e = "") then (result, true) else fill_gap events seqs ({[e]} ∪ result)
      | None => (result, true)
      end
  end.

Definition chain_gap (set_to_chain : list (gmap Z Z)) (to_event : gmap Z (gmap Z string)) (st : gset string * gmap Z (Z * Z)) (chain_id : Z)
    : gset string * gmap Z (Z * Z) :=
  let '(min_seq_no, max_seq_no) := min_max ((λ chains : gmap Z Z, default 0 (chains !! chain_id)) <$> set_to_chain) in
  if min_seq_no <? max_seq_no then
    let '(result, gap) := fill_gap (default ∅ (to_event !! chain_id)) (seqZ (min_seq_no + 1) (max_seq_no - min_seq_no)) st.1 in
    (result, if gap : bool then <[chain_id := (min_seq_no, max_seq_no)]> st.2 else st.2)
  else st.

(** The difference of state sets whose events are all in [chain_info], with what was found
    before. *)
Definition indexed_difference (ci : ChainInfo) (state_sets : list (gset string)) (res : gset string) (db : ChainDb) : result (gset string) :=
  set_to_chain ← map_res (initial_chains (ci_info ci)) state_sets;
  let '(set_to_chain, seen_chains) := foldl follow_links (set_to_chain, ci_seen ci) (batch_iter (set_iter (ci_seen ci)) 1000 ≫= select_links db) in
  let '(res, chain_to_gap) := foldl (chain_gap set_to_chain (ci_to_event ci)) (res, ∅) (set_iter seen_chains) in
  if bool_decide (chain_to_gap = ∅) then Ok res else
  Ok (res ∪ select_where db ((λ (g : Z * (Z * Z)) (t : Z * Z), bool_decide (t.1 = g.1) && (g.2.1 <? t.2) && (t.2 <=? g.2.2)) <$> map_items chain_to_gap)).

(** The result, and what the state sets are afterwards. *)
Definition _get_auth_chain_difference_using_cover_index_txn (room_id : string) (state_sets : list (gset string)) (db : ChainDb)
    : result (gset string * list (gset string)) :=
  initial_events ← union_of state_sets;
  let ci := fetch_chain_info db initial_events (MkChainInfo ∅ ∅ ∅) in
  let events_missing_chain_info := initial_events ∖ dom (ci_info ci) in
  if bool_decide (events_missing_chain_info = ∅) then res ← indexed_difference ci state_sets ∅ db; Ok (res, state_sets) else
  '(res, state_sets) ← _fixup_auth_chain_difference_sets room_id state_sets events_missing_chain_info (dom (ci_info ci)) db;
  let ci := fetch_chain_info db (foldr (∪) ∅ state_sets ∖ initial_events) ci in
  res ← indexed_difference ci state_sets res db;
  Ok (res, state_sets).

(** ** Choosing the method *)

Definition is_NoChainCoverIndex (e : exn) : bool := bool_decide (e = _NoChainCoverIndex).

Definition get_auth_chain_ids (room_id : string) (event_ids : list string) (include_given : bool) (db : ChainDb) (cache : gmap string (list (string * Z)))
    : result (gset string * gmap string (list (string * Z))) :=
  let walk := _get_auth_chain_ids_txn event_ids include_given db cache in
  if bool_decide (room_id ∈ cd_index_rooms db) then
    try_except (r ← _get_auth_chain_ids_using_cover_index_txn event_ids include_given db; Ok (r, cache)) is_NoChainCoverIndex (λ _, walk)
  else walk.

Definition get_auth_chain_difference (room_id : string) (state_sets : list (gset string)) (db : ChainDb) (cache : gmap string (list (string * Z)))
    : result (gset string * gmap string (list (string * Z))) :=
  let walk := _get_auth_chain_difference_txn state_sets db cache in
  if bool_decide (room_id ∈ cd_index_rooms db) then
    try_except (r ← _get_auth_chain_difference_using_cover_index_txn room_id state_sets db; Ok (r.1, cache)) is_NoChainCoverIndex (λ _, walk)
  else walk.
End reads.
