(* ===== verification/AuthChainProps.v ===== *)
(** * The chain cover index answers reachability

    What is always true of the tables, and that auth chains and auth chain differences
    read from the index are exact. *)

From S2P Require Import Prelude PyVal Constants RoomVersions Events TopoSort IterUtils StateGroups AuthChains AuthChainReads.

(** ** Auth chains *)

Definition auth_edge (db : ChainDb) (e a : string) : Prop := (e, a) ∈ cd_event_auth db.

(** Reachable from a set of events, the events of the set included. *)
Definition set_reaches (R : relation string) (X : gset string) (b : string) : Prop := ∃ a, a ∈ X ∧ rtc R a b.

(** In the auth chain of some set and not in that of all. *)
Definition in_difference (R : relation string) (sets : list (gset string)) (b : string) : Prop :=
  (∃ X, X ∈ sets ∧ set_reaches R X b) ∧ ¬ (∀ X, X ∈ sets → set_reaches R X b).

Lemma elem_of_auth_ids db e a : a ∈ auth_ids db e ↔ auth_edge db e a.
Proof.
  unfold auth_ids, auth_edge. rewrite list_elem_of_fmap. split.
  - intros ([e' a'] & -> & [Hr Hin]%list_elem_of_filter). simpl in *. by subst.
  - intros Hin. exists (e, a). split; [done|]. by apply list_elem_of_filter.
Qed.

Lemma rtc_tc_or (R : relation string) a b : rtc R a b ↔ a = b ∨ tc R a b.
Proof. split; [intros [->|?]%rtc_tc; by auto|intros [->|?]; [done|by apply tc_rtc]]. Qed.

(** ** The index *)

(** A link from the chain of an event, at or below it, to the chain of another one, at or
    above that. *)
Definition linked (links : list ((Z * Z) * (Z * Z))) (ta tb : Z * Z) : Prop :=
  ∃ s1 s2, ((ta.1, s1), (tb.1, s2)) ∈ links ∧ s1 ≤ ta.2 ∧ tb.2 ≤ s2.

(** What is always true of the tables.  [rank] stands for the fact that auth events exist
    before the events that name them. *)
Record chains_ok (rank : string → nat) (db : ChainDb) : Prop := {
  ix_rank e a : auth_edge db e a → (rank a < rank e)%nat;
  ix_nodup e : NoDup (auth_ids db e);
  ix_auth e a : auth_edge db e a → is_Some (state_event db e);
  ix_state e : is_Some (cd_chains db !! e) → is_Some (state_event db e);
  ix_closed e a : is_Some (cd_chains db !! e) → auth_edge db e a → is_Some (cd_chains db !! a);
  ix_unique e e' t : cd_chains db !! e = Some t → cd_chains db !! e' = Some t → e = e';
  ix_range e t : cd_chains db !! e = Some t → 1 ≤ t.2 ∧ t.1 ≤ cd_seq db;
  ix_prev e t : cd_chains db !! e = Some t → 1 < t.2 → ∃ p, cd_chains db !! p = Some (t.1, t.2 - 1) ∧ auth_edge db e p
}.

(** The links say which events of other chains an event reaches; events that wait for
    their auth chain are not indexed. *)
Record index_ok (rank : string → nat) (db : ChainDb) : Prop := {
  ix_chains :> chains_ok rank db;
  ix_links l : l ∈ cd_links db → l.1.1 ≠ l.2.1 ∧ (∃ e, cd_chains db !! e = Some l.1) ∧ ∃ e, cd_chains db !! e = Some l.2;
  ix_target l l' : l ∈ cd_links db → l' ∈ cd_links db → l.1 = l'.1 → l.2.1 = l'.2.1 → l = l';
  ix_cover a b ta tb : cd_chains db !! a = Some ta → cd_chains db !! b = Some tb → ta.1 ≠ tb.1 →
    tc (auth_edge db) a b ↔ linked (cd_links db) ta tb;
  ix_todo e : is_Some (cd_to_calculate db !! e) → cd_chains db !! e = None ∧ is_Some (state_event db e)
}.

Section chains.
Context (rank : string → nat) (db : ChainDb) (Hix : chains_ok rank db).
Abbreviation edge := (auth_edge db).
Abbreviation chains := (cd_chains db).

Lemma tc_rank a b : tc edge a b → (rank b < rank a)%nat.
Proof. induction 1 as [a b He|a b c He _ IH]; [by apply (ix_rank _ _ Hix)|]. apply (ix_rank _ _ Hix) in He. lia. Qed.

(** Along a chain. *)
Lemma chain_down a c sa sb : chains !! a = Some (c, sa) → 1 ≤ sb ≤ sa → ∃ b, chains !! b = Some (c, sb) ∧ rtc edge a b.
Proof.
  intros Ha Hs. remember (Z.to_nat (sa - sb)) as n eqn:En. revert a sa Ha Hs En. induction n as [|n IH]; intros a sa Ha Hs En.
  - exists a. replace sb with sa by lia. done.
  - destruct (ix_prev _ _ Hix a (c, sa) Ha) as (p & Hp & He); [simpl; lia|]. destruct (IH p (sa - 1) Hp) as (b & Hb & Hr); [lia|lia|].
    exists b. split; [done|]. by eapply rtc_l.
Qed.

Lemma same_chain a b c sa sb : chains !! a = Some (c, sa) → chains !! b = Some (c, sb) → tc edge a b ↔ sb < sa.
Proof.
  intros Ha Hb. assert (Hdown : ∀ x y sx sy, chains !! x = Some (c, sx) → chains !! y = Some (c, sy) → sy ≤ sx → rtc edge x y).
  { intros x y sx sy Hx Hy Hs. destruct (ix_range _ _ Hix y _ Hy) as [Hp _]. simpl in Hp.
    destruct (chain_down x c sx sy Hx) as (y' & Hy' & Hr); [lia|]. by rewrite (ix_unique _ _ Hix y y' (c, sy)). }
  split.
  - intros Ht. destruct (decide (sb < sa)); [done|]. pose proof (Hdown b a sb sa Hb Ha ltac:(lia)) as Hr. apply tc_rank in Ht as Hk.
    apply rtc_tc_or in Hr as [->|Hr%tc_rank]; lia.
  - intros Hs. pose proof (Hdown a b sa sb Ha Hb ltac:(lia)) as Hr. apply rtc_tc_or in Hr as [->|?]; [|done]. rewrite Ha in Hb. injection Hb. lia.
Qed.

Lemma reach_indexed a b : is_Some (chains !! a) → rtc edge a b → is_Some (chains !! b).
Proof. intros Ha Hr. induction Hr as [|a c b He _ IH]; [done|]. apply IH. by eapply (ix_closed _ _ Hix). Qed.

Lemma same_chain_rtc a b c sa sb : chains !! a = Some (c, sa) → chains !! b = Some (c, sb) → sb ≤ sa → rtc edge a b.
Proof.
  intros Ha Hb Hs. destruct (decide (sb = sa)) as [->|Hne]; [by rewrite (ix_unique _ _ Hix a b _ Ha Hb)|].
  apply tc_rtc, (same_chain a b c sa sb Ha Hb). lia.
Qed.

End chains.

Section index.
Context (rank : string → nat) (db : ChainDb) (Hix : index_ok rank db).
Abbreviation edge := (auth_edge db).
Abbreviation chains := (cd_chains db).

(** What the index says. *)
Definition covered (ta tb : Z * Z) : Prop := (ta.1 = tb.1 ∧ tb.2 < ta.2) ∨ (ta.1 ≠ tb.1 ∧ linked (cd_links db) ta tb).

Lemma covered_iff a b ta tb : chains !! a = Some ta → chains !! b = Some tb → tc edge a b ↔ covered ta tb.
Proof.
  intros Ha Hb. unfold covered. destruct ta as [ca sa], tb as [cb sb]. simpl. destruct (decide (ca = cb)) as [->|Hne].
  - rewrite (same_chain rank db Hix a b cb sa sb Ha Hb). naive_solver.
  - rewrite (ix_cover _ _ Hix a b _ _ Ha Hb Hne). naive_solver.
Qed.

(** A link leads from the event at its origin to the event at its target. *)
Lemma link_reaches l o t : l ∈ cd_links db → chains !! o = Some l.1 → chains !! t = Some l.2 → tc edge o t.
Proof.
  intros Hl Ho Ht. destruct (ix_links _ _ Hix l Hl) as (Hne & _). apply (ix_cover _ _ Hix o t _ _ Ho Ht Hne).
  exists l.1.2, l.2.2. split_and!; [|lia|lia]. by destruct l as [[] []].
Qed.
End index.

(** ** Going back in rounds *)

(** What is reached in a round has an event behind it for each round before. *)
Definition behind (rank : string → nat) (db : ChainDb) (k : nat) (X : gset string) : Prop :=
  ∀ a, a ∈ X → ∃ p, length p = k ∧ NoDup p ∧ ∀ x, x ∈ p → x ∈ dom (cd_events db) ∧ (rank a < rank x)%nat.

Lemma behind_start rank db X : behind rank db 0 X.
Proof. intros a _. exists []. split_and!; [done|constructor|by intros x ?%not_elem_of_nil]. Qed.

Lemma behind_step rank db k X Y :
  chains_ok rank db → behind rank db k X → (∀ b, b ∈ Y → ∃ a, a ∈ X ∧ auth_edge db a b ∧ a ∈ dom (cd_events db)) → behind rank db (S k) Y.
Proof.
  intros Hix HX HY b (a & HaX & Hab & Ha)%HY. destruct (HX a HaX) as (p & Hl & Hnd & Hp). pose proof (ix_rank _ _ Hix a b Hab) as Hr.
  exists (a :: p). split_and!; [by simpl; rewrite Hl|constructor; [|done]; intros Hin; destruct (Hp a Hin); lia|].
  intros x [->|Hx]%elem_of_cons; [done|]. destruct (Hp x Hx). split; [done|lia].
Qed.

Lemma behind_bound rank db k X : X ≠ ∅ → behind rank db k X → (k ≤ size (cd_events db))%nat.
Proof.
  intros [a Ha]%set_choose_L HX. destruct (HX a Ha) as (p & <- & Hnd & Hp). rewrite <- size_dom.
  rewrite <- (size_list_to_set (C := gset string) p Hnd). apply subseteq_size. intros x Hx%elem_of_list_to_set. by apply Hp.
Qed.

(** ** Maps from chains to sequence numbers *)

Definition level (M : gmap Z Z) (c : Z) : Z := default 0 (M !! c).

Lemma level_raise M t c : level (raise_to M t) c = if decide (c = t.1) then Z.max t.2 (level M c) else level M c.
Proof. unfold level, raise_to. case_decide as Hc; [subst; by rewrite lookup_insert_eq|by rewrite lookup_insert_ne]. Qed.

Lemma level_raise_mono M t c : level M c ≤ level (raise_to M t) c.
Proof. rewrite level_raise. case_decide; lia. Qed.

Lemma level_fold_mono {A} (f : gmap Z Z → A → gmap Z Z) l M c :
  (∀ M x c, level M c ≤ level (f M x) c) → level M c ≤ level (foldl f M l) c.
Proof. intros Hf. revert M. induction l as [|x l IH]; intros M; simpl; [lia|]. specialize (IH (f M x)). specialize (Hf M x c). lia. Qed.

Lemma level_fold_raise l M t : t ∈ l → t.2 ≤ level (foldl raise_to M l) t.1.
Proof.
  intros Hin. revert M. induction Hin as [t l|t x l _ IH]; intros M; simpl; [|apply IH].
  etransitivity; [|apply level_fold_mono; intros; apply level_raise_mono]. rewrite level_raise, decide_True by done. lia.
Qed.

Lemma follow_link_mono E M l c : level M c ≤ level (follow_link E M l) c.
Proof. unfold follow_link. destruct (_ <=? _); [apply level_raise_mono|lia]. Qed.

Section maps.
Context (rank : string → nat) (db : ChainDb) (Hix : index_ok rank db).
Abbreviation edge := (auth_edge db).
Abbreviation chains := (cd_chains db).

(** Every entry is the position of an event with some property. *)
Definition attained (P : string → Prop) (M : gmap Z Z) : Prop := ∀ c m, M !! c = Some m → ∃ x, chains !! x = Some (c, m) ∧ P x.

Lemma attained_level P M c s : attained P M → 1 ≤ s ≤ level M c → ∃ x m, chains !! x = Some (c, m) ∧ s ≤ m ∧ P x.
Proof. intros Ha [Hs Hl]. unfold level in Hl. destruct (M !! c) as [m|] eqn:E; simpl in Hl; [|lia]. destruct (Ha c m E) as (x & ? & ?). by exists x, m. Qed.

Lemma attained_raise P M x t : attained P M → chains !! x = Some t → P x → attained P (raise_to M t).
Proof.
  intros Ha Hx HP c m. unfold raise_to. rewrite lookup_insert_Some. intros [[<- <-]|[_ Hm]]; [|by apply Ha].
  destruct (ix_range _ _ Hix x t Hx) as [Hp _]. destruct (M !! t.1) as [m|] eqn:E; simpl.
  - destruct (decide (m ≤ t.2)); [exists x; split; [|done]; rewrite Z.max_l by lia; by destruct t|]. rewrite Z.max_r by lia. by apply Ha.
  - exists x. rewrite Z.max_l by lia. by destruct t.
Qed.

Lemma attained_fold P l M : attained P M → (∀ t, t ∈ l → ∃ x, chains !! x = Some t ∧ P x) → attained P (foldl raise_to M l).
Proof.
  revert M. induction l as [|t l IH]; intros M Ha Hl; simpl; [done|]. apply IH; [|intros; apply Hl; by right].
  destruct (Hl t ltac:(by left)) as (x & Hx & HP). by eapply attained_raise.
Qed.

(** Following a link from where a set reaches, to where its events reach. *)
Lemma attained_follow (P Q : string → Prop) E M l :
  (∀ x y, P x → tc edge x y → Q y) → attained P E → attained Q M → l ∈ cd_links db → attained Q (follow_link E M l).
Proof.
  intros HPQ HE HM Hl. unfold follow_link. destruct (l.1.2 <=? default 0 (E !! l.1.1)) eqn:Hs; [|done].
  destruct (ix_links _ _ Hix l Hl) as (Hne & [o Ho] & [t Ht]). destruct (ix_range _ _ Hix o _ Ho) as [Hp _].
  destruct (attained_level P E l.1.1 l.1.2 HE) as (x & m & Hx & Hm & HP); [unfold level; lia|]. apply (attained_raise Q M t l.2); [done|done|].
  apply (HPQ x t HP). assert (Ho' : chains !! o = Some (l.1.1, l.1.2)) by (by destruct l as [[] []]).
  eapply tc_rtc_l; [apply (same_chain_rtc rank db Hix x o l.1.1 m l.1.2); done|]. by eapply link_reaches.
Qed.

(** ** From one set of events to what it reaches *)

(** The positions up to which a set reaches. *)
Definition reach_map (X : gset string) (M : gmap Z Z) : Prop :=
  ∀ b t, chains !! b = Some t → t.2 ≤ level M t.1 ↔ set_reaches edge X b.

Lemma reach_map_attained X M :
  attained (set_reaches edge X) M →
  (∀ a ta, a ∈ X → chains !! a = Some ta → ta.2 ≤ level M ta.1) →
  (∀ a ta b tb, a ∈ X → chains !! a = Some ta → chains !! b = Some tb → ta.1 ≠ tb.1 → linked (cd_links db) ta tb → tb.2 ≤ level M tb.1) →
  (∀ a, a ∈ X → is_Some (chains !! a)) → reach_map X M.
Proof.
  intros Ha Hself Hlink HX b t Hb. destruct t as [c s]. destruct (ix_range _ _ Hix b _ Hb) as [Hp _]. simpl in *. split.
  - intros Hs. destruct (attained_level _ M c s Ha ltac:(lia)) as (x & m & Hx & Hm & (a & HaX & Hr)). exists a. split; [done|].
    etransitivity; [exact Hr|]. by eapply (same_chain_rtc rank db Hix).
  - intros (a & HaX & Hr). destruct (HX a HaX) as [[ca sa] Hca]. pose proof (Hself a _ HaX Hca) as Hl. simpl in Hl.
    apply rtc_tc_or in Hr as [->|Ht]; [rewrite Hb in Hca; injection Hca as -> ->; lia|].
    destruct (decide (ca = c)) as [->|Hne]; [apply (same_chain rank db Hix a b c sa s Hca Hb) in Ht; lia|].
    apply (ix_cover _ _ Hix a b _ _ Hca Hb Hne) in Ht. exact (Hlink a (ca, sa) b (c, s) HaX Hca Hb Hne Ht).
Qed.

(** The links from the chains of a set, followed in any order. *)
Lemma follow_links_reach X M0 L :
  attained (set_reaches edge X) M0 → (∀ l, l ∈ L → l ∈ cd_links db) →
  (∀ a ta, a ∈ X → chains !! a = Some ta → ta.2 ≤ level M0 ta.1 ∧ ∀ l, l ∈ cd_links db → l.1.1 = ta.1 → l ∈ L) →
  (∀ a, a ∈ X → is_Some (chains !! a)) → reach_map X (foldl (λ M l, follow_link M M l) M0 L).
Proof.
  intros H0 HL Hself HX. set (f := λ M l, follow_link M M l). assert (Hmono : ∀ M x c, level M c ≤ level (f M x) c) by (intros; apply follow_link_mono).
  apply reach_map_attained; [| | |done].
  - clear Hself HX. revert M0 H0. induction L as [|l L IH]; intros M0 H0; simpl; [done|]. apply IH; [intros; apply HL; by right|].
    eapply (attained_follow (set_reaches edge X)); [|done|done|apply HL; by left]. intros x y (a & Ha & Hr) Ht. exists a. split; [done|]. etransitivity; [done|by apply tc_rtc].
  - intros a ta Ha Hta. destruct (Hself a ta Ha Hta) as [Hl _]. pose proof (level_fold_mono f L M0 ta.1 Hmono). unfold f in *. lia.
  - intros a ta b tb Ha Hta Hb _ (s1 & s2 & Hin & Hs1 & Hs2). destruct (Hself a ta Ha Hta) as [Hl HinL]. specialize (HinL _ Hin eq_refl). clear Hself HX H0.
    apply list_elem_of_split in HinL as (L1 & L2 & ->). rewrite foldl_app. cbn [foldl]. etransitivity; [|apply (level_fold_mono f), Hmono].
    set (M := foldl f M0 L1). assert (HM : level M0 ta.1 ≤ level M ta.1) by (apply level_fold_mono, Hmono). clearbody M.
    unfold f, follow_link. cbn [fst snd]. rewrite (proj2 (Z.leb_le s1 _)) by (unfold level in *; lia). rewrite level_raise, decide_True by done. simpl. lia.
Qed.
End maps.

(** ** Queries *)

Section queries.
Context `{IterOrderOk} (engine : DatabaseEngine) (db : ChainDb).

Lemma elem_of_batches {A} (l : list A) n x : (0 < n)%nat → x ∈ concat (batch_iter l n) ↔ x ∈ l.
Proof. intros Hn. by rewrite batch_iter_concat. Qed.

Lemma elem_of_batched {A B} (f : list A → list B) (g : A → B → Prop) l n y :
  (0 < n)%nat → (∀ b y, y ∈ f b ↔ ∃ x, x ∈ b ∧ g x y) → y ∈ (batch_iter l n ≫= f) ↔ ∃ x, x ∈ l ∧ g x y.
Proof.
  intros Hn Hf. rewrite list_elem_of_bind. split.
  - intros (b & (x & Hx & Hg)%Hf & Hb). exists x. split; [by eapply elem_of_batch|done].
  - intros (x & Hx & Hg). rewrite <- (batch_iter_concat l n Hn) in Hx. apply list_elem_of_In, in_concat in Hx as (b & Hb & Hx).
    exists b. split; [apply Hf; exists x; split; [by apply list_elem_of_In|done]|by apply list_elem_of_In].
Qed.

Lemma elem_of_select_chains ids r : r ∈ select_chains db ids ↔ ∃ e, e ∈ ids ∧ r.1 = e ∧ cd_chains db !! e = Some r.2.
Proof.
  unfold select_chains. rewrite list_elem_of_omap. split.
  - intros (e & He & Hr). destruct (cd_chains db !! e) as [t|] eqn:E; [|done]. injection Hr as <-. by exists e.
  - intros (e & He & <- & Hr). exists r.1. split; [done|]. rewrite Hr. by destruct r.
Qed.

Lemma elem_of_select_links l ids : l ∈ select_links db ids ↔ ∃ c, c ∈ ids ∧ l.1.1 = c ∧ l ∈ cd_links db.
Proof. unfold select_links. rewrite list_elem_of_filter. naive_solver. Qed.

Lemma elem_of_select_where conditions e :
  e ∈ select_where engine db conditions ↔ ∃ t c, cd_chains db !! e = Some t ∧ c ∈ conditions ∧ c t = true.
Proof.
  unfold select_where. destruct engine.
  - rewrite elem_of_list_to_set, list_elem_of_bind. split.
    + intros (r & (c & Hc & Hin)%list_elem_of_bind & Hr%elem_of_map_to_list'). destruct (c r.2) eqn:E; [|by apply not_elem_of_nil in Hc].
      apply list_elem_of_singleton in Hc as ->. by exists r.2, c.
    + intros (t & c & Ht & Hc & E). exists (e, t). split; [|by apply elem_of_map_to_list]. apply list_elem_of_bind. exists c. split; [|done]. simpl. rewrite E. by left.
  - rewrite <- (left_id_L ∅ (∪) (foldl _ _ _)).
    assert (Hg : ∀ X : gset string, e ∈ foldl (λ res c, res ∪ list_to_set (filter (λ r : string * (Z * Z), c r.2 = true) (map_to_list (cd_chains db))).*1) X conditions ↔
      e ∈ X ∨ ∃ t c, cd_chains db !! e = Some t ∧ c ∈ conditions ∧ c t = true).
    { induction conditions as [|c l IH]; intros X; simpl; [setoid_rewrite elem_of_nil; naive_solver|].
      rewrite IH, elem_of_union, elem_of_list_to_set, list_elem_of_fmap. setoid_rewrite elem_of_cons. split.
      - intros [[?|([e' t] & -> & [Hc Hin]%list_elem_of_filter)]|(t & c' & ? & ? & ?)]; [by left| |right; eauto 6].
        apply elem_of_map_to_list in Hin. right. exists t, c. eauto.
      - intros [?|(t & c' & Ht & [->|Hc] & E)]; [by left; left| |right; eauto]. left. right. exists (e, t). split; [done|]. apply list_elem_of_filter.
        split; [done|]. by apply elem_of_map_to_list. }
    rewrite elem_of_union, Hg. set_solver.
Qed.
End queries.

(** ** Auth chains from the index *)

Section auth_chain.
Context `{IterOrderOk} (engine : DatabaseEngine) (rank : string → nat) (db : ChainDb) (Hix : index_ok rank db).
Abbreviation edge := (auth_edge db).
Abbreviation chains := (cd_chains db).

(** In the auth chain of some of the events. *)
Definition strictly_reaches (X : gset string) (b : string) : Prop := ∃ a, a ∈ X ∧ tc edge a b.

Lemma strictly_closed X x y : set_reaches edge X x → tc edge x y → strictly_reaches X y.
Proof. intros (a & Ha & Hr) Ht. exists a. split; [done|]. by eapply tc_rtc_l. Qed.

(** The chains of the initial events. *)
Lemma event_chains_ok (X : gset string) (rows : list (string * (Z * Z))) :
  (∀ r, r ∈ rows ↔ r.1 ∈ X ∧ chains !! r.1 = Some r.2) →
  attained db (λ x, x ∈ X) (foldl raise_to ∅ rows.*2) ∧ ∀ a t, a ∈ X → chains !! a = Some t → t.2 ≤ level (foldl raise_to ∅ rows.*2) t.1.
Proof.
  intros Hrows. split.
  - apply (attained_fold rank db Hix); [by intros c m ?%lookup_empty_Some|]. intros t ([e t'] & -> & [HX Ht]%Hrows)%list_elem_of_fmap. by exists e.
  - intros a t Ha Ht. apply level_fold_raise. apply list_elem_of_fmap. exists (a, t). split; [done|]. by apply Hrows.
Qed.

(** The chains that are reached, without the initial events. *)
Lemma strict_chains_ok (X : gset string) E L :
  attained db (λ x, x ∈ X) E → (∀ a t, a ∈ X → chains !! a = Some t → t.2 ≤ level E t.1) → (∀ a, a ∈ X → is_Some (chains !! a)) →
  (∀ l, l ∈ L ↔ l ∈ cd_links db ∧ is_Some (E !! l.1.1)) →
  let M := foldl add_initial_chain (foldl (follow_link E) ∅ L) (map_items E) in
  ∀ b t, chains !! b = Some t → (∃ m, M !! t.1 = Some m ∧ t.2 ≤ m) ↔ strictly_reaches X b.
Proof.
  intros HE HEl HX HL M. set (M1 := foldl (follow_link E) ∅ L).
  assert (Hm1 : attained db (strictly_reaches X) M1).
  { unfold M1. assert (Hsub : ∀ l, l ∈ L → l ∈ cd_links db) by (intros l [? _]%HL; done). clear HL.
    assert (Hemp : attained db (strictly_reaches X) ∅) by (by intros c m ?%lookup_empty_Some). revert Hemp. generalize (∅ : gmap Z Z).
    induction L as [|l L IH]; intros M0 HM0; simpl; [done|]. apply IH; [intros; apply Hsub; by right|].
    eapply (attained_follow rank db Hix (λ x, x ∈ X)); [|done|done|apply Hsub; by left]. intros x y Hx Ht. by exists x. }
  assert (Hm : attained db (strictly_reaches X) M).
  { unfold M. assert (Hit : ∀ cs, cs ∈ map_items E → E !! cs.1 = Some cs.2) by (intros cs; by rewrite elem_of_map_items). fold M1. clear M. revert Hm1. generalize M1. clear M1.
    induction (map_items E) as [|cs l IH]; intros M0 HM0; simpl; [done|]. apply IH; [intros; apply Hit; by right|]. unfold add_initial_chain.
    case_bool_decide; [done|]. destruct (HE _ _ (Hit cs ltac:(by left))) as (x & Hx & HxX). destruct (ix_range _ _ Hix x _ Hx) as [Hp _]. simpl in *.
    destruct (ix_prev _ _ Hix x _ Hx) as (p & Hp1 & He); [simpl; lia|]. simpl in *. eapply (attained_raise rank db Hix); [done|exact Hp1|]. exists x. split; [done|by apply tc_once]. }
  assert (Hmono : ∀ M x c, level M c ≤ level (add_initial_chain M x) c).
  { intros M0 x c. unfold add_initial_chain. case_bool_decide; [lia|apply level_raise_mono]. }
  intros b [c s] Hb. destruct (ix_range _ _ Hix b _ Hb) as [Hp _]. simpl in *. split.
  - intros (m & HMc & Hs). destruct (Hm c m HMc) as (x & Hx & (a & Ha & Ht)). exists a. split; [done|]. eapply tc_rtc_r; [done|]. by eapply (same_chain_rtc rank db Hix).
  - intros (a & Ha & Ht). enough (Hl : s ≤ level M c) by (unfold level in Hl; destruct (M !! c) as [m|]; simpl in Hl; [by exists m|lia]).
    destruct (HX a Ha) as [[ca sa] Hca]. pose proof (HEl a _ Ha Hca) as Hl. simpl in Hl. destruct (ix_range _ _ Hix a _ Hca) as [Hpa _]. simpl in Hpa.
    destruct (E !! ca) as [m|] eqn:Em; [|unfold level in Hl; rewrite Em in Hl; simpl in Hl; lia].
    destruct (decide (ca = c)) as [->|Hne].
    + apply (same_chain rank db Hix a b c sa s Hca Hb) in Ht. unfold level in Hl. rewrite Em in Hl. simpl in Hl.
      assert (Hin : (c, m) ∈ map_items E) by (by rewrite elem_of_map_items). apply list_elem_of_split in Hin as (l1 & l2 & El). unfold M. rewrite El, foldl_app. cbn [foldl].
      etransitivity; [|apply level_fold_mono, Hmono]. unfold add_initial_chain at 1. rewrite bool_decide_false by (simpl; lia). rewrite level_raise, decide_True by done. simpl. lia.
    + destruct (proj1 (ix_cover _ _ Hix a b (ca, sa) (c, s) Hca Hb Hne) Ht) as (s1 & s2 & Hin & Hs1 & Hs2). simpl in *. unfold M. etransitivity; [|apply level_fold_mono, Hmono].
      assert (HinL : ((ca, s1), (c, s2)) ∈ L) by (apply HL; simpl; rewrite Em; by split). apply list_elem_of_split in HinL as (L1 & L2 & ->). unfold M1. rewrite foldl_app. cbn [foldl].
      etransitivity; [|apply level_fold_mono; intros; apply follow_link_mono]. unfold follow_link at 1. cbn [fst snd]. rewrite (proj2 (Z.leb_le s1 _)) by (unfold level in *; lia).
      rewrite level_raise, decide_True by done. simpl. lia.
Qed.

Lemma cover_ids_ok ids include_given :
  match _get_auth_chain_ids_using_cover_index_txn engine ids include_given db with
  | Ok r => (∀ e, e ∈ ids → is_Some (chains !! e)) ∧ ∀ e, e ∈ r ↔ (include_given = true ∧ e ∈ ids) ∨ strictly_reaches (list_to_set ids) e
  | Err x => x = _NoChainCoverIndex ∧ ∃ e, e ∈ ids ∧ chains !! e = None
  end.
Proof.
  unfold _get_auth_chain_ids_using_cover_index_txn. set (X := list_to_set ids : gset string). set (rows := batch_iter (set_iter X) 1000 ≫= select_chains db).
  assert (Hrows : ∀ r, r ∈ rows ↔ r.1 ∈ X ∧ chains !! r.1 = Some r.2).
  { intros r. unfold rows. rewrite (elem_of_batched _ (λ e r, r.1 = e ∧ chains !! e = Some r.2)); [|lia|intros; by rewrite elem_of_select_chains].
    setoid_rewrite elem_of_set_iter. naive_solver. }
  assert (Hseen : ∀ e, e ∈ (list_to_set rows.*1 : gset string) ↔ e ∈ X ∧ is_Some (chains !! e)).
  { intros e. rewrite elem_of_list_to_set, list_elem_of_fmap. split; [intros (r & -> & [? ?]%Hrows); split; [done|by eexists]|intros [HX [t Ht]]; exists (e, t); split; [done|by apply Hrows]]. }
  case_bool_decide as Hmiss; cbn [negb raise_if mbind result_bind].
  - assert (HX : ∀ a, a ∈ X → is_Some (chains !! a)).
    { intros a Ha. destruct (decide (a ∈ (list_to_set rows.*1 : gset string))) as [?%Hseen|Hn]; [naive_solver|set_solver]. }
    destruct (event_chains_ok X rows Hrows) as [HE HEl]. set (E := foldl raise_to ∅ rows.*2) in *. clearbody E.
    set (L := batch_iter (map_items E).*1 1000 ≫= select_links db).
    assert (HL : ∀ l, l ∈ L ↔ l ∈ cd_links db ∧ is_Some (E !! l.1.1)).
    { intros l. unfold L. rewrite (elem_of_batched _ (λ c l, l.1.1 = c ∧ l ∈ cd_links db)); [|lia|intros; by rewrite elem_of_select_links].
      setoid_rewrite list_elem_of_fmap. setoid_rewrite elem_of_map_items. split.
      - intros (c & ([c1 m] & -> & Hm) & Hc & Hin). simpl in *. subst c1. split; [done|by eexists].
      - intros [Hin [m Hm]]. exists l.1.1. split_and!; [|done|done]. by exists (l.1.1, m). }
    pose proof (strict_chains_ok X E L HE HEl HX HL) as HM. cbv zeta in HM. set (M := foldl add_initial_chain _ _) in *. clearbody M.
    split; [intros e He; apply HX; by apply elem_of_list_to_set|]. intros e. rewrite elem_of_union, elem_of_select_where.
    assert (Hsel : (∃ t c, chains !! e = Some t ∧ c ∈ ((λ (cm t : Z * Z), bool_decide (t.1 = cm.1) && (t.2 <=? cm.2)) <$> map_items M) ∧ c t = true) ↔ strictly_reaches X e).
    { setoid_rewrite list_elem_of_fmap. setoid_rewrite elem_of_map_items. split.
      - intros (t & c & Ht & ([c' m] & -> & Hm) & Hc). apply andb_true_iff in Hc as [Hc1%bool_decide_eq_true Hc2%Z.leb_le]. simpl in *. apply (HM e t Ht). exists m. by rewrite Hc1.
      - intros Hr. assert (is_Some (chains !! e)) as [t Ht] by (destruct Hr as (a & Ha & Hr); eapply (reach_indexed rank db Hix); [by apply HX|by apply tc_rtc]).
        destruct (proj2 (HM e t Ht) Hr) as (m & Hm & Hs). exists t. eexists. split_and!; [done|by exists (t.1, m)|]. simpl. apply andb_true_iff. split; [by apply bool_decide_eq_true|by apply Z.leb_le]. }
    rewrite Hsel. unfold X. destruct include_given; [rewrite elem_of_list_to_set|]; set_solver.
  - split; [done|]. assert (Hne : X ∖ list_to_set rows.*1 ≠ ∅) by done. apply set_choose_L in Hne as [e He]. apply elem_of_difference in He as [HX Hn]. exists e.
    split; [unfold X in HX; by rewrite elem_of_list_to_set in HX|]. rewrite Hseen in Hn. apply eq_None_not_Some. tauto.
Qed.
End auth_chain.

(** * Auth chain differences from the index *)

(** ** The smallest and the largest *)

Lemma min_max_spec (l : list Z) s :
  l ≠ [] → ((min_max l).1 < s ↔ ∃ x, x ∈ l ∧ x < s) ∧ (s ≤ (min_max l).2 ↔ ∃ x, x ∈ l ∧ s ≤ x).
Proof.
  destruct l as [|x l]; [done|]. intros _. simpl. revert x. induction l as [|y l IH]; intros x; simpl.
  - setoid_rewrite list_elem_of_singleton. split; split; [intros; by exists x|by intros (? & -> & ?)|intros; by exists x|by intros (? & -> & ?)].
  - destruct (IH (Z.min x y)) as [IH1 _], (IH (Z.max x y)) as [_ IH2]. rewrite IH1, IH2. split; split; intros (z & [->|Hz]%elem_of_cons & Hs).
    + destruct (decide (x ≤ y)); [exists x; split; [by left|lia]|exists y; split; [right; by left|lia]].
    + exists z. split; [by do 2 right|done].
    + exists (Z.min x y). split; [by left|lia].
    + apply elem_of_cons in Hz as [->|Hz]; [exists (Z.min x y); split; [by left|lia]|exists z; split; [by right|done]].
    + destruct (decide (x ≤ y)); [exists y; split; [right; by left|lia]|exists x; split; [by left|lia]].
    + exists z. split; [by do 2 right|done].
    + exists (Z.max x y). split; [by left|lia].
    + apply elem_of_cons in Hz as [->|Hz]; [exists (Z.max x y); split; [by left|lia]|exists z; split; [by right|done]].
Qed.

Lemma fill_gap_spec events seqs res :
  let '(res', gap) := fill_gap events seqs res in
  res ⊆ res' ∧ (∀ e, e ∈ res' → e ∈ res ∨ ∃ s, s ∈ seqs ∧ events !! s = Some e) ∧
  (gap = false → ∀ s, s ∈ seqs → ∃ e, events !! s = Some e ∧ e ∈ res').
Proof.
  revert res. induction seqs as [|s seqs IH]; intros res; simpl; [split_and!; [done|by left|by intros _ s ?%not_elem_of_nil]|].
  destruct (events !! s) as [e|] eqn:E; [|by split_and!; [done|by left|]]. case_bool_decide; [by split_and!; [done|by left|]|].
  specialize (IH ({[e]} ∪ res)). destruct (fill_gap _ _ _) as [res' gap]. destruct IH as (I1 & I2 & I3). split_and!; [set_solver| |].
  - intros e' He'. apply I2 in He' as [He'|(s' & Hs' & E')]; [|right; exists s'; split; [by right|done]].
    apply elem_of_union in He' as [->%elem_of_singleton|?]; [right; exists s; split; [by left|done]|by left].
  - intros Hg s' [->|Hs']%elem_of_cons; [exists e; split; [done|set_solver]|by apply I3].
Qed.

Lemma elem_of_union_all (s : gset string) l x : x ∈ foldl (∪) s l ↔ ∃ X, X ∈ s :: l ∧ x ∈ X.
Proof.
  revert s. induction l as [|t l IH]; intros s; simpl; [setoid_rewrite list_elem_of_singleton; naive_solver|].
  rewrite IH. setoid_rewrite elem_of_cons. setoid_rewrite elem_of_cons. split.
  - intros (X & [->|?] & Hx); [apply elem_of_union in Hx as [?|?]|]; eauto.
  - intros (X & [->|[->|?]] & Hx); [exists (s ∪ t)|exists (s ∪ t)|exists X]; set_solver.
Qed.

Lemma elem_of_intersection_all (s : gset string) l x : x ∈ foldl (∩) s l ↔ ∀ X, X ∈ s :: l → x ∈ X.
Proof.
  revert s. induction l as [|t l IH]; intros s; simpl; [setoid_rewrite list_elem_of_singleton; naive_solver|].
  rewrite IH. setoid_rewrite elem_of_cons. setoid_rewrite elem_of_cons. split.
  - intros Hall X [->|[->|?]]; [specialize (Hall (s ∩ t) ltac:(by left)); set_solver..|apply Hall; by right].
  - intros Hall X [->|?]; [apply elem_of_intersection; split; apply Hall; auto|apply Hall; auto].
Qed.

Lemma tc_last (R : relation string) a b : tc R a b → ∃ c, R c b.
Proof. induction 1 as [a b ?|a c b _ _ IH]; [by exists a|done]. Qed.

Section difference.
Context `{IterOrderOk} (engine : DatabaseEngine) (rank : string → nat) (db : ChainDb) (Hix : index_ok rank db).
Abbreviation edge := (auth_edge db).
Abbreviation chains := (cd_chains db).

(** ** What is known of the chains of some events *)

Record info_ok (X : gset string) (ci : ChainInfo) : Prop := {
  io_info e : ci_info ci !! e = if decide (e ∈ X) then chains !! e else None;
  io_event c s e : default ∅ (ci_to_event ci !! c) !! s = Some e → chains !! e = Some (c, s);
  io_seen c : c ∈ ci_seen ci ↔ ∃ e s, e ∈ X ∧ chains !! e = Some (c, s)
}.

Lemma info_ok_empty : info_ok ∅ (MkChainInfo ∅ ∅ ∅).
Proof. constructor; simpl; [intros e; by rewrite lookup_empty, decide_False by set_solver|intros c s e; by rewrite !lookup_empty|set_solver]. Qed.

Lemma add_info_ok X ci r : info_ok X ci → chains !! r.1 = Some r.2 → info_ok ({[r.1]} ∪ X) (add_chain_info ci r).
Proof.
  intros [I1 I2 I3] Hr. destruct r as [e [c s]]. simpl in *. constructor; simpl.
  - intros e'. destruct (decide (e' = e)) as [->|Hne]; [rewrite lookup_insert_eq, decide_True by set_solver; done|].
    rewrite lookup_insert_ne, I1 by done. apply decide_ext. set_solver.
  - intros c' s' e'. destruct (decide (c' = c)) as [->|Hne]; [|rewrite lookup_insert_ne by done; apply I2]. rewrite lookup_insert_eq. simpl.
    rewrite lookup_insert_Some. intros [[<- <-]|[_ He]]; [done|by apply I2].
  - intros c'. rewrite elem_of_union, I3, elem_of_singleton. split.
    + intros [->|(e' & s' & ? & ?)]; [exists e, s|exists e', s']; set_solver.
    + intros (e' & s' & [->%elem_of_singleton|?]%elem_of_union & He'); [left; congruence|right; eauto].
Qed.

Lemma fetch_info_ok X Y ci : info_ok X ci → info_ok (X ∪ Y) (fetch_chain_info db Y ci).
Proof.
  intros Hci. unfold fetch_chain_info. set (rows := batch_iter (set_iter Y) 1000 ≫= select_chains db).
  assert (Hrows : ∀ r, r ∈ rows ↔ r.1 ∈ Y ∧ chains !! r.1 = Some r.2).
  { intros r. unfold rows. rewrite (elem_of_batched _ (λ e r, r.1 = e ∧ chains !! e = Some r.2)); [|lia|intros; by rewrite elem_of_select_chains].
    setoid_rewrite elem_of_set_iter. naive_solver. }
  assert (Hf : info_ok (list_to_set rows.*1 ∪ X) (foldl add_chain_info ci rows)).
  { assert (Hsub : ∀ r, r ∈ rows → chains !! r.1 = Some r.2) by (intros r [_ ?]%Hrows; done). clearbody rows. clear Hrows. revert X ci Hci.
    induction rows as [|r rows IH]; intros X ci Hci; simpl; [by rewrite (left_id_L ∅ (∪))|].
    specialize (IH ltac:(intros; apply Hsub; by right) _ _ (add_info_ok X ci r Hci (Hsub r ltac:(by left)))). refine (eq_ind _ (λ Y, info_ok Y _) IH _ _). set_solver. }
  assert (Hin : ∀ e, e ∈ (list_to_set rows.*1 : gset string) ↔ e ∈ Y ∧ is_Some (chains !! e)).
  { intros e. rewrite elem_of_list_to_set, list_elem_of_fmap. split; [intros (r & -> & [? ?]%Hrows); split; [done|by eexists]|intros [HX [t Ht]]; exists (e, t); split; [done|by apply Hrows]]. }
  destruct Hf as [F1 F2 F3]. constructor; [|done|].
  - intros e. rewrite F1. destruct (chains !! e) as [t|] eqn:E; [|by repeat case_decide]. apply decide_ext. rewrite elem_of_union, Hin, E, elem_of_union. naive_solver.
  - intros c. rewrite F3. setoid_rewrite elem_of_union. setoid_rewrite Hin. split.
    + intros (e & s & [[? ?]|?] & ?); exists e, s; tauto.
    + intros (e & s & [?|?] & Hc); exists e, s; (split; [|done]); [by right|left]. split; [done|]. rewrite Hc. by eexists.
Qed.

Lemma initial_chains_ok X ci S :
  info_ok X ci → S ⊆ X → (∀ e, e ∈ S → is_Some (chains !! e)) →
  ∃ M, initial_chains (ci_info ci) S = Ok M ∧ attained db (set_reaches edge S) M ∧
    (∀ a t, a ∈ S → chains !! a = Some t → t.2 ≤ level M t.1) ∧ ∀ c, M !! c ≠ None → c ∈ ci_seen ci.
Proof.
  intros [I1 I2 I3] HS Hidx. unfold initial_chains.
  assert (Hf : ∀ l M, (∀ e, e ∈ l → e ∈ S) → attained db (set_reaches edge S) M → (∀ c, M !! c ≠ None → c ∈ ci_seen ci) →
    ∃ M', fold_res (λ chains e, t ← getitem (ci_info ci) e; Ok (raise_to chains t)) l M = Ok M' ∧ attained db (set_reaches edge S) M' ∧
      (∀ c, level M c ≤ level M' c) ∧ (∀ a t, a ∈ l → chains !! a = Some t → t.2 ≤ level M' t.1) ∧ ∀ c, M' !! c ≠ None → c ∈ ci_seen ci).
  { induction l as [|e l IH]; intros M Hl HM Hdom; cbn [fold_res]; [exists M; split_and!; [done|done|done|by intros a t ?%not_elem_of_nil|done]|].
    pose proof (Hl e ltac:(by left)) as He. destruct (Hidx e He) as [t Ht].
    assert (Hg : getitem (ci_info ci) e = Ok t) by (unfold getitem; rewrite I1, decide_True by (by apply HS); by rewrite Ht). rewrite Hg. cbn [mbind result_bind].
    destruct (IH (raise_to M t)) as (M' & E & A & L1 & L2 & D); [intros; apply Hl; by right| | |].
    - eapply (attained_raise rank db Hix); [done|exact Ht|]. by exists e.
    - intros c Hc. unfold raise_to in Hc. destruct (decide (c = t.1)) as [->|Hne]; [|rewrite lookup_insert_ne in Hc by done; by apply Hdom].
      apply I3. exists e, t.2. split; [by apply HS|]. by destruct t.
    - exists M'. split_and!; [done|done|intros c; specialize (L1 c); pose proof (level_raise_mono M t c); lia| |done].
      intros a t' [->|Ha]%elem_of_cons Ht'; [|by apply (L2 a)]. rewrite Ht in Ht'. injection Ht' as <-. specialize (L1 t.1). rewrite level_raise, decide_True in L1 by done. lia. }
  destruct (Hf (set_iter S) ∅) as (M & E & A & _ & L & D); [by intros e ?%elem_of_set_iter|by intros c m ?%lookup_empty_Some|intros c; by rewrite lookup_empty|].
  exists M. split_and!; [done|done| |done]. intros a t Ha Ht. apply (L a t); [by apply elem_of_set_iter|done].
Qed.

(** ** Following the links of all sets *)

Lemma foldl_follow_links ms seen L :
  foldl follow_links (ms, seen) L = ((λ M, foldl (λ M l, follow_link M M l) M L) <$> ms, list_to_set (l ← L; [l.2.1]) ∪ seen).
Proof.
  revert ms seen. induction L as [|l L IH]; intros ms seen; cbn [foldl].
  - f_equal; [by rewrite list_fmap_id|simpl; by rewrite (left_id_L ∅ (∪))].
  - unfold follow_links at 2. cbn [fst snd]. rewrite IH. f_equal; [by rewrite <- list_fmap_compose|]. simpl. set_solver.
Qed.

Lemma level_untouched L M c : (∀ l, l ∈ L → l.2.1 ≠ c) → level (foldl (λ M l, follow_link M M l) M L) c = level M c.
Proof.
  revert M. induction L as [|l L IH]; intros M Hc; cbn [foldl]; [done|]. rewrite IH by (intros; apply Hc; by right). unfold follow_link.
  destruct (_ <=? _); [|done]. rewrite level_raise. rewrite decide_False; [done|]. intros ->. by apply (Hc l); [left|].
Qed.

(** ** The gaps *)

Definition in_range (ms : list (gmap Z Z)) (c s : Z) : Prop := (∃ M, M ∈ ms ∧ level M c < s) ∧ ∃ M, M ∈ ms ∧ s ≤ level M c.

Lemma gap_range ms c s : ms ≠ [] → let '(mn, mx) := min_max ((λ M : gmap Z Z, default 0 (M !! c)) <$> ms) in mn < s ≤ mx ↔ in_range ms c s.
Proof.
  intros Hne. destruct (min_max _) as [mn mx] eqn:E. destruct (min_max_spec ((λ M : gmap Z Z, default 0 (M !! c)) <$> ms) s) as [M1 M2]; [by destruct ms|].
  rewrite E in M1, M2. simpl in *. unfold in_range. rewrite M1, M2. setoid_rewrite list_elem_of_fmap. unfold level. naive_solver.
Qed.

Lemma chain_gaps_ok X ci ms cs res0 :
  info_ok X ci → ms ≠ [] → NoDup cs →
  let '(res, gaps) := foldl (chain_gap ms (ci_to_event ci)) (res0, ∅) cs in
  (∀ e, e ∈ res → e ∈ res0 ∨ ∃ c s, chains !! e = Some (c, s) ∧ in_range ms c s) ∧ res0 ⊆ res ∧
  (∀ c g, gaps !! c = Some g → ∀ s, g.1 < s ≤ g.2 ↔ in_range ms c s) ∧
  (∀ c s e, c ∈ cs → chains !! e = Some (c, s) → in_range ms c s → e ∈ res ∨ is_Some (gaps !! c)).
Proof.
  intros Hci Hne.
  assert (Hgen : ∀ ks res1 gaps1, NoDup ks → (∀ c, c ∈ ks → gaps1 !! c = None) →
    (∀ e, e ∈ res1 → e ∈ res0 ∨ ∃ c s, chains !! e = Some (c, s) ∧ in_range ms c s) → res0 ⊆ res1 →
    (∀ c g, gaps1 !! c = Some g → ∀ s, g.1 < s ≤ g.2 ↔ in_range ms c s) →
    let '(res, gaps) := foldl (chain_gap ms (ci_to_event ci)) (res1, gaps1) ks in
    (∀ e, e ∈ res → e ∈ res0 ∨ ∃ c s, chains !! e = Some (c, s) ∧ in_range ms c s) ∧ res1 ⊆ res ∧ gaps1 ⊆ gaps ∧
    (∀ c g, gaps !! c = Some g → ∀ s, g.1 < s ≤ g.2 ↔ in_range ms c s) ∧
    (∀ c s e, c ∈ ks → chains !! e = Some (c, s) → in_range ms c s → e ∈ res ∨ is_Some (gaps !! c))).
  { induction ks as [|c ks IH]; intros res1 gaps1 Hnd Hfresh Hres Hsub Hgaps; cbn [foldl].
    { split_and!; try done. by intros c s e ?%not_elem_of_nil. }
    apply NoDup_cons in Hnd as [Hc Hnd]. unfold chain_gap at 2. cbn [fst snd]. pose proof (λ s, gap_range ms c s Hne) as Hr.
    destruct (min_max _) as [mn mx]. destruct (mn <? mx) eqn:Hlt.
    2:{ specialize (IH res1 gaps1 Hnd ltac:(intros; apply Hfresh; by right) Hres Hsub Hgaps). destruct (foldl _ _ _) as [res gaps]. destruct IH as (I1 & I2 & I3 & I4 & I5).
        split_and!; try done. intros c' s e [->|Hc']%elem_of_cons He Hin; [|by eapply I5]. apply Hr in Hin. lia. }
    pose proof (fill_gap_spec (default ∅ (ci_to_event ci !! c)) (seqZ (mn + 1) (mx - mn)) res1) as Hfill. destruct (fill_gap _ _ _) as [res2 gap]. destruct Hfill as (F1 & F2 & F3).
    assert (Hseq : ∀ s, s ∈ seqZ (mn + 1) (mx - mn) ↔ in_range ms c s) by (intros s; rewrite elem_of_seqZ, <- Hr; lia).
    set (gaps2 := if gap : bool then <[c := (mn, mx)]> gaps1 else gaps1).
    specialize (IH res2 gaps2 Hnd). destruct (foldl _ _ _) as [res gaps]. destruct IH as (I1 & I2 & I3 & I4 & I5).
    - intros c' Hc'. unfold gaps2. destruct gap; [rewrite lookup_insert_ne by (by intros ->)|]; apply Hfresh; by right.
    - intros e He. apply F2 in He as [?|(s & Hs & He)]; [by apply Hres|]. right. exists c, s. split; [by eapply io_event|by apply Hseq].
    - set_solver.
    - intros c' g Hg s. unfold gaps2 in Hg. destruct gap; [|by apply Hgaps]. rewrite lookup_insert_Some in Hg. destruct Hg as [[<- <-]|[_ Hg]]; [apply Hr|by apply Hgaps].
    - split_and!; [done|set_solver| |done|].
      + etransitivity; [|exact I3]. unfold gaps2. destruct gap; [apply insert_subseteq, Hfresh; by left|done].
      + intros c' s e [->|Hc']%elem_of_cons He Hin; [|by eapply I5]. destruct gap.
        * right. exists (mn, mx). eapply lookup_weaken; [|exact I3]. unfold gaps2. by rewrite lookup_insert_eq.
        * left. apply I2. destruct (F3 eq_refl s) as (e' & He' & Hin'); [by apply Hseq|]. apply (io_event X ci Hci) in He'. by rewrite (ix_unique _ _ Hix e e' _ He He'). }
  intros Hnd. specialize (Hgen cs res0 ∅ Hnd ltac:(done) ltac:(by left) ltac:(done) ltac:(done)). destruct (foldl _ _ _) as [res gaps].
  destruct Hgen as (G1 & G2 & _ & G4 & G5). by split_and!.
Qed.

(** ** The difference *)

Lemma indexed_difference_ok X ci sets res0 :
  info_ok X ci → sets ≠ [] → (∀ S, S ∈ sets → S ⊆ X) → (∀ e, e ∈ X → is_Some (chains !! e) ∨ ∀ S, S ∈ sets → e ∉ S) →
  ∃ r, indexed_difference engine ci sets res0 db = Ok r ∧ ∀ e, e ∈ r ↔ e ∈ res0 ∨ in_difference edge sets e.
Proof.
  intros Hci Hne HX Hidx. unfold indexed_difference.
  assert (HS : ∀ S e, S ∈ sets → e ∈ S → is_Some (chains !! e)) by (intros S e HSs He; destruct (Hidx e (HX S HSs e He)) as [?|Hn]; [done|by destruct (Hn S HSs)]).
  assert (Hms : ∃ ms, map_res (initial_chains (ci_info ci)) sets = Ok ms ∧ Forall2 (λ S M, attained db (set_reaches edge S) M ∧
    (∀ a t, a ∈ S → chains !! a = Some t → t.2 ≤ level M t.1) ∧ ∀ c, M !! c ≠ None → c ∈ ci_seen ci) sets ms).
  { clear Hne Hidx. induction sets as [|S sets IH]; [by exists []|]. destruct IH as (ms & Ems & Hms); [intros; apply HX; by right|intros S' e ?; apply HS; by right|].
    destruct (initial_chains_ok X ci S Hci) as (M & EM & HM); [apply HX; by left|intros e; apply HS; by left|]. exists (M :: ms). cbn [map_res]. rewrite EM. cbn [mbind result_bind].
    rewrite Ems. cbn [mbind result_bind]. split; [done|]. by constructor. }
  destruct Hms as (ms & -> & Hms). cbn [mbind result_bind]. set (L := batch_iter (set_iter (ci_seen ci)) 1000 ≫= select_links db). rewrite foldl_follow_links.
  assert (HL : ∀ l, l ∈ L ↔ l ∈ cd_links db ∧ l.1.1 ∈ ci_seen ci).
  { intros l. unfold L. rewrite (elem_of_batched _ (λ c l, l.1.1 = c ∧ l ∈ cd_links db)); [|lia|intros; by rewrite elem_of_select_links]. setoid_rewrite elem_of_set_iter. naive_solver. }
  set (ms' := (λ M, foldl (λ M l, follow_link M M l) M L) <$> ms). set (seen := list_to_set (l ← L; [l.2.1]) ∪ ci_seen ci : gset Z).
  assert (Hreach : Forall2 (reach_map db) sets ms').
  { unfold ms'. apply Forall2_fmap_r. apply Forall2_same_length_lookup. split; [by eapply Forall2_length|]. intros i S M HSi HMi.
    destruct (Forall2_lookup_lr _ _ _ _ _ _ Hms HSi HMi) as (A & Lv & D). pose proof (list_elem_of_lookup_2 _ _ _ HSi) as HSs. apply (follow_links_reach rank db Hix); [done|intros l ?%HL; tauto| |intros; by eapply HS].
    intros a t Ha Ht. split; [by apply (Lv a)|]. intros l Hl Hc. apply HL. split; [done|]. rewrite Hc. apply (io_seen X ci Hci). exists a, t.2. split; [by apply (HX S)|by destruct t]. }
  assert (Hrange : ∀ e c s, chains !! e = Some (c, s) → in_range ms' c s ↔ in_difference edge sets e).
  { intros e c s He. unfold in_range, in_difference. assert (Hcorr : (∃ M, M ∈ ms' ∧ s ≤ level M c) ↔ ∃ S, S ∈ sets ∧ set_reaches edge S e).
    { split; intros (y & Hy & Hr); apply list_elem_of_lookup in Hy as [i Hi].
      - destruct (Forall2_lookup_r _ _ _ _ _ Hreach Hi) as (S & HSi & HrS). exists S. split; [by eapply list_elem_of_lookup_2|]. by apply (HrS e (c, s) He).
      - destruct (Forall2_lookup_l _ _ _ _ _ Hreach Hi) as (M & HMi & HrS). exists M. split; [by eapply list_elem_of_lookup_2|]. by apply (HrS e (c, s) He). }
    assert (Hcorr2 : (∃ M, M ∈ ms' ∧ level M c < s) ↔ ¬ ∀ S, S ∈ sets → set_reaches edge S e).
    { split.
      - intros (M & HM & Hl) Hall. apply list_elem_of_lookup in HM as [i Hi]. destruct (Forall2_lookup_r _ _ _ _ _ Hreach Hi) as (S & HSi & HrS).
        pose proof (Hall S ltac:(by eapply list_elem_of_lookup_2)) as Hr. apply (HrS e (c, s) He) in Hr. simpl in Hr. lia.
      - intros Hno. destruct (decide (Exists (λ M, level M c < s) ms')) as [Hex|Hex]; [by apply Exists_exists in Hex|]. destruct Hno. intros S HSs.
        apply list_elem_of_lookup in HSs as [i Hi]. destruct (Forall2_lookup_l _ _ _ _ _ Hreach Hi) as (M & HMi & HrS). apply (HrS e (c, s) He). simpl.
        destruct (decide (level M c < s)); [|lia]. destruct Hex. apply Exists_exists. exists M. split; [by eapply list_elem_of_lookup_2|done]. }
    rewrite Hcorr, Hcorr2. tauto. }
  assert (Hseen : ∀ c s, 1 ≤ s → in_range ms' c s → c ∈ seen).
  { intros c s Hs (_ & M' & HM' & Hl). unfold ms' in HM'. apply list_elem_of_fmap in HM' as (M & -> & HM). unfold seen. apply elem_of_union.
    destruct (decide (c ∈ (list_to_set (l ← L; [l.2.1]) : gset Z))) as [?|Hn]; [by left|right]. rewrite level_untouched in Hl.
    - apply list_elem_of_lookup in HM as [i Hi]. destruct (Forall2_lookup_r _ _ _ _ _ Hms Hi) as (S & _ & _ & _ & D). apply D. unfold level in Hl. destruct (M !! c); simpl in Hl; [done|lia].
    - intros l Hl' <-. apply Hn, elem_of_list_to_set, list_elem_of_bind. exists l. split; [by left|done]. }
  assert (Hne' : ms' ≠ []) by (intros E; rewrite E in Hreach; by apply Forall2_nil_inv_r in Hreach).
  pose proof (chain_gaps_ok X ci ms' (set_iter seen) res0 Hci Hne' (NoDup_set_iter _)) as Hg. destruct (foldl _ _ _) as [res gaps]. destruct Hg as (G1 & G2 & G3 & G4).
  assert (Hidx' : ∀ e, in_difference edge sets e → ∃ c s, chains !! e = Some (c, s)).
  { intros e [(S & HSs & a & Ha & Hr) _]. destruct (reach_indexed rank db Hix a e (HS S a HSs Ha) Hr) as [[c s] ?]. by exists c, s. }
  assert (Hfin : ∀ e, in_difference edge sets e → e ∈ res ∨ ∃ c s, chains !! e = Some (c, s) ∧ is_Some (gaps !! c) ∧ in_range ms' c s).
  { intros e Hd. destruct (Hidx' e Hd) as (c & s & He). apply (Hrange e c s He) in Hd. destruct (ix_range _ _ Hix e _ He) as [Hp _].
    destruct (G4 c s e) as [?|?]; [apply elem_of_set_iter; by eapply Hseen|done|done|by left|right; eauto 6]. }
  case_bool_decide as Hgap.
  - exists res. split; [done|]. intros e. split.
    + intros [?|(c & s & He & Hin)]%G1; [by left|right]. by apply (Hrange e c s He).
    + intros [He|Hd]; [by apply G2|]. destruct (Hfin e Hd) as [?|(c & s & _ & [g Hg] & _)]; [done|]. subst. by rewrite lookup_empty in Hg.
  - eexists. split; [done|]. intros e. rewrite elem_of_union, elem_of_select_where. setoid_rewrite list_elem_of_fmap. setoid_rewrite elem_of_map_items. split.
    + intros [[?|(c & s & He & Hin)]%G1|(t & f & Ht & ([c g] & -> & Hg) & Hf)]; [by left|right; by apply (Hrange e c s He)|right].
      rewrite !andb_true_iff, bool_decide_eq_true, Z.ltb_lt, Z.leb_le in Hf. destruct Hf as [[Hc H1] H2]. destruct t as [c' s]. simpl in *. subst c'.
      apply (Hrange e c s Ht), (G3 c g Hg). lia.
    + intros [He|Hd]; [left; by apply G2|]. destruct (Hfin e Hd) as [?|(c & s & He & [g Hg] & Hin)]; [by left|right]. exists (c, s). eexists. split_and!; [done|by exists (c, g)|].
      apply (G3 c g Hg) in Hin. rewrite !andb_true_iff, bool_decide_eq_true, Z.ltb_lt, Z.leb_le. simpl. lia.
Qed.

(** ** Events that are not indexed *)

Section fixup.
Context (room : string).
Abbreviation to_auth := (event_to_auth_ids db room).

(** From an event that waits for its index to an auth event. *)
Definition waiting_edge (e a : string) : Prop := ∃ s, to_auth !! e = Some s ∧ a ∈ s.
Definition all_auth : gset string := map_fold (λ _ s acc, s ∪ acc) ∅ to_auth.

Lemma lookup_to_auth e s :
  to_auth !! e = Some s ↔ (∃ ty, cd_to_calculate db !! e = Some (room, ty)) ∧ s = list_to_set (auth_ids db e).
Proof.
  unfold event_to_auth_ids. rewrite map_lookup_imap. destruct (cd_to_calculate db !! e) as [[r ty]|]; simpl; [case_bool_decide|]; naive_solver.
Qed.

Lemma waiting_edge_iff e a : waiting_edge e a ↔ e ∈ dom to_auth ∧ edge e a.
Proof.
  unfold waiting_edge. rewrite elem_of_dom. split.
  - intros (s & Hs & Ha). split; [by eexists|]. apply lookup_to_auth in Hs as [_ ->]. by rewrite elem_of_list_to_set, elem_of_auth_ids in Ha.
  - intros [[s Hs] He]. exists s. split; [done|]. apply lookup_to_auth in Hs as [_ ->]. by rewrite elem_of_list_to_set, elem_of_auth_ids.
Qed.

Lemma waiting_not_indexed e : e ∈ dom to_auth → chains !! e = None.
Proof. intros [s Hs]%elem_of_dom. apply lookup_to_auth in Hs as [[ty Hty] _]. apply (ix_todo _ _ Hix). by eexists. Qed.

Lemma elem_of_all_auth a : a ∈ all_auth ↔ ∃ e, waiting_edge e a.
Proof.
  unfold all_auth, waiting_edge. induction to_auth as [|e s m Hm IH] using map_ind.
  - rewrite map_fold_empty. split; [set_solver|]. intros (e & s & Hs & _). by rewrite lookup_empty in Hs.
  - rewrite map_fold_insert_L by (set_solver || done). rewrite elem_of_union, IH. split.
    + intros [Ha|(e' & s' & Hs' & Ha)]; [exists e, s; by rewrite lookup_insert_eq|]. exists e', s'. rewrite lookup_insert_ne by congruence. done.
    + intros (e' & s' & Hs' & Ha). rewrite lookup_insert_Some in Hs'. destruct Hs' as [[<- <-]|[_ Hs']]; [by left|right; eauto].
Qed.

(** What an event leads to before the index is needed. *)
Lemma partial_chain_ok e auths : to_auth !! e = Some auths →
  ∃ c, partial_chain (size all_auth) to_auth auths ∅ = Ok c ∧ ∀ b, b ∈ c ↔ tc waiting_edge e b.
Proof.
  intros He. assert (Hgen : ∀ fuel processing to_add, processing ∪ to_add ⊆ all_auth → processing ## to_add → (size (all_auth ∖ to_add) ≤ fuel)%nat →
    (∀ b, b ∈ processing ∪ to_add → tc waiting_edge e b) → (∀ x y, x ∈ to_add → waiting_edge x y → y ∈ processing ∪ to_add) → auths ⊆ processing ∪ to_add →
    ∃ c, partial_chain fuel to_auth processing to_add = Ok c ∧ ∀ b, b ∈ c ↔ tc waiting_edge e b).
  { induction fuel as [|fuel IH]; intros processing to_add Hsub Hdis Hf Hsound Hclosed Hin; simpl.
    all: destruct (set_iter processing) as [|a rest] eqn:Ei.
    1,3: assert (Hemp : processing = ∅) by (apply set_eq; intros x; rewrite <- elem_of_set_iter, Ei, elem_of_nil; set_solver); subst processing;
         rewrite (left_id_L ∅ (∪)) in *; exists to_add; split; [done|]; intros b; split; [by apply Hsound|];
         revert b; apply (tc_ind_r (λ b, b ∈ to_add)); [intros b (s & Hs & Hb); apply Hin; congruence|intros x b _ Hxb Hx; by apply (Hclosed x)].
    all: assert (Ha : a ∈ processing) by (rewrite <- elem_of_set_iter, Ei; by left).
    - assert (E0 : size (all_auth ∖ to_add) = 0%nat) by lia. apply size_empty_inv in E0. set_solver.
    - assert (Hlt : (size (all_auth ∖ ({[a]} ∪ to_add)) < size (all_auth ∖ to_add))%nat) by (clear -Hsub Hdis Ha; apply subset_size; set_solver).
      pose proof (Hsound a ltac:(clear -Ha; set_solver)) as Hta.
      assert (Hin' : ∀ X x, x ∈ processing ∪ to_add → x ∈ processing ∖ {[a]} ∪ X ∪ ({[a]} ∪ to_add)) by (clear; intros X x Hx; destruct (decide (x = a)); set_solver).
      assert (Hold : ∀ b, b ∈ processing ∖ {[a]} ∪ ({[a]} ∪ to_add) → b ∈ processing ∪ to_add) by (clear -Ha; intros b Hb; destruct (decide (b = a)); set_solver).
      destruct (to_auth !! a) as [s|] eqn:Es.
      + apply IH; [|clear -Hdis; set_solver|lia| | |intros x Hx; apply Hin', Hin, Hx].
        * intros x Hx. destruct (decide (x ∈ s)) as [Hs|Hs]; [apply elem_of_all_auth; by exists a, s|]. apply Hsub, Hold. clear -Hx Hs. set_solver.
        * intros b Hb. destruct (decide (b ∈ s)) as [Hs|Hs]; [eapply tc_r; [exact Hta|by exists s]|]. apply Hsound, Hold. clear -Hb Hs. set_solver.
        * intros x y [->%elem_of_singleton|Hx]%elem_of_union Hy; [|by apply Hin', (Hclosed x y Hx Hy)].
          destruct Hy as (s' & Hs' & Hy). rewrite Es in Hs'. injection Hs' as <-. clear -Hy. destruct (decide (y ∈ ({[a]} ∪ to_add : gset string))); set_solver.
      + assert (Hin2 : ∀ x, x ∈ processing ∪ to_add → x ∈ processing ∖ {[a]} ∪ ({[a]} ∪ to_add)) by (intros x Hx; specialize (Hin' ∅ x Hx); clear -Hin'; set_solver).
        apply IH; [intros x Hx; by apply Hsub, Hold|clear -Hdis; set_solver|lia|intros b Hb; by apply Hsound, Hold| |intros x Hx; apply Hin2, Hin, Hx].
        intros x y [->%elem_of_singleton|Hx]%elem_of_union Hy; [destruct Hy as (s' & Hs' & _); congruence|by apply Hin2, (Hclosed x y Hx Hy)]. }
  apply Hgen; [|set_solver| | |set_solver|set_solver].
  - intros x Hx. apply elem_of_all_auth. exists e, auths. set_solver.
  - apply subseteq_size. set_solver.
  - intros b Hb. apply tc_once. exists auths. set_solver.
Qed.

(** ** One state set *)

(** What the loop over the partial chains has made of a state set. *)
Record replaced (S : gset string) (done : gset string) (T u : gset string) : Prop := {
  rp_indexed x : is_Some (chains !! x) → x ∈ T ↔ x ∈ S ∨ ∃ e, e ∈ done ∧ e ∈ S ∧ tc waiting_edge e x;
  rp_rest x : chains !! x = None → x ∈ T ↔ x ∈ S ∧ x ∉ u;
  rp_unindexed x : x ∈ u ↔ chains !! x = None ∧ ∃ e, e ∈ done ∧ e ∈ S ∧ rtc waiting_edge e x
}.

Lemma replace_ok have_index S done T u e c :
  replaced S done T u → e ∈ dom to_auth → (∀ b, b ∈ c ↔ tc waiting_edge e b) → (∀ b, b ∈ c → b ∈ have_index ↔ is_Some (chains !! b)) → e ∉ done →
  let '(T', u') := replace_unindexed have_index (T, u) (e, c) in replaced S ({[e]} ∪ done) T' u'.
Proof.
  intros [R1 R2 R3] He Hc Hh Hnd. pose proof (waiting_not_indexed e He) as Hen. unfold replace_unindexed.
  assert (Hor : ∀ b, b ∈ c → chains !! b = None → b ∉ have_index) by (intros b Hb Hn [? ?]%Hh; congruence).
  case_bool_decide as HeT.
  - apply (R2 e Hen) in HeT as [HeS Heu]. constructor.
    + intros x Hx. assert (Hxe : x ≠ e) by (intros ->; destruct Hx; congruence). assert (Hxc : x ∈ c → x ∈ have_index) by (intros Hin; by apply (Hh x Hin)).
      rewrite elem_of_union, elem_of_filter, !elem_of_difference, elem_of_singleton, (R1 x Hx). setoid_rewrite elem_of_union. setoid_rewrite elem_of_singleton. split.
      * intros [[[[?|(e' & ? & ? & ?)] _] _]|[_ Hin%Hc]]; [by left|right; exists e'; tauto|right; exists e; tauto].
      * intros Ho. destruct (decide (x ∈ c)) as [Hin|Hnin]; [right; split; [by apply Hxc|done]|left]. split_and!; [|done|done].
        destruct Ho as [?|(e' & [->|?] & ? & Ht)]; [by left| |right; eauto]. by apply Hc in Ht.
    + intros x Hx. rewrite !elem_of_union, !elem_of_filter, !elem_of_difference, elem_of_singleton, (R2 x Hx). specialize (Hor x). split.
      * intros [[[[? ?] ?] ?]|[? Hin]]; [split; [done|]; intros [[?|?]|[_ ?]]; done|by destruct (Hor Hin Hx)].
      * intros [? Hn]. left. split_and!; [done|tauto|tauto|]. intros Hin. apply Hn. right. split; [by apply Hor|done].
    + intros x. rewrite !elem_of_union, elem_of_filter, elem_of_singleton, R3. setoid_rewrite elem_of_union. setoid_rewrite elem_of_singleton. split.
      * intros [[->|[? (e' & ? & ? & ?)]]|[Hnh Hin]]; [split; [done|]; exists e; split_and!; [by left|done|done]|split; [done|]; exists e'; tauto|].
        split; [|exists e; split_and!; [by left|done|apply tc_rtc; by apply Hc]]. apply eq_None_not_Some. intros Hs. by apply Hnh, Hh.
      * intros [Hx (e' & [->|?] & HeS' & Hr)]; [|left; right; split; [done|]; eauto]. apply rtc_tc_or in Hr as [->|Ht]; [by left; left|]. right. apply Hc in Ht. split; [by apply Hor|done].
  - constructor.
    + intros x Hx. rewrite (R1 x Hx). setoid_rewrite elem_of_union. setoid_rewrite elem_of_singleton. split; [intros [?|(e' & ? & ? & ?)]; [by left|right; exists e'; tauto]|].
      intros [?|(e' & [->|?] & HeS & Ht)]; [by left| |right; eauto]. right. assert (Heu : e ∈ u) by (destruct (decide (e ∈ u)); [done|]; destruct HeT; by apply (R2 e Hen)).
      apply R3 in Heu as [_ (e1 & ? & ? & Hr)]. exists e1. split_and!; [done|done|]. by eapply tc_rtc_l.
    + done.
    + intros x. rewrite R3. setoid_rewrite elem_of_union. setoid_rewrite elem_of_singleton. split; [intros [? (e' & ? & ? & ?)]; split; [done|]; exists e'; tauto|].
      intros [Hx (e' & [->|?] & HeS & Hr)]; split; [done| |done|eauto]. assert (Heu : e ∈ u) by (destruct (decide (e ∈ u)); [done|]; destruct HeT; by apply (R2 e Hen)).
      apply R3 in Heu as [_ (e1 & ? & ? & Hr1)]. exists e1. split_and!; [done|done|]. by etransitivity.
Qed.

Lemma replace_all_ok have_index S (l : list (string * gset string)) :
  NoDup l.*1 → (∀ e c, (e, c) ∈ l → e ∈ dom to_auth ∧ (∀ b, b ∈ c ↔ tc waiting_edge e b) ∧ ∀ b, b ∈ c → b ∈ have_index ↔ is_Some (chains !! b)) →
  (∀ x, x ∈ S → chains !! x = None → x ∈ l.*1) →
  let '(T, u) := foldl (replace_unindexed have_index) (S, ∅) l in
  (∀ x, x ∈ T ↔ is_Some (chains !! x) ∧ (x ∈ S ∨ ∃ e, e ∈ S ∧ e ∈ dom to_auth ∧ tc waiting_edge e x)) ∧
  (∀ x, x ∈ u ↔ chains !! x = None ∧ ∃ e, e ∈ S ∧ e ∈ dom to_auth ∧ rtc waiting_edge e x).
Proof.
  intros Hnd Hl HS. assert (Hgen : ∀ k done T u, NoDup k.*1 → (∀ e c, (e, c) ∈ k → (e, c) ∈ l) → (∀ e, e ∈ k.*1 → e ∉ done) → replaced S done T u →
    let '(T', u') := foldl (replace_unindexed have_index) (T, u) k in replaced S (list_to_set k.*1 ∪ done) T' u').
  { induction k as [|[e c] k IH]; intros done T u Hk Hsub Hdis Hr; cbn [foldl]; [by simpl; rewrite (left_id_L ∅ (∪))|]. apply NoDup_cons in Hk as [Hek Hk].
    destruct (Hl e c (Hsub e c ltac:(by left))) as (He & Hc & Hh). pose proof (replace_ok have_index S done T u e c Hr He Hc Hh (Hdis e ltac:(by left))) as Hr1.
    destruct (replace_unindexed _ _ _) as [T1 u1]. specialize (IH ({[e]} ∪ done) T1 u1 Hk ltac:(intros; apply Hsub; by right)).
    destruct (foldl _ _ _) as [T' u']. refine (eq_ind _ (λ Y, replaced S Y T' u') (IH _ Hr1) _ _).
    - intros e' He' [->%elem_of_singleton|?]%elem_of_union; [done|]. by apply (Hdis e'); [right|].
    - simpl. clear. set_solver. }
  specialize (Hgen l ∅ S ∅ Hnd ltac:(done) ltac:(set_solver)). destruct (foldl _ _ _) as [T u]. destruct Hgen as [G1 G2 G3].
  { constructor; [set_solver|set_solver|]. intros x. split; [set_solver|]. intros [_ (e & He & _)]. set_solver. }
  assert (Hdone : ∀ e, e ∈ (list_to_set l.*1 ∪ ∅ : gset string) ∧ e ∈ S ↔ e ∈ S ∧ e ∈ dom to_auth).
  { intros e. rewrite (right_id_L ∅ (∪)), elem_of_list_to_set. split.
    - intros [([e' c] & -> & Hin)%list_elem_of_fmap HeS]. split; [done|]. by destruct (Hl _ _ Hin).
    - intros [HeS Hd]. split; [|done]. apply HS; [done|by apply waiting_not_indexed]. }
  split.
  - intros x. destruct (chains !! x) as [t|] eqn:Ex.
    + rewrite (G1 x) by (rewrite Ex; by eexists). split.
      * intros [?|(e & ? & ? & ?)]; (split; [by eexists|]); [by left|right]. destruct (proj1 (Hdone e)); [done|]. eauto.
      * intros [_ [?|(e & ? & ? & ?)]]; [by left|right]. destruct (proj2 (Hdone e)); [done|]. eauto.
    + rewrite (G2 x Ex). split; [|by intros [[? ?] _]]. intros [HxS Hxu]. destruct Hxu. apply G3. split; [done|]. exists x. split_and!; [|done|done].
      rewrite (right_id_L ∅ (∪)), elem_of_list_to_set. by apply HS.
  - intros x. rewrite G3. split; intros [Hx (e & H1 & H2 & H3)]; (split; [done|]); exists e; [destruct (proj1 (Hdone e))|destruct (proj2 (Hdone e))]; done.
Qed.

(** ** All state sets *)

(** The events that are not indexed and have auth events wait for their index. *)
Definition waits (sets : list (gset string)) : Prop :=
  ∀ S a x y, S ∈ sets → a ∈ S → rtc edge a x → chains !! x = None → edge x y → x ∈ dom to_auth.

Lemma waiting_sub a b : rtc waiting_edge a b → rtc edge a b.
Proof. intros Hr. induction Hr as [|a c b [_ He]%waiting_edge_iff _ IH]; [done|]. by eapply rtc_l. Qed.

(** A path goes through events that wait, and then through indexed ones. *)
Lemma path_split a b :
  (∀ x y, rtc edge a x → chains !! x = None → edge x y → x ∈ dom to_auth) → rtc edge a b →
  (chains !! b = None → rtc waiting_edge a b) ∧
  (is_Some (chains !! b) → is_Some (chains !! a) ∨ ∃ x, is_Some (chains !! x) ∧ tc waiting_edge a x ∧ rtc edge x b).
Proof.
  intros Hw Hr. induction Hr as [a|a c b He Hr IH]; [split; [done|by left]|].
  destruct (chains !! a) as [t|] eqn:Ea.
  - assert (Hb : is_Some (chains !! b)) by (apply (reach_indexed rank db Hix a); [rewrite Ea; by eexists|by eapply rtc_l]). split; [|by left]. intros E. rewrite E in Hb. by destruct Hb.
  - assert (Hac : waiting_edge a c) by (apply waiting_edge_iff; split; [by apply (Hw a c)|done]).
    destruct IH as [IH1 IH2]; [intros x y Hx; apply Hw; by eapply rtc_l|]. split.
    + intros Hb. by eapply rtc_l; [|apply IH1].
    + intros Hb. right. destruct (IH2 Hb) as [Hc|(x & Hx & Ht & Hxb)]; [exists c; split_and!; [done|by apply tc_once|done]|exists x; split_and!; [done|by eapply tc_l|done]].
Qed.

Lemma replaced_reach (sets : list (gset string)) (S T u : gset string) :
  S ∈ sets → waits sets → (∀ x, x ∈ S → chains !! x = None → x ∈ dom to_auth) →
  (∀ x, x ∈ T ↔ is_Some (chains !! x) ∧ (x ∈ S ∨ ∃ e, e ∈ S ∧ e ∈ dom to_auth ∧ tc waiting_edge e x)) →
  (∀ x, x ∈ u ↔ chains !! x = None ∧ ∃ e, e ∈ S ∧ e ∈ dom to_auth ∧ rtc waiting_edge e x) →
  ∀ b, set_reaches edge S b ↔ b ∈ u ∨ set_reaches edge T b.
Proof.
  intros HSs Hw Hmiss HT Hu b. split.
  - intros (a & Ha & Hr). destruct (path_split a b (λ x y, Hw S a x y HSs Ha) Hr) as [P1 P2]. destruct (chains !! b) as [t|] eqn:Eb.
    + right. destruct P2 as [Hia|(x & Hx & Ht & Hxb)]; [by eexists| |].
      * exists a. split; [apply HT; split; [done|by left]|done].
      * exists x. split; [|done]. apply HT. split; [done|]. right. exists a. split_and!; [done| |done]. destruct Ht as [? ? [? _]%waiting_edge_iff|? ? ? [? _]%waiting_edge_iff]; done.
    + left. apply Hu. split; [done|]. specialize (P1 eq_refl). exists a. split_and!; [done| |done].
      destruct P1 as [|? ? ? [? _]%waiting_edge_iff]; [by apply Hmiss|done].
  - intros [(_ & e & HeS & _ & Hr)%Hu|(x & (_ & [HxS|(e & HeS & _ & Ht)])%HT & Hr)]; [exists e; split; [done|by apply waiting_sub]|by exists x|].
    exists e. split; [done|]. etransitivity; [apply waiting_sub, tc_rtc, Ht|done].
Qed.

Lemma partial_chains_ok (sets : list (gset string)) :
  ∃ l, fold_res (λ (l : list (string * gset string)) (ea : string * gset string),
    if existsb (λ s, bool_decide (ea.1 ∈ s)) sets then c ← partial_chain (size all_auth) to_auth ea.2 ∅; Ok (l ++ [(ea.1, c)]) else Ok l) (dict_items to_auth) [] = Ok l ∧
    NoDup l.*1 ∧ (∀ e c, (e, c) ∈ l → e ∈ dom to_auth ∧ ∀ b, b ∈ c ↔ tc waiting_edge e b) ∧
    ∀ S e, S ∈ sets → e ∈ S → e ∈ dom to_auth → e ∈ l.*1.
Proof.
  assert (Hit : ∀ ea, ea ∈ dict_items to_auth ↔ to_auth !! ea.1 = Some ea.2) by (intros [e a]; by rewrite dict_items_perm, elem_of_map_to_list).
  assert (Hnd : NoDup (dict_items to_auth).*1) by (rewrite dict_items_perm; apply NoDup_fst_map_to_list).
  assert (Hgen : ∀ k acc, NoDup k.*1 → (∀ ea, ea ∈ k → to_auth !! ea.1 = Some ea.2) → NoDup acc.*1 → (∀ e, e ∈ acc.*1 → e ∉ k.*1) →
    (∀ e c, (e, c) ∈ acc → e ∈ dom to_auth ∧ ∀ b, b ∈ c ↔ tc waiting_edge e b) →
    ∃ l, fold_res (λ (l : list (string * gset string)) (ea : string * gset string),
      if existsb (λ s, bool_decide (ea.1 ∈ s)) sets then c ← partial_chain (size all_auth) to_auth ea.2 ∅; Ok (l ++ [(ea.1, c)]) else Ok l) k acc = Ok l ∧
      NoDup l.*1 ∧ (∀ e c, (e, c) ∈ l → e ∈ dom to_auth ∧ ∀ b, b ∈ c ↔ tc waiting_edge e b) ∧ (∀ e, e ∈ acc.*1 → e ∈ l.*1) ∧
      ∀ S e, S ∈ sets → e ∈ S → e ∈ k.*1 → e ∈ l.*1).
  { induction k as [|[e a] k IH]; intros acc Hk Hsub Hacc Hdis Hc; cbn [fold_res].
    { exists acc. split_and!; try done. by intros S e _ _ ?%not_elem_of_nil. }
    apply NoDup_cons in Hk as [Hek Hk]. pose proof (Hsub (e, a) ltac:(by left)) as He. cbn [fst snd] in He |- *.
    destruct (existsb (λ s, bool_decide (e ∈ s)) sets) eqn:Ex.
    - destruct (partial_chain_ok e a He) as (c & -> & Hcc). cbn [mbind result_bind].
      destruct (IH (acc ++ [(e, c)])) as (l & El & L1 & L2 & L3 & L4); [done|intros; apply Hsub; by right| | | |].
      + rewrite fmap_app. apply NoDup_app. split_and!; [done| |apply NoDup_singleton]. intros x Hx ->%list_elem_of_singleton. by apply (Hdis e Hx); left.
      + intros x. rewrite fmap_app. intros [Hx| ->%list_elem_of_singleton]%elem_of_app; [|done]. intros Hk'. by apply (Hdis x Hx); right.
      + intros x y [?|[= -> ->]%list_elem_of_singleton]%elem_of_app; [by apply Hc|]. split; [by apply elem_of_dom_2 in He|done].
      + exists l. split_and!; [done|done|done|intros x Hx; apply L3; rewrite fmap_app; apply elem_of_app; by left|].
        intros S x HS Hx [->|Hxk]%elem_of_cons; [apply L3; rewrite fmap_app; apply elem_of_app; right; by left|by apply (L4 S)].
    - cbn [mbind result_bind]. destruct (IH acc) as (l & El & L1 & L2 & L3 & L4); [done|intros; apply Hsub; by right|done|intros x Hx Hk'; by apply (Hdis x Hx); right|done|].
      exists l. split_and!; [done|done|done|done|]. intros S x HS Hx [->|Hxk]%elem_of_cons; [|by apply (L4 S)]. exfalso.
      assert (existsb (λ s, bool_decide (e ∈ s)) sets = true); [|congruence]. apply existsb_exists. exists S. split; [by apply list_elem_of_In|by apply bool_decide_eq_true]. }
  destruct (Hgen (dict_items to_auth) []) as (l & El & L1 & L2 & _ & L4); [done|by intros ea ?%Hit|constructor|by intros e ?%not_elem_of_nil|by intros e c ?%not_elem_of_nil|].
  exists l. split_and!; [done|done|done|]. intros S e HS He [a Ha]%elem_of_dom. apply (L4 S); [done|done|]. apply list_elem_of_fmap. exists (e, a). split; [done|]. by apply Hit.
Qed.

Lemma fixup_ok sets X ci :
  sets ≠ [] → waits sets → info_ok X ci → (∀ S, S ∈ sets → S ⊆ X) → (∀ x, x ∈ X → chains !! x = None → x ∈ dom to_auth) →
  ∃ res sets', _fixup_auth_chain_difference_sets room sets (X ∖ dom (ci_info ci)) (dom (ci_info ci)) db = Ok (res, sets') ∧ sets' ≠ [] ∧
    (∀ T, T ∈ sets' → ∀ x, x ∈ T → is_Some (chains !! x)) ∧
    ∀ b, in_difference edge sets b ↔ b ∈ res ∨ in_difference edge sets' b.
Proof.
  intros Hne Hw Hci HX Hmiss. unfold _fixup_auth_chain_difference_sets. fold all_auth.
  rewrite bool_decide_true; cbn [negb raise_if mbind result_bind].
  2:{ apply set_eq. intros x. rewrite !elem_of_difference. split; [|set_solver]. intros [[HxX Hn] Hx]. destruct Hx. apply Hmiss; [done|].
      apply eq_None_not_Some. intros Hs. apply Hn, elem_of_dom. by rewrite (io_info X ci Hci), decide_True. }
  destruct (partial_chains_ok sets) as (l & -> & L1 & L2 & L3). cbn [mbind result_bind].
  set (have_index := dom (ci_info ci) ∪ filter (λ a, a ∈ dom chains) all_auth). set (f := λ S, foldl (replace_unindexed have_index) (S, ∅) l).
  assert (HF : ∀ S, S ∈ sets → (∀ x, x ∈ (f S).1 → is_Some (chains !! x)) ∧ (∀ x, x ∈ (f S).2 → chains !! x = None) ∧
    ∀ b, set_reaches edge S b ↔ b ∈ (f S).2 ∨ set_reaches edge (f S).1 b).
  { intros S HS. pose proof (replace_all_ok have_index S l L1) as Hr. fold (f S) in Hr. destruct (f S) as [T u]. destruct Hr as [R1 R2].
    - intros e c Hin. destruct (L2 e c Hin) as [He Hc]. split_and!; [done|done|]. intros b Hb%Hc. unfold have_index. rewrite elem_of_union, elem_of_filter, !elem_of_dom. split; [|].
      + intros [[t Ht]|[? _]]; [|done]. rewrite (io_info X ci Hci) in Ht. case_decide; [by eexists|done].
      + intros Hs. right. split; [done|]. apply elem_of_all_auth. by apply tc_last in Hb.
    - intros x Hx Hn. apply (L3 S); [done|done|]. by apply Hmiss; [apply (HX S)|].
    - simpl. split_and!; [by intros x [? _]%R1|by intros x [? _]%R2|]. apply (replaced_reach sets); [done|done| |done|done]. intros x Hx. by apply Hmiss, (HX S). }
  assert (Hsplit : ∃ u us, snd <$> (f <$> sets) = u :: us) by (destruct sets as [|S sets']; [done|]; by eexists _, _). destruct Hsplit as (u & us & Eu). rewrite Eu.
  eexists _, _. split; [done|]. split_and!; [by destruct sets| |].
  - intros T HT. apply list_elem_of_fmap in HT as (p & -> & (S & -> & HS)%list_elem_of_fmap). by apply HF.
  - assert (Hu : ∀ U, U ∈ u :: us ↔ ∃ S, S ∈ sets ∧ U = (f S).2).
    { intros U. rewrite <- Eu, list_elem_of_fmap. setoid_rewrite list_elem_of_fmap. naive_solver. }
    assert (HT : ∀ T, T ∈ fst <$> (f <$> sets) ↔ ∃ S, S ∈ sets ∧ T = (f S).1).
    { intros T. rewrite list_elem_of_fmap. setoid_rewrite list_elem_of_fmap. naive_solver. }
    intros b. rewrite elem_of_difference, elem_of_union_all, elem_of_intersection_all. unfold in_difference. setoid_rewrite Hu. setoid_rewrite HT. clear Hu HT Eu.
    destruct (chains !! b) as [t|] eqn:Eb.
    + assert (HF1 : ∀ S, S ∈ sets → set_reaches edge S b ↔ set_reaches edge (f S).1 b).
      { intros S HS. destruct (HF S HS) as (_ & Hun & ->). split; [intros [Hb%Hun|?]; [congruence|done]|by right]. }
      split.
      * intros [(S & HS & Hr) Hno]. right. split; [exists (f S).1; split; [by exists S|by apply (HF1 S HS)]|]. intros Hall. apply Hno. intros S' HS'. apply (HF1 S' HS'). apply Hall. by exists S'.
      * intros [[(U & (S & HS & ->) & Hb) _]|[(T & (S & HS & ->) & Hr) Hno]]; [destruct (HF S HS) as (_ & Hun & _); apply Hun in Hb; congruence|].
        split; [exists S; split; [done|by apply (HF1 S HS)]|]. intros Hall. apply Hno. intros T' (S' & HS' & ->). apply (HF1 S' HS'), Hall, HS'.
    + assert (HF1 : ∀ S, S ∈ sets → ¬ set_reaches edge (f S).1 b).
      { intros S HS (a & Ha & Hr). destruct (HF S HS) as (Hi & _ & _). destruct (reach_indexed rank db Hix a b (Hi a Ha) Hr). congruence. }
      assert (HF2 : ∀ S, S ∈ sets → set_reaches edge S b ↔ b ∈ (f S).2).
      { intros S HS. destruct (HF S HS) as (_ & _ & ->). specialize (HF1 S HS). tauto. }
      split.
      * intros [(S & HS & Hr) Hno]. left. split; [exists (f S).2; split; [by exists S|by apply (HF2 S HS)]|]. intros Hall. apply Hno. intros S' HS'. apply (HF2 S' HS'). apply Hall. by exists S'.
      * intros [[(U & (S & HS & ->) & Hb) Hno]|[(T & (S & HS & ->) & Hr) _]]; [|by destruct (HF1 S HS)].
        split; [exists S; split; [done|by apply (HF2 S HS)]|]. intros Hall. apply Hno. intros T' (S' & HS' & ->). apply (HF2 S' HS'), Hall, HS'.
Qed.

(** The whole transaction. *)
Lemma cover_difference_ok sets :
  sets ≠ [] → waits sets →
  match _get_auth_chain_difference_using_cover_index_txn engine room sets db with
  | Ok (r, _) => ∀ e, e ∈ r ↔ in_difference edge sets e
  | Err x => x = _NoChainCoverIndex ∧ ∃ S e, S ∈ sets ∧ e ∈ S ∧ chains !! e = None ∧ e ∉ dom to_auth
  end.
Proof.
  intros Hne Hw. unfold _get_auth_chain_difference_using_cover_index_txn. destruct sets as [|S0 sets0]; [done|]. set (sets := S0 :: sets0) in *.
  cbn [union_of sets mbind result_bind]. fold sets. set (X := foldl (∪) S0 sets0). assert (HX : ∀ x, x ∈ X ↔ ∃ S, S ∈ sets ∧ x ∈ S) by (intros; apply elem_of_union_all).
  assert (Hsub : ∀ S, S ∈ sets → S ⊆ X) by (intros S HS x Hx; apply HX; eauto).
  pose proof (fetch_info_ok ∅ X _ info_ok_empty) as Hci. rewrite (left_id_L ∅ (∪)) in Hci. set (ci := fetch_chain_info db X (MkChainInfo ∅ ∅ ∅)) in *. clearbody ci X.
  assert (Hdom : ∀ x, x ∈ X ∖ dom (ci_info ci) ↔ x ∈ X ∧ chains !! x = None).
  { intros x. rewrite elem_of_difference, elem_of_dom, (io_info X ci Hci). split; intros [Hx Hn]; (split; [done|]).
    - rewrite decide_True in Hn by done. by apply eq_None_not_Some.
    - rewrite decide_True, Hn by done. by intros []. }
  case_bool_decide as Hm.
  - destruct (indexed_difference_ok X ci sets ∅ Hci Hne Hsub) as (r & -> & Hr).
    + intros x Hx. left. destruct (chains !! x) as [t|] eqn:E; [by eexists|]. assert (Hin : x ∈ X ∖ dom (ci_info ci)) by (by apply Hdom). rewrite Hm in Hin. set_solver.
    + cbn [mbind result_bind]. intros e. rewrite Hr. set_solver.
  - destruct (decide (X ∖ dom (ci_info ci) ∖ dom to_auth = ∅)) as [Hall|Hnot].
    + destruct (fixup_ok sets X ci Hne Hw Hci Hsub) as (res & sets' & -> & Hne' & Hidx & Hd); [intros x Hx Hn; destruct (decide (x ∈ dom to_auth)); [done|]; assert (x ∈ X ∖ dom (ci_info ci)) by (by apply Hdom); set_solver|]. cbn [mbind result_bind].
      pose proof (fetch_info_ok X (foldr (∪) ∅ sets' ∖ X) ci Hci) as Hci'. set (Y := foldr (∪) ∅ sets') in *.
      assert (HY : ∀ T, T ∈ sets' → T ⊆ X ∪ (Y ∖ X)).
      { intros T HT x Hx. destruct (decide (x ∈ X)); [set_solver|]. apply elem_of_union_r, elem_of_difference. split; [|done]. unfold Y. clear -HT Hx. induction HT; simpl; set_solver. }
      destruct (indexed_difference_ok _ _ sets' res Hci' Hne' HY) as (r & -> & Hr).
      * intros x _. destruct (chains !! x) as [t|] eqn:E; [left; by eexists|right]. intros T HT Hx. destruct (Hidx T HT x Hx). congruence.
      * cbn [mbind result_bind]. intros e. by rewrite Hr, Hd.
    + unfold _fixup_auth_chain_difference_sets. rewrite bool_decide_false by done. cbn [negb raise_if mbind result_bind].
      split; [done|]. apply set_choose_L in Hnot as [x Hx]. apply elem_of_difference in Hx as [[HxX Hn]%Hdom Hx]. apply HX in HxX as (S & HS & HxS). by exists S, x.
Qed.
End fixup.
End difference.
