(* ===== verification/AuthChainWrites.v ===== *)
(** * The chain cover index when events are stored

    What [_LinkMap] holds and that the links calculated for new events, in topological
    order, are right and enough; that [_allocate_chain_ids] gives every new event a position
    of its own, right after one of its auth events or the first of a new chain; and that
    [_add_chain_cover_index] never fails, keeps the index right, and indexes each new event
    whose whole auth chain is known, while the others wait in
    [event_auth_chain_to_calculate]. *)

From S2P Require Import Prelude PyVal Constants RoomVersions Events TopoSort IterUtils StateGroups AuthChains AuthChainReads AuthChainProps.

(** * New links *)

(** ** The link map *)

(** A link of the map. *)
Definition link_in (lm : LinkMap) (o t : Z * Z) : Prop := get_links_between lm o.1 t.1 !! o.2 = Some t.2.

(** A position from which the links lead to another one. *)
Definition map_linked (lm : LinkMap) (ta tb : Z * Z) : Prop :=
  ∃ s1 s2, link_in lm (ta.1, s1) (tb.1, s2) ∧ s1 ≤ ta.2 ∧ tb.2 ≤ s2.

Lemma links_between_put lm c c' links d d' :
  get_links_between (put_links c c' links lm) d d' = if decide (d = c ∧ d' = c') then links else get_links_between lm d d'.
Proof.
  unfold get_links_between, put_links. simpl. destruct (decide (d = c)) as [->|Hd]; [rewrite lookup_insert_eq; simpl|rewrite lookup_insert_ne by done].
  - destruct (decide (d' = c')) as [->|Hd']; [rewrite lookup_insert_eq|rewrite lookup_insert_ne by done]; case_decide; naive_solver.
  - case_decide; naive_solver.
Qed.

Lemma link_in_put lm src tgt o t :
  link_in (put_links src.1 tgt.1 (<[src.2 := tgt.2]> (get_links_between lm src.1 tgt.1)) lm) o t ↔
  (o = src ∧ t = tgt) ∨ (¬ (o = src ∧ t.1 = tgt.1) ∧ link_in lm o t).
Proof.
  unfold link_in. rewrite links_between_put. destruct o as [c s], t as [c' s'], src as [d r], tgt as [d' r']. simpl. case_decide as Hd.
  - destruct Hd as [-> ->]. rewrite lookup_insert_Some. naive_solver.
  - naive_solver.
Qed.

Section add_link.
Context `{IterOrderOk}.

Lemma links_covered lm c c' s s' :
  existsb (λ l : Z * Z, (l.1 <=? s) && (s' <=? l.2)) (map_items (get_links_between lm c c')) = true ↔ map_linked lm (c, s) (c', s').
Proof.
  unfold map_linked, link_in. simpl. rewrite existsb_exists. split.
  - intros ([s1 s2] & Hin%list_elem_of_In & [Hs1%Z.leb_le Hs2%Z.leb_le]%andb_true_iff). rewrite elem_of_map_items in Hin. by exists s1, s2.
  - intros (s1 & s2 & Hin & Hs1 & Hs2). exists (s1, s2). split; [apply list_elem_of_In; by rewrite elem_of_map_items|]. apply andb_true_iff. by split; apply Z.leb_le.
Qed.

(** A link of the table. *)
Lemma add_old_link lm o t :
  o.1 ≠ t.1 → ∃ lm' r, add_link o t false lm = Ok (r, lm') ∧ lm_additions lm' = lm_additions lm ∧
    ∀ o' t', link_in lm' o' t' ↔ (o' = o ∧ t' = t) ∨ (¬ (o' = o ∧ t'.1 = t.1) ∧ link_in lm o' t').
Proof.
  intros Hne. unfold add_link. destruct o as [c s] eqn:Eo, t as [c' s'] eqn:Et. simpl in Hne. rewrite bool_decide_false by done. cbn [raise_if mbind result_bind andb].
  eexists _, _. split; [done|]. split; [done|]. intros o' t'. rewrite <- Eo, <- Et.
  rewrite <- (link_in_put lm o t o' t'). unfold link_in. rewrite Eo, Et. simpl. rewrite !links_between_put. by repeat case_decide.
Qed.

(** A new link, unless the map has a better one. *)
Lemma add_new_link lm o t :
  o.1 ≠ t.1 → ∃ lm' r, add_link o t true lm = Ok (r, lm') ∧
    (∀ ta tb, map_linked lm' ta tb ↔ map_linked lm ta tb ∨ (ta.1 = o.1 ∧ o.2 ≤ ta.2 ∧ tb.1 = t.1 ∧ tb.2 ≤ t.2)) ∧
    (∀ o' t', link_in lm' o' t' → link_in lm o' t' ∨ (o' = o ∧ t' = t ∧ ∃ x, (o.1, o.2, t.1, x) ∈ lm_additions lm')) ∧
    (∀ o' t', o' ≠ o → link_in lm o' t' → link_in lm' o' t') ∧ lm_additions lm ⊆ lm_additions lm' ∧
    (∀ x, x ∈ lm_additions lm' → x ∈ lm_additions lm ∨ x.1.1 = o).
Proof.
  intros Hne. unfold add_link. destruct o as [c s] eqn:Eo, t as [c' s'] eqn:Et. simpl in Hne. rewrite bool_decide_false by done. cbn [raise_if mbind result_bind andb].
  assert (Hsame : ∀ o' t', link_in (put_links c c' (get_links_between lm c c') lm) o' t' ↔ link_in lm o' t').
  { intros o' t'. unfold link_in. rewrite links_between_put. case_decide as Hd; [|done]. by destruct Hd as [-> ->]. }
  destruct (existsb _ _) eqn:Hc.
  - apply links_covered in Hc. eexists _, _. split; [done|]. split_and!; [| | |done|by left].
    + intros ta tb. unfold map_linked at 1. setoid_rewrite Hsame. split; [by left|]. intros [?|(Ec & Hs & Ec' & Hs')]; [done|].
      destruct Hc as (s1 & s2 & Hin & H1 & H2). simpl in *. rewrite Ec, Ec'. exists s1, s2. split_and!; [done|lia|lia].
    + intros o' t'. rewrite Hsame. by left.
    + intros o' t' _. by rewrite Hsame.
  - eexists _, _. split; [done|]. set (lm' := put_links c c' (<[s := s']> _) _).
    assert (Hin : ∀ o' t', link_in lm' o' t' ↔ (o' = o ∧ t' = t) ∨ (¬ (o' = o ∧ t'.1 = t.1) ∧ link_in lm o' t')).
    { intros o' t'. rewrite <- (link_in_put lm o t o' t'). unfold lm', link_in. rewrite Eo, Et. rewrite !links_between_put. simpl.
      unfold put_links, get_links_between. simpl. case_decide as Hd; [done|]. pose proof (Hsame o' t') as Hs. unfold link_in, get_links_between, put_links in Hs. simpl in Hs. exact Hs. }
    rewrite Eo, Et in Hin. split_and!.
    + intros ta tb. split.
      * intros (s1 & s2 & [[[= H1 ->] [= H2 ->]]|[_ Hl]]%Hin & Hs1 & Hs2); [right; simpl; by rewrite H1, H2|left; by exists s1, s2].
      * intros [(s1 & s2 & Hl & Hs1 & Hs2)|(Ec & Hs & Ec' & Hs')]; simpl in *.
        -- destruct (decide ((ta.1, s1) = (c, s) ∧ tb.1 = c')) as [[[= H1 ->] H2]|Hn].
           ++ exists s, s'. split_and!; [apply Hin; left; by rewrite H1, H2|done|]. rewrite H1, H2 in Hl. destruct (decide (s' ≤ s2)); [|lia].
              assert (Hcov : map_linked lm (c, s) (c', s')) by (exists s, s2; by split_and!). apply links_covered in Hcov. congruence.
           ++ exists s1, s2. split_and!; [apply Hin; right; by split|done|done].
        -- exists s, s'. split_and!; [apply Hin; left; by rewrite Ec, Ec'|done|done].
    + intros o' t' [[-> ->]|[_ ?]]%Hin; [right|by left]. split_and!; [done|done|]. exists s'. simpl. set_solver.
    + intros o' t' Hno Hl. apply Hin. right. split; [naive_solver|done].
    + simpl. set_solver.
    + simpl. intros x [->%elem_of_singleton|?]%elem_of_union; [by right|by left].
Qed.
End add_link.

(** ** The links of one event *)

Lemma elem_of_permutations2 {A} (l : list A) x y : (x, y) ∈ permutations2 l ↔ ∃ i j, i ≠ j ∧ l !! i = Some x ∧ l !! j = Some y.
Proof.
  unfold permutations2. rewrite list_elem_of_bind. split.
  - intros ([i a] & ([j b] & Hd & Hj)%list_elem_of_bind & Hi). simpl in *. case_decide; [by apply not_elem_of_nil in Hd|].
    apply list_elem_of_singleton in Hd as [= -> ->]. apply elem_of_lookup_imap in Hi as (? & ? & [= <- <-] & ?), Hj as (? & ? & [= <- <-] & ?). by exists i, j.
  - intros (i & j & Hij & Hi & Hj). exists (i, x). split; [|apply elem_of_lookup_imap; by exists i, x]. apply list_elem_of_bind. exists (j, y).
    split; [|apply elem_of_lookup_imap; by exists j, y]. simpl. rewrite decide_False by done. by left.
Qed.

Section links.
Context `{IterOrderOk} (rank : string → nat) (db : ChainDb) (Hch : chains_ok rank db).
Context (old : list ((Z * Z) * (Z * Z))) (todo : gset string) (chain_map : gmap string (Z * Z)).
Context (Hmap : chain_map ⊆ cd_chains db).
Abbreviation edge := (auth_edge db).
Abbreviation chains := (cd_chains db).

(** Links lead from an event to one it reaches; they are in the table or come from new events. *)
Record links_inv (lm : LinkMap) : Prop := {
  li_sound o t : link_in lm o t → o.1 ≠ t.1 ∧ ∃ x y, chains !! x = Some o ∧ chains !! y = Some t ∧ tc edge x y;
  li_from o t : link_in lm o t → (o, t) ∈ old ∨ ∃ x, (o.1, o.2, t.1, x) ∈ lm_additions lm;
  li_new x : x ∈ lm_additions lm → ∃ e, e ∈ todo ∧ chains !! e = Some x.1.1
}.

(** All that an event reaches in other chains. *)
Definition complete_at (lm : LinkMap) (x : string) : Prop :=
  ∀ tx b tb, chains !! x = Some tx → chains !! b = Some tb → tx.1 ≠ tb.1 → tc edge x b → map_linked lm tx tb.

Lemma linked_reaches lm a b ta tb :
  links_inv lm → chains !! a = Some ta → chains !! b = Some tb → map_linked lm ta tb → tc edge a b.
Proof.
  intros Hinv Ha Hb (s1 & s2 & Hl & Hs1 & Hs2). destruct (li_sound lm Hinv _ _ Hl) as (_ & x & y & Hx & Hy & Ht). destruct ta as [ca sa], tb as [cb sb]. simpl in *.
  eapply tc_rtc_l; [by eapply (same_chain_rtc rank db Hch a x)|]. eapply tc_rtc_r; [done|]. by eapply (same_chain_rtc rank db Hch y b).
Qed.

Lemma exists_path_reaches lm a b ta tb :
  links_inv lm → chains !! a = Some ta → chains !! b = Some tb → exists_path_from ta tb lm = true → rtc edge a b.
Proof.
  intros Hinv Ha Hb. unfold exists_path_from. destruct ta as [ca sa], tb as [cb sb]. simpl. case_bool_decide as Hc.
  - subst cb. intros Hs%Z.leb_le. by eapply (same_chain_rtc rank db Hch).
  - intros Hl%links_covered. apply tc_rtc. by eapply linked_reaches.
Qed.

(** An auth event of another chain stays, unless another one reaches it. *)
Lemma reduce_auth_ok lm c auths :
  links_inv lm → NoDup auths → (∀ a, a ∈ auths → is_Some (chain_map !! a)) →
  ∃ r, reduce_auth chain_map lm c auths = Ok r ∧ (∀ a, a ∈ r → a ∈ auths ∧ ∃ t, chain_map !! a = Some t ∧ t.1 ≠ c) ∧
    ∀ a t, a ∈ auths → chain_map !! a = Some t → t.1 ≠ c → a ∈ r ∨ ∃ a', a' ∈ auths ∧ tc edge a' a.
Proof.
  intros Hinv Hnd Hauths. unfold reduce_auth.
  loop_prefix (λ (l : list string) (r : gset string), (∀ a, a ∈ r → a ∈ auths ∧ ∃ t, chain_map !! a = Some t ∧ t.1 ≠ c) ∧
    ∀ a t, a ∈ l → chain_map !! a = Some t → t.1 ≠ c → a ∈ r) as (r0 & -> & R1 & R2).
  3:{ cbn [mbind result_bind].
      loop_total (λ r : gset string, r ⊆ r0 ∧ ∀ a, a ∈ r0 → a ∈ r ∨ ∃ a', a' ∈ auths ∧ tc edge a' a) as (r & -> & R3 & R4).
      3:{ exists r. split; [done|]. split; [intros a Ha; apply R1, R3, Ha|]. intros a t Ha Ht Hc. apply R4. by eapply R2. }
      - split; [done|by left].
      - intros [a b] r (i & j & Hij & Hi & Hj)%elem_of_permutations2 [R3 R4]. cbn [fst snd].
        destruct (Hauths a) as [ta Ha]; [by eapply list_elem_of_lookup_2|]. destruct (Hauths b) as [tb Hb]; [by eapply list_elem_of_lookup_2|].
        rewrite (getitem_some _ _ _ Ha), (getitem_some _ _ _ Hb). cbn [mbind result_bind]. eexists. split; [done|].
        destruct (exists_path_from ta tb lm) eqn:E; [|done]. split; [set_solver|]. intros x Hx. destruct (decide (x = b)) as [->|Hxb]; [|destruct (R4 x Hx); [left; set_solver|by right]].
        right. exists a. split; [by eapply list_elem_of_lookup_2|]. assert (Hr : rtc edge a b) by (eapply exists_path_reaches; [done| | |done]; by eapply lookup_weaken).
        apply rtc_tc_or in Hr as [->|?]; [|done]. by destruct Hij; apply (NoDup_lookup auths i j b). }
  - split; [set_solver|]. by intros a t ?%not_elem_of_nil.
  - intros l1 a l2 r Hl [R1 R2]. destruct (Hauths a) as [t Ht]; [rewrite Hl; set_solver|]. rewrite (getitem_some _ _ _ Ht). cbn [mbind result_bind].
    eexists. split; [done|]. case_bool_decide as Hc; (split; [|intros a' t' [Ha'| ->%list_elem_of_singleton]%elem_of_app Ht' Hc']).
    + done.
    + by eapply R2.
    + congruence.
    + intros a' [->%elem_of_singleton|?]%elem_of_union; [|by apply R1]. split; [rewrite Hl; set_solver|]. by exists t.
    + apply elem_of_union_r. by eapply R2.
    + set_solver.
Qed.

(** One link. *)
Lemma add_link_inv lm e o y t :
  links_inv lm → e ∈ todo → chains !! e = Some o → chains !! y = Some t → tc edge e y → o.1 ≠ t.1 →
  ∃ lm' r, add_link o t true lm = Ok (r, lm') ∧ links_inv lm' ∧ (∀ o' t', o'.1 ≠ o.1 → link_in lm o' t' ↔ link_in lm' o' t') ∧
    ∀ ta tb, map_linked lm' ta tb ↔ map_linked lm ta tb ∨ (ta.1 = o.1 ∧ o.2 ≤ ta.2 ∧ tb.1 = t.1 ∧ tb.2 ≤ t.2).
Proof.
  intros Hinv He Ho Ht Hr Hne. destruct (add_new_link lm o t Hne) as (lm' & r & Er & A1 & A2 & A3 & A4 & A5).
  exists lm', r. split_and!; [done| | |done].
  - split.
    + intros o' t' [?|(-> & -> & _)]%A2; [by apply (li_sound lm Hinv)|]. split; [done|]. by exists e, y.
    + intros o' t' [Hl|(-> & -> & Hx)]%A2; [|by right]. destruct (li_from lm Hinv _ _ Hl) as [?|[x Hx]]; [by left|]. right. exists x. by apply A4.
    + intros x [?|<-]%A5; [by apply (li_new lm Hinv)|]. by exists e.
  - intros o' t' Ho'. split; [apply A3; naive_solver|]. intros [?|(-> & _)]%A2; [done|naive_solver].
Qed.

Lemma elem_of_links_from lm src t : t ∈ get_links_from src lm ↔ ∃ s, link_in lm (src.1, s) t ∧ s ≤ src.2.
Proof.
  unfold get_links_from, link_in, get_links_between. rewrite list_elem_of_bind. setoid_rewrite elem_of_map_items. setoid_rewrite list_elem_of_fmap. simpl. split.
  - intros ([c m] & ([s s'] & -> & [Hs Hin]%list_elem_of_filter) & Hm). simpl in *. rewrite elem_of_map_items in Hin. exists s. rewrite Hm. by split.
  - intros (s & Hin & Hs). destruct (default ∅ (lm_maps lm !! src.1) !! t.1) as [m|] eqn:E; simpl in Hin; [|by rewrite lookup_empty in Hin].
    exists (t.1, m). split; [|done]. exists (s, t.2). split; [by destruct t|]. apply list_elem_of_filter. split; [done|]. by rewrite elem_of_map_items.
Qed.

(** The links to an auth event and to what it links to. *)
Lemma link_auth_ok lm e src a target :
  links_inv lm → e ∈ todo → chains !! e = Some src → chain_map !! a = Some target → edge e a → target.1 ≠ src.1 →
  ∃ lm', link_auth chain_map src lm a = Ok lm' ∧ links_inv lm' ∧ (∀ o' t', o'.1 ≠ src.1 → link_in lm o' t' ↔ link_in lm' o' t') ∧
    (∀ ta tb, map_linked lm ta tb → map_linked lm' ta tb) ∧ map_linked lm' src target ∧
    ∀ tb, map_linked lm target tb → tb.1 ≠ src.1 → map_linked lm' src tb.
Proof.
  intros Hinv He Hsrc Ha Hea Hne. unfold link_auth. rewrite (getitem_some _ _ _ Ha). cbn [mbind result_bind]. pose proof (lookup_weaken _ _ _ _ Ha Hmap) as Ha'.
  destruct (add_link_inv lm e src a target Hinv He Hsrc Ha' (tc_once _ _ _ Hea)) as (lm1 & r & -> & Hinv1 & Hk1 & Hl1); [done|]. cbn [mbind result_bind snd].
  loop_prefix (λ (l : list (Z * Z)) lm', links_inv lm' ∧ (∀ o' t', o'.1 ≠ src.1 → link_in lm o' t' ↔ link_in lm' o' t') ∧
    (∀ ta tb, map_linked lm1 ta tb → map_linked lm' ta tb) ∧ ∀ t, t ∈ l → t.1 ≠ src.1 → map_linked lm' src t) as (lm' & -> & I1 & I2 & I3 & I4).
  3:{ exists lm'. split_and!; [done|done|done|intros ta tb Hl; apply I3, Hl1; by left|apply I3, Hl1; right; by split_and!|].
      intros tb (s1 & s2 & Hin & Hs1 & Hs2) Hc. destruct (I4 (tb.1, s2)) as (r1 & r2 & Hin' & Hr1 & Hr2); [apply elem_of_links_from; exists s1; split; [by apply Hk1|done]|done|].
      exists r1, r2. simpl in *. split_and!; [done|done|lia]. }
  - split_and!; [done|done|done|by intros t ?%not_elem_of_nil].
  - intros l1 t l2 lm2 Hl (I1 & I2 & I3 & I4). case_bool_decide as Hc.
    + exists lm2. split_and!; [done|done|done|done|]. intros t' [?| ->%list_elem_of_singleton]%elem_of_app; [by apply I4|done].
    + assert (Hin : t ∈ get_links_from target lm1) by (rewrite Hl; set_solver). apply elem_of_links_from in Hin as (s & Hlink & Hs).
      destruct (li_sound lm1 Hinv1 _ _ Hlink) as (_ & x & y & Hx & Hy & Ht).
      assert (Hey : tc edge e y). { eapply tc_l; [done|]. destruct target as [ca sa]. simpl in *. eapply tc_rtc_l; [by eapply (same_chain_rtc rank db Hch a x)|done]. }
      destruct (add_link_inv lm2 e src y t I1 He Hsrc Hy Hey) as (lm3 & r3 & -> & J1 & J2 & J3); [done|]. cbn [mbind result_bind snd]. exists lm3. split_and!; [done|done| | |].
      * intros o' t' Ho. rewrite I2 by done. by apply J2.
      * intros ta tb Hl'. apply J3. left. by apply I3.
      * intros t' [Ht'| ->%list_elem_of_singleton]%elem_of_app Hc'; apply J3; [left; by apply I4|right; by split_and!].
Qed.

Context (auth_chain : gmap string (list string)).
Context (Hauth : ∀ e, e ∈ todo → auth_chain !! e = Some (auth_ids db e)).
Context (Hknown : ∀ e a, e ∈ todo → edge e a → is_Some (chain_map !! a)).
Context (Htodo : ∀ e, e ∈ todo → is_Some (chain_map !! e)).

(** An auth event on the way, of the same chain or one that is linked to. *)
Lemma auth_on_the_way (e b : string) (c : Z) (r : gset string) :
  (∀ a t, a ∈ auth_ids db e → chain_map !! a = Some t → t.1 ≠ c → a ∈ r ∨ ∃ a', a' ∈ auth_ids db e ∧ tc edge a' a) →
  e ∈ todo → tc edge e b → ∃ a t, edge e a ∧ rtc edge a b ∧ chain_map !! a = Some t ∧ (t.1 = c ∨ a ∈ r).
Proof.
  intros Hr He Ht. assert (Ha : ∃ a, edge e a ∧ rtc edge a b) by (destruct Ht as [e b Heb|e a b Hea Hab%tc_rtc]; [by exists b|by exists a]). clear Ht.
  destruct Ha as (a & Hea & Hab). remember (rank e - rank a)%nat as n eqn:En. revert a Hea Hab En. induction (lt_wf n) as [n _ IH]. intros a Hea Hab En.
  destruct (Hknown e a He Hea) as [t Ht]. destruct (decide (t.1 = c)); [exists a, t; auto|].
  destruct (Hr a t) as [?|(a' & Ha'%elem_of_auth_ids & Haa)]; [by apply elem_of_auth_ids|done|done|exists a, t; auto|].
  apply (tc_rank rank db Hch) in Haa as Hlt. pose proof (ix_rank _ _ Hch e a' Ha'). apply (IH (rank e - rank a')%nat ltac:(lia) a'); [done| |done].
  etransitivity; [by apply tc_rtc|done].
Qed.

(** After the links of an event, the map knows all it reaches. *)
Lemma link_event_ok lm e :
  links_inv lm → e ∈ todo → (∀ a, edge e a → complete_at lm a) →
  ∃ lm', link_event auth_chain chain_map lm e = Ok lm' ∧ links_inv lm' ∧ (∀ ta tb, map_linked lm ta tb → map_linked lm' ta tb) ∧ complete_at lm' e.
Proof.
  intros Hinv He Hdone. unfold link_event. destruct (Htodo e He) as [src Hsrc]. rewrite (getitem_some _ _ _ Hsrc), (Hauth e He). cbn [mbind result_bind from_option id].
  pose proof (lookup_weaken _ _ _ _ Hsrc Hmap) as Hsrc'. destruct (reduce_auth_ok lm src.1 (auth_ids db e) Hinv (ix_nodup _ _ Hch e)) as (r & -> & R1 & R2).
  { intros a Ha. apply (Hknown e a He). by apply elem_of_auth_ids. }
  cbn [mbind result_bind].
  loop_prefix (λ (l : list string) lm', links_inv lm' ∧ (∀ o' t', o'.1 ≠ src.1 → link_in lm o' t' ↔ link_in lm' o' t') ∧ (∀ ta tb, map_linked lm ta tb → map_linked lm' ta tb) ∧
    ∀ a t, a ∈ l → chain_map !! a = Some t → map_linked lm' src t ∧ ∀ tb, map_linked lm t tb → tb.1 ≠ src.1 → map_linked lm' src tb) as (lm' & -> & I1 & I2 & I3 & I4).
  3:{ exists lm'. split_and!; [done|done|done|]. intros te b tb Hte Hb Hc Ht. rewrite Hsrc' in Hte. injection Hte as <-.
      destruct (auth_on_the_way e b src.1 r R2 He Ht) as (a & t & Hea & Hab & Ha & Hcase). pose proof (lookup_weaken _ _ _ _ Ha Hmap) as Ha'. destruct Hcase as [Hsame|Har].
      - apply rtc_tc_or in Hab as [->|Hab]; [rewrite Hb in Ha'; congruence|]. destruct (Hdone a Hea t b tb Ha' Hb ltac:(congruence) Hab) as (s1 & s2 & Hin & Hs1 & Hs2).
        apply I3. exists s1, s2. rewrite <- Hsame. split_and!; [done| |done]. destruct src as [c s], t as [c' s']. simpl in *. subst c'.
        pose proof (proj1 (same_chain rank db Hch e a c s s' Hsrc' Ha') (tc_once _ _ _ Hea)). lia.
      - destruct (I4 a t) as [J1 J2]; [by apply elem_of_set_iter|done|]. destruct (decide (tb.1 = t.1)) as [Hbt|Hbt].
        + destruct J1 as (s1 & s2 & Hin & Hs1 & Hs2). exists s1, s2. rewrite Hbt. split_and!; [done|done|]. destruct tb as [c s], t as [c' s']. simpl in *. subst c'.
          apply rtc_tc_or in Hab as [->|Hab]; [rewrite Hb in Ha'; injection Ha' as ->; lia|]. apply (same_chain rank db Hch a b c s' s Ha' Hb) in Hab. lia.
        + apply J2; [|done]. apply rtc_tc_or in Hab as [->|Hab]; [congruence|]. by apply (Hdone a Hea t b tb). }
  - split_and!; [done|done|done|by intros a t ?%not_elem_of_nil].
  - intros l1 a l2 lm1 Hl (I1 & I2 & I3 & I4). assert (Har : a ∈ r) by (apply elem_of_set_iter; rewrite Hl; set_solver). destruct (R1 a Har) as (Ha & t & Ht & Hne).
    apply elem_of_auth_ids in Ha. destruct (link_auth_ok lm1 e src a t I1 He Hsrc' Ht Ha Hne) as (lm2 & -> & J1 & J2 & J3 & J4 & J5). exists lm2. split_and!; [done|done| | |].
    + intros o' t' Ho. rewrite I2 by done. by apply J2.
    + intros ta tb Hl'. by apply J3, I3.
    + intros a' t' [Ha'| ->%list_elem_of_singleton]%elem_of_app Ht'.
      * destruct (I4 a' t' Ha' Ht') as [K1 K2]. split; [by apply J3|]. intros tb Hl' Hc. by apply J3, K2.
      * rewrite Ht in Ht'. injection Ht' as <-. split; [done|]. intros tb Hl' Hc. apply J5; [|done]. by apply I3.
Qed.

(** ** The links of all new events *)

Lemma elem_of_additions lm l : l ∈ get_additions lm ↔ link_in lm l.1 l.2 ∧ ∃ x, (l.1.1, l.1.2, l.2.1, x) ∈ lm_additions lm.
Proof.
  unfold get_additions, link_in. rewrite list_elem_of_omap. split.
  - intros ([[[c s] c'] x] & Hx%elem_of_set_iter & Hl). apply fmap_Some in Hl as (s' & Hs' & ->). simpl. split; [done|by exists x].
  - intros [Hl [x Hx]]. exists (l.1.1, l.1.2, l.2.1, x). split; [by apply elem_of_set_iter|]. rewrite Hl. by destruct l as [[] []].
Qed.

Context (Hsound : ∀ l, l ∈ old → l.1.1 ≠ l.2.1 ∧ ∃ x y, chains !! x = Some l.1 ∧ chains !! y = Some l.2 ∧ tc edge x y).
Context (Hunique : ∀ l l', l ∈ old → l' ∈ old → l.1 = l'.1 → l.2.1 = l'.2.1 → l = l').
Context (Hcover : ∀ x tx b tb, x ∉ todo → chains !! x = Some tx → chains !! b = Some tb → tx.1 ≠ tb.1 → tc edge x b → linked old tx tb).

(** The links of the table. *)
Lemma load_links_ok (k : list ((Z * Z) * (Z * Z))) :
  (∀ l, l ∈ k → l ∈ old) →
  ∃ lm, fold_res (λ lm (l : (Z * Z) * (Z * Z)), r ← add_link l.1 l.2 false lm; Ok r.2) k new_LinkMap = Ok lm ∧ links_inv lm ∧ ∀ o t, link_in lm o t ↔ (o, t) ∈ k.
Proof.
  intros Hk. loop_prefix (λ (k1 : list ((Z * Z) * (Z * Z))) lm, lm_additions lm = ∅ ∧ ∀ o t, link_in lm o t ↔ (o, t) ∈ k1) as (lm & -> & Ha & Hin).
  - split; [done|]. intros o t. unfold link_in, get_links_between. simpl. rewrite !lookup_empty. simpl. rewrite lookup_empty. simpl. rewrite lookup_empty. split; [done|by intros ?%not_elem_of_nil].
  - intros k1 [o t] k2 lm -> [Ha Hin]. cbn [fst snd]. destruct (Hsound (o, t)) as [Hne _]; [apply Hk; set_solver|].
    destruct (add_old_link lm o t Hne) as (lm' & r & -> & Ha' & Hl). cbn [mbind result_bind snd]. exists lm'. split_and!; [done|congruence|].
    intros o' t'. rewrite Hl, Hin, elem_of_app, list_elem_of_singleton. split; [intros [[-> ->]|[_ ?]]; by auto|]. intros [Ho|[= -> ->]]; [|by left].
    destruct (decide (o' = o ∧ t'.1 = t.1)) as [[-> Ht]|Hn]; [|by right]. left. assert (E : (o, t') = (o, t)) by (apply Hunique; [apply Hk; set_solver..|done|done]). by injection E.
  - exists lm. split_and!; [done| |done]. split.
    + intros o t Hl%Hin. by apply (Hsound (o, t)), Hk.
    + intros o t Hl%Hin. left. by apply Hk.
    + intros x Hx. rewrite Ha in Hx. set_solver.
Qed.

(** The new links are right, come from new events, and with the old ones they are enough. *)
Lemma calculate_links_ok :
  ∃ adds, calculate_links auth_chain chain_map todo old = Ok adds ∧
    (∀ l, l ∈ adds → l.1.1 ≠ l.2.1 ∧ ∃ x y, chains !! x = Some l.1 ∧ chains !! y = Some l.2 ∧ tc edge x y) ∧
    (∀ l l', l ∈ adds → l' ∈ adds → l.1 = l'.1 → l.2.1 = l'.2.1 → l = l') ∧
    (∀ l, l ∈ adds → ∃ e, e ∈ todo ∧ chains !! e = Some l.1) ∧
    ∀ x tx b tb, x ∈ todo → chains !! x = Some tx → chains !! b = Some tb → tx.1 ≠ tb.1 → tc edge x b → linked (old ++ adds) tx tb.
Proof.
  unfold calculate_links. set (ids := set_map fst (map_img chain_map : gset (Z * Z)) : gset Z).
  assert (Hids : ∀ a t, chain_map !! a = Some t → t.1 ∈ ids) by (intros a t Ha; apply elem_of_map; exists t; split; [done|]; by apply elem_of_map_img_2 with a).
  destruct (load_links_ok (filter (λ l, l.1.1 ∈ ids) old)) as (lm0 & -> & Hinv0 & Hin0); [by intros l [_ ?]%list_elem_of_filter|]. cbn [mbind result_bind].
  assert (Hrank : ∀ n m, n ∈ todo → m ∈ todo → m ∈ default [] (auth_chain !! n) → (rank m < rank n)%nat).
  { intros n m Hn _. rewrite (Hauth n Hn). intros Hm%elem_of_auth_ids. by apply (ix_rank _ _ Hch). }
  loop_prefix (λ (l : list string) lm, links_inv lm ∧ (∀ ta tb, map_linked lm0 ta tb → map_linked lm ta tb) ∧ ∀ x, x ∈ l → complete_at lm x) as (lm & -> & I1 & I2 & I3).
  - split_and!; [done|done|by intros x ?%not_elem_of_nil].
  - intros l1 e l2 lm Hl (I1 & I2 & I3). assert (He : e ∈ todo) by (apply (elem_of_sorted todo auth_chain rank Hrank); rewrite Hl; set_solver).
    destruct (link_event_ok lm e I1 He) as (lm' & -> & J1 & J2 & J3).
    + intros a Hea. destruct (decide (a ∈ todo)) as [Ha|Ha].
      * apply I3. apply (sorted_before todo auth_chain rank Hrank l1 e l2 a Hl); [|done]. rewrite (Hauth e He). by apply elem_of_auth_ids.
      * intros tx b tb Hx Hb Hc Ht. apply I2. destruct (Hknown e a He Hea) as [t Ht']. pose proof (lookup_weaken _ _ _ _ Ht' Hmap) as Hx'. rewrite Hx in Hx'. injection Hx' as <-.
        destruct (Hcover a tx b tb Ha Hx Hb Hc Ht) as (s1 & s2 & Hin & Hs). exists s1, s2. split; [|done]. apply Hin0, list_elem_of_filter. split; [|done]. simpl. by apply (Hids a).
    + exists lm'. split_and!; [done|done|intros; by apply J2, I2|]. intros x [Hx| ->%list_elem_of_singleton]%elem_of_app; [|done]. intros tx b tb Htx Htb Hc Ht. apply J2. exact (I3 x Hx tx b tb Htx Htb Hc Ht).
  - cbn [mbind result_bind]. exists (get_additions lm). split; [done|]. split_and!.
    + intros l [Hl _]%elem_of_additions. by apply (li_sound lm I1).
    + intros [o [c s]] [o' [c' s']] [Hl _]%elem_of_additions [Hl' _]%elem_of_additions E1 E2. simpl in *. subst. unfold link_in in *. simpl in *. congruence.
    + intros l [_ [x Hx]]%elem_of_additions. destruct (li_new lm I1 _ Hx) as (e & He & Hc). exists e. split; [done|]. rewrite Hc. by destruct l as [[] ?].
    + intros x tx b tb Hx Htx Htb Hc Ht. destruct (I3 x ltac:(by apply (elem_of_sorted todo auth_chain rank Hrank)) tx b tb Htx Htb Hc Ht) as (s1 & s2 & Hin & Hs).
      exists s1, s2. split; [|done]. apply elem_of_app. destruct (li_from lm I1 _ _ Hin) as [?|Hx']; [by left|right]. by apply elem_of_additions.
Qed.
End links.

(** * New positions *)

(** ** The tree *)

Section tree.
Context (types : gmap string (string * string)) (auth_chain : gmap string (list string)) (chain_map : gmap string (Z * Z)).

Lemma chain_parent_auth e a : chain_parent types auth_chain e = Some a → a ∈ default [] (auth_chain !! e).
Proof.
  unfold chain_parent. destruct (filter _ _) as [|x l] eqn:E; [done|]. intros [= ->].
  assert (Hin : a ∈ a :: l) by by left. rewrite <- E in Hin. by apply list_elem_of_filter in Hin as [_ ?].
Qed.

Lemma tree_spec l : ∃ ex, foldl (tree_step types auth_chain chain_map) (∅, []) l = (ex, (λ e, (e, chain_parent types auth_chain e)) <$> l) ∧
  ∀ c, c ∈ ex ↔ ∃ e a s, e ∈ l ∧ chain_parent types auth_chain e = Some a ∧ chain_map !! a = Some (c, s).
Proof.
  induction l as [|e l IH] using rev_ind; [exists ∅; split; [done|]; intros c; setoid_rewrite elem_of_nil; set_solver|].
  destruct IH as (ex & E & Hex). rewrite foldl_app, E. cbn [foldl]. unfold tree_step. rewrite fmap_app. destruct (chain_parent types auth_chain e) as [a|] eqn:Ea.
  - eexists. split; [cbn; rewrite Ea; done|]. intros c. setoid_rewrite elem_of_app. setoid_rewrite list_elem_of_singleton. destruct (chain_map !! a) as [[c' s]|] eqn:Em.
    + rewrite elem_of_union, elem_of_singleton, Hex. split; [intros [->|(e' & a' & s' & ? & ? & ?)]; [exists e, a, s|exists e', a', s']; auto|].
      intros (e' & a' & s' & [?| ->] & Hp & Hm); [right; by exists e', a', s'|left; congruence].
    + rewrite Hex. split; [intros (e' & a' & s' & ? & ? & ?); exists e', a', s'; auto|]. intros (e' & a' & s' & [?| ->] & Hp & Hm); [by exists e', a', s'|congruence].
  - eexists. split; [cbn; rewrite Ea; done|]. intros c. rewrite Hex. setoid_rewrite elem_of_app. setoid_rewrite list_elem_of_singleton.
    split; [intros (e' & a' & s' & ? & ? & ?); exists e', a', s'; auto|]. intros (e' & a' & s' & [?| ->] & Hp & Hm); [by exists e', a', s'|congruence].
Qed.
End tree.

Lemma max_sequence_spec (chains : gmap string (Z * Z)) (ex : gset Z) x c s :
  chains !! x = Some (c, s) → c ∈ ex → ∃ m, max_sequence_numbers chains ex !! inl c = Some m ∧ s ≤ m.
Proof.
  intros Hx Hc. apply elem_of_map_to_list in Hx. unfold max_sequence_numbers. induction (map_to_list chains) as [|[y [c' s']] l IH]; [by apply not_elem_of_nil in Hx|].
  simpl. apply elem_of_cons in Hx as [[= <- <- <-]|Hx].
  - rewrite bool_decide_true by done. rewrite lookup_insert_eq. eexists. split; [done|lia].
  - destruct (IH Hx) as (m & Hm & Hs). case_bool_decide; [|by exists m]. destruct (decide (c' = c)) as [->|Hne]; [rewrite lookup_insert_eq, Hm; simpl; eexists; split; [done|lia]|].
    rewrite lookup_insert_ne by congruence. by exists m.
Qed.

(** ** The positions *)

Section alloc.
Context `{IterOrderOk} (rank : string → nat) (db : ChainDb) (Hch : chains_ok rank db).
Context (types : gmap string (string * string)) (auth_chain : gmap string (list string)) (chain_map : gmap string (Z * Z)) (todo : gset string).
Context (Hmap : chain_map ⊆ cd_chains db).
Abbreviation edge := (auth_edge db).
Abbreviation chains := (cd_chains db).
Context (Hauth : ∀ e, e ∈ todo → auth_chain !! e = Some (auth_ids db e)).
Context (Hknown : ∀ e a, e ∈ todo → edge e a → a ∈ todo ∨ is_Some (chain_map !! a)).

(** The position of an event, given in the loop or before. *)
Definition placed (al : Allocation) (e : string) (k : chain_key) (s : Z) : Prop :=
  al_tuples al !! e = Some (k, s) ∨ ∃ c, k = inl c ∧ chains !! e = Some (c, s).

Section loop.
Context (ex : gset Z).

Record alloc_inv (done : list string) (al : Allocation) : Prop := {
  ai_dom e : is_Some (al_tuples al !! e) ↔ e ∈ done;
  ai_key e k s : al_tuples al !! e = Some (k, s) → 1 ≤ s ∧ match k with inl c => c ∈ ex | inr n => (n < al_objects al)%nat end;
  ai_max e k s : placed al e k s → match k with inl c => c ∈ ex | inr _ => True end → ∃ m, al_max al !! k = Some m ∧ s ≤ m;
  ai_unique e e' k s : al_tuples al !! e = Some (k, s) → al_tuples al !! e' = Some (k, s) → e = e';
  ai_free e x c s : al_tuples al !! e = Some (inl c, s) → chains !! x ≠ Some (c, s);
  ai_prev e k s : al_tuples al !! e = Some (k, s) → 1 < s → ∃ p, placed al p k (s - 1) ∧ edge e p;
  ai_objects n : n ∈ al_unallocated al ↔ (n < al_objects al)%nat
}.

(** A new event at a position that is beyond all others of its chain. *)
Lemma alloc_place done al e k s max' un ob :
  alloc_inv done al → e ∉ done → max' = <[k := s]> (al_max al) →
  1 ≤ s →
  match k with inl c => c ∈ ex | inr n => (n < ob)%nat end →
  (∀ x s', placed al x k s' → s' < s) → (1 < s → ∃ p, placed al p k (s - 1) ∧ edge e p) →
  (al_objects al ≤ ob)%nat → (∀ n, n ∈ un ↔ (n < ob)%nat) →
  alloc_inv (done ++ [e]) (MkAllocation max' (<[e := (k, s)]> (al_tuples al)) un ob).
Proof.
  intros Hinv He -> Hs Hk Hlt Hprev Hob Hun.
  assert (Hne : ∀ x, is_Some (al_tuples al !! x) → e ≠ x) by (intros x Hx ->; apply He; by apply (ai_dom _ _ Hinv)).
  assert (Hpl : ∀ x k' s', placed al x k' s' → placed (MkAllocation (<[k := s]> (al_max al)) (<[e := (k, s)]> (al_tuples al)) un ob) x k' s').
  { intros x k' s' [Hx|Hx]; [left; simpl; rewrite lookup_insert_ne; [done|apply Hne; by eexists]|by right]. }
  split; simpl.
  - intros x. rewrite lookup_insert_is_Some', elem_of_app, list_elem_of_singleton, (ai_dom _ _ Hinv). naive_solver.
  - intros x k' s' [[_ [= <- <-]]|[_ Hx]]%lookup_insert_Some; [split; [done|]; destruct k; [done|lia]|]. destruct (ai_key _ _ Hinv x k' s' Hx) as [? Hk']. split; [done|]. destruct k'; [done|lia].
  - intros x k' s' Hx Hk'. unfold placed in Hx. simpl in Hx. destruct (decide (k' = k)) as [->|Hkk].
    + exists s. rewrite lookup_insert_eq. split; [done|]. destruct Hx as [[[_ [= <-]]|[_ Hx]]%lookup_insert_Some|Hx]; [lia| |].
      * pose proof (Hlt x s' (or_introl Hx)). lia.
      * pose proof (Hlt x s' (or_intror Hx)). lia.
    + rewrite lookup_insert_ne by done. apply (ai_max _ _ Hinv x); [|done]. destruct Hx as [[[_ [= <- _]]|[_ Hx]]%lookup_insert_Some|Hx]; [done|by left|by right].
  - intros x y k' s' [[<- [= <- <-]]|[_ Hx]]%lookup_insert_Some [[<- E]|[_ Hy]]%lookup_insert_Some; [done| | |by eapply (ai_unique _ _ Hinv)].
    + pose proof (Hlt y s (or_introl Hy)). lia.
    + injection E as <- <-. pose proof (Hlt x s (or_introl Hx)). lia.
  - intros x y c s' [[_ [= -> <-]]|[_ Hx]]%lookup_insert_Some Hy; [|by apply (ai_free _ _ Hinv x y c s')]. assert (s < s); [|lia]. apply (Hlt y). right. by exists c.
  - intros x k' s' [[<- [= <- <-]]|[_ Hx]]%lookup_insert_Some Hs'; [destruct (Hprev Hs') as (p & Hp & ?)|destruct (ai_prev _ _ Hinv x k' s' Hx Hs') as (p & Hp & ?)]; exists p; split; auto.
  - done.
Qed.

Lemma alloc_new_chain done al e :
  alloc_inv done al → e ∉ done →
  alloc_inv (done ++ [e]) (MkAllocation (<[inr (al_objects al) := 1]> (al_max al)) (<[e := (inr (al_objects al), 1)]> (al_tuples al))
    ({[al_objects al]} ∪ al_unallocated al) (S (al_objects al))).
Proof.
  intros Hinv He. eapply alloc_place; try done; [lia| |lia|].
  - intros x s' [Hx|(c & ? & _)]; [|done]. destruct (ai_key _ _ Hinv x _ _ Hx) as [_ Hlt]. lia.
  - intros n. rewrite elem_of_union, elem_of_singleton, (ai_objects _ _ Hinv). lia.
Qed.

Lemma existing_chain_ok done al e p :
  alloc_inv done al → e ∈ todo → (∀ a, edge e a → a ∈ todo → a ∈ done) → chain_parent types auth_chain e = p →
  (∀ a c s, p = Some a → chain_map !! a = Some (c, s) → c ∈ ex) →
  ∃ o, existing_chain chain_map p al = Ok o ∧
    match o with
    | Some (k, s) => 1 ≤ s ∧ match k with inl c => c ∈ ex | inr _ => True end ∧ ∃ a, edge e a ∧ placed al a k s
    | None => True
    end.
Proof.
  intros Hinv He Hdone Hp Hex. unfold existing_chain. destruct p as [a|]; [|by exists None]. case_bool_decide; [by exists None|].
  apply chain_parent_auth in Hp. rewrite (Hauth e He) in Hp. apply elem_of_auth_ids in Hp. destruct (al_tuples al !! a) as [[k s]|] eqn:Ea.
  - exists (Some (k, s)). destruct (ai_key _ _ Hinv a k s Ea) as [Hs Hk]. split_and!; [done|done|by destruct k|]. exists a. split; [done|by left].
  - assert (Hn : a ∉ todo) by (intros Ha; destruct (proj2 (ai_dom _ _ Hinv a) (Hdone a Hp Ha)); congruence).
    destruct (Hknown e a He Hp) as [?|[[c s] Ht]]; [done|]. rewrite (getitem_some _ _ _ Ht). cbn [mbind result_bind]. eexists. split; [done|].
    pose proof (lookup_weaken _ _ _ _ Ht Hmap) as Ht'. destruct (ix_range _ _ Hch a _ Ht') as [Hs _]. simpl in *. split_and!; [done|by eapply Hex|]. exists a. split; [done|]. right. by exists c.
Qed.

Lemma alloc_step_ok done al e :
  alloc_inv done al → e ∉ done → e ∈ todo → (∀ a, edge e a → a ∈ todo → a ∈ done) →
  (∀ a c s, chain_parent types auth_chain e = Some a → chain_map !! a = Some (c, s) → c ∈ ex) →
  ∃ al', alloc_step chain_map al (e, chain_parent types auth_chain e) = Ok al' ∧ alloc_inv (done ++ [e]) al'.
Proof.
  intros Hinv Hn He Hdone Hex. unfold alloc_step. destruct (existing_chain_ok done al e _ Hinv He Hdone eq_refl Hex) as (o & -> & Ho). cbn [mbind result_bind].
  destruct o as [[k s]|]; cbn [mbind result_bind]; [|eexists; split; [done|]; by apply alloc_new_chain].
  destruct Ho as (Hs & Hk & a & Hea & Ha). destruct (ai_max _ _ Hinv a k s Ha Hk) as (m & Hm & Hsm). rewrite Hm. cbn [mbind result_bind]. eexists. split; [done|].
  destruct (m <? s + 1) eqn:E; [apply Z.ltb_lt in E|by apply alloc_new_chain]. eapply alloc_place; try done; [lia| | | |].
  - destruct k as [c|n]; [done|]. destruct Ha as [Ha|(c & ? & _)]; [|done]. by destruct (ai_key _ _ Hinv a _ _ Ha).
  - intros x s' Hx. destruct (ai_max _ _ Hinv x k s' Hx Hk) as (m' & Hm' & ?). rewrite Hm in Hm'. injection Hm' as <-. lia.
  - intros _. exists a. split; [|done]. by replace (s + 1 - 1) with s by lia.
  - apply (ai_objects _ _ Hinv).
Qed.
End loop.

(** ** The ids of the new chains *)

Lemma allocated_old ex un seq c : c ∈ ex → allocated_map ex un seq !! inl c = Some c.
Proof.
  intros Hc. unfold allocated_map. apply lookup_union_Some_l. apply elem_of_list_to_map.
  - rewrite <- list_fmap_compose. apply (NoDup_fmap_2 _), NoDup_set_iter.
  - apply list_elem_of_fmap. exists c. split; [done|by apply elem_of_set_iter].
Qed.

Lemma allocated_new ex (un : gset nat) seq n : n ∈ un → ∃ i, (i < size un)%nat ∧ set_iter un !! i = Some n ∧ allocated_map ex un seq !! inr n = Some (seq + 1 + Z.of_nat i).
Proof.
  intros Hn. apply elem_of_set_iter, list_elem_of_lookup in Hn as [i Hi]. assert (Hlen : length (set_iter un) = size un) by (by rewrite set_iter_perm).
  assert (Hlt : (i < size un)%nat) by (rewrite <- Hlen; by apply lookup_lt_Some in Hi). exists i. split_and!; [done|done|]. unfold allocated_map. rewrite lookup_union_r.
  - apply elem_of_list_to_map.
    + rewrite fst_zip; [apply (NoDup_fmap_2 _), NoDup_set_iter|]. rewrite !length_fmap, length_seq. lia.
    + apply (list_elem_of_lookup_2 _ i). apply lookup_zip_with_Some. exists (inr n), (seq + 1 + Z.of_nat i). split_and!; [done|by rewrite list_lookup_fmap, Hi|]. by rewrite list_lookup_fmap, lookup_seq_lt.
  - apply not_elem_of_list_to_map. rewrite <- list_fmap_compose. intros (c & ? & _)%list_elem_of_fmap. done.
Qed.

(** The positions with the ids in place. *)
Lemma replace_ids_ok {K} `{Countable K} (ids : gmap K Z) (m : gmap string (K * Z)) :
  (∀ e k s, m !! e = Some (k, s) → is_Some (ids !! k)) →
  ∃ N, fold_res (λ N (t : string * (K * Z)), match ids !! t.2.1 with Some c => Ok (<[t.1 := (c, t.2.2)]> N) | None => Err (PyBuiltin KeyError) end) (dict_items m) (∅ : gmap string (Z * Z)) = Ok N ∧
    ∀ e t, N !! e = Some t ↔ ∃ k, m !! e = Some (k, t.2) ∧ ids !! k = Some t.1.
Proof.
  intros Hids. assert (Hit : ∀ e k s, (e, (k, s)) ∈ dict_items m ↔ m !! e = Some (k, s)) by (intros; by rewrite dict_items_perm, elem_of_map_to_list).
  assert (Hnd : NoDup (dict_items m).*1) by (rewrite dict_items_perm; apply NoDup_fst_map_to_list).
  loop_prefix (λ (l : list (string * (K * Z))) (N : gmap string (Z * Z)), ∀ e t, N !! e = Some t ↔ ∃ k, (e, (k, t.2)) ∈ l ∧ ids !! k = Some t.1) as (N & -> & HN).
  - intros e t. rewrite lookup_empty. split; [done|]. by intros (k & ?%not_elem_of_nil & _).
  - intros l1 [e [k s]] l2 N Hl HN. cbn [fst snd]. destruct (Hids e k s) as [c Hc]; [apply Hit; rewrite Hl; set_solver|]. rewrite Hc. eexists. split; [done|].
    assert (Hf : e ∉ l1.*1) by (rewrite Hl, fmap_app in Hnd; apply NoDup_app in Hnd as (_ & Hd & _); intros ?; apply (Hd e); [done|by left]).
    intros x t. rewrite lookup_insert_Some, HN. setoid_rewrite elem_of_app. setoid_rewrite list_elem_of_singleton. split.
    + intros [[<- <-]|[_ (k' & ? & ?)]]; [exists k; split; [by right|done]|exists k'; split; [by left|done]].
    + intros (k' & [Hin|[= -> -> Es]] & Hk'); [right; split; [intros ->; apply Hf, list_elem_of_fmap; eexists; split; [|exact Hin]; done|by exists k']|left; split; [done|]]. rewrite Hc in Hk'. injection Hk' as Ec. destruct t. simpl in *. congruence.
  - exists N. split; [done|]. intros e t. rewrite HN. by setoid_rewrite Hit.
Qed.

(** ** [_allocate_chain_ids] *)

(** The whole loop. *)
Lemma alloc_loop_ok :
  ∃ ex al, foldl (tree_step types auth_chain chain_map) (∅, []) (sorted_topologically todo auth_chain) =
      (ex, (λ e, (e, chain_parent types auth_chain e)) <$> sorted_topologically todo auth_chain) ∧
    fold_res (alloc_step chain_map) ((λ e, (e, chain_parent types auth_chain e)) <$> sorted_topologically todo auth_chain)
      (MkAllocation (max_sequence_numbers chains ex) ∅ ∅ 0) = Ok al ∧
    alloc_inv ex (sorted_topologically todo auth_chain) al ∧ (∀ c, c ∈ ex → c ≤ cd_seq db) ∧ ∀ e, e ∈ sorted_topologically todo auth_chain ↔ e ∈ todo.
Proof.
  destruct (tree_spec types auth_chain chain_map (sorted_topologically todo auth_chain)) as (ex & E & Hex). exists ex.
  assert (Hrank : ∀ n m, n ∈ todo → m ∈ todo → m ∈ default [] (auth_chain !! n) → (rank m < rank n)%nat).
  { intros n m Hn _. rewrite (Hauth n Hn). intros Hm%elem_of_auth_ids. by apply (ix_rank _ _ Hch). }
  pose proof (elem_of_sorted todo auth_chain rank Hrank) as Hsorted. pose proof (NoDup_sorted todo auth_chain rank Hrank) as Hnd.
  loop_prefix (λ (l : list (string * option string)) al, alloc_inv ex l.*1 al) as (al & -> & Hinv).
  - split; simpl; [intros e; rewrite lookup_empty; split; [by intros []|by intros ?%not_elem_of_nil]|by intros ? ? ? ?%lookup_empty_Some| |by intros ? ? ? ? ?%lookup_empty_Some..| |set_solver by lia].
    + intros x k s [Hx|(c & -> & Hx)] Hc; [simpl in Hx; by apply lookup_empty_Some in Hx|]. by eapply max_sequence_spec.
    + by intros ? ? ? ?%lookup_empty_Some.
  - intros l1 [e p] l2 al Hl Hinv. rewrite fmap_app. apply fmap_app_inv in Hl as (k1 & k2 & -> & Hk2 & Hk). symmetry in Hk2. apply fmap_cons_inv in Hk2 as (e' & k2' & [= <- ->] & -> & ->).
    assert (He : e ∈ todo) by (apply Hsorted; rewrite Hk; set_solver). rewrite <- list_fmap_compose in Hinv |- *. simpl in *. rewrite list_fmap_id in *.
    apply alloc_step_ok; [done| |done| |].
    + rewrite Hk in Hnd. apply NoDup_app in Hnd as (_ & Hd & _). intros Hin. apply (Hd e Hin). by left.
    + intros a Hea Ha. apply (sorted_before todo auth_chain rank Hrank k1 e k2' a Hk); [|done]. rewrite (Hauth e He). by apply elem_of_auth_ids.
    + intros a c s Hp Hm. apply Hex. exists e, a, s. split_and!; [|done|done]. rewrite Hk. set_solver.
  - rewrite <- list_fmap_compose, list_fmap_id in Hinv. exists al. split_and!; [done|done|done| |done].
    intros c (e & a & s & _ & _ & Ha)%Hex. by destruct (ix_range _ _ Hch a _ (lookup_weaken _ _ _ _ Ha Hmap)).
Qed.

Lemma allocate_chain_ids_ok :
  (∀ e, e ∈ todo → chains !! e = None) →
  ∃ N seq, _allocate_chain_ids types auth_chain chain_map todo chains (cd_seq db) = Ok (N, seq) ∧ dom N = todo ∧ cd_seq db ≤ seq ∧
    (∀ e t, N !! e = Some t → 1 ≤ t.2 ∧ t.1 ≤ seq) ∧ (∀ e e' t, N !! e = Some t → N !! e' = Some t → e = e') ∧
    (∀ e x t, N !! e = Some t → chains !! x ≠ Some t) ∧
    ∀ e t, N !! e = Some t → 1 < t.2 → ∃ p, (N !! p = Some (t.1, t.2 - 1) ∨ chains !! p = Some (t.1, t.2 - 1)) ∧ edge e p.
Proof.
  intros Hnew. unfold _allocate_chain_ids. destruct alloc_loop_ok as (ex & al & -> & -> & Hinv & Hexr & Hsorted). cbn [mbind result_bind].
  set (un := al_unallocated al) in *. set (ids := allocated_map ex un (cd_seq db)).
  assert (Hkey : ∀ e k s, al_tuples al !! e = Some (k, s) → ∃ v, ids !! k = Some v ∧ v ≤ cd_seq db + Z.of_nat (size un) ∧ (v ≤ cd_seq db → k = inl v ∧ v ∈ ex)).
  { intros e k s He. destruct (ai_key _ _ _ Hinv e k s He) as [_ Hk]. destruct k as [c|n].
    - exists c. unfold ids. rewrite allocated_old by done. specialize (Hexr c Hk). split_and!; [done|lia|done].
    - destruct (allocated_new ex un (cd_seq db) n) as (i & Hi & _ & E); [by apply (ai_objects _ _ _ Hinv)|]. eexists. split; [exact E|]. split; [lia|]. intros ?. lia. }
  assert (Hinj : ∀ e e' k k' s s' v, al_tuples al !! e = Some (k, s) → al_tuples al !! e' = Some (k', s') → ids !! k = Some v → ids !! k' = Some v → k = k').
  { intros e e' k k' s s' v He He' Ev Ev'. destruct (Hkey e k s He) as (v1 & E1 & _ & Hl1), (Hkey e' k' s' He') as (v2 & E2 & _ & Hl2). rewrite E1 in Ev. rewrite E2 in Ev'. injection Ev as ->. injection Ev' as ->.
    destruct (decide (v ≤ cd_seq db)) as [Hv|Hv]; [destruct (Hl1 Hv), (Hl2 Hv); congruence|]. destruct (ai_key _ _ _ Hinv e k s He) as [_ Hk], (ai_key _ _ _ Hinv e' k' s' He') as [_ Hk'].
    destruct k as [c|n]; [unfold ids in E1; rewrite allocated_old in E1 by done; injection E1 as <-; by specialize (Hexr c Hk)|].
    destruct k' as [c|n']; [unfold ids in E2; rewrite allocated_old in E2 by done; injection E2 as <-; by specialize (Hexr c Hk')|].
    destruct (allocated_new ex un (cd_seq db) n) as (i & _ & Hi & Ei); [by apply (ai_objects _ _ _ Hinv)|].
    destruct (allocated_new ex un (cd_seq db) n') as (j & _ & Hj & Ej); [by apply (ai_objects _ _ _ Hinv)|]. unfold ids in *. rewrite Ei in E1. rewrite Ej in E2.
    injection E1 as E1. injection E2 as E2. assert (i = j) as -> by lia. congruence. }
  destruct (replace_ids_ok ids (al_tuples al)) as (N & -> & HN); [intros e k s He; destruct (Hkey e k s He) as (v & -> & _); by eexists|]. cbn [mbind result_bind].
  assert (Hplace : ∀ e k s v p s', al_tuples al !! e = Some (k, s) → ids !! k = Some v → placed al p k s' → N !! p = Some (v, s') ∨ chains !! p = Some (v, s')).
  { intros e k s v p s' He Ev [Hp|(c & -> & Hp)]; [left; apply HN; by exists k|right]. destruct (ai_key _ _ _ Hinv e _ s He) as [_ Hc]. unfold ids in Ev. rewrite allocated_old in Ev by done. by injection Ev as <-. }
  exists N, (cd_seq db + Z.of_nat (size un)). split; [done|]. split_and!; [|lia| | | |].
  - apply set_eq. intros e. rewrite elem_of_dom, <- Hsorted, <- (ai_dom _ _ _ Hinv). split; [intros [t (k & Hk & _)%HN]; by eexists|].
    intros [[k s] He]. destruct (Hkey e k s He) as (v & Ev & _). exists (v, s). apply HN. by exists k.
  - intros e [v s] (k & He & Ev)%HN. simpl in *. destruct (ai_key _ _ _ Hinv e k s He) as [Hs _], (Hkey e k s He) as (v' & Ev' & Hv & _). rewrite Ev in Ev'. injection Ev' as <-. done.
  - intros e e' [v s] (k & He & Ev)%HN (k' & He' & Ev')%HN. simpl in *. rewrite (Hinj e e' k k' s s v He He' Ev Ev') in He. by eapply (ai_unique _ _ _ Hinv).
  - intros e x [v s] (k & He & Ev)%HN Hx. simpl in *. destruct (ix_range _ _ Hch x _ Hx) as [_ Hv]. simpl in Hv. destruct (Hkey e k s He) as (v' & Ev' & _ & Hl). rewrite Ev in Ev'. injection Ev' as <-.
    destruct (Hl Hv) as [-> _]. by eapply (ai_free _ _ _ Hinv).
  - intros e [v s] (k & He & Ev)%HN Hs. simpl in *. destruct (ai_prev _ _ _ Hinv e k s He Hs) as (p & Hp & Hep). exists p. split; [by eapply Hplace|done].
Qed.
End alloc.

(** * The index *)

Section index.
Context `{IterOrderOk} (rank : string → nat) (db : ChainDb) (Hix : index_ok rank db).
Context (rooms : gmap string string) (types : gmap string (string * string)) (auth_chain : gmap string (list string)).
Abbreviation edge := (auth_edge db).
Abbreviation chains := (cd_chains db).
Context (Hdom_auth : dom auth_chain = dom rooms) (Hdom_types : dom types = dom rooms).
Context (Hauth : ∀ e l, auth_chain !! e = Some l → l = auth_ids db e).
Context (Hnew : ∀ e, e ∈ dom rooms → chains !! e = None ∧ cd_to_calculate db !! e = None ∧ is_Some (state_event db e)).

(** ** What is collected *)

Record calc_inv (c : Calc) : Prop := {
  cc_dom : dom (ca_auth c) = ca_todo c;
  cc_auth e l : ca_auth c !! e = Some l → l = auth_ids db e;
  cc_types : dom (ca_types c) = ca_todo c ∪ dom (ca_map c);
  cc_map : ca_map c ⊆ chains;
  cc_todo e : e ∈ ca_todo c → chains !! e = None ∧ is_Some (state_event db e);
  cc_new : dom rooms ⊆ ca_todo c
}.

(** The auth events of the events to calculate are known, or still to be fetched. *)
Definition pending (c : Calc) (missing : gset string) : Prop :=
  ∀ e a, e ∈ ca_todo c → edge e a → a ∈ ca_todo c ∨ a ∈ dom (ca_map c) ∨ a ∈ missing ∨ state_event db a = None.

Lemma calculate_rows_ok : calc_inv (foldl (add_calculate_row db) (MkCalc types auth_chain (dom rooms) ∅) (calculate_rows db (map_img rooms))).
Proof.
  assert (Hrow : ∀ r, r ∈ calculate_rows db (map_img rooms) → chains !! r.1 = None ∧ is_Some (state_event db r.1)).
  { intros [e t] [_ Hin]%list_elem_of_filter. rewrite dict_items_perm, elem_of_map_to_list in Hin. apply (ix_todo _ _ Hix). by exists t. }
  assert (H1 : calc_inv (MkCalc types auth_chain (dom rooms) ∅)).
  { split; simpl; [done|done|rewrite dom_empty_L; set_solver|apply map_empty_subseteq| |done]. intros e He. by destruct (Hnew e He) as (? & _ & ?). }
  revert H1. generalize (MkCalc types auth_chain (dom rooms) ∅). induction (calculate_rows db (map_img rooms)) as [|[e [r ty]] l IH]; intros c Hc; [done|]. cbn [foldl].
  apply IH; [intros; apply Hrow; by right|]. destruct (Hrow (e, (r, ty)) ltac:(by left)) as [He1 He2]. destruct Hc as [C1 C2 C3 C4 C5 C6]. simpl in *. split; simpl.
  - rewrite dom_insert_L. by rewrite C1.
  - intros x k [[<- <-]|[_ ?]]%lookup_insert_Some; [done|by apply C2].
  - rewrite dom_insert_L, C3. set_solver.
  - done.
  - intros x [->%elem_of_singleton|?]%elem_of_union; [done|by apply C5].
  - set_solver.
Qed.

Lemma missing_pending c : calc_inv c → pending c (missing_auth c).
Proof.
  intros Hc e a He Hea. destruct (decide (a ∈ ca_todo c)) as [?|Hn]; [by left|]. right. right. left. unfold missing_auth. rewrite elem_of_list_to_set, list_elem_of_filter. split; [done|].
  rewrite <- (cc_dom _ Hc) in He. apply elem_of_dom in He as [l Hl]. pose proof (cc_auth _ Hc e l Hl) as El. apply list_elem_of_In, in_concat. exists l. split; apply list_elem_of_In.
  - apply list_elem_of_fmap. exists (e, l). split; [done|]. by rewrite dict_items_perm, elem_of_map_to_list.
  - subst l. by apply elem_of_auth_ids.
Qed.

Lemma fetch_row_ok c Q missing a :
  calc_inv c → pending c ({[a]} ∪ Q ∪ missing) →
  let '(c', missing') := fetch_auth_row db (c, missing) a in
  calc_inv c' ∧ pending c' (Q ∪ missing') ∧ missing ⊆ missing' ∧ (∀ b, b ∈ missing' → b ∈ missing ∨ (edge a b ∧ a ∈ dom (cd_events db))).
Proof.
  intros Hc Hp. unfold fetch_auth_row. destruct (state_event db a) as [ty|] eqn:Ea.
  2:{ split_and!; [done| |done|by left]. intros e b He Heb. destruct (Hp e b He Heb) as [?|[?|[Hb|?]]]; [by left|by right; left| |by do 3 right].
      destruct (decide (b = a)) as [->|]; [by do 3 right|]. right. right. left. set_solver. }
  assert (Hev : a ∈ dom (cd_events db)) by (unfold state_event in Ea; apply bind_Some in Ea as (r & Hr & _); by eapply elem_of_dom_2).
  destruct Hc as [C1 C2 C3 C4 C5 C6]. destruct (chains !! a) as [t|] eqn:Et.
  - split_and!; [|  |done|by left].
    + split; simpl; [done|done|rewrite !dom_insert_L, C3; set_solver|by apply insert_subseteq_l|done|done].
    + intros e b He Heb. simpl in *. rewrite dom_insert_L. destruct (Hp e b He Heb) as [?|[?|[Hb|?]]]; [by left|right; left; set_solver| |by do 3 right].
      destruct (decide (b = a)) as [->|]; right; [left|right; left]; set_solver.
  - split_and!; [| |set_solver|].
    + split; simpl; [by rewrite dom_insert_L, C1| |rewrite dom_insert_L, C3; set_solver|done| |set_solver].
      * intros x l [[<- <-]|[_ ?]]%lookup_insert_Some; [done|by apply C2].
      * intros x [->%elem_of_singleton|?]%elem_of_union; [by rewrite Ea|by apply C5].
    + intros e b He Heb. simpl in *. apply elem_of_union in He as [->%elem_of_singleton|He].
      * destruct (decide (b ∈ dom (<[a:=ty]> (ca_types c)))) as [Hb|Hb]; [rewrite dom_insert_L, C3 in Hb; clear -Hb; set_solver|]. right. right. left.
        apply elem_of_union_r, elem_of_union_r, elem_of_list_to_set, list_elem_of_filter. split; [done|by apply elem_of_auth_ids].
      * destruct (Hp e b He Heb) as [?|[?|[Hb|?]]]; [left; set_solver|by right; left| |by do 3 right]. destruct (decide (b = a)) as [->|]; [left; set_solver|right; right; left; set_solver].
    + intros b [?|[_ Hb]%elem_of_list_to_set%list_elem_of_filter]%elem_of_union; [by left|right]. split; [by apply elem_of_auth_ids|done].
Qed.

Lemma fetch_round_ok (Q : list string) c missing :
  calc_inv c → pending c (list_to_set Q ∪ missing) →
  let '(c', missing') := foldl (fetch_auth_row db) (c, missing) Q in
  calc_inv c' ∧ pending c' missing' ∧ ∀ b, b ∈ missing' → b ∈ missing ∨ ∃ a, a ∈ Q ∧ edge a b ∧ a ∈ dom (cd_events db).
Proof.
  revert c missing. induction Q as [|a Q IH]; intros c missing Hc Hp; cbn [foldl].
  { split_and!; [done| |by left]. simpl in Hp. by rewrite (left_id_L ∅ (∪)) in Hp. }
  pose proof (fetch_row_ok c (list_to_set Q) missing a Hc) as Hrow. destruct (fetch_auth_row db (c, missing) a) as [c1 missing1]. destruct Hrow as (R1 & R2 & R3 & R4).
  { by replace ({[a]} ∪ list_to_set Q ∪ missing) with (list_to_set (a :: Q) ∪ missing) by done. }
  specialize (IH c1 missing1 R1 R2). destruct (foldl _ _ Q) as [c' missing']. destruct IH as (I1 & I2 & I3). split_and!; [done|done|].
  intros b [[?|[? ?]]%R4|(x & ? & ? & ?)]%I3; [by left|right; exists a; split; [by left|done]|right; exists x; split; [by right|done]].
Qed.

Lemma fetch_loop_ok fuel k c missing :
  calc_inv c → pending c missing → behind rank db k missing → (size (cd_events db) + 1 ≤ fuel + k)%nat →
  ∃ c', fetch_loop fuel db c missing = Ok c' ∧ calc_inv c' ∧ pending c' ∅.
Proof.
  revert k c missing. induction fuel as [|fuel IH]; intros k c missing Hc Hp Hb Hf; simpl; (case_bool_decide as Hm; [subst missing; exists c; by split_and!|]).
  - pose proof (behind_bound _ _ _ _ Hm Hb). lia.
  - pose proof (fetch_round_ok (set_iter missing) c ∅ Hc) as Hr. destruct (foldl _ _ _) as [c1 missing1]. destruct Hr as (R1 & R2 & R3).
    + assert (E : list_to_set (set_iter missing) = missing) by (apply set_eq; intros; by rewrite elem_of_list_to_set, elem_of_set_iter). by rewrite E, (right_id_L ∅ (∪)).
    + apply (IH (S k)); [done|done| |lia]. apply (behind_step rank db k missing missing1 Hix Hb). intros b [?|(a & ?%elem_of_set_iter & ?)]%R3; [set_solver|by exists a].
Qed.

Lemma collect_calc_ok : ∃ c, collect_calc rooms types auth_chain db = Ok c ∧ calc_inv c ∧ pending c ∅.
Proof. unfold collect_calc. apply (fetch_loop_ok _ 0); [apply calculate_rows_ok|apply missing_pending, calculate_rows_ok|apply behind_start|lia]. Qed.

(** ** What is left for later *)

Section discard.
Context (c : Calc) (Hc : calc_inv c).

Lemma calc_ranked n m : n ∈ dom (ca_auth c) → m ∈ dom (ca_auth c) → m ∈ default [] (ca_auth c !! n) → (rank m < rank n)%nat.
Proof. intros [l Hl]%elem_of_dom _. rewrite Hl. simpl. rewrite (cc_auth _ Hc n l Hl). intros Hm%elem_of_auth_ids. by apply (ix_rank _ _ Hix). Qed.

Abbreviation order := (sorted_topologically (dom (ca_auth c)) (ca_auth c)).

Lemma elem_of_order e : e ∈ order ↔ e ∈ ca_todo c.
Proof. rewrite <- (cc_dom _ Hc). apply (elem_of_sorted _ _ rank calc_ranked). Qed.

Lemma order_before l1 e l2 a : order = l1 ++ e :: l2 → edge e a → a ∈ ca_todo c → a ∈ l1.
Proof.
  intros Hl Hea Ha. assert (He : e ∈ ca_todo c) by (apply elem_of_order; rewrite Hl; set_solver). rewrite <- (cc_dom _ Hc) in He, Ha. apply (sorted_before _ _ rank calc_ranked l1 e l2 a Hl); [|done].
  apply elem_of_dom in He as [l El]. rewrite El. simpl. rewrite (cc_auth _ Hc e l El). by apply elem_of_auth_ids.
Qed.

(** [l] was visited. *)
Record discard_inv (l : list string) (todo : gset string) (waiting : gmap string (string * (string * string))) : Prop := {
  di_sub : todo ⊆ ca_todo c;
  di_rest e : e ∈ ca_todo c → e ∉ l → e ∈ todo;
  di_kept e a : e ∈ l → e ∈ todo → edge e a → a ∈ dom (ca_map c) ∨ a ∈ todo;
  di_gone e : e ∈ l → e ∉ todo → ∃ a, edge e a ∧ (a ∉ dom (ca_map c)) ∧ a ∉ todo;
  di_old : cd_to_calculate db ⊆ waiting;
  di_waiting e : is_Some (waiting !! e) → is_Some (cd_to_calculate db !! e) ∨ (e ∈ dom rooms ∧ e ∈ l ∧ e ∉ todo);
  di_later e r : e ∈ l → e ∉ todo → rooms !! e = Some r → r ≠ "" → is_Some (waiting !! e)
}.

Lemma discard_step_ok l1 e l2 todo waiting :
  order = l1 ++ e :: l2 → discard_inv l1 todo waiting →
  ∃ st, discard_step rooms c (todo, waiting) e = Ok st ∧ discard_inv (l1 ++ [e]) st.1 st.2.
Proof.
  intros Hl [D1 D2 D3 D4 D5 D6 D7]. assert (He : e ∈ ca_todo c) by (apply elem_of_order; rewrite Hl; set_solver).
  assert (Hel : e ∉ l1). { pose proof (NoDup_sorted _ _ rank calc_ranked) as Hnd. rewrite Hl in Hnd. apply NoDup_app in Hnd as (_ & Hd & _). intros Hin. apply (Hd e Hin). by left. }
  assert (Hauths : ca_auth c !! e = Some (auth_ids db e)) by (pose proof He as He'; rewrite <- (cc_dom _ Hc) in He'; apply elem_of_dom in He' as [k Hk]; rewrite Hk; f_equal; by apply (cc_auth _ Hc)).
  unfold discard_step. rewrite (getitem_some _ _ _ Hauths). cbn [mbind result_bind].
  destruct (existsb _ _) eqn:Ex.
  2:{ exists (todo, waiting). split; [done|]. split; simpl; [done|set_solver| |set_solver|done|intros x [?|(? & ? & ?)]%D6; [by left|right; set_solver]|set_solver].
      intros x a [Hx| ->%list_elem_of_singleton]%elem_of_app Hxt Hxa; [by eapply D3|]. destruct (decide (a ∈ dom (ca_map c))) as [?|Hn1]; [by left|]. destruct (decide (a ∈ todo)) as [?|Hn2]; [by right|].
      apply not_true_iff_false in Ex. destruct Ex. apply existsb_exists. exists a. split; [apply list_elem_of_In; by apply elem_of_auth_ids|]. by rewrite !bool_decide_false. }
  apply existsb_exists in Ex as (a & Ha%list_elem_of_In%elem_of_auth_ids & [Hn1%negb_true_iff%bool_decide_eq_false Hn2%negb_true_iff%bool_decide_eq_false]%andb_true_iff).
  assert (Hrest : ∀ w, cd_to_calculate db ⊆ w → (∀ x, is_Some (w !! x) → is_Some (waiting !! x) ∨ (x = e ∧ e ∈ dom rooms)) → (∀ x, is_Some (waiting !! x) → is_Some (w !! x)) →
    (∀ r, rooms !! e = Some r → r ≠ "" → is_Some (w !! e)) → discard_inv (l1 ++ [e]) (todo ∖ {[e]}) w).
  { intros w W1 W2 W3 W4. split; [set_solver| | | |done| |].
    - intros x Hx Hn. apply elem_of_difference. split; [apply D2; set_solver|set_solver].
    - intros x b [Hx|Hx]%elem_of_app Hxt Hxb; [|set_solver]. assert (Hxt' : x ∈ todo) by set_solver. destruct (D3 x b Hx Hxt' Hxb) as [?|Hb]; [by left|right]. apply elem_of_difference. split; [done|].
      intros ->%elem_of_singleton. apply Hel. pose proof Hx as Hx'. apply list_elem_of_split in Hx' as (k1 & k2 & ->). rewrite <- app_assoc in Hl. simpl in Hl.
      pose proof (order_before k1 x _ e Hl Hxb He). set_solver.
    - intros x [Hx| ->%list_elem_of_singleton]%elem_of_app Hxt; [|exists a; split_and!; [done|done|set_solver]].
      assert (Hxt' : x ∉ todo) by (intros ?; apply Hxt, elem_of_difference; split; [done|]; intros ->%elem_of_singleton; done). destruct (D4 x Hx Hxt') as (b & ? & ? & ?). exists b. split_and!; [done|done|set_solver].
    - intros x [Hx|[-> ?]]%W2; [|right; split_and!; [done|set_solver|set_solver]]. destruct (D6 x Hx) as [?|(? & ? & ?)]; [by left|right; split_and!; [done|set_solver|set_solver]].
    - intros x r [Hx| ->%list_elem_of_singleton]%elem_of_app Hxt Hr Hne; [|by eapply W4]. apply W3. apply (D7 x r); [done| |done|done].
      intros ?. apply Hxt, elem_of_difference. split; [done|]. by intros ->%elem_of_singleton. }
  destruct (rooms !! e) as [r|] eqn:Er; [|exists (todo ∖ {[e]}, waiting); split; [done|apply Hrest; auto]; intros ? [=]].
  case_bool_decide as Hr0; [exists (todo ∖ {[e]}, waiting); split; [done|apply Hrest; auto]; congruence|].
  assert (Hty : is_Some (ca_types c !! e)) by (apply elem_of_dom; rewrite (cc_types _ Hc); set_solver). destruct Hty as [ty Hty]. rewrite (getitem_some _ _ _ Hty). cbn [mbind result_bind].
  assert (Hdr : e ∈ dom rooms) by (by eapply elem_of_dom_2).
  assert (Hw : waiting !! e = None). { apply eq_None_not_Some. intros [[? Hs]|(_ & ? & _)]%D6; [|done]. destruct (Hnew e Hdr) as (_ & E & _). congruence. }
  rewrite bool_decide_false by (by apply not_elem_of_dom). cbn [raise_if mbind result_bind]. eexists. split; [done|]. apply Hrest; simpl.
  - etransitivity; [done|]. by apply insert_subseteq.
  - intros x. destruct (decide (x = e)) as [->|]; [by right|]. rewrite lookup_insert_ne by done. by left.
  - intros x Hx. destruct (decide (x = e)) as [->|]; [rewrite lookup_insert_eq; by eexists|]. by rewrite lookup_insert_ne.
  - intros. rewrite lookup_insert_eq. by eexists.
Qed.

Lemma discard_ok :
  ∃ todo waiting, fold_res (discard_step rooms c) order (ca_todo c, cd_to_calculate db) = Ok (todo, waiting) ∧ discard_inv order todo waiting.
Proof.
  loop_prefix (λ (l : list string) st, discard_inv l st.1 st.2) as ([todo waiting] & -> & Hd); [| |by exists todo, waiting].
  - split; simpl; [done|done|by intros ? ? ?%not_elem_of_nil|by intros ? ?%not_elem_of_nil|done|by left|by intros ? ? ?%not_elem_of_nil].
  - intros l1 e l2 [todo waiting] Hl Hd. by eapply discard_step_ok.
Qed.

(** An event that is left for later has an ancestor that is not known. *)
Lemma gone_unknown todo waiting e :
  pending c ∅ → discard_inv order todo waiting → e ∈ ca_todo c → e ∉ todo → ∃ x, tc edge e x ∧ state_event db x = None.
Proof.
  intros Hp Hd. remember (rank e) as n eqn:En. revert e En. induction (lt_wf n) as [n _ IH]. intros e -> He Hn.
  destruct (di_gone _ _ _ Hd e) as (a & Hea & Ha1 & Ha2); [by apply elem_of_order|done|]. destruct (Hp e a He Hea) as [Ha|[?|[?|Ha]]]; [|done|set_solver|exists a; split; [by apply tc_once|done]].
  pose proof (ix_rank _ _ Hix e a Hea). destruct (IH (rank a) ltac:(lia) a eq_refl Ha Ha2) as (x & Hax & Hx). exists x. split; [by eapply tc_l|done].
Qed.
End discard.

(** ** The whole transaction *)

Lemma insert_chains_ok (N cs : gmap string (Z * Z)) :
  (∀ e, e ∈ dom N → cs !! e = None) → (∀ e e' t, N !! e = Some t → N !! e' = Some t → e = e') → (∀ e x t, N !! e = Some t → cs !! x ≠ Some t) →
  fold_res insert_chain (dict_items N) cs = Ok (N ∪ cs).
Proof.
  intros Hdis Huniq Hfree. assert (Hit : ∀ e t, (e, t) ∈ dict_items N ↔ N !! e = Some t) by (intros; by rewrite dict_items_perm, elem_of_map_to_list).
  assert (Hnd : NoDup (dict_items N).*1) by (rewrite dict_items_perm; apply NoDup_fst_map_to_list).
  loop_prefix (λ (l : list (string * (Z * Z))) (m : gmap string (Z * Z)), ∀ e t, m !! e = Some t ↔ (e, t) ∈ l ∨ cs !! e = Some t) as (m & -> & Hm).
  - intros e t. rewrite elem_of_nil. tauto.
  - intros l1 [e t] l2 m Hl Hm. unfold insert_chain. cbn [fst snd]. assert (He : N !! e = Some t) by (apply Hit; rewrite Hl; set_solver).
    assert (Hf : e ∉ l1.*1) by (rewrite Hl, fmap_app in Hnd; apply NoDup_app in Hnd as (_ & Hd & _); intros ?; apply (Hd e); [done|by left]).
    assert (Hl1 : ∀ x t', (x, t') ∈ l1 → N !! x = Some t' ∧ x ≠ e).
    { intros x t' Hx. split; [apply Hit; rewrite Hl; set_solver|]. intros ->. apply Hf, list_elem_of_fmap. by eexists (_, _). }
    assert (Hcs : cs !! e = None) by (apply Hdis; by eapply elem_of_dom_2).
    rewrite bool_decide_false by (intros [t' [Hx%Hl1|?]%Hm]%elem_of_dom; naive_solver). rewrite bool_decide_false.
    2:{ intros (x & [Hx%Hl1|Hx]%Hm)%elem_of_map_img; [destruct Hx as [Hx Hne]; by apply Hne, (Huniq x e t)|by apply (Hfree e x t)]. }
    eexists. split; [done|]. intros x t'. rewrite lookup_insert_Some, Hm, elem_of_app, list_elem_of_singleton. split; [naive_solver|].
    intros [[Hx|[= -> ->]]|Hx]; [right; split; [by destruct (Hl1 x t' Hx)|by left]|by left|]. right. split; [congruence|by right].
  - f_equal. apply map_eq. intros e. apply option_eq. intros t. rewrite Hm, Hit, lookup_union_Some_raw. split.
    + intros [?|Ht]; [by left|right]. split; [|done]. apply not_elem_of_dom. intros ?%Hdis. congruence.
    + tauto.
Qed.

Abbreviation with_chains cs seq := (MkChainDb (cd_events db) (cd_event_auth db) cs (cd_links db) (cd_to_calculate db) seq (cd_index_rooms db)).

(** The new positions among the old. *)
Lemma new_chains_ok (N : gmap string (Z * Z)) seq :
  cd_seq db ≤ seq → (∀ e, e ∈ dom N → chains !! e = None ∧ is_Some (state_event db e)) → (∀ e a, e ∈ dom N → edge e a → a ∈ dom N ∨ is_Some (chains !! a)) →
  (∀ e t, N !! e = Some t → 1 ≤ t.2 ∧ t.1 ≤ seq) → (∀ e e' t, N !! e = Some t → N !! e' = Some t → e = e') → (∀ e x t, N !! e = Some t → chains !! x ≠ Some t) →
  (∀ e t, N !! e = Some t → 1 < t.2 → ∃ p, (N !! p = Some (t.1, t.2 - 1) ∨ chains !! p = Some (t.1, t.2 - 1)) ∧ edge e p) →
  chains_ok rank (with_chains (N ∪ chains) seq).
Proof.
  intros Hseq HN Hcl Hrange Huniq Hfree Hprev. assert (Hin : ∀ e t, (N ∪ chains) !! e = Some t ↔ N !! e = Some t ∨ chains !! e = Some t).
  { intros e t. rewrite lookup_union_Some_raw. split; [tauto|]. intros [?|Ht]; [by left|right]. split; [|done]. apply not_elem_of_dom. intros [E _]%HN. congruence. }
  split; simpl.
  - apply (ix_rank _ _ Hix).
  - apply (ix_nodup _ _ Hix).
  - apply (ix_auth _ _ Hix).
  - intros e [t [Ht|Ht]%Hin]; [apply (HN e); by eapply elem_of_dom_2|]. apply (ix_state _ _ Hix). by eexists.
  - intros e a [t [Ht|Ht]%Hin] Hea.
    + destruct (Hcl e a (elem_of_dom_2 _ _ _ Ht) Hea) as [[t' Ht']%elem_of_dom|[t' Ht']]; exists t'; apply Hin; auto.
    + destruct (ix_closed _ _ Hix e a ltac:(by eexists) Hea) as [t' Ht']. exists t'. apply Hin. auto.
  - intros e e' t [Ht|Ht]%Hin [Ht'|Ht']%Hin; [by eapply Huniq|by destruct (Hfree e e' t)|by destruct (Hfree e' e t)|by eapply (ix_unique _ _ Hix)].
  - intros e t [Ht|Ht]%Hin; [by eapply Hrange|]. destruct (ix_range _ _ Hix e t Ht). split; [done|lia].
  - intros e t [Ht|Ht]%Hin Hs; [destruct (Hprev e t Ht Hs) as (p & Hp & ?)|destruct (ix_prev _ _ Hix e t Ht Hs) as (p & Hp & ?)]; exists p; (split; [|done]); apply Hin; auto.
Qed.

(** The positions and the links together. *)
Lemma new_index_ok (N : gmap string (Z * Z)) seq adds waiting :
  let db1 := with_chains (N ∪ chains) seq in
  chains_ok rank db1 → (∀ e, e ∈ dom N → chains !! e = None) → (∀ e x t, N !! e = Some t → chains !! x ≠ Some t) →
  (∀ l, l ∈ adds → l.1.1 ≠ l.2.1 ∧ ∃ x y, cd_chains db1 !! x = Some l.1 ∧ cd_chains db1 !! y = Some l.2 ∧ tc edge x y) →
  (∀ l l', l ∈ adds → l' ∈ adds → l.1 = l'.1 → l.2.1 = l'.2.1 → l = l') →
  (∀ l, l ∈ adds → ∃ e, e ∈ dom N ∧ cd_chains db1 !! e = Some l.1) →
  (∀ x tx b tb, x ∈ dom N → cd_chains db1 !! x = Some tx → cd_chains db1 !! b = Some tb → tx.1 ≠ tb.1 → tc edge x b → linked (cd_links db ++ adds) tx tb) →
  (∀ e, is_Some (waiting !! e) → cd_chains db1 !! e = None ∧ is_Some (state_event db e)) →
  index_ok rank (MkChainDb (cd_events db) (cd_event_auth db) (N ∪ chains) (cd_links db ++ adds) waiting seq (cd_index_rooms db)).
Proof.
  intros db1 Hok HN Hfree A1 A2 A3 A4 Hw. assert (Hold : ∀ x t, chains !! x = Some t → cd_chains db1 !! x = Some t).
  { intros x t Hx. apply lookup_union_Some_raw. right. split; [|done]. apply not_elem_of_dom. intros ?%HN. congruence. }
  assert (Hadd : ∀ l, l ∈ cd_links db ++ adds → l.1.1 ≠ l.2.1 ∧ ∃ x y, cd_chains db1 !! x = Some l.1 ∧ cd_chains db1 !! y = Some l.2 ∧ tc edge x y).
  { intros l [Hl|Hl]%elem_of_app; [|by apply A1]. destruct (ix_links _ _ Hix l Hl) as (Hne & [o Ho] & [t Ht]). split; [done|]. exists o, t. split_and!; [by apply Hold..|]. by apply (link_reaches rank db Hix l). }
  assert (Hmix : ∀ l l', l ∈ cd_links db → l' ∈ adds → l.1 ≠ l'.1).
  { intros l l' Hl Hl' E. destruct (ix_links _ _ Hix l Hl) as (_ & [o Ho] & _), (A3 l' Hl') as (e & He & Ht). pose proof (HN e He) as He0. apply lookup_union_Some_raw in Ht as [Ht|[_ Ht]]; [|congruence].
    apply (Hfree e o l.1); [by rewrite E|done]. }
  split; [by destruct Hok; split|..].
  - intros l Hl. destruct (Hadd l Hl) as (Hne & x & y & Hx & Hy & _). split_and!; [done|by exists x|by exists y].
  - intros l l' [Hl|Hl]%elem_of_app [Hl'|Hl']%elem_of_app E1 E2; [by apply (ix_target _ _ Hix)|by destruct (Hmix l l')|by destruct (Hmix l' l)|by apply A2].
  - intros a b ta tb Ha Hb Hne. cbn [cd_chains cd_links] in *. split.
    + intros Ht. destruct (decide (a ∈ dom N)) as [Hn|Hn]; [by apply (A4 a ta b tb)|]. apply lookup_union_Some_raw in Ha as [Ha|[_ Ha]]; [by apply elem_of_dom_2 in Ha|].
      assert (is_Some (chains !! b)) as [t Htb] by (apply (reach_indexed rank db Hix a); [by eexists|by apply tc_rtc]). pose proof (Hold b t Htb) as E. unfold db1 in E. simpl in E. rewrite Hb in E. injection E as <-.
      destruct (proj1 (ix_cover _ _ Hix a b ta tb Ha Htb Hne) Ht) as (s1 & s2 & Hin & Hs). exists s1, s2. split; [|done]. apply elem_of_app. by left.
    + intros (s1 & s2 & Hin & Hs1 & Hs2). destruct (Hadd _ Hin) as (_ & x & y & Hx & Hy & Ht). destruct ta as [ca sa], tb as [cb sb]. simpl in *.
      eapply tc_rtc_l; [by eapply (same_chain_rtc rank db1 Hok a x)|]. eapply tc_rtc_r; [exact Ht|]. by eapply (same_chain_rtc rank db1 Hok y b).
  - exact Hw.
Qed.

Lemma add_chain_cover_index_ok :
  ∃ db', _add_chain_cover_index rooms types auth_chain db = Ok db' ∧ index_ok rank db' ∧
    cd_events db' = cd_events db ∧ cd_event_auth db' = cd_event_auth db ∧ cd_index_rooms db' = cd_index_rooms db ∧ chains ⊆ cd_chains db' ∧
    ∀ e, e ∈ dom rooms → is_Some (cd_chains db' !! e) ∨
      (∃ x, tc edge e x ∧ state_event db x = None) ∧ ∀ r, rooms !! e = Some r → r ≠ "" → is_Some (cd_to_calculate db' !! e).
Proof.
  unfold _add_chain_cover_index. destruct collect_calc_ok as (c & -> & Hc & Hp). cbn [mbind result_bind].
  destruct (discard_ok c Hc) as (todo & waiting & -> & Hd). cbn [mbind result_bind].
  assert (Hcalc : ∀ e, e ∈ todo → chains !! e = None ∧ is_Some (state_event db e)) by (intros e He; apply (cc_todo _ Hc), (di_sub _ _ _ _ Hd), He).
  assert (Hwait : ∀ e, is_Some (waiting !! e) → chains !! e = None ∧ is_Some (state_event db e)) by (intros e [?|(He & _)]%(di_waiting _ _ _ _ Hd); [by apply (ix_todo _ _ Hix)|by destruct (Hnew e He) as (? & _ & ?)]).
  assert (Hleft : ∀ e, e ∈ dom rooms → e ∉ todo → (∃ x, tc edge e x ∧ state_event db x = None) ∧ ∀ r, rooms !! e = Some r → r ≠ "" → is_Some (waiting !! e)).
  { intros e He Hn. apply (cc_new _ Hc) in He as Hct. split; [by eapply gone_unknown|]. intros r. apply (di_later _ _ _ _ Hd); [by apply elem_of_order|done]. }
  case_bool_decide as Ht.
  { eexists. split; [done|]. split_and!; [|done..|]; [|intros e He; right; apply Hleft; [done|set_solver]]. split; simpl; try by destruct Hix. by destruct Hix as [[]]; split. }
  assert (Hkept : ∀ e a, e ∈ todo → edge e a → a ∈ todo ∨ is_Some (ca_map c !! a)).
  { intros e a He Hea. destruct (di_kept _ _ _ _ Hd e a) as [[? ?]%elem_of_dom|?]; [by apply (elem_of_order c Hc), (di_sub _ _ _ _ Hd)|done|done|right; by eexists|by left]. }
  assert (Hauths : ∀ e, e ∈ todo → ca_auth c !! e = Some (auth_ids db e)).
  { intros e He%(di_sub _ _ _ _ Hd). rewrite <- (cc_dom _ Hc) in He. apply elem_of_dom in He as [l Hl]. rewrite Hl. f_equal. by apply (cc_auth _ Hc). }
  destruct (allocate_chain_ids_ok rank db Hix (ca_types c) (ca_auth c) (ca_map c) todo (cc_map _ Hc) Hauths Hkept) as (N & seq & -> & N1 & N2 & N3 & N4 & N5 & N6); [apply Hcalc|]. cbn [mbind result_bind].
  assert (HN : ∀ e, e ∈ dom N → chains !! e = None) by (rewrite N1; apply Hcalc). rewrite (insert_chains_ok N chains HN N4 N5). cbn [mbind result_bind].
  assert (Hold : ∀ x t, chains !! x = Some t → (N ∪ chains) !! x = Some t) by (intros x t Hx; apply lookup_union_Some_raw; right; split; [|done]; apply not_elem_of_dom; intros ?%HN; congruence).
  assert (Hok : chains_ok rank (with_chains (N ∪ chains) seq)).
  { apply new_chains_ok; [done|by rewrite N1| |done..]. rewrite N1. intros e a He Hea. destruct (Hkept e a He Hea) as [?|[t Hta]]; [by left|right]. exists t. by apply (lookup_weaken _ _ _ _ Hta), (cc_map _ Hc). }
  destruct (calculate_links_ok rank _ Hok (cd_links db) todo (N ∪ ca_map c)) with (auth_chain := ca_auth c) as (adds & -> & A1 & A2 & A3 & A4).
  - apply map_union_mono_l, (cc_map _ Hc).
  - exact Hauths.
  - intros e a He Hea. apply lookup_union_is_Some. destruct (Hkept e a He Hea) as [Ha|?]; [left; apply elem_of_dom; by rewrite N1|by right].
  - intros e He. apply lookup_union_is_Some. left. apply elem_of_dom. by rewrite N1.
  - intros l Hl. destruct (ix_links _ _ Hix l Hl) as (Hne & [o Ho] & [t Htl]). split; [done|]. exists o, t. split_and!; [by apply Hold..|]. by apply (link_reaches rank db Hix l).
  - apply (ix_target _ _ Hix).
  - intros x tx b tb Hx Htx Htb Hne Hr. simpl in *. rewrite <- N1 in Hx. apply lookup_union_Some_raw in Htx as [Htx|[_ Htx]]; [by apply elem_of_dom_2 in Htx|].
    assert (is_Some (chains !! b)) as [t Hb] by (apply (reach_indexed rank db Hix x); [by eexists|by apply tc_rtc]). rewrite (Hold b t Hb) in Htb. injection Htb as <-. by apply (ix_cover _ _ Hix x b tx t).
  - cbn [mbind result_bind]. eexists. split; [done|]. split_and!; [|done..| |].
    + apply new_index_ok; [done|done|done|done|done| | |]; [by rewrite N1..|]. intros e [w [Hw Hn]%map_lookup_filter_Some]. simpl in *. destruct (Hwait e ltac:(by eexists)) as [He1 He2]. split; [|done].
      apply lookup_union_None. split; [by apply not_elem_of_dom|done].
    + apply map_subseteq_spec. exact Hold.
    + intros e He. simpl. destruct (decide (e ∈ todo)) as [Hin|Hn].
      * left. apply lookup_union_is_Some. left. apply elem_of_dom. by rewrite N1.
      * right. destruct (Hleft e He Hn) as [? Hl]. split; [done|]. intros r Hr Hne. destruct (Hl r Hr Hne) as [w Hw]. exists w. apply map_lookup_filter_Some. split; [done|]. simpl. by rewrite N1.
Qed.
End index.

(** ** Storing events *)

(** Rows of other events do not matter to the index. *)
Lemma index_ok_rows rank db events auths :
  index_ok rank db →
  let db0 := MkChainDb events auths (cd_chains db) (cd_links db) (cd_to_calculate db) (cd_seq db) (cd_index_rooms db) in
  (∀ e, is_Some (cd_events db !! e) → events !! e = cd_events db !! e) →
  (∀ e, is_Some (state_event db e) → auth_ids db0 e = auth_ids db e) →
  (∀ e a, auth_edge db0 e a → (rank a < rank e)%nat) → (∀ e, NoDup (auth_ids db0 e)) → (∀ e a, auth_edge db0 e a → is_Some (state_event db0 e)) →
  index_ok rank db0.
Proof.
  intros Hix db0 Hev Hids Hrank Hnd Hau.
  assert (Hst : ∀ e, is_Some (state_event db e) → state_event db0 e = state_event db e).
  { intros e [ty He]. unfold state_event in *. simpl. rewrite Hev; [done|]. apply bind_Some in He as (r & Hr & _). by eexists. }
  assert (Hedge : ∀ e a, is_Some (cd_chains db !! e) → auth_edge db0 e a ↔ auth_edge db e a).
  { intros e a He. rewrite <- !elem_of_auth_ids. rewrite Hids; [done|]. by apply (ix_state _ _ Hix). }
  assert (Htc : ∀ a b, is_Some (cd_chains db !! a) → tc (auth_edge db0) a b ↔ tc (auth_edge db) a b).
  { intros a b Ha. split; intros Ht; induction Ht as [a b He|a c b He _ IH].
    - apply tc_once. by apply Hedge.
    - apply Hedge in He; [|done]. eapply tc_l; [done|]. apply IH. by eapply (ix_closed _ _ Hix).
    - apply tc_once. by apply Hedge.
    - eapply tc_l; [by apply Hedge|]. apply IH. by eapply (ix_closed _ _ Hix). }
  split; [split|..]; simpl; [done|done|done| | |apply (ix_unique _ _ Hix)|apply (ix_range _ _ Hix)| |apply (ix_links _ _ Hix)|apply (ix_target _ _ Hix)| |].
  - intros e He. rewrite Hst; by apply (ix_state _ _ Hix).
  - intros e a He Hea%Hedge; [|done]. by eapply (ix_closed _ _ Hix).
  - intros e t He Hs. destruct (ix_prev _ _ Hix e t He Hs) as (p & Hp & Hep). exists p. split; [done|]. apply Hedge; [by eexists|done].
  - intros a b ta tb Ha Hb Hne. rewrite Htc by (by eexists). by apply (ix_cover _ _ Hix).
  - intros e He. destruct (ix_todo _ _ Hix e He). split; [done|]. by rewrite Hst.
Qed.

Abbreviation auth_rows l := (e ← filter (λ e, Events.is_state e = true) l; (λ a, (event_id e, a)) <$> auth_event_ids e).

Lemma auth_rows_other l x : x ∉ event_id <$> l → (filter (λ r : string * string, r.1 = x) (auth_rows l)).*2 = [].
Proof.
  intros Hx. enough (E : filter (λ r : string * string, r.1 = x) (auth_rows l) = []) by by rewrite E. apply filter_drops. intros [y a].
  intros (e & (a' & [= -> ->] & _)%list_elem_of_fmap & [_ He]%list_elem_of_filter)%list_elem_of_bind <-. apply Hx, list_elem_of_fmap. by exists e.
Qed.

Lemma auth_rows_of l e :
  NoDup (event_id <$> l) → e ∈ l → (filter (λ r : string * string, r.1 = event_id e) (auth_rows l)).*2 = if Events.is_state e then auth_event_ids e else [].
Proof.
  intros Hnd He. apply list_elem_of_split in He as (l1 & l2 & ->). rewrite fmap_app, fmap_cons in Hnd. apply NoDup_app in Hnd as (_ & Hd & [Hn _]%NoDup_cons).
  rewrite filter_app, bind_app, filter_app, fmap_app. rewrite (auth_rows_other l1); [|intros ?; apply (Hd (event_id e)); [done|by left]]. simpl.
  rewrite filter_cons. case_decide as Hs.
  - rewrite Hs, bind_cons, filter_app, fmap_app, (auth_rows_other l2) by done. rewrite app_nil_r. rewrite filter_keeps.
    + rewrite <- list_fmap_compose. apply list_fmap_id.
    + by intros r (a & -> & _)%list_elem_of_fmap.
  - rewrite (auth_rows_other l2) by done. destruct (Events.is_state e); done.
Qed.

(** A dict filled from a list of events. *)
Lemma foldl_insert_events {A} (f : Event → A) l (m : gmap string A) x v :
  NoDup (event_id <$> l) → foldl (λ m e, <[event_id e := f e]> m) m l !! x = Some v ↔ (∃ e, e ∈ l ∧ event_id e = x ∧ v = f e) ∨ ((x ∉ event_id <$> l) ∧ m !! x = Some v).
Proof.
  revert m. induction l as [|e l IH]; intros m Hnd; simpl; [setoid_rewrite elem_of_nil; naive_solver|]. apply NoDup_cons in Hnd as [He Hnd]. rewrite (IH _ Hnd). setoid_rewrite elem_of_cons. split.
  - intros [(e' & ? & ? & ?)|[Hx [[<- <-]|[Hne Hm]]%lookup_insert_Some]]; [left; exists e'; auto|left; exists e; auto|right; naive_solver].
  - intros [(e' & [->|Hin] & Hx & Hv)|[Hx Hm]]; [right|left; by exists e'|right].
    + subst. split; [done|]. by rewrite lookup_insert_eq.
    + split; [naive_solver|]. rewrite lookup_insert_ne by naive_solver. done.
Qed.

(** The events of a batch are new, their auth events are older, and none is named twice. *)
Record new_events (rank : string → nat) (db : ChainDb) (events : list Event) : Prop := {
  ne_ids : NoDup (event_id <$> events);
  ne_fresh e : e ∈ events → cd_events db !! event_id e = None;
  ne_auth e : e ∈ events → NoDup (auth_event_ids e);
  ne_rank e a : e ∈ events → a ∈ auth_event_ids e → (rank a < rank (event_id e))%nat
}.

Section store.
Context `{IterOrderOk} (rank : string → nat) (db : ChainDb) (Hix : index_ok rank db) (events : list Event) (Hnew : new_events rank db events).

Abbreviation event_rows := (foldl (λ m e, <[event_id e := MkEventRow (type e) (get_state_key e) (depth e)]> m) (cd_events db) events).
Abbreviation stored := (MkChainDb event_rows (cd_event_auth db) (cd_chains db) (cd_links db) (cd_to_calculate db) (cd_seq db) (cd_index_rooms db)).
Abbreviation db0 := (MkChainDb event_rows (cd_event_auth db ++ auth_rows events) (cd_chains db) (cd_links db) (cd_to_calculate db) (cd_seq db) (cd_index_rooms db)).

Lemma store_event_rows_ok : store_event_rows events db = Ok stored.
Proof.
  unfold store_event_rows. pose proof (ne_fresh _ _ _ Hnew) as Hfresh. pose proof (ne_ids _ _ _ Hnew) as Hnd. clear Hnew.
  enough (E : fold_res (λ rows e, raise_if (bool_decide (event_id e ∈ dom rows)) IntegrityError ;; Ok (<[event_id e := MkEventRow (type e) (get_state_key e) (depth e)]> rows)) events (cd_events db) = Ok event_rows) by by rewrite E.
  revert Hfresh. generalize (cd_events db). induction events as [|e l IH]; intros m Hf; [done|]. cbn [fold_res]. apply NoDup_cons in Hnd as [He Hnd].
  rewrite bool_decide_false by (apply not_elem_of_dom, Hf; by left). cbn [raise_if mbind result_bind]. apply (IH Hnd). intros e' He'. rewrite lookup_insert_ne; [apply Hf; by right|].
  intros E. apply He. rewrite E. apply list_elem_of_fmap. by exists e'.
Qed.

Lemma event_row x r : event_rows !! x = Some r ↔ (∃ e, e ∈ events ∧ event_id e = x ∧ r = MkEventRow (type e) (get_state_key e) (depth e)) ∨ cd_events db !! x = Some r.
Proof.
  rewrite foldl_insert_events by apply (ne_ids _ _ _ Hnew). split; [tauto|]. intros [?|Hr]; [by left|]. right. split; [|done].
  intros (e & -> & He)%list_elem_of_fmap. rewrite (ne_fresh _ _ _ Hnew e He) in Hr. done.
Qed.

Lemma new_auth_ids e : e ∈ events → auth_ids db0 (event_id e) = if Events.is_state e then auth_event_ids e else [].
Proof.
  intros He. unfold auth_ids at 1. cbn [cd_event_auth]. rewrite filter_app, fmap_app, (auth_rows_of events e (ne_ids _ _ _ Hnew) He). enough (E : auth_ids db (event_id e) = []) by (unfold auth_ids in E; by rewrite E).
  destruct (auth_ids db (event_id e)) as [|a l] eqn:E; [done|]. assert (Ha : a ∈ auth_ids db (event_id e)) by (rewrite E; by left). apply elem_of_auth_ids, (ix_auth _ _ Hix) in Ha as [ty Hty].
  unfold state_event in Hty. by rewrite (ne_fresh _ _ _ Hnew e He) in Hty.
Qed.

Lemma old_auth_ids x : x ∉ event_id <$> events → auth_ids db0 x = auth_ids db x.
Proof. intros Hx. unfold auth_ids. cbn [cd_event_auth]. by rewrite filter_app, fmap_app, auth_rows_other, app_nil_r. Qed.

Lemma new_state_event e : e ∈ events → Events.is_state e = true → is_Some (state_event db0 (event_id e)).
Proof.
  intros He Hs. unfold state_event. cbn [cd_events]. assert (Hr : event_rows !! event_id e = Some (MkEventRow (type e) (get_state_key e) (depth e))) by (apply event_row; left; by exists e).
  rewrite Hr. simpl. unfold Events.is_state in Hs. destruct (get_state_key e); [by eexists|done].
Qed.

Lemma stored_ok : index_ok rank db0.
Proof.
  assert (Hcase : ∀ x, (∃ e, e ∈ events ∧ x = event_id e) ∨ x ∉ event_id <$> events).
  { intros x. destruct (decide (x ∈ event_id <$> events)) as [(e & -> & He)%list_elem_of_fmap|?]; [left; by exists e|by right]. }
  assert (Hold : ∀ x, is_Some (cd_events db !! x) → x ∉ event_id <$> events) by (intros x [r Hr] (e & -> & He)%list_elem_of_fmap; by rewrite (ne_fresh _ _ _ Hnew e He) in Hr).
  assert (Hev : ∀ x, is_Some (cd_events db !! x) → event_rows !! x = cd_events db !! x) by (intros x [r Hr]; rewrite Hr; apply event_row; by right).
  assert (Hst : ∀ x, is_Some (state_event db x) → is_Some (cd_events db !! x)) by (intros x [ty Hx]; unfold state_event in Hx; apply bind_Some in Hx as (r & Hr & _); by eexists).
  apply index_ok_rows; [done|done| | | |].
  - intros x Hx. by apply old_auth_ids, Hold, Hst.
  - intros x a Ha%elem_of_auth_ids. destruct (Hcase x) as [(e & He & ->)|Hx].
    + rewrite new_auth_ids in Ha by done. destruct (Events.is_state e); [by apply (ne_rank _ _ _ Hnew)|by apply not_elem_of_nil in Ha].
    + rewrite old_auth_ids in Ha by done. apply elem_of_auth_ids in Ha. by apply (ix_rank _ _ Hix).
  - intros x. destruct (Hcase x) as [(e & He & ->)|Hx]; [rewrite new_auth_ids by done; destruct (Events.is_state e); [by apply (ne_auth _ _ _ Hnew)|constructor]|].
    rewrite old_auth_ids by done. apply (ix_nodup _ _ Hix).
  - intros x a Ha%elem_of_auth_ids. destruct (Hcase x) as [(e & He & ->)|Hx].
    + rewrite new_auth_ids in Ha by done. destruct (Events.is_state e) eqn:Es; [by apply new_state_event|by apply not_elem_of_nil in Ha].
    + rewrite old_auth_ids in Ha by done. apply elem_of_auth_ids, (ix_auth _ _ Hix) in Ha. unfold state_event. cbn [cd_events]. rewrite Hev; [done|by apply Hst].
Qed.

Lemma persist_auth_chains_ok :
  ∃ db', persist_auth_chains events db = Ok db' ∧ index_ok rank db' ∧ cd_events db' = event_rows ∧ cd_event_auth db' = cd_event_auth db ++ auth_rows events ∧ cd_chains db ⊆ cd_chains db' ∧
    ∀ e, e ∈ events → Events.is_state e = true → room_id e ∈ cd_index_rooms db →
      (is_Some (cd_chains db' !! event_id e) ↔ ∀ x, rtc (auth_edge db') (event_id e) x → is_Some (state_event db' x)) ∧
      (cd_chains db' !! event_id e = None → room_id e ≠ "" → is_Some (cd_to_calculate db' !! event_id e)).
Proof.
  unfold persist_auth_chains. rewrite store_event_rows_ok. cbn [mbind result_bind]. unfold _persist_event_auth_chain_txn. cbn [cd_events cd_event_auth cd_chains cd_links cd_to_calculate cd_seq cd_index_rooms].
  destruct (existsb Events.is_state events) eqn:Ex; cbn [negb].
  2:{ assert (Hno : filter (λ e, Events.is_state e = true) events = []).
      { apply filter_drops. intros e He Hs. assert (existsb Events.is_state events = true); [|congruence]. apply existsb_exists. exists e. split; [by apply list_elem_of_In|done]. }
      exists stored. split; [done|]. pose proof stored_ok as Hok. rewrite Hno in Hok |- *. simpl in Hok |- *. rewrite app_nil_r in Hok |- *. split_and!; [done..|].
      intros e He Hs. exfalso. assert (Hin : e ∈ filter (λ e, Events.is_state e = true) events) by (by apply list_elem_of_filter). rewrite Hno in Hin. by apply not_elem_of_nil in Hin. }
  set (sts := filter (λ e, Events.is_state e = true ∧ room_id e ∈ cd_index_rooms db) events).
  assert (Hsts : ∀ e, e ∈ sts ↔ (Events.is_state e = true ∧ room_id e ∈ cd_index_rooms db) ∧ e ∈ events) by (intros e; unfold sts; by rewrite list_elem_of_filter).
  assert (Hnd : NoDup (event_id <$> sts)) by (eapply sublist_NoDup; [apply (ne_ids _ _ _ Hnew)|apply fmap_sublist, sublist_filter]).
  destruct sts as [|e0 sts0] eqn:E.
  { exists db0. split; [done|]. split_and!; [apply stored_ok|done..|]. intros e He Hs Hr. exfalso. apply (not_elem_of_nil e), Hsts. by split_and!. }
  rewrite <- E in *.
  loop_prefix (λ (l : list Event) (m : gmap string (string * string)), ∀ x, x ∈ dom m ↔ x ∈ event_id <$> l) as (types & -> & Hty).
  { intros x. rewrite dom_empty, elem_of_empty, elem_of_nil. done. }
  { intros l1 e l2 m Hl Hm. assert (Hs : Events.is_state e = true) by (apply Hsts; rewrite Hl; set_solver). unfold event_key, state_key. unfold Events.is_state, get_state_key in Hs.
    destruct (ev_state_key e) as [k|]; [|done]. cbn [mbind result_bind]. eexists. split; [done|]. intros x. rewrite dom_insert, fmap_app, elem_of_union, elem_of_app, Hm. set_solver. }
  cbn [mbind result_bind].
  set (rooms := foldl (λ m e, <[event_id e := room_id e]> m) ∅ sts). set (auths := foldl (λ m e, <[event_id e := auth_event_ids e]> m) ∅ sts).
  assert (Hdom : ∀ A (f : Event → A) x, x ∈ dom (foldl (λ (m : gmap string A) e, <[event_id e := f e]> m) ∅ sts) ↔ x ∈ event_id <$> sts).
  { intros A f x. rewrite elem_of_dom, list_elem_of_fmap. split.
    - intros [v [(e & He & <- & _)|[_ ?%lookup_empty_Some]]%foldl_insert_events]; [by exists e|done|done].
    - intros (e & -> & He). exists (f e). apply foldl_insert_events; [done|]. left. by exists e. }
  destruct (add_chain_cover_index_ok rank db0 stored_ok rooms types auths) as (db' & -> & Hok & D1 & D2 & D3 & D4 & D5).
  - apply set_eq. intros x. unfold auths, rooms. by rewrite !Hdom.
  - apply set_eq. intros x. unfold rooms. by rewrite Hty, Hdom.
  - intros x l [(e & He & <- & ->)|[_ ?%lookup_empty_Some]]%foldl_insert_events; [|done|done]. apply Hsts in He as [[Hs _] He]. by rewrite new_auth_ids, Hs.
  - intros x Hx. unfold rooms in Hx. apply Hdom, list_elem_of_fmap in Hx as (e & -> & [[Hs _] He]%Hsts). pose proof (ne_fresh _ _ _ Hnew e He) as Hf. cbn [cd_chains cd_to_calculate].
    assert (Hno : ¬ is_Some (state_event db (event_id e))) by (unfold state_event; rewrite Hf; by intros []).
    split_and!; [apply eq_None_not_Some; intros Hc; apply Hno; by apply (ix_state _ _ Hix)|apply eq_None_not_Some; intros Hc; apply Hno; by apply (ix_todo _ _ Hix)|by apply new_state_event].
  - exists db'. split; [done|]. split_and!; [done..|]. intros e He Hs Hr.
    assert (Hin : e ∈ sts) by (apply Hsts; by split_and!). assert (Hroom : rooms !! event_id e = Some (room_id e)) by (apply foldl_insert_events; [done|]; left; by exists e).
    assert (Hse : ∀ x, state_event db' x = state_event db0 x) by (intros; unfold state_event; by rewrite D1).
    destruct (D5 (event_id e) (elem_of_dom_2 _ _ _ Hroom)) as [Hc|[(x & Ht & Hx) Hw]].
    + split; [|intros Hn; rewrite Hn in Hc; by destruct Hc]. split; [|done]. intros _ x Hrx. apply (ix_state _ _ Hok). by eapply (reach_indexed rank db' Hok).
    + split; [|by intros _ ?; apply (Hw (room_id e))]. split.
      * intros Hc y Hy. apply (ix_state _ _ Hok). by eapply (reach_indexed rank db' Hok).
      * intros Hall. destruct (Hall x) as [ty Htx]; [unfold auth_edge; rewrite D2; by apply tc_rtc|]. rewrite Hse in Htx. congruence.
Qed.
End store.
