(* ===== verification/AuthChainWalk.v ===== *)
(** * Walking the auth graph

    The walk that is used where there is no index: the auth chain it returns is exact, and
    the difference it returns has everything of the difference and only events of the
    chains. *)

From S2P Require Import Prelude PyVal Constants RoomVersions Events TopoSort IterUtils StateGroups AuthChains AuthChainReads AuthChainProps.

(** The query joins with [events]: an auth event that is not known is not found. *)
Definition known_edge (db : ChainDb) (e a : string) : Prop := auth_edge db e a ∧ a ∈ dom (cd_events db).

Definition auth_row (db : ChainDb) (e a : string) (d : Z) : Prop := auth_edge db e a ∧ ∃ r, cd_events db !! a = Some r ∧ er_depth r = d.

(** The cache holds what the query would return, for events for which it returns anything. *)
Definition cache_ok (db : ChainDb) (cache : gmap string (list (string * Z))) : Prop :=
  ∀ e l, cache !! e = Some l → l ≠ [] ∧ ∀ a d, (a, d) ∈ l ↔ auth_row db e a d.

Section walk.
Context `{IterOrderOk} (forget : gmap string (list (string * Z)) → gmap string (list (string * Z))) (Hforget : ∀ c, forget c ⊆ c).
Context (db : ChainDb).
Abbreviation edge := (auth_edge db).
Abbreviation kedge := (known_edge db).

Lemma known_edge_row e a : kedge e a ↔ ∃ d, auth_row db e a d.
Proof. unfold known_edge, auth_row. rewrite elem_of_dom. split; [intros [? [r Hr]]; exists (er_depth r); eauto|intros (d & ? & r & Hr & _); split; [done|by eexists]]. Qed.

Lemma elem_of_select_auth ids e a d : (e, (a, d)) ∈ select_auth db ids ↔ e ∈ ids ∧ auth_row db e a d.
Proof.
  unfold select_auth, auth_row, auth_edge. rewrite list_elem_of_omap. split.
  - intros ([e' a'] & Hin & Hr). simpl in Hr. case_bool_decide; [|done]. apply fmap_Some in Hr as (r & Hr & [= -> -> ->]). eauto.
  - intros (He & Hin & r & Hr & <-). exists (e, a). split; [done|]. simpl. rewrite bool_decide_true by done. by rewrite Hr.
Qed.

Lemma auth_cache_set_ok cache e l : cache_ok db cache → l ≠ [] → (∀ a d, (a, d) ∈ l ↔ auth_row db e a d) → cache_ok db (cache_set forget e l cache).
Proof.
  intros Hc Hne Hl e' l' He'. unfold cache_set in He'. apply (lookup_weaken _ _ _ _ He') in Hforget as He. apply lookup_insert_Some in He as [[<- <-]|[_ ?]]; [done|by apply Hc].
Qed.

Lemma fetch_chunk_ok chunk cache :
  cache_ok db cache →
  let '(found, cache') := fetch_chunk forget db chunk cache in
  cache_ok db cache' ∧ ∀ e a d, (e, (a, d)) ∈ found ↔ e ∈ chunk ∧ auth_row db e a d.
Proof.
  intros Hc. unfold fetch_chunk. set (rows := select_auth db (filter (λ e, cache !! e = None) chunk)).
  assert (Hrows : ∀ e a d, (e, (a, d)) ∈ rows ↔ (cache !! e = None ∧ e ∈ chunk) ∧ auth_row db e a d) by (intros; unfold rows; by rewrite elem_of_select_auth, list_elem_of_filter).
  split.
  - assert (Hsub : ∀ e, e ∈ remove_dups rows.*1 → ∃ p, (e, p) ∈ rows) by (intros e; rewrite elem_of_remove_dups; intros ([e' p] & -> & ?)%list_elem_of_fmap; by exists p).
    revert Hc Hsub. clear -Hrows Hforget. assert (Hrow : ∀ e a d, (∃ p, (e, p) ∈ rows) → (a, d) ∈ rows_of_event rows e ↔ auth_row db e a d).
    { intros e a d [[a' d'] [He _]%Hrows]. unfold rows_of_event. rewrite list_elem_of_fmap. split.
      - intros ([e' [a1 d1]] & [= -> ->] & [Hee Hin]%list_elem_of_filter). simpl in Hee. subst e'. by apply Hrows in Hin as [_ ?].
      - intros Hr. exists (e, (a, d)). split; [done|]. apply list_elem_of_filter. split; [done|]. by apply Hrows. }
    generalize cache at 1 2. induction (remove_dups rows.*1) as [|e l IH]; intros c Hc Hsub; [done|]. cbn [foldl]. apply IH; [|intros; apply Hsub; by right].
    destruct (Hsub e) as [p Hp]; [by left|]. apply auth_cache_set_ok; [done| |].
    + assert (Hin : p ∈ rows_of_event rows e) by (unfold rows_of_event; apply list_elem_of_fmap; exists (e, p); split; [done|]; by apply list_elem_of_filter).
      intros E. rewrite E in Hin. by apply not_elem_of_nil in Hin.
    + intros a d. apply Hrow. by exists p.
  - intros e a d. rewrite elem_of_app, Hrows, list_elem_of_bind. split.
    + intros [(e' & Hin & He')|[[_ ?] ?]]; [|done]. destruct (cache !! e') as [l|] eqn:El; [|by apply not_elem_of_nil in Hin].
      apply list_elem_of_fmap in Hin as (p & [= -> <-] & Hp). split; [done|]. by apply (Hc e' l).
    + intros [He Hr]. destruct (cache !! e) as [l|] eqn:El; [|by right]. left. exists e. split; [|done]. rewrite El. apply list_elem_of_fmap. exists (a, d). split; [done|]. by apply (Hc e l).
Qed.

(** ** Auth chains *)

Lemma new_front_ok (front : gset string) cache :
  cache_ok db cache →
  let '(new_front, cache') := foldl (λ (st : gset string * _) chunk,
    let '(found, cache) := fetch_chunk forget db chunk st.2 in (st.1 ∪ list_to_set (fst ∘ snd <$> found), cache)) (∅, cache) (batch_iter (set_iter front) 100) in
  cache_ok db cache' ∧ ∀ a, a ∈ new_front ↔ ∃ e, e ∈ front ∧ kedge e a.
Proof.
  intros Hc. assert (Hfront : ∀ e, e ∈ front ↔ e ∈ concat (batch_iter (set_iter front) 100)) by (intros e; by rewrite batch_iter_concat, elem_of_set_iter by lia).
  revert Hfront. generalize (batch_iter (set_iter front) 100). intros bs Hfront.
  enough (Hg : ∀ (F : gset string) c, cache_ok db c → let '(F', c') := foldl (λ (st : gset string * _) chunk, let '(found, cache) := fetch_chunk forget db chunk st.2 in (st.1 ∪ list_to_set (fst ∘ snd <$> found), cache)) (F, c) bs in
    cache_ok db c' ∧ ∀ a, a ∈ F' ↔ a ∈ F ∨ ∃ e, e ∈ concat bs ∧ kedge e a).
  { specialize (Hg ∅ cache Hc). destruct (foldl _ _ _) as [F' c']. destruct Hg as [? Hg]. split; [done|]. intros a. rewrite Hg. setoid_rewrite Hfront. set_solver. }
  clear Hc Hfront. induction bs as [|b bs IH]; intros F c Hc; cbn [foldl].
  { split; [done|]. intros a. split; [by left|]. by intros [?|(e & ?%not_elem_of_nil & _)]. }
  pose proof (fetch_chunk_ok b c Hc) as Hf. cbn [fst snd]. destruct (fetch_chunk forget db b c) as [found c1]. destruct Hf as [Hc1 Hf].
  specialize (IH (F ∪ list_to_set (fst ∘ snd <$> found)) c1 Hc1). destruct (foldl _ _ bs) as [F' c']. destruct IH as [IH1 IH2]. split; [done|]. intros a.
  rewrite IH2, elem_of_union, elem_of_list_to_set, list_elem_of_fmap. simpl. setoid_rewrite elem_of_app. split.
  - intros [[?|([e [a' d]] & -> & [He Hr]%Hf)]|(e & ? & ?)]; [by left| |right; eauto]. right. exists e. split; [by left|]. apply known_edge_row. by exists d.
  - intros [?|(e & [He|He] & Hk)]; [by left; left| |right; by exists e]. left. right. apply known_edge_row in Hk as [d Hr]. exists (e, (a, d)). split; [done|]. by apply Hf.
Qed.

Section ids.
Context (ids : gset string) (include_given : bool).

Record front_inv (front results : gset string) : Prop := {
  fi_sub e : e ∈ front → e ∈ ids ∨ e ∈ results;
  fi_sound e : e ∈ results → (include_given = true ∧ e ∈ ids) ∨ ∃ a, a ∈ ids ∧ tc kedge a e;
  fi_given : include_given = true → ids ⊆ results;
  fi_closed e a : e ∈ ids ∨ e ∈ results → e ∉ front → kedge e a → a ∈ results
}.

Lemma walk_front_ok fuel front results cache :
  cache_ok db cache → front_inv front results → (front ≠ ∅ → size (dom (cd_events db) ∖ results) < fuel)%nat →
  ∃ r cache', walk_front forget fuel db front results cache = Ok (r, cache') ∧ cache_ok db cache' ∧
    ∀ e, e ∈ r ↔ (include_given = true ∧ e ∈ ids) ∨ ∃ a, a ∈ ids ∧ tc kedge a e.
Proof.
  revert front results cache. induction fuel as [|fuel IH]; intros front results cache Hc Hi Hf; simpl; (case_bool_decide as Hfr; [|]).
  1,3: exists results, cache; split_and!; [done|done|]; intros e; split; [apply (fi_sound _ _ Hi)|]; intros [[Hg He]|(a & Ha & Ht)]; [by apply (fi_given _ _ Hi Hg)|];
       assert (Hcl : ∀ x y, x ∈ ids ∨ x ∈ results → kedge x y → y ∈ results) by (intros x y Hx; apply (fi_closed _ _ Hi); [done|set_solver]);
       assert (Hx : a ∈ ids ∨ a ∈ results) by (by left); clear Ha; induction Ht as [a e He|a c e He _ IHt]; [by eapply Hcl|]; apply IHt; right; by eapply Hcl.
  - specialize (Hf Hfr). lia.
  - pose proof (new_front_ok front cache Hc) as Hn. destruct (foldl _ _ _) as [new c1]. destruct Hn as [Hc1 Hn]. apply IH; [done| |].
    + split.
      * intros e He. right. set_solver.
      * intros e [He|He]%elem_of_union; [by apply (fi_sound _ _ Hi)|]. apply elem_of_difference in He as [(x & Hx & Hk)%Hn _]. right.
        destruct (fi_sub _ _ Hi x Hx) as [?|Hxr]; [exists x; split; [done|by apply tc_once]|]. destruct (fi_sound _ _ Hi x Hxr) as [[_ ?]|(a & Ha & Ht)]; [exists x; split; [done|by apply tc_once]|].
        exists a. split; [done|]. by eapply tc_r.
      * intros Hg. pose proof (fi_given _ _ Hi Hg). set_solver.
      * intros e a He Hnf Hk. destruct (decide (e ∈ front)) as [Hef|Hef]; [destruct (decide (a ∈ results)); [set_solver|]; apply elem_of_union_r, elem_of_difference; split; [apply Hn; by exists e|done]|].
        apply elem_of_union_l, (fi_closed _ _ Hi e a); [|done|done]. destruct He as [?|[?|?]%elem_of_union]; [by left|by right|done].
    + intros Hne. specialize (Hf Hfr). apply set_choose_L in Hne as [a Ha]. assert (Hka : a ∈ dom (cd_events db)) by (apply elem_of_difference in Ha as [(x & _ & _ & ?)%Hn _]; done).
      assert (Hlt : dom (cd_events db) ∖ (results ∪ new ∖ results) ⊂ dom (cd_events db) ∖ results) by set_solver. apply subset_size in Hlt. lia.
Qed.
End ids.

Lemma walk_ids_ok ids include_given cache :
  cache_ok db cache →
  ∃ r cache', _get_auth_chain_ids_txn forget ids include_given db cache = Ok (r, cache') ∧ cache_ok db cache' ∧
    ∀ e, e ∈ r ↔ (include_given = true ∧ e ∈ ids) ∨ ∃ a, a ∈ ids ∧ tc kedge a e.
Proof.
  intros Hc. unfold _get_auth_chain_ids_txn. destruct (walk_front_ok (list_to_set ids) include_given (S (size (cd_events db))) (list_to_set ids) (if include_given then list_to_set ids else ∅) cache Hc) as (r & c' & -> & Hc' & Hr).
  - split; destruct include_given; set_solver.
  - intros _. apply Nat.lt_succ_r. rewrite <- size_dom. apply subseteq_size. set_solver.
  - exists r, c'. split_and!; [done|done|]. intros e. rewrite Hr. by setoid_rewrite elem_of_list_to_set.
Qed.
End walk.

(** ** Differences *)

Section difference.
Context `{IterOrderOk} (forget : gmap string (list (string * Z)) → gmap string (list (string * Z))) (Hforget : ∀ c, forget c ⊆ c).
Context (rank : string → nat) (db : ChainDb) (Hix : chains_ok rank db) (sets : list (gset string)).
Abbreviation kedge := (known_edge db).
Abbreviation missing_sets := (gmap string (gset nat)).

(** A set is not missing only where it reaches the event; every event is reached. *)
Record missing_ok (missing : missing_sets) : Prop := {
  mo_sound e m i : missing !! e = Some m → (i < length sets)%nat → i ∉ m → ∃ S, sets !! i = Some S ∧ set_reaches kedge S e;
  mo_reach e : is_Some (missing !! e) → ∃ S, S ∈ sets ∧ set_reaches kedge S e
}.

Definition graph_ok (missing : missing_sets) (auth : graph) : Prop :=
  ∀ e a, a ∈ default ∅ (auth !! e) → kedge e a ∧ is_Some (missing !! a).

Lemma set_reaches_edge S e a : set_reaches kedge S e → rtc kedge e a → set_reaches kedge S a.
Proof. intros (x & Hx & Hr) Ha. exists x. split; [done|]. by etransitivity. Qed.

(** What the current event reaches may be marked with the sets that reach it. *)
Lemma missing_mark missing e event_sets b m :
  missing_ok missing → (∀ i, (i < length sets)%nat → i ∉ event_sets → ∃ S, sets !! i = Some S ∧ set_reaches kedge S e) → rtc kedge e b →
  missing !! b = Some m → missing_ok (<[b := m ∩ event_sets]> missing).
Proof.
  intros Hm He Hr Hb. split.
  - intros x m' i [[<- <-]|[_ Hx]]%lookup_insert_Some Hi Hn; [|by apply (mo_sound _ Hm x m')]. destruct (decide (i ∈ m)) as [Him|Him]; [|by apply (mo_sound _ Hm b m)].
    destruct (He i Hi) as (S & HS & HSe); [set_solver|]. exists S. split; [done|]. by eapply set_reaches_edge.
  - intros x Hx. apply (mo_reach _ Hm). destruct (decide (b = x)) as [<-|]; [by eexists|]. by rewrite lookup_insert_ne in Hx.
Qed.

Lemma mark_loop_ok fuel k e event_sets auth missing a_ids :
  (∀ i, (i < length sets)%nat → i ∉ event_sets → ∃ S, sets !! i = Some S ∧ set_reaches kedge S e) →
  missing_ok missing → graph_ok missing auth → (∀ b, b ∈ a_ids → rtc kedge e b ∧ is_Some (missing !! b) ∧ b ∈ dom (cd_events db)) →
  behind rank db k a_ids → (size (cd_events db) + 1 ≤ fuel + k)%nat →
  ∃ missing', mark_loop fuel event_sets auth missing a_ids = Ok missing' ∧ missing_ok missing' ∧ dom missing' = dom missing.
Proof.
  intros He. revert k missing a_ids. induction fuel as [|fuel IH]; intros k missing a_ids Hm Hg Ha Hb Hf; simpl; (case_bool_decide as Hn; [by exists missing|]).
  { pose proof (behind_bound _ _ _ _ Hn Hb). lia. }
  loop_prefix (λ (l : list string) (st : missing_sets * gset string), missing_ok st.1 ∧ dom st.1 = dom missing ∧ ∀ c, c ∈ st.2 → ∃ b, b ∈ a_ids ∧ c ∈ default ∅ (auth !! b)) as ([missing1 next] & -> & S1 & S2 & S3).
  - split_and!; [done|done|set_solver].
  - intros l1 b l2 [missing1 next] Hl (S1 & S2 & S3). assert (Hba : b ∈ a_ids) by (apply elem_of_set_iter; rewrite Hl; set_solver). destruct (Ha b Hba) as (Hr & Hs & _).
    assert (Hs1 : is_Some (missing1 !! b)) by (apply elem_of_dom; cbn [fst] in S2; rewrite S2; by apply elem_of_dom). destruct Hs1 as [m Hm1]. unfold mark_ancestors. cbn [fst snd] in *.
    rewrite (getitem_some _ _ _ Hm1). cbn [mbind result_bind]. eexists. split; [done|]. cbn [fst snd]. split_and!.
    + by eapply missing_mark.
    + rewrite dom_insert_L, S2. apply elem_of_dom in Hs. set_solver.
    + intros c [?|?]%elem_of_union; [by apply S3|by exists b].
  - cbn [mbind result_bind fst snd] in *. assert (Hg1 : graph_ok missing1 auth) by (intros x y [? Hy]%Hg; split; [done|]; apply elem_of_dom; rewrite S2; by apply elem_of_dom).
    destruct (IH (S k) missing1 next S1 Hg1) as (missing' & -> & M1 & M2); [| |lia|exists missing'; split_and!; [done|done|congruence]].
    + intros c (b & Hba & Hc)%S3. destruct (Ha b Hba) as (Hr & _). destruct (Hg1 b c Hc) as [Hk Hs]. split_and!; [by eapply rtc_r|done|by destruct Hk].
    + apply (behind_step rank db k a_ids next Hix Hb). intros c (b & Hba & Hc)%S3. destruct (Hg b c Hc) as [[? _] _]. exists b. split_and!; [done|done|by apply Ha].
Qed.

(** [visited] are the events whose auth events were, or are being, looked at. *)
Record walk_inv (visited : gset string) (w : Walk) : Prop := {
  wi_missing : missing_ok (wk_missing w);
  wi_graph : graph_ok (wk_missing w) (wk_auth w);
  wi_nodup : NoDup (wk_search w).*2;
  wi_search e : e ∈ (wk_search w).*2 → e ∈ dom (wk_missing w) ∧ e ∈ dom (cd_events db) ∧ e ∉ visited;
  wi_visited : visited ⊆ dom (wk_missing w);
  wi_cover e : e ∈ dom (wk_missing w) → e ∈ visited ∨ e ∈ (wk_search w).*2 ∨ e ∉ dom (cd_events db);
  wi_initial S e : S ∈ sets → e ∈ S → e ∈ dom (wk_missing w)
}.

Lemma elem_of_setdefault_add (g : graph) e a x y : y ∈ default ∅ (setdefault_add e a g !! x) ↔ (x = e ∧ y = a) ∨ y ∈ default ∅ (g !! x).
Proof. unfold setdefault_add. destruct (decide (x = e)) as [->|]; [rewrite lookup_insert_eq|rewrite lookup_insert_ne by done]; simpl; set_solver. Qed.

Lemma walk_row_ok visited w e a d :
  walk_inv visited w → e ∈ visited → auth_row db e a d →
  ∃ w', walk_row (S (size (cd_events db))) (length sets) w (e, (a, d)) = Ok w' ∧ walk_inv visited w' ∧ dom (wk_missing w') = {[a]} ∪ dom (wk_missing w).
Proof.
  intros Hw Hev Hrow. assert (Hk : kedge e a) by (apply known_edge_row; by exists d). unfold walk_row. pose proof Hw as [W1 W2 W3 W4 W5 W6 W7].
  assert (is_Some (wk_missing w !! e)) as [es Hes] by (by apply elem_of_dom, W5). rewrite (getitem_some _ _ _ Hes). cbn [mbind result_bind].
  assert (Hes' : ∀ i, (i < length sets)%nat → i ∉ es → ∃ S, sets !! i = Some S ∧ set_reaches kedge S e) by (intros i; by apply (mo_sound _ W1 e es)).
  set (auth := setdefault_add e a (wk_auth w)).
  assert (Hgr : ∀ m : missing_sets, dom m = {[a]} ∪ dom (wk_missing w) → graph_ok m auth).
  { intros m Hm x y [[-> ->]|[? Hy]%W2]%elem_of_setdefault_add; [split; [done|]; apply elem_of_dom; set_solver|]. split; [done|]. apply elem_of_dom. apply elem_of_dom in Hy. set_solver. }
  destruct (wk_missing w !! a) as [m0|] eqn:Ea.
  - assert (Hdom : dom (wk_missing w) = {[a]} ∪ dom (wk_missing w)) by (apply elem_of_dom_2 in Ea; set_solver).
    destruct (mark_loop_ok (S (size (cd_events db))) 0 e es auth (wk_missing w) (default ∅ (auth !! a)) Hes' W1 (Hgr _ Hdom)) as (m1 & -> & M1 & M2); [|apply behind_start|lia|].
    { intros b Hb. destruct (Hgr _ Hdom a b Hb) as [Hab Hs]. split_and!; [by eapply rtc_l; [|apply rtc_once]|done|by destruct Hab]. }
    cbn [mbind result_bind]. assert (is_Some (m1 !! a)) as [s1 Hs1] by (apply elem_of_dom; rewrite M2; by eapply elem_of_dom_2).
    assert (is_Some (m1 !! e)) as [es1 Hes1] by (apply elem_of_dom; rewrite M2; by apply W5). rewrite (getitem_some _ _ _ Hs1), (getitem_some _ _ _ Hes1). cbn [mbind result_bind]. eexists. split; [done|].
    assert (Hd : dom (<[a := s1 ∩ es1]> m1) = dom (wk_missing w)) by (rewrite dom_insert_L, M2; by symmetry). split; [|cbn [wk_missing]; by rewrite Hd].
    split; cbn [wk_missing wk_auth wk_search]; rewrite ?Hd; try done; [|apply Hgr; by rewrite Hd]. eapply missing_mark; [done| |by apply rtc_once|done]. intros i. by apply (mo_sound _ M1 e es1).
  - eexists. split; [done|]. assert (Hna : a ∉ dom (wk_missing w)) by (by apply not_elem_of_dom). split; [|cbn [wk_missing]; by rewrite dom_insert_L].
    split; cbn [wk_missing wk_auth wk_search]; rewrite ?dom_insert_L, ?fmap_app.
    + split.
      * intros x m i [[<- <-]|[_ Hx]]%lookup_insert_Some Hi Hn; [|by apply (mo_sound _ W1 x m)]. destruct (Hes' i Hi) as (S & HS & HSe).
        { intros Hin. apply Hn, elem_of_intersection. split; [|done]. apply elem_of_list_to_set, list_elem_of_In, in_seq. lia. }
        exists S. split; [done|]. eapply set_reaches_edge; [done|by apply rtc_once].
      * intros x Hx. destruct (decide (a = x)) as [<-|]; [|rewrite lookup_insert_ne in Hx by done; by apply (mo_reach _ W1)].
        destruct (mo_reach _ W1 e) as (S & HS & HSe); [by eexists|]. exists S. split; [done|]. eapply set_reaches_edge; [done|by apply rtc_once].
    + apply Hgr. by rewrite dom_insert_L.
    + apply NoDup_app. split_and!; [done| |apply NoDup_singleton]. intros x Hx ->%list_elem_of_singleton. by destruct (W4 a Hx).
    + intros x [Hx| ->%list_elem_of_singleton]%elem_of_app; [destruct (W4 x Hx) as (? & ? & ?); split_and!; [set_solver|done|done]|]. split_and!; [set_solver|by destruct Hk|]. intros ?. by apply Hna, W5.
    + set_solver.
    + intros x [->%elem_of_singleton|Hx]%elem_of_union; [right; left; apply elem_of_app; right; by left|]. destruct (W6 x Hx) as [?|[?|?]]; [by left|right; left; apply elem_of_app; by left|by do 2 right].
    + intros S x HS Hx. apply elem_of_union_r. by apply (W7 S).
Qed.

(** The events of a chunk are taken from the search. *)
Lemma walk_inv_chunk X w cut :
  walk_inv X w → walk_inv (X ∪ list_to_set (drop cut (wk_search w)).*2) (MkWalk (wk_missing w) (wk_auth w) (take cut (wk_search w))).
Proof.
  intros [W1 W2 W3 W4 W5 W6 W7]. rewrite <- (take_drop cut (wk_search w)), fmap_app in W3, W4, W6. apply NoDup_app in W3 as (N1 & N2 & N3). split; simpl; [done|done|done| | | |done].
  - intros e He. destruct (W4 e) as (? & ? & ?); [apply elem_of_app; by left|]. split_and!; [done|done|]. specialize (N2 e He). set_solver.
  - apply union_subseteq. split; [done|]. intros e He%elem_of_list_to_set. apply (W4 e), elem_of_app. by right.
  - intros e [?|[[?|?]%elem_of_app|?]]%W6; set_solver.
Qed.

Lemma walk_inv_perm X w search : walk_inv X w → search ≡ₚ wk_search w → walk_inv X (MkWalk (wk_missing w) (wk_auth w) search).
Proof. intros [W1 W2 W3 W4 W5 W6 W7] Hp. split; cbn [wk_missing wk_auth wk_search]; rewrite ?Hp; try done; intros e; rewrite Hp; auto. Qed.

(** What is known when the walk stops: an event whose auth events were not looked at is
    reached by every set. *)
Definition walked (missing : missing_sets) : Prop :=
  missing_ok missing ∧ (∀ S e, S ∈ sets → e ∈ S → e ∈ dom missing) ∧ ∀ e a, e ∈ dom missing → kedge e a → a ∈ dom missing ∨ missing !! e = Some ∅.

Lemma walk_loop_ok fuel X w cache :
  cache_ok db cache → walk_inv X w → (∀ e a, e ∈ X → kedge e a → a ∈ dom (wk_missing w)) → (size (dom (cd_events db) ∖ X) < fuel)%nat →
  ∃ r cache', walk_loop forget fuel (length sets) db w cache = Ok (r, cache') ∧ cache_ok db cache' ∧ walked r.
Proof.
  revert X w cache. induction fuel as [|fuel IH]; intros X w cache Hc Hw Hcl Hf; [lia|]. cbn [walk_loop]. destruct (forallb _ _) eqn:Hall.
  - exists (wk_missing w), cache. split_and!; [done|done|]. split_and!; [apply (wi_missing _ _ Hw)|apply (wi_initial _ _ Hw)|]. intros e a He Hk.
    destruct (wi_cover _ _ Hw e He) as [?|[Hs|Hn]]; [left; by apply (Hcl e)|right|].
    + apply list_elem_of_fmap in Hs as ([dp e'] & -> & Hin). rewrite forallb_forall in Hall. apply list_elem_of_In in Hin. specialize (Hall _ Hin). by apply bool_decide_eq_true in Hall.
    + destruct Hk as [Hk _]. apply (ix_auth _ _ Hix) in Hk as [ty Hk]. unfold state_event in Hk. apply bind_Some in Hk as (r & Hr & _). by apply elem_of_dom_2 in Hr.
  - set (cut := (length (wk_search w) - 100)%nat). set (chunk := (drop cut (wk_search w)).*2).
    pose proof (fetch_chunk_ok forget Hforget db chunk cache Hc) as Hfc. destruct (fetch_chunk forget db chunk cache) as [found c1]. destruct Hfc as [Hc1 Hfound].
    pose proof (walk_inv_chunk X w cut Hw) as Hw0. fold chunk in Hw0. set (V := X ∪ list_to_set chunk) in *.
    loop_prefix (λ (l : list (string * (string * Z))) w', walk_inv V w' ∧ dom (wk_missing w) ⊆ dom (wk_missing w') ∧ ∀ e a d, (e, (a, d)) ∈ l → a ∈ dom (wk_missing w')) as (w1 & -> & I1 & I2 & I3).
    + split_and!; [done|done|by intros ? ? ? ?%not_elem_of_nil].
    + intros l1 [e [a d]] l2 w' Hl (I1 & I2 & I3). destruct (proj1 (Hfound e a d)) as [He Hr]; [rewrite Hl; set_solver|].
      destruct (walk_row_ok V w' e a d I1) as (w2 & -> & J1 & J2); [unfold V; set_solver|done|]. exists w2. split; [done|]. rewrite J2. split_and!; [done|set_solver|].
      intros e' a' d' [?|[= -> -> ->]%list_elem_of_singleton]%elem_of_app; [apply elem_of_union_r; by eapply I3|set_solver].
    + cbn [mbind result_bind]. apply (IH V); [done| | |].
      * apply walk_inv_perm; [done|]. apply merge_sort_Permutation.
      * cbn [wk_missing]. intros e a [He|He%elem_of_list_to_set]%elem_of_union Hk; [by apply I2, (Hcl e)|]. apply known_edge_row in Hk as [d Hr]. apply (I3 e a d), Hfound. done.
      * assert (Hne : ∃ e, e ∈ chunk).
        { destruct (wk_search w) as [|x l] eqn:Es; [done|]. assert (Hlen : (0 < length chunk)%nat) by (unfold chunk, cut; rewrite length_fmap, length_drop; simpl; lia).
          destruct chunk as [|e k]; [simpl in Hlen; lia|]. exists e. by left. }
        destruct Hne as [e He]. assert (Hs : e ∈ (wk_search w).*2) by (unfold chunk in He; apply list_elem_of_fmap in He as (y & -> & Hy); apply list_elem_of_fmap; exists y; split; [done|]; rewrite <- (take_drop cut (wk_search w)); apply elem_of_app; by right).
        destruct (wi_search _ _ Hw e Hs) as (_ & ? & ?). assert (Hlt : dom (cd_events db) ∖ V ⊂ dom (cd_events db) ∖ X) by (unfold V; set_solver). apply subset_size in Hlt. lia.
Qed.

Lemma walk_difference_ok cache :
  sets ≠ [] → cache_ok db cache →
  ∃ r cache', _get_auth_chain_difference_txn forget sets db cache = Ok (r, cache') ∧ cache_ok db cache' ∧
    (∀ e, in_difference kedge sets e → e ∈ r) ∧ ∀ e, e ∈ r → ∃ S, S ∈ sets ∧ set_reaches kedge S e.
Proof.
  intros Hne Hc. unfold _get_auth_chain_difference_txn. destruct sets as [|S0 l] eqn:Es; [done|]. cbn [union_of mbind result_bind]. rewrite <- Es in *. set (X := foldl (∪) S0 l).
  assert (HX : ∀ x, x ∈ X ↔ ∃ S, S ∈ sets ∧ x ∈ S) by (intros x; unfold X; rewrite elem_of_union_all; by rewrite Es).
  set (missing := set_to_map (λ e, (e, not_in_sets sets e)) X : missing_sets).
  assert (Hm : ∀ e m, missing !! e = Some m ↔ e ∈ X ∧ m = not_in_sets sets e) by (intros e m; unfold missing; rewrite lookup_set_to_map by (by intros ? ? _ _ [= ->]); naive_solver).
  assert (Hmd : dom missing = X) by (apply set_eq; intros e; rewrite elem_of_dom; split; [by intros [m [? _]%Hm]|intros He; eexists; by apply Hm]).
  set (search := omap _ _). assert (Hsearch : ∀ e, e ∈ search.*2 ↔ e ∈ X ∧ e ∈ dom (cd_events db)).
  { intros e. unfold search. rewrite batch_iter_concat by lia. rewrite list_elem_of_fmap. setoid_rewrite list_elem_of_omap. setoid_rewrite elem_of_set_iter. split.
    - intros ([dp e'] & -> & e1 & He1 & (r & Hr & [= -> ->])%fmap_Some). split; [done|by eapply elem_of_dom_2].
    - intros [He [r Hr]%elem_of_dom]. exists (er_depth r, e). split; [done|]. exists e. by rewrite Hr. }
  destruct (walk_loop_ok (S (size (cd_events db))) ∅ (MkWalk missing ∅ (merge_sort le_search search)) cache Hc) as (r & c' & -> & Hc' & W1 & W2 & W3).
  - apply (walk_inv_perm ∅ (MkWalk missing ∅ search)); [|apply merge_sort_Permutation]. split; cbn [wk_missing wk_auth wk_search]; rewrite ?Hmd.
    + split.
      * intros e m i [He ->]%Hm Hi Hn. destruct (lookup_lt_is_Some_2 sets i Hi) as [S HS]. exists S. split; [done|]. exists e. split; [|done].
        destruct (decide (e ∈ S)); [done|]. destruct Hn. unfold not_in_sets. apply elem_of_list_to_set, list_elem_of_fmap. exists (i, S). split; [done|]. apply list_elem_of_filter. split; [done|].
        apply elem_of_lookup_imap. by exists i, S.
      * intros e [m [(S & HS & He)%HX _]%Hm]. exists S. split; [done|]. by exists e.
    + intros e a. by rewrite lookup_empty.
    + unfold search. rewrite batch_iter_concat by lia. eapply sublist_NoDup; [apply (NoDup_set_iter X)|]. clear. induction (set_iter X) as [|e k IH]; [constructor|]. simpl.
      destruct (cd_events db !! e); simpl; [by apply sublist_skip|by apply sublist_cons].
    + intros e [? ?]%Hsearch. split_and!; [done|done|set_solver].
    + set_solver.
    + intros e He. destruct (decide (e ∈ dom (cd_events db))); [right; left; by apply Hsearch|by do 2 right].
    + intros S e HS He. apply HX. by exists S.
  - set_solver.
  - apply Nat.lt_succ_r. rewrite <- size_dom. apply subseteq_size. set_solver.
  - cbn [mbind result_bind fst snd]. eexists _, c'. split; [done|]. split_and!; [done| |].
    + intros e [(S & HS & x & Hx & Hr) Hno].
      assert (Hall : ∀ y m, r !! y = Some m → rtc kedge y e → ¬ m ⊆ ∅).
      { intros y m Hy Hye Hm0. apply Hno. intros S' HS'. apply list_elem_of_lookup in HS' as [i Hi]. destruct (mo_sound _ W1 y m i Hy) as (S1 & HS1 & Hy1); [by eapply lookup_lt_Some|set_solver|].
        rewrite Hi in HS1. injection HS1 as <-. by eapply set_reaches_edge. }
      assert (Hin : e ∈ dom r).
      { assert (Hxr : x ∈ dom r) by (by apply (W2 S)). clear Hx. induction Hr as [|x y e Hxy Hr IH]; [done|]. destruct (W3 x y Hxr Hxy) as [?|Hx0]; [by apply IH|]. exfalso. by apply (Hall x ∅ Hx0); [eapply rtc_l|]. }
      apply elem_of_filter. split; [|done]. intros He. by apply (Hall e ∅ He).
    + intros e [_ [m Hm']%elem_of_dom]%elem_of_filter. apply (mo_reach _ W1). by eexists.
Qed.
End difference.
