(* ===== verification/AuthChainThms.v ===== *)
(** * Auth chains: theorems

    The index is right whatever is stored, auth chains and differences are read from it as
    they are in the stored events, and what the walk without it returns; with examples. *)

From S2P Require Import Prelude PyVal Constants RoomVersions Events EventAuth TopoSort IterUtils StateResV2 StateResTerm StateResAuthChain StateGroups AuthChains AuthChainReads AuthChainProps AuthChainWrites AuthChainWalk.

(** ** Histories of stored events *)

Definition empty_tables (rooms : gset string) : ChainDb := MkChainDb ∅ [] ∅ [] ∅ 0 rooms.

(** Batches of events, one transaction each. *)
Definition persist_all `{IterOrder} (batches : list (list Event)) (db : ChainDb) : result ChainDb :=
  fold_res (λ db events, persist_auth_chains events db) batches db.

(** Events with different ids, none naming an auth event twice, older auth events. *)
Record history_ok (rank : string → nat) (events : list Event) : Prop := {
  ho_ids : NoDup (event_id <$> events);
  ho_auth e : e ∈ events → NoDup (auth_event_ids e);
  ho_rank e a : e ∈ events → a ∈ auth_event_ids e → (rank a < rank (event_id e))%nat
}.

(** The auth events of the stored state events. *)
Definition names (events : list Event) (e a : string) : Prop :=
  ∃ ev, ev ∈ events ∧ Events.is_state ev = true ∧ event_id ev = e ∧ a ∈ auth_event_ids ev.

(** Those that are stored themselves. *)
Definition names_stored (events : list Event) (e a : string) : Prop := names events e a ∧ a ∈ event_id <$> events.

Definition tables_of (events : list Event) (db : ChainDb) : Prop :=
  (∀ x, x ∈ dom (cd_events db) ↔ x ∈ event_id <$> events) ∧ ∀ e a, auth_edge db e a ↔ names events e a.

Lemma empty_ok rank rooms : index_ok rank (empty_tables rooms).
Proof.
  assert (Hno : ∀ e a, ¬ auth_edge (empty_tables rooms) e a) by (by intros e a ?%not_elem_of_nil).
  assert (Hnone : ∀ e t, cd_chains (empty_tables rooms) !! e ≠ Some t) by (intros e t; simpl; by rewrite lookup_empty).
  split; [split|..].
  - by intros e a ?%Hno.
  - intros e. constructor.
  - by intros e a ?%Hno.
  - by intros e [t ?%Hnone].
  - by intros e a [t ?%Hnone].
  - by intros e e' t ?%Hnone.
  - by intros e t ?%Hnone.
  - by intros e t ?%Hnone.
  - by intros l ?%not_elem_of_nil.
  - by intros l l' ?%not_elem_of_nil.
  - by intros a b ta tb ?%Hnone.
  - intros e [t Ht]. simpl in Ht. by rewrite lookup_empty in Ht.
Qed.

Section history.
Context `{IterOrderOk} (rank : string → nat) (rooms : gset string).

Lemma names_app l1 l2 e a : names (l1 ++ l2) e a ↔ names l1 e a ∨ names l2 e a.
Proof. unfold names. setoid_rewrite elem_of_app. naive_solver. Qed.

Lemma elem_of_auth_rows events e a :
  (e, a) ∈ (ev ← filter (λ e, Events.is_state e = true) events; (λ a, (event_id ev, a)) <$> auth_event_ids ev) ↔ names events e a.
Proof.
  rewrite list_elem_of_bind. unfold names. split.
  - intros (ev & (a' & [= -> ->] & Ha)%list_elem_of_fmap & [Hs He]%list_elem_of_filter). by exists ev.
  - intros (ev & He & Hs & <- & Ha). exists ev. split; [apply list_elem_of_fmap; by exists a|]. by apply list_elem_of_filter.
Qed.

(** A transaction succeeds and the index is right after it. *)
Lemma persist_step_ok evs events db :
  history_ok rank (evs ++ events) → index_ok rank db → tables_of evs db →
  new_events rank db events ∧ ∃ db', persist_auth_chains events db = Ok db' ∧ index_ok rank db' ∧ tables_of (evs ++ events) db' ∧
    (∀ x r, cd_events db !! x = Some r → cd_events db' !! x = Some r) ∧ (∀ x, x ∈ dom (cd_events db') ↔ x ∈ dom (cd_events db) ∨ x ∈ event_id <$> events) ∧
    ∀ e a, auth_edge db' e a ↔ auth_edge db e a ∨ names events e a.
Proof.
  intros [H1 H2 H3] Hix [Hev Hedge]. rewrite fmap_app in H1. apply NoDup_app in H1 as (_ & Hd & Hnd).
  assert (Hnew : new_events rank db events).
  { split; [done| |intros e He; apply H2; set_solver|intros e a He; apply H3; set_solver]. intros e He. apply not_elem_of_dom. rewrite Hev. intros Hin. apply (Hd _ Hin), list_elem_of_fmap. by exists e. }
  split; [done|]. destruct (persist_auth_chains_ok rank db Hix events Hnew) as (db' & -> & Hix' & E1 & E2 & _). exists db'.
  assert (Hdom : ∀ x, x ∈ dom (cd_events db') ↔ x ∈ dom (cd_events db) ∨ x ∈ event_id <$> events).
  { intros x. rewrite E1, !elem_of_dom, list_elem_of_fmap. split.
    - intros [r [(e & He & <- & _)|Hr]%(event_row rank db events Hnew)]; [right; by exists e|left; by eexists].
    - intros [[r Hr]|(e & -> & He)]; [exists r|eexists]; apply (event_row rank db events Hnew); [by right|left; by exists e]. }
  assert (Hedge' : ∀ e a, auth_edge db' e a ↔ auth_edge db e a ∨ names events e a) by (intros e a; unfold auth_edge; by rewrite E2, elem_of_app, elem_of_auth_rows).
  split_and!; [done|done| | |done|done].
  - split; [intros x; by rewrite Hdom, fmap_app, elem_of_app, Hev|]. intros e a. by rewrite Hedge', names_app, Hedge.
  - intros x r Hr. rewrite E1. apply (event_row rank db events Hnew). by right.
Qed.

Lemma history_ok_prefix l1 l2 : history_ok rank (l1 ++ l2) → history_ok rank l1.
Proof.
  intros [H1 H2 H3]. split; [|intros e He; apply H2; set_solver|intros e a He; apply H3; set_solver].
  rewrite fmap_app in H1. by apply NoDup_app in H1 as (? & _ & _).
Qed.

Lemma empty_tables_of : tables_of [] (empty_tables rooms).
Proof. split; [intros x; simpl; rewrite dom_empty; set_solver|]. intros e a. split; [by intros ?%not_elem_of_nil|]. by intros (ev & ?%not_elem_of_nil & _). Qed.

(** Every transaction succeeds and the index is right after it. *)
Lemma persist_all_ok batches :
  history_ok rank (concat batches) → ∃ db, persist_all batches (empty_tables rooms) = Ok db ∧ index_ok rank db ∧ tables_of (concat batches) db.
Proof.
  intros Hh. unfold persist_all. loop_prefix (λ l db, index_ok rank db ∧ tables_of (concat l) db) as (db & -> & Hdb); [| |by exists db].
  - split; [apply empty_ok|apply empty_tables_of].
  - intros l1 events l2 db Hl (Hix & Ht). rewrite Hl, concat_app, concat_cons, (assoc_L (++)) in Hh. apply history_ok_prefix in Hh.
    destruct (persist_step_ok _ _ _ Hh Hix Ht) as (_ & db' & -> & Hix' & Ht' & _). exists db'. rewrite concat_app, concat_cons, app_nil_r. done.
Qed.

Lemma tables_known events db e a : tables_of events db → known_edge db e a ↔ names_stored events e a.
Proof. intros [Hev Hedge]. unfold known_edge, names_stored. by rewrite Hedge, Hev. Qed.
End history.

(** ** Auth chains, by the index or by the walk *)

Section read.
Context `{IterOrderOk} (engine : DatabaseEngine) (forget : gmap string (list (string * Z)) → gmap string (list (string * Z))) (Hforget : ∀ c, forget c ⊆ c).
Context (rank : string → nat) (db : ChainDb) (Hix : index_ok rank db).

(** All that an indexed event reaches is known. *)
Lemma indexed_tc a b : is_Some (cd_chains db !! a) → tc (auth_edge db) a b ↔ tc (known_edge db) a b.
Proof.
  assert (Hk : ∀ x, is_Some (cd_chains db !! x) → x ∈ dom (cd_events db)).
  { intros x [ty Hx]%(ix_state _ _ Hix). unfold state_event in Hx. apply bind_Some in Hx as (r & Hr & _). by eapply elem_of_dom_2. }
  intros Ha. split; intros Ht; induction Ht as [a b He|a c b He _ IH].
  - apply tc_once. split; [done|]. by apply Hk, (ix_closed _ _ Hix a b).
  - pose proof (ix_closed _ _ Hix a c Ha He) as Hc. eapply tc_l; [split; [exact He|by apply Hk]|by apply IH].
  - apply tc_once. by destruct He.
  - destruct He as [He _]. eapply tc_l; [exact He|]. apply IH. by apply (ix_closed _ _ Hix a c).
Qed.

Lemma get_auth_chain_ids_ok room ids include_given cache :
  cache_ok db cache →
  ∃ r cache', get_auth_chain_ids engine forget room ids include_given db cache = Ok (r, cache') ∧ cache_ok db cache' ∧
    ∀ e, e ∈ r ↔ (include_given = true ∧ e ∈ ids) ∨ ∃ a, a ∈ ids ∧ tc (known_edge db) a e.
Proof.
  intros Hc. unfold get_auth_chain_ids. case_bool_decide; [|by apply walk_ids_ok]. pose proof (cover_ids_ok engine rank db Hix ids include_given) as Hcov.
  destruct (_get_auth_chain_ids_using_cover_index_txn _ _ _ _) as [r|x].
  - destruct Hcov as [Hin Hr]. exists r, cache. split_and!; [done|done|]. intros e. rewrite Hr. unfold strictly_reaches. setoid_rewrite elem_of_list_to_set.
    split; (intros [?|(a & Ha & Ht)]; [by left|right; exists a; split; [done|]]); apply (indexed_tc a e (Hin a Ha)), Ht.
  - destruct Hcov as [-> _]. simpl. by apply walk_ids_ok.
Qed.

(** The difference from the index, when the sets hold indexed events. *)
Lemma get_auth_chain_difference_indexed room sets cache :
  sets ≠ [] → room ∈ cd_index_rooms db → (∀ S e, S ∈ sets → e ∈ S → is_Some (cd_chains db !! e)) →
  ∃ r, AuthChainReads.get_auth_chain_difference engine forget room sets db cache = Ok (r, cache) ∧ ∀ e, e ∈ r ↔ in_difference (auth_edge db) sets e.
Proof.
  intros Hne Hroom Hin. unfold AuthChainReads.get_auth_chain_difference. rewrite bool_decide_true by done.
  pose proof (cover_difference_ok engine rank db Hix room sets Hne) as Hcov. destruct (_get_auth_chain_difference_using_cover_index_txn _ _ _ _) as [[r sets']|x].
  - exists r. split; [done|]. intros e. apply Hcov. intros S a x y HS Ha Hr Hn. assert (Hs : is_Some (cd_chains db !! x)) by (eapply (reach_indexed rank db Hix a); [by apply (Hin S)|done]). rewrite Hn in Hs. by destruct Hs.
  - exfalso. destruct Hcov as (_ & S & e & HS & He & Hn & _); [|destruct (Hin S e HS He); congruence].
    intros S a y z HS Ha Hr Hn. assert (Hs : is_Some (cd_chains db !! y)) by (eapply (reach_indexed rank db Hix a); [by apply (Hin S)|done]). rewrite Hn in Hs. by destruct Hs.
Qed.
End read.

(** ** Storing and reading in turns *)

Abbreviation AuthCache := (gmap string (list (string * Z))).

Section turns.
Context `{IterOrderOk} (engine : DatabaseEngine) (forget : AuthCache → AuthCache) (Hforget : ∀ c, forget c ⊆ c).
Context (rank : string → nat) (rooms : gset string).

(** The events stored so far, the tables and the cache of auth events.  No batch has an event
    that an event stored before it names: auth events come first. *)
Inductive chain_step : list Event * ChainDb * AuthCache → list Event * ChainDb * AuthCache → Prop :=
| CStore evs db cache events db' :
    history_ok rank (evs ++ events) → (∀ e a, names evs e a → a ∉ event_id <$> events) →
    persist_auth_chains events db = Ok db' → chain_step (evs, db, cache) (evs ++ events, db', cache)
| CChain evs db cache room ids include_given r cache' :
    get_auth_chain_ids engine forget room ids include_given db cache = Ok (r, cache') → chain_step (evs, db, cache) (evs, db, cache')
| CDifference evs db cache room sets r cache' :
    sets ≠ [] → AuthChainReads.get_auth_chain_difference engine forget room sets db cache = Ok (r, cache') →
    chain_step (evs, db, cache) (evs, db, cache')
| CForget evs db cache cache' : cache' ⊆ cache → chain_step (evs, db, cache) (evs, db, cache').

Definition chain_reachable (evs : list Event) (db : ChainDb) (cache : AuthCache) : Prop :=
  rtc chain_step ([], empty_tables rooms, ∅) (evs, db, cache).

(** What is cached stays right when events are stored that nothing names yet. *)
Lemma cache_kept evs events db db' cache :
  index_ok rank db → tables_of evs db → (∀ e a, names evs e a → a ∉ event_id <$> events) → new_events rank db events →
  (∀ x r, cd_events db !! x = Some r → cd_events db' !! x = Some r) → (∀ x, x ∈ dom (cd_events db') ↔ x ∈ dom (cd_events db) ∨ x ∈ event_id <$> events) →
  (∀ e a, auth_edge db' e a ↔ auth_edge db e a ∨ names events e a) → cache_ok db cache → cache_ok db' cache.
Proof.
  intros Hix [_ Hedge] Hlate Hnew Hrow Hdom Hedge' Hc e l Hl. destruct (Hc e l Hl) as [Hne Hin]. split; [done|].
  assert (Hold : is_Some (cd_events db !! e)).
  { destruct l as [|[a d] l]; [done|]. destruct (proj1 (Hin a d) ltac:(by left)) as [He _]. apply (ix_auth _ _ Hix) in He as [ty Hty].
    unfold state_event in Hty. apply bind_Some in Hty as (r & Hr & _). by exists r. }
  intros a d. rewrite Hin. unfold auth_row. rewrite Hedge'. split.
  - intros [He (r & Hr & Hd)]. split; [by left|]. exists r. split; [by apply Hrow|done].
  - intros [[He|(ev & Hev & _ & <- & _)] (r & Hr & Hd)].
    + split; [done|]. assert (Ha : a ∈ dom (cd_events db)).
      { assert (Hx : a ∈ dom (cd_events db')) by (by eapply elem_of_dom_2). apply Hdom in Hx as [?|Hx]; [done|]. apply Hedge in He. by destruct (Hlate e a He). }
      apply elem_of_dom in Ha as [r' Hr']. exists r'. split; [done|]. rewrite (Hrow _ _ Hr') in Hr. congruence.
    + exfalso. rewrite (ne_fresh _ _ _ Hnew ev Hev) in Hold. by destruct Hold.
Qed.

Lemma difference_cache room sets db cache r cache' :
  index_ok rank db → sets ≠ [] → cache_ok db cache →
  AuthChainReads.get_auth_chain_difference engine forget room sets db cache = Ok (r, cache') → cache_ok db cache'.
Proof.
  intros Hix Hne Hc. destruct (walk_difference_ok forget Hforget rank db Hix sets cache Hne Hc) as (r1 & c1 & Hw & Hc1 & _).
  unfold AuthChainReads.get_auth_chain_difference. rewrite Hw.
  case_bool_decide; [|by intros [= _ <-]]. destruct (_get_auth_chain_difference_using_cover_index_txn _ _ _ _) as [r'|x]; simpl; [by intros [= _ <-]|].
  destruct (is_NoChainCoverIndex x); [by intros [= _ <-]|done].
Qed.

Lemma chain_reachable_ok evs db cache :
  chain_reachable evs db cache → index_ok rank db ∧ tables_of evs db ∧ cache_ok db cache.
Proof.
  unfold chain_reachable. intros Hs.
  assert (Hg : ∀ w w', rtc chain_step w w' → index_ok rank w.1.2 ∧ tables_of w.1.1 w.1.2 ∧ cache_ok w.1.2 w.2 → index_ok rank w'.1.2 ∧ tables_of w'.1.1 w'.1.2 ∧ cache_ok w'.1.2 w'.2).
  2: { refine (Hg _ _ Hs _). split; [apply empty_ok|]. split; [apply (empty_tables_of rank)|]. intros e l Hl. simpl in Hl. by rewrite lookup_empty in Hl. }
  clear Hs. induction 1 as [|w1 w2 w3 H12 _ IH]; [done|]. intros (Hix & Ht & Hc). apply IH. clear IH.
  destruct H12 as [evs1 db1 c1 events db2 Hh Hlate Hp|evs1 db1 c1 room ids ig r c2 Hr|evs1 db1 c1 room sets r c2 Hne Hr|evs1 db1 c1 c2 Hsub]; simpl in *.
  - destruct (persist_step_ok rank _ _ _ Hh Hix Ht) as (Hnew & db' & Hp' & Hix' & Ht' & R1 & R2 & R3). rewrite Hp in Hp'. injection Hp' as <-.
    split; [done|]. split; [done|]. by apply (cache_kept evs1 events db1).
  - destruct (get_auth_chain_ids_ok engine forget Hforget rank db1 Hix room ids ig c1 Hc) as (r' & c' & Hr' & Hc' & _). rewrite Hr in Hr'. injection Hr' as <- <-. done.
  - split; [done|]. split; [done|]. by eapply difference_cache.
  - split; [done|]. split; [done|]. intros e l Hl. apply Hc. by eapply lookup_weaken.
Qed.
End turns.

(** ** The promise to state resolution *)

(** The stored state events, as state resolution sees them. *)
Definition stored_events (events : list Event) : EventMap :=
  list_to_map ((λ e, (event_id e, e)) <$> filter (λ e, Events.is_state e = true) events).

Lemma lookup_stored events x e :
  NoDup (event_id <$> events) → stored_events events !! x = Some e ↔ (Events.is_state e = true ∧ e ∈ events) ∧ event_id e = x.
Proof.
  intros Hnd. unfold stored_events. rewrite <- elem_of_list_to_map.
  - rewrite list_elem_of_fmap. setoid_rewrite list_elem_of_filter. split; [intros (e' & [= -> ->] & ?); done|intros [? <-]; by exists e].
  - rewrite <- list_fmap_compose. change (NoDup (event_id <$> filter (λ e, Events.is_state e = true) events)). eapply sublist_NoDup; [exact Hnd|]. apply fmap_sublist, sublist_filter.
Qed.

Lemma auth_reach_names events a b : NoDup (event_id <$> events) → auth_reach (stored_events events) a b ↔ rtc (names events) a b.
Proof.
  intros Hnd. split.
  - induction 1 as [|a e a' b He Ha _ IH]; [done|]. apply lookup_stored in He as [[Hs He] Hid]; [|done]. eapply rtc_l; [|done]. by exists e.
  - induction 1 as [|a a' b (e & He & Hs & Hid & Ha) _ IH]; [constructor|]. eapply reach_step; [|done|done]. by apply lookup_stored.
Qed.

Lemma chains_of_stored events db X b :
  NoDup (event_id <$> events) → tables_of events db → set_reaches (auth_edge db) X b ↔ in_chain_of (stored_events events) X b.
Proof.
  intros Hnd [_ Hedge]. unfold set_reaches, in_chain_of. setoid_rewrite (λ a, auth_reach_names events a b Hnd).
  assert (Hr : ∀ a, rtc (auth_edge db) a b ↔ rtc (names events) a b) by (intros a; split; apply rtc_congruence with (f := id); intros x y; by rewrite Hedge). by setoid_rewrite Hr.
Qed.

(** ** Properties *)

(** C7: storing a batch of new events never fails, when their ids are new and different, none
    of them names an auth event twice (one that does breaks the index:
    [twice_named_not_linked]), and auth events are below the events that name them in some
    [rank].  All that is true of the chain cover index before is true of it after, so that
    for any two indexed events one is in the auth chain of the other exactly when the index
    says so; no indexed event is moved.  A new state event of a room with an index is indexed
    exactly when its whole auth chain is known, and otherwise waits for the rest. *)
Theorem auth_index_kept `{IterOrderOk} (rank : string → nat) (db : ChainDb) (events : list Event) :
  index_ok rank db → new_events rank db events →
  ∃ db', persist_auth_chains events db = Ok db' ∧ index_ok rank db' ∧ cd_chains db ⊆ cd_chains db' ∧
    (∀ a b ta tb, cd_chains db' !! a = Some ta → cd_chains db' !! b = Some tb → tc (auth_edge db') a b ↔ covered db' ta tb) ∧
    ∀ e, e ∈ events → Events.is_state e = true → room_id e ∈ cd_index_rooms db →
      (is_Some (cd_chains db' !! event_id e) ↔ ∀ x, rtc (auth_edge db') (event_id e) x → is_Some (state_event db' x)) ∧
      (cd_chains db' !! event_id e = None → room_id e ≠ "" → is_Some (cd_to_calculate db' !! event_id e)).
Proof.
  intros Hix Hnew. destruct (persist_auth_chains_ok rank db Hix events Hnew) as (db' & E & Hix' & _ & _ & Hsub & Hev). exists db'. split_and!; [done|done|done| |done].
  intros a b ta tb. by apply (covered_iff rank).
Qed.

(** C8: storing and reading in turns, from empty tables and an empty cache, where the events
    have different ids, none names an auth event twice, auth events rank below the events that
    name them ([history_ok]) and are not stored after them ([chain_step]; an auth event that is
    stored later is missed by what was cached before, [stale_auth_cache]).  Then storing a
    further batch does not fail, and [get_auth_chain_ids] returns exactly the events that are
    in the auth chains of the given ones, following the stored state events, and the given
    ones when asked for: with the index where there is one, with the walk where not, on either
    database, whatever the cache has kept or forgotten. *)
Theorem stored_auth_chains `{IterOrderOk} engine forget (rank : string → nat) rooms evs db cache :
  (∀ c, forget c ⊆ c) → chain_reachable engine forget rank rooms evs db cache →
  (∀ events, history_ok rank (evs ++ events) → ∃ db', persist_auth_chains events db = Ok db') ∧
  ∀ room ids include_given,
    ∃ r cache', get_auth_chain_ids engine forget room ids include_given db cache = Ok (r, cache') ∧
      ∀ e, e ∈ r ↔ (include_given = true ∧ e ∈ ids) ∨ ∃ a, a ∈ ids ∧ tc (names_stored evs) a e.
Proof.
  intros Hf Hr. destruct (chain_reachable_ok engine forget Hf rank rooms evs db cache Hr) as (Hix & Ht & Hc). split.
  - intros events Hh. destruct (persist_step_ok rank _ _ _ Hh Hix Ht) as (_ & db' & Hp & _). by exists db'.
  - intros room ids ig. destruct (get_auth_chain_ids_ok engine forget Hf rank db Hix room ids ig cache Hc) as (r & c' & Er & _ & He). exists r, c'. split; [done|]. intros e. rewrite He.
    assert (Htc : ∀ a, tc (known_edge db) a e ↔ tc (names_stored evs) a e) by (intros a; split; apply tc_congruence with (f := id); intros x y; by rewrite (tables_known _ db x y Ht)). by setoid_rewrite Htc.
Qed.

(** C9: from the index, the auth chain difference is exact: the events that are in the auth
    chain of some state set (the sets' own events included) and not in that of every one,
    also when events of the sets wait to be indexed.  It fails only, with
    [_NoChainCoverIndex], when an event of the sets is neither indexed nor waiting. *)
Theorem index_difference_exact `{IterOrderOk} engine (rank : string → nat) (db : ChainDb) room (sets : list (gset string)) :
  index_ok rank db → sets ≠ [] →
  (∀ S a x y, S ∈ sets → a ∈ S → rtc (auth_edge db) a x → cd_chains db !! x = None → auth_edge db x y → x ∈ dom (event_to_auth_ids db room)) →
  match _get_auth_chain_difference_using_cover_index_txn engine room sets db with
  | Ok (r, _) => ∀ e, e ∈ r ↔ in_difference (auth_edge db) sets e
  | Err x => x = _NoChainCoverIndex ∧ ∃ S e, S ∈ sets ∧ e ∈ S ∧ cd_chains db !! e = None ∧ e ∉ dom (event_to_auth_ids db room)
  end.
Proof. intros Hix Hne Hw. by apply (cover_difference_ok engine rank db Hix room sets). Qed.

(** C10: what the tables promise to state resolution.  Batches of events are stored in empty
    tables, with different ids, none naming an auth event twice, and auth events ranking below
    the events that name them ([history_ok]).  Then, in a room with an index, the difference of
    state sets of indexed events is, among the stored events, the one that the resolution
    algorithm relies on: the events in the auth chain of some set and not of every one. *)
Theorem stored_difference_meets_law `{IterOrderOk} engine forget (rank : string → nat) rooms (batches : list (list Event)) :
  history_ok rank (concat batches) →
  ∃ db, persist_all batches (empty_tables rooms) = Ok db ∧
    ∀ room sets cache, sets ≠ [] → room ∈ cd_index_rooms db → (∀ S e, S ∈ sets → e ∈ S → is_Some (cd_chains db !! e)) →
      ∃ r, AuthChainReads.get_auth_chain_difference engine forget room sets db cache = Ok (r, cache) ∧
        ∀ b, b ∈ r ↔ (∃ X, X ∈ sets ∧ in_chain_of (stored_events (concat batches)) X b) ∧ ¬ (∀ X, X ∈ sets → in_chain_of (stored_events (concat batches)) X b).
Proof.
  intros Hh. destruct (persist_all_ok rank rooms batches Hh) as (db & E & Hix & Ht). exists db. split; [done|]. intros room sets cache Hne Hroom Hin.
  destruct (get_auth_chain_difference_indexed engine forget rank db Hix room sets cache Hne Hroom Hin) as (r & Er & Hr). exists r. split; [done|]. intros b. rewrite Hr. unfold in_difference.
  by setoid_rewrite (λ X, chains_of_stored _ db X b (ho_ids _ _ Hh) Ht).
Qed.

(** C11: the walk without the index, after storing and reading in turns as in C8 (so that the
    cache of auth events it uses is up to date), ends and never fails; what it returns has
    every event of the difference of the auth chains, following the stored state events, and
    only events that some set reaches (it may return some that every set reaches:
    [walk_difference_inexact]). *)
Theorem walk_difference_covers `{IterOrderOk} engine forget (rank : string → nat) rooms evs db cache (sets : list (gset string)) :
  (∀ c, forget c ⊆ c) → chain_reachable engine forget rank rooms evs db cache → sets ≠ [] →
  ∃ r cache', _get_auth_chain_difference_txn forget sets db cache = Ok (r, cache') ∧
    (∀ e, in_difference (names_stored evs) sets e → e ∈ r) ∧ ∀ e, e ∈ r → ∃ S, S ∈ sets ∧ set_reaches (names_stored evs) S e.
Proof.
  intros Hf Hr Hne. destruct (chain_reachable_ok engine forget Hf rank rooms evs db cache Hr) as (Hix & Ht & Hc).
  destruct (walk_difference_ok forget Hf rank db Hix sets cache Hne Hc) as (r & c' & Hw & _ & Hall & Hin). exists r, c'. split; [done|].
  assert (Hreach : ∀ S e, set_reaches (known_edge db) S e ↔ set_reaches (names_stored evs) S e).
  { intros S e. unfold set_reaches. assert (Hrt : ∀ a, rtc (known_edge db) a e ↔ rtc (names_stored evs) a e) by (intros a; split; apply rtc_congruence with (f := id); intros x y; by rewrite (tables_known _ db x y Ht)). by setoid_rewrite Hrt. }
  split.
  - intros e [(S & HS & He) Hn]. apply Hall. split; [exists S; by rewrite Hreach|]. intros Hx. apply Hn. intros S' HS'. rewrite <- Hreach. by apply Hx.
  - intros e (S & HS & He)%Hin. exists S. split; [done|]. by apply Hreach.
Qed.

(** ** Examples *)

Definition sample_event (id typ k : string) (d : Z) (auths : list string) : Event := {|
  event_id := id; type := typ; sender := "@a:x"; room_id := "!r"; ev_state_key := Some k;
  content := []; ev_prev_events := []; ev_auth_events := auths;
  origin_server_ts := 9; depth := d; signatures := []; ev_redacts := None;
  room_version := RoomVersions.V10; rejected_reason := None; recheck_redaction := false |}.

(** The room of the comment in [_get_auth_chain_difference_txn]. *)
Definition comment_room : list Event :=
  [sample_event "E" "m.room.create" "" 1 []; sample_event "D" "t" "d" 2 ["E"]; sample_event "C" "t" "c" 3 ["D"];
   sample_event "A" "t" "a" 4 ["C"]; sample_event "B" "t" "b" 4 ["C"; "E"]].

(** A room whose member changes a name and sets a topic; a membership of another member whose
    auth events are not all known. *)
Definition topic_room : list Event :=
  [sample_event "c" "m.room.create" "" 1 []; sample_event "a" "m.room.member" "@u" 2 ["c"]; sample_event "b" "m.room.topic" "" 3 ["c"; "a"];
   sample_event "p1" "m.room.member" "@u" 4 ["c"; "a"]; sample_event "p2" "m.room.member" "@u" 5 ["c"; "p1"]; sample_event "q" "m.room.member" "@u" 6 ["c"; "p2"];
   sample_event "b2" "m.room.topic" "" 7 ["c"; "q"]].
Definition out_of_band : list Event := [sample_event "m" "m.room.member" "@v" 9 ["c"; "x"]].

Definition sample_rank (e : string) : nat :=
  default 0%nat ((list_to_map (imap (λ i e, (event_id e, S i)) (topic_room ++ out_of_band)) : gmap string nat) !! e).

Definition tables_after (batches : list (list Event)) : ChainDb :=
  match persist_all batches (empty_tables {["!r"]}) with Ok db => db | Err _ => empty_tables ∅ end.

Lemma history_check rank events :
  bool_decide (NoDup (event_id <$> events) ∧ Forall (λ e, NoDup (auth_event_ids e) ∧ Forall (λ a, (rank a < rank (event_id e))%nat) (auth_event_ids e)) events) = true → history_ok rank events.
Proof. intros [H1 H2]%bool_decide_eq_true. rewrite Forall_forall in H2. split; [done|by intros e [? _]%H2|]. intros e a [_ He]%H2. rewrite Forall_forall in He. by apply He. Qed.

Lemma sample_history : history_ok sample_rank (concat [topic_room; out_of_band]).
Proof. apply history_check. by vm_compute. Qed.

Lemma sample_index : index_ok sample_rank (tables_after [topic_room; out_of_band]).
Proof. unfold tables_after. by destruct (persist_all_ok sample_rank {["!r"]} _ sample_history) as (db & -> & Hix & _). Qed.

Lemma sample_cache db : cache_ok db ∅.
Proof. by intros e l ?%lookup_empty_Some. Qed.

Lemma auth_index_kept_witness :
  ∃ db', persist_auth_chains topic_room (empty_tables {["!r"]}) = Ok db' ∧ index_ok sample_rank db' ∧
    cd_chains db' !! "q" = Some (3, 4) ∧ linked (cd_links db') (3, 4) (4, 1).
Proof.
  destruct (auth_index_kept sample_rank (empty_tables {["!r"]}) topic_room (empty_ok _ _)) as (db' & E & Hix & _).
  - assert (Hh : history_ok sample_rank topic_room) by (apply history_check; by vm_compute). destruct Hh as [H1 H2 H3]. by split.
  - exists db'. split_and!; [done|done|..]; vm_compute in E; injection E as <-; [done|]. exists 1, 1. split_and!; [|done|done]. apply (bool_decide_unpack _). by vm_compute.
Defined.

(** The two batches are stored, with a read in between. *)
Definition sample_cache1 : AuthCache :=
  match get_auth_chain_ids Sqlite3Engine id "!r" ["q"] false (tables_after [topic_room]) ∅ with Ok (_, c) => c | Err _ => ∅ end.

Lemma sample_reachable :
  chain_reachable Sqlite3Engine id sample_rank {["!r"]} (topic_room ++ out_of_band) (tables_after [topic_room; out_of_band]) sample_cache1.
Proof.
  unfold chain_reachable. eapply rtc_l; [apply (CStore _ _ _ [] _ _ topic_room (tables_after [topic_room]))|].
  - apply history_check. by vm_compute.
  - by intros e a (ev & ?%not_elem_of_nil & _).
  - vm_compute. reflexivity.
  - eapply rtc_l; [apply (CChain _ _ _ topic_room (tables_after [topic_room]) ∅ "!r" ["q"] false
      (match get_auth_chain_ids Sqlite3Engine id "!r" ["q"] false (tables_after [topic_room]) ∅ with Ok (r, _) => r | Err _ => ∅ end) sample_cache1); vm_compute; reflexivity|].
    eapply rtc_l; [|apply rtc_refl]. apply (CStore _ _ _ topic_room _ _ out_of_band).
    + exact sample_history.
    + assert (Hall : Forall (λ ev, Forall (λ a, a ∉ event_id <$> out_of_band) (auth_event_ids ev)) topic_room) by (apply (bool_decide_unpack _); by vm_compute).
      intros e a (ev & Hev & _ & _ & Ha). rewrite Forall_forall in Hall. specialize (Hall ev Hev). rewrite Forall_forall in Hall. by apply Hall.
    + vm_compute. reflexivity.
Qed.

Lemma stored_auth_chains_witness :
  ∃ r c, get_auth_chain_ids Sqlite3Engine id "!r" ["m"; "p1"] false (tables_after [topic_room; out_of_band]) sample_cache1 = Ok (r, c) ∧
    (∀ e, e ∈ r ↔ (false = true ∧ e ∈ ["m"; "p1"]) ∨ ∃ a, a ∈ ["m"; "p1"] ∧ tc (names_stored (topic_room ++ out_of_band)) a e) ∧ elements r = ["c"; "a"].
Proof.
  destruct (stored_auth_chains Sqlite3Engine id sample_rank {["!r"]} _ _ _ ltac:(done) sample_reachable) as [_ Hr].
  destruct (Hr "!r" ["m"; "p1"] false) as (r & c & Er & He). exists r, c. split_and!; [done|done|]. clear He Hr. vm_compute in Er. injection Er as <- _. by vm_compute.
Defined.

(** The event that waits is in one of the sets. *)
Lemma index_difference_exact_witness :
  ∃ r sets, _get_auth_chain_difference_using_cover_index_txn PostgresEngine "!r" [{["m"; "q"]}; {["b2"]}] (tables_after [topic_room; out_of_band]) = Ok (r, sets) ∧
    (∀ e, e ∈ r ↔ in_difference (auth_edge (tables_after [topic_room; out_of_band])) [{["m"; "q"]}; {["b2"]}] e) ∧ elements r = ["m"; "b2"; "x"].
Proof.
  pose proof (index_difference_exact PostgresEngine sample_rank (tables_after [topic_room; out_of_band]) "!r" [{["m"; "q"]}; {["b2"]}] sample_index ltac:(done)) as Hd.
  destruct (_get_auth_chain_difference_using_cover_index_txn _ _ _ _) as [[r sets]|x] eqn:E; [|by vm_compute in E].
  exists r, sets. split_and!; [done| |vm_compute in E; injection E as <- _; by vm_compute]. apply Hd. intros S a x y _ _ _ Hn He. apply elem_of_dom.
  assert (Hall : Forall (λ r : string * string, cd_chains (tables_after [topic_room; out_of_band]) !! r.1 = None → is_Some (event_to_auth_ids (tables_after [topic_room; out_of_band]) "!r" !! r.1)) (cd_event_auth (tables_after [topic_room; out_of_band]))) by (apply (bool_decide_unpack _); by vm_compute).
  rewrite Forall_forall in Hall. exact (Hall (x, y) He Hn).
Defined.

Lemma stored_difference_meets_law_witness :
  ∃ db r, persist_all [topic_room; out_of_band] (empty_tables {["!r"]}) = Ok db ∧
    AuthChainReads.get_auth_chain_difference PostgresEngine id "!r" [{["b"; "q"]}; {["b2"; "q"]}] db ∅ = Ok (r, ∅) ∧ elements r = ["b2"; "b"].
Proof.
  destruct (stored_difference_meets_law PostgresEngine id sample_rank {["!r"]} [topic_room; out_of_band] sample_history) as (db & E & Hr). exists db.
  destruct (Hr "!r" [{["b"; "q"]}; {["b2"; "q"]}] ∅) as (r & Er & _); [done|..].
  - vm_compute in E. injection E as <-. apply (bool_decide_unpack _). by vm_compute.
  - vm_compute in E. injection E as <-. intros S e HS He.
    assert (Hall : Forall (λ S, set_Forall (λ e, is_Some (cd_chains (tables_after [topic_room; out_of_band]) !! e)) S) ([{["b"; "q"]}; {["b2"; "q"]}] : list (gset string))) by (apply (bool_decide_unpack _); by vm_compute).
    rewrite Forall_forall in Hall. exact (Hall S HS e He).
  - exists r. split_and!; [done|done|]. clear Hr. vm_compute in E. injection E as <-. vm_compute in Er. injection Er as <-. by vm_compute.
Defined.

Lemma walk_difference_covers_witness :
  ∃ r c, _get_auth_chain_difference_txn id [{["b"; "q"]}; {["b2"; "q"]}] (tables_after [topic_room; out_of_band]) sample_cache1 = Ok (r, c) ∧
    (∀ e, in_difference (names_stored (topic_room ++ out_of_band)) [{["b"; "q"]}; {["b2"; "q"]}] e → e ∈ r).
Proof.
  destruct (walk_difference_covers Sqlite3Engine id sample_rank {["!r"]} _ _ _ [{["b"; "q"]}; {["b2"; "q"]}] ltac:(done) sample_reachable ltac:(done)) as (r & c & E & Hr & _).
  exists r, c. split; [exact E|exact Hr].
Defined.

(** The walk stops when every set reaches the events of its search, although an event it has
    dealt with may be reached through one of those only: in the room of the comment it
    returns [E], and in the other room [a], which both sets reach. *)
Example walk_difference_inexact :
  (λ r, elements r.1) <$> _get_auth_chain_difference_txn id [{["A"]}; {["B"]}] (tables_after [comment_room]) ∅ = Ok ["E"; "A"; "B"] ∧
  (λ r, elements r.1) <$> _get_auth_chain_difference_using_cover_index_txn PostgresEngine "!r" [{["A"]}; {["B"]}] (tables_after [comment_room]) = Ok ["A"; "B"] ∧
  (λ r, elements r.1) <$> _get_auth_chain_difference_txn id [{["b"; "q"]}; {["b2"; "q"]}] (tables_after [topic_room]) ∅ = Ok ["a"; "b2"; "b"] ∧
  (λ r, elements r.1) <$> _get_auth_chain_difference_using_cover_index_txn PostgresEngine "!r" [{["b"; "q"]}; {["b2"; "q"]}] (tables_after [topic_room]) = Ok ["b2"; "b"].
Proof. split_and!; by vm_compute. Qed.

(** An event that names an auth event twice: each of the two is taken to be reachable from
    the other, no link is made, and the index knows nothing of its auth chain. *)
Definition twice_named : list Event :=
  [sample_event "c" "m.room.create" "" 1 []; sample_event "a" "m.room.member" "@u" 2 ["c"]; sample_event "b" "m.room.topic" "" 3 ["c"; "a"; "a"]].

Example twice_named_not_linked :
  elements <$> _get_auth_chain_ids_using_cover_index_txn Sqlite3Engine ["b"] false (tables_after [twice_named]) = Ok [] ∧
  (λ r, elements r.1) <$> _get_auth_chain_ids_txn id ["b"] false (tables_after [twice_named]) ∅ = Ok ["c"; "a"].
Proof. split; by vm_compute. Qed.

(** The transaction changes the caller's sets: run again with them, it returns nothing. *)
Example second_run_loses_events :
  let txn sets := _get_auth_chain_difference_using_cover_index_txn PostgresEngine "!r" sets (tables_after [topic_room; out_of_band]) in
  (λ r, elements r.1) <$> txn [{["m"; "q"]}; {["q"]}] = Ok ["m"; "x"] ∧
  (λ r, elements r.1) <$> (r ← txn [{["m"; "q"]}; {["q"]}]; txn r.2) = Ok [].
Proof. split; by vm_compute. Qed.

(** Auth events that were not known when the others were cached are not found later. *)
Definition late_event : list Event := [sample_event "x" "m.room.member" "@w" 8 ["c"]].

Example stale_auth_cache :
  let before := tables_after [topic_room; out_of_band] in
  let after := tables_after [topic_room; out_of_band; late_event] in
  (λ r, elements r.1) <$> _get_auth_chain_ids_txn id ["m"] false after ∅ = Ok ["c"; "x"] ∧
  (λ r, elements r.1) <$> (r ← _get_auth_chain_ids_txn id ["m"] false before ∅; _get_auth_chain_ids_txn id ["m"] false after r.2) = Ok ["c"].
Proof. split; by vm_compute. Qed.
